(* ===== verification/_CoqProject ===== *)
-Q . S2P
Prelude.v
Errors.v
Arith.v
Ast.v
Lexer.v
TypeCheck.v
ConstFold.v
Parser.v
SymbolTable.v
SignalProgram.v
Rolling.v
Context.v
Interpreter.v
JitRuntime.v
Gradient.v
Autodiff.v
ForwardGradient.v
Formatter.v
Canonical.v
AstPrinter.v
LatencyHistogram.v
Lowered.v
Ir.v
JitCompiler.v
VectorCompiler.v
GradientCompiler.v
Calibration.v
Backtest.v
MarketSim.v
ModuleCache.v
CompilerEntries.v
RealArith.v
Calculus.v
ArithLaws.v
RollingFacts.v
WindowFacts.v
MonoFacts.v
PairFacts.v
FilterFacts.v
SafetyFacts.v
AllocFacts.v
PipelineFacts.v
RefineFacts.v
FoldFacts.v
AutodiffFacts.v
JitFacts.v
IrFacts.v
EmitFacts.v
JitCompilerFacts.v
VectorFacts.v
GradOpFacts.v
GradEmitFacts.v
GradientCompilerFacts.v
LoweredFacts.v
LoweredExactFacts.v
GradientFacts.v
ForwardGradientFacts.v
WindowGradientFacts.v
PairGradientFacts.v
FamilyFacts.v
FamilyOperators.v
DerivativeFacts.v
Spsc.v
SpscFacts.v
Multithread.v
MultithreadFacts.v
TypeFacts.v
LexerFacts.v
ParserFacts.v
FormatterFacts.v
CanonicalFacts.v
AstPrinterFacts.v
ModuleCacheFacts.v
CompilerEntriesFacts.v
LatencyFacts.v
CalibrationFacts.v
BacktestFacts.v
MarketSimFacts.v
ProgramFacts.v
InlineFacts.v
