(* ===== verification/Prelude.v ===== *)
(** * jit-signal-engine: a verification development

    The program evaluates trading signals written in a small language:
    a source text is lexed, parsed, type checked, folded and inlined into
    trees; the stateful calls of the trees are numbered; the numbers index
    the slots of an evaluation context; a tick of market data is then run
    through the trees, by a tree-walking interpreter or by code generated
    through LLVM that calls back into the same runtime or, for operators it
    lowers, works on plain structs of its own.  Both also compute the
    derivative of a signal with respect to a parameter.

    ** Parts and files

    Paths are those of src/src/ unless they name another directory of src/.
    A name in the files is the source's name
    for the function or type it models.

    - Errors: source locations and diagnostics (lexer.h, parser.cpp), and
      the error monad [Res].  [RuntimeError] and [ParseError] are the
      exceptions of the program; [Undefined] is an access or a cast C++ does
      not define; [OutOfFuel] is a loop that has not ended.
    - Arith: [double] and [long double] as the interface [Machine], with two
      instances: [ieee], the executable IEEE formats of x86-64, and
      (RealArith) [exact], real numbers with a NaN.
    - Ast (ast.h, ast_clone.cpp, ast_utils.cpp), Lexer (lexer.cpp), Parser
      (parser.cpp), TypeCheck (type_check.cpp), ConstFold
      (constant_fold.cpp): the front end for one definition.
    - Formatter (dsl_formatter.cpp): printing definitions and programs back;
      AstPrinter (ast_printer.cpp): the dump of a tree.
    - SignalProgram (signal_program.cpp): programs of several lines, the
      inlining of references by depth-first search, the numbering of the
      stateful calls with sharing of equal calls, the binding of tickers.
    - SymbolTable, Rolling, Context, JitRuntime, Gradient (runtime.h,
      runtime.cpp): ticker ids; the rings, deques and filters behind the
      stateful builtins; the context's arrays, their growth and prewarming,
      the multi-symbol arena; the [jit_rt_*] entry points of generated code
      and their [*_grad] variants with the sensitivity states.
    - Interpreter (interpreter.cpp): the visitor, with its per-tick cache.
    - Autodiff, ForwardGradient (autodiff.cpp): symbolic gradients of
      stateless signals; the interpreter that carries derivatives forward.
    - Ir, JitCompiler, GradientCompiler, VectorCompiler, Lowered
      (jit_compiler.cpp, with the lowered structs of runtime.cpp): the code
      the compiler emits, as a small language with a verifier and an
      execution; the emission of trees and programs in the scalar, the
      gradient and the vectorised mode (several symbols at once); the code
      of the lowered operators.
    - Canonical (ast_clone.cpp), ModuleCache, CompilerEntries
      (jit_compiler.cpp): the canonical text of a tree; the compiler object,
      its cache of compiled modules on disk, and the wrapper of two tiers;
      all entries of the compiler with their function pointers.
    - Multithread (multithread_eval.cpp), Spsc (spsc_ring.h): evaluation of
      many symbols in shards, and the lock-free ring.
    - LatencyHistogram (bench/latency_histogram.cpp), Calibration
      (cli/jitse_calibrate.cpp), Backtest (examples/backtest_runner.cpp):
      the benchmarks' histogram; fitting a program's parameters by gradient
      descent; replaying events and correlating signals with returns.
    - MarketSim (market_sim.cpp): the random walk that feeds demonstrations;
      what the random engine draws is an argument.

    How they interact: SignalProgram calls Lexer, Parser, TypeCheck and
    ConstFold and writes the node and symbol ids into the trees; Context
    allocates one slot per id ([PrewarmSignalContext]); Interpreter,
    ForwardGradient, JitRuntime and Gradient read and write those slots
    through [with_node], [with_grad] and [Slots]; the code JitCompiler and
    GradientCompiler emit runs by calling JitRuntime, Gradient or Lowered;
    ModuleCache and CompilerEntries hand out that code; Multithread runs a
    program's step function on the contexts of an arena, as does Backtest;
    Calibration runs a compiled gradient program.

    ** What the theorems show

    - Front end: LexerFacts (the lexer ends and loses nothing), ParserFacts
      (the parser decides a precedence grammar), TypeFacts (the checker
      decides the typing rules), ProgramFacts (parsing a program text),
      InlineFacts (inlining ends; it throws exactly on duplicates and
      cycles), FoldFacts over RefineFacts (folding preserves evaluation
      except for [==] and [!=], where it is shown to differ),
      FormatterFacts (a printed definition is read back; the definitions that
      lose their parentheses and are not), AstPrinterFacts (a dump identifies
      the tree).
    - Numbering and memory safety: AllocFacts (which calls share an id),
      SafetyFacts and PipelineFacts (after numbering, binding and prewarming,
      no evaluation indexes out of range or performs an undefined cast).
    - Numerics, in exact arithmetic unless said otherwise: RollingFacts (the
      incremental mean and variance are those of the window), MonoFacts (the
      rolling extrema, in any total order), PairFacts (vwap, correlation,
      beta), FilterFacts (ema and Kalman bounds and stability), WindowFacts
      (a NaN in IEEE arithmetic stays in the running sum for ever).
      ArithLaws states the laws of [Machine] the IEEE-independent proofs use.
    - Derivatives: AutodiffFacts (gradient signals are derivatives);
      GradientFacts, WindowGradientFacts and PairGradientFacts over Calculus
      (the [*_grad] entry points return the operators' derivatives, and a
      case in which rolling_std's does not); ForwardGradientFacts (the
      gradient interpreter's values are the interpreter's); DerivativeFacts
      over FamilyFacts and FamilyOperators (on trees with state it returns the
      derivative of the interpreter's result wherever the run is regular);
      CalibrationFacts (the calibrator's gradient is its objective's
      derivative; the optimiser's steps are bounded; what is reported).
    - Generated code: JitFacts (the runtime calls agree bit for bit with the
      interpreter's steps, and where they do not); JitCompilerFacts over
      IrFacts and EmitFacts (a compiled program computes what the
      interpreter computes); GradientCompilerFacts over GradOpFacts and
      GradEmitFacts (a compiled gradient program computes what the gradient
      interpreter computes); VectorFacts (a vectorised call does what the
      scalar calls of its lanes do); LoweredFacts and LoweredExactFacts (lowered
      operators against the runtime's, bit for bit or in exact arithmetic;
      specialised code may take over once the threshold is reached);
      ModuleCacheFacts over CanonicalFacts (the cache changes no answer if
      the hash and the texts tell programs apart; whichever symbol table it
      asks with, a second compiler is handed the first one's code for a text;
      the two tiers are a machine with three states);
      CompilerEntriesFacts (which function pointers an entry leaves, and an
      order of entries that fails).
    - Measuring: LatencyFacts (how far the histogram's percentiles are from
      the samples'), BacktestFacts (what the replay's series hold and its
      correlations compute), MarketSimFacts (the simulated quotes are positive).
    - Concurrency: SpscFacts (safety of the ring under every interleaving
      with stale acquire loads; refinement of a bounded queue),
      MultithreadFacts (every shard alone, and any interleaving of the
      shards, does what the sequential loop does).

    ** Fuel and bounds

    The lexer's and the parser's loops are fuelled by the number of
    characters and tokens left, the search of the inliner by the number of
    signals; Tokenize_tiles, ParseSignalDef_decides, ParseProgram_correct and
    InlineSignalDependencies_correct include that this suffices.  The deque's
    loops run on its element count.  [size_t] counters that can wrap are
    reduced modulo 2^64, [uint32_t] columns and lines modulo 2^32; a [size_t]
    bounded by a container's length is a [nat].  The tick counters of the
    lowered structs are 64-bit numbers: the theorems on them speak of fewer
    than 2^63 ticks.  A compiler numbers the functions it builds with a
    64-bit counter and the theorems of ModuleCacheFacts speak of fewer than
    10^15 requests.

    ** Not modelled

    - The parts of compilation that are LLVM's: the optimiser, the code
      generator, the linker and the bitcode format.  A compiled function is
      the code that was emitted.  Of jit_compiler.cpp also: the dumps of IR
      and assembly, the timings, and the stubs for builds without LLVM.
    - signal_backend.cpp (forwarding); of the command-line programs the
      arguments, the files and the reports, and main.cpp; the other
      benchmarks, which time the parts above; the histogram's SVG plot and
      the journal of the back-test, whose reader is a submodule.
    - The sign and payload of NaNs, and the iteration order of
      [unordered_set], which the theorems quantify over.

    ** Order of the remaining work

    The reports of the command-line programs; in the derivative of whole
    trees, rolling_std, zscore and the rolling extrema. *)

From stdpp Require Export base tactics list numbers strings gmap.
From Stdlib Require Export ZArith Lia.

#[global] Set Default Goal Selector "!".
#[global] Open Scope nat_scope.

(** ** Generic tactics *)

(** Split a conjunction of boolean tests that is known to be [true]. *)
Ltac split_andb :=
  repeat match goal with
  | H : (_ && _)%bool = true |- _ => apply andb_prop in H; destruct H
  end.

(** Case analysis on the scrutinee of a [match] or an [if], goal first. *)
Ltac destr_match :=
  match goal with
  | |- context [match ?x with _ => _ end] => destruct x eqn:?
  | H : context [match ?x with _ => _ end] |- _ => destruct x eqn:?
  end.

(** Close a goal whose hypotheses equate distinct constructors, after
    rewriting with every equation between variables. *)
Ltac inv_eq := repeat (simplify_eq || discriminate).

(** ** Ring buffers

    Every windowed operator of the runtime keeps its samples in a vector
    of length [capacity] written at [head], with [head] stepping modulo
    the capacity.  The lemmas below relate that representation to the
    list of all samples written so far. *)

Section ring.
Context {A : Type}.

(** The samples of a full ring in the order in which they were written:
    the slot at [head] is the oldest one. *)
Definition ring_order (buf : list A) (head : nat) : list A :=
  drop head buf ++ take head buf.

(** The last [n] elements of a list. *)
Definition last_n (n : nat) (l : list A) : list A := drop (length l - n) l.

Lemma length_last_n n l : length (last_n n l) = min n (length l).
Proof. unfold last_n. rewrite length_drop. lia. Qed.

Lemma last_n_all n l : length l <= n -> last_n n l = l.
Proof. intros. unfold last_n. replace (length l - n) with 0 by lia. done. Qed.

Lemma last_n_snoc_short n l x :
  length l < n -> last_n n (l ++ [x]) = last_n n l ++ [x].
Proof.
  intros. rewrite !last_n_all; [done| |rewrite length_app; simpl]; lia.
Qed.

Lemma last_n_snoc n l x :
  0 < n -> n <= length l ->
  last_n n (l ++ [x]) = tail (last_n n l) ++ [x].
Proof.
  intros Hn Hl. unfold last_n. rewrite length_app. simpl.
  rewrite drop_app_le by lia.
  replace (length l + 1 - n) with (S (length l - n)) by lia.
  f_equal. clear Hn Hl. generalize (length l - n) as m. intros m. revert l.
  induction m as [|m IH]; intros l.
  - by destruct l.
  - destruct l as [|y l]; [done|]. simpl in *. apply IH.
Qed.

Lemma ring_order_full_step buf head x y :
  head < length buf ->
  buf !! head = Some y ->
  ring_order (<[head := x]> buf) (S head mod length buf) =
    tail (ring_order buf head) ++ [x].
Proof.
  intros _ Hy.
  apply list_elem_of_split_length in Hy as (l1 & l2 & -> & ->).
  unfold ring_order.
  replace (<[length l1 := x]> (l1 ++ y :: l2)) with (l1 ++ x :: l2)
    by (rewrite <- (Nat.add_0_r (length l1)), insert_app_r; done).
  rewrite drop_app_length, take_app_length. simpl.
  rewrite length_app. simpl.
  destruct l2 as [|z l2]; simpl.
  - replace (length l1 + 1) with (S (length l1)) by lia.
    by rewrite Nat.Div0.mod_same, take_0, drop_0, app_nil_r.
  - rewrite Nat.mod_small by lia.
    replace (l1 ++ x :: z :: l2) with ((l1 ++ [x]) ++ z :: l2)
      by by rewrite <- app_assoc.
    replace (S (length l1)) with (length (l1 ++ [x]))
      by (rewrite length_app; simpl; lia).
    rewrite drop_app_length, take_app_length. by rewrite <- !app_assoc.
Qed.

(** [ring_rep cap buf head count xs]: the ring holds the last [cap] of the
    samples [xs], [head] being the slot to write next. *)
Record ring_rep (cap : nat) (buf : list A) (head count : nat) (xs : list A) : Prop := {
  rr_pos : 0 < cap;
  rr_len : length buf = cap;
  rr_head : head < cap;
  rr_count : count = min cap (length xs);
  rr_short : length xs < cap -> head = length xs /\ take head buf = xs;
  rr_full : cap <= length xs -> ring_order buf head = last_n cap xs;
}.

Lemma ring_rep_nil cap buf :
  0 < cap -> length buf = cap -> ring_rep cap buf 0 0 [].
Proof.
  intros Hp Hl. split; simpl; try lia. intros _. split; [done|]. by destruct buf.
Qed.

(** Writing a sample; in a full ring the slot it replaces holds the oldest. *)
Lemma ring_rep_step cap buf head count xs x :
  ring_rep cap buf head count xs ->
  ring_rep cap (<[head := x]> buf) (S head mod cap)
    (if count =? cap then count else S count) (xs ++ [x]).
Proof.
  intros [Hp Hl Hh Hc Hs Hf].
  assert (Hlx : length (xs ++ [x]) = S (length xs)) by (rewrite length_app; simpl; lia).
  split; rewrite ?Hlx; try done.
  - by rewrite length_insert.
  - apply Nat.mod_upper_bound. lia.
  - destruct (Nat.eqb_spec count cap); lia.
  - intros Hlt. destruct Hs as [-> Htake]; [lia|]. rewrite Nat.mod_small by lia.
    split; [done|]. rewrite (take_S_r _ _ x) by (apply list_lookup_insert_eq; lia).
    rewrite take_insert_ge by lia. by rewrite Htake.
  - intros Hle. destruct (decide (length xs < cap)) as [Hlt|Hge].
    + destruct Hs as [-> Htake]; [lia|]. replace (S (length xs)) with cap by lia.
      rewrite Nat.Div0.mod_same. unfold ring_order. rewrite drop_0, take_0, app_nil_r.
      rewrite last_n_all by lia.
      assert (Htk : take (S (length xs)) (<[length xs:=x]> buf) = xs ++ [x]).
      { rewrite (take_S_r _ _ x) by (apply list_lookup_insert_eq; lia).
        rewrite take_insert_ge by lia. by rewrite Htake. }
      rewrite <- Htk. symmetry. apply take_ge. rewrite length_insert. lia.
    + destruct (lookup_lt_is_Some_2 buf head) as [y Hy]; [lia|].
      rewrite <- Hl, (ring_order_full_step _ _ _ y) by (done || lia).
      rewrite Hf by lia. rewrite last_n_snoc by lia. by rewrite Hl.
Qed.

Lemma ring_rep_oldest cap buf head count xs y :
  ring_rep cap buf head count xs -> cap <= length xs -> buf !! head = Some y ->
  last_n cap xs = y :: tail (last_n cap xs) /\ xs !! (length xs - cap) = Some y.
Proof.
  intros [Hp Hl Hh Hc Hs Hf] Hle Hy. rewrite <- Hf by done.
  assert (Hd : drop head buf = y :: drop (S head) buf) by (by apply drop_S).
  assert (Hro : ring_order buf head = y :: tail (ring_order buf head))
    by (unfold ring_order; by rewrite Hd).
  split; [done|].
  assert (Hx : last_n cap xs !! 0 = Some y) by (rewrite <- Hf, Hro; done).
  unfold last_n in Hx. rewrite lookup_drop, Nat.add_0_r in Hx. done.
Qed.

(** The contents of the slots [0 .. count), in some order. *)
Lemma ring_rep_contents cap buf head count xs :
  ring_rep cap buf head count xs -> take count buf ≡ₚ last_n cap xs.
Proof.
  intros [Hp Hl Hh Hc Hs Hf]. destruct (decide (length xs < cap)) as [Hlt|Hge].
  - destruct Hs as [-> Htake]; [done|].
    rewrite Hc, Nat.min_r, Htake, last_n_all by lia. done.
  - rewrite Hc, Nat.min_l, take_ge by lia. rewrite <- Hf by lia. unfold ring_order.
    rewrite (Permutation_app_comm (drop head buf)). by rewrite take_drop.
Qed.

Lemma ring_rep_full cap buf head count xs :
  ring_rep cap buf head count xs -> (count = cap <-> cap <= length xs).
Proof. intros [Hp Hl Hh Hc Hs Hf]. lia. Qed.
End ring.

Lemma string_app_assoc (a b c : string) : (a +:+ b) +:+ c = a +:+ b +:+ c.
Proof. induction a as [|x a IH]; [done|]. exact (f_equal (String x) IH). Qed.

Lemma last_n_map {A B} (f : A -> B) n l : last_n n (map f l) = map f (last_n n l).
Proof. unfold last_n. by rewrite length_map, skipn_map. Qed.

Lemma last_n_forall {A} (P : A -> Prop) n (l : list A) : Forall P l -> Forall P (last_n n l).
Proof. intros HF. by apply Forall_drop. Qed.
