(* ===== verification/Errors.v ===== *)
(** * Source locations, parse errors and the error monad

    [SourceLoc] is the location record of src/src/lexer.h, and
    [ParseError_BuildWhat] the diagnostic renderer of src/src/parser.cpp.
    Every operation of the program that can throw is a computation in
    [Res]: [RuntimeError] stands for [std::runtime_error], [ParseError]
    for the location-bearing error of src/src/parser.h, and [Undefined]
    for an access the C++ program performs without a check (an
    out-of-range vector index, a float-to-int cast that does not fit).
    [OutOfFuel] is the result of a fuelled loop whose fuel does not
    suffice; the termination theorems show it does not occur. *)

From S2P Require Import Prelude.
From stdpp Require Import pretty.

Record SourceLoc := MkLoc { loc_line : N; loc_col : N; loc_length : N }.

#[export] Instance SourceLoc_eq_dec : EqDecision SourceLoc.
Proof. solve_decision. Defined.

(** The default member initialisers: the "unknown source" sentinel. *)
Definition noloc : SourceLoc := MkLoc 0 0 0.

Inductive Error :=
| RuntimeError (msg : string)
| ParseError (msg : string) (loc : SourceLoc) (source_line : string)
| Undefined (what : string)
| OutOfFuel.

(** [n] copies of a character: the two loops that pad and underline. *)
Definition repeat_char (n : N) (c : string) : string :=
  String.concat "" (replicate (N.to_nat n) c).

Definition newline : string := String (Ascii.ascii_of_nat 10) EmptyString.

(** [ParseError::BuildWhat]. *)
Definition ParseError_BuildWhat (msg : string) (loc : SourceLoc) (source_line : string)
  : string :=
  ("error: " +:+ msg) +:+
  (if N.eqb (loc_line loc) 0 then "" else
     " at line " +:+ pretty (loc_line loc) +:+ ", col " +:+ pretty (loc_col loc)) +:+
  (if negb (N.eqb (loc_line loc) 0) && negb (String.eqb source_line "") then
     newline +:+ "  | " +:+ source_line +:+ newline +:+ "  | " +:+
     repeat_char (if N.ltb 0 (loc_col loc) then loc_col loc - 1 else 0) " " +:+
     repeat_char (if N.ltb 0 (loc_length loc) then loc_length loc else 1) "^"
   else "").

Inductive Res (A : Type) :=
| Ok (a : A)
| Err (e : Error).
Arguments Ok {A} a.
Arguments Err {A} e.

Definition rbind {A B} (m : Res A) (f : A -> Res B) : Res B :=
  match m with Ok a => f a | Err e => Err e end.
Definition rmap {A B} (f : A -> B) (m : Res A) : Res B :=
  match m with Ok a => Ok (f a) | Err e => Err e end.

Declare Scope res_scope.
Delimit Scope res_scope with res.
#[global] Open Scope res_scope.

Notation "x <- m ;; k" := (rbind m (fun x => k))
  (at level 20, m at level 99, k at level 200, right associativity) : res_scope.
Notation "' pat <- m ;; k" := (rbind m (fun x => match x with pat => k end))
  (at level 20, pat pattern, m at level 99, k at level 200, right associativity)
  : res_scope.
Notation "m1 ;;; m2" := (rbind m1 (fun _ => m2))
  (at level 100, m2 at level 200, right associativity) : res_scope.

(** A throwing check: continue when the condition holds. *)
Definition ensure (b : bool) (e : Error) : Res () := if b then Ok tt else Err e.

(** Element access without a bounds check in the source. *)
Definition at_idx {A} (what : string) (l : list A) (i : nat) : Res A :=
  match l !! i with Some x => Ok x | None => Err (Undefined what) end.

Definition is_ok {A} (r : Res A) : bool := match r with Ok _ => true | Err _ => false end.

Lemma bind_Ok {A B} (m : Res A) (f : A -> Res B) b :
  rbind m f = Ok b <-> exists a, m = Ok a /\ f a = Ok b.
Proof.
  destruct m; simpl; split; [eauto|by intros (? & [= ->] & ?)|done|by intros (? & ? & ?)].
Qed.

Lemma fmap_Ok {A B} (m : Res A) (f : A -> B) b :
  rmap f m = Ok b <-> exists a, m = Ok a /\ f a = b.
Proof.
  destruct m; simpl; split.
  - intros [= <-]. eauto.
  - by intros (? & [= ->] & <-).
  - done.
  - by intros (? & ? & ?).
Qed.

Lemma rbind_assoc {A B C} (m : Res A) (f : A -> Res B) (g : B -> Res C) :
  rbind (rbind m f) g = rbind m (fun a => rbind (f a) g).
Proof. by destruct m. Qed.

Lemma at_idx_Ok {A} what (l : list A) i x : at_idx what l i = Ok x <-> l !! i = Some x.
Proof. unfold at_idx. destruct (l !! i); split; by intros; simplify_eq. Qed.

Lemma ensure_Ok b e u : ensure b e = Ok u <-> b = true.
Proof. destruct b, u; split; by intros; simplify_eq. Qed.

(** ** Safety

    A computation is [safe P] when it performs no unchecked access outside
    an object, does not run out of fuel, and returns, if it returns, a value
    satisfying [P]; it may throw. *)
Definition safe {A} (P : A -> Prop) (r : Res A) : Prop :=
  match r with
  | Ok a => P a
  | Err (Undefined _) | Err OutOfFuel => False
  | Err _ => True
  end.

Lemma safe_bind {A B} (P : A -> Prop) (Q : B -> Prop) (m : Res A) (f : A -> Res B) :
  safe P m -> (forall a, P a -> safe Q (f a)) -> safe Q (rbind m f).
Proof. destruct m as [a|[]]; simpl; auto. Qed.

Lemma safe_rmap {A B} (P : A -> Prop) (Q : B -> Prop) (m : Res A) (f : A -> B) :
  safe P m -> (forall a, P a -> Q (f a)) -> safe Q (rmap f m).
Proof. destruct m as [a|[]]; simpl; auto. Qed.

Lemma safe_weaken {A} (P Q : A -> Prop) (m : Res A) :
  safe P m -> (forall a, P a -> Q a) -> safe Q m.
Proof. destruct m as [a|[]]; simpl; auto. Qed.

Lemma safe_ensure b msg : safe (fun _ => b = true) (ensure b (RuntimeError msg)).
Proof. by destruct b. Qed.

Lemma safe_at_idx {A} (P : A -> Prop) what (l : list A) i x :
  l !! i = Some x -> P x -> safe P (at_idx what l i).
Proof. intros Hx HP. unfold at_idx. by rewrite Hx. Qed.

(** Invert every successful monadic step in the hypotheses. *)
Ltac inv_res :=
  repeat match goal with
  | H : rbind _ _ = Ok _ |- _ => apply bind_Ok in H as (? & ? & H)
  | H : rmap _ _ = Ok _ |- _ => apply fmap_Ok in H as (? & ? & ?)
  | H : ensure _ _ = Ok _ |- _ => apply ensure_Ok in H
  | H : at_idx _ _ _ = Ok _ |- _ => apply at_idx_Ok in H
  | H : Ok _ = Ok _ |- _ => injection H as H
  | H : Err _ = Ok _ |- _ => discriminate H
  | H : Ok _ = Err _ |- _ => discriminate H
  end; simplify_eq.
