(* ===== verification/Arith.v ===== *)
(** * Floating-point arithmetic

    The program computes with [double] (the values of the DSL) and with
    x87 [long double] (the accumulators of the rolling operators).  The
    two types and the operations the source applies to them form the
    interface [Fp] / [Machine]; every component is written against it.

    - [ieee] instantiates it with the executable IEEE-754 specification of
      the Rocq core library: binary64 for [double] and the 64-bit-mantissa
      extended format of x86-64 for [long double], round to nearest even.
    - RealArith.v instantiates it with the real numbers, which gives the
      operators' exact-arithmetic meaning.

    NaN has a single representation, so the sign and the payload of a NaN
    are not modelled. *)

From S2P Require Import Prelude.
From Corelib Require Import SpecFloat.

Class Fp (T : Type) := MkFp {
  fadd : T -> T -> T;
  fsub : T -> T -> T;
  fmul : T -> T -> T;
  fdiv : T -> T -> T;
  fopp : T -> T;
  fabs : T -> T;
  fsqrt : T -> T;
  flt : T -> T -> bool;
  fle : T -> T -> bool;
  feq : T -> T -> bool;
  fisnan : T -> bool;
  fnan : T;
  (** the value of the decimal literal [m / 10^k], correctly rounded *)
  flit : Z -> nat -> T;
}.

Declare Scope fp_scope.
Delimit Scope fp_scope with fp.
Infix "+" := fadd : fp_scope.
Infix "-" := fsub : fp_scope.
Infix "*" := fmul : fp_scope.
Infix "/" := fdiv : fp_scope.
Notation "- x" := (fopp x) : fp_scope.

(** [a > b], [a >= b] and [a != b] of C++. *)
Definition fgt {T} `{Fp T} (a b : T) : bool := flt b a.
Definition fge {T} `{Fp T} (a b : T) : bool := fle b a.
Definition fne {T} `{Fp T} (a b : T) : bool := negb (feq a b).

(** An integer constant or a [size_t] converted to the type. *)
Definition fint {T} `{Fp T} (z : Z) : T := flit z 0.
Definition fnat {T} `{Fp T} (n : nat) : T := flit (Z.of_nat n) 0.
(** [b ? 1.0 : 0.0] *)
Definition fbool {T} `{Fp T} (b : bool) : T := if b then fint 1 else fint 0.

(** [double] with its bit-level equality, the conversions between the two
    formats, [static_cast<int>] ([None]: the cast is undefined) and the
    libm function the interpreter calls. *)
Class Machine (D L : Type) := MkMachine {
  dbl :: Fp D;
  ldb :: Fp L;
  ext : D -> L;
  trunc : L -> D;
  to_int : D -> option Z;
  dlog : D -> D;
}.

(** ** The IEEE-754 instance *)

Record double := Double { double_sf : spec_float }.
Record long_double := LongDouble { long_double_sf : spec_float }.

#[export] Instance spec_float_eq_dec : EqDecision spec_float.
Proof. solve_decision. Defined.
#[export] Instance double_eq_dec : EqDecision double.
Proof. solve_decision. Defined.
#[export] Instance long_double_eq_dec : EqDecision long_double.
Proof. solve_decision. Defined.

Definition prec64 : Z := 53.
Definition emax64 : Z := 1024.
Definition prec80 : Z := 64.
Definition emax80 : Z := 16384.

(** The value of [m / 10^k], rounded once. *)
Definition sf_lit (prec emax : Z) (m : Z) (k : nat) : spec_float :=
  match m with
  | Z0 => S754_zero false
  | Zpos p | Zneg p =>
      let '(q, e, l) := SFdiv_core_binary prec emax (Zpos p) 0 (10 ^ Z.of_nat k) 0 in
      binary_round_aux prec emax (Z.ltb m 0) q e l
  end.

Definition sf_isnan (x : spec_float) : bool :=
  match x with S754_nan => true | _ => false end.

Definition sf_convert (prec emax : Z) (x : spec_float) : spec_float :=
  match x with
  | S754_finite s m e => binary_round prec emax s m e
  | _ => x
  end.

(** Truncation towards zero, [None] for a NaN or an infinity. *)
Definition sf_trunc (x : spec_float) : option Z :=
  match x with
  | S754_zero _ => Some 0%Z
  | S754_finite s m e =>
      let a := if Z.leb 0 e then Z.shiftl (Zpos m) e else Z.shiftr (Zpos m) (- e) in
      Some (if s then (- a)%Z else a)
  | _ => None
  end.

(** [static_cast<int>(v)]: undefined unless the truncated value is an [int]. *)
Definition sf_to_int (x : spec_float) : option Z :=
  match sf_trunc x with
  | Some z => if ((- 2 ^ 31 <=? z) && (z <? 2 ^ 31))%Z then Some z else None
  | None => None
  end.

Definition d_op2 (f : Z -> Z -> spec_float -> spec_float -> spec_float) (a b : double) :=
  Double (f prec64 emax64 (double_sf a) (double_sf b)).
Definition l_op2 (f : Z -> Z -> spec_float -> spec_float -> spec_float) (a b : long_double) :=
  LongDouble (f prec80 emax80 (long_double_sf a) (long_double_sf b)).

#[export] Instance Fp_double : Fp double := {|
  fadd := d_op2 SFadd;
  fsub := d_op2 SFsub;
  fmul := d_op2 SFmul;
  fdiv := d_op2 SFdiv;
  fopp a := Double (SFopp (double_sf a));
  fabs a := Double (SFabs (double_sf a));
  fsqrt a := Double (SFsqrt prec64 emax64 (double_sf a));
  flt a b := SFltb (double_sf a) (double_sf b);
  fle a b := SFleb (double_sf a) (double_sf b);
  feq a b := SFeqb (double_sf a) (double_sf b);
  fisnan a := sf_isnan (double_sf a);
  fnan := Double S754_nan;
  flit m k := Double (sf_lit prec64 emax64 m k);
|}.

#[export] Instance Fp_long_double : Fp long_double := {|
  fadd := l_op2 SFadd;
  fsub := l_op2 SFsub;
  fmul := l_op2 SFmul;
  fdiv := l_op2 SFdiv;
  fopp a := LongDouble (SFopp (long_double_sf a));
  fabs a := LongDouble (SFabs (long_double_sf a));
  fsqrt a := LongDouble (SFsqrt prec80 emax80 (long_double_sf a));
  flt a b := SFltb (long_double_sf a) (long_double_sf b);
  fle a b := SFleb (long_double_sf a) (long_double_sf b);
  feq a b := SFeqb (long_double_sf a) (long_double_sf b);
  fisnan a := sf_isnan (long_double_sf a);
  fnan := LongDouble S754_nan;
  flit m k := LongDouble (sf_lit prec80 emax80 m k);
|}.

(** The machine of the program; [log] is the C library's. *)
Definition ieee (log : double -> double) : Machine double long_double := {|
  dbl := Fp_double;
  ldb := Fp_long_double;
  ext a := LongDouble (sf_convert prec80 emax80 (double_sf a));
  trunc a := Double (sf_convert prec64 emax64 (long_double_sf a));
  to_int a := sf_to_int (double_sf a);
  dlog := log;
|}.
