(* ===== verification/Ast.v ===== *)
(** * The abstract syntax of the signal DSL

    The node types of src/src/ast.h, the deep copy and the structural
    equality of src/src/ast_clone.cpp, and the ticker collection of
    src/src/ast_utils.cpp.  A [std::unique_ptr] tree has one owner, so a
    pass that rewrites nodes in place is a function from trees to trees;
    the location and the two [mutable] annotations of a call are fields of
    the node.  The tree is parametric in the literal type [D]. *)

From S2P Require Import Prelude Errors Arith.

Inductive BinaryOpKind := Add | Sub | Mul | Div | Gt | Lt | Gte | Lte | Eq | NotEq | And | Or.
Inductive UnaryOpKind := Plus | Minus.

#[export] Instance BinaryOpKind_eq_dec : EqDecision BinaryOpKind.
Proof. solve_decision. Defined.
#[export] Instance UnaryOpKind_eq_dec : EqDecision UnaryOpKind.
Proof. solve_decision. Defined.

Inductive Expr (D : Type) :=
| NumberLiteral (loc : SourceLoc) (value : D)
| IdentifierExpr (loc : SourceLoc) (name : string)
| ParameterExpr (loc : SourceLoc) (name : string) (param_id : Z)
| UnaryOp (loc : SourceLoc) (kind : UnaryOpKind) (operand : Expr D)
| BinaryOp (loc : SourceLoc) (kind : BinaryOpKind) (left right : Expr D)
| FunctionCall (loc : SourceLoc) (name : string) (args : list (Expr D))
    (node_id symbol_id : Z)
| Conditional (loc : SourceLoc) (condition then_branch else_branch : Expr D).

Arguments NumberLiteral {D} loc value.
Arguments IdentifierExpr {D} loc name.
Arguments ParameterExpr {D} loc name param_id.
Arguments UnaryOp {D} loc kind operand.
Arguments BinaryOp {D} loc kind left right.
Arguments FunctionCall {D} loc name args node_id symbol_id.
Arguments Conditional {D} loc condition then_branch else_branch.

Record SignalDef (D : Type) := MkSignal { sig_name : string; sig_body : Expr D }.
Arguments MkSignal {D} sig_name sig_body.
Arguments sig_name {D} s.
Arguments sig_body {D} s.

Record ParamDef (D : Type) := MkParam {
  par_name : string; par_default : D; par_id : Z; par_loc : SourceLoc }.
Arguments MkParam {D} par_name par_default par_id par_loc.
Arguments par_name {D} p.
Arguments par_default {D} p.
Arguments par_id {D} p.
Arguments par_loc {D} p.

Record ProgramDef (D : Type) := MkProgram {
  prog_params : list (ParamDef D); prog_signals : list (SignalDef D) }.
Arguments MkProgram {D} prog_params prog_signals.
Arguments prog_params {D} p.
Arguments prog_signals {D} p.

(** Induction over trees, with the arguments of a call as a [Forall]. *)
Lemma Expr_rect' {D} (P : Expr D -> Prop)
  (HN : forall loc v, P (NumberLiteral loc v))
  (HI : forall loc n, P (IdentifierExpr loc n))
  (HP : forall loc n i, P (ParameterExpr loc n i))
  (HU : forall loc k e, P e -> P (UnaryOp loc k e))
  (HB : forall loc k l r, P l -> P r -> P (BinaryOp loc k l r))
  (HF : forall loc n args i s, Forall P args -> P (FunctionCall loc n args i s))
  (HC : forall loc c t e, P c -> P t -> P e -> P (Conditional loc c t e)) :
  forall e, P e.
Proof.
  fix IH 1. intros [].
  - apply HN.
  - apply HI.
  - apply HP.
  - apply HU, IH.
  - apply HB; apply IH.
  - apply HF. induction args; constructor; [apply IH|assumption].
  - apply HC; apply IH.
Qed.

(** [Expr::loc], read and written through the base class. *)
Definition expr_loc {D} (e : Expr D) : SourceLoc :=
  match e with
  | NumberLiteral loc _ | IdentifierExpr loc _ | ParameterExpr loc _ _ | UnaryOp loc _ _
  | BinaryOp loc _ _ _ | FunctionCall loc _ _ _ _ | Conditional loc _ _ _ => loc
  end.

Definition set_loc {D} (loc : SourceLoc) (e : Expr D) : Expr D :=
  match e with
  | NumberLiteral _ v => NumberLiteral loc v
  | IdentifierExpr _ n => IdentifierExpr loc n
  | ParameterExpr _ n i => ParameterExpr loc n i
  | UnaryOp _ k x => UnaryOp loc k x
  | BinaryOp _ k l r => BinaryOp loc k l r
  | FunctionCall _ n args i s => FunctionCall loc n args i s
  | Conditional _ c t f => Conditional loc c t f
  end.

(** [dynamic_cast<const NumberLiteral*>], and the same for identifiers. *)
Definition AsNumber {D} (e : Expr D) : option D :=
  match e with NumberLiteral _ v => Some v | _ => None end.
Definition AsIdentifier {D} (e : Expr D) : option string :=
  match e with IdentifierExpr _ n => Some n | _ => None end.

(** The five builtins whose first argument is a ticker. *)
Definition IsTickerFirstArgFn (name : string) : bool :=
  (name =? "mid")%string || (name =? "bid")%string || (name =? "ask")%string ||
  (name =? "spread")%string || (name =? "vwap")%string.

(** [CloneExpr]: the copy keeps the locations; the constructor of
    [FunctionCall] leaves the annotations of a copied call at -1. *)
Fixpoint CloneExpr {D} (expr : Expr D) : Expr D :=
  match expr with
  | NumberLiteral loc v => NumberLiteral loc v
  | IdentifierExpr loc n => IdentifierExpr loc n
  | ParameterExpr loc n i => ParameterExpr loc n i
  | UnaryOp loc k x => UnaryOp loc k (CloneExpr x)
  | BinaryOp loc k l r => BinaryOp loc k (CloneExpr l) (CloneExpr r)
  | Conditional loc c t e => Conditional loc (CloneExpr c) (CloneExpr t) (CloneExpr e)
  | FunctionCall loc n args _ _ => FunctionCall loc n (map CloneExpr args) (-1) (-1)
  end.

(** [AstEquals]: literals are compared as bit patterns. *)
Fixpoint AstEquals {D} `{EqDecision D} (a b : Expr D) {struct a} : bool :=
  match a with
  | NumberLiteral _ av =>
      match b with NumberLiteral _ bv => bool_decide (av = bv) | _ => false end
  | IdentifierExpr _ an =>
      match b with IdentifierExpr _ bn => (an =? bn)%string | _ => false end
  | ParameterExpr _ an ai =>
      match b with
      | ParameterExpr _ bn bi => (an =? bn)%string && (ai =? bi)%Z
      | _ => false
      end
  | UnaryOp _ ak ax =>
      match b with
      | UnaryOp _ bk bx => bool_decide (ak = bk) && AstEquals ax bx
      | _ => false
      end
  | BinaryOp _ ak al ar =>
      match b with
      | BinaryOp _ bk bl br => bool_decide (ak = bk) && AstEquals al bl && AstEquals ar br
      | _ => false
      end
  | Conditional _ ac at_ ae =>
      match b with
      | Conditional _ bc bt be => AstEquals ac bc && AstEquals at_ bt && AstEquals ae be
      | _ => false
      end
  | FunctionCall _ an aargs _ _ =>
      match b with
      | FunctionCall _ bn bargs _ _ =>
          (an =? bn)%string && (length aargs =? length bargs) &&
          (fix all_equal (l1 l2 : list (Expr D)) : bool :=
             match l1, l2 with
             | x :: l1', y :: l2' => AstEquals x y && all_equal l1' l2'
             | _, _ => true
             end) aargs bargs
      | _ => false
      end
  end.

(** [CollectTickerSymbols]: an [unordered_set], as the list of its
    insertions in order (a set as far as the callers look at it). *)
Fixpoint CollectTickers {D} (expr : Expr D) : list string :=
  match expr with
  | NumberLiteral _ _ | IdentifierExpr _ _ | ParameterExpr _ _ _ => []
  | UnaryOp _ _ x => CollectTickers x
  | BinaryOp _ _ l r => CollectTickers l ++ CollectTickers r
  | Conditional _ c t e => CollectTickers c ++ CollectTickers t ++ CollectTickers e
  | FunctionCall _ name args _ _ =>
      (if IsTickerFirstArgFn name then
         match args with
         | IdentifierExpr _ ticker :: _ => [ticker]
         | _ => []
         end
       else []) ++ concat (map CollectTickers args)
  end.

Definition CollectTickerSymbols {D} (signal : SignalDef D) : list string :=
  CollectTickers (sig_body signal).

(** ** The identity of a tree

    What [AstEquals] compares: the tree without locations and annotations. *)
Fixpoint erase {D} (e : Expr D) : Expr D :=
  match e with
  | NumberLiteral _ v => NumberLiteral noloc v
  | IdentifierExpr _ n => IdentifierExpr noloc n
  | ParameterExpr _ n i => ParameterExpr noloc n i
  | UnaryOp _ k x => UnaryOp noloc k (erase x)
  | BinaryOp _ k l r => BinaryOp noloc k (erase l) (erase r)
  | Conditional _ c t f => Conditional noloc (erase c) (erase t) (erase f)
  | FunctionCall _ n args _ _ => FunctionCall noloc n (map erase args) (-1) (-1)
  end.

Section equals.
Context {D : Type} `{EqDecision D}.

Lemma AstEquals_args (aargs bargs : list (Expr D)) :
  Forall (fun a => forall b, AstEquals a b = true <-> erase a = erase b) aargs ->
  length aargs = length bargs ->
  (fix all_equal (l1 l2 : list (Expr D)) : bool :=
     match l1, l2 with
     | x :: l1', y :: l2' => AstEquals x y && all_equal l1' l2'
     | _, _ => true
     end) aargs bargs = true <-> map erase aargs = map erase bargs.
Proof.
  intros HF. revert bargs. induction HF as [|a aargs Ha HF IH]; intros [|b bargs] Hlen;
    simpl in *; try done.
  rewrite andb_true_iff, Ha, IH by lia. split.
  - by intros [-> ->].
  - by intros [= -> ->].
Qed.

(** Two trees are [AstEquals] exactly when their erasures are equal. *)
Lemma AstEquals_erase (a b : Expr D) : AstEquals a b = true <-> erase a = erase b.
Proof.
  revert b. induction a using Expr_rect'; intros b; destruct b; simpl; try (split; done).
  - rewrite bool_decide_eq_true. split; congruence.
  - rewrite String.eqb_eq. split; congruence.
  - rewrite andb_true_iff, String.eqb_eq, Z.eqb_eq. split; [by intros [-> ->]|].
    by intros [= -> ->].
  - rewrite andb_true_iff, bool_decide_eq_true, IHa. split; [by intros [-> ->]|].
    by intros [= -> ->].
  - rewrite !andb_true_iff, bool_decide_eq_true, IHa1, IHa2.
    split; [by intros [[-> ->] ->]|]. by intros [= -> -> ->].
  - rewrite !andb_true_iff, String.eqb_eq, Nat.eqb_eq. split.
    + intros [[-> Hlen] Hargs]. f_equal. by apply AstEquals_args.
    + intros [= -> Hargs].
      assert (Hlen : length args = length args0).
      { rewrite <- (length_map erase args), Hargs. by rewrite length_map. }
      split; [done|]. by apply AstEquals_args.
  - rewrite !andb_true_iff, IHa1, IHa2, IHa3.
    split; [by intros [[-> ->] ->]|]. by intros [= -> -> ->].
Qed.

Lemma erase_CloneExpr (e : Expr D) : erase (CloneExpr e) = erase e.
Proof.
  induction e using Expr_rect'; simpl; f_equal; try done.
  rewrite map_map. by apply map_ext_Forall.
Qed.

Lemma erase_set_loc loc (e : Expr D) : erase (set_loc loc e) = erase e.
Proof. by destruct e. Qed.
End equals.
