(* ===== verification/Lexer.v ===== *)
(** * The lexer (src/src/lexer.h, src/src/lexer.cpp)

    The state of a [Lexer] is its source and the index [pos_]; every method
    is a function of that state.  Characters are classified by the C
    library's predicates in the "C" locale. *)

From S2P Require Import Prelude Errors Arith.
From Stdlib Require Import Ascii.

Inductive TokenKind :=
| EndOfFile | Number | Identifier | Signal | Param | If | Then | Else | Assign
| TPlus | TMinus | Star | Slash | LParen | RParen | Comma
| TGt | TLt | TGte | TLte | TEq | TNotEq | TAnd | TOr.

#[export] Instance TokenKind_eq_dec : EqDecision TokenKind.
Proof. solve_decision. Defined.

Record Token (D : Type) := MkToken {
  tok_kind : TokenKind; tok_lexeme : string; tok_number : D; tok_loc : SourceLoc }.
Arguments MkToken {D} tok_kind tok_lexeme tok_number tok_loc.
Arguments tok_kind {D} t.
Arguments tok_lexeme {D} t.
Arguments tok_number {D} t.
Arguments tok_loc {D} t.

(** ** Character classes of the C library *)

Definition code (c : ascii) : nat := nat_of_ascii c.
Definition between (lo hi : nat) (c : ascii) : bool := (lo <=? code c) && (code c <=? hi).
Definition isdigit (c : ascii) : bool := between 48 57 c.
Definition isalpha (c : ascii) : bool := between 65 90 c || between 97 122 c.
Definition isalnum (c : ascii) : bool := isalpha c || isdigit c.
Definition isspace (c : ascii) : bool := between 9 13 c || (code c =? 32).

Definition is_ident_char (c : ascii) : bool := isalnum c || (c =? "_")%char.

(** [static_cast<std::uint32_t>] of a [size_t]. *)
Definition u32 (n : nat) : N := (N.of_nat n mod 2 ^ 32)%N.

Definition chars : string -> list ascii := String.list_ascii_of_string.
Definition str : list ascii -> string := String.string_of_list_ascii.

(** ** [strtod] on the digits-and-dot lexemes of the lexer *)

Definition digit_value (c : ascii) : Z := Z.of_nat (code c - 48).

(** The digits' value, and how many of them follow the dot. *)
Fixpoint decimal (cs : list ascii) (acc : Z) (frac : option nat) : Z * nat :=
  match cs with
  | [] => (acc, match frac with Some k => k | None => 0 end)
  | c :: cs' =>
      if (c =? ".")%char then decimal cs' acc (Some 0)
      else decimal cs' (acc * 10 + digit_value c) (S <$> frac)
  end.

Definition strtod {D} `{Fp D} (lexeme : list ascii) : D :=
  let '(m, k) := decimal lexeme 0 None in flit m k.

Section lexer.
Context {D : Type} `{Fp D}.
Variable source : list ascii.

Definition IsAtEnd (pos : nat) : bool := length source <=? pos.

(** [Peek], guarded by [!IsAtEnd()] at every call. *)
Definition Peek (pos : nat) : option ascii := source !! pos.

Definition Col (pos : nat) : N := u32 (S pos).

(** [source_.substr(start, end - start)]. *)
Definition substr (start stop : nat) : list ascii := take (stop - start) (drop start source).

(** Advance while the next character satisfies [p]: the loops of
    [SkipWhitespace] and of [ReadIdentifierOrKeyword]. *)
Fixpoint skip_while (p : ascii -> bool) (fuel pos : nat) : nat :=
  match fuel with
  | 0 => pos
  | S fuel' =>
      match Peek pos with
      | Some c => if p c then skip_while p fuel' (S pos) else pos
      | None => pos
      end
  end.

Definition SkipWhitespace (pos : nat) : nat :=
  skip_while isspace (length source - pos) pos.

(** The loop of [ReadNumber]: digits, and at most one dot. *)
Fixpoint scan_number (fuel pos : nat) (seen_dot : bool) : nat :=
  match fuel with
  | 0 => pos
  | S fuel' =>
      match Peek pos with
      | Some c =>
          if isdigit c then scan_number fuel' (S pos) seen_dot
          else if (c =? ".")%char then
            if seen_dot then pos else scan_number fuel' (S pos) true
          else pos
      | None => pos
      end
  end.

Definition ReadNumber (start : nat) : Res (Token D * nat) :=
  let pos := scan_number (length source - start) start false in
  let lexeme := substr start pos in
  if (str lexeme =? ".")%string then Err (RuntimeError "Invalid numeric literal")
  else Ok (MkToken Number (str lexeme) (strtod lexeme)
             (MkLoc 0 (Col start) (u32 (length lexeme))), pos).

Definition keyword_kind (lexeme : string) : TokenKind :=
  if (lexeme =? "signal")%string then Signal
  else if (lexeme =? "param")%string then Param
  else if (lexeme =? "if")%string then If
  else if (lexeme =? "then")%string then Then
  else if (lexeme =? "else")%string then Else
  else Identifier.

Definition ReadIdentifierOrKeyword (start : nat) : Token D * nat :=
  let pos := skip_while is_ident_char (length source - start) start in
  let lexeme := substr start pos in
  (MkToken (keyword_kind (str lexeme)) (str lexeme) (fint 0)
     (MkLoc 0 (Col start) (u32 (length lexeme))), pos).

(** The [emit] lambda, at the column before [Advance]. *)
Definition emit (start : nat) (kind : TokenKind) (lex : string) (len : nat) (pos : nat)
  : Res (Token D * nat) :=
  Ok (MkToken kind lex (fint 0) (MkLoc 0 (Col start) (u32 len)), pos).

(** [!IsAtEnd() && Peek() == c]. *)
Definition next_is (pos : nat) (c : ascii) : bool :=
  match Peek pos with Some c' => (c' =? c)%char | None => false end.

(** The [switch] on an operator character [c] read at [start]. *)
Definition ReadOperator (start : nat) (c : ascii) : Res (Token D * nat) :=
  let pos := S start in
  match c with
  | "="%char => if next_is pos "=" then emit start TEq "==" 2 (S pos)
                else emit start Assign "=" 1 pos
  | "!"%char => if next_is pos "=" then emit start TNotEq "!=" 2 (S pos)
                else Err (RuntimeError "Unexpected '!' - did you mean '!='?")
  | ">"%char => if next_is pos "=" then emit start TGte ">=" 2 (S pos)
                else emit start TGt ">" 1 pos
  | "&"%char => if next_is pos "&" then emit start TAnd "&&" 2 (S pos)
                else Err (RuntimeError "Unexpected '&' - did you mean '&&'?")
  | "|"%char => if next_is pos "|" then emit start TOr "||" 2 (S pos)
                else Err (RuntimeError "Unexpected '|' - did you mean '||'?")
  | "<"%char => if next_is pos "=" then emit start TLte "<=" 2 (S pos)
                else emit start TLt "<" 1 pos
  | "+"%char => emit start TPlus "+" 1 pos
  | "-"%char => emit start TMinus "-" 1 pos
  | "*"%char => emit start Star "*" 1 pos
  | "/"%char => emit start Slash "/" 1 pos
  | "("%char => emit start LParen "(" 1 pos
  | ")"%char => emit start RParen ")" 1 pos
  | ","%char => emit start Comma "," 1 pos
  | _ => Err (RuntimeError "Unexpected character in lexer")
  end.

(** One iteration of the loop of [Tokenize] after the whitespace. *)
Definition NextToken (pos : nat) (c : ascii) : Res (Token D * nat) :=
  if isdigit c || (c =? ".")%char then ReadNumber pos
  else if isalpha c || (c =? "_")%char then Ok (ReadIdentifierOrKeyword pos)
  else ReadOperator pos c.

Definition eof_token (pos : nat) : Token D :=
  MkToken EndOfFile "" (fint 0) (MkLoc 0 (Col pos) 0).

Fixpoint TokenizeLoop (fuel pos : nat) : Res (list (Token D)) :=
  match fuel with
  | 0 => Err OutOfFuel
  | S fuel' =>
      if IsAtEnd pos then Ok [eof_token pos]
      else
        let pos := SkipWhitespace pos in
        match Peek pos with
        | None => Ok [eof_token pos]
        | Some c => '(t, pos') <- NextToken pos c;; rmap (cons t) (TokenizeLoop fuel' pos')
        end
  end.
End lexer.

(** [Lexer(source).Tokenize()]. *)
Definition Tokenize {D} `{Fp D} (source : string) : Res (list (Token D)) :=
  let cs := chars source in TokenizeLoop cs (S (length cs)) 0.
