(* ===== verification/TypeCheck.v ===== *)
(** * The static type checker (src/src/type_check.h, src/src/type_check.cpp) *)

From S2P Require Import Prelude Errors Arith Ast.

Inductive StaticType := TNumber | TBool.

#[export] Instance StaticType_eq_dec : EqDecision StaticType.
Proof. solve_decision. Defined.

Definition TypeName (t : StaticType) : string :=
  match t with TNumber => "number" | TBool => "bool" end.

(** [RequireType(expr, actual, want, context)], at the location of [expr]. *)
Definition RequireType {D} (expr : Expr D) (actual want : StaticType) (context : string)
  : Res () :=
  if decide (actual = want) then Ok tt
  else Err (ParseError
    ("type error: " +:+ context +:+ " requires `" +:+ TypeName want +:+ "`, got `" +:+
     TypeName actual +:+ "`") (expr_loc expr) "").

Inductive OpClass := Arithmetic | Comparison | Logical.

(** The three groups of [case] labels in the [switch] of [TypeCheckExpr]. *)
Definition op_class (k : BinaryOpKind) : OpClass :=
  match k with
  | Add | Sub | Mul | Div => Arithmetic
  | Gt | Lt | Gte | Lte | Eq | NotEq => Comparison
  | And | Or => Logical
  end.

Fixpoint TypeCheckExpr {D} (expr : Expr D) : Res StaticType :=
  match expr with
  | NumberLiteral _ _ | IdentifierExpr _ _ | ParameterExpr _ _ _ => Ok TNumber
  | UnaryOp _ _ operand =>
      inner <- TypeCheckExpr operand;;
      RequireType operand inner TNumber "unary +/-" ;;;
      Ok TNumber
  | BinaryOp _ kind lhs rhs =>
      lt <- TypeCheckExpr lhs;;
      rt <- TypeCheckExpr rhs;;
      match op_class kind with
      | Arithmetic =>
          RequireType lhs lt TNumber "arithmetic operator" ;;;
          RequireType rhs rt TNumber "arithmetic operator" ;;;
          Ok TNumber
      | Comparison =>
          RequireType lhs lt TNumber "comparison operator" ;;;
          RequireType rhs rt TNumber "comparison operator" ;;;
          Ok TBool
      | Logical =>
          RequireType lhs lt TBool "logical && / ||" ;;;
          RequireType rhs rt TBool "logical && / ||" ;;;
          Ok TBool
      end
  | Conditional _ condition then_branch else_branch =>
      ct <- TypeCheckExpr condition;;
      RequireType condition ct TBool "if-condition" ;;;
      tht <- TypeCheckExpr then_branch;;
      et <- TypeCheckExpr else_branch;;
      RequireType then_branch tht TNumber "then-branch" ;;;
      RequireType else_branch et TNumber "else-branch" ;;;
      Ok TNumber
  | FunctionCall _ name args _ _ =>
      let check_arg a :=
        at_ <- TypeCheckExpr a;; RequireType a at_ TNumber "function-call argument" in
      let check_args := fix check_args (l : list (Expr D)) : Res () :=
        match l with
        | [] => Ok tt
        | a :: l' => check_arg a ;;; check_args l'
        end in
      match args with
          | a :: rest =>
              if IsTickerFirstArgFn name then
                match AsIdentifier a with
                | Some _ => check_args rest
                | None => Err (ParseError
                    (name +:+ "() first argument must be a ticker identifier")
                    (expr_loc a) "")
                end
              else check_args args
          | [] => Ok tt
          end ;;;
      Ok TNumber
  end.

Definition TypeCheckSignal {D} (signal : SignalDef D) : Res () :=
  bt <- TypeCheckExpr (sig_body signal);;
  if decide (bt = TNumber) then Ok tt
  else Err (ParseError
    ("type error: signal `" +:+ sig_name signal +:+
     "` body must be `number`, but evaluates to `bool` " +:+
     "(wrap it in an if/then/else or use 1.0/0.0)") (expr_loc (sig_body signal)) "").
