(* ===== verification/ConstFold.v ===== *)
(** * Constant folding (src/src/constant_fold.cpp) *)

From S2P Require Import Prelude Errors Arith Ast.

Section fold.
Context {D : Type} `{Fp D}.

(** The [switch] of the literal-literal case. *)
Definition fold_binary (kind : BinaryOpKind) (l r : D) : D :=
  match kind with
  | Add => fadd l r
  | Sub => fsub l r
  | Mul => fmul l r
  | Div => fdiv l r
  | Gt => fbool (fgt l r)
  | Lt => fbool (flt l r)
  | Gte => fbool (fge l r)
  | Lte => fbool (fle l r)
  | Eq => fbool (feq l r)
  | NotEq => fbool (fne l r)
  | And => fbool (fne l (fint 0) && fne r (fint 0))
  | Or => fbool (fne l (fint 0) || fne r (fint 0))
  end.

Fixpoint FoldConstants (expr : Expr D) : Expr D :=
  match expr with
  | UnaryOp loc kind operand =>
      let operand := FoldConstants operand in
      match AsNumber operand with
      | Some v => NumberLiteral loc (match kind with Minus => fopp v | Plus => v end)
      | None => UnaryOp loc kind operand
      end
  | BinaryOp loc kind lhs rhs =>
      let lhs := FoldConstants lhs in
      let rhs := FoldConstants rhs in
      match AsNumber lhs, AsNumber rhs with
      | Some l, Some r => NumberLiteral loc (fold_binary kind l r)
      | _, _ => BinaryOp loc kind lhs rhs
      end
  | Conditional loc condition then_branch else_branch =>
      let condition := FoldConstants condition in
      let then_branch := FoldConstants then_branch in
      let else_branch := FoldConstants else_branch in
      match AsNumber condition with
      | Some c => set_loc loc (if fne c (fint 0) then then_branch else else_branch)
      | None => Conditional loc condition then_branch else_branch
      end
  | FunctionCall loc name args node_id symbol_id =>
      FunctionCall loc name (map FoldConstants args) node_id symbol_id
  | NumberLiteral _ _ | IdentifierExpr _ _ | ParameterExpr _ _ _ => expr
  end.

Definition FoldConstantsInPlace (signal : SignalDef D) : SignalDef D :=
  MkSignal (sig_name signal) (FoldConstants (sig_body signal)).
End fold.
