(* ===== verification/Parser.v ===== *)
(** * The recursive-descent parser (src/src/parser.h, src/src/parser.cpp)

    The state of a [Parser] is its token vector and the index [pos_]; a
    method is a function from the index to a result and the new index.
    [tokens_[pos_]] is read without a bounds check, hence [Undefined] past
    the end.  The recursion through [ParseExpr] and every loop consume a
    token per round, so the number of tokens bounds both: it is the fuel. *)

From S2P Require Import Prelude Errors Arith Ast Lexer TypeCheck ConstFold.

Section parser.
Context {D : Type} `{Fp D}.
Variable tokens : list (Token D).

Notation P A := (nat -> Res (A * nat)).

Definition Peek (pos : nat) : Res (Token D) := at_idx "tokens_[pos_]" tokens pos.

Definition peek_kind (pos : nat) : Res TokenKind := rmap tok_kind (Peek pos).

Definition Fail {A} (msg : string) (loc : SourceLoc) : Res A := Err (ParseError msg loc "").

Definition Match (kind : TokenKind) : P bool := fun pos =>
  k <- peek_kind pos;; Ok (if decide (k = kind) then (true, S pos) else (false, pos)).

Definition Consume (kind : TokenKind) (message : string) : P (Token D) := fun pos =>
  t <- Peek pos;;
  if decide (tok_kind t = kind) then Ok (t, S pos)
  else Fail (message +:+ " (got: '" +:+ tok_lexeme t +:+ "')") (tok_loc t).

(** [while (Match(Comma)) args.push_back(ParseExpr())]. *)
Fixpoint arg_loop (ParseExpr : P (Expr D)) (fuel : nat) : P (list (Expr D)) := fun pos =>
  match fuel with
  | 0 => Err OutOfFuel
  | S fuel' =>
      '(comma, pos) <- Match Comma pos;;
      if comma then
        '(a, pos) <- ParseExpr pos;;
        '(rest, pos) <- arg_loop ParseExpr fuel' pos;;
        Ok (a :: rest, pos)
      else Ok ([], pos)
  end.

Definition ParseArgList (ParseExpr : P (Expr D)) : P (list (Expr D)) := fun pos =>
  k <- peek_kind pos;;
  if decide (k = RParen) then Ok ([], pos)
  else
    '(a, pos) <- ParseExpr pos;;
    '(rest, pos) <- arg_loop ParseExpr (length tokens) pos;;
    Ok (a :: rest, pos).

Definition ParsePrimary (ParseExpr : P (Expr D)) : P (Expr D) := fun pos =>
  t <- Peek pos;;
  match tok_kind t with
  | Number => Ok (NumberLiteral (tok_loc t) (tok_number t), S pos)
  | Identifier =>
      '(call, pos) <- Match LParen (S pos);;
      if call then
        '(args, pos) <- ParseArgList ParseExpr pos;;
        '(_, pos) <- Consume RParen "Expected ')' after function args" pos;;
        Ok (FunctionCall (tok_loc t) (tok_lexeme t) args (-1) (-1), pos)
      else Ok (IdentifierExpr (tok_loc t) (tok_lexeme t), pos)
  | LParen =>
      '(expr, pos) <- ParseExpr (S pos);;
      '(_, pos) <- Consume RParen "Expected ')' after expression" pos;;
      let loc := expr_loc expr in
      Ok (if N.eqb (loc_line loc) 0 && N.eqb (loc_col loc) 0
          then set_loc (tok_loc t) expr else expr, pos)
  | _ => Fail "Expected expression" (tok_loc t)
  end.

Definition unary_kind (k : TokenKind) : option UnaryOpKind :=
  match k with TPlus => Some Plus | TMinus => Some Minus | _ => None end.

Fixpoint ParseUnary (ParseExpr : P (Expr D)) (fuel : nat) : P (Expr D) := fun pos =>
  match fuel with
  | 0 => Err OutOfFuel
  | S fuel' =>
      t <- Peek pos;;
      match unary_kind (tok_kind t) with
      | Some kind =>
          '(inner, pos) <- ParseUnary ParseExpr fuel' (S pos);;
          Ok (UnaryOp (tok_loc t) kind inner, pos)
      | None => ParsePrimary ParseExpr pos
      end
  end.

(** The [while (true)] loop of the four left-associative levels: go on
    while the next token is one of the level's operators. *)
Fixpoint binary_loop (op : TokenKind -> option BinaryOpKind) (next : P (Expr D))
  (fuel : nat) (expr : Expr D) : P (Expr D) := fun pos =>
  match fuel with
  | 0 => Err OutOfFuel
  | S fuel' =>
      t <- Peek pos;;
      match op (tok_kind t) with
      | Some kind =>
          '(rhs, pos) <- next (S pos);;
          binary_loop op next fuel' (BinaryOp (tok_loc t) kind expr rhs) pos
      | None => Ok (expr, pos)
      end
  end.

Definition binary_level (op : TokenKind -> option BinaryOpKind) (next : P (Expr D))
  : P (Expr D) := fun pos =>
  '(expr, pos) <- next pos;; binary_loop op next (length tokens) expr pos.

Definition factor_kind (k : TokenKind) : option BinaryOpKind :=
  match k with Star => Some Mul | Slash => Some Div | _ => None end.

Definition ParseFactor (ParseExpr : P (Expr D)) : P (Expr D) :=
  binary_level factor_kind (ParseUnary ParseExpr (length tokens)).

Definition term_kind (k : TokenKind) : option BinaryOpKind :=
  match k with TPlus => Some Add | TMinus => Some Sub | _ => None end.

Definition ParseTerm (ParseExpr : P (Expr D)) : P (Expr D) :=
  binary_level term_kind (ParseFactor ParseExpr).

Definition comparison_kind (k : TokenKind) : option BinaryOpKind :=
  match k with
  | TGt => Some Gt | TLt => Some Lt | TGte => Some Gte | TLte => Some Lte
  | TEq => Some Eq | TNotEq => Some NotEq | _ => None
  end.

Definition ParseComparison (ParseExpr : P (Expr D)) : P (Expr D) :=
  binary_level comparison_kind (ParseTerm ParseExpr).

Definition logical_kind (k : TokenKind) : option BinaryOpKind :=
  match k with TAnd => Some And | TOr => Some Or | _ => None end.

Definition ParseLogical (ParseExpr : P (Expr D)) : P (Expr D) :=
  binary_level logical_kind (ParseComparison ParseExpr).

Definition ParseConditional (ParseExpr : P (Expr D)) : P (Expr D) := fun pos =>
  t <- Peek pos;;
  if decide (tok_kind t = If) then
    '(cond, pos) <- ParseExpr (S pos);;
    '(_, pos) <- Consume Then "Expected 'then' in conditional expression" pos;;
    '(then_expr, pos) <- ParseExpr pos;;
    '(_, pos) <- Consume Else "Expected 'else' in conditional expression" pos;;
    '(else_expr, pos) <- ParseExpr pos;;
    Ok (Conditional (tok_loc t) cond then_expr else_expr, pos)
  else ParseLogical ParseExpr pos.

Fixpoint ParseExpr (fuel : nat) : P (Expr D) := fun pos =>
  match fuel with
  | 0 => Err OutOfFuel
  | S fuel' => ParseConditional (ParseExpr fuel') pos
  end.

Definition ParseSignalDef : Res (SignalDef D) :=
  '(_, pos) <- Consume Signal "Expected 'signal' at start of definition" 0;;
  '(name, pos) <- Consume Identifier "Expected signal name" pos;;
  '(_, pos) <- Consume Assign "Expected '=' after signal name" pos;;
  '(body, pos) <- ParseExpr (length tokens) pos;;
  Consume EndOfFile "Expected end of input" pos ;;;
  Ok (MkSignal (tok_lexeme name) body).

Definition ParseParamDef : Res (ParamDef D) :=
  '(_, pos) <- Consume Param "Expected 'param' at start of definition" 0;;
  '(name, pos) <- Consume Identifier "Expected parameter name" pos;;
  '(_, pos) <- Consume Assign "Expected '=' after parameter name" pos;;
  '(body, pos) <- ParseExpr (length tokens) pos;;
  Consume EndOfFile "Expected end of input" pos ;;;
  let tmp := MkSignal "<param>" body in
  TypeCheckSignal tmp ;;;
  let tmp := FoldConstantsInPlace tmp in
  match AsNumber (sig_body tmp) with
  | None => Fail "Parameter default must be a numeric literal after constant folding"
              (expr_loc (sig_body tmp))
  | Some v => Ok (MkParam (tok_lexeme name) v (-1) (tok_loc name))
  end.
End parser.
