(* ===== verification/SymbolTable.v ===== *)
(** * The symbol table (class [SymbolTable] of src/src/runtime.h, .cpp) *)

From S2P Require Import Prelude Errors.

Definition kMaxInstruments : nat := 1024.

Record SymbolTable := MkSymbolTable {
  symbol_to_id_ : gmap string nat; next_id_ : nat }.

Definition empty_table : SymbolTable := MkSymbolTable ∅ 0.

Definition RegisterOrGetId (t : SymbolTable) (symbol : string) : Res (nat * SymbolTable) :=
  match symbol_to_id_ t !! symbol with
  | Some id => Ok (id, t)
  | None =>
      if kMaxInstruments <=? next_id_ t then
        Err (RuntimeError "Symbol table exceeded kMaxInstruments")
      else
        let assigned := next_id_ t in
        Ok (assigned, MkSymbolTable (<[symbol := assigned]> (symbol_to_id_ t)) (S assigned))
  end.

Definition LookupId (t : SymbolTable) (symbol : string) : Res nat :=
  match symbol_to_id_ t !! symbol with
  | Some id => Ok id
  | None => Err (RuntimeError ("Unknown symbol: " +:+ symbol))
  end.

(** The table's invariant: the ids in use are exactly [0 .. next_id_),
    each given to one symbol, and they index the instrument array. *)
Record table_ok (t : SymbolTable) : Prop := {
  ids_bounded : forall s i, symbol_to_id_ t !! s = Some i -> i < next_id_ t;
  ids_injective : forall s1 s2 i,
    symbol_to_id_ t !! s1 = Some i -> symbol_to_id_ t !! s2 = Some i -> s1 = s2;
  ids_dense : forall i, i < next_id_ t -> exists s, symbol_to_id_ t !! s = Some i;
  ids_fit : next_id_ t <= kMaxInstruments;
}.

Lemma table_ok_empty : table_ok empty_table.
Proof.
  split; simpl.
  - intros s i. rewrite lookup_empty. discriminate.
  - intros s1 s2 i. rewrite lookup_empty. discriminate.
  - lia.
  - lia.
Qed.

Lemma RegisterOrGetId_ok t s i t' :
  table_ok t -> RegisterOrGetId t s = Ok (i, t') ->
  table_ok t' /\ symbol_to_id_ t' !! s = Some i /\ symbol_to_id_ t ⊆ symbol_to_id_ t'.
Proof.
  intros [Hb Hi Hd Hf]. unfold RegisterOrGetId.
  destruct (symbol_to_id_ t !! s) as [j|] eqn:Hs.
  - intros [= -> ->]. split_and!; [by split|done|done].
  - destruct (Nat.leb_spec kMaxInstruments (next_id_ t)) as [|Hlt]; [discriminate|].
    intros [= <- <-]. split_and!; simpl.
    + split; simpl.
      * intros s' i. rewrite lookup_insert_Some. intros [[_ <-]|[_ H]]; [lia|].
        specialize (Hb _ _ H). lia.
      * intros s1 s2 i. rewrite !lookup_insert_Some.
        intros [[<- <-]|[? H1]] [[<- E]|[? H2]]; try done.
        -- specialize (Hb _ _ H2). lia.
        -- subst i. specialize (Hb _ _ H1). lia.
        -- by eapply Hi.
      * intros i Hlt'. destruct (decide (i = next_id_ t)) as [->|].
        -- exists s. apply lookup_insert_eq.
        -- destruct (Hd i) as [s' Hs']; [lia|]. exists s'.
           rewrite lookup_insert_ne; [done|]. congruence.
      * lia.
    + apply lookup_insert_eq.
    + by apply insert_subseteq.
Qed.

Lemma RegisterOrGetId_full t s :
  table_ok t -> is_ok (RegisterOrGetId t s) = false ->
  next_id_ t = kMaxInstruments /\ symbol_to_id_ t !! s = None.
Proof.
  intros [_ _ _ Hf]. unfold RegisterOrGetId.
  destruct (symbol_to_id_ t !! s) as [j|]; [discriminate|].
  destruct (Nat.leb_spec kMaxInstruments (next_id_ t)); [|discriminate].
  intros _. split; [lia|done].
Qed.

(** Registering a list of symbols, as the front ends do before binding. *)
Fixpoint register_all (t : SymbolTable) (l : list string) : Res (list nat * SymbolTable) :=
  match l with
  | [] => Ok ([], t)
  | s :: l' =>
      '(i, t) <- RegisterOrGetId t s;;
      '(ids, t) <- register_all t l';;
      Ok (i :: ids, t)
  end.

Lemma register_all_ok l t ids t' :
  table_ok t -> register_all t l = Ok (ids, t') ->
  table_ok t' /\ symbol_to_id_ t ⊆ symbol_to_id_ t' /\
  Forall2 (fun s i => LookupId t' s = Ok i /\ i < kMaxInstruments) l ids.
Proof.
  revert t ids t'. induction l as [|s l IH]; intros t ids t' Hok; simpl.
  - intros [= <- <-]. split_and!; [done|done|constructor].
  - intros H. inv_res. destruct x as [i t1]. inv_res. destruct x as [ids1 t2]. inv_res.
    destruct (RegisterOrGetId_ok _ _ _ _ Hok H0) as (Hok1 & Hl1 & Hsub1).
    destruct (IH _ _ _ Hok1 H1) as (Hok2 & Hsub2 & HF).
    split_and!; [done|by transitivity (symbol_to_id_ t1)|].
    constructor; [|done]. unfold LookupId.
    pose proof (lookup_weaken _ _ _ _ Hl1 Hsub2) as Hl2. rewrite Hl2. split; [done|].
    pose proof (ids_bounded _ Hok2 _ _ Hl2). pose proof (ids_fit _ Hok2). lia.
Qed.

Lemma LookupId_Ok t s i : LookupId t s = Ok i <-> symbol_to_id_ t !! s = Some i.
Proof. unfold LookupId. destruct (symbol_to_id_ t !! s); split; intros E; congruence. Qed.

Lemma register_all_err l t e :
  register_all t l = Err e ->
  e = RuntimeError "Symbol table exceeded kMaxInstruments" /\
  exists s, s ∈ l /\ symbol_to_id_ t !! s = None.
Proof.
  revert t. induction l as [|s l IH]; intros t; simpl; [discriminate|].
  destruct (RegisterOrGetId t s) as [[i t1]|e'] eqn:E; simpl.
  - destruct (register_all t1 l) as [[ids t2]|e'] eqn:E2; simpl; [discriminate|].
    intros [= ->]. destruct (IH _ E2) as (-> & s' & Hin & Hs'). split; [done|].
    exists s'. split; [by right|]. revert E Hs'. unfold RegisterOrGetId.
    destruct (symbol_to_id_ t !! s) eqn:E; [by intros [= _ <-]|].
    destruct (kMaxInstruments <=? next_id_ t); [discriminate|].
    intros [= _ <-]. simpl. by intros [? _]%lookup_insert_None.
  - intros [= ->]. revert E. unfold RegisterOrGetId.
    destruct (symbol_to_id_ t !! s) eqn:E; [discriminate|].
    destruct (kMaxInstruments <=? next_id_ t); [|discriminate].
    intros [= <-]. split; [done|]. exists s. split; [by left|done].
Qed.

(** registering tickers keeps the table's invariant (the ids in use are
    [0 .. next_id_), one symbol each, below [kMaxInstruments]) and every
    earlier binding, and each registered ticker looks up to the id it was
    given; registration fails only when the table is full and the ticker new. *)
Theorem registration_sound l t :
  table_ok t ->
  match register_all t l with
  | Ok (ids, t') =>
      table_ok t' /\ symbol_to_id_ t ⊆ symbol_to_id_ t' /\
      Forall2 (fun s i => LookupId t' s = Ok i /\ i < kMaxInstruments) l ids /\
      (forall s1 s2 i, LookupId t' s1 = Ok i -> LookupId t' s2 = Ok i -> s1 = s2)
  | Err e =>
      e = RuntimeError "Symbol table exceeded kMaxInstruments" /\
      exists s, s ∈ l /\ symbol_to_id_ t !! s = None
  end.
Proof.
  intros Hok. destruct (register_all t l) as [[ids t']|e] eqn:E.
  - destruct (register_all_ok _ _ _ _ Hok E) as (Hok' & Hs & HF). split_and!; [done..|].
    intros s1 s2 i. rewrite !LookupId_Ok. apply Hok'.
  - by apply register_all_err in E.
Qed.

Lemma registration_sound_witness :
  register_all empty_table ["A"; "B"; "A"] =
    Ok ([0; 1; 0], MkSymbolTable {["A" := 0; "B" := 1]} 2) /\
  LookupId (MkSymbolTable {["A" := 0; "B" := 1]} 2) "B" = Ok 1.
Proof.
  assert (E : register_all empty_table ["A"; "B"; "A"] =
    Ok ([0; 1; 0], MkSymbolTable {["A" := 0; "B" := 1]} 2)) by (vm_compute; reflexivity).
  split; [exact E|].
  pose proof (registration_sound ["A"; "B"; "A"] empty_table table_ok_empty) as P.
  rewrite E in P. destruct P as (_ & _ & HF & _). inversion_clear HF as [|? ? ? ? _ HF'].
  inversion_clear HF' as [|? ? ? ? HB _]. apply HB.
Defined.
