(* ===== verification/SignalProgram.v ===== *)
(** * Programs (src/src/signal_program.cpp)

    Parsing a source text into parameters and signals, inlining the
    references between signals, numbering the stateful calls and binding
    tickers to instrument slots. *)

From S2P Require Import Prelude Errors Arith Ast Lexer TypeCheck ConstFold Parser SymbolTable.
From Stdlib Require Import Ascii.

(** ** Lines and tokens *)

(** [Trim]: both ends lose their whitespace. *)
Fixpoint drop_while (p : ascii -> bool) (l : list ascii) : list ascii :=
  match l with
  | [] => []
  | c :: l' => if p c then drop_while p l' else l
  end.

Definition Trim (s : list ascii) : list ascii :=
  reverse (drop_while isspace (reverse (drop_while isspace s))).

(** The lines [std::getline] yields: a final newline adds no empty line. *)
Fixpoint getlines (cs cur : list ascii) : list (list ascii) :=
  match cs with
  | [] => match cur with [] => [] | _ => [reverse cur] end
  | c :: cs' =>
      if (code c =? 10) then reverse cur :: getlines cs' [] else getlines cs' (c :: cur)
  end.

Fixpoint strip_comment (cs : list ascii) : list ascii :=
  match cs with
  | [] => []
  | c :: cs' => if (c =? "#")%char then [] else c :: strip_comment cs'
  end.

Section program.
Context {D : Type} `{Fp D} `{EqDecision D}.

Definition stamp_line (line_no : N) (t : Token D) : Token D :=
  MkToken (tok_kind t) (tok_lexeme t) (tok_number t)
    (MkLoc line_no (loc_col (tok_loc t)) (loc_length (tok_loc t))).

(** [catch (const ParseError& e) { throw ParseError(e.Message(), e.Loc(), line); }] *)
Definition with_line {A} (line : list ascii) (m : Res A) : Res A :=
  match m with
  | Err (ParseError msg loc _) => Err (ParseError msg loc (str line))
  | _ => m
  end.

(** One round of the [while (std::getline ...)] loop. *)
Definition ParseLine (out : ProgramDef D) (line_no : N) (raw_line : list ascii)
  : Res (ProgramDef D) :=
  let line := Trim (strip_comment raw_line) in
  match line with
  | [] => Ok out
  | _ =>
      tokens <- Tokenize (str line);;
      let tokens := map (stamp_line line_no) tokens in
      let first_kind := match tokens with t :: _ => tok_kind t | [] => EndOfFile end in
      with_line line
        (if decide (first_kind = Param) then
           def <- ParseParamDef tokens;;
           let def := if Z.ltb (par_id def) 0
                      then MkParam (par_name def) (par_default def)
                             (Z.of_nat (length (prog_params out))) (par_loc def)
                      else def in
           Ok (MkProgram (prog_params out ++ [def]) (prog_signals out))
         else
           def <- ParseSignalDef tokens;;
           TypeCheckSignal def ;;;
           Ok (MkProgram (prog_params out) (prog_signals out ++ [FoldConstantsInPlace def])))
  end.

Fixpoint ParseLines (out : ProgramDef D) (line_no : N) (lines : list (list ascii))
  : Res (ProgramDef D) :=
  match lines with
  | [] => Ok out
  | raw_line :: rest =>
      let line_no := ((line_no + 1) mod 2 ^ 32)%N in
      out <- ParseLine out line_no raw_line;; ParseLines out line_no rest
  end.

(** Renumber the parameters and reject a duplicate name. *)
Fixpoint number_params (i : nat) (ids : gmap string Z) (params : list (ParamDef D))
  : Res (list (ParamDef D) * gmap string Z) :=
  match params with
  | [] => Ok ([], ids)
  | p :: rest =>
      let p := MkParam (par_name p) (par_default p) (Z.of_nat i) (par_loc p) in
      match ids !! par_name p with
      | Some _ => Err (ParseError ("Duplicate parameter name: " +:+ par_name p) (par_loc p) "")
      | None =>
          '(rest, ids) <- number_params (S i) (<[par_name p := par_id p]> ids) rest;;
          Ok (p :: rest, ids)
      end
  end.

Fixpoint check_signal_names (names : gset string) (param_ids : gmap string Z)
  (signals : list (SignalDef D)) : Res () :=
  match signals with
  | [] => Ok tt
  | s :: rest =>
      ensure (negb (bool_decide (sig_name s ∈ names)))
        (RuntimeError ("Duplicate signal name: " +:+ sig_name s)) ;;;
      match param_ids !! sig_name s with
      | Some _ =>
          Err (RuntimeError ("Name used by both parameter and signal: " +:+ sig_name s))
      | None => check_signal_names ({[sig_name s]} ∪ names) param_ids rest
      end
  end.

Fixpoint ResolveParameterRefs (param_ids : gmap string Z) (expr : Expr D) : Expr D :=
  match expr with
  | IdentifierExpr loc name =>
      match param_ids !! name with
      | Some id => ParameterExpr loc name id
      | None => expr
      end
  | NumberLiteral _ _ | ParameterExpr _ _ _ => expr
  | UnaryOp loc k x => UnaryOp loc k (ResolveParameterRefs param_ids x)
  | BinaryOp loc k l r =>
      BinaryOp loc k (ResolveParameterRefs param_ids l) (ResolveParameterRefs param_ids r)
  | Conditional loc c t e =>
      Conditional loc (ResolveParameterRefs param_ids c) (ResolveParameterRefs param_ids t)
        (ResolveParameterRefs param_ids e)
  | FunctionCall loc name args node_id symbol_id =>
      FunctionCall loc name
        (match args with
         | a :: rest =>
             (if IsTickerFirstArgFn name then a else ResolveParameterRefs param_ids a)
             :: map (ResolveParameterRefs param_ids) rest
         | [] => []
         end) node_id symbol_id
  end.

Definition ParseProgram (source : string) : Res (ProgramDef D) :=
  out <- ParseLines (MkProgram [] []) 0 (getlines (chars source) []);;
  ensure (negb (length (prog_signals out) =? 0))
    (RuntimeError "No signal definitions found") ;;;
  '(params, param_ids) <- number_params 0 ∅ (prog_params out);;
  check_signal_names ∅ param_ids (prog_signals out) ;;;
  Ok (MkProgram params
        (map (fun s => MkSignal (sig_name s) (ResolveParameterRefs param_ids (sig_body s)))
           (prog_signals out))).

(** ** Inlining of signal references *)

Fixpoint InlineExpr (defs : gmap string (Expr D)) (expr : Expr D) : Expr D :=
  match expr with
  | NumberLiteral _ v => NumberLiteral noloc v
  | IdentifierExpr _ name =>
      match defs !! name with
      | Some body => CloneExpr body
      | None => IdentifierExpr noloc name
      end
  | ParameterExpr _ name id => ParameterExpr noloc name id
  | UnaryOp _ k x => UnaryOp noloc k (InlineExpr defs x)
  | BinaryOp _ k l r => BinaryOp noloc k (InlineExpr defs l) (InlineExpr defs r)
  | Conditional _ c t e =>
      Conditional noloc (InlineExpr defs c) (InlineExpr defs t) (InlineExpr defs e)
  | FunctionCall _ name args _ _ =>
      FunctionCall noloc name (map (InlineExpr defs) args) (-1) (-1)
  end.

Fixpoint CollectRefs (expr : Expr D) : gset string :=
  match expr with
  | IdentifierExpr _ name => {[name]}
  | NumberLiteral _ _ | ParameterExpr _ _ _ => ∅
  | UnaryOp _ _ x => CollectRefs x
  | BinaryOp _ _ l r => CollectRefs l ∪ CollectRefs r
  | Conditional _ c t e => CollectRefs c ∪ (CollectRefs t ∪ CollectRefs e)
  | FunctionCall _ name args _ _ =>
      let refs := map CollectRefs args in
      ⋃ (if IsTickerFirstArgFn name then tail refs else refs)
  end.
End program.

Section inline.
Context {D : Type} `{Fp D} `{EqDecision D}.
Variable signals : list (SignalDef D).

(** The order in which a range-for visits an [unordered_set] is
    unspecified; the theorems about it assume that it lists the elements. *)
Variable set_order : gset string -> list string.

(** [index]: the position of each name; a duplicate throws. *)
Fixpoint build_index (i : nat) (l : list (SignalDef D)) (index : gmap string nat)
  : Res (gmap string nat) :=
  match l with
  | [] => Ok index
  | s :: rest =>
      match index !! sig_name s with
      | Some _ => Err (RuntimeError ("Duplicate signal name: " +:+ sig_name s))
      | None => build_index (S i) rest (<[sig_name s := i]> index)
      end
  end.

(** [resolved] (a null body until a signal is done) and [state]. *)
Inductive Mark := Unvisited | Visiting | Done.
Record DfsState := MkDfs {
  resolved : list (string * option (Expr D)); state : list Mark }.

(** The loop over [refs] that collects the bodies of the resolved signals;
    [emplace] keeps an existing entry. *)
Fixpoint collect_defs (index : gmap string nat)
  (resolved : list (string * option (Expr D))) (refs : list string)
  (defs : gmap string (Expr D)) : Res (gmap string (Expr D)) :=
  match refs with
  | [] => Ok defs
  | r :: rest =>
      match index !! r with
      | None => collect_defs index resolved rest defs
      | Some j =>
          '(_, body) <- at_idx "resolved[]" resolved j;;
          match body with
          | Some b =>
              collect_defs index resolved rest
                (match defs !! r with Some _ => defs | None => <[r := b]> defs end)
          | None => Err (Undefined "null body")
          end
      end
  end.

Fixpoint dfs (index : gmap string nat) (fuel i : nat) (st : DfsState) : Res DfsState :=
  match fuel with
  | 0 => Err OutOfFuel
  | S fuel' =>
      signal <- at_idx "signals[i]" signals i;;
      mark <- at_idx "state[i]" (state st) i;;
      match mark with
      | Done => Ok st
      | Visiting =>
          Err (RuntimeError ("Cycle in signal dependencies at: " +:+ sig_name signal))
      | Unvisited =>
          let refs := set_order (CollectRefs (sig_body signal)) in
          st <- (fix visit (rs : list string) (st : DfsState) : Res DfsState :=
                   match rs with
                   | [] => Ok st
                   | r :: rs' =>
                       match index !! r with
                       | None => visit rs' st
                       | Some j => st <- dfs index fuel' j st;; visit rs' st
                       end
                   end) refs (MkDfs (resolved st) (<[i := Visiting]> (state st)));;
          defs <- collect_defs index (resolved st) refs ∅;;
          Ok (MkDfs (<[i := (sig_name signal, Some (InlineExpr defs (sig_body signal)))]>
                       (resolved st))
                (<[i := Done]> (state st)))
      end
  end.

Fixpoint dfs_all (index : gmap string nat) (todo : list nat) (st : DfsState) : Res DfsState :=
  match todo with
  | [] => Ok st
  | i :: rest => st <- dfs index (S (length signals)) i st;; dfs_all index rest st
  end.

(** Reading the final vector: every body has been set. *)
Fixpoint read_resolved (l : list (string * option (Expr D))) : Res (list (SignalDef D)) :=
  match l with
  | [] => Ok []
  | (name, Some body) :: rest => rmap (cons (MkSignal name body)) (read_resolved rest)
  | (_, None) :: _ => Err (Undefined "null body")
  end.

Definition InlineSignalDependencies : Res (list (SignalDef D)) :=
  index <- build_index 0 signals ∅;;
  let n := length signals in
  st <- dfs_all index (seq 0 n) (MkDfs (replicate n ("", None)) (replicate n Unvisited));;
  read_resolved (resolved st).
End inline.

(** ** Numbering the stateful calls *)

Definition IsStatefulOp (name : string) : bool :=
  (name =? "ema")%string || (name =? "ema_alpha")%string || (name =? "sma")%string ||
  (name =? "rolling_std")%string || (name =? "rolling_min")%string ||
  (name =? "rolling_max")%string || (name =? "zscore")%string || (name =? "vwap")%string ||
  (name =? "lag")%string || (name =? "cross_above")%string ||
  (name =? "cross_below")%string || (name =? "rolling_corr")%string ||
  (name =? "rolling_beta")%string || (name =? "kalman1d")%string.

Section allocate.
Context {D : Type} `{EqDecision D}.

(** The pointer [node] of the source is to a call whose name and arguments
    do not change after the entry is made, up to annotations that
    [AstEquals] ignores: the entry holds the call and its id. *)
Record SeenStateful := MkSeen {
  seen_node : Expr D; seen_id : Z; seen_unconditional : bool }.

(** The two early [continue]s test what [AstEquals] tests again. *)
Fixpoint TryAliasNodeId (seen : list SeenStateful) (candidate : Expr D) : Z :=
  match seen with
  | [] => 0
  | s :: rest =>
      if negb (seen_unconditional s) then TryAliasNodeId rest candidate
      else if AstEquals (seen_node s) candidate then seen_id s
      else TryAliasNodeId rest candidate
  end.

(** The captured variables [next_id] and [seen]. *)
Record AllocState := MkAlloc { alloc_next : Z; alloc_seen : list SeenStateful }.

(** The id a call gets, and the state after it. *)
Definition assign_id (call : Expr D) (unconditional : bool) (st : AllocState)
  : Z * AllocState :=
  let aliased := TryAliasNodeId (alloc_seen st) call in
  if (0 <? aliased)%Z then (aliased, st)
  else (alloc_next st,
        MkAlloc (alloc_next st + 1)
          (alloc_seen st ++ [MkSeen call (alloc_next st) unconditional])).

Fixpoint walk (expr : Expr D) (is_unconditional : bool) (st : AllocState)
  : Expr D * AllocState :=
  match expr with
  | UnaryOp loc k x =>
      let '(x, st) := walk x is_unconditional st in (UnaryOp loc k x, st)
  | BinaryOp loc k l r =>
      let '(l, st) := walk l is_unconditional st in
      let '(r, st) := walk r is_unconditional st in
      (BinaryOp loc k l r, st)
  | Conditional loc c t e =>
      let '(c, st) := walk c is_unconditional st in
      let '(t, st) := walk t false st in
      let '(e, st) := walk e false st in
      (Conditional loc c t e, st)
  | FunctionCall loc name args node_id symbol_id =>
      let '(id, st) :=
        if IsStatefulOp name && (node_id <? 0)%Z
        then assign_id expr is_unconditional st else (node_id, st) in
      let '(args, st) :=
        (fix walk_args (l : list (Expr D)) (st : AllocState) :=
           match l with
           | [] => ([], st)
           | a :: l' =>
               let '(a, st) := walk a is_unconditional st in
               let '(l', st) := walk_args l' st in
               (a :: l', st)
           end) args st in
      (FunctionCall loc name args id symbol_id, st)
  | NumberLiteral _ _ | IdentifierExpr _ _ | ParameterExpr _ _ _ => (expr, st)
  end.

Definition AllocateNodeIds (signal : SignalDef D) : SignalDef D * Z :=
  let '(body, st) := walk (sig_body signal) true (MkAlloc 1 []) in
  (MkSignal (sig_name signal) body, (alloc_next st - 1)%Z).

(** The loop over the signals: [seen] is cleared, [next_id] is not. *)
Fixpoint allocate_signals (next : Z) (signals : list (SignalDef D))
  : list (SignalDef D) * Z :=
  match signals with
  | [] => ([], next)
  | s :: rest =>
      let '(body, st) := walk (sig_body s) true (MkAlloc next []) in
      let '(rest, next) := allocate_signals (alloc_next st) rest in
      (MkSignal (sig_name s) body :: rest, next)
  end.

Definition AllocateProgramNodeIds (signals : list (SignalDef D))
  : list (SignalDef D) * Z :=
  let '(signals, next) := allocate_signals 1 signals in (signals, (next - 1)%Z).

(** ** Binding tickers to instrument slots *)

Definition bind_ticker (symbols : SymbolTable) (name : string) (args : list (Expr D))
  (symbol_id : Z) : Res Z :=
  if IsTickerFirstArgFn name then
    match args with
    | [] => Ok symbol_id
    | IdentifierExpr _ ticker :: _ => rmap Z.of_nat (LookupId symbols ticker)
    | _ => Err (RuntimeError (name +:+ "() first argument must be ticker identifier"))
    end
  else Ok symbol_id.

Fixpoint bind_walk (symbols : SymbolTable) (expr : Expr D) : Res (Expr D) :=
  match expr with
  | UnaryOp loc k x => rmap (UnaryOp loc k) (bind_walk symbols x)
  | BinaryOp loc k l r =>
      l <- bind_walk symbols l;; r <- bind_walk symbols r;; Ok (BinaryOp loc k l r)
  | Conditional loc c t e =>
      c <- bind_walk symbols c;; t <- bind_walk symbols t;; e <- bind_walk symbols e;;
      Ok (Conditional loc c t e)
  | FunctionCall loc name args node_id symbol_id =>
      id <- bind_ticker symbols name args symbol_id;;
      args <- (fix bind_args (l : list (Expr D)) : Res (list (Expr D)) :=
                 match l with
                 | [] => Ok []
                 | a :: l' => a <- bind_walk symbols a;; rmap (cons a) (bind_args l')
                 end) args;;
      Ok (FunctionCall loc name args node_id id)
  | NumberLiteral _ _ | IdentifierExpr _ _ | ParameterExpr _ _ _ => Ok expr
  end.

Definition BindSymbolIds (signal : SignalDef D) (symbols : SymbolTable)
  : Res (SignalDef D) :=
  rmap (MkSignal (sig_name signal)) (bind_walk symbols (sig_body signal)).
End allocate.
