(* ===== verification/Rolling.v ===== *)
(** * Rolling operators (src/src/runtime.h, src/src/runtime.cpp)

    The state records of the windowed operators and the functions that
    push a sample into them and read the result.  A [std::vector] is a
    list, [buffer[head]] is an access that is [Undefined] outside it, and
    the counters of the ring buffers, which never exceed a vector's size,
    are natural numbers.  The tick index of the monotonic deques grows
    without bound: it is a [size_t] with its wrap-around. *)

From S2P Require Import Prelude Errors Arith.

(** [l[i] = x] on a vector. *)
Definition set_idx {A} (what : string) (l : list A) (i : nat) (x : A) : Res (list A) :=
  if decide (i < length l) then Ok (<[i := x]> l) else Err (Undefined what).

(** Arithmetic on [std::size_t]. *)
Definition u64 (z : Z) : Z := (z mod 2 ^ 64)%Z.

Section rolling.
Context {D L : Type} `{Machine D L}.
Local Open Scope fp_scope.

(** ** sma / rolling_std / zscore *)

Record RingStatsState := MkRing {
  buffer : list D; capacity : nat; head : nat; count : nat;
  sum : L; mean : L; m2 : L; slides_since_refresh : nat }.

Definition RingStatsState_init : RingStatsState :=
  MkRing [] 0 0 0 (fint 0) (fint 0) (fint 0) 0.

(** The state after [if (state.capacity != period) { ... }]. *)
Definition RingStatsPrepare (period : nat) (st : RingStatsState) : RingStatsState :=
  if decide (capacity st = period) then st
  else MkRing (replicate period (fint 0)) period 0 0 (fint 0) (fint 0) (fint 0) 0.

Definition RingStatsRefreshInterval (capacity : nat) : nat := capacity.

Definition RingStatsUpdateMeanM2OnAdd (st : RingStatsState) (sample : D) : RingStatsState :=
  let x := ext sample in
  let n := fnat (count st) in
  let delta := x - mean st in
  let mean' := mean st + delta / n in
  let delta2 := x - mean' in
  MkRing (buffer st) (capacity st) (head st) (count st) (sum st)
    mean' (m2 st + delta * delta2) (slides_since_refresh st).

Definition RingStatsUpdateMeanM2OnSlide (st : RingStatsState) (old_sample new_sample : D)
  : RingStatsState :=
  let '(mean', m2') :=
    if capacity st <=? 1 then (ext new_sample, fint 0)
    else
      let n := fnat (count st) in
      let x_old := ext old_sample in
      let delta_r := x_old - mean st in
      let mean_r := mean st - delta_r / (n - fint 1) in
      let m2_r := m2 st - delta_r * (x_old - mean_r) in
      let x_new := ext new_sample in
      let delta_a := x_new - mean_r in
      let mean_a := mean_r + delta_a / n in
      let m2_a := m2_r + delta_a * (x_new - mean_a) in
      (mean_a, if flt m2_a (fint 0) then fint 0 else m2_a)
  in MkRing (buffer st) (capacity st) (head st) (count st) (sum st)
       mean' m2' (slides_since_refresh st).

(** The two loops over [buffer[0 .. count)]: a sum, and a sum of squared
    deviations from [mean]. *)
Definition sum_ext (xs : list D) : L := foldl (fun acc x => acc + ext x) (fint 0) xs.
Definition sum_sq_dev (mean : L) (xs : list D) : L :=
  foldl (fun acc x => let d := ext x - mean in acc + d * d) (fint 0) xs.

Definition RingStatsRefreshMeanM2FromBuffer (st : RingStatsState) : RingStatsState :=
  let n := fnat (count st) in
  let xs := take (count st) (buffer st) in
  let mean' := sum_ext xs / n in
  let ss := sum_sq_dev mean' xs in
  MkRing (buffer st) (capacity st) (head st) (count st) (sum st)
    mean' (if flt ss (fint 0) then fint 0 else ss) 0.

(** What [RingStatsPush] and [RingStatsPushPrepared] do once the capacity
    is set (the branch for compilers other than MSVC). *)
Definition RingStatsStep (st : RingStatsState) (sample : D) : Res RingStatsState :=
  let slid := count st =? capacity st in
  st <- (if slid then
           old <- at_idx "buffer[head]" (buffer st) (head st);;
           Ok (RingStatsUpdateMeanM2OnSlide
                 (MkRing (buffer st) (capacity st) (head st) (count st)
                    (sum st - ext old) (mean st) (m2 st) (slides_since_refresh st))
                 old sample)
         else
           Ok (RingStatsUpdateMeanM2OnAdd
                 (MkRing (buffer st) (capacity st) (head st) (S (count st))
                    (sum st) (mean st) (m2 st) (slides_since_refresh st)) sample));;
  buf <- set_idx "buffer[head]" (buffer st) (head st) sample;;
  let st := MkRing buf (capacity st) (S (head st) mod capacity st) (count st)
              (sum st + ext sample) (mean st) (m2 st) (slides_since_refresh st) in
  Ok (if slid then
        let st := MkRing (buffer st) (capacity st) (head st) (count st)
                    (sum st) (mean st) (m2 st) (S (slides_since_refresh st)) in
        if (RingStatsRefreshInterval (capacity st) <=? slides_since_refresh st) &&
           (1 <? capacity st)
        then RingStatsRefreshMeanM2FromBuffer st else st
      else st).

Definition RingStatsPush (st : RingStatsState) (period : nat) (sample : D)
  : Res RingStatsState :=
  ensure (negb (period =? 0)) (RuntimeError "RingStatsPush requires period > 0") ;;;
  RingStatsStep (RingStatsPrepare period st) sample.

Definition RingStatsPushPrepared (st : RingStatsState) (sample : D) : Res RingStatsState :=
  ensure (negb ((capacity st =? 0) || (length (buffer st) =? 0)))
    (RuntimeError "RingStatsPushPrepared called before state prewarm") ;;;
  RingStatsStep st sample.

Definition RingStatsMean (st : RingStatsState) : D :=
  if count st =? 0 then fnan else trunc (sum st / fnat (count st)).

(** The tail shared by the two standard deviations: clamp a tiny negative
    variance, reject a negative one, take the root. *)
Definition stddev_of_var (var ss : L) : D :=
  let scale := fint 1 + ss in
  let var := if flt var (fint 0) && fle (fabs var) (flit 1 15 * scale)
             then fint 0 else var in
  if flt var (fint 0) then fnan else fsqrt (trunc var).

Definition RingStatsStddevSample (st : RingStatsState) : D :=
  if count st <? 2 then fnan
  else stddev_of_var (m2 st / (fnat (count st) - fint 1)) (m2 st).

Definition RingStatsStddevSampleTwoPassReference (st : RingStatsState) : D :=
  if count st <? 2 then fnan
  else
    let n := fnat (count st) in
    let xs := take (count st) (buffer st) in
    let mean := sum_ext xs / n in
    let ss := sum_sq_dev mean xs in
    stddev_of_var (ss / (n - fint 1)) ss.

Definition RingStatsFull (st : RingStatsState) : bool :=
  (count st =? capacity st) && (0 <? capacity st).

(** ** vwap *)

Record VwapState := MkVwap {
  price_buf : list D; vol_buf : list D; v_capacity : nat; v_head : nat; v_count : nat;
  sum_pv : L; sum_vol : L }.

Definition VwapState_init : VwapState := MkVwap [] [] 0 0 0 (fint 0) (fint 0).

Definition VwapPrepare (period : nat) (st : VwapState) : VwapState :=
  if decide (v_capacity st = period) then st
  else MkVwap (replicate period (fint 0)) (replicate period (fint 0)) period 0 0
         (fint 0) (fint 0).

Definition VwapStep (st : VwapState) (price volume : D) : Res VwapState :=
  '(count, pv, vol) <-
    (if v_count st =? v_capacity st then
       old_p <- at_idx "price_buf[head]" (price_buf st) (v_head st);;
       old_v <- at_idx "vol_buf[head]" (vol_buf st) (v_head st);;
       Ok (v_count st, sum_pv st - ext old_p * ext old_v, sum_vol st - ext old_v)
     else Ok (S (v_count st), sum_pv st, sum_vol st));;
  prices <- set_idx "price_buf[head]" (price_buf st) (v_head st) price;;
  vols <- set_idx "vol_buf[head]" (vol_buf st) (v_head st) volume;;
  Ok (MkVwap prices vols (v_capacity st) (S (v_head st) mod v_capacity st) count
        (pv + ext price * ext volume) (vol + ext volume)).

Definition VwapPush (st : VwapState) (period : nat) (price volume : D) : Res VwapState :=
  ensure (negb (period =? 0)) (RuntimeError "VwapPush requires period > 0") ;;;
  VwapStep (VwapPrepare period st) price volume.

Definition VwapPushPrepared (st : VwapState) (price volume : D) : Res VwapState :=
  ensure (negb ((v_capacity st =? 0) || (length (price_buf st) =? 0) ||
                (length (vol_buf st) =? 0)))
    (RuntimeError "VwapPushPrepared called before state prewarm") ;;;
  VwapStep st price volume.

Definition VwapValue (st : VwapState) : D :=
  if (v_count st =? 0) || feq (sum_vol st) (fint 0) then fnan
  else trunc (sum_pv st / sum_vol st).

Definition VwapFull (st : VwapState) : bool :=
  (v_count st =? v_capacity st) && (0 <? v_capacity st).

(** ** rolling_corr / rolling_beta *)

Record PairSums (A : Type) := MkSums {
  sum_x : A; sum_y : A; sum_xy : A; sum_xx : A; sum_yy : A }.
Arguments MkSums {A}.
Arguments sum_x {A}.
Arguments sum_y {A}.
Arguments sum_xy {A}.
Arguments sum_xx {A}.
Arguments sum_yy {A}.

Record RollingPairState := MkPair {
  x_buf : list D; y_buf : list D; p_capacity : nat; p_head : nat; p_count : nat;
  sums : PairSums L }.

Definition zero_sums : PairSums L :=
  MkSums (fint 0) (fint 0) (fint 0) (fint 0) (fint 0).

Definition RollingPairState_init : RollingPairState := MkPair [] [] 0 0 0 zero_sums.

Definition RollingPairPrepare (period : nat) (st : RollingPairState) : RollingPairState :=
  if decide (p_capacity st = period) then st
  else MkPair (replicate period (fint 0)) (replicate period (fint 0)) period 0 0 zero_sums.

(** Remove the contributions of an expiring pair; add those of a new one. *)
Definition pair_remove (s : PairSums L) (ox oy : D) : PairSums L :=
  MkSums (sum_x s - ext ox) (sum_y s - ext oy) (sum_xy s - ext ox * ext oy)
    (sum_xx s - ext ox * ext ox) (sum_yy s - ext oy * ext oy).
Definition pair_add (s : PairSums L) (x y : D) : PairSums L :=
  MkSums (sum_x s + ext x) (sum_y s + ext y) (sum_xy s + ext x * ext y)
    (sum_xx s + ext x * ext x) (sum_yy s + ext y * ext y).

Definition RollingPairPush (st : RollingPairState) (period : nat) (x y : D)
  : Res RollingPairState :=
  ensure (negb (period =? 0)) (RuntimeError "RollingPairPush requires period > 0") ;;;
  let st := RollingPairPrepare period st in
  '(count, s) <-
    (if p_count st =? p_capacity st then
       ox <- at_idx "x_buf[head]" (x_buf st) (p_head st);;
       oy <- at_idx "y_buf[head]" (y_buf st) (p_head st);;
       Ok (p_count st, pair_remove (sums st) ox oy)
     else Ok (S (p_count st), sums st));;
  xs <- set_idx "x_buf[head]" (x_buf st) (p_head st) x;;
  ys <- set_idx "y_buf[head]" (y_buf st) (p_head st) y;;
  Ok (MkPair xs ys (p_capacity st) (S (p_head st) mod p_capacity st) count (pair_add s x y)).

Definition RollingPairFull (st : RollingPairState) : bool :=
  (p_count st =? p_capacity st) && (0 <? p_capacity st).

Definition cov_unnorm (s : PairSums L) (n : L) : L := sum_xy s - sum_x s * sum_y s / n.
Definition var_x_unnorm (s : PairSums L) (n : L) : L := sum_xx s - sum_x s * sum_x s / n.
Definition var_y_unnorm (s : PairSums L) (n : L) : L := sum_yy s - sum_y s * sum_y s / n.

(** [if (r > 1.0L) r = 1.0L; if (r < -1.0L) r = -1.0L;] *)
Definition clamp_unit (r : L) : L :=
  let r := if fgt r (fint 1) then fint 1 else r in
  if flt r (fint (-1)) then fint (-1) else r.

Definition RollingPairCorrelation (st : RollingPairState) : D :=
  if negb (RollingPairFull st) then fnan
  else
    let n := fnat (p_count st) in
    let cov := cov_unnorm (sums st) n in
    let var_x := var_x_unnorm (sums st) n in
    let var_y := var_y_unnorm (sums st) n in
    if fle var_x (fint 0) || fle var_y (fint 0) then fnan
    else
      let denom := fsqrt (var_x * var_y) in
      if feq denom (fint 0) then fnan
      else trunc (clamp_unit (cov / denom)).

Definition RollingPairBeta (st : RollingPairState) : D :=
  if negb (RollingPairFull st) then fnan
  else
    let n := fnat (p_count st) in
    let cov := cov_unnorm (sums st) n in
    let var_x := var_x_unnorm (sums st) n in
    if fle var_x (fint 0) then fnan else trunc (cov / var_x).

End rolling.

(** The operators that use [double] alone. *)

Section double_operators.
Context {D : Type} `{Fp D}.
Local Open Scope fp_scope.

(** ** lag *)

Record LagState := MkLag {
  l_buffer : list D; l_capacity : nat; l_head : nat; l_count : nat }.

Definition LagState_init : LagState := MkLag [] 0 0 0.

Definition LagPrepare (period : nat) (st : LagState) : LagState :=
  if decide (l_capacity st = period) then st
  else MkLag (replicate period (fint 0)) period 0 0.

Definition LagStep (st : LagState) (sample : D) : Res LagState :=
  buf <- set_idx "buffer[head]" (l_buffer st) (l_head st) sample;;
  Ok (MkLag buf (l_capacity st) (S (l_head st) mod l_capacity st)
        (if l_count st <? l_capacity st then S (l_count st) else l_count st)).

Definition LagPush (st : LagState) (period : nat) (sample : D) : Res LagState :=
  ensure (negb (period =? 0)) (RuntimeError "LagPush requires period > 0") ;;;
  LagStep (LagPrepare period st) sample.

Definition LagPushPrepared (st : LagState) (sample : D) : Res LagState :=
  ensure (negb ((l_capacity st =? 0) || (length (l_buffer st) =? 0)))
    (RuntimeError "LagPushPrepared called before state prewarm") ;;;
  LagStep st sample.

Definition LagValue (st : LagState) : Res D :=
  if (l_capacity st =? 0) || (l_count st <? l_capacity st) then Ok fnan
  else at_idx "buffer[head]" (l_buffer st) (l_head st).

(** ** kalman1d *)

Record Kalman1dState := MkKalman {
  x_hat : D; k_p : D; k_q : D; k_r : D; k_initialized : bool }.

Definition Kalman1dState_init : Kalman1dState :=
  MkKalman (fint 0) (fint 0) (fint 0) (fint 0) false.

Definition Kalman1dStep (st : Kalman1dState) (x q r : D) : D * Kalman1dState :=
  if negb (k_initialized st) then (x, MkKalman x r q r true)
  else
    let p_pred := k_p st + q in
    let denom := p_pred + r in
    if fle denom (fint 0) then (x_hat st, st)
    else
      let k_gain := p_pred / denom in
      let x' := x_hat st + k_gain * (x - x_hat st) in
      let p_new := (fint 1 - k_gain) * p_pred in
      let p_new := if flt p_new (fint 0) then fint 0 else p_new in
      (x', MkKalman x' p_new q r true).

(** ** ema / ema_alpha and cross_above / cross_below *)

Record EMAState := MkEma {
  e_value : D; e_alpha : D; e_period : Z; e_initialized : bool }.

Definition EMAState_init : EMAState := MkEma (fint 0) (fint 0) 0 false.

Record CrossState := MkCross { prev_a : D; prev_b : D; c_initialized : bool }.

Definition CrossState_init : CrossState := MkCross (fint 0) (fint 0) false.

(** ** rolling_min / rolling_max *)

Record MonoDequeState := MkMono {
  dq_buf : list (Z * D); dq_head : nat; dq_count : nat; dq_cap : nat }.

Definition MonoDequeState_init : MonoDequeState := MkMono [] 0 0 0.

Definition MonoInit (st : MonoDequeState) (period : nat) : MonoDequeState :=
  let needed_cap := S period in
  if decide (dq_cap st = needed_cap) then st
  else MkMono (replicate needed_cap (0%Z, fint 0)) 0 0 needed_cap.

Definition MonoEmpty (st : MonoDequeState) : bool := dq_count st =? 0.
Definition MonoTailIndex (st : MonoDequeState) : nat :=
  Nat.sub (Nat.add (dq_head st) (dq_count st)) 1 mod dq_cap st.
Definition MonoFront (st : MonoDequeState) : Res (Z * D) :=
  at_idx "buf[head]" (dq_buf st) (dq_head st).
Definition MonoBack (st : MonoDequeState) : Res (Z * D) :=
  at_idx "buf[tail]" (dq_buf st) (MonoTailIndex st).
Definition MonoPopFront (st : MonoDequeState) : MonoDequeState :=
  MkMono (dq_buf st) (S (dq_head st) mod dq_cap st) (pred (dq_count st)) (dq_cap st).
Definition MonoPopBack (st : MonoDequeState) : MonoDequeState :=
  MkMono (dq_buf st) (dq_head st) (pred (dq_count st)) (dq_cap st).
Definition MonoPushBack (st : MonoDequeState) (v : Z * D) : Res MonoDequeState :=
  let write_idx := Nat.add (dq_head st) (dq_count st) mod dq_cap st in
  buf <- set_idx "buf[write_idx]" (dq_buf st) write_idx v;;
  Ok (MkMono buf (dq_head st) (S (dq_count st)) (dq_cap st)).

(** [while (!MonoEmpty(dq) && drop(MonoBack(dq).second)) MonoPopBack(dq);]:
    a round decrements [count], which is therefore enough fuel. *)
Fixpoint pop_back_while (drop : D -> bool) (fuel : nat) (dq : MonoDequeState)
  : Res MonoDequeState :=
  match fuel with
  | 0%nat => Ok dq
  | S fuel' =>
      if MonoEmpty dq then Ok dq
      else
        '(_, v) <- MonoBack dq;;
        if drop v then pop_back_while drop fuel' (MonoPopBack dq) else Ok dq
  end.

(** [while (!MonoEmpty(dq) && (idx + 1 - MonoFront(dq).first) > period)]. *)
Fixpoint pop_front_expired (idx : Z) (period : nat) (fuel : nat) (dq : MonoDequeState)
  : Res MonoDequeState :=
  match fuel with
  | 0%nat => Ok dq
  | S fuel' =>
      if MonoEmpty dq then Ok dq
      else
        '(first, _) <- MonoFront dq;;
        if (Z.of_nat period <? u64 (idx + 1 - first))%Z
        then pop_front_expired idx period fuel' (MonoPopFront dq) else Ok dq
  end.

(** The body shared by the four functions; [drop] compares the back of the
    deque with the sample. *)
Definition MonoUpdate (drop : D -> D -> bool) (dq : MonoDequeState) (idx : Z)
  (period : nat) (sample : D) : Res (D * MonoDequeState * Z) :=
  dq <- pop_back_while (fun back => drop back sample) (dq_count dq) dq;;
  dq <- MonoPushBack dq (idx, sample);;
  dq <- pop_front_expired idx period (dq_count dq) dq;;
  '(_, v) <- MonoFront dq;;
  Ok (v, dq, u64 (idx + 1)).

Definition UpdateRollingMin (dq : MonoDequeState) (idx : Z) (period : nat) (sample : D) :=
  MonoUpdate fge (MonoInit dq period) idx period sample.
Definition UpdateRollingMax (dq : MonoDequeState) (idx : Z) (period : nat) (sample : D) :=
  MonoUpdate fle (MonoInit dq period) idx period sample.

Definition UpdateRollingMinPrepared (dq : MonoDequeState) (idx : Z) (sample : D)
  : Res (D * MonoDequeState * Z) :=
  ensure (negb (dq_cap dq =? 0))
    (RuntimeError "UpdateRollingMinPrepared called before state prewarm") ;;;
  MonoUpdate fge dq idx (pred (dq_cap dq)) sample.
Definition UpdateRollingMaxPrepared (dq : MonoDequeState) (idx : Z) (sample : D)
  : Res (D * MonoDequeState * Z) :=
  ensure (negb (dq_cap dq =? 0))
    (RuntimeError "UpdateRollingMaxPrepared called before state prewarm") ;;;
  MonoUpdate fle dq idx (pred (dq_cap dq)) sample.
End double_operators.

Arguments RingStatsState : clear implicits.
Arguments VwapState : clear implicits.
Arguments LagState : clear implicits.
Arguments PairSums : clear implicits.
Arguments RollingPairState : clear implicits.
Arguments Kalman1dState : clear implicits.
Arguments EMAState : clear implicits.
Arguments CrossState : clear implicits.
Arguments MonoDequeState : clear implicits.
Arguments MkSums {A}.
Arguments sum_x {A}.
Arguments sum_y {A}.
Arguments sum_xy {A}.
Arguments sum_xx {A}.
Arguments sum_yy {A}.
