(* ===== verification/Context.v ===== *)
(** * Signal contexts (src/src/runtime.h, src/src/runtime.cpp)

    [SignalContext] holds one state slot per operator kind and node id, and
    one sensitivity slot per node id and parameter.  [NodeStates] groups the
    arrays the operators use, [Sensitivities] those of the gradients; an
    array is reached through a [Slots] accessor, so that the operations on
    slots are written once.

    The [lowered_*] arrays of the record mirror these states for the code
    the JIT generates; they are in Lowered.v. *)

From S2P Require Import Prelude Errors Arith Ast Rolling.

(** [std::vector::resize]. *)
Definition vec_resize {A} (n : nat) (d : A) (l : list A) : list A :=
  take n l ++ replicate (n - length l) d.

(** [if (v.size() < needed) v.resize(needed)]. *)
Definition vec_grow {A} (n : nat) (d : A) (l : list A) : list A :=
  if length l <? n then vec_resize n d l else l.

(** [v[static_cast<std::size_t>(z)]]: a negative [z] is past every end. *)
Definition at_Z {A} (what : string) (l : list A) (z : Z) : Res A :=
  if (z <? 0)%Z then Err (Undefined what) else at_idx what l (Z.to_nat z).

Section market.
Context {D : Type} `{Fp D}.

(** ** Market data *)

Record InstrumentState := MkInstrument {
  bid : D; ask : D; last_price : D; volume : D; last_update_ns : Z }.

Definition InstrumentState_init : InstrumentState :=
  MkInstrument (fint 0) (fint 0) (fint 0) (fint 0) 0.

Record MarketState := MkMarket {
  instruments : list InstrumentState; current_time_ns : Z }.

End market.

Arguments InstrumentState : clear implicits.
Arguments MarketState : clear implicits.

Section context.
Context {D L : Type} `{Machine D L}.
Local Open Scope fp_scope.

(** ** The operators' states *)

Record NodeStates := MkNodes {
  ema_states : list (EMAState D);
  sma_states : list (RingStatsState D L);
  rolling_std_states : list (RingStatsState D L);
  zscore_states : list (RingStatsState D L);
  vwap_states : list (VwapState D L);
  lag_states : list (LagState D);
  cross_states : list (CrossState D);
  rolling_min_deques : list (MonoDequeState D);
  rolling_max_deques : list (MonoDequeState D);
  rolling_min_indices : list Z;
  rolling_max_indices : list Z;
  rolling_corr_states : list (RollingPairState D L);
  rolling_beta_states : list (RollingPairState D L);
  kalman1d_states : list (Kalman1dState D) }.

(** A position in a record of arrays: how to read it and how to write it. *)
Record Slots (C S : Type) := MkSlots {
  slots_get : C -> list S; slots_set : list S -> C -> C }.
Arguments MkSlots {C S}.
Arguments slots_get {C S}.
Arguments slots_set {C S}.

Definition set_ema_states (v : list (EMAState D)) (c : NodeStates) : NodeStates :=
  MkNodes v (sma_states c) (rolling_std_states c) (zscore_states c) (vwap_states c)
    (lag_states c) (cross_states c) (rolling_min_deques c) (rolling_max_deques c)
    (rolling_min_indices c) (rolling_max_indices c) (rolling_corr_states c)
    (rolling_beta_states c) (kalman1d_states c).
Definition set_sma_states (v : list (RingStatsState D L)) (c : NodeStates) : NodeStates :=
  MkNodes (ema_states c) v (rolling_std_states c) (zscore_states c) (vwap_states c)
    (lag_states c) (cross_states c) (rolling_min_deques c) (rolling_max_deques c)
    (rolling_min_indices c) (rolling_max_indices c) (rolling_corr_states c)
    (rolling_beta_states c) (kalman1d_states c).
Definition set_rolling_std_states (v : list (RingStatsState D L)) (c : NodeStates) : NodeStates :=
  MkNodes (ema_states c) (sma_states c) v (zscore_states c) (vwap_states c)
    (lag_states c) (cross_states c) (rolling_min_deques c) (rolling_max_deques c)
    (rolling_min_indices c) (rolling_max_indices c) (rolling_corr_states c)
    (rolling_beta_states c) (kalman1d_states c).
Definition set_zscore_states (v : list (RingStatsState D L)) (c : NodeStates) : NodeStates :=
  MkNodes (ema_states c) (sma_states c) (rolling_std_states c) v (vwap_states c)
    (lag_states c) (cross_states c) (rolling_min_deques c) (rolling_max_deques c)
    (rolling_min_indices c) (rolling_max_indices c) (rolling_corr_states c)
    (rolling_beta_states c) (kalman1d_states c).
Definition set_vwap_states (v : list (VwapState D L)) (c : NodeStates) : NodeStates :=
  MkNodes (ema_states c) (sma_states c) (rolling_std_states c) (zscore_states c) v
    (lag_states c) (cross_states c) (rolling_min_deques c) (rolling_max_deques c)
    (rolling_min_indices c) (rolling_max_indices c) (rolling_corr_states c)
    (rolling_beta_states c) (kalman1d_states c).
Definition set_lag_states (v : list (LagState D)) (c : NodeStates) : NodeStates :=
  MkNodes (ema_states c) (sma_states c) (rolling_std_states c) (zscore_states c)
    (vwap_states c) v (cross_states c) (rolling_min_deques c) (rolling_max_deques c)
    (rolling_min_indices c) (rolling_max_indices c) (rolling_corr_states c)
    (rolling_beta_states c) (kalman1d_states c).
Definition set_cross_states (v : list (CrossState D)) (c : NodeStates) : NodeStates :=
  MkNodes (ema_states c) (sma_states c) (rolling_std_states c) (zscore_states c)
    (vwap_states c) (lag_states c) v (rolling_min_deques c) (rolling_max_deques c)
    (rolling_min_indices c) (rolling_max_indices c) (rolling_corr_states c)
    (rolling_beta_states c) (kalman1d_states c).
Definition set_rolling_min_deques (v : list (MonoDequeState D)) (c : NodeStates) : NodeStates :=
  MkNodes (ema_states c) (sma_states c) (rolling_std_states c) (zscore_states c)
    (vwap_states c) (lag_states c) (cross_states c) v (rolling_max_deques c)
    (rolling_min_indices c) (rolling_max_indices c) (rolling_corr_states c)
    (rolling_beta_states c) (kalman1d_states c).
Definition set_rolling_max_deques (v : list (MonoDequeState D)) (c : NodeStates) : NodeStates :=
  MkNodes (ema_states c) (sma_states c) (rolling_std_states c) (zscore_states c)
    (vwap_states c) (lag_states c) (cross_states c) (rolling_min_deques c) v
    (rolling_min_indices c) (rolling_max_indices c) (rolling_corr_states c)
    (rolling_beta_states c) (kalman1d_states c).
Definition set_rolling_min_indices (v : list (Z)) (c : NodeStates) : NodeStates :=
  MkNodes (ema_states c) (sma_states c) (rolling_std_states c) (zscore_states c)
    (vwap_states c) (lag_states c) (cross_states c) (rolling_min_deques c)
    (rolling_max_deques c) v (rolling_max_indices c) (rolling_corr_states c)
    (rolling_beta_states c) (kalman1d_states c).
Definition set_rolling_max_indices (v : list (Z)) (c : NodeStates) : NodeStates :=
  MkNodes (ema_states c) (sma_states c) (rolling_std_states c) (zscore_states c)
    (vwap_states c) (lag_states c) (cross_states c) (rolling_min_deques c)
    (rolling_max_deques c) (rolling_min_indices c) v (rolling_corr_states c)
    (rolling_beta_states c) (kalman1d_states c).
Definition set_rolling_corr_states (v : list (RollingPairState D L)) (c : NodeStates) : NodeStates :=
  MkNodes (ema_states c) (sma_states c) (rolling_std_states c) (zscore_states c)
    (vwap_states c) (lag_states c) (cross_states c) (rolling_min_deques c)
    (rolling_max_deques c) (rolling_min_indices c) (rolling_max_indices c) v
    (rolling_beta_states c) (kalman1d_states c).
Definition set_rolling_beta_states (v : list (RollingPairState D L)) (c : NodeStates) : NodeStates :=
  MkNodes (ema_states c) (sma_states c) (rolling_std_states c) (zscore_states c)
    (vwap_states c) (lag_states c) (cross_states c) (rolling_min_deques c)
    (rolling_max_deques c) (rolling_min_indices c) (rolling_max_indices c)
    (rolling_corr_states c) v (kalman1d_states c).
Definition set_kalman1d_states (v : list (Kalman1dState D)) (c : NodeStates) : NodeStates :=
  MkNodes (ema_states c) (sma_states c) (rolling_std_states c) (zscore_states c)
    (vwap_states c) (lag_states c) (cross_states c) (rolling_min_deques c)
    (rolling_max_deques c) (rolling_min_indices c) (rolling_max_indices c)
    (rolling_corr_states c) (rolling_beta_states c) v.

Definition ema_slots := MkSlots ema_states set_ema_states.
Definition sma_slots := MkSlots sma_states set_sma_states.
Definition rolling_std_slots := MkSlots rolling_std_states set_rolling_std_states.
Definition zscore_slots := MkSlots zscore_states set_zscore_states.
Definition vwap_slots := MkSlots vwap_states set_vwap_states.
Definition lag_slots := MkSlots lag_states set_lag_states.
Definition cross_slots := MkSlots cross_states set_cross_states.
Definition rolling_min_deques_slots := MkSlots rolling_min_deques set_rolling_min_deques.
Definition rolling_max_deques_slots := MkSlots rolling_max_deques set_rolling_max_deques.
Definition rolling_min_indices_slots := MkSlots rolling_min_indices set_rolling_min_indices.
Definition rolling_max_indices_slots := MkSlots rolling_max_indices set_rolling_max_indices.
Definition rolling_corr_slots := MkSlots rolling_corr_states set_rolling_corr_states.
Definition rolling_beta_slots := MkSlots rolling_beta_states set_rolling_beta_states.
Definition kalman1d_slots := MkSlots kalman1d_states set_kalman1d_states.

(** [NodeStates] of a default-constructed context. *)
Definition NodeStates_init : NodeStates :=
  MkNodes [] [] [] [] [] [] [] [] [] [] [] [] [] [].

(** [EnsureNodeCapacity] up to the sensitivity arrays. *)
Definition grow_nodes (needed : nat) (c : NodeStates) : NodeStates :=
  MkNodes
    (vec_grow needed EMAState_init (ema_states c))
    (vec_grow needed RingStatsState_init (sma_states c))
    (vec_grow needed RingStatsState_init (rolling_std_states c))
    (vec_grow needed RingStatsState_init (zscore_states c))
    (vec_grow needed VwapState_init (vwap_states c))
    (vec_grow needed LagState_init (lag_states c))
    (vec_grow needed CrossState_init (cross_states c))
    (vec_grow needed MonoDequeState_init (rolling_min_deques c))
    (vec_grow needed MonoDequeState_init (rolling_max_deques c))
    (vec_grow needed 0%Z (rolling_min_indices c))
    (vec_grow needed 0%Z (rolling_max_indices c))
    (vec_grow needed RollingPairState_init (rolling_corr_states c))
    (vec_grow needed RollingPairState_init (rolling_beta_states c))
    (vec_grow needed Kalman1dState_init (kalman1d_states c)).

Definition CurrentNodeCapacity (c : NodeStates) : nat :=
  foldr Nat.max 0 [
    length (ema_states c);
    length (sma_states c);
    length (rolling_std_states c);
    length (zscore_states c);
    length (vwap_states c);
    length (lag_states c);
    length (cross_states c);
    length (rolling_min_deques c);
    length (rolling_max_deques c);
    length (rolling_corr_states c);
    length (rolling_beta_states c);
    length (kalman1d_states c)].

(** ** The gradients' states *)

Record RollingStdSensitivityState := MkStdSens {
  s_buffer : list L; s_capacity : nat; s_head : nat; s_count : nat;
  s_mean : L; s_m2 : L; s_slides : nat }.
Definition RollingStdSensitivityState_init : RollingStdSensitivityState :=
  MkStdSens [] 0 0 0 (fint 0) (fint 0) 0.

Record RollingPairSensitivityState := MkPairSens {
  sx_buf : list L; sy_buf : list L; sp_capacity : nat; sp_head : nat; sp_count : nat;
  s_sums : PairSums L }.
Definition RollingPairSensitivityState_init : RollingPairSensitivityState :=
  MkPairSens [] [] 0 0 0 zero_sums.

Record Kalman1dSensitivityState := MkKalmanSens { s_x_hat : D; s_p : D }.
Definition Kalman1dSensitivityState_init : Kalman1dSensitivityState :=
  MkKalmanSens (fint 0) (fint 0).

Record Sensitivities := MkSens {
  ema_sensitivity_states : list D;
  sma_sensitivity_states : list (RingStatsState D L);
  lag_sensitivity_states : list (LagState D);
  rolling_std_sensitivity_states : list RollingStdSensitivityState;
  zscore_sensitivity_states : list RollingStdSensitivityState;
  rolling_corr_sensitivity_states : list RollingPairSensitivityState;
  rolling_beta_sensitivity_states : list RollingPairSensitivityState;
  kalman1d_sensitivity_states : list Kalman1dSensitivityState;
  rolling_min_sensitivity_states : list (LagState D);
  rolling_max_sensitivity_states : list (LagState D) }.

Definition set_ema_sensitivity_states (v : list (D)) (c : Sensitivities) : Sensitivities :=
  MkSens v (sma_sensitivity_states c) (lag_sensitivity_states c)
    (rolling_std_sensitivity_states c) (zscore_sensitivity_states c)
    (rolling_corr_sensitivity_states c) (rolling_beta_sensitivity_states c)
    (kalman1d_sensitivity_states c) (rolling_min_sensitivity_states c)
    (rolling_max_sensitivity_states c).
Definition set_sma_sensitivity_states (v : list (RingStatsState D L)) (c : Sensitivities) : Sensitivities :=
  MkSens (ema_sensitivity_states c) v (lag_sensitivity_states c)
    (rolling_std_sensitivity_states c) (zscore_sensitivity_states c)
    (rolling_corr_sensitivity_states c) (rolling_beta_sensitivity_states c)
    (kalman1d_sensitivity_states c) (rolling_min_sensitivity_states c)
    (rolling_max_sensitivity_states c).
Definition set_lag_sensitivity_states (v : list (LagState D)) (c : Sensitivities) : Sensitivities :=
  MkSens (ema_sensitivity_states c) (sma_sensitivity_states c) v
    (rolling_std_sensitivity_states c) (zscore_sensitivity_states c)
    (rolling_corr_sensitivity_states c) (rolling_beta_sensitivity_states c)
    (kalman1d_sensitivity_states c) (rolling_min_sensitivity_states c)
    (rolling_max_sensitivity_states c).
Definition set_rolling_std_sensitivity_states (v : list (RollingStdSensitivityState)) (c : Sensitivities) : Sensitivities :=
  MkSens (ema_sensitivity_states c) (sma_sensitivity_states c)
    (lag_sensitivity_states c) v (zscore_sensitivity_states c)
    (rolling_corr_sensitivity_states c) (rolling_beta_sensitivity_states c)
    (kalman1d_sensitivity_states c) (rolling_min_sensitivity_states c)
    (rolling_max_sensitivity_states c).
Definition set_zscore_sensitivity_states (v : list (RollingStdSensitivityState)) (c : Sensitivities) : Sensitivities :=
  MkSens (ema_sensitivity_states c) (sma_sensitivity_states c)
    (lag_sensitivity_states c) (rolling_std_sensitivity_states c) v
    (rolling_corr_sensitivity_states c) (rolling_beta_sensitivity_states c)
    (kalman1d_sensitivity_states c) (rolling_min_sensitivity_states c)
    (rolling_max_sensitivity_states c).
Definition set_rolling_corr_sensitivity_states (v : list (RollingPairSensitivityState)) (c : Sensitivities) : Sensitivities :=
  MkSens (ema_sensitivity_states c) (sma_sensitivity_states c)
    (lag_sensitivity_states c) (rolling_std_sensitivity_states c)
    (zscore_sensitivity_states c) v (rolling_beta_sensitivity_states c)
    (kalman1d_sensitivity_states c) (rolling_min_sensitivity_states c)
    (rolling_max_sensitivity_states c).
Definition set_rolling_beta_sensitivity_states (v : list (RollingPairSensitivityState)) (c : Sensitivities) : Sensitivities :=
  MkSens (ema_sensitivity_states c) (sma_sensitivity_states c)
    (lag_sensitivity_states c) (rolling_std_sensitivity_states c)
    (zscore_sensitivity_states c) (rolling_corr_sensitivity_states c) v
    (kalman1d_sensitivity_states c) (rolling_min_sensitivity_states c)
    (rolling_max_sensitivity_states c).
Definition set_kalman1d_sensitivity_states (v : list (Kalman1dSensitivityState)) (c : Sensitivities) : Sensitivities :=
  MkSens (ema_sensitivity_states c) (sma_sensitivity_states c)
    (lag_sensitivity_states c) (rolling_std_sensitivity_states c)
    (zscore_sensitivity_states c) (rolling_corr_sensitivity_states c)
    (rolling_beta_sensitivity_states c) v (rolling_min_sensitivity_states c)
    (rolling_max_sensitivity_states c).
Definition set_rolling_min_sensitivity_states (v : list (LagState D)) (c : Sensitivities) : Sensitivities :=
  MkSens (ema_sensitivity_states c) (sma_sensitivity_states c)
    (lag_sensitivity_states c) (rolling_std_sensitivity_states c)
    (zscore_sensitivity_states c) (rolling_corr_sensitivity_states c)
    (rolling_beta_sensitivity_states c) (kalman1d_sensitivity_states c) v
    (rolling_max_sensitivity_states c).
Definition set_rolling_max_sensitivity_states (v : list (LagState D)) (c : Sensitivities) : Sensitivities :=
  MkSens (ema_sensitivity_states c) (sma_sensitivity_states c)
    (lag_sensitivity_states c) (rolling_std_sensitivity_states c)
    (zscore_sensitivity_states c) (rolling_corr_sensitivity_states c)
    (rolling_beta_sensitivity_states c) (kalman1d_sensitivity_states c)
    (rolling_min_sensitivity_states c) v.

Definition ema_sensitivity_slots := MkSlots ema_sensitivity_states set_ema_sensitivity_states.
Definition sma_sensitivity_slots := MkSlots sma_sensitivity_states set_sma_sensitivity_states.
Definition lag_sensitivity_slots := MkSlots lag_sensitivity_states set_lag_sensitivity_states.
Definition rolling_std_sensitivity_slots := MkSlots rolling_std_sensitivity_states set_rolling_std_sensitivity_states.
Definition zscore_sensitivity_slots := MkSlots zscore_sensitivity_states set_zscore_sensitivity_states.
Definition rolling_corr_sensitivity_slots := MkSlots rolling_corr_sensitivity_states set_rolling_corr_sensitivity_states.
Definition rolling_beta_sensitivity_slots := MkSlots rolling_beta_sensitivity_states set_rolling_beta_sensitivity_states.
Definition kalman1d_sensitivity_slots := MkSlots kalman1d_sensitivity_states set_kalman1d_sensitivity_states.
Definition rolling_min_sensitivity_slots := MkSlots rolling_min_sensitivity_states set_rolling_min_sensitivity_states.
Definition rolling_max_sensitivity_slots := MkSlots rolling_max_sensitivity_states set_rolling_max_sensitivity_states.

Definition Sensitivities_init : Sensitivities := MkSens [] [] [] [] [] [] [] [] [] [].

Definition resize_sensitivities (total : nat) (c : Sensitivities) : Sensitivities :=
  MkSens
    (vec_resize total (fint 0) (ema_sensitivity_states c))
    (vec_resize total RingStatsState_init (sma_sensitivity_states c))
    (vec_resize total LagState_init (lag_sensitivity_states c))
    (vec_resize total RollingStdSensitivityState_init (rolling_std_sensitivity_states c))
    (vec_resize total RollingStdSensitivityState_init (zscore_sensitivity_states c))
    (vec_resize total RollingPairSensitivityState_init (rolling_corr_sensitivity_states c))
    (vec_resize total RollingPairSensitivityState_init (rolling_beta_sensitivity_states c))
    (vec_resize total Kalman1dSensitivityState_init (kalman1d_sensitivity_states c))
    (vec_resize total LagState_init (rolling_min_sensitivity_states c))
    (vec_resize total LagState_init (rolling_max_sensitivity_states c)).

(** [ResetSensitivityStorage]: every slot back to its default. *)
Definition ResetSensitivityStorage (c : Sensitivities) : Sensitivities :=
  MkSens
    (replicate (length (ema_sensitivity_states c)) (fint 0))
    (replicate (length (sma_sensitivity_states c)) RingStatsState_init)
    (replicate (length (lag_sensitivity_states c)) LagState_init)
    (replicate (length (rolling_std_sensitivity_states c)) RollingStdSensitivityState_init)
    (replicate (length (zscore_sensitivity_states c)) RollingStdSensitivityState_init)
    (replicate (length (rolling_corr_sensitivity_states c)) RollingPairSensitivityState_init)
    (replicate (length (rolling_beta_sensitivity_states c)) RollingPairSensitivityState_init)
    (replicate (length (kalman1d_sensitivity_states c)) Kalman1dSensitivityState_init)
    (replicate (length (rolling_min_sensitivity_states c)) LagState_init)
    (replicate (length (rolling_max_sensitivity_states c)) LagState_init).

(** ** Contexts *)

(** [params] is the array the pointer designates, [None] for a null one;
    [owned_params] is the vector a standalone context points to. *)
Record SignalContext := MkCtx {
  owned_params : list D; params : option (list D); num_params : nat;
  gradient_param_count : nat; nodes : NodeStates; sens : Sensitivities }.

Definition SignalContext_init : SignalContext :=
  MkCtx [] None 0 0 NodeStates_init Sensitivities_init.

Definition set_nodes (n : NodeStates) (c : SignalContext) : SignalContext :=
  MkCtx (owned_params c) (params c) (num_params c) (gradient_param_count c) n (sens c).
Definition set_sens (s : Sensitivities) (c : SignalContext) : SignalContext :=
  MkCtx (owned_params c) (params c) (num_params c) (gradient_param_count c) (nodes c) s.

(** Run an operation on a node's slot: read it, store what it becomes. *)
Definition with_node {S A} (sl : Slots NodeStates S) (node_id : Z) (f : S -> Res (A * S))
  (c : SignalContext) : Res (A * SignalContext) :=
  s <- at_Z "states[node_id]" (slots_get sl (nodes c)) node_id;;
  '(a, s) <- f s;;
  Ok (a, set_nodes (slots_set sl (<[Z.to_nat node_id := s]> (slots_get sl (nodes c)))
                      (nodes c)) c).

Definition ResizeSensitivityStorage (c : SignalContext) (node_capacity param_count : nat)
  : SignalContext :=
  MkCtx (owned_params c) (params c) (num_params c) param_count (nodes c)
    (resize_sensitivities (Nat.mul node_capacity param_count) (sens c)).

Definition GradientSlot (c : SignalContext) (node_id param_id : nat) : Res nat :=
  if gradient_param_count c =? 0 then
    Err (RuntimeError "Gradient slot access without initialized parameter storage")
  else Ok (Nat.add (Nat.mul node_id (gradient_param_count c)) param_id).

Definition CheckedGradientParam (c : SignalContext) (param_id : Z) : Res nat :=
  if (param_id <? 0)%Z || (Z.of_nat (gradient_param_count c) <=? param_id)%Z
  then Err (RuntimeError "Gradient param_id out of range")
  else Ok (Z.to_nat param_id).

Definition EnsureNodeCapacity (c : SignalContext) (node_id : nat) : SignalContext :=
  let needed := S node_id in
  let c := set_nodes (grow_nodes needed (nodes c)) c in
  if 0 <? gradient_param_count c
  then ResizeSensitivityStorage c needed (gradient_param_count c) else c.

(** ** Prewarming *)

(** [period <= 0 || fabs(value - double(period)) > 1e-12], negated. *)
Definition period_ok (value : D) (period : Z) : bool :=
  negb ((period <=? 0)%Z || fgt (fabs (value - fint period)) (flit 1 12)).

Definition ParsePreparedPeriod (args : list (Expr D)) : Res nat :=
  match args with
  | _ :: NumberLiteral _ value :: _ =>
      match to_int value with
      | Some period => Ok (if period_ok value period then Z.to_nat period else 0%nat)
      | None => Err (Undefined "static_cast<int>")
      end
  | _ => Ok 0%nat
  end.

(** The period of the paired operators, [None] when the slot is left alone:
    here the comparison with the tolerance is strict. *)
Definition ParsePairPeriod (args : list (Expr D)) : Res (option nat) :=
  match args with
  | _ :: _ :: NumberLiteral _ value :: _ =>
      match to_int value with
      | Some p =>
          Ok (if (0 <? p)%Z && flt (fabs (value - fint p)) (flit 1 12)
              then Some (Z.to_nat p) else None)
      | None => Err (Undefined "static_cast<int>")
      end
  | _ => Ok None
  end.

(** Prewarming a ring keeps its slide counter; a push that changes the
    capacity clears it. *)
Definition prewarm_ring (period : nat) (st : RingStatsState D L) : RingStatsState D L :=
  if decide (capacity st = period) then st
  else MkRing (replicate period (fint 0)) period 0 0 (fint 0) (fint 0) (fint 0)
         (slides_since_refresh st).

Definition prewarm_ema (period : nat) (st : EMAState D) : EMAState D :=
  MkEma (e_value st) (fint 2 / (fnat period + fint 1)) (Z.of_nat period)
    (e_initialized st).

Definition pure_slot {S} (f : S -> S) (s : S) : Res (unit * S) := Ok (tt, f s).

(** Run [f] on a node's slot. *)
Definition prewarm_slot {S} (sl : Slots NodeStates S) (node_id : Z) (f : S -> S)
  (c : SignalContext) : Res SignalContext :=
  rmap snd (with_node sl node_id (pure_slot f) c).

(** The branches that do not use [period]. *)
Definition prewarm_unwindowed (name : string) (args : list (Expr D)) (node_id : Z)
  (c : SignalContext) : Res SignalContext :=
  if ((name =? "rolling_corr")%string || (name =? "rolling_beta")%string) &&
     (3 <=? length args) then
    p <- ParsePairPeriod args;;
    match p with
    | Some p =>
        prewarm_slot (if (name =? "rolling_corr")%string then rolling_corr_slots
                      else rolling_beta_slots) node_id (RollingPairPrepare p) c
    | None => Ok c
    end
  else if (name =? "kalman1d")%string
  then prewarm_slot kalman1d_slots node_id (fun _ => Kalman1dState_init) c
  else if (name =? "cross_above")%string || (name =? "cross_below")%string
  then prewarm_slot cross_slots node_id (fun _ => CrossState_init) c
  else Ok c.

(** The chain of [if]s for a call that has a node id. *)
Definition prewarm_call (name : string) (args : list (Expr D)) (node_id : Z)
  (c : SignalContext) : Res SignalContext :=
  let c := EnsureNodeCapacity c (Z.to_nat node_id) in
  period <- ParsePreparedPeriod args;;
  let on {S} (sl : Slots NodeStates S) (f : S -> S) c := prewarm_slot sl node_id f c in
  let has_period := 0 <? period in
  if (name =? "ema")%string && has_period then on ema_slots (prewarm_ema period) c
  else if (name =? "sma")%string && has_period then on sma_slots (prewarm_ring period) c
  else if (name =? "rolling_std")%string && has_period
  then on rolling_std_slots (prewarm_ring period) c
  else if (name =? "zscore")%string && has_period
  then on zscore_slots (prewarm_ring period) c
  else if (name =? "vwap")%string && has_period
  then on vwap_slots (VwapPrepare period) c
  else if (name =? "lag")%string && has_period
  then on lag_slots (LagPrepare period) c
  else if (name =? "rolling_min")%string && has_period then
    c <- on rolling_min_deques_slots (fun dq => MonoInit dq period) c;;
    on rolling_min_indices_slots (fun _ => 0%Z) c
  else if (name =? "rolling_max")%string && has_period then
    c <- on rolling_max_deques_slots (fun dq => MonoInit dq period) c;;
    on rolling_max_indices_slots (fun _ => 0%Z) c
  else prewarm_unwindowed name args node_id c.

Fixpoint prewarm_walk (expr : Expr D) (c : SignalContext) : Res SignalContext :=
  match expr with
  | UnaryOp _ _ x => prewarm_walk x c
  | BinaryOp _ _ l r => c <- prewarm_walk l c;; prewarm_walk r c
  | Conditional _ cond t e =>
      c <- prewarm_walk cond c;; c <- prewarm_walk t c;; prewarm_walk e c
  | FunctionCall _ name args node_id _ =>
      c <- (if (0 <=? node_id)%Z then prewarm_call name args node_id c else Ok c);;
      (fix walk_args (l : list (Expr D)) (c : SignalContext) : Res SignalContext :=
         match l with
         | [] => Ok c
         | a :: l' => c <- prewarm_walk a c;; walk_args l' c
         end) args c
  | NumberLiteral _ _ | IdentifierExpr _ _ | ParameterExpr _ _ _ => Ok c
  end.

Definition PrewarmSignalContext (c : SignalContext) (signal : SignalDef D)
  : Res SignalContext := prewarm_walk (sig_body signal) c.

(** A null pointer when the vector is empty. *)
Definition data_of (params : list D) : option (list D) :=
  match params with [] => None | _ => Some params end.

Definition SetStandaloneParameters (c : SignalContext) (params : list D) : SignalContext :=
  let c := MkCtx params (data_of params) (length params) (gradient_param_count c)
             (nodes c) (sens c) in
  let c := ResizeSensitivityStorage c (CurrentNodeCapacity (nodes c)) (num_params c) in
  set_sens (ResetSensitivityStorage (sens c)) c.

(** ** The per-symbol arena *)

Record MultiSymbolSignalContext := MkArena {
  arena_ : list SignalContext; params_ : list D }.

Definition RefreshParamViews (a : MultiSymbolSignalContext) : MultiSymbolSignalContext :=
  MkArena
    (map (fun c => MkCtx (owned_params c) (data_of (params_ a)) (length (params_ a))
                     (length (params_ a)) (nodes c) (sens c)) (arena_ a))
    (params_ a).

Definition NewArena (n_symbols : nat) : MultiSymbolSignalContext :=
  RefreshParamViews (MkArena (replicate n_symbols SignalContext_init) []).

Definition NumSymbols (a : MultiSymbolSignalContext) : nat := length (arena_ a).

Definition Resize (a : MultiSymbolSignalContext) (n_symbols : nat)
  : MultiSymbolSignalContext :=
  RefreshParamViews (MkArena (vec_resize n_symbols SignalContext_init (arena_ a)) (params_ a)).

Definition SetParameters (a : MultiSymbolSignalContext) (params : list D)
  : MultiSymbolSignalContext := RefreshParamViews (MkArena (arena_ a) params).

(** [arena_.at(symbol_id)] throws [std::out_of_range]. *)
Definition PerSymbol (a : MultiSymbolSignalContext) (symbol_id : nat) : Res SignalContext :=
  match arena_ a !! symbol_id with
  | Some c => Ok c
  | None => Err (RuntimeError "vector::at")
  end.

(** Run [f] on the context [PerSymbol] returns a reference to. *)
Definition with_symbol {A} (symbol_id : nat) (f : SignalContext -> Res (A * SignalContext))
  (a : MultiSymbolSignalContext) : Res (A * MultiSymbolSignalContext) :=
  c <- PerSymbol a symbol_id;;
  '(r, c) <- f c;;
  Ok (r, MkArena (<[symbol_id := c]> (arena_ a)) (params_ a)).

Definition PrewarmSymbol (a : MultiSymbolSignalContext) (symbol_id : nat)
  (signal : SignalDef D) : Res MultiSymbolSignalContext :=
  rmap snd (with_symbol symbol_id
    (fun c => rmap (pair tt) (PrewarmSignalContext c signal)) a).
End context.

Arguments NodeStates : clear implicits.
Arguments Sensitivities : clear implicits.
Arguments SignalContext : clear implicits.
Arguments MultiSymbolSignalContext : clear implicits.
Arguments RollingStdSensitivityState : clear implicits.
Arguments RollingPairSensitivityState : clear implicits.
Arguments Kalman1dSensitivityState : clear implicits.
Arguments MkSlots {C S}.
Arguments slots_get {C S}.
Arguments slots_set {C S}.
