(* ===== verification/Interpreter.v ===== *)
(** * The interpreter (src/src/interpreter.h, src/src/interpreter.cpp)

    A method of [Interpreter] is a computation in the monad [M] over the
    context and the per-evaluation cache of stateful results; [result_] is
    the value returned.  The state after an exception is not modelled. *)

From S2P Require Import Prelude Errors Arith Ast SymbolTable Rolling Context.

(** ** Operations on [double] values *)

Section double_steps.
Context {D : Type} `{Fp D}.

Definition eval_unary (kind : UnaryOpKind) (v : D) : D :=
  match kind with Plus => v | Minus => fopp v end.

Definition eval_binary (kind : BinaryOpKind) (l r : D) : D :=
  match kind with
  | Add => fadd l r
  | Sub => fsub l r
  | Mul => fmul l r
  | Div => fdiv l r
  | Gt => fbool (fgt l r)
  | Lt => fbool (flt l r)
  | Gte => fbool (fge l r)
  | Lte => fbool (fle l r)
  | Eq => fbool (flt (fabs (fsub l r)) (flit 1 12))
  | NotEq => fbool (fge (fabs (fsub l r)) (flit 1 12))
  | And => fbool (fne l (fint 0) && fne r (fint 0))
  | Or => fbool (fne l (fint 0) || fne r (fint 0))
  end.

(** What the builtins without a long-double accumulator do to their slot. *)

Definition ema_alpha_of (period : nat) : D :=
  fdiv (fint 2) (fadd (fnat period) (fint 1)).

Definition ema_blend (alpha x value : D) : D :=
  fadd (fmul alpha x) (fmul (fsub (fint 1) alpha) value).

Definition ema_step (period : nat) (x : D) (st : EMAState D) : Res (D * EMAState D) :=
  let v := if negb (e_initialized st) then x
           else ema_blend (ema_alpha_of period) x (e_value st) in
  Ok (v, MkEma v (e_alpha st) (e_period st) true).

Definition ema_alpha_step (alpha x : D) (st : EMAState D) : Res (D * EMAState D) :=
  let v := if negb (e_initialized st) then x else ema_blend alpha x (e_value st) in
  Ok (v, MkEma v alpha (e_period st) true).

Definition lag_step (period : nat) (x : D) (st : LagState D) : Res (D * LagState D) :=
  lagged <- LagValue st;;
  st <- LagPush st period x;;
  Ok (lagged, st).

Definition cross_step (before : D -> D -> bool) (now : D -> D -> bool) (a b : D)
  (st : CrossState D) : Res (D * CrossState D) :=
  Ok (if negb (c_initialized st) then fint 0
      else fbool (before (prev_a st) (prev_b st) && now a b),
      MkCross a b true).

End double_steps.

Section interpreter.
Context {D L : Type} `{Machine D L}.
Variable symbols_ : SymbolTable.
Variable market : MarketState D.

Record EvalState := MkEval { ctx : SignalContext D L; cache : gmap Z D }.

Definition M (A : Type) : Type := EvalState -> Res (A * EvalState).

Definition throw {A} (msg : string) : M A := fun _ => Err (RuntimeError msg).
Definition lift {A} (r : Res A) : M A := fun s => rmap (fun a => (a, s)) r.

(** Update the slot of a node, the state being allocated. *)
Definition on_node {S A} (sl : Slots (NodeStates D L) S) (fn_name : string) (node_id : Z)
  (f : S -> Res (A * S)) : M A := fun s =>
  if (node_id <? 0)%Z then Err (RuntimeError (fn_name +:+ "() node_id not allocated"))
  else
    '(a, c) <- with_node sl node_id f (ctx s);;
    Ok (a, MkEval c (cache s)).

Local Notation "x <~ m ;; k" := (fun s => rbind (m s) (fun '(x, s) => k s))
  (at level 20, m at level 99, k at level 200, right associativity).

Definition ResolveSymbolSlot (args : list (Expr D)) (symbol_id : Z) (fn_name : string)
  : Res Z :=
  if (0 <=? symbol_id)%Z then Ok symbol_id
  else if negb (length args =? 1) && negb (fn_name =? "vwap")%string then
    Err (RuntimeError (fn_name +:+ "() expects exactly one argument"))
  else
    match args with
    | [] => Err (RuntimeError (fn_name +:+ "() requires ticker identifier"))
    | IdentifierExpr _ name :: _ => rmap Z.of_nat (LookupId symbols_ name)
    | _ => Err (RuntimeError (fn_name +:+ "() argument must be ticker identifier"))
    end.

Definition instrument (id : Z) : Res (InstrumentState D) :=
  at_Z "instruments[id]" (instruments market) id.

(** [EvalMid], [EvalBid], [EvalAsk], [EvalSpread]. *)
Definition EvalQuote (fn_name : string) (read : InstrumentState D -> D)
  (args : list (Expr D)) (symbol_id : Z) : Res D :=
  ensure (length args =? 1) (RuntimeError (fn_name +:+ "() expects exactly one argument")) ;;;
  id <- ResolveSymbolSlot args symbol_id fn_name;;
  rmap read (instrument id).

Definition mid (ins : InstrumentState D) : D := fmul (fadd (bid ins) (ask ins)) (flit 5 1).
Definition spread (ins : InstrumentState D) : D := fsub (ask ins) (bid ins).

Definition ParsePositiveIntegerPeriod (expr : Expr D) (fn_name : string) : Res nat :=
  match AsNumber expr with
  | None => Err (RuntimeError
      (fn_name +:+ " period must be a numeric literal in pre-LLVM stage"))
  | Some value =>
      match to_int value with
      | None => Err (Undefined "static_cast<int>")
      | Some period =>
          if period_ok value period then Ok (Z.to_nat period)
          else Err (RuntimeError (fn_name +:+ " period must be a positive integer"))
      end
  end.

(** ** What each stateful builtin does to its slot *)

(** NaN until the ring is full, then what [read] computes. *)
Definition ring_step (read : RingStatsState D L -> D) (period : nat) (x : D)
  (st : RingStatsState D L) : Res (D * RingStatsState D L) :=
  st <- RingStatsPush st period x;;
  Ok (if RingStatsFull st then read st else fnan, st).

Definition zscore_read (x : D) (st : RingStatsState D L) : D :=
  let mean := RingStatsMean st in
  let stddev := RingStatsStddevSample st in
  if fisnan stddev || flt (fabs stddev) (flit 1 18) then fnan
  else fdiv (fsub x mean) stddev.

Definition vwap_volume (ins : InstrumentState D) : D :=
  if fgt (volume ins) (fint 0) then volume ins else fint 1.

Definition vwap_step (period : nat) (ins : InstrumentState D) (st : VwapState D L)
  : Res (D * VwapState D L) :=
  st <- VwapPush st period (mid ins) (vwap_volume ins);;
  Ok (if VwapFull st then VwapValue st else fnan, st).

Definition pair_step (read : RollingPairState D L -> D) (period : nat) (x y : D)
  (st : RollingPairState D L) : Res (D * RollingPairState D L) :=
  st <- RollingPairPush st period x y;;
  Ok (read st, st).

(** What [EvalRollingMin] and [EvalRollingMax] do to the deque's slot and to
    the tick index's. *)
Definition extremum_step (fn_name : string)
  (dqs : Slots (NodeStates D L) (MonoDequeState D)) (idxs : Slots (NodeStates D L) Z)
  (update : MonoDequeState D -> Z -> nat -> D -> Res (D * MonoDequeState D * Z))
  (node_id : Z) (period : nat) (x : D) : M D :=
  idx <~ on_node idxs fn_name node_id (fun idx => Ok (idx, idx));;
  r <~ on_node dqs fn_name node_id (fun dq =>
     '(result, dq, idx) <- update dq idx period x;; Ok ((result, idx), dq));;
  _ <~ on_node idxs fn_name node_id (fun _ => Ok (tt, snd r));;
  lift (Ok (if (snd r <? Z.of_nat period)%Z then fnan else fst r)).

(** ** The builtins *)

Section builtins.
Variable EvalChild : Expr D -> M D.

(** [fn(expr, period)] for the operators over a ring. *)
Definition EvalWindow {S} (fn_name : string) (min_period : nat)
  (sl : Slots (NodeStates D L) S) (step : nat -> D -> S -> Res (D * S))
  (args : list (Expr D)) (node_id : Z) : M D :=
  match args with
  | [e; p] =>
      period <~ lift (ParsePositiveIntegerPeriod p (fn_name +:+ "()"));;
      _ <~ lift (ensure (min_period <=? period)
             (RuntimeError (fn_name +:+
               "() requires period >= 2 (sample standard deviation of one sample " +:+
               "is mathematically undefined)")));;
      x <~ EvalChild e;;
      on_node sl fn_name node_id (step period x)
  | _ => throw (fn_name +:+ "() expects two arguments: " +:+ fn_name +:+ "(expr, period)")
  end.

Definition EvalEma := EvalWindow "ema" 1 ema_slots ema_step.
Definition EvalSma := EvalWindow "sma" 1 sma_slots (ring_step RingStatsMean).
Definition EvalRollingStd :=
  EvalWindow "rolling_std" 2 rolling_std_slots (ring_step RingStatsStddevSample).
Definition EvalZscore :=
  EvalWindow "zscore" 2 zscore_slots (fun period x => ring_step (zscore_read x) period x).
Definition EvalLag := EvalWindow "lag" 1 lag_slots lag_step.

Definition EvalEmaAlpha (args : list (Expr D)) (node_id : Z) : M D :=
  match args with
  | [e; a] =>
      x <~ EvalChild e;;
      alpha <~ EvalChild a;;
      _ <~ lift (ensure (negb (flt alpha (fint 0) || fgt alpha (fint 1)))
             (RuntimeError "ema_alpha() requires alpha in [0, 1]"));;
      on_node ema_slots "ema_alpha" node_id (ema_alpha_step alpha x)
  | _ => throw "ema_alpha() expects two arguments: ema_alpha(expr, alpha)"
  end.

Definition EvalVwap (args : list (Expr D)) (node_id symbol_id : Z) : M D :=
  match args with
  | [t; p] =>
      period <~ lift (ParsePositiveIntegerPeriod p "vwap()");;
      sym_id <~ lift (ResolveSymbolSlot args symbol_id "vwap");;
      ins <~ lift (instrument sym_id);;
      on_node vwap_slots "vwap" node_id (vwap_step period ins)
  | _ => throw "vwap() expects two arguments: vwap(symbol, period)"
  end.

(** [EvalRollingMin] and [EvalRollingMax]. *)
Definition EvalRollingExtremum (fn_name : string)
  (dqs : Slots (NodeStates D L) (MonoDequeState D)) (idxs : Slots (NodeStates D L) Z)
  (update : MonoDequeState D -> Z -> nat -> D -> Res (D * MonoDequeState D * Z))
  (args : list (Expr D)) (node_id : Z) : M D :=
  match args with
  | [e; p] =>
      period <~ lift (ParsePositiveIntegerPeriod p (fn_name +:+ "()"));;
      x <~ EvalChild e;;
      extremum_step fn_name dqs idxs update node_id period x
  | _ => throw (fn_name +:+ "() expects two arguments: " +:+ fn_name +:+ "(expr, period)")
  end.

Definition EvalRollingMin :=
  EvalRollingExtremum "rolling_min" rolling_min_deques_slots rolling_min_indices_slots
    UpdateRollingMin.
Definition EvalRollingMax :=
  EvalRollingExtremum "rolling_max" rolling_max_deques_slots rolling_max_indices_slots
    UpdateRollingMax.

(** [EvalCrossAbove] and [EvalCrossBelow]. *)
Definition EvalCross (fn_name : string) (before now : D -> D -> bool)
  (args : list (Expr D)) (node_id : Z) : M D :=
  match args with
  | [ea; eb] =>
      a <~ EvalChild ea;;
      b <~ EvalChild eb;;
      on_node cross_slots fn_name node_id (cross_step before now a b)
  | _ => throw (fn_name +:+ "() expects two arguments")
  end.

(** [EvalRollingCorr] and [EvalRollingBeta]. *)
Definition EvalPair (fn_name : string) (sl : Slots (NodeStates D L) (RollingPairState D L))
  (read : RollingPairState D L -> D) (args : list (Expr D)) (node_id : Z) : M D :=
  match args with
  | [ex; ey; p] =>
      period <~ lift (ParsePositiveIntegerPeriod p (fn_name +:+ "()"));;
      x <~ EvalChild ex;;
      y <~ EvalChild ey;;
      on_node sl fn_name node_id (pair_step read period x y)
  | _ => throw (fn_name +:+ "() expects three arguments: " +:+ fn_name +:+ "(x, y, period)")
  end.

Definition EvalKalman1d (args : list (Expr D)) (node_id : Z) : M D :=
  match args with
  | [ex; eq; er] =>
      q <~ EvalChild eq;;
      r <~ EvalChild er;;
      _ <~ lift (ensure (negb (flt q (fint 0) || fle r (fint 0)))
             (RuntimeError "kalman1d() requires q >= 0 and r > 0"));;
      x <~ EvalChild ex;;
      on_node kalman1d_slots "kalman1d" node_id (fun st => Ok (Kalman1dStep st x q r))
  | _ => throw "kalman1d() expects three arguments: kalman1d(x, q, r)"
  end.

Definition EvalMath (fn_name : string) (f : D -> D) (args : list (Expr D)) : M D :=
  match args with
  | [e] => x <~ EvalChild e;; lift (Ok (f x))
  | _ => throw (fn_name +:+ "() expects one argument")
  end.

(** The [cache_and_return] lambda. *)
Definition cache_and_return (node_id : Z) (m : M D) : M D := fun s =>
  '(v, s) <- m s;;
  Ok (v, if (0 <? node_id)%Z then MkEval (ctx s) (<[node_id := v]> (cache s)) else s).

(** The chain of name tests of [Visit(const FunctionCall&)]. *)
Definition dispatch (name : string) (args : list (Expr D)) (node_id symbol_id : Z) : M D :=
  let cached := cache_and_return node_id in
  if (name =? "mid")%string then lift (EvalQuote "mid" mid args symbol_id)
  else if (name =? "bid")%string then lift (EvalQuote "bid" bid args symbol_id)
  else if (name =? "ask")%string then lift (EvalQuote "ask" ask args symbol_id)
  else if (name =? "spread")%string then lift (EvalQuote "spread" spread args symbol_id)
  else if (name =? "ema")%string then cached (EvalEma args node_id)
  else if (name =? "ema_alpha")%string then cached (EvalEmaAlpha args node_id)
  else if (name =? "sma")%string then cached (EvalSma args node_id)
  else if (name =? "rolling_std")%string then cached (EvalRollingStd args node_id)
  else if (name =? "zscore")%string then cached (EvalZscore args node_id)
  else if (name =? "vwap")%string then cached (EvalVwap args node_id symbol_id)
  else if (name =? "lag")%string then cached (EvalLag args node_id)
  else if (name =? "cross_above")%string
    then cached (EvalCross "cross_above" fle fgt args node_id)
  else if (name =? "cross_below")%string
    then cached (EvalCross "cross_below" fge flt args node_id)
  else if (name =? "rolling_min")%string then cached (EvalRollingMin args node_id)
  else if (name =? "rolling_max")%string then cached (EvalRollingMax args node_id)
  else if (name =? "rolling_corr")%string
    then cached (EvalPair "rolling_corr" rolling_corr_slots RollingPairCorrelation args node_id)
  else if (name =? "rolling_beta")%string
    then cached (EvalPair "rolling_beta" rolling_beta_slots RollingPairBeta args node_id)
  else if (name =? "kalman1d")%string then cached (EvalKalman1d args node_id)
  else if (name =? "abs")%string then EvalMath "abs" fabs args
  else if (name =? "log")%string then EvalMath "log" dlog args
  else if (name =? "sqrt")%string then EvalMath "sqrt" fsqrt args
  else throw ("Unsupported function in pre-LLVM stage: " +:+ name).
End builtins.

Definition EvalParameter (name : string) (param_id : Z) (c : SignalContext D L) : Res D :=
  match params c with
  | None => Err (RuntimeError "Parameter access requires initialized parameter storage")
  | Some ps =>
      if (param_id <? 0)%Z || (Z.of_nat (num_params c) <=? param_id)%Z
      then Err (RuntimeError ("Parameter id out of range: " +:+ name))
      else at_Z "params[param_id]" ps param_id
  end.

(** [Accept], which calls the [Visit] of the node. *)
Fixpoint Visit (expr : Expr D) : M D :=
  match expr with
  | NumberLiteral _ value => lift (Ok value)
  | IdentifierExpr _ _ => throw "Bare identifiers are not valid expressions in MVP"
  | ParameterExpr _ name param_id => fun s => lift (EvalParameter name param_id (ctx s)) s
  | UnaryOp _ kind operand =>
      v <~ Visit operand;; lift (Ok (eval_unary kind v))
  | BinaryOp _ kind lhs rhs =>
      l <~ Visit lhs;; r <~ Visit rhs;; lift (Ok (eval_binary kind l r))
  | FunctionCall _ name args node_id symbol_id => fun s =>
      match (if (0 <? node_id)%Z then cache s !! node_id else None) with
      | Some v => Ok (v, s)
      | None => dispatch Visit name args node_id symbol_id s
      end
  | Conditional _ condition then_branch else_branch =>
      cond <~ Visit condition;;
      if fne cond (fint 0) then Visit then_branch else Visit else_branch
  end.

(** [Evaluate] on a standalone context, and on a slot of the arena. *)
Definition Evaluate (signal : SignalDef D) (c : SignalContext D L)
  : Res (D * SignalContext D L) :=
  '(v, s) <- Visit (sig_body signal) (MkEval c ∅);; Ok (v, ctx s).

Definition EvaluateSymbol (signal : SignalDef D) (symbol_id : nat)
  (arena : MultiSymbolSignalContext D L) : Res (D * MultiSymbolSignalContext D L) :=
  with_symbol symbol_id (Evaluate signal) arena.
End interpreter.

Arguments EvalState : clear implicits.
