(* ===== verification/JitRuntime.v ===== *)
(** * The runtime entry points of compiled code (src/src/runtime.cpp)

    The [jit_rt_*] functions the JIT's generated code calls, and their
    [*_grad] variants.  A function that reads and updates the context is a
    function from the context to a result and the new context; an [assert]
    on the node id is subsumed by the access it guards.  A [double* grad_out]
    is a second component of the result. *)

From S2P Require Import Prelude Errors Arith Rolling Context.

Section runtime.
Context {D L : Type} `{Machine D L}.
Local Open Scope fp_scope.

Notation Ctx := (SignalContext D L).
Notation Market := (MarketState D).
Notation C A := (Ctx -> Res (A * Ctx)).

Definition jit_instrument (state : Market) (symbol_id : Z) : Res (InstrumentState D) :=
  at_Z "instruments[id]" (instruments state) symbol_id.

Definition jit_rt_mid (state : Market) (symbol_id : Z) : Res D :=
  ins <- jit_instrument state symbol_id;; Ok ((bid ins + ask ins) * flit 5 1).
Definition jit_rt_bid (state : Market) (symbol_id : Z) : Res D :=
  rmap bid (jit_instrument state symbol_id).
Definition jit_rt_ask (state : Market) (symbol_id : Z) : Res D :=
  rmap ask (jit_instrument state symbol_id).
Definition jit_rt_spread (state : Market) (symbol_id : Z) : Res D :=
  ins <- jit_instrument state symbol_id;; Ok (ask ins - bid ins).

Definition jit_rt_symbol_ctx (arena : MultiSymbolSignalContext D L) (symbol_id : nat)
  : Res Ctx := PerSymbol arena symbol_id.

Definition jit_rt_param (param_id : Z) (c : Ctx) : Res D :=
  if (param_id <? 0)%Z || (Z.of_nat (num_params c) <=? param_id)%Z then
    Err (RuntimeError "Parameter id out of range or parameters not initialized")
  else
    match params c with
    | None => Err (RuntimeError "Parameter id out of range or parameters not initialized")
    | Some ps => at_Z "params[param_id]" ps param_id
    end.

Definition jit_rt_ema (node_id : Z) (x : D) (period : Z) : C D :=
  with_node ema_slots node_id (fun st =>
    if negb (e_initialized st) then
      Ok (x, MkEma x (fint 2 / (fint period + fint 1)) period true)
    else
      let v := e_alpha st * x + (fint 1 - e_alpha st) * e_value st in
      Ok (v, MkEma v (e_alpha st) (e_period st) true)).

(** After the first tick the stored factor is used, not the argument. *)
Definition jit_rt_ema_alpha (node_id : Z) (x alpha : D) (period : Z) : C D :=
  with_node ema_slots node_id (fun st =>
    if negb (e_initialized st) then Ok (x, MkEma x alpha period true)
    else
      let v := e_alpha st * x + (fint 1 - e_alpha st) * e_value st in
      Ok (v, MkEma v (e_alpha st) (e_period st) true)).

Definition jit_rt_sma (node_id : Z) (x : D) (period : Z) : C D :=
  with_node sma_slots node_id (fun st =>
    st <- RingStatsPushPrepared st x;;
    Ok (if negb (RingStatsFull st) then fnan else RingStatsMean st, st)).

(** [true] with [*buffer_out] and [*size_out], or [false]. *)
Definition jit_rt_sma_prepare (node_id : Z) (x : D) (period : Z) : C (option (list D * Z)) :=
  with_node sma_slots node_id (fun st =>
    st <- RingStatsPushPrepared st x;;
    Ok (if negb (RingStatsFull st) then None
        else Some (buffer st, Z.of_nat (capacity st)), st)).

Definition jit_rt_rolling_std (node_id : Z) (x : D) (period : Z) : C D :=
  with_node rolling_std_slots node_id (fun st =>
    st <- RingStatsPushPrepared st x;;
    Ok (if negb (RingStatsFull st) then fnan else RingStatsStddevSample st, st)).

Definition jit_rt_zscore (node_id : Z) (x : D) (period : Z) : C D :=
  with_node zscore_slots node_id (fun st =>
    st <- RingStatsPushPrepared st x;;
    if negb (RingStatsFull st) then Ok (fnan, st)
    else
      let mean := RingStatsMean st in
      let stddev := RingStatsStddevSample st in
      if fisnan stddev || flt (fabs stddev) (flit 1 18) then Ok (fnan, st)
      else Ok ((x - mean) / stddev, st)).

(** [jit_rt_rolling_min] and [jit_rt_rolling_max]. *)
Definition jit_rt_extremum (dqs : Slots (NodeStates D L) (MonoDequeState D))
  (idxs : Slots (NodeStates D L) Z)
  (update : MonoDequeState D -> Z -> D -> Res (D * MonoDequeState D * Z))
  (node_id : Z) (x : D) (period : Z) : C D := fun c =>
  '(idx, c) <- with_node idxs node_id (fun idx => Ok (idx, idx)) c;;
  '(v, idx, c) <- with_node dqs node_id (fun dq =>
     '(v, dq, idx) <- update dq idx x;; Ok ((v, idx), dq)) c;;
  '(_, c) <- with_node idxs node_id (fun _ => Ok (tt, idx)) c;;
  Ok (if (idx <? u64 period)%Z then fnan else v, c).

Definition jit_rt_rolling_min :=
  jit_rt_extremum rolling_min_deques_slots rolling_min_indices_slots UpdateRollingMinPrepared.
Definition jit_rt_rolling_max :=
  jit_rt_extremum rolling_max_deques_slots rolling_max_indices_slots UpdateRollingMaxPrepared.

Definition jit_rt_vwap (state : Market) (node_id symbol_id : Z) (period : Z) : C D := fun c =>
  ins <- jit_instrument state symbol_id;;
  let price := (bid ins + ask ins) * flit 5 1 in
  let volume := if fgt (volume ins) (fint 0) then volume ins else fint 1 in
  with_node vwap_slots node_id (fun st =>
    st <- VwapPushPrepared st price volume;;
    Ok (if negb (VwapFull st) then fnan else VwapValue st, st)) c.

Definition jit_rt_lag (node_id : Z) (x : D) (period : Z) : C D :=
  with_node lag_slots node_id (fun st =>
    lagged <- LagValue st;;
    st <- LagPushPrepared st x;;
    Ok (lagged, st)).

(** [jit_rt_cross_above] and [jit_rt_cross_below]. *)
Definition jit_rt_cross (before now : D -> D -> bool) (node_id : Z) (a b : D) : C D :=
  with_node cross_slots node_id (fun st =>
    if negb (c_initialized st) then Ok (fint 0, MkCross a b true)
    else
      let crossed := before (prev_a st) (prev_b st) && now a b in
      Ok (fbool crossed, MkCross a b true)).

Definition jit_rt_cross_above := jit_rt_cross fle fgt.
Definition jit_rt_cross_below := jit_rt_cross fge flt.

(** A [std::int64_t] period as the [std::size_t] of the push functions. *)
Definition jit_rt_rolling_corr (node_id : Z) (x y : D) (period : Z) : C D :=
  with_node rolling_corr_slots node_id (fun st =>
    st <- RollingPairPush st (Z.to_nat (u64 period)) x y;;
    Ok (RollingPairCorrelation st, st)).
Definition jit_rt_rolling_beta (node_id : Z) (x y : D) (period : Z) : C D :=
  with_node rolling_beta_slots node_id (fun st =>
    st <- RollingPairPush st (Z.to_nat (u64 period)) x y;;
    Ok (RollingPairBeta st, st)).
Definition jit_rt_kalman1d (node_id : Z) (x q r : D) : C D :=
  with_node kalman1d_slots node_id (fun st => Ok (Kalman1dStep st x q r)).
End runtime.
