(* ===== verification/Gradient.v ===== *)
(** * The gradient entry points of compiled code (src/src/runtime.cpp)

    A [jit_rt_*_grad] function advances an operator's own state and the
    sensitivity state kept for one parameter, and returns the operator's
    value together with its derivative ([*grad_out]).  Each is a step on
    the two states, run on the slots of the node and of the (node,
    parameter) pair by [with_grad]. *)

From S2P Require Import Prelude Errors Arith Rolling Context JitRuntime.

Section gradient.
Context {D L : Type} `{Machine D L}.
Local Open Scope fp_scope.

Notation Ctx := (SignalContext D L).
Notation C A := (Ctx -> Res (A * Ctx)).

(** ** Reaching the two slots *)

(** [states[node_id]] and [sensitivity[GradientSlot(ctx, node_id, param)]]. *)
Definition with_grad_slot {S G A} (sl : Slots (NodeStates D L) S)
  (gl : Slots (Sensitivities D L) G) (node_id : Z) (param : nat)
  (f : S -> G -> Res (A * S * G)) : C A := fun c =>
  s <- at_Z "states[node_id]" (slots_get sl (nodes c)) node_id;;
  i <- GradientSlot c (Z.to_nat node_id) param;;
  g <- at_idx "sensitivity_states[slot]" (slots_get gl (sens c)) i;;
  '(a, s, g) <- f s g;;
  Ok (a, set_sens (slots_set gl (<[i := g]> (slots_get gl (sens c))) (sens c))
          (set_nodes (slots_set sl (<[Z.to_nat node_id := s]> (slots_get sl (nodes c)))
                        (nodes c)) c)).

Definition with_grad {S G A} (sl : Slots (NodeStates D L) S)
  (gl : Slots (Sensitivities D L) G) (node_id param_id : Z)
  (f : S -> G -> Res (A * S * G)) : C A := fun c =>
  param <- CheckedGradientParam c param_id;;
  with_grad_slot sl gl node_id param f c.

(** A [std::int64_t] period as a [std::size_t]. *)
Definition size_of_period (period : Z) : nat := Z.to_nat (u64 period).

(** ** ema_alpha *)

Definition ema_alpha_grad_step (x x_grad alpha alpha_grad : D) (period : Z)
  (primal : EMAState D) (grad : D) : Res ((D * D) * EMAState D * D) :=
  if negb (e_initialized primal) then
    Ok ((x, x_grad), MkEma x alpha period true, x_grad)
  else
    let prev := e_value primal in
    let value := alpha * x + (fint 1 - alpha) * e_value primal in
    let grad := alpha * x_grad + (fint 1 - alpha) * grad + alpha_grad * (x - prev) in
    Ok ((value, grad), MkEma value alpha period true, grad).

Definition jit_rt_ema_alpha_grad (node_id : Z) (x x_grad alpha alpha_grad : D)
  (period param_id : Z) : C (D * D) :=
  with_grad ema_slots ema_sensitivity_slots node_id param_id
    (ema_alpha_grad_step x x_grad alpha alpha_grad period).

(** ** sma and lag: the same operator on the gradients *)

Definition sma_grad_step (x x_grad : D) (period : Z) (primal grad : RingStatsState D L)
  : Res ((D * D) * RingStatsState D L * RingStatsState D L) :=
  primal <- RingStatsPushPrepared primal x;;
  grad <- RingStatsPush grad (size_of_period period) x_grad;;
  Ok (if negb (RingStatsFull primal) then (fnan, fnan)
      else (RingStatsMean primal, RingStatsMean grad), primal, grad).

Definition jit_rt_sma_grad (node_id : Z) (x x_grad : D) (period param_id : Z) : C (D * D) :=
  with_grad sma_slots sma_sensitivity_slots node_id param_id
    (sma_grad_step x x_grad period).

Definition lag_grad_step (x x_grad : D) (period : Z) (primal grad : LagState D)
  : Res ((D * D) * LagState D * LagState D) :=
  lagged <- LagValue primal;;
  grad_out <- LagValue grad;;
  primal <- LagPushPrepared primal x;;
  grad <- LagPush grad (size_of_period period) x_grad;;
  Ok ((lagged, grad_out), primal, grad).

Definition jit_rt_lag_grad (node_id : Z) (x x_grad : D) (period param_id : Z) : C (D * D) :=
  with_grad lag_slots lag_sensitivity_slots node_id param_id
    (lag_grad_step x x_grad period).

(** ** rolling_std and zscore *)

(** [if (grad.capacity != primal.capacity) { ... }]. *)
Definition StdSensPrepare (cap : nat) (g : RollingStdSensitivityState L)
  : RollingStdSensitivityState L :=
  if decide (s_capacity g = cap) then g
  else MkStdSens (replicate cap (fint 0)) cap 0 0 (fint 0) (fint 0) 0.

(** The two loops over the gradients and the samples [buffer[0 .. count)]. *)
Definition sum_long (xs : list L) : L := foldl (fun acc x => acc + x) (fint 0) xs.
Definition sum_dev_products (mean mean_prime : L) (xs : list D) (gs : list L) : L :=
  foldl (fun acc '(x, g) => acc + fint 2 * (ext x - mean) * (g - mean_prime)) (fint 0)
    (zip xs gs).

Definition RollingStdRefreshSensitivity (st : RollingStdSensitivityState L)
  (primal : RingStatsState D L) : RollingStdSensitivityState L :=
  let n := fnat (count primal) in
  let gs := take (count primal) (s_buffer st) in
  let mean_prime := sum_long gs / n in
  let m2_prime :=
    sum_dev_products (mean primal) mean_prime (take (count primal) (buffer primal)) gs in
  MkStdSens (s_buffer st) (s_capacity st) (s_head st) (s_count st) mean_prime m2_prime 0.

(** The gradients of mean and m2 when [old] leaves and [x] enters; [primal]
    is the state before the slide, [mean'] the mean after it. *)
Definition std_sens_slide (primal : RingStatsState D L) (mean' : L) (old x x_grad : D)
  (old_prime : L) (grad : RollingStdSensitivityState L) : L * L :=
  if capacity primal <=? 1 then (ext x_grad, fint 0)
  else
    let n := fnat (count primal) in
    let delta_r := ext old - mean primal in
    let delta_r_prime := old_prime - s_mean grad in
    let mean_r := mean primal - delta_r / (n - fint 1) in
    let mean_r_prime := s_mean grad - delta_r_prime / (n - fint 1) in
    let m2_r_prime := s_m2 grad - delta_r_prime * (ext old - mean_r)
                      - delta_r * (old_prime - mean_r_prime) in
    let delta_a := ext x - mean_r in
    let delta_a_prime := ext x_grad - mean_r_prime in
    let mean_prime := mean_r_prime + delta_a_prime / n in
    let m2_prime := m2_r_prime + delta_a_prime * (ext x - mean')
                    + delta_a * (ext x_grad - mean_prime) in
    (mean_prime, if flt m2_prime (fint 0) then fint 0 else m2_prime).

(** The same when [x] enters a window that is not full; [primal] already
    has its new count. *)
Definition std_sens_add (primal : RingStatsState D L) (mean' : L) (x x_grad : D)
  (grad : RollingStdSensitivityState L) : L * L :=
  let delta := ext x - mean primal in
  let delta_prime := ext x_grad - s_mean grad in
  let mean_prime := s_mean grad + delta_prime / fnat (count primal) in
  (mean_prime,
   s_m2 grad + (delta_prime * (ext x - mean') + delta * (ext x_grad - mean_prime))).

(** The statistics, up to the write of the new sample: [true] when the
    window slid.  The updates of the primal state are those of
    [RingStatsUpdateMeanM2OnSlide] and [RingStatsUpdateMeanM2OnAdd], written
    out in the source. *)
Definition std_grad_stats (x x_grad : D) (primal : RingStatsState D L)
  (grad : RollingStdSensitivityState L)
  : Res (bool * RingStatsState D L * RollingStdSensitivityState L) :=
  if count primal =? capacity primal then
    old <- at_idx "primal.buffer[head]" (buffer primal) (head primal);;
    old_prime <- at_idx "grad.buffer[head]" (s_buffer grad) (s_head grad);;
    let primal' := RingStatsUpdateMeanM2OnSlide
      (MkRing (buffer primal) (capacity primal) (head primal) (count primal)
         (sum primal - ext old) (mean primal) (m2 primal) (slides_since_refresh primal))
      old x in
    let '(mean_prime, m2_prime) :=
      std_sens_slide primal (mean primal') old x x_grad old_prime grad in
    Ok (true, primal',
        MkStdSens (s_buffer grad) (s_capacity grad) (s_head grad) (s_count grad)
          mean_prime m2_prime (s_slides grad))
  else
    let primal := MkRing (buffer primal) (capacity primal) (head primal) (S (count primal))
      (sum primal) (mean primal) (m2 primal) (slides_since_refresh primal) in
    let primal' := RingStatsUpdateMeanM2OnAdd primal x in
    let '(mean_prime, m2_prime) := std_sens_add primal (mean primal') x x_grad grad in
    Ok (false, primal',
        MkStdSens (s_buffer grad) (s_capacity grad) (s_head grad) (S (s_count grad))
          mean_prime m2_prime (s_slides grad)).

(** [if (!grad.buffer.empty()) { ... }]: store the sample and its gradient. *)
Definition std_grad_store (x x_grad : D) (primal : RingStatsState D L)
  (grad : RollingStdSensitivityState L)
  : Res (RingStatsState D L * RollingStdSensitivityState L) :=
  if length (s_buffer grad) =? 0 then Ok (primal, grad)
  else
    buf <- set_idx "primal.buffer[head]" (buffer primal) (head primal) x;;
    gbuf <- set_idx "grad.buffer[head]" (s_buffer grad) (s_head grad) (ext x_grad);;
    Ok (MkRing buf (capacity primal) (S (head primal) mod capacity primal) (count primal)
          (sum primal + ext x) (mean primal) (m2 primal) (slides_since_refresh primal),
        MkStdSens gbuf (s_capacity grad) (S (s_head grad) mod s_capacity grad)
          (s_count grad) (s_mean grad) (s_m2 grad) (s_slides grad)).

(** [if (slid) { ... }]: count the slide; every [capacity] slides recompute
    the statistics of both states from their buffers. *)
Definition std_grad_refresh (primal : RingStatsState D L)
  (grad : RollingStdSensitivityState L)
  : RingStatsState D L * RollingStdSensitivityState L :=
  let primal := MkRing (buffer primal) (capacity primal) (head primal) (count primal)
    (sum primal) (mean primal) (m2 primal) (S (slides_since_refresh primal)) in
  let grad := MkStdSens (s_buffer grad) (s_capacity grad) (s_head grad) (s_count grad)
    (s_mean grad) (s_m2 grad) (S (s_slides grad)) in
  if (s_capacity grad <=? s_slides grad) && (1 <? s_capacity grad) then
    let primal := RingStatsRefreshMeanM2FromBuffer primal in
    (primal, RollingStdRefreshSensitivity grad primal)
  else (primal, grad).

(** The value and gradient read from the two states. *)
Definition std_grad_read (primal : RingStatsState D L)
  (grad : RollingStdSensitivityState L) : D * D :=
  let stddev := RingStatsStddevSample primal in
  if count primal <? 2 then (fnan, fnan)
  else
    let var_prime := s_m2 grad / (fnat (count primal) - fint 1) in
    (stddev,
     if fisnan stddev then fnan else trunc (var_prime / (fint 2 * ext stddev))).

Definition zscore_grad_read (x x_grad : D) (primal : RingStatsState D L)
  (grad : RollingStdSensitivityState L) : D * D :=
  let stddev := RingStatsStddevSample primal in
  let mean := RingStatsMean primal in
  if fisnan stddev || flt (fabs stddev) (flit 1 18) then (fnan, fnan)
  else
    let var_prime := s_m2 grad / (fnat (count primal) - fint 1) in
    let std_prime := var_prime / (fint 2 * ext stddev) in
    ((x - mean) / stddev,
     (x_grad - trunc (s_mean grad)) / stddev
     - (x - mean) * trunc std_prime / (stddev * stddev)).

(** The body of the function on its two states. *)
Definition std_grad_step (x x_grad : D) (period : nat) (zscore : bool)
  (primal : RingStatsState D L) (grad : RollingStdSensitivityState L)
  : Res ((D * D) * RingStatsState D L * RollingStdSensitivityState L) :=
  let primal := RingStatsPrepare period primal in
  let grad := StdSensPrepare (capacity primal) grad in
  '(slid, primal, grad) <- std_grad_stats x x_grad primal grad;;
  '(primal, grad) <- std_grad_store x x_grad primal grad;;
  let '(primal, grad) := if slid then std_grad_refresh primal grad else (primal, grad) in
  Ok (if negb (RingStatsFull primal) then (fnan, fnan)
      else if zscore then zscore_grad_read x x_grad primal grad
      else std_grad_read primal grad, primal, grad).

Definition RollingStdOrZscoreGradStep (node_id : Z) (x x_grad : D) (period : nat)
  (param : nat) (zscore : bool) : C (D * D) :=
  with_grad_slot (if zscore then zscore_slots else rolling_std_slots)
    (if zscore then zscore_sensitivity_slots else rolling_std_sensitivity_slots)
    node_id param (std_grad_step x x_grad period zscore).

Definition jit_rt_rolling_std_grad (node_id : Z) (x x_grad : D) (period param_id : Z)
  : C (D * D) := fun c =>
  param <- CheckedGradientParam c param_id;;
  RollingStdOrZscoreGradStep node_id x x_grad (size_of_period period) param false c.

Definition jit_rt_zscore_grad (node_id : Z) (x x_grad : D) (period param_id : Z)
  : C (D * D) := fun c =>
  param <- CheckedGradientParam c param_id;;
  RollingStdOrZscoreGradStep node_id x x_grad (size_of_period period) param true c.

(** ** rolling_corr and rolling_beta *)

Definition PairSensPrepare (p : nat) (g : RollingPairSensitivityState L)
  : RollingPairSensitivityState L :=
  if decide (sp_capacity g = p) then g
  else MkPairSens (replicate p (fint 0)) (replicate p (fint 0)) p 0 0 zero_sums.

(** The gradients of the running sums: an expiring pair, a new pair.  The
    product of the new pair is computed in [double]. *)
Definition pair_sens_remove (s : PairSums L) (ox oy : D) (oxp oyp : L) : PairSums L :=
  MkSums (sum_x s - oxp) (sum_y s - oyp) (sum_xy s - (oxp * ext oy + ext ox * oyp))
    (sum_xx s - fint 2 * ext ox * oxp) (sum_yy s - fint 2 * ext oy * oyp).
Definition pair_sens_add (s : PairSums L) (x y x_grad y_grad : D) : PairSums L :=
  MkSums (sum_x s + ext x_grad) (sum_y s + ext y_grad)
    (sum_xy s + ext (x_grad * y + x * y_grad))
    (sum_xx s + fint 2 * ext x * ext x_grad) (sum_yy s + fint 2 * ext y * ext y_grad).

(** The update the two functions share: both buffers are written at the
    primal state's head. *)
Definition pair_grad_push (p : nat) (x x_grad y y_grad : D) (primal : RollingPairState D L)
  (grad : RollingPairSensitivityState L)
  : Res (RollingPairState D L * RollingPairSensitivityState L) :=
  let primal := RollingPairPrepare p primal in
  let grad := PairSensPrepare p grad in
  let h := p_head primal in
  '(pcount, gcount, s, gs) <-
    (if p_count primal =? p_capacity primal then
       old_xp <- at_idx "grad.x_buf[head]" (sx_buf grad) h;;
       old_yp <- at_idx "grad.y_buf[head]" (sy_buf grad) h;;
       old_x <- at_idx "primal.x_buf[head]" (x_buf primal) h;;
       old_y <- at_idx "primal.y_buf[head]" (y_buf primal) h;;
       Ok (p_count primal, sp_count grad, pair_remove (sums primal) old_x old_y,
           pair_sens_remove (s_sums grad) old_x old_y old_xp old_yp)
     else Ok (S (p_count primal), S (sp_count grad), sums primal, s_sums grad));;
  xs <- set_idx "primal.x_buf[head]" (x_buf primal) h x;;
  ys <- set_idx "primal.y_buf[head]" (y_buf primal) h y;;
  gxs <- set_idx "grad.x_buf[head]" (sx_buf grad) h (ext x_grad);;
  gys <- set_idx "grad.y_buf[head]" (sy_buf grad) h (ext y_grad);;
  let h' := S h mod p_capacity primal in
  Ok (MkPair xs ys (p_capacity primal) h' pcount (pair_add s x y),
      MkPairSens gxs gys (sp_capacity grad) h' gcount
        (pair_sens_add gs x y x_grad y_grad)).

Definition cov_prime (s g : PairSums L) (n : L) : L :=
  sum_xy g - (sum_x g * sum_y s + sum_x s * sum_y g) / n.
Definition var_x_prime (s g : PairSums L) (n : L) : L :=
  sum_xx g - fint 2 * sum_x s * sum_x g / n.
Definition var_y_prime (s g : PairSums L) (n : L) : L :=
  sum_yy g - fint 2 * sum_y s * sum_y g / n.

(** The root is taken in [double]. *)
Definition corr_grad_read (primal : RollingPairState D L)
  (grad : RollingPairSensitivityState L) : D * D :=
  let n := fnat (p_count primal) in
  let s := sums primal in
  let g := s_sums grad in
  let cov := cov_unnorm s n in
  let var_x := var_x_unnorm s n in
  let var_y := var_y_unnorm s n in
  let corr := RollingPairCorrelation primal in
  let denom := ext (fsqrt (trunc (var_x * var_y))) in
  let denom_prime :=
    (var_x_prime s g n * var_y + var_x * var_y_prime s g n) / (fint 2 * denom) in
  let corr_prime := cov_prime s g n / denom - cov * denom_prime / (denom * denom) in
  (corr, trunc corr_prime).

Definition beta_grad_read (primal : RollingPairState D L)
  (grad : RollingPairSensitivityState L) : D * D :=
  let n := fnat (p_count primal) in
  let s := sums primal in
  let g := s_sums grad in
  let cov := cov_unnorm s n in
  let var_x := var_x_unnorm s n in
  (RollingPairBeta primal,
   trunc ((cov_prime s g n * var_x - cov * var_x_prime s g n) / (var_x * var_x))).

Definition pair_grad_step
  (read : RollingPairState D L -> RollingPairSensitivityState L -> D * D)
  (p : nat) (x x_grad y y_grad : D) (primal : RollingPairState D L)
  (grad : RollingPairSensitivityState L)
  : Res ((D * D) * RollingPairState D L * RollingPairSensitivityState L) :=
  '(primal, grad) <- pair_grad_push p x x_grad y y_grad primal grad;;
  Ok (if negb (RollingPairFull primal) then (fnan, fnan) else read primal grad,
      primal, grad).

Definition jit_rt_rolling_corr_grad (node_id : Z) (x x_grad y y_grad : D)
  (period param_id : Z) : C (D * D) :=
  with_grad rolling_corr_slots rolling_corr_sensitivity_slots node_id param_id
    (pair_grad_step corr_grad_read (size_of_period period) x x_grad y y_grad).
Definition jit_rt_rolling_beta_grad (node_id : Z) (x x_grad y y_grad : D)
  (period param_id : Z) : C (D * D) :=
  with_grad rolling_beta_slots rolling_beta_sensitivity_slots node_id param_id
    (pair_grad_step beta_grad_read (size_of_period period) x x_grad y y_grad).

(** ** kalman1d *)

Definition kalman1d_grad_step (x x_grad q q_grad r r_grad : D)
  (primal : Kalman1dState D) (grad : Kalman1dSensitivityState D)
  : Res ((D * D) * Kalman1dState D * Kalman1dSensitivityState D) :=
  if negb (k_initialized primal) then
    Ok ((x, x_grad), MkKalman x r q r true, MkKalmanSens x_grad r_grad)
  else
    let p_pred := k_p primal + q in
    let p_pred_grad := s_p grad + q_grad in
    let denom := p_pred + r in
    let denom_grad := p_pred_grad + r_grad in
    if fle denom (fint 0) then Ok ((x_hat primal, s_x_hat grad), primal, grad)
    else
      let k := p_pred / denom in
      let k_grad := (p_pred_grad * denom - p_pred * denom_grad) / (denom * denom) in
      let innov := x - x_hat primal in
      let innov_grad := x_grad - s_x_hat grad in
      let x_hat' := x_hat primal + k * innov in
      let x_hat_grad := s_x_hat grad + k_grad * innov + k * innov_grad in
      let p_new := (fint 1 - k) * p_pred in
      let p_new_grad := (- k_grad) * p_pred + (fint 1 - k) * p_pred_grad in
      let '(p', p_grad) :=
        if flt p_new (fint 0) then (fint 0, fint 0) else (p_new, p_new_grad) in
      Ok ((x_hat', x_hat_grad), MkKalman x_hat' p' q r (k_initialized primal),
          MkKalmanSens x_hat_grad p_grad).

Definition jit_rt_kalman1d_grad (node_id : Z) (x x_grad q q_grad r r_grad : D)
  (param_id : Z) : C (D * D) :=
  with_grad kalman1d_slots kalman1d_sensitivity_slots node_id param_id
    (kalman1d_grad_step x x_grad q q_grad r r_grad).

(** ** rolling_min and rolling_max *)

(** The ring of the gradients is addressed by tick index modulo the period. *)
Definition grad_ring_store (p : nat) (before_idx tick_idx : Z) (x_grad : D)
  (ring : LagState D) : Res (LagState D) :=
  let ring := LagPrepare p ring in
  if 0 <? l_capacity ring then
    let cap := Z.of_nat (l_capacity ring) in
    buf <- set_idx "buffer[before_idx % capacity]" (l_buffer ring)
             (Z.to_nat (before_idx mod cap)) x_grad;;
    Ok (MkLag buf (l_capacity ring) (Z.to_nat (tick_idx mod cap))
          (if l_count ring <? l_capacity ring then S (l_count ring) else l_count ring))
  else Ok ring.

(** [tick_idx < p] returns NaN before the deque is read. *)
Definition extremum_grad_step
  (update : MonoDequeState D -> Z -> D -> Res (D * MonoDequeState D * Z))
  (x x_grad : D) (p : nat) (dq : MonoDequeState D) (tick_idx : Z) (ring : LagState D)
  : Res ((D * D) * MonoDequeState D * Z * LagState D) :=
  let before_idx := tick_idx in
  '(out, dq, tick_idx) <- update dq tick_idx x;;
  ring <- grad_ring_store p before_idx tick_idx x_grad ring;;
  if (tick_idx <? Z.of_nat p)%Z then Ok ((fnan, fnan), dq, tick_idx, ring)
  else
    '(active_tick, _) <- MonoFront dq;;
    (if p =? 0 then Err (Undefined "active_tick % 0") else
     g <- at_idx "grad_ring.buffer[active_tick % p]" (l_buffer ring)
            (Z.to_nat (active_tick mod Z.of_nat p));;
     Ok ((out, g), dq, tick_idx, ring)).

Definition jit_rt_extremum_grad (dqs : Slots (NodeStates D L) (MonoDequeState D))
  (idxs : Slots (NodeStates D L) Z) (rings : Slots (Sensitivities D L) (LagState D))
  (update : MonoDequeState D -> Z -> D -> Res (D * MonoDequeState D * Z))
  (node_id : Z) (x x_grad : D) (period param_id : Z) : C (D * D) := fun c =>
  param <- CheckedGradientParam c param_id;;
  '(idx, c) <- with_node idxs node_id (fun idx => Ok (idx, idx)) c;;
  '(r, c) <- with_grad_slot dqs rings node_id param (fun dq ring =>
     '(out, dq, idx, ring) <-
        extremum_grad_step update x x_grad (size_of_period period) dq idx ring;;
     Ok ((out, idx), dq, ring)) c;;
  '(_, c) <- with_node idxs node_id (fun _ => Ok (tt, snd r)) c;;
  Ok (fst r, c).

Definition jit_rt_rolling_min_grad :=
  jit_rt_extremum_grad rolling_min_deques_slots rolling_min_indices_slots
    rolling_min_sensitivity_slots UpdateRollingMinPrepared.
Definition jit_rt_rolling_max_grad :=
  jit_rt_extremum_grad rolling_max_deques_slots rolling_max_indices_slots
    rolling_max_sensitivity_slots UpdateRollingMaxPrepared.

(** ** cross_above and cross_below: a step function, of gradient 0 *)

Definition jit_rt_cross_above_grad (node_id : Z) (a b : D) (param_id : Z) : C (D * D) :=
  fun c => '(v, c) <- jit_rt_cross_above node_id a b c;; Ok ((v, fint 0), c).
Definition jit_rt_cross_below_grad (node_id : Z) (a b : D) (param_id : Z) : C (D * D) :=
  fun c => '(v, c) <- jit_rt_cross_below node_id a b c;; Ok ((v, fint 0), c).

End gradient.
