(* ===== verification/Autodiff.v ===== *)
(** * Symbolic differentiation (src/src/autodiff.cpp)

    The stateless phase: the gradient of a signal with respect to a
    parameter as another signal.  The forward-sensitivity interpreter of the
    same file is in ForwardGradient.v. *)

From S2P Require Import Prelude Errors Arith Ast ConstFold.

Definition IsStatelessBuiltin (name : string) : bool :=
  (name =? "mid")%string || (name =? "bid")%string || (name =? "ask")%string ||
  (name =? "spread")%string || (name =? "abs")%string || (name =? "log")%string ||
  (name =? "sqrt")%string.

Section autodiff.
Context {D : Type} `{Fp D}.

Fixpoint RequirePhase1Supported (expr : Expr D) : Res () :=
  match expr with
  | NumberLiteral _ _ | IdentifierExpr _ _ | ParameterExpr _ _ _ => Ok tt
  | UnaryOp _ _ operand => RequirePhase1Supported operand
  | BinaryOp _ _ lhs rhs => RequirePhase1Supported lhs ;;; RequirePhase1Supported rhs
  | Conditional _ condition then_branch else_branch =>
      RequirePhase1Supported condition ;;;
      RequirePhase1Supported then_branch ;;;
      RequirePhase1Supported else_branch
  | FunctionCall _ name args _ _ =>
      ensure (IsStatelessBuiltin name) (RuntimeError
        ("Phase 1 autodiff does not support stateful or unknown function: " +:+ name)) ;;;
      (fix all (l : list (Expr D)) : Res () :=
         match l with
         | [] => Ok tt
         | a :: l' => RequirePhase1Supported a ;;; all l'
         end) args
  end.

(** The chain of name tests of [Differentiate] that do not return a
    constant: what it builds from the argument [x] and its gradient [x']. *)
Definition abs_gradient (loc : SourceLoc) (x x' : Expr D) : Expr D :=
  Conditional loc (BinaryOp loc Gt (CloneExpr x) (NumberLiteral loc (fint 0)))
    (CloneExpr x')
    (Conditional loc (BinaryOp loc Lt (CloneExpr x) (NumberLiteral loc (fint 0)))
       (UnaryOp loc Minus x') (NumberLiteral loc (fint 0))).

Definition log_gradient (loc : SourceLoc) (x x' : Expr D) : Expr D :=
  BinaryOp loc Div x' (CloneExpr x).

Definition sqrt_gradient (loc : SourceLoc) (x x' : Expr D) : Expr D :=
  BinaryOp loc Div x'
    (BinaryOp loc Mul (NumberLiteral loc (fint 2))
       (FunctionCall loc "sqrt" [CloneExpr x] (-1) (-1))).

Definition binary_gradient (loc : SourceLoc) (kind : BinaryOpKind) (l r dl dr : Expr D) : Expr D :=
  match kind with
  | Add => BinaryOp loc Add dl dr
  | Sub => BinaryOp loc Sub dl dr
  | Mul =>
      BinaryOp loc Add (BinaryOp loc Mul dl (CloneExpr r)) (BinaryOp loc Mul (CloneExpr l) dr)
  | Div =>
      BinaryOp loc Div
        (BinaryOp loc Sub (BinaryOp loc Mul dl (CloneExpr r)) (BinaryOp loc Mul (CloneExpr l) dr))
        (BinaryOp loc Mul (CloneExpr r) (CloneExpr r))
  | Gt | Lt | Gte | Lte | Eq | NotEq | And | Or => NumberLiteral loc (fint 0)
  end.

Fixpoint Differentiate (target_param_id : Z) (expr : Expr D) : Res (Expr D) :=
  match expr with
  | NumberLiteral loc _ | IdentifierExpr loc _ => Ok (NumberLiteral loc (fint 0))
  | ParameterExpr loc _ param_id =>
      Ok (NumberLiteral loc (fbool (param_id =? target_param_id)%Z))
  | UnaryOp loc kind operand =>
      inner <- Differentiate target_param_id operand;;
      Ok (match kind with Plus => inner | Minus => UnaryOp loc Minus inner end)
  | BinaryOp loc kind lhs rhs =>
      dl <- Differentiate target_param_id lhs;;
      dr <- Differentiate target_param_id rhs;;
      Ok (binary_gradient loc kind lhs rhs dl dr)
  | Conditional loc condition then_branch else_branch =>
      dt <- Differentiate target_param_id then_branch;;
      de <- Differentiate target_param_id else_branch;;
      Ok (Conditional loc (CloneExpr condition) dt de)
  | FunctionCall loc name args _ _ =>
      let of_argument (gradient : Expr D -> Expr D -> Expr D) :=
        match args with
        | [] => Err (Undefined "args[0]")
        | x :: _ => rmap (gradient x) (Differentiate target_param_id x)
        end in
      if (name =? "mid")%string || (name =? "bid")%string || (name =? "ask")%string ||
         (name =? "spread")%string then Ok (NumberLiteral loc (fint 0))
      else if (name =? "abs")%string then of_argument (abs_gradient loc)
      else if (name =? "log")%string then of_argument (log_gradient loc)
      else if (name =? "sqrt")%string then of_argument (sqrt_gradient loc)
      else Err (RuntimeError ("Phase 1 autodiff does not support function: " +:+ name))
  end.

(** The loop over [params]. *)
Fixpoint gradient_signals (signal : SignalDef D) (params : list (ParamDef D))
  : Res (list (SignalDef D)) :=
  match params with
  | [] => Ok []
  | param :: rest =>
      body <- Differentiate (par_id param) (sig_body signal);;
      let grad := MkSignal (sig_name signal +:+ "__grad__" +:+ par_name param) body in
      out <- gradient_signals signal rest;;
      Ok (FoldConstantsInPlace grad :: out)
  end.

Definition BuildStatelessGradientSignals (signal : SignalDef D) (params : list (ParamDef D))
  : Res (list (SignalDef D)) :=
  RequirePhase1Supported (sig_body signal) ;;; gradient_signals signal params.
End autodiff.
