(* ===== verification/ForwardGradient.v ===== *)
(** * The forward gradient interpreter (src/src/autodiff.cpp)

    [EvaluateSignalGradient] evaluates a signal together with its derivative
    with respect to one parameter, advancing the operators' states and the
    sensitivity state of each (node, parameter) pair.  A method of
    [ForwardGradientInterpreter] is a computation in the monad [G] over the
    context and the per-evaluation cache.  The source writes the updates of
    rolling_std, zscore, rolling_corr and rolling_beta out once more; they
    are those of the gradient entry points, whose steps are used here.
    [fn.args[i]] of a call with fewer arguments is [Undefined]. *)

From S2P Require Import Prelude Errors Arith Ast SymbolTable Rolling Context Interpreter JitRuntime Gradient.

Section forward.
Context {D L : Type} `{Machine D L}.
Variable symbols : SymbolTable.
Variable market : MarketState D.
Variable target_param : nat.

Record ValueGradient := MkVG { vg_value : D; vg_gradient : D }.

Record GradState := MkGrad {
  g_ctx : SignalContext D L; stateful_cache : gmap Z ValueGradient }.

Definition G (A : Type) : Type := GradState -> Res (A * GradState).

Definition g_throw {A} (msg : string) : G A := fun _ => Err (RuntimeError msg).
Definition g_lift {A} (r : Res A) : G A := fun s => rmap (fun a => (a, s)) r.
Definition g_run {A} (f : SignalContext D L -> Res (A * SignalContext D L)) : G A := fun s =>
  '(a, c) <- f (g_ctx s);; Ok (a, MkGrad c (stateful_cache s)).

Local Notation "x <~ m ;; k" := (fun s => rbind (m s) (fun '(x, s) => k s))
  (at level 20, m at level 99, k at level 200, right associativity).

(** A pair of numbers, as [Gradient.v] returns them. *)
Definition of_pair (p : D * D) : ValueGradient := MkVG (fst p) (snd p).

(** ** Operators without state *)

Definition grad_unary (kind : UnaryOpKind) (x : ValueGradient) : ValueGradient :=
  match kind with
  | Plus => x
  | Minus => MkVG (fopp (vg_value x)) (fopp (vg_gradient x))
  end.

Definition grad_binary (kind : BinaryOpKind) (l r : ValueGradient) : ValueGradient :=
  let '(MkVG lv lg) := l in
  let '(MkVG rv rg) := r in
  match kind with
  | Add => MkVG (fadd lv rv) (fadd lg rg)
  | Sub => MkVG (fsub lv rv) (fsub lg rg)
  | Mul => MkVG (fmul lv rv) (fadd (fmul lg rv) (fmul lv rg))
  | Div => MkVG (fdiv lv rv) (fdiv (fsub (fmul lg rv) (fmul lv rg)) (fmul rv rv))
  | Gt => MkVG (fbool (fgt lv rv)) (fint 0)
  | Lt => MkVG (fbool (flt lv rv)) (fint 0)
  | Gte => MkVG (fbool (fge lv rv)) (fint 0)
  | Lte => MkVG (fbool (fle lv rv)) (fint 0)
  | Eq => MkVG (fbool (flt (fabs (fsub lv rv)) (flit 1 12))) (fint 0)
  | NotEq => MkVG (fbool (fge (fabs (fsub lv rv)) (flit 1 12))) (fint 0)
  | And => MkVG (fbool (fne lv (fint 0) && fne rv (fint 0))) (fint 0)
  | Or => MkVG (fbool (fne lv (fint 0) || fne rv (fint 0))) (fint 0)
  end.

Definition grad_abs (x : ValueGradient) : ValueGradient :=
  let sign := if fgt (vg_value x) (fint 0) then fint 1
              else if flt (vg_value x) (fint 0) then fint (-1) else fint 0 in
  MkVG (fabs (vg_value x)) (fmul sign (vg_gradient x)).
Definition grad_log (x : ValueGradient) : ValueGradient :=
  MkVG (dlog (vg_value x)) (fdiv (vg_gradient x) (vg_value x)).
Definition grad_sqrt (x : ValueGradient) : ValueGradient :=
  let root := fsqrt (vg_value x) in
  MkVG root (fdiv (vg_gradient x) (fmul (fint 2) root)).

(** [EvalMarketRead]. *)
Definition EvalMarketRead (name : string) (args : list (Expr D)) (symbol_id : Z)
  : Res ValueGradient :=
  id <- ResolveSymbolSlot symbols args symbol_id name;;
  ins <- instrument market id;;
  Ok (MkVG (if (name =? "mid")%string then mid ins
            else if (name =? "bid")%string then bid ins
            else if (name =? "ask")%string then ask ins
            else spread ins) (fint 0)).

(** This file's own [ParsePositiveIntegerPeriod]; only its message differs. *)
Definition grad_period (expr : Expr D) (fn_name : string) : Res nat :=
  match expr with
  | NumberLiteral _ value =>
      match to_int value with
      | None => Err (Undefined "static_cast<int>")
      | Some period =>
          if period_ok value period then Ok (Z.to_nat period)
          else Err (RuntimeError (fn_name +:+ " period must be a positive integer"))
      end
  | _ => Err (RuntimeError (fn_name +:+ " period must be a numeric literal"))
  end.

(** ** What the stateful operators do to their two slots *)

Definition lag_forward (period : nat) (x : ValueGradient) (primal grad : LagState D)
  : Res (ValueGradient * LagState D * LagState D) :=
  lagged <- LagValue primal;;
  lagged_grad <- LagValue grad;;
  primal <- LagPush primal period (vg_value x);;
  grad <- LagPush grad period (vg_gradient x);;
  Ok (MkVG lagged lagged_grad, primal, grad).

Definition sma_forward (period : nat) (x : ValueGradient) (primal grad : RingStatsState D L)
  : Res (ValueGradient * RingStatsState D L * RingStatsState D L) :=
  primal <- RingStatsPush primal period (vg_value x);;
  grad <- RingStatsPush grad period (vg_gradient x);;
  Ok (if negb (RingStatsFull primal) then MkVG fnan fnan
      else MkVG (RingStatsMean primal) (RingStatsMean grad), primal, grad).

Definition ema_forward (x alpha : ValueGradient) (primal : EMAState D) (grad : D)
  : Res (ValueGradient * EMAState D * D) :=
  let a := vg_value alpha in
  if negb (e_initialized primal) then
    Ok (MkVG (vg_value x) (vg_gradient x),
        MkEma (vg_value x) a (e_period primal) true, vg_gradient x)
  else
    let prev := e_value primal in
    let value := fadd (fmul a (vg_value x)) (fmul (fsub (fint 1) a) prev) in
    let grad := fadd (fadd (fmul a (vg_gradient x)) (fmul (fsub (fint 1) a) grad))
                  (fmul (vg_gradient alpha) (fsub (vg_value x) prev)) in
    Ok (MkVG value grad, MkEma value a (e_period primal) (e_initialized primal), grad).

Definition std_forward (period : nat) (zscore : bool) (x : ValueGradient)
  (primal : RingStatsState D L) (grad : RollingStdSensitivityState L)
  : Res (ValueGradient * RingStatsState D L * RollingStdSensitivityState L) :=
  '(out, primal, grad) <-
    std_grad_step (vg_value x) (vg_gradient x) period zscore primal grad;;
  Ok (of_pair out, primal, grad).

Definition pair_forward
  (read : RollingPairState D L -> RollingPairSensitivityState L -> D * D) (period : nat)
  (x y : ValueGradient) (primal : RollingPairState D L) (grad : RollingPairSensitivityState L)
  : Res (ValueGradient * RollingPairState D L * RollingPairSensitivityState L) :=
  '(out, primal, grad) <-
    pair_grad_step read period (vg_value x) (vg_gradient x) (vg_value y) (vg_gradient y)
      primal grad;;
  Ok (of_pair out, primal, grad).

(** The guard on the denominator differs from [Kalman1dStep]'s. *)
Definition kalman_forward (x q r : ValueGradient) (primal : Kalman1dState D)
  (grad : Kalman1dSensitivityState D)
  : Res (ValueGradient * Kalman1dState D * Kalman1dSensitivityState D) :=
  if negb (k_initialized primal) then
    Ok (MkVG (vg_value x) (vg_gradient x),
        MkKalman (vg_value x) (vg_value r) (vg_value q) (vg_value r) true,
        MkKalmanSens (vg_gradient x) (vg_gradient r))
  else
    let p_pred := fadd (k_p primal) (vg_value q) in
    let p_pred_grad := fadd (s_p grad) (vg_gradient q) in
    let denom := fadd p_pred (vg_value r) in
    let denom_grad := fadd p_pred_grad (vg_gradient r) in
    if fle denom (flit 1 18) then Ok (MkVG (x_hat primal) (s_x_hat grad), primal, grad)
    else
      let k := fdiv p_pred denom in
      let k_grad := fdiv (fsub (fmul p_pred_grad denom) (fmul p_pred denom_grad))
                      (fmul denom denom) in
      let innov := fsub (vg_value x) (x_hat primal) in
      let innov_grad := fsub (vg_gradient x) (s_x_hat grad) in
      let x_hat' := fadd (x_hat primal) (fmul k innov) in
      let x_hat_grad := fadd (fadd (s_x_hat grad) (fmul k_grad innov)) (fmul k innov_grad) in
      let p_new := fmul (fsub (fint 1) k) p_pred in
      let p_new_grad := fadd (fmul (fopp k_grad) p_pred)
                          (fmul (fsub (fint 1) k) p_pred_grad) in
      let '(p', p_grad) :=
        if flt p_new (fint 0) then (fint 0, fint 0) else (p_new, p_new_grad) in
      Ok (MkVG x_hat' x_hat_grad,
          MkKalman x_hat' p' (vg_value q) (vg_value r) (k_initialized primal),
          MkKalmanSens x_hat_grad p_grad).

(** ** [EvalFunction] *)

Section builtins.
Variable EvalExpr : Expr D -> G ValueGradient.

Definition missing {A} (i : string) : G A := fun _ => Err (Undefined ("fn.args[" +:+ i +:+ "]")).
Definition arg0 {A} (args : list (Expr D)) (k : Expr D -> G A) : G A :=
  match args with e :: _ => k e | _ => missing "0" end.
Definition arg1 {A} (args : list (Expr D)) (k : Expr D -> G A) : G A :=
  match args with _ :: e :: _ => k e | _ => missing "1" end.
Definition arg2 {A} (args : list (Expr D)) (k : Expr D -> G A) : G A :=
  match args with _ :: _ :: e :: _ => k e | _ => missing "2" end.

(** [states[node_id]] and [sensitivity_states[grad_slot]]. *)
Definition on_slots {S T A} (sl : Slots (NodeStates D L) S) (gl : Slots (Sensitivities D L) T)
  (node_id : Z) (f : S -> T -> Res (A * S * T)) : G A :=
  g_run (with_grad_slot sl gl node_id target_param f).

Definition GradLag (args : list (Expr D)) (node_id : Z) : G ValueGradient :=
  arg1 args (fun p =>
    period <~ g_lift (grad_period p "lag()");;
    arg0 args (fun e => x <~ EvalExpr e;;
      on_slots lag_slots lag_sensitivity_slots node_id (lag_forward period x))).

Definition GradSma (args : list (Expr D)) (node_id : Z) : G ValueGradient :=
  arg1 args (fun p =>
    period <~ g_lift (grad_period p "sma()");;
    arg0 args (fun e => x <~ EvalExpr e;;
      on_slots sma_slots sma_sensitivity_slots node_id (sma_forward period x))).

Definition GradEma (name : string) (args : list (Expr D)) (node_id : Z) : G ValueGradient :=
  arg0 args (fun e =>
    x <~ EvalExpr e;;
    alpha <~ (if (name =? "ema")%string then
                arg1 args (fun p =>
                  period <~ g_lift (grad_period p "ema()");;
                  g_lift (Ok (MkVG (ema_alpha_of period) (fint 0))))
              else arg1 args EvalExpr);;
    on_slots ema_slots ema_sensitivity_slots node_id (ema_forward x alpha)).

Definition GradStd (name : string) (args : list (Expr D)) (node_id : Z) : G ValueGradient :=
  let zscore := negb (name =? "rolling_std")%string in
  arg1 args (fun p =>
    period <~ g_lift (grad_period p (if zscore then "zscore()" else "rolling_std()"));;
    _ <~ g_lift (ensure (negb (period <? 2)) (RuntimeError (name +:+
           "() requires period >= 2 (sample standard deviation of one sample " +:+
           "is mathematically undefined)")));;
    arg0 args (fun e => x <~ EvalExpr e;;
      on_slots (if zscore then zscore_slots else rolling_std_slots)
        (if zscore then zscore_sensitivity_slots else rolling_std_sensitivity_slots)
        node_id (std_forward period zscore x))).

Definition GradPair (name : string) (args : list (Expr D)) (node_id : Z) : G ValueGradient :=
  let corr := (name =? "rolling_corr")%string in
  arg2 args (fun p =>
    period <~ g_lift (grad_period p (if corr then "rolling_corr()" else "rolling_beta()"));;
    arg0 args (fun ex => x <~ EvalExpr ex;;
      arg1 args (fun ey => y <~ EvalExpr ey;;
        on_slots (if corr then rolling_corr_slots else rolling_beta_slots)
          (if corr then rolling_corr_sensitivity_slots else rolling_beta_sensitivity_slots)
          node_id (pair_forward (if corr then corr_grad_read else beta_grad_read) period x y)))).

Definition GradKalman1d (args : list (Expr D)) (node_id : Z) : G ValueGradient :=
  arg1 args (fun eq => q <~ EvalExpr eq;;
    arg2 args (fun er => r <~ EvalExpr er;;
      _ <~ g_lift (ensure (negb (flt (vg_value q) (fint 0) || fle (vg_value r) (fint 0)))
             (RuntimeError "kalman1d() requires q >= 0 and r > 0"));;
      arg0 args (fun ex => x <~ EvalExpr ex;;
        on_slots kalman1d_slots kalman1d_sensitivity_slots node_id (kalman_forward x q r)))).

(** The tick index is a reference into its own array. *)
Definition extremum_forward (dqs : Slots (NodeStates D L) (MonoDequeState D))
  (idxs : Slots (NodeStates D L) Z) (rings : Slots (Sensitivities D L) (LagState D))
  (update : MonoDequeState D -> Z -> nat -> D -> Res (D * MonoDequeState D * Z))
  (node_id : Z) (period : nat) (x : ValueGradient) : G ValueGradient :=
  idx <~ g_run (with_node idxs node_id (fun idx => Ok (idx, idx)));;
  r <~ on_slots dqs rings node_id (fun dq ring =>
     '(out, dq, idx, ring) <-
        extremum_grad_step (fun dq idx v => update dq idx period v)
          (vg_value x) (vg_gradient x) period dq idx ring;;
     Ok ((out, idx), dq, ring));;
  _ <~ g_run (with_node idxs node_id (fun _ => Ok (tt, snd r)));;
  g_lift (Ok (of_pair (fst r))).

Definition GradExtremum (name : string) (args : list (Expr D)) (node_id : Z) : G ValueGradient :=
  arg1 args (fun p =>
    period <~ g_lift (grad_period p
      (if (name =? "rolling_min")%string then "rolling_min()" else "rolling_max()"));;
    arg0 args (fun e => x <~ EvalExpr e;;
      if (name =? "rolling_min")%string
      then extremum_forward rolling_min_deques_slots rolling_min_indices_slots
             rolling_min_sensitivity_slots UpdateRollingMin node_id period x
      else extremum_forward rolling_max_deques_slots rolling_max_indices_slots
             rolling_max_sensitivity_slots UpdateRollingMax node_id period x)).

Definition GradCross (name : string) (args : list (Expr D)) (node_id : Z) : G ValueGradient :=
  arg0 args (fun ea => a <~ EvalExpr ea;;
    arg1 args (fun eb => b <~ EvalExpr eb;;
      v <~ g_run (with_node cross_slots node_id
             (if (name =? "cross_above")%string
              then cross_step fle fgt (vg_value a) (vg_value b)
              else cross_step fge flt (vg_value a) (vg_value b)));;
      g_lift (Ok (MkVG v (fint 0))))).

(** The branches behind the check of [node_id]. *)
Definition EvalStateful (name : string) (args : list (Expr D)) (node_id : Z) : G ValueGradient :=
  if (name =? "lag")%string then GradLag args node_id
  else if (name =? "sma")%string then GradSma args node_id
  else if (name =? "ema")%string || (name =? "ema_alpha")%string then GradEma name args node_id
  else if (name =? "rolling_std")%string || (name =? "zscore")%string
  then GradStd name args node_id
  else if (name =? "rolling_corr")%string || (name =? "rolling_beta")%string
  then GradPair name args node_id
  else if (name =? "kalman1d")%string then GradKalman1d args node_id
  else if (name =? "rolling_min")%string || (name =? "rolling_max")%string
  then GradExtremum name args node_id
  else if (name =? "cross_above")%string || (name =? "cross_below")%string
  then GradCross name args node_id
  else g_throw ("Unsupported function in EvaluateSignalGradient: " +:+ name).

Definition EvalFunction (name : string) (args : list (Expr D)) (node_id symbol_id : Z)
  : G ValueGradient :=
  if (name =? "mid")%string || (name =? "bid")%string || (name =? "ask")%string ||
     (name =? "spread")%string
  then g_lift (EvalMarketRead name args symbol_id)
  else if (name =? "abs")%string
  then arg0 args (fun e => x <~ EvalExpr e;; g_lift (Ok (grad_abs x)))
  else if (name =? "log")%string
  then arg0 args (fun e => x <~ EvalExpr e;; g_lift (Ok (grad_log x)))
  else if (name =? "sqrt")%string
  then arg0 args (fun e => x <~ EvalExpr e;; g_lift (Ok (grad_sqrt x)))
  else if (node_id <? 0)%Z
  then g_throw ("Stateful function missing node_id: " +:+ name)
  else
    _ <~ (fun s => g_lift (GradientSlot (g_ctx s) (Z.to_nat node_id) target_param) s);;
    EvalStateful name args node_id.
End builtins.

(** ** [EvalExpr] *)

(** The parameter array is not null: [EvaluateSignalGradient] has checked. *)
Definition GradParameter (param_id : Z) (c : SignalContext D L) : Res ValueGradient :=
  match params c with
  | None => Err (Undefined "null ctx->params")
  | Some ps =>
      v <- at_Z "params[param_id]" ps param_id;;
      Ok (MkVG v (fbool (param_id =? Z.of_nat target_param)%Z))
  end.

Fixpoint EvalGradExpr (expr : Expr D) : G ValueGradient :=
  match expr with
  | NumberLiteral _ value => g_lift (Ok (MkVG value (fint 0)))
  | IdentifierExpr _ _ => g_throw "Bare identifiers are not valid expressions"
  | ParameterExpr _ _ param_id => fun s => g_lift (GradParameter param_id (g_ctx s)) s
  | UnaryOp _ kind operand =>
      x <~ EvalGradExpr operand;; g_lift (Ok (grad_unary kind x))
  | BinaryOp _ kind lhs rhs =>
      l <~ EvalGradExpr lhs;; r <~ EvalGradExpr rhs;; g_lift (Ok (grad_binary kind l r))
  | Conditional _ condition then_branch else_branch =>
      cond <~ EvalGradExpr condition;;
      if fne (vg_value cond) (fint 0) then EvalGradExpr then_branch
      else EvalGradExpr else_branch
  | FunctionCall _ name args node_id symbol_id => fun s =>
      match (if (0 <? node_id)%Z then stateful_cache s !! node_id else None) with
      | Some out => Ok (out, s)
      | None =>
          '(out, s) <- EvalFunction EvalGradExpr name args node_id symbol_id s;;
          Ok (out, if (0 <? node_id)%Z
                   then MkGrad (g_ctx s) (<[node_id := out]> (stateful_cache s)) else s)
      end
  end.
End forward.
Arguments ValueGradient : clear implicits.
Arguments GradState : clear implicits.

(** [EvaluateSignalGradient]: one parameter, one tick. *)
Definition EvaluateSignalGradient {D L} `{Machine D L} (signal : SignalDef D)
  (symbols : SymbolTable) (market : MarketState D) (c : SignalContext D L) (param_id : Z)
  : Res (ValueGradient D * SignalContext D L) :=
  ensure (match params c with None => false | Some _ => negb (num_params c =? 0) end)
    (RuntimeError "EvaluateSignalGradient requires initialized parameters") ;;;
  ensure (negb ((param_id <? 0)%Z || (Z.of_nat (num_params c) <=? param_id)%Z))
    (RuntimeError "EvaluateSignalGradient param_id out of range") ;;;
  '(out, s) <- EvalGradExpr symbols market (Z.to_nat param_id) (sig_body signal) (MkGrad c ∅);;
  Ok (out, g_ctx s).
