(* ===== verification/Formatter.v ===== *)
(** * The DSL formatter (src/src/dsl_formatter.cpp)

    Pretty-printing of expressions, definitions and programs.  The
    [std::ostringstream] the functions write to is the string they return.
    Literals are [double]s; [snprintf] is modelled for the formats the
    source uses, on the exact binary value and rounding half to even as the
    C library does. *)

From S2P Require Import Prelude Errors Arith Ast Lexer.
From Stdlib Require Import Ascii SpecFloat.

(** ** [snprintf] *)

Definition digit_char (d : Z) : ascii := ascii_of_nat (48 + Z.to_nat d).

(** The decimal digits of [n >= 0]; [log2 n + 1] rounds are enough. *)
Fixpoint digits (fuel : nat) (n : Z) : list ascii :=
  match fuel with
  | 0 => []
  | S fuel' => if (n <? 10)%Z then [digit_char n]
               else digits fuel' (n / 10) ++ [digit_char (n mod 10)]
  end.
Definition decimal_digits (n : Z) : list ascii := digits (S (Z.to_nat (Z.log2 n))) n.

(** [%lld]. *)
Definition printf_lld (z : Z) : string :=
  if (z <? 0)%Z then "-" +:+ str (decimal_digits (- z)) else str (decimal_digits z).

(** The decimal exponent [x] of [num / den > 0], and the fraction scaled to
    [1, 10); a double needs at most 325 rounds. *)
Fixpoint decimal_exponent (fuel : nat) (num den x : Z) : Z * Z * Z :=
  match fuel with
  | 0 => (num, den, x)
  | S fuel' =>
      if (num <? den)%Z then decimal_exponent fuel' (num * 10) den (x - 1)
      else if (den * 10 <=? num)%Z then decimal_exponent fuel' num (den * 10) (x + 1)
      else (num, den, x)
  end.

(** [num / den], rounded half to even. *)
Definition round_half_even (num den : Z) : Z :=
  let q := (num / den)%Z in
  match (2 * (num mod den) ?= den)%Z with
  | Datatypes.Lt => q
  | Datatypes.Gt => q + 1
  | Datatypes.Eq => if Z.even q then q else q + 1
  end.

(** Drop the trailing zeros of a fraction. *)
Fixpoint strip_zeros (cs : list ascii) : list ascii :=
  match cs with
  | [] => []
  | c :: cs' =>
      match strip_zeros cs' with
      | [] => if (c =? "0")%char then [] else [c]
      | rest => c :: rest
      end
  end.

(** The integer part, and the fraction behind a dot unless it is empty. *)
Definition with_fraction (int frac : list ascii) : list ascii :=
  match strip_zeros frac with [] => int | f => int ++ "."%char :: f end.

(** [%.*g] with [prec] significant digits of the positive value [m * 2^e]. *)
Definition printf_g_pos (prec : Z) (m : positive) (e : Z) : list ascii :=
  let '(num, den) := if (0 <=? e)%Z then (Zpos m * 2 ^ e, 1)%Z else (Zpos m, 2 ^ (- e))%Z in
  let '(num, den, x) := decimal_exponent 400 num den 0 in
  let q := round_half_even (num * 10 ^ (prec - 1)) den in
  let '(q, x) := if (q =? 10 ^ prec)%Z then (10 ^ (prec - 1), x + 1)%Z else (q, x) in
  let ds := decimal_digits q in
  if (x <? -4)%Z || (prec <=? x)%Z then
    let ex := decimal_digits (Z.abs x) in
    with_fraction (take 1 ds) (drop 1 ds) ++
      "e"%char :: (if (x <? 0)%Z then "-"%char else "+"%char) ::
      (if length ex <? 2 then "0"%char :: ex else ex)
  else if (x <? 0)%Z then
    with_fraction ["0"%char] (replicate (Z.to_nat (- x - 1)) "0"%char ++ ds)
  else with_fraction (take (S (Z.to_nat x)) ds) (drop (S (Z.to_nat x)) ds).

Definition printf_g (prec : Z) (v : double) : string :=
  match double_sf v with
  | S754_finite s m e => (if s then "-" else "") +:+ str (printf_g_pos prec m e)
  | S754_zero s => if s then "-0" else "0"
  | S754_infinity s => if s then "-inf" else "inf"
  | S754_nan => "nan"
  end.
Definition printf_g17 : double -> string := printf_g 17.
(** [std::ostream::operator<<(double)] with the default precision. *)
Definition ostream_double : double -> string := printf_g 6.

(** ** Precedence levels *)

Definition kPrecCond : Z := 0.
Definition kPrecOr : Z := 1.
Definition kPrecAnd : Z := 2.
Definition kPrecEq : Z := 3.
Definition kPrecRel : Z := 4.
Definition kPrecAdd : Z := 5.
Definition kPrecMul : Z := 6.
Definition kPrecUnary : Z := 7.

Definition BinaryPrec (k : BinaryOpKind) : Z :=
  match k with
  | Or => kPrecOr
  | And => kPrecAnd
  | Eq | NotEq => kPrecEq
  | Gt | Lt | Gte | Lte => kPrecRel
  | Add | Sub => kPrecAdd
  | Mul | Div => kPrecMul
  end.

Definition BinarySpelling (k : BinaryOpKind) : string :=
  match k with
  | Or => "||" | And => "&&" | Eq => "==" | NotEq => "!=" | Gt => ">" | Lt => "<"
  | Gte => ">=" | Lte => "<=" | Add => "+" | Sub => "-" | Mul => "*" | Div => "/"
  end.

Definition UnarySpelling (k : UnaryOpKind) : string :=
  match k with Plus => "+" | Minus => "-" end.

(** ** Literals *)

(** [std::isinf], [std::signbit], [std::trunc]. *)
Definition isinf (v : double) : bool :=
  match double_sf v with S754_infinity _ => true | _ => false end.
Definition signbit (v : double) : bool :=
  match double_sf v with
  | S754_zero s | S754_infinity s | S754_finite s _ _ => s
  | S754_nan => false
  end.
Definition dtrunc (v : double) : double :=
  match sf_trunc (double_sf v) with Some z => fint z | None => v end.

Definition FormatNumber (v : double) : string :=
  if fisnan v then "(0.0/0.0)"
  else if isinf v then (if signbit v then "(-1.0/0.0)" else "(1.0/0.0)")
  else if feq v (fint 0) then "0"
  else
    let trunc := dtrunc v in
    if feq trunc v && flt (fabs v) (fint (10 ^ 15)) then
      printf_lld (default 0%Z (sf_trunc (double_sf trunc)))
    else printf_g17 v.

(** ** Expressions *)

Notation DExpr := (Expr double).

(** [if (need_paren) out << "("; ...; if (need_paren) out << ")"]. *)
Definition parens (need_paren : bool) (s : string) : string :=
  if need_paren then "(" +:+ s +:+ ")" else s.

Fixpoint FormatExprInto (expr : DExpr) (outer_prec : Z) : string :=
  match expr with
  | NumberLiteral _ value => FormatNumber value
  | IdentifierExpr _ name | ParameterExpr _ name _ => name
  | UnaryOp _ kind operand =>
      parens (kPrecUnary <? outer_prec)%Z
        (UnarySpelling kind +:+ FormatExprInto operand kPrecUnary)
  | BinaryOp _ kind lhs rhs =>
      let my_prec := BinaryPrec kind in
      parens (my_prec <? outer_prec)%Z
        (FormatExprInto lhs my_prec +:+ " " +:+ BinarySpelling kind +:+ " " +:+
         FormatExprInto rhs (my_prec + 1)%Z)
  | Conditional _ condition then_branch else_branch =>
      parens (kPrecCond <? outer_prec)%Z
        ("if " +:+ FormatExprInto condition (kPrecCond + 1)%Z +:+ " then " +:+
         FormatExprInto then_branch (kPrecCond + 1)%Z +:+ " else " +:+
         FormatExprInto else_branch kPrecCond)
  | FunctionCall _ name args _ _ =>
      name +:+ "(" +:+
      (fix format_args (first : bool) (l : list DExpr) : string :=
         match l with
         | [] => ""
         | a :: l' => (if first then "" else ", ") +:+ FormatExprInto a kPrecCond +:+
                      format_args false l'
         end) true args +:+ ")"
  end.

Definition FormatExpr (expr : DExpr) (outer_prec : Z) : string :=
  FormatExprInto expr outer_prec.

(** ** Definitions and programs *)

(** The body of a [SignalDef] of the model is never null. *)
Definition FormatSignalDef (s : SignalDef double) : string :=
  "signal " +:+ sig_name s +:+ " = " +:+ FormatExprInto (sig_body s) kPrecCond.

Definition FormatParamDef (p : ParamDef double) : string :=
  "param " +:+ par_name p +:+ " = " +:+ FormatNumber (par_default p).

Definition newline : string := String (ascii_of_nat 10) "".

(** [FormatProgram] of a vector of signals and of a program. *)
Definition FormatSignals (signals : list (SignalDef double)) : string :=
  foldr (fun s rest => FormatSignalDef s +:+ newline +:+ rest) "" signals.
Definition FormatProgram (program : ProgramDef double) : string :=
  foldr (fun p rest => FormatParamDef p +:+ newline +:+ rest)
    (FormatSignals (prog_signals program)) (prog_params program).
