(* ===== verification/Canonical.v ===== *)
(** * The canonical form of a tree (src/src/ast_clone.cpp)

    The string that stands for a tree in the key of the module cache.  The
    program appends to one buffer; here each function returns what it
    appends.  All NaNs of this development are one, whose bits are a
    parameter. *)

From S2P Require Import Prelude Errors Arith Ast Lexer Formatter.
From Stdlib Require Import Ascii SpecFloat.

(** ** [snprintf] and [std::to_string] *)

Definition hex_char (d : Z) : ascii :=
  if (d <? 10)%Z then digit_char d else ascii_of_nat (87 + Z.to_nat d).

(** The hexadecimal digits of [n >= 0], the last first. *)
Fixpoint hex_digits (fuel : nat) (n : Z) : list ascii :=
  match fuel with
  | 0 => []
  | S fuel' =>
      if (n <? 16)%Z then [hex_char n]
      else hex_digits fuel' (n / 16) ++ [hex_char (n mod 16)]
  end.
(** [%llx]: a 64-bit value has at most 16 digits. *)
Definition printf_llx (n : Z) : string := str (hex_digits 16 n).
(** [%016llx]. *)
Definition printf_016llx (n : Z) : string :=
  let ds := hex_digits 16 n in str (replicate (16 - length ds) "0"%char ++ ds).

Definition to_string (z : Z) : string := printf_lld z.

Section canonical.
(** The bits of a NaN. *)
Variable nan_bits : Z.

(** [std::memcpy(&bits, &v, sizeof(double))]. *)
Definition double_bits (v : double) : Z :=
  let sign (s : bool) := if s then (2 ^ 63)%Z else 0%Z in
  match double_sf v with
  | S754_zero s => sign s
  | S754_infinity s => sign s + 2047 * 2 ^ 52
  | S754_nan => nan_bits
  | S754_finite s m e =>
      if (Zpos m <? 2 ^ 52)%Z then sign s + Zpos m
      else sign s + (e + 1075) * 2 ^ 52 + (Zpos m - 2 ^ 52)
  end.

Definition CanonicalDouble (v : double) : string :=
  printf_g17 v +:+ "[" +:+ printf_llx (double_bits v) +:+ "]".

(** [static_cast<int>] of an enumerator. *)
Definition unary_int (k : UnaryOpKind) : Z := match k with Plus => 0 | Minus => 1 end.
Definition binary_int (k : BinaryOpKind) : Z :=
  match k with
  | Add => 0 | Sub => 1 | Mul => 2 | Div => 3
  | Gt => 4 | Lt => 5 | Gte => 6 | Lte => 7
  | Eq => 8 | NotEq => 9 | And => 10 | Or => 11
  end.

Fixpoint CanonicalAppend (expr : Expr double) : string :=
  match expr with
  | NumberLiteral _ value => "n(" +:+ CanonicalDouble value +:+ ")"
  | IdentifierExpr _ name => "id(" +:+ name +:+ ")"
  | ParameterExpr _ name param_id =>
      "param(" +:+ name +:+ "," +:+ to_string param_id +:+ ")"
  | UnaryOp _ kind operand =>
      "u(" +:+ to_string (unary_int kind) +:+ "," +:+ CanonicalAppend operand +:+ ")"
  | BinaryOp _ kind l r =>
      "b(" +:+ to_string (binary_int kind) +:+ "," +:+ CanonicalAppend l +:+ "," +:+
      CanonicalAppend r +:+ ")"
  | Conditional _ condition then_branch else_branch =>
      "if(" +:+ CanonicalAppend condition +:+ "," +:+ CanonicalAppend then_branch +:+ "," +:+
      CanonicalAppend else_branch +:+ ")"
  | FunctionCall _ name args _ _ =>
      "f(" +:+ name +:+ "," +:+ to_string (Z.of_nat (length args)) +:+
      foldr (fun a rest => "," +:+ CanonicalAppend a +:+ rest) ")" args
  end.

Definition AstCanonicalString (expr : Expr double) : string := CanonicalAppend expr.
End canonical.
