(* ===== verification/AstPrinter.v ===== *)
(** * The AST printer (src/src/ast_printer.cpp)

    The dump of a tree, one line per node, indented by depth.  The stream is
    the string printed; [indent_], which every visit restores, is the first
    argument. *)

From S2P Require Import Prelude Errors Arith Ast Formatter Canonical.

Definition BinaryOpName (kind : BinaryOpKind) : string :=
  match kind with
  | Add => "Add" | Sub => "Sub" | Mul => "Mul" | Div => "Div"
  | Gt => "Gt" | Lt => "Lt" | Gte => "Gte" | Lte => "Lte"
  | Eq => "Eq" | NotEq => "NotEq" | And => "And" | Or => "Or"
  end.
Definition UnaryOpName (kind : UnaryOpKind) : string :=
  match kind with Plus => "Plus" | Minus => "Minus" end.

Fixpoint Indent (indent : nat) : string :=
  match indent with 0 => "" | S i => "  " +:+ Indent i end.

(** The [Visit]s; arguments are printed in order. *)
Fixpoint PrintNode (indent : nat) (expr : Expr double) : string :=
  Indent indent +:+
  match expr with
  | NumberLiteral _ value => "NumberLiteral(" +:+ ostream_double value +:+ ")" +:+ newline
  | IdentifierExpr _ name => "Identifier(" +:+ name +:+ ")" +:+ newline
  | ParameterExpr _ name param_id =>
      "Parameter(" +:+ name +:+ ", id=" +:+ to_string param_id +:+ ")" +:+ newline
  | UnaryOp _ kind operand =>
      "UnaryOp(" +:+ UnaryOpName kind +:+ ")" +:+ newline +:+ PrintNode (S indent) operand
  | BinaryOp _ kind l r =>
      "BinaryOp(" +:+ BinaryOpName kind +:+ ")" +:+ newline +:+
      PrintNode (S indent) l +:+ PrintNode (S indent) r
  | FunctionCall _ name args _ _ =>
      "FunctionCall(" +:+ name +:+ ")" +:+ newline +:+
      foldr (fun a rest => PrintNode (S indent) a +:+ rest) "" args
  | Conditional _ c t f =>
      "Conditional" +:+ newline +:+
      PrintNode (S indent) c +:+ PrintNode (S indent) t +:+ PrintNode (S indent) f
  end.

Definition Print (expr : Expr double) : string := PrintNode 0 expr.
