(* ===== verification/LatencyHistogram.v ===== *)
(** * The latency histogram (src/bench/latency_histogram.h,
    src/bench/latency_histogram.cpp)

    A log-linear histogram of nanoseconds: sixteen buckets per power of two,
    constant-time insertion, percentiles by a scan of the buckets.  Samples
    and counters are 64-bit numbers.  The SVG plot is not modelled. *)

From S2P Require Import Prelude Errors Arith Lexer Rolling Context Formatter Canonical.
From Stdlib Require Import SpecFloat.

Definition kPrecisionBits : Z := 4.
Definition kSubBuckets : Z := Z.shiftl 1 kPrecisionBits.
Definition kMaxMagnitude : Z := 30.
Definition kBucketCount : Z := kMaxMagnitude * kSubBuckets.
Definition UINT64_MAX : Z := 2 ^ 64 - 1.

Record LatencyHistogram := MkHistogram {
  buckets_ : list Z;
  hist_total_ : Z;
  overflow_ : Z;
  max_observed_ : Z;
  min_observed_ : Z }.

(** [Reset], which the constructor calls. *)
Definition HistReset : LatencyHistogram :=
  MkHistogram (replicate (Z.to_nat kBucketCount) 0%Z) 0 0 0 UINT64_MAX.

(** [++buckets_[idx]]. *)
Definition bump (idx : Z) (h : LatencyHistogram) : Res LatencyHistogram :=
  c <- at_Z "buckets_" (buckets_ h) idx;;
  Ok (MkHistogram (<[Z.to_nat idx := u64 (c + 1)]> (buckets_ h)) (hist_total_ h) (overflow_ h)
        (max_observed_ h) (min_observed_ h)).

(** [63 - __builtin_clzll(ns)] of a positive number is its logarithm. *)
Definition HistAdd (ns : Z) (h : LatencyHistogram) : Res LatencyHistogram :=
  let h := MkHistogram (buckets_ h) (u64 (hist_total_ h + 1)) (overflow_ h)
             (if (max_observed_ h <? ns)%Z then ns else max_observed_ h)
             (if (ns <? min_observed_ h)%Z then ns else min_observed_ h) in
  if (ns =? 0)%Z then bump 0 h
  else
    let msb := Z.log2 ns in
    if (kMaxMagnitude <=? msb)%Z then
      bump (kBucketCount - 1) (MkHistogram (buckets_ h) (hist_total_ h) (u64 (overflow_ h + 1))
                                 (max_observed_ h) (min_observed_ h))
    else
      let shift := (msb - kPrecisionBits)%Z in
      let shift := if (shift <? 0)%Z then 0%Z else shift in
      let sub := Z.land (Z.shiftr ns shift) (kSubBuckets - 1) in
      bump (msb * kSubBuckets + sub) h.

Definition HistTotal (h : LatencyHistogram) : Z := hist_total_ h.
Definition HistMin (h : LatencyHistogram) : Z := if (hist_total_ h =? 0)%Z then 0 else min_observed_ h.
Definition HistMax (h : LatencyHistogram) : Z := max_observed_ h.
Definition HistOverflow (h : LatencyHistogram) : Z := overflow_ h.

Record BucketView := MkView { lo_ns : Z; hi_ns : Z; count_ : Z }.

Definition HistAt (idx : Z) (h : LatencyHistogram) : Res BucketView :=
  let magnitude := Z.quot idx kSubBuckets in
  let sub := Z.rem idx kSubBuckets in
  let '(lo, hi) :=
    if (magnitude =? 0)%Z then (u64 sub, u64 (u64 sub + 1))
    else
      let base := Z.shiftl 1 magnitude in
      let shift := (magnitude - kPrecisionBits)%Z in
      let step := if (0 <=? shift)%Z then Z.shiftl 1 shift else 1%Z in
      let lo := u64 (base + u64 sub * step) in (lo, u64 (lo + step)) in
  c <- at_Z "buckets_" (buckets_ h) idx;;
  Ok (MkView lo hi c).

(** [static_cast<std::uint64_t>(x)]. *)
Definition to_u64 (x : double) : Res Z :=
  match sf_trunc (double_sf x) with
  | Some z => if ((0 <=? z) && (z <? 2 ^ 64))%Z then Ok z else Err (Undefined "float to uint64_t")
  | None => Err (Undefined "float to uint64_t")
  end.

(** The loop over the buckets, with [n] of them left. *)
Fixpoint percentile_scan (n : nat) (i target acc : Z) (h : LatencyHistogram) : Res Z :=
  match n with
  | 0 => Ok (HistMax h)
  | S n' =>
      c <- at_Z "buckets_" (buckets_ h) i;;
      let acc := u64 (acc + c) in
      if (target <=? acc)%Z then
        bv <- HistAt i h;;
        Ok (u64 (lo_ns bv + u64 (hi_ns bv - lo_ns bv) / 2))
      else percentile_scan n' (i + 1) target acc h
  end.

Definition percentile_target (p : double) (total : Z) : Res Z :=
  to_u64 (p * fint total + flit 5 1)%fp.

Definition HistPercentile (p : double) (h : LatencyHistogram) : Res Z :=
  if (hist_total_ h =? 0)%Z then Ok 0%Z
  else if fle p (fint 0) then Ok (HistMin h)
  else if fge p (fint 1) then Ok (HistMax h)
  else
    target <- percentile_target p (hist_total_ h);;
    percentile_scan (Z.to_nat kBucketCount) 0 target 0 h.

(** ** Reports *)

Fixpoint csv_rows (n : nat) (i cum : Z) (label_col : string) (h : LatencyHistogram) : Res string :=
  match n with
  | 0 => Ok ""
  | S n' =>
      bv <- HistAt i h;;
      if (count_ bv =? 0)%Z then csv_rows n' (i + 1) cum label_col h
      else
        let cum := u64 (cum + count_ bv) in
        let frac : double :=
          if (hist_total_ h =? 0)%Z then fint 0 else (fint cum / fint (hist_total_ h))%fp in
        rest <- csv_rows n' (i + 1) cum label_col h;;
        Ok ((if (label_col =? "")%string then "" else label_col +:+ ",") +:+
            to_string i +:+ "," +:+ to_string (lo_ns bv) +:+ "," +:+ to_string (hi_ns bv) +:+ "," +:+
            to_string (count_ bv) +:+ "," +:+ to_string cum +:+ "," +:+ ostream_double frac +:+
            newline +:+ rest)
  end.
Definition WriteCsv (label_col : string) (h : LatencyHistogram) : Res string :=
  rows <- csv_rows (Z.to_nat kBucketCount) 0 0 label_col h;;
  Ok ((if (label_col =? "")%string then "" else "label,") +:+
      "bucket_index,lo_ns,hi_ns,count,cum_count,cum_fraction" +:+ newline +:+ rows).

Definition kRows : list (string * double) :=
  [("p50", flit 50 2); ("p75", flit 75 2); ("p90", flit 90 2); ("p99", flit 99 2);
   ("p99.9", flit 999 3); ("p99.99", flit 9999 4); ("p99.999", flit 99999 5); ("max", flit 10 1)].

Fixpoint summary_rows (rows : list (string * double)) (h : LatencyHistogram) : Res string :=
  match rows with
  | [] => Ok ""
  | (name, p) :: rows' =>
      v <- HistPercentile p h;;
      rest <- summary_rows rows' h;;
      Ok ("| " +:+ name +:+ " | " +:+ to_string v +:+ " |" +:+ newline +:+ rest)
  end.
Definition WriteMarkdownSummary (label : string) (h : LatencyHistogram) : Res string :=
  rows <- summary_rows kRows h;;
  Ok ("## " +:+ label +:+ newline +:+ newline +:+
      "Total samples: " +:+ to_string (hist_total_ h) +:+ "  " +:+ newline +:+
      "Min: " +:+ to_string (HistMin h) +:+ " ns  " +:+ newline +:+
      "Max: " +:+ to_string (HistMax h) +:+ " ns" +:+
      (if (0 <? overflow_ h)%Z then
         "  " +:+ newline +:+ "Overflow (>" +:+ to_string (Z.shiftl 1 kMaxMagnitude) +:+ " ns): " +:+
         to_string (overflow_ h) +:+ " sample(s)"
       else "") +:+ newline +:+ newline +:+
      "| Percentile | Latency (ns) |" +:+ newline +:+ "|---|---:|" +:+ newline +:+ rows +:+ newline).

(** Recording a sequence of samples. *)
Fixpoint HistAddAll (xs : list Z) (h : LatencyHistogram) : Res LatencyHistogram :=
  match xs with
  | [] => Ok h
  | x :: xs' => h <- HistAdd x h;; HistAddAll xs' h
  end.
