(* ===== verification/Lowered.v ===== *)
(** * Lowered operator states (src/src/runtime.h, src/src/runtime.cpp) and the
      code emitted for them (src/src/jit_compiler.cpp)

    For an operator it lowers, the compiler emits straight-line code (a small
    loop nest for the deques) on a plain struct instead of a runtime call.
    [lowered_sma] and its siblings say what the instructions emitted by
    [EmitLoweredSma] and its siblings do, one [let] per instruction, to the
    struct of the call's node; the code of the warm variant (the steady-state
    specialisation) is the branch for [warm = true].

    A struct's [double*] designates the vector of the same node in the
    [*_lowered_buffers] array, which nothing else accesses: the struct of the
    model holds that vector.  The [lowered_bases] pointers the code reaches
    the arrays through are refreshed whenever an array may have moved
    ([RefreshLoweredStateBases]); here the arrays are accessed by name. *)

From S2P Require Import Prelude Errors Arith Ast Rolling Context Interpreter.

(** A signed 64-bit value. *)
Definition i64 (z : Z) : Z := ((z + 2 ^ 63) mod 2 ^ 64 - 2 ^ 63)%Z.

Section lowered.
Context {D L : Type} `{Machine D L}.
Local Open Scope fp_scope.

(** ** The structs *)

Record SmaStateLowered := MkSmaLow {
  sl_buffer : list D; sl_sum : D; sl_head : nat; sl_count : nat; sl_capacity : nat }.
Record EmaStateLowered := MkEmaLow { el_value : D; el_initialized : bool }.
Record LagStateLowered := MkLagLow {
  ll_buffer : list D; ll_head : nat; ll_count : nat; ll_capacity : nat }.

(** [m2] holds the running sum of squares in lowered code. *)
Record RollingStdStateLowered := MkStdLow {
  dl_buffer : list D; dl_capacity : nat; dl_head : nat; dl_count : nat;
  dl_sum : L; dl_mean : L; dl_m2 : L; dl_slides : nat }.

(** [buf], [head], [count] and [cap] of the struct, as a deque, and [idx]. *)
Record RollingMinMaxStateLowered := MkMonoLow { ml_dq : MonoDequeState D; ml_idx : Z }.
Record CrossStateLowered := MkCrossLow { cl_prev_a : D; cl_prev_b : D; cl_initialized : bool }.
Record Kalman1dStateLowered := MkKalmanLow { kl_x_hat : D; kl_p : D; kl_initialized : bool }.
Record VwapStateLowered := MkVwapLow {
  vl_price_buf : list D; vl_vol_buf : list D; vl_head : nat; vl_count : nat;
  vl_capacity : nat; vl_sum_pv : D; vl_sum_vol : D }.

(** The runtime declares the sums as [double]s with eight bytes of padding
    each; the code addresses such a pair as one 80-bit float. *)
Record RollingPairStateLowered := MkPairLow {
  pl_x_buf : list D; pl_y_buf : list D; pl_head : nat; pl_count : nat; pl_capacity : nat;
  pl_sums : PairSums L }.

Definition SmaStateLowered_init := MkSmaLow [] (fint 0) 0 0 0.
Definition EmaStateLowered_init := MkEmaLow (fint 0) false.
Definition LagStateLowered_init := MkLagLow [] 0 0 0.
Definition RollingStdStateLowered_init :=
  MkStdLow [] 0 0 0 (fint 0) (fint 0) (fint 0) 0.
Definition RollingMinMaxStateLowered_init := MkMonoLow MonoDequeState_init 0.
Definition CrossStateLowered_init := MkCrossLow (fint 0) (fint 0) false.
Definition Kalman1dStateLowered_init := MkKalmanLow (fint 0) (fint 0) false.
Definition VwapStateLowered_init := MkVwapLow [] [] 0 0 0 (fint 0) (fint 0).
Definition RollingPairStateLowered_init := MkPairLow [] [] 0 0 0 zero_sums.

(** ** The emitted code

    [select c a b] has computed both [a] and [b]; neither can fail.  A [head]
    is the index of a [getelementptr] into the node's buffer. *)

(** The code of [EmitLoweredSma]. *)
Definition lowered_sma (warm : bool) (period : nat) (x : D) (st : SmaStateLowered)
  : Res (D * SmaStateLowered) :=
  old_val <- at_idx "sma_slot" (sl_buffer st) (sl_head st);;
  if warm then
    let sum_plus_x := sl_sum st + x in
    let sum_new := sum_plus_x - old_val in
    buf <- set_idx "sma_slot" (sl_buffer st) (sl_head st) x;;
    let head_new := S (sl_head st) mod period in
    Ok (sum_new / fnat period,
        MkSmaLow buf sum_new head_new (sl_count st) (sl_capacity st))
  else
    let was_full := sl_count st =? period in
    let old_or_zero := if was_full then old_val else fint 0 in
    let sum_plus_x := sl_sum st + x in
    let sum_new := sum_plus_x - old_or_zero in
    let count_new := if was_full then sl_count st else S (sl_count st) in
    buf <- set_idx "sma_slot" (sl_buffer st) (sl_head st) x;;
    let head_new := S (sl_head st) mod period in
    let is_full := count_new =? period in
    let mean := sum_new / fnat period in
    Ok (if is_full then mean else fnan,
        MkSmaLow buf sum_new head_new count_new (sl_capacity st)).

(** The code of [EmitLoweredEma]; the factor is a constant of the code. *)
Definition lowered_ema (warm : bool) (period : nat) (x : D) (st : EmaStateLowered)
  : Res (D * EmaStateLowered) :=
  let alpha := ema_alpha_of period in
  let ax := alpha * x in
  let bp := (fint 1 - alpha) * el_value st in
  let blended := ax + bp in
  if warm then Ok (blended, MkEmaLow blended (el_initialized st))
  else
    let new_val := if el_initialized st then blended else x in
    Ok (new_val, MkEmaLow new_val true).

(** The code of [EmitLoweredLag]. *)
Definition lowered_lag (warm : bool) (period : nat) (x : D) (st : LagStateLowered)
  : Res (D * LagStateLowered) :=
  lagged_buf <- at_idx "lag_slot" (ll_buffer st) (ll_head st);;
  buf <- set_idx "lag_slot" (ll_buffer st) (ll_head st) x;;
  let head_new := S (ll_head st) mod period in
  if warm then Ok (lagged_buf, MkLagLow buf head_new (ll_count st) (ll_capacity st))
  else
    let is_full := ll_count st =? period in
    let lagged := if is_full then lagged_buf else fnan in
    let count_new := if is_full then ll_count st else S (ll_count st) in
    Ok (lagged, MkLagLow buf head_new count_new (ll_capacity st)).

(** The part [EmitLoweredRollingStd] and [EmitLoweredZscore] share: the
    mean, the standard deviation, whether the window is full, and the
    struct. *)
Definition lowered_ring (warm : bool) (period : nat) (x : D) (st : RollingStdStateLowered)
  : Res (D * D * bool * RollingStdStateLowered) :=
  old_val <- at_idx "rstd_slot" (dl_buffer st) (dl_head st);;
  let sum := trunc (dl_sum st) in
  let sumsq := trunc (dl_m2 st) in
  let x2 := x * x in
  let was_full := dl_count st =? period in
  let old_or_zero := if warm || was_full then old_val else fint 0 in
  let sum_new := (sum + x) - old_or_zero in
  let old2 := old_or_zero * old_or_zero in
  let sumsq_new := (sumsq + x2) - old2 in
  let count_st := if warm || was_full then dl_count st else S (dl_count st) in
  let count_new := if warm then period else count_st in
  buf <- set_idx "rstd_slot" (dl_buffer st) (dl_head st) x;;
  let head_new := S (dl_head st) mod period in
  let n_f := fnat period in
  let n1_f := fnat (Nat.sub period 1) in
  let mean := sum_new / n_f in
  let mean_sq := mean * mean in
  let corr := n_f * mean_sq in
  let ss := sumsq_new - corr in
  let var := ss / n1_f in
  let var_clamped := if flt var (fint 0) then fint 0 else var in
  let stdv := fsqrt var_clamped in
  Ok (mean, stdv, count_new =? period,
      MkStdLow buf (dl_capacity st) head_new count_st (ext sum_new) (dl_mean st)
        (ext sumsq_new) (dl_slides st)).

(** The code of [EmitLoweredRollingStd]. *)
Definition lowered_rolling_std (warm : bool) (period : nat) (x : D)
  (st : RollingStdStateLowered) : Res (D * RollingStdStateLowered) :=
  '(_, stdv, is_full, st) <- lowered_ring warm period x st;;
  Ok (if warm || is_full then stdv else fnan, st).

(** The code of [EmitLoweredZscore]. *)
Definition lowered_zscore (warm : bool) (period : nat) (x : D)
  (st : RollingStdStateLowered) : Res (D * RollingStdStateLowered) :=
  '(mean, stdv, is_full, st) <- lowered_ring warm period x st;;
  let stdv_ok := fge (fabs stdv) (flit 1 18) in
  let z := (x - mean) / stdv in
  let z_or_nan := if stdv_ok then z else fnan in
  Ok (if warm || is_full then z_or_nan else fnan, st).

(** The second loop of [EmitLoweredMonoDequeRolling]; the first is
    [pop_back_while].  Ages are signed. *)
Fixpoint lowered_pop_front (idx : Z) (period : nat) (fuel : nat) (dq : MonoDequeState D)
  : Res (MonoDequeState D) :=
  match fuel with
  | 0%nat => Ok dq
  | S fuel' =>
      if MonoEmpty dq then Ok dq
      else
        '(front_tick, _) <- MonoFront dq;;
        let age := i64 (idx + 1 - front_tick) in
        if (Z.of_nat period <? age)%Z
        then lowered_pop_front idx period fuel' (MonoPopFront dq) else Ok dq
  end.

(** The code of [EmitLoweredMonoDequeRolling]: [pop] is [OGE] of the back and
    the sample for a minimum, [OLE] for a maximum. *)
Definition lowered_mono (pop : D -> D -> bool) (period : nat) (sample : D)
  (st : RollingMinMaxStateLowered) : Res (D * RollingMinMaxStateLowered) :=
  let dq := ml_dq st in
  dq <- pop_back_while (fun back_val => pop back_val sample) (dq_count dq) dq;;
  dq <- MonoPushBack dq (ml_idx st, sample);;
  dq <- lowered_pop_front (ml_idx st) period (dq_count dq) dq;;
  let idx_new := i64 (ml_idx st + 1) in
  '(_, result) <- MonoFront dq;;
  let warm_enough := (Z.of_nat period <=? idx_new)%Z in
  Ok (if warm_enough then result else fnan, MkMonoLow dq idx_new).

Definition lowered_rolling_min := lowered_mono fge.
Definition lowered_rolling_max := lowered_mono fle.

(** The code of [EmitLoweredCross]: two blocks and a phi. *)
Definition lowered_cross (before now : D -> D -> bool) (a b : D) (st : CrossStateLowered)
  : Res (D * CrossStateLowered) :=
  if negb (cl_initialized st) then Ok (fint 0, MkCrossLow a b true)
  else
    let crossed := before (cl_prev_a st) (cl_prev_b st) && now a b in
    Ok (if crossed then fint 1 else fint 0, MkCrossLow a b (cl_initialized st)).

(** The code of [EmitLoweredKalman1d]; [q] and [r] are constants. *)
Definition lowered_kalman1d (q r x : D) (st : Kalman1dStateLowered)
  : Res (D * Kalman1dStateLowered) :=
  if negb (kl_initialized st) then Ok (x, MkKalmanLow x r true)
  else
    let x_hat := kl_x_hat st in
    let p := kl_p st in
    let p_pred := p + q in
    let denom := p_pred + r in
    let denom_pos := fgt denom (fint 0) in
    let k_gain := p_pred / denom in
    let innov := x - x_hat in
    let x_hat_new := x_hat + k_gain * innov in
    let one_minus_k := fint 1 - k_gain in
    let p_new_raw := one_minus_k * p_pred in
    let p_new := if flt p_new_raw (fint 0) then fint 0 else p_new_raw in
    let update_out := if denom_pos then x_hat_new else x_hat in
    Ok (update_out,
        MkKalmanLow update_out (if denom_pos then p_new else p) (kl_initialized st)).

(** The code of [EmitLoweredVwap] behind its three market loads. *)
Definition lowered_vwap (period : nat) (bid ask vol_raw : D) (st : VwapStateLowered)
  : Res (D * VwapStateLowered) :=
  let price := (bid + ask) * flit 5 1 in
  let vol := if fgt vol_raw (fint 0) then vol_raw else fint 1 in
  old_p <- at_idx "vwap_price_slot" (vl_price_buf st) (vl_head st);;
  old_v <- at_idx "vwap_vol_slot" (vl_vol_buf st) (vl_head st);;
  let was_full := vl_count st =? period in
  let old_pv := old_p * old_v in
  let new_pv := price * vol in
  let sum_pv_adj := if was_full then vl_sum_pv st - old_pv else vl_sum_pv st in
  let sum_vol_adj := if was_full then vl_sum_vol st - old_v else vl_sum_vol st in
  let sum_pv_new := sum_pv_adj + new_pv in
  let sum_vol_new := sum_vol_adj + vol in
  let count_new := if was_full then vl_count st else S (vl_count st) in
  prices <- set_idx "vwap_price_slot" (vl_price_buf st) (vl_head st) price;;
  vols <- set_idx "vwap_vol_slot" (vl_vol_buf st) (vl_head st) vol;;
  let can_value := (count_new =? period) && fgt sum_vol_new (fint 0) in
  Ok (if can_value then sum_pv_new / sum_vol_new else fnan,
      MkVwapLow prices vols (S (vl_head st) mod period) count_new (vl_capacity st)
        sum_pv_new sum_vol_new).

Inductive RollingPairKind := Corr | Beta.

(** The lambdas [load_sum] and [maybe_sub] of [EmitLoweredRollingPair], and
    the addition and the store that follow. *)
Definition pair_sum_update (was_full : bool) (sum : L) (sub add : D) : D :=
  let sum := trunc sum in (if was_full then sum - sub else sum) + add.

(** The code of [EmitLoweredRollingPair]. *)
Definition lowered_rolling_pair (kind : RollingPairKind) (period : nat) (x y : D)
  (st : RollingPairStateLowered) : Res (D * RollingPairStateLowered) :=
  ox <- at_idx "rpair_x_slot" (pl_x_buf st) (pl_head st);;
  oy <- at_idx "rpair_y_slot" (pl_y_buf st) (pl_head st);;
  let was_full := pl_count st =? period in
  let s := pl_sums st in
  let sum_x' := pair_sum_update was_full (sum_x s) ox x in
  let sum_y' := pair_sum_update was_full (sum_y s) oy y in
  let sum_xy' := pair_sum_update was_full (sum_xy s) (ox * oy) (x * y) in
  let sum_xx' := pair_sum_update was_full (sum_xx s) (ox * ox) (x * x) in
  let sum_yy' := pair_sum_update was_full (sum_yy s) (oy * oy) (y * y) in
  let count_new := if was_full then pl_count st else S (pl_count st) in
  xs <- set_idx "rpair_x_slot" (pl_x_buf st) (pl_head st) x;;
  ys <- set_idx "rpair_y_slot" (pl_y_buf st) (pl_head st) y;;
  let st' := MkPairLow xs ys (S (pl_head st) mod period) count_new (pl_capacity st)
               (MkSums (ext sum_x') (ext sum_y') (ext sum_xy') (ext sum_xx') (ext sum_yy')) in
  let n_f := fnat period in
  let cov := sum_xy' - sum_x' * sum_y' / n_f in
  let var_x := sum_xx' - sum_x' * sum_x' / n_f in
  let is_full := count_new =? period in
  let var_x_pos := fgt var_x (fint 0) in
  Ok (match kind with
      | Corr =>
          let var_y := sum_yy' - sum_y' * sum_y' / n_f in
          let vars_pos := var_x_pos && fgt var_y (fint 0) in
          let denom := fsqrt (var_x * var_y) in
          let can_corr := is_full && vars_pos && fgt denom (fint 0) in
          let r_raw := cov / denom in
          let r_clamped :=
            if fgt r_raw (fint 1) then fint 1
            else if flt r_raw (fint (-1)) then fint (-1) else r_raw in
          if can_corr then r_clamped else fnan
      | Beta => if is_full && var_x_pos then cov / var_x else fnan
      end, st').
End lowered.
Arguments SmaStateLowered : clear implicits.
Arguments EmaStateLowered : clear implicits.
Arguments LagStateLowered : clear implicits.
Arguments RollingStdStateLowered : clear implicits.
Arguments RollingMinMaxStateLowered : clear implicits.
Arguments CrossStateLowered : clear implicits.
Arguments Kalman1dStateLowered : clear implicits.
Arguments VwapStateLowered : clear implicits.
Arguments RollingPairStateLowered : clear implicits.

(** ** The arrays of a context, and prewarming them *)

Section arrays.
Context {D L : Type} `{Machine D L}.
Local Open Scope fp_scope.

Record LoweredStates := MkLowered {
  sma_lowered : list (SmaStateLowered D);
  ema_lowered : list (EmaStateLowered D);
  lag_lowered : list (LagStateLowered D);
  rolling_std_lowered : list (RollingStdStateLowered D L);
  zscore_lowered : list (RollingStdStateLowered D L);
  rolling_min_lowered : list (RollingMinMaxStateLowered D);
  rolling_max_lowered : list (RollingMinMaxStateLowered D);
  cross_lowered : list (CrossStateLowered D);
  kalman1d_lowered : list (Kalman1dStateLowered D);
  vwap_lowered : list (VwapStateLowered D);
  rolling_corr_lowered : list (RollingPairStateLowered D L);
  rolling_beta_lowered : list (RollingPairStateLowered D L) }.

Definition set_sma_lowered (v : list (SmaStateLowered D)) (c : LoweredStates)
  : LoweredStates :=
  MkLowered v (ema_lowered c) (lag_lowered c) (rolling_std_lowered c) (zscore_lowered c)
    (rolling_min_lowered c) (rolling_max_lowered c) (cross_lowered c) (kalman1d_lowered c)
    (vwap_lowered c) (rolling_corr_lowered c) (rolling_beta_lowered c).
Definition set_ema_lowered (v : list (EmaStateLowered D)) (c : LoweredStates)
  : LoweredStates :=
  MkLowered (sma_lowered c) v (lag_lowered c) (rolling_std_lowered c) (zscore_lowered c)
    (rolling_min_lowered c) (rolling_max_lowered c) (cross_lowered c) (kalman1d_lowered c)
    (vwap_lowered c) (rolling_corr_lowered c) (rolling_beta_lowered c).
Definition set_lag_lowered (v : list (LagStateLowered D)) (c : LoweredStates)
  : LoweredStates :=
  MkLowered (sma_lowered c) (ema_lowered c) v (rolling_std_lowered c) (zscore_lowered c)
    (rolling_min_lowered c) (rolling_max_lowered c) (cross_lowered c) (kalman1d_lowered c)
    (vwap_lowered c) (rolling_corr_lowered c) (rolling_beta_lowered c).
Definition set_rolling_std_lowered (v : list (RollingStdStateLowered D L)) (c : LoweredStates)
  : LoweredStates :=
  MkLowered (sma_lowered c) (ema_lowered c) (lag_lowered c) v (zscore_lowered c)
    (rolling_min_lowered c) (rolling_max_lowered c) (cross_lowered c) (kalman1d_lowered c)
    (vwap_lowered c) (rolling_corr_lowered c) (rolling_beta_lowered c).
Definition set_zscore_lowered (v : list (RollingStdStateLowered D L)) (c : LoweredStates)
  : LoweredStates :=
  MkLowered (sma_lowered c) (ema_lowered c) (lag_lowered c) (rolling_std_lowered c) v
    (rolling_min_lowered c) (rolling_max_lowered c) (cross_lowered c) (kalman1d_lowered c)
    (vwap_lowered c) (rolling_corr_lowered c) (rolling_beta_lowered c).
Definition set_rolling_min_lowered (v : list (RollingMinMaxStateLowered D)) (c : LoweredStates)
  : LoweredStates :=
  MkLowered (sma_lowered c) (ema_lowered c) (lag_lowered c) (rolling_std_lowered c)
    (zscore_lowered c) v (rolling_max_lowered c) (cross_lowered c) (kalman1d_lowered c)
    (vwap_lowered c) (rolling_corr_lowered c) (rolling_beta_lowered c).
Definition set_rolling_max_lowered (v : list (RollingMinMaxStateLowered D)) (c : LoweredStates)
  : LoweredStates :=
  MkLowered (sma_lowered c) (ema_lowered c) (lag_lowered c) (rolling_std_lowered c)
    (zscore_lowered c) (rolling_min_lowered c) v (cross_lowered c) (kalman1d_lowered c)
    (vwap_lowered c) (rolling_corr_lowered c) (rolling_beta_lowered c).
Definition set_cross_lowered (v : list (CrossStateLowered D)) (c : LoweredStates)
  : LoweredStates :=
  MkLowered (sma_lowered c) (ema_lowered c) (lag_lowered c) (rolling_std_lowered c)
    (zscore_lowered c) (rolling_min_lowered c) (rolling_max_lowered c) v (kalman1d_lowered c)
    (vwap_lowered c) (rolling_corr_lowered c) (rolling_beta_lowered c).
Definition set_kalman1d_lowered (v : list (Kalman1dStateLowered D)) (c : LoweredStates)
  : LoweredStates :=
  MkLowered (sma_lowered c) (ema_lowered c) (lag_lowered c) (rolling_std_lowered c)
    (zscore_lowered c) (rolling_min_lowered c) (rolling_max_lowered c) (cross_lowered c) v
    (vwap_lowered c) (rolling_corr_lowered c) (rolling_beta_lowered c).
Definition set_vwap_lowered (v : list (VwapStateLowered D)) (c : LoweredStates)
  : LoweredStates :=
  MkLowered (sma_lowered c) (ema_lowered c) (lag_lowered c) (rolling_std_lowered c)
    (zscore_lowered c) (rolling_min_lowered c) (rolling_max_lowered c) (cross_lowered c)
    (kalman1d_lowered c) v (rolling_corr_lowered c) (rolling_beta_lowered c).
Definition set_rolling_corr_lowered (v : list (RollingPairStateLowered D L)) (c : LoweredStates)
  : LoweredStates :=
  MkLowered (sma_lowered c) (ema_lowered c) (lag_lowered c) (rolling_std_lowered c)
    (zscore_lowered c) (rolling_min_lowered c) (rolling_max_lowered c) (cross_lowered c)
    (kalman1d_lowered c) (vwap_lowered c) v (rolling_beta_lowered c).
Definition set_rolling_beta_lowered (v : list (RollingPairStateLowered D L)) (c : LoweredStates)
  : LoweredStates :=
  MkLowered (sma_lowered c) (ema_lowered c) (lag_lowered c) (rolling_std_lowered c)
    (zscore_lowered c) (rolling_min_lowered c) (rolling_max_lowered c) (cross_lowered c)
    (kalman1d_lowered c) (vwap_lowered c) (rolling_corr_lowered c) v.

Definition sma_lowered_slots := MkSlots sma_lowered set_sma_lowered.
Definition ema_lowered_slots := MkSlots ema_lowered set_ema_lowered.
Definition lag_lowered_slots := MkSlots lag_lowered set_lag_lowered.
Definition rolling_std_lowered_slots := MkSlots rolling_std_lowered set_rolling_std_lowered.
Definition zscore_lowered_slots := MkSlots zscore_lowered set_zscore_lowered.
Definition rolling_min_lowered_slots := MkSlots rolling_min_lowered set_rolling_min_lowered.
Definition rolling_max_lowered_slots := MkSlots rolling_max_lowered set_rolling_max_lowered.
Definition cross_lowered_slots := MkSlots cross_lowered set_cross_lowered.
Definition kalman1d_lowered_slots := MkSlots kalman1d_lowered set_kalman1d_lowered.
Definition vwap_lowered_slots := MkSlots vwap_lowered set_vwap_lowered.
Definition rolling_corr_lowered_slots := MkSlots rolling_corr_lowered set_rolling_corr_lowered.
Definition rolling_beta_lowered_slots := MkSlots rolling_beta_lowered set_rolling_beta_lowered.

Definition LoweredStates_init : LoweredStates := MkLowered [] [] [] [] [] [] [] [] [] [] [] [].

(** [EnsureNodeCapacity], for these arrays. *)
Definition grow_lowered (needed : nat) (c : LoweredStates) : LoweredStates :=
  MkLowered
    (vec_grow needed SmaStateLowered_init (sma_lowered c))
    (vec_grow needed EmaStateLowered_init (ema_lowered c))
    (vec_grow needed LagStateLowered_init (lag_lowered c))
    (vec_grow needed RollingStdStateLowered_init (rolling_std_lowered c))
    (vec_grow needed RollingStdStateLowered_init (zscore_lowered c))
    (vec_grow needed RollingMinMaxStateLowered_init (rolling_min_lowered c))
    (vec_grow needed RollingMinMaxStateLowered_init (rolling_max_lowered c))
    (vec_grow needed CrossStateLowered_init (cross_lowered c))
    (vec_grow needed Kalman1dStateLowered_init (kalman1d_lowered c))
    (vec_grow needed VwapStateLowered_init (vwap_lowered c))
    (vec_grow needed RollingPairStateLowered_init (rolling_corr_lowered c))
    (vec_grow needed RollingPairStateLowered_init (rolling_beta_lowered c)).

(** Run an operation on the struct of a node. *)
Definition with_lowered {S A} (sl : Slots LoweredStates S) (node_id : Z) (f : S -> Res (A * S))
  (c : LoweredStates) : Res (A * LoweredStates) :=
  s <- at_Z "lowered_bases[node_id]" (slots_get sl c) node_id;;
  '(a, s) <- f s;;
  Ok (a, slots_set sl (<[Z.to_nat node_id := s]> (slots_get sl c)) c).

Definition prewarm_lowered {S} (sl : Slots LoweredStates S) (node_id : Z) (f : S -> S)
  (c : LoweredStates) : Res LoweredStates :=
  rmap snd (with_lowered sl node_id (fun s => Ok (tt, f s)) c).

(** An 80-bit float whose low eight bytes are set to zero, as prewarming a
    pair's sums does: the bytes behind are not written. *)
Variable clear_low : L -> L.

Definition zeros (n : nat) : list D := replicate n (fint 0).

(** What a prewarm stores in the struct of a node. *)
Definition prewarm_std_lowered (period : nat) : RollingStdStateLowered D L :=
  MkStdLow (zeros period) period 0 0 (fint 0) (fint 0) (fint 0) 0.
Definition prewarm_mono_lowered (period : nat) : RollingMinMaxStateLowered D :=
  MkMonoLow (MkMono (replicate (S period) (0%Z, fint 0)) 0 0 (S period)) 0.
Definition prewarm_pair_lowered (period : nat) (st : RollingPairStateLowered D L)
  : RollingPairStateLowered D L :=
  let s := pl_sums st in
  MkPairLow (zeros period) (zeros period) 0 0 period
    (MkSums (clear_low (sum_x s)) (clear_low (sum_y s)) (clear_low (sum_xy s))
       (clear_low (sum_xx s)) (clear_low (sum_yy s))).

Definition prewarm_lowered_unwindowed (name : string) (args : list (Expr D)) (node_id : Z)
  (c : LoweredStates) : Res LoweredStates :=
  if ((name =? "rolling_corr")%string || (name =? "rolling_beta")%string) &&
     (3 <=? length args) then
    p <- ParsePairPeriod args;;
    match p with
    | Some p =>
        prewarm_lowered (if (name =? "rolling_corr")%string then rolling_corr_lowered_slots
                         else rolling_beta_lowered_slots) node_id (prewarm_pair_lowered p) c
    | None => Ok c
    end
  else if (name =? "kalman1d")%string
  then prewarm_lowered kalman1d_lowered_slots node_id (fun _ => Kalman1dStateLowered_init) c
  else if (name =? "cross_above")%string || (name =? "cross_below")%string
  then prewarm_lowered cross_lowered_slots node_id (fun _ => CrossStateLowered_init) c
  else Ok c.

(** The same chain of [if]s as [prewarm_call]: what it does to these arrays. *)
Definition prewarm_lowered_call (name : string) (args : list (Expr D)) (node_id : Z)
  (c : LoweredStates) : Res LoweredStates :=
  let c := grow_lowered (S (Z.to_nat node_id)) c in
  period <- ParsePreparedPeriod args;;
  let on {S} (sl : Slots LoweredStates S) (s : S) := prewarm_lowered sl node_id (fun _ => s) c in
  let has_period := (0 <? period)%nat in
  if (name =? "ema")%string && has_period then on ema_lowered_slots EmaStateLowered_init
  else if (name =? "sma")%string && has_period
  then on sma_lowered_slots (MkSmaLow (zeros period) (fint 0) 0 0 period)
  else if (name =? "rolling_std")%string && has_period
  then on rolling_std_lowered_slots (prewarm_std_lowered period)
  else if (name =? "zscore")%string && has_period
  then on zscore_lowered_slots (prewarm_std_lowered period)
  else if (name =? "vwap")%string && has_period
  then on vwap_lowered_slots
         (MkVwapLow (zeros period) (zeros period) 0 0 period (fint 0) (fint 0))
  else if (name =? "lag")%string && has_period
  then on lag_lowered_slots (MkLagLow (zeros period) 0 0 period)
  else if (name =? "rolling_min")%string && has_period
  then on rolling_min_lowered_slots (prewarm_mono_lowered period)
  else if (name =? "rolling_max")%string && has_period
  then on rolling_max_lowered_slots (prewarm_mono_lowered period)
  else prewarm_lowered_unwindowed name args node_id c.

(** [PrewarmSignalContext], for these arrays. *)
Fixpoint prewarm_lowered_walk (expr : Expr D) (c : LoweredStates) : Res LoweredStates :=
  match expr with
  | UnaryOp _ _ x => prewarm_lowered_walk x c
  | BinaryOp _ _ l r => c <- prewarm_lowered_walk l c;; prewarm_lowered_walk r c
  | Conditional _ cond t e =>
      c <- prewarm_lowered_walk cond c;; c <- prewarm_lowered_walk t c;;
      prewarm_lowered_walk e c
  | FunctionCall _ name args node_id _ =>
      c <- (if (0 <=? node_id)%Z then prewarm_lowered_call name args node_id c else Ok c);;
      (fix walk_args (l : list (Expr D)) (c : LoweredStates) : Res LoweredStates :=
         match l with
         | [] => Ok c
         | a :: l' => c <- prewarm_lowered_walk a c;; walk_args l' c
         end) args c
  | NumberLiteral _ _ | IdentifierExpr _ _ | ParameterExpr _ _ _ => Ok c
  end.
End arrays.
Arguments LoweredStates : clear implicits.
