(* ===== verification/Ir.v ===== *)
(** * The code the compiler emits

    The compiler builds a function through the LLVM API.  [Code] is the part
    of that language it uses, and [exec] its meaning according to the LLVM
    language reference: values live in single-assignment registers, a
    conditional branch with its two arms and the phi of the block behind them
    is a [Diamond], and the registers of an arm do not exist behind it.

    A runtime call and a block of lowered code act on the state of a node
    and are one instruction each, [IEffect], with the constants of the call
    site in its [Effect].  [verify] is the rule of [verifyFunction] that
    matters here: every use of a register is dominated by its definition. *)

From S2P Require Import Prelude Errors Arith Ast Rolling Context Interpreter JitRuntime Lowered.

Section ir.
Context {D L : Type} `{Machine D L}.

(** ** Code *)

(** A [double] operand: a constant or a register. *)
Inductive Value := Const (d : D) | Reg (r : nat).

Inductive FBinary := FAdd | FSub | FMul | FDiv.

(** Comparison predicates: ordered, and unordered-or-unequal. *)
Inductive Predicate := OGT | OLT | OGE | OLE | UNE.

Inductive Intrinsic := IntrinsicFabs | IntrinsicSqrt | IntrinsicLog.

(** The fields of an [InstrumentState] the code loads, by their index. *)
Inductive Field := FBid | FAsk | FVolume.
Definition field_index (f : Field) : Z :=
  match f with FBid => 0 | FAsk => 1 | FVolume => 3 end.

Inductive Effect :=
| RtParam (param_id : Z)
| RtEmaAlpha (node_id : Z) (period : nat)
| RtSma (node_id : Z) (period : nat)
| SmaSimd (node_id : Z) (period : nat)
| RtRollingStd (node_id : Z) (period : nat)
| RtZscore (node_id : Z) (period : nat)
| RtVwap (node_id symbol_id : Z) (period : nat)
| RtLag (node_id : Z) (period : nat)
| RtCrossAbove (node_id : Z)
| RtCrossBelow (node_id : Z)
| RtRollingMin (node_id : Z) (period : nat)
| RtRollingMax (node_id : Z) (period : nat)
| RtRollingCorr (node_id : Z) (period : nat)
| RtRollingBeta (node_id : Z) (period : nat)
| RtKalman1d (node_id : Z)
| LowSma (warm : bool) (node_id : Z) (period : nat)
| LowEma (warm : bool) (node_id : Z) (period : nat)
| LowLag (warm : bool) (node_id : Z) (period : nat)
| LowRollingStd (warm : bool) (node_id : Z) (period : nat)
| LowZscore (warm : bool) (node_id : Z) (period : nat)
| LowRollingMin (node_id : Z) (period : nat)
| LowRollingMax (node_id : Z) (period : nat)
| LowCrossAbove (node_id : Z)
| LowCrossBelow (node_id : Z)
| LowKalman1d (node_id : Z) (q r : D)
| LowVwap (node_id : Z) (period : nat)
| LowRollingPair (kind : RollingPairKind) (node_id : Z) (period : nat).

(** [ICmp], [ILogic] and the condition of a diamond are over one-bit
    registers, named by their number. *)
Inductive Instr :=
| INeg (dst : nat) (v : Value)
| IBin (dst : nat) (op : FBinary) (l r : Value)
| ICmp (dst : nat) (p : Predicate) (l r : Value)
| ILogic (dst : nat) (is_and : bool) (l r : nat)
| IUIToFP (dst : nat) (b : nat)
| IIntrinsic (dst : nat) (f : Intrinsic) (v : Value)
| ILoad (dst : nat) (sym_id : nat) (f : Field)
| IEffect (dst : nat) (eff : Effect) (args : list Value)
| IStore (idx : nat) (v : Value).

Inductive Code :=
| Ret
| Seq (i : Instr) (k : Code)
| Diamond (dst cond : nat) (then_bb : Code) (then_v : Value) (else_bb : Code) (else_v : Value)
    (k : Code).

(** Code behind code. *)
Fixpoint capp (a b : Code) : Code :=
  match a with
  | Ret => b
  | Seq i k => Seq i (capp k b)
  | Diamond dst c t tv e ev k => Diamond dst c t tv e ev (capp k b)
  end.

(** ** Meaning *)

Inductive RegValue := F64 (d : D) | I1 (b : bool).

Record JitState := MkJit { js_ctx : SignalContext D L; js_low : LoweredStates D L }.

(** Registers, the state of the symbol, and the output array as far as it
    has been written. *)
Record Machine_state := MkState {
  env : gmap nat RegValue; js : JitState; outputs : gmap nat D }.

Definition set_reg (dst : nat) (v : RegValue) (s : Machine_state) : Machine_state :=
  MkState (<[dst := v]> (env s)) (js s) (outputs s).

Definition read (env : gmap nat RegValue) (v : Value) : Res D :=
  match v with
  | Const d => Ok d
  | Reg r => match env !! r with Some (F64 d) => Ok d | _ => Err (Undefined "register") end
  end.
Definition read_bit (env : gmap nat RegValue) (r : nat) : Res bool :=
  match env !! r with Some (I1 b) => Ok b | _ => Err (Undefined "register") end.

Fixpoint read_all (env : gmap nat RegValue) (vs : list Value) : Res (list D) :=
  match vs with
  | [] => Ok []
  | v :: vs' => d <- read env v;; rmap (cons d) (read_all env vs')
  end.

Definition fbinary (op : FBinary) : D -> D -> D :=
  match op with FAdd => fadd | FSub => fsub | FMul => fmul | FDiv => fdiv end.
Definition predicate (p : Predicate) : D -> D -> bool :=
  match p with OGT => fgt | OLT => flt | OGE => fge | OLE => fle | UNE => fne end.
Definition intrinsic (f : Intrinsic) : D -> D :=
  match f with IntrinsicFabs => fabs | IntrinsicSqrt => fsqrt | IntrinsicLog => dlog end.
Definition read_field (f : Field) (ins : InstrumentState D) : D :=
  match f with FBid => bid ins | FAsk => ask ins | FVolume => volume ins end.

(** The vectorised sum of the buffer: four partial sums over the chunks of
    four, their sum from the left, and the remaining elements. *)
Fixpoint simd_chunks (n : nat) (buf : list D) (acc : D * D * D * D) : D * D * D * D :=
  match n, buf with
  | S n', a :: b :: c :: d :: buf' =>
      let '(s0, s1, s2, s3) := acc in
      simd_chunks n' buf' (fadd s0 a, fadd s1 b, fadd s2 c, fadd s3 d)
  | _, _ => acc
  end.
Definition simd_sum (period : nat) (buf : list D) : D :=
  let vec_chunks := period / 4 in
  let '(s0, s1, s2, s3) := simd_chunks vec_chunks buf (fint 0, fint 0, fint 0, fint 0) in
  let lanes := fadd (fadd (fadd (fadd (fint 0) s0) s1) s2) s3 in
  foldl fadd lanes (take (period mod 4) (drop (vec_chunks * 4) buf)).

Definition on_ctx {A} (f : SignalContext D L -> Res (A * SignalContext D L)) (s : JitState)
  : Res (A * JitState) :=
  '(a, c) <- f (js_ctx s);; Ok (a, MkJit c (js_low s)).
Definition on_low {A} (f : LoweredStates D L -> Res (A * LoweredStates D L)) (s : JitState)
  : Res (A * JitState) :=
  '(a, low) <- f (js_low s);; Ok (a, MkJit (js_ctx s) low).

Definition bad_call {A} : Res A := Err (Undefined "call signature").

Definition run_effect (market : MarketState D) (eff : Effect) (args : list D) (s : JitState)
  : Res (D * JitState) :=
  match eff, args with
  | RtParam id, [] => rmap (fun d => (d, s)) (jit_rt_param id (js_ctx s))
  | RtEmaAlpha id p, [x; alpha] => on_ctx (jit_rt_ema_alpha id x alpha (Z.of_nat p)) s
  | RtSma id p, [x] => on_ctx (jit_rt_sma id x (Z.of_nat p)) s
  | SmaSimd id p, [x] =>
      '(full, s) <- on_ctx (jit_rt_sma_prepare id x (Z.of_nat p)) s;;
      Ok (match full with
          | Some (buffer, _) => fdiv (simd_sum p buffer) (fnat p)
          | None => fnan
          end, s)
  | RtRollingStd id p, [x] => on_ctx (jit_rt_rolling_std id x (Z.of_nat p)) s
  | RtZscore id p, [x] => on_ctx (jit_rt_zscore id x (Z.of_nat p)) s
  | RtVwap id sym p, [] => on_ctx (jit_rt_vwap market id sym (Z.of_nat p)) s
  | RtLag id p, [x] => on_ctx (jit_rt_lag id x (Z.of_nat p)) s
  | RtCrossAbove id, [a; b] => on_ctx (jit_rt_cross_above id a b) s
  | RtCrossBelow id, [a; b] => on_ctx (jit_rt_cross_below id a b) s
  | RtRollingMin id p, [x] => on_ctx (jit_rt_rolling_min id x (Z.of_nat p)) s
  | RtRollingMax id p, [x] => on_ctx (jit_rt_rolling_max id x (Z.of_nat p)) s
  | RtRollingCorr id p, [x; y] => on_ctx (jit_rt_rolling_corr id x y (Z.of_nat p)) s
  | RtRollingBeta id p, [x; y] => on_ctx (jit_rt_rolling_beta id x y (Z.of_nat p)) s
  | RtKalman1d id, [x; q; r] => on_ctx (jit_rt_kalman1d id x q r) s
  | LowSma w id p, [x] => on_low (with_lowered sma_lowered_slots id (lowered_sma w p x)) s
  | LowEma w id p, [x] => on_low (with_lowered ema_lowered_slots id (lowered_ema w p x)) s
  | LowLag w id p, [x] => on_low (with_lowered lag_lowered_slots id (lowered_lag w p x)) s
  | LowRollingStd w id p, [x] =>
      on_low (with_lowered rolling_std_lowered_slots id (lowered_rolling_std w p x)) s
  | LowZscore w id p, [x] =>
      on_low (with_lowered zscore_lowered_slots id (lowered_zscore w p x)) s
  | LowRollingMin id p, [x] =>
      on_low (with_lowered rolling_min_lowered_slots id (lowered_rolling_min p x)) s
  | LowRollingMax id p, [x] =>
      on_low (with_lowered rolling_max_lowered_slots id (lowered_rolling_max p x)) s
  | LowCrossAbove id, [a; b] =>
      on_low (with_lowered cross_lowered_slots id (lowered_cross fle fgt a b)) s
  | LowCrossBelow id, [a; b] =>
      on_low (with_lowered cross_lowered_slots id (lowered_cross fge flt a b)) s
  | LowKalman1d id q r, [x] =>
      on_low (with_lowered kalman1d_lowered_slots id (lowered_kalman1d q r x)) s
  | LowVwap id p, [bid; ask; vol] =>
      on_low (with_lowered vwap_lowered_slots id (lowered_vwap p bid ask vol)) s
  | LowRollingPair Corr id p, [x; y] =>
      on_low (with_lowered rolling_corr_lowered_slots id (lowered_rolling_pair Corr p x y)) s
  | LowRollingPair Beta id p, [x; y] =>
      on_low (with_lowered rolling_beta_lowered_slots id (lowered_rolling_pair Beta p x y)) s
  | _, _ => bad_call
  end.

Definition step (market : MarketState D) (i : Instr) (s : Machine_state) : Res Machine_state :=
  match i with
  | INeg dst v => d <- read (env s) v;; Ok (set_reg dst (F64 (fopp d)) s)
  | IBin dst op l r =>
      a <- read (env s) l;; b <- read (env s) r;; Ok (set_reg dst (F64 (fbinary op a b)) s)
  | ICmp dst p l r =>
      a <- read (env s) l;; b <- read (env s) r;; Ok (set_reg dst (I1 (predicate p a b)) s)
  | ILogic dst is_and l r =>
      a <- read_bit (env s) l;; b <- read_bit (env s) r;;
      Ok (set_reg dst (I1 (if is_and then a && b else a || b)) s)
  | IUIToFP dst b => b <- read_bit (env s) b;; Ok (set_reg dst (F64 (fbool b)) s)
  | IIntrinsic dst f v => d <- read (env s) v;; Ok (set_reg dst (F64 (intrinsic f d)) s)
  | ILoad dst sym_id f =>
      ins <- at_idx "instruments[sym]" (instruments market) sym_id;;
      Ok (set_reg dst (F64 (read_field f ins)) s)
  | IEffect dst eff args =>
      ds <- read_all (env s) args;;
      '(d, j) <- run_effect market eff ds (js s);;
      Ok (MkState (<[dst := F64 d]> (env s)) j (outputs s))
  | IStore idx v => d <- read (env s) v;; Ok (MkState (env s) (js s) (<[idx := d]> (outputs s)))
  end.

Fixpoint exec (market : MarketState D) (c : Code) (s : Machine_state) : Res Machine_state :=
  match c with
  | Ret => Ok s
  | Seq i k => s <- step market i s;; exec market k s
  | Diamond dst cond t tv e ev k =>
      b <- read_bit (env s) cond;;
      s' <- (if b then exec market t s else exec market e s);;
      d <- read (env s') (if b then tv else ev);;
      exec market k (MkState (<[dst := F64 d]> (env s)) (js s') (outputs s'))
  end.

(** ** Verification *)

Definition uses (v : Value) : list nat := match v with Const _ => [] | Reg r => [r] end.

Definition instr_uses (i : Instr) : list nat :=
  match i with
  | INeg _ v | IIntrinsic _ _ v | IStore _ v => uses v
  | IBin _ _ l r | ICmp _ _ l r => uses l ++ uses r
  | ILogic _ _ l r => [l; r]
  | IUIToFP _ b => [b]
  | ILoad _ _ _ => []
  | IEffect _ _ args => concat (map uses args)
  end.

Definition instr_def (i : Instr) : list nat :=
  match i with
  | INeg dst _ | IIntrinsic dst _ _ | IBin dst _ _ _ | ICmp dst _ _ _ | ILogic dst _ _ _
  | IUIToFP dst _ | ILoad dst _ _ | IEffect dst _ _ => [dst]
  | IStore _ _ => []
  end.

Definition dominated (scope : gset nat) (rs : list nat) : bool :=
  forallb (fun r => bool_decide (r ∈ scope)) rs.

(** The registers that dominate the end of the code, if every use is
    dominated. *)
Fixpoint verify (scope : gset nat) (c : Code) : option (gset nat) :=
  match c with
  | Ret => Some scope
  | Seq i k =>
      if dominated scope (instr_uses i)
      then verify (list_to_set (instr_def i) ∪ scope) k else None
  | Diamond dst cond t tv e ev k =>
      match verify scope t, verify scope e with
      | Some st, Some se =>
          if dominated scope [cond] && dominated st (uses tv) && dominated se (uses ev)
          then verify ({[dst]} ∪ scope) k else None
      | _, _ => None
      end
  end.
End ir.
Arguments Value : clear implicits.
Arguments Effect : clear implicits.
Arguments Instr : clear implicits.
Arguments Code : clear implicits.
Arguments RegValue : clear implicits.
Arguments JitState : clear implicits.
Arguments Machine_state : clear implicits.
