(* ===== verification/JitCompiler.v ===== *)
(** * The JIT compiler (src/src/jit_compiler.h, src/src/jit_compiler.cpp)

    Translation of signal trees to [Code], in scalar mode
    ([lane_count == 1]).  An emitter is a computation in [EmitM] over the
    mutable fields of [CodegenContext]; the instructions the [IRBuilder]
    appends at its insertion point are the code the computation writes, and
    the blocks of a conditional's arms are emitted with an insertion point of
    their own.  The optimiser, the code generator and the bitcode format are
    LLVM's: a compiled function is its [Code]. *)

From stdpp Require Import pretty.
From Stdlib Require Import Ascii.
From S2P Require Import Prelude Errors Arith Ast SymbolTable Rolling Context Interpreter Lowered Ir.

(** ** Flags *)

(** [StatefulLoweringFlags]: a bit mask. *)
Definition kNone : N := 0.
Definition kSma : N := N.shiftl 1 0.
Definition kEma : N := N.shiftl 1 1.
Definition kLag : N := N.shiftl 1 2.
Definition kRollingStd : N := N.shiftl 1 3.
Definition kZscore : N := N.shiftl 1 4.
Definition kRollingMin : N := N.shiftl 1 5.
Definition kRollingMax : N := N.shiftl 1 6.
Definition kVwap : N := N.shiftl 1 7.
Definition kCross : N := N.shiftl 1 8.
Definition kRollingCorr : N := N.shiftl 1 9.
Definition kRollingBeta : N := N.shiftl 1 10.
Definition kKalman1d : N := N.shiftl 1 11.
Definition kAll : N :=
  foldr N.lor 0%N [kSma; kEma; kLag; kRollingStd; kZscore; kRollingMin; kRollingMax; kVwap;
    kCross; kRollingCorr; kRollingBeta; kKalman1d].

Definition HasFlag (v bit : N) : bool := negb (N.land v bit =? 0)%N.

(** The flag a token of the list switches on. *)
Definition flag_of_token (token : string) : N :=
  if (token =? "sma")%string then kSma
  else if (token =? "ema")%string then kEma
  else if (token =? "lag")%string then kLag
  else if (token =? "rolling_std")%string then kRollingStd
  else if (token =? "zscore")%string then kZscore
  else if (token =? "rolling_min")%string then kRollingMin
  else if (token =? "rolling_max")%string then kRollingMax
  else if (token =? "vwap")%string then kVwap
  else if (token =? "cross")%string || (token =? "cross_above")%string ||
          (token =? "cross_below")%string then kCross
  else if (token =? "rolling_corr")%string then kRollingCorr
  else if (token =? "rolling_beta")%string then kRollingBeta
  else if (token =? "kalman1d")%string then kKalman1d
  else kNone.

(** The loop over the characters; [token] holds the current one reversed. *)
Fixpoint parse_flag_list (cs token : list Ascii.ascii) (flags : N) : N :=
  let flush := N.lor flags (flag_of_token (String.string_of_list_ascii (reverse token))) in
  match cs with
  | [] => flush
  | c :: cs' =>
      if (c =? ",")%char || (c =? " ")%char then parse_flag_list cs' [] flush
      else parse_flag_list cs' (c :: token) flags
  end.

(** [ParseStatefulLoweringEnv] of the value of [JITSE_LOWER_STATEFUL]. *)
Definition ParseStatefulLoweringEnv (env : option string) : N :=
  match env with
  | None => kAll
  | Some val =>
      if (val =? "")%string then kAll
      else if (val =? "0")%string || (val =? "off")%string || (val =? "OFF")%string ||
              (val =? "false")%string || (val =? "none")%string then kNone
      else if (val =? "1")%string || (val =? "all")%string || (val =? "ALL")%string then kAll
      else parse_flag_list (String.list_ascii_of_string val) [] kNone
  end.

Section compiler.
Context {D L : Type} `{Machine D L}.

(** ** Program analyses *)

Definition threshold_op (name : string) : bool :=
  (name =? "sma")%string || (name =? "ema")%string || (name =? "ema_alpha")%string ||
  (name =? "lag")%string || (name =? "rolling_std")%string || (name =? "rolling_min")%string ||
  (name =? "rolling_max")%string || (name =? "zscore")%string || (name =? "vwap")%string.

(** What a call asks for; [static_cast<std::int64_t>] of a literal a program
    can contain is as for [int]. *)
Definition call_threshold (name : string) (args : list (Expr D)) : Z :=
  if threshold_op name then
    match args with
    | _ :: p :: _ =>
        if (name =? "ema_alpha")%string then 1
        else match p with
             | NumberLiteral _ value =>
                 if (name =? "ema")%string then 1 else default 0%Z (to_int value)
             | _ => 0
             end
    | _ => 0
    end
  else 0.

(** The lambda [walk] of [ComputeProgramWarmupThreshold]. *)
Fixpoint warmup_walk (expr : Expr D) (threshold : Z) : Z :=
  match expr with
  | NumberLiteral _ _ | IdentifierExpr _ _ | ParameterExpr _ _ _ => threshold
  | UnaryOp _ _ x => warmup_walk x threshold
  | BinaryOp _ _ l r => warmup_walk r (warmup_walk l threshold)
  | Conditional _ c t e => warmup_walk e (warmup_walk t (warmup_walk c threshold))
  | FunctionCall _ name args _ _ =>
      foldl (fun threshold a => warmup_walk a threshold)
        (Z.max (call_threshold name args) threshold) args
  end.

Definition ComputeProgramWarmupThreshold (signals : list (SignalDef D)) : Z :=
  foldl (fun threshold s => warmup_walk (sig_body s) threshold) 0%Z signals.

(** The calls evaluated on every tick.  The source collects the addresses of
    the nodes; here a call is known by its node id: calls that share an id are
    equal trees, of which the compiler emits only the first. *)
Fixpoint warm_safe_walk (expr : Expr D) (conditional_depth : nat) : gset Z :=
  match expr with
  | NumberLiteral _ _ | IdentifierExpr _ _ | ParameterExpr _ _ _ => ∅
  | UnaryOp _ _ x => warm_safe_walk x conditional_depth
  | BinaryOp _ _ l r =>
      warm_safe_walk l conditional_depth ∪ warm_safe_walk r conditional_depth
  | Conditional _ c t e =>
      warm_safe_walk c conditional_depth ∪
      (warm_safe_walk t (S conditional_depth) ∪ warm_safe_walk e (S conditional_depth))
  | FunctionCall _ name args node_id _ =>
      let stateful_lowered :=
        (name =? "sma")%string || (name =? "ema")%string || (name =? "lag")%string in
      (if stateful_lowered && (conditional_depth =? 0) then {[node_id]} else ∅) ∪
      ⋃ (map (fun a => warm_safe_walk a conditional_depth) args)
  end.

Definition CollectWarmSafeStatefulCalls (signals : list (SignalDef D)) : gset Z :=
  ⋃ (map (fun s => warm_safe_walk (sig_body s) 0) signals).

(** ** The codegen context *)

(** The fields that do not change while a function is emitted. *)
Record Config := MkConfig {
  symbols : SymbolTable; lowering : N; use_avx2 : bool;
  assume_warm : bool; warm_safe_calls : gset Z }.

(** The fields that do, and the number of the next register. *)
Record Codegen := MkCodegen {
  next_reg : nat;
  program_market_field_cache : gmap Z (Value D);
  stateful_emit_cache : gmap Z (Value D);
  signal_values : gmap string (Value D);
  next_node_id : Z }.

Definition Codegen_init : Codegen := MkCodegen 0 ∅ ∅ ∅ 1.

Definition EmitM (A : Type) : Type := Codegen -> Res (A * Code D * Codegen).

Definition ret {A} (a : A) : EmitM A := fun cg => Ok (a, Ret, cg).
Definition throw {A} (msg : string) : EmitM A := fun _ => Err (RuntimeError msg).
Definition lift {A} (r : Res A) : EmitM A := fun cg => rmap (fun a => (a, Ret, cg)) r.

Definition bindE {A B} (m : EmitM A) (f : A -> EmitM B) : EmitM B := fun cg =>
  '(a, c1, cg) <- m cg;; '(b, c2, cg) <- f a cg;; Ok (b, capp c1 c2, cg).

Local Notation "x <~ m ;; k" := (bindE m (fun x => k))
  (at level 20, m at level 99, k at level 200, right associativity).

Definition fresh : EmitM nat := fun cg =>
  Ok (next_reg cg, Ret,
      MkCodegen (S (next_reg cg)) (program_market_field_cache cg) (stateful_emit_cache cg)
        (signal_values cg) (next_node_id cg)).
Definition emit (i : Instr D) : EmitM () := fun cg => Ok (tt, Seq i Ret, cg).

(** An instruction with a new register for its result. *)
Definition build_reg (mk : nat -> Instr D) : EmitM nat :=
  dst <~ fresh;; _ <~ emit (mk dst);; ret dst.
Definition build (mk : nat -> Instr D) : EmitM (Value D) :=
  dst <~ build_reg mk;; ret (Reg dst).

Definition CreateFNeg v := build (fun dst => INeg dst v).
Definition CreateFBin op l r := build (fun dst => IBin dst op l r).
Definition CreateFCmp p l r := build_reg (fun dst => ICmp dst p l r).
Definition CreateUIToFP b := build (fun dst => IUIToFP dst b).
Definition CreateIntrinsic f v := build (fun dst => IIntrinsic dst f v).
Definition CreateCall eff args := build (fun dst => IEffect dst eff args).

Definition SplatConst (d : D) : Value D := Const d.

(** ** Market loads *)

Definition MarketFieldCacheKey (sym_id : nat) (field_index : Z) : Z :=
  Z.lor (Z.shiftl (Z.of_nat sym_id) 2) field_index.

(** Both scalar entry points set [use_program_market_cache]. *)
Definition EmitMarketFieldLoad (sym_id : nat) (f : Field) : EmitM (Value D) := fun cg =>
  let cache_key := MarketFieldCacheKey sym_id (field_index f) in
  match program_market_field_cache cg !! cache_key with
  | Some v => Ok (v, Ret, cg)
  | None =>
      '(v, c, cg) <- build (fun dst => ILoad dst sym_id f) cg;;
      Ok (v, c, MkCodegen (next_reg cg) (<[cache_key := v]> (program_market_field_cache cg))
                  (stateful_emit_cache cg) (signal_values cg) (next_node_id cg))
  end.

Section emit.
Variable cfg : Config.

(** ** Node ids *)

(** A call without an id gets the next one; that the id is also written to
    the tree is not modelled, a call being emitted once. *)
Definition GetNodeId (node_id : Z) : EmitM Z := fun cg =>
  if (0 <? node_id)%Z then Ok (node_id, Ret, cg)
  else Ok (next_node_id cg, Ret,
           MkCodegen (next_reg cg) (program_market_field_cache cg) (stateful_emit_cache cg)
             (signal_values cg) (next_node_id cg + 1)).

(** The lambda [cache_stateful]. *)
Definition cache_stateful (node_id : Z) (v : Value D) : EmitM (Value D) := fun cg =>
  Ok (v, Ret,
      if (0 <? node_id)%Z
      then MkCodegen (next_reg cg) (program_market_field_cache cg)
             (<[node_id := v]> (stateful_emit_cache cg)) (signal_values cg) (next_node_id cg)
      else cg).

Definition has_flag (bit : N) : bool := HasFlag (lowering cfg) bit.

(** [assume_warm && warm_safe_calls.count(fn) > 0]. *)
Definition warm (node_id : Z) : bool :=
  assume_warm cfg && bool_decide (node_id ∈ warm_safe_calls cfg).

(** The checks on a window argument, in the order of the source. *)
Definition window_period (expr : Expr D) (fn_name : string) : EmitM nat :=
  match expr with
  | NumberLiteral _ value =>
      match to_int value with
      | None => lift (Err (Undefined "static_cast<int>"))
      | Some period =>
          if period_ok value period then ret (Z.to_nat period)
          else throw (fn_name +:+ "() period must be positive integer")
      end
  | _ => throw (fn_name +:+ "() period must be numeric literal")
  end.

Definition ticker_slot (expr : Expr D) (symbol_id : Z) (msg : string) : EmitM nat :=
  match expr with
  | IdentifierExpr _ name =>
      if (0 <=? symbol_id)%Z then ret (Z.to_nat symbol_id)
      else lift (LookupId (symbols cfg) name)
  | _ => throw msg
  end.

(** ** Calls *)

Section calls.
Variable EmitChild : Expr D -> EmitM (Value D).

(** [mid], [bid], [ask] and [spread]. *)
Definition EmitQuote (fn_name : string) (args : list (Expr D)) (symbol_id : Z)
  : EmitM (Value D) :=
  match args with
  | [a] =>
      sym_id <~ ticker_slot a symbol_id (fn_name +:+ "() argument must be ticker identifier");;
      if (fn_name =? "bid")%string then EmitMarketFieldLoad sym_id FBid
      else if (fn_name =? "ask")%string then EmitMarketFieldLoad sym_id FAsk
      else if (fn_name =? "mid")%string then
        bid <~ EmitMarketFieldLoad sym_id FBid;;
        ask <~ EmitMarketFieldLoad sym_id FAsk;;
        sum <~ CreateFBin FAdd bid ask;;
        CreateFBin FMul sum (SplatConst (flit 5 1))
      else
        bid <~ EmitMarketFieldLoad sym_id FBid;;
        ask <~ EmitMarketFieldLoad sym_id FAsk;;
        CreateFBin FSub ask bid
  | _ => throw (fn_name +:+ "() expects exactly one argument")
  end.

Definition EmitVwap (args : list (Expr D)) (node_id symbol_id : Z) : EmitM (Value D) :=
  match args with
  | [t; p] =>
      match t with
      | IdentifierExpr _ _ =>
          period <~ window_period p "vwap";;
          sym_id <~ ticker_slot t symbol_id "vwap() first arg must be ticker identifier";;
          id <~ GetNodeId node_id;;
          v <~ (if has_flag kVwap then
                  bid <~ EmitMarketFieldLoad sym_id FBid;;
                  ask <~ EmitMarketFieldLoad sym_id FAsk;;
                  vol_raw <~ EmitMarketFieldLoad sym_id FVolume;;
                  CreateCall (LowVwap id period) [bid; ask; vol_raw]
                else CreateCall (RtVwap id (Z.of_nat sym_id) period) []);;
          cache_stateful id v
      | _ => throw "vwap() first arg must be ticker identifier"
      end
  | _ => throw "vwap() expects two args"
  end.

Definition EmitMath (fn_name : string) (f : Intrinsic) (args : list (Expr D))
  : EmitM (Value D) :=
  match args with
  | [e] => x <~ EmitChild e;; CreateIntrinsic f x
  | _ => throw (fn_name +:+ "() expects one argument")
  end.

Definition EmitEmaAlpha (args : list (Expr D)) (node_id : Z) : EmitM (Value D) :=
  match args with
  | [e; a] =>
      x <~ EmitChild e;;
      alpha <~ EmitChild a;;
      id <~ GetNodeId node_id;;
      v <~ CreateCall (RtEmaAlpha id 0) [x; alpha];;
      cache_stateful id v
  | _ => throw "ema_alpha() expects two args"
  end.

(** The operators over one window: which effect is emitted. *)
Definition window_effect (fn_name : string) (id : Z) (period : nat) (x : Value D)
  : Effect D * list (Value D) :=
  if (fn_name =? "ema")%string then
    if has_flag kEma then (LowEma (warm id) id period, [x])
    else (RtEmaAlpha id period, [x; Const (ema_alpha_of period)])
  else if (fn_name =? "sma")%string then
    if has_flag kSma then (LowSma (warm id) id period, [x])
    else if negb (use_avx2 cfg) || (period <? 4) then (RtSma id period, [x])
    else (SmaSimd id period, [x])
  else if (fn_name =? "rolling_std")%string then
    (if has_flag kRollingStd then LowRollingStd (warm id) id period else RtRollingStd id period, [x])
  else if (fn_name =? "zscore")%string then
    (if has_flag kZscore then LowZscore (warm id) id period else RtZscore id period, [x])
  else if (fn_name =? "lag")%string then
    (if has_flag kLag then LowLag (warm id) id period else RtLag id period, [x])
  else if (fn_name =? "rolling_min")%string then
    (if has_flag kRollingMin then LowRollingMin id period else RtRollingMin id period, [x])
  else (if has_flag kRollingMax then LowRollingMax id period else RtRollingMax id period, [x]).

Definition EmitWindow (fn_name : string) (args : list (Expr D)) (node_id : Z)
  : EmitM (Value D) :=
  match args with
  | [e; p] =>
      period <~ window_period p fn_name;;
      if ((fn_name =? "rolling_std")%string || (fn_name =? "zscore")%string) && (period <? 2) then
        throw (fn_name +:+ "() requires period >= 2 (sample standard deviation of one sample " +:+
               "is mathematically undefined)")
      else
        x <~ EmitChild e;;
        id <~ GetNodeId node_id;;
        let '(eff, vs) := window_effect fn_name id period x in
        v <~ CreateCall eff vs;;
        cache_stateful id v
  | _ => throw (fn_name +:+ "() expects two args")
  end.

Definition EmitCross (fn_name : string) (args : list (Expr D)) (node_id : Z)
  : EmitM (Value D) :=
  match args with
  | [ea; eb] =>
      a <~ EmitChild ea;;
      b <~ EmitChild eb;;
      id <~ GetNodeId node_id;;
      let above := (fn_name =? "cross_above")%string in
      v <~ CreateCall
             (if has_flag kCross then if above then LowCrossAbove id else LowCrossBelow id
              else if above then RtCrossAbove id else RtCrossBelow id) [a; b];;
      cache_stateful id v
  | _ => throw (fn_name +:+ "() expects two args")
  end.

Definition EmitPair (fn_name : string) (args : list (Expr D)) (node_id : Z)
  : EmitM (Value D) :=
  match args with
  | [ex; ey; p] =>
      period <~ window_period p fn_name;;
      x <~ EmitChild ex;;
      y <~ EmitChild ey;;
      id <~ GetNodeId node_id;;
      v <~ CreateCall
             (if (fn_name =? "rolling_corr")%string then
                if has_flag kRollingCorr then LowRollingPair Corr id period
                else RtRollingCorr id period
              else if has_flag kRollingBeta then LowRollingPair Beta id period
              else RtRollingBeta id period) [x; y];;
      cache_stateful id v
  | _ => throw (fn_name +:+ "() expects three args: " +:+ fn_name +:+ "(x, y, period)")
  end.

(** [q] and [r] of a filter that can be lowered. *)
Definition can_lower_kalman (eq er : Expr D) : option (D * D) :=
  match eq, er with
  | NumberLiteral _ q, NumberLiteral _ r =>
      if fge q (fint 0) && fgt r (fint 0) then Some (q, r) else None
  | _, _ => None
  end.

Definition EmitKalman1d (args : list (Expr D)) (node_id : Z) : EmitM (Value D) :=
  match args with
  | [ex; eq; er] =>
      x <~ EmitChild ex;;
      q_v <~ EmitChild eq;;
      r_v <~ EmitChild er;;
      id <~ GetNodeId node_id;;
      v <~ (match can_lower_kalman eq er with
            | Some (q, r) =>
                if has_flag kKalman1d then CreateCall (LowKalman1d id q r) [x]
                else CreateCall (RtKalman1d id) [x; q_v; r_v]
            | None => CreateCall (RtKalman1d id) [x; q_v; r_v]
            end);;
      cache_stateful id v
  | _ => throw "kalman1d() expects three args: kalman1d(x, q, r)"
  end.

(** The chain of name tests of [EmitExpr]. *)
Definition EmitCall (name : string) (args : list (Expr D)) (node_id symbol_id : Z)
  : EmitM (Value D) :=
  if (name =? "mid")%string || (name =? "bid")%string || (name =? "ask")%string ||
     (name =? "spread")%string then EmitQuote name args symbol_id
  else if (name =? "vwap")%string then EmitVwap args node_id symbol_id
  else if (name =? "abs")%string then EmitMath "abs" IntrinsicFabs args
  else if (name =? "sqrt")%string then EmitMath "sqrt" IntrinsicSqrt args
  else if (name =? "log")%string then EmitMath "log" IntrinsicLog args
  else if (name =? "ema_alpha")%string then EmitEmaAlpha args node_id
  else if (name =? "ema")%string || (name =? "sma")%string || (name =? "rolling_std")%string ||
          (name =? "zscore")%string || (name =? "lag")%string ||
          (name =? "rolling_min")%string || (name =? "rolling_max")%string
  then EmitWindow name args node_id
  else if (name =? "cross_above")%string || (name =? "cross_below")%string
  then EmitCross name args node_id
  else if (name =? "rolling_corr")%string || (name =? "rolling_beta")%string
  then EmitPair name args node_id
  else if (name =? "kalman1d")%string then EmitKalman1d args node_id
  else throw ("Unsupported function in JIT: " +:+ name).
End calls.

(** ** Expressions *)

Definition EmitBinary (kind : BinaryOpKind) (l r : Value D) : EmitM (Value D) :=
  let cmp p l r := c <~ CreateFCmp p l r;; CreateUIToFP c in
  let distance p := d <~ CreateFBin FSub l r;; ad <~ CreateIntrinsic IntrinsicFabs d;;
                    cmp p ad (SplatConst (flit 1 12)) in
  let logic is_and :=
    lnz <~ CreateFCmp UNE l (SplatConst (fint 0));;
    rnz <~ CreateFCmp UNE r (SplatConst (fint 0));;
    b <~ build_reg (fun dst => ILogic dst is_and lnz rnz);;
    CreateUIToFP b in
  match kind with
  | Add => CreateFBin FAdd l r
  | Sub => CreateFBin FSub l r
  | Mul => CreateFBin FMul l r
  | Div => CreateFBin FDiv l r
  | Gt => cmp OGT l r
  | Lt => cmp OLT l r
  | Gte => cmp OGE l r
  | Lte => cmp OLE l r
  | Eq => distance OLT
  | NotEq => distance OGE
  | And => logic true
  | Or => logic false
  end.

(** The code a computation writes, apart. *)
Definition in_block {A} (m : EmitM A) : EmitM (A * Code D) := fun cg =>
  '(a, c, cg) <- m cg;; Ok ((a, c), Ret, cg).

Fixpoint EmitExpr (expr : Expr D) : EmitM (Value D) :=
  match expr with
  | NumberLiteral _ value => ret (SplatConst value)
  | ParameterExpr _ name param_id =>
      if (param_id <? 0)%Z then throw ("Unresolved parameter in JIT expression: " +:+ name)
      else CreateCall (RtParam param_id) []
  | UnaryOp _ kind operand =>
      v <~ EmitExpr operand;;
      match kind with Plus => ret v | Minus => CreateFNeg v end
  | BinaryOp _ kind left_ right_ =>
      l <~ EmitExpr left_;;
      r <~ EmitExpr right_;;
      EmitBinary kind l r
  | Conditional _ condition then_branch else_branch =>
      cond_v <~ EmitExpr condition;;
      cond_b <~ CreateFCmp UNE cond_v (Const (fint 0));;
      t <~ in_block (EmitExpr then_branch);;
      e <~ in_block (EmitExpr else_branch);;
      phi <~ fresh;;
      fun cg => Ok (Reg phi, Diamond phi cond_b (snd t) (fst t) (snd e) (fst e) Ret, cg)
  | FunctionCall _ name args node_id symbol_id => fun cg =>
      match (if (0 <? node_id)%Z then stateful_emit_cache cg !! node_id else None) with
      | Some v => Ok (v, Ret, cg)
      | None => EmitCall EmitExpr name args node_id symbol_id cg
      end
  | IdentifierExpr _ name => fun cg =>
      match signal_values cg !! name with
      | Some v => Ok (v, Ret, cg)
      | None => Err (RuntimeError ("Unresolved identifier in JIT expression: " +:+ name))
      end
  end.
End emit.

(** ** Functions *)

(** The order in which a range-for visits an [unordered_set] is unspecified:
    [hash_order] lists the elements of the set made of a list. *)
Variable hash_order : forall A, list A -> list A.
Arguments hash_order {A}.

Fixpoint for_each {A} (f : A -> EmitM ()) (l : list A) : EmitM () :=
  match l with
  | [] => ret tt
  | a :: l' => _ <~ f a;; for_each f l'
  end.

Fixpoint lookup_all (t : SymbolTable) (tickers : list string) : Res (list nat) :=
  match tickers with
  | [] => Ok []
  | s :: rest => id <- LookupId t s;; rmap (cons id) (lookup_all t rest)
  end.

Definition PrewarmProgramMarketLoads (cfg : Config) (signals : list (SignalDef D)) : EmitM () :=
  sym_ids <~ lift (lookup_all (symbols cfg)
               (concat (map (fun s => hash_order (CollectTickerSymbols s)) signals)));;
  for_each (fun sym_id =>
    _ <~ EmitMarketFieldLoad sym_id FBid;;
    _ <~ EmitMarketFieldLoad sym_id FAsk;;
    ret tt) (hash_order sym_ids).

(** The loop over the signals of a program. *)
Fixpoint emit_signals (cfg : Config) (i : nat) (signals : list (SignalDef D)) : EmitM () :=
  match signals with
  | [] => ret tt
  | s :: rest =>
      value <~ EmitExpr cfg (sig_body s);;
      _ <~ (fun cg => Ok (tt, Ret,
              MkCodegen (next_reg cg) (program_market_field_cache cg) (stateful_emit_cache cg)
                (<[sig_name s := value]> (signal_values cg)) (next_node_id cg)));;
      _ <~ emit (IStore i value);;
      emit_signals cfg (S i) rest
  end.

Definition EmitProgram (cfg : Config) (signals : list (SignalDef D)) : EmitM () :=
  _ <~ PrewarmProgramMarketLoads cfg signals;; emit_signals cfg 0 signals.

(** The body of a single signal's function; its result is output 0. *)
Definition EmitSignal (cfg : Config) (signal : SignalDef D) : EmitM () :=
  _ <~ for_each (fun ticker =>
         sym_id <~ lift (LookupId (symbols cfg) ticker);;
         _ <~ EmitMarketFieldLoad sym_id FBid;;
         _ <~ EmitMarketFieldLoad sym_id FAsk;;
         _ <~ EmitMarketFieldLoad sym_id FVolume;;
         ret tt) (hash_order (CollectTickerSymbols signal));;
  v <~ EmitExpr cfg (sig_body signal);;
  emit (IStore 0 v).

(** Emission and [verifyFunction]; an exception is caught and its message
    becomes [last_error]. *)
Definition build_function (m : EmitM ()) (verify_error : string) : Res (Code D) :=
  '(_, code, _) <- m Codegen_init;;
  match verify ∅ code with
  | Some _ => Ok code
  | None => Err (RuntimeError verify_error)
  end.

(** A call of a compiled program: the outputs it writes and the new state. *)
Definition run_program (market : MarketState D) (code : Code D) (s : JitState D L)
  : Res (gmap nat D * JitState D L) :=
  s' <- exec market code (MkState ∅ s ∅);; Ok (outputs s', js s').
End compiler.
