(* ===== verification/VectorCompiler.v ===== *)
(** * The vectorised mode of the compiler (src/src/jit_compiler.cpp)

    [CompileProgramVectorized] emits one function that evaluates a program
    for [lane_count] symbols at once: every [double] becomes a vector with one
    element per lane.  The code is straight-line: a conditional is a [select]
    between its two arms.  An operator with state cannot work on vectors; it
    is fanned out ([EmitScalarizedFanOut]): for each lane the context of the
    lane's symbol is looked up, the operands' elements are extracted, the
    scalar call or the scalar lowered code is emitted and its result inserted.

    An instruction of [Ir] that LLVM also has on vectors is [VLanewise]; a
    constant operand of it is a splat. *)

From S2P Require Import Prelude Errors Arith Ast SymbolTable Rolling Context Interpreter JitRuntime Lowered Ir JitCompiler.

Section ir.
Context {D L : Type} `{Machine D L}.

(** ** Code *)

Inductive VInstr :=
| VLanewise (i : Instr D)
| VSelect (dst mask : nat) (t e : Value D)
| VUndef (dst : nat)
| VInsert (dst vec : nat) (x : Value D) (lane : nat)
| VExtract (dst : nat) (v : Value D) (lane : nat)
| VLaneCtx (dst lane : nat)
| VLaneLoad (dst lane sym_id : nat) (f : Field)
| VLaneCall (dst lane_ctx lane : nat) (eff : Effect D) (args : list (Value D))
| VStore (idx : nat) (v : Value D).

(** ** Meaning *)

(** An element is [None] in a vector that is still [undef] there. *)
Inductive VRegValue :=
| VF64 (d : D)
| VVec (ds : list (option D))
| VMask (bs : list bool)
| VCtx (symbol_id : nat).

Record VState := MkVState {
  venv : gmap nat VRegValue;
  arena : list (JitState D L);
  voutputs : gmap nat D }.

Definition set_vreg (dst : nat) (v : VRegValue) (s : VState) : VState :=
  MkVState (<[dst := v]> (venv s)) (arena s) (voutputs s).

(** The arguments of the function: the markets of the lanes and the first
    symbol. *)
Variable lane_count : nat.
Variable per_lane_market : list (MarketState D).
Variable base_symbol : nat.

Definition elements (env : gmap nat VRegValue) (v : Value D) : Res (list (option D)) :=
  match v with
  | Const d => Ok (replicate lane_count (Some d))
  | Reg r => match env !! r with Some (VVec ds) => Ok ds | _ => Err (Undefined "register") end
  end.
Definition vread (env : gmap nat VRegValue) (v : Value D) : Res (list D) :=
  ds <- elements env v;;
  match mapM id ds with Some ds => Ok ds | None => Err (Undefined "undef") end.
Definition vread_mask (env : gmap nat VRegValue) (r : nat) : Res (list bool) :=
  match env !! r with Some (VMask bs) => Ok bs | _ => Err (Undefined "register") end.
Definition vread_scalar (env : gmap nat VRegValue) (v : Value D) : Res D :=
  match v with
  | Const d => Ok d
  | Reg r => match env !! r with Some (VF64 d) => Ok d | _ => Err (Undefined "register") end
  end.
Fixpoint vread_scalars (env : gmap nat VRegValue) (vs : list (Value D)) : Res (list D) :=
  match vs with
  | [] => Ok []
  | v :: vs' => d <- vread_scalar env v;; rmap (cons d) (vread_scalars env vs')
  end.

Definition vec (ds : list D) : VRegValue := VVec (map Some ds).

Definition lanewise_step (i : Instr D) (s : VState) : Res VState :=
  match i with
  | INeg dst v => ds <- vread (venv s) v;; Ok (set_vreg dst (vec (map fopp ds)) s)
  | IBin dst op l r =>
      a <- vread (venv s) l;; b <- vread (venv s) r;;
      Ok (set_vreg dst (vec (zip_with (fbinary op) a b)) s)
  | ICmp dst p l r =>
      a <- vread (venv s) l;; b <- vread (venv s) r;;
      Ok (set_vreg dst (VMask (zip_with (predicate p) a b)) s)
  | ILogic dst is_and l r =>
      a <- vread_mask (venv s) l;; b <- vread_mask (venv s) r;;
      Ok (set_vreg dst (VMask (zip_with (fun x y => if is_and then x && y else x || y) a b)) s)
  | IUIToFP dst b => bs <- vread_mask (venv s) b;; Ok (set_vreg dst (vec (map fbool bs)) s)
  | IIntrinsic dst f v => ds <- vread (venv s) v;; Ok (set_vreg dst (vec (map (intrinsic f) ds)) s)
  | ILoad _ _ _ | IEffect _ _ _ | IStore _ _ => Err (Undefined "vector instruction")
  end.

(** [base_symbol + lane] in 32 bits. *)
Definition lane_symbol (lane : nat) : nat :=
  Z.to_nat ((Z.of_nat base_symbol + Z.of_nat lane) mod 2 ^ 32).

(** [jit_rt_symbol_ctx]; the contexts hold their lowered structs. *)
Definition symbol_state (s : VState) (symbol_id : nat) : Res (JitState D L) :=
  match arena s !! symbol_id with Some j => Ok j | None => Err (RuntimeError "vector::at") end.

Definition lane_field (lane sym_id : nat) (f : Field) : Res D :=
  market <- at_idx "per_lane_market[lane]" per_lane_market lane;;
  ins <- at_idx "instruments[sym]" (instruments market) sym_id;;
  Ok (read_field f ins).

Definition vstep (i : VInstr) (s : VState) : Res VState :=
  match i with
  | VLanewise i => lanewise_step i s
  | VSelect dst mask t e =>
      bs <- vread_mask (venv s) mask;; ts <- vread (venv s) t;; es <- vread (venv s) e;;
      Ok (set_vreg dst (vec (zip_with (fun (b : bool) te => if b then te.1 else te.2) bs (zip ts es))) s)
  | VUndef dst => Ok (set_vreg dst (VVec (replicate lane_count None)) s)
  | VInsert dst v x lane =>
      ds <- elements (venv s) (Reg v);; d <- vread_scalar (venv s) x;;
      Ok (set_vreg dst (VVec (<[lane := Some d]> ds)) s)
  | VExtract dst v lane =>
      ds <- elements (venv s) v;;
      match ds !! lane with
      | Some (Some d) => Ok (set_vreg dst (VF64 d) s)
      | _ => Err (Undefined "undef")
      end
  | VLaneCtx dst lane =>
      _ <- symbol_state s (lane_symbol lane);; Ok (set_vreg dst (VCtx (lane_symbol lane)) s)
  | VLaneLoad dst lane sym_id f => d <- lane_field lane sym_id f;; Ok (set_vreg dst (VF64 d) s)
  | VLaneCall dst lane_ctx lane eff args =>
      match venv s !! lane_ctx with
      | Some (VCtx symbol_id) =>
          j <- symbol_state s symbol_id;;
          market <- at_idx "per_lane_market[lane]" per_lane_market lane;;
          ds <- vread_scalars (venv s) args;;
          '(d, j) <- run_effect market eff ds j;;
          Ok (MkVState (<[dst := VF64 d]> (venv s)) (<[symbol_id := j]> (arena s)) (voutputs s))
      | _ => Err (Undefined "register")
      end
  | VStore idx v =>
      ds <- vread (venv s) v;;
      Ok (MkVState (venv s) (arena s) (map_seq (idx * lane_count) ds ∪ voutputs s))
  end.

Fixpoint vexec (c : list VInstr) (s : VState) : Res VState :=
  match c with
  | [] => Ok s
  | i :: c' => s <- vstep i s;; vexec c' s
  end.

(** ** Verification *)

Definition vinstr_uses (i : VInstr) : list nat :=
  match i with
  | VLanewise i => instr_uses i
  | VSelect _ mask t e => mask :: uses t ++ uses e
  | VUndef _ | VLaneCtx _ _ | VLaneLoad _ _ _ _ => []
  | VInsert _ v x _ => v :: uses x
  | VExtract _ v _ | VStore _ v => uses v
  | VLaneCall _ lane_ctx _ _ args => lane_ctx :: concat (map uses args)
  end.
Definition vinstr_def (i : VInstr) : list nat :=
  match i with
  | VLanewise i => instr_def i
  | VSelect dst _ _ _ | VUndef dst | VInsert dst _ _ _ | VExtract dst _ _ | VLaneCtx dst _
  | VLaneLoad dst _ _ _ | VLaneCall dst _ _ _ _ => [dst]
  | VStore _ _ => []
  end.

Fixpoint vverify (scope : gset nat) (c : list VInstr) : bool :=
  match c with
  | [] => true
  | i :: c' =>
      dominated scope (vinstr_uses i) && vverify (list_to_set (vinstr_def i) ∪ scope) c'
  end.
End ir.
Arguments VInstr : clear implicits.
Arguments VRegValue : clear implicits.
Arguments VState : clear implicits.
Arguments MkVState {D L}.
Arguments venv {D L}.
Arguments arena {D L}.
Arguments voutputs {D L}.

Section compiler.
Context {D L : Type} `{Machine D L}.

(** ** The emission monad of this mode *)

Definition EmitV (A : Type) : Type := Codegen (D:=D) -> Res (A * list (VInstr D) * Codegen (D:=D)).

Definition vret {A} (a : A) : EmitV A := fun cg => Ok (a, [], cg).
Definition vthrow {A} (msg : string) : EmitV A := fun _ => Err (RuntimeError msg).
Definition vbind {A B} (m : EmitV A) (f : A -> EmitV B) : EmitV B := fun cg =>
  '(a, c1, cg) <- m cg;; '(b, c2, cg) <- f a cg;; Ok (b, c1 ++ c2, cg).

Local Notation "x <~ m ;; k" := (vbind m (fun x => k))
  (at level 20, m at level 99, k at level 200, right associativity).

(** An emitter that is written once for both modes. *)
Fixpoint straight (c : Code D) : Res (list (VInstr D)) :=
  match c with
  | Ret => Ok []
  | Seq i k => rmap (cons (VLanewise i)) (straight k)
  | Diamond _ _ _ _ _ _ _ => Err (Undefined "branch in vector code")
  end.
Definition lanewise {A} (m : EmitM A) : EmitV A := fun cg =>
  '(a, c, cg) <- m cg;; c <- straight c;; Ok (a, c, cg).

Definition vbuild_reg (mk : nat -> VInstr D) : EmitV nat := fun cg =>
  '(dst, _, cg) <- fresh cg;; Ok (dst, [mk dst], cg).
Definition vbuild (mk : nat -> VInstr D) : EmitV (Value D) :=
  dst <~ vbuild_reg mk;; vret (Reg dst).
Definition vemit (i : VInstr D) : EmitV () := fun cg => Ok (tt, [i], cg).

(** ** Lanes *)

Variable lane_count : nat.

(** The loop that inserts one result per lane, from [lane] on. *)
Fixpoint insert_lanes (n lane : nat) (build_lane : nat -> EmitV (Value D)) (result : nat)
  : EmitV (Value D) :=
  match n with
  | 0 => vret (Reg result)
  | S n' =>
      x <~ build_lane lane;;
      result <~ vbuild_reg (fun dst => VInsert dst result x lane);;
      insert_lanes n' (S lane) build_lane result
  end.
Definition per_lane (build_lane : nat -> EmitV (Value D)) : EmitV (Value D) :=
  undef <~ vbuild_reg VUndef;; insert_lanes lane_count 0 build_lane undef.

Definition EmitScalarizedFanOut (build_per_lane_call : nat -> nat -> EmitV (Value D))
  : EmitV (Value D) :=
  per_lane (fun lane =>
    lane_ctx <~ vbuild_reg (fun dst => VLaneCtx dst lane);;
    build_per_lane_call lane lane_ctx).

(** An element of a splat is a constant. *)
Definition ExtractLane (v : Value D) (lane : nat) : EmitV (Value D) :=
  match v with
  | Const _ => vret v
  | Reg _ => vbuild (fun dst => VExtract dst v lane)
  end.
Fixpoint ExtractLanes (vs : list (Value D)) (lane : nat) : EmitV (list (Value D)) :=
  match vs with
  | [] => vret []
  | v :: vs' => x <~ ExtractLane v lane;; xs <~ ExtractLanes vs' lane;; vret (x :: xs)
  end.

(** The lambda most operators pass: the operands' elements, and the call. *)
Definition lane_call (eff : Effect D) (vs : list (Value D)) (lane lane_ctx : nat) : EmitV (Value D) :=
  xs <~ ExtractLanes vs lane;;
  vbuild (fun dst => VLaneCall dst lane_ctx lane eff xs).

Definition EmitMarketFieldLoadVectorized (sym_id : nat) (f : Field) : EmitV (Value D) := fun cg =>
  let cache_key := MarketFieldCacheKey sym_id (field_index f) in
  match program_market_field_cache cg !! cache_key with
  | Some v => Ok (v, [], cg)
  | None =>
      '(v, c, cg) <- per_lane (fun lane => vbuild (fun dst => VLaneLoad dst lane sym_id f)) cg;;
      Ok (v, c, MkCodegen (next_reg cg) (<[cache_key := v]> (program_market_field_cache cg))
                  (stateful_emit_cache cg) (signal_values cg) (next_node_id cg))
  end.

(** What a [LaneEmitScope] makes of [EmitMarketFieldLoad]: the scalar load
    from the lane's market, without the cache. *)
Definition lane_load (lane sym_id : nat) (f : Field) : EmitV (Value D) :=
  vbuild (fun dst => VLaneLoad dst lane sym_id f).

(** [EmitLoweredVwap] in a [LaneEmitScope]. *)
Definition lane_lowered_vwap (id : Z) (sym_id period lane lane_ctx : nat) : EmitV (Value D) :=
  bid <~ lane_load lane sym_id FBid;;
  ask <~ lane_load lane sym_id FAsk;;
  vol_raw <~ lane_load lane sym_id FVolume;;
  vbuild (fun dst => VLaneCall dst lane_ctx lane (LowVwap id period) [bid; ask; vol_raw]).

Section emit.
Variable cfg : Config.

(** ** Calls *)

Section calls.
Variable EmitChild : Expr D -> EmitV (Value D).

Definition EmitQuoteVectorized (fn_name : string) (args : list (Expr D)) (symbol_id : Z)
  : EmitV (Value D) :=
  match args with
  | [a] =>
      sym_id <~ lanewise (ticker_slot cfg a symbol_id (fn_name +:+ "() argument must be ticker identifier"));;
      if (fn_name =? "bid")%string then EmitMarketFieldLoadVectorized sym_id FBid
      else if (fn_name =? "ask")%string then EmitMarketFieldLoadVectorized sym_id FAsk
      else if (fn_name =? "mid")%string then
        bid <~ EmitMarketFieldLoadVectorized sym_id FBid;;
        ask <~ EmitMarketFieldLoadVectorized sym_id FAsk;;
        sum <~ lanewise (CreateFBin FAdd bid ask);;
        lanewise (CreateFBin FMul sum (SplatConst (flit 5 1)))
      else
        bid <~ EmitMarketFieldLoadVectorized sym_id FBid;;
        ask <~ EmitMarketFieldLoadVectorized sym_id FAsk;;
        lanewise (CreateFBin FSub ask bid)
  | _ => vthrow (fn_name +:+ "() expects exactly one argument")
  end.

Definition EmitVwapVectorized (args : list (Expr D)) (node_id symbol_id : Z) : EmitV (Value D) :=
  match args with
  | [t; p] =>
      match t with
      | IdentifierExpr _ _ =>
          period <~ lanewise (window_period p "vwap");;
          sym_id <~ lanewise (ticker_slot cfg t symbol_id "vwap() first arg must be ticker identifier");;
          id <~ lanewise (GetNodeId node_id);;
          v <~ EmitScalarizedFanOut
                 (if has_flag cfg kVwap then lane_lowered_vwap id sym_id period
                  else lane_call (RtVwap id (Z.of_nat sym_id) period) []);;
          lanewise (cache_stateful id v)
      | _ => vthrow "vwap() first arg must be ticker identifier"
      end
  | _ => vthrow "vwap() expects two args"
  end.

Definition EmitMathVectorized (fn_name : string) (f : Intrinsic) (args : list (Expr D))
  : EmitV (Value D) :=
  match args with
  | [e] => x <~ EmitChild e;; lanewise (CreateIntrinsic f x)
  | _ => vthrow (fn_name +:+ "() expects one argument")
  end.

Definition EmitEmaAlphaVectorized (args : list (Expr D)) (node_id : Z) : EmitV (Value D) :=
  match args with
  | [e; a] =>
      x <~ EmitChild e;;
      alpha <~ EmitChild a;;
      id <~ lanewise (GetNodeId node_id);;
      v <~ EmitScalarizedFanOut (lane_call (RtEmaAlpha id 0) [x; alpha]);;
      lanewise (cache_stateful id v)
  | _ => vthrow "ema_alpha() expects two args"
  end.

(** The lambda [lowered_flag_for], and the effect of each lane. *)
Definition lowered_flag_for (fn_name : string) : N :=
  if (fn_name =? "sma")%string then kSma
  else if (fn_name =? "ema")%string then kEma
  else if (fn_name =? "lag")%string then kLag
  else if (fn_name =? "rolling_std")%string then kRollingStd
  else if (fn_name =? "zscore")%string then kZscore
  else if (fn_name =? "rolling_min")%string then kRollingMin
  else if (fn_name =? "rolling_max")%string then kRollingMax
  else kNone.

Definition lane_window_effect (fn_name : string) (id : Z) (period : nat) (x : Value D)
  : Effect D * list (Value D) :=
  if has_flag cfg (lowered_flag_for fn_name) then
    (if (fn_name =? "ema")%string then LowEma (warm cfg id) id period
     else if (fn_name =? "sma")%string then LowSma (warm cfg id) id period
     else if (fn_name =? "lag")%string then LowLag (warm cfg id) id period
     else if (fn_name =? "rolling_std")%string then LowRollingStd (warm cfg id) id period
     else if (fn_name =? "zscore")%string then LowZscore (warm cfg id) id period
     else if (fn_name =? "rolling_min")%string then LowRollingMin id period
     else LowRollingMax id period, [x])
  else if (fn_name =? "ema")%string then (RtEmaAlpha id period, [x; Const (ema_alpha_of period)])
  else
    (if (fn_name =? "sma")%string then RtSma id period
     else if (fn_name =? "rolling_std")%string then RtRollingStd id period
     else if (fn_name =? "zscore")%string then RtZscore id period
     else if (fn_name =? "lag")%string then RtLag id period
     else if (fn_name =? "rolling_min")%string then RtRollingMin id period
     else RtRollingMax id period, [x]).

Definition EmitWindowVectorized (fn_name : string) (args : list (Expr D)) (node_id : Z)
  : EmitV (Value D) :=
  match args with
  | [e; p] =>
      period <~ lanewise (window_period p fn_name);;
      if ((fn_name =? "rolling_std")%string || (fn_name =? "zscore")%string) && (period <? 2) then
        vthrow (fn_name +:+ "() requires period >= 2 (sample standard deviation of one sample " +:+
                "is mathematically undefined)")
      else
        x <~ EmitChild e;;
        id <~ lanewise (GetNodeId node_id);;
        let '(eff, vs) := lane_window_effect fn_name id period x in
        v <~ EmitScalarizedFanOut (lane_call eff vs);;
        lanewise (cache_stateful id v)
  | _ => vthrow (fn_name +:+ "() expects two args")
  end.

Definition EmitCrossVectorized (fn_name : string) (args : list (Expr D)) (node_id : Z)
  : EmitV (Value D) :=
  match args with
  | [ea; eb] =>
      a <~ EmitChild ea;;
      b <~ EmitChild eb;;
      id <~ lanewise (GetNodeId node_id);;
      let above := (fn_name =? "cross_above")%string in
      v <~ EmitScalarizedFanOut (lane_call
             (if has_flag cfg kCross then if above then LowCrossAbove id else LowCrossBelow id
              else if above then RtCrossAbove id else RtCrossBelow id) [a; b]);;
      lanewise (cache_stateful id v)
  | _ => vthrow (fn_name +:+ "() expects two args")
  end.

Definition EmitPairVectorized (fn_name : string) (args : list (Expr D)) (node_id : Z)
  : EmitV (Value D) :=
  match args with
  | [ex; ey; p] =>
      period <~ lanewise (window_period p fn_name);;
      x <~ EmitChild ex;;
      y <~ EmitChild ey;;
      id <~ lanewise (GetNodeId node_id);;
      v <~ EmitScalarizedFanOut (lane_call
             (if (fn_name =? "rolling_corr")%string then
                if has_flag cfg kRollingCorr then LowRollingPair Corr id period
                else RtRollingCorr id period
              else if has_flag cfg kRollingBeta then LowRollingPair Beta id period
              else RtRollingBeta id period) [x; y]);;
      lanewise (cache_stateful id v)
  | _ => vthrow (fn_name +:+ "() expects three args: " +:+ fn_name +:+ "(x, y, period)")
  end.

Definition EmitKalman1dVectorized (args : list (Expr D)) (node_id : Z) : EmitV (Value D) :=
  match args with
  | [ex; eq; er] =>
      x <~ EmitChild ex;;
      q_v <~ EmitChild eq;;
      r_v <~ EmitChild er;;
      id <~ lanewise (GetNodeId node_id);;
      v <~ EmitScalarizedFanOut
             (match can_lower_kalman eq er with
              | Some (q, r) =>
                  if has_flag cfg kKalman1d then lane_call (LowKalman1d id q r) [x]
                  else lane_call (RtKalman1d id) [x; q_v; r_v]
              | None => lane_call (RtKalman1d id) [x; q_v; r_v]
              end);;
      lanewise (cache_stateful id v)
  | _ => vthrow "kalman1d() expects three args: kalman1d(x, q, r)"
  end.

Definition EmitCallVectorized (name : string) (args : list (Expr D)) (node_id symbol_id : Z)
  : EmitV (Value D) :=
  if (name =? "mid")%string || (name =? "bid")%string || (name =? "ask")%string ||
     (name =? "spread")%string then EmitQuoteVectorized name args symbol_id
  else if (name =? "vwap")%string then EmitVwapVectorized args node_id symbol_id
  else if (name =? "abs")%string then EmitMathVectorized "abs" IntrinsicFabs args
  else if (name =? "sqrt")%string then EmitMathVectorized "sqrt" IntrinsicSqrt args
  else if (name =? "log")%string then EmitMathVectorized "log" IntrinsicLog args
  else if (name =? "ema_alpha")%string then EmitEmaAlphaVectorized args node_id
  else if (name =? "ema")%string || (name =? "sma")%string || (name =? "rolling_std")%string ||
          (name =? "zscore")%string || (name =? "lag")%string ||
          (name =? "rolling_min")%string || (name =? "rolling_max")%string
  then EmitWindowVectorized name args node_id
  else if (name =? "cross_above")%string || (name =? "cross_below")%string
  then EmitCrossVectorized name args node_id
  else if (name =? "rolling_corr")%string || (name =? "rolling_beta")%string
  then EmitPairVectorized name args node_id
  else if (name =? "kalman1d")%string then EmitKalman1dVectorized args node_id
  else vthrow ("Unsupported function in JIT: " +:+ name).
End calls.

(** ** Expressions *)

Fixpoint EmitExprVectorized (expr : Expr D) : EmitV (Value D) :=
  match expr with
  | NumberLiteral _ value => vret (SplatConst value)
  | ParameterExpr _ name param_id =>
      if (param_id <? 0)%Z then vthrow ("Unresolved parameter in JIT expression: " +:+ name)
      else EmitScalarizedFanOut (lane_call (RtParam param_id) [])
  | UnaryOp _ kind operand =>
      v <~ EmitExprVectorized operand;;
      match kind with Plus => vret v | Minus => lanewise (CreateFNeg v) end
  | BinaryOp _ kind left_ right_ =>
      l <~ EmitExprVectorized left_;;
      r <~ EmitExprVectorized right_;;
      lanewise (EmitBinary kind l r)
  | Conditional _ condition then_branch else_branch =>
      cond_v <~ EmitExprVectorized condition;;
      cond_mask <~ lanewise (CreateFCmp UNE cond_v (SplatConst (fint 0)));;
      then_v <~ EmitExprVectorized then_branch;;
      else_v <~ EmitExprVectorized else_branch;;
      vbuild (fun dst => VSelect dst cond_mask then_v else_v)
  | FunctionCall _ name args node_id symbol_id => fun cg =>
      match (if (0 <? node_id)%Z then stateful_emit_cache cg !! node_id else None) with
      | Some v => Ok (v, [], cg)
      | None => EmitCallVectorized EmitExprVectorized name args node_id symbol_id cg
      end
  | IdentifierExpr _ name => fun cg =>
      match signal_values cg !! name with
      | Some v => Ok (v, [], cg)
      | None => Err (RuntimeError ("Unresolved identifier in JIT expression: " +:+ name))
      end
  end.
End emit.

(** ** Functions *)

Variable hash_order : forall A, list A -> list A.
Arguments hash_order {A}.

Fixpoint vfor_each {A} (f : A -> EmitV ()) (l : list A) : EmitV () :=
  match l with
  | [] => vret tt
  | a :: l' => _ <~ f a;; vfor_each f l'
  end.

Definition PrewarmProgramMarketLoadsVectorized (cfg : Config) (signals : list (SignalDef D)) : EmitV () :=
  sym_ids <~ lanewise (JitCompiler.lift (lookup_all (symbols cfg)
               (concat (map (fun s => hash_order (CollectTickerSymbols s)) signals))));;
  vfor_each (fun sym_id =>
    _ <~ EmitMarketFieldLoadVectorized sym_id FBid;;
    _ <~ EmitMarketFieldLoadVectorized sym_id FAsk;;
    vret tt) (hash_order sym_ids).

(** The loop over the signals: signal [i] is stored from [i * lane_count]
    on. *)
Fixpoint emit_signals_vectorized (cfg : Config) (i : nat) (signals : list (SignalDef D)) : EmitV () :=
  match signals with
  | [] => vret tt
  | s :: rest =>
      value <~ EmitExprVectorized cfg (sig_body s);;
      _ <~ (fun cg => Ok (tt, [],
              MkCodegen (next_reg cg) (program_market_field_cache cg) (stateful_emit_cache cg)
                (<[sig_name s := value]> (signal_values cg)) (next_node_id cg)));;
      _ <~ vemit (VStore i value);;
      emit_signals_vectorized cfg (S i) rest
  end.

Definition EmitProgramVectorized (cfg : Config) (signals : list (SignalDef D)) : EmitV () :=
  _ <~ PrewarmProgramMarketLoadsVectorized cfg signals;; emit_signals_vectorized cfg 0 signals.

(** [CompileProgramVectorizedImpl] as far as [verifyFunction]. *)
Definition CompileProgramVectorizedImpl (signals : list (SignalDef D)) (symbols : SymbolTable)
    (lowering : N) (has_avx2 : bool) : Res (list (VInstr D)) :=
  ensure (negb (length signals =? 0))
    (RuntimeError "CompileProgramVectorized requires at least one signal") ;;;
  ensure ((lane_count =? 2) || (lane_count =? 4) || (lane_count =? 8))
    (RuntimeError "CompileProgramVectorized: lane_count must be 2, 4, or 8") ;;;
  '(_, code, _) <- EmitProgramVectorized (MkConfig symbols lowering has_avx2 false ∅) signals Codegen_init;;
  if vverify ∅ code then Ok code
  else Err (RuntimeError "LLVM verifyFunction failed (program vec)").
End compiler.

(** A call of a compiled function: the outputs it writes and the arena. *)
Definition run_vectorized {D L} `{Machine D L} (lane_count : nat) (per_lane_market : list (MarketState D))
  (base_symbol : nat) (code : list (VInstr D)) (arena_ : list (JitState D L))
  : Res (gmap nat D * list (JitState D L)) :=
  s <- vexec lane_count per_lane_market base_symbol code (MkVState ∅ arena_ ∅);;
  Ok (voutputs s, arena s).
