(* ===== verification/GradientCompiler.v ===== *)
(** * The gradient mode of the compiler (src/src/jit_compiler.cpp)

    [CompileProgramGradient] emits, for every tree, a value and its
    derivative with respect to the parameter whose number is an argument of
    the function.  Its code is that of [Ir] with the instructions only this
    mode uses: the comparison of the parameter's number, [select], the calls
    of the gradient entry points, which return two numbers, the stores to the
    array of gradients, and conditionals with two phis.  An emitter of the
    scalar mode is used through [scalar].  Where the source passes two
    builder calls as arguments of one call, C++ leaves their order open; the
    value's is taken to be first.  [fn->args[i]] of a call with fewer
    arguments is [Undefined]. *)

From S2P Require Import Prelude Errors Arith Ast SymbolTable Rolling Context Interpreter JitRuntime Gradient Lowered Ir JitCompiler.

Section ir.
Context {D L : Type} `{Machine D L}.

(** ** Code *)

(** The gradient entry points, with the constants of the call site. *)
Inductive GradEffect :=
| GrEmaAlpha (node_id : Z) (period : nat)
| GrSma (node_id : Z) (period : nat)
| GrLag (node_id : Z) (period : nat)
| GrRollingStd (node_id : Z) (period : nat)
| GrZscore (node_id : Z) (period : nat)
| GrRollingMin (node_id : Z) (period : nat)
| GrRollingMax (node_id : Z) (period : nat)
| GrRollingCorr (node_id : Z) (period : nat)
| GrRollingBeta (node_id : Z) (period : nat)
| GrKalman1d (node_id : Z)
| GrCrossAbove (node_id : Z)
| GrCrossBelow (node_id : Z).

(** [GCall] defines two registers: the result, and what the load from
    [grad_ptr] behind the call returns. *)
Inductive GInstr :=
| GScalar (c : Code D)
| GParamEq (dst : nat) (param_id : Z)
| GSelect (dst b : nat) (x y : Value D)
| GCall (dst gdst : nat) (eff : GradEffect) (args : list (Value D))
| GStoreGradient (idx : nat) (v : Value D).

Inductive GCode :=
| GRet
| GSeq (i : GInstr) (k : GCode)
| GDiamond (dst gdst cond : nat) (then_bb : GCode) (then_v then_g : Value D)
    (else_bb : GCode) (else_v else_g : Value D) (k : GCode).

Fixpoint gapp (a b : GCode) : GCode :=
  match a with
  | GRet => b
  | GSeq i k => GSeq i (gapp k b)
  | GDiamond dst gdst c t tv tg e ev eg k => GDiamond dst gdst c t tv tg e ev eg (gapp k b)
  end.

(** ** Meaning *)

(** [param_id] is the function's argument of that name. *)
Definition run_grad_effect (param_id : Z) (eff : GradEffect) (args : list D) (c : SignalContext D L)
  : Res ((D * D) * SignalContext D L) :=
  match eff, args with
  | GrEmaAlpha id p, [x; xg; a; ag] => jit_rt_ema_alpha_grad id x xg a ag (Z.of_nat p) param_id c
  | GrSma id p, [x; xg] => jit_rt_sma_grad id x xg (Z.of_nat p) param_id c
  | GrLag id p, [x; xg] => jit_rt_lag_grad id x xg (Z.of_nat p) param_id c
  | GrRollingStd id p, [x; xg] => jit_rt_rolling_std_grad id x xg (Z.of_nat p) param_id c
  | GrZscore id p, [x; xg] => jit_rt_zscore_grad id x xg (Z.of_nat p) param_id c
  | GrRollingMin id p, [x; xg] => jit_rt_rolling_min_grad id x xg (Z.of_nat p) param_id c
  | GrRollingMax id p, [x; xg] => jit_rt_rolling_max_grad id x xg (Z.of_nat p) param_id c
  | GrRollingCorr id p, [x; xg; y; yg] => jit_rt_rolling_corr_grad id x xg y yg (Z.of_nat p) param_id c
  | GrRollingBeta id p, [x; xg; y; yg] => jit_rt_rolling_beta_grad id x xg y yg (Z.of_nat p) param_id c
  | GrKalman1d id, [x; xg; q; qg; r; rg] => jit_rt_kalman1d_grad id x xg q qg r rg param_id c
  | GrCrossAbove id, [a; b] => jit_rt_cross_above_grad id a b param_id c
  | GrCrossBelow id, [a; b] => jit_rt_cross_below_grad id a b param_id c
  | _, _ => bad_call
  end.

(** The scalar state, and the array of gradients as far as it is written. *)
Record GradMachine := MkGradMachine { gm : Machine_state D L; gradients : gmap nat D }.

Definition set_gm (m : Machine_state D L) (s : GradMachine) : GradMachine :=
  MkGradMachine m (gradients s).

Definition gstep (market : MarketState D) (param_id : Z) (i : GInstr) (s : GradMachine)
  : Res GradMachine :=
  let m := gm s in
  match i with
  | GScalar c => rmap (fun m => set_gm m s) (exec market c m)
  | GParamEq dst id => Ok (set_gm (set_reg dst (I1 (param_id =? id)%Z) m) s)
  | GSelect dst b x y =>
      bit <- read_bit (env m) b;; dx <- read (env m) x;; dy <- read (env m) y;;
      Ok (set_gm (set_reg dst (F64 (if bit then dx else dy)) m) s)
  | GCall dst gdst eff args =>
      ds <- read_all (env m) args;;
      '(v, g, c) <- run_grad_effect param_id eff ds (js_ctx (js m));;
      Ok (set_gm (MkState (<[gdst := F64 g]> (<[dst := F64 v]> (env m))) (MkJit c (js_low (js m)))
                    (outputs m)) s)
  | GStoreGradient idx v =>
      d <- read (env m) v;; Ok (MkGradMachine m (<[idx := d]> (gradients s)))
  end.

Fixpoint gexec (market : MarketState D) (param_id : Z) (c : GCode) (s : GradMachine) : Res GradMachine :=
  match c with
  | GRet => Ok s
  | GSeq i k => s <- gstep market param_id i s;; gexec market param_id k s
  | GDiamond dst gdst cond t tv tg e ev eg k =>
      b <- read_bit (env (gm s)) cond;;
      s' <- (if b then gexec market param_id t s else gexec market param_id e s);;
      d <- read (env (gm s')) (if b then tv else ev);;
      g <- read (env (gm s')) (if b then tg else eg);;
      gexec market param_id k
        (MkGradMachine (MkState (<[gdst := F64 g]> (<[dst := F64 d]> (env (gm s)))) (js (gm s'))
           (outputs (gm s'))) (gradients s'))
  end.

(** ** Verification *)

Definition ginstr_uses (i : GInstr) : list nat :=
  match i with
  | GScalar _ | GParamEq _ _ => []
  | GSelect _ b x y => b :: uses x ++ uses y
  | GCall _ _ _ args => concat (map uses args)
  | GStoreGradient _ v => uses v
  end.
Definition ginstr_def (i : GInstr) : list nat :=
  match i with
  | GScalar _ | GStoreGradient _ _ => []
  | GParamEq dst _ | GSelect dst _ _ _ => [dst]
  | GCall dst gdst _ _ => [dst; gdst]
  end.

Fixpoint gverify (scope : gset nat) (c : GCode) : option (gset nat) :=
  match c with
  | GRet => Some scope
  | GSeq i k =>
      match (match i with GScalar c => verify scope c | _ => Some scope end) with
      | Some scope =>
          if dominated scope (ginstr_uses i)
          then gverify (list_to_set (ginstr_def i) ∪ scope) k else None
      | None => None
      end
  | GDiamond dst gdst cond t tv tg e ev eg k =>
      match gverify scope t, gverify scope e with
      | Some st, Some se =>
          if dominated scope [cond] && dominated st (uses tv ++ uses tg) &&
             dominated se (uses ev ++ uses eg)
          then gverify ({[dst; gdst]} ∪ scope) k else None
      | _, _ => None
      end
  end.
End ir.
Arguments GInstr : clear implicits.
Arguments GCode : clear implicits.
Arguments GradMachine : clear implicits.

Section compiler.
Context {D L : Type} `{Machine D L}.

(** ** The codegen context of this mode *)

Record ValueGradientIr := MkVGIr { ir_value : Value D; ir_gradient : Value D }.

Record GradCodegen := MkGradCodegen {
  gc : Codegen (D:=D);
  stateful_grad_emit_cache : gmap Z ValueGradientIr;
  signal_value_gradients : gmap string ValueGradientIr }.

Definition GradCodegen_init : GradCodegen := MkGradCodegen Codegen_init ∅ ∅.

Definition EmitG (A : Type) : Type := GradCodegen -> Res (A * GCode D * GradCodegen).

Definition gret {A} (a : A) : EmitG A := fun g => Ok (a, GRet, g).
Definition gthrow {A} (msg : string) : EmitG A := fun _ => Err (RuntimeError msg).
Definition gbind {A B} (m : EmitG A) (f : A -> EmitG B) : EmitG B := fun g =>
  '(a, c1, g) <- m g;; '(b, c2, g) <- f a g;; Ok (b, gapp c1 c2, g).

Local Notation "x <~ m ;; k" := (gbind m (fun x => k))
  (at level 20, m at level 99, k at level 200, right associativity).

(** An emitter of the scalar mode. *)
Definition scalar {A} (m : EmitM A) : EmitG A := fun g =>
  '(a, c, cg) <- m (gc g);;
  Ok (a, GSeq (GScalar c) GRet,
      MkGradCodegen cg (stateful_grad_emit_cache g) (signal_value_gradients g)).

Definition gemit (i : GInstr D) : EmitG () := fun g => Ok (tt, GSeq i GRet, g).

Definition CreateICmpEQ (param_id : Z) : EmitG nat :=
  dst <~ scalar fresh;; _ <~ gemit (GParamEq dst param_id);; gret dst.
Definition CreateSelect (b : nat) (x y : Value D) : EmitG (Value D) :=
  dst <~ scalar fresh;; _ <~ gemit (GSelect dst b x y);; gret (Reg dst).

(** The lambdas [call_grad_helper] and [cache_stateful]. *)
Definition call_grad_helper (eff : GradEffect) (args : list (Value D)) : EmitG ValueGradientIr :=
  dst <~ scalar fresh;; gdst <~ scalar fresh;;
  _ <~ gemit (GCall dst gdst eff args);; gret (MkVGIr (Reg dst) (Reg gdst)).
Definition grad_cache_stateful (node_id : Z) (vg : ValueGradientIr) : EmitG ValueGradientIr := fun g =>
  Ok (vg, GRet,
      if (0 <? node_id)%Z
      then MkGradCodegen (gc g) (<[node_id := vg]> (stateful_grad_emit_cache g)) (signal_value_gradients g)
      else g).

Definition zero : Value D := Const (fint 0).

(** ** Operators without state *)

Definition EmitGradUnary (kind : UnaryOpKind) (x : ValueGradientIr) : EmitG ValueGradientIr :=
  match kind with
  | Plus => gret x
  | Minus =>
      v <~ scalar (CreateFNeg (ir_value x));;
      g <~ scalar (CreateFNeg (ir_gradient x));;
      gret (MkVGIr v g)
  end.

(** The comparisons and the logical operators are emitted as in the scalar
    mode. *)
Definition EmitGradBinary (kind : BinaryOpKind) (l r : ValueGradientIr) : EmitG ValueGradientIr :=
  let '(MkVGIr lv lg) := l in
  let '(MkVGIr rv rg) := r in
  value <~ scalar (EmitBinary kind lv rv);;
  match kind with
  | Add => g <~ scalar (CreateFBin FAdd lg rg);; gret (MkVGIr value g)
  | Sub => g <~ scalar (CreateFBin FSub lg rg);; gret (MkVGIr value g)
  | Mul =>
      gl <~ scalar (CreateFBin FMul lg rv);;
      gr <~ scalar (CreateFBin FMul lv rg);;
      g <~ scalar (CreateFBin FAdd gl gr);; gret (MkVGIr value g)
  | Div =>
      num_l <~ scalar (CreateFBin FMul lg rv);;
      num_r <~ scalar (CreateFBin FMul lv rg);;
      num <~ scalar (CreateFBin FSub num_l num_r);;
      den <~ scalar (CreateFBin FMul rv rv);;
      g <~ scalar (CreateFBin FDiv num den);; gret (MkVGIr value g)
  | _ => gret (MkVGIr value zero)
  end.

Definition EmitGradAbs (x : ValueGradientIr) : EmitG ValueGradientIr :=
  pos <~ scalar (CreateFCmp OGT (ir_value x) zero);;
  neg <~ scalar (CreateFCmp OLT (ir_value x) zero);;
  sign_neg <~ CreateSelect neg (Const (fint (-1))) zero;;
  sign <~ CreateSelect pos (Const (fint 1)) sign_neg;;
  v <~ scalar (CreateIntrinsic IntrinsicFabs (ir_value x));;
  g <~ scalar (CreateFBin FMul sign (ir_gradient x));;
  gret (MkVGIr v g).
Definition EmitGradLog (x : ValueGradientIr) : EmitG ValueGradientIr :=
  v <~ scalar (CreateIntrinsic IntrinsicLog (ir_value x));;
  g <~ scalar (CreateFBin FDiv (ir_gradient x) (ir_value x));;
  gret (MkVGIr v g).
Definition EmitGradSqrt (x : ValueGradientIr) : EmitG ValueGradientIr :=
  root <~ scalar (CreateIntrinsic IntrinsicSqrt (ir_value x));;
  denom <~ scalar (CreateFBin FMul (Const (fint 2)) root);;
  g <~ scalar (CreateFBin FDiv (ir_gradient x) denom);;
  gret (MkVGIr root g).

(** ** Calls *)

Section calls.
Variable cfg : Config.
Variable EmitChild : Expr D -> EmitG ValueGradientIr.

Definition gmissing {A} (i : string) : EmitG A := fun _ => Err (Undefined ("fn->args[" +:+ i +:+ "]")).
Definition garg0 {A} (args : list (Expr D)) (k : Expr D -> EmitG A) : EmitG A :=
  match args with e :: _ => k e | _ => gmissing "0" end.
Definition garg1 {A} (args : list (Expr D)) (k : Expr D -> EmitG A) : EmitG A :=
  match args with _ :: e :: _ => k e | _ => gmissing "1" end.
Definition garg2 {A} (args : list (Expr D)) (k : Expr D -> EmitG A) : EmitG A :=
  match args with _ :: _ :: e :: _ => k e | _ => gmissing "2" end.

(** The call of the entry point and the entry in the cache. *)
Definition EmitGradCall (node_id : Z) (eff : Z -> GradEffect) (args : list (Value D))
  : EmitG ValueGradientIr :=
  id <~ scalar (GetNodeId node_id);;
  vg <~ call_grad_helper (eff id) args;;
  grad_cache_stateful node_id vg.

Definition EmitGradMath (f : ValueGradientIr -> EmitG ValueGradientIr) (args : list (Expr D))
  : EmitG ValueGradientIr :=
  garg0 args (fun e => x <~ EmitChild e;; f x).

Definition EmitGradEmaAlpha (args : list (Expr D)) (node_id : Z) : EmitG ValueGradientIr :=
  garg0 args (fun ex => x <~ EmitChild ex;;
    garg1 args (fun ea => alpha <~ EmitChild ea;;
      EmitGradCall node_id (fun id => GrEmaAlpha id 0)
        [ir_value x; ir_gradient x; ir_value alpha; ir_gradient alpha])).

Definition EmitGradEma (args : list (Expr D)) (node_id : Z) : EmitG ValueGradientIr :=
  garg1 args (fun p => period <~ scalar (window_period p "ema");;
    garg0 args (fun e => x <~ EmitChild e;;
      EmitGradCall node_id (fun id => GrEmaAlpha id period)
        [ir_value x; ir_gradient x; Const (ema_alpha_of period); zero])).

Definition window_grad_effect (name : string) (id : Z) (period : nat) : GradEffect :=
  if (name =? "lag")%string then GrLag id period
  else if (name =? "rolling_std")%string then GrRollingStd id period
  else if (name =? "zscore")%string then GrZscore id period
  else if (name =? "rolling_min")%string then GrRollingMin id period
  else if (name =? "rolling_max")%string then GrRollingMax id period
  else GrSma id period.

Definition EmitGradWindow (name : string) (args : list (Expr D)) (node_id : Z)
  : EmitG ValueGradientIr :=
  garg1 args (fun p => period <~ scalar (window_period p name);;
    if ((name =? "rolling_std")%string || (name =? "zscore")%string) && (period <? 2)
    then gthrow (name +:+ "() requires period >= 2 (sample standard deviation of one sample " +:+
                 "is mathematically undefined)")
    else garg0 args (fun e => x <~ EmitChild e;;
      EmitGradCall node_id (fun id => window_grad_effect name id period)
        [ir_value x; ir_gradient x])).

Definition EmitGradPair (name : string) (args : list (Expr D)) (node_id : Z)
  : EmitG ValueGradientIr :=
  garg2 args (fun p => period <~ scalar (window_period p name);;
    garg0 args (fun ex => x <~ EmitChild ex;;
      garg1 args (fun ey => y <~ EmitChild ey;;
        EmitGradCall node_id
          (fun id => if (name =? "rolling_corr")%string then GrRollingCorr id period
                     else GrRollingBeta id period)
          [ir_value x; ir_gradient x; ir_value y; ir_gradient y]))).

Definition EmitGradKalman1d (args : list (Expr D)) (node_id : Z) : EmitG ValueGradientIr :=
  garg0 args (fun ex => x <~ EmitChild ex;;
    garg1 args (fun eq => q <~ EmitChild eq;;
      garg2 args (fun er => r <~ EmitChild er;;
        EmitGradCall node_id GrKalman1d
          [ir_value x; ir_gradient x; ir_value q; ir_gradient q; ir_value r; ir_gradient r]))).

Definition EmitGradCross (name : string) (args : list (Expr D)) (node_id : Z)
  : EmitG ValueGradientIr :=
  garg0 args (fun ea => a <~ EmitChild ea;;
    garg1 args (fun eb => b <~ EmitChild eb;;
      EmitGradCall node_id
        (fun id => if (name =? "cross_above")%string then GrCrossAbove id else GrCrossBelow id)
        [ir_value a; ir_value b])).

(** The chain of name tests; [EmitExpr] is called on the whole quote. *)
Definition EmitGradFunction (quote : EmitM (Value D)) (name : string) (args : list (Expr D)) (node_id : Z)
  : EmitG ValueGradientIr :=
  if (name =? "mid")%string || (name =? "bid")%string || (name =? "ask")%string ||
     (name =? "spread")%string then v <~ scalar quote;; gret (MkVGIr v zero)
  else if (name =? "abs")%string then EmitGradMath EmitGradAbs args
  else if (name =? "log")%string then EmitGradMath EmitGradLog args
  else if (name =? "sqrt")%string then EmitGradMath EmitGradSqrt args
  else if (name =? "ema_alpha")%string then EmitGradEmaAlpha args node_id
  else if (name =? "ema")%string then EmitGradEma args node_id
  else if (name =? "sma")%string || (name =? "lag")%string || (name =? "rolling_std")%string ||
          (name =? "zscore")%string || (name =? "rolling_min")%string ||
          (name =? "rolling_max")%string then EmitGradWindow name args node_id
  else if (name =? "rolling_corr")%string || (name =? "rolling_beta")%string
  then EmitGradPair name args node_id
  else if (name =? "kalman1d")%string then EmitGradKalman1d args node_id
  else if (name =? "cross_above")%string || (name =? "cross_below")%string
  then EmitGradCross name args node_id
  else gthrow ("Unsupported function in JIT gradient: " +:+ name).
End calls.

(** ** Expressions *)

Definition gin_block {A} (m : EmitG A) : EmitG (A * GCode D) := fun g =>
  '(a, c, g) <- m g;; Ok ((a, c), GRet, g).

Fixpoint EmitValueGradientExpr (cfg : Config) (expr : Expr D) : EmitG ValueGradientIr :=
  match expr with
  | NumberLiteral _ value => gret (MkVGIr (Const value) zero)
  | ParameterExpr _ name param_id =>
      if (param_id <? 0)%Z
      then gthrow ("Unresolved parameter in JIT gradient expression: " +:+ name)
      else
        value <~ scalar (CreateCall (RtParam param_id) []);;
        eq <~ CreateICmpEQ param_id;;
        g <~ scalar (CreateUIToFP eq);;
        gret (MkVGIr value g)
  | IdentifierExpr _ name => fun g =>
      match signal_value_gradients g !! name with
      | Some vg => Ok (vg, GRet, g)
      | None => Err (RuntimeError ("Unresolved identifier in JIT gradient expression: " +:+ name))
      end
  | UnaryOp _ kind operand =>
      inner <~ EmitValueGradientExpr cfg operand;; EmitGradUnary kind inner
  | BinaryOp _ kind left_ right_ =>
      l <~ EmitValueGradientExpr cfg left_;;
      r <~ EmitValueGradientExpr cfg right_;;
      EmitGradBinary kind l r
  | Conditional _ condition then_branch else_branch =>
      cond <~ EmitValueGradientExpr cfg condition;;
      cond_b <~ scalar (CreateFCmp UNE (ir_value cond) (Const (fint 0)));;
      t <~ gin_block (EmitValueGradientExpr cfg then_branch);;
      e <~ gin_block (EmitValueGradientExpr cfg else_branch);;
      phi <~ scalar fresh;;
      gphi <~ scalar fresh;;
      fun g => Ok (MkVGIr (Reg phi) (Reg gphi),
        GDiamond phi gphi cond_b (snd t) (ir_value (fst t)) (ir_gradient (fst t))
          (snd e) (ir_value (fst e)) (ir_gradient (fst e)) GRet, g)
  | FunctionCall _ name args node_id symbol_id => fun g =>
      match (if (0 <? node_id)%Z then stateful_grad_emit_cache g !! node_id else None) with
      | Some vg => Ok (vg, GRet, g)
      | None => EmitGradFunction (EmitValueGradientExpr cfg) (EmitExpr cfg expr) name args node_id g
      end
  end.

(** ** Programs *)

Variable hash_order : forall A, list A -> list A.

Fixpoint emit_gradient_signals (cfg : Config) (i : nat) (signals : list (SignalDef D)) : EmitG () :=
  match signals with
  | [] => gret tt
  | s :: rest =>
      vg <~ EmitValueGradientExpr cfg (sig_body s);;
      _ <~ (fun g => Ok (tt, GRet,
              MkGradCodegen
                (MkCodegen (next_reg (gc g)) (program_market_field_cache (gc g))
                   (stateful_emit_cache (gc g)) (<[sig_name s := ir_value vg]> (signal_values (gc g)))
                   (next_node_id (gc g)))
                (stateful_grad_emit_cache g)
                (<[sig_name s := vg]> (signal_value_gradients g))));;
      _ <~ scalar (emit (IStore i (ir_value vg)));;
      _ <~ gemit (GStoreGradient i (ir_gradient vg));;
      emit_gradient_signals cfg (S i) rest
  end.

Definition EmitGradientProgram (cfg : Config) (signals : list (SignalDef D)) : EmitG () :=
  _ <~ scalar (PrewarmProgramMarketLoads hash_order cfg signals);;
  emit_gradient_signals cfg 0 signals.

Definition build_gradient_function (m : EmitG ()) (verify_error : string) : Res (GCode D) :=
  '(_, code, _) <- m GradCodegen_init;;
  match gverify ∅ code with
  | Some _ => Ok code
  | None => Err (RuntimeError verify_error)
  end.

(** A call of a compiled gradient program: the two arrays it writes, and the
    new state. *)
Definition run_gradient_program (market : MarketState D) (param_id : Z) (code : GCode D)
  (s : JitState D L) : Res (gmap nat D * gmap nat D * JitState D L) :=
  s' <- gexec market param_id code (MkGradMachine (MkState ∅ s ∅) ∅);;
  Ok (outputs (gm s'), gradients s', js (gm s')).
End compiler.
Arguments ValueGradientIr : clear implicits.
Arguments GradCodegen : clear implicits.
