(* ===== verification/Calibration.v ===== *)
(** * Fitting a program's parameters (src/cli/jitse_calibrate.cpp)

    The calibrator reads a program and a table of ticks with targets, compiles
    the program's gradient and runs Adam on the mean squared error of one of
    its signals.  The command line, the CSV files and the reports are not
    modelled; [std::pow] is the C library's. *)

From S2P Require Import Prelude Errors Arith Ast SymbolTable SignalProgram Rolling Context Interpreter JitRuntime Gradient Lowered Ir JitCompiler GradientCompiler.

(** [std::isfinite]: [x - x] is a NaN for infinities and NaNs only. *)
Definition isfinite {T} `{Fp T} (x : T) : bool := negb (fisnan (x - x)%fp).

(** [for (...) { ... }] over a list, with the loop's variables as a state. *)
Fixpoint for_each {A S} (f : A -> S -> Res S) (l : list A) (s : S) : Res S :=
  match l with
  | [] => Ok s
  | a :: l' => s <- f a s;; for_each f l' s
  end.

Record CalibrateOptions (D : Type) := MkOptions {
  output_signal : string; input_symbol : string;
  learning_rate : D; beta1 : D; beta2 : D; epsilon : D;
  iterations : nat; min_improvement : D }.
Arguments MkOptions {D}.
Arguments output_signal {D}.
Arguments input_symbol {D}.
Arguments learning_rate {D}.
Arguments beta1 {D}.
Arguments beta2 {D}.
Arguments epsilon {D}.
Arguments iterations {D}.
Arguments min_improvement {D}.

Record TickRow (D : Type) := MkTick {
  tick_timestamp_ns : Z; tick_bid : D; tick_ask : D; tick_volume : D; tick_target : D }.
Arguments MkTick {D}.
Arguments tick_timestamp_ns {D}.
Arguments tick_bid {D}.
Arguments tick_ask {D}.
Arguments tick_volume {D}.
Arguments tick_target {D}.

Record PreparedProgram (D : Type) := MkPrepared {
  prepared : ProgramDef D; prep_symbols : SymbolTable;
  output_index : nat; input_symbol_id : nat }.
Arguments MkPrepared {D}.
Arguments prepared {D}.
Arguments prep_symbols {D}.
Arguments output_index {D}.
Arguments input_symbol_id {D}.

Record EvalResult (D : Type) := MkEvalResult { objective : D; gradient : list D }.
Arguments MkEvalResult {D}.
Arguments objective {D}.
Arguments gradient {D}.

Section calibrate.
Context {D L : Type} `{Machine D L} `{EqDecision D}.
Local Open Scope fp_scope.

(** The order in which hash sets are visited, [std::pow], and the printing of
    a number. *)
Variable hash_order : forall A, list A -> list A.
Arguments hash_order {A}.
Variable pow : D -> D -> D.
Variable print : D -> string.

(** ** Preparation *)

(** [program_text] is what the file [signal_file] holds.  [LookupId] throws
    for a symbol the program does not mention, before its result can be
    compared. *)
Definition find_output (name : string) (signals : list (SignalDef D)) : option nat :=
  fst <$> list_find (fun s => sig_name s = name) signals.

Definition register_tickers (signals : list (SignalDef D)) : Res SymbolTable :=
  rmap snd (register_all empty_table
              (concat (map (fun s => hash_order (CollectTickerSymbols s)) signals))).

Fixpoint bind_all (symbols : SymbolTable) (signals : list (SignalDef D)) : Res (list (SignalDef D)) :=
  match signals with
  | [] => Ok []
  | s :: rest => s <- BindSymbolIds s symbols;; rmap (cons s) (bind_all symbols rest)
  end.

Definition PrepareProgram (signal_file program_text output_signal input_symbol : string)
  : Res (PreparedProgram D) :=
  parsed <- ParseProgram program_text;;
  inlined <- InlineSignalDependencies (prog_signals parsed) (fun s => hash_order (elements s));;
  let '(signals, _) := AllocateProgramNodeIds inlined in
  symbols <- register_tickers signals;;
  ensure (negb (length signals =? 0)) (RuntimeError ("No signals found in program: " +:+ signal_file)) ;;;
  id <- LookupId symbols input_symbol;;
  signals <- bind_all symbols signals;;
  match find_output output_signal signals with
  | Some i => Ok (MkPrepared (MkProgram (prog_params parsed) signals) symbols i id)
  | None => Err (RuntimeError ("Output signal not found: " +:+ output_signal))
  end.

(** [params[param_id] = default_value]. *)
Definition set_at (what : string) (i : Z) (d : D) (l : list D) : Res (list D) :=
  _ <- at_Z what l i;; Ok (<[Z.to_nat i := d]> l).
Definition DefaultParams (program : PreparedProgram D) : Res (list D) :=
  for_each (fun p => set_at "params" (par_id p) (par_default p)) (prog_params (prepared program))
    (replicate (length (prog_params (prepared program))) (fint 0)).

Definition MakeMarket (tick : TickRow D) (input_symbol_id : nat) : Res (MarketState D) :=
  let instruments := replicate kMaxInstruments InstrumentState_init in
  inst <- at_idx "instruments" instruments input_symbol_id;;
  Ok (MkMarket (<[input_symbol_id :=
                    MkInstrument (tick_bid tick) (tick_ask tick) (flit 5 1 * (tick_bid tick + tick_ask tick))
                      (tick_volume tick) (last_update_ns inst)]> instruments)
        (tick_timestamp_ns tick)).

(** ** The objective and its gradient *)

(** A function of [GetProgramGradientFunction]: the slots it writes of the two
    output arrays. *)
Definition ProgramGradientFn : Type :=
  MarketState D -> nat -> Z -> MultiSymbolSignalContext D L ->
  Res (gmap nat D * gmap nat D * MultiSymbolSignalContext D L).

Definition write_all (writes : gmap nat D) (out : list D) : list D :=
  imap (fun i old => default old (writes !! i)) out.

(** The variables of the loop over the ticks. *)
Record TickState := MkTickState {
  arena_state : MultiSymbolSignalContext D L;
  outputs_ : list D; grads_ : list D; result_ : EvalResult D }.

(** One run of the compiled function: the prediction and its derivative. *)
Definition evaluate_tick (fn : ProgramGradientFn) (program : PreparedProgram D) (param_index : nat)
    (tick : TickRow D) (arena : MultiSymbolSignalContext D L) (outputs grads : list D)
  : Res (D * D * MultiSymbolSignalContext D L * list D * list D) :=
  market <- MakeMarket tick (input_symbol_id program);;
  '(out, grad, arena) <- fn market 0 (Z.of_nat param_index) arena;;
  let outputs := write_all out outputs in
  let grads := write_all grad grads in
  pred <- at_idx "outputs" outputs (output_index program);;
  slope <- at_idx "grads" grads (output_index program);;
  ensure (isfinite pred && isfinite slope)
    (RuntimeError "Calibration hit non-finite compiled output/gradient") ;;;
  Ok (pred, slope, arena, outputs, grads).

Definition add_tick (param_index : nat) (inv_n err slope : D) (r : EvalResult D) : EvalResult D :=
  MkEvalResult
    (if param_index =? 0 then objective r + flit 5 1 * err * err * inv_n else objective r)
    (alter (fun g => g + err * slope * inv_n) param_index (gradient r)).

Definition prewarm_program (params : list D) (signals : list (SignalDef D))
  : Res (MultiSymbolSignalContext D L) :=
  for_each (fun s a => PrewarmSymbol a 0 s) signals (SetParameters (NewArena 1) params).

Definition evaluate_param (fn : ProgramGradientFn) (program : PreparedProgram D)
    (ticks : list (TickRow D)) (params : list D) (inv_n : D) (param_index : nat)
    (s : list D * list D * EvalResult D) : Res (list D * list D * EvalResult D) :=
  let '(outputs, grads, r) := s in
  arena <- prewarm_program params (prog_signals (prepared program));;
  st <- for_each (fun tick st =>
          '(pred, slope, arena, outputs, grads) <-
            evaluate_tick fn program param_index tick (arena_state st) (outputs_ st) (grads_ st);;
          Ok (MkTickState arena outputs grads
                (add_tick param_index inv_n (pred - tick_target tick) slope (result_ st))))
        ticks (MkTickState arena outputs grads r);;
  Ok (outputs_ st, grads_ st, result_ st).

Definition EvaluateObjectiveAndGradient (fn : ProgramGradientFn) (program : PreparedProgram D)
    (ticks : list (TickRow D)) (params : list D) : Res (EvalResult D) :=
  ensure (negb (length params =? 0))
    (RuntimeError "Calibration requires at least one parameter") ;;;
  let inv_n := fint 1 / fnat (length ticks) in
  let zeros := replicate (length (prog_signals (prepared program))) (fint 0) in
  rmap snd (for_each (evaluate_param fn program ticks params inv_n) (seq 0 (length params))
              (zeros, zeros, MkEvalResult (fint 0) (replicate (length params) (fint 0)))).

(** ** Adam *)

Record AdamState := MkAdam { adam_params : list D; adam_m : list D; adam_v : list D }.

(** One coordinate: the parameter and the two moments. *)
Definition adam_coordinate (opt : CalibrateOptions D) (beta1_pow beta2_pow : D) (p m v g : D)
  : D * D * D :=
  let m := beta1 opt * m + (fint 1 - beta1 opt) * g in
  let v := beta2 opt * v + (fint 1 - beta2 opt) * g * g in
  let m_hat := m / (fint 1 - beta1_pow) in
  let v_hat := v / (fint 1 - beta2_pow) in
  (p - learning_rate opt * m_hat / (fsqrt v_hat + epsilon opt), m, v).

Fixpoint adam_coordinates (opt : CalibrateOptions D) (beta1_pow beta2_pow : D) (ps ms vs gs : list D)
  : list D * list D * list D :=
  match ps, ms, vs, gs with
  | p :: ps, m :: ms, v :: vs, g :: gs =>
      let '(p, m, v) := adam_coordinate opt beta1_pow beta2_pow p m v g in
      let '(ps, ms, vs) := adam_coordinates opt beta1_pow beta2_pow ps ms vs gs in
      (p :: ps, m :: ms, v :: vs)
  | _, _, _, _ => (ps, ms, vs)
  end.

Definition adam_step (opt : CalibrateOptions D) (iter : nat) (g : list D) (s : AdamState) : AdamState :=
  let beta1_pow := pow (beta1 opt) (fnat (S iter)) in
  let beta2_pow := pow (beta2 opt) (fnat (S iter)) in
  let '(ps, ms, vs) := adam_coordinates opt beta1_pow beta2_pow (adam_params s) (adam_m s) (adam_v s) g in
  MkAdam ps ms vs.

Fixpoint optimise (fn : ProgramGradientFn) (program : PreparedProgram D) (ticks : list (TickRow D))
    (opt : CalibrateOptions D) (n iter : nat) (s : AdamState) : Res (list D * AdamState) :=
  match n with
  | 0 => Ok ([], s)
  | S n' =>
      r <- EvaluateObjectiveAndGradient fn program ticks (adam_params s);;
      '(trajectory, s) <- optimise fn program ticks opt n' (S iter) (adam_step opt iter (gradient r) s);;
      Ok (objective r :: trajectory, s)
  end.

(** ** The program *)

(** A compiled gradient program as a function on the arena; its code does not
    read the lowered states [low]. *)
Definition gradient_entry (low : LoweredStates D L) (code : GCode D) : ProgramGradientFn :=
  fun market symbol_id param_id arena =>
    '(r, arena) <- with_symbol symbol_id (fun c =>
       '(out, grad, s) <- run_gradient_program market param_id code (MkJit c low);;
       Ok ((out, grad), js_ctx s)) arena;;
    Ok (r.1, r.2, arena).

(** What [main] reports. *)
Record Calibration := MkCalibration {
  initial_params : list D; final_params : list D; trajectory : list D }.

Definition accept (opt : CalibrateOptions D) (trajectory : list D) : Res () :=
  front <- at_idx "trajectory" trajectory 0;;
  back <- at_idx "trajectory" trajectory (length trajectory - 1);;
  let improvement := front - back in
  ensure (fgt improvement (fint 0)) (RuntimeError "Calibration did not improve the objective") ;;;
  ensure (negb (fgt (min_improvement opt) (fint 0) && flt improvement (min_improvement opt)))
    (RuntimeError ("Objective improvement " +:+ print improvement +:+
                   " is below required minimum " +:+ print (min_improvement opt))).

(** [main] from the arguments on; [ticks] is the table it reads.  The last
    evaluation is at the fitted parameters. *)
Definition calibrate (signal_file program_text : string) (ticks : list (TickRow D)) (has_avx2 : bool)
    (low : LoweredStates D L) (opt : CalibrateOptions D) : Res Calibration :=
  program <- PrepareProgram signal_file program_text (output_signal opt) (input_symbol opt);;
  ensure (negb (length (prog_params (prepared program)) =? 0))
    (RuntimeError "Program has no parameters to calibrate") ;;;
  match build_gradient_function
          (EmitGradientProgram (@hash_order) (MkConfig (prep_symbols program) kNone has_avx2 false ∅)
             (prog_signals (prepared program))) "LLVM verifyFunction failed (program gradient)" with
  | Err (RuntimeError e) => Err (RuntimeError ("CompileProgramGradient failed: " +:+ e))
  | Err e => Err e
  | Ok code =>
      let fn := gradient_entry low code in
      params <- DefaultParams program;;
      let zeros := replicate (length params) (fint 0) in
      '(trajectory, s) <- optimise fn program ticks opt (iterations opt) 0 (MkAdam params zeros zeros);;
      final_eval <- EvaluateObjectiveAndGradient fn program ticks (adam_params s);;
      let trajectory := trajectory ++ [objective final_eval] in
      accept opt trajectory ;;;
      Ok (MkCalibration params (adam_params s) trajectory)
  end.
End calibrate.
Arguments TickState : clear implicits.
Arguments AdamState : clear implicits.
Arguments MkAdam {D}.
Arguments adam_params {D}.
Arguments adam_m {D}.
Arguments adam_v {D}.
Arguments Calibration : clear implicits.
Arguments MkCalibration {D}.
Arguments initial_params {D}.
Arguments final_params {D}.
Arguments trajectory {D}.
