(* ===== verification/Backtest.v ===== *)
(** * Replaying events (src/examples/backtest_runner.cpp)

    The back-test reads a table of events, updates one market, evaluates a
    compiled program for the symbol of each event and reports the correlation
    of every signal with the later return of the mid price.  The journal
    reader (a submodule), the checksum, the clock and the files are not
    modelled: the events are the text of the CSV file, the rows of
    [signals.csv] are strings. *)

From Stdlib Require Import Ascii.
From S2P Require Import Prelude Errors Arith Ast Lexer SymbolTable SignalProgram Rolling Context Canonical Calibration.

(** ** Text *)

(** The fields [std::getline] yields with a delimiter: a final one adds no
    empty field. *)
Fixpoint getfields (delim : ascii) (cs cur : list ascii) : list (list ascii) :=
  match cs with
  | [] => match cur with [] => [] | _ => [reverse cur] end
  | c :: cs' =>
      if (c =? delim)%char then reverse cur :: getfields delim cs' [] else getfields delim cs' (c :: cur)
  end.

Definition is_eol (c : ascii) : bool := (code c =? 13) || (code c =? 10).
Definition strip_eol (field : list ascii) : list ascii := reverse (drop_while is_eol (reverse field)).

Definition SplitCsvLine (line : list ascii) : list string :=
  map (fun f => str (strip_eol f)) (getfields "," line []).

(** [std::stoull] and [std::stoll]: what follows the digits is ignored. *)
Fixpoint take_digits (cs : list ascii) : list ascii :=
  match cs with
  | [] => []
  | c :: cs' => if isdigit c then c :: take_digits cs' else []
  end.
Definition digits_value (cs : list ascii) : Z :=
  foldl (fun v c => v * 10 + digit_value c)%Z 0%Z cs.

(** The sign and the digits behind white space. *)
Definition integer_prefix (s : string) : option (bool * Z) :=
  let cs := drop_while isspace (chars s) in
  let '(neg, cs) := match cs with
    | "-"%char :: cs' => (true, cs')
    | "+"%char :: cs' => (false, cs')
    | _ => (false, cs)
    end in
  match take_digits cs with [] => None | ds => Some (neg, digits_value ds) end.

Definition stoull (s : string) : Res Z :=
  match integer_prefix s with
  | None => Err (RuntimeError "stoull")
  | Some (neg, v) =>
      if (2 ^ 64 <=? v)%Z then Err (RuntimeError "stoull") else Ok (if neg then u64 (- v) else v)
  end.
Definition stoll (s : string) : Res Z :=
  match integer_prefix s with
  | None => Err (RuntimeError "stoll")
  | Some (neg, v) =>
      let z := if neg then (- v)%Z else v in
      if ((z <? - 2 ^ 63) || (2 ^ 63 <=? z))%Z then Err (RuntimeError "stoll") else Ok z
  end.

(** ** Events *)

Record ReplayEvent := MkReplay {
  timestamp_ns : Z; event_symbol : string; event_type : string; side : string;
  price : Z; qty : Z }.

(** [emplace] keeps the first column of a name. *)
Definition column_index (columns : list string) : gmap string nat :=
  foldr (fun '(i, c) m => <[c := i]> m) ∅ (imap pair columns).

Definition required_columns : list string :=
  ["timestamp_ns"; "symbol"; "event_type"; "side"; "price"; "qty"].

Definition get_field (col : gmap string nat) (fields : list string) (name : string) : Res string :=
  match col !! name with
  | None => Err (RuntimeError "_Map_base::at")
  | Some i =>
      match fields !! i with
      | Some f => Ok f
      | None => Err (RuntimeError ("events CSV row missing field: " +:+ name))
      end
  end.

Definition read_event (col : gmap string nat) (line : list ascii) : Res ReplayEvent :=
  let fields := SplitCsvLine line in
  ts <- get_field col fields "timestamp_ns";; ts <- stoull ts;;
  sym <- get_field col fields "symbol";;
  type <- get_field col fields "event_type";;
  sd <- get_field col fields "side";;
  px <- get_field col fields "price";; px <- stoll px;;
  q <- get_field col fields "qty";; q <- stoll q;;
  Ok (MkReplay ts sym type sd px q).

(** At most [max_events] rows, all of them if it is zero. *)
Fixpoint read_rows (col : gmap string nat) (max_events n_events : Z) (lines : list (list ascii))
  : Res (list ReplayEvent) :=
  match lines with
  | [] => Ok []
  | line :: rest =>
      if (max_events =? 0)%Z || (n_events <? max_events)%Z then
        match line with
        | [] => read_rows col max_events n_events rest
        | _ =>
            ev <- read_event col line;;
            rmap (cons ev) (read_rows col max_events (n_events + 1) rest)
        end
      else Ok []
  end.

Definition ReadReplayCsv (path text : string) (max_events : Z) : Res (list ReplayEvent) :=
  match getlines (chars text) [] with
  | [] => Err (RuntimeError ("events CSV is empty: " +:+ path))
  | header :: lines =>
      let col := column_index (SplitCsvLine header) in
      for_each (fun required _ =>
        ensure (bool_decide (is_Some (col !! required)))
          (RuntimeError ("events CSV missing column: " +:+ required))) required_columns tt ;;;
      read_rows col max_events 0 lines
  end.

(** ** Replay *)

Section backtest.
Context {D L : Type} `{Machine D L} `{EqDecision D}.
Local Open Scope fp_scope.

Variable hash_order : forall A, list A -> list A.
Arguments hash_order {A}.
Variable print : D -> string.

(** A function of [GetProgramFunction]. *)
Definition ProgramFn : Type :=
  MarketState D -> nat -> MultiSymbolSignalContext D L ->
  Res (gmap nat D * MultiSymbolSignalContext D L).

(** The variables of [main] that [process_event] captures. *)
Record Replay := MkState {
  symbol_to_id : gmap string nat;
  id_to_symbol : list string;
  replay_ctx : MultiSymbolSignalContext D L;
  market : MarketState D;
  replay_outputs : list D;
  mid_series : list (list D);
  signal_series : list (list (list D));
  sig_out : list string;
  processed : Z }.

(** The signals of the file, numbered and bound, and the slots of their
    tickers. *)
Record Prepared := MkReplayProgram { signals_ : list (SignalDef D); replay_symbols : SymbolTable }.

Definition prepare_backtest (text : string) : Res Prepared :=
  parsed <- ParseProgram text;;
  let tickers := concat (map (fun s => hash_order (CollectTickerSymbols s)) (prog_signals parsed)) in
  let tickers := match tickers with [] => ["AAPL"] | _ => tickers end in
  '(_, symbols) <- register_all empty_table tickers;;
  let '(signals, _) := AllocateProgramNodeIds (prog_signals parsed) in
  signals <- bind_all symbols signals;;
  Ok (MkReplayProgram signals symbols).

Definition Replay_init (n_signals : nat) : Replay :=
  MkState ∅ [] (NewArena 0) (MkMarket (replicate kMaxInstruments InstrumentState_init) 0)
    (replicate n_signals (fint 0)) [] [] [] 0.

(** The first part of [process_event]: the id of the event's symbol. *)
Definition symbol_id_of (signals : list (SignalDef D)) (sym : string) (s : Replay) : Res (nat * Replay) :=
  match symbol_to_id s !! sym with
  | Some sid => Ok (sid, s)
  | None =>
      let sid := length (id_to_symbol s) in
      ctx <- for_each (fun sd a => PrewarmSymbol a sid sd) signals (Resize (replay_ctx s) (S sid));;
      Ok (sid, MkState (<[sym := sid]> (symbol_to_id s)) (id_to_symbol s ++ [sym]) ctx (market s)
                 (replay_outputs s) (mid_series s ++ [[]])
                 (signal_series s ++ [replicate (length signals) []]) (sig_out s) (processed s))
  end.

Definition update_instrument (rev : ReplayEvent) (inst : InstrumentState D) : InstrumentState D :=
  let px := fint (price rev) * flit 1 4 in
  let inst :=
    if fgt px (fint 0) then
      let b := if (side rev =? "Buy")%string then px else bid inst in
      let a := if (side rev =? "Sell")%string then px else ask inst in
      if (event_type rev =? "Trade")%string || (event_type rev =? "CrossTrade")%string then
        MkInstrument (if fle b (fint 0) then px else b) (if fle a (fint 0) then px else a) px
          (volume inst) (last_update_ns inst)
      else MkInstrument b a (last_price inst) (volume inst) (last_update_ns inst)
    else inst in
  MkInstrument (bid inst) (ask inst) (last_price inst) (fint (qty rev)) (last_update_ns inst).

Definition update_market (symbols : SymbolTable) (sym : string) (rev : ReplayEvent) (m : MarketState D)
  : Res (MarketState D) :=
  match symbol_to_id_ symbols !! sym with
  | None => Ok (MkMarket (instruments m) (timestamp_ns rev))
  | Some slot =>
      inst <- at_idx "instruments" (instruments m) slot;;
      Ok (MkMarket (<[slot := update_instrument rev inst]> (instruments m)) (timestamp_ns rev))
  end.

(** The mid of the ticker "AAPL". *)
Definition replay_mid (symbols : SymbolTable) (m : MarketState D) : Res D :=
  match symbol_to_id_ symbols !! "AAPL"%string with
  | None => Ok (fint 0)
  | Some slot =>
      inst <- at_idx "instruments" (instruments m) slot;;
      Ok (if fgt (bid inst) (fint 0) && fgt (ask inst) (fint 0) then flit 5 1 * (bid inst + ask inst)
          else if fgt (bid inst) (fint 0) then bid inst
          else if fgt (ask inst) (fint 0) then ask inst
          else last_price inst)
  end.

Definition push_signals (outputs : list D) (series : list (list D)) : list (list D) :=
  zip_with (fun l d => l ++ [d]) series outputs.

Definition process_event (fn : ProgramFn) (program : Prepared) (rev : ReplayEvent) (s : Replay) : Res Replay :=
  let sym := if (event_symbol rev =? "")%string then "UNKNOWN"%string else event_symbol rev in
  '(sid, s) <- symbol_id_of (signals_ program) sym s;;
  m <- update_market (replay_symbols program) sym rev (market s);;
  '(writes, ctx) <- fn m sid (replay_ctx s);;
  let outputs := write_all writes (replay_outputs s) in
  mid <- replay_mid (replay_symbols program) m;;
  _ <- at_idx "mid_series" (mid_series s) sid;;
  _ <- at_idx "signal_series" (signal_series s) sid;;
  Ok (MkState (symbol_to_id s) (id_to_symbol s) ctx m outputs
        (alter (fun l => l ++ [mid]) sid (mid_series s))
        (alter (push_signals outputs) sid (signal_series s))
        (sig_out s ++ zip_with (fun sd d =>
           to_string (timestamp_ns rev) +:+ "," +:+ sym +:+ "," +:+ sig_name sd +:+ "," +:+ print d)
           (signals_ program) outputs)
        (u64 (processed s + 1))).

(** ** Correlation with later returns *)

Definition Pearson (x y : list D) : D :=
  if negb (length x =? length y) || (length x <? 2) then fnan
  else
    let '(sx, sy, sxx, syy, sxy) :=
      foldl (fun '(sx, sy, sxx, syy, sxy) '(xd, yd) =>
        let xi := ext xd in let yi := ext yd in
        (sx + xi, sy + yi, sxx + xi * xi, syy + yi * yi, sxy + xi * yi))
        (fint 0, fint 0, fint 0, fint 0, fint 0) (zip x y) in
    let n := fnat (length x) in
    let cov := sxy - sx * sy / n in
    let vx := sxx - sx * sx / n in
    let vy := syy - sy * sy / n in
    if fle vx (fint 0) || fle vy (fint 0) then fnan
    else trunc (cov / fsqrt (vx * vy)).

(** The loop over the times [t] of one symbol, [n] of them left. *)
Fixpoint collect_returns (h n t : nat) (mids sigv : list D) (xs ys : list D) : Res (list D * list D) :=
  match n with
  | 0 => Ok (xs, ys)
  | S n' =>
      m0 <- at_idx "mids" mids t;;
      m1 <- at_idx "mids" mids (t + h);;
      v <- at_idx "sigv" sigv t;;
      if negb (fgt m0 (fint 0)) || negb (isfinite v) || negb (isfinite m1)
      then collect_returns h n' (S t) mids sigv xs ys
      else collect_returns h n' (S t) mids sigv (xs ++ [v]) (ys ++ [(m1 - m0) / m0])
  end.

(** The samples of signal [si] at horizon [h], symbol by symbol. *)
Fixpoint collect_samples (h si : nat) (mid_series : list (list D)) (signal_series : list (list (list D)))
    (xs ys : list D) : Res (list D * list D) :=
  match signal_series with
  | [] => Ok (xs, ys)
  | series :: signal_series' =>
      mids <- at_idx "mid_series" mid_series 0;;
      sigv <- at_idx "signal_series" series si;;
      if (length mids <=? h) || (length sigv <=? h)
      then collect_samples h si (tail mid_series) signal_series' xs ys
      else
        '(xs, ys) <- collect_returns h (min (length mids) (length sigv) - h) 0 mids sigv xs ys;;
        collect_samples h si (tail mid_series) signal_series' xs ys
  end.

(** [compute_for_h]: the coefficient and the number of samples of every
    signal. *)
Fixpoint compute_for_h (h n si : nat) (s : Replay) : Res (list (D * nat)) :=
  match n with
  | 0 => Ok []
  | S n' =>
      '(xs, ys) <- collect_samples h si (mid_series s) (signal_series s) [] [];;
      rmap (cons (Pearson xs ys, length xs)) (compute_for_h h n' (S si) s)
  end.

Record IcResult := MkIc { ic1 : D; ic5 : D; ic30 : D; n1 : nat; n5 : nat; n30 : nat }.

Definition compute_ics (n_signals : nat) (s : Replay) : Res (list IcResult) :=
  h1 <- compute_for_h 1 n_signals 0 s;;
  h5 <- compute_for_h 5 n_signals 0 s;;
  h30 <- compute_for_h 30 n_signals 0 s;;
  Ok (zip_with (fun a '(b, c) => MkIc (fst a) (fst b) (fst c) (snd a) (snd b) (snd c)) h1 (zip h5 h30)).

(** [main] on a table of events, up to the reports. *)
Definition backtest (fn : ProgramFn) (program : Prepared) (path text : string) (max_events : Z)
  : Res (list IcResult * Replay) :=
  events <- ReadReplayCsv path text max_events;;
  s <- for_each (process_event fn program) events (Replay_init (length (signals_ program)));;
  rmap (fun ics => (ics, s)) (compute_ics (length (signals_ program)) s).
End backtest.
Arguments Replay : clear implicits.
Arguments Prepared : clear implicits.
Arguments IcResult : clear implicits.
