(* ===== verification/MarketSim.v ===== *)
(** * The market simulator (src/src/market_sim.cpp)

    A random walk of prices.  What the engine and the distributions of the
    standard library draw is an argument of [NextEvent], and [std::exp] is a
    parameter. *)

From S2P Require Import Prelude Errors Arith SymbolTable Rolling.

Section market_sim.
Context {D : Type} `{Fp D}.
(** [std::exp]. *)
Variable exp : D -> D.

Record MarketEvent := MkEvent { instrument_id : nat; ev_bid : D; ev_ask : D; ev_timestamp_ns : Z }.

Record MarketSimulator := MkSim { mids_ : list D; ts_ns_ : Z }.

Definition NewMarketSimulator (instrument_count : nat) : Res MarketSimulator :=
  ensure (negb ((instrument_count =? 0) || (kMaxInstruments <? instrument_count)))
    (RuntimeError "MarketSimulator instrument_count must be in [1, kMaxInstruments]") ;;;
  Ok (MkSim (replicate instrument_count (fint 100)) 0).

(** [std::max]: the first argument unless it is less. *)
Definition std_max (a b : D) : D := if flt a b then b else a.

(** [draw] is the index [instrument_dist_] draws, [normal] what [normal_]. *)
Definition NextEvent (dt_ns : Z) (draw : nat) (normal : D) (sim : MarketSimulator)
  : Res (MarketEvent * MarketSimulator) :=
  let ts := u64 (ts_ns_ sim + dt_ns) in
  let sigma := flit 5 4 in
  let shock := fmul sigma normal in
  old <- at_idx "mids_[id]" (mids_ sim) draw;;
  let mid := std_max (flit 1 2) (fmul old (exp shock)) in
  mids <- set_idx "mids_[id]" (mids_ sim) draw mid;;
  let half_spread := flit 5 3 in
  Ok (MkEvent draw (fsub mid half_spread) (fadd mid half_spread) ts, MkSim mids ts).

(** A sequence of events. *)
Fixpoint NextEvents (draws : list (Z * nat * D)) (sim : MarketSimulator)
  : Res (list MarketEvent * MarketSimulator) :=
  match draws with
  | [] => Ok ([], sim)
  | (dt, draw, normal) :: rest =>
      '(e, sim) <- NextEvent dt draw normal sim;;
      '(es, sim) <- NextEvents rest sim;;
      Ok (e :: es, sim)
  end.
End market_sim.

Arguments MarketEvent : clear implicits.
Arguments MarketSimulator : clear implicits.
