(* ===== verification/ModuleCache.v ===== *)
(** * Compilers, the module cache and the two tiers
    (src/src/jit_compiler.h, src/src/jit_compiler.cpp)

    [JitImpl] is [JitCompiler::Impl] with the entry points of the scalar mode.
    A function pointer is the code it points to; the main dylib of the ORC
    session maps symbol names to code.  LLVM's passes, code generator and
    bitcode, and the file system, are parameters.  The registration of the
    runtime's symbols, the IR and assembly dumps and the timings are left out,
    as are the gradient and the vectorised entry points. *)

From stdpp Require Import pretty.
From Stdlib Require Import Ascii.
From S2P Require Import Prelude Errors Arith Ast SymbolTable Rolling Context Interpreter Lexer Formatter Canonical Lowered Ir JitCompiler.

(** ** The key of a program *)

Definition kOffset : Z := 0xcbf29ce484222325.
Definition kPrime : Z := 0x100000001b3.

Definition fnv1a_step (h : Z) (c : ascii) : Z := u64 (Z.lxor h (Z.of_nat (nat_of_ascii c)) * kPrime).
Definition Fnv1aU64 (s : string) : Z := foldl fnv1a_step kOffset (chars s).

Definition HexU64 (v : Z) : string := printf_016llx v.

Definition CacheFileNameForKey (hash : Z) (variant : string) : string :=
  HexU64 hash +:+ "." +:+ variant +:+ ".bc".

(** [std::filesystem::path::operator/] of a relative right operand. *)
Definition path_append (dir name : string) : string :=
  match reverse (chars dir) with
  | "/"%char :: _ | [] => dir +:+ name
  | _ => dir +:+ "/" +:+ name
  end.

(** ** LLVM and the file system *)

(** A module with its one function. *)
Record LModule := MkModule { mod_fn : string; mod_code : Code double }.

(** Everything outside the program that a compile depends on. *)
Class Platform := {
  LLVM_VERSION_MAJOR : Z;
  nan_bits : Z;
  (* the -O2 pipeline, and whether the code generator materialises a function *)
  optimise : Code double -> Code double;
  codegen : Code double -> bool;
  (* [LLJITBuilder().create()], [getHostCPUFeatures] *)
  create_lljit : string + unit;
  host_avx2 : bool;
  (* what [llvm::toString] makes of the errors of [addIRModule] and [lookup] *)
  duplicate_symbol : string -> string;
  missing_symbol : string -> string;
  (* bitcode *)
  File : Type;
  WriteBitcodeToFile : LModule -> File;
  parseBitcodeFile : File -> option LModule;
  (* whether a path can be opened for writing, what a write leaves in the file
     and whether it reported no error, whether a file can be read, whether
     [rename] succeeds *)
  can_open : string -> bool;
  write_file : string -> File -> File * bool;
  can_read : string -> bool;
  can_rename : string -> string -> bool;
  (* the order in which hash sets are visited *)
  hash_order : forall A, list A -> list A;
}.

(** The files, by their paths. *)
Notation Disk := (gmap string File).

(** The version of LLVM and the flags, then every signal. *)
Definition BuildCacheKeyString `{Platform} (signals : list (SignalDef double)) (lowering : N)
    (assume_warm has_avx2 : bool) (lane_count : Z) : string :=
  "LLVM=" +:+ to_string LLVM_VERSION_MAJOR +:+ ";lowering=" +:+ to_string (Z.of_N lowering) +:+
  ";warm=" +:+ (if assume_warm then "1" else "0") +:+
  ";avx2=" +:+ (if has_avx2 then "1" else "0") +:+ ";lanes=" +:+ to_string lane_count +:+
  foldr (fun s rest =>
    ";sig=" +:+ sig_name s +:+ "=" +:+ AstCanonicalString nan_bits (sig_body s) +:+ rest)
    "" signals.

Section compiler.
Context {L : Type} `{Machine double L} `{Platform}.

(** ** Cache files *)

Definition WriteFileToCache (contents : File) (dst_path : string) (disk : Disk) : bool * Disk :=
  let tmp_path := dst_path +:+ ".tmp" in
  if negb (can_open tmp_path) then (false, disk)
  else
    let '(written, good) := write_file tmp_path contents in
    let disk1 := <[tmp_path := written]> disk in
    if negb good then (false, disk1)
    else if negb (can_rename tmp_path dst_path) then (false, delete tmp_path disk1)
    else (true, <[dst_path := written]> (delete tmp_path disk1)).
Definition WriteModuleToCache (m : LModule) : string -> Disk -> bool * Disk :=
  WriteFileToCache (WriteBitcodeToFile m).

Definition ReadModuleFromCache (src_path : string) (disk : Disk) : option LModule :=
  match disk !! src_path with
  | None => None
  | Some file => if can_read src_path then parseBitcodeFile file else None
  end.

(** ** [JitCompiler] *)

Record JitImpl := MkImpl {
  last_error : string;
  fn : option (Code double);
  program_fn : option (Code double);
  stateful_lowering : N;
  cache_dir : string;
  last_cache_hit : bool;
  lljit : option (gmap string (Code double));
  compile_counter : Z;
  host_has_avx2 : bool }.

Definition set_last_error (e : string) (i : JitImpl) : JitImpl :=
  MkImpl e (fn i) (program_fn i) (stateful_lowering i) (cache_dir i) (last_cache_hit i)
    (lljit i) (compile_counter i) (host_has_avx2 i).
Definition set_fns (f p : option (Code double)) (i : JitImpl) : JitImpl :=
  MkImpl (last_error i) f p (stateful_lowering i) (cache_dir i) (last_cache_hit i)
    (lljit i) (compile_counter i) (host_has_avx2 i).
Definition set_cache (dir : string) (hit : bool) (i : JitImpl) : JitImpl :=
  MkImpl (last_error i) (fn i) (program_fn i) (stateful_lowering i) dir hit
    (lljit i) (compile_counter i) (host_has_avx2 i).
Definition set_lljit (d : option (gmap string (Code double))) (i : JitImpl) : JitImpl :=
  MkImpl (last_error i) (fn i) (program_fn i) (stateful_lowering i) (cache_dir i)
    (last_cache_hit i) d (compile_counter i) (host_has_avx2 i).
Definition set_counter (n : Z) (i : JitImpl) : JitImpl :=
  MkImpl (last_error i) (fn i) (program_fn i) (stateful_lowering i) (cache_dir i)
    (last_cache_hit i) (lljit i) n (host_has_avx2 i).

Definition SetStatefulLowering (flags : N) (i : JitImpl) : JitImpl :=
  MkImpl (last_error i) (fn i) (program_fn i) flags (cache_dir i) (last_cache_hit i)
    (lljit i) (compile_counter i) (host_has_avx2 i).
Definition GetStatefulLowering (i : JitImpl) : N := stateful_lowering i.

(** The constructor; [env] is [JITSE_STATEFUL_LOWERING]. *)
Definition JitCompiler_init (env : option string) : JitImpl :=
  let i := MkImpl "" None None (ParseStatefulLoweringEnv env) "" false None 0 false in
  match create_lljit with
  | inl e => set_last_error ("Failed to create LLJIT: " +:+ e) i
  | inr _ =>
      MkImpl "" None None (stateful_lowering i) "" false (Some ∅) 0 host_avx2
  end.

Definition IsAvailable (i : JitImpl) : bool := bool_decide (is_Some (lljit i)).
(** [disable] is [JITSE_FORCE_DISABLE_AVX2] at the time of the call. *)
Definition HasAVX2 (disable : option string) (i : JitImpl) : bool :=
  match lljit i with
  | None => false
  | Some _ => if bool_decide (disable = Some "1") then false else host_has_avx2 i
  end.
Definition LastError (i : JitImpl) : string := last_error i.

(** [LLJIT::lookup]: a symbol that is defined and whose code can be
    generated. *)
Definition lookup_symbol (dylib : gmap string (Code double)) (name : string) : option (Code double) :=
  match dylib !! name with
  | Some code => if codegen code then Some code else None
  | None => None
  end.

(** [LLJIT::addIRModule]: a symbol is defined once. *)
Definition add_module (m : LModule) (dylib : gmap string (Code double)) : option (gmap string (Code double)) :=
  match dylib !! mod_fn m with
  | Some _ => None
  | None => Some (<[mod_fn m := mod_code m]> dylib)
  end.

(** The end of a compile: the module is handed to the session and the
    function looked up. *)
Definition ingest (m : LModule) (fn_name : string) (dylib : gmap string (Code double)) (i : JitImpl)
  : option (Code double) * JitImpl :=
  match add_module m dylib with
  | None => (None, set_last_error ("Failed to add IR module: " +:+ duplicate_symbol (mod_fn m)) i)
  | Some dylib' =>
      let i := set_lljit (Some dylib') i in
      match lookup_symbol dylib' fn_name with
      | None => (None, set_last_error ("Failed to lookup compiled symbol: " +:+ missing_symbol fn_name) i)
      | Some code => (Some code, set_last_error "" i)
      end
  end.

(** The emission of a function, its verification and the passes; a
    [std::exception] is caught, anything else is undefined behaviour. *)
Definition build_module (fn_name : string) (m : EmitM ()) (verify_error : string)
  : Res (string + LModule) :=
  match build_function m verify_error with
  | Ok code => Ok (inr (MkModule fn_name (optimise code)))
  | Err (RuntimeError msg) => Ok (inl msg)
  | Err (ParseError msg loc line) => Ok (inl (ParseError_BuildWhat msg loc line))
  | Err e => Err e
  end.

(** [JitCompiler::Compile]: one signal, never cached.  The lowering flags are
    passed on; the code is never warm. *)
Definition Compile (disable : option string) (signal : SignalDef double) (symbols : SymbolTable) (i : JitImpl)
  : Res (bool * JitImpl) :=
  let i := set_fns None None i in
  match lljit i with
  | None => Ok (false, set_last_error "LLJIT is not initialized" i)
  | Some dylib =>
      let n := u64 (compile_counter i + 1) in
      let i := set_counter n i in
      let fn_name := "signal_func_" +:+ to_string n in
      let cfg := MkConfig symbols (stateful_lowering i) (HasAVX2 disable i) false ∅ in
      built <- build_module fn_name (EmitSignal hash_order cfg signal) "LLVM verifyFunction failed";;
      match built with
      | inl msg => Ok (false, set_last_error msg i)
      | inr m =>
          let '(code, i) := ingest m fn_name dylib i in
          Ok (bool_decide (is_Some code), set_fns code None i)
      end
  end.
(** [CompileProgramImpl].  [cache_path] is the file of the program's module
    when the cache is enabled. *)
Definition program_prefix (assume_warm : bool) : string :=
  if assume_warm then "signal_program_warm_func_" else "signal_program_func_".
Definition variant_name (assume_warm : bool) : string := if assume_warm then "warm" else "scalar".

Definition build_program (signals : list (SignalDef double)) (symbols : SymbolTable)
    (lowering : N) (assume_warm has_avx2 : bool) (fn_name : string) : Res (string + LModule) :=
  let cfg := MkConfig symbols lowering has_avx2 assume_warm
               (if assume_warm then CollectWarmSafeStatefulCalls signals else ∅) in
  build_module fn_name (EmitProgram hash_order cfg signals) "LLVM verifyFunction failed (program)".

(** From the reading of the cache file on. *)
Definition load_or_build (signals : list (SignalDef double)) (symbols : SymbolTable)
    (lowering : N) (assume_warm has_avx2 : bool) (fn_name : string) (cache_path : option string)
    (dylib : gmap string (Code double)) (i : JitImpl) (disk : Disk) : Res (bool * JitImpl * Disk) :=
  let finish (loaded_from_cache : bool) (m : LModule) (disk : Disk) :=
    let '(code, i) := ingest m fn_name dylib i in
    match code with
    | None => Ok (false, i, disk)
    | Some _ => Ok (true, set_cache (cache_dir i) loaded_from_cache (set_fns (fn i) code i), disk)
    end in
  match (path ← cache_path; ReadModuleFromCache path disk) with
  | Some m => finish true m disk
  | None =>
      built <- build_program signals symbols lowering assume_warm has_avx2 fn_name;;
      match built with
      | inl msg => Ok (false, set_last_error msg i, disk)
      | inr m =>
          finish false m
            (match cache_path with Some path => snd (WriteModuleToCache m path disk) | None => disk end)
      end
  end.

Definition CompileProgramImpl (signals : list (SignalDef double)) (symbols : SymbolTable)
    (lowering : N) (assume_warm has_avx2 : bool) (i : JitImpl) (disk : Disk)
  : Res (bool * JitImpl * Disk) :=
  let i := set_cache (cache_dir i) false i in
  match lljit i, signals with
  | None, _ => Ok (false, set_last_error "LLJIT is not initialized" i, disk)
  | Some _, [] => Ok (false, set_last_error "CompileProgram requires at least one signal" i, disk)
  | Some dylib, _ :: _ =>
      if negb (cache_dir i =? "")%string then
        let hash := Fnv1aU64 (BuildCacheKeyString signals lowering assume_warm has_avx2 1) in
        let fn_name := program_prefix assume_warm +:+ HexU64 hash in
        let cache_path := path_append (cache_dir i) (CacheFileNameForKey hash (variant_name assume_warm)) in
        match lookup_symbol dylib fn_name with
        | Some code =>
            Ok (true, set_last_error "" (set_cache (cache_dir i) true (set_fns (fn i) (Some code) i)), disk)
        | None =>
            load_or_build signals symbols lowering assume_warm has_avx2 fn_name (Some cache_path) dylib i disk
        end
      else
        let n := u64 (compile_counter i + 1) in
        let i := set_counter n i in
        load_or_build signals symbols lowering assume_warm has_avx2
          (program_prefix assume_warm +:+ to_string n) None dylib i disk
  end.

Definition CompileProgramSpecialized (disable : option string) (signals : list (SignalDef double)) (symbols : SymbolTable)
    (profile_assume_warm : bool) (i : JitImpl) (disk : Disk) : Res (bool * JitImpl * Disk) :=
  CompileProgramImpl signals symbols (stateful_lowering i) profile_assume_warm (HasAVX2 disable i)
    (set_fns None None i) disk.
Definition CompileProgram (disable : option string) (signals : list (SignalDef double)) (symbols : SymbolTable)
    (i : JitImpl) (disk : Disk) : Res (bool * JitImpl * Disk) :=
  CompileProgramImpl signals symbols (stateful_lowering i) false (HasAVX2 disable i)
    (set_fns None None i) disk.

Definition GetFunction (i : JitImpl) : option (Code double) := fn i.
Definition GetProgramFunction (i : JitImpl) : option (Code double) := program_fn i.
(** The directory is created where it can be; that it cannot shows in
    [can_open]. *)
Definition EnableModuleCache (dir : string) (i : JitImpl) : JitImpl := set_cache dir (last_cache_hit i) i.
Definition DisableModuleCache (i : JitImpl) : JitImpl := set_cache "" false i.
Definition ModuleCacheEnabled (i : JitImpl) : bool := negb (cache_dir i =? "")%string.
Definition LastCacheHit (i : JitImpl) : bool := last_cache_hit i.

(** ** [TieredProgramJit]

    [program] is the pair of pointers the object keeps to the caller's
    signals and symbols: what they point to is read when a call needs it, from
    the [store] of the caller. *)
Definition Store (Ptr : Type) : Type := Ptr -> list (SignalDef double) * SymbolTable.

Record TieredImpl (Ptr : Type) := MkTiered {
  baseline_jit : JitImpl;
  specialized_jit : JitImpl;
  program : option Ptr;
  tier_lowering : N;
  warmup_threshold : Z;
  active_fn : option (Code double);
  promoted : bool;
  compiled : bool;
  tier_last_error : string }.
Arguments MkTiered {Ptr}.
Arguments baseline_jit {Ptr}.
Arguments specialized_jit {Ptr}.
Arguments program {Ptr}.
Arguments tier_lowering {Ptr}.
Arguments warmup_threshold {Ptr}.
Arguments active_fn {Ptr}.
Arguments promoted {Ptr}.
Arguments compiled {Ptr}.
Arguments tier_last_error {Ptr}.

Section tiered.
Context {Ptr : Type}.

Definition TieredProgramJit_init (env : option string) : TieredImpl Ptr :=
  MkTiered (JitCompiler_init env) (JitCompiler_init env) None kAll 0 None false false "".

Definition TieredIsAvailable (t : TieredImpl Ptr) : bool :=
  IsAvailable (baseline_jit t) && IsAvailable (specialized_jit t).

Definition TieredCompile (disable : option string) (store : Store Ptr) (p : Ptr) (lowering : N) (t : TieredImpl Ptr) (disk : Disk)
  : Res (bool * TieredImpl Ptr * Disk) :=
  if negb (TieredIsAvailable t) then
    Ok (false, MkTiered (baseline_jit t) (specialized_jit t) (program t) (tier_lowering t)
                 (warmup_threshold t) None false false "JIT is unavailable", disk)
  else
    let '(signals, symbols) := store p in
    let threshold := ComputeProgramWarmupThreshold signals in
    let mk b := MkTiered b (specialized_jit t) (Some p) lowering threshold in
    '(ok, b, disk) <- CompileProgram disable signals symbols (SetStatefulLowering lowering (baseline_jit t)) disk;;
    if negb ok then
      Ok (false, mk b None false false ("baseline compile failed: " +:+ LastError b), disk)
    else match GetProgramFunction b with
      | None => Ok (false, mk b None false false "baseline compile returned null program fn", disk)
      | Some code => Ok (true, mk b (Some code) false true "", disk)
      end.

Definition Promote (disable : option string) (store : Store Ptr) (t : TieredImpl Ptr) (disk : Disk)
  : Res (bool * TieredImpl Ptr * Disk) :=
  let mk s := MkTiered (baseline_jit t) s (program t) (tier_lowering t) (warmup_threshold t) in
  if negb (compiled t) then
    Ok (false, mk (specialized_jit t) (active_fn t) (promoted t) (compiled t)
                 "Promote() before Compile()", disk)
  else if promoted t then Ok (true, t, disk)
  else match program t with
  | None => Err (Undefined "null program")
  | Some p =>
      let '(signals, symbols) := store p in
      '(ok, s, disk) <- CompileProgramSpecialized disable signals symbols true
          (SetStatefulLowering (tier_lowering t) (specialized_jit t)) disk;;
      if negb ok then
        Ok (false, mk s (active_fn t) false (compiled t)
                     ("specialized compile failed: " +:+ LastError s), disk)
      else match GetProgramFunction s with
        | None => Ok (false, mk s (active_fn t) false (compiled t)
                              "specialized compile returned null program fn", disk)
        | Some code => Ok (true, mk s (Some code) true (compiled t) "", disk)
        end
  end.

Definition CurrentFunction (t : TieredImpl Ptr) : option (Code double) := active_fn t.
Definition WarmupTickThreshold (t : TieredImpl Ptr) : Z := warmup_threshold t.
Definition IsPromoted (t : TieredImpl Ptr) : bool := promoted t.
End tiered.
End compiler.

Arguments MkTiered {Ptr}.
Arguments baseline_jit {Ptr}.
Arguments specialized_jit {Ptr}.
Arguments program {Ptr}.
Arguments tier_lowering {Ptr}.
Arguments warmup_threshold {Ptr}.
Arguments active_fn {Ptr}.
Arguments promoted {Ptr}.
Arguments compiled {Ptr}.
Arguments tier_last_error {Ptr}.
