(* ===== verification/CompilerEntries.v ===== *)
(** * The compiler with all its entry points
    (src/src/jit_compiler.h, src/src/jit_compiler.cpp)

    [ModuleCache] has the compiler object as the scalar entries see it.  Here
    it gets the gradient and the vectorised entry, their function pointers
    and the flag that says whether the runtime's symbols are registered.  The
    main dylib is kept as one map per kind of function; the kinds' names do
    not overlap. *)

From S2P Require Import Prelude Errors Arith Ast SymbolTable Rolling Context Interpreter Canonical Gradient Lowered Ir JitCompiler VectorCompiler GradientCompiler ModuleCache.

(** A module with its one gradient or vectorised function. *)
Record GModule := MkGModule { gmod_fn : string; gmod_code : GCode double }.
Record VModule := MkVModule { vmod_fn : string; vmod_code : list (VInstr double) }.

(** What [Platform] is for these functions.  [exports_gradient_symbols]: the
    linker finds the [jit_rt_*_grad] functions in the process without a
    registration. *)
Class PlatformEntries `{Platform} := {
  optimise_gradient : GCode double -> GCode double;
  optimise_vector : list (VInstr double) -> list (VInstr double);
  codegen_gradient : GCode double -> bool;
  codegen_vector : list (VInstr double) -> bool;
  WriteGradientBitcode : GModule -> File;
  parseGradientBitcode : File -> option GModule;
  exports_gradient_symbols : bool }.

(** Whether a function calls a [jit_rt_*_grad] entry point. *)
Fixpoint calls_gradient (c : GCode double) : bool :=
  match c with
  | GRet => false
  | GSeq (GCall _ _ _ _) _ => true
  | GSeq _ k => calls_gradient k
  | GDiamond _ _ _ t _ _ e _ _ k => calls_gradient t || calls_gradient e || calls_gradient k
  end.

Section entries.
Context {L : Type} `{Machine double L} `{PlatformEntries}.

(** [runtime_symbols]: [runtime_symbols_registered], with whether the
    registration had the gradient entry points. *)
Record FullImpl := MkFullImpl {
  scalar_impl : JitImpl;
  program_gradient_fn : option (GCode double);
  program_fn_vec : option (list (VInstr double));
  vec_lane_count : nat;
  gradient_dylib : gmap string (GCode double);
  vector_dylib : gmap string (list (VInstr double));
  runtime_symbols : option bool }.

Definition FullImpl_init (env : option string) : FullImpl :=
  MkFullImpl (JitCompiler_init env) None None 0 ∅ ∅ None.

(** What every entry for programs begins with. *)
Definition clear_functions (f : FullImpl) : FullImpl :=
  MkFullImpl (set_fns None None (scalar_impl f)) None None 0 (gradient_dylib f) (vector_dylib f)
    (runtime_symbols f).
Definition set_scalar (i : JitImpl) (f : FullImpl) : FullImpl :=
  MkFullImpl i (program_gradient_fn f) (program_fn_vec f) (vec_lane_count f) (gradient_dylib f)
    (vector_dylib f) (runtime_symbols f).

(** What [Compile] begins with: it leaves the vectorised function. *)
Definition clear_scalar_functions (f : FullImpl) : FullImpl :=
  MkFullImpl (set_fns None None (scalar_impl f)) None (program_fn_vec f) (vec_lane_count f)
    (gradient_dylib f) (vector_dylib f) (runtime_symbols f).

(** The registration before a module is added; only the first counts. *)
Definition register_runtime (with_gradient : bool) (f : FullImpl) : FullImpl :=
  MkFullImpl (scalar_impl f) (program_gradient_fn f) (program_fn_vec f) (vec_lane_count f)
    (gradient_dylib f) (vector_dylib f)
    (match runtime_symbols f with Some r => Some r | None => Some with_gradient end).

(** ** The scalar entries *)

(** The first module added to the session is added to an empty dylib, so
    that a scalar entry came as far as the registration if the dylib has a
    function then. *)
Definition after_scalar (i : JitImpl) (f : FullImpl) : FullImpl :=
  let f := set_scalar i f in
  if decide (default ∅ (lljit i) = ∅) then f else register_runtime false f.

Definition FullCompile (disable : option string) (signal : SignalDef double) (symbols : SymbolTable)
    (f : FullImpl) : Res (bool * FullImpl) :=
  let f := clear_scalar_functions f in
  '(ok, i) <- Compile disable signal symbols (scalar_impl f);; Ok (ok, after_scalar i f).

(** [CompileProgram] is this with [assume_warm] false. *)
Definition FullCompileProgram (disable : option string) (signals : list (SignalDef double))
    (symbols : SymbolTable) (assume_warm : bool) (f : FullImpl) (disk : Disk) : Res (bool * FullImpl * Disk) :=
  let f := clear_functions f in
  '(ok, i, disk) <- CompileProgramSpecialized disable signals symbols assume_warm (scalar_impl f) disk;;
  Ok (ok, after_scalar i f, disk).

(** ** The gradient entry *)

Definition fail_with (msg : string) (f : FullImpl) : FullImpl :=
  set_scalar (set_last_error msg (scalar_impl f)) f.

Definition links (f : FullImpl) (code : GCode double) : bool :=
  negb (calls_gradient code) || exports_gradient_symbols || bool_decide (runtime_symbols f = Some true).
Definition lookup_gradient (f : FullImpl) (name : string) : option (GCode double) :=
  match gradient_dylib f !! name with
  | Some code => if codegen_gradient code && links f code then Some code else None
  | None => None
  end.

Definition publish_gradient (code : GCode double) (hit : bool) (f : FullImpl) : FullImpl :=
  let i := scalar_impl f in
  MkFullImpl (set_last_error "" (set_cache (cache_dir i) hit i)) (Some code) (program_fn_vec f)
    (vec_lane_count f) (gradient_dylib f) (vector_dylib f) (runtime_symbols f).

Definition ingest_gradient (m : GModule) (fn_name : string) (loaded_from_cache : bool) (f : FullImpl)
  : bool * FullImpl :=
  let f := register_runtime true f in
  match gradient_dylib f !! gmod_fn m with
  | Some _ => (false, fail_with ("Failed to add IR module: " +:+ duplicate_symbol (gmod_fn m)) f)
  | None =>
      let f := MkFullImpl (scalar_impl f) (program_gradient_fn f) (program_fn_vec f) (vec_lane_count f)
                 (<[gmod_fn m := gmod_code m]> (gradient_dylib f)) (vector_dylib f) (runtime_symbols f) in
      match lookup_gradient f fn_name with
      | Some code => (true, publish_gradient code loaded_from_cache f)
      | None => (false, fail_with ("Failed to lookup compiled symbol: " +:+ missing_symbol fn_name) f)
      end
  end.

Definition ReadGradientFromCache (src_path : string) (disk : Disk) : option GModule :=
  match disk !! src_path with
  | None => None
  | Some file => if can_read src_path then parseGradientBitcode file else None
  end.

Definition load_or_build_gradient (signals : list (SignalDef double)) (symbols : SymbolTable)
    (has_avx2 : bool) (fn_name : string) (cache_path : option string) (f : FullImpl) (disk : Disk)
  : Res (bool * FullImpl * Disk) :=
  match (path ← cache_path; ReadGradientFromCache path disk) with
  | Some m => Ok (ingest_gradient m fn_name true f, disk)
  | None =>
      match build_gradient_function
              (EmitGradientProgram hash_order (MkConfig symbols kNone has_avx2 false ∅) signals)
              "LLVM verifyFunction failed (program gradient)" with
      | Err (RuntimeError msg) => Ok (false, fail_with msg f, disk)
      | Err e => Err e
      | Ok code =>
          let m := MkGModule fn_name (optimise_gradient code) in
          let disk := match cache_path with
                      | Some path => snd (WriteFileToCache (WriteGradientBitcode m) path disk)
                      | None => disk
                      end in
          Ok (ingest_gradient m fn_name false f, disk)
      end
  end.

Definition CompileProgramGradientImpl (signals : list (SignalDef double)) (symbols : SymbolTable)
    (has_avx2 : bool) (f : FullImpl) (disk : Disk) : Res (bool * FullImpl * Disk) :=
  let i := scalar_impl f in
  let f := set_scalar (set_cache (cache_dir i) false i) f in
  match lljit i, signals with
  | None, _ => Ok (false, fail_with "LLJIT is not initialized" f, disk)
  | Some _, [] => Ok (false, fail_with "CompileProgramGradient requires at least one signal" f, disk)
  | Some _, _ :: _ =>
      if negb (cache_dir i =? "")%string then
        let hash := Fnv1aU64 (BuildCacheKeyString signals kNone false has_avx2 1 +:+ ";grad=1") in
        let fn_name := "signal_program_grad_func_" +:+ HexU64 hash in
        let cache_path := path_append (cache_dir i) (CacheFileNameForKey hash "gradscalar") in
        match lookup_gradient f fn_name with
        | Some code => Ok (true, publish_gradient code true f, disk)
        | None => load_or_build_gradient signals symbols has_avx2 fn_name (Some cache_path) f disk
        end
      else
        let n := u64 (compile_counter i + 1) in
        let f := set_scalar (set_counter n (scalar_impl f)) f in
        load_or_build_gradient signals symbols has_avx2 ("signal_program_grad_func_" +:+ to_string n) None f disk
  end.

Definition CompileProgramGradient (disable : option string) (signals : list (SignalDef double))
    (symbols : SymbolTable) (f : FullImpl) (disk : Disk) : Res (bool * FullImpl * Disk) :=
  let f := clear_functions f in
  CompileProgramGradientImpl signals symbols (HasAVX2 disable (scalar_impl f)) f disk.

(** ** The vectorised entry *)

Definition lookup_vector (f : FullImpl) (name : string) : option (list (VInstr double)) :=
  match vector_dylib f !! name with
  | Some code => if codegen_vector code then Some code else None
  | None => None
  end.

Definition ingest_vector (m : VModule) (fn_name : string) (lane_count : nat) (f : FullImpl) : bool * FullImpl :=
  let f := register_runtime false f in
  match vector_dylib f !! vmod_fn m with
  | Some _ => (false, fail_with ("Failed to add IR module: " +:+ duplicate_symbol (vmod_fn m)) f)
  | None =>
      let f := MkFullImpl (scalar_impl f) (program_gradient_fn f) (program_fn_vec f) (vec_lane_count f)
                 (gradient_dylib f) (<[vmod_fn m := vmod_code m]> (vector_dylib f)) (runtime_symbols f) in
      match lookup_vector f fn_name with
      | Some code =>
          (true, MkFullImpl (set_last_error "" (scalar_impl f)) (program_gradient_fn f) (Some code) lane_count
                   (gradient_dylib f) (vector_dylib f) (runtime_symbols f))
      | None => (false, fail_with ("Failed to lookup compiled symbol: " +:+ missing_symbol fn_name) f)
      end
  end.

(** The counter is stepped once the arguments are accepted; the cache is not
    used, and [last_cache_hit] not reset. *)
Definition CompileProgramVectorized (disable : option string) (signals : list (SignalDef double))
    (symbols : SymbolTable) (lane_count : nat) (f : FullImpl) : Res (bool * FullImpl) :=
  let f := clear_functions f in
  let i := scalar_impl f in
  match lljit i with
  | None => Ok (false, fail_with "LLJIT is not initialized" f)
  | Some _ =>
      let accepted := negb (length signals =? 0) &&
        ((lane_count =? 2) || (lane_count =? 4) || (lane_count =? 8)) in
      let n := u64 (compile_counter i + 1) in
      let f := if accepted then set_scalar (set_counter n i) f else f in
      match CompileProgramVectorizedImpl (L:=L) lane_count hash_order signals symbols (stateful_lowering i)
              (HasAVX2 disable i) with
      | Err (RuntimeError msg) => Ok (false, fail_with msg f)
      | Err e => Err e
      | Ok code =>
          let fn_name := "signal_program_vec" +:+ to_string (Z.of_nat lane_count) +:+ "_func_" +:+ to_string n in
          Ok (ingest_vector (MkVModule fn_name (optimise_vector code)) fn_name lane_count f)
      end
  end.

Definition GetProgramGradientFunction (f : FullImpl) : option (GCode double) := program_gradient_fn f.
Definition GetProgramVectorizedFunction (f : FullImpl) : option (list (VInstr double)) := program_fn_vec f.
Definition VectorizedLaneCount (f : FullImpl) : nat := vec_lane_count f.
End entries.
