(* ===== verification/RealArith.v ===== *)
(** * Exact arithmetic

    The instance of [Machine] in which [double] and [long double] are both
    the real numbers extended with a NaN: [None] is the NaN, an operation
    without a real result (a division by zero, the root of a negative
    number) is NaN, NaN propagates, and a comparison with NaN is false.
    There are no infinities and nothing is rounded.  The theorems of
    RollingFacts.v about it say what the incremental recurrences compute
    when no precision is lost. *)

From Stdlib Require Import Reals Lra.
From S2P Require Import Prelude Errors Arith.

Definition xreal := option R.

Section ops.
Local Open Scope R_scope.

Definition xop2 (f : R -> R -> xreal) (a b : xreal) : xreal :=
  match a, b with Some x, Some y => f x y | _, _ => None end.
Definition xop1 (f : R -> xreal) (a : xreal) : xreal :=
  match a with Some x => f x | None => None end.
Definition xcmp (f : R -> R -> bool) (a b : xreal) : bool :=
  match a, b with Some x, Some y => f x y | _, _ => false end.

Definition Rltb (x y : R) : bool := if Rlt_dec x y then true else false.
Definition Rleb (x y : R) : bool := if Rle_dec x y then true else false.
Definition Reqb (x y : R) : bool := if Req_dec_T x y then true else false.

#[export] Instance Fp_xreal : Fp xreal := {|
  fadd := xop2 (fun x y => Some (x + y));
  fsub := xop2 (fun x y => Some (x - y));
  fmul := xop2 (fun x y => Some (x * y));
  fdiv := xop2 (fun x y => if Reqb y 0 then None else Some (x / y));
  fopp := xop1 (fun x => Some (- x));
  fabs := xop1 (fun x => Some (Rabs x));
  fsqrt := xop1 (fun x => if Rltb x 0 then None else Some (sqrt x));
  flt := xcmp Rltb;
  fle := xcmp Rleb;
  feq := xcmp Reqb;
  fisnan a := match a with Some _ => false | None => true end;
  fnan := None;
  flit m k := Some (IZR m / 10 ^ k);
|}.

(** Truncation towards zero. *)
Definition Rtrunc (x : R) : Z := if Rltb x 0 then - Int_part (- x) else Int_part x.

#[export] Instance exact : Machine xreal xreal := {|
  dbl := Fp_xreal;
  ldb := Fp_xreal;
  ext a := a;
  trunc a := a;
  to_int := fun a =>
    match a with
    | Some x => let z := Rtrunc x in
                if ((- 2 ^ 31 <=? z) && (z <? 2 ^ 31))%Z then Some z else None
    | None => None
    end;
  dlog := xop1 (fun x => if Rltb 0 x then Some (ln x) else None);
|}.
End ops.

Lemma Rltb_spec x y : reflect (x < y)%R (Rltb x y).
Proof. unfold Rltb. destruct (Rlt_dec x y); by constructor. Qed.
Lemma Rleb_spec x y : reflect (x <= y)%R (Rleb x y).
Proof. unfold Rleb. destruct (Rle_dec x y); by constructor. Qed.
Lemma Reqb_spec x y : reflect (x = y) (Reqb x y).
Proof. unfold Reqb. destruct (Req_dec_T x y); by constructor. Qed.

Lemma fint_xreal z : (fint z : xreal) = Some (IZR z).
Proof. unfold fint. cbn. f_equal. simpl. lra. Qed.
Lemma fnat_xreal n : (fnat n : xreal) = Some (INR n).
Proof. unfold fnat. cbn. rewrite <- INR_IZR_INZ. f_equal. simpl. lra. Qed.

Lemma fadd_xreal x y : fadd (Some x : xreal) (Some y) = Some (x + y)%R.
Proof. done. Qed.
Lemma fsub_xreal x y : fsub (Some x : xreal) (Some y) = Some (x - y)%R.
Proof. done. Qed.
Lemma fmul_xreal x y : fmul (Some x : xreal) (Some y) = Some (x * y)%R.
Proof. done. Qed.
Lemma fdiv_xreal x y : y <> 0%R -> fdiv (Some x : xreal) (Some y) = Some (x / y)%R.
Proof. intros Hy. cbn. by destruct (Reqb_spec y 0). Qed.
Lemma fsqrt_xreal x : (0 <= x)%R -> fsqrt (Some x : xreal) = Some (sqrt x).
Proof. intros Hx. cbn. destruct (Rltb_spec x 0); [lra|done]. Qed.
Lemma flt_xreal x y : flt (Some x : xreal) (Some y) = Rltb x y.
Proof. done. Qed.
Lemma fle_xreal x y : fle (Some x : xreal) (Some y) = Rleb x y.
Proof. done. Qed.
Lemma feq_xreal x y : feq (Some x : xreal) (Some y) = Reqb x y.
Proof. done. Qed.

Create HintDb xreal.
#[export] Hint Rewrite fint_xreal fnat_xreal fadd_xreal fsub_xreal fmul_xreal
  flt_xreal fle_xreal feq_xreal : xreal.

(** Evaluate exact arithmetic on real arguments. *)
Ltac xreal :=
  cbn [ext trunc exact ldb dbl]; autorewrite with xreal;
  repeat (rewrite fdiv_xreal by (try assumption; try lra); autorewrite with xreal).

(** ** Sums over a list *)

Section sums.
Local Open Scope R_scope.

Definition Rsum (xs : list R) : R := foldr Rplus 0 xs.
Definition Rmean (xs : list R) : R := Rsum xs / INR (length xs).
(** The sum of the squared deviations from the mean. *)
Definition Rssd (xs : list R) : R := Rsum (map (fun x => (x - Rmean xs) ^ 2) xs).

Lemma Rsum_app xs ys : Rsum (xs ++ ys) = Rsum xs + Rsum ys.
Proof. unfold Rsum. induction xs as [|x xs IH]; simpl; [lra|]. rewrite IH. lra. Qed.

Lemma Rsum_cons x xs : Rsum (x :: xs) = x + Rsum xs.
Proof. done. Qed.

Lemma Rsum_snoc xs x : Rsum (xs ++ [x]) = Rsum xs + x.
Proof. rewrite Rsum_app, Rsum_cons. simpl. lra. Qed.

Lemma Rsum_perm xs ys : xs ≡ₚ ys -> Rsum xs = Rsum ys.
Proof. induction 1; simpl in *; lra. Qed.

Lemma Rsum_sq_dev c xs :
  Rsum (map (fun x => (x - c) ^ 2) xs) =
    Rsum (map (fun x => x ^ 2) xs) - 2 * c * Rsum xs + INR (length xs) * c ^ 2.
Proof.
  induction xs as [|x xs IH]; [simpl; lra|].
  replace (INR (length (x :: xs))) with (INR (length xs) + 1)
    by (cbn [length]; rewrite S_INR; lra).
  cbn [map Rsum foldr] in *. fold (Rsum xs) in *.
  fold (Rsum (map (fun x => (x - c) ^ 2) xs)) (Rsum (map (fun x => x ^ 2) xs)) in *.
  rewrite IH. lra.
Qed.

Lemma Rssd_closed xs :
  xs <> [] -> Rssd xs = Rsum (map (fun x => x ^ 2) xs) - Rsum xs ^ 2 / INR (length xs).
Proof.
  intros Hne. assert (INR (length xs) <> 0) by (destruct xs; [done|]; apply not_0_INR; done).
  unfold Rssd. rewrite Rsum_sq_dev. unfold Rmean. field. done.
Qed.

Lemma Rsum_nonneg xs : Forall (fun x => 0 <= x) xs -> 0 <= Rsum xs.
Proof. induction 1; simpl; lra. Qed.

Lemma Rssd_nonneg xs : 0 <= Rssd xs.
Proof.
  apply Rsum_nonneg, Forall_forall. intros y (x & -> & _)%list_elem_of_fmap.
  apply pow2_ge_0.
Qed.

Lemma Rsum_bounds lo hi xs :
  Forall (fun x => lo <= x <= hi) xs ->
  INR (length xs) * lo <= Rsum xs <= INR (length xs) * hi.
Proof.
  induction 1 as [|x xs Hx HF IH]; [simpl; lra|]. cbn [length]. rewrite S_INR. simpl. lra.
Qed.

Lemma Rmean_perm xs ys : xs ≡ₚ ys -> Rmean xs = Rmean ys.
Proof. intros Hp. unfold Rmean. by rewrite (Rsum_perm _ _ Hp), (Permutation_length Hp). Qed.

Lemma Rssd_perm xs ys : xs ≡ₚ ys -> Rssd xs = Rssd ys.
Proof.
  intros Hp. unfold Rssd. rewrite (Rmean_perm _ _ Hp). apply Rsum_perm.
  by apply Permutation_map.
Qed.
End sums.
