(* ===== verification/Calculus.v ===== *)
(** * Real functions near a point

    What the theorems about derivatives need of analysis: properties that
    hold in a neighbourhood of a point, and the derivatives of sums. *)

From Stdlib Require Import Reals Lra.
From S2P Require Import Prelude Errors Arith RealArith.

(** ** Functions near a point *)

Section near.
Local Open Scope R_scope.
Variable x0 : R.

Definition near (P : R -> Prop) : Prop :=
  exists delta, 0 < delta /\ forall x, Rabs (x - x0) < delta -> P x.

Lemma near_here P : near P -> P x0.
Proof. intros (d & Hd & HP). apply HP. by rewrite Rminus_diag, Rabs_R0. Qed.

Lemma near_always (P : R -> Prop) : (forall x, P x) -> near P.
Proof. intros HP. exists 1. split; [lra|auto]. Qed.

Lemma near_and P Q : near P -> near Q -> near (fun x => P x /\ Q x).
Proof.
  intros (d1 & H1 & HP) (d2 & H2 & HQ). exists (Rmin d1 d2).
  split; [by apply Rmin_glb_lt|]. intros x Hx.
  pose proof (Rmin_l d1 d2). pose proof (Rmin_r d1 d2). split; [apply HP|apply HQ]; lra.
Qed.

Lemma near_impl (P Q : R -> Prop) : (forall x, P x -> Q x) -> near P -> near Q.
Proof. intros HPQ (d & Hd & HP). exists d. auto. Qed.

Lemma near_ext f g d :
  near (fun x => f x = g x) -> derivable_pt_lim f x0 d -> derivable_pt_lim g x0 d.
Proof.
  intros (delta & Hd & He). apply derivable_pt_lim_locally_ext with (x0 - delta) (x0 + delta);
    [lra|]. intros z Hz. apply He. apply Rabs_def1; lra.
Qed.

Lemma near_close f d eps :
  derivable_pt_lim f x0 d -> 0 < eps -> near (fun x => Rabs (f x - f x0) < eps).
Proof.
  intros Hf He. assert (Hc : continuity_pt f x0).
  { apply derivable_continuous_pt. by exists d. }
  destruct (Hc eps He) as (delta & Hd & Hx). exists delta. split; [done|]. intros x Hlt.
  destruct (Req_dec_T x x0) as [->|Hne]; [by rewrite Rminus_diag, Rabs_R0|].
  apply (Hx x). split; [|exact Hlt]. split; [done|]. by intros E.
Qed.

(** A smooth function that is not zero at the point keeps its sign. *)
Lemma near_pos f d : derivable_pt_lim f x0 d -> 0 < f x0 -> near (fun x => 0 < f x).
Proof.
  intros Hf Hp. apply near_impl with (2 := near_close f d (f x0) Hf Hp). intros x Hx.
  apply Rabs_def2 in Hx. lra.
Qed.

Lemma near_neg f d : derivable_pt_lim f x0 d -> f x0 < 0 -> near (fun x => f x < 0).
Proof.
  intros Hf Hp. assert (He : 0 < - f x0) by lra.
  apply near_impl with (2 := near_close f d (- f x0) Hf He). intros x Hx.
  apply Rabs_def2 in Hx. lra.
Qed.

Lemma near_nonzero f d : derivable_pt_lim f x0 d -> f x0 <> 0 -> near (fun x => f x <> 0).
Proof.
  intros Hf Hn. destruct (Rdichotomy _ _ Hn) as [Hl|Hg].
  - apply near_impl with (2 := near_neg f d Hf Hl). intros x ?. lra.
  - apply near_impl with (2 := near_pos f d Hf Hg). intros x ?. lra.
Qed.

(** The absolute value of a smooth function keeps its side of a threshold. *)
Lemma near_threshold f d c :
  derivable_pt_lim f x0 d -> Rabs (f x0) <> c ->
  near (fun x => Rltb (Rabs (f x)) c = Rltb (Rabs (f x0)) c).
Proof.
  intros Hf Hn. assert (He : 0 < Rabs (Rabs (f x0) - c)) by (apply Rabs_pos_lt; lra).
  apply near_impl with (2 := near_close f d _ Hf He). intros x Hx.
  pose proof (Rabs_triang_inv2 (f x) (f x0)).
  assert (Hd : Rabs (Rabs (f x) - Rabs (f x0)) < Rabs (Rabs (f x0) - c)) by lra.
  apply Rabs_def2 in Hd.
  destruct (Rltb_spec (Rabs (f x)) c), (Rltb_spec (Rabs (f x0)) c); try done; exfalso.
  - rewrite (Rabs_right (Rabs (f x0) - c)) in Hd by lra. lra.
  - rewrite (Rabs_left (Rabs (f x0) - c)) in Hd by lra. lra.
Qed.

Lemma derivable_pt_lim_Rabs f d :
  derivable_pt_lim f x0 d -> f x0 <> 0 ->
  derivable_pt_lim (fun x => Rabs (f x)) x0 (if Rltb 0 (f x0) then d else - d).
Proof.
  intros Hf Hn. destruct (Rltb_spec 0 (f x0)) as [Hp|Hp].
  - apply near_ext with f; [|done]. apply near_impl with (2 := near_pos f d Hf Hp).
    intros x Hx. rewrite Rabs_right; lra.
  - assert (Hp' : f x0 < 0) by lra. apply near_ext with (fun x => - f x).
    + apply near_impl with (2 := near_neg f d Hf Hp'). intros x Hx. rewrite Rabs_left; lra.
    + by apply derivable_pt_lim_opp.
Qed.
End near.

(** ** Derivatives *)

Section derivatives.
Local Open Scope R_scope.
Variable x0 : R.

Lemma derivable_eq f g a b :
  derivable_pt_lim f x0 a -> (forall x, f x = g x) -> a = b -> derivable_pt_lim g x0 b.
Proof. intros Hf He <-. apply (derivable_pt_lim_ext f); auto. Qed.

(** A sum of differentiable terms. *)
Lemma derivable_Rsum {A} (f : A -> R -> R) (d : A -> R) (w : list A) :
  Forall (fun a => derivable_pt_lim (f a) x0 (d a)) w ->
  derivable_pt_lim (fun x => Rsum (map (fun a => f a x) w)) x0 (Rsum (map d w)).
Proof.
  induction 1 as [|a w Ha HF IH]; [apply derivable_pt_lim_const|].
  by apply (derivable_pt_lim_plus (f a) (fun x => Rsum (map (fun a => f a x) w))).
Qed.

Lemma derivable_scale f d c :
  derivable_pt_lim f x0 d -> derivable_pt_lim (fun x => c * f x) x0 (c * d).
Proof. apply (derivable_pt_lim_scal f c). Qed.

Lemma derivable_over f d c :
  derivable_pt_lim f x0 d -> derivable_pt_lim (fun x => f x / c) x0 (d / c).
Proof.
  intros Hf. eapply derivable_eq; [apply (derivable_scale f d (/ c) Hf)| |];
    intros; unfold Rdiv; ring.
Qed.

Lemma derivable_prod f g df dg :
  derivable_pt_lim f x0 df -> derivable_pt_lim g x0 dg ->
  derivable_pt_lim (fun x => f x * g x) x0 (df * g x0 + f x0 * dg).
Proof. apply (derivable_pt_lim_mult f g). Qed.

Lemma derivable_quot f g df dg :
  derivable_pt_lim f x0 df -> derivable_pt_lim g x0 dg -> g x0 <> 0 ->
  derivable_pt_lim (fun x => f x / g x) x0 ((df * g x0 - f x0 * dg) / (g x0 * g x0)).
Proof.
  intros Hf Hg Hn. eapply derivable_eq; [apply (derivable_pt_lim_div f g x0 df dg Hf Hg Hn)| |].
  - done.
  - unfold Rsqr. by field.
Qed.

Lemma derivable_sqrt f d :
  derivable_pt_lim f x0 d -> 0 < f x0 ->
  derivable_pt_lim (fun x => sqrt (f x)) x0 (d / (2 * sqrt (f x0))).
Proof.
  intros Hf Hp. pose proof (sqrt_lt_R0 _ Hp).
  eapply derivable_eq; [apply (derivable_pt_lim_comp f sqrt x0 d); [exact Hf|]| |].
  - by apply derivable_pt_lim_sqrt.
  - done.
  - field. lra.
Qed.
End derivatives.
