(* ===== verification/ArithLaws.v ===== *)
(** * Laws of the arithmetic

    What the theorems need to know about [Fp] and [Machine] beyond their
    operations, as classes, discharged for IEEE-754 and for exact
    arithmetic: [OrderLaws] (the comparisons are a total preorder on the
    values other than NaN and false on NaN), [NanLaws] (NaN propagates) and
    [BoolLaws] (0 and 1 are told apart). *)

From Stdlib Require Import Reals Lra.
From S2P Require Import Prelude Errors Arith RealArith.
From Corelib Require Import SpecFloat.

Class OrderLaws (T : Type) `{Fp T} : Prop := {
  fle_total (x y : T) :
    fisnan x = false -> fisnan y = false -> fle x y = true \/ fle y x = true;
  fle_trans (x y z : T) : fle x y = true -> fle y z = true -> fle x z = true;
  fle_notnan (x y : T) : fle x y = true -> fisnan x = false /\ fisnan y = false;
  flt_fle (x y : T) :
    flt x y = negb (fisnan x) && negb (fisnan y) && negb (fle y x);
  feq_fle (x y : T) : feq x y = fle x y && fle y x;
}.

Class NanLaws (D L : Type) `{Machine D L} : Prop := {
  fadd_nan_l (x : L) : fadd fnan x = fnan;
  fadd_nan_r (x : L) : fadd x fnan = fnan;
  fsub_nan_l (x : L) : fsub fnan x = fnan;
  fsub_nan_r (x : L) : fsub x fnan = fnan;
  fdiv_nan_l (x : L) : fdiv fnan x = fnan;
  ext_nan : ext (fnan : D) = (fnan : L);
  trunc_nan : trunc (fnan : L) = (fnan : D);
  fisnan_fnan : fisnan (fnan : D) = true;
}.

(** The truth values the program computes with. *)
Class BoolLaws (T : Type) `{Fp T} : Prop := {
  feq_00 : feq (fint 0 : T) (fint 0) = true;
  feq_10 : feq (fint 1 : T) (fint 0) = false;
}.

(** ** IEEE-754 *)

(** A key whose lexicographic order is [SFcompare]. *)
Definition sf_key (x : spec_float) : Z * Z * Z :=
  match x with
  | S754_infinity true => (0, 0, 0)
  | S754_finite true m e => (1, - e, - Zpos m)
  | S754_zero _ => (2, 0, 0)
  | S754_finite false m e => (3, e, Zpos m)
  | S754_infinity false => (4, 0, 0)
  | S754_nan => (5, 0, 0)
  end%Z.

Definition key_le (a b : Z * Z * Z) : Prop :=
  let '(a1, a2, a3) := a in
  let '(b1, b2, b3) := b in
  (a1 < b1 \/ (a1 = b1 /\ (a2 < b2 \/ (a2 = b2 /\ a3 <= b3))))%Z.

Lemma SFcompare_key x y :
  sf_isnan x = false -> sf_isnan y = false ->
  match SFcompare x y with
  | Some Datatypes.Eq => sf_key x = sf_key y
  | Some Lt => key_le (sf_key x) (sf_key y) /\ sf_key x <> sf_key y
  | Some Gt => key_le (sf_key y) (sf_key x) /\ sf_key x <> sf_key y
  | None => False
  end.
Proof.
  destruct x as [sx|sx| |sx mx ex], y as [sy|sy| |sy my ey]; try done; intros _ _;
    try destruct sx; try destruct sy; simpl; try done;
    try (split; [left; lia|congruence || (intros E; injection E; lia)]);
    fold (Pos.compare mx my);
    destruct (Z.compare_spec ex ey); try destruct (Pos.compare_spec mx my); simpl; subst;
    try done; (split; [lia|intros E; injection E; lia]).
Qed.

Lemma SFleb_key x y :
  SFleb x y = true <->
  sf_isnan x = false /\ sf_isnan y = false /\ key_le (sf_key x) (sf_key y).
Proof.
  unfold SFleb. destruct (sf_isnan x) eqn:Hx.
  { destruct x; try done. simpl. split; [done|intros [? _]; done]. }
  destruct (sf_isnan y) eqn:Hy.
  { destruct y; try done. destruct x; simpl; (split; [done|intros (_ & ? & _); done]). }
  pose proof (SFcompare_key x y Hx Hy) as Hk.
  destruct (SFcompare x y) as [[]|]; [| | |done].
  - rewrite Hk. split; [|done]. intros _. split_and!; try done.
    destruct (sf_key y) as [[? ?] ?]. simpl. lia.
  - destruct Hk. tauto.
  - destruct Hk as [Hle Hne]. split; [done|]. intros (_ & _ & Hle').
    exfalso. apply Hne. destruct (sf_key x) as [[? ?] ?], (sf_key y) as [[? ?] ?].
    simpl in *. repeat f_equal; lia.
Qed.

Lemma SFltb_SFleb x y :
  SFltb x y = negb (sf_isnan x) && negb (sf_isnan y) && negb (SFleb y x).
Proof.
  destruct (sf_isnan x) eqn:Hx; [by destruct x|].
  destruct (sf_isnan y) eqn:Hy; [by destruct y, x|]. simpl.
  unfold SFltb. pose proof (SFcompare_key x y Hx Hy) as Hk.
  destruct (SFleb y x) eqn:Hle.
  - apply SFleb_key in Hle as (_ & _ & Hle). destruct (SFcompare x y) as [[]|]; try done.
    destruct Hk as [Hle' Hne]. exfalso. apply Hne.
    destruct (sf_key x) as [[? ?] ?], (sf_key y) as [[? ?] ?]. simpl in *. repeat f_equal; lia.
  - destruct (SFcompare x y) as [[]|] eqn:Hc; try done; exfalso.
    + apply not_true_iff_false in Hle. apply Hle, SFleb_key. rewrite Hk. split_and!; try done.
      destruct (sf_key y) as [[? ?] ?]. simpl. lia.
    + apply not_true_iff_false in Hle. apply Hle, SFleb_key. tauto.
Qed.

Lemma SFeqb_SFleb x y : SFeqb x y = SFleb x y && SFleb y x.
Proof.
  destruct (sf_isnan x) eqn:Hx; [by destruct x, y|].
  destruct (sf_isnan y) eqn:Hy; [by destruct y, x|].
  apply eq_true_iff_eq. rewrite andb_true_iff, !SFleb_key.
  pose proof (SFcompare_key x y Hx Hy) as Hk. unfold SFeqb.
  assert (Hanti : key_le (sf_key x) (sf_key y) -> key_le (sf_key y) (sf_key x) ->
                  sf_key x = sf_key y).
  { destruct (sf_key x) as [[? ?] ?], (sf_key y) as [[? ?] ?]. simpl. intros.
    repeat f_equal; lia. }
  destruct (SFcompare x y) as [[]|]; [| | |done].
  - rewrite Hk. split; [|done]. intros _. destruct (sf_key y) as [[? ?] ?]. simpl.
    split_and!; (done || lia).
  - split; [done|]. intros [(_ & _ & ?) (_ & _ & ?)]. destruct Hk as [_ []]. auto.
  - split; [done|]. intros [(_ & _ & ?) (_ & _ & ?)]. destruct Hk as [_ []]. auto.
Qed.

Lemma SFleb_total x y :
  sf_isnan x = false -> sf_isnan y = false -> SFleb x y = true \/ SFleb y x = true.
Proof.
  intros Hx Hy. rewrite !SFleb_key.
  assert (key_le (sf_key x) (sf_key y) \/ key_le (sf_key y) (sf_key x)); [|tauto].
  destruct (sf_key x) as [[? ?] ?], (sf_key y) as [[? ?] ?]. simpl. lia.
Qed.

Lemma SFleb_trans x y z : SFleb x y = true -> SFleb y z = true -> SFleb x z = true.
Proof.
  rewrite !SFleb_key. intros (Hx & _ & H1) (_ & Hz & H2). split_and!; try done.
  destruct (sf_key x) as [[? ?] ?], (sf_key y) as [[? ?] ?], (sf_key z) as [[? ?] ?].
  simpl in *. lia.
Qed.

#[export] Instance OrderLaws_double : @OrderLaws double Fp_double.
Proof.
  split; intros; simpl in *.
  - by apply SFleb_total.
  - by eapply SFleb_trans.
  - apply SFleb_key in H as (? & ? & _). done.
  - apply SFltb_SFleb.
  - apply SFeqb_SFleb.
Qed.

#[export] Instance OrderLaws_long_double : @OrderLaws long_double Fp_long_double.
Proof.
  split; intros; simpl in *.
  - by apply SFleb_total.
  - by eapply SFleb_trans.
  - apply SFleb_key in H as (? & ? & _). done.
  - apply SFltb_SFleb.
  - apply SFeqb_SFleb.
Qed.

#[export] Instance NanLaws_ieee log : @NanLaws double long_double (ieee log).
Proof.
  split; try done; intros [[]]; try done.
Qed.

#[export] Instance BoolLaws_double : @BoolLaws double Fp_double.
Proof. by split. Qed.

(** ** Exact arithmetic *)

#[export] Instance OrderLaws_xreal : @OrderLaws xreal Fp_xreal.
Proof.
  split.
  - intros [x|] [y|]; simpl; try done. intros _ _.
    destruct (Rleb_spec x y), (Rleb_spec y x); try tauto. lra.
  - intros [x|] [y|] [z|]; simpl; try done.
    destruct (Rleb_spec x y), (Rleb_spec y z), (Rleb_spec x z); try done. lra.
  - intros [x|] [y|]; simpl; try done.
  - intros [x|] [y|]; simpl; try done. destruct (Rltb_spec x y), (Rleb_spec y x); try done; lra.
  - intros [x|] [y|]; simpl; try done.
    destruct (Reqb_spec x y), (Rleb_spec x y), (Rleb_spec y x); try done; lra.
Qed.

#[export] Instance NanLaws_exact : @NanLaws xreal xreal exact.
Proof. split; try done; intros [|]; done. Qed.

#[export] Instance BoolLaws_xreal : @BoolLaws xreal Fp_xreal.
Proof.
  split; rewrite !fint_xreal; simpl.
  - by destruct (Reqb_spec 0 0).
  - destruct (Reqb_spec 1 0); [lra|done].
Qed.
