(* ===== verification/RollingFacts.v ===== *)
(** * Correctness of the rolling operators

    What the recurrences of Rolling.v maintain: the rings hold the last
    [period] samples, and in exact arithmetic the running sums, means and
    sums of squares are those of that window. *)

From Stdlib Require Import Reals Lra.
From S2P Require Import Prelude Errors Arith RealArith Rolling.

(** Push a list of samples in order. *)
Fixpoint push_all {S A} (push : S -> A -> Res S) (st : S) (xs : list A) : Res S :=
  match xs with [] => Ok st | x :: xs' => st <- push st x;; push_all push st xs' end.

(** An invariant relating the samples pushed so far to the state, kept while
    the samples satisfy a prefix-closed condition [Q]. *)
Lemma push_all_inv_if {S A} (push : S -> A -> Res S) (Q : list A -> Prop)
  (P : list A -> S -> Prop) xs0 st xs :
  (forall l1 l2, Q (l1 ++ l2) -> Q l1) ->
  (forall xs st x, Q (xs ++ [x]) -> P xs st ->
     exists st', push st x = Ok st' /\ P (xs ++ [x]) st') ->
  Q (xs0 ++ xs) -> P xs0 st ->
  exists st', push_all push st xs = Ok st' /\ P (xs0 ++ xs) st'.
Proof.
  intros Hpre Hstep. revert xs0 st. induction xs as [|x xs IH]; intros xs0 st HQ HP; simpl.
  - exists st. by rewrite app_nil_r.
  - replace (xs0 ++ x :: xs) with ((xs0 ++ [x]) ++ xs) in * by by rewrite <- app_assoc.
    destruct (Hstep _ _ x (Hpre _ _ HQ) HP) as (st' & -> & HP'). simpl. by apply IH.
Qed.

Lemma push_all_inv {S A} (push : S -> A -> Res S) (P : list A -> S -> Prop) xs0 st xs :
  (forall xs st x, P xs st -> exists st', push st x = Ok st' /\ P (xs ++ [x]) st') ->
  P xs0 st -> exists st', push_all push st xs = Ok st' /\ P (xs0 ++ xs) st'.
Proof. intros Hstep HP. by apply (push_all_inv_if push (fun _ => True)); auto. Qed.

(** The same from a state that the first push prepares. *)
Lemma push_all_fresh {S A} (push : S -> A -> Res S) (P : list A -> S -> Prop) init x xs :
  (exists st, push init x = Ok st /\ P [x] st) ->
  (forall xs st x, P xs st -> exists st', push st x = Ok st' /\ P (xs ++ [x]) st') ->
  exists st, push_all push init (x :: xs) = Ok st /\ P (x :: xs) st.
Proof.
  intros (st & Hpush & HP) Hstep. simpl. rewrite Hpush. simpl.
  exact (push_all_inv push P [x] st xs Hstep HP).
Qed.

Lemma set_idx_Ok {A} what (l : list A) i x :
  i < length l -> set_idx what l i x = Ok (<[i := x]> l).
Proof. intros Hi. unfold set_idx. by rewrite decide_True. Qed.

Lemma at_idx_lt {A} what (l : list A) i :
  i < length l -> exists x, at_idx what l i = Ok x /\ l !! i = Some x.
Proof.
  intros Hi. unfold at_idx. destruct (lookup_lt_is_Some_2 l i Hi) as [x Hx].
  exists x. by rewrite Hx.
Qed.

(** ** Windows *)

Section shape.
Context {D L : Type} `{Machine D L}.

(** Which states of a ring operator hold the last [period] of [xs]. *)
Definition ring_holds (period : nat) (xs : list D) (st : RingStatsState D L) : Prop :=
  capacity st = period /\ ring_rep period (buffer st) (head st) (count st) xs.

Definition vwap_holds (period : nat) (xs : list (D * D)) (st : VwapState D L) : Prop :=
  v_capacity st = period /\
  ring_rep period (price_buf st) (v_head st) (v_count st) (map fst xs) /\
  ring_rep period (vol_buf st) (v_head st) (v_count st) (map snd xs).

Definition pair_holds (period : nat) (xs : list (D * D)) (st : RollingPairState D L)
  : Prop :=
  p_capacity st = period /\
  ring_rep period (x_buf st) (p_head st) (p_count st) (map fst xs) /\
  ring_rep period (y_buf st) (p_head st) (p_count st) (map snd xs).

Lemma ring_holds_prepare period (st : RingStatsState D L) :
  0 < period -> capacity st <> period -> ring_holds period [] (RingStatsPrepare period st).
Proof.
  intros Hp Hc. unfold RingStatsPrepare. rewrite decide_False by done.
  split; [done|]. apply ring_rep_nil; [done|]. apply length_replicate.
Qed.

(** The two shapes of a step on a well-formed ring. *)
Lemma RingStatsStep_fill (st : RingStatsState D L) x :
  head st < length (buffer st) -> count st <> capacity st ->
  RingStatsStep st x =
    let st1 := RingStatsUpdateMeanM2OnAdd
      (MkRing (buffer st) (capacity st) (head st) (S (count st)) (sum st) (mean st)
         (m2 st) (slides_since_refresh st)) x in
    Ok (MkRing (<[head st := x]> (buffer st)) (capacity st) (S (head st) mod capacity st)
          (S (count st)) (fadd (sum st) (ext x)) (mean st1) (m2 st1)
          (slides_since_refresh st)).
Proof.
  intros Hh Hc. unfold RingStatsStep. destruct (Nat.eqb_spec (count st) (capacity st)); [done|].
  simpl. by rewrite set_idx_Ok.
Qed.

Definition maybe_refresh (st : RingStatsState D L) : RingStatsState D L :=
  if (RingStatsRefreshInterval (capacity st) <=? slides_since_refresh st) &&
     (1 <? capacity st)
  then RingStatsRefreshMeanM2FromBuffer st else st.

Lemma RingStatsStep_slide (st : RingStatsState D L) old x :
  buffer st !! head st = Some old -> count st = capacity st ->
  RingStatsStep st x =
    let st1 := RingStatsUpdateMeanM2OnSlide
      (MkRing (buffer st) (capacity st) (head st) (count st) (fsub (sum st) (ext old))
         (mean st) (m2 st) (slides_since_refresh st)) old x in
    Ok (maybe_refresh
          (MkRing (<[head st := x]> (buffer st)) (capacity st) (S (head st) mod capacity st)
             (count st) (fadd (fsub (sum st) (ext old)) (ext x)) (mean st1) (m2 st1)
             (S (slides_since_refresh st)))).
Proof.
  intros Ho Hc. unfold RingStatsStep. rewrite Hc, Nat.eqb_refl. unfold at_idx. rewrite Ho.
  simpl. unfold RingStatsUpdateMeanM2OnSlide. cbn [capacity count mean m2].
  destruct (capacity st <=? 1); simpl;
    rewrite set_idx_Ok by (by eapply lookup_lt_Some); done.
Qed.

Lemma maybe_refresh_frame (st : RingStatsState D L) :
  buffer (maybe_refresh st) = buffer st /\ capacity (maybe_refresh st) = capacity st /\
  head (maybe_refresh st) = head st /\ count (maybe_refresh st) = count st /\
  sum (maybe_refresh st) = sum st.
Proof. unfold maybe_refresh. by destruct (_ && _). Qed.

Lemma RingStatsStep_holds period xs (st : RingStatsState D L) x :
  ring_holds period xs st ->
  exists st', RingStatsStep st x = Ok st' /\ ring_holds period (xs ++ [x]) st'.
Proof.
  intros [Hc Hr]. pose proof Hr as [Hp Hl Hh _ _ _].
  pose proof (ring_rep_step _ _ _ _ _ x Hr) as Hr'.
  destruct (decide (count st = capacity st)) as [Hf|Hf].
  - destruct (lookup_lt_is_Some_2 (buffer st) (head st)) as [old Ho]; [lia|].
    rewrite (RingStatsStep_slide _ _ _ Ho Hf). simpl. eexists. split; [done|].
    unfold ring_holds. destruct (maybe_refresh_frame
      (MkRing (<[head st := x]> (buffer st)) (capacity st) (S (head st) mod capacity st)
         (count st) (fadd (fsub (sum st) (ext old)) (ext x))
         (mean (RingStatsUpdateMeanM2OnSlide
           (MkRing (buffer st) (capacity st) (head st) (count st) (fsub (sum st) (ext old))
             (mean st) (m2 st) (slides_since_refresh st)) old x))
         (m2 (RingStatsUpdateMeanM2OnSlide
           (MkRing (buffer st) (capacity st) (head st) (count st) (fsub (sum st) (ext old))
             (mean st) (m2 st) (slides_since_refresh st)) old x))
         (S (slides_since_refresh st)))) as (-> & -> & -> & -> & _).
    simpl. split; [done|]. rewrite Hc. rewrite Hf, Hc, Nat.eqb_refl in Hr'.
    by rewrite Hf, Hc.
  - rewrite RingStatsStep_fill by (done || lia). simpl. eexists. split; [done|].
    split; [done|]. simpl. rewrite Hc. destruct (Nat.eqb_spec (count st) period); [lia|done].
Qed.
End shape.

(** ** Delays *)

Section lag.
Context {D : Type} `{Fp D}.

Definition lag_holds (period : nat) (xs : list D) (st : LagState D) : Prop :=
  l_capacity st = period /\ ring_rep period (l_buffer st) (l_head st) (l_count st) xs.

Lemma lag_holds_prepare period (st : LagState D) :
  0 < period -> l_capacity st <> period -> lag_holds period [] (LagPrepare period st).
Proof.
  intros Hp Hc. unfold LagPrepare. rewrite decide_False by done.
  split; [done|]. apply ring_rep_nil; [done|]. apply length_replicate.
Qed.

Lemma LagStep_holds period xs st x :
  lag_holds period xs st ->
  exists st', LagStep st x = Ok st' /\ lag_holds period (xs ++ [x]) st'.
Proof.
  intros [Hc Hr]. unfold LagStep. pose proof (rr_len _ _ _ _ _ Hr).
  pose proof (rr_head _ _ _ _ _ Hr). rewrite set_idx_Ok by lia. simpl.
  eexists. split; [done|]. split; [done|]. simpl. rewrite Hc.
  pose proof (ring_rep_step _ _ _ _ _ x Hr) as Hr'.
  replace (if l_count st <? period then S (l_count st) else l_count st)
    with (if l_count st =? period then l_count st else S (l_count st)); [done|].
  pose proof (rr_count _ _ _ _ _ Hr).
  destruct (Nat.eqb_spec (l_count st) period), (Nat.ltb_spec (l_count st) period); lia.
Qed.

(** The value read from a ring of lag [period] after the samples [xs]. *)
Definition lag_of (period : nat) (xs : list D) : D :=
  if length xs <? period then fnan else default fnan (xs !! (length xs - period)).

Lemma LagValue_holds period xs st :
  lag_holds period xs st -> LagValue st = Ok (lag_of period xs).
Proof.
  intros [Hc Hr]. pose proof Hr as [Hp Hl Hh Hcount _ _]. unfold LagValue, lag_of. rewrite Hc.
  destruct (Nat.eqb_spec period 0) as [|_]; [lia|]. simpl.
  destruct (Nat.ltb_spec (l_count st) period), (Nat.ltb_spec (length xs) period);
    try lia; [done|].
  destruct (at_idx_lt "buffer[head]" (l_buffer st) (l_head st)) as (y & -> & Hy); [lia|].
  apply (ring_rep_oldest _ _ _ _ _ _ Hr) in Hy as [_ ->]; [done|lia].
Qed.

End lag.

(** ** Exact arithmetic: sma, rolling_std, zscore *)

Section exact_ring.
Local Open Scope R_scope.

Lemma length_pos (w : list R) : w <> [] -> INR (length w) <> 0.
Proof. intros Hw. destruct w; [done|]. by apply not_0_INR. Qed.

Lemma Rmean_nil : Rmean [] = 0.
Proof. unfold Rmean. simpl. unfold Rdiv. apply Rmult_0_l. Qed.

Lemma Rmean_snoc w x :
  Rmean (w ++ [x]) = Rmean w + (x - Rmean w) / INR (S (length w)).
Proof.
  destruct w as [|y w].
  - rewrite Rmean_nil. unfold Rmean. simpl. field.
  - pose proof (length_pos (y :: w) ltac:(done)). pose proof (pos_INR (length (y :: w))).
    unfold Rmean. rewrite Rsum_app, length_app, Nat.add_1_r, S_INR.
    set (s := Rsum (y :: w)). set (n := INR (length (y :: w))) in *. simpl.
    field. split; lra.
Qed.

Lemma Rssd_snoc w x :
  Rssd (w ++ [x]) = Rssd w + (x - Rmean w) * (x - Rmean (w ++ [x])).
Proof.
  rewrite Rmean_snoc, S_INR. destruct w as [|y w].
  - rewrite Rmean_nil. unfold Rssd, Rmean. simpl. field.
  - pose proof (length_pos (y :: w) ltac:(done)). pose proof (pos_INR (length (y :: w))).
    rewrite !Rssd_closed by (done || by destruct w). unfold Rmean.
    rewrite map_app, !Rsum_app, length_app, Nat.add_1_r, S_INR.
    set (q := Rsum (map _ (y :: w))). set (s := Rsum (y :: w)) in *.
    set (n := INR (length (y :: w))) in *. simpl. field. split; lra.
Qed.

(** Removing the oldest sample of a window of at least two. *)
Lemma Rmean_remove y t :
  t <> [] ->
  Rmean t = Rmean (y :: t) - (y - Rmean (y :: t)) / (INR (length (y :: t)) - 1).
Proof.
  intros Ht. pose proof (length_pos t Ht). unfold Rmean. cbn [length]. rewrite S_INR.
  pose proof (pos_INR (length t)). simpl. fold (Rsum t). field. lra.
Qed.

Lemma Rssd_remove y t :
  Rssd t = Rssd (y :: t) - (y - Rmean (y :: t)) * (y - Rmean t).
Proof.
  assert (Hp : y :: t ≡ₚ t ++ [y]) by apply Permutation_cons_append.
  rewrite (Rssd_perm _ _ Hp), (Rmean_perm _ _ Hp), Rssd_snoc. ring.
Qed.

(** The running sums of [st] are those of the window of [xs]. *)
Record ring_exact (period : nat) (xs : list xreal) (st : RingStatsState xreal xreal)
  : Prop := {
  re_holds : ring_holds period xs st;
  re_window : exists w, last_n period xs = map Some w /\
    sum st = Some (Rsum w) /\ mean st = Some (Rmean w) /\ m2 st = Some (Rssd w);
}.

Lemma foldl_exact (f : xreal -> xreal -> xreal) (g : R -> R) w acc :
  (forall a x, f (Some a) (Some x) = Some (a + g x)) ->
  foldl f (Some acc) (map Some w) = Some (acc + Rsum (map g w)).
Proof.
  intros Hf. revert acc. induction w as [|x w IH]; intros acc; simpl.
  - f_equal. lra.
  - rewrite Hf, IH. f_equal. simpl. fold (Rsum (map g w)). lra.
Qed.

Lemma sum_ext_exact w : sum_ext (map Some w) = Some (Rsum w).
Proof.
  unfold sum_ext. rewrite fint_xreal, (foldl_exact _ (fun x => x)) by done.
  rewrite map_id. f_equal. lra.
Qed.

Lemma sum_sq_dev_exact c w :
  sum_sq_dev (Some c) (map Some w) = Some (Rsum (map (fun x => (x - c) ^ 2) w)).
Proof.
  unfold sum_sq_dev. rewrite fint_xreal, (foldl_exact _ (fun x => (x - c) ^ 2)).
  - f_equal. lra.
  - intros a x. cbn [ext exact]. rewrite fsub_xreal, fmul_xreal, fadd_xreal. f_equal. ring.
Qed.

Lemma clamp0_exact x : 0 <= x ->
  (if flt (Some x : xreal) (fint 0) then fint 0 else Some x) = Some x.
Proof.
  intros Hx. rewrite fint_xreal, flt_xreal. destruct (Rltb_spec x 0); [lra|done].
Qed.

Lemma map_Some_perm (w : list R) (l : list xreal) :
  l ≡ₚ map Some w -> exists w', l = map Some w' /\ w' ≡ₚ w.
Proof.
  intros Hp. apply Permutation_map_inv in Hp as (w' & -> & Hp'). by exists w'.
Qed.
(** One push of a prepared ring. *)
Lemma RingStatsOnAdd_exact (st : RingStatsState xreal xreal) w x :
  count st = S (length w) -> mean st = Some (Rmean w) -> m2 st = Some (Rssd w) ->
  mean (RingStatsUpdateMeanM2OnAdd st (Some x)) = Some (Rmean (w ++ [x])) /\
  m2 (RingStatsUpdateMeanM2OnAdd st (Some x)) = Some (Rssd (w ++ [x])).
Proof.
  intros Hc Hm H2. unfold RingStatsUpdateMeanM2OnAdd. rewrite Hc, Hm, H2.
  assert (INR (S (length w)) <> 0) by (by apply not_0_INR).
  cbn [mean m2]. xreal. rewrite Rssd_snoc. rewrite Rmean_snoc. done.
Qed.

Lemma RingStatsOnSlide_exact (st : RingStatsState xreal xreal) y t x :
  capacity st = S (length t) -> count st = S (length t) ->
  mean st = Some (Rmean (y :: t)) -> m2 st = Some (Rssd (y :: t)) ->
  mean (RingStatsUpdateMeanM2OnSlide st (Some y) (Some x)) = Some (Rmean (t ++ [x])) /\
  m2 (RingStatsUpdateMeanM2OnSlide st (Some y) (Some x)) = Some (Rssd (t ++ [x])).
Proof.
  intros Hk Hc Hm H2. unfold RingStatsUpdateMeanM2OnSlide. rewrite Hk, Hc, Hm, H2.
  destruct t as [|z t].
  - cbn [length Nat.leb ext exact mean m2 app]. rewrite fint_xreal.
    unfold Rssd, Rmean. simpl. split; f_equal; field.
  - cbn [length Nat.leb]. set (t' := z :: t).
    assert (Hn : INR (S (length t')) - 1 <> 0)
      by (rewrite S_INR; pose proof (length_pos t' ltac:(done)); lra).
    assert (INR (S (length t')) <> 0) by (by apply not_0_INR).
    change (S (S (length t))) with (S (length t')).
    pose proof (Rmean_remove y t' ltac:(done)) as HR. cbn [length] in HR.
    pose proof (Rssd_remove y t') as HS.
    cbn [ext exact]. xreal. rewrite <- HR, <- HS. rewrite <- Rmean_snoc, <- Rssd_snoc.
    destruct (Rltb_spec (Rssd (t' ++ [x])) 0); [|done].
    pose proof (Rssd_nonneg (t' ++ [x])). lra.
Qed.

Lemma RingStatsRefresh_exact (st : RingStatsState xreal xreal) w :
  count st = length w -> w <> [] -> take (count st) (buffer st) ≡ₚ map Some w ->
  mean (RingStatsRefreshMeanM2FromBuffer st) = Some (Rmean w) /\
  m2 (RingStatsRefreshMeanM2FromBuffer st) = Some (Rssd w).
Proof.
  intros Hc Hne Hp. apply map_Some_perm in Hp as (w' & Hw' & Hp).
  unfold RingStatsRefreshMeanM2FromBuffer. rewrite Hw', Hc. cbn [mean m2].
  pose proof (length_pos _ Hne). rewrite sum_ext_exact. xreal.
  rewrite <- (Permutation_length Hp). fold (Rmean w').
  rewrite sum_sq_dev_exact. fold (Rssd w'). xreal.
  destruct (Rltb_spec (Rssd w') 0); [pose proof (Rssd_nonneg w'); lra|].
  by rewrite (Rssd_perm _ _ Hp), (Rmean_perm _ _ Hp).
Qed.

Lemma last_n_map_tail period (xs : list xreal) w x :
  (0 < period)%nat -> (period <= length xs)%nat -> last_n period xs = map Some w ->
  exists y t, w = y :: t /\ S (length t) = period /\
    last_n period (xs ++ [Some x]) = map Some (t ++ [x]).
Proof.
  intros Hp Hle Hw. pose proof (length_last_n period xs) as Hlen.
  rewrite Hw, length_map in Hlen. destruct w as [|y t]; simpl in Hlen; [lia|].
  exists y, t. split; [done|]. split; [lia|].
  rewrite last_n_snoc, Hw by done. simpl. by rewrite map_app.
Qed.

(** Recomputing the statistics from the buffer changes nothing. *)
Lemma ring_refresh_exact period xs st :
  ring_exact period xs st -> xs <> [] ->
  ring_exact period xs (RingStatsRefreshMeanM2FromBuffer st).
Proof.
  intros [Hholds (w & Hw & Hs & Hm & H2)] Hne.
  split; [exact Hholds|]. exists w. split; [done|]. split; [exact Hs|].
  destruct Hholds as [Hc Hr]. pose proof Hr as [Hp Hl Hh Hcount _ _].
  pose proof (length_last_n period xs) as Hlw. rewrite Hw, length_map in Hlw.
  assert (length xs <> 0%nat) by (by destruct xs).
  apply RingStatsRefresh_exact; [lia|by destruct w; [simpl in Hlw; lia|]|].
  rewrite <- Hw. by apply ring_rep_contents in Hr.
Qed.

(** The slide of a full ring, before any refresh. *)
Definition slid_ring (st : RingStatsState xreal xreal) (old x : xreal) (slides : nat)
  : RingStatsState xreal xreal :=
  let st1 := RingStatsUpdateMeanM2OnSlide
    (MkRing (buffer st) (capacity st) (head st) (count st) (fsub (sum st) (ext old))
       (mean st) (m2 st) (slides_since_refresh st)) old x in
  MkRing (<[head st := x]> (buffer st)) (capacity st) (S (head st) mod capacity st)
    (count st) (fadd (fsub (sum st) (ext old)) (ext x)) (mean st1) (m2 st1) slides.

Lemma slid_ring_exact period xs st old x slides :
  ring_exact period xs st -> buffer st !! head st = Some old -> count st = capacity st ->
  ring_exact period (xs ++ [Some x]) (slid_ring st old (Some x) slides).
Proof.
  intros [Hholds (w & Hw & Hs & Hm & H2)] Ho Hf. pose proof Hholds as [Hc Hr].
  pose proof Hr as [Hp Hl Hh Hcount _ _].
  destruct (last_n_map_tail period xs w x) as (y & t & -> & Ht & Hw'); [lia|lia|done|].
  destruct (ring_rep_oldest _ _ _ _ _ _ Hr ltac:(lia) Ho) as [Hold _].
  rewrite Hw in Hold. injection Hold as <-.
  set (st0 := MkRing (buffer st) (capacity st) (head st) (count st)
     (fsub (sum st) (ext (Some y : xreal))) (mean st) (m2 st) (slides_since_refresh st)).
  destruct (RingStatsOnSlide_exact st0 y t x) as [Hm' H2'];
    [simpl; lia|simpl; lia|done|done|].
  split.
  - split; [exact Hc|]. cbn [buffer head count slid_ring].
    pose proof (ring_rep_step _ _ _ _ _ (Some x : xreal) Hr) as Hr'.
    rewrite Hf, Hc in Hr' |- *. by rewrite Nat.eqb_refl in Hr'.
  - exists (t ++ [x]). split; [done|]. split; [|split; [exact Hm'|exact H2']].
    cbn [sum slid_ring]. rewrite Hs, Rsum_snoc, Rsum_cons. cbn [ext exact].
    change (@dbl xreal xreal exact) with Fp_xreal. change (@ldb xreal xreal exact) with Fp_xreal.
    rewrite fsub_xreal, fadd_xreal. f_equal. lra.
Qed.

Lemma RingStatsStep_exact period xs st x :
  ring_exact period xs st ->
  exists st', RingStatsStep st (Some x) = Ok st' /\ ring_exact period (xs ++ [Some x]) st'.
Proof.
  intros Hex. pose proof Hex as [Hholds (w & Hw & Hs & Hm & H2)].
  destruct (RingStatsStep_holds _ _ _ (Some x) Hholds) as (st' & Hst & Hholds').
  exists st'. split; [done|].
  destruct Hholds as [Hc Hr]. pose proof Hr as [Hp Hl Hh Hcount _ _].
  assert (Hlw : length w = Nat.min period (length xs))
    by (by rewrite <- (length_map Some w), <- Hw, length_last_n).
  destruct (decide (count st = capacity st)) as [Hf|Hf].
  - destruct (lookup_lt_is_Some_2 (buffer st) (head st)) as [old Ho]; [lia|].
    rewrite (RingStatsStep_slide _ _ _ Ho Hf) in Hst. injection Hst as <-.
    pose proof (slid_ring_exact _ _ _ _ x (S (slides_since_refresh st)) Hex Ho Hf) as Hex'.
    unfold maybe_refresh. destruct (_ && _); [|exact Hex'].
    apply (ring_refresh_exact _ _ _ Hex'). by destruct xs.
  - split; [done|].
    rewrite (RingStatsStep_fill st) in Hst; [|rewrite Hl; exact Hh|exact Hf].
    injection Hst as <-. exists (w ++ [x]). pose proof (rr_count _ _ _ _ _ Hr).
    rewrite last_n_snoc_short, Hw, map_app by lia. split; [done|].
    destruct (RingStatsOnAdd_exact
      (MkRing (buffer st) (capacity st) (head st) (S (count st)) (sum st) (mean st)
         (m2 st) (slides_since_refresh st)) w x) as [Hm' H2']; [simpl; lia|done|done|].
    split; [|split; [exact Hm'|exact H2']]. cbn [sum]. rewrite Hs, Rsum_snoc. done.
Qed.
End exact_ring.

Lemma RingStatsPush_step {D L} `{Machine D L} (st : RingStatsState D L) period x :
  0 < period -> capacity st = period -> RingStatsPush st period x = RingStatsStep st x.
Proof.
  intros Hp Hc. unfold RingStatsPush, RingStatsPrepare. rewrite decide_True by done.
  by destruct (Nat.eqb_spec period 0); [lia|].
Qed.

Lemma RingStatsPush_first {D L} `{Machine D L} period x :
  0 < period ->
  RingStatsPush RingStatsState_init period x =
    RingStatsStep (RingStatsPrepare period RingStatsState_init) x.
Proof. intros Hp. unfold RingStatsPush. by destruct (Nat.eqb_spec period 0); [lia|]. Qed.

Section exact_theorems.
Local Open Scope R_scope.

Lemma ring_exact_fresh period :
  (0 < period)%nat -> ring_exact period [] (RingStatsPrepare period RingStatsState_init).
Proof.
  intros Hp. split; [apply ring_holds_prepare; simpl; lia|].
  exists []. unfold RingStatsPrepare. rewrite decide_False by (simpl; lia).
  cbn [sum mean m2]. rewrite fint_xreal, Rmean_nil. done.
Qed.

Lemma push_all_ring_exact period x xs :
  (0 < period)%nat ->
  exists st,
    push_all (fun (st : RingStatsState xreal xreal) x => RingStatsPush st period (Some x))
      RingStatsState_init (x :: xs)
      = Ok st /\ ring_exact period (map Some (x :: xs)) st.
Proof.
  intros Hp.
  apply (push_all_fresh _ (fun l st => ring_exact period (map Some l) st)).
  - rewrite RingStatsPush_first by done.
    apply (RingStatsStep_exact period [] _ x), ring_exact_fresh, Hp.
  - intros l st y Hex. rewrite RingStatsPush_step, map_app by (done || apply Hex).
    by apply RingStatsStep_exact.
Qed.

Lemma stddev_of_var_exact v ss :
  0 <= v -> stddev_of_var (Some v : xreal) ss = Some (sqrt v).
Proof.
  intros Hv. unfold stddev_of_var. rewrite fint_xreal, flt_xreal.
  destruct (Rltb_spec v 0); [lra|]. rewrite andb_false_l, flt_xreal.
  destruct (Rltb_spec v 0); [lra|]. by apply fsqrt_xreal.
Qed.

Lemma Rvar_nonneg w : (2 <= length w)%nat -> 0 <= Rssd w / (INR (length w) - 1).
Proof.
  intros Hl. apply le_INR in Hl. simpl in Hl. pose proof (Rssd_nonneg w).
  apply Rmult_le_pos; [done|]. left. apply Rinv_0_lt_compat. lra.
Qed.

Lemma RingStatsStddevSample_exact (st : RingStatsState xreal xreal) w :
  count st = length w -> m2 st = Some (Rssd w) ->
  RingStatsStddevSample st =
    if (length w <? 2)%nat then None else Some (sqrt (Rssd w / (INR (length w) - 1))).
Proof.
  intros Hc H2. unfold RingStatsStddevSample. rewrite Hc, H2.
  destruct (Nat.ltb_spec (length w) 2) as [|Hle]; [done|].
  pose proof (Rvar_nonneg w Hle). apply le_INR in Hle. simpl in Hle.
  xreal. by apply stddev_of_var_exact.
Qed.

Lemma RingStatsTwoPass_exact (st : RingStatsState xreal xreal) w :
  count st = length w -> take (count st) (buffer st) ≡ₚ map Some w ->
  RingStatsStddevSampleTwoPassReference st =
    if (length w <? 2)%nat then None else Some (sqrt (Rssd w / (INR (length w) - 1))).
Proof.
  intros Hc Hp. apply map_Some_perm in Hp as (w' & Hw' & Hp).
  unfold RingStatsStddevSampleTwoPassReference. rewrite Hw', Hc.
  rewrite <- (Rssd_perm _ _ Hp), <- (Permutation_length Hp).
  destruct (Nat.ltb_spec (length w') 2) as [|Hle]; [done|].
  pose proof (Rvar_nonneg w' Hle). apply le_INR in Hle. simpl in Hle.
  rewrite sum_ext_exact. xreal. fold (Rmean w'). rewrite sum_sq_dev_exact. fold (Rssd w').
  xreal. by apply stddev_of_var_exact.
Qed.

Lemma RingStatsMean_exact (st : RingStatsState xreal xreal) w :
  count st = length w -> w <> [] -> sum st = Some (Rsum w) ->
  RingStatsMean st = Some (Rmean w).
Proof.
  intros Hc Hne Hs. pose proof (length_pos _ Hne). unfold RingStatsMean. rewrite Hc, Hs.
  destruct (Nat.eqb_spec (length w) 0); [by destruct w|]. by xreal.
Qed.

(** C5: the incremental statistics are exact: pushing any samples into a
    fresh state of capacity [period] succeeds, and in exact arithmetic
    the running sum, mean and sum of squared deviations, through every
    slide and every periodic refresh, are those of the last [period]
    samples; so sma is the mean of the window, and the O(1) standard
    deviation is the two-pass reference one, [sqrt (ssd / (n - 1))]. *)
Theorem rolling_stats_exact period x xs :
  (0 < period)%nat ->
  exists st w,
    push_all (fun (st : RingStatsState xreal xreal) x => RingStatsPush st period (Some x))
      RingStatsState_init (x :: xs)
      = Ok st /\
    w = last_n period (x :: xs) /\
    sum st = Some (Rsum w) /\ mean st = Some (Rmean w) /\ m2 st = Some (Rssd w) /\
    RingStatsMean st = Some (Rmean w) /\
    RingStatsStddevSample st = RingStatsStddevSampleTwoPassReference st /\
    (2 <= length w ->
     RingStatsStddevSample st = Some (sqrt (Rssd w / (INR (length w) - 1))))%nat.
Proof.
  intros Hp. destruct (push_all_ring_exact period x xs Hp) as (st & Hst & Hex).
  exists st, (last_n period (x :: xs)). destruct Hex as [[_ Hr] (w & Hw & Hs & Hm & H2)].
  assert (w = last_n period (x :: xs)) as ->.
  { unfold last_n in *. rewrite length_map, skipn_map in Hw.
    apply (inj (map Some)). by rewrite Hw. }
  pose proof (ring_rep_contents _ _ _ _ _ Hr) as Hcont. rewrite Hw in Hcont.
  pose proof (rr_count _ _ _ _ _ Hr) as Hcount. rewrite length_map in Hcount.
  assert (Hc : count st = length (last_n period (x :: xs))) by (by rewrite length_last_n).
  assert (Hne : last_n period (x :: xs) <> [])

    by (intros E; rewrite E in Hc; cbn [length] in *; lia).
  rewrite (RingStatsStddevSample_exact _ _ Hc H2), (RingStatsTwoPass_exact _ _ Hc Hcont),
    (RingStatsMean_exact _ _ Hc Hne Hs).
  split_and!; try done. intros Hle. by destruct (Nat.ltb_spec (length (last_n period (x :: xs))) 2); [lia|].
Qed.
End exact_theorems.

Lemma rolling_stats_exact_witness :
  exists st w,
    push_all (fun (st : RingStatsState xreal xreal) x => RingStatsPush st 2 (Some x))
      RingStatsState_init [1; 4; 6]%R = Ok st /\
    w = last_n 2 [1; 4; 6]%R /\ RingStatsMean st = Some (Rmean w).
Proof.
  destruct (rolling_stats_exact 2 1%R [4; 6]%R ltac:(lia))
    as (st & w & H1 & H2 & _ & _ & _ & H3 & _).
  exists st, w. split_and!; assumption.
Defined.
