(* ===== verification/WindowFacts.v ===== *)
(** * Windows, delays and NaN

    Theorems about the ring operators that hold in every arithmetic, the
    IEEE-754 one included. *)

From Stdlib Require Import Reals Lra.
From S2P Require Import Prelude Errors Arith RealArith ArithLaws Rolling RollingFacts.

Section windows.
Context {D L : Type} `{Machine D L}.

Lemma ring_holds_fresh period :
  0 < period -> ring_holds period [] (RingStatsPrepare period (RingStatsState_init (D:=D))).
Proof. intros Hp. apply ring_holds_prepare; simpl; lia. Qed.

(** A property of the samples and the state that a step on a ring keeps
    holds after any number of pushes into a fresh state. *)
Lemma ring_push_all period (P : list D -> RingStatsState D L -> Prop) x xs :
  0 < period ->
  P [] (RingStatsPrepare period RingStatsState_init) ->
  (forall l st y st', ring_holds period l st -> P l st -> RingStatsStep st y = Ok st' ->
    P (l ++ [y]) st') ->
  exists st, push_all (fun st => RingStatsPush st period) RingStatsState_init (x :: xs) = Ok st /\
    ring_holds period (x :: xs) st /\ P (x :: xs) st.
Proof.
  intros Hp H0 Hstep.
  assert (Hboth : forall l st y, ring_holds period l st /\ P l st ->
    exists st', RingStatsStep st y = Ok st' /\
      ring_holds period (l ++ [y]) st' /\ P (l ++ [y]) st').
  { intros l st y [Hr HP]. destruct (RingStatsStep_holds _ _ _ y Hr) as (st' & Hst & Hr').
    exists st'. split_and!; try done. by eapply Hstep. }
  apply (push_all_fresh _ (fun l st => ring_holds period l st /\ P l st)).
  - rewrite RingStatsPush_first by done. apply (Hboth []).
    split; [by apply ring_holds_fresh|done].
  - intros l st y [Hr HP]. rewrite RingStatsPush_step by (done || apply Hr). by apply Hboth.
Qed.

(** ** A NaN sample *)

Lemma RingStatsStep_sum period l (st st' : RingStatsState D L) y :
  ring_holds period l st -> RingStatsStep st y = Ok st' ->
  sum st' = fadd (sum st) (ext y) \/
  exists old, sum st' = fadd (fsub (sum st) (ext old)) (ext y).
Proof.
  intros [Hc Hr] Hst. pose proof Hr as [Hp Hl Hh _ _ _].
  destruct (decide (count st = capacity st)) as [Hf|Hf].
  - destruct (lookup_lt_is_Some_2 (buffer st) (head st)) as [old Ho]; [lia|].
    rewrite (RingStatsStep_slide _ _ _ Ho Hf) in Hst. injection Hst as <-. right. exists old.
    by match goal with |- sum (maybe_refresh ?s) = _ =>
      destruct (maybe_refresh_frame s) as (_ & _ & _ & _ & ->) end.
  - rewrite RingStatsStep_fill in Hst; [|rewrite Hl; exact Hh|exact Hf].
    injection Hst as <-. by left.
Qed.
End windows.

Section nan.
Context {D L : Type} `{Machine D L} `{!NanLaws D L}.

(** one NaN sample disables a moving average for good: whatever is
    pushed before and after it, and however far it has left the window,
    the running sum stays NaN, and with it every later mean.  A rolling
    operator is NaN until its window is full, so an [sma] over another
    rolling operator never produces a value. *)
Theorem nan_poisons_sma period xs ys :
  0 < period ->
  exists st,
    push_all (fun st => RingStatsPush st period) RingStatsState_init (xs ++ fnan :: ys)
      = Ok st /\ RingStatsMean (L:=L) st = fnan.
Proof.
  intros Hp. destruct (xs ++ fnan :: ys) as [|x l] eqn:E; [by destruct xs|].
  destruct (ring_push_all period (fun l st => (fnan : D) ∈ l -> sum st = fnan) x l Hp)
    as (st & Hst & _ & Hsum).
  - intros Hin. by apply not_elem_of_nil in Hin.
  - intros l' st y st' Hr HP Hst Hin.
    apply RingStatsStep_sum with (1 := Hr) in Hst.
    apply elem_of_app in Hin as [Hin|Hin].
    + rewrite (HP Hin) in Hst. destruct Hst as [->|[old ->]].
      * apply fadd_nan_l.
      * rewrite fsub_nan_l. apply fadd_nan_l.
    + apply list_elem_of_singleton in Hin as <-. rewrite ext_nan in Hst.
      destruct Hst as [->|[old ->]]; apply fadd_nan_r.
  - exists st. split; [done|]. unfold RingStatsMean. destruct (count st =? 0); [done|].
    rewrite Hsum, fdiv_nan_l; [apply trunc_nan|]. rewrite <- E. apply elem_of_app. right. left.
Qed.
End nan.

Definition example_machine : Machine double long_double := ieee (fun x => x).

Lemma nan_poisons_sma_witness :
  exists st,
    push_all (fun st => RingStatsPush (H:=example_machine) st 2)
      (RingStatsState_init (H:=example_machine)) ([fint 1] ++ fnan :: [fint 2; fint 3; fint 4])
      = Ok st /\ RingStatsMean (H:=example_machine) st = fnan.
Proof.
  exact (nan_poisons_sma (H:=example_machine) 2 [fint 1] [fint 2; fint 3; fint 4]
           ltac:(lia)).
Defined.
