(* ===== verification/MonoFacts.v ===== *)
(** * The monotonic deque of rolling_min and rolling_max

    The circular buffer of [MonoDequeState] is refined to the list of its
    entries; the two loops of an update become [trim_back] and
    [drop_expired] on that list; and on the list the front is the extremum
    of the window. *)

From Stdlib Require Import Reals.
From stdpp Require Import sorting.
From S2P Require Import Prelude Errors Arith RealArith ArithLaws Rolling RollingFacts.

Definition slot (cap h k : nat) : nat := (h + k) mod cap.

Lemma slot_cases cap h k :
  h < cap -> k < cap -> slot cap h k = if h + k <? cap then h + k else h + k - cap.
Proof.
  intros Hh Hk. unfold slot. destruct (Nat.ltb_spec (h + k) cap).
  - by rewrite Nat.mod_small.
  - rewrite <- (Nat.mod_small (h + k - cap) cap) by lia.
    replace (h + k) with (h + k - cap + 1 * cap) at 1 by lia. apply Nat.Div0.mod_add.
Qed.

Lemma slot_lt cap h k : 0 < cap -> slot cap h k < cap.
Proof. intros. unfold slot. apply Nat.mod_upper_bound. lia. Qed.

Lemma slot_inj cap h k1 k2 :
  h < cap -> k1 < cap -> k2 < cap -> slot cap h k1 = slot cap h k2 -> k1 = k2.
Proof.
  intros Hh H1 H2. rewrite !slot_cases by done.
  destruct (Nat.ltb_spec (h + k1) cap), (Nat.ltb_spec (h + k2) cap); lia.
Qed.

Lemma slot_succ cap h k : slot cap (S h mod cap) k = slot cap h (S k).
Proof. unfold slot. rewrite Nat.Div0.add_mod_idemp_l. f_equal. lia. Qed.

Section deque.
Context {D : Type} `{Fp D}.
Implicit Types (dq : MonoDequeState D) (l : list (Z * D)).

(** The entries of [dq], front first, are [l]. *)
Record dq_rep (dq : MonoDequeState D) (l : list (Z * D)) : Prop := {
  dr_len : length (dq_buf dq) = dq_cap dq;
  dr_head : dq_head dq < dq_cap dq;
  dr_count : dq_count dq = length l;
  dr_cap : length l <= dq_cap dq;
  dr_entry : forall k e, l !! k = Some e ->
    dq_buf dq !! slot (dq_cap dq) (dq_head dq) k = Some e;
}.

Lemma dq_rep_init period : dq_rep (MonoInit MonoDequeState_init period) [].
Proof.
  unfold MonoInit. rewrite decide_False by done.
  split; simpl; try lia; [by rewrite length_replicate|]. intros k e Hk.
  by rewrite lookup_nil in Hk.
Qed.

Lemma MonoFront_rep dq e l : dq_rep dq (e :: l) -> MonoFront dq = Ok e.
Proof.
  intros [Hl Hh Hc Hcap He]. unfold MonoFront. apply at_idx_Ok.
  specialize (He 0 e eq_refl). unfold slot in He.
  by rewrite Nat.add_0_r, Nat.mod_small in He.
Qed.

Lemma MonoBack_rep dq e l : dq_rep dq (l ++ [e]) -> MonoBack dq = Ok e.
Proof.
  intros [Hl Hh Hc Hcap He]. unfold MonoBack. apply at_idx_Ok.
  specialize (He (length l) e). rewrite list_lookup_middle in He by done.
  rewrite length_app in Hc. simpl in Hc. unfold MonoTailIndex.
  replace (dq_head dq + dq_count dq - 1) with (dq_head dq + length l) by lia.
  by apply He.
Qed.

Lemma MonoPopFront_rep dq e l : dq_rep dq (e :: l) -> dq_rep (MonoPopFront dq) l.
Proof.
  intros [Hl Hh Hc Hcap He]. simpl in *. split; simpl; try done; try lia.
  - apply Nat.mod_upper_bound. lia.
  - intros k e' Hk. rewrite slot_succ. by apply (He (S k)).
Qed.

Lemma MonoPopBack_rep dq e l : dq_rep dq (l ++ [e]) -> dq_rep (MonoPopBack dq) l.
Proof.
  intros [Hl Hh Hc Hcap He]. rewrite length_app in *. simpl in *.
  split; simpl; try done; try lia.
  intros k e' Hk. apply He. by apply lookup_app_l_Some.
Qed.

Lemma MonoPushBack_rep dq l e :
  dq_rep dq l -> length l < dq_cap dq ->
  exists dq', MonoPushBack dq e = Ok dq' /\ dq_rep dq' (l ++ [e]) /\ dq_cap dq' = dq_cap dq.
Proof.
  intros [Hl Hh Hc Hcap He] Hlt. unfold MonoPushBack. rewrite Hc.
  fold (slot (dq_cap dq) (dq_head dq) (length l)).
  assert (Hs : slot (dq_cap dq) (dq_head dq) (length l) < dq_cap dq) by (apply slot_lt; lia).
  rewrite set_idx_Ok by lia. simpl. eexists. split; [done|]. split; [|done].
  split; simpl; rewrite ?length_app, ?length_insert; simpl; try done; try lia.
  intros k e' Hk. apply lookup_snoc_Some in Hk as [[Hk1 Hk]|[-> <-]].
  - rewrite list_lookup_insert_ne; [by apply He|].
    intros E. apply slot_inj in E; lia.
  - apply list_lookup_insert_eq. lia.
Qed.

(** ** The loops, on lists *)

Fixpoint drop_expired (idx : Z) (period : nat) l : list (Z * D) :=
  match l with
  | [] => []
  | e :: l' =>
      if (Z.of_nat period <? u64 (idx + 1 - fst e))%Z then drop_expired idx period l' else l
  end.

(** [trim_back] on the reversed list. *)
Fixpoint trim_front (drop : D -> bool) l : list (Z * D) :=
  match l with
  | [] => []
  | e :: l' => if drop (snd e) then trim_front drop l' else l
  end.
Definition trim_back (drop : D -> bool) l : list (Z * D) :=
  reverse (trim_front drop (reverse l)).

Lemma trim_back_snoc drop l e :
  trim_back drop (l ++ [e]) = if drop (snd e) then trim_back drop l else l ++ [e].
Proof.
  unfold trim_back. rewrite reverse_snoc. simpl. destruct (drop (snd e)); [done|].
  by rewrite reverse_cons, reverse_involutive.
Qed.

Lemma pop_back_while_rep drop dq l :
  dq_rep dq l ->
  exists dq', pop_back_while drop (dq_count dq) dq = Ok dq' /\
    dq_rep dq' (trim_back drop l) /\ dq_cap dq' = dq_cap dq.
Proof.
  intros Hr. rewrite (dr_count _ _ Hr). revert dq Hr.
  induction l as [|e l IH] using rev_ind; intros dq Hr.
  - by exists dq.
  - rewrite length_app, Nat.add_1_r. simpl. unfold MonoEmpty.
    pose proof (dr_count _ _ Hr) as Hc. rewrite length_app, Nat.add_1_r in Hc.
    rewrite Hc. simpl. rewrite (MonoBack_rep _ _ _ Hr). simpl. rewrite trim_back_snoc.
    destruct e as [i v]. simpl. destruct (drop v); [|by exists dq].
    apply MonoPopBack_rep in Hr. by destruct (IH _ Hr) as (dq' & ? & ? & ?); exists dq'.
Qed.

Lemma pop_front_expired_rep idx period dq l :
  dq_rep dq l ->
  exists dq', pop_front_expired idx period (dq_count dq) dq = Ok dq' /\
    dq_rep dq' (drop_expired idx period l) /\ dq_cap dq' = dq_cap dq.
Proof.
  intros Hr. rewrite (dr_count _ _ Hr). revert dq Hr.
  induction l as [|e l IH]; intros dq Hr.
  - by exists dq.
  - simpl. unfold MonoEmpty. rewrite (dr_count _ _ Hr). simpl.
    rewrite (MonoFront_rep _ _ _ Hr). simpl. destruct e as [i v]. simpl.
    destruct (_ <? _)%Z; [|by exists dq].
    apply MonoPopFront_rep in Hr. by destruct (IH _ Hr) as (dq' & ? & ? & ?); exists dq'.
Qed.

Definition mono_step (drop : D -> D -> bool) (period : nat) (n : Z) (x : D) l :=
  drop_expired n period (trim_back (fun back => drop back x) l ++ [(n, x)]).

Lemma trim_back_prefix drop l : exists l2, l = trim_back drop l ++ l2.
Proof.
  induction l as [|e l IH] using rev_ind; [by exists []|]. rewrite trim_back_snoc.
  destruct (drop (snd e)).
  - destruct IH as [l2 Hl2]. exists (l2 ++ [e]). by rewrite app_assoc, <- Hl2.
  - exists []. by rewrite app_nil_r.
Qed.


Lemma MonoUpdate_refines drop dq period n x l e l' :
  dq_rep dq l -> length l < dq_cap dq -> mono_step drop period n x l = e :: l' ->
  exists dq', MonoUpdate drop dq n period x = Ok (snd e, dq', u64 (n + 1)) /\
    dq_rep dq' (e :: l') /\ dq_cap dq' = dq_cap dq.
Proof.
  intros Hr Hlt Hstep. unfold MonoUpdate.
  destruct (pop_back_while_rep (fun back => drop back x) dq l Hr) as (dq1 & -> & Hr1 & Hc1).
  destruct (trim_back_prefix (fun back => drop back x) l) as [l2 Hl2].
  assert (length (trim_back (fun back => drop back x) l) <= length l)
    by (rewrite Hl2 at 2; rewrite length_app; lia).
  destruct (MonoPushBack_rep dq1 _ (n, x) Hr1) as (dq2 & Hp & Hr2 & Hc2); [lia|].
  simpl. rewrite Hp. simpl.
  destruct (pop_front_expired_rep n period dq2 _ Hr2) as (dq3 & -> & Hr3 & Hc3).
  fold (mono_step drop period n x l) in Hr3. rewrite Hstep in Hr3. simpl.
  rewrite (MonoFront_rep _ _ _ Hr3). simpl. destruct e as [i v]. simpl.
  exists dq3. split_and!; [done|done|congruence].
Qed.
End deque.

(** ** What the list holds *)

Section mono.
Context {D : Type} `{Fp D}.
Variable drop : D -> D -> bool.
Variable period : nat.
Hypothesis period_pos : 0 < period.
Implicit Types (l : list (Z * D)) (e : Z * D) (xs : list D).

Definition idx_lt (e e' : Z * D) : Prop := (fst e < fst e')%Z.

(** Entry [e] is a sample of the window of [xs]. *)
Definition in_window (xs : list D) (e : Z * D) : Prop :=
  exists k, fst e = Z.of_nat k /\ xs !! k = Some (snd e) /\ length xs <= k + period.

(** The entries are samples of the window, in order of arrival, and the
    newest sample is the last of them. *)
Record mono_struct (xs : list D) (l : list (Z * D)) : Prop := {
  ms_sorted : StronglySorted idx_lt l;
  ms_window : Forall (in_window xs) l;
  ms_last : forall x xs0, xs = xs0 ++ [x] -> exists l0, l = l0 ++ [(Z.of_nat (length xs0), x)];
}.

Lemma sorted_length (l : list (Z * D)) a b :
  StronglySorted idx_lt l -> Forall (fun e => a <= fst e < b)%Z l ->
  (Z.of_nat (length l) <= Z.max 0 (b - a))%Z.
Proof.
  intros Hs. revert a. induction Hs as [|e l Hs IH He]; intros a HF; [simpl; lia|].
  apply Forall_cons in HF as [Ha HF]. cbn [length].
  assert (Forall (fun e' => fst e + 1 <= fst e' < b)%Z l) as HF'.
  { rewrite Forall_forall in *. intros e' Hin. specialize (HF _ Hin). specialize (He _ Hin).
    unfold idx_lt in He. lia. }
  specialize (IH _ HF'). lia.
Qed.

Lemma mono_struct_length xs l : mono_struct xs l -> length l <= period.
Proof.
  intros [Hs Hw _].
  assert (HF : Forall (fun e : Z * D => Z.of_nat (length xs) - Z.of_nat period <= fst e
                                < Z.of_nat (length xs))%Z l).
  { eapply Forall_impl; [exact Hw|]. intros e (k & -> & Hk & Hle).
    apply lookup_lt_Some in Hk. lia. }
  pose proof (sorted_length _ _ _ Hs HF). lia.
Qed.

Lemma drop_expired_suffix n l :
  exists l1, l = l1 ++ drop_expired n period l /\
    Forall (fun e : Z * D => Z.of_nat period < u64 (n + 1 - fst e))%Z l1.
Proof.
  induction l as [|e l IH]; [by exists []|]. simpl.
  destruct (Z.ltb_spec (Z.of_nat period) (u64 (n + 1 - fst e))); [|by exists []].
  destruct IH as (l1 & E & HF). exists (e :: l1). split; [by rewrite E at 1|by constructor].
Qed.

Lemma drop_expired_keep n l e l' :
  drop_expired n period l = e :: l' -> (u64 (n + 1 - fst e) <= Z.of_nat period)%Z.
Proof.
  induction l as [|e' l IH]; [done|]. simpl.
  destruct (Z.ltb_spec (Z.of_nat period) (u64 (n + 1 - fst e'))); [done|].
  intros [= -> ->]. done.
Qed.

Lemma u64_small z : (0 <= z < 2 ^ 64)%Z -> u64 z = z.
Proof. apply Z.mod_small. Qed.

(** The list before the expiry loop: the survivors and the new sample. *)
Lemma pushed_struct xs l x :
  mono_struct xs l ->
  let l1 := trim_back (fun back => drop back x) l ++ [(Z.of_nat (length xs), x)] in
  StronglySorted idx_lt l1 /\
  Forall (fun e : Z * D => exists k, fst e = Z.of_nat k /\ (xs ++ [x]) !! k = Some (snd e)) l1.
Proof.
  intros [Hs Hw _] l1. destruct (trim_back_prefix (fun back => drop back x) l) as [l2 Hl2].
  rewrite Hl2 in Hs, Hw. apply StronglySorted_app_1_l in Hs. apply Forall_app in Hw as [Hw _].
  split.
  - apply StronglySorted_app_2; [|done|repeat constructor].
    intros e1 e2 H1 ->%list_elem_of_singleton. rewrite Forall_forall in Hw.
    destruct (Hw _ H1) as (k & E & Hk & _). apply lookup_lt_Some in Hk.
    unfold idx_lt. rewrite E. simpl. lia.
  - apply Forall_app. split.
    + eapply Forall_impl; [exact Hw|]. intros e (k & E & Hk & _). exists k.
      split; [done|]. by apply lookup_app_l_Some.
    + constructor; [|done]. exists (length xs). by rewrite list_lookup_middle.
Qed.

Lemma mono_step_struct xs l x :
  mono_struct xs l -> (Z.of_nat (length xs) < 2 ^ 64 - 1)%Z ->
  mono_struct (xs ++ [x]) (mono_step drop period (Z.of_nat (length xs)) x l).
Proof.
  intros Hms Hbound. destruct (pushed_struct xs l x Hms) as [Hs Hw]. unfold mono_step.
  set (l1 := trim_back _ l ++ _) in *.
  destruct (drop_expired_suffix (Z.of_nat (length xs)) l1) as (lx & E & Hx).
  assert (Hlast : exists l0, drop_expired (Z.of_nat (length xs)) period l1 =
                    l0 ++ [(Z.of_nat (length xs), x)]).
  { destruct (drop_expired (Z.of_nat (length xs)) period l1) as [|e l2 _] eqn:Ed
      using rev_ind.
    - rewrite app_nil_r in E. rewrite <- E in Hx. unfold l1 in Hx.
      apply Forall_app in Hx as [_ Hx]. apply Forall_cons in Hx as [Hx _]. cbn [fst] in Hx.
      rewrite u64_small in Hx by lia. lia.
    - exists l2. unfold l1 in E. rewrite app_assoc in E. apply app_inj_tail in E as [_ <-].
      done. }
  rewrite E in Hs, Hw. apply Forall_app in Hw as [_ Hw].
  apply StronglySorted_app_1_r in Hs. split; [done| |].
  - destruct (drop_expired (Z.of_nat (length xs)) period l1) as [|e l2] eqn:Ed; [constructor|].
    pose proof (drop_expired_keep _ _ _ _ Ed) as Hk. apply StronglySorted_cons in Hs as [He Hs].
    rewrite Forall_forall in Hw, He. apply Forall_forall. intros e' Hin.
    destruct (Hw _ Hin) as (k' & E' & Hk'). exists k'. split_and!; try done.
    destruct (Hw e) as (k & Ek & Hke); [left|]. apply lookup_lt_Some in Hke, Hk'.
    rewrite length_app in *. simpl in *. rewrite Ek, u64_small in Hk by lia.
    assert (fst e <= fst e')%Z.
    { apply elem_of_cons in Hin as [->|Hin]; [lia|]. specialize (He _ Hin).
      unfold idx_lt in He. lia. }
    lia.
  - intros y xs0 Ex. apply app_inj_tail in Ex as [<- <-]. done.
Qed.

(** ** The extremum

    [drop back sample] says that [sample] supersedes [back]: on samples
    other than NaN it is a total preorder. *)

Variable notnan : D -> Prop.
Hypothesis drop_total : forall a b,
  notnan a -> notnan b -> drop a b = true \/ drop b a = true.
Hypothesis drop_trans : forall a b c, drop a b = true -> drop b c = true -> drop a c = true.

Definition beats (e e' : Z * D) : Prop := drop (snd e) (snd e') = false.

(** Every sample of the window is superseded by an entry that is no older,
    and no entry is superseded by a later one. *)
Record mono_order (xs : list D) (l : list (Z * D)) : Prop := {
  mo_cover : forall j v, xs !! j = Some v -> length xs <= j + period ->
    exists e, e ∈ l /\ (Z.of_nat j <= fst e)%Z /\ drop v (snd e) = true;
  mo_beats : StronglySorted beats l;
}.

Lemma drop_refl a : notnan a -> drop a a = true.
Proof. intros Ha. destruct (drop_total a a Ha Ha); done. Qed.

Lemma trim_back_elem p e l : e ∈ l -> e ∈ trim_back p l \/ p (snd e) = true.
Proof.
  induction l as [|e' l IH] using rev_ind; [by left|]. rewrite trim_back_snoc.
  destruct (p (snd e')) eqn:Hp; [|by left].
  intros [Hin| ->%list_elem_of_singleton]%elem_of_app; [by apply IH|by right].
Qed.

Lemma trim_back_last p l e0 l0 : trim_back p l = l0 ++ [e0] -> p (snd e0) = false.
Proof.
  induction l as [|e' l IH] using rev_ind; [by destruct l0|]. rewrite trim_back_snoc.
  destruct (p (snd e')) eqn:Hp; [done|]. intros E. by apply app_inj_tail in E as [_ <-].
Qed.

(** The survivors of the back loop all beat the new sample. *)
Lemma trim_back_beats x l e :
  notnan x -> Forall (fun e => notnan (snd e)) l -> StronglySorted beats l ->
  e ∈ trim_back (fun back => drop back x) l -> drop (snd e) x = false.
Proof.
  intros Hx HF Hs Hin. destruct (trim_back_prefix (fun back => drop back x) l) as [l2 Hl2].
  destruct (trim_back (fun back => drop back x) l) as [|b l0 _] eqn:Et using rev_ind;
    [by apply not_elem_of_nil in Hin|].
  pose proof (trim_back_last _ _ _ _ Et) as Hb. simpl in Hb.
  apply elem_of_app in Hin as [Hin| ->%list_elem_of_singleton]; [|done].
  rewrite Hl2 in Hs, HF. apply StronglySorted_app_1_l in Hs.
  assert (Hbe : beats e b) by (eapply StronglySorted_app_1_elem_of; [exact Hs|done|left]).
  apply Forall_app in HF as [HF _]. rewrite Forall_forall in HF.
  assert (notnan (snd e)) by (apply HF, elem_of_app; by left).
  assert (notnan (snd b)) by (apply HF, elem_of_app; right; left).
  destruct (drop (snd e) x) eqn:Hd; [|done]. unfold beats in Hbe.
  destruct (drop_total (snd b) (snd e)) as [Hbe'|]; [done|done| |congruence].
  rewrite (drop_trans _ _ _ Hbe' Hd) in Hb. done.
Qed.

Lemma window_notnan xs l :
  mono_struct xs l -> Forall notnan xs -> Forall (fun e => notnan (snd e)) l.
Proof.
  intros Hms HF. eapply Forall_impl; [apply (ms_window _ _ Hms)|].
  intros e (k & _ & Hk & _). by eapply Forall_lookup_1.
Qed.

Lemma mono_step_order xs l x :
  mono_struct xs l -> mono_order xs l -> Forall notnan (xs ++ [x]) ->
  (Z.of_nat (length xs) < 2 ^ 64 - 1)%Z ->
  mono_order (xs ++ [x]) (mono_step drop period (Z.of_nat (length xs)) x l).
Proof.
  intros Hms [Hcov Hbeats] HF Hbound. apply Forall_app in HF as [HF Hx].
  apply Forall_cons in Hx as [Hx _].
  pose proof (window_notnan _ _ Hms HF) as HFl. unfold mono_step.
  set (l1 := trim_back _ l ++ _).
  destruct (drop_expired_suffix (Z.of_nat (length xs)) l1) as (lx & E & Hlx).
  assert (Hkeep : forall j e, length xs < j + period -> e ∈ l1 ->
    (Z.of_nat j <= fst e <= Z.of_nat (length xs))%Z ->
    e ∈ drop_expired (Z.of_nat (length xs)) period l1).
  { intros j e Hj Hin He. rewrite E in Hin. apply elem_of_app in Hin as [Hin|]; [|done].
    rewrite Forall_forall in Hlx. specialize (Hlx _ Hin).
    rewrite u64_small in Hlx by lia. lia. }
  split.
  - intros j v Hj Hwin. rewrite length_app in Hwin. simpl in Hwin.
    assert (Hnew : (Z.of_nat (length xs), x) ∈ l1) by (apply elem_of_app; right; left).
    assert (j <= length xs) by (apply lookup_lt_Some in Hj; rewrite length_app in Hj; simpl in Hj; lia).
    assert (Hdone : drop v x = true ->
      exists e, e ∈ drop_expired (Z.of_nat (length xs)) period l1 /\
        (Z.of_nat j <= fst e)%Z /\ drop v (snd e) = true).
    { intros Hd. exists (Z.of_nat (length xs), x). split_and!; [|simpl; lia|done].
      apply (Hkeep j); [lia|done|simpl; lia]. }
    apply lookup_snoc_Some in Hj as [[_ Hj]|[_ <-]]; [|by apply Hdone, drop_refl].
    destruct (Hcov _ _ Hj) as (e & Hin & Hle & Hd); [lia|].
    destruct (trim_back_elem (fun back => drop back x) _ _ Hin) as [Hin'|Hdrop].
    + exists e. split_and!; [|done|done]. apply (Hkeep j); [lia|apply elem_of_app; by left|].
      split; [done|]. pose proof (ms_window _ _ Hms) as Hw. rewrite Forall_forall in Hw.
      destruct (Hw _ Hin) as (k & -> & Hk%lookup_lt_Some & _). lia.
    + apply Hdone. by eapply drop_trans.
  - assert (Hs1 : StronglySorted beats l1).
    { apply StronglySorted_app_2; [|by
        (destruct (trim_back_prefix (fun back => drop back x) l) as [l2 Hl2];
         rewrite Hl2 in Hbeats; apply StronglySorted_app_1_l in Hbeats)|repeat constructor].
      intros e1 e2 H1 ->%list_elem_of_singleton. by eapply trim_back_beats. }
    rewrite E in Hs1. by apply StronglySorted_app_1_r in Hs1.
Qed.

(** The front of the list is the extremum of the window. *)
Lemma mono_front xs e l :
  mono_struct xs (e :: l) -> mono_order xs (e :: l) -> Forall notnan xs ->
  snd e ∈ last_n period xs /\ forall y, y ∈ last_n period xs -> drop y (snd e) = true.
Proof.
  intros Hms [Hcov Hbeats] HF.
  pose proof (window_notnan _ _ Hms HF) as HFl. rewrite Forall_forall in HFl.
  split.
  - destruct (Forall_inv (ms_window _ _ Hms)) as (k & _ & Hk & Hle).
    apply list_elem_of_lookup. exists (k - (length xs - period)). unfold last_n.
    rewrite lookup_drop. by replace (length xs - period + _) with k by lia.
  - intros y (j & Hj)%list_elem_of_lookup. unfold last_n in Hj. rewrite lookup_drop in Hj.
    destruct (Hcov _ _ Hj) as (e' & Hin & _ & Hd); [lia|].
    apply elem_of_cons in Hin as [->|Hin]; [done|].
    apply StronglySorted_cons in Hbeats as [Hb _]. rewrite Forall_forall in Hb.
    specialize (Hb _ Hin). unfold beats in Hb. eapply drop_trans; [exact Hd|].
    destruct (drop_total (snd e) (snd e')) as [Ht|]; [apply HFl; left|apply HFl; by right| |done].
    congruence.
Qed.
End mono.

(** ** The operators *)

Section operators.
Context {D : Type} `{Fp D}.

(** The state of a run: the value returned last, the deque, the tick index. *)
Definition mono_run_push (update : MonoDequeState D -> Z -> nat -> D -> Res (D * MonoDequeState D * Z))
  (period : nat) (st : D * MonoDequeState D * Z) (x : D) : Res (D * MonoDequeState D * Z) :=
  let '(_, dq, idx) := st in update dq idx period x.

Definition mono_run_init : D * MonoDequeState D * Z := (fnan, MonoDequeState_init, 0%Z).

Lemma MonoInit_same dq period : dq_cap dq = S period -> MonoInit (D:=D) dq period = dq.
Proof. intros Hc. unfold MonoInit. by rewrite decide_True. Qed.

(** After the samples [xs]: the deque is well formed and holds them. *)
Definition mono_holds (period : nat) (xs : list D) (dq : MonoDequeState D) (idx : Z)
  (l : list (Z * D)) : Prop :=
  idx = Z.of_nat (length xs) /\ dq_cap dq = S period /\ dq_rep dq l /\
  mono_struct period xs l.

Lemma MonoUpdate_holds drop period xs dq idx l x :
  0 < period -> (Z.of_nat (length xs) < 2 ^ 64 - 1)%Z ->
  mono_holds period xs dq idx l ->
  exists e l' dq' idx', mono_step drop period (Z.of_nat (length xs)) x l = e :: l' /\
    MonoUpdate drop dq idx period x = Ok (snd e, dq', idx') /\
    mono_holds period (xs ++ [x]) dq' idx' (e :: l').
Proof.
  intros Hp Hb (-> & Hc & Hr & Hms).
  pose proof (mono_step_struct drop period Hp _ _ x Hms Hb) as Hms'.
  pose proof (mono_struct_length period Hp _ _ Hms) as Hl.
  destruct (mono_step drop period (Z.of_nat (length xs)) x l) as [|e l'] eqn:Hstep.
  { destruct (ms_last _ _ _ Hms' x xs eq_refl) as [[] ?]; done. }
  destruct (MonoUpdate_refines drop dq period _ x _ _ _ Hr ltac:(lia) Hstep)
    as (dq' & Hu & Hr' & Hc').
  exists e, l', dq', (u64 (Z.of_nat (length xs) + 1)). split_and!; try done.
  split_and!; [|congruence|done|done].
  rewrite u64_small, length_app by lia. simpl. lia.
Qed.

Lemma mono_holds_init period : mono_holds period [] (MonoInit MonoDequeState_init period) 0 [].
Proof.
  split_and!; [done| |apply dq_rep_init|].
  - unfold MonoInit. by rewrite decide_False.
  - split; [constructor|constructor|]. intros x [] E; done.
Qed.

Definition no_nan (x : D) : Prop := fisnan x = false.

(** A run of either operator from a fresh deque. *)
Lemma mono_run drop period x xs :
  (forall a b, no_nan a -> no_nan b -> drop a b = true \/ drop b a = true) ->
  (forall a b c, drop a b = true -> drop b c = true -> drop a c = true) ->
  0 < period -> (Z.of_nat (length (x :: xs)) < 2 ^ 64)%Z ->
  exists v dq,
    push_all (mono_run_push (fun dq idx period y =>
      MonoUpdate drop (MonoInit dq period) idx period y) period) mono_run_init (x :: xs)
      = Ok (v, dq, Z.of_nat (length (x :: xs))) /\
    dq_count dq <= period /\
    (Forall no_nan (x :: xs) ->
     v ∈ last_n period (x :: xs) /\
     forall y, y ∈ last_n period (x :: xs) -> drop y v = true).
Proof.
  intros Htot Htrans Hp Hb.
  set (push := mono_run_push _ period).
  set (P := fun (l : list D) (st : D * MonoDequeState D * Z) =>
    exists es, mono_holds period l (MonoInit (snd (fst st)) period) (snd st) es /\
      (l <> [] -> snd (fst st) = MonoInit (snd (fst st)) period /\
         exists e es', es = e :: es' /\ fst (fst st) = snd e) /\
      (Forall no_nan l -> mono_order drop period l es)).
  destruct (push_all_inv_if push (fun l => Z.of_nat (length l) < 2 ^ 64)%Z P []
    mono_run_init (x :: xs)) as ([[v dq] idx] & Hrun & es & Hh & Hne & Ho).
  - intros l1 l2. rewrite length_app. lia.
  - intros l [[v dq] idx] y HQ (es & Hh & _ & Ho). rewrite length_app in HQ. simpl in HQ.
    destruct (MonoUpdate_holds drop period l (MonoInit dq period) idx es y Hp)
      as (e & es' & dq' & idx' & Hstep & Hu & Hh'); [lia|done|].
    exists (snd e, dq', idx'). split; [done|]. exists (e :: es'). cbn [fst snd].
    rewrite MonoInit_same by apply Hh'. split_and!; [done|by eauto 10|].
    intros HF. rewrite <- Hstep. destruct Hh as (_ & _ & _ & Hms).
    apply (mono_step_order drop period Hp no_nan Htot Htrans); [done| |done|lia].
    apply Ho. by apply Forall_app in HF as [HF _].
  - exact Hb.
  - exists []. split; [apply mono_holds_init|]. split; [done|]. intros _.
    split; [|constructor]. intros j v E. by rewrite lookup_nil in E.
  - simpl app in *. cbn [fst snd] in *. destruct Hne as (Edq & e & es' & -> & ->); [done|].
    rewrite <- Edq in Hh. destruct Hh as (-> & Hc & Hr & Hms).
    exists (snd e), dq. split_and!; [done| |].
    + rewrite (dr_count _ _ Hr). by apply (mono_struct_length period Hp (x :: xs)).
    + intros HF. by apply (mono_front drop period Hp no_nan Htot Htrans _ _ es'); auto.
Qed.

(** C6: rolling_min and rolling_max: from a fresh deque and for fewer than
    2^64 ticks, every update succeeds, whatever the samples (no index of
    the circular buffer is out of range, the deque never holds more than
    [period] of its [period + 1] slots); and when no sample is NaN the
    value returned is the least, respectively the greatest, of the last
    [period] samples. *)
Theorem rolling_extrema_correct `{!OrderLaws D} period x xs :
  0 < period -> (Z.of_nat (length (x :: xs)) < 2 ^ 64)%Z ->
  (exists v dq,
    push_all (mono_run_push UpdateRollingMin period) mono_run_init (x :: xs)
      = Ok (v, dq, Z.of_nat (length (x :: xs))) /\ dq_count dq <= period /\
    (Forall no_nan (x :: xs) -> v ∈ last_n period (x :: xs) /\
       forall y, y ∈ last_n period (x :: xs) -> fle v y = true)) /\
  (exists v dq,
    push_all (mono_run_push UpdateRollingMax period) mono_run_init (x :: xs)
      = Ok (v, dq, Z.of_nat (length (x :: xs))) /\ dq_count dq <= period /\
    (Forall no_nan (x :: xs) -> v ∈ last_n period (x :: xs) /\
       forall y, y ∈ last_n period (x :: xs) -> fle y v = true)).
Proof.
  intros Hp Hb. split.
  - apply (mono_run fge period x xs); [| |done|done]; unfold fge, no_nan.
    + intros a b Ha Hb'. destruct (fle_total a b Ha Hb'); auto.
    + intros a b c Hab Hbc. by eapply fle_trans.
  - apply (mono_run fle period x xs); [| |done|done]; unfold no_nan.
    + apply fle_total.
    + apply fle_trans.
Qed.
End operators.

Lemma rolling_extrema_correct_witness :
  exists v dq,
    push_all (mono_run_push (D:=double) UpdateRollingMin 2) mono_run_init
      [fint 3; fint 1; fint 2; fint 5] = Ok (v, dq, 4%Z) /\ v = fint 2.
Proof.
  destruct (rolling_extrema_correct (D:=double) 2 (fint 3)
    [fint 1; fint 2; fint 5] ltac:(lia) ltac:(done)) as [(v & dq & Hr & _ & Hmin) _].
  exists v, dq. split; [exact Hr|].
  assert (HF : Forall no_nan [fint 3; fint 1; fint 2; fint 5 : double])
    by (repeat constructor).
  destruct (Hmin HF) as [Hin Hle]. cbn in Hin.
  apply elem_of_cons in Hin as [E|Hin]; [exact E|].
  apply list_elem_of_singleton in Hin. specialize (Hle (fint 2) ltac:(left)).
  rewrite Hin in Hle. vm_compute in Hle. discriminate Hle.
Defined.
