(* ===== verification/PairFacts.v ===== *)
(** * vwap, rolling_corr and rolling_beta in exact arithmetic

    The running sums of the paired operators are those of the window, the
    volume-weighted price lies between the window's prices, and Pearson's
    coefficient lies in [-1, 1] before the clamp is applied. *)

From Stdlib Require Import Reals Lra Psatz.
From S2P Require Import Prelude Errors Arith RealArith Rolling RollingFacts.

(** A sample of two real numbers. *)
Definition x2 (p : R * R) : xreal * xreal := (Some (fst p), Some (snd p)).

(** Pushing a real sample. *)
Definition vwap_push (period : nat) (st : VwapState xreal xreal) (p : R * R)
  : Res (VwapState xreal xreal) := VwapPush st period (fst (x2 p)) (snd (x2 p)).
Definition pair_push (period : nat) (st : RollingPairState xreal xreal) (p : R * R)
  : Res (RollingPairState xreal xreal) := RollingPairPush st period (fst (x2 p)) (snd (x2 p)).

(** The sum over the window of a function of the two components. *)
Definition Wsum (f : R -> R -> R) (w : list (R * R)) : R := Rsum (map (fun p => f (fst p) (snd p)) w).

Section window.
Local Open Scope R_scope.

Lemma Wsum_snoc f w p : Wsum f (w ++ [p]) = Wsum f w + f (fst p) (snd p).
Proof. unfold Wsum. rewrite map_app. cbn [map]. by rewrite Rsum_snoc. Qed.
Lemma Wsum_cons f p w : Wsum f (p :: w) = f (fst p) (snd p) + Wsum f w.
Proof. done. Qed.

(** The window of the samples, before and after one more. *)
Lemma window_slide {A} period (xs : list A) x :
  (0 < period)%nat -> (period <= length xs)%nat ->
  exists y t, last_n period xs = y :: t /\ last_n period (xs ++ [x]) = t ++ [x] /\
    xs !! (length xs - period)%nat = Some y.
Proof.
  intros Hp Hle. rewrite last_n_snoc by done.
  pose proof (length_last_n period xs) as Hlen.
  destruct (last_n period xs) as [|y t] eqn:E; simpl in Hlen; [lia|].
  exists y, t. split_and!; try done.
  assert (Hy : last_n period xs !! 0%nat = Some y) by (by rewrite E).
  unfold last_n in Hy. by rewrite lookup_drop, Nat.add_0_r in Hy.
Qed.

(** The slot at [head] of a full ring, when the samples are [map f xs]. *)
Lemma ring_oldest {A B} (f : B -> A) cap buf head count (xs : list B) y :
  ring_rep cap buf head count (map f xs) -> (cap <= length xs)%nat ->
  xs !! (length xs - cap)%nat = Some y -> buf !! head = Some (f y).
Proof.
  intros Hr Hle Hy. pose proof Hr as [Hp Hl Hh _ _ _].
  destruct (lookup_lt_is_Some_2 buf head) as [z Hz]; [lia|].
  destruct (ring_rep_oldest _ _ _ _ _ _ Hr ltac:(rewrite length_map; lia) Hz) as [_ Hz'].
  rewrite length_map, list_lookup_fmap, Hy in Hz'. simpl in Hz'. congruence.
Qed.
End window.

Section vwap.
Local Open Scope R_scope.

Record vwap_exact (period : nat) (xs : list (R * R)) (st : VwapState xreal xreal) : Prop := {
  ve_holds : vwap_holds period (map x2 xs) st;
  ve_pv : sum_pv st = Some (Wsum Rmult (last_n period xs));
  ve_vol : sum_vol st = Some (Wsum (fun _ v => v) (last_n period xs));
}.

Lemma VwapStep_exact period xs st p :
  vwap_exact period xs st ->
  exists st', VwapStep st (Some (fst p)) (Some (snd p)) = Ok st' /\
    vwap_exact period (xs ++ [p]) st'.
Proof.
  intros [(Hc & Hp & Hv) Hpv Hvol].
  pose proof (ring_rep_step _ _ _ _ _ (fst (x2 p)) Hp) as Hp'.
  pose proof (ring_rep_step _ _ _ _ _ (snd (x2 p)) Hv) as Hv'.
  rewrite map_map in Hp, Hv.
  pose proof Hp as [Hpos Hlp Hh Hcount _ _]. pose proof (rr_len _ _ _ _ _ Hv) as Hlv.
  rewrite length_map in Hcount. unfold VwapStep. rewrite Hc.
  destruct (Nat.eqb_spec (v_count st) period) as [Hf|Hf].
  - destruct (window_slide period xs p Hpos ltac:(lia)) as (y & t & Hw & Hw' & Hy).
    unfold at_idx.
    rewrite (ring_oldest (fun p => fst (x2 p)) _ _ _ _ _ _ Hp ltac:(lia) Hy),
      (ring_oldest (fun p => snd (x2 p)) _ _ _ _ _ _ Hv ltac:(lia) Hy).
    cbn [rbind]. rewrite !set_idx_Ok by lia. simpl. eexists. split; [done|].
    split; [split_and!; simpl; rewrite ?map_app; done| |]; cbn [sum_pv sum_vol];
      rewrite ?Hpv, ?Hvol, Hw, Hw', Wsum_snoc, Wsum_cons; simpl; f_equal; lra.
  - cbn [rbind]. rewrite !set_idx_Ok by lia. simpl. eexists. split; [done|].
    split; [split_and!; simpl; rewrite ?map_app; done| |]; cbn [sum_pv sum_vol];
      rewrite last_n_snoc_short, Wsum_snoc, ?Hpv, ?Hvol by lia; done.
Qed.
End vwap.

Section vwap_value.
Local Open Scope R_scope.

Lemma vwap_exact_fresh period :
  (0 < period)%nat -> vwap_exact period [] (VwapPrepare period VwapState_init).
Proof.
  intros Hp. unfold VwapPrepare. rewrite decide_False by (simpl; lia).
  split; [split_and!; [done|..]; apply ring_rep_nil; simpl; rewrite ?length_replicate; done| |];
    cbn [sum_pv sum_vol]; by rewrite fint_xreal.
Qed.

Lemma push_all_vwap_exact period x xs :
  (0 < period)%nat ->
  exists st, push_all (vwap_push period)
      VwapState_init (x :: xs) = Ok st /\ vwap_exact period (x :: xs) st.
Proof.
  intros Hp. apply push_all_fresh.
  - unfold vwap_push, VwapPush. destruct (Nat.eqb_spec period 0); [lia|].
    by apply (VwapStep_exact period []), vwap_exact_fresh.
  - intros l st y Hex. unfold vwap_push, VwapPush, VwapPrepare.
    destruct (Nat.eqb_spec period 0); [lia|].
    rewrite decide_True by apply Hex. by apply VwapStep_exact.
Qed.

Lemma Wsum_weighted_bounds w lo hi :
  Forall (fun p => lo <= fst p <= hi /\ 0 < snd p) w ->
  lo * Wsum (fun _ v => v) w <= Wsum Rmult w <= hi * Wsum (fun _ v => v) w /\
  (w <> [] -> 0 < Wsum (fun _ v => v) w).
Proof.
  induction 1 as [|p w [[Hlo Hhi] Hv] HF [[IHl IHh] IHp]].
  - unfold Wsum. simpl. split; [lra|done].
  - rewrite !Wsum_cons. split; [nra|]. intros _.
    destruct w as [|q w]; [unfold Wsum; simpl; lra|]. specialize (IHp ltac:(done)). lra.
Qed.

Lemma Rdiv_bounds lo hi a b : 0 < b -> lo * b <= a <= hi * b -> lo <= a / b <= hi.
Proof.
  intros Hb Ha. unfold Rdiv. split; apply (Rmult_le_reg_r b); try done;
    rewrite Rmult_assoc, Rinv_l by lra; lra.
Qed.

(** vwap is the volume-weighted mean of the last [period] prices, and
    with positive volumes it lies between any bounds of those prices. *)
Theorem vwap_weighted_mean period x xs lo hi :
  (0 < period)%nat ->
  Forall (fun p => lo <= fst p <= hi /\ 0 < snd p) (last_n period (x :: xs)) ->
  exists st v,
    push_all (vwap_push period)
      VwapState_init (x :: xs) = Ok st /\
    VwapValue st = Some v /\
    v = Wsum Rmult (last_n period (x :: xs)) / Wsum (fun _ v => v) (last_n period (x :: xs)) /\
    lo <= v <= hi.
Proof.
  intros Hp HF. destruct (push_all_vwap_exact period x xs Hp) as (st & Hst & [Hh Hpv Hvol]).
  destruct (Wsum_weighted_bounds _ lo hi HF) as [Hb Hpos].
  assert (Hne : last_n period (x :: xs) <> []).
  { intros E. apply (f_equal length) in E. rewrite length_last_n in E. simpl in E. lia. }
  specialize (Hpos Hne). exists st. eexists. split; [done|].
  set (S1 := Wsum Rmult _) in *. set (S2 := Wsum (fun _ v => v) _) in *.
  assert (Hc : v_count st =? 0 = false).
  { destruct Hh as (_ & Hr & _). rewrite (rr_count _ _ _ _ _ Hr), !length_map.
    apply Nat.eqb_neq. simpl. lia. }
  unfold VwapValue. rewrite Hc, Hpv, Hvol, fint_xreal, feq_xreal. simpl orb.
  destruct (Reqb_spec S2 0); [exfalso; lra|]. split; [cbn [trunc exact]; by apply fdiv_xreal|].
  split; [done|]. by apply Rdiv_bounds.
Qed.
End vwap_value.

Section pair.
Local Open Scope R_scope.

Definition Wcov (w : list (R * R)) : R :=
  Wsum Rmult w - Wsum (fun x _ => x) w * Wsum (fun _ y => y) w / INR (length w).
Definition Wvar_x (w : list (R * R)) : R :=
  Wsum (fun x _ => x * x) w - Wsum (fun x _ => x) w * Wsum (fun x _ => x) w / INR (length w).
Definition Wvar_y (w : list (R * R)) : R :=
  Wsum (fun _ y => y * y) w - Wsum (fun _ y => y) w * Wsum (fun _ y => y) w / INR (length w).

Definition sums_of (w : list (R * R)) : PairSums xreal :=
  MkSums (Some (Wsum (fun x _ => x) w)) (Some (Wsum (fun _ y => y) w))
    (Some (Wsum Rmult w)) (Some (Wsum (fun x _ => x * x) w)) (Some (Wsum (fun _ y => y * y) w)).

Record pair_exact (period : nat) (xs : list (R * R)) (st : RollingPairState xreal xreal)
  : Prop := {
  pe_holds : pair_holds period (map x2 xs) st;
  pe_sums : sums st = sums_of (last_n period xs);
}.

Lemma pair_add_exact w p :
  pair_add (sums_of w) (Some (fst p)) (Some (snd p)) = sums_of (w ++ [p]).
Proof. unfold pair_add, sums_of. rewrite !Wsum_snoc. done. Qed.

Lemma pair_remove_exact w p :
  pair_remove (sums_of (p :: w)) (Some (fst p)) (Some (snd p)) = sums_of w.
Proof.
  unfold pair_remove, sums_of. rewrite !Wsum_cons. simpl. repeat f_equal; lra.
Qed.

Lemma RollingPairPush_exact period xs st p :
  pair_exact period xs (RollingPairPrepare period st) ->
  exists st', RollingPairPush st period (Some (fst p)) (Some (snd p)) = Ok st' /\
    pair_exact period (xs ++ [p]) st'.
Proof.
  unfold RollingPairPush. generalize (RollingPairPrepare period st) as st0. clear st.
  intros st [(Hc & Hx & Hy) Hs].
  pose proof (ring_rep_step _ _ _ _ _ (fst (x2 p)) Hx) as Hx'.
  pose proof (ring_rep_step _ _ _ _ _ (snd (x2 p)) Hy) as Hy'.
  rewrite map_map in Hx, Hy.
  pose proof Hx as [Hpos Hlx Hh Hcount _ _]. pose proof (rr_len _ _ _ _ _ Hy) as Hly.
  rewrite length_map in Hcount. rewrite Hc. destruct (Nat.eqb_spec period 0); [lia|].
  cbn [ensure negb rbind].
  destruct (Nat.eqb_spec (p_count st) period) as [Hf|Hf].
  - destruct (window_slide period xs p Hpos ltac:(lia)) as (y & t & Hw & Hw' & Hyo).
    unfold at_idx.
    rewrite (ring_oldest (fun p => fst (x2 p)) _ _ _ _ _ _ Hx ltac:(lia) Hyo),
      (ring_oldest (fun p => snd (x2 p)) _ _ _ _ _ _ Hy ltac:(lia) Hyo).
    cbn [rbind]. rewrite !set_idx_Ok by lia. cbn [rbind]. eexists. split; [done|].
    split; [split_and!; simpl; rewrite ?map_app; done|]. cbn [sums].
    rewrite Hs, Hw, Hw'. cbn [fst snd x2].
    etrans; [|apply pair_add_exact]. f_equal. apply pair_remove_exact.
  - cbn [rbind]. rewrite !set_idx_Ok by lia. cbn [rbind]. eexists. split; [done|].
    split; [split_and!; simpl; rewrite ?map_app; done|]. cbn [sums].
    rewrite last_n_snoc_short, Hs by lia. apply pair_add_exact.
Qed.

Lemma pair_exact_fresh period :
  (0 < period)%nat -> pair_exact period [] (RollingPairPrepare period RollingPairState_init).
Proof.
  intros Hp. unfold RollingPairPrepare. rewrite decide_False by (simpl; lia).
  split; [split_and!; [done|..]; apply ring_rep_nil; simpl; rewrite ?length_replicate; done|].
  cbn [sums]. unfold zero_sums, sums_of. rewrite fint_xreal. done.
Qed.

Lemma push_all_pair_exact period x xs :
  (0 < period)%nat ->
  exists st, push_all (pair_push period)
      RollingPairState_init (x :: xs) = Ok st /\ pair_exact period (x :: xs) st.
Proof.
  intros Hp. apply push_all_fresh.
  - by apply (RollingPairPush_exact period []), pair_exact_fresh.
  - intros l st y Hex. apply RollingPairPush_exact.
    unfold RollingPairPrepare. by rewrite decide_True by apply Hex.
Qed.

(** ** Cauchy and Schwarz *)

Lemma Wsum_square w a b t :
  Wsum (fun x y => ((x - a) + t * (y - b)) ^ 2) w =
    Wsum (fun x _ => x * x) w + t ^ 2 * Wsum (fun _ y => y * y) w + 2 * t * Wsum Rmult w
    - 2 * (a + t * b) * (Wsum (fun x _ => x) w + t * Wsum (fun _ y => y) w)
    + INR (length w) * (a + t * b) ^ 2.
Proof.
  induction w as [|[x y] w IH]; [unfold Wsum; simpl; lra|].
  rewrite !Wsum_cons, IH. cbn [length fst snd]. rewrite S_INR. ring.
Qed.

Lemma Wsum_nonneg f w : (forall x y, 0 <= f x y) -> 0 <= Wsum f w.
Proof.
  intros Hf. apply Rsum_nonneg, Forall_forall. intros z (p & -> & _)%list_elem_of_fmap. apply Hf.
Qed.

Lemma Wquadratic w t :
  w <> [] -> 0 <= Wvar_x w + 2 * t * Wcov w + t ^ 2 * Wvar_y w.
Proof.
  intros Hw. set (n := INR (length w)).
  assert (Hn : n <> 0) by (by destruct w; [|apply not_0_INR]).
  pose proof (Wsum_nonneg (fun x y =>
    ((x - Wsum (fun x _ => x) w / n) + t * (y - Wsum (fun _ y => y) w / n)) ^ 2) w
    (fun x y => pow2_ge_0 _)) as H. rewrite Wsum_square in H. fold n in H.
  unfold Wvar_x, Wvar_y, Wcov. fold n.
  match goal with |- 0 <= ?e => replace e with
    (Wsum (fun x _ => x * x) w + t ^ 2 * Wsum (fun _ y => y * y) w + 2 * t * Wsum Rmult w
    - 2 * (Wsum (fun x _ => x) w / n + t * (Wsum (fun _ y => y) w / n)) *
      (Wsum (fun x _ => x) w + t * Wsum (fun _ y => y) w)
    + n * (Wsum (fun x _ => x) w / n + t * (Wsum (fun _ y => y) w / n)) ^ 2); [done|] end.
  field. done.
Qed.

Lemma Cauchy_Schwarz w : w <> [] -> 0 < Wvar_y w -> Wcov w ^ 2 <= Wvar_x w * Wvar_y w.
Proof.
  intros Hw Hy. pose proof (Wquadratic w (- (Wcov w / Wvar_y w)) Hw) as H.
  replace (Wvar_x w + 2 * - (Wcov w / Wvar_y w) * Wcov w +
           (- (Wcov w / Wvar_y w)) ^ 2 * Wvar_y w)
    with ((Wvar_x w * Wvar_y w - Wcov w ^ 2) / Wvar_y w) in H by (field; lra).
  apply (Rmult_le_compat_r (Wvar_y w)) in H; [|lra].
  unfold Rdiv in H. rewrite Rmult_assoc, Rinv_l, Rmult_0_l, Rmult_1_r in H by lra. lra.
Qed.

Lemma Wcorr_bounds w :
  w <> [] -> 0 < Wvar_x w -> 0 < Wvar_y w ->
  -1 <= Wcov w / sqrt (Wvar_x w * Wvar_y w) <= 1.
Proof.
  intros Hw Hx Hy. pose proof (Cauchy_Schwarz w Hw Hy) as HC.
  assert (Hpos : 0 < Wvar_x w * Wvar_y w) by nra.
  pose proof (sqrt_lt_R0 _ Hpos) as Hs. pose proof (sqrt_sqrt _ (Rlt_le _ _ Hpos)) as Hsq.
  apply Rdiv_bounds; [done|]. split; nra.
Qed.

Lemma clamp_unit_exact r : -1 <= r <= 1 -> clamp_unit (Some r : xreal) = Some r.
Proof.
  intros [Hl Hh]. unfold clamp_unit, fgt. rewrite !fint_xreal, flt_xreal.
  destruct (Rltb_spec 1 r); [lra|]. rewrite flt_xreal.
  destruct (Rltb_spec r (-1)); [lra|done].
Qed.

Lemma pair_unnorm_exact w :
  w <> [] ->
  let n : xreal := fnat (length w) in
  cov_unnorm (sums_of w) n = Some (Wcov w) /\
  var_x_unnorm (sums_of w) n = Some (Wvar_x w) /\
  var_y_unnorm (sums_of w) n = Some (Wvar_y w).
Proof.
  intros Hw n. assert (INR (length w) <> 0) by (by destruct w; [|apply not_0_INR]).
  unfold n, cov_unnorm, var_x_unnorm, var_y_unnorm, sums_of. cbn [sum_x sum_y sum_xy sum_xx sum_yy].
  rewrite fnat_xreal, !fmul_xreal, !fdiv_xreal by done. done.
Qed.

Lemma RollingPair_read_exact (st : RollingPairState xreal xreal) w :
  w <> [] -> p_count st = length w -> RollingPairFull st = true -> sums st = sums_of w ->
  RollingPairCorrelation st =
    (if Rleb (Wvar_x w) 0 || Rleb (Wvar_y w) 0 then None
     else Some (Wcov w / sqrt (Wvar_x w * Wvar_y w))) /\
  RollingPairBeta st =
    (if Rleb (Wvar_x w) 0 then None else Some (Wcov w / Wvar_x w)).
Proof.
  intros Hw Hc Hf Hs. destruct (pair_unnorm_exact w Hw) as (Ec & Ex & Ey).
  unfold RollingPairCorrelation, RollingPairBeta. rewrite Hf, Hc, Hs. cbn [negb ldb exact].
  rewrite Ec, Ex, Ey, !fint_xreal, !fle_xreal.
  destruct (Rleb_spec (Wvar_x w) 0) as [|Hx]; [done|].
  split; [|cbn [trunc exact]; apply fdiv_xreal; lra].
  destruct (Rleb_spec (Wvar_y w) 0) as [|Hy]; [done|]. simpl orb. cbv iota.
  apply Rnot_le_lt in Hx, Hy. assert (Hpos : 0 < Wvar_x w * Wvar_y w) by nra.
  pose proof (sqrt_lt_R0 _ Hpos).
  rewrite fmul_xreal, fsqrt_xreal, feq_xreal by lra.
  destruct (Reqb_spec (sqrt (Wvar_x w * Wvar_y w)) 0); [lra|].
  rewrite fdiv_xreal, clamp_unit_exact by (done || by apply Wcorr_bounds). done.
Qed.

(** C29: rolling_corr and rolling_beta: once [period] pairs have been
    pushed, the running sums give, in exact arithmetic, the covariance
    and the variances of the window; where both variances are positive the
    correlation is Pearson's coefficient, which lies in [-1, 1] without the
    clamp, and beta is the regression slope; otherwise the result is NaN. *)
Theorem rolling_pair_exact period x xs :
  (0 < period <= length (x :: xs))%nat ->
  exists st w,
    push_all (pair_push period) RollingPairState_init (x :: xs) = Ok st /\
    w = last_n period (x :: xs) /\
    RollingPairCorrelation st =
      (if Rleb (Wvar_x w) 0 || Rleb (Wvar_y w) 0 then None
       else Some (Wcov w / sqrt (Wvar_x w * Wvar_y w))) /\
    (0 < Wvar_x w -> 0 < Wvar_y w -> -1 <= Wcov w / sqrt (Wvar_x w * Wvar_y w) <= 1) /\
    RollingPairBeta st = (if Rleb (Wvar_x w) 0 then None else Some (Wcov w / Wvar_x w)).
Proof.
  intros [Hp Hle]. destruct (push_all_pair_exact period x xs Hp) as (st & Hst & [Hh Hs]).
  exists st, (last_n period (x :: xs)). pose proof (length_last_n period (x :: xs)) as Hlen.
  assert (Hne : last_n period (x :: xs) <> [])
    by (intros E; rewrite E in Hlen; cbn [length] in *; lia).
  destruct Hh as (Hc & Hr & _). pose proof (rr_count _ _ _ _ _ Hr) as Hcount.
  rewrite !length_map in Hcount.
  destruct (RollingPair_read_exact st _ Hne ltac:(lia)) as [Hcorr Hbeta]; [|done|].
  { unfold RollingPairFull. rewrite Hc. apply andb_true_iff.
    split; [apply Nat.eqb_eq; lia|apply Nat.ltb_lt; lia]. }
  split_and!; try done. by apply Wcorr_bounds.
Qed.
End pair.

Lemma vwap_weighted_mean_witness :
  exists st v,
    push_all (vwap_push 2) VwapState_init [(9, 9); (1, 1); (4, 2)]%R = Ok st /\
    VwapValue st = Some v /\ (1 <= v <= 4)%R.
Proof.
  destruct (vwap_weighted_mean 2 (9, 9)%R [(1, 1); (4, 2)]%R 1 4) as (st & v & H1 & H2 & _ & H3).
  - lia.
  - repeat constructor; simpl; lra.
  - exists st, v. split_and!; [assumption|assumption|apply H3|apply H3].
Defined.

Lemma rolling_pair_exact_witness :
  exists st w,
    push_all (pair_push 2) RollingPairState_init [(9, 9); (1, 1); (4, 2)]%R = Ok st /\
    w = last_n 2 [(9, 9); (1, 1); (4, 2)]%R /\
    RollingPairBeta st = (if Rleb (Wvar_x w) 0 then None else Some (Wcov w / Wvar_x w)%R).
Proof.
  destruct (rolling_pair_exact 2 (9, 9)%R [(1, 1); (4, 2)]%R) as (st & w & H1 & H2 & _ & _ & H3).
  - simpl. lia.
  - exists st, w. split_and!; assumption.
Defined.
