(* ===== verification/FilterFacts.v ===== *)
(** * The recursive filters in exact arithmetic

    The exponential moving averages stay between the bounds of their
    samples, and so does the one-dimensional Kalman filter, whose variance
    stays positive and below the measurement noise. *)

From Stdlib Require Import Reals Lra Psatz.
From S2P Require Import Prelude Errors Arith RealArith Rolling RollingFacts Interpreter.

Local Open Scope R_scope.

(** ** Kalman *)

(** One step of a run of [kalman1d]: a measurement with its noise variances. *)
Definition kalman_push (st : Kalman1dState xreal) (i : R * R * R) : Res (Kalman1dState xreal) :=
  let '(x, q, r) := i in Ok (snd (Kalman1dStep st (Some x) (Some q) (Some r))).

(** What a started filter satisfies; [r] is the last measurement noise. *)
Record kalman_ok (lo hi r : R) (st : Kalman1dState xreal) : Prop := {
  ko_init : k_initialized st = true;
  ko_x : exists x, x_hat st = Some x /\ lo <= x <= hi;
  ko_p : exists p, k_p st = Some p /\ 0 < p <= r;
}.

Lemma kalman_gain p q r :
  0 < p -> 0 <= q -> 0 < r ->
  let k := (p + q) / (p + q + r) in
  0 < k < 1 /\ (1 - k) * (p + q) = r * k /\ 0 < r * k <= r.
Proof.
  intros Hp Hq Hr k. assert (Hk : 0 < k < 1).
  { unfold k. split; [apply Rdiv_lt_0_compat; lra|].
    apply (Rmult_lt_reg_r (p + q + r)); [lra|]. unfold Rdiv.
    rewrite Rmult_assoc, Rinv_l by lra. lra. }
  split; [done|]. split; [unfold k; field; lra|nra].
Qed.

Lemma Kalman1dStep_exact lo hi r0 st x q r :
  kalman_ok lo hi r0 st -> lo <= x <= hi -> 0 <= q -> 0 < r ->
  kalman_ok lo hi r (snd (Kalman1dStep st (Some x) (Some q) (Some r))).
Proof.
  intros [Hi (xh & Hx & Hxb) (p & Hp & Hpb)] Hb Hq Hr.
  unfold Kalman1dStep. rewrite Hi, Hx, Hp. cbn [negb].
  destruct (kalman_gain p q r ltac:(lra) Hq Hr) as (Hk & Hpn & Hpn').
  rewrite !fint_xreal, !fadd_xreal, fle_xreal.
  destruct (Rleb_spec (p + q + r) 0); [lra|].
  rewrite fdiv_xreal by lra. set (k := (p + q) / (p + q + r)) in *. clearbody k.
  rewrite !fsub_xreal, !fmul_xreal, fadd_xreal, flt_xreal, Hpn.
  destruct (Rltb_spec (r * k) 0); [lra|].
  split; simpl; [done| |].
  - eexists. split; [done|]. nra.
  - by exists (r * k).
Qed.

(** C30: the scalar Kalman filter is stable in exact arithmetic: fed
    measurements within [lo, hi], process noises [q >= 0] and measurement
    noises [r > 0] (what the interpreter requires), it never becomes NaN; the
    posterior variance stays positive and at most the last [r], so that
    neither the degenerate-denominator exit nor the clamp to 0 is ever taken;
    and every estimate stays within [lo, hi]. *)
Theorem kalman_stable lo hi inputs x q r :
  Forall (fun '(x, q, r) => lo <= x <= hi /\ 0 <= q /\ 0 < r) (inputs ++ [(x, q, r)]) ->
  exists st xh p,
    push_all kalman_push Kalman1dState_init (inputs ++ [(x, q, r)]) = Ok st /\
    x_hat st = Some xh /\ lo <= xh <= hi /\ k_p st = Some p /\ 0 < p <= r.
Proof.
  intros HF.
  set (Q := Forall (fun '(x, q, r) => lo <= x <= hi /\ 0 <= q /\ 0 < r)) in *.
  set (P := fun (l : list (R * R * R)) st =>
    match last l with None => st = Kalman1dState_init | Some i => kalman_ok lo hi (snd i) st end).
  destruct (push_all_inv_if kalman_push Q P [] Kalman1dState_init (inputs ++ [(x, q, r)]))
    as (st & Hst & HP).
  - intros l1 l2 HQ. by apply Forall_app in HQ as [HQ _].
  - intros l st [[x' q'] r'] HQ HP. apply Forall_app in HQ as [_ HQ].
    apply Forall_cons in HQ as [(Hx & Hq & Hr) _]. eexists. split; [done|].
    unfold P. rewrite last_snoc. unfold P in HP. destruct (last l).
    + by eapply Kalman1dStep_exact.
    + subst st. cbn. split; simpl; eauto. exists r'. split; [done|lra].
  - exact HF.
  - done.
  - simpl app in HP. unfold P in HP. rewrite last_snoc in HP.
    destruct HP as [_ (xh & ? & ?) (p & ? & ?)]. by exists st, xh, p.
Qed.

Lemma kalman_stable_witness :
  exists st xh p,
    push_all kalman_push Kalman1dState_init [(1, 0, 1); (3, 1, 2)] = Ok st /\
    x_hat st = Some xh /\ 1 <= xh <= 3 /\ k_p st = Some p /\ 0 < p <= 2.
Proof.
  apply (kalman_stable 1 3 [(1, 0, 1)] 3 1 2). repeat constructor; lra.
Defined.

(** ** Exponential moving averages *)

Definition ema_push (st : EMAState xreal) (i : R * R) : Res (EMAState xreal) :=
  rmap snd (ema_alpha_step (D:=xreal) (Some (snd i)) (Some (fst i)) st).

Definition ema_period_push (period : nat) (st : EMAState xreal) (x : R) : Res (EMAState xreal) :=
  rmap snd (ema_step (D:=xreal) period (Some x) st).

Lemma ema_alpha_of_exact period :
  (0 < period)%nat -> exists a, ema_alpha_of (D:=xreal) period = Some a /\ 0 <= a <= 1.
Proof.
  intros Hp. apply le_INR in Hp. simpl in Hp. unfold ema_alpha_of.
  rewrite !fint_xreal, fnat_xreal, fadd_xreal, fdiv_xreal by lra.
  eexists. split; [done|]. split.
  - apply Rmult_le_pos; [lra|]. left. apply Rinv_0_lt_compat. lra.
  - apply (Rmult_le_reg_r (INR period + 1)); [lra|]. unfold Rdiv.
    rewrite Rmult_assoc, Rinv_l by lra. lra.
Qed.

Lemma ema_blend_exact a x v lo hi :
  0 <= a <= 1 -> lo <= x <= hi -> lo <= v <= hi ->
  exists y, ema_blend (D:=xreal) (Some a) (Some x) (Some v) = Some y /\ lo <= y <= hi.
Proof.
  intros Ha Hx Hv. unfold ema_blend. rewrite fint_xreal, fsub_xreal, !fmul_xreal, fadd_xreal.
  eexists. split; [done|]. nra.
Qed.

Definition ema_ok (lo hi : R) (st : EMAState xreal) : Prop :=
  e_initialized st = true /\ exists v, e_value st = Some v /\ lo <= v <= hi.

Lemma ema_alpha_step_exact lo hi st a x :
  (st = EMAState_init \/ ema_ok lo hi st) -> 0 <= a <= 1 -> lo <= x <= hi ->
  exists st', ema_push st (x, a) = Ok st' /\ ema_ok lo hi st'.
Proof.
  intros Hst Ha Hx. unfold ema_push, ema_alpha_step. cbn [fst snd].
  eexists. split; [done|]. destruct Hst as [->|[Hi (v & Hv & Hb)]].
  - split; [done|]. by exists x.
  - split; [done|]. cbn [e_value]. rewrite Hi, Hv. cbn [negb]. by apply ema_blend_exact.
Qed.

Lemma ema_step_exact lo hi st period x :
  (0 < period)%nat -> (st = EMAState_init \/ ema_ok lo hi st) -> lo <= x <= hi ->
  exists st', ema_period_push period st x = Ok st' /\ ema_ok lo hi st'.
Proof.
  intros Hp Hst Hx. unfold ema_period_push, ema_step.
  eexists. split; [done|]. destruct Hst as [->|[Hi (v & Hv & Hb)]].
  - split; [done|]. by exists x.
  - split; [done|]. cbn [e_value]. rewrite Hi, Hv. cbn [negb].
    destruct (ema_alpha_of_exact period Hp) as (a & -> & Ha). by apply ema_blend_exact.
Qed.

Lemma push_all_ema {A} (push : EMAState xreal -> A -> Res (EMAState xreal)) lo hi
  (Q : A -> Prop) i ins :
  (forall st i, (st = EMAState_init \/ ema_ok lo hi st) -> Q i ->
     exists st', push st i = Ok st' /\ ema_ok lo hi st') ->
  Forall Q (i :: ins) ->
  exists st, push_all push EMAState_init (i :: ins) = Ok st /\ ema_ok lo hi st.
Proof.
  intros Hstep HF. apply Forall_cons in HF as [Hi HF].
  destruct (Hstep EMAState_init i) as (st & Hst & Hok); [by left|done|].
  simpl. rewrite Hst. simpl. clear Hst Hi. revert st Hok.
  induction HF as [|j ins Hj HF IH]; intros st Hok; [by exists st|].
  destruct (Hstep st j) as (st' & Hst' & Hok'); [by right|done|]. simpl. rewrite Hst'. by apply IH.
Qed.

(** the exponential averages are convex: samples within [lo, hi] keep
    [ema(x, period)] within [lo, hi], and [ema_alpha(x, alpha)] too for any
    sequence of factors within [0, 1] (what the interpreter requires). *)
Theorem ema_bounded lo hi period i ins :
  (0 < period)%nat -> Forall (fun i => lo <= fst i <= hi /\ 0 <= snd i <= 1) (i :: ins) ->
  (exists st v, push_all (ema_period_push period) EMAState_init (map fst (i :: ins)) = Ok st /\
     e_value st = Some v /\ lo <= v <= hi) /\
  (exists st v, push_all ema_push EMAState_init (i :: ins) = Ok st /\
     e_value st = Some v /\ lo <= v <= hi).
Proof.
  intros Hp HF. split.
  - destruct (push_all_ema (ema_period_push period) lo hi (fun x => lo <= x <= hi) (fst i)
      (map fst ins)) as (st & Hst & _ & v & ? & ?).
    + intros. by apply ema_step_exact.
    + change (Forall (fun x => lo <= x <= hi) (map fst (i :: ins))).
      apply Forall_fmap. by eapply Forall_impl; [exact HF|intros ? []].
    + exists st, v. by cbn [map].
  - destruct (push_all_ema ema_push lo hi (fun i => lo <= fst i <= hi /\ 0 <= snd i <= 1) i ins)
      as (st & Hst & _ & v & ? & ?); [|done|by exists st, v].
    intros st [x a] Hst [Hx Ha]. by apply ema_alpha_step_exact.
Qed.

Lemma ema_bounded_witness :
  (exists st v, push_all (ema_period_push 3) EMAState_init [1; 4] = Ok st /\
     e_value st = Some v /\ 1 <= v <= 4) /\
  (exists st v, push_all ema_push EMAState_init [(1, 0); (4, 1)] = Ok st /\
     e_value st = Some v /\ 1 <= v <= 4).
Proof.
  apply (ema_bounded 1 4 3 (1, 0) [(4, 1)]); [lia|]. repeat constructor; simpl; lra.
Defined.
