(* ===== verification/SafetyFacts.v ===== *)
(** * Memory safety of the interpreter

    The interpreter indexes the context's arrays by node id and the market
    by symbol id without bounds checks, and casts literal periods to [int].
    This file shows that the passes that run before it make this safe: a
    node typing [Γ] gives the operator and the period of each node id; a
    context is well formed for [Γ] when every slot can take a sample of its
    operator; evaluation keeps it well formed and meets no undefined
    behaviour.  PipelineFacts.v establishes well-formedness. *)

From Stdlib Require Import Reals.
From S2P Require Import Prelude Errors Arith RealArith Ast SymbolTable SignalProgram Rolling Context Interpreter RollingFacts MonoFacts.

(** The operator a node runs: which array holds its slot, and its period. *)
Inductive NodeOp :=
| NEma | NCross | NKalman
| NSma (p : nat) | NStd (p : nat) | NZscore (p : nat) | NVwap (p : nat) | NLag (p : nat)
| NMin (p : nat) | NMax (p : nat) | NCorr (p : nat) | NBeta (p : nat).

(** Try the names of a chain of tests one by one. *)
Ltac name_case :=
  match goal with
  | |- context [(?n =? ?lit)%string] =>
      is_var n; destruct (String.eqb_spec n lit) as [->|]; [reflexivity || (intros; done)|]; cbn [orb andb]
  end.

Section safety.
Context {D L : Type} `{Machine D L}.
Notation Nodes := (NodeStates D L).

(** ** Node typing *)

(** The argument that a builtin reads its period from. *)
Definition period_arg (name : string) (args : list (Expr D)) : option (Expr D) :=
  match args with
  | [_; p] =>
      if (name =? "ema")%string || (name =? "sma")%string || (name =? "rolling_std")%string ||
         (name =? "zscore")%string || (name =? "vwap")%string || (name =? "lag")%string ||
         (name =? "rolling_min")%string || (name =? "rolling_max")%string
      then Some p else None
  | [_; _; p] =>
      if (name =? "rolling_corr")%string || (name =? "rolling_beta")%string
      then Some p else None
  | _ => None
  end.

Definition period_of (e : Expr D) : option nat :=
  match e with
  | NumberLiteral _ v =>
      match to_int v with
      | Some z => if period_ok v z then Some (Z.to_nat z) else None
      | None => None
      end
  | _ => None
  end.

(** [static_cast<int>] of the literal is defined. *)
Definition castable (e : Expr D) : bool :=
  match e with
  | NumberLiteral _ v => match to_int v with Some _ => true | None => false end
  | _ => true
  end.

Definition windowed (name : string) (p : nat) : option NodeOp :=
  if (name =? "ema")%string then Some NEma
  else if (name =? "sma")%string then Some (NSma p)
  else if (name =? "rolling_std")%string then Some (NStd p)
  else if (name =? "zscore")%string then Some (NZscore p)
  else if (name =? "vwap")%string then Some (NVwap p)
  else if (name =? "lag")%string then Some (NLag p)
  else if (name =? "rolling_min")%string then Some (NMin p)
  else if (name =? "rolling_max")%string then Some (NMax p)
  else if (name =? "rolling_corr")%string then Some (NCorr p)
  else if (name =? "rolling_beta")%string then Some (NBeta p)
  else None.

(** The operator of a call; [None] for a call that runs none. *)
Definition call_op (name : string) (args : list (Expr D)) : option NodeOp :=
  match period_arg name args with
  | Some p => match period_of p with Some n => windowed name n | None => None end
  | None =>
      if (name =? "ema_alpha")%string then Some NEma
      else if (name =? "cross_above")%string || (name =? "cross_below")%string
      then Some NCross
      else if (name =? "kalman1d")%string then Some NKalman
      else None
  end.

(** Every call is typed by [Γ], has a castable period and an instrument
    slot, if it is bound to one, within the market. *)
Fixpoint numbered (Γ : gmap Z NodeOp) (e : Expr D) : Prop :=
  match e with
  | NumberLiteral _ _ | IdentifierExpr _ _ | ParameterExpr _ _ _ => True
  | UnaryOp _ _ x => numbered Γ x
  | BinaryOp _ _ l r => numbered Γ l /\ numbered Γ r
  | Conditional _ c t f => numbered Γ c /\ numbered Γ t /\ numbered Γ f
  | FunctionCall _ name args id sym =>
      (IsStatefulOp name = true -> (0 <= id)%Z -> Γ !! id = call_op name args) /\
      (forall p, period_arg name args = Some p -> castable p = true) /\
      (sym < Z.of_nat kMaxInstruments)%Z /\
      foldr and True (map (numbered Γ) args)
  end.

(** Only the stateful builtins run an operator. *)
Lemma period_arg_stateful name args p : period_arg name args = Some p -> IsStatefulOp name = true.
Proof.
  unfold period_arg. destruct args as [|? [|? [|? [|]]]]; try done;
    repeat name_case; done.
Qed.

Lemma call_op_stateful name args op : call_op name args = Some op -> IsStatefulOp name = true.
Proof.
  unfold call_op. destruct (period_arg name args) eqn:E; [intros _; by eapply period_arg_stateful|].
  clear E. repeat name_case; done.
Qed.

(** The number of calls in an expression: how many samples one evaluation
    can push. *)
Fixpoint calls (e : Expr D) : nat :=
  match e with
  | NumberLiteral _ _ | IdentifierExpr _ _ | ParameterExpr _ _ _ => 0
  | UnaryOp _ _ x => calls x
  | BinaryOp _ _ l r => calls l + calls r
  | Conditional _ c t f => calls c + (calls t + calls f)
  | FunctionCall _ _ args _ _ => S (list_sum (map calls args))
  end.

(** ** Well-formed contexts *)

Definition ring_slot (p : nat) (st : RingStatsState D L) : Prop :=
  exists xs, ring_holds p xs (RingStatsPrepare p st).
Definition vwap_slot (p : nat) (st : VwapState D L) : Prop :=
  exists xs, vwap_holds p xs (VwapPrepare p st).
Definition lag_slot (p : nat) (st : LagState D) : Prop :=
  st = LagState_init \/ exists xs, lag_holds p xs st.
Definition pair_slot (p : nat) (st : RollingPairState D L) : Prop :=
  exists xs, pair_holds p xs (RollingPairPrepare p st).
(** At most [B] samples have been pushed. *)
Definition mono_slot (p B : nat) (dq : MonoDequeState D) (idx : Z) : Prop :=
  exists xs l, mono_holds p xs (MonoInit dq p) idx l /\ length xs <= B.

(** What the slot of an operator at node [k] satisfies. *)
Definition slot_inv (B : nat) (op : NodeOp) (k : nat) (c : Nodes) : Prop :=
  match op with
  | NEma | NCross | NKalman => True
  | NSma p => forall st, sma_states c !! k = Some st -> ring_slot p st
  | NStd p => forall st, rolling_std_states c !! k = Some st -> ring_slot p st
  | NZscore p => forall st, zscore_states c !! k = Some st -> ring_slot p st
  | NVwap p => forall st, vwap_states c !! k = Some st -> vwap_slot p st
  | NLag p => forall st, lag_states c !! k = Some st -> lag_slot p st
  | NMin p => forall dq idx, rolling_min_deques c !! k = Some dq ->
      rolling_min_indices c !! k = Some idx -> mono_slot p B dq idx
  | NMax p => forall dq idx, rolling_max_deques c !! k = Some dq ->
      rolling_max_indices c !! k = Some idx -> mono_slot p B dq idx
  | NCorr p => forall st, rolling_corr_states c !! k = Some st -> pair_slot p st
  | NBeta p => forall st, rolling_beta_states c !! k = Some st -> pair_slot p st
  end.

(** The lengths of the arrays. *)
Definition node_lengths (c : Nodes) : list nat :=
  [length (ema_states c); length (sma_states c); length (rolling_std_states c);
   length (zscore_states c); length (vwap_states c); length (lag_states c);
   length (cross_states c); length (rolling_min_deques c); length (rolling_max_deques c);
   length (rolling_min_indices c); length (rolling_max_indices c);
   length (rolling_corr_states c); length (rolling_beta_states c);
   length (kalman1d_states c)].

Definition allocated (n : nat) (c : Nodes) : Prop := Forall (fun len => n <= len) (node_lengths c).

Record nodes_ok (Γ : gmap Z NodeOp) (B : nat) (c : Nodes) : Prop := {
  no_nonneg : forall k op, Γ !! k = Some op -> (0 <= k)%Z;
  no_alloc : forall k op, Γ !! k = Some op -> allocated (S (Z.to_nat k)) c;
  no_slot : forall k op, Γ !! k = Some op -> slot_inv B op (Z.to_nat k) c;
}.

Definition params_ok (c : SignalContext D L) : Prop :=
  forall ps, params c = Some ps -> num_params c <= length ps.

Definition ctx_ok (Γ : gmap Z NodeOp) (B : nat) (c : SignalContext D L) : Prop :=
  nodes_ok Γ B (nodes c) /\ params_ok c.

Lemma slot_inv_mono B B' op k c : B <= B' -> slot_inv B op k c -> slot_inv B' op k c.
Proof.
  intros HB. destruct op; simpl; try done; intros Hinv dq idx Hd Hi;
    destruct (Hinv dq idx Hd Hi) as (xs & l & ? & ?); exists xs, l; (split; [done|lia]).
Qed.

Lemma ctx_ok_mono Γ B B' c : B <= B' -> ctx_ok Γ B c -> ctx_ok Γ B' c.
Proof.
  intros HB [[Hn Ha Hs] Hp]. split; [|done]. split; try done.
  intros k op Hk. eapply slot_inv_mono; [done|by apply Hs].
Qed.

(** ** Framing

    Writing one slot of one array leaves every other slot, and all the
    lengths, as they were. *)
Class Frame {S} (sl : Slots Nodes S) : Prop := {
  frame_slot : forall B op c k k' s, k' <> k ->
    slot_inv B op k' c -> slot_inv B op k' (slots_set sl (<[k := s]> (slots_get sl c)) c);
  frame_lengths : forall c k s,
    node_lengths (slots_set sl (<[k := s]> (slots_get sl c)) c) = node_lengths c;
  frame_member : forall c n, allocated n c -> n <= length (slots_get sl c);
  frame_get : forall c v, slots_get sl (slots_set sl v c) = v;
}.
End safety.

Ltac prove_frame :=
  split;
  [ intros B op c k k' s Hne; destruct op; simpl; try done;
    intros Hinv; intros; rewrite ?list_lookup_insert_ne in * by done; by eauto
  | intros c k s; unfold node_lengths; simpl; by rewrite length_insert
  | intros c n Hall; unfold allocated, node_lengths in Hall;
    repeat (apply Forall_cons in Hall as [? Hall]); assumption
  | done ].

Section frames.
Context {D L : Type} `{Machine D L}.

#[export] Instance frame_ema : Frame (D:=D) (L:=L) ema_slots. Proof. prove_frame. Qed.
#[export] Instance frame_sma : Frame (D:=D) (L:=L) sma_slots. Proof. prove_frame. Qed.
#[export] Instance frame_std : Frame (D:=D) (L:=L) rolling_std_slots. Proof. prove_frame. Qed.
#[export] Instance frame_zscore : Frame (D:=D) (L:=L) zscore_slots. Proof. prove_frame. Qed.
#[export] Instance frame_vwap : Frame (D:=D) (L:=L) vwap_slots. Proof. prove_frame. Qed.
#[export] Instance frame_lag : Frame (D:=D) (L:=L) lag_slots. Proof. prove_frame. Qed.
#[export] Instance frame_cross : Frame (D:=D) (L:=L) cross_slots. Proof. prove_frame. Qed.
#[export] Instance frame_mind : Frame (D:=D) (L:=L) rolling_min_deques_slots. Proof. prove_frame. Qed.
#[export] Instance frame_maxd : Frame (D:=D) (L:=L) rolling_max_deques_slots. Proof. prove_frame. Qed.
#[export] Instance frame_mini : Frame (D:=D) (L:=L) rolling_min_indices_slots. Proof. prove_frame. Qed.
#[export] Instance frame_maxi : Frame (D:=D) (L:=L) rolling_max_indices_slots. Proof. prove_frame. Qed.
#[export] Instance frame_corr : Frame (D:=D) (L:=L) rolling_corr_slots. Proof. prove_frame. Qed.
#[export] Instance frame_beta : Frame (D:=D) (L:=L) rolling_beta_slots. Proof. prove_frame. Qed.
#[export] Instance frame_kalman : Frame (D:=D) (L:=L) kalman1d_slots. Proof. prove_frame. Qed.
End frames.

Section updates.
Context {D L : Type} `{Machine D L}.
Notation Nodes := (NodeStates D L).
Notation Ctx := (SignalContext D L).
Implicit Types (Γ : gmap Z NodeOp).

(** Well formed except perhaps for the slot of node [k]. *)
Record nodes_ok_but Γ (B : nat) (k : Z) (c : Nodes) : Prop := {
  nb_nonneg : forall k op, Γ !! k = Some op -> (0 <= k)%Z;
  nb_alloc : forall k op, Γ !! k = Some op -> allocated (S (Z.to_nat k)) c;
  nb_slot : forall k' op, k' <> k -> Γ !! k' = Some op -> slot_inv B op (Z.to_nat k') c;
}.

Lemma nodes_ok_weaken Γ B B' k c : B <= B' -> nodes_ok Γ B c -> nodes_ok_but Γ B' k c.
Proof.
  intros HB [Hn Ha Hs]. split; try done. intros k' op _ Hk'.
  eapply slot_inv_mono; [done|by apply Hs].
Qed.

Lemma nodes_ok_restore Γ B k op c :
  Γ !! k = Some op -> nodes_ok_but Γ B k c -> slot_inv B op (Z.to_nat k) c -> nodes_ok Γ B c.
Proof.
  intros Hk [Hn Ha Hs] Hown. split; try done. intros k' op' Hk'.
  destruct (decide (k' = k)) as [->|]; [congruence|by apply Hs].
Qed.

Lemma nodes_ok_set {S} (sl : Slots Nodes S) `{!Frame sl} Γ B k op c s :
  Γ !! k = Some op -> nodes_ok_but Γ B k c ->
  nodes_ok_but Γ B k (slots_set sl (<[Z.to_nat k := s]> (slots_get sl c)) c).
Proof.
  intros Hk [Hn Ha Hs]. split; [done| |].
  - intros k' op' Hk'. unfold allocated. rewrite frame_lengths. by eapply Ha.
  - intros k' op' Hne Hk'. apply frame_slot; [|by apply Hs].
    pose proof (Hn _ _ Hk). pose proof (Hn _ _ Hk'). lia.
Qed.

(** A node's slot exists in every array. *)
Lemma nodes_ok_lookup {S} (sl : Slots Nodes S) `{!Frame sl} Γ B k k0 op c :
  Γ !! k = Some op -> nodes_ok_but Γ B k0 c -> exists s, slots_get sl c !! Z.to_nat k = Some s.
Proof.
  intros Hk [_ Ha _]. apply lookup_lt_is_Some_2. apply (frame_member _ _ (Ha _ _ Hk)).
Qed.

Lemma with_node_eq {S A} (sl : Slots Nodes S) (k : Z) (f : S -> Res (A * S)) c s :
  (0 <= k)%Z -> slots_get sl (nodes c) !! Z.to_nat k = Some s ->
  with_node sl k f c =
    rbind (f s) (fun '(a, s) => Ok (a,
      set_nodes (slots_set sl (<[Z.to_nat k := s]> (slots_get sl (nodes c))) (nodes c)) c)).
Proof.
  intros Hk Hs. unfold with_node, at_Z, at_idx.
  destruct (Z.ltb_spec k 0); [lia|]. by rewrite Hs.
Qed.

(** An operation on the one slot of a node. *)
Lemma with_node_safe {S A} (sl : Slots Nodes S) `{!Frame sl} Γ B k op (f : S -> Res (A * S)) c :
  Γ !! k = Some op -> ctx_ok Γ B c ->
  (forall s, slots_get sl (nodes c) !! Z.to_nat k = Some s ->
     safe (fun '(_, s') => slot_inv B op (Z.to_nat k)
       (slots_set sl (<[Z.to_nat k := s']> (slots_get sl (nodes c))) (nodes c))) (f s)) ->
  safe (fun '(_, c') => ctx_ok Γ B c') (with_node sl k f c).
Proof.
  intros Hk [Hn Hp] Hf. pose proof (nodes_ok_weaken _ B B k _ ltac:(lia) Hn) as Hb.
  destruct (nodes_ok_lookup sl _ _ _ _ _ _ Hk Hb) as [s Hs].
  rewrite (with_node_eq sl k f c s) by (done || by eapply no_nonneg).
  eapply safe_bind; [by apply Hf|]. intros [a s'] Hs'. simpl. split; [|done].
  eapply nodes_ok_restore; [done|by eapply nodes_ok_set|done].
Qed.

(** The same for the operators whose slots are not constrained. *)
Lemma with_node_safe_any {S A} (sl : Slots Nodes S) `{!Frame sl} Γ B k op
  (f : S -> Res (A * S)) c :
  Γ !! k = Some op -> (forall c : Nodes, slot_inv B op (Z.to_nat k) c) -> ctx_ok Γ B c ->
  (forall s, safe (fun _ => True) (f s)) ->
  safe (fun '(_, c') => ctx_ok Γ B c') (with_node sl k f c).
Proof.
  intros Hk Hop Hc Hf. apply (with_node_safe sl Γ B k op f c Hk Hc). intros s _.
  eapply safe_weaken; [apply Hf|]. by intros [_ s'] _.
Qed.

(** ** The steps of the operators *)

Lemma RingStatsPush_slot p st x :
  0 < p -> ring_slot (D:=D) (L:=L) p st ->
  safe (fun st' => ring_slot p st') (RingStatsPush st p x).
Proof.
  intros Hp [xs Hr]. unfold RingStatsPush. destruct (Nat.eqb_spec p 0); [lia|]. simpl.
  destruct (RingStatsStep_holds _ _ _ x Hr) as (st' & -> & Hr'). simpl.
  exists (xs ++ [x]). unfold RingStatsPrepare. by rewrite decide_True by apply Hr'.
Qed.

Lemma VwapStep_holds p xs (st : VwapState D L) price vol :
  vwap_holds p xs st ->
  exists st', VwapStep st price vol = Ok st' /\ vwap_holds p (xs ++ [(price, vol)]) st'.
Proof.
  intros (Hc & Hp & Hv).
  pose proof (ring_rep_step _ _ _ _ _ price Hp) as Hp'.
  pose proof (ring_rep_step _ _ _ _ _ vol Hv) as Hv'.
  pose proof Hp as [Hpos Hlp Hh _ _ _]. pose proof (rr_len _ _ _ _ _ Hv) as Hlv.
  unfold VwapStep. rewrite Hc.
  destruct (Nat.eqb_spec (v_count st) p) as [Hf|Hf].
  - destruct (at_idx_lt "price_buf[head]" (price_buf st) (v_head st)) as (y & -> & _); [lia|].
    destruct (at_idx_lt "vol_buf[head]" (vol_buf st) (v_head st)) as (z & -> & _); [lia|].
    simpl. rewrite !set_idx_Ok by lia. simpl. eexists. split; [done|].
    split_and!; simpl; rewrite ?map_app; done.
  - simpl. rewrite !set_idx_Ok by lia. simpl. eexists. split; [done|].
    split_and!; simpl; rewrite ?map_app; done.
Qed.

Lemma VwapPush_slot p (st : VwapState D L) price vol :
  0 < p -> vwap_slot p st -> safe (fun st' => vwap_slot p st') (VwapPush st p price vol).
Proof.
  intros Hp [xs Hr]. unfold VwapPush. destruct (Nat.eqb_spec p 0); [lia|]. simpl.
  destruct (VwapStep_holds _ _ _ price vol Hr) as (st' & -> & Hr'). simpl.
  eexists. unfold VwapPrepare. by rewrite decide_True by apply Hr'.
Qed.

Lemma RollingPairPush_slot p (st : RollingPairState D L) x y :
  0 < p -> pair_slot p st -> safe (fun st' => pair_slot p st') (RollingPairPush st p x y).
Proof.
  intros Hp [xs (Hc & Hx & Hy)]. unfold RollingPairPush.
  destruct (Nat.eqb_spec p 0); [lia|]. simpl.
  set (st0 := RollingPairPrepare p st) in *. clearbody st0. clear st.
  pose proof (ring_rep_step _ _ _ _ _ x Hx) as Hx'.
  pose proof (ring_rep_step _ _ _ _ _ y Hy) as Hy'.
  pose proof Hx as [Hpos Hlx Hh _ _ _]. pose proof (rr_len _ _ _ _ _ Hy) as Hly.
  assert (Hend : forall st', p_capacity st' = p ->
    ring_rep p (x_buf st') (p_head st') (p_count st') (map fst xs ++ [x]) ->
    ring_rep p (y_buf st') (p_head st') (p_count st') (map snd xs ++ [y]) -> pair_slot (D:=D) (L:=L) p st').
  { intros st' Hc' Hx1 Hy1. exists (xs ++ [(x, y)]). unfold RollingPairPrepare.
    rewrite decide_True by done. by split_and!; rewrite ?map_app. }
  rewrite Hc. destruct (Nat.eqb_spec (p_count st0) p) as [Hf|Hf].
  - destruct (at_idx_lt "x_buf[head]" (x_buf st0) (p_head st0)) as (u & -> & _); [lia|].
    destruct (at_idx_lt "y_buf[head]" (y_buf st0) (p_head st0)) as (v & -> & _); [lia|].
    simpl. rewrite !set_idx_Ok by lia. simpl. by apply Hend.
  - simpl. rewrite !set_idx_Ok by lia. simpl. by apply Hend.
Qed.

Lemma lag_step_slot p (st : LagState D) x :
  0 < p -> lag_slot p st -> safe (fun '(_, st') => lag_slot p st') (lag_step p x st).
Proof.
  intros Hp Hst. unfold lag_step, LagPush. destruct (Nat.eqb_spec p 0); [lia|].
  destruct Hst as [->|[xs Hr]].
  - pose proof (lag_holds_prepare p (LagState_init (D:=D)) Hp ltac:(simpl; lia)) as Hr.
    destruct (LagStep_holds _ _ _ x Hr) as (st' & Hst & Hr'). simpl. rewrite Hst. simpl.
    right. by eexists.
  - rewrite (LagValue_holds _ _ _ Hr). simpl. unfold LagPrepare. rewrite decide_True by apply Hr.
    destruct (LagStep_holds _ _ _ x Hr) as (st' & -> & Hr'). simpl. right. by eexists.
Qed.

Lemma MonoUpdate_slot drop p B (dq : MonoDequeState D) idx x :
  0 < p -> (Z.of_nat B < 2 ^ 64 - 1)%Z -> mono_slot p B dq idx ->
  safe (fun '(_, dq', idx') => mono_slot p (S B) dq' idx') (MonoUpdate drop (MonoInit dq p) idx p x).
Proof.
  intros Hp HB (xs & l & Hh & Hle).
  destruct (MonoUpdate_holds drop p xs _ idx l x Hp ltac:(lia) Hh)
    as (e & l' & dq' & idx' & _ & -> & Hh'). simpl.
  exists (xs ++ [x]), (e :: l'). rewrite MonoInit_same by apply Hh'.
  split; [done|]. rewrite length_app. simpl. lia.
Qed.
End updates.

Section visit.
Context {D L : Type} `{Machine D L}.
Variable symbols_ : SymbolTable.
Variable market : MarketState D.
Hypothesis symbols_ok : table_ok symbols_.
Hypothesis market_full : length (instruments market) = kMaxInstruments.
Variable Γ : gmap Z NodeOp.

Notation Eval := (Expr D -> M (D:=D) (L:=L) D).

Definition Kok (B : nat) {A} (r : Res (A * EvalState D L)) : Prop :=
  safe (fun '(_, s) => ctx_ok Γ B (ctx s)) r.

(** [m] is safe and pushes at most [n] samples. *)
Definition m_safe {A} (n : nat) (P : A -> Prop) (m : M (D:=D) (L:=L) A) : Prop :=
  forall s B, ctx_ok Γ B (ctx s) -> (Z.of_nat (B + n) < 2 ^ 64)%Z ->
    safe (fun '(a, s') => P a /\ ctx_ok Γ (B + n) (ctx s')) (m s).

Lemma m_safe_bind {A A'} n1 n2 (P : A -> Prop) (Q : A' -> Prop) (m : M A) (f : A -> M A') :
  m_safe n1 P m -> (forall a, P a -> m_safe n2 Q (f a)) ->
  m_safe (n1 + n2) Q (fun s => rbind (m s) (fun '(a, s) => f a s)).
Proof.
  intros Hm Hf s B Hc HB. eapply safe_bind; [apply Hm; [done|lia]|].
  intros [a s'] [Ha Hc']. rewrite Nat.add_assoc. apply Hf; [done|done|lia].
Qed.

Lemma m_safe_lift {A} (P : A -> Prop) (r : Res A) : safe P r -> m_safe 0 P (lift r).
Proof.
  intros Hr s B Hc HB. unfold lift. eapply safe_rmap; [done|]. intros a Ha.
  by rewrite Nat.add_0_r.
Qed.

Lemma m_safe_ret {A} (a : A) : m_safe 0 (fun _ => True) (fun s => Ok (a, s)).
Proof. intros s B Hc HB. simpl. by rewrite Nat.add_0_r. Qed.

Lemma m_safe_throw {A} n (P : A -> Prop) msg : m_safe n P (throw msg).
Proof. by intros s B Hc HB. Qed.

Lemma m_safe_le {A} n n' (P P' : A -> Prop) (m : M (D:=D) (L:=L) A) :
  n <= n' -> m_safe n P m -> (forall a, P a -> P' a) -> m_safe n' P' m.
Proof.
  intros Hn Hm HP s B Hc HB. eapply safe_weaken; [apply Hm; [done|lia]|].
  intros [a s'] [Ha Hc']. split; [auto|]. eapply ctx_ok_mono; [|done]. lia.
Qed.

(** An operation on a node: [f] maps a well-formed slot to one. *)
Lemma on_node_safe {S A} (sl : Slots (NodeStates D L) S) `{!Frame sl} name id op
  (f : S -> Res (A * S)) :
  ((0 <= id)%Z -> Γ !! id = Some op) ->
  (forall B (c : NodeStates D L) s, slot_inv B op (Z.to_nat id) c ->
     slots_get sl c !! Z.to_nat id = Some s ->
     safe (fun '(_, s') => slot_inv B op (Z.to_nat id)
       (slots_set sl (<[Z.to_nat id := s']> (slots_get sl c)) c)) (f s)) ->
  m_safe 0 (fun _ => True) (on_node sl name id f).
Proof.
  intros Hid Hf s B Hc HB. unfold on_node. destruct (Z.ltb_spec id 0) as [|Hpos]; [done|].
  rewrite Nat.add_0_r. eapply safe_bind.
  - apply (with_node_safe sl Γ B id op f (ctx s) (Hid Hpos) Hc). intros s' Hs'.
    apply Hf; [|done]. apply Hc. by apply Hid.
  - intros [a c'] Hc'. done.
Qed.

Lemma ParsePositiveIntegerPeriod_safe p name :
  castable p = true ->
  safe (fun n => period_of p = Some n /\ 0 < n) (ParsePositiveIntegerPeriod p name).
Proof.
  unfold ParsePositiveIntegerPeriod, period_of, castable.
  destruct p; simpl; try done. destruct (to_int value) as [z|]; [|done]. intros _.
  destruct (period_ok value z) eqn:Hok; [|done]. simpl. split; [done|].
  unfold period_ok in Hok. destruct (Z.leb_spec z 0); [done|lia].
Qed.

Lemma ResolveSymbolSlot_safe (args : list (Expr D)) sym name :
  (sym < Z.of_nat kMaxInstruments)%Z ->
  safe (fun id => (0 <= id < Z.of_nat kMaxInstruments)%Z)
    (ResolveSymbolSlot symbols_ args sym name).
Proof.
  intros Hs. unfold ResolveSymbolSlot. destruct (Z.leb_spec 0 sym); [simpl; lia|].
  destruct (_ && _); [done|]. destruct args as [|[] ?]; try done.
  unfold LookupId. destruct (symbol_to_id_ symbols_ !! name0) as [i|] eqn:Hi; [|done].
  simpl. pose proof (ids_bounded _ symbols_ok _ _ Hi). pose proof (ids_fit _ symbols_ok). lia.
Qed.

Lemma instrument_safe id :
  (0 <= id < Z.of_nat kMaxInstruments)%Z -> safe (fun _ => True) (instrument market id).
Proof.
  intros Hid. unfold instrument, at_Z, at_idx. destruct (Z.ltb_spec id 0); [lia|].
  destruct (lookup_lt_is_Some_2 (instruments market) (Z.to_nat id)) as [x ->]; [lia|done].
Qed.

Lemma EvalQuote_safe name read (args : list (Expr D)) sym :
  (sym < Z.of_nat kMaxInstruments)%Z ->
  m_safe 0 (fun _ => True) (lift (EvalQuote symbols_ market name read args sym)).
Proof.
  intros Hs. apply m_safe_lift. unfold EvalQuote.
  eapply safe_bind; [apply safe_ensure|]. intros _ _.
  eapply safe_bind; [by apply ResolveSymbolSlot_safe|]. intros id Hid.
  eapply safe_rmap; [by apply instrument_safe|done].
Qed.

Section call.
Variable ev : Eval.
Definition child_safe (e : Expr D) : Prop := m_safe (calls e) (fun _ => True) (ev e).

Lemma EvalWindow_safe {S} name min sl `{!Frame sl} step op e p id :
  child_safe e -> castable p = true ->
  (forall n, period_of p = Some n -> (0 <= id)%Z -> Γ !! id = Some (op n)) ->
  (forall n x B (c : NodeStates D L) (s : S), 0 < n -> slot_inv B (op n) (Z.to_nat id) c ->
     slots_get sl c !! Z.to_nat id = Some s ->
     safe (fun '(_, s') => slot_inv B (op n) (Z.to_nat id)
       (slots_set sl (<[Z.to_nat id := s']> (slots_get sl c)) c)) (step n x s)) ->
  m_safe (calls e) (fun _ => True) (EvalWindow ev name min sl step [e; p] id).
Proof.
  intros He Hcast Hid Hstep. unfold EvalWindow.
  apply (m_safe_le (0 + (0 + (calls e + 0))) _ (fun _ => True)); [lia| |done].
  eapply m_safe_bind; [by apply m_safe_lift, ParsePositiveIntegerPeriod_safe|].
  intros n [Hn Hpos]. eapply m_safe_bind; [apply m_safe_lift, safe_ensure|]. intros _ _.
  eapply m_safe_bind; [exact He|]. intros x _.
  apply (on_node_safe sl name id (op n)); [by apply Hid|]. intros. by apply Hstep.
Qed.

Lemma EvalCross_safe name before now args id :
  Forall child_safe args ->
  (length args = 2 -> (0 <= id)%Z -> Γ !! id = Some NCross) ->
  m_safe (list_sum (map calls args)) (fun _ => True) (EvalCross ev name before now args id).
Proof.
  intros HF Hid. destruct args as [|ea [|eb [|]]]; try apply m_safe_throw.
  apply Forall_cons in HF as [Ha HF]. apply Forall_cons in HF as [Hb _].
  apply (m_safe_le (calls ea + (calls eb + 0)) _ (fun _ => True)); [simpl; lia| |done].
  eapply m_safe_bind; [exact Ha|]. intros a _. eapply m_safe_bind; [exact Hb|]. intros b _.
  by apply (on_node_safe cross_slots name id NCross); auto.
Qed.

Lemma EvalEmaAlpha_safe args id :
  Forall child_safe args ->
  (length args = 2 -> (0 <= id)%Z -> Γ !! id = Some NEma) ->
  m_safe (list_sum (map calls args)) (fun _ => True) (EvalEmaAlpha ev args id).
Proof.
  intros HF Hid. destruct args as [|ea [|eb [|]]]; try apply m_safe_throw.
  apply Forall_cons in HF as [Ha HF]. apply Forall_cons in HF as [Hb _].
  apply (m_safe_le (calls ea + (calls eb + (0 + 0))) _ (fun _ => True)); [simpl; lia| |done].
  eapply m_safe_bind; [exact Ha|]. intros a _. eapply m_safe_bind; [exact Hb|]. intros b _.
  eapply m_safe_bind; [apply m_safe_lift, safe_ensure|]. intros _ _.
  by apply (on_node_safe ema_slots "ema_alpha" id NEma); auto.
Qed.

Lemma EvalKalman1d_safe args id :
  Forall child_safe args ->
  (length args = 3 -> (0 <= id)%Z -> Γ !! id = Some NKalman) ->
  m_safe (list_sum (map calls args)) (fun _ => True) (EvalKalman1d ev args id).
Proof.
  intros HF Hid. destruct args as [|ex [|eq [|er [|]]]]; try apply m_safe_throw.
  apply Forall_cons in HF as [Hx HF]. apply Forall_cons in HF as [Hq HF].
  apply Forall_cons in HF as [Hr _].
  apply (m_safe_le (calls eq + (calls er + (0 + (calls ex + 0)))) _ (fun _ => True));
    [simpl; lia| |done].
  eapply m_safe_bind; [exact Hq|]. intros q _. eapply m_safe_bind; [exact Hr|]. intros r _.
  eapply m_safe_bind; [apply m_safe_lift, safe_ensure|]. intros _ _.
  eapply m_safe_bind; [exact Hx|]. intros x _.
  apply (on_node_safe kalman1d_slots "kalman1d" id NKalman); [by apply Hid|].
  intros B c s _ _. simpl. by destruct (Kalman1dStep s x q r).
Qed.

Lemma EvalMath_safe name f args :
  Forall child_safe args ->
  m_safe (list_sum (map calls args)) (fun _ => True) (EvalMath ev name f args).
Proof.
  intros HF. destruct args as [|e [|]]; try apply m_safe_throw.
  apply Forall_cons in HF as [He _].
  apply (m_safe_le (calls e + 0) _ (fun _ => True)); [simpl; lia| |done].
  eapply m_safe_bind; [exact He|]. intros x _. by apply (m_safe_ret (f x)).
Qed.

Lemma cache_and_return_safe n id m :
  m_safe n (fun _ => True) m -> m_safe n (fun _ => True) (cache_and_return id m).
Proof.
  intros Hm s B Hc HB. unfold cache_and_return. eapply safe_bind; [by apply Hm|].
  intros [v s'] [_ Hc']. simpl. by destruct (0 <? id)%Z.
Qed.

Lemma EvalVwap_safe t p id sym :
  castable p = true -> (sym < Z.of_nat kMaxInstruments)%Z ->
  (forall n, period_of p = Some n -> (0 <= id)%Z -> Γ !! id = Some (NVwap n)) ->
  m_safe 0 (fun _ => True) (EvalVwap symbols_ market [t; p] id sym).
Proof.
  intros Hcast Hsym Hid. unfold EvalVwap. apply (m_safe_bind 0 0 _ _ _ _
    (m_safe_lift _ _ (ParsePositiveIntegerPeriod_safe p _ Hcast))).
  intros n [Hn Hpos]. apply (m_safe_bind 0 0 _ _ _ _
    (m_safe_lift _ _ (ResolveSymbolSlot_safe _ _ _ Hsym))).
  intros i Hi. apply (m_safe_bind 0 0 _ _ _ _ (m_safe_lift _ _ (instrument_safe _ Hi))).
  intros ins _. apply (on_node_safe vwap_slots "vwap" id (NVwap n)); [by apply Hid|].
  intros B c s Hinv Hs. simpl in *. unfold vwap_step.
  eapply safe_bind; [by apply VwapPush_slot, Hinv|]. intros st' Hst'. simpl. intros st'' E.
  rewrite list_lookup_insert_eq in E by (by eapply lookup_lt_Some). by simplify_eq.
Qed.

Lemma EvalPair_safe name sl `{!Frame sl} read op ex ey p id :
  child_safe ex -> child_safe ey -> castable p = true ->
  (forall n, period_of p = Some n -> (0 <= id)%Z -> Γ !! id = Some (op n)) ->
  (forall n B c, slot_inv B (op n) (Z.to_nat id) c <->
     forall st, slots_get sl c !! Z.to_nat id = Some st -> pair_slot n st) ->
  m_safe (calls ex + calls ey) (fun _ => True) (EvalPair ev name sl read [ex; ey; p] id).
Proof.
  intros Hx Hy Hcast Hid Hop. unfold EvalPair.
  apply (m_safe_le (0 + (calls ex + (calls ey + 0))) _ (fun _ => True)); [lia| |done].
  eapply m_safe_bind; [by apply m_safe_lift, ParsePositiveIntegerPeriod_safe|].
  intros n [Hn Hpos]. eapply m_safe_bind; [exact Hx|]. intros x _.
  eapply m_safe_bind; [exact Hy|]. intros y _.
  apply (on_node_safe sl name id (op n)); [by apply Hid|].
  intros B c s Hinv Hs. rewrite Hop in Hinv. unfold pair_step.
  eapply safe_bind; [by apply RollingPairPush_slot, Hinv|]. intros st' Hst'. simpl.
  rewrite Hop. intros st''. rewrite frame_get.
  rewrite list_lookup_insert_eq by (by eapply lookup_lt_Some). by intros [= <-].
Qed.

(** The two arrays of rolling_min or of rolling_max. *)
Record MonoSlots (dqs : Slots (NodeStates D L) (MonoDequeState D))
  (idxs : Slots (NodeStates D L) Z) (op : nat -> NodeOp) : Prop := {
  mono_op : forall n B k c, slot_inv B (op n) k c <->
    forall dq idx, slots_get dqs c !! k = Some dq -> slots_get idxs c !! k = Some idx ->
      mono_slot n B dq idx;
  mono_idx_dq : forall v c, slots_get dqs (slots_set idxs v c) = slots_get dqs c;
  mono_dq_idx : forall v c, slots_get idxs (slots_set dqs v c) = slots_get idxs c;
}.

Lemma extremum_step_safe name dqs idxs op `{!Frame dqs} `{!Frame idxs} update drop id n x :
  MonoSlots dqs idxs op ->
  (forall dq idx y, update dq idx n y = MonoUpdate drop (MonoInit dq n) idx n y) ->
  0 < n -> ((0 <= id)%Z -> Γ !! id = Some (op n)) ->
  m_safe 1 (fun _ => True) (fun s =>
    rbind (on_node idxs name id (fun idx => Ok (idx, idx)) s) (fun '(idx, s) =>
    rbind (on_node dqs name id (fun dq =>
      rbind (update dq idx n x) (fun '(r, dq, idx) => Ok ((r, idx), dq))) s) (fun '(r, s) =>
    rbind (on_node idxs name id (fun _ => Ok (tt, snd r)) s) (fun '(_, s) =>
      lift (Ok (if (snd r <? Z.of_nat n)%Z then fnan else fst r)) s)))).
Proof.
  intros [Hop Hid_dq Hdq_id] Hupd Hn Hid s B [Hok Hpar] HB. unfold on_node.
  destruct (Z.ltb_spec id 0) as [|Hpos]; [done|]. specialize (Hid Hpos).
  set (k := Z.to_nat id). set (c := nodes (ctx s)) in *.
  pose proof (nodes_ok_weaken _ B (B + 1) id _ ltac:(lia) Hok) as Hbut.
  destruct (nodes_ok_lookup idxs _ _ _ _ _ _ Hid Hbut) as [idx Hidx].
  destruct (nodes_ok_lookup dqs _ _ _ _ _ _ Hid Hbut) as [dq Hdq]. fold k in Hidx, Hdq.
  rewrite (with_node_eq idxs id _ (ctx s) idx Hpos Hidx). cbn [rbind ctx].
  fold c k. set (c1 := slots_set idxs _ c).
  rewrite (with_node_eq dqs id _ (set_nodes c1 (ctx s)) dq Hpos)
    by (simpl; unfold c1; by rewrite Hid_dq).
  pose proof (no_slot _ _ _ Hok _ _ Hid) as Hslot. rewrite Hop in Hslot.
  rewrite Hupd. pose proof (MonoUpdate_slot drop n B dq idx x Hn ltac:(lia)
    (Hslot _ _ Hdq Hidx)) as Hsafe.
  destruct (MonoUpdate drop (MonoInit dq n) idx n x) as [[[r dq'] idx']|[]]; try done.
  simpl in Hsafe. cbn [rbind ctx snd nodes set_nodes]. fold k.
  set (c2 := slots_set dqs _ c1).
  assert (Hidx2 : slots_get idxs c2 !! k = Some idx).
  { unfold c2, c1. rewrite Hdq_id, frame_get, list_lookup_insert_eq; [done|].
    by eapply lookup_lt_Some. }
  rewrite (with_node_eq idxs id _ _ idx Hpos) by exact Hidx2.
  cbn [rbind ctx snd nodes set_nodes]. fold k. set (c3 := slots_set idxs _ c2).
  split; [done|]. split; [|exact Hpar]. cbn [nodes set_nodes ctx].
  apply (nodes_ok_restore _ _ _ _ _ Hid).
  - by repeat eapply nodes_ok_set.
  - rewrite Hop. intros dq0 idx0. unfold c3. rewrite Hid_dq, frame_get. unfold c2 at 1.
    rewrite frame_get. rewrite !list_lookup_insert_eq.
    + intros [= <-] [= <-]. by rewrite Nat.add_1_r.
    + by eapply lookup_lt_Some.
    + unfold c1. rewrite Hid_dq. by eapply lookup_lt_Some.
Qed.

Lemma EvalRollingExtremum_safe name dqs idxs op `{!Frame dqs} `{!Frame idxs} update drop
  e p id :
  MonoSlots dqs idxs op ->
  (forall n dq idx y, update dq idx n y = MonoUpdate drop (MonoInit dq n) idx n y) ->
  child_safe e -> castable p = true ->
  (forall n, period_of p = Some n -> (0 <= id)%Z -> Γ !! id = Some (op n)) ->
  m_safe (S (calls e)) (fun _ => True)
    (EvalRollingExtremum ev name dqs idxs update [e; p] id).
Proof.
  intros Hm Hupd He Hcast Hid. unfold EvalRollingExtremum.
  apply (m_safe_le (0 + (calls e + 1)) _ (fun _ => True)); [lia| |done].
  eapply m_safe_bind; [by apply m_safe_lift, ParsePositiveIntegerPeriod_safe|].
  intros n [Hn Hpos]. eapply m_safe_bind; [exact He|]. intros x _.
  eapply (extremum_step_safe name dqs idxs op update drop id n x); auto.
Qed.

Lemma min_slots : MonoSlots rolling_min_deques_slots rolling_min_indices_slots NMin.
Proof. split; intros; done. Qed.
Lemma max_slots : MonoSlots rolling_max_deques_slots rolling_max_indices_slots NMax.
Proof. split; intros; done. Qed.

(** Two-argument windows over one array. *)
Lemma ring_step_slot_safe read n x (st : RingStatsState D L) :
  0 < n -> ring_slot n st -> safe (fun '(_, st') => ring_slot n st') (ring_step read n x st).
Proof.
  intros Hn Hst. unfold ring_step. eapply safe_bind; [by apply RingStatsPush_slot|]. done.
Qed.

Definition call_typed (name : string) (args : list (Expr D)) (id sym : Z) : Prop :=
  (forall op, call_op name args = Some op -> (0 <= id)%Z -> Γ !! id = Some op) /\
  (forall p, period_arg name args = Some p -> castable p = true) /\
  (sym < Z.of_nat kMaxInstruments)%Z.

(** Peel a call off the chain of name tests. *)
Ltac cached_window Hargs Ht :=
  apply cache_and_return_safe;
  match goal with args : list (Expr D) |- _ =>
    destruct args as [|e [|p [|]]]; try apply m_safe_throw;
    apply Forall_cons in Hargs as [He Hargs]; apply Forall_cons in Hargs as [Hpe _];
    destruct Ht as (Hop & Hcast & Hsym)
  end.

Ltac typed Hop :=
  intros n Hn Hid; apply Hop; [|exact Hid];
  unfold call_op; simpl; rewrite Hn; reflexivity.

Ltac ring_case :=
  intros n x B c s Hn Hinv Hs; simpl in *;
  eapply safe_weaken; [apply ring_step_slot_safe; [exact Hn|by apply Hinv]|];
  intros [v st'] Hst' st'' E; rewrite list_lookup_insert_eq in E by (by eapply lookup_lt_Some);
  by simplify_eq.

Lemma dispatch_windows_safe name args id sym :
  Forall child_safe args -> call_typed name args id sym ->
  (name = "ema" -> m_safe (S (list_sum (map calls args))) (fun _ => True)
     (cache_and_return id (EvalEma ev args id))) /\
  (name = "sma" -> m_safe (S (list_sum (map calls args))) (fun _ => True)
     (cache_and_return id (EvalSma ev args id))) /\
  (name = "rolling_std" -> m_safe (S (list_sum (map calls args))) (fun _ => True)
     (cache_and_return id (EvalRollingStd ev args id))) /\
  (name = "zscore" -> m_safe (S (list_sum (map calls args))) (fun _ => True)
     (cache_and_return id (EvalZscore ev args id))) /\
  (name = "lag" -> m_safe (S (list_sum (map calls args))) (fun _ => True)
     (cache_and_return id (EvalLag ev args id))).
Proof.
  intros Hargs Ht. split_and!; intros ->; cached_window Hargs Ht;
    (eapply m_safe_le; [| |done]; cycle 1).
  1: { apply (EvalWindow_safe "ema" 1 ema_slots ema_step (fun _ => NEma));
       [exact He|by apply Hcast|typed Hop|]. intros. done. }
  2: { apply (EvalWindow_safe "sma" 1 sma_slots _ NSma);
       [exact He|by apply Hcast|typed Hop|ring_case]. }
  3: { apply (EvalWindow_safe "rolling_std" 2 rolling_std_slots _ NStd);
       [exact He|by apply Hcast|typed Hop|ring_case]. }
  4: { apply (EvalWindow_safe "zscore" 2 zscore_slots _ NZscore);
       [exact He|by apply Hcast|typed Hop|ring_case]. }
  5: { apply (EvalWindow_safe "lag" 1 lag_slots lag_step NLag);
       [exact He|by apply Hcast|typed Hop|].
       intros n x B c s Hn Hinv Hs. simpl in *.
       eapply safe_weaken; [apply lag_step_slot; [exact Hn|by apply Hinv]|].
       intros [v st'] Hst' st'' E. rewrite list_lookup_insert_eq in E by (by eapply lookup_lt_Some).
       by simplify_eq. }
  all: simpl; lia.
Qed.

Lemma dispatch_windows2_safe name args id sym :
  Forall child_safe args -> call_typed name args id sym ->
  (name = "vwap" -> m_safe (S (list_sum (map calls args))) (fun _ => True)
     (cache_and_return id (EvalVwap symbols_ market args id sym))) /\
  (name = "rolling_min" -> m_safe (S (list_sum (map calls args))) (fun _ => True)
     (cache_and_return id (EvalRollingMin ev args id))) /\
  (name = "rolling_max" -> m_safe (S (list_sum (map calls args))) (fun _ => True)
     (cache_and_return id (EvalRollingMax ev args id))).
Proof.
  intros Hargs Ht. split_and!; intros ->; cached_window Hargs Ht;
    (eapply m_safe_le; [| |done]; cycle 1).
  1: { apply EvalVwap_safe; [by apply Hcast|exact Hsym|typed Hop]. }
  2: { apply (EvalRollingExtremum_safe "rolling_min" _ _ NMin _ fge);
       [apply min_slots|done|exact He|by apply Hcast|typed Hop]. }
  3: { apply (EvalRollingExtremum_safe "rolling_max" _ _ NMax _ fle);
       [apply max_slots|done|exact He|by apply Hcast|typed Hop]. }
  all: simpl; lia.
Qed.

Lemma dispatch_pairs_safe name args id sym :
  Forall child_safe args -> call_typed name args id sym ->
  (name = "rolling_corr" -> m_safe (S (list_sum (map calls args))) (fun _ => True)
     (cache_and_return id
        (EvalPair ev "rolling_corr" rolling_corr_slots RollingPairCorrelation args id))) /\
  (name = "rolling_beta" -> m_safe (S (list_sum (map calls args))) (fun _ => True)
     (cache_and_return id
        (EvalPair ev "rolling_beta" rolling_beta_slots RollingPairBeta args id))).
Proof.
  intros Hargs Ht. split; intros ->; apply cache_and_return_safe;
    destruct args as [|ex [|ey [|p [|]]]]; try apply m_safe_throw;
    apply Forall_cons in Hargs as [Hx Hargs]; apply Forall_cons in Hargs as [Hy _];
    destruct Ht as (Hop & Hcast & _);
    (eapply m_safe_le; [| |done]; cycle 1).
  1: { by apply (EvalPair_safe "rolling_corr" rolling_corr_slots _ NCorr);
       [exact Hx|exact Hy|apply Hcast|typed Hop|]. }
  2: { by apply (EvalPair_safe "rolling_beta" rolling_beta_slots _ NBeta);
       [exact Hx|exact Hy|apply Hcast|typed Hop|]. }
  all: simpl; lia.
Qed.

Lemma dispatch_simple_safe name args id sym :
  Forall child_safe args -> call_typed name args id sym ->
  let n := S (list_sum (map calls args)) in
  (name = "ema_alpha" -> m_safe n (fun _ => True) (cache_and_return id (EvalEmaAlpha ev args id))) /\
  (name = "cross_above" -> m_safe n (fun _ => True)
     (cache_and_return id (EvalCross ev "cross_above" fle fgt args id))) /\
  (name = "cross_below" -> m_safe n (fun _ => True)
     (cache_and_return id (EvalCross ev "cross_below" fge flt args id))) /\
  (name = "kalman1d" -> m_safe n (fun _ => True) (cache_and_return id (EvalKalman1d ev args id))).
Proof.
  intros Hargs (Hop & _ & _) n.
  split_and!; intros ->; apply cache_and_return_safe;
    (eapply m_safe_le; [| |done]; cycle 1).
  1: { apply EvalEmaAlpha_safe; [exact Hargs|]. intros Hl Hid. apply Hop; [|exact Hid].
       by destruct args as [|? [|? [|]]]. }
  2: { apply EvalCross_safe; [exact Hargs|]. intros Hl Hid. apply Hop; [|exact Hid].
       by destruct args as [|? [|? [|]]]. }
  3: { apply EvalCross_safe; [exact Hargs|]. intros Hl Hid. apply Hop; [|exact Hid].
       by destruct args as [|? [|? [|]]]. }
  4: { apply EvalKalman1d_safe; [exact Hargs|]. intros Hl Hid. apply Hop; [|exact Hid].
       by destruct args as [|? [|? [|? [|]]]]. }
  all: unfold n; lia.
Qed.

Ltac by_name := let E := fresh in
  match goal with |- m_safe _ _ (if (?name =? ?lit)%string then _ else _) =>
    destruct (String.eqb_spec name lit) as [E|_] end.

Lemma dispatch_safe name args id sym :
  Forall child_safe args -> call_typed name args id sym ->
  m_safe (S (list_sum (map calls args))) (fun _ => True)
    (dispatch symbols_ market ev name args id sym).
Proof.
  intros Hargs Ht. pose proof Ht as (_ & _ & Hsym).
  destruct (dispatch_windows_safe _ _ _ _ Hargs Ht) as (W1 & W2 & W3 & W4 & W5).
  destruct (dispatch_windows2_safe _ _ _ _ Hargs Ht) as (W6 & W7 & W8).
  destruct (dispatch_pairs_safe _ _ _ _ Hargs Ht) as (W9 & W10).
  destruct (dispatch_simple_safe _ _ _ _ Hargs Ht) as (W11 & W12 & W13 & W14).
  assert (Hq : forall nm read, m_safe (S (list_sum (map calls args))) (fun _ => True)
    (lift (EvalQuote symbols_ market nm read args sym))).
  { intros. eapply m_safe_le; [|by apply EvalQuote_safe|done]. lia. }
  assert (Hm : forall nm f, m_safe (S (list_sum (map calls args))) (fun _ => True)
    (EvalMath ev nm f args)).
  { intros. eapply m_safe_le; [|by apply EvalMath_safe|done]. lia. }
  unfold dispatch. cbv zeta. repeat (by_name; [by auto|]). apply m_safe_throw.
Qed.
End call.

Lemma numbered_args args :
  foldr and True (map (numbered Γ) args) <-> Forall (numbered Γ) args.
Proof. induction args; simpl; [done|]. by rewrite Forall_cons, IHargs. Qed.

Lemma EvalParameter_safe name id c :
  params_ok (D:=D) (L:=L) c -> safe (fun _ => True) (EvalParameter name id c).
Proof.
  intros Hp. unfold EvalParameter. destruct (params c) as [ps|] eqn:E; [|done].
  specialize (Hp _ E). destruct (Z.ltb_spec id 0); [done|].
  destruct (Z.leb_spec (Z.of_nat (num_params c)) id); [done|]. simpl.
  unfold at_Z, at_idx. destruct (Z.ltb_spec id 0); [lia|].
  destruct (lookup_lt_is_Some_2 ps (Z.to_nat id)) as [x ->]; [lia|done].
Qed.

(** Evaluation of a typed expression in a well-formed context. *)
Lemma Visit_safe e :
  numbered Γ e -> m_safe (calls e) (fun _ => True) (Visit symbols_ market e).
Proof.
  induction e using Expr_rect'; simpl; intros Hn.
  - by apply m_safe_lift.
  - apply m_safe_throw.
  - intros s B Hc HB. apply (m_safe_lift (fun _ => True)); [|done|done].
    apply EvalParameter_safe, Hc.
  - apply (m_safe_le (calls e + 0) _ (fun _ => True)); [lia| |done].
    eapply m_safe_bind; [by apply IHe|]. intros v _. apply m_safe_ret.
  - destruct Hn as [Hl Hr].
    apply (m_safe_le (calls e1 + (calls e2 + 0)) _ (fun _ => True)); [lia| |done].
    eapply m_safe_bind; [by apply IHe1|]. intros l _.
    eapply m_safe_bind; [by apply IHe2|]. intros r _. apply m_safe_ret.
  - destruct Hn as (Hop & Hcast & Hsym & Hargs). rewrite numbered_args in Hargs.
    assert (HF : Forall (child_safe (Visit symbols_ market)) args).
    { rewrite Forall_forall in *. intros a Ha. by apply H0, Hargs. }
    intros st B Hc HB.
    destruct (if (0 <? i)%Z then cache st !! i else None) as [v|].
    + simpl. split; [done|]. eapply ctx_ok_mono; [|done]. lia.
    + apply (dispatch_safe (Visit symbols_ market) n args i s HF); [|done|done].
      split_and!; [|done|done]. intros op E Hi. rewrite <- E. apply Hop; [|done].
      by eapply call_op_stateful.
  - destruct Hn as (Hc & Ht & Hf).
    apply (m_safe_le (calls e1 + (calls e2 + calls e3)) _ (fun _ => True)); [lia| |done].
    eapply m_safe_bind; [by apply IHe1|]. intros v _. destruct (fne v (fint 0)).
    + eapply m_safe_le; [|by apply IHe2|done]. lia.
    + eapply m_safe_le; [|by apply IHe3|done]. lia.
Qed.
End visit.
