(* ===== verification/AllocFacts.v ===== *)
(** * Node numbering

    [AllocateNodeIds] and [AllocateProgramNodeIds]: which calls share an id,
    and which do not. *)

From S2P Require Import Prelude Errors Arith Ast SymbolTable SignalProgram.

(** Pair up a hypothesis that a goal with a [let '(_, _) :=] unfolds to. *)
Ltac destruct_walk :=
  match goal with
  | |- context [let '(_, _) := ?m in _] => destruct m as [? ?] eqn:?
  | H : context [let '(_, _) := ?m in _] |- _ => destruct m as [? ?] eqn:?
  end.

Section alloc.
Context {D : Type} `{EqDecision D}.

(** An occurrence of a stateful call: its id, the call, and whether it is
    evaluated on every tick. *)
Definition Occ : Type := Z * Expr D * bool.
Definition occ_id (o : Occ) : Z := fst (fst o).
Definition occ_call (o : Occ) : Expr D := snd (fst o).
Definition occ_uncond (o : Occ) : bool := snd o.

(** The stateful calls of a numbered tree, in the order of [walk]. *)
Fixpoint occs (e : Expr D) (u : bool) : list Occ :=
  match e with
  | NumberLiteral _ _ | IdentifierExpr _ _ | ParameterExpr _ _ _ => []
  | UnaryOp _ _ x => occs x u
  | BinaryOp _ _ l r => occs l u ++ occs r u
  | Conditional _ c t f => occs c u ++ occs t false ++ occs f false
  | FunctionCall _ name args id _ =>
      (if IsStatefulOp name then [(id, e, u)] else []) ++
      concat (map (fun a => occs a u) args)
  end.

(** As the parser and the inliner leave a tree: nothing is numbered. *)
Fixpoint unnumbered (e : Expr D) : Prop :=
  match e with
  | NumberLiteral _ _ | IdentifierExpr _ _ | ParameterExpr _ _ _ => True
  | UnaryOp _ _ x => unnumbered x
  | BinaryOp _ _ l r => unnumbered l /\ unnumbered r
  | Conditional _ c t f => unnumbered c /\ unnumbered t /\ unnumbered f
  | FunctionCall _ _ args id _ => (id < 0)%Z /\ foldr and True (map unnumbered args)
  end.

Lemma foldr_and {A} (P : A -> Prop) (l : list A) : foldr and True (map P l) <-> Forall P l.
Proof. induction l; simpl; [done|]. by rewrite Forall_cons, IHl. Qed.

(** How the captured state relates to the occurrences numbered so far,
    [base] being the first id of this body. *)
Record alloc_inv (base : Z) (st : AllocState (D:=D)) (os : list Occ) : Prop := {
  ai_base : (base <= alloc_next st)%Z;
  ai_range : Forall (fun s => base <= seen_id s < alloc_next st)%Z (alloc_seen st);
  ai_nodup : NoDup (map seen_id (alloc_seen st));
  ai_seen : forall o, o ∈ os -> exists s, s ∈ alloc_seen st /\ seen_id s = occ_id o /\
    erase (seen_node s) = erase (occ_call o);
  ai_used : forall s, s ∈ alloc_seen st -> seen_id s ∈ map occ_id os;
  ai_first : forall l1 o l2 s, os = l1 ++ o :: l2 -> s ∈ alloc_seen st ->
    seen_id s = occ_id o ->
    if decide (occ_id o ∈ map occ_id l1) then seen_unconditional s = true
    else seen_unconditional s = occ_uncond o;
  ai_all : forall i, (base <= i < alloc_next st)%Z -> i ∈ map seen_id (alloc_seen st);
}.

Lemma TryAliasNodeId_found (seen : list (SeenStateful (D:=D))) (c : Expr D) :
  Forall (fun s => 0 < seen_id s)%Z seen -> (0 < TryAliasNodeId seen c)%Z ->
  exists s, s ∈ seen /\ seen_id s = TryAliasNodeId seen c /\
    seen_unconditional s = true /\ erase (seen_node s) = erase c.
Proof.
  induction 1 as [|s seen Hs HF IH]; simpl; [lia|]. intros Hpos.
  destruct (seen_unconditional s) eqn:Hu; simpl in *.
  - destruct (AstEquals (seen_node s) c) eqn:He.
    + exists s. split_and!; [left|done|done|by apply AstEquals_erase].
    + destruct (IH Hpos) as (s' & ? & ? & ?). exists s'. split; [by right|done].
  - destruct (IH Hpos) as (s' & ? & ? & ?). exists s'. split; [by right|done].
Qed.

Lemma seen_unique (seen : list (SeenStateful (D:=D))) (s s' : SeenStateful (D:=D)) :
  NoDup (map seen_id seen) -> s ∈ seen -> s' ∈ seen -> seen_id s = seen_id s' -> s = s'.
Proof.
  intros Hnd Hs Hs' E. apply list_elem_of_lookup in Hs as [i Hi], Hs' as [j Hj].
  assert (i = j) as ->; [|congruence].
  eapply NoDup_lookup; [exact Hnd|by rewrite list_lookup_fmap, Hi|].
  rewrite list_lookup_fmap, Hj. simpl. by rewrite E.
Qed.

(** Appending an occurrence whose id is that of a seen entry. *)
Lemma ai_first_snoc (seen : list (SeenStateful (D:=D))) os o :
  (forall l1 o' l2 s, os = l1 ++ o' :: l2 -> s ∈ seen -> seen_id s = occ_id o' ->
    if decide (occ_id o' ∈ map occ_id l1) then seen_unconditional s = true
    else seen_unconditional s = occ_uncond o') ->
  (forall s, s ∈ seen -> seen_id s = occ_id o ->
    if decide (occ_id o ∈ map occ_id os) then seen_unconditional s = true
    else seen_unconditional s = occ_uncond o) ->
  forall l1 o' l2 s, os ++ [o] = l1 ++ o' :: l2 -> s ∈ seen -> seen_id s = occ_id o' ->
    if decide (occ_id o' ∈ map occ_id l1) then seen_unconditional s = true
    else seen_unconditional s = occ_uncond o'.
Proof.
  intros Hold Hnew l1 o' l2 s E Hs Hid.
  destruct l2 as [|o2 l2 _] using rev_ind.
  - apply app_inj_tail in E as [<- <-]. by apply Hnew.
  - rewrite app_comm_cons, app_assoc in E. apply app_inj_tail in E as [-> ->]. by eapply Hold.
Qed.

Lemma assign_id_inv base st os c u id st' :
  (0 < base)%Z -> alloc_inv base st os -> assign_id c u st = (id, st') ->
  forall c', erase c' = erase c -> alloc_inv base st' (os ++ [(id, c', u)]).
Proof.
  intros Hb [Hbase Hr Hnd Hseen Hused Hfirst Hall] Ha c' Hc'. unfold assign_id in Ha.
  destruct (Z.ltb_spec 0 (TryAliasNodeId (alloc_seen st) c)) as [Hpos|Hno]; simplify_eq.
  - destruct (TryAliasNodeId_found (alloc_seen st') c) as (s & Hs & Hid & Hu & He); [|done|].
    { eapply Forall_impl; [exact Hr|]. simpl. lia. }
    split; try done.
    + intros o [Ho| ->%list_elem_of_singleton]%elem_of_app; [by apply Hseen|].
      exists s. unfold occ_id, occ_call. simpl. split_and!; [done|done|congruence].
    + intros s' Hs'. rewrite map_app. apply elem_of_app. left. by apply Hused.
    + apply ai_first_snoc; [done|]. intros s' Hs' Hid'. unfold occ_id in Hid'. simpl in Hid'.
      assert (s' = s) as -> by (by eapply seen_unique; [| | |congruence]).
      rewrite decide_True; [done|]. unfold occ_id at 1. simpl. rewrite <- Hid. by apply Hused.
  - assert (Hnew : forall s, s ∈ alloc_seen st -> seen_id s <> alloc_next st).
    { intros s Hs. rewrite Forall_forall in Hr. specialize (Hr _ Hs). simpl in Hr. lia. }
    split; simpl.
    + lia.
    + apply Forall_app. split; [|repeat constructor; simpl; lia].
      eapply Forall_impl; [exact Hr|]. simpl. lia.
    + rewrite map_app. apply NoDup_app. split_and!; [done| |apply NoDup_singleton].
      intros x (s & -> & Hs)%list_elem_of_fmap Hx%list_elem_of_singleton.
      by apply (Hnew s Hs).
    + intros o [Ho| ->%list_elem_of_singleton]%elem_of_app.
      * destruct (Hseen _ Ho) as (s & ? & ?). exists s. split; [|done]. apply elem_of_app. by left.
      * exists (MkSeen c (alloc_next st) u). unfold occ_id, occ_call. simpl.
        split_and!; [|done|done]. apply elem_of_app. right. left.
    + intros s [Hs| ->%list_elem_of_singleton]%elem_of_app; rewrite map_app; apply elem_of_app.
      * left. by apply Hused.
      * right. left.
    + apply ai_first_snoc.
      * intros l1 o' l2 s E [Hs| ->%list_elem_of_singleton]%elem_of_app Hid; [by eapply Hfirst|].
        exfalso. destruct (Hseen o') as (s & Hs & Hid' & _).
        { rewrite E. apply elem_of_app. right. left. }
        apply (Hnew s Hs). rewrite Hid'. symmetry. exact Hid.
      * intros s Hs Hid. unfold occ_id in Hid. simpl in Hid.
        apply elem_of_app in Hs as [Hs| ->%list_elem_of_singleton].
        -- exfalso. by apply (Hnew s Hs).
        -- rewrite decide_False; [done|]. unfold occ_id at 1. simpl.
           intros (o & E & Ho)%list_elem_of_fmap. destruct (Hseen _ Ho) as (s & Hs & E' & _).
           apply (Hnew s Hs). congruence.
    + intros i Hi. rewrite map_app. apply elem_of_app.
      destruct (decide (i = alloc_next st)) as [->|]; [right; left|left]. apply Hall. lia.
Qed.

Lemma alloc_inv_start base : alloc_inv base (MkAlloc base []) [].
Proof.
  split; simpl; try done.
  - constructor.
  - intros o Ho. by apply not_elem_of_nil in Ho.
  - intros s Hs. by apply not_elem_of_nil in Hs.
  - intros [] ? ? ? E; done.
  - intros i Hi. lia.
Qed.

(** Numbering a tree keeps its identity and extends the invariant by the
    tree's occurrences. *)
Definition walk_ok (e : Expr D) : Prop :=
  forall base u st os e' st', (0 < base)%Z -> unnumbered e -> alloc_inv base st os ->
    walk e u st = (e', st') ->
    erase e' = erase e /\ alloc_inv base st' (os ++ occs e' u) /\
    (alloc_next st <= alloc_next st')%Z.

Lemma assign_id_next c u (st st' : AllocState (D:=D)) id :
  assign_id c u st = (id, st') -> (alloc_next st <= alloc_next st')%Z.
Proof. unfold assign_id. destruct (0 <? _)%Z; intros; simplify_eq; simpl; lia. Qed.

Lemma walk_args_inv args :
  Forall walk_ok args ->
  forall base u st os args' st', (0 < base)%Z -> Forall unnumbered args ->
    alloc_inv base st os ->
    (fix walk_args (l : list (Expr D)) (st : AllocState) :=
       match l with
       | [] => ([], st)
       | a :: l' =>
           let '(a, st) := walk a u st in
           let '(l', st) := walk_args l' st in
           (a :: l', st)
       end) args st = (args', st') ->
    map erase args' = map erase args /\
    alloc_inv base st' (os ++ concat (map (fun a => occs a u) args')) /\
    (alloc_next st <= alloc_next st')%Z.
Proof.
  induction 1 as [|a args Ha HF IH]; intros base u st os args' st' Hb Hun Hinv Hw.
  - simplify_eq. simpl. rewrite app_nil_r. split_and!; [done|done|lia].
  - apply Forall_cons in Hun as [Hua Hun].
    destruct (walk a u st) as [a' st1] eqn:Hwa.
    destruct (Ha _ _ _ _ _ _ Hb Hua Hinv Hwa) as (E1 & Hinv1 & Hn1).
    destruct_walk. simplify_eq.
    destruct (IH _ _ _ _ _ _ Hb Hun Hinv1 Heqp) as (E2 & Hinv2 & Hn2).
    simpl. rewrite E1, E2, app_assoc. split_and!; [done|done|lia].
Qed.

Lemma walk_inv e : walk_ok e.
Proof.
  induction e using Expr_rect'; intros base u st os e' st' Hb Hun Hinv Hw; simpl in *;
    try (simplify_eq; simpl; rewrite app_nil_r; split_and!; done || lia).
  - destruct_walk. simplify_eq. destruct (IHe _ _ _ _ _ _ Hb Hun Hinv Heqp) as (E & ? & ?).
    simpl. by rewrite E.
  - destruct Hun as [Hl Hr]. repeat destruct_walk. simplify_eq.
    destruct (IHe1 _ _ _ _ _ _ Hb Hl Hinv Heqp) as (E1 & Hinv1 & ?).
    destruct (IHe2 _ _ _ _ _ _ Hb Hr Hinv1 Heqp0) as (E2 & Hinv2 & ?).
    simpl. rewrite E1, E2, app_assoc. split_and!; [done|done|lia].
  - destruct Hun as [Hid Hargs]. rewrite foldr_and in Hargs.
    destruct (Z.ltb_spec i 0); [|lia]. rewrite andb_true_r in Hw.
    destruct (IsStatefulOp n) eqn:Hst.
    + destruct (assign_id _ u st) as [id st1] eqn:Ha. destruct_walk. simplify_eq. simpl.
      rewrite Hst. simpl.
      pose proof (assign_id_next _ _ _ _ _ Ha).
      assert (Hmid : forall c', erase c' = FunctionCall noloc n (map erase args) (-1) (-1) ->
        alloc_inv base st1 (os ++ [(id, c', u)])) by
        (intros c' Hc'; by eapply (assign_id_inv base st os)).
      destruct (walk_args_inv args H base u st1 _ _ _ Hb Hargs
        (Hmid (FunctionCall noloc n args (-1) (-1)) eq_refl) Heqp) as (E & _ & Hn2).
      assert (Hc : erase (FunctionCall loc n l id s) =
        FunctionCall noloc n (map erase args) (-1) (-1)) by (simpl; by rewrite E).
      destruct (walk_args_inv args H base u st1 _ _ _ Hb Hargs (Hmid _ Hc) Heqp)
        as (_ & Hinv2 & _).
      split_and!; [by rewrite E| |lia]. rewrite <- app_assoc in Hinv2. exact Hinv2.
    + destruct_walk. simplify_eq. simpl. rewrite Hst. simpl.
      destruct (walk_args_inv args H base u st _ _ _ Hb Hargs Hinv Heqp) as (E & Hinv2 & Hn2).
      by rewrite E.
  - destruct Hun as (Hc & Ht & He). repeat destruct_walk. simplify_eq.
    destruct (IHe1 _ _ _ _ _ _ Hb Hc Hinv Heqp) as (E1 & Hinv1 & ?).
    destruct (IHe2 _ _ _ _ _ _ Hb Ht Hinv1 Heqp0) as (E2 & Hinv2 & ?).
    destruct (IHe3 _ _ _ _ _ _ Hb He Hinv2 Heqp1) as (E3 & Hinv3 & ?).
    simpl. rewrite E1, E2, E3, !app_assoc in *. split_and!; [done|done|lia].
Qed.

(** What the ids of one numbered body, drawn from [base .. next), mean. *)
Record numbering (base next : Z) (os : list Occ) : Prop := {
  nu_range : Forall (fun o => base <= occ_id o < next)%Z os;
  nu_all : forall i, (base <= i < next)%Z -> i ∈ map occ_id os;
  nu_share : forall o o', o ∈ os -> o' ∈ os -> occ_id o = occ_id o' ->
    erase (occ_call o) = erase (occ_call o');
  nu_first : forall l1 o l2, os = l1 ++ o :: l2 -> occ_id o ∉ map occ_id l1 ->
    occ_id o ∈ map occ_id l2 -> occ_uncond o = true;
}.

Lemma alloc_inv_numbering base st os : alloc_inv base st os -> numbering base (alloc_next st) os.
Proof.
  intros [Hbase Hr Hnd Hseen Hused Hfirst Hall]. split.
  - apply Forall_forall. intros o Ho. destruct (Hseen _ Ho) as (s & Hs & <- & _).
    rewrite Forall_forall in Hr. by apply Hr.
  - intros i Hi. apply Hall in Hi. apply list_elem_of_fmap in Hi as (s & -> & Hs).
    by apply Hused.
  - intros o o' Ho Ho' E. destruct (Hseen _ Ho) as (s & Hs & Hid & He).
    destruct (Hseen _ Ho') as (s' & Hs' & Hid' & He').
    assert (s = s') as -> by (eapply seen_unique; [exact Hnd|done|done|congruence]).
    congruence.
  - intros l1 o l2 E Hnot Hin. destruct (Hseen o) as (s & Hs & Hid & _).
    { rewrite E. apply elem_of_app. right. left. }
    pose proof (Hfirst _ _ _ _ E Hs Hid) as Hu. rewrite decide_False in Hu by done.
    rewrite <- Hu. apply list_elem_of_fmap in Hin as (o' & E' & Ho').
    apply list_elem_of_split in Ho' as (l3 & l4 & ->).
    assert (Hos : os = (l1 ++ o :: l3) ++ o' :: l4) by (rewrite E, <- app_assoc; done).
    pose proof (Hfirst _ _ _ s Hos Hs ltac:(congruence)) as Hu'.
    rewrite decide_True in Hu'; [done|]. rewrite map_app. apply elem_of_app. right.
    rewrite <- E'. left.
Qed.

Lemma walk_numbering base e u e' st :
  (0 < base)%Z -> unnumbered e -> walk e u (MkAlloc base []) = (e', st) ->
  erase e' = erase e /\ (base <= alloc_next st)%Z /\ numbering base (alloc_next st) (occs e' u).
Proof.
  intros Hb Hun Hw.
  destruct (walk_inv e base u _ [] e' st Hb Hun (alloc_inv_start base) Hw) as (E & Hinv & Hn).
  split_and!; [done|done|]. by apply alloc_inv_numbering.
Qed.

(** The numbered bodies of a program, drawn from [base .. next). *)
Inductive program_numbering : Z -> Z -> list (SignalDef D) -> list (SignalDef D) -> Prop :=
| pn_nil base : program_numbering base base [] []
| pn_cons base mid next s s' l l' :
    (base <= mid)%Z -> sig_name s' = sig_name s ->
    erase (sig_body s') = erase (sig_body s) ->
    numbering base mid (occs (sig_body s') true) ->
    program_numbering mid next l l' ->
    program_numbering base next (s :: l) (s' :: l').

Lemma allocate_signals_numbering signals base out next :
  (0 < base)%Z -> Forall (fun s => unnumbered (sig_body s)) signals ->
  allocate_signals base signals = (out, next) -> program_numbering base next signals out.
Proof.
  revert base out next. induction signals as [|s l IH]; intros base out next Hb HF Ha; simpl in Ha.
  - simplify_eq. constructor.
  - apply Forall_cons in HF as [Hs HF]. repeat destruct_walk. simplify_eq.
    destruct (walk_numbering base _ _ _ _ Hb Hs Heqp) as (E & Hle & Hnum).
    econstructor; [exact Hle|done|exact E|exact Hnum|]. apply (IH (alloc_next a)); [lia|done|done].
Qed.

Lemma program_numbering_le base next l l' : program_numbering base next l l' -> (base <= next)%Z.
Proof. induction 1; lia. Qed.

Lemma program_numbering_ge base next l l' j s2 o2 :
  program_numbering base next l l' -> l' !! j = Some s2 -> o2 ∈ occs (sig_body s2) true ->
  (base <= occ_id o2)%Z.
Proof.
  intros Hp. revert j. induction Hp as [|base mid next s0 s0' l l' Hle _ _ Hnum Hp IH];
    intros [|j] Hj Ho; simplify_eq/=.
  - destruct Hnum as [Hr _ _ _]. rewrite Forall_forall in Hr. specialize (Hr _ Ho). simpl in Hr. lia.
  - specialize (IH _ Hj Ho). lia.
Qed.

Lemma program_numbering_lookup base next l l' i s' :
  program_numbering base next l l' -> l' !! i = Some s' ->
  exists s lo hi, l !! i = Some s /\ sig_name s' = sig_name s /\
    erase (sig_body s') = erase (sig_body s) /\
    (base <= lo <= hi)%Z /\ (hi <= next)%Z /\ numbering lo hi (occs (sig_body s') true) /\
    forall j s2 o2, i < j -> l' !! j = Some s2 -> o2 ∈ occs (sig_body s2) true ->
      (hi <= occ_id o2)%Z.
Proof.
  intros Hp. revert i. induction Hp as [|base mid next s0 s0' l l' Hle Hnm He Hnum Hp IH];
    intros i Hi; [by rewrite lookup_nil in Hi|].
  pose proof (program_numbering_le _ _ _ _ Hp).
  destruct i as [|i]; simpl in Hi.
  - simplify_eq. exists s0, base, mid. split_and!; try done; try lia.
    intros [|j] s2 o2 Hj Hl Ho; [lia|]. simpl in Hl.
    by eapply program_numbering_ge.
  - destruct (IH _ Hi) as (s & lo & hi & ? & ? & ? & ? & ? & ? & Hlater).
    exists s, lo, hi. split_and!; try done; try lia.
    intros [|j] s2 o2 Hj Hl Ho; [lia|]. simpl in Hl. eapply (Hlater j); [lia|done|done].
Qed.

Lemma program_numbering_all base next l l' k :
  program_numbering base next l l' -> (base <= k < next)%Z ->
  exists s', s' ∈ l' /\ k ∈ map occ_id (occs (sig_body s') true).
Proof.
  intros Hp. revert k. induction Hp as [|base mid next s0 s0' l l' Hle _ _ Hnum Hp IH];
    intros k Hk; [lia|].
  destruct (decide (k < mid)%Z).
  - exists s0'. split; [left|]. apply (nu_all _ _ _ Hnum). lia.
  - destruct (IH k) as (s' & ? & ?); [lia|]. exists s'. split; [by right|done].
Qed.

Lemma program_numbering_same base next l l' :
  program_numbering base next l l' ->
  Forall2 (fun s s' => sig_name s' = sig_name s /\
    erase (sig_body s') = erase (sig_body s) /\ AstEquals (sig_body s') (sig_body s) = true) l l'.
Proof.
  induction 1 as [|????????? E]; constructor; [|done].
  split_and!; [done|done|]. by apply AstEquals_erase.
Qed.

(** C28: numbering a program.  Of a program whose calls carry no ids yet (as
    the parser and the inliner leave them; a call that has an id keeps it),
    numbering returns one definition per signal, in order, with the signal's
    name and the signal's tree, unchanged up to the ids ([AstEquals], and
    equal after [erase]); the ids of the stateful calls are exactly 1 .. n;
    within a signal two calls share an id only if they are structurally
    equal, and a shared id belongs first to a call that is evaluated on every
    tick (so that its cached result is available to the others); across
    signals no id is shared. *)
Theorem AllocateProgramNodeIds_numbers (signals out : list (SignalDef D)) n :
  Forall (fun s => unnumbered (sig_body s)) signals ->
  AllocateProgramNodeIds signals = (out, n) ->
  Forall2 (fun s s' => sig_name s' = sig_name s /\
    erase (sig_body s') = erase (sig_body s) /\ AstEquals (sig_body s') (sig_body s) = true)
    signals out /\
  (forall i s', out !! i = Some s' ->
    (forall o, o ∈ occs (sig_body s') true -> (1 <= occ_id o <= n)%Z) /\
    (forall o o', o ∈ occs (sig_body s') true -> o' ∈ occs (sig_body s') true ->
       occ_id o = occ_id o' -> AstEquals (occ_call o) (occ_call o') = true) /\
    (forall l1 o l2, occs (sig_body s') true = l1 ++ o :: l2 ->
       occ_id o ∉ map occ_id l1 -> occ_id o ∈ map occ_id l2 -> occ_uncond o = true)) /\
  (forall i j s1 s2 o1 o2, i <> j -> out !! i = Some s1 -> out !! j = Some s2 ->
    o1 ∈ occs (sig_body s1) true -> o2 ∈ occs (sig_body s2) true -> occ_id o1 <> occ_id o2) /\
  (0 <= n)%Z /\
  (forall k, (1 <= k <= n)%Z ->
    exists s', s' ∈ out /\ k ∈ map occ_id (occs (sig_body s') true)).
Proof.
  intros HF Ha. unfold AllocateProgramNodeIds in Ha. destruct_walk. simplify_eq.
  pose proof (allocate_signals_numbering signals 1 out z ltac:(lia) HF Heqp) as Hp.
  split_and!.
  - by apply (program_numbering_same 1 z).
  - intros i s' Hi.
    destruct (program_numbering_lookup _ _ _ _ _ _ Hp Hi)
      as (s & lo & hi & Hs & Hnm & He & ? & ? & [Hr _ Hshare Hfirst] & _).
    split_and!.
    + intros o Ho. rewrite Forall_forall in Hr. specialize (Hr _ Ho). simpl in Hr. lia.
    + intros o o' Ho Ho' E. by apply AstEquals_erase, Hshare.
    + done.
  - intros i j s1 s2 o1 o2 Hij H1 H2 Ho1 Ho2 E.
    destruct (program_numbering_lookup _ _ _ _ _ _ Hp H1)
      as (? & lo1 & hi1 & _ & _ & _ & _ & _ & [Hr1 _ _ _] & Hl1).
    destruct (program_numbering_lookup _ _ _ _ _ _ Hp H2)
      as (? & lo2 & hi2 & _ & _ & _ & _ & _ & [Hr2 _ _ _] & Hl2).
    rewrite Forall_forall in Hr1, Hr2. specialize (Hr1 _ Ho1). specialize (Hr2 _ Ho2).
    simpl in *. destruct (decide (i < j)) as [Hlt|Hge].
    + specialize (Hl1 j s2 o2 Hlt H2 Ho2). lia.
    + specialize (Hl2 i s1 o1 ltac:(lia) H1 Ho1). lia.
  - pose proof (program_numbering_le _ _ _ _ Hp). lia.
  - intros k Hk. apply (program_numbering_all _ _ _ _ k Hp). lia.
Qed.
End alloc.

(** Two signals that use [sma(mid(A), 2)] twice. *)
Definition example_sma : Expr Z :=
  FunctionCall noloc "sma"
    [FunctionCall noloc "mid" [IdentifierExpr noloc "A"] (-1) (-1); NumberLiteral noloc 2%Z]
    (-1) (-1).
Definition example_signals : list (SignalDef Z) :=
  [MkSignal "s" (BinaryOp noloc Add example_sma example_sma); MkSignal "t" example_sma].
Definition example_numbered : list (SignalDef Z) * Z :=
  Eval vm_compute in AllocateProgramNodeIds example_signals.

Lemma AllocateProgramNodeIds_numbers_witness :
  snd example_numbered = 2%Z /\
  (forall k, (1 <= k <= 2)%Z ->
    exists s', s' ∈ fst example_numbered /\ k ∈ map occ_id (occs (sig_body s') true)).
Proof.
  split; [reflexivity|].
  refine (proj2 (proj2 (proj2 (proj2 (AllocateProgramNodeIds_numbers example_signals
    (fst example_numbered) 2 _ _))))).
  - repeat constructor.
  - vm_compute. reflexivity.
Defined.
