(* ===== verification/PipelineFacts.v ===== *)
(** * From source tree to safe evaluation

    The passes a signal goes through before it is evaluated
    ([AllocateNodeIds], [BindSymbolIds], [PrewarmSignalContext]) establish
    what SafetyFacts.v needs: a node typing and a well-formed context. *)

From Stdlib Require Import Reals.
From S2P Require Import Prelude Errors Arith RealArith ArithLaws Ast SymbolTable SignalProgram Rolling Context Interpreter RollingFacts MonoFacts SafetyFacts AllocFacts.

Section typing.
Context {D L : Type} `{Machine D L} `{EqDecision D}.

(** [symbol_id]s are those of the parser (-1) or instrument slots. *)
Fixpoint syms_ok (e : Expr D) : Prop :=
  match e with
  | NumberLiteral _ _ | IdentifierExpr _ _ | ParameterExpr _ _ _ => True
  | UnaryOp _ _ x => syms_ok x
  | BinaryOp _ _ l r => syms_ok l /\ syms_ok r
  | Conditional _ c t f => syms_ok c /\ syms_ok t /\ syms_ok f
  | FunctionCall _ _ args _ sym =>
      (sym < Z.of_nat kMaxInstruments)%Z /\ foldr and True (map syms_ok args)
  end.

(** The periods of the numbered stateful calls can be cast to [int]. *)
Fixpoint casts_ok (e : Expr D) : Prop :=
  match e with
  | NumberLiteral _ _ | IdentifierExpr _ _ | ParameterExpr _ _ _ => True
  | UnaryOp _ _ x => casts_ok x
  | BinaryOp _ _ l r => casts_ok l /\ casts_ok r
  | Conditional _ c t f => casts_ok c /\ casts_ok t /\ casts_ok f
  | FunctionCall _ name args id _ =>
      ((0 <= id)%Z -> forall p, period_arg name args = Some p -> castable p = true) /\
      foldr and True (map casts_ok args)
  end.

(** [call_op] looks only at what [AstEquals] compares. *)
Lemma period_of_erase (e : Expr D) : period_of (erase e) = period_of e.
Proof. by destruct e. Qed.

Lemma period_arg_erase name (args : list (Expr D)) :
  period_arg name (map erase args) = erase <$> period_arg name args.
Proof.
  unfold period_arg. destruct args as [|? [|? [|? [|]]]]; simpl; try done;
    by destruct (_ || _).
Qed.

Lemma call_op_erase name (args : list (Expr D)) : call_op name (map erase args) = call_op name args.
Proof.
  unfold call_op. rewrite period_arg_erase. destruct (period_arg name args); simpl; [|done].
  by rewrite period_of_erase.
Qed.

Definition op_of (e : Expr D) : option NodeOp :=
  match e with FunctionCall _ name args _ _ => call_op name args | _ => None end.

Lemma op_of_erase e : op_of (erase e) = op_of e.
Proof. destruct e; simpl; try done. apply call_op_erase. Qed.

(** The typing given by the occurrences of a body. *)
Definition typing_of (os : list (Occ (D:=D))) : gmap Z NodeOp :=
  list_to_map (omap (fun o => (fun op => (occ_id o, op)) <$> op_of (occ_call o)) os).

Lemma typing_of_elem os i op :
  typing_of os !! i = Some op ->
  exists o, o ∈ os /\ occ_id o = i /\ op_of (occ_call o) = Some op.
Proof.
  intros Hl%elem_of_list_to_map_2. apply list_elem_of_omap in Hl as (o & Ho & E).
  destruct (op_of (occ_call o)) eqn:Hop; simplify_eq/=. by exists o.
Qed.

Lemma typing_of_lookup base next os o :
  numbering base next os -> o ∈ os -> typing_of os !! occ_id o = op_of (occ_call o).
Proof.
  intros Hn Ho. destruct (typing_of os !! occ_id o) as [op|] eqn:Hl.
  - destruct (typing_of_elem _ _ _ Hl) as (o' & Ho' & Hid & Hop).
    rewrite <- Hop, <- op_of_erase, (nu_share _ _ _ Hn o' o Ho' Ho Hid). apply op_of_erase.
  - destruct (op_of (occ_call o)) as [op|] eqn:Hop; [|done].
    apply not_elem_of_list_to_map_2 in Hl. destruct Hl.
    apply list_elem_of_fmap. exists (occ_id o, op). split; [done|].
    apply list_elem_of_omap. exists o. by rewrite Hop.
Qed.

Lemma numbered_of_occs Γ e u :
  (forall o, o ∈ occs e u -> Γ !! occ_id o = op_of (occ_call o)) ->
  (forall o, o ∈ occs e u -> (0 <= occ_id o)%Z) -> syms_ok e -> casts_ok e -> numbered Γ e.
Proof.
  revert u. induction e using Expr_rect'; intros u Ho Hid Hs Hc; simpl in *; try done.
  - by apply (IHe u).
  - destruct Hs, Hc. split; [apply (IHe1 u)|apply (IHe2 u)]; try done; intros o Hin;
      (apply Ho || apply Hid); apply elem_of_app; auto.
  - destruct Hs as [Hsym Hs], Hc as [Hcast Hc].
    assert (Hargs : forall a o, a ∈ args -> o ∈ occs a u ->
      o ∈ (if IsStatefulOp n then [(i, FunctionCall loc n args i s, u)] else []) ++
           concat (map (fun a => occs a u) args)).
    { intros a o Ha Hin. apply elem_of_app. right. apply list_elem_of_In, in_concat.
      exists (occs a u). split; apply list_elem_of_In; [|done].
      apply list_elem_of_fmap. by exists a. }
    assert (Hself : IsStatefulOp n = true ->
      (i, FunctionCall loc n args i s, u) ∈
      (if IsStatefulOp n then [(i, FunctionCall loc n args i s, u)] else []) ++
           concat (map (fun a => occs a u) args)).
    { intros ->. apply elem_of_app. left. left. }
    split_and!; [| |done|].
    + intros Hst _. by apply (Ho _ (Hself Hst)).
    + intros p Hp. apply Hcast; [|done].
      by apply (Hid _ (Hself (period_arg_stateful _ _ _ Hp))).
    + rewrite foldr_and in *. rewrite Forall_forall in *. intros a Ha.
      apply (H0 a Ha u); auto; intros o Hin; (apply Ho || apply Hid); by eapply Hargs.
  - destruct Hs as (? & ? & ?), Hc as (? & ? & ?).
    split_and!; [apply (IHe1 u)|apply (IHe2 false)|apply (IHe3 false)]; try done; intros o Hin;
      (apply Ho || apply Hid); rewrite !elem_of_app; auto.
Qed.

(** ** Binding *)

Definition same_occ (o o' : Occ (D:=D)) : Prop :=
  occ_id o = occ_id o' /\ occ_uncond o = occ_uncond o' /\
  erase (occ_call o) = erase (occ_call o').

(** What binding does to a tree. *)
Definition bound_ok (e e' : Expr D) : Prop :=
  syms_ok e' /\ erase e' = erase e /\ forall u, Forall2 same_occ (occs e' u) (occs e u).

Lemma same_occ_ids os os' : Forall2 same_occ os os' -> map occ_id os = map occ_id os'.
Proof. induction 1 as [|o o' os os' [E _] HF IH]; simpl; [done|]. by rewrite E, IH. Qed.

Lemma same_occ_elem os os' o :
  Forall2 same_occ os os' -> o ∈ os -> exists o', o' ∈ os' /\ same_occ o o'.
Proof.
  intros HF (i & Hi)%list_elem_of_lookup.
  destruct (Forall2_lookup_l _ _ _ _ _ HF Hi) as (o' & Ho' & Hs).
  exists o'. split; [by eapply list_elem_of_lookup_2|done].
Qed.

(** A numbering depends only on the ids and the erased calls. *)
Lemma numbering_same_occ base next os os' :
  Forall2 same_occ os os' -> numbering base next os' -> numbering base next os.
Proof.
  intros HF [Hr Hall Hshare Hfirst]. split.
  - apply Forall_forall. intros o Ho. destruct (same_occ_elem _ _ _ HF Ho) as (o' & Ho' & E & _).
    rewrite Forall_forall in Hr. rewrite E. by apply Hr.
  - intros i Hi. rewrite (same_occ_ids _ _ HF). by apply Hall.
  - intros o1 o2 H1 H2 E. destruct (same_occ_elem _ _ _ HF H1) as (o1' & H1' & E1 & _ & C1).
    destruct (same_occ_elem _ _ _ HF H2) as (o2' & H2' & E2 & _ & C2).
    rewrite C1, C2. apply Hshare; [done|done|congruence].
  - intros l1 o l2 -> Hnot Hin. apply Forall2_app_inv_l in HF as (l1' & r & HF1 & HF2 & ->).
    apply Forall2_cons_inv_l in HF2 as (o' & l2' & [E [U C]] & HF2 & ->).
    rewrite U. apply (Hfirst l1' o' l2' eq_refl); rewrite <- E.
    + by rewrite <- (same_occ_ids _ _ HF1).
    + by rewrite <- (same_occ_ids _ _ HF2).
Qed.

Lemma bind_ticker_ok symbols name (args : list (Expr D)) sym sym' :
  table_ok symbols -> (sym < Z.of_nat kMaxInstruments)%Z ->
  bind_ticker symbols name args sym = Ok sym' -> (sym' < Z.of_nat kMaxInstruments)%Z.
Proof.
  intros Ht Hs. unfold bind_ticker. destruct (IsTickerFirstArgFn name).
  - destruct args as [|[] ?]; intros Hb; simplify_eq; try done. inv_res.
    unfold LookupId in *. destruct (symbol_to_id_ symbols !! name0) eqn:Hl; simplify_eq.
    pose proof (ids_bounded _ Ht _ _ Hl). pose proof (ids_fit _ Ht). lia.
  - by intros [= <-].
Qed.

Lemma bind_args_spec symbols args :
  Forall (fun a => forall a', syms_ok a -> bind_walk symbols a = Ok a' -> bound_ok a a') args ->
  forall args', Forall syms_ok args ->
    (fix bind_args (l : list (Expr D)) : Res (list (Expr D)) :=
       match l with
       | [] => Ok []
       | a :: l' => a <- bind_walk symbols a;; rmap (cons a) (bind_args l')
       end) args = Ok args' ->
    Forall syms_ok args' /\ map erase args' = map erase args /\
    forall u, Forall2 same_occ (concat (map (fun a => occs a u) args'))
                (concat (map (fun a => occs a u) args)).
Proof.
  induction 1 as [|a args Ha HF IH]; intros args' Hs Hb.
  - simplify_eq. split_and!; [done|done|constructor].
  - apply Forall_cons in Hs as [Hsa Hs]. inv_res.
    edestruct Ha as (Hs1 & E1 & Ho1); [exact Hsa|eassumption|].
    edestruct IH as (Hs2 & E2 & Ho2); [exact Hs|eassumption|].
    split_and!; [by constructor|simpl; by rewrite E1, E2|].
    intros u. simpl. by apply Forall2_app.
Qed.

Lemma bind_walk_spec symbols e e' :
  table_ok symbols -> syms_ok e -> bind_walk symbols e = Ok e' -> bound_ok e e'.
Proof.
  intros Ht. revert e'. induction e using Expr_rect'; intros e' Hs Hb; simpl in *;
    try (simplify_eq; by split_and!; [| |constructor]).
  - inv_res. edestruct IHe as (? & E & ?); [exact Hs|eassumption|]. split_and!; simpl; [done|by rewrite E|done].
  - destruct Hs. inv_res. edestruct IHe1 as (? & E1 & ?); [eassumption..|].
    edestruct IHe2 as (? & E2 & ?); [eassumption..|].
    split_and!; simpl; [done|by rewrite E1, E2|]. intros u. by apply Forall2_app.
  - destruct Hs as [Hsym Hs]. rewrite foldr_and in Hs. inv_res.
    edestruct (bind_args_spec symbols args) as (Hs' & E & Ho); [eassumption..|].
    match goal with Hb : bind_ticker _ _ _ _ = Ok _ |- _ =>
      apply (bind_ticker_ok _ _ _ _ _ Ht Hsym) in Hb end.
    split_and!; simpl; [by rewrite foldr_and|by rewrite E|].
    intros u. apply Forall2_app; [|done]. destruct (IsStatefulOp n); [|constructor].
    repeat constructor. unfold occ_call. simpl. by rewrite E.
  - destruct Hs as (? & ? & ?). inv_res.
    edestruct IHe1 as (? & E1 & ?); [eassumption..|].
    edestruct IHe2 as (? & E2 & ?); [eassumption..|].
    edestruct IHe3 as (? & E3 & ?); [eassumption..|].
    split_and!; simpl; [done|by rewrite E1, E2, E3|].
    intros u. by repeat apply Forall2_app.
Qed.
End typing.

(** ** Prewarming *)

Section prewarm.
Context {D L : Type} `{Machine D L}.
Notation Ctx := (SignalContext D L).

Lemma vec_grow_lookup {A} n (d : A) l k x :
  vec_grow n d l !! k = Some x -> l !! k = Some x \/ (x = d /\ length l <= k).
Proof.
  unfold vec_grow, vec_resize. destruct (Nat.ltb_spec (length l) n); [|by left].
  rewrite take_ge by lia. intros Hl. apply lookup_app_Some in Hl as [Hl|[Hk Hl]]; [by left|].
  apply lookup_replicate in Hl as [-> _]. by right.
Qed.

Lemma length_vec_grow {A} n (d : A) l : length (vec_grow n d l) = max n (length l).
Proof.
  unfold vec_grow, vec_resize. destruct (Nat.ltb_spec (length l) n); [|lia].
  rewrite length_app, length_take, length_replicate. lia.
Qed.

(** Invariant of a prewarm: what exists is well formed, and the two arrays
    of each extremum operator have the same length. *)
Record pre_ok (Γ : gmap Z NodeOp) (c : Ctx) : Prop := {
  po_slot : forall k op, Γ !! k = Some op -> slot_inv 0 op (Z.to_nat k) (nodes c);
  po_min : length (rolling_min_deques (nodes c)) = length (rolling_min_indices (nodes c));
  po_max : length (rolling_max_deques (nodes c)) = length (rolling_max_indices (nodes c));
  po_params : params_ok c;
}.

(** Periods are positive. *)
Definition op_period (op : NodeOp) : nat :=
  match op with
  | NEma | NCross | NKalman => 1
  | NSma p | NStd p | NZscore p | NVwap p | NLag p | NMin p | NMax p | NCorr p | NBeta p => p
  end.

Lemma ring_slot_init p : 0 < p -> ring_slot (D:=D) (L:=L) p RingStatsState_init.
Proof. intros Hp. exists []. apply ring_holds_prepare; simpl; lia. Qed.

Lemma vwap_slot_prepare p (st : VwapState D L) :
  0 < p -> v_capacity st <> p -> vwap_slot p st.
Proof.
  intros Hp Hc. exists []. unfold VwapPrepare. rewrite decide_False by done.
  split_and!; [done|..]; apply ring_rep_nil; simpl; rewrite ?length_replicate; done.
Qed.

Lemma pair_slot_prepare p (st : RollingPairState D L) :
  0 < p -> p_capacity st <> p -> pair_slot p st.
Proof.
  intros Hp Hc. exists []. unfold RollingPairPrepare. rewrite decide_False by done.
  split_and!; [done|..]; apply ring_rep_nil; simpl; rewrite ?length_replicate; done.
Qed.

Lemma mono_slot_init p : mono_slot (D:=D) p 0 MonoDequeState_init 0.
Proof. exists [], []. split; [apply mono_holds_init|done]. Qed.

(** New slots are in their default state. *)
Lemma grow_slot_inv n op k (c : NodeStates D L) :
  0 < op_period op ->
  length (rolling_min_deques c) = length (rolling_min_indices c) ->
  length (rolling_max_deques c) = length (rolling_max_indices c) ->
  slot_inv 0 op k c -> slot_inv 0 op k (grow_nodes n c).
Proof.
  intros Hp Hmin Hmax Hinv.
  destruct op; simpl in *; try done;
    try (intros st Hl; apply vec_grow_lookup in Hl as [Hl|[-> _]]; [by apply Hinv|]).
  - by apply ring_slot_init.
  - by apply ring_slot_init.
  - by apply ring_slot_init.
  - apply vwap_slot_prepare; [done|simpl; lia].
  - by left.
  - intros dq idx Hd Hi. apply vec_grow_lookup in Hd as [Hd|[-> Hkd]], Hi as [Hi|[-> Hki]].
    + by apply Hinv.
    + apply lookup_lt_Some in Hd. lia.
    + apply lookup_lt_Some in Hi. lia.
    + apply mono_slot_init.
  - intros dq idx Hd Hi. apply vec_grow_lookup in Hd as [Hd|[-> Hkd]], Hi as [Hi|[-> Hki]].
    + by apply Hinv.
    + apply lookup_lt_Some in Hd. lia.
    + apply lookup_lt_Some in Hi. lia.
    + apply mono_slot_init.
  - apply pair_slot_prepare; [done|simpl; lia].
  - apply pair_slot_prepare; [done|simpl; lia].
Qed.

Lemma allocated_le m n (c : NodeStates D L) : m <= n -> allocated n c -> allocated m c.
Proof. intros Hm Ha. eapply Forall_impl; [exact Ha|]. simpl. lia. Qed.

Lemma grow_allocated m n (c : NodeStates D L) :
  (m <= n \/ allocated m c) -> allocated m (grow_nodes n c).
Proof.
  intros Hm. unfold allocated, node_lengths in *. simpl. rewrite !length_vec_grow.
  destruct Hm as [Hm|Hm]; [repeat constructor; lia|].
  repeat match goal with Hm : Forall _ (_ :: _) |- _ => apply Forall_cons in Hm as [? Hm] end.
  repeat constructor; lia.
Qed.

Lemma EnsureNodeCapacity_nodes (c : Ctx) k :
  nodes (EnsureNodeCapacity c k) = grow_nodes (S k) (nodes c) /\
  params (EnsureNodeCapacity c k) = params c /\
  num_params (EnsureNodeCapacity c k) = num_params c.
Proof. unfold EnsureNodeCapacity. simpl. by destruct (0 <? gradient_param_count c). Qed.

Definition positive (Γ : gmap Z NodeOp) : Prop :=
  forall k op, Γ !! k = Some op -> (0 <= k)%Z /\ 0 < op_period op.

Lemma EnsureNodeCapacity_pre Γ c k :
  positive Γ -> pre_ok Γ c ->
  pre_ok Γ (EnsureNodeCapacity c k) /\
  (forall m, m <= S k \/ allocated m (nodes c) -> allocated m (nodes (EnsureNodeCapacity c k))).
Proof.
  intros Hpos [Hs Hmin Hmax Hp].
  destruct (EnsureNodeCapacity_nodes c k) as (En & Ep & Enp). split.
  - split; rewrite ?En.
    + intros k' op Hk. apply grow_slot_inv; [by eapply Hpos|done|done|by apply Hs].
    + simpl. rewrite !length_vec_grow. by rewrite Hmin.
    + simpl. rewrite !length_vec_grow. by rewrite Hmax.
    + unfold params_ok. by rewrite Ep, Enp.
  - intros m Hm. rewrite En. by apply grow_allocated.
Qed.

(** An update of one slot during a prewarm. *)
Lemma on_slot_pre {S} (sl : Slots (NodeStates D L) S) `{!Frame sl} Γ id (f : S -> S) c c' :
  positive Γ -> (0 <= id)%Z -> pre_ok Γ c ->
  (forall op s, Γ !! id = Some op -> slots_get sl (nodes c) !! Z.to_nat id = Some s ->
     slot_inv 0 op (Z.to_nat id)
       (slots_set sl (<[Z.to_nat id := f s]> (slots_get sl (nodes c))) (nodes c))) ->
  prewarm_slot sl id f c = Ok c' ->
  pre_ok Γ c' /\ node_lengths (nodes c') = node_lengths (nodes c) /\
  exists s, slots_get sl (nodes c) !! Z.to_nat id = Some s /\
    c' = set_nodes (slots_set sl (<[Z.to_nat id := f s]> (slots_get sl (nodes c))) (nodes c)) c.
Proof.
  intros Hpos Hid [Hs Hmin Hmax Hp] Hown Hw. unfold prewarm_slot in Hw.
  destruct (slots_get sl (nodes c) !! Z.to_nat id) as [s|] eqn:Hl.
  - rewrite (with_node_eq sl id _ c s Hid Hl) in Hw. simpl in Hw. injection Hw as <-.
    pose proof (frame_lengths (nodes c) (Z.to_nat id) (f s)) as Hlen.
    split_and!; [|exact Hlen|by exists s]. simpl in *. unfold node_lengths in Hlen.
    injection Hlen as E1 E2 E3 E4 E5 E6 E7 E8 E9 E10 E11 E12 E13 E14.
    split; [|simpl; congruence|simpl; congruence|exact Hp].
    intros k op Hk. simpl. destruct (decide (k = id)) as [->|Hne]; [by apply Hown|].
    apply frame_slot; [|by apply Hs].
    destruct (Hpos _ _ Hk). lia.
  - unfold with_node, at_Z, at_idx in Hw. destruct (Z.ltb_spec id 0); [lia|].
    by rewrite Hl in Hw.
Qed.

Lemma prewarm_ring_slot p st : 0 < p -> ring_slot (D:=D) (L:=L) p st -> ring_slot p (prewarm_ring p st).
Proof.
  intros Hp Hst. unfold prewarm_ring. destruct (decide (capacity st = p)); [done|].
  exists []. unfold RingStatsPrepare. rewrite decide_True by done. split; [done|].
  apply ring_rep_nil; simpl; rewrite ?length_replicate; done.
Qed.

Lemma prepare_idem_vwap p (st : VwapState D L) : VwapPrepare p (VwapPrepare p st) = VwapPrepare p st.
Proof.
  unfold VwapPrepare at 1. rewrite decide_True; [done|].
  unfold VwapPrepare. by destruct (decide (v_capacity st = p)).
Qed.

Lemma prepare_idem_pair p (st : RollingPairState D L) :
  RollingPairPrepare p (RollingPairPrepare p st) = RollingPairPrepare p st.
Proof.
  unfold RollingPairPrepare at 1. rewrite decide_True; [done|].
  unfold RollingPairPrepare. by destruct (decide (p_capacity st = p)).
Qed.

Lemma lag_slot_prepare p (st : LagState D) : 0 < p -> lag_slot p st -> lag_slot p (LagPrepare p st).
Proof.
  intros Hp [->|[xs Hr]]; right.
  - exists []. apply lag_holds_prepare; simpl; lia.
  - exists xs. unfold LagPrepare. by rewrite decide_True by apply Hr.
Qed.

Lemma mono_slot_prewarm p (dq : MonoDequeState D) idx :
  mono_slot p 0 dq idx -> idx = 0%Z /\ mono_slot p 0 (MonoInit dq p) 0.
Proof.
  intros (xs & l & Hh & Hle). destruct xs; [|simpl in Hle; lia].
  assert (idx = 0%Z) as -> by apply Hh. split; [done|]. exists [], l.
  rewrite (MonoInit_same (MonoInit dq p) p) by apply Hh. done.
Qed.

(** The period a prewarm reads is the one the call is typed with. *)
Lemma ParsePreparedPeriod_of e p rest n :
  ParsePreparedPeriod (e :: p :: rest) = Ok n -> 0 < n -> period_of p = Some n.
Proof.
  unfold ParsePreparedPeriod, period_of. destruct p; try (intros [= <-]; lia).
  destruct (to_int value) as [z|]; [|done]. destruct (period_ok value z); intros [= <-]; [done|lia].
Qed.

Lemma ParsePreparedPeriod_cast e p rest n :
  ParsePreparedPeriod (e :: p :: rest) = Ok n -> castable p = true.
Proof.
  unfold ParsePreparedPeriod, castable. destruct p; try done. by destruct (to_int value).
Qed.

Lemma ParsePairPeriod_of e1 e2 p rest n :
  OrderLaws D -> ParsePairPeriod (e1 :: e2 :: p :: rest) = Ok (Some n) -> period_of p = Some n.
Proof.
  intros HO. unfold ParsePairPeriod, period_of. destruct p; try done.
  destruct (to_int value) as [z|]; [|done].
  destruct ((0 <? z)%Z && flt _ _) eqn:Hb; intros [= <-].
  apply andb_true_iff in Hb as [Hz Hlt]. apply Z.ltb_lt in Hz.
  unfold period_ok, fgt. rewrite flt_fle in Hlt. rewrite flt_fle.
  destruct (Z.leb_spec z 0); [lia|]. simpl.
  apply andb_true_iff in Hlt as [Hlt Hnle]. apply andb_true_iff in Hlt as [Hn1 Hn2].
  rewrite Hn1, Hn2. simpl.
  destruct (fle_total (fabs (fsub value (fint z))) (flit 1 12 : D)) as [Hle|Hle].
  - by destruct (fisnan _).
  - by destruct (fisnan (flit 1 12)).
  - by rewrite Hle.
  - rewrite Hle in Hnle. done.
Qed.

(** What prewarming a call guarantees. *)
Definition warmed (Γ : gmap Z NodeOp) (id : Z) (c c' : Ctx) : Prop :=
  pre_ok Γ c' /\
  forall m, m <= S (Z.to_nat id) \/ allocated m (nodes c) -> allocated m (nodes c').

Lemma allocated_lengths m (c c' : NodeStates D L) :
  node_lengths c' = node_lengths c -> allocated m c -> allocated m c'.
Proof. unfold allocated. by intros ->. Qed.

Section one_call.
Variable Γ : gmap Z NodeOp.
Variable id : Z.
Variable c : Ctx.
Hypothesis Γ_pos : positive Γ.
Hypothesis id_pos : (0 <= id)%Z.
Hypothesis c_ok : pre_ok Γ c.
Let c1 := EnsureNodeCapacity c (Z.to_nat id).

Lemma warmed_skip c' : Ok c1 = Ok c' -> warmed Γ id c c'.
Proof. intros [= <-]. by apply EnsureNodeCapacity_pre. Qed.

Lemma warmed_slot {S} (sl : Slots (NodeStates D L) S) `{!Frame sl} (f : S -> S) c0 c' :
  warmed Γ id c c0 ->
  (forall op s, Γ !! id = Some op -> slots_get sl (nodes c0) !! Z.to_nat id = Some s ->
    slot_inv 0 op (Z.to_nat id) (nodes c0) ->
    slot_inv 0 op (Z.to_nat id)
      (slots_set sl (<[Z.to_nat id := f s]> (slots_get sl (nodes c0))) (nodes c0))) ->
  prewarm_slot sl id f c0 = Ok c' -> warmed Γ id c c'.
Proof.
  intros [Hpre Hal] Hown Hw.
  destruct (on_slot_pre sl Γ id f c0 c' Γ_pos id_pos Hpre) as (Hpre' & Hlen & _); [|done|].
  - intros op s Hop Hs. apply Hown; [done|done|]. by apply (po_slot _ _ Hpre).
  - split; [done|]. intros m Hm. eapply allocated_lengths; [exact Hlen|by apply Hal].
Qed.

(** The windowed operators over one array of rings. *)
Lemma warmed_window {S} (sl : Slots (NodeStates D L) S) `{!Frame sl} (f : S -> S)
  (op : nat -> NodeOp) (good : nat -> S -> Prop) period c' :
  (forall n k c, slot_inv 0 (op n) k c <->
     forall s, slots_get sl c !! k = Some s -> good n s) ->
  (forall s, good period s -> good period (f s)) ->
  (forall o, Γ !! id = Some o -> o = op period) ->
  prewarm_slot sl id f c1 = Ok c' -> warmed Γ id c c'.
Proof.
  intros Hinv Hf Ho Hw. eapply (warmed_slot sl f c1); [|clear Hw|exact Hw].
  - by apply warmed_skip.
  - intros o s Hid Hs. rewrite (Ho _ Hid), !Hinv, frame_get. intros Hgood s'.
    rewrite list_lookup_insert_eq by (by eapply lookup_lt_Some). intros [= <-]. by apply Hf, Hgood.
Qed.

(** The two arrays of an extremum operator. *)
Lemma warmed_extremum (dqs : Slots (NodeStates D L) (MonoDequeState D))
  (idxs : Slots (NodeStates D L) Z) `{!Frame dqs} `{!Frame idxs} op period c' :
  MonoSlots dqs idxs op -> (forall o, Γ !! id = Some o -> o = op period) ->
  rbind (prewarm_slot dqs id (fun dq => MonoInit dq period) c1)
    (fun c => prewarm_slot idxs id (fun _ => 0%Z) c) = Ok c' ->
  warmed Γ id c c'.
Proof.
  intros [Hop Hid_dq Hdq_id] Ho Hw. apply bind_Ok in Hw as (c2 & Hw1 & Hw2).
  assert (Hc2 : warmed Γ id c c2).
  { eapply (warmed_slot dqs _ c1); [by apply warmed_skip|clear Hw1|exact Hw1].
    intros o dq Hid Hdq. rewrite (Ho _ Hid), !Hop. intros Hgood dq' idx. rewrite frame_get, Hdq_id.
    rewrite list_lookup_insert_eq by (by eapply lookup_lt_Some). intros [= <-] Hidx.
    destruct (mono_slot_prewarm _ _ _ (Hgood _ _ Hdq Hidx)) as [-> ?]. done. }
  eapply (warmed_slot idxs _ c2); [exact Hc2| |exact Hw2].
  intros o idx0 Hid Hidx0. rewrite (Ho _ Hid), !Hop. intros Hgood dq idx. rewrite frame_get, Hid_dq.
  rewrite list_lookup_insert_eq by (by eapply lookup_lt_Some). intros Hdq [= <-].
  pose proof (Hgood _ _ Hdq Hidx0) as Hm.
  by destruct (mono_slot_prewarm _ _ _ Hm) as [-> _].
Qed.

(** Slots that are not constrained. *)
Lemma warmed_any {S} (sl : Slots (NodeStates D L) S) `{!Frame sl} (f : S -> S) op c' :
  (forall c : NodeStates D L, slot_inv 0 op (Z.to_nat id) c) ->
  (forall o, Γ !! id = Some o -> o = op) ->
  prewarm_slot sl id f c1 = Ok c' -> warmed Γ id c c'.
Proof.
  intros Hop Ho Hw. eapply (warmed_slot sl f c1); [by apply warmed_skip|clear Hw|exact Hw].
  intros o s Hid _ _. by rewrite (Ho _ Hid).
Qed.
End one_call.

Lemma call_op_two name e p op :
  call_op (D:=D) (L:=L) name [e; p] = Some op ->
  period_arg name [e; p] = Some p -> exists n, period_of p = Some n /\ windowed name n = Some op.
Proof.
  unfold call_op. intros Hc Hp. rewrite Hp in Hc. destruct (period_of p); [by eauto|done].
Qed.

(** A windowed call that is typed is typed with the period prewarming reads. *)
Lemma window_typed name args period n (k : nat -> NodeOp) o :
  ParsePreparedPeriod args = Ok period -> 0 < period ->
  (forall e p : Expr D, period_arg name [e; p] = Some p) ->
  (forall args, length args <> 2 -> call_op (D:=D) (L:=L) name args = None) ->
  (forall n, windowed name n = Some (k n)) ->
  call_op name args = Some o -> n = period -> o = k n.
Proof.
  intros Hparse Hpos Hp2 Hnone Hk Hc ->.
  destruct args as [|e [|p [|q rest]]]; try (rewrite Hnone in Hc; [done|simpl; lia]).
  destruct (call_op_two _ _ _ _ Hc (Hp2 e p)) as (m & Hm & Hw).
  rewrite (ParsePreparedPeriod_of _ _ _ _ Hparse Hpos) in Hm. simplify_eq.
  rewrite Hk in Hw. by simplify_eq.
Qed.

Ltac no_two := intros args'; destruct args' as [|? [|? [|? [|? ?]]]]; simpl; done || lia.

(** One windowed branch: the typed period is the one prewarming reads. *)
Ltac window_branch name k :=
  intros o Ho; match goal with
  | Hop : ?G !! ?i = call_op _ ?args, Hp : ParsePreparedPeriod ?args = Ok ?period |- _ =>
      rewrite Ho in Hop; symmetry in Hop;
      apply (window_typed name args period period k o Hp); (done || no_two)
  end.

Lemma prewarm_unwindowed_warms `{!OrderLaws D} Γ name args id c c' :
  positive Γ -> (0 <= id)%Z -> (IsStatefulOp name = true -> Γ !! id = call_op name args) ->
  pre_ok Γ c -> prewarm_unwindowed name args id (EnsureNodeCapacity c (Z.to_nat id)) = Ok c' ->
  warmed Γ id c c'.
Proof.
  intros Hpos Hid Hop Hc Hw. unfold prewarm_unwindowed in Hw.
  assert (Hpair : forall nm sl k `{!Frame sl}, name = nm ->
    (forall n, windowed nm n = Some (k n)) ->
    (forall a b p : Expr D, period_arg nm [a; b; p] = Some p) ->
    (forall args, length args <> 3 -> call_op (D:=D) (L:=L) nm args = None) ->
    IsStatefulOp nm = true ->
    (forall n j c, slot_inv 0 (k n) j c <->
       forall s, slots_get sl c !! j = Some s -> pair_slot n s) ->
    rbind (ParsePairPeriod args) (fun p => match p with
      | Some p => prewarm_slot sl id (RollingPairPrepare p) (EnsureNodeCapacity c (Z.to_nat id))
      | None => Ok (EnsureNodeCapacity c (Z.to_nat id)) end) = Ok c' -> warmed Γ id c c').
  { intros nm sl k Hf -> Hwin Hp3 Hnone Hst Hinv Hb. specialize (Hop Hst).
    apply bind_Ok in Hb as ([p|] & Hpp & Hb); [|by apply (warmed_skip Γ id c Hpos Hc)].
    apply (warmed_window Γ id c Hpos Hid Hc sl (RollingPairPrepare p) k pair_slot p c' Hinv);
      [|clear Hb|exact Hb].
    - intros s. unfold pair_slot. by rewrite prepare_idem_pair.
    - intros o Ho. rewrite Ho in Hop.
      destruct args as [|a [|b [|q [|]]]]; try (rewrite Hnone in Hop; [done|simpl; lia]).
      apply ParsePairPeriod_of in Hpp; [|done]. unfold call_op in Hop.
      rewrite Hp3, Hpp, Hwin in Hop. by simplify_eq. }
  destruct (String.eqb_spec name "rolling_corr") as [->|].
  { destruct (Nat.leb_spec 3 (length args)); simpl in Hw.
    - by eapply (Hpair "rolling_corr" rolling_corr_slots NCorr); [apply _| | | |no_two| | |exact Hw].
    - by apply (warmed_skip Γ id c Hpos Hc). }
  destruct (String.eqb_spec name "rolling_beta") as [->|].
  { destruct (Nat.leb_spec 3 (length args)); simpl in Hw.
    - by eapply (Hpair "rolling_beta" rolling_beta_slots NBeta); [apply _| | | |no_two| | |exact Hw].
    - by apply (warmed_skip Γ id c Hpos Hc). }
  simpl in Hw. destruct (String.eqb_spec name "kalman1d") as [->|].
  { specialize (Hop eq_refl).
    apply (warmed_any Γ id c Hpos Hid Hc kalman1d_slots _ NKalman) in Hw; [done|done|].
    intros o Ho. rewrite Ho in Hop. unfold call_op in Hop.
    destruct args as [|? [|? [|? [|]]]]; simpl in Hop; by simplify_eq. }
  destruct ((name =? "cross_above")%string || (name =? "cross_below")%string) eqn:Hx;
    [|by apply (warmed_skip Γ id c Hpos Hc)].
  assert (Hop' : IsStatefulOp name = true /\ forall o, call_op name args = Some o -> o = NCross).
  { apply orb_true_iff in Hx as [->%String.eqb_eq| ->%String.eqb_eq];
      (split; [done|intros o Ho; unfold call_op in Ho;
       destruct args as [|? [|? [|? [|]]]]; simpl in Ho; by simplify_eq]). }
  apply (warmed_any Γ id c Hpos Hid Hc cross_slots _ NCross) in Hw; [done|done|].
  intros o Ho. apply Hop'. rewrite <- Hop; [done|apply Hop'].
Qed.

Lemma prewarm_call_warms `{!OrderLaws D} Γ name args id c c' :
  positive Γ -> (0 <= id)%Z -> (IsStatefulOp name = true -> Γ !! id = call_op name args) ->
  pre_ok Γ c -> prewarm_call name args id c = Ok c' -> warmed Γ id c c'.
Proof.
  intros Hpos Hid Hop Hc Hw. unfold prewarm_call in Hw.
  apply bind_Ok in Hw as (period & Hparse & Hw). cbv zeta in Hw.
  destruct (Nat.ltb_spec 0 period) as [Hper|Hper];
    rewrite ?andb_true_r, ?andb_false_r in Hw; [|by eapply prewarm_unwindowed_warms].
  repeat match type of Hw with
    | (if (?nm =? ?lit)%string then _ else _) = _ =>
        is_var nm; destruct (String.eqb_spec nm lit) as [->|];
        [specialize (Hop eq_refl)|]
    end; [..|by eapply prewarm_unwindowed_warms].
  - eapply (warmed_any Γ id c Hpos Hid Hc ema_slots _ NEma); [done| |exact Hw].
    window_branch "ema" (fun _ : nat => NEma).
  - eapply (warmed_window Γ id c Hpos Hid Hc sma_slots _ NSma ring_slot);
      [done|intros s; by apply prewarm_ring_slot|clear Hw|exact Hw]. window_branch "sma" NSma.
  - eapply (warmed_window Γ id c Hpos Hid Hc rolling_std_slots _ NStd ring_slot);
      [done|intros s; by apply prewarm_ring_slot|clear Hw|exact Hw]. window_branch "rolling_std" NStd.
  - eapply (warmed_window Γ id c Hpos Hid Hc zscore_slots _ NZscore ring_slot);
      [done|intros s; by apply prewarm_ring_slot|clear Hw|exact Hw]. window_branch "zscore" NZscore.
  - eapply (warmed_window Γ id c Hpos Hid Hc vwap_slots _ NVwap vwap_slot);
      [done| |clear Hw|exact Hw]; [|window_branch "vwap" NVwap].
    intros s. unfold vwap_slot. by rewrite prepare_idem_vwap.
  - eapply (warmed_window Γ id c Hpos Hid Hc lag_slots _ NLag lag_slot);
      [done|intros s; by apply lag_slot_prepare|clear Hw|exact Hw]. window_branch "lag" NLag.
  - eapply (warmed_extremum Γ id c Hpos Hid Hc
      rolling_min_deques_slots rolling_min_indices_slots NMin); [apply min_slots|clear Hw|exact Hw].
    window_branch "rolling_min" NMin.
  - eapply (warmed_extremum Γ id c Hpos Hid Hc
      rolling_max_deques_slots rolling_max_indices_slots NMax); [apply max_slots|clear Hw|exact Hw].
    window_branch "rolling_max" NMax.
Qed.

Lemma ParsePairPeriod_cast (e1 e2 p : Expr D) rest r :
  ParsePairPeriod (e1 :: e2 :: p :: rest) = Ok r -> castable p = true.
Proof. unfold ParsePairPeriod, castable. destruct p; try done. by destruct (to_int value). Qed.

Lemma prewarm_call_cast name args id (c c' : Ctx) p :
  prewarm_call name args id c = Ok c' -> period_arg name args = Some p -> castable p = true.
Proof.
  intros Hw Hp. unfold prewarm_call in Hw. apply bind_Ok in Hw as (period & Hparse & Hw).
  destruct args as [|a [|b [|q [|]]]]; try done.
  - apply ParsePreparedPeriod_cast in Hparse. unfold period_arg in Hp.
    by destruct (_ || _) in Hp; simplify_eq.
  - unfold period_arg in Hp.
    assert (E : name = "rolling_corr" \/ name = "rolling_beta").
    { destruct (String.eqb_spec name "rolling_corr"); [by left|].
      destruct (String.eqb_spec name "rolling_beta"); [by right|done]. }
    assert (p = q) as -> by (destruct (_ || _) in Hp; by simplify_eq).
    assert (Hb : exists r, ParsePairPeriod [a; b; q] = Ok r).
    { destruct E as [->| ->]; simpl in Hw; apply bind_Ok in Hw as (r & Hr & _); by exists r. }
    destruct Hb as [r Hr]. by eapply ParsePairPeriod_cast.
Qed.

Definition typed_occs (Γ : gmap Z NodeOp) (os : list (Occ (D:=D))) : Prop :=
  forall o, o ∈ os -> Γ !! occ_id o = op_of (occ_call o) /\ (0 <= occ_id o)%Z.

(** What prewarming an expression guarantees. *)
Definition tree_warmed (Γ : gmap Z NodeOp) (e : Expr D) (u : bool) (c c' : Ctx) : Prop :=
  pre_ok Γ c' /\ (forall m, allocated m (nodes c) -> allocated m (nodes c')) /\ casts_ok e /\
  forall o, o ∈ occs e u -> allocated (S (Z.to_nat (occ_id o))) (nodes c').

Lemma typed_occs_app Γ os1 os2 : typed_occs Γ (os1 ++ os2) <-> typed_occs Γ os1 /\ typed_occs Γ os2.
Proof.
  unfold typed_occs. split.
  - intros Ho. split; intros o Hin; apply Ho, elem_of_app; auto.
  - intros [H1 H2] o [|]%elem_of_app; auto.
Qed.

Lemma prewarm_args_warms Γ u args :
  Forall (fun a => forall u c c', typed_occs Γ (occs a u) -> pre_ok Γ c ->
    prewarm_walk a c = Ok c' -> tree_warmed Γ a u c c') args ->
  forall c c', typed_occs Γ (concat (map (fun a => occs a u) args)) -> pre_ok Γ c ->
    (fix walk_args (l : list (Expr D)) (c : Ctx) : Res Ctx :=
       match l with
       | [] => Ok c
       | a :: l' => c <- prewarm_walk a c;; walk_args l' c
       end) args c = Ok c' ->
    pre_ok Γ c' /\ (forall m, allocated m (nodes c) -> allocated m (nodes c')) /\
    Forall casts_ok args /\
    forall o, o ∈ concat (map (fun a => occs a u) args) ->
      allocated (S (Z.to_nat (occ_id o))) (nodes c').
Proof.
  induction 1 as [|a args Ha HF IH]; intros c c' Ho Hc Hw.
  - simplify_eq. split_and!; [done|done|constructor|]. intros o Hin. by apply not_elem_of_nil in Hin.
  - simpl in Ho. apply typed_occs_app in Ho as [Hoa Ho]. apply bind_Ok in Hw as (c1 & Hw1 & Hw).
    destruct (Ha u _ _ Hoa Hc Hw1) as (Hc1 & Hal1 & Hcast1 & Ho1).
    destruct (IH _ _ Ho Hc1 Hw) as (Hc2 & Hal2 & Hcast2 & Ho2).
    split_and!; [done|by auto|by constructor|].
    intros o [Hin|Hin]%elem_of_app; auto.
Qed.

Lemma prewarm_walk_warms `{!OrderLaws D} Γ e :
  positive Γ -> forall u c c', typed_occs Γ (occs e u) -> pre_ok Γ c ->
  prewarm_walk e c = Ok c' -> tree_warmed Γ e u c c'.
Proof.
  intros Hpos. induction e using Expr_rect'; intros u c c' Ho Hc Hw; simpl in *.
  1,2,3: simplify_eq; split_and!; try done; intros o Hin; by apply not_elem_of_nil in Hin.
  - by apply (IHe u).
  - apply typed_occs_app in Ho as [Hol Hor]. apply bind_Ok in Hw as (c1 & Hw1 & Hw).
    destruct (IHe1 u _ _ Hol Hc Hw1) as (Hc1 & Hal1 & Hcast1 & Ho1).
    destruct (IHe2 u _ _ Hor Hc1 Hw) as (Hc2 & Hal2 & Hcast2 & Ho2).
    split_and!; [done|by auto|done|]. simpl. intros o [Hin|Hin]%elem_of_app; auto.
  - apply typed_occs_app in Ho as [Hself Hargs]. apply bind_Ok in Hw as (c1 & Hw1 & Hw).
    assert (H1 : pre_ok Γ c1 /\
      (forall m, ((0 <= i)%Z /\ m <= S (Z.to_nat i)) \/ allocated m (nodes c) ->
         allocated m (nodes c1)) /\
      ((0 <= i)%Z -> forall p, period_arg n args = Some p -> castable p = true)).
    { destruct (Z.leb_spec 0 i) as [Hi|Hi].
      - destruct (prewarm_call_warms Γ n args i c c1 Hpos Hi) as [Hc1 Hal1]; [|done|done|].
        + intros Hst. rewrite Hst in Hself.
          by destruct (Hself (i, FunctionCall loc n args i s, u) ltac:(left)).
        + split_and!; [done| |]; [intros m [[_ Hm]|Hm]; apply Hal1; auto|].
          intros _ p. by eapply prewarm_call_cast.
      - simplify_eq. split_and!; [done| |lia]. intros m [[? _]|?]; [lia|done]. }
    destruct H1 as (Hc1 & Hal1 & Hcast1).
    destruct (prewarm_args_warms Γ u args H0 _ _ Hargs Hc1 Hw) as (Hc2 & Hal2 & Hcast2 & Ho2).
    split_and!; [done|by auto| |].
    + simpl. split; [done|]. by apply foldr_and.
    + simpl. intros o [Hin|Hin]%elem_of_app; [|by auto].
      destruct (Hself _ Hin) as [_ Hnn]. apply Hal2, Hal1. left.
      destruct (IsStatefulOp n); [|by apply not_elem_of_nil in Hin].
      apply list_elem_of_singleton in Hin as ->. split; [exact Hnn|done].
  - apply typed_occs_app in Ho as [Hoc Ho]. apply typed_occs_app in Ho as [Hot Hof].
    apply bind_Ok in Hw as (c1 & Hw1 & Hw). apply bind_Ok in Hw as (c2 & Hw2 & Hw).
    destruct (IHe1 u _ _ Hoc Hc Hw1) as (Hc1 & Hal1 & Hcast1 & Ho1).
    destruct (IHe2 false _ _ Hot Hc1 Hw2) as (Hc2 & Hal2 & Hcast2 & Ho2).
    destruct (IHe3 false _ _ Hof Hc2 Hw) as (Hc3 & Hal3 & Hcast3 & Ho3).
    split_and!; [done|by auto|done|]. simpl.
    intros o [Hin|[Hin|Hin]%elem_of_app]%elem_of_app; auto.
Qed.
End prewarm.

(** ** The whole pipeline *)

Section pipeline.
Context {D L : Type} `{Machine D L} `{EqDecision D} `{!OrderLaws D}.

Lemma walk_syms (e : Expr D) :
  forall u st e' st', syms_ok e -> walk e u st = (e', st') -> syms_ok e'.
Proof.
  induction e using Expr_rect'; intros u st e' st' Hs Hw; simpl in *;
    try (by simplify_eq).
  - destruct_walk. simplify_eq. simpl. eapply IHe; eassumption.
  - destruct Hs. repeat destruct_walk. simplify_eq. simpl. split; [eapply IHe1|eapply IHe2]; eassumption.
  - destruct Hs as [Hsym Hs]. rewrite foldr_and in Hs.
    assert (Hargs : forall st args' st',
      (fix walk_args (l : list (Expr D)) (st : AllocState) :=
       match l with
       | [] => ([], st)
       | a :: l' =>
           let '(a, st) := walk a u st in
           let '(l', st) := walk_args l' st in
           (a :: l', st)
       end) args st = (args', st') -> Forall syms_ok args').
    { clear Hw Hsym. induction H0 as [|a args Ha HF IH]; intros st1 args' st1' Hw; [by simplify_eq|].
      apply Forall_cons in Hs as [Hsa Hs]. repeat destruct_walk. simplify_eq.
      constructor; [by eapply Ha|by eapply IH]. }
    repeat destruct_walk. simplify_eq. simpl. split; [done|]. apply foldr_and. by eapply Hargs.
  - destruct Hs as (? & ? & ?). repeat destruct_walk. simplify_eq.
    split_and!; [eapply IHe1|eapply IHe2|eapply IHe3]; eassumption.
Qed.

(** A context on which nothing has run. *)
Definition new_ctx (c : SignalContext D L) : Prop := nodes c = NodeStates_init /\ params_ok c.

Lemma typing_positive base next os :
  (0 <= base)%Z -> numbering base next os -> positive (typing_of (L:=L) os).
Proof.
  intros Hb Hn k op Hl. destruct (typing_of_elem _ _ _ Hl) as (o & Ho & <- & Hop).
  pose proof (nu_range _ _ _ Hn) as Hr. rewrite Forall_forall in Hr.
  specialize (Hr _ Ho). simpl in Hr. split; [lia|].
  unfold op_of in Hop. destruct (occ_call o); try done. unfold call_op in Hop.
  destruct (period_arg name args) as [p|] eqn:Hp.
  - destruct (period_of p) as [n|] eqn:Hpn; [|done].
    assert (0 < n).
    { unfold period_of in Hpn. destruct p; try done. destruct (to_int value) as [z|]; [|done].
      unfold period_ok in Hpn. destruct (Z.leb_spec z 0); simpl in Hpn; [done|].
      destruct (negb _); simplify_eq. lia. }
    unfold windowed in Hop. repeat case_match; simplify_eq; simpl; lia.
  - repeat case_match; simplify_eq; simpl; lia.
Qed.

(** The state a signal is evaluated in after the three passes. *)
Lemma pipeline_ready signal s1 n symbols s2 c0 c :
  unnumbered (sig_body signal) -> syms_ok (sig_body signal) -> table_ok symbols -> new_ctx c0 ->
  AllocateNodeIds signal = (s1, n) -> BindSymbolIds s1 symbols = Ok s2 ->
  PrewarmSignalContext c0 s2 = Ok c ->
  exists Γ, numbered (L:=L) Γ (sig_body s2) /\ ctx_ok Γ 0 c.
Proof.
  intros Hun Hsyms Ht [Hn0 Hp0] Ha Hb Hw. unfold AllocateNodeIds in Ha. destruct_walk. simplify_eq.
  destruct (walk_numbering 1 _ true _ _ ltac:(lia) Hun Heqp) as (_ & _ & Hnum).
  unfold BindSymbolIds in Hb. inv_res.
  match goal with Hb : bind_walk _ _ = Ok ?b |- _ =>
    destruct (bind_walk_spec symbols _ b Ht (walk_syms _ _ _ _ _ Hsyms Heqp) Hb)
      as (Hs2 & _ & Hocc) end.
  specialize (Hocc true). simpl in *. rename x into body.
  assert (Hnum2 : numbering 1 (alloc_next a) (occs body true)).
  { by eapply (numbering_same_occ _ _ _ _ Hocc). }
  set (Γ := typing_of (L:=L) (occs body true)).
  assert (Hpos : positive Γ) by (eapply typing_positive; [|exact Hnum2]; lia).
  assert (Hty : typed_occs (L:=L) Γ (occs body true)).
  { intros o Ho. split; [by eapply typing_of_lookup|].
    pose proof (nu_range _ _ _ Hnum2) as Hr. rewrite Forall_forall in Hr.
    specialize (Hr _ Ho). simpl in Hr. lia. }
  assert (Hpre : pre_ok Γ c0).
  { split; [|by rewrite Hn0|by rewrite Hn0|done]. intros k op _. rewrite Hn0.
    destruct op; simpl; try done; intros; by rewrite lookup_nil in *. }
  destruct (prewarm_walk_warms Γ body Hpos true c0 c Hty Hpre Hw) as (Hc & _ & Hcast & Hal).
  exists Γ. split.
  - eapply (numbered_of_occs Γ body true); [|  |done|done]; intros o Ho; by apply Hty.
  - split; [|by apply (po_params _ _ Hc)]. split.
    + intros k op Hk. by destruct (Hpos _ _ Hk).
    + intros k op Hk. destruct (typing_of_elem _ _ _ Hk) as (o & Ho & <- & _). by apply Hal.
    + by apply (po_slot _ _ Hc).
Qed.

(** A signal evaluated on a sequence of market states. *)
Fixpoint run_ticks (symbols : SymbolTable) (signal : SignalDef D)
  (markets : list (MarketState D)) (c : SignalContext D L) : Res (list D * SignalContext D L) :=
  match markets with
  | [] => Ok ([], c)
  | m :: rest =>
      '(v, c) <- Evaluate symbols m signal c;;
      '(vs, c) <- run_ticks symbols signal rest c;;
      Ok (v :: vs, c)
  end.

Lemma Evaluate_safe symbols m signal Γ B c :
  table_ok symbols -> length (instruments m) = kMaxInstruments ->
  numbered (L:=L) Γ (sig_body signal) -> ctx_ok Γ B c ->
  (Z.of_nat (B + calls (sig_body signal)) < 2 ^ 64)%Z ->
  safe (fun '(_, c') => ctx_ok Γ (B + calls (sig_body signal)) c') (Evaluate symbols m signal c).
Proof.
  intros Ht Hm Hn Hc HB. unfold Evaluate. eapply safe_bind.
  - by apply (Visit_safe symbols m Ht Hm Γ _ Hn (MkEval c ∅) B).
  - intros [v s] [_ Hs]. exact Hs.
Qed.

Lemma run_ticks_safe symbols signal Γ markets :
  table_ok symbols -> numbered (L:=L) Γ (sig_body signal) ->
  forall B c, Forall (fun m => length (instruments m) = kMaxInstruments) markets ->
  (Z.of_nat (B + length markets * calls (sig_body signal)) < 2 ^ 64)%Z -> ctx_ok Γ B c ->
  safe (fun _ => True) (run_ticks symbols signal markets c).
Proof.
  intros Ht Hn. induction markets as [|m rest IH]; intros B c HF HB Hc; [done|].
  apply Forall_cons in HF as [Hm HF]. simpl in *.
  eapply safe_bind; [apply (Evaluate_safe symbols m signal Γ B); (done || lia)|].
  intros [v c'] Hc'. eapply safe_bind; [apply (IH (B + calls (sig_body signal)) c' HF); [lia|exact Hc']|].
  intros [vs c''] _. done.
Qed.

(** C1: memory safety of the pipeline.  Take a signal as the front end
    leaves it (no call numbered or bound), number its stateful calls, bind
    its tickers in a well-formed symbol table, prewarm a new context; then
    evaluating it on any sequence of market states of fewer than 2^64
    pushes never indexes an array of the context or of the market out of
    range and never casts an unrepresentable period to [int]: every tick
    gives a value or a [std::runtime_error]. *)
Theorem pipeline_safe signal s1 n symbols s2 c0 c markets :
  unnumbered (sig_body signal) -> syms_ok (sig_body signal) ->
  table_ok symbols -> new_ctx c0 ->
  AllocateNodeIds signal = (s1, n) -> BindSymbolIds s1 symbols = Ok s2 ->
  PrewarmSignalContext c0 s2 = Ok c ->
  Forall (fun m => length (instruments m) = kMaxInstruments) markets ->
  (Z.of_nat (length markets * calls (sig_body s2)) < 2 ^ 64)%Z ->
  safe (fun _ => True) (run_ticks symbols s2 markets c).
Proof.
  intros Hun Hs Ht Hc0 Ha Hb Hw HF HB.
  destruct (pipeline_ready _ _ _ _ _ _ _ Hun Hs Ht Hc0 Ha Hb Hw) as (Γ & Hn & Hc).
  by eapply (run_ticks_safe symbols s2 Γ markets Ht Hn 0).
Qed.
End pipeline.

(** ** Concrete instances *)

Module Example.
(** [sma(mid(AAPL), 2) + rolling_min(bid(AAPL), 3)] *)
Definition call (name : string) (args : list (Expr double)) : Expr double :=
  FunctionCall noloc name args (-1) (-1).
Definition period (z : Z) : Expr double := NumberLiteral noloc (fint z).
Definition signal : SignalDef double :=
  MkSignal "s" (BinaryOp noloc Add
    (call "sma" [call "mid" [IdentifierExpr noloc "AAPL"]; period 2])
    (call "rolling_min" [call "bid" [IdentifierExpr noloc "AAPL"]; period 3])).
Definition table : SymbolTable :=
  MkSymbolTable (<["AAPL" := 0]> ∅) 1.
Definition market (b a : Z) : MarketState double :=
  MkMarket (MkInstrument (fint b) (fint a) (fint 0) (fint 0) 0
    :: replicate 1023 InstrumentState_init) 0.
Definition numbered_signal : SignalDef double := fst (AllocateNodeIds signal).
Definition bound_signal : SignalDef double :=
  match BindSymbolIds numbered_signal table with Ok s => s | Err _ => signal end.
#[local] Instance M : Machine double long_double := ieee (fun x => x).
Definition context : SignalContext double long_double :=
  match PrewarmSignalContext SignalContext_init bound_signal with
  | Ok c => c | Err _ => SignalContext_init end.
End Example.

Lemma table_ok_example : table_ok Example.table.
Proof.
  split; simpl.
  - intros s i Hl. apply lookup_insert_Some in Hl as [[_ <-]|[_ Hl]]; [lia|].
    by rewrite lookup_empty in Hl.
  - intros s1 s2 i H1 H2. apply lookup_insert_Some in H1 as [[<- _]|[_ H1]];
      [|by rewrite lookup_empty in H1].
    apply lookup_insert_Some in H2 as [[<- _]|[_ H2]]; [done|by rewrite lookup_empty in H2].
  - intros i Hi. exists "AAPL". replace i with 0 by lia. done.
  - unfold kMaxInstruments. lia.
Qed.

Lemma pipeline_safe_witness :
  AllocateNodeIds Example.signal = (Example.numbered_signal, 2%Z) /\
  safe (fun _ => True) (run_ticks (H:=Example.M) Example.table Example.bound_signal
      [Example.market 1 3; Example.market 2 4; Example.market 5 7] Example.context).
Proof.
  split; [vm_compute; reflexivity|].
  apply (pipeline_safe (H:=Example.M) Example.signal Example.numbered_signal 2
           Example.table Example.bound_signal SignalContext_init).
  - repeat split; reflexivity.
  - repeat split; reflexivity.
  - apply table_ok_example.
  - split; [reflexivity|discriminate].
  - vm_compute; reflexivity.
  - vm_compute; reflexivity.
  - vm_compute; reflexivity.
  - repeat constructor.
  - vm_compute; reflexivity.
Defined.
