(* ===== verification/RefineFacts.v ===== *)
(** * Refinement between evaluations

    [mle m m']: whenever [m] returns, [m'] returns the same value and state.
    The builtins of the interpreter are monotone in the evaluations of their
    arguments, which is what relates the evaluation of a tree to that of a
    tree some pass has rewritten. *)

From S2P Require Import Prelude Errors Arith Ast SymbolTable Rolling Context Interpreter.

Section refine.
Context {D L : Type} `{Machine D L}.

Definition mle {A} (m m' : M (D:=D) (L:=L) A) : Prop :=
  forall s r, m s = Ok r -> m' s = Ok r.

Definition rle {A} (r r' : Res A) : Prop := forall a, r = Ok a -> r' = Ok a.

#[global] Instance mle_preorder {A} : PreOrder (@mle A).
Proof.
  split.
  - by intros m s r.
  - intros m1 m2 m3 H1 H2 s r Hr. by apply H2, H1.
Qed.

Lemma mle_bind {A B} (m m' : M A) (k k' : A -> M B) :
  mle m m' -> (forall a, mle (k a) (k' a)) ->
  mle (fun s => rbind (m s) (fun '(a, s) => k a s))
      (fun s => rbind (m' s) (fun '(a, s) => k' a s)).
Proof.
  intros Hm Hk s r Hr. apply bind_Ok in Hr as ([a s'] & Ha & Hr).
  rewrite (Hm _ _ Ha). simpl. by apply Hk.
Qed.

Lemma mle_lift {A} (r r' : Res A) : rle r r' -> mle (lift r) (lift r').
Proof.
  intros Hr s x. unfold lift. rewrite !fmap_Ok. intros (a & Ha & <-). exists a. split; [by apply Hr|done].
Qed.

Lemma mle_throw {A} msg (m : M A) : mle (throw msg) m.
Proof. by intros s r. Qed.

Lemma mle_cached id (m m' : M D) :
  mle m m' -> mle (cache_and_return id m) (cache_and_return id m').
Proof.
  intros Hm s r Hr. apply bind_Ok in Hr as ([v s'] & Hv & Hr).
  unfold cache_and_return. by rewrite (Hm _ _ Hv).
Qed.

(** What a rewriting pass may do to an argument. *)
Record arg_le (ev ev' : Expr D -> M (D:=D) (L:=L) D) (a b : Expr D) : Prop := {
  al_eval : mle (ev a) (ev' b);
  al_number : forall v, AsNumber a = Some v -> AsNumber b = Some v;
  al_ident : forall n, AsIdentifier a = Some n -> AsIdentifier b = Some n;
}.

Lemma ParsePositiveIntegerPeriod_mono p p' name :
  (forall v, AsNumber p = Some v -> AsNumber p' = Some v) ->
  rle (ParsePositiveIntegerPeriod p name) (ParsePositiveIntegerPeriod p' name).
Proof.
  intros Hp n. unfold ParsePositiveIntegerPeriod.
  destruct (AsNumber p) as [v|]; [|done]. by rewrite (Hp v eq_refl).
Qed.

Section builtins.
Variables ev ev' : Expr D -> M (D:=D) (L:=L) D.
Variable symbols_ : SymbolTable.
Variable market : MarketState D.

Notation args_le := (Forall2 (arg_le ev ev')).

Lemma ResolveSymbolSlot_mono args args' id name :
  args_le args args' ->
  rle (ResolveSymbolSlot symbols_ args id name) (ResolveSymbolSlot symbols_ args' id name).
Proof.
  intros HF. unfold ResolveSymbolSlot. intros z. destruct (0 <=? id)%Z; [done|].
  rewrite (Forall2_length _ _ _ HF). destruct (_ && _); [done|].
  destruct HF as [|a b args args' Hab HF]; [done|]. destruct a; try done.
  pose proof (al_ident _ _ _ _ Hab _ eq_refl) as Hb. destruct b; try done.
  by injection Hb as ->.
Qed.

Lemma EvalQuote_mono name read args args' id :
  args_le args args' ->
  mle (lift (EvalQuote symbols_ market name read args id))
      (lift (EvalQuote symbols_ market name read args' id)).
Proof.
  intros HF. apply mle_lift. intros v. unfold EvalQuote.
  rewrite (Forall2_length _ _ _ HF). intros Hv.
  apply bind_Ok in Hv as (u & Hu & Hv). apply bind_Ok in Hv as (z & Hz & Hv).
  by rewrite Hu, (ResolveSymbolSlot_mono _ _ _ _ HF _ Hz).
Qed.

(** Step through two computations of the same shape. *)
Ltac mono :=
  repeat first
    [ apply mle_throw
    | apply mle_bind; [|intros ?]
    | apply mle_lift; apply ParsePositiveIntegerPeriod_mono
    | by eapply al_eval
    | reflexivity ].

Lemma EvalWindow_mono {S} name min sl (step : nat -> D -> S -> Res (D * S)) args args' id :
  args_le args args' ->
  mle (EvalWindow ev name min sl step args id) (EvalWindow ev' name min sl step args' id).
Proof.
  intros HF. destruct HF as [|e e' ? ? He HF]; [apply mle_throw|].
  destruct HF as [|p p' ? ? Hp HF]; [apply mle_throw|].
  destruct HF; [|apply mle_throw]. unfold EvalWindow. mono. apply Hp.
Qed.

Lemma EvalEmaAlpha_mono args args' id :
  args_le args args' -> mle (EvalEmaAlpha ev args id) (EvalEmaAlpha ev' args' id).
Proof.
  intros HF. destruct HF as [|e e' ? ? He HF]; [apply mle_throw|].
  destruct HF as [|p p' ? ? Hp HF]; [apply mle_throw|].
  destruct HF; [|apply mle_throw]. unfold EvalEmaAlpha. mono.
Qed.

Lemma EvalVwap_mono args args' id sym :
  args_le args args' ->
  mle (EvalVwap symbols_ market args id sym) (EvalVwap symbols_ market args' id sym).
Proof.
  intros HF. pose proof HF as HF0. destruct HF as [|e e' ? ? He HF]; [apply mle_throw|].
  destruct HF as [|p p' ? ? Hp HF]; [apply mle_throw|].
  destruct HF; [|apply mle_throw]. unfold EvalVwap. mono; [apply Hp|].
  by apply mle_lift, ResolveSymbolSlot_mono.
Qed.

Lemma EvalRollingExtremum_mono name dqs idxs update args args' id :
  args_le args args' ->
  mle (EvalRollingExtremum ev name dqs idxs update args id)
      (EvalRollingExtremum ev' name dqs idxs update args' id).
Proof.
  intros HF. destruct HF as [|e e' ? ? He HF]; [apply mle_throw|].
  destruct HF as [|p p' ? ? Hp HF]; [apply mle_throw|].
  destruct HF; [|apply mle_throw]. unfold EvalRollingExtremum. mono. apply Hp.
Qed.

Lemma EvalCross_mono name before now args args' id :
  args_le args args' ->
  mle (EvalCross ev name before now args id) (EvalCross ev' name before now args' id).
Proof.
  intros HF. destruct HF as [|e e' ? ? He HF]; [apply mle_throw|].
  destruct HF as [|p p' ? ? Hp HF]; [apply mle_throw|].
  destruct HF; [|apply mle_throw]. unfold EvalCross. mono.
Qed.

Lemma EvalPair_mono name sl read args args' id :
  args_le args args' ->
  mle (EvalPair ev name sl read args id) (EvalPair ev' name sl read args' id).
Proof.
  intros HF. destruct HF as [|e e' ? ? He HF]; [apply mle_throw|].
  destruct HF as [|y y' ? ? Hy HF]; [apply mle_throw|].
  destruct HF as [|p p' ? ? Hp HF]; [apply mle_throw|].
  destruct HF; [|apply mle_throw]. unfold EvalPair. mono. apply Hp.
Qed.

Lemma EvalKalman1d_mono args args' id :
  args_le args args' -> mle (EvalKalman1d ev args id) (EvalKalman1d ev' args' id).
Proof.
  intros HF. destruct HF as [|e e' ? ? He HF]; [apply mle_throw|].
  destruct HF as [|y y' ? ? Hy HF]; [apply mle_throw|].
  destruct HF as [|p p' ? ? Hp HF]; [apply mle_throw|].
  destruct HF; [|apply mle_throw]. unfold EvalKalman1d. mono.
Qed.

Lemma EvalMath_mono name f args args' :
  args_le args args' -> mle (EvalMath ev name f args) (EvalMath ev' name f args').
Proof.
  intros HF. destruct HF as [|e e' ? ? He HF]; [apply mle_throw|].
  destruct HF; [|apply mle_throw]. unfold EvalMath. mono.
Qed.

#[local] Hint Resolve EvalQuote_mono EvalWindow_mono EvalEmaAlpha_mono EvalVwap_mono
  EvalRollingExtremum_mono EvalCross_mono EvalPair_mono EvalKalman1d_mono EvalMath_mono
  mle_cached mle_throw : mono.

Lemma dispatch_mono name args args' id sym :
  args_le args args' ->
  mle (dispatch symbols_ market ev name args id sym)
      (dispatch symbols_ market ev' name args' id sym).
Proof.
  intros HF. unfold dispatch, EvalEma, EvalSma, EvalRollingStd, EvalZscore, EvalLag,
    EvalRollingMin, EvalRollingMax. cbv zeta.
  repeat match goal with
  | |- mle (if ?b then _ else _) _ => destruct b; [by auto with mono|]
  end. apply mle_throw.
Qed.
End builtins.
End refine.
