(* ===== verification/FoldFacts.v ===== *)
(** * Constant folding preserves meaning

    What src/src/constant_fold.cpp promises ("folding changes only WHEN the
    result is computed, not WHAT"), and the case in which it does not. *)

From S2P Require Import Prelude Errors Arith Ast Lexer TypeCheck ConstFold Parser SymbolTable Rolling Context Interpreter RefineFacts.

Section shape.
Context {D : Type} `{Fp D}.

Lemma FoldConstants_number (e : Expr D) v : AsNumber e = Some v -> AsNumber (FoldConstants e) = Some v.
Proof. by destruct e. Qed.

Lemma FoldConstants_ident (e : Expr D) n :
  AsIdentifier e = Some n -> AsIdentifier (FoldConstants e) = Some n.
Proof. by destruct e. Qed.

Lemma AsNumber_set_loc loc (e : Expr D) : AsNumber (set_loc loc e) = AsNumber e.
Proof. by destruct e. Qed.

Lemma AsNumber_Some (e : Expr D) v : AsNumber e = Some v -> exists loc, e = NumberLiteral loc v.
Proof. destruct e; try done. intros [= ->]. eauto. Qed.

Lemma set_loc_twice loc loc' (e : Expr D) : set_loc loc (set_loc loc' e) = set_loc loc e.
Proof. by destruct e. Qed.

Lemma FoldConstants_set_loc loc (e : Expr D) :
  FoldConstants (set_loc loc e) = set_loc loc (FoldConstants e).
Proof.
  destruct e; simpl; try done.
  - by destruct (AsNumber (FoldConstants e)).
  - by destruct (AsNumber (FoldConstants e1)), (AsNumber (FoldConstants e2)).
  - destruct (AsNumber (FoldConstants e1)); [|done].
    destruct (fne d (fint 0)); by rewrite set_loc_twice.
Qed.

(** one pass folds everything: folding a folded tree changes nothing. *)
Theorem FoldConstants_idempotent (e : Expr D) :
  FoldConstants (FoldConstants e) = FoldConstants e.
Proof.
  induction e using Expr_rect'; simpl; try done.
  - destruct (AsNumber (FoldConstants e)) eqn:E; simpl; [done|]. by rewrite IHe, E.
  - destruct (AsNumber (FoldConstants e1)) eqn:E1, (AsNumber (FoldConstants e2)) eqn:E2;
      simpl; rewrite ?IHe1, ?IHe2, ?E1, ?E2; done.
  - f_equal. rewrite map_map. by apply map_ext_Forall.
  - destruct (AsNumber (FoldConstants e1)) eqn:E1; simpl.
    + rewrite FoldConstants_set_loc. by destruct (fne d (fint 0)); rewrite ?IHe2, ?IHe3.
    + by rewrite IHe1, IHe2, IHe3, E1.
Qed.
End shape.

Section sound.
Context {D L : Type} `{Machine D L}.
Variable symbols_ : SymbolTable.
Variable market : MarketState D.

(** The two comparisons the folder and the interpreter define differently:
    exact equality, and equality up to 1e-12. *)
Definition comparison_agrees (k : BinaryOpKind) (l r : D) : Prop :=
  match k with
  | Eq => feq l r = flt (fabs (fsub l r)) (flit 1 12)
  | NotEq => fne l r = fge (fabs (fsub l r)) (flit 1 12)
  | _ => True
  end.

(** They agree wherever the folder compares two literals. *)
Fixpoint fold_agrees (e : Expr D) : Prop :=
  match e with
  | NumberLiteral _ _ | IdentifierExpr _ _ | ParameterExpr _ _ _ => True
  | UnaryOp _ _ x => fold_agrees x
  | BinaryOp _ k l r =>
      fold_agrees l /\ fold_agrees r /\
      match AsNumber (FoldConstants l), AsNumber (FoldConstants r) with
      | Some a, Some b => comparison_agrees k a b
      | _, _ => True
      end
  | Conditional _ c t e => fold_agrees c /\ fold_agrees t /\ fold_agrees e
  | FunctionCall _ _ args _ _ => foldr and True (map fold_agrees args)
  end.

Lemma fold_binary_agrees k l r : comparison_agrees k l r -> fold_binary k l r = eval_binary k l r.
Proof. destruct k; simpl; intros E; try done; by rewrite E. Qed.

Lemma Visit_set_loc loc e : Visit symbols_ market (L:=L) (set_loc loc e) = Visit symbols_ market e.
Proof. by destruct e. Qed.

(** A tree that folds to a literal evaluates to it without touching the state. *)
Lemma folded_literal e v s r :
  mle (L:=L) (Visit symbols_ market e) (Visit symbols_ market (FoldConstants e)) ->
  AsNumber (FoldConstants e) = Some v -> Visit symbols_ market e s = Ok r -> r = (v, s).
Proof.
  intros Hle Hv Hr. apply Hle in Hr. apply AsNumber_Some in Hv as [loc Hv].
  rewrite Hv in Hr. by injection Hr as <-.
Qed.

Lemma fold_agrees_args args :
  foldr and True (map fold_agrees args) <-> Forall fold_agrees args.
Proof. induction args; simpl; [done|]. by rewrite Forall_cons, IHargs. Qed.

Lemma Visit_fold e :
  fold_agrees e -> mle (L:=L) (Visit symbols_ market e) (Visit symbols_ market (FoldConstants e)).
Proof.
  induction e using Expr_rect'; simpl; intros Ha.
  1-3: by intros s r.
  - destruct (AsNumber (FoldConstants e)) as [v|] eqn:E.
    + intros s x Hx. apply bind_Ok in Hx as ([v' s'] & Hv & Hx).
      apply (folded_literal _ v) in Hv; [|by apply IHe|done]. injection Hv as -> ->.
      injection Hx as <-. by destruct k.
    + apply mle_bind; [by apply IHe|reflexivity].
  - destruct Ha as (Hl & Hr & Hk).
    assert (Hboth : mle (L:=L) (Visit symbols_ market (BinaryOp loc k e1 e2))
      (Visit symbols_ market (BinaryOp loc k (FoldConstants e1) (FoldConstants e2)))).
    { apply mle_bind; [by apply IHe1|]. intros l. apply mle_bind; [by apply IHe2|reflexivity]. }
    destruct (AsNumber (FoldConstants e1)) as [a|] eqn:E1; [|exact Hboth].
    destruct (AsNumber (FoldConstants e2)) as [b|] eqn:E2; [|exact Hboth].
    intros s x Hx. apply bind_Ok in Hx as ([l s1] & H1 & Hx).
    apply bind_Ok in Hx as ([r s2] & H2 & Hx).
    apply (folded_literal _ a) in H1; [|by apply IHe1|done]. injection H1 as -> ->.
    apply (folded_literal _ b) in H2; [|by apply IHe2|done]. injection H2 as -> ->.
    injection Hx as <-. simpl. by rewrite fold_binary_agrees.
  - apply fold_agrees_args in Ha. intros st x.
    destruct (if (0 <? i)%Z then cache st !! i else None); [done|].
    apply dispatch_mono with (ev := Visit symbols_ market). clear x st. induction H0; simpl; [done|].
    apply Forall_cons in Ha as [Hx Ha]. constructor; [|by apply IHForall].
    split; [by apply H0|apply FoldConstants_number|apply FoldConstants_ident].
  - destruct Ha as (Hc & Ht & He). destruct (AsNumber (FoldConstants e1)) as [v|] eqn:E.
    + intros s x Hx. apply bind_Ok in Hx as ([c s'] & Hv & Hx).
      apply (folded_literal _ v) in Hv; [|by apply IHe1|done]. injection Hv as -> ->.
      rewrite Visit_set_loc. destruct (fne v (fint 0)); [by apply IHe2|by apply IHe3].
    + apply mle_bind; [by apply IHe1|]. intros c. destruct (fne c (fint 0)); auto.
Qed.

(** C38: constant folding preserves evaluation: where the literal comparisons
    it evaluates agree with the interpreter's, a signal that evaluates to a
    value and leaves a context evaluates to the same value and leaves the
    same context once folded, whatever node ids and ticker bindings its calls
    carry. *)
Theorem FoldConstants_sound signal c v c' :
  fold_agrees (sig_body signal) ->
  Evaluate symbols_ market signal c = Ok (v, c') ->
  Evaluate (L:=L) symbols_ market (FoldConstantsInPlace signal) c = Ok (v, c').
Proof.
  intros Ha Hv. apply bind_Ok in Hv as ([v' s] & Hv & Hr). unfold Evaluate.
  apply (Visit_fold _ Ha) in Hv. simpl. by rewrite Hv.
Qed.
End sound.

(** ** Where folding changes the value *)

Definition fold_machine : Machine double long_double := ieee (fun x => x).

(** The body of a signal definition, as the front end parses it. *)
Definition parsed_body (source : string) : Expr double :=
  match (tokens <- Tokenize (H:=dbl (Machine:=fold_machine)) source;; ParseSignalDef tokens) with
  | Ok s => sig_body s
  | Err _ => IdentifierExpr noloc "parse error"
  end.

Definition value_of (e : Expr double) : Res double :=
  rmap fst (Evaluate (H:=fold_machine) empty_table (MkMarket [] 0) (MkSignal "s" e)
              SignalContext_init).

(** Folding is not value-preserving on [==] and [!=]: they are folded
    exactly but evaluated with a tolerance of 1e-12, so
    [if 0.1 + 0.2 == 0.3 then 1 else 2] evaluates to 1 and, once folded (as
    the program parser does), to 2. *)
Theorem FoldConstants_equality_diverges :
  let e := parsed_body "signal s = if 0.1 + 0.2 == 0.3 then 1 else 2" in
  value_of e = Ok (fint 1) /\
  value_of (FoldConstants (H:=dbl (Machine:=fold_machine)) e) = Ok (fint 2).
Proof. vm_compute. auto. Qed.

Lemma FoldConstants_sound_witness :
  Evaluate (H:=fold_machine) empty_table (MkMarket [] 0)
    (FoldConstantsInPlace (H:=dbl (Machine:=fold_machine))
       (MkSignal "s" (parsed_body "signal s = if 1 + 1 == 2 then 3 * 4 else sma(mid(A), 2)")))
    SignalContext_init = Ok (fint 12, SignalContext_init).
Proof.
  apply (FoldConstants_sound (H:=fold_machine) empty_table (MkMarket [] 0) (MkSignal "s"
    (parsed_body "signal s = if 1 + 1 == 2 then 3 * 4 else sma(mid(A), 2)"))
    SignalContext_init (fint 12) SignalContext_init).
  - vm_compute. auto 20.
  - vm_compute. reflexivity.
Defined.
