(* ===== verification/AutodiffFacts.v ===== *)
(** * Symbolic differentiation computes the derivative

    In exact arithmetic, and away from the points where the signal's
    function is not smooth, the gradient signal of a parameter evaluates to
    the derivative of the signal's value with respect to that parameter.
    [regular] says which points those are. *)

From Stdlib Require Import Reals Lra.
From S2P Require Import Prelude Errors Arith RealArith Ast TypeCheck ConstFold SymbolTable SignalProgram Rolling Context Interpreter RefineFacts FoldFacts Calculus Autodiff.

(** ** The signal as a function of the parameter *)

Section gradient.
Variable symbols_ : SymbolTable.
Variable market : MarketState xreal.
(** A standalone context with the parameter values [ps]; the derivative is
    with respect to the parameter [p]. *)
Variable base : SignalContext xreal xreal.
Variable ps : list xreal.
Variable p : nat.
Hypothesis p_in_range : p < length ps.

(** The context in which the parameter [p] has the value [x]. *)
Definition at_param (x : R) : SignalContext xreal xreal :=
  MkCtx (owned_params base) (Some (<[p := Some x]> ps)) (length ps)
    (gradient_param_count base) (nodes base) (sens base).

(** [e] evaluates to the number [v] there, leaving the context alone, and so
    does its copy. *)
Definition value_at (x : R) (e : Expr xreal) (v : R) : Prop :=
  Visit symbols_ market e (MkEval (at_param x) ∅) = Ok (Some v, MkEval (at_param x) ∅).
Definition evaluates (x : R) (e : Expr xreal) (v : R) : Prop :=
  value_at x e v /\ value_at x (CloneExpr e) v.

Definition quote (name : string) (ins : InstrumentState xreal) : xreal :=
  if (name =? "mid")%string then mid ins
  else if (name =? "bid")%string then bid ins
  else if (name =? "ask")%string then ask ins
  else spread ins.

(** The operands of a comparison are not at its jump. *)
Definition apart (k : BinaryOpKind) (a b : R) : Prop :=
  match k with
  | Eq | NotEq => Rabs (a - b) <> (1 / 10 ^ 12)%R
  | _ => a <> b
  end.

(** [regular x0 e v]: at the parameter value [x0] the tree evaluates to [v]
    and is a smooth function of the parameter near [x0]: no division by
    zero, the arguments of [log] and [sqrt] are positive, that of [abs] is
    not zero, and no condition is at a jump.  [regular_bool] is the same for
    conditions. *)
Inductive regular (x0 : R) : Expr xreal -> R -> Prop :=
| reg_number loc v : regular x0 (NumberLiteral loc (Some v)) v
| reg_target loc n : regular x0 (ParameterExpr loc n (Z.of_nat p)) x0
| reg_parameter loc n i v :
    i <> p -> ps !! i = Some (Some v : xreal) -> regular x0 (ParameterExpr loc n (Z.of_nat i)) v
| reg_plus loc e v : regular x0 e v -> regular x0 (UnaryOp loc Plus e) v
| reg_minus loc e v : regular x0 e v -> regular x0 (UnaryOp loc Minus e) (- v)
| reg_add loc l r a b :
    regular x0 l a -> regular x0 r b -> regular x0 (BinaryOp loc Add l r) (a + b)
| reg_sub loc l r a b :
    regular x0 l a -> regular x0 r b -> regular x0 (BinaryOp loc Sub l r) (a - b)
| reg_mul loc l r a b :
    regular x0 l a -> regular x0 r b -> regular x0 (BinaryOp loc Mul l r) (a * b)
| reg_div loc l r a b :
    regular x0 l a -> regular x0 r b -> b <> 0%R -> regular x0 (BinaryOp loc Div l r) (a / b)
| reg_then loc c t e v :
    regular_bool x0 c true -> regular x0 t v ->
    regular x0 (Conditional loc c t e) v
| reg_else loc c t e v :
    regular_bool x0 c false -> regular x0 e v ->
    regular x0 (Conditional loc c t e) v
| reg_quote loc name l ticker i s id ins v :
    name ∈ ["mid"; "bid"; "ask"; "spread"] ->
    LookupId symbols_ ticker = Ok id -> ((s < 0)%Z \/ s = Z.of_nat id) ->
    instruments market !! id = Some ins -> quote name ins = Some v ->
    regular x0 (FunctionCall loc name [IdentifierExpr l ticker] i s) v
| reg_abs loc e v i s :
    regular x0 e v -> v <> 0%R -> regular x0 (FunctionCall loc "abs" [e] i s) (Rabs v)
| reg_log loc e v i s :
    regular x0 e v -> (0 < v)%R -> regular x0 (FunctionCall loc "log" [e] i s) (ln v)
| reg_sqrt loc e v i s :
    regular x0 e v -> (0 < v)%R -> regular x0 (FunctionCall loc "sqrt" [e] i s) (sqrt v)
with regular_bool (x0 : R) : Expr xreal -> bool -> Prop :=
| reg_compare loc k l r a b v :
    op_class k = Comparison -> regular x0 l a -> regular x0 r b -> apart k a b ->
    eval_binary k (Some a : xreal) (Some b) = fbool v ->
    regular_bool x0 (BinaryOp loc k l r) v
| reg_and loc l r a b :
    regular_bool x0 l a -> regular_bool x0 r b ->
    regular_bool x0 (BinaryOp loc And l r) (a && b)
| reg_or loc l r a b :
    regular_bool x0 l a -> regular_bool x0 r b ->
    regular_bool x0 (BinaryOp loc Or l r) (a || b).

Scheme regular_min := Minimality for regular Sort Prop
  with regular_bool_min := Minimality for regular_bool Sort Prop.
Combined Scheme regular_mutind from regular_min, regular_bool_min.

(** ** Evaluation, construct by construct *)

Lemma CloneExpr_twice (e : Expr xreal) : CloneExpr (CloneExpr e) = CloneExpr e.
Proof.
  induction e using Expr_rect'; simpl; try congruence.
  rewrite map_map. f_equal. by apply map_ext_Forall.
Qed.

Lemma ev_clone x e v : evaluates x e v -> evaluates x (CloneExpr e) v.
Proof. intros [_ H]. split; [done|]. by rewrite CloneExpr_twice. Qed.

Lemma ev_number x loc v : evaluates x (NumberLiteral loc (Some v)) v.
Proof. done. Qed.

Lemma ev_int x loc z : evaluates x (NumberLiteral loc (fint z)) (IZR z).
Proof. rewrite fint_xreal. apply ev_number. Qed.

Lemma ev_unary x loc k e v :
  evaluates x e v ->
  evaluates x (UnaryOp loc k e) (match k with Plus => v | Minus => - v end)%R.
Proof.
  unfold evaluates, value_at. cbn [CloneExpr Visit]. intros [-> ->]. by destruct k.
Qed.

Lemma ev_binary x loc k l r a b v :
  evaluates x l a -> evaluates x r b -> eval_binary k (Some a : xreal) (Some b) = Some v ->
  evaluates x (BinaryOp loc k l r) v.
Proof.
  unfold evaluates, value_at. cbn [CloneExpr Visit]. intros [-> ->] [Hr1 Hr2] Hv. cbn [rbind].
  rewrite Hr1, Hr2. unfold lift. cbn [rbind rmap].
  change (@dbl xreal xreal exact) with Fp_xreal. by rewrite Hv.
Qed.

Lemma ev_div x loc l r a b :
  evaluates x l a -> evaluates x r b -> b <> 0%R -> evaluates x (BinaryOp loc Div l r) (a / b).
Proof. intros Hl Hr Hb. eapply ev_binary; [done..|]. by apply fdiv_xreal. Qed.

Definition truth (b : bool) : R := if b then 1%R else 0%R.

Lemma fbool_truth b : (fbool b : xreal) = Some (truth b).
Proof. unfold fbool. by destruct b; rewrite fint_xreal. Qed.

Lemma fne_truth b : fne (Some (truth b) : xreal) (fint 0) = b.
Proof.
  unfold fne. rewrite fint_xreal, feq_xreal. destruct (Reqb_spec (truth b) 0) as [E|E];
    destruct b; simpl in *; try done; lra.
Qed.

Lemma ev_conditional x loc c t e b v :
  evaluates x c (truth b) -> evaluates x (if b then t else e) v ->
  evaluates x (Conditional loc c t e) v.
Proof.
  unfold evaluates, value_at. cbn [CloneExpr Visit]. intros [-> ->]. cbn [rbind].
  rewrite !fne_truth. by destruct b.
Qed.

Lemma ev_math x loc name f e i s v w :
  (name, f) ∈ [("abs", fabs); ("log", dlog); ("sqrt", fsqrt)] ->
  evaluates x e v -> f (Some v) = Some w -> evaluates x (FunctionCall loc name [e] i s) w.
Proof.
  intros Hin [He Hc] Hf. unfold evaluates, value_at in *.
  assert (G : forall e' i' s', value_at x e' v -> value_at x (FunctionCall loc name [e'] i' s') w).
  { intros e' i' s' He'. unfold value_at in *. cbn [Visit]. cbn [cache].
    rewrite lookup_empty. destruct (0 <? i')%Z.
    all: set_unfold in Hin; destruct Hin as [Hin|[Hin|[Hin|[]]]]; injection Hin as -> ->.
    all: unfold dispatch; cbn [String.eqb Ascii.eqb Bool.eqb]; unfold EvalMath.
    all: rewrite He'; unfold lift; cbn [rbind rmap]; do 2 f_equal; exact Hf. }
  split; apply G; done.
Qed.

Lemma ev_parameter x loc n i v :
  <[p := Some x]> ps !! i = Some (Some v : xreal) ->
  evaluates x (ParameterExpr loc n (Z.of_nat i)) v.
Proof.
  intros Hi. assert (Hlt : i < length ps).
  { rewrite <-(length_insert ps p (Some x)). by eapply lookup_lt_Some. }
  assert (G : value_at x (ParameterExpr loc n (Z.of_nat i)) v); [|by split].
  unfold value_at. cbn [Visit]. unfold EvalParameter. cbn [ctx at_param params num_params].
  destruct (Z.ltb_spec (Z.of_nat i) 0); [lia|].
  destruct (Z.leb_spec (Z.of_nat (length ps)) (Z.of_nat i)); [lia|]. cbn [orb].
  unfold at_Z. destruct (Z.ltb_spec (Z.of_nat i) 0); [lia|]. rewrite Nat2Z.id.
  unfold at_idx. by rewrite Hi.
Qed.

Lemma ev_quote x loc name l ticker i s id ins v :
  name ∈ ["mid"; "bid"; "ask"; "spread"] ->
  LookupId symbols_ ticker = Ok id -> ((s < 0)%Z \/ s = Z.of_nat id) ->
  instruments market !! id = Some ins -> quote name ins = Some v ->
  evaluates x (FunctionCall loc name [IdentifierExpr l ticker] i s) v.
Proof.
  intros Hn Hid Hs Hins Hq.
  assert (Hr : forall s' fn, (s' < 0)%Z \/ s' = Z.of_nat id ->
    ResolveSymbolSlot symbols_ [IdentifierExpr l ticker : Expr xreal] s' fn = Ok (Z.of_nat id)).
  { intros s' fn Hs'. unfold ResolveSymbolSlot.
    destruct (Z.leb_spec 0 s'); [f_equal; lia|]. simpl. by rewrite Hid. }
  assert (Hi : instrument market (Z.of_nat id) = Ok ins).
  { unfold instrument, at_Z. destruct (Z.ltb_spec (Z.of_nat id) 0); [lia|].
    rewrite Nat2Z.id. by apply at_idx_Ok. }
  assert (G : forall i' s', (s' < 0)%Z \/ s' = Z.of_nat id ->
    value_at x (FunctionCall loc name [IdentifierExpr l ticker] i' s') v).
  { intros i' s' Hs'. unfold value_at. cbn [Visit]. cbn [cache].
    rewrite lookup_empty. destruct (0 <? i')%Z.
    all: set_unfold in Hn; destruct Hn as [->|[->|[->|[->|[]]]]].
    all: unfold dispatch; cbn [String.eqb Ascii.eqb Bool.eqb]; unfold EvalQuote.
    all: cbn [length Nat.eqb ensure rbind]; rewrite Hr by done; cbn [rbind].
    all: rewrite Hi; unfold lift; cbn [rmap]; do 2 f_equal; exact Hq. }
  split; apply G; [done|left; lia].
Qed.

(** ** The main induction *)

Variable x0 : R.

Definition smooth (e : Expr xreal) (v : R) : Prop :=
  exists f d, f x0 = v /\ near x0 (fun x => evaluates x e (f x)) /\ derivable_pt_lim f x0 d /\
    forall de, Differentiate (Z.of_nat p) e = Ok de -> evaluates x0 de d.

Definition steady (e : Expr xreal) (b : bool) : Prop :=
  near x0 (fun x => evaluates x e (truth b)).

Lemma smooth_constant e v :
  (forall x, evaluates x e v) ->
  (forall de, Differentiate (Z.of_nat p) e = Ok de -> evaluates x0 de 0%R) -> smooth e v.
Proof.
  intros He Hd. exists (fun _ => v), 0%R. split_and!; [done|by apply near_always| |done].
  apply derivable_pt_lim_const.
Qed.

Lemma smooth_binary loc k l r a b (g : R -> R -> R) :
  smooth l a -> smooth r b ->
  (forall f1 f2 d1 d2, f1 x0 = a -> f2 x0 = b ->
     derivable_pt_lim f1 x0 d1 -> derivable_pt_lim f2 x0 d2 ->
     near x0 (fun x => eval_binary k (Some (f1 x) : xreal) (Some (f2 x)) = Some (g (f1 x) (f2 x))) /\
     exists d, derivable_pt_lim (fun x => g (f1 x) (f2 x)) x0 d /\
       forall dl dr, evaluates x0 l a -> evaluates x0 r b -> evaluates x0 dl d1 ->
         evaluates x0 dr d2 -> evaluates x0 (binary_gradient loc k l r dl dr) d) ->
  smooth (BinaryOp loc k l r) (g a b).
Proof.
  intros (f1 & d1 & E1 & H1 & D1 & G1) (f2 & d2 & E2 & H2 & D2 & G2) Hg.
  destruct (Hg f1 f2 d1 d2 E1 E2 D1 D2) as (Hev & d & Hd & HG).
  exists (fun x => g (f1 x) (f2 x)), d. split_and!; [by rewrite E1, E2| |done|].
  - apply near_impl with (2 := near_and _ _ _ H1 (near_and _ _ _ H2 Hev)).
    intros x (He1 & He2 & He). by eapply ev_binary.
  - cbn [Differentiate]. intros de (dl & Hl & (dr & Hr & [= <-])%bind_Ok)%bind_Ok.
    apply near_here in H1, H2. rewrite E1 in H1. rewrite E2 in H2. apply HG; auto.
Qed.

Lemma smooth_add loc l r a b :
  smooth l a -> smooth r b -> smooth (BinaryOp loc Add l r) (a + b).
Proof.
  intros Hl Hr. apply (smooth_binary loc Add l r a b Rplus); [done..|].
  intros f1 f2 d1 d2 E1 E2 D1 D2. split; [by apply near_always|].
  exists (d1 + d2)%R. split; [by apply (derivable_pt_lim_plus f1 f2)|].
  intros dl dr _ _ Hd1 Hd2. by eapply ev_binary.
Qed.

Lemma smooth_sub loc l r a b :
  smooth l a -> smooth r b -> smooth (BinaryOp loc Sub l r) (a - b).
Proof.
  intros Hl Hr. apply (smooth_binary loc Sub l r a b Rminus); [done..|].
  intros f1 f2 d1 d2 E1 E2 D1 D2. split; [by apply near_always|].
  exists (d1 - d2)%R. split; [by apply (derivable_pt_lim_minus f1 f2)|].
  intros dl dr _ _ Hd1 Hd2. by eapply ev_binary.
Qed.

Lemma smooth_mul loc l r a b :
  smooth l a -> smooth r b -> smooth (BinaryOp loc Mul l r) (a * b).
Proof.
  intros Hl Hr. apply (smooth_binary loc Mul l r a b Rmult); [done..|].
  intros f1 f2 d1 d2 E1 E2 D1 D2. split; [by apply near_always|].
  exists (d1 * b + a * d2)%R. split.
  - rewrite <-E1, <-E2. by apply (derivable_pt_lim_mult f1 f2).
  - intros dl dr Ha Hb Hd1 Hd2. eapply ev_binary; [| |done].
    + eapply ev_binary; [done|by apply ev_clone|done].
    + eapply ev_binary; [by apply ev_clone|done|done].
Qed.

Lemma smooth_div loc l r a b :
  smooth l a -> smooth r b -> b <> 0%R -> smooth (BinaryOp loc Div l r) (a / b).
Proof.
  intros Hl Hr Hb. apply (smooth_binary loc Div l r a b Rdiv); [done..|].
  intros f1 f2 d1 d2 E1 E2 D1 D2. split.
  { apply near_impl with (2 := near_nonzero x0 f2 d2 D2 ltac:(by rewrite E2)).
    intros x Hx. by apply fdiv_xreal. }
  exists ((d1 * b - a * d2) / (b * b))%R. split.
  - replace ((d1 * b - a * d2) / (b * b))%R
      with ((d1 * f2 x0 - d2 * f1 x0) / Rsqr (f2 x0))%R
      by (rewrite E1, E2; unfold Rsqr; field; done).
    apply (derivable_pt_lim_div f1 f2); [done|done|by rewrite E2].
  - intros dl dr Ha Hbv Hd1 Hd2. apply ev_div; [| |nra].
    + eapply ev_binary; [| |done].
      * eapply ev_binary; [done|by apply ev_clone|done].
      * eapply ev_binary; [by apply ev_clone|done|done].
    + eapply ev_binary; [by apply ev_clone|by apply ev_clone|done].
Qed.

(** A builtin with a smooth derivative, applied to a smooth argument. *)
Lemma smooth_math loc name f (g : R -> R) i s e v (grad : Expr xreal -> Expr xreal -> Expr xreal) :
  (name, f) ∈ [("abs", fabs); ("log", dlog); ("sqrt", fsqrt)] ->
  (forall de, Differentiate (Z.of_nat p) (FunctionCall loc name [e] i s) = Ok de ->
     exists d, Differentiate (Z.of_nat p) e = Ok d /\ de = grad e d) ->
  smooth e v ->
  (forall h d, h x0 = v -> derivable_pt_lim h x0 d ->
     near x0 (fun x => f (Some (h x)) = Some (g (h x))) /\
     exists d', derivable_pt_lim (fun x => g (h x)) x0 d' /\
       forall de, evaluates x0 e v -> evaluates x0 de d -> evaluates x0 (grad e de) d') ->
  smooth (FunctionCall loc name [e] i s) (g v).
Proof.
  intros Hin Hdiff (h & d & E & He & Hd & HG) Hg.
  destruct (Hg h d E Hd) as (Hev & d' & Hd' & Hgrad).
  exists (fun x => g (h x)), d'. split_and!; [by rewrite E| |done|].
  - apply near_impl with (2 := near_and _ _ _ He Hev). intros x [Hx Hf]. by eapply ev_math.
  - intros de (dx & Hx & ->)%Hdiff. apply near_here in He. rewrite E in He. auto.
Qed.

Lemma Differentiate_abs loc e i s de :
  Differentiate (Z.of_nat p) (FunctionCall loc "abs" [e] i s) = Ok de ->
  exists d, Differentiate (D:=xreal) (Z.of_nat p) e = Ok d /\ de = abs_gradient loc e d.
Proof. intros (d & Hd & <-)%fmap_Ok. eauto. Qed.

Lemma Differentiate_log loc e i s de :
  Differentiate (Z.of_nat p) (FunctionCall loc "log" [e] i s) = Ok de ->
  exists d, Differentiate (D:=xreal) (Z.of_nat p) e = Ok d /\ de = log_gradient loc e d.
Proof. intros (d & Hd & <-)%fmap_Ok. eauto. Qed.

Lemma Differentiate_sqrt loc e i s de :
  Differentiate (Z.of_nat p) (FunctionCall loc "sqrt" [e] i s) = Ok de ->
  exists d, Differentiate (D:=xreal) (Z.of_nat p) e = Ok d /\ de = sqrt_gradient loc e d.
Proof. intros (d & Hd & <-)%fmap_Ok. eauto. Qed.

Lemma smooth_abs loc e v i s :
  smooth e v -> v <> 0%R -> smooth (FunctionCall loc "abs" [e] i s) (Rabs v).
Proof.
  intros He Hv. eapply (smooth_math _ _ fabs Rabs _ _ _ _ (abs_gradient loc));
    [set_solver|apply Differentiate_abs|exact He|]. intros h d E Hd.
  split; [by apply near_always|].
  exists (if Rltb 0 (h x0) then d else - d)%R.
  split; [apply derivable_pt_lim_Rabs; [done|by rewrite E]|]. rewrite E. clear He.
  intros de He Hde. apply ev_conditional with (Rltb 0 v).
  { eapply ev_binary; [by apply ev_clone|apply ev_int|]. cbn [eval_binary]. unfold fgt.
    rewrite flt_xreal. apply fbool_truth. }
  destruct (Rltb_spec 0 v); [by apply ev_clone|]. apply ev_conditional with true.
  - eapply ev_binary; [by apply ev_clone|apply ev_int|]. cbn [eval_binary].
    rewrite flt_xreal. destruct (Rltb_spec v 0); [apply fbool_truth|lra].
  - by apply (ev_unary x0 loc Minus).
Qed.

Lemma smooth_log loc e v i s :
  smooth e v -> (0 < v)%R -> smooth (FunctionCall loc "log" [e] i s) (ln v).
Proof.
  intros He Hv. eapply (smooth_math _ _ dlog ln _ _ _ _ (log_gradient loc));
    [set_solver|apply Differentiate_log|exact He|]. intros h d E Hd. split.
  - apply near_impl with (2 := near_pos x0 h d Hd ltac:(by rewrite E)). intros x Hx.
    simpl. by destruct (Rltb_spec 0 (h x)).
  - exists (d / v)%R. split.
    + replace (d / v)%R with (/ h x0 * d)%R by (rewrite E; field; lra).
      apply (derivable_pt_lim_comp h ln); [done|]. apply derivable_pt_lim_ln. by rewrite E.
    + intros de Hev Hde. apply ev_div; [done|by apply ev_clone|lra].
Qed.

Lemma smooth_sqrt loc e v i s :
  smooth e v -> (0 < v)%R -> smooth (FunctionCall loc "sqrt" [e] i s) (sqrt v).
Proof.
  intros He Hv. eapply (smooth_math _ _ fsqrt sqrt _ _ _ _ (sqrt_gradient loc));
    [set_solver|apply Differentiate_sqrt|exact He|]. intros h d E Hd. split.
  - apply near_impl with (2 := near_pos x0 h d Hd ltac:(by rewrite E)). intros x Hx.
    apply fsqrt_xreal. lra.
  - assert (Hs : (0 < sqrt v)%R) by (by apply sqrt_lt_R0).
    exists (d / (2 * sqrt v))%R. split.
    + replace (d / (2 * sqrt v))%R with (/ (2 * sqrt (h x0)) * d)%R by (rewrite E; field; lra).
      apply (derivable_pt_lim_comp h sqrt); [done|]. apply derivable_pt_lim_sqrt. by rewrite E.
    + intros de Hev Hde. apply ev_div; [done| |nra].
      eapply ev_binary; [apply ev_int| |done].
      eapply ev_math; [|by apply ev_clone|apply fsqrt_xreal; lra]. set_solver.
Qed.

Lemma smooth_conditional loc c t e b v :
  steady c b -> smooth (if b then t else e) v -> smooth (Conditional loc c t e) v.
Proof.
  intros Hc (f & d & E & He & Hd & HG). exists f, d. split_and!; [done| |done|].
  - apply near_impl with (2 := near_and _ _ _ Hc He). intros x [Hcx Hx].
    by apply ev_conditional with b.
  - cbn [Differentiate]. intros de (dt & Ht & (dd & Hdd & [= <-])%bind_Ok)%bind_Ok.
    apply ev_conditional with b; [by apply ev_clone, (near_here x0 _ Hc)|].
    destruct b; by apply HG.
Qed.

Lemma steady_binary loc k l r a b (v : bool) :
  smooth l a -> smooth r b ->
  (forall f1 f2 d1 d2, f1 x0 = a -> f2 x0 = b ->
     derivable_pt_lim f1 x0 d1 -> derivable_pt_lim f2 x0 d2 ->
     near x0 (fun x => eval_binary k (Some (f1 x) : xreal) (Some (f2 x)) = fbool v)) ->
  steady (BinaryOp loc k l r) v.
Proof.
  intros (f1 & d1 & E1 & H1 & D1 & _) (f2 & d2 & E2 & H2 & D2 & _) Hg.
  apply near_impl with
    (2 := near_and _ _ _ H1 (near_and _ _ _ H2 (Hg f1 f2 d1 d2 E1 E2 D1 D2))).
  intros x (He1 & He2 & He). eapply ev_binary; [done|done|]. by rewrite He, fbool_truth.
Qed.

Lemma steady_compare loc k l r a b v :
  op_class k = Comparison -> smooth l a -> smooth r b -> apart k a b ->
  eval_binary k (Some a : xreal) (Some b) = fbool v -> steady (BinaryOp loc k l r) v.
Proof.
  intros Hk Hl Hr Hab Hv. apply (steady_binary loc k l r a b v Hl Hr).
  intros f1 f2 d1 d2 E1 E2 D1 D2. rewrite <-Hv.
  pose proof (derivable_pt_lim_minus f1 f2 x0 d1 d2 D1 D2) as D. fold (f1 - f2)%F in D.
  assert (Hord : a <> b -> near x0 (fun x =>
    (f1 x < f2 x /\ a < b)%R \/ (f2 x < f1 x /\ b < a)%R)).
  { intros Hne. assert (Hn : (f1 - f2)%F x0 <> 0%R) by (unfold minus_fct; lra).
    destruct (Rdichotomy _ _ Hn) as [Hs|Hs].
    - apply near_impl with (2 := near_neg x0 _ _ D Hs). unfold minus_fct in *. intros x Hx.
      left. lra.
    - apply near_impl with (2 := near_pos x0 _ _ D Hs). unfold minus_fct in *. intros x Hx.
      right. lra. }
  assert (Heq : Rabs (a - b) <> (1 / 10 ^ 12)%R -> near x0 (fun x =>
    Rltb (Rabs (f1 x - f2 x)) (1 / 10 ^ 12) = Rltb (Rabs (a - b)) (1 / 10 ^ 12))).
  { rewrite <-E1, <-E2. exact (near_threshold x0 (f1 - f2)%F _ (1 / 10 ^ 12) D). }
  assert (Hneg : forall u w, Rleb u w = negb (Rltb w u)).
  { intros u w. destruct (Rleb_spec u w), (Rltb_spec w u); simpl; (done || lra). }
  destruct k; try discriminate; cbn [apart eval_binary] in *; unfold fgt, fge.
  5-6: apply near_impl with (2 := Heq Hab); intros x Hx; f_equal; change (IZR 1) with 1%R;
    cbn [fle flt fabs fsub flit Fp_xreal xcmp xop1 xop2]; rewrite ?Hneg, ?Hx; done.
  all: apply near_impl with (2 := Hord Hab); intros x [[Hx Ho]|[Hx Ho]]; f_equal;
    rewrite ?flt_xreal, ?fle_xreal, ?Hneg;
    repeat match goal with |- context [Rltb ?u ?w] => destruct (Rltb_spec u w) end;
    (done || lra).
Qed.

Lemma steady_logical loc k l r a b v :
  steady l a -> steady r b ->
  eval_binary k (Some (truth a) : xreal) (Some (truth b)) = fbool v ->
  steady (BinaryOp loc k l r) v.
Proof.
  intros Hl Hr Hv. apply near_impl with (2 := near_and _ _ _ Hl Hr). intros x [Hx Hy].
  eapply ev_binary; [done|done|]. by rewrite Hv, fbool_truth.
Qed.

Lemma regular_smooth :
  (forall e v, regular x0 e v -> smooth e v) /\
  (forall e b, regular_bool x0 e b -> steady e b).
Proof.
  apply regular_mutind; intros.
  - apply smooth_constant; [intros; apply ev_number|]. intros de [= <-]. apply ev_int.
  - exists (fun x => x), 1%R. split_and!; [done| |apply derivable_pt_lim_id|].
    + apply near_always. intros x. apply ev_parameter. by rewrite list_lookup_insert_eq.
    + intros de [= <-]. rewrite Z.eqb_refl. apply ev_int.
  - apply smooth_constant.
    + intros x. apply ev_parameter. by rewrite list_lookup_insert_ne by done.
    + intros de [= <-]. destruct (Z.eqb_spec (Z.of_nat i) (Z.of_nat p)); [lia|apply ev_int].
  - destruct H0 as (f & d & E & He & Hd & HG). exists f, d. split_and!; [done| |done|].
    + apply near_impl with (2 := He). intros x Hx. by apply (ev_unary x loc Plus).
    + cbn [Differentiate]. intros de (d' & Hd' & [= <-])%bind_Ok. auto.
  - destruct H0 as (f & d & E & He & Hd & HG). exists (fun x => - f x)%R, (- d)%R.
    split_and!; [by rewrite E| |by apply derivable_pt_lim_opp|].
    + apply near_impl with (2 := He). intros x Hx. by apply (ev_unary x loc Minus).
    + cbn [Differentiate]. intros de (d' & Hd' & [= <-])%bind_Ok.
      apply (ev_unary x0 loc Minus). auto.
  - by apply smooth_add.
  - by apply smooth_sub.
  - by apply smooth_mul.
  - by apply smooth_div.
  - by apply smooth_conditional with true.
  - by apply smooth_conditional with false.
  - apply smooth_constant; [intros x; by eapply ev_quote|]. intros de.
    set_unfold in H. destruct H as [->|[->|[->|[->|[]]]]]; intros [= <-]; apply ev_int.
  - by apply smooth_abs.
  - by apply smooth_log.
  - by apply smooth_sqrt.
  - by eapply steady_compare.
  - eapply steady_logical; [done|done|]. cbn [eval_binary]. by rewrite !fne_truth.
  - eapply steady_logical; [done|done|]. cbn [eval_binary]. by rewrite !fne_truth.
Qed.
End gradient.

Lemma gradient_signals_lookup {D} `{Fp D} (signal : SignalDef D) params grads k param :
  gradient_signals signal params = Ok grads -> params !! k = Some param ->
  exists d, Differentiate (par_id param) (sig_body signal) = Ok d /\
    grads !! k = Some (FoldConstantsInPlace
      (MkSignal (sig_name signal +:+ "__grad__" +:+ par_name param) d)).
Proof.
  revert grads k. induction params as [|q rest IH]; intros grads k Hg Hk; [done|].
  cbn [gradient_signals] in Hg. apply bind_Ok in Hg as (d & Hd & (out & Ho & [= <-])%bind_Ok).
  destruct k as [|k]; simpl in Hk.
  - simplify_eq. eauto.
  - exact (IH _ _ Ho Hk).
Qed.

(** C17: the gradient signals are the derivatives: when
    [BuildStatelessGradientSignals] returns, then at every point where the
    signal is a smooth function of a parameter, the signal evaluates, near
    the point, to a function of the parameter's value, and the gradient
    signal of that parameter evaluates at the point to the function's
    derivative, in exact arithmetic, if the comparisons of literals in the
    derivative's tree come out as the interpreter's ([fold_agrees]: folding
    compares exactly, the interpreter's [==] and [!=] with a tolerance of
    1e-12). *)
Theorem BuildStatelessGradientSignals_correct symbols_ market base ps p x0 signal params grads k
  param v (Hp : p < length ps)
  (Hreg : regular symbols_ market ps p x0 (sig_body signal) v)
  (Hbuild : BuildStatelessGradientSignals signal params = Ok grads)
  (Hparam : params !! k = Some param) (Hid : par_id param = Z.of_nat p)
  (Hfold : forall d, Differentiate (Z.of_nat p) (sig_body signal) = Ok d -> fold_agrees d) :
  let c x := at_param base ps p x in
  exists f d grad, f x0 = v /\
    near x0 (fun x => Evaluate symbols_ market signal (c x) = Ok (Some (f x), c x)) /\
    derivable_pt_lim f x0 d /\
    grads !! k = Some grad /\ Evaluate symbols_ market grad (c x0) = Ok (Some d, c x0).
Proof.
  intros c. apply bind_Ok in Hbuild as ([] & _ & Hbuild).
  destruct (gradient_signals_lookup _ _ _ _ _ Hbuild Hparam) as (de & Hde & Hk).
  rewrite Hid in Hde.
  destruct (proj1 (regular_smooth symbols_ market base ps p Hp x0) _ _ Hreg)
    as (f & d & E & He & Hd & HG).
  destruct (HG _ Hde) as [Hv _]. eexists f, d, _. split_and!; [done| |done|exact Hk|].
  - apply near_impl with (2 := He). intros x [Hx _]. unfold Evaluate. unfold value_at in Hx.
    unfold c. by rewrite Hx.
  - apply (Visit_fold symbols_ market _ (Hfold _ Hde)) in Hv. unfold Evaluate.
    unfold c. exact (f_equal (fun r => '(v, s) <- r;; Ok (v, Interpreter.ctx s)) Hv).
Qed.

(** [signal s = if a > 1 then a * a + log(a) else a] at [a = 3]. *)
Definition gradient_example : SignalDef xreal :=
  let a := ParameterExpr noloc "a" 0 in
  MkSignal "s" (Conditional noloc (BinaryOp noloc Gt a (NumberLiteral noloc (Some 1%R)))
    (BinaryOp noloc Add (BinaryOp noloc Mul a a) (FunctionCall noloc "log" [a] (-1) (-1))) a).

Lemma BuildStatelessGradientSignals_correct_witness :
  exists grads f d grad,
    BuildStatelessGradientSignals gradient_example [MkParam "a" (Some 1%R) 0 noloc] = Ok grads /\
    f 3%R = (3 * 3 + ln 3)%R /\ derivable_pt_lim f 3 d /\ grads !! 0 = Some grad /\
    Evaluate empty_table (MkMarket [] 0) grad
      (at_param SignalContext_init [Some 3%R] 0 3) =
      Ok (Some d, at_param SignalContext_init [Some 3%R] 0 3).
Proof.
  destruct (BuildStatelessGradientSignals gradient_example [MkParam "a" (Some 1%R) 0 noloc])
    as [grads|] eqn:Hb; [|exfalso; cbn in Hb; discriminate Hb].
  destruct (BuildStatelessGradientSignals_correct empty_table (MkMarket [] 0) SignalContext_init
    [Some 3%R] 0 3 gradient_example [MkParam "a" (Some 1%R) 0 noloc] grads 0
    (MkParam "a" (Some 1%R) 0 noloc) (3 * 3 + ln 3)%R) as (f & d & grad & Hf & _ & Hd & Hk & Hg).
  - simpl. lia.
  - apply reg_then.
    + apply reg_compare with 3%R 1%R; [reflexivity|apply (reg_target _ _ _ 0)|apply reg_number|
        simpl; lra|].
      cbn [eval_binary]. unfold fgt. rewrite flt_xreal. destruct (Rltb_spec 1 3); [reflexivity|lra].
    + apply reg_add; [apply reg_mul; apply (reg_target _ _ _ 0)|].
      apply reg_log; [apply (reg_target _ _ _ 0)|lra].
  - exact Hb.
  - reflexivity.
  - reflexivity.
  - intros de Hde. cbn in Hde. injection Hde as <-. simpl. tauto.
  - exists grads, f, d, grad. split; [reflexivity|]. split; [exact Hf|]. split; [exact Hd|].
    split; [exact Hk|exact Hg].
Defined.

(** ** When a gradient exists *)

Section total.
Context {D : Type} `{Fp D}.

(** Every call of a mathematical builtin has an argument. *)
Fixpoint has_arguments (e : Expr D) : Prop :=
  match e with
  | NumberLiteral _ _ | IdentifierExpr _ _ | ParameterExpr _ _ _ => True
  | UnaryOp _ _ x => has_arguments x
  | BinaryOp _ _ l r => has_arguments l /\ has_arguments r
  | Conditional _ c t e => has_arguments c /\ has_arguments t /\ has_arguments e
  | FunctionCall _ name args _ _ =>
      (name ∈ ["abs"; "log"; "sqrt"] -> args <> []) /\ foldr and True (map has_arguments args)
  end.

(** [RequirePhase1Supported] as a predicate. *)
Fixpoint phase1 (e : Expr D) : Prop :=
  match e with
  | NumberLiteral _ _ | IdentifierExpr _ _ | ParameterExpr _ _ _ => True
  | UnaryOp _ _ x => phase1 x
  | BinaryOp _ _ l r => phase1 l /\ phase1 r
  | Conditional _ c t e => phase1 c /\ phase1 t /\ phase1 e
  | FunctionCall _ name args _ _ =>
      IsStatelessBuiltin name = true /\ foldr and True (map phase1 args)
  end.

Lemma RequirePhase1Supported_spec (e : Expr D) :
  match RequirePhase1Supported e with
  | Ok _ => phase1 e
  | Err (RuntimeError _) => ~ phase1 e
  | Err _ => False
  end.
Proof.
  induction e using Expr_rect'; cbn [RequirePhase1Supported phase1]; try done.
  - destruct (RequirePhase1Supported e1) as [u|[]]; cbn [rbind]; try tauto.
    destruct (RequirePhase1Supported e2) as [u'|[]]; tauto.
  - destruct (IsStatelessBuiltin n); cbn [ensure rbind]; [|naive_solver].
    induction H0 as [|a args Ha Hargs IH]; [done|]. cbn [map foldr].
    destruct (RequirePhase1Supported a) as [u|[]]; cbn [rbind]; try tauto.
    match goal with |- match ?r with _ => _ end => destruct r as [|[]] end; tauto.
  - destruct (RequirePhase1Supported e1) as [u|[]]; cbn [rbind]; try tauto.
    destruct (RequirePhase1Supported e2) as [u'|[]]; cbn [rbind]; try tauto.
    destruct (RequirePhase1Supported e3) as [u''|[]]; tauto.
Qed.

Lemma Differentiate_total p (e : Expr D) :
  phase1 e -> has_arguments e -> exists d, Differentiate p e = Ok d.
Proof.
  induction e using Expr_rect'; cbn [phase1 has_arguments Differentiate]; intros Hp Ha; eauto.
  - destruct IHe as [d ->]; [done..|]. eauto.
  - destruct IHe1 as [d1 ->]; [tauto..|]. destruct IHe2 as [d2 ->]; [tauto..|]. eauto.
  - destruct Hp as [Hn Hp], Ha as [Hna Ha].
    destruct ((n =? "mid")%string || (n =? "bid")%string || (n =? "ask")%string ||
      (n =? "spread")%string) eqn:Eq; [eauto|].
    unfold IsStatelessBuiltin in Hn. rewrite Eq in Hn. cbn [orb] in Hn.
    assert (Hin : n ∈ ["abs"; "log"; "sqrt"]).
    { destruct (String.eqb_spec n "abs"), (String.eqb_spec n "log"), (String.eqb_spec n "sqrt");
        set_solver. }
    destruct args as [|a args]; [by specialize (Hna Hin)|].
    apply Forall_cons in H0 as [IH _]. simpl in Hp, Ha. destruct IH as [d ->]; [tauto..|].
    cbn [rmap]. destruct (n =? "abs")%string, (n =? "log")%string, (n =? "sqrt")%string;
      eauto; discriminate.
  - destruct IHe2 as [d1 ->]; [tauto..|]. destruct IHe3 as [d2 ->]; [tauto..|]. eauto.
Qed.
End total.

(** differentiation is total on the supported trees: a tree with a
    stateful or unknown function is rejected with an exception, and any other
    whose calls of [abs], [log] and [sqrt] have an argument has one gradient
    signal per parameter, in order. *)
Theorem BuildStatelessGradientSignals_total {D} `{Fp D} (signal : SignalDef D) params :
  has_arguments (sig_body signal) ->
  match BuildStatelessGradientSignals signal params with
  | Ok grads =>
      phase1 (sig_body signal) /\
      map sig_name grads = map (fun q => sig_name signal +:+ "__grad__" +:+ par_name q) params
  | Err (RuntimeError _) => ~ phase1 (sig_body signal)
  | Err _ => False
  end.
Proof.
  intros Ha. unfold BuildStatelessGradientSignals.
  pose proof (RequirePhase1Supported_spec (sig_body signal)) as Hs.
  destruct (RequirePhase1Supported (sig_body signal)) as [u|[]]; try done. cbn [rbind].
  assert (exists grads, gradient_signals signal params = Ok grads /\
    map sig_name grads = map (fun q => sig_name signal +:+ "__grad__" +:+ par_name q) params)
    as (grads & -> & Hn); [|done].
  induction params as [|q params (grads & IH & Hn)]; [by exists []|]. cbn [gradient_signals].
  destruct (Differentiate_total (par_id q) _ Hs Ha) as [d ->]. cbn [rbind]. rewrite IH.
  eexists. split; [done|]. simpl. by rewrite Hn.
Qed.

Lemma BuildStatelessGradientSignals_total_witness :
  let s := MkSignal "s" (parsed_body "signal s = abs(mid(A) - 3) * 2") in
  let q := MkParam "a" (fint 1) 0 noloc in
  has_arguments (sig_body s) /\
  exists grads, BuildStatelessGradientSignals s [q] = Ok grads /\
    map sig_name grads = ["s__grad__a"].
Proof.
  cbv zeta.
  assert (Ha : has_arguments (parsed_body "signal s = abs(mid(A) - 3) * 2")).
  { vm_compute. repeat split; discriminate. }
  split; [exact Ha|].
  pose proof (BuildStatelessGradientSignals_total
    (MkSignal "s" (parsed_body "signal s = abs(mid(A) - 3) * 2")) [MkParam "a" (fint 1) 0 noloc] Ha)
    as P.
  destruct (BuildStatelessGradientSignals _ _) as [grads|e] eqn:E.
  - exists grads. split; [reflexivity|]. destruct P as [_ P]. exact P.
  - exfalso. vm_compute in E. discriminate E.
Defined.

(** [abs()] without an argument is a well-typed signal which the
    evaluator rejects with an exception; differentiating it reads past the
    end of its argument list. *)
Theorem Differentiate_without_argument :
  let e := parsed_body "signal s = abs()" in
  TypeCheckExpr e = Ok TNumber /\
  value_of e = Err (RuntimeError "abs() expects one argument") /\
  BuildStatelessGradientSignals (MkSignal "s" e) [MkParam "a" (fint 1) 0 noloc] =
    Err (Undefined "args[0]").
Proof. vm_compute. auto. Qed.
