(* ===== verification/JitFacts.v ===== *)
(** * The interpreter and the JIT's runtime calls agree

    src/src/runtime.h promises that "interpreter and JIT are guaranteed
    bit-identical".  The interpreter pushes samples with the checked
    functions that (re)allocate a slot; compiled code calls the [jit_rt_*]
    helpers, which require the slot [PrewarmSignalContext] prepared.  On a
    slot that is ready for an operator the two do the same, in every
    arithmetic, and leave it ready for the next tick. *)

From S2P Require Import Prelude Errors Arith Ast Rolling Context Interpreter JitRuntime.

(** A stateful builtin with the constants its call site fixes. *)
Inductive RtOp (D : Type) :=
| OEma (period : nat) | OEmaAlpha (alpha : D) | OSma (period : nat) | OStd (period : nat)
| OZscore (period : nat) | OVwap (period : nat) (symbol_id : Z) | OLag (period : nat)
| OCrossAbove | OCrossBelow | OMin (period : nat) | OMax (period : nat)
| OCorr (period : nat) | OBeta (period : nat) | OKalman.
Arguments OEma {D} period.
Arguments OEmaAlpha {D} alpha.
Arguments OSma {D} period.
Arguments OStd {D} period.
Arguments OZscore {D} period.
Arguments OVwap {D} period symbol_id.
Arguments OLag {D} period.
Arguments OCrossAbove {D}.
Arguments OCrossBelow {D}.
Arguments OMin {D} period.
Arguments OMax {D} period.
Arguments OCorr {D} period.
Arguments OBeta {D} period.
Arguments OKalman {D}.

Section parity.
Context {D L : Type} `{Machine D L}.

Notation Ctx := (SignalContext D L).

(** The values of the arguments at a tick, as many as the operator takes. *)
Record Args := MkArgs { arg1 : D; arg2 : D; arg3 : D }.

Local Notation "x <~ m ;; k" := (fun s => rbind (m s) (fun '(x, s) => k s))
  (at level 20, m at level 99, k at level 200, right associativity).

(** What the interpreter does once it has evaluated the arguments. *)
Definition interpret (op : RtOp D) (id : Z) (market : MarketState D) (a : Args)
  : M (D:=D) (L:=L) D :=
  match op with
  | OEma p => on_node ema_slots "ema" id (ema_step p (arg1 a))
  | OEmaAlpha alpha => on_node ema_slots "ema_alpha" id (ema_alpha_step alpha (arg1 a))
  | OSma p => on_node sma_slots "sma" id (ring_step RingStatsMean p (arg1 a))
  | OStd p => on_node rolling_std_slots "rolling_std" id
                (ring_step RingStatsStddevSample p (arg1 a))
  | OZscore p => on_node zscore_slots "zscore" id (ring_step (zscore_read (arg1 a)) p (arg1 a))
  | OVwap p sym =>
      ins <~ lift (instrument market sym);; on_node vwap_slots "vwap" id (vwap_step p ins)
  | OLag p => on_node lag_slots "lag" id (lag_step p (arg1 a))
  | OCrossAbove => on_node cross_slots "cross_above" id (cross_step fle fgt (arg1 a) (arg2 a))
  | OCrossBelow => on_node cross_slots "cross_below" id (cross_step fge flt (arg1 a) (arg2 a))
  | OMin p => extremum_step "rolling_min" rolling_min_deques_slots rolling_min_indices_slots
                UpdateRollingMin id p (arg1 a)
  | OMax p => extremum_step "rolling_max" rolling_max_deques_slots rolling_max_indices_slots
                UpdateRollingMax id p (arg1 a)
  | OCorr p => on_node rolling_corr_slots "rolling_corr" id
                 (pair_step RollingPairCorrelation p (arg1 a) (arg2 a))
  | OBeta p => on_node rolling_beta_slots "rolling_beta" id
                 (pair_step RollingPairBeta p (arg1 a) (arg2 a))
  | OKalman => on_node kalman1d_slots "kalman1d" id
                 (fun st => Ok (Kalman1dStep st (arg1 a) (arg2 a) (arg3 a)))
  end.

(** The runtime call [EmitExpr] (src/src/jit_compiler.cpp) emits for it when
    the operator is not lowered: [ema] goes through [jit_rt_ema_alpha] with
    the constant factor, [ema_alpha] passes the period 0. *)
Definition compiled (op : RtOp D) (id : Z) (market : MarketState D) (a : Args)
  : Ctx -> Res (D * Ctx) :=
  match op with
  | OEma p => jit_rt_ema_alpha id (arg1 a) (ema_alpha_of p) (Z.of_nat p)
  | OEmaAlpha alpha => jit_rt_ema_alpha id (arg1 a) alpha 0
  | OSma p => jit_rt_sma id (arg1 a) (Z.of_nat p)
  | OStd p => jit_rt_rolling_std id (arg1 a) (Z.of_nat p)
  | OZscore p => jit_rt_zscore id (arg1 a) (Z.of_nat p)
  | OVwap p sym => jit_rt_vwap market id sym (Z.of_nat p)
  | OLag p => jit_rt_lag id (arg1 a) (Z.of_nat p)
  | OCrossAbove => jit_rt_cross_above id (arg1 a) (arg2 a)
  | OCrossBelow => jit_rt_cross_below id (arg1 a) (arg2 a)
  | OMin p => jit_rt_rolling_min id (arg1 a) (Z.of_nat p)
  | OMax p => jit_rt_rolling_max id (arg1 a) (Z.of_nat p)
  | OCorr p => jit_rt_rolling_corr id (arg1 a) (arg2 a) (Z.of_nat p)
  | OBeta p => jit_rt_rolling_beta id (arg1 a) (arg2 a) (Z.of_nat p)
  | OKalman => jit_rt_kalman1d id (arg1 a) (arg2 a) (arg3 a)
  end.

(** ** Slots that are ready *)

Definition ring_ready (p : nat) (st : RingStatsState D L) : Prop :=
  capacity st = p /\ length (buffer st) = p.
Definition vwap_ready (p : nat) (st : VwapState D L) : Prop :=
  v_capacity st = p /\ length (price_buf st) = p /\ length (vol_buf st) = p.
Definition lag_ready (p : nat) (st : LagState D) : Prop :=
  l_capacity st = p /\ length (l_buffer st) = p.

Definition slot_ready {S} (sl : Slots (NodeStates D L) S) (id : Z) (P : S -> Prop) (c : Ctx)
  : Prop := forall st, slots_get sl (nodes c) !! Z.to_nat id = Some st -> P st.

(** What prewarming leaves behind, and every tick preserves. *)
Definition ready (op : RtOp D) (id : Z) (c : Ctx) : Prop :=
  match op with
  | OEma p => slot_ready ema_slots id
      (fun st => e_alpha st = ema_alpha_of p /\ e_period st = Z.of_nat p) c
  | OEmaAlpha alpha => slot_ready ema_slots id
      (fun st => e_period st = 0%Z /\ (e_initialized st = true -> e_alpha st = alpha)) c
  | OSma p => slot_ready sma_slots id (ring_ready p) c
  | OStd p => slot_ready rolling_std_slots id (ring_ready p) c
  | OZscore p => slot_ready zscore_slots id (ring_ready p) c
  | OVwap p _ => slot_ready vwap_slots id (vwap_ready p) c
  | OLag p => slot_ready lag_slots id (lag_ready p) c
  | OMin p => slot_ready rolling_min_deques_slots id (fun dq => dq_cap dq = S p) c
  | OMax p => slot_ready rolling_max_deques_slots id (fun dq => dq_cap dq = S p) c
  | OCorr _ | OBeta _ | OCrossAbove | OCrossBelow | OKalman => True
  end.

(** A period is a positive [int]. *)
Definition op_valid (op : RtOp D) : Prop :=
  match op with
  | OEma p | OSma p | OStd p | OZscore p | OVwap p _ | OLag p | OMin p | OMax p | OCorr p
  | OBeta p => (0 < Z.of_nat p < 2 ^ 31)%Z
  | OEmaAlpha _ | OCrossAbove | OCrossBelow | OKalman => True
  end.

(** A runtime call leaves the interpreter's cache alone. *)
Definition run_ctx {A} (m : Ctx -> Res (A * Ctx)) : M (D:=D) (L:=L) A :=
  fun s => rbind (m (ctx s)) (fun '(a, c) => Ok (a, MkEval c (cache s))).

(** ** Single slots *)

Lemma with_node_ext {S A} (sl : Slots (NodeStates D L) S) id (f g : S -> Res (A * S)) c :
  slot_ready sl id (fun st => f st = g st) c -> with_node sl id f c = with_node sl id g c.
Proof.
  intros Hfg. unfold with_node, at_Z, at_idx. destruct (id <? 0)%Z; [done|].
  destruct (_ !! _) as [st|] eqn:E; [|done]. simpl. by rewrite (Hfg st E).
Qed.

Lemma on_node_ext {S A} (sl : Slots (NodeStates D L) S) name id (f g : S -> Res (A * S)) s :
  (0 <= id)%Z -> slot_ready sl id (fun st => f st = g st) (ctx s) ->
  on_node sl name id f s = run_ctx (with_node sl id g) s.
Proof.
  intros Hid Hfg. unfold on_node, run_ctx. destruct (Z.ltb_spec id 0); [lia|].
  by rewrite (with_node_ext sl id f g).
Qed.

(** Accessors of an array store what they read. *)
Class GetSet {S} (sl : Slots (NodeStates D L) S) : Prop :=
  get_set c v : slots_get sl (slots_set sl v c) = v.

Lemma with_node_ready {S A} (sl : Slots (NodeStates D L) S) `{!GetSet sl} id
  (f : S -> Res (A * S)) (P : S -> Prop) c a c' :
  (forall st a st', P st -> f st = Ok (a, st') -> P st') ->
  slot_ready sl id P c -> with_node sl id f c = Ok (a, c') -> slot_ready sl id P c'.
Proof.
  intros Hf HP Hw. unfold with_node, at_Z, at_idx in Hw. destruct (id <? 0)%Z; [done|].
  destruct (slots_get sl (nodes c) !! Z.to_nat id) as [st|] eqn:E; [|done]. simpl in Hw.
  destruct (f st) as [[a' st']|] eqn:Ef; [|done]. simpl in Hw. injection Hw as <- <-.
  intros st2. simpl. rewrite get_set, list_lookup_insert_eq by (by eapply lookup_lt_Some).
  intros [= <-]. eapply Hf; [by apply HP|exact Ef].
Qed.

(** ** The pushes of the two sides *)

Lemma set_idx_length {A} what (l l' : list A) i x : set_idx what l i x = Ok l' -> length l' = length l.
Proof. unfold set_idx. destruct (decide _); intros [= <-]. apply length_insert. Qed.

Lemma RingStatsPush_prepared p (st : RingStatsState D L) x :
  0 < p -> ring_ready p st -> RingStatsPush st p x = RingStatsPushPrepared st x.
Proof.
  intros Hp [Hc Hl]. unfold RingStatsPush, RingStatsPushPrepared, RingStatsPrepare.
  rewrite decide_True by done. rewrite Hc, Hl. by destruct (Nat.eqb_spec p 0); [lia|].
Qed.

Lemma RingStatsPush_ready p (st st' : RingStatsState D L) x :
  ring_ready p st -> RingStatsPush st p x = Ok st' -> ring_ready p st'.
Proof.
  intros [Hc Hl] Hst. unfold RingStatsPush, RingStatsPrepare in Hst.
  rewrite decide_True in Hst by done. apply bind_Ok in Hst as (u & _ & Hst).
  unfold RingStatsStep in Hst. apply bind_Ok in Hst as (st1 & H1 & Hst).
  assert (H2 : capacity st1 = p /\ buffer st1 = buffer st).
  { destruct (count st =? capacity st).
    - apply bind_Ok in H1 as (old & _ & H1). injection H1 as <-.
      unfold RingStatsUpdateMeanM2OnSlide. by destruct (_ <=? _).
    - by injection H1 as <-. }
  destruct H2 as [Hc1 Hb1]. apply bind_Ok in Hst as (buf & Hbuf & Hst).
  apply set_idx_length in Hbuf. rewrite Hb1, Hl in Hbuf. injection Hst as <-.
  destruct (count st =? capacity st); [|done].
  by destruct (_ && _).
Qed.

Lemma ring_step_parity p x read (st : RingStatsState D L) :
  0 < p -> ring_ready p st ->
  ring_step read p x st =
    rbind (RingStatsPushPrepared st x) (fun st =>
      Ok (if negb (RingStatsFull st) then fnan else read st, st)).
Proof.
  intros Hp Hr. unfold ring_step. rewrite RingStatsPush_prepared by done.
  destruct (RingStatsPushPrepared st x) as [st'|]; [|done]. simpl.
  by destruct (RingStatsFull st').
Qed.

Lemma RingStatsPushPrepared_ready p (st st' : RingStatsState D L) x :
  0 < p -> ring_ready p st -> RingStatsPushPrepared st x = Ok st' -> ring_ready p st'.
Proof.
  intros Hp Hr. rewrite <- (RingStatsPush_prepared p) by done. by apply RingStatsPush_ready.
Qed.

Lemma vwap_step_parity p ins (st : VwapState D L) :
  0 < p -> vwap_ready p st ->
  vwap_step p ins st =
    rbind (VwapPushPrepared st (mid ins) (vwap_volume ins)) (fun st =>
      Ok (if negb (VwapFull st) then fnan else VwapValue st, st)).
Proof.
  intros Hp (Hc & Hl1 & Hl2). unfold vwap_step, VwapPush, VwapPushPrepared, VwapPrepare.
  rewrite decide_True by done. rewrite Hc, Hl1, Hl2. destruct (Nat.eqb_spec p 0); [lia|]. simpl.
  destruct (VwapStep st _ _) as [st'|]; [|done]. simpl. by destruct (VwapFull st').
Qed.

Lemma vwap_step_ready p ins (st st' : VwapState D L) v :
  vwap_ready p st -> vwap_step p ins st = Ok (v, st') -> vwap_ready p st'.
Proof.
  intros (Hc & Hl1 & Hl2) Hs. unfold vwap_step, VwapPush, VwapPrepare in Hs.
  rewrite decide_True in Hs by done. apply bind_Ok in Hs as (st1 & H1 & Hs). injection Hs as _ <-.
  apply bind_Ok in H1 as (u & _ & H1). unfold VwapStep in H1.
  apply bind_Ok in H1 as ([[n pv] vol] & _ & H1). apply bind_Ok in H1 as (l1 & Hs1 & H1).
  apply bind_Ok in H1 as (l2 & Hs2 & H1). injection H1 as <-.
  apply set_idx_length in Hs1, Hs2. split_and!; simpl; congruence.
Qed.

Lemma lag_step_parity p x (st : LagState D) :
  0 < p -> lag_ready p st ->
  lag_step p x st =
    rbind (LagValue st) (fun lagged => rbind (LagPushPrepared st x) (fun st => Ok (lagged, st))).
Proof.
  intros Hp [Hc Hl]. unfold lag_step, LagPush, LagPushPrepared, LagPrepare.
  rewrite decide_True by done. rewrite Hc, Hl. by destruct (Nat.eqb_spec p 0); [lia|].
Qed.

Lemma lag_step_ready p x (st st' : LagState D) v :
  lag_ready p st -> lag_step p x st = Ok (v, st') -> lag_ready p st'.
Proof.
  intros [Hc Hl] Hs. unfold lag_step, LagPush, LagPrepare in Hs.
  rewrite decide_True in Hs by done. apply bind_Ok in Hs as (y & _ & Hs).
  apply bind_Ok in Hs as (st1 & H1 & Hs). injection Hs as _ <-.
  apply bind_Ok in H1 as (u & _ & H1). apply bind_Ok in H1 as (buf & Hb & H1). injection H1 as <-.
  apply set_idx_length in Hb. split; simpl; congruence.
Qed.

(** ** The deques *)

Lemma pop_back_while_cap drop n (dq dq' : MonoDequeState D) :
  pop_back_while drop n dq = Ok dq' -> dq_cap dq' = dq_cap dq.
Proof.
  revert dq. induction n as [|n IH]; intros dq; simpl; [by intros [= ->]|].
  destruct (MonoEmpty dq); [by intros [= ->]|]. intros Hw.
  apply bind_Ok in Hw as ([i v] & _ & Hw). destruct (drop v); [|by injection Hw as ->].
  by apply IH in Hw.
Qed.

Lemma pop_front_expired_cap idx p n (dq dq' : MonoDequeState D) :
  pop_front_expired idx p n dq = Ok dq' -> dq_cap dq' = dq_cap dq.
Proof.
  revert dq. induction n as [|n IH]; intros dq; simpl; [by intros [= ->]|].
  destruct (MonoEmpty dq); [by intros [= ->]|]. intros Hw.
  apply bind_Ok in Hw as ([i v] & _ & Hw). destruct (_ <? _)%Z; [|by injection Hw as ->].
  by apply IH in Hw.
Qed.

Lemma MonoUpdate_cap drop (dq dq' : MonoDequeState D) idx p x v idx' :
  MonoUpdate drop dq idx p x = Ok (v, dq', idx') -> dq_cap dq' = dq_cap dq.
Proof.
  intros Hu. unfold MonoUpdate in Hu. apply bind_Ok in Hu as (d1 & H1 & Hu).
  apply bind_Ok in Hu as (d2 & H2 & Hu). apply bind_Ok in Hu as (d3 & H3 & Hu).
  apply bind_Ok in Hu as ([i w] & _ & Hu). injection Hu as _ <- _.
  apply pop_back_while_cap in H1. apply pop_front_expired_cap in H3.
  unfold MonoPushBack in H2. apply bind_Ok in H2 as (buf & _ & H2). injection H2 as <-.
  simpl in *. congruence.
Qed.

Lemma MonoInit_ready p (dq : MonoDequeState D) : dq_cap dq = S p -> MonoInit dq p = dq.
Proof. intros Hc. unfold MonoInit. by rewrite decide_True. Qed.

Lemma UpdateRollingMin_prepared p (dq : MonoDequeState D) idx x :
  dq_cap dq = S p -> UpdateRollingMin dq idx p x = UpdateRollingMinPrepared dq idx x.
Proof.
  intros Hc. unfold UpdateRollingMin, UpdateRollingMinPrepared. rewrite MonoInit_ready by done.
  rewrite Hc. simpl. by rewrite ?Nat.sub_0_r.
Qed.

Lemma UpdateRollingMax_prepared p (dq : MonoDequeState D) idx x :
  dq_cap dq = S p -> UpdateRollingMax dq idx p x = UpdateRollingMaxPrepared dq idx x.
Proof.
  intros Hc. unfold UpdateRollingMax, UpdateRollingMaxPrepared. rewrite MonoInit_ready by done.
  rewrite Hc. simpl. by rewrite ?Nat.sub_0_r.
Qed.

Lemma u64_period p : (0 <= p < 2 ^ 31)%Z -> u64 p = p.
Proof. intros Hp. apply Z.mod_small. lia. Qed.

Section extremum.
Variables (dqs : Slots (NodeStates D L) (MonoDequeState D)) (idxs : Slots (NodeStates D L) Z).
Hypothesis idxs_dqs : forall c v, slots_get dqs (slots_set idxs v c) = slots_get dqs c.
Variable update : MonoDequeState D -> Z -> nat -> D -> Res (D * MonoDequeState D * Z).
Variable updateP : MonoDequeState D -> Z -> D -> Res (D * MonoDequeState D * Z).
Variables (id : Z) (p : nat).
Hypothesis id_pos : (0 <= id)%Z.
Hypothesis p_ok : (0 < Z.of_nat p < 2 ^ 31)%Z.
Hypothesis update_prepared : forall dq idx x,
  dq_cap dq = S p -> update dq idx p x = updateP dq idx x.

Let dq_ready (dq : MonoDequeState D) : Prop := dq_cap dq = S p.

Lemma with_idx_dqs {A} (f : Z -> Res (A * Z)) c a c' :
  with_node idxs id f c = Ok (a, c') -> slots_get dqs (nodes c') = slots_get dqs (nodes c).
Proof.
  unfold with_node. intros Hw. apply bind_Ok in Hw as (st & _ & Hw).
  apply bind_Ok in Hw as ([a' st'] & _ & Hw). injection Hw as _ <-. simpl. apply idxs_dqs.
Qed.

Lemma extremum_parity name x s :
  slot_ready dqs id dq_ready (ctx s) ->
  extremum_step name dqs idxs update id p x s =
    run_ctx (jit_rt_extremum dqs idxs updateP id x (Z.of_nat p)) s.
Proof.
  intros Hr. unfold extremum_step, jit_rt_extremum, on_node, run_ctx.
  destruct (Z.ltb_spec id 0); [lia|]. rewrite u64_period by lia.
  destruct (with_node idxs id (fun idx => Ok (idx, idx)) (ctx s)) as [[idx c1]|] eqn:E1; [|done].
  cbn [rbind ctx cache]. apply with_idx_dqs in E1.
  rewrite (with_node_ext dqs id _ (fun dq =>
    rbind (updateP dq idx x) (fun '(v, dq, idx) => Ok ((v, idx), dq))) c1).
  2: { intros dq. rewrite E1. intros Hdq. rewrite update_prepared by (by apply Hr).
       by destruct (updateP dq idx x) as [[[v dq'] i]|]. }
  destruct (with_node dqs id _ c1) as [[[v i] c2]|]; [|done]. cbn [rbind ctx cache snd fst].
  destruct (with_node idxs id (fun _ => Ok (tt, i)) c2) as [[u c3]|]; [|done]. done.
Qed.

Lemma extremum_ready `{!GetSet dqs} x c v c' :
  (forall dq idx x v dq' idx', updateP dq idx x = Ok (v, dq', idx') -> dq_cap dq' = dq_cap dq) ->
  slot_ready dqs id dq_ready c ->
  jit_rt_extremum dqs idxs updateP id x (Z.of_nat p) c = Ok (v, c') ->
  slot_ready dqs id dq_ready c'.
Proof.
  intros Hup Hr Hw. unfold jit_rt_extremum in Hw. apply bind_Ok in Hw as ([idx c1] & H1 & Hw).
  apply bind_Ok in Hw as ([[w i] c2] & H2 & Hw). apply bind_Ok in Hw as ([u c3] & H3 & Hw).
  injection Hw as _ <-. apply with_idx_dqs in H1, H3. unfold slot_ready. rewrite H3.
  eapply (with_node_ready dqs); [| |exact H2].
  - intros st a st' Hst Hs. apply bind_Ok in Hs as ([[v' d'] i'] & Hu & Hs).
    injection Hs as _ <-. unfold dq_ready. by rewrite (Hup _ _ _ _ _ _ Hu).
  - intros dq. rewrite H1. apply Hr.
Qed.
End extremum.
End parity.

(** ** One tick, and any number of ticks *)

Section runs.
Context {D L : Type} `{Machine D L}.
Notation Ctx := (SignalContext D L).

#[export] Instance get_set_ema : GetSet (D:=D) (L:=L) ema_slots. Proof. done. Qed.
#[export] Instance get_set_sma : GetSet (D:=D) (L:=L) sma_slots. Proof. done. Qed.
#[export] Instance get_set_std : GetSet (D:=D) (L:=L) rolling_std_slots. Proof. done. Qed.
#[export] Instance get_set_zscore : GetSet (D:=D) (L:=L) zscore_slots. Proof. done. Qed.
#[export] Instance get_set_vwap : GetSet (D:=D) (L:=L) vwap_slots. Proof. done. Qed.
#[export] Instance get_set_lag : GetSet (D:=D) (L:=L) lag_slots. Proof. done. Qed.
#[export] Instance get_set_min : GetSet (D:=D) (L:=L) rolling_min_deques_slots. Proof. done. Qed.
#[export] Instance get_set_max : GetSet (D:=D) (L:=L) rolling_max_deques_slots. Proof. done. Qed.

Lemma op_period_pos (p : nat) : (0 < Z.of_nat p < 2 ^ 31)%Z -> 0 < p.
Proof. lia. Qed.

(** On a ready slot the interpreter's step and the runtime call coincide. *)
Lemma op_parity op id market (a : Args (D:=D)) (s : EvalState D L) :
  (0 <= id)%Z -> op_valid op -> ready op id (ctx s) ->
  interpret op id market a s = run_ctx (compiled op id market a) s.
Proof.
  intros Hid Hv Hr. destruct op; simpl in Hv, Hr; unfold interpret, compiled.
  - apply on_node_ext; [done|]. intros st Hst. destruct (Hr st Hst) as [Ha Hp].
    unfold ema_step. destruct st as [v al per i]; simpl in *. subst. by destruct i.
  - apply on_node_ext; [done|]. intros st Hst. destruct (Hr st Hst) as [Hp Ha].
    unfold ema_alpha_step. destruct st as [v al per i]; simpl in *. subst.
    destruct i; [|done]. by rewrite Ha.
  - apply on_node_ext; [done|]. intros st Hst.
    by apply ring_step_parity; [lia|apply Hr].
  - apply on_node_ext; [done|]. intros st Hst.
    by apply ring_step_parity; [lia|apply Hr].
  - apply on_node_ext; [done|]. intros st Hst.
    rewrite ring_step_parity by (lia || by apply Hr).
    destruct (RingStatsPushPrepared st (arg1 a)) as [st'|]; [|done]. simpl. unfold zscore_read.
    destruct (RingStatsFull st'); [|done]. simpl.
    by destruct (fisnan _ || flt _ _).
  - unfold jit_rt_vwap, run_ctx, lift. change (jit_instrument market symbol_id) with
      (instrument market symbol_id).
    destruct (instrument market symbol_id) as [ins|]; [|done]. cbn [rbind rmap].
    rewrite (on_node_ext vwap_slots "vwap" id _ (fun st =>
      rbind (VwapPushPrepared st (mid ins) (vwap_volume ins)) (fun st =>
        Ok (if negb (VwapFull st) then fnan else VwapValue st, st)))) by
      (done || (intros st Hst; by apply vwap_step_parity; [lia|apply Hr])). done.
  - apply on_node_ext; [done|]. intros st Hst. by apply lag_step_parity; [lia|apply Hr].
  - apply on_node_ext; [done|]. intros st Hst. unfold cross_step.
    by destruct (c_initialized st).
  - apply on_node_ext; [done|]. intros st Hst. unfold cross_step.
    by destruct (c_initialized st).
  - apply extremum_parity; [done|done|lia|intros; by apply UpdateRollingMin_prepared|done].
  - apply extremum_parity; [done|done|lia|intros; by apply UpdateRollingMax_prepared|done].
  - apply on_node_ext; [done|]. intros st Hst. rewrite u64_period by lia.
    by rewrite Nat2Z.id.
  - apply on_node_ext; [done|]. intros st Hst. rewrite u64_period by lia.
    by rewrite Nat2Z.id.
  - by apply on_node_ext.
Qed.

(** A runtime call leaves its slot ready. *)
Lemma op_ready op id market (a : Args (D:=D)) (c c' : Ctx) v :
  op_valid op -> ready op id c -> compiled op id market a c = Ok (v, c') -> ready op id c'.
Proof.
  intros Hv Hr Hw. destruct op; simpl in Hv, Hr; unfold compiled, ready in *; try done.
  - eapply with_node_ready; [apply _| |exact Hr|exact Hw].
    intros st b st' [Ha Hp] Hs. destruct (negb (e_initialized st)); by injection Hs as _ <-.
  - eapply with_node_ready; [apply _| |exact Hr|exact Hw].
    intros st b st' [Hp Ha] Hs. destruct (e_initialized st) eqn:E; injection Hs as _ <-; simpl; auto.
  - eapply with_node_ready; [apply _| |exact Hr|exact Hw].
    intros st b st' Hst Hs. apply bind_Ok in Hs as (st1 & H1 & Hs). injection Hs as _ <-.
    by apply (RingStatsPushPrepared_ready period) in H1; [|lia|].
  - eapply with_node_ready; [apply _| |exact Hr|exact Hw].
    intros st b st' Hst Hs. apply bind_Ok in Hs as (st1 & H1 & Hs). injection Hs as _ <-.
    by apply (RingStatsPushPrepared_ready period) in H1; [|lia|].
  - eapply with_node_ready; [apply _| |exact Hr|exact Hw].
    intros st b st' Hst Hs. apply bind_Ok in Hs as (st1 & H1 & Hs).
    apply (RingStatsPushPrepared_ready period) in H1; [|lia|done].
    destruct (negb (RingStatsFull st1)); [by injection Hs as _ <-|].
    cbv zeta in Hs. destruct (_ || _) in Hs; by injection Hs as _ <-.
  - unfold jit_rt_vwap in Hw. apply bind_Ok in Hw as (ins & _ & Hw).
    eapply with_node_ready; [apply _| |exact Hr|exact Hw].
    intros st b st' Hst Hs. apply (vwap_step_ready period ins st st' b Hst).
    rewrite vwap_step_parity by (lia || done). exact Hs.
  - eapply with_node_ready; [apply _| |exact Hr|exact Hw].
    intros st b st' Hst Hs. apply (lag_step_ready period (arg1 a) st st' b Hst).
    rewrite lag_step_parity by (lia || done). exact Hs.
  - eapply (extremum_ready rolling_min_deques_slots rolling_min_indices_slots (fun c v => eq_refl)
      UpdateRollingMinPrepared); [| |exact Hr|exact Hw]; [apply _|].
    intros dq idx x w dq' idx' Hu. apply bind_Ok in Hu as (u & _ & Hu). by eapply MonoUpdate_cap.
  - eapply (extremum_ready rolling_max_deques_slots rolling_max_indices_slots (fun c v => eq_refl)
      UpdateRollingMaxPrepared); [| |exact Hr|exact Hw]; [apply _|].
    intros dq idx x w dq' idx' Hu. apply bind_Ok in Hu as (u & _ & Hu). by eapply MonoUpdate_cap.
Qed.

(** The results of an operator over a sequence of ticks. *)
Fixpoint ticks (step : MarketState D -> Args (D:=D) -> M (D:=D) (L:=L) D)
  (inputs : list (MarketState D * Args (D:=D))) (s : EvalState D L)
  : Res (list D * EvalState D L) :=
  match inputs with
  | [] => Ok ([], s)
  | (market, a) :: rest =>
      '(v, s) <- step market a s;; '(vs, s) <- ticks step rest s;; Ok (v :: vs, s)
  end.

End runs.

(** The slot of [sma(.., 2)] at node 1, prewarmed. *)
Definition parity_machine : Machine double long_double := ieee (fun x => x).

Definition parity_ctx : SignalContext double long_double :=
  match prewarm_call (H:=parity_machine) "sma"
          [NumberLiteral noloc (fint 1); NumberLiteral noloc (fint 2)] 1 SignalContext_init with
  | Ok c => c
  | Err _ => SignalContext_init
  end.

Definition parity_inputs : list (MarketState double * Args (D:=double)) :=
  map (fun z => (MkMarket [] 0, MkArgs (fint z) (fint 0) (fint 0))) [1; 2; 5]%Z.


(** ** Where they differ: a smoothing factor that is not constant *)

Definition varying_alpha : list (MarketState double * Args (D:=double)) :=
  map (fun '(x, a) => (MkMarket [] 0, MkArgs (fint x) (fint a) (fint 0))) [(1, 0); (5, 1)]%Z.

Definition ema_ctx : SignalContext double long_double :=
  EnsureNodeCapacity (H:=parity_machine) SignalContext_init 1.

(** when the second argument of [ema_alpha] changes between ticks, the
    interpreter smooths with the factor of the tick and the compiled code
    with that of the first tick: for the samples 1, 5 and the factors 0, 1
    they return 5 and 1 on the second tick. *)
Theorem ema_alpha_diverges :
  let run step := rmap fst (ticks (D:=double) (L:=long_double) step varying_alpha
                              (MkEval ema_ctx ∅)) in
  run (fun _ a => on_node ema_slots "ema_alpha" 1
         (ema_alpha_step (H:=dbl (Machine:=parity_machine)) (arg2 a) (arg1 a))) = Ok [fint 1; fint 5] /\
  run (fun _ a => run_ctx (jit_rt_ema_alpha (H:=parity_machine) 1 (arg1 a) (arg2 a) 0)) =
    Ok [fint 1; fint 1].
Proof. vm_compute. auto. Qed.
