(* ===== verification/IrFacts.v ===== *)
(** * Facts about the code language

    Code runs and verifies in sequence; code whose registers are new leaves
    every older register alone. *)

From S2P Require Import Prelude Errors Arith Context Lowered Ir.

Section facts.
Context {D L : Type} `{Machine D L}.
Implicit Types (a b c : Code D) (v : Value D) (s : Machine_state D L) (scope : gset nat).

Lemma capp_assoc a b c : capp (capp a b) c = capp a (capp b c).
Proof. induction a; simpl; congruence. Qed.

Lemma capp_Ret a : capp a Ret = a.
Proof. induction a; simpl; congruence. Qed.

Lemma exec_capp market a b s :
  exec market (capp a b) s = rbind (exec market a s) (exec market b).
Proof.
  revert s. induction a as [|i k IH|dst cond t _ tv e _ ev k IH]; intros s; [done| |]; simpl.
  - rewrite rbind_assoc. destruct (step market i s); [apply IH|done].
  - rewrite rbind_assoc. destruct (read_bit (env s) cond) as [bit|]; [|done]. simpl.
    rewrite rbind_assoc. destruct (if bit then _ else _) as [s'|]; [|done]. simpl.
    rewrite rbind_assoc. destruct (read (env s') _) as [d|]; [apply IH|done].
Qed.

Lemma verify_capp scope a b scope' :
  verify scope (capp a b) = Some scope' <->
  exists mid, verify scope a = Some mid /\ verify mid b = Some scope'.
Proof.
  revert scope. induction a as [|i k IH|dst cond t _ tv e _ ev k IH]; intros scope; simpl.
  - split; [by exists scope|]. by intros (? & [= <-] & ?).
  - destruct (dominated _ _); [apply IH|]. split; [done|by intros (? & ? & ?)].
  - destruct (verify scope t) as [st|], (verify scope e) as [se|];
      try (split; [done|by intros (? & ? & ?)]).
    destruct (_ && _); [apply IH|]. split; [done|by intros (? & ? & ?)].
Qed.

Lemma dominated_spec scope rs : dominated scope rs = true <-> forall r, r ∈ rs -> r ∈ scope.
Proof.
  unfold dominated. rewrite forallb_forall. split; intros Hrs r Hr.
  - apply (bool_decide_eq_true (r ∈ scope)). apply Hrs. by apply list_elem_of_In.
  - apply (bool_decide_eq_true (r ∈ scope)). apply Hrs. by apply list_elem_of_In.
Qed.

(** What the verifier checks of an instruction and of a diamond. *)
Lemma verify_Seq scope i c scope' :
  verify scope (Seq i c) = Some scope' <->
  (forall r, r ∈ instr_uses i -> r ∈ scope) /\
  verify (list_to_set (instr_def i) ∪ scope) c = Some scope'.
Proof.
  simpl. destruct (dominated scope (instr_uses i)) eqn:Hd.
  - rewrite dominated_spec in Hd. by split; [|intros [_ ?]].
  - split; [done|]. intros [Hu _]. apply dominated_spec in Hu. congruence.
Qed.

Lemma verify_Diamond scope dst cond t tv e ev c scope' :
  verify scope (Diamond dst cond t tv e ev c) = Some scope' <->
  exists st se, verify scope t = Some st /\ verify scope e = Some se /\ cond ∈ scope /\
    (forall r, r ∈ uses tv -> r ∈ st) /\ (forall r, r ∈ uses ev -> r ∈ se) /\
    verify ({[dst]} ∪ scope) c = Some scope'.
Proof.
  simpl. destruct (verify scope t) as [st|], (verify scope e) as [se|];
    try (split; [done|by intros (? & ? & ? & ? & ?)]).
  split.
  - destruct (_ && _) eqn:Hd; [|done]. split_andb. intros Hv. exists st, se.
    rewrite <- !dominated_spec. split_and!; try done.
    by apply (bool_decide_eq_true (cond ∈ scope)).
  - intros (st' & se' & [= <-] & [= <-] & Hc & Ht & He & Hv).
    rewrite <- dominated_spec in Ht, He. rewrite Ht, He.
    assert (Hd : bool_decide (cond ∈ scope) = true) by (by apply bool_decide_eq_true).
    by rewrite Hd.
Qed.

(** ** The registers code defines *)

Fixpoint defs_within (lo hi : nat) (c : Code D) : Prop :=
  match c with
  | Ret => True
  | Seq i k => Forall (fun r => lo <= r < hi) (instr_def i) /\ defs_within lo hi k
  | Diamond dst _ t _ e _ k =>
      lo <= dst < hi /\ defs_within lo hi t /\ defs_within lo hi e /\ defs_within lo hi k
  end.

Lemma defs_within_capp lo hi a b :
  defs_within lo hi (capp a b) <-> defs_within lo hi a /\ defs_within lo hi b.
Proof. induction a; simpl; naive_solver. Qed.

Lemma defs_within_weaken lo hi lo' hi' c :
  lo' <= lo -> hi <= hi' -> defs_within lo hi c -> defs_within lo' hi' c.
Proof.
  intros Hlo Hhi. induction c; simpl; [done| |].
  - intros [Hi Hc]. split; [|by auto]. eapply Forall_impl; [exact Hi|]. simpl. lia.
  - intros (Hd & Ht & He & Hc). split_and!; auto; lia.
Qed.

Lemma verify_scope lo hi c scope scope' :
  defs_within lo hi c -> verify scope c = Some scope' ->
  scope ⊆ scope' /\ forall r, r ∈ scope' -> r ∈ scope \/ lo <= r < hi.
Proof.
  revert scope. induction c as [|i k IH|dst cond t _ tv e _ ev k IH]; intros scope.
  - intros _ [= <-]. split; [done|by left].
  - intros [Hi Hk] Hv. apply verify_Seq in Hv as [_ Hv].
    destruct (IH _ Hk Hv) as [Hsub Hnew]. split; [set_solver|].
    intros r [Hr|Hr]%Hnew; [|by right]. rewrite elem_of_union, elem_of_list_to_set in Hr.
    destruct Hr as [Hr|Hr]; [|by left]. right. by eapply Forall_forall in Hi.
  - intros (Hd & _ & _ & Hk) Hv. apply verify_Diamond in Hv as (? & ? & _ & _ & _ & _ & _ & Hv).
    destruct (IH _ Hk Hv) as [Hsub Hnew]. split; [set_solver|].
    intros r [Hr|Hr]%Hnew; [|by right]. rewrite elem_of_union, elem_of_singleton in Hr.
    destruct Hr as [->|Hr]; [by right|by left].
Qed.

(** ** Operands *)

(** The registers of a value are below [n]. *)
Definition below (n : nat) (v : Value D) : Prop := forall r, r ∈ uses v -> r < n.

Lemma below_le n n' v : n <= n' -> below n v -> below n' v.
Proof. intros Hn Hb r Hr. specialize (Hb r Hr). lia. Qed.

Lemma below_Const n (d : D) : below n (Const d).
Proof. intros r Hr. by apply not_elem_of_nil in Hr. Qed.

Lemma below_Reg n r : r < n -> below n (Reg r : Value D).
Proof. intros Hr r' Hr'. apply list_elem_of_singleton in Hr'. by subst. Qed.

Lemma read_env env env' v :
  (forall r, r ∈ uses v -> env' !! r = env !! r) -> read env' v = read env v.
Proof. destruct v as [d|r]; [done|]. intros He. simpl. by rewrite He by (by apply list_elem_of_singleton). Qed.

Lemma read_keep n env env' v :
  below n v -> (forall r, r < n -> env' !! r = env !! r) -> read env' v = read env v.
Proof. intros Hb He. apply read_env. intros r Hr. by apply He, Hb. Qed.
End facts.

#[export] Hint Resolve below_Const below_Reg : core.
