(* ===== verification/EmitFacts.v ===== *)
(** * What emission does to the codegen context

    Every emitter takes its registers from [next_reg] on, adds to the caches
    only registers it has just defined, never loses a cached node, and leaves
    the signal values alone ([emits]); and the operands it is given end up in
    an instruction ([needs]), so that a value that does not dominate its use
    fails verification. *)

From S2P Require Import Prelude Errors Arith Ast SignalProgram Context Interpreter Lowered Ir JitCompiler IrFacts.

(** The stateful calls are numbered, with ids of a set; the others are not. *)
Fixpoint ids_in {D} (ids : gset Z) (e : Expr D) : Prop :=
  match e with
  | NumberLiteral _ _ | IdentifierExpr _ _ | ParameterExpr _ _ _ => True
  | UnaryOp _ _ x => ids_in ids x
  | BinaryOp _ _ l r => ids_in ids l /\ ids_in ids r
  | Conditional _ c t f => ids_in ids c /\ ids_in ids t /\ ids_in ids f
  | FunctionCall _ name args id _ =>
      (if IsStatefulOp name then (0 < id)%Z /\ id ∈ ids else (id <= 0)%Z) /\
      foldr and True (map (ids_in ids) args)
  end.

Lemma MarketFieldCacheKey_inj sym sym' f f' :
  MarketFieldCacheKey sym (field_index f) = MarketFieldCacheKey sym' (field_index f') ->
  sym = sym' /\ f = f'.
Proof.
  assert (Hk : forall s g, MarketFieldCacheKey s (field_index g) = (4 * Z.of_nat s + field_index g)%Z).
  { intros s g. unfold MarketFieldCacheKey.
    assert (H0 : Z.land (Z.shiftl (Z.of_nat s) 2) (field_index g) = 0%Z).
    { apply Z.bits_inj'. intros i Hi. rewrite Z.land_spec, Z.bits_0.
      destruct (Z.ltb_spec i 2).
      - by rewrite Z.shiftl_spec_low by lia.
      - apply andb_false_intro2. destruct g; apply Z.bits_above_log2; simpl; lia. }
    pose proof (Z.add_lor_land (Z.shiftl (Z.of_nat s) 2) (field_index g)) as Ha.
    rewrite H0, Z.shiftl_mul_pow2 in Ha by lia. rewrite Z.shiftl_mul_pow2 by lia. lia. }
  rewrite !Hk. destruct f, f'; simpl; intros He; split; try done; lia.
Qed.

Section emission.
Context {D L : Type} `{Machine D L}.
Variable ids : gset Z.
Variable cfg : Config.
Implicit Types (cg : Codegen (D:=D)) (v : Value D) (e : Expr D).

(** Cached values are registers that have been defined. *)
Record wf cg : Prop := {
  wf_stateful : forall id v, stateful_emit_cache cg !! id = Some v ->
    exists r, v = Reg r /\ r < next_reg cg;
  wf_market : forall key v, program_market_field_cache cg !! key = Some v ->
    exists r, v = Reg r /\ r < next_reg cg;
  wf_signals : forall name v, signal_values cg !! name = Some v -> below (next_reg cg) v }.

Record grows cg (code : Code D) cg' : Prop := {
  g_reg : next_reg cg <= next_reg cg';
  g_code : defs_within (next_reg cg) (next_reg cg') code;
  g_stateful : forall id v, stateful_emit_cache cg' !! id = Some v ->
    stateful_emit_cache cg !! id = Some v \/ id ∈ ids /\ exists r, v = Reg r /\ next_reg cg <= r;
  g_keys : forall id, is_Some (stateful_emit_cache cg !! id) ->
    is_Some (stateful_emit_cache cg' !! id);
  g_market : forall key v, program_market_field_cache cg' !! key = Some v ->
    program_market_field_cache cg !! key = Some v \/ exists r, v = Reg r /\ next_reg cg <= r;
  g_signals : signal_values cg' = signal_values cg }.

Lemma grows_refl cg : grows cg Ret cg.
Proof. split; auto. done. Qed.

Lemma grows_trans cg1 c1 cg2 c2 cg3 :
  grows cg1 c1 cg2 -> grows cg2 c2 cg3 -> grows cg1 (capp c1 c2) cg3.
Proof.
  intros [R1 C1 S1 K1 M1 V1] [R2 C2 S2 K2 M2 V2]. split; [lia| | |auto| |congruence].
  - apply defs_within_capp.
    split; [eapply defs_within_weaken; [| |exact C1]|eapply defs_within_weaken; [| |exact C2]]; lia.
  - intros id v [Hv|(Hid & r & -> & Hr)]%S2; [by apply S1|]. right. split; [done|].
    exists r. split; [done|lia].
  - intros key v [Hv|(r & -> & Hr)]%M2; [by apply M1|]. right. exists r. split; [done|lia].
Qed.

(** What is known of a result when registers below [hi] have been taken. *)
Definition any {A} (hi : nat) (a : A) : Prop := True.
Definition newreg (lo hi : nat) (v : Value D) : Prop := exists r, v = Reg r /\ lo <= r < hi.

(** [emits n B m]: started with at least [n] registers taken. *)
Definition emits {A} (n : nat) (B : nat -> A -> Prop) (m : EmitM (D:=D) A) : Prop :=
  forall cg a code cg', n <= next_reg cg -> wf cg -> m cg = Ok (a, code, cg') ->
  grows cg code cg' /\ wf cg' /\ B (next_reg cg') a.

Lemma emits_ret {A} n (B : nat -> A -> Prop) a :
  (forall k, n <= k -> B k a) -> emits n B (ret a).
Proof. intros HB cg a' code cg' Hn Hwf [= <- <- <-]. eauto using grows_refl. Qed.

Lemma emits_throw {A} n (B : nat -> A -> Prop) msg : emits n B (JitCompiler.throw msg).
Proof. by intros cg a code cg' _ _ [=]. Qed.

Lemma emits_lift {A} n (r : Res A) : emits n any (JitCompiler.lift r).
Proof.
  intros cg a code cg' _ Hwf Hm. unfold JitCompiler.lift in Hm. inv_res.
  split_and!; [apply grows_refl|done|done].
Qed.

Lemma bindE_Ok {A B} (m : EmitM (D:=D) A) f cg (b : B) code cg' :
  bindE m f cg = Ok (b, code, cg') <->
  exists a c1 cg1 c2, m cg = Ok (a, c1, cg1) /\ f a cg1 = Ok (b, c2, cg') /\ code = capp c1 c2.
Proof.
  unfold bindE. split.
  - intros Hm. apply bind_Ok in Hm as ([[a c1] cg1] & Hm & Hf).
    apply bind_Ok in Hf as ([[b' c2] cg2] & Hf & He). injection He as <- <- <-. eauto 10.
  - intros (a & c1 & cg1 & c2 & -> & Hf & ->). simpl. by rewrite Hf.
Qed.

Lemma emits_bind {A A'} n (B : nat -> A -> Prop) (C : nat -> A' -> Prop) m f :
  emits n B m -> (forall n' a, n <= n' -> B n' a -> emits n' C (f a)) -> emits n C (bindE m f).
Proof.
  intros Hm Hf cg b code cg' Hn Hwf Hb. apply bindE_Ok in Hb as (a & c1 & cg1 & c2 & H1 & H2 & ->).
  destruct (Hm _ _ _ _ Hn Hwf H1) as (G1 & W1 & B1). pose proof (g_reg _ _ _ G1).
  destruct (Hf (next_reg cg1) a ltac:(lia) B1 _ _ _ _ (le_n _) W1 H2) as (G2 & W2 & C2).
  split_and!; [by eapply grows_trans|done|done].
Qed.

Lemma emits_weaken {A} n (B C : nat -> A -> Prop) m :
  emits n B m -> (forall hi a, n <= hi -> B hi a -> C hi a) -> emits n C m.
Proof.
  intros Hm HBC cg a code cg' Hcg Hwf Ha.
  destruct (Hm cg a code cg' Hcg Hwf Ha) as (G & W & HB). pose proof (g_reg _ _ _ G).
  split_and!; [done|done|]. apply HBC; [lia|done].
Qed.

(** One instruction with a new register. *)
Lemma build_eq (mk : nat -> Instr D) cg :
  build mk cg =
    Ok (Reg (next_reg cg), Seq (mk (next_reg cg)) Ret,
        MkCodegen (S (next_reg cg)) (program_market_field_cache cg) (stateful_emit_cache cg)
          (signal_values cg) (next_node_id cg)).
Proof. done. Qed.

Lemma wf_next cg k : wf cg ->
  wf (MkCodegen (S (next_reg cg)) (program_market_field_cache cg) (stateful_emit_cache cg)
        (signal_values cg) k).
Proof.
  intros [Hs Hm Hv]. split; simpl.
  - intros id v (r & -> & Hr)%Hs. exists r. split; [done|lia].
  - intros key v (r & -> & Hr)%Hm. exists r. split; [done|lia].
  - intros name v Hn. eapply below_le; [|by eapply Hv]. lia.
Qed.

Lemma grows_build cg (i : Instr D) k :
  instr_def i = [next_reg cg] ->
  grows cg (Seq i Ret)
    (MkCodegen (S (next_reg cg)) (program_market_field_cache cg) (stateful_emit_cache cg)
       (signal_values cg) k).
Proof.
  intros Hd. split; simpl; auto. rewrite Hd. split; [|done]. constructor; [lia|done].
Qed.

Lemma emits_build n lo (mk : nat -> Instr D) :
  lo <= n -> (forall dst, instr_def (mk dst) = [dst]) -> emits n (newreg lo) (build mk).
Proof.
  intros Hlo Hd cg a code cg' Hn Hwf Hb. rewrite build_eq in Hb. injection Hb as <- <- <-.
  split_and!; [by apply grows_build|by apply wf_next|].
  exists (next_reg cg). simpl. split; [done|lia].
Qed.

Lemma emits_build_reg n (mk : nat -> Instr D) :
  (forall dst, instr_def (mk dst) = [dst]) -> emits n any (build_reg mk).
Proof.
  intros Hd cg a code cg' Hn Hwf Hb. injection Hb as <- <- <-.
  split_and!; [by apply grows_build|by apply wf_next|done].
Qed.

Lemma newreg_le lo lo' hi v : lo <= lo' -> newreg lo' hi v -> newreg lo hi v.
Proof. intros Hl (r & -> & Hr). exists r. split; [done|lia]. Qed.

Lemma newreg_below lo hi v : newreg lo hi v -> below hi v.
Proof. intros (r & -> & Hr). apply below_Reg. lia. Qed.

(** The same, as the emitters call it. *)
Lemma emits_fresh n (B : nat -> Value D -> Prop) (mk : nat -> Instr D) :
  (forall dst, instr_def (mk dst) = [dst]) -> (forall hi v, newreg n hi v -> B hi v) ->
  emits n B (build mk).
Proof.
  intros Hd HB. eapply emits_weaken; [by apply (emits_build n n)|]. auto.
Qed.

(** ** The emitters *)

Lemma emits_EmitMarketFieldLoad n sym f : emits n below (EmitMarketFieldLoad sym f).
Proof.
  intros cg a code cg' Hn Hwf Hm. unfold EmitMarketFieldLoad in Hm.
  destruct (_ !! _) as [v|] eqn:E.
  - injection Hm as <- <- <-. split_and!; [apply grows_refl|done|].
    destruct (wf_market _ Hwf _ _ E) as (r & -> & Hr). by apply below_Reg.
  - rewrite build_eq in Hm. simpl in Hm. injection Hm as <- <- <-. simpl.
    split_and!; [| |apply below_Reg; lia].
    + destruct (grows_build cg (ILoad (next_reg cg) sym f) (next_node_id cg) eq_refl)
        as [R C S K M V].
      split; simpl; [lia|done|done|done| |done].
      intros key v. rewrite lookup_insert_Some. intros [[_ <-]|[_ Hv]]; [right|by left].
      exists (next_reg cg). split; [done|lia].
    + destruct (wf_next cg (next_node_id cg) Hwf) as [Hs Hm Hv]. split; simpl; [done| |done].
      intros key v. rewrite lookup_insert_Some. intros [[_ <-]|[_ Hk]]; [|by eapply Hm].
      exists (next_reg cg). split; [done|lia].
Qed.

Lemma emits_GetNodeId n id :
  (0 < id)%Z -> emits n (fun _ id' => id' = id) (GetNodeId id).
Proof.
  intros Hid cg a code cg' Hn Hwf Hm. unfold GetNodeId in Hm.
  destruct (Z.ltb_spec 0 id); [|lia]. injection Hm as <- <- <-.
  split_and!; [apply grows_refl|done|done].
Qed.

Lemma cached_Ok id m cg v code cg' :
  bindE m (cache_stateful id) cg = Ok (v, code, cg') ->
  exists cg1, m cg = Ok (v, code, cg1) /\
    cg' = if (0 <? id)%Z
          then MkCodegen (next_reg cg1) (program_market_field_cache cg1)
                 (<[id := v]> (stateful_emit_cache cg1)) (signal_values cg1) (next_node_id cg1)
          else cg1.
Proof.
  intros (a & c1 & cg1 & c2 & H1 & H2 & ->)%bindE_Ok. injection H2 as <- <- <-.
  exists cg1. by rewrite capp_Ret.
Qed.

Lemma emits_cached n id m :
  id ∈ ids -> (forall k, n <= k -> emits k (newreg k) m) ->
  emits n below (bindE m (cache_stateful id)).
Proof.
  intros Hid Hm cg v code cg' Hn Hwf Hb. apply cached_Ok in Hb as (cg1 & H1 & ->).
  destruct (Hm _ Hn _ _ _ _ (le_n _) Hwf H1) as (G & W & (r & -> & Hr)).
  destruct (Z.ltb_spec 0 id) as [Hp|]; [|split_and!; [done|done|apply below_Reg; lia]].
  destruct G as [R C S K M V], W as [WS WM WV]. simpl. split_and!; [| |apply below_Reg; lia].
  - split; simpl; auto.
    + intros i v. rewrite lookup_insert_Some. intros [[<- <-]|[_ Hv]]; [right|by apply S].
      split; [done|]. exists r. split; [done|lia].
    + intros i Hi. destruct (decide (id = i)) as [->|]; [by rewrite lookup_insert_eq|].
      rewrite lookup_insert_ne by done. auto.
  - split; simpl; auto. intros i v. rewrite lookup_insert_Some.
    intros [[_ <-]|[_ Hv]]; [|by eapply WS]. exists r. split; [done|lia].
Qed.

Lemma emits_window_period n p name : emits n any (window_period p name).
Proof.
  unfold window_period. destruct p; try apply emits_throw.
  destruct (to_int value) as [k|]; [|apply emits_lift].
  destruct (period_ok value k); [by apply emits_ret|apply emits_throw].
Qed.

Lemma emits_ticker_slot n a sym msg : emits n any (ticker_slot cfg a sym msg).
Proof.
  unfold ticker_slot. destruct a; try apply emits_throw.
  destruct (_ <=? _)%Z; [by apply emits_ret|apply emits_lift].
Qed.
End emission.

Ltac fresh_result :=
  apply emits_fresh;
  [ done
  | first [ by eauto using newreg_below | intros; eapply newreg_le; [|eassumption]; lia ] ].

(** Follow the binds of an emitter. *)
Ltac emit_step :=
  match goal with
  | |- emits _ _ _ (bindE _ (fun v => cache_stateful _ v)) => eapply emits_cached; [by cbv beta in *; subst|intros]
  | |- emits _ _ _ (bindE _ _) => eapply emits_bind; [|intros]
  | |- emits _ _ _ (JitCompiler.throw _) => apply emits_throw
  | |- emits _ _ _ (ret _) => apply emits_ret; intros
  | |- emits _ _ _ (EmitMarketFieldLoad _ _) => apply emits_EmitMarketFieldLoad
  | |- emits _ _ _ (GetNodeId _) => apply emits_GetNodeId; [done]
  | |- emits _ _ _ (window_period _ _) => apply emits_window_period
  | |- emits _ _ _ (ticker_slot _ _ _ _) => apply emits_ticker_slot
  | |- emits _ _ _ (build_reg _) => apply emits_build_reg; [done]
  | |- emits _ _ _ (CreateFCmp _ _ _) => apply emits_build_reg; [done]
  | |- emits _ _ _ (CreateFNeg _) => fresh_result
  | |- emits _ _ _ (CreateFBin _ _ _) => fresh_result
  | |- emits _ _ _ (CreateUIToFP _) => fresh_result
  | |- emits _ _ _ (CreateIntrinsic _ _) => fresh_result
  | |- emits _ _ _ (CreateCall _ _) => fresh_result
  end.

(** A name that passes a test for stateful builtins is one. *)
Ltac stateful_name :=
  exfalso; rewrite ?orb_true_iff, ?String.eqb_eq in *; destruct_or?; subst; discriminate.

Section calls.
Context {D L : Type} `{Machine D L}.
Variable ids : gset Z.
Variable cfg : Config.
Variable EmitChild : Expr D -> EmitM (D:=D) (Value D).

Definition child_emits (e : Expr D) : Prop := forall n, emits ids n below (EmitChild e).

Lemma emits_EmitQuote n name args sym : emits ids n below (EmitQuote cfg name args sym).
Proof.
  unfold EmitQuote. destruct args as [|a [|]]; try apply emits_throw. emit_step; [emit_step|].
  repeat destruct (_ =? _)%string; repeat emit_step.
Qed.

Lemma emits_EmitVwap n args id sym :
  (0 < id)%Z -> id ∈ ids -> emits ids n below (EmitVwap cfg args id sym).
Proof.
  intros Hp Hid. unfold EmitVwap. destruct args as [|t [|p [|]]]; try apply emits_throw.
  destruct t; try apply emits_throw. do 3 (emit_step; [emit_step|]). emit_step.
  destruct (has_flag cfg kVwap); repeat emit_step.
Qed.

Lemma emits_EmitMath n name f args :
  Forall child_emits args -> emits ids n below (EmitMath EmitChild name f args).
Proof.
  intros Hc. unfold EmitMath. destruct args as [|e [|]]; try apply emits_throw.
  apply Forall_cons in Hc as [He _]. emit_step; [apply He|emit_step].
Qed.

Lemma emits_EmitEmaAlpha n args id :
  Forall child_emits args -> (0 < id)%Z -> id ∈ ids ->
  emits ids n below (EmitEmaAlpha EmitChild args id).
Proof.
  intros Hc Hp Hid. unfold EmitEmaAlpha. destruct args as [|e [|a [|]]]; try apply emits_throw.
  apply Forall_cons in Hc as [He [Ha _]%Forall_cons].
  emit_step; [apply He|]. emit_step; [apply Ha|]. emit_step; [emit_step|]. repeat emit_step.
Qed.

Lemma emits_EmitWindow n name args id :
  Forall child_emits args -> (0 < id)%Z -> id ∈ ids ->
  emits ids n below (EmitWindow cfg EmitChild name args id).
Proof.
  intros Hc Hp Hid. unfold EmitWindow. destruct args as [|e [|p [|]]]; try apply emits_throw.
  apply Forall_cons in Hc as [He _]. emit_step; [emit_step|].
  destruct (_ && _); [apply emits_throw|]. emit_step; [apply He|]. emit_step; [emit_step|].
  destruct (window_effect cfg name _ _ _) as [eff vs]. repeat emit_step.
Qed.

Lemma emits_EmitCross n name args id :
  Forall child_emits args -> (0 < id)%Z -> id ∈ ids ->
  emits ids n below (EmitCross cfg EmitChild name args id).
Proof.
  intros Hc Hp Hid. unfold EmitCross. destruct args as [|e [|a [|]]]; try apply emits_throw.
  apply Forall_cons in Hc as [He [Ha _]%Forall_cons].
  emit_step; [apply He|]. emit_step; [apply Ha|]. emit_step; [emit_step|]. repeat emit_step.
Qed.

Lemma emits_EmitPair n name args id :
  Forall child_emits args -> (0 < id)%Z -> id ∈ ids ->
  emits ids n below (EmitPair cfg EmitChild name args id).
Proof.
  intros Hc Hp Hid. unfold EmitPair. destruct args as [|e [|a [|p [|]]]]; try apply emits_throw.
  apply Forall_cons in Hc as [He [Ha _]%Forall_cons]. emit_step; [emit_step|].
  emit_step; [apply He|]. emit_step; [apply Ha|]. emit_step; [emit_step|]. repeat emit_step.
Qed.

Lemma emits_EmitKalman1d n args id :
  Forall child_emits args -> (0 < id)%Z -> id ∈ ids ->
  emits ids n below (EmitKalman1d cfg EmitChild args id).
Proof.
  intros Hc Hp Hid. unfold EmitKalman1d. destruct args as [|e [|q [|r [|]]]]; try apply emits_throw.
  apply Forall_cons in Hc as [He [Hq [Hr _]%Forall_cons]%Forall_cons].
  emit_step; [apply He|]. emit_step; [apply Hq|]. emit_step; [apply Hr|]. emit_step; [emit_step|].
  emit_step. destruct (can_lower_kalman q r) as [[q' r']|]; [|emit_step].
  destruct (has_flag cfg kKalman1d); emit_step.
Qed.

Lemma emits_EmitCall n name args id sym :
  Forall child_emits args -> (if IsStatefulOp name then (0 < id)%Z /\ id ∈ ids else (id <= 0)%Z) ->
  emits ids n below (EmitCall cfg EmitChild name args id sym).
Proof.
  intros Hc Hid. unfold EmitCall. destruct (IsStatefulOp name) eqn:Hs; [destruct Hid|].
  - destruct (_ || _); [apply emits_EmitQuote|]. destruct (_ =? _)%string; [by apply emits_EmitVwap|].
    destruct (name =? "abs")%string; [by apply emits_EmitMath|].
    destruct (name =? "sqrt")%string; [by apply emits_EmitMath|].
    destruct (name =? "log")%string; [by apply emits_EmitMath|].
    destruct (_ =? _)%string; [by apply emits_EmitEmaAlpha|].
    destruct (_ || _); [by apply emits_EmitWindow|]. destruct (_ || _); [by apply emits_EmitCross|].
    destruct (_ || _); [by apply emits_EmitPair|].
    destruct (_ =? _)%string; [by apply emits_EmitKalman1d|apply emits_throw].
  - destruct (_ || _); [apply emits_EmitQuote|]. destruct (name =? "vwap")%string eqn:?; [stateful_name|].
    destruct (name =? "abs")%string; [by apply emits_EmitMath|].
    destruct (name =? "sqrt")%string; [by apply emits_EmitMath|].
    destruct (name =? "log")%string; [by apply emits_EmitMath|].
    destruct (name =? "ema_alpha")%string eqn:?; [stateful_name|].
    do 3 (match goal with
          | |- context [if ?b then _ else _] => destruct b eqn:?; [stateful_name|]
          end).
    destruct (name =? "kalman1d")%string eqn:?; [stateful_name|]. apply emits_throw.
Qed.

Lemma emits_EmitBinary n kind l r : emits ids n below (EmitBinary kind l r).
Proof. unfold EmitBinary. destruct kind; repeat emit_step. Qed.
End calls.

Section expressions.
Context {D L : Type} `{Machine D L}.
Variable ids : gset Z.
Variable cfg : Config.
Implicit Types (cg : Codegen (D:=D)) (v : Value D).

Lemma ids_in_args (args : list (Expr D)) :
  foldr and True (map (ids_in ids) args) <-> Forall (ids_in ids) args.
Proof. induction args; simpl; [done|]. rewrite Forall_cons. naive_solver. Qed.

(** Code apart, as a conditional's arm. *)
Lemma emits_arm n (m : EmitM (D:=D) (Value D)) cg v code cg' :
  emits ids n below m -> n <= next_reg cg -> wf cg -> m cg = Ok (v, code, cg') ->
  grows ids cg Ret cg' /\ defs_within (next_reg cg) (next_reg cg') code /\ wf cg' /\
  below (next_reg cg') v.
Proof.
  intros Hm Hn Hwf Ha. destruct (Hm _ _ _ _ Hn Hwf Ha) as ([R C S K M V] & W & B).
  split_and!; try done; by split.
Qed.

(** The pieces of a conditional's emission. *)
Lemma Conditional_Ok loc c t e cg v code cg' :
  EmitExpr cfg (Conditional loc c t e) cg = Ok (v, code, cg') ->
  exists cv cc cg1 tv tc cg3 ev ec cg4,
    EmitExpr cfg c cg = Ok (cv, cc, cg1) /\
    let cg2 := MkCodegen (S (next_reg cg1)) (program_market_field_cache cg1)
                 (stateful_emit_cache cg1) (signal_values cg1) (next_node_id cg1) in
    EmitExpr cfg t cg2 = Ok (tv, tc, cg3) /\ EmitExpr cfg e cg3 = Ok (ev, ec, cg4) /\
    v = Reg (next_reg cg4) /\
    code = capp cc (Seq (ICmp (next_reg cg1) UNE cv (Const (fint 0)))
             (Diamond (next_reg cg4) (next_reg cg1) tc tv ec ev Ret)) /\
    cg' = MkCodegen (S (next_reg cg4)) (program_market_field_cache cg4)
            (stateful_emit_cache cg4) (signal_values cg4) (next_node_id cg4).
Proof.
  intros Hm. simpl in Hm. apply bindE_Ok in Hm as (cv & cc & cg1 & c2 & H1 & H2 & ->).
  apply bindE_Ok in H2 as (b & c3 & cg2 & c4 & [= <- <- <-] & H2 & ->).
  apply bindE_Ok in H2 as ([tv tc] & c5 & cg3 & c6 & H3 & H2 & ->).
  apply bindE_Ok in H2 as ([ev ec] & c7 & cg4 & c8 & H4 & H2 & ->).
  apply bindE_Ok in H2 as (phi & c9 & cg5 & c10 & [= <- <- <-] & [= <- <- <-] & ->).
  unfold in_block in H3, H4. apply bind_Ok in H3 as ([[tv' tc'] cg3'] & H3 & E3).
  apply bind_Ok in H4 as ([[ev' ec'] cg4'] & H4 & E4).
  injection E3 as <- <- <- <-. injection E4 as <- <- <- <-. simpl in *. eauto 20.
Qed.

Lemma grows_reg cg cg' k :
  grows ids cg Ret cg' ->
  grows ids cg Ret (MkCodegen (S (next_reg cg')) (program_market_field_cache cg')
    (stateful_emit_cache cg') (signal_values cg') k).
Proof. intros [R C S K M V]. split; simpl; auto. Qed.

Lemma grows_code cg code code' cg' :
  grows ids cg code cg' -> defs_within (next_reg cg) (next_reg cg') code' -> grows ids cg code' cg'.
Proof. intros [R C S K M V] Hc. by split. Qed.

(** Both arms of a conditional and the phi behind them. *)
Lemma grows_diamond cg2 cg3 cg4 n tc tv ec ev k :
  grows ids cg2 Ret cg3 -> defs_within (next_reg cg2) (next_reg cg3) tc ->
  grows ids cg3 Ret cg4 -> defs_within (next_reg cg3) (next_reg cg4) ec ->
  grows ids cg2 (Diamond (next_reg cg4) n tc tv ec ev Ret)
    (MkCodegen (S (next_reg cg4)) (program_market_field_cache cg4) (stateful_emit_cache cg4)
       (signal_values cg4) k).
Proof.
  intros G3 D3 G4 D4. pose proof (g_reg _ _ _ _ G3). pose proof (g_reg _ _ _ _ G4).
  eapply grows_code; [exact (grows_trans _ _ _ _ _ _ G3 (grows_reg _ _ k G4))|].
  simpl. split_and!; try lia; [|].
  - eapply defs_within_weaken; [| |exact D3]; simpl; lia.
  - eapply defs_within_weaken; [| |exact D4]; simpl; lia.
Qed.

Lemma EmitExpr_call loc name args id sym cg :
  EmitExpr cfg (FunctionCall loc name args id sym) cg =
    match (if (0 <? id)%Z then stateful_emit_cache cg !! id else None) with
    | Some v => Ok (v, Ret, cg)
    | None => EmitCall cfg (EmitExpr cfg) name args id sym cg
    end.
Proof. reflexivity. Qed.

Lemma emits_EmitExpr e : ids_in ids e -> forall n, emits ids n below (EmitExpr cfg e).
Proof.
  induction e as [loc x|loc name|loc name i|loc k e IH|loc k l r IHl IHr|loc name args i sym IH
    |loc c t e IHc IHt IHe] using Expr_rect'; intros Hids n; simpl in Hids.
  - apply emits_ret. auto.
  - intros cg a code cg' Hn Hwf Hm. simpl in Hm. destruct (_ !! _) eqn:E; [|done].
    injection Hm as <- <- <-. split_and!; [apply grows_refl|done|by eapply wf_signals].
  - simpl. destruct (_ <? _)%Z; emit_step.
  - simpl. emit_step; [by apply IH|]. destruct k; repeat emit_step. by eapply below_le.
  - destruct Hids. simpl. emit_step; [by apply IHl|]. emit_step; [by apply IHr|].
    apply emits_EmitBinary.
  - destruct Hids as [Hid Hargs%ids_in_args]. intros cg a code cg' Hn Hwf Hm. rewrite EmitExpr_call in Hm.
    destruct (if (0 <? i)%Z then _ else _) as [v|] eqn:E.
    + injection Hm as <- <- <-. split_and!; [apply grows_refl|done|].
      destruct (0 <? i)%Z; [|done]. destruct (wf_stateful _ Hwf _ _ E) as (r & -> & Hr).
      by apply below_Reg.
    + eapply emits_EmitCall; [|exact Hid|exact Hn|exact Hwf|exact Hm].
      clear -IH Hargs. induction IH; constructor; apply Forall_cons in Hargs as [? ?]; auto.
      intros n. auto.
  - destruct Hids as (Hc & Ht & He). intros cg v code cg' Hn Hwf Hm.
    apply Conditional_Ok in Hm as (cv & cc & cg1 & tv & tc & cg3 & ev & ec & cg4 & H1 & H2).
    simpl in H2. destruct H2 as (H3 & H4 & -> & -> & ->).
    destruct (IHc Hc n _ _ _ _ Hn Hwf H1) as (G1 & W1 & B1).
    pose proof (wf_next _ (next_node_id cg1) W1) as W2.
    destruct (emits_arm 0 _ _ _ _ _ (IHt Ht 0) ltac:(lia) W2 H3) as (G3 & D3 & W3 & B3).
    destruct (emits_arm 0 _ _ _ _ _ (IHe He 0) ltac:(lia) W3 H4) as (G4 & D4 & W4 & B4).
    pose proof (g_reg _ _ _ _ G3). pose proof (g_reg _ _ _ _ G4). simpl in *.
    split_and!; [|by apply wf_next|apply below_Reg; lia].
    eapply grows_trans; [exact G1|].
    exact (grows_trans _ _ _ _ _ _ (grows_build ids cg1 (ICmp (next_reg cg1) UNE cv
      (Const (fint 0))) (next_node_id cg1) eq_refl) (grows_diamond _ _ _ _ _ _ _ _ _ G3 D3 G4 D4)).
Qed.
End expressions.
