(* ===== verification/JitCompilerFacts.v ===== *)
(** * Compiled programs compute what the interpreter computes

    A simulation between the emission of a tree and its evaluation, for code
    without lowered operators.  An emitted value may be used only where the
    verifier finds its definition to dominate the use; that condition, not
    the way the calls were numbered, is what makes the compiler's cache of
    stateful results agree with the interpreter's per-tick cache. *)

From S2P Require Import Prelude Errors Arith Ast SymbolTable SignalProgram Rolling Context Interpreter JitRuntime Lowered Ir JitCompiler SafetyFacts JitFacts IrFacts EmitFacts.

(** ** A runtime call changes only the slots of its node *)

Section frames.
Context {D L : Type} `{Machine D L}.
Notation Ctx := (SignalContext D L).

(** Everything the node arrays hold for one node. *)
Definition node_view (k : nat) (c : NodeStates D L) :=
  (ema_states c !! k, sma_states c !! k, rolling_std_states c !! k, zscore_states c !! k,
   vwap_states c !! k, lag_states c !! k, cross_states c !! k, rolling_min_deques c !! k,
   rolling_max_deques c !! k, rolling_min_indices c !! k, rolling_max_indices c !! k,
   rolling_corr_states c !! k, rolling_beta_states c !! k, kalman1d_states c !! k).

Class Local {S} (sl : Slots (NodeStates D L) S) : Prop :=
  local_view c k k' s : k <> k' ->
    node_view k' (slots_set sl (<[k := s]> (slots_get sl c)) c) = node_view k' c.

Ltac prove_local :=
  intros c k k' s Hne; unfold node_view; simpl; by rewrite list_lookup_insert_ne by done.

#[export] Instance local_ema : Local ema_slots. Proof. prove_local. Qed.
#[export] Instance local_sma : Local sma_slots. Proof. prove_local. Qed.
#[export] Instance local_std : Local rolling_std_slots. Proof. prove_local. Qed.
#[export] Instance local_zscore : Local zscore_slots. Proof. prove_local. Qed.
#[export] Instance local_vwap : Local vwap_slots. Proof. prove_local. Qed.
#[export] Instance local_lag : Local lag_slots. Proof. prove_local. Qed.
#[export] Instance local_cross : Local cross_slots. Proof. prove_local. Qed.
#[export] Instance local_mind : Local rolling_min_deques_slots. Proof. prove_local. Qed.
#[export] Instance local_maxd : Local rolling_max_deques_slots. Proof. prove_local. Qed.
#[export] Instance local_mini : Local rolling_min_indices_slots. Proof. prove_local. Qed.
#[export] Instance local_maxi : Local rolling_max_indices_slots. Proof. prove_local. Qed.
#[export] Instance local_corr : Local rolling_corr_slots. Proof. prove_local. Qed.
#[export] Instance local_beta : Local rolling_beta_slots. Proof. prove_local. Qed.
#[export] Instance local_kalman : Local kalman1d_slots. Proof. prove_local. Qed.

(** What stays when the slots of node [id] change. *)
Record only_at (id : Z) (c c' : Ctx) : Prop := {
  oa_nodes : forall k, k <> Z.to_nat id -> node_view k (nodes c') = node_view k (nodes c);
  oa_params : params c' = params c;
  oa_num : num_params c' = num_params c }.

Lemma only_at_refl id c : only_at id c c.
Proof. done. Qed.

Lemma only_at_trans id c1 c2 c3 : only_at id c1 c2 -> only_at id c2 c3 -> only_at id c1 c3.
Proof.
  intros [N1 P1 M1] [N2 P2 M2]. split; [|congruence|congruence].
  intros k Hk. rewrite N2 by done. by apply N1.
Qed.

Lemma with_node_only_at {S A} (sl : Slots (NodeStates D L) S) `{!Local sl} id
  (f : S -> Res (A * S)) c a c' :
  with_node sl id f c = Ok (a, c') -> only_at id c c'.
Proof.
  unfold with_node. intros Hw. inv_res. destruct x0 as [a' s']. inv_res. split; [|done|done].
  intros k Hk. simpl. by apply local_view.
Qed.

Lemma extremum_only_at dqs idxs `{!Local dqs} `{!Local idxs} update id x p (c : Ctx) (v : D) (c' : Ctx) :
  jit_rt_extremum dqs idxs update id x p c = Ok (v, c') -> only_at id c c'.
Proof.
  unfold jit_rt_extremum. intros Hw. apply bind_Ok in Hw as ([idx c1] & H1 & Hw).
  apply bind_Ok in Hw as ([[w i] c2] & H2 & Hw). apply bind_Ok in Hw as ([u c3] & H3 & Hw).
  injection Hw as _ <-. apply with_node_only_at in H1, H2, H3; try apply _.
  eauto using only_at_trans.
Qed.

Lemma compiled_only_at op id market (a : Args (D:=D)) c v c' :
  compiled op id market a c = Ok (v, c') -> only_at id c c'.
Proof.
  destruct op; unfold compiled; intros Hw;
    try (eapply with_node_only_at; [|exact Hw]; apply _);
    try (eapply extremum_only_at; [| |exact Hw]; apply _).
  unfold jit_rt_vwap in Hw. apply bind_Ok in Hw as (ins & _ & Hw).
  eapply with_node_only_at; [|exact Hw]; apply _.
Qed.

(** Readiness depends only on the slots of the node. *)
Lemma ready_view op id (c c' : Ctx) :
  node_view (Z.to_nat id) (nodes c') = node_view (Z.to_nat id) (nodes c) ->
  ready op id c -> ready op id c'.
Proof.
  unfold node_view. intros Hv. injection Hv as V1 V2 V3 V4 V5 V6 V7 V8 V9 V10 V11 V12 V13 V14.
  destruct op; simpl; unfold slot_ready; simpl; intros Hr; try done;
    (rewrite V1 || rewrite V2 || rewrite V3 || rewrite V4 || rewrite V5 || rewrite V6 ||
     rewrite V8 || rewrite V9); exact Hr.
Qed.
End frames.

(** ** Operands end up in instructions *)

Section needs.
Context {D L : Type} `{Machine D L}.
Variable ids : gset Z.
Implicit Types (cg : Codegen (D:=D)) (v : Value D).

(** If the code a computation emits verifies, the value is in scope. *)
Definition needs {A} v (m : EmitM (D:=D) A) : Prop :=
  forall cg a code cg' scope scope',
    wf cg -> below (next_reg cg) v -> m cg = Ok (a, code, cg') ->
    verify scope code = Some scope' -> forall r, r ∈ uses v -> r ∈ scope.

Lemma needs_ext {A} v (m m' : EmitM (D:=D) A) :
  (forall cg, m cg = m' cg) -> needs v m' -> needs v m.
Proof.
  intros He Hm cg a code cg' scope scope' Hwf Hb Ha. rewrite He in Ha. by eapply Hm.
Qed.

Lemma needs_bind_l {A B} v (m : EmitM (D:=D) A) (f : A -> EmitM (D:=D) B) :
  needs v m -> needs v (bindE m f).
Proof.
  intros Hm cg b code cg' scope scope' Hwf Hb He Hv.
  apply bindE_Ok in He as (a & c1 & cg1 & c2 & H1 & _ & ->).
  apply verify_capp in Hv as (mid & Hv & _). by eapply Hm.
Qed.

(** A register in scope behind new code, but older than it, was in scope
    before. *)
Lemma scope_before cg code cg' scope scope' v :
  grows ids cg code cg' -> verify scope code = Some scope' -> below (next_reg cg) v ->
  (forall r, r ∈ uses v -> r ∈ scope') -> forall r, r ∈ uses v -> r ∈ scope.
Proof.
  intros G Hv Hb Hu r Hr. destruct (verify_scope _ _ _ _ _ (g_code _ _ _ _ G) Hv) as [_ Hnew].
  destruct (Hnew r (Hu r Hr)) as [|Hge]; [done|]. specialize (Hb r Hr). lia.
Qed.

Lemma needs_bind_r {A B} (P : nat -> A -> Prop) v (m : EmitM (D:=D) A) (f : A -> EmitM (D:=D) B) :
  emits ids 0 P m -> (forall a, needs v (f a)) -> needs v (bindE m f).
Proof.
  intros Hm Hf cg b code cg' scope scope' Hwf Hb He Hv.
  apply bindE_Ok in He as (a & c1 & cg1 & c2 & H1 & H2 & ->).
  apply verify_capp in Hv as (mid & Hv1 & Hv2).
  destruct (Hm _ _ _ _ (Nat.le_0_l _) Hwf H1) as (G & W & _).
  eapply scope_before; [exact G|exact Hv1|exact Hb|].
  eapply Hf; [exact W| |exact H2|exact Hv2]. eapply below_le; [|exact Hb]. by apply G.
Qed.

Lemma needs_build_reg v (mk : nat -> Instr D) :
  (forall dst r, r ∈ uses v -> r ∈ instr_uses (mk dst)) -> needs v (build_reg mk).
Proof.
  intros Hmk cg a code cg' scope scope' _ _ [= <- <- <-] Hv r Hr.
  apply verify_Seq in Hv as [Hu _]. apply Hu. by apply Hmk.
Qed.

Lemma needs_build v (mk : nat -> Instr D) :
  (forall dst r, r ∈ uses v -> r ∈ instr_uses (mk dst)) -> needs v (build mk).
Proof. intros Hmk. apply needs_bind_l. by apply needs_build_reg. Qed.

Lemma needs_call v eff vs : v ∈ vs -> needs v (CreateCall eff vs).
Proof.
  intros Hv. apply needs_build. intros dst r Hr. simpl.
  apply list_elem_of_In, in_concat. exists (uses v).
  split; [apply in_map|]; by apply list_elem_of_In.
Qed.

Lemma needs_EmitBinary_l kind l r : needs l (EmitBinary kind l r).
Proof.
  destruct kind; unfold EmitBinary; try apply needs_build; try apply needs_bind_l;
    try apply needs_build; try apply needs_build_reg; intros dst x Hx; simpl; set_solver.
Qed.

Lemma needs_EmitBinary_r kind l r : needs r (EmitBinary kind l r).
Proof.
  destruct kind; unfold EmitBinary; try apply needs_build;
    try (intros dst x Hx; simpl; set_solver).
  all: try (apply needs_bind_l; (apply needs_build || apply needs_build_reg);
            intros dst x Hx; simpl; set_solver).
  all: eapply needs_bind_r; [by apply (emits_build_reg ids 0)|intros a]; apply needs_bind_l;
    apply needs_build_reg; intros dst x Hx; simpl; set_solver.
Qed.
End needs.

(** ** The simulation *)

Section simulation.
Context {D L : Type} `{Machine D L}.
Variable cfg : Config.
Variable market : MarketState D.
(** The operator at each node id, and a context for the parameters. *)
Variable Γ : gmap Z (RtOp D).
Variable c0 : SignalContext D L.
(** The ids of the signal being evaluated. *)
Variable ids : gset Z.
Implicit Types (cg : Codegen (D:=D)) (v : Value D) (s : Machine_state D L) (es : EvalState D L)
  (scope : gset nat).

(** The context is ready for the operators it is typed with. *)
Record ctx_typed (c : SignalContext D L) : Prop := {
  ct_ready : forall id op, Γ !! id = Some op -> (0 < id)%Z /\ op_valid op /\ ready op id c;
  ct_params : params c = params c0;
  ct_num : num_params c = num_params c0 }.

Record agree cg scope s es : Prop := {
  ag_wf : wf cg;
  ag_scope : forall r, r ∈ scope -> r < next_reg cg;
  ag_ctx : ctx es = js_ctx (js s);
  ag_typed : ctx_typed (ctx es);
  ag_hit : forall id r, id ∈ ids -> stateful_emit_cache cg !! id = Some (Reg r) -> r ∈ scope ->
    exists d, cache es !! id = Some d /\ env s !! r = Some (F64 d);
  ag_miss : forall id, is_Some (cache es !! id) -> is_Some (stateful_emit_cache cg !! id);
  ag_market : forall sym f r,
    program_market_field_cache cg !! MarketFieldCacheKey sym (field_index f) = Some (Reg r) ->
    r ∈ scope -> exists ins, instruments market !! sym = Some ins /\
                             env s !! r = Some (F64 (read_field f ins)) }.

(** What running code for a value leaves behind; [X] is a node whose cached
    result may be replaced. *)
Record ran (X : option Z) cg s es v code cg' scope' s' es' (d : D) : Prop := {
  rn_exec : exec market code s = Ok s';
  rn_agree : agree cg' scope' s' es';
  rn_keep : forall r, r < next_reg cg -> env s' !! r = env s !! r;
  rn_low : js_low (js s') = js_low (js s);
  rn_out : outputs s' = outputs s;
  rn_cache : forall id d', Some id <> X -> cache es !! id = Some d' -> cache es' !! id = Some d';
  rn_value : read (env s') v = Ok d }.

Definition holds (held : list (Value D * D)) cg s : Prop :=
  Forall (fun '(v, d) => below (next_reg cg) v /\ read (env s) v = Ok d) held.

(** [m] emits code for what [i] evaluates, the values [held] being known. *)
Definition sim (X : option Z) (held : list (Value D * D)) (m : EmitM (D:=D) (Value D))
  (i : M (D:=D) (L:=L) D) : Prop :=
  forall cg v code cg' scope scope' s es d es',
    agree cg scope s es -> holds held cg s -> m cg = Ok (v, code, cg') ->
    verify scope code = Some scope' -> (forall r, r ∈ uses v -> r ∈ scope') ->
    i es = Ok (d, es') -> exists s', ran X cg s es v code cg' scope' s' es' d.

Lemma holds_ran X held cg s es v code cg' scope' s' es' d :
  holds held cg s -> next_reg cg <= next_reg cg' -> ran X cg s es v code cg' scope' s' es' d ->
  holds held cg' s'.
Proof.
  intros Hh Hn Hr. eapply Forall_impl; [exact Hh|]. intros [w d'] [Hb He].
  split; [by eapply below_le|]. rewrite <- He. eapply read_keep; [exact Hb|].
  by apply (rn_keep _ _ _ _ _ _ _ _ _ _ _ Hr).
Qed.

Lemma ran_weaken X cg s es v code cg' scope' s' es' d :
  ran None cg s es v code cg' scope' s' es' d -> ran X cg s es v code cg' scope' s' es' d.
Proof. intros []. split; auto. Qed.

Lemma sim_weaken X held m i : sim None held m i -> sim X held m i.
Proof.
  intros Hs cg v code cg' scope scope' s es d es' Ha Hh Hm Hv Hu Hi.
  destruct (Hs _ _ _ _ _ _ _ _ _ _ Ha Hh Hm Hv Hu Hi) as [s' Hr]. eauto using ran_weaken.
Qed.

Local Notation "x <~ m ;; k" := (fun es => rbind (m es) (fun '(x, es) => k es))
  (at level 20, m at level 99, k at level 200, right associativity).

Lemma sim_bind_P (P : D -> Prop) X held m f i g :
  sim X held m i -> emits ids 0 below m -> (forall v, needs v (f v)) ->
  (forall es d es', ctx_typed (ctx es) -> i es = Ok (d, es') -> P d) ->
  (forall v d, P d -> sim X ((v, d) :: held) (f v) (g d)) ->
  sim X held (bindE m f) (x <~ i;; g x).
Proof.
  intros Hm Hem Hneed HP Hf cg v code cg' scope scope' s es d es' Ha Hh He Hv Hu Hi.
  apply bindE_Ok in He as (a & c1 & cg1 & c2 & H1 & H2 & ->).
  apply verify_capp in Hv as (mid & Hv1 & Hv2). apply bind_Ok in Hi as ([d1 es1] & Hi1 & Hi2).
  destruct (Hem _ _ _ _ (Nat.le_0_l _) (ag_wf _ _ _ _ Ha) H1) as (G1 & W1 & B1).
  assert (Hu1 : forall r, r ∈ uses a -> r ∈ mid).
  { intros r Hr. by apply (Hneed a _ _ _ _ _ _ W1 B1 H2 Hv2). }
  destruct (Hm _ _ _ _ _ _ _ _ _ _ Ha Hh H1 Hv1 Hu1 Hi1) as [s1 R1].
  assert (Hh1 : holds ((a, d1) :: held) cg1 s1).
  { constructor; [split; [exact B1|by apply R1]|]. eapply holds_ran; [exact Hh| |exact R1].
    by apply G1. }
  pose proof (HP _ _ _ (ag_typed _ _ _ _ Ha) Hi1) as HPd.
  destruct (Hf a d1 HPd _ _ _ _ _ _ _ _ _ _ (rn_agree _ _ _ _ _ _ _ _ _ _ _ R1) Hh1 H2 Hv2 Hu Hi2)
    as [s2 R2].
  exists s2. destruct R1 as [E1 A1 K1 L1 O1 C1 V1], R2 as [E2 A2 K2 L2 O2 C2 V2].
  split; try congruence; auto.
  - by rewrite exec_capp, E1.
  - intros r Hr. rewrite K2; [by apply K1|]. pose proof (g_reg _ _ _ _ G1). lia.
Qed.

Lemma sim_bind X held m f i g :
  sim X held m i -> emits ids 0 below m -> (forall v, needs v (f v)) ->
  (forall v d, sim X ((v, d) :: held) (f v) (g d)) ->
  sim X held (bindE m f) (x <~ i;; g x).
Proof. intros. by apply (sim_bind_P (fun _ => True)). Qed.

(** Nothing to run. *)
Lemma ran_here X cg scope s es v d :
  agree cg scope s es -> read (env s) v = Ok d -> ran X cg s es v Ret cg scope s es d.
Proof. intros Ha Hr. by split. Qed.

Lemma sim_ret X held v d : (v, d) ∈ held \/ v = Const d ->
  sim X held (ret v) (Interpreter.lift (Ok d)).
Proof.
  intros Hv cg v' code cg' scope scope' s es d' es' Ha Hh [= <- <- <-] [= <-] _ [= <- <-].
  exists s. apply ran_here; [done|]. destruct Hv as [Hv| ->]; [|done].
  by apply (proj1 (Forall_forall _ _) Hh (v, d) Hv).
Qed.

Lemma sim_ext X held m i i' : (forall es, i es = i' es) -> sim X held m i' -> sim X held m i.
Proof.
  intros He Hs cg v code cg' scope scope' s es d es' Ha Hh Hm Hv Hu Hi.
  rewrite He in Hi. by eapply Hs.
Qed.

(** *** Leaves *)

(** Agreement behind code: what has to be shown of the new cache entries. *)
Lemma agree_grow cg scope s es code cg' scope' s' es' :
  agree cg scope s es -> grows ids cg code cg' -> wf cg' -> verify scope code = Some scope' ->
  (forall r, r < next_reg cg -> env s' !! r = env s !! r) ->
  ctx es' = js_ctx (js s') -> ctx_typed (ctx es') ->
  (forall id r, id ∈ ids -> stateful_emit_cache cg' !! id = Some (Reg r) -> next_reg cg <= r ->
     r ∈ scope' -> exists d, cache es' !! id = Some d /\ env s' !! r = Some (F64 d)) ->
  (forall id r d, stateful_emit_cache cg' !! id = Some (Reg r) -> r < next_reg cg ->
     cache es !! id = Some d -> cache es' !! id = Some d) ->
  (forall id, is_Some (cache es' !! id) -> is_Some (stateful_emit_cache cg' !! id)) ->
  (forall sym f r,
     program_market_field_cache cg' !! MarketFieldCacheKey sym (field_index f) = Some (Reg r) ->
     next_reg cg <= r -> r ∈ scope' -> exists ins, instruments market !! sym = Some ins /\
       env s' !! r = Some (F64 (read_field f ins))) ->
  agree cg' scope' s' es'.
Proof.
  intros [W S C T Hh Mi Ma] G W' Hv Hk HC HT Hnew Hold Hmiss Hmk.
  destruct (verify_scope _ _ _ _ _ (g_code _ _ _ _ G) Hv) as [Hsub Hns].
  assert (Hscope : forall r, r < next_reg cg -> r ∈ scope' -> r ∈ scope).
  { intros r Hr [|Hge]%Hns; [done|lia]. }
  split; try done.
  - intros r [Hr|Hr]%Hns; [|lia]. specialize (S r Hr). pose proof (g_reg _ _ _ _ G). lia.
  - intros id r Hid Hr Hin. destruct (Nat.lt_ge_cases r (next_reg cg)) as [Hlt|]; [|by eapply Hnew].
    destruct (g_stateful _ _ _ _ G _ _ Hr) as [Hr0|(_ & r' & [= <-] & Hge)]; [|lia].
    destruct (Hh _ _ Hid Hr0 (Hscope _ Hlt Hin)) as (d & Hd & He).
    exists d. split; [by eapply Hold|]. by rewrite Hk.
  - intros sym f r Hr Hin. destruct (Nat.lt_ge_cases r (next_reg cg)) as [Hlt|]; [|by eapply Hmk].
    destruct (g_market _ _ _ _ G _ _ Hr) as [Hr0|(r' & [= <-] & Hge)]; [|lia].
    destruct (Ma _ _ _ Hr0 (Hscope _ Hlt Hin)) as (ins & Hi & He).
    exists ins. split; [done|]. by rewrite Hk.
Qed.

(** Emission that is not executed adds nothing in scope. *)
Lemma agree_skip cg scope s es cg' :
  agree cg scope s es -> grows ids cg Ret cg' -> wf cg' -> agree cg' scope s es.
Proof.
  intros Ha G W'. pose proof (ag_scope _ _ _ _ Ha) as Hs.
  eapply agree_grow; try exact G; try exact Ha; try done.
  - apply Ha.
  - apply Ha.
  - intros id r _ _ Hr Hin. specialize (Hs r Hin). lia.
  - intros id Hi. by apply (g_keys _ _ _ _ G), (ag_miss _ _ _ _ Ha).
  - intros sym f r _ Hr Hin. specialize (Hs r Hin). lia.
Qed.

(** Code that only computes. *)
Lemma ran_pure X cg scope s es v code cg' scope' env' d :
  agree cg scope s es -> grows ids cg code cg' -> wf cg' -> verify scope code = Some scope' ->
  stateful_emit_cache cg' = stateful_emit_cache cg ->
  program_market_field_cache cg' = program_market_field_cache cg ->
  (forall r, r < next_reg cg -> env' !! r = env s !! r) ->
  exec market code s = Ok (MkState env' (js s) (outputs s)) -> read env' v = Ok d ->
  ran X cg s es v code cg' scope' (MkState env' (js s) (outputs s)) es d.
Proof.
  intros Ha G W' Hv Hs Hm Hk He Hr. pose proof (ag_wf _ _ _ _ Ha) as W. split; try done.
  eapply agree_grow; try exact G; try exact Ha; try exact Hv; try done.
  - apply Ha.
  - apply Ha.
  - intros id r _ Hid Hge. rewrite Hs in Hid.
    destruct (wf_stateful _ W _ _ Hid) as (r' & [= <-] & ?). lia.
  - intros id Hi. rewrite Hs. by apply Ha.
  - intros sym f r Hid Hge. rewrite Hm in Hid.
    destruct (wf_market _ W _ _ Hid) as (r' & [= <-] & ?). lia.
Qed.

Lemma holds_read held cg s v d : holds held cg s -> (v, d) ∈ held ->
  below (next_reg cg) v /\ read (env s) v = Ok d.
Proof. intros Hh Hin. by apply (proj1 (Forall_forall _ _) Hh (v, d) Hin). Qed.

(** Operands are not affected by a new register. *)
Lemma read_new n r (x : RegValue D) env v :
  below n v -> n <= r -> read (<[r := x]> env) v = read env v.
Proof.
  intros Hb Hr. apply read_env. intros r' Hr'. rewrite lookup_insert_ne; [done|].
  specialize (Hb _ Hr'). lia.
Qed.

(** One instruction whose result is a function of known operands. *)
Lemma sim_build X held (mk : nat -> Instr D) d :
  (forall dst, instr_def (mk dst) = [dst]) ->
  (forall cg s, holds held cg s -> forall dst, step market (mk dst) s = Ok (set_reg dst (F64 d) s)) ->
  sim X held (build mk) (Interpreter.lift (Ok d)).
Proof.
  intros Hd Hstep cg v code cg' scope scope' s es d' es' Ha Hh Hm Hv _ [= <- <-].
  rewrite build_eq in Hm. injection Hm as <- <- <-. eexists.
  eapply (ran_pure _ _ _ _ _ _ _ _ _ (<[next_reg cg := F64 d]> (env s))); try exact Ha.
  - by apply grows_build.
  - apply wf_next, Ha.
  - exact Hv.
  - done.
  - done.
  - intros r Hr. apply lookup_insert_ne. lia.
  - simpl. by rewrite (Hstep _ _ Hh).
  - simpl. by rewrite lookup_insert_eq.
Qed.

Lemma sim_neg X held v d : (v, d) ∈ held -> sim X held (CreateFNeg v) (Interpreter.lift (Ok (fopp d))).
Proof.
  intros Hin. apply sim_build; [done|]. intros cg s Hh dst. simpl.
  by rewrite (proj2 (holds_read _ _ _ _ _ Hh Hin)).
Qed.

Lemma sim_intrinsic X held f v d :
  (v, d) ∈ held -> sim X held (CreateIntrinsic f v) (Interpreter.lift (Ok (intrinsic f d))).
Proof.
  intros Hin. apply sim_build; [done|]. intros cg s Hh dst. simpl.
  by rewrite (proj2 (holds_read _ _ _ _ _ Hh Hin)).
Qed.

Definition known (held : list (Value D * D)) v d : Prop := (v, d) ∈ held \/ v = Const d.

Lemma known_read held cg s v d : holds held cg s -> known held v d -> read (env s) v = Ok d.
Proof. intros Hh [Hv| ->]; [|done]. by apply (holds_read _ _ _ _ _ Hh Hv). Qed.

Lemma sim_bin X held op l r dl dr :
  known held l dl -> known held r dr ->
  sim X held (CreateFBin op l r) (Interpreter.lift (Ok (fbinary op dl dr))).
Proof.
  intros Hl Hr. apply sim_build; [done|]. intros cg s Hh dst. simpl.
  by rewrite (known_read _ _ _ _ _ Hh Hl), (known_read _ _ _ _ _ Hh Hr).
Qed.

(** A comparison widened to a [double]. *)
Lemma sim_cmp X held p l r dl dr :
  known held l dl -> known held r dr ->
  sim X held (bindE (CreateFCmp p l r) CreateUIToFP)
    (Interpreter.lift (Ok (fbool (predicate p dl dr)))).
Proof.
  intros Hl Hr cg v code cg' scope scope' s es d es' Ha Hh Hm Hv _ [= <- <-].
  pose proof (known_read _ _ _ _ _ Hh Hl) as El. pose proof (known_read _ _ _ _ _ Hh Hr) as Er.
  cbn in Hm. injection Hm as <- <- <-. eexists.
  eapply (ran_pure _ _ _ _ _ _ _ _ _ (<[S (next_reg cg) := F64 (fbool (predicate p dl dr))]>
    (<[next_reg cg := I1 (predicate p dl dr)]> (env s)))); try exact Ha; try exact Hv.
  - refine (grows_trans ids _ _ _ _ _ (grows_build ids cg (ICmp _ p l r) (next_node_id cg) eq_refl)
      (grows_build ids _ (IUIToFP _ _) _ eq_refl)).
  - apply (wf_next _ _ (wf_next _ (next_node_id cg) (ag_wf _ _ _ _ Ha))).
  - done.
  - done.
  - intros k Hk. rewrite !lookup_insert_ne by lia. reflexivity.
  - simpl. rewrite El, Er. simpl. unfold read_bit. simpl. by rewrite lookup_insert_eq.
  - simpl. by rewrite lookup_insert_eq.
Qed.

Lemma sim_distance X held p l r dl dr :
  (l, dl) ∈ held -> (r, dr) ∈ held ->
  sim X held
    (bindE (CreateFBin FSub l r) (fun d => bindE (CreateIntrinsic IntrinsicFabs d) (fun ad =>
       bindE (CreateFCmp p ad (SplatConst (flit 1 12))) CreateUIToFP)))
    (Interpreter.lift (Ok (fbool (predicate p (fabs (fsub dl dr)) (flit 1 12))))).
Proof.
  intros Hl Hr.
  apply sim_ext with (x <~ Interpreter.lift (Ok (fsub dl dr));;
    y <~ Interpreter.lift (Ok (fabs x));; Interpreter.lift (Ok (fbool (predicate p y (flit 1 12)))));
    [done|].
  apply sim_bind; [by apply (sim_bin _ _ FSub); left|emit_step| |].
  - intros v. apply needs_bind_l, needs_build. set_solver.
  - intros v d. apply sim_bind; [apply (sim_intrinsic _ _ IntrinsicFabs); by left|emit_step| |].
    + intros w. apply needs_bind_l, needs_build_reg. set_solver.
    + intros w e. apply sim_cmp; [left; by left|by right].
Qed.

Lemma sim_logic X held is_and l r dl dr :
  (l, dl) ∈ held -> (r, dr) ∈ held ->
  sim X held
    (bindE (CreateFCmp UNE l (SplatConst (fint 0))) (fun lnz =>
       bindE (CreateFCmp UNE r (SplatConst (fint 0))) (fun rnz =>
         bindE (build_reg (fun dst => ILogic dst is_and lnz rnz)) CreateUIToFP)))
    (Interpreter.lift (Ok (fbool (if is_and then fne dl (fint 0) && fne dr (fint 0)
                                  else fne dl (fint 0) || fne dr (fint 0))))).
Proof.
  intros Hl Hr cg v code cg' scope scope' s es d es' Ha Hh Hm Hv _ [= <- <-].
  destruct (holds_read _ _ _ _ _ Hh Hl) as [_ El], (holds_read _ _ _ _ _ Hh Hr) as [Br Er].
  match type of Hm with ?m _ = _ => assert (He : emits ids 0 below m) by repeat emit_step end.
  destruct (He _ _ _ _ (Nat.le_0_l _) (ag_wf _ _ _ _ Ha) Hm) as (G & W & _).
  cbn in Hm. injection Hm as <- <- <-. set (n := next_reg cg) in *.
  set (b := if is_and then fne dl (fint 0) && fne dr (fint 0) else fne dl (fint 0) || fne dr (fint 0)).
  eexists. eapply (ran_pure _ _ _ _ _ _ _ _ _
    (<[S (S (S n)) := F64 (fbool b)]> (<[S (S n) := I1 b]> (<[S n := I1 (fne dr (fint 0))]>
      (<[n := I1 (fne dl (fint 0))]> (env s)))))); try exact Ha; try exact Hv; try exact G; try exact W.
  - done.
  - done.
  - intros k Hk. rewrite !lookup_insert_ne by lia. reflexivity.
  - simpl. rewrite El. simpl. rewrite (read_new n) by (done || lia). rewrite Er. simpl.
    unfold read_bit at 1. simpl. rewrite lookup_insert_ne, lookup_insert_eq by lia. simpl.
    unfold read_bit at 1. simpl. rewrite lookup_insert_eq. simpl.
    unfold read_bit. simpl. by rewrite lookup_insert_eq.
  - simpl. by rewrite lookup_insert_eq.
Qed.

Lemma sim_EmitBinary X held kind l r dl dr :
  (l, dl) ∈ held -> (r, dr) ∈ held ->
  sim X held (EmitBinary kind l r) (Interpreter.lift (Ok (eval_binary kind dl dr))).
Proof.
  intros Hl Hr. destruct kind; unfold EmitBinary.
  - by apply (sim_bin _ _ FAdd); left.
  - by apply (sim_bin _ _ FSub); left.
  - by apply (sim_bin _ _ FMul); left.
  - by apply (sim_bin _ _ FDiv); left.
  - apply (sim_cmp _ _ OGT); by left.
  - apply (sim_cmp _ _ OLT); by left.
  - apply (sim_cmp _ _ OGE); by left.
  - apply (sim_cmp _ _ OLE); by left.
  - by apply (sim_distance _ _ OLT).
  - by apply (sim_distance _ _ OGE).
  - by apply (sim_logic _ _ true).
  - by apply (sim_logic _ _ false).
Qed.

(** A market load, cached or not. *)
Lemma sim_EmitMarketFieldLoad X held sym f :
  sim X held (EmitMarketFieldLoad sym f)
    (Interpreter.lift (rmap (read_field f) (instrument market (Z.of_nat sym)))).
Proof.
  intros cg v code cg' scope scope' s es d es' Ha Hh Hm Hv Hu Hi.
  pose proof (emits_EmitMarketFieldLoad ids 0 sym f _ _ _ _ (Nat.le_0_l _) (ag_wf _ _ _ _ Ha) Hm)
    as (G & W & B).
  apply fmap_Ok in Hi as (x & Hx & [= -> ->]). apply fmap_Ok in Hx as (ins & Hins & <-).
  unfold instrument, at_Z in Hins. destruct (Z.ltb_spec (Z.of_nat sym) 0); [lia|].
  rewrite Nat2Z.id in Hins. apply at_idx_Ok in Hins. unfold EmitMarketFieldLoad in Hm.
  destruct (program_market_field_cache cg !! _) as [w|] eqn:E.
  - injection Hm as <- <- <-. injection Hv as <-.
    destruct (wf_market _ W _ _ E) as (r & -> & Hr).
    destruct (ag_market _ _ _ _ Ha _ _ _ E) as (ins' & Hi' & He); [apply Hu; by left|].
    exists s. apply ran_here; [done|]. simpl. rewrite He. congruence.
  - rewrite build_eq in Hm. injection Hm as <- <- <-. set (n := next_reg cg) in *.
    exists (MkState (<[n := F64 (read_field f ins)]> (env s)) (js s) (outputs s)).
    assert (Hk : forall r, r < n ->
      <[n := F64 (read_field f ins)]> (env s) !! r = env s !! r).
    { intros r Hr. apply lookup_insert_ne. lia. }
    split; try done.
    + simpl. by rewrite (proj2 (at_idx_Ok _ _ _ _) Hins).
    + eapply agree_grow; try exact G; try exact Ha; try exact Hv; try done.
      * apply Ha.
      * apply Ha.
      * intros id r _ Hid Hge. simpl in Hid.
        destruct (wf_stateful _ (ag_wf _ _ _ _ Ha) _ _ Hid) as (r' & [= <-] & ?). lia.
      * apply Ha.
      * intros sym' f' r Hk' Hge _. simpl in Hk'. apply lookup_insert_Some in Hk' as
          [[[<- <-]%MarketFieldCacheKey_inj [= <-]]|[_ Hold]].
        -- exists ins. split; [done|]. apply lookup_insert_eq.
        -- destruct (wf_market _ (ag_wf _ _ _ _ Ha) _ _ Hold) as (r' & [= <-] & ?). lia.
    + simpl. by rewrite lookup_insert_eq.
Qed.

(** A runtime call: the context it leaves is typed again. *)
Lemma compiled_typed op id (a : Args (D:=D)) c (d : D) c' :
  Γ !! id = Some op -> ctx_typed c -> compiled op id market a c = Ok (d, c') -> ctx_typed c'.
Proof.
  intros Hop [Hr Hp Hn] Hc. pose proof (compiled_only_at _ _ _ _ _ _ _ Hc) as [Nv Pv Mv].
  split; [|congruence|congruence]. intros id' op' Hop'.
  destruct (Hr _ _ Hop') as (Hpos' & Hv' & Hr'), (Hr _ _ Hop) as (Hpos & Hv & Hr0).
  split_and!; [done|done|]. destruct (decide (id' = id)) as [->|Hne].
  - rewrite Hop in Hop'. injection Hop' as <-. by eapply op_ready.
  - eapply ready_view; [|exact Hr']. apply Nv. lia.
Qed.

(** The call of a stateful builtin, and its entry in the two caches. *)
Lemma sim_op held id op (a : Args (D:=D)) eff vs ds :
  id ∈ ids -> Γ !! id = Some op ->
  (forall cg s, holds held cg s -> read_all (env s) vs = Ok ds) ->
  (forall j, run_effect market eff ds j = on_ctx (compiled op id market a) j) ->
  sim (Some id) held (bindE (CreateCall eff vs) (fun v => cache_stateful id v))
    (cache_and_return id (interpret op id market a)).
Proof.
  intros Hid Hop Hread Hrun cg v code cg' scope scope' s es d es' Ha Hh Hm Hv _ Hi.
  assert (He : emits ids 0 below (bindE (CreateCall eff vs) (fun v => cache_stateful id v)))
    by repeat emit_step.
  destruct (He _ _ _ _ (Nat.le_0_l _) (ag_wf _ _ _ _ Ha) Hm) as (G & W & _).
  pose proof (ct_ready _ (ag_typed _ _ _ _ Ha) _ _ Hop) as (Hpos & Hval & Hrdy).
  apply cached_Ok in Hm as (cg1 & Hm & ->). unfold CreateCall in Hm. rewrite build_eq in Hm.
  injection Hm as <- <- <-. set (n := next_reg cg) in *.
  unfold cache_and_return in Hi. rewrite op_parity in Hi by (done || lia).
  unfold run_ctx in Hi. apply bind_Ok in Hi as ([d1 es1] & Hi & He1).
  apply bind_Ok in Hi as ([d2 c'] & Hc & He2). injection He2 as <- <-.
  destruct (Z.ltb_spec 0 id) as [_|]; [|lia]. simpl in He1. injection He1 as <- <-.
  exists (MkState (<[n := F64 d2]> (env s)) (MkJit c' (js_low (js s))) (outputs s)).
  rewrite (ag_ctx _ _ _ _ Ha) in Hc. split; try done.
  - simpl. rewrite (Hread _ _ Hh). simpl. rewrite Hrun. unfold on_ctx. by rewrite Hc.
  - eapply agree_grow; try exact G; try exact Ha; try exact Hv; try done.
    + intros r Hr. apply lookup_insert_ne. lia.
    + simpl. eapply compiled_typed; [exact Hop| |exact Hc]. rewrite <- (ag_ctx _ _ _ _ Ha).
      apply Ha.
    + intros id' r _ Hr Hge _. simpl in Hr. apply lookup_insert_Some in Hr as [[<- [= <-]]|[_ Hr]].
      * exists d2. simpl. by rewrite !lookup_insert_eq.
      * destruct (wf_stateful _ (ag_wf _ _ _ _ Ha) _ _ Hr) as (r' & [= <-] & ?). lia.
    + intros id' r d' Hr Hlt Hd. simpl in *. apply lookup_insert_Some in Hr as [[_ [= <-]]|[Hne _]];
        [lia|]. by rewrite lookup_insert_ne.
    + intros id' Hs. simpl in *. destruct (decide (id = id')) as [->|Hne].
      * rewrite lookup_insert_eq. eauto.
      * rewrite lookup_insert_ne in Hs by done. rewrite lookup_insert_ne by done. by apply Ha.
    + intros sym f r Hr Hge. simpl in Hr.
      destruct (wf_market _ (ag_wf _ _ _ _ Ha) _ _ Hr) as (r' & [= <-] & ?). lia.
  - intros r Hr. apply lookup_insert_ne. lia.
  - intros id' d' Hne Hd. simpl. rewrite lookup_insert_ne by congruence. done.
  - simpl. by rewrite lookup_insert_eq.
Qed.

(** A parameter, through the runtime. *)
Lemma sim_param X held name id :
  (0 <= id)%Z ->
  sim X held (CreateCall (RtParam id) []) (fun es => Interpreter.lift (EvalParameter name id (ctx es)) es).
Proof.
  intros Hid cg v code cg' scope scope' s es d es' Ha Hh Hm Hv _ Hi.
  apply fmap_Ok in Hi as (d' & Hd & [= -> ->]).
  unfold CreateCall in Hm. rewrite build_eq in Hm. injection Hm as <- <- <-. eexists.
  assert (Hrt : jit_rt_param id (js_ctx (js s)) = Ok d).
  { rewrite <- (ag_ctx _ _ _ _ Ha). unfold EvalParameter, jit_rt_param in *.
    destruct (params (ctx es')) as [ps|] eqn:E; [|done]. by destruct (_ || _). }
  eapply (ran_pure _ _ _ _ _ _ _ _ _ (<[next_reg cg := F64 d]> (env s))); try exact Ha.
  - by apply grows_build.
  - apply wf_next, Ha.
  - exact Hv.
  - done.
  - done.
  - intros r Hr. apply lookup_insert_ne. lia.
  - simpl. rewrite Hrt. by destruct (js s).
  - simpl. by rewrite lookup_insert_eq.
Qed.

(** *** Calls *)

Lemma sim_held X held m i : sim X [] m i -> sim X held m i.
Proof.
  intros Hs cg v code cg' scope scope' s es d es' Ha _. apply Hs; [done|]. by apply Forall_nil.
Qed.

Lemma sim_ext_m X held m m' i : (forall cg, m cg = m' cg) -> sim X held m' i -> sim X held m i.
Proof.
  intros He Hs cg v code cg' scope scope' s es d es' Ha Hh Hm. rewrite He in Hm. by eapply Hs.
Qed.

Lemma bindE_pure {A B} (m : EmitM (D:=D) A) (f : A -> EmitM (D:=D) B) cg a :
  m cg = Ok (a, Ret, cg) -> bindE m f cg = f a cg.
Proof. intros Hm. unfold bindE. rewrite Hm. simpl. by destruct (f a cg) as [[[b c] cg']|]. Qed.

Lemma bindE_ext {A B} (m : EmitM (D:=D) A) (f g : A -> EmitM (D:=D) B) cg :
  (forall a cg, f a cg = g a cg) -> bindE m f cg = bindE m g cg.
Proof.
  intros Hfg. unfold bindE. destruct (m cg) as [[[a c] cg']|]; [|done]. simpl. by rewrite Hfg.
Qed.

(** Steps that emit nothing. *)
Lemma sim_period X held p name n f i :
  period_of p = Some n -> sim X held (f n) i -> sim X held (bindE (window_period p name) f) i.
Proof.
  intros Hp. apply sim_ext_m. intros cg. apply bindE_pure. unfold period_of in Hp.
  destruct p; try done. unfold window_period. destruct (to_int value) as [z|]; [|done].
  destruct (period_ok value z); [|done]. by injection Hp as ->.
Qed.

Lemma bind_node_id {A} id (f : Z -> EmitM (D:=D) A) cg :
  (0 < id)%Z -> bindE (GetNodeId id) f cg = f id cg.
Proof.
  intros Hid. apply bindE_pure. unfold GetNodeId. by destruct (Z.ltb_spec 0 id); [|lia].
Qed.

Lemma cache_and_return_bind {A} id (m : M (D:=D) (L:=L) A) (f : A -> M D) es :
  cache_and_return id (x <~ m;; f x) es = (x <~ m;; cache_and_return id (f x)) es.
Proof. unfold cache_and_return. rewrite rbind_assoc. by destruct (m es) as [[a es']|]. Qed.

Notation sim_expr e := (sim None [] (EmitExpr cfg e) (Visit (symbols cfg) market e)).

Lemma read_all_Const env (ds : list D) : read_all env (map Const ds) = Ok ds.
Proof. induction ds as [|d ds' IH]; simpl; [done|]. by rewrite IH. Qed.

(** A call with one sample, and constants behind it. *)
Lemma sim_call1 id op eff ds e F :
  (0 < id)%Z -> id ∈ ids -> Γ !! id = Some op -> ids_in ids e -> sim_expr e ->
  (forall x cg, F x cg =
     bindE (CreateCall eff (x :: map Const ds)) (fun v => cache_stateful id v) cg) ->
  (forall d j, run_effect market eff (d :: ds) j =
     on_ctx (compiled op id market (MkArgs d d d)) j) ->
  sim (Some id) [] (bindE (EmitExpr cfg e) F)
    (x <~ Visit (symbols cfg) market e;;
     cache_and_return id (interpret op id market (MkArgs x x x))).
Proof.
  intros Hpos Hid Hop Hin He HF Hrun. apply sim_bind; [by apply sim_weaken|by apply emits_EmitExpr| |].
  - intros v. eapply needs_ext; [apply HF|]. apply needs_bind_l, needs_call. by left.
  - intros v d. eapply sim_ext_m; [apply HF|].
    apply (sim_op _ _ _ _ _ _ (d :: ds)); [done|done| |by intros j; apply Hrun].
    intros cg s Hh. simpl. destruct (holds_read _ _ _ v d Hh ltac:(by left)) as [_ ->]. simpl.
    by rewrite read_all_Const.
Qed.

(** A call with two samples. *)
Lemma sim_call2 id op eff ea eb F :
  (0 < id)%Z -> id ∈ ids -> Γ !! id = Some op ->
  ids_in ids ea -> sim_expr ea -> ids_in ids eb -> sim_expr eb ->
  (forall a b cg, F a b cg = bindE (CreateCall eff [a; b]) (fun v => cache_stateful id v) cg) ->
  (forall a b j, run_effect market eff [a; b] j =
     on_ctx (compiled op id market (MkArgs a b b)) j) ->
  sim (Some id) []
    (bindE (EmitExpr cfg ea) (fun a => bindE (EmitExpr cfg eb) (fun b => F a b)))
    (a <~ Visit (symbols cfg) market ea;; b <~ Visit (symbols cfg) market eb;;
     cache_and_return id (interpret op id market (MkArgs a b b))).
Proof.
  intros Hpos Hid Hop Hina Ha Hinb Hb HF Hrun.
  assert (Hneed : forall v a b, v ∈ [a; b] -> needs v (F a b)).
  { intros v a b Hv. eapply needs_ext; [apply HF|]. by apply needs_bind_l, needs_call. }
  apply sim_bind; [by apply sim_weaken|by apply emits_EmitExpr| |].
  { intros v. eapply needs_bind_r; [by apply emits_EmitExpr|]. intros b. apply Hneed. by left. }
  intros va da. apply sim_bind; [by apply sim_held, sim_weaken|by apply emits_EmitExpr| |].
  { intros v. apply Hneed. set_solver. }
  intros vb db. eapply sim_ext_m; [apply HF|].
  apply (sim_op _ _ _ _ _ _ [da; db]); [done|done| |by intros j; apply Hrun].
  intros cg s Hh. simpl. pose proof (holds_read _ _ _ va da Hh) as Ra.
  pose proof (holds_read _ _ _ vb db Hh) as Rb.
  rewrite (proj2 (Ra ltac:(set_solver))), (proj2 (Rb ltac:(set_solver))). done.
Qed.

Lemma sim_refine X held m i i' :
  (forall es r, ctx_typed (ctx es) -> i es = Ok r -> i' es = Ok r) ->
  sim X held m i' -> sim X held m i.
Proof.
  intros He Hs cg v code cg' scope scope' s es d es' Ha Hh Hm Hv Hu Hi%He; [|apply Ha].
  by eapply Hs.
Qed.

Lemma sim_throw X held msg i : sim X held (JitCompiler.throw msg) i.
Proof. by intros cg v code cg' scope scope' s es d es' Ha Hh [=]. Qed.

(** The instrument slot of a ticker argument. *)
Definition ticker_of (e : Expr D) (sym : Z) : option nat :=
  if (0 <=? sym)%Z then Some (Z.to_nat sym)
  else match e with
       | IdentifierExpr _ name => symbol_to_id_ (symbols cfg) !! name
       | _ => None
       end.

Lemma sim_slot X held e sym msg f i :
  (forall loc name k, e = IdentifierExpr loc name -> ticker_of e sym = Some k ->
     sim X held (f k) i) ->
  sim X held (bindE (ticker_slot cfg e sym msg) f) i.
Proof.
  intros Hf. destruct e; try (eapply sim_ext_m; [|by apply (sim_throw _ _ msg)]; done).
  unfold ticker_of in Hf. simpl in *. destruct (0 <=? sym)%Z.
  - eapply sim_ext_m; [|by eapply Hf]. intros cg. by apply bindE_pure.
  - unfold LookupId. destruct (symbol_to_id_ (symbols cfg) !! name) as [k|].
    + eapply sim_ext_m; [|by eapply Hf]. intros cg. by apply bindE_pure.
    + by intros cg v code cg' scope scope' s es d es' Ha Hh [=].
Qed.

Lemma ResolveSymbolSlot_slot loc name (rest : list (Expr D)) sym k fn_name :
  ticker_of (IdentifierExpr loc name) sym = Some k -> rest = [] \/ fn_name = "vwap"%string ->
  ResolveSymbolSlot (symbols cfg) (IdentifierExpr loc name :: rest) sym fn_name = Ok (Z.of_nat k).
Proof.
  unfold ticker_of, ResolveSymbolSlot. destruct (Z.leb_spec 0 sym).
  - intros [= <-] _. by rewrite Z2Nat.id.
  - unfold LookupId. intros -> [-> | ->]; [done|]. by rewrite andb_false_r.
Qed.

(** [mid], [bid], [ask] and [spread]. *)
Lemma sim_load_bin X held (swap : bool) op k (f g : Field) :
  sim X held
    (bindE (EmitMarketFieldLoad k f) (fun a =>
       bindE (EmitMarketFieldLoad k g) (fun b =>
       CreateFBin op (if swap then b else a) (if swap then a else b))))
    (Interpreter.lift (rmap (fun ins =>
       let a := read_field f ins in let b := read_field g ins in
       fbinary op (if swap then b else a) (if swap then a else b))
       (instrument market (Z.of_nat k)))).
Proof.
  apply sim_ext with (a <~ Interpreter.lift (rmap (read_field f) (instrument market (Z.of_nat k)));;
    b <~ Interpreter.lift (rmap (read_field g) (instrument market (Z.of_nat k)));;
    Interpreter.lift (Ok (fbinary op (if swap then b else a) (if swap then a else b)))).
  { intros es. unfold Interpreter.lift. by destruct (instrument market (Z.of_nat k)). }
  apply sim_bind; [apply sim_EmitMarketFieldLoad|emit_step| |].
  { intros v. eapply (needs_bind_r ids); [apply emits_EmitMarketFieldLoad|]. intros b.
    apply needs_build. destruct swap; set_solver. }
  intros va da. apply sim_bind; [apply sim_EmitMarketFieldLoad|emit_step| |].
  { intros v. apply needs_build. destruct swap; set_solver. }
  intros vb db. apply sim_bin; left; destruct swap; set_solver.
Qed.

Lemma sim_mid X held k :
  sim X held
    (bindE (EmitMarketFieldLoad k FBid) (fun a =>
       bindE (EmitMarketFieldLoad k FAsk) (fun b =>
       bindE (CreateFBin FAdd a b) (fun sum => CreateFBin FMul sum (SplatConst (flit 5 1))))))
    (Interpreter.lift (rmap mid (instrument market (Z.of_nat k)))).
Proof.
  apply sim_ext with (x <~ Interpreter.lift (rmap (fun ins => fadd (bid ins) (ask ins))
      (instrument market (Z.of_nat k)));; Interpreter.lift (Ok (fmul x (flit 5 1)))).
  { intros es. unfold Interpreter.lift. by destruct (instrument market (Z.of_nat k)). }
  apply sim_ext_m with (bindE (bindE (EmitMarketFieldLoad k FBid) (fun a =>
       bindE (EmitMarketFieldLoad k FAsk) (fun b => CreateFBin FAdd a b)))
    (fun sum => CreateFBin FMul sum (SplatConst (flit 5 1)))).
  { intros cg. unfold bindE. destruct (EmitMarketFieldLoad k FBid cg) as [[[a ca] cg1]|]; [|done].
    simpl. destruct (EmitMarketFieldLoad k FAsk cg1) as [[[b cb] cg2]|]; [|done]. simpl.
    by rewrite !capp_assoc. }
  apply sim_bind; [by apply (sim_load_bin _ _ false FAdd _ FBid FAsk)|repeat emit_step| |].
  { intros v. apply needs_build. set_solver. }
  intros v d. apply (sim_bin _ _ FMul); [left; set_solver|by right].
Qed.

Lemma sim_EmitQuote X name read args sym :
  (forall k, sim X []
     (if (name =? "bid")%string then EmitMarketFieldLoad k FBid
      else if (name =? "ask")%string then EmitMarketFieldLoad k FAsk
      else if (name =? "mid")%string then
        bindE (EmitMarketFieldLoad k FBid) (fun bid =>
        bindE (EmitMarketFieldLoad k FAsk) (fun ask =>
        bindE (CreateFBin FAdd bid ask) (fun sum =>
        CreateFBin FMul sum (SplatConst (flit 5 1)))))
      else
        bindE (EmitMarketFieldLoad k FBid) (fun bid =>
        bindE (EmitMarketFieldLoad k FAsk) (fun ask => CreateFBin FSub ask bid)))
     (Interpreter.lift (rmap read (instrument market (Z.of_nat k))))) ->
  sim X [] (EmitQuote cfg name args sym)
    (Interpreter.lift (EvalQuote (symbols cfg) market name read args sym)).
Proof.
  intros Hk. destruct args as [|a [|b rest]]; [apply sim_throw| |apply sim_throw].
  apply sim_slot. intros loc tick k -> Hs. eapply sim_ext; [|apply Hk].
  intros es. unfold EvalQuote. simpl. erewrite ResolveSymbolSlot_slot; [|exact Hs|by left]. done.
Qed.

Lemma sim_EmitMath X name f g args :
  Forall (fun e => ids_in ids e /\ sim_expr e) args -> (forall d, intrinsic f d = g d) ->
  sim X [] (EmitMath (EmitExpr cfg) name f args)
    (EvalMath (Visit (symbols cfg) market) name g args).
Proof.
  intros Hargs Hg. destruct args as [|e [|]]; [apply sim_throw| |apply sim_throw].
  apply Forall_cons in Hargs as [[Hin He] _]. unfold EmitMath, EvalMath.
  apply sim_bind; [by apply sim_weaken|by apply emits_EmitExpr| |].
  - intros v. apply needs_build. set_solver.
  - intros v d. rewrite <- Hg. apply sim_intrinsic. by left.
Qed.

(** *** The operator of a call *)

(** The value of an argument that does not change between ticks. *)
Definition const_value (e : Expr D) : option D :=
  match e with
  | NumberLiteral _ v => Some v
  | ParameterExpr _ name id =>
      match EvalParameter name id c0 with Ok d => Some d | Err _ => None end
  | _ => None
  end.

Definition windowed_rtop (name : string) (p : nat) : option (RtOp D) :=
  if (name =? "ema")%string then Some (OEma p)
  else if (name =? "sma")%string then Some (OSma p)
  else if (name =? "rolling_std")%string then Some (OStd p)
  else if (name =? "zscore")%string then Some (OZscore p)
  else if (name =? "lag")%string then Some (OLag p)
  else if (name =? "rolling_min")%string then Some (OMin p)
  else if (name =? "rolling_max")%string then Some (OMax p)
  else None.

(** The operator of a stateful call, with its constants: the period is a
    literal, the factor of [ema_alpha] and the variances of [kalman1d] are
    literals or parameters. *)
Definition call_rtop (name : string) (args : list (Expr D)) (sym : Z) : option (RtOp D) :=
  match args with
  | [e; p] =>
      if (name =? "ema_alpha")%string then OEmaAlpha <$> const_value p
      else if (name =? "cross_above")%string then Some OCrossAbove
      else if (name =? "cross_below")%string then Some OCrossBelow
      else
        n ← period_of p;
        if (name =? "vwap")%string then (fun k => OVwap n (Z.of_nat k)) <$> ticker_of e sym
        else windowed_rtop name n
  | [_; q; r] =>
      if (name =? "kalman1d")%string then _ ← const_value q; _ ← const_value r; Some OKalman
      else if (name =? "rolling_corr")%string then OCorr <$> period_of r
      else if (name =? "rolling_beta")%string then OBeta <$> period_of r
      else None
  | _ => None
  end.

(** Every stateful call of a tree is numbered with an id of the signal, and
    [Γ] gives its operator. *)
Fixpoint typed (e : Expr D) : Prop :=
  match e with
  | NumberLiteral _ _ | IdentifierExpr _ _ | ParameterExpr _ _ _ => True
  | UnaryOp _ _ x => typed x
  | BinaryOp _ _ l r => typed l /\ typed r
  | Conditional _ c t f => typed c /\ typed t /\ typed f
  | FunctionCall _ name args id sym =>
      (if IsStatefulOp name
       then (0 < id)%Z /\ id ∈ ids /\ exists op, call_rtop name args sym = Some op /\ Γ !! id = Some op
       else (id <= 0)%Z) /\
      foldr and True (map typed args)
  end.

Lemma typed_args (args : list (Expr D)) :
  foldr and True (map typed args) <-> Forall typed args.
Proof. induction args; simpl; [done|]. rewrite Forall_cons. naive_solver. Qed.

Lemma typed_ids_in e : typed e -> ids_in ids e.
Proof.
  induction e using Expr_rect'; simpl; try naive_solver.
  intros [Hop Hargs%typed_args]. split.
  - destruct (IsStatefulOp n); naive_solver.
  - apply ids_in_args. rewrite Forall_forall in *. auto.
Qed.

(** A constant argument evaluates to its value and changes nothing. *)
Lemma const_value_Visit e d es :
  ctx_typed (ctx es) -> const_value e = Some d -> Visit (symbols cfg) market e es = Ok (d, es).
Proof.
  intros [_ Hp Hn] He. destruct e; try done; simpl in *.
  - by injection He as ->.
  - assert (Hc : EvalParameter name param_id (ctx es) = EvalParameter name param_id c0).
    { unfold EvalParameter. by rewrite Hp, Hn. }
    rewrite Hc. by destruct (EvalParameter name param_id c0); simplify_eq/=.
Qed.

(** *** The stateful builtins *)

Section stateful.
Variables (id : Z) (op : RtOp D).
Hypothesis id_pos : (0 < id)%Z.
Hypothesis id_in : id ∈ ids.
Hypothesis id_op : Γ !! id = Some op.

Hypothesis plain : lowering cfg = kNone.
Hypothesis scalar : use_avx2 cfg = false.

Lemma no_flag bit : has_flag cfg bit = false.
Proof. unfold has_flag, HasFlag. by rewrite plain. Qed.

(** The arguments are simulated. *)
Definition arg_ok (e : Expr D) : Prop := typed e /\ sim_expr e.

(** The effect of a windowed operator that is not lowered. *)
Lemma window_effect_plain name n :
  windowed_rtop name n = Some op ->
  exists eff ds, (forall x, window_effect cfg name id n x = (eff, x :: map Const ds)) /\
    forall d j, run_effect market eff (d :: ds) j =
      on_ctx (compiled op id market (MkArgs d d d)) j.
Proof.
  unfold windowed_rtop, window_effect. rewrite !no_flag, scalar. simpl.
  repeat (destruct (_ =? _)%string;
    [intros [= <-];
     first [by exists (RtEmaAlpha id n), [ema_alpha_of n] | by exists (RtSma id n), []
       | by exists (RtRollingStd id n), [] | by exists (RtZscore id n), []
       | by exists (RtLag id n), [] | by exists (RtRollingMin id n), []
       | by exists (RtRollingMax id n), []]|]).
  done.
Qed.

Lemma sim_window name e p n i :
  period_of p = Some n -> windowed_rtop name n = Some op -> arg_ok e ->
  (forall es r, cache_and_return id i es = Ok r ->
     (x <~ Visit (symbols cfg) market e;;
      cache_and_return id (interpret op id market (MkArgs x x x))) es = Ok r) ->
  sim (Some id) [] (EmitWindow cfg (EmitExpr cfg) name [e; p] id) (cache_and_return id i).
Proof.
  intros Hp Hw [Ht Hs] Hi. unfold EmitWindow. eapply sim_period; [exact Hp|].
  destruct (_ && (n <? 2)); [apply sim_throw|]. eapply sim_refine; [by intros es r _; apply Hi|].
  destruct (window_effect_plain name n Hw) as (eff & ds & Heff & Hrun).
  eapply sim_call1; try done; [by apply typed_ids_in|].
  intros x cg. rewrite bind_node_id by done. by rewrite Heff.
Qed.

(** The interpreter's side of a windowed operator: behind the checks. *)
Lemma period_parsed p n n' what :
  period_of p = Some n -> ParsePositiveIntegerPeriod (D:=D) p what = Ok n' -> n' = n.
Proof.
  unfold period_of, ParsePositiveIntegerPeriod. intros Hp Hn. destruct p; try done. simpl in Hn.
  destruct (to_int value); [|done]. destruct (period_ok value z); congruence.
Qed.

Lemma window_refine {A} p n what (check : nat -> Res A) (k : nat -> D -> M D) e es r :
  period_of p = Some n ->
  cache_and_return id (n <~ Interpreter.lift (ParsePositiveIntegerPeriod p what);;
    _ <~ Interpreter.lift (check n);; x <~ Visit (symbols cfg) market e;; k n x) es = Ok r ->
  (x <~ Visit (symbols cfg) market e;; cache_and_return id (k n x)) es = Ok r.
Proof.
  intros Hp Hr. etransitivity; [symmetry; exact (cache_and_return_bind id _ (k n) es)|].
  unfold cache_and_return in *. apply bind_Ok in Hr as ([d es1] & Hr & He).
  apply bind_Ok in Hr as ([n' es2] & Hn & Hr). apply bind_Ok in Hr as ([u es3] & Hu & Hr).
  apply fmap_Ok in Hn as (n'' & Hn & [= -> ->]). apply fmap_Ok in Hu as (u' & Hu & [= -> ->]).
  rewrite (period_parsed _ _ _ _ Hp Hn) in Hr. by rewrite Hr.
Qed.

Lemma sim_window_op name what e p n {A} (check : nat -> Res A) k :
  period_of p = Some n -> windowed_rtop name n = Some op -> arg_ok e ->
  (forall x, interpret op id market (MkArgs x x x) = k n x) ->
  sim (Some id) [] (EmitWindow cfg (EmitExpr cfg) name [e; p] id)
    (cache_and_return id (n <~ Interpreter.lift (ParsePositiveIntegerPeriod p what);;
       _ <~ Interpreter.lift (check n);; x <~ Visit (symbols cfg) market e;; k n x)).
Proof.
  intros Hp Hw He Hi. eapply sim_window; [exact Hp|exact Hw|exact He|].
  intros es r Hr. eapply window_refine in Hr; [|exact Hp]. rewrite <- Hr.
  destruct (Visit (symbols cfg) market e es) as [[d es1]|]; [|done]. simpl. by rewrite Hi.
Qed.

Lemma sim_EvalWindow name min {S} (sl : Slots (NodeStates D L) S) stp e p n :
  period_of p = Some n -> windowed_rtop name n = Some op -> arg_ok e ->
  (forall x, interpret op id market (MkArgs x x x) = on_node sl name id (stp n x)) ->
  sim (Some id) [] (EmitWindow cfg (EmitExpr cfg) name [e; p] id)
    (cache_and_return id (EvalWindow (Visit (symbols cfg) market) name min sl stp [e; p] id)).
Proof.
  intros Hp Hw He Hi. exact (sim_window_op name _ e p n
    (fun period => ensure (min <=? period) _) (fun n x => on_node sl name id (stp n x)) Hp Hw He Hi).
Qed.

Lemma sim_EvalRollingExtremum name dqs idxs update e p n :
  period_of p = Some n -> windowed_rtop name n = Some op -> arg_ok e ->
  (forall x, interpret op id market (MkArgs x x x) = extremum_step name dqs idxs update id n x) ->
  sim (Some id) [] (EmitWindow cfg (EmitExpr cfg) name [e; p] id)
    (cache_and_return id
       (EvalRollingExtremum (Visit (symbols cfg) market) name dqs idxs update [e; p] id)).
Proof.
  intros Hp Hw He Hi. exact (sim_window_op name _ e p n (fun _ => Ok tt)
    (fun n x => extremum_step name dqs idxs update id n x) Hp Hw He Hi).
Qed.

Lemma cache_and_return_bind2 {A B} (m : M (D:=D) (L:=L) A) (m' : M (D:=D) (L:=L) B)
  (f : A -> B -> M D) es :
  cache_and_return id (x <~ m;; y <~ m';; f x y) es =
    (x <~ m;; y <~ m';; cache_and_return id (f x y)) es.
Proof.
  rewrite (cache_and_return_bind id m (fun x => y <~ m';; f x y)).
  destruct (m es) as [[a es1]|]; [|done]. simpl. apply cache_and_return_bind.
Qed.

Lemma sim_EmitCross name before now ea eb :
  op = (if (name =? "cross_above")%string then OCrossAbove else OCrossBelow) ->
  (forall a b, interpret op id market (MkArgs a b b) =
     on_node cross_slots name id (cross_step before now a b)) ->
  arg_ok ea -> arg_ok eb ->
  sim (Some id) [] (EmitCross cfg (EmitExpr cfg) name [ea; eb] id)
    (cache_and_return id (EvalCross (Visit (symbols cfg) market) name before now [ea; eb] id)).
Proof.
  intros Hname Hi [Ta Ha] [Tb Hb]. eapply sim_ext; [apply cache_and_return_bind2|].
  eapply sim_ext; [|eapply (sim_call2 id op
    (if (name =? "cross_above")%string then RtCrossAbove id else RtCrossBelow id));
    try done; try by apply typed_ids_in].
  - intros es. cbv beta. destruct (Visit (symbols cfg) market ea es) as [[a es1]|]; [|done]. simpl.
    destruct (Visit (symbols cfg) market eb es1) as [[b es2]|]; [|done]. simpl. by rewrite Hi.
  - intros a b cg. rewrite bind_node_id by done. by rewrite no_flag.
  - intros a b j. rewrite Hname. by destruct (name =? "cross_above")%string.
Qed.

Lemma sim_EmitPair name sl rd ex ey p n :
  period_of p = Some n ->
  op = (if (name =? "rolling_corr")%string then OCorr n else OBeta n) ->
  (forall a b, interpret op id market (MkArgs a b b) =
     on_node sl name id (pair_step rd n a b)) ->
  arg_ok ex -> arg_ok ey ->
  sim (Some id) [] (EmitPair cfg (EmitExpr cfg) name [ex; ey; p] id)
    (cache_and_return id (EvalPair (Visit (symbols cfg) market) name sl rd [ex; ey; p] id)).
Proof.
  intros Hp Hname Hi [Ta Ha] [Tb Hb]. unfold EmitPair. eapply sim_period; [exact Hp|].
  eapply (sim_refine _ _ _ _ (x <~ Visit (symbols cfg) market ex;;
    y <~ Visit (symbols cfg) market ey;; cache_and_return id (interpret op id market (MkArgs x y y)))).
  - intros es r _ Hr. unfold cache_and_return in Hr. apply bind_Ok in Hr as ([d es1] & Hr & He).
    apply bind_Ok in Hr as ([n' es2] & Hn & Hr). apply fmap_Ok in Hn as (n'' & Hn & [= -> ->]).
    rewrite (period_parsed _ _ _ _ Hp Hn) in Hr. apply bind_Ok in Hr as ([x es2'] & Hx & Hr).
    apply bind_Ok in Hr as ([y es3] & Hy & Hr). rewrite Hx. simpl. rewrite Hy. simpl. rewrite Hi.
    unfold cache_and_return. rewrite Hr. exact He.
  - eapply (sim_call2 id op
      (if (name =? "rolling_corr")%string then RtRollingCorr id n else RtRollingBeta id n));
      try done; try by apply typed_ids_in.
    + intros a b cg. rewrite bind_node_id by done. by rewrite !no_flag.
    + intros a b j. rewrite Hname. by destruct (name =? "rolling_corr")%string.
Qed.

Lemma sim_EmitVwap t p n k sym :
  period_of p = Some n -> ticker_of t sym = Some k -> op = OVwap n (Z.of_nat k) ->
  sim (Some id) [] (EmitVwap cfg [t; p] id sym)
    (cache_and_return id (EvalVwap (symbols cfg) market [t; p] id sym)).
Proof.
  intros Hp Hk Hop. destruct t; try apply sim_throw. unfold EmitVwap.
  eapply sim_period; [exact Hp|]. apply sim_slot. intros loc' tick k' [= <- <-] Hk'.
  rewrite Hk in Hk'. injection Hk' as <-.
  eapply sim_ext_m; [intros cg; rewrite bind_node_id by done; by rewrite no_flag|].
  eapply (sim_refine _ _ _ _ (cache_and_return id
    (interpret op id market (MkArgs (fint 0) (fint 0) (fint 0))))).
  - intros es r _ Hr. unfold cache_and_return in *. apply bind_Ok in Hr as ([d es1] & Hr & He).
    apply bind_Ok in Hr as ([n' es2] & Hn & Hr). apply fmap_Ok in Hn as (n'' & Hn & [= -> ->]).
    rewrite (period_parsed _ _ _ _ Hp Hn) in Hr.
    erewrite ResolveSymbolSlot_slot in Hr; [|exact Hk|by right]. simpl in Hr.
    rewrite Hop. simpl. by rewrite Hr.
  - apply (sim_op _ _ _ _ _ _ []); [done|done|done|]. intros j. by rewrite Hop.
Qed.

Lemma sim_EmitEmaAlpha e a al :
  const_value a = Some al -> op = OEmaAlpha al -> arg_ok e -> arg_ok a ->
  sim (Some id) [] (EmitEmaAlpha (EmitExpr cfg) [e; a] id)
    (cache_and_return id (EvalEmaAlpha (Visit (symbols cfg) market) [e; a] id)).
Proof.
  intros Hal Hop [Te He] [Ta Ha].
  eapply (sim_refine _ _ _ _ (x <~ Visit (symbols cfg) market e;;
    alpha <~ Visit (symbols cfg) market a;;
    cache_and_return id (on_node ema_slots "ema_alpha" id (ema_alpha_step alpha x)))).
  { intros es r _ Hr. unfold cache_and_return in *. apply bind_Ok in Hr as ([d es1] & Hr & Hc).
    apply bind_Ok in Hr as ([x es2] & Hx & Hr). apply bind_Ok in Hr as ([alpha es3] & Hy & Hr).
    apply bind_Ok in Hr as ([u es4] & Hu & Hr). apply fmap_Ok in Hu as (u' & Hu & [= -> ->]).
    rewrite Hx. simpl. rewrite Hy. simpl. by rewrite Hr. }
  assert (Hneed : forall v x alpha, v ∈ [x; alpha] -> needs v (bindE (GetNodeId id) (fun id =>
    bindE (CreateCall (RtEmaAlpha id 0) [x; alpha]) (fun v => cache_stateful id v)))).
  { intros v x alpha Hv. eapply needs_ext; [intros cg; by apply bind_node_id|].
    by apply needs_bind_l, needs_call. }
  apply sim_bind; [by apply sim_weaken|by apply emits_EmitExpr, typed_ids_in| |].
  { intros v. eapply needs_bind_r; [by apply emits_EmitExpr, typed_ids_in|]. intros alpha.
    apply Hneed. by left. }
  intros vx dx. eapply (sim_bind_P (fun d => d = al));
    [by apply sim_held, sim_weaken|by apply emits_EmitExpr, typed_ids_in| | |].
  { intros v. apply Hneed. set_solver. }
  { intros es d es' Hc Hd. rewrite (const_value_Visit _ _ _ Hc Hal) in Hd. congruence. }
  intros va da ->. eapply sim_ext_m; [intros cg; by apply bind_node_id|].
  eapply (sim_ext _ _ _ _ (cache_and_return id (interpret op id market (MkArgs dx al al))));
    [by rewrite Hop|].
  apply (sim_op _ _ _ _ _ _ [dx; al]); [done|done| |by rewrite Hop].
  intros cg s Hh. simpl. pose proof (holds_read _ _ _ vx dx Hh) as Rx.
  pose proof (holds_read _ _ _ va al Hh) as Ra.
  rewrite (proj2 (Rx ltac:(set_solver))), (proj2 (Ra ltac:(set_solver))). done.
Qed.

Lemma sim_EmitKalman1d ex eq er q r :
  const_value eq = Some q -> const_value er = Some r -> op = OKalman ->
  arg_ok ex -> arg_ok eq -> arg_ok er ->
  sim (Some id) [] (EmitKalman1d cfg (EmitExpr cfg) [ex; eq; er] id)
    (cache_and_return id (EvalKalman1d (Visit (symbols cfg) market) [ex; eq; er] id)).
Proof.
  intros Hq Hr Hop [Tx Hx] [Tq Sq] [Tr Sr].
  eapply (sim_refine _ _ _ _ (x <~ Visit (symbols cfg) market ex;;
    cache_and_return id (interpret op id market (MkArgs x q r)))).
  { intros es v Hc He. unfold cache_and_return in *. apply bind_Ok in He as ([d es1] & He & Hv).
    unfold EvalKalman1d in He. rewrite (const_value_Visit _ _ _ Hc Hq) in He. simpl in He.
    rewrite (const_value_Visit _ _ _ Hc Hr) in He. simpl in He.
    apply bind_Ok in He as ([u es2] & Hu & He). apply fmap_Ok in Hu as (u' & Hu & [= -> ->]).
    apply bind_Ok in He as ([x es3] & Hx' & He). rewrite Hx'. simpl. rewrite Hop. simpl.
    by rewrite He. }
  set (call x q_v r_v := bindE (CreateCall (RtKalman1d id) [x; q_v; r_v])
    (fun v => cache_stateful id v)).
  eapply (sim_ext_m _ _ _ (bindE (EmitExpr cfg ex) (fun x => bindE (EmitExpr cfg eq) (fun q_v =>
    bindE (EmitExpr cfg er) (fun r_v => call x q_v r_v))))).
  { intros cg. apply bindE_ext. intros x cg1. apply bindE_ext. intros q_v cg2.
    apply bindE_ext. intros r_v cg3. rewrite bind_node_id by done. rewrite no_flag.
    by destruct (can_lower_kalman eq er) as [[? ?]|]. }
  assert (Hneed : forall v x q_v r_v, v ∈ [x; q_v; r_v] -> needs v (call x q_v r_v)).
  { intros v x q_v r_v Hv. by apply needs_bind_l, needs_call. }
  apply sim_bind; [by apply sim_weaken|by apply emits_EmitExpr, typed_ids_in| |].
  { intros v. eapply needs_bind_r; [by apply emits_EmitExpr, typed_ids_in|]. intros q_v.
    eapply needs_bind_r; [by apply emits_EmitExpr, typed_ids_in|]. intros r_v.
    apply Hneed. by left. }
  intros vx dx. eapply (sim_refine _ _ _ _ (q <~ Visit (symbols cfg) market eq;;
    r <~ Visit (symbols cfg) market er;;
    cache_and_return id (interpret op id market (MkArgs dx q r)))).
  { intros es v Hc He. rewrite (const_value_Visit _ _ _ Hc Hq). simpl.
    by rewrite (const_value_Visit _ _ _ Hc Hr). }
  apply sim_bind; [by apply sim_held, sim_weaken|by apply emits_EmitExpr, typed_ids_in| |].
  { intros v. eapply needs_bind_r; [by apply emits_EmitExpr, typed_ids_in|]. intros r_v.
    apply Hneed. set_solver. }
  intros vq dq. apply sim_bind; [by apply sim_held, sim_weaken|by apply emits_EmitExpr, typed_ids_in| |].
  { intros v. apply Hneed. set_solver. }
  intros vr dr. apply (sim_op _ _ _ _ _ _ [dx; dq; dr]); [done|done| |by rewrite Hop].
  intros cg s Hh. simpl. pose proof (holds_read _ _ _ vx dx Hh) as Rx.
  pose proof (holds_read _ _ _ vq dq Hh) as Rq. pose proof (holds_read _ _ _ vr dr Hh) as Rr.
  rewrite (proj2 (Rx ltac:(set_solver))), (proj2 (Rq ltac:(set_solver))),
    (proj2 (Rr ltac:(set_solver))). done.
Qed.
End stateful.

Section expressions.
Hypothesis plain : lowering cfg = kNone.
Hypothesis scalar : use_avx2 cfg = false.

Lemma sim_stateful name args id sym op :
  IsStatefulOp name = true -> (0 < id)%Z -> id ∈ ids -> call_rtop name args sym = Some op ->
  Γ !! id = Some op -> Forall arg_ok args ->
  sim (Some id) [] (EmitCall cfg (EmitExpr cfg) name args id sym)
    (dispatch (symbols cfg) market (Visit (symbols cfg) market) name args id sym).
Proof.
  intros Hs Hpos Hid Hop HΓ Hargs. unfold IsStatefulOp in Hs.
  rewrite !orb_true_iff, !String.eqb_eq in Hs. destruct_or!; subst name.
  all: unfold call_rtop in Hop; simpl in Hop.
  all: destruct args as [|a [|b [|c [|]]]]; try discriminate Hop; simpl in Hop.
  all: rewrite ?Forall_cons in Hargs; destruct_and?.
  all: repeat match type of Hop with
       | context [period_of ?p] => destruct (period_of p) eqn:?; [|discriminate Hop]; simpl in Hop
       | context [const_value ?p] => destruct (const_value p) eqn:?; [|discriminate Hop]; simpl in Hop
       | context [ticker_of ?a ?b] => destruct (ticker_of a b) eqn:?; [|discriminate Hop]; simpl in Hop
       end.
  all: try (unfold windowed_rtop in Hop; simpl in Hop); simplify_eq/=.
  all: first
    [ eapply (sim_EvalWindow id); first [eassumption | intros; reflexivity]
    | eapply (sim_EvalRollingExtremum id); first [eassumption | intros; reflexivity]
    | eapply (sim_EmitEmaAlpha id); first [eassumption | intros; reflexivity]
    | eapply (sim_EmitVwap id); first [eassumption | intros; reflexivity]
    | eapply (sim_EmitCross id); first [eassumption | intros; reflexivity]
    | eapply (sim_EmitPair id); first [eassumption | intros; reflexivity]
    | eapply (sim_EmitKalman1d id); eassumption || reflexivity ].
Qed.
Lemma sim_stateless X name args id sym :
  IsStatefulOp name = false -> Forall arg_ok args ->
  sim X [] (EmitCall cfg (EmitExpr cfg) name args id sym)
    (dispatch (symbols cfg) market (Visit (symbols cfg) market) name args id sym).
Proof.
  intros Hs Hargs.
  assert (Hm : Forall (fun e => ids_in ids e /\ sim_expr e) args).
  { eapply Forall_impl; [exact Hargs|]. intros e [Ht He]. split; [by apply typed_ids_in|done]. }
  destruct (String.eqb_spec name "mid") as [->|N1];
    [apply sim_EmitQuote; intros k; apply sim_mid|].
  destruct (String.eqb_spec name "bid") as [->|N2];
    [apply sim_EmitQuote; intros k; apply (sim_EmitMarketFieldLoad _ _ k FBid)|].
  destruct (String.eqb_spec name "ask") as [->|N3];
    [apply sim_EmitQuote; intros k; apply (sim_EmitMarketFieldLoad _ _ k FAsk)|].
  destruct (String.eqb_spec name "spread") as [->|N4];
    [apply sim_EmitQuote; intros k; apply (sim_load_bin _ _ true FSub k FBid FAsk)|].
  destruct (String.eqb_spec name "abs") as [->|N5]; [by apply sim_EmitMath|].
  destruct (String.eqb_spec name "sqrt") as [->|N6]; [by apply sim_EmitMath|].
  destruct (String.eqb_spec name "log") as [->|N7]; [by apply sim_EmitMath|].
  apply String.eqb_neq in N1, N2, N3, N4, N5, N6, N7. unfold EmitCall.
  rewrite N1, N2, N3, N4, N5, N6, N7. simpl.
  repeat (match goal with
          | |- sim _ _ (if ?b then _ else _) _ => destruct b eqn:?; [stateful_name|]
          end). apply sim_throw.
Qed.

Lemma EmitExpr_Plus loc e cg :
  EmitExpr cfg (UnaryOp loc Plus e) cg = EmitExpr cfg e cg.
Proof.
  simpl. unfold bindE. destruct (EmitExpr cfg e cg) as [[[v c] cg']|]; [|done]. simpl.
  by rewrite capp_Ret.
Qed.

Lemma Visit_call loc name args id sym es :
  Visit (symbols cfg) market (FunctionCall loc name args id sym) es =
    match (if (0 <? id)%Z then cache es !! id else None) with
    | Some v => Ok (v, es)
    | None => dispatch (symbols cfg) market (Visit (symbols cfg) market) name args id sym es
    end.
Proof. reflexivity. Qed.

(** A numbered call: the two caches answer together. *)
Lemma sim_call loc name args id sym :
  typed (FunctionCall loc name args id sym) -> Forall arg_ok args ->
  sim_expr (FunctionCall loc name args id sym).
Proof.
  intros [Hop _] Hargs cg v code cg' scope scope' s es d es' Ha Hh Hm Hv Hu Hi.
  rewrite EmitExpr_call in Hm. rewrite Visit_call in Hi. destruct (IsStatefulOp name) eqn:Hs.
  - destruct Hop as (Hpos & Hid & op & Hop & HΓ). destruct (Z.ltb_spec 0 id) as [_|]; [|lia].
    destruct (stateful_emit_cache cg !! id) as [w|] eqn:E.
    + destruct (wf_stateful _ (ag_wf _ _ _ _ Ha) _ _ E) as (r & -> & Hr).
      injection Hm as <- <- <-. injection Hv as <-.
      destruct (ag_hit _ _ _ _ Ha _ _ Hid E) as (d' & Hd & He); [apply Hu; by left|].
      rewrite Hd in Hi. injection Hi as <- <-. exists s. apply ran_here; [done|].
      simpl. by rewrite He.
    + destruct (cache es !! id) as [d'|] eqn:Hc.
      { destruct (ag_miss _ _ _ _ Ha id) as [? ?]; [by eexists|congruence]. }
      destruct (sim_stateful _ _ _ _ _ Hs Hpos Hid Hop HΓ Hargs _ _ _ _ _ _ _ _ _ _ Ha Hh Hm Hv Hu Hi)
        as [s' [R1 R2 R3 R4 R5 R6 R7]].
      exists s'. split; try done. intros id' d' _ Hd. apply R6; congruence.
  - destruct (Z.ltb_spec 0 id) as [|_]; [lia|].
    exact (sim_stateless None _ _ _ _ Hs Hargs _ _ _ _ _ _ _ _ _ _ Ha Hh Hm Hv Hu Hi).
Qed.

(** Behind a conditional: whichever arm has run, the other one's emission
    has added nothing that is in scope. *)
Lemma agree_merge cg2 scope2 s2 es1 cg3 cg4 st s3 es3 tc tv ec ev n d scope' :
  agree cg2 scope2 s2 es1 -> agree cg3 st s3 es3 ->
  (forall id d, cache es1 !! id = Some d -> cache es3 !! id = Some d) ->
  (forall id, is_Some (stateful_emit_cache cg3 !! id) -> is_Some (stateful_emit_cache cg4 !! id)) ->
  let cg' := MkCodegen (S (next_reg cg4)) (program_market_field_cache cg4)
    (stateful_emit_cache cg4) (signal_values cg4) (next_node_id cg4) in
  let code := Diamond (next_reg cg4) n tc tv ec ev Ret in
  grows ids cg2 code cg' -> wf cg4 -> next_reg cg2 <= next_reg cg4 ->
  verify scope2 code = Some scope' ->
  agree cg' scope' (MkState (<[next_reg cg4 := F64 d]> (env s2)) (js s3) (outputs s3)) es3.
Proof.
  intros A2 A3 Hc Hk cg' code G W4 Hle Hv.
  assert (Hscope : forall r, r ∈ scope' -> next_reg cg2 <= r -> r = next_reg cg4).
  { apply verify_Diamond in Hv as (? & ? & _ & _ & _ & _ & _ & [= <-]).
    intros r Hr Hge. rewrite elem_of_union, elem_of_singleton in Hr. destruct Hr as [|Hr]; [done|].
    specialize (ag_scope _ _ _ _ A2 r Hr). lia. }
  eapply agree_grow; try exact A2; try exact G; try exact Hv.
  - by apply wf_next.
  - intros r Hr. apply lookup_insert_ne. lia.
  - apply A3.
  - apply A3.
  - intros id r _ Hr Hge Hin. destruct (wf_stateful _ W4 _ _ Hr) as (r' & [= <-] & Hlt).
    specialize (Hscope _ Hin Hge). lia.
  - intros id r d' _ _. apply Hc.
  - intros id Hi. by apply Hk, (ag_miss _ _ _ _ A3).
  - intros sym f r Hr Hge Hin. destruct (wf_market _ W4 _ _ Hr) as (r' & [= <-] & Hlt).
    specialize (Hscope _ Hin Hge). lia.
Qed.

Lemma sim_conditional loc c t e :
  typed c -> typed t -> typed e -> sim_expr c -> sim_expr t -> sim_expr e ->
  sim_expr (Conditional loc c t e).
Proof.
  intros Tc Tt Te Sc St Se cg v code cg' scope scope' s es d es' Ha Hh Hm Hv _ Hi.
  apply Conditional_Ok in Hm as (cv & cc & cg1 & tv & tc & cg3 & ev & ec & cg4 & H1 & H2).
  simpl in H2. destruct H2 as (H3 & H4 & -> & -> & ->). set (n := next_reg cg1) in *.
  apply verify_capp in Hv as (mid & Hv1 & Hv). apply verify_Seq in Hv as [Hcv Hv].
  set (scope2 := list_to_set (instr_def _) ∪ mid) in Hv.
  set (cg2 := MkCodegen (S n) (program_market_field_cache cg1) (stateful_emit_cache cg1)
    (signal_values cg1) (next_node_id cg1)) in *.
  simpl in Hi. apply bind_Ok in Hi as ([dc es1] & Hi1 & Hi).
  destruct (Sc _ _ _ _ _ _ _ _ _ _ Ha Hh H1 Hv1 ltac:(intros r Hr; apply Hcv; set_solver) Hi1)
    as [s1 R1].
  pose proof (rn_agree _ _ _ _ _ _ _ _ _ _ _ R1) as A1.
  set (cmp := ICmp n UNE cv (Const (fint 0))) in *.
  destruct (emits_EmitExpr ids cfg c (typed_ids_in _ Tc) 0 _ _ _ _ (Nat.le_0_l _)
    (ag_wf _ _ _ _ Ha) H1) as (G1 & W1 & B1).
  set (s2 := MkState (<[n := I1 (fne dc (fint 0))]> (env s1)) (js s1) (outputs s1)).
  assert (R2 : ran None cg1 s1 es1 (Const dc) (Seq cmp Ret) cg2 scope2 s2 es1 dc).
  { eapply ran_pure; try exact A1; try done; [by apply grows_build|by apply wf_next| | |].
    - apply verify_Seq. by split.
    - intros r Hr. apply lookup_insert_ne. lia.
    - simpl. by rewrite (rn_value _ _ _ _ _ _ _ _ _ _ _ R1). }
  pose proof (rn_agree _ _ _ _ _ _ _ _ _ _ _ R2) as A2.
  apply verify_Diamond in Hv as Hd. destruct Hd as (st & se & Vt & Ve & _ & Ut & Ue & _).
  destruct (emits_arm ids 0 _ cg2 _ _ _ (emits_EmitExpr ids cfg t (typed_ids_in _ Tt) 0)
    (Nat.le_0_l _) (ag_wf _ _ _ _ A2) H3) as (G3 & D3 & W3 & B3).
  destruct (emits_arm ids 0 _ cg3 _ _ _ (emits_EmitExpr ids cfg e (typed_ids_in _ Te) 0)
    (Nat.le_0_l _) W3 H4) as (G4 & D4 & W4 & B4).
  assert (Harm : exists b s3 cg3' sc, b = fne dc (fint 0) /\
    ran None (if b then cg2 else cg3) s2 es1 (if b then tv else ev) (if b then tc else ec)
      cg3' sc s3 es' d /\
    forall id, is_Some (stateful_emit_cache cg3' !! id) -> is_Some (stateful_emit_cache cg4 !! id)).
  { destruct (fne dc (fint 0)) eqn:Hb.
    - destruct (St _ _ _ _ _ _ _ _ _ _ A2 (Forall_nil_2 _) H3 Vt Ut Hi) as [s3 R3].
      exists true, s3, cg3, st. split_and!; [done|done|]. by apply G4.
    - pose proof (agree_skip _ _ _ _ _ A2 G3 W3) as A3.
      destruct (Se _ _ _ _ _ _ _ _ _ _ A3 (Forall_nil_2 _) H4 Ve Ue Hi) as [s3 R3].
      exists false, s3, cg4, se. by split_and!. }
  destruct Harm as (b & s3 & cg3' & sc & Hb & [E3 A3 K3 L3 O3 C3 V3] & Hkeys).
  destruct R1 as [E1 _ K1 L1 O1 C1 V1].
  exists (MkState (<[next_reg cg4 := F64 d]> (env s2)) (js s3) (outputs s3)).
  pose proof (g_reg _ _ _ _ G1). pose proof (g_reg _ _ _ _ G3). pose proof (g_reg _ _ _ _ G4).
  assert (Hn2 : next_reg cg2 = S n) by done. split.
  - rewrite exec_capp, E1. simpl. rewrite V1. simpl. unfold read_bit. simpl.
    rewrite lookup_insert_eq. simpl. change (set_reg n (I1 (fne dc (fint 0))) s1) with s2.
    rewrite <- Hb. destruct b; rewrite E3; simpl; by rewrite V3.
  - eapply (agree_merge cg2 scope2 s2 es1 cg3'); [exact A2|exact A3|by intros; apply C3|done| |done
      |lia|exact Hv]. exact (grows_diamond ids _ _ _ _ _ _ _ _ _ G3 D3 G4 D4).
  - intros r Hr. simpl. rewrite !lookup_insert_ne by lia. by apply K1.
  - simpl. by rewrite L3.
  - simpl. by rewrite O3.
  - intros id d' Hne Hd. apply C3; [done|]. by apply C1.
  - simpl. by rewrite lookup_insert_eq.
Qed.


Lemma sim_EmitExpr e : typed e -> sim_expr e.
Proof.
  induction e as [loc x|loc name|loc name i|loc k e IH|loc k l r IHl IHr|loc name args i sym IH
    |loc c t e IHc IHt IHe] using Expr_rect'; intros Ht; simpl in Ht.
  - apply sim_ret. by right.
  - intros cg v code cg' scope scope' s es d es' _ _ _ _ _ [=].
  - simpl. destruct (Z.ltb_spec i 0); [apply sim_throw|]. by apply sim_param.
  - destruct k.
    + eapply sim_ext_m; [apply EmitExpr_Plus|]. eapply sim_ext; [|by apply IH].
      intros es. simpl. by destruct (Visit (symbols cfg) market e es) as [[d es']|].
    + simpl. apply sim_bind; [by apply IH|by apply emits_EmitExpr, typed_ids_in| |].
      * intros v. apply needs_build. set_solver.
      * intros v d. apply sim_neg. by left.
  - destruct Ht as [Tl Tr]. simpl.
    apply sim_bind; [by apply IHl|by apply emits_EmitExpr, typed_ids_in| |].
    + intros v. eapply needs_bind_r; [by apply emits_EmitExpr, typed_ids_in|]. intros w.
      apply needs_EmitBinary_l.
    + intros v d. apply sim_bind; [by apply sim_held, IHr|by apply emits_EmitExpr, typed_ids_in| |].
      * intros w. apply (needs_EmitBinary_r ids).
      * intros w d'. apply sim_EmitBinary; set_solver.
  - apply sim_call; [done|]. destruct Ht as [_ Hargs%typed_args].
    rewrite Forall_forall in *. intros a Ha. split; auto.
  - destruct Ht as (Tc & Tt & Te). apply sim_conditional; auto.
Qed.
End expressions.
End simulation.

(** ** Programs *)

(** The signals of a program in order, each with a fresh cache. *)
Fixpoint EvaluateProgram {D L} `{Machine D L} (table : SymbolTable) (market : MarketState D)
  (signals : list (SignalDef D)) (c : SignalContext D L) : Res (list D * SignalContext D L) :=
  match signals with
  | [] => Ok ([], c)
  | s :: rest =>
      '(v, c) <- Evaluate table market s c;;
      '(vs, c) <- EvaluateProgram table market rest c;;
      Ok (v :: vs, c)
  end.

Section programs.
Context {D L : Type} `{Machine D L}.
Variable cfg : Config.
Variable Γ : gmap Z (RtOp D).
Variable c0 : SignalContext D L.
Implicit Types (cg : Codegen (D:=D)) (v : Value D) (s : Machine_state D L) (scope : gset nat).

Section tick.
Variable market : MarketState D.
Notation agree ids := (agree market Γ c0 ids).

Lemma agree_start c low :
  ctx_typed Γ c0 c ->
  agree ∅ Codegen_init ∅ (MkState ∅ (MkJit c low) ∅) (MkEval c ∅).
Proof.
  intros Hc. split; try done.
  intros id [d Hd]. simpl in Hd. by rewrite lookup_empty in Hd.
Qed.

(** A fresh cache agrees as long as no node of the signal has been emitted. *)
Lemma agree_fresh ids ids' cg scope s es :
  agree ids cg scope s es -> (forall id, id ∈ ids' -> stateful_emit_cache cg !! id = None) ->
  agree ids' cg scope s (MkEval (ctx es) ∅).
Proof.
  intros [W S C T Hh Mi Ma] Hids. split; try done; simpl.
  - intros id r Hid Hr. rewrite (Hids id Hid) in Hr. done.
  - intros id [d Hd]. by rewrite lookup_empty in Hd.
Qed.

(** A load of the prologue, used or not. *)
Lemma run_load ids sym f cg v code cg' scope scope' s es :
  agree ids cg scope s es -> EmitMarketFieldLoad sym f cg = Ok (v, code, cg') ->
  verify scope code = Some scope' -> sym < length (instruments market) ->
  exists s', exec market code s = Ok s' /\ agree ids cg' scope' s' es /\
    js s' = js s /\ outputs s' = outputs s.
Proof.
  intros Ha Hm Hv Hlt. destruct (lookup_lt_is_Some_2 _ _ Hlt) as [ins Hins].
  destruct (program_market_field_cache cg !! MarketFieldCacheKey sym (field_index f)) as [w|] eqn:E.
  - unfold EmitMarketFieldLoad in Hm. rewrite E in Hm. injection Hm as <- <- <-.
    injection Hv as <-. by exists s.
  - assert (Hu : forall r, r ∈ uses v -> r ∈ scope').
    { unfold EmitMarketFieldLoad in Hm. rewrite E, build_eq in Hm. injection Hm as <- <- <-.
      apply verify_Seq in Hv as [_ [= <-]]. simpl. set_solver. }
    destruct (sim_EmitMarketFieldLoad market Γ c0 ids None [] sym f cg v code cg' scope scope' s es
      (read_field f ins) es Ha (Forall_nil_2 _) Hm Hv Hu) as [s' [E1 A1 K1 L1 O1 C1 V1]].
    { unfold Interpreter.lift, instrument, at_Z, at_idx.
      destruct (Z.ltb_spec (Z.of_nat sym) 0); [lia|]. by rewrite Nat2Z.id, Hins. }
    exists s'. split_and!; try done. apply ag_ctx in A1. rewrite (ag_ctx _ _ _ _ _ _ _ _ Ha) in A1.
    destruct (js s), (js s'). simpl in *. congruence.
Qed.

Hypothesis market_full : forall name id,
  LookupId (symbols cfg) name = Ok id -> id < length (instruments market).

Lemma lookup_all_bounded tickers syms :
  lookup_all (symbols cfg) tickers = Ok syms -> Forall (fun k => k < length (instruments market)) syms.
Proof.
  revert syms. induction tickers as [|t rest IH]; intros syms Hl; simpl in Hl.
  - by injection Hl as <-.
  - apply bind_Ok in Hl as (k & Hk & Hl). apply fmap_Ok in Hl as (ks & Hks & <-).
    constructor; [by eapply market_full|by apply IH].
Qed.

(** The prologue. *)
Lemma run_loads ids syms cg u code cg' scope scope' s es :
  Forall (fun k => k < length (instruments market)) syms ->
  agree ids cg scope s es ->
  for_each (fun sym_id => bindE (EmitMarketFieldLoad sym_id FBid) (fun _ =>
    bindE (EmitMarketFieldLoad sym_id FAsk) (fun _ => ret tt))) syms cg = Ok (u, code, cg') ->
  verify scope code = Some scope' ->
  exists s', exec market code s = Ok s' /\ agree ids cg' scope' s' es /\
    js s' = js s /\ outputs s' = outputs s /\ stateful_emit_cache cg' = stateful_emit_cache cg.
Proof.
  intros Hb. revert cg u code cg' scope scope' s.
  induction Hb as [|k ks Hk _ IH]; intros cg u code cg' scope scope' s Ha Hm Hv; simpl in Hm.
  - injection Hm as <- <- <-. injection Hv as <-. by exists s.
  - apply bindE_Ok in Hm as (u1 & c1 & cg1 & c2 & Hm & Hr & ->).
    apply bindE_Ok in Hm as (a & ca & cga & cb & Hma & Hm & ->).
    apply bindE_Ok in Hm as (b & cb' & cgb & cc & Hmb & [= <- <- <-] & ->).
    apply verify_capp in Hv as (sb & Hv & Hvr). apply verify_capp in Hv as (sa & Hva & Hv).
    rewrite capp_Ret in Hv.
    destruct (run_load _ _ _ _ _ _ _ _ _ _ _ Ha Hma Hva Hk) as (sta & Ea & Aa & Ja & Oa).
    destruct (run_load _ _ _ _ _ _ _ _ _ _ _ Aa Hmb Hv Hk) as (stb & Eb & Ab & Jb & Ob).
    destruct (IH _ _ _ _ _ _ _ Ab Hr Hvr) as (s' & E' & A' & J' & O' & S').
    assert (Hsame : forall sym f cg v code cg', EmitMarketFieldLoad sym f cg = Ok (v, code, cg') ->
      stateful_emit_cache cg' = stateful_emit_cache cg).
    { intros sym f cgx v code cgy. unfold EmitMarketFieldLoad. destruct (_ !! _).
      - by intros [= _ _ <-].
      - rewrite build_eq. by intros [= _ _ <-]. }
    apply Hsame in Hma, Hmb. exists s'. rewrite capp_Ret, !exec_capp, Ea. simpl. rewrite Eb. simpl.
    split_and!; [done|done|congruence|congruence|congruence].
Qed.

(** Naming a signal's value, and storing it. *)
Lemma agree_signal ids cg scope s es name v out :
  agree ids cg scope s es -> below (next_reg cg) v ->
  agree ids (MkCodegen (next_reg cg) (program_market_field_cache cg) (stateful_emit_cache cg)
      (<[name := v]> (signal_values cg)) (next_node_id cg)) scope (MkState (env s) (js s) out) es.
Proof.
  intros [[WS WM WV] S C T Hh Mi Ma] Hb. split; try done. split; [done|done|]. simpl.
  intros name' w. rewrite lookup_insert_Some. intros [[_ <-]|[_ Hw]]; [done|by eapply WV].
Qed.

Lemma map_seq_cons_outputs i (v : D) vs (out : gmap nat D) :
  map_seq (S i) vs ∪ <[i := v]> out = map_seq (M:=gmap nat D) i (v :: vs) ∪ out.
Proof.
  apply map_eq. intros k. rewrite !lookup_union. simpl.
  destruct (decide (k = i)) as [->|Hne].
  - assert (Hn : map_seq (M:=gmap nat D) (S i) vs !! i = None) by (apply lookup_map_seq_None; lia).
    rewrite Hn, !lookup_insert_eq. by destruct (out !! i).
  - by rewrite !lookup_insert_ne.
Qed.

Hypothesis plain : lowering cfg = kNone.
Hypothesis scalar : use_avx2 cfg = false.

(** The signals of a program, with the ids each of them uses. *)
Lemma run_signals signals idss i cg u code cg' scope scope' s c vs c' :
  Forall2 (fun ids sd => typed cfg Γ c0 ids (sig_body sd)) idss signals ->
  (forall k l a b, idss !! k = Some a -> idss !! l = Some b -> k <> l -> a ## b) ->
  (forall id, is_Some (stateful_emit_cache cg !! id) -> Forall (fun ids => id ∉ ids) idss) ->
  agree ∅ cg scope s (MkEval c ∅) ->
  emit_signals cfg i signals cg = Ok (u, code, cg') -> verify scope code = Some scope' ->
  EvaluateProgram (symbols cfg) market signals c = Ok (vs, c') ->
  exists s', exec market code s = Ok s' /\ js_ctx (js s') = c' /\ js_low (js s') = js_low (js s) /\
    outputs s' = map_seq i vs ∪ outputs s /\ ctx_typed Γ c0 c'.
Proof.
  intros Hty. revert i cg u code cg' scope scope' s c vs c'.
  induction Hty as [|ids sd idss signals Ht _ IH];
    intros i cg u code cg' scope scope' s c vs c' Hdis Hnew Ha Hm Hv He; simpl in Hm, He.
  - injection Hm as <- <- <-. injection Hv as <-. injection He as <- <-. exists s.
    pose proof (ag_ctx _ _ _ _ _ _ _ _ Ha) as Hc. pose proof (ag_typed _ _ _ _ _ _ _ _ Ha) as Hct.
    simpl in Hc, Hct.
    split_and!; [done|done|done| |done]. symmetry. exact (map_empty_union (outputs s)).
  - apply bindE_Ok in Hm as (v & c1 & cg1 & c2 & H1 & Hm & ->).
    apply bindE_Ok in Hm as (u2 & c3 & cg2 & c4 & [= <- <- <-] & Hm & ->).
    apply bindE_Ok in Hm as (u3 & c5 & cg3 & c6 & [= <- <- <-] & Hm & ->).
    apply verify_capp in Hv as (mid & Hv1 & Hv). simpl in Hv.
    change (verify mid (Seq (IStore i v) c6) = Some scope') in Hv.
    apply verify_Seq in Hv as [Huse Hv].
    apply bind_Ok in He as ([d ce] & He1 & He). apply bind_Ok in He as ([ds ce'] & He2 & He).
    injection He as <- <-. apply bind_Ok in He1 as ([d' es1] & He1 & [= -> <-]).
    assert (Hids : forall id, id ∈ ids -> stateful_emit_cache cg !! id = None).
    { intros id Hid. apply eq_None_not_Some. intros Hs. apply Hnew in Hs.
      by apply Forall_cons in Hs as [Hs _]. }
    pose proof (agree_fresh _ ids _ _ _ _ Ha Hids) as Ha'. simpl in Ha'.
    destruct (sim_EmitExpr cfg market Γ c0 ids plain scalar _ Ht _ _ _ _ _ _ _ _ _ _ Ha'
      (Forall_nil_2 _) H1 Hv1 Huse He1) as [s1 [E1 A1 K1 L1 O1 C1 V1]].
    destruct (emits_EmitExpr ids cfg _ (typed_ids_in _ _ _ _ _ Ht) 0 _ _ _ _ (Nat.le_0_l _)
      (ag_wf _ _ _ _ _ _ _ _ Ha) H1) as (G1 & W1 & B1).
    pose proof (agree_fresh _ ∅ _ _ _ _ A1 ltac:(set_solver)) as A2.
    apply (agree_signal _ _ _ _ _ (sig_name sd) v (<[i := d]> (outputs s1))) in A2; [|done].
    edestruct IH as (s' & E' & J' & L' & O' & T'); [| |exact A2|exact Hm| |exact He2|].
    + intros k l a b Hk Hl Hne. by apply (Hdis (S k) (S l)); [..|lia].
    + simpl. intros id [r Hr]. destruct (g_stateful _ _ _ _ G1 _ _ Hr) as [Hold|[Hid _]].
      * by specialize (Hnew id ltac:(by eexists)) as [_ ?]%Forall_cons.
      * apply Forall_lookup_2. intros k b Hk Hin. by apply (Hdis 0 (S k) ids b eq_refl Hk ltac:(lia) id).
    + simpl in Hv. rewrite union_empty_l_L in Hv. exact Hv.
    + exists s'. rewrite exec_capp, E1. simpl. rewrite V1. simpl.
      split_and!; [done|done|by rewrite L'| |done]. rewrite O'. simpl. rewrite O1.
      apply map_seq_cons_outputs.
Qed.

Variable hash_order : forall A, list A -> list A.
Hypothesis hash_order_elem : forall A (l : list A) x, x ∈ hash_order A l -> x ∈ l.

(** One call of a compiled program. *)
Lemma run_program_tick signals idss code msg c low vs c' :
  Forall2 (fun ids sd => typed cfg Γ c0 ids (sig_body sd)) idss signals ->
  (forall k l a b, idss !! k = Some a -> idss !! l = Some b -> k <> l -> a ## b) ->
  ctx_typed Γ c0 c -> build_function (EmitProgram hash_order cfg signals) msg = Ok code ->
  EvaluateProgram (symbols cfg) market signals c = Ok (vs, c') ->
  run_program market code (MkJit c low) = Ok (map_seq 0 vs, MkJit c' low) /\ ctx_typed Γ c0 c'.
Proof.
  intros Hty Hdis Hc Hb He. unfold build_function in Hb.
  apply bind_Ok in Hb as ([[u code'] cg'] & Hm & Hb).
  destruct (verify ∅ code') as [scope'|] eqn:Hv; [|done]. injection Hb as ->.
  apply bindE_Ok in Hm as (u1 & c1 & cg1 & c2 & Hm & Hs & ->). unfold PrewarmProgramMarketLoads in Hm.
  apply bindE_Ok in Hm as (syms & c3 & cg3 & c4 & Hl & Hm & ->).
  apply fmap_Ok in Hl as (syms' & Hl & [= -> <- <-]).
  apply verify_capp in Hv as (mid & Hv1 & Hv2). simpl in Hv1.
  assert (Hsyms : Forall (fun k => k < length (instruments market)) (hash_order nat syms)).
  { apply lookup_all_bounded in Hl. rewrite Forall_forall in *. eauto. }
  destruct (run_loads _ _ _ _ _ _ _ _ _ _ Hsyms (agree_start c low Hc) Hm Hv1)
    as (s1 & E1 & A1 & J1 & O1 & S1).
  edestruct (run_signals signals idss 0) as (s2 & E2 & C2 & L2 & O2 & T2);
    [exact Hty|exact Hdis| |exact A1|exact Hs|exact Hv2|exact He|].
  { intros id [d Hd]. rewrite S1 in Hd. simpl in Hd. by rewrite lookup_empty in Hd. }
  split; [|done]. unfold run_program. rewrite exec_capp. simpl. rewrite E1. simpl. rewrite E2. simpl.
  rewrite O2, O1. simpl. rewrite map_union_empty. f_equal. f_equal.
  destruct (js s2) as [cc ll]. simpl in *. subst. by rewrite J1.
Qed.
End tick.
End programs.

(** Ticks of a program: by the interpreter, and by compiled code. *)
Fixpoint interpreted_ticks {D L} `{Machine D L} (table : SymbolTable) (signals : list (SignalDef D))
  (markets : list (MarketState D)) (c : SignalContext D L) : Res (list (list D) * SignalContext D L) :=
  match markets with
  | [] => Ok ([], c)
  | market :: rest =>
      '(row, c) <- EvaluateProgram table market signals c;;
      '(rows, c) <- interpreted_ticks table signals rest c;;
      Ok (row :: rows, c)
  end.

Fixpoint compiled_ticks {D L} `{Machine D L} (code : Code D) (markets : list (MarketState D))
  (s : JitState D L) : Res (list (gmap nat D) * JitState D L) :=
  match markets with
  | [] => Ok ([], s)
  | market :: rest =>
      '(row, s) <- run_program market code s;;
      '(rows, s) <- compiled_ticks code rest s;;
      Ok (row :: rows, s)
  end.

(** Each signal's calls are typed by [Γ] and use ids of their own. *)
Record program_typed {D L} `{Machine D L} (cfg : Config) (Γ : gmap Z (RtOp D))
  (c : SignalContext D L) (idss : list (gset Z)) (signals : list (SignalDef D)) : Prop := {
  pt_typed : Forall2 (fun ids sd => typed cfg Γ c ids (sig_body sd)) idss signals;
  pt_disjoint : forall k l a b, idss !! k = Some a -> idss !! l = Some b -> k <> l -> a ## b }.

(** Every id of the table indexes the market. *)
Definition market_covers {D} (cfg : Config) (market : MarketState D) : Prop :=
  forall name id, LookupId (symbols cfg) name = Ok id -> id < length (instruments market).

Section theorem.
Context {D L : Type} `{Machine D L}.
Variable hash_order : forall A, list A -> list A.
Hypothesis hash_order_elem : forall A (l : list A) x, x ∈ hash_order A l -> x ∈ l.

(** C2: compiled programs refine the interpreter.  If the emission and
    verification of a program succeed without lowering and without the SIMD
    mean ([use_avx2 = false]; with it an unlowered [sma] of period 4 or more
    sums in another order), every stateful call has constant parameters (a
    literal period; a factor of [ema_alpha] or variances of [kalman1d] that
    are literals or parameters: for a factor that varies the two differ,
    [ema_alpha_diverges]) and a positive id, on a context that is ready for
    the program's calls, with calls numbered apart in different signals and
    the table's ids within the markets, then over any sequence of markets on
    which the interpreter evaluates the signals in order, the compiled
    function writes the same values bit for bit to the same outputs and leaves
    the same context, and the lowered states untouched. *)
Theorem compiled_program_parity cfg Γ idss signals markets code msg c low rows c' :
  lowering cfg = kNone -> use_avx2 cfg = false ->
  program_typed cfg Γ c idss signals -> ctx_typed Γ c c -> Forall (market_covers cfg) markets ->
  build_function (EmitProgram hash_order cfg signals) msg = Ok code ->
  interpreted_ticks (symbols cfg) signals markets c = Ok (rows, c') ->
  compiled_ticks code markets (MkJit c low) = Ok (map (map_seq 0) rows, MkJit c' low).
Proof.
  intros Hplain Hscalar [Hty Hdis] Hc Hm Hb. generalize Hc. generalize c at 2 3 4 as c1. revert rows.
  induction Hm as [|market rest Hmk _ IH]; intros rows c1 Hc1 He; simpl in He.
  - by injection He as <- <-.
  - apply bind_Ok in He as ([row c2] & He1 & He). apply bind_Ok in He as ([rows' c3] & He2 & He).
    injection He as <- <-.
    destruct (run_program_tick cfg Γ c market Hmk Hplain Hscalar hash_order hash_order_elem
      signals idss code msg c1 low row c2 Hty Hdis Hc1 Hb He1) as [Hr Hc2].
    simpl. rewrite Hr. simpl. by rewrite (IH _ _ Hc2 He2).
Qed.
End theorem.

(** [if sma(mid(AAPL), 2) > 1 then sma(mid(AAPL), 2) else lag(mid(AAPL), 1)]
    and [kalman1d(mid(AAPL), 1, 2)], numbered, prewarmed and compiled. *)
Module ProgramExample.
#[local] Instance machine : Machine double long_double := parity_machine.
Definition call (name : string) (args : list (Expr double)) (id : Z) : Expr double :=
  FunctionCall noloc name args id (-1).
Definition num (z : Z) : Expr double := NumberLiteral noloc (fint z).
Definition quote : Expr double := call "mid" [IdentifierExpr noloc "AAPL"] (-1).
Definition program (sma lag kalman : Z) : list (SignalDef double) :=
  [MkSignal "a" (Conditional noloc
     (BinaryOp noloc Gt (call "sma" [quote; num 2] sma) (num 1))
     (call "sma" [quote; num 2] sma) (call "lag" [quote; num 1] lag));
   MkSignal "b" (call "kalman1d" [quote; num 1; num 2] kalman)].
Definition signals : list (SignalDef double) := program 1 2 3.
Definition cfg : Config := MkConfig (MkSymbolTable (<["AAPL" := 0]> ∅) 1) kNone false false ∅.
Definition context : SignalContext double long_double :=
  match fold_left (fun c s => rbind c (fun c => PrewarmSignalContext c s)) signals (Ok SignalContext_init) with Ok c => c | Err _ => SignalContext_init end.
Definition markets : list (MarketState double) :=
  map (fun z => MkMarket [MkInstrument (fint z) (fint (z + 2)) (fint 0) (fint 0) 0] 0) [1; 4; -7]%Z.
Definition calls : gmap Z (RtOp double) := {[1 := OSma 2; 2 := OLag 1; 3 := OKalman]}%Z.
Definition code : Code double :=
  match build_function (EmitProgram (fun _ l => l) cfg signals) "" with
  | Ok code => code | Err _ => Ret end.
Definition low : LoweredStates double long_double := MkLowered [] [] [] [] [] [] [] [] [] [] [] [].
End ProgramExample.

Lemma compiled_program_parity_witness :
  let run := interpreted_ticks (H:=ProgramExample.machine) (symbols ProgramExample.cfg)
               ProgramExample.signals ProgramExample.markets ProgramExample.context in
  AllocateProgramNodeIds (ProgramExample.program (-1) (-1) (-1)) = (ProgramExample.signals, 3%Z) /\
  exists rows c', run = Ok (rows, c') /\ length rows = 3 /\
    compiled_ticks (H:=ProgramExample.machine) ProgramExample.code ProgramExample.markets
      (MkJit ProgramExample.context ProgramExample.low) =
    Ok (map (map_seq 0) rows, MkJit c' ProgramExample.low).
Proof.
  intros run. split; [vm_compute; reflexivity|]. destruct run as [[rows c']|] eqn:E; [|by vm_compute in E].
  exists rows, c'. split_and!; [done| |].
  - vm_compute in E. injection E as <- _. reflexivity.
  - apply (compiled_program_parity (H:=ProgramExample.machine) (fun _ l => l) (fun _ _ _ Hx => Hx)
      ProgramExample.cfg ProgramExample.calls [{[1; 2]}; {[3]}]%Z ProgramExample.signals
      ProgramExample.markets ProgramExample.code "" ProgramExample.context).
    + reflexivity.
    + reflexivity.
    + clear E run. split.
      * constructor; [|constructor; [|constructor]].
        all: unfold ProgramExample.quote, ProgramExample.call; cbn [sig_body typed map foldr].
        all: repeat match goal with
             | |- context [IsStatefulOp ?s] =>
                 let b := eval vm_compute in (IsStatefulOp s) in change (IsStatefulOp s) with b
             end; cbn match.
        all: split_and!; try done; try lia.
        all: lazymatch goal with
             | |- exists _, _ => eexists; split; [vm_compute; reflexivity|vm_compute; reflexivity]
             | |- _ => apply (bool_decide_unpack _); vm_compute; exact I
             end.
      * intros [|[|k]] [|[|l]] a b [= <-] [= <-] Hne; try contradiction.
        all: apply (bool_decide_unpack _); vm_compute; exact I.
    + clear E run. split; [|reflexivity..]. intros id op Hop. unfold ProgramExample.calls in Hop.
      apply lookup_insert_Some in Hop as [[<- <-]|[_ Hop]];
        [|apply lookup_insert_Some in Hop as [[<- <-]|[_ Hop]];
          [|apply lookup_singleton_Some in Hop as [<- <-]]].
      all: split; [reflexivity|split; [split; reflexivity || exact I|]].
      1,2: intros st Hst; vm_compute in Hst; injection Hst as <-; split; reflexivity.
      exact I.
    + clear E run. unfold ProgramExample.markets. rewrite Forall_map. apply Forall_forall.
      intros z _ name id Hl. unfold LookupId in Hl.
      cbn [symbols symbol_to_id_ ProgramExample.cfg instruments length] in *.
      destruct (decide (name = "AAPL")) as [->|Hne].
      * rewrite lookup_insert_eq in Hl. injection Hl as <-. lia.
      * by rewrite lookup_insert_ne, lookup_empty in Hl.
    + vm_compute. reflexivity.
    + exact E.
Defined.
