(* ===== verification/VectorFacts.v ===== *)
(** * The vectorised mode computes what the scalar mode computes

    A simulation of one emission by another.  The scalar code runs once for
    every lane, each run in a state of its own, and the vectorised code runs
    once for all of them.  In an arm of a conditional only the lanes whose
    condition selects it run the scalar code, while the vectorised code runs
    both arms for every lane: [A] is the set of the lanes that are active, and
    the code of an arm must do without effects ([code_safe]).

    The relation of the two states says nothing of a register the scalar code
    has not defined: that a lane's scalar code runs is what makes the
    registers it reads the ones the vectorised code holds. *)

From S2P Require Import Prelude Errors Arith Ast SymbolTable SignalProgram Rolling Context Interpreter JitRuntime Lowered Ir JitCompiler VectorCompiler IrFacts EmitFacts JitCompilerFacts.

(** ** Code whose arms have no effects *)

Section safe.
Context {D L : Type} `{Machine D L}.
(** How many instruments a market has, and how many parameters a context. *)
Variables (n_instruments n_params : nat).

Definition pure_instr (i : Instr D) : bool :=
  match i with
  | INeg _ _ | IBin _ _ _ _ | ICmp _ _ _ _ | ILogic _ _ _ _ | IUIToFP _ _ | IIntrinsic _ _ _ => true
  | ILoad _ sym_id _ => sym_id <? n_instruments
  | IEffect _ (RtParam id) [] => (0 <=? id)%Z && (id <? Z.of_nat n_params)%Z
  | IEffect _ _ _ | IStore _ _ => false
  end.

(** [arm]: the code is in an arm of a conditional. *)
Fixpoint code_safe (arm : bool) (c : Code D) : bool :=
  match c with
  | Ret => true
  | Seq i k => (negb arm || pure_instr i) && code_safe arm k
  | Diamond _ _ t _ e _ k => code_safe true t && code_safe true e && code_safe arm k
  end.

Lemma code_safe_capp arm a b :
  code_safe arm (capp a b) = code_safe arm a && code_safe arm b.
Proof.
  induction a as [|i k IH|dst c t _ tv e _ ev k IH]; simpl; [done| |];
    by rewrite IH, andb_assoc.
Qed.

Lemma code_safe_arm c : code_safe true c = true -> code_safe false c = true.
Proof.
  induction c as [|i k IH|dst cnd t _ tv e _ ev k IH]; simpl; [done| |]; intros Hc; split_andb.
  - by apply IH.
  - rewrite IH by done. by apply andb_true_iff; split; [apply andb_true_iff|].
Qed.
End safe.

(** ** Vector registers *)

Section vectors.
Context {D L : Type} `{Machine D L}.
Implicit Types (S : VState D L) (w : Value D) (env : gmap nat (VRegValue D)).

Lemma mapM_id_Some (l : list (option D)) ds : mapM id l = Some ds <-> l = map Some ds.
Proof.
  rewrite mapM_Some. split.
  - induction 1; simpl; [done|]. unfold id in *. congruence.
  - intros ->. induction ds; simpl; by constructor.
Qed.

Lemma vread_elements K env w ds :
  vread K env w = Ok ds <-> elements K env w = Ok (map Some ds).
Proof.
  unfold vread. split.
  - intros Hr. apply bind_Ok in Hr as (l & -> & Hl). destruct (mapM id l) eqn:E; [|done].
    apply mapM_id_Some in E as ->. by injection Hl as ->.
  - intros ->. simpl. by rewrite (proj2 (mapM_id_Some _ _) eq_refl).
Qed.

Lemma vread_Const K env (d : D) : vread K env (Const d) = Ok (replicate K d).
Proof. apply vread_elements. simpl. by rewrite fmap_replicate. Qed.

Lemma vread_vec K env r ds : env !! r = Some (vec ds) -> vread K env (Reg r) = Ok ds.
Proof. intros Hr. apply vread_elements. simpl. by rewrite Hr. Qed.

Lemma vread_env K env env' w :
  (forall r, r ∈ uses w -> env' !! r = env !! r) -> vread K env' w = vread K env w.
Proof.
  intros He. unfold vread. destruct w as [d|r]; [done|]. simpl.
  by rewrite He by (by apply list_elem_of_singleton).
Qed.

Lemma elements_env K env env' w :
  (forall r, r ∈ uses w -> env' !! r = env !! r) -> elements K env' w = elements K env w.
Proof.
  intros He. destruct w as [d|r]; [done|]. simpl.
  by rewrite He by (by apply list_elem_of_singleton).
Qed.

(** ** Straight-line code *)

Lemma vexec_app K markets base a b S :
  vexec K markets base (a ++ b) S = rbind (vexec K markets base a S) (vexec K markets base b).
Proof.
  revert S. induction a as [|i a IH]; intros S; [done|]. simpl. rewrite rbind_assoc.
  destruct (vstep _ _ _ i S); [apply IH|done].
Qed.

Definition vdefs (c : list (VInstr D)) : gset nat := list_to_set (concat (map vinstr_def c)).

Lemma vverify_app scope (a b : list (VInstr D)) :
  vverify scope (a ++ b) = vverify scope a && vverify (vdefs a ∪ scope) b.
Proof.
  revert scope. induction a as [|i a IH]; intros scope; simpl.
  - f_equal. unfold vdefs. simpl. set_solver.
  - rewrite IH, andb_assoc. do 2 f_equal. unfold vdefs. simpl. rewrite list_to_set_app_L. set_solver.
Qed.

(** Registers are taken in order: code verifies in any scope that has the
    registers taken before it. *)
Definition covers (k : nat) (scope : gset nat) : Prop := forall r, r < k -> r ∈ scope.

Record vok (k : nat) (c : list (VInstr D)) (k' : nat) : Prop := {
  vok_verify : forall scope, covers k scope -> vverify scope c = true;
  vok_covers : forall scope, covers k scope -> covers k' (vdefs c ∪ scope) }.

Lemma vok_nil k : vok k [] k.
Proof. split; [done|]. intros scope Hc r Hr. apply elem_of_union_r. auto. Qed.

Lemma vok_app k1 a k2 b k3 : vok k1 a k2 -> vok k2 b k3 -> vok k1 (a ++ b) k3.
Proof.
  intros [Va Ca] [Vb Cb]. split.
  - intros scope Hc. by rewrite vverify_app, Va, Vb by auto.
  - intros scope Hc r Hr. specialize (Cb _ (Ca _ Hc) r Hr). unfold vdefs in *.
    rewrite map_app, concat_app, list_to_set_app_L. set_solver.
Qed.

Lemma vok_one k (i : VInstr D) :
  (forall r, r ∈ vinstr_uses i -> r < k) -> vinstr_def i = [k] -> vok k [i] (S k).
Proof.
  intros Hu Hd. split.
  - intros scope Hc. simpl. rewrite andb_true_r. apply dominated_spec. auto.
  - intros scope Hc r Hr. unfold vdefs. simpl. rewrite Hd. simpl.
    destruct (decide (r = k)) as [->|]; [set_solver|]. apply elem_of_union_r, Hc. lia.
Qed.

Lemma vok_plain k (i : VInstr D) :
  (forall r, r ∈ vinstr_uses i -> r < k) -> vinstr_def i = [] -> vok k [i] k.
Proof.
  intros Hu Hd. split.
  - intros scope Hc. simpl. rewrite andb_true_r. apply dominated_spec. auto.
  - intros scope Hc r Hr. apply elem_of_union_r. auto.
Qed.
End vectors.

(** ** Effects leave the parameters alone *)

Section params.
Context {D L : Type} `{Machine D L}.
Notation Ctx := (SignalContext D L).

Definition same_params (c c' : Ctx) : Prop := params c' = params c /\ num_params c' = num_params c.

Definition params_kept {A} (f : Ctx -> Res (A * Ctx)) : Prop :=
  forall c a c', f c = Ok (a, c') -> same_params c c'.

Lemma with_node_params {A T} (sl : Slots (NodeStates D L) T) id (f : T -> Res (A * T)) :
  params_kept (with_node sl id f).
Proof.
  intros c a c' Hw. unfold with_node in Hw. apply bind_Ok in Hw as (t & _ & Hw).
  apply bind_Ok in Hw as ([a' t'] & _ & [= <- <-]). done.
Qed.

Lemma extremum_params dqs idxs update id x p :
  params_kept (jit_rt_extremum (D:=D) (L:=L) dqs idxs update id x p).
Proof.
  intros c v c' Hw. unfold jit_rt_extremum in Hw. apply bind_Ok in Hw as ([idx c1] & H1 & Hw).
  apply bind_Ok in Hw as ([[w i] c2] & H2 & Hw). apply bind_Ok in Hw as ([u c3] & H3 & [= <- <-]).
  apply with_node_params in H1, H2, H3. unfold same_params in *. intuition congruence.
Qed.

Lemma vwap_params market id sym p : params_kept (jit_rt_vwap (D:=D) (L:=L) market id sym p).
Proof.
  intros c v c' Hw. unfold jit_rt_vwap in Hw. apply bind_Ok in Hw as (ins & _ & Hw).
  by apply with_node_params in Hw.
Qed.

Lemma on_ctx_params {A} (f : Ctx -> Res (A * Ctx)) j a j' :
  params_kept f -> on_ctx f j = Ok (a, j') -> same_params (js_ctx j) (js_ctx j').
Proof.
  intros Hf He. unfold on_ctx in He. apply bind_Ok in He as ([a' c] & Hc & [= <- <-]).
  by apply Hf in Hc.
Qed.

Lemma on_low_params {A} (f : LoweredStates D L -> Res (A * LoweredStates D L)) j a j' :
  on_low f j = Ok (a, j') -> same_params (js_ctx j) (js_ctx j').
Proof.
  intros He. unfold on_low in He. apply bind_Ok in He as ([a' c] & Hc & [= <- <-]). done.
Qed.

Lemma run_effect_params market eff args j d j' :
  run_effect market eff args j = Ok (d, j') -> same_params (js_ctx j) (js_ctx j').
Proof.
  intros He. unfold run_effect, bad_call in He.
  destruct eff; try destruct kind; destruct args as [|a1 [|a2 [|a3 [|a4 args]]]]; try discriminate He.
  all: lazymatch type of He with
       | on_low _ _ = _ => eapply on_low_params; exact He
       | on_ctx _ _ = _ =>
           eapply on_ctx_params; [|exact He];
           lazymatch goal with
           | |- params_kept (jit_rt_vwap _ _ _ _) => apply vwap_params
           | |- params_kept (jit_rt_rolling_min _ _ _) => apply extremum_params
           | |- params_kept (jit_rt_rolling_max _ _ _) => apply extremum_params
           | _ => apply with_node_params
           end
       | _ => idtac
       end.
  - by apply fmap_Ok in He as (d' & _ & [= _ <-]).
  - apply bind_Ok in He as ([full j1] & Hf & [= _ <-]). eapply on_ctx_params; [|exact Hf].
    apply with_node_params.
Qed.

Lemma same_params_rt c c' id : same_params c c' -> jit_rt_param id c' = jit_rt_param (D:=D) (L:=L) id c.
Proof. intros [Hp Hn]. unfold jit_rt_param. by rewrite Hp, Hn. Qed.
End params.

(** ** The simulation *)

(** What an emitter returns: a [double], a bit, or a [double] of which only
    the market field it holds is known. *)
Inductive Operand {D : Type} := OVal (v : Value D) | OBit (r : nat) | OField (sym_id : nat) (f : Field).
Arguments Operand : clear implicits.

Definition ouses {D} (o : Operand D) : list nat :=
  match o with OVal v => uses v | OBit r => [r] | OField _ _ => [] end.
Definition obelow {D} (k : nat) (o : Operand D) : Prop := forall r, r ∈ ouses o -> r < k.

Lemma obelow_le {D} k k' (o : Operand D) : k <= k' -> obelow k o -> obelow k' o.
Proof. intros Hk Ho r Hr. specialize (Ho r Hr). lia. Qed.

(** The context with another next register. *)
Definition with_reg {D} (k : nat) (cg : Codegen (D:=D)) : Codegen (D:=D) :=
  MkCodegen k (program_market_field_cache cg) (stateful_emit_cache cg) (signal_values cg)
    (next_node_id cg).

Section simulation.
Context {D L : Type} `{Machine D L}.
Variables (K n np : nat).
(** The arguments of a call, and the market of each lane. *)
Variables (markets : list (MarketState D)) (mkt : nat -> MarketState D) (base : nat).
Hypothesis K_pos : 0 < K.
Hypothesis lane_market : forall k, k < K -> markets !! k = Some (mkt k).
Hypothesis lane_size : forall k, k < K -> length (instruments (mkt k)) = n.
Hypothesis lane_base : (Z.of_nat (base + K) <= 2 ^ 32)%Z.
Implicit Types (cg vg : Codegen (D:=D)) (v w : Value D) (S : VState D L)
  (s : nat -> Machine_state D L) (A : nat -> bool).
Notation code_safe := (code_safe n np).

Definition field (k sym : nat) (f : Field) : option D := read_field f <$> instruments (mkt k) !! sym.

(** The lanes in [A] run the code, the others stand still. *)
Definition lanes_exec A (code : Code D) s s' : Prop :=
  forall k, k < K -> if A k then exec (mkt k) code (s k) = Ok (s' k) else s' k = s k.

Definition mode A (code : Code D) : Prop :=
  ((forall k, k < K -> A k = true) /\ code_safe false code = true) \/ code_safe true code = true.

(** A lane's operand, where the lane has defined it, is the element of the
    vector. *)
Definition tracks s S (o o' : Operand D) : Prop :=
  match o, o' with
  | OVal v, OVal w => exists ds, vread K (venv S) w = Ok ds /\ length ds = K /\
      forall k d, k < K -> read (env (s k)) v = Ok d -> ds !! k = Some d
  | OBit r, OBit q => exists bs, venv S !! q = Some (VMask bs) /\ length bs = K /\
      forall k b, k < K -> read_bit (env (s k)) r = Ok b -> bs !! k = Some b
  | OVal v, OField sym f =>
      sym < n /\ forall k d, k < K -> read (env (s k)) v = Ok d -> field k sym f = Some d
  | _, _ => False
  end.

Definition Held := list (Operand D * Operand D).
Definition held_below (held : Held) cg vg : Prop :=
  Forall (fun p => obelow (next_reg cg) p.1 /\ obelow (next_reg vg) p.2) held.
Definition holds (held : Held) s S : Prop := Forall (fun p => tracks s S p.1 p.2) held.

(** Cached values are older than the next register. *)
Record caches_below cg : Prop := {
  cb_stateful : forall id v, stateful_emit_cache cg !! id = Some v -> below (next_reg cg) v;
  cb_market : forall key v, program_market_field_cache cg !! key = Some v -> below (next_reg cg) v;
  cb_signals : forall name v, signal_values cg !! name = Some v -> below (next_reg cg) v }.

(** The two emissions know the same calls and signals. *)
Record erel cg vg : Prop := {
  e_cg : caches_below cg;
  e_vg : caches_below vg;
  e_stateful : forall id, is_Some (stateful_emit_cache cg !! id) <-> is_Some (stateful_emit_cache vg !! id);
  e_signals : forall name, is_Some (signal_values cg !! name) <-> is_Some (signal_values vg !! name);
  e_next : next_node_id cg = next_node_id vg }.

(** The states between two instructions of the program. *)
Record rel cg vg s S : Prop := {
  r_fresh : forall k r, k < K -> next_reg cg <= r -> env (s k) !! r = None;
  r_state : forall k, k < K -> arena S !! (base + k) = Some (js (s k));
  r_params : forall k id, k < K -> (0 <= id < Z.of_nat np)%Z ->
    exists d, jit_rt_param id (js_ctx (js (s k))) = Ok d;
  r_stateful : forall id v w, stateful_emit_cache cg !! id = Some v ->
    stateful_emit_cache vg !! id = Some w -> tracks s S (OVal v) (OVal w);
  r_signals : forall name v w, signal_values cg !! name = Some v ->
    signal_values vg !! name = Some w -> tracks s S (OVal v) (OVal w);
  r_cmarket : forall sym f v,
    program_market_field_cache cg !! MarketFieldCacheKey sym (field_index f) = Some v ->
    tracks s S (OVal v) (OField sym f);
  r_vmarket : forall sym f w,
    program_market_field_cache vg !! MarketFieldCacheKey sym (field_index f) = Some w ->
    exists ds, vread K (venv S) w = Ok ds /\ length ds = K /\
      forall k, k < K -> ds !! k = field k sym f }.

(** What running code leaves alone. *)
Record frame cg vg s S s' S' : Prop := {
  f_env : forall k r, k < K -> r < next_reg cg -> env (s' k) !! r = env (s k) !! r;
  f_outputs : forall k, k < K -> outputs (s' k) = outputs (s k);
  f_venv : forall r, r < next_reg vg -> venv S' !! r = venv S !! r;
  f_voutputs : voutputs S' = voutputs S;
  f_arena : forall sym, (forall k, k < K -> sym <> base + k) -> arena S' !! sym = arena S !! sym }.

(** [m'] emits vectorised code for what [m] emits scalar code for, the
    operands [held] being known. *)
Definition sim {X X'} (o : X -> Operand D) (o' : X' -> Operand D) (held : Held)
    (m : EmitM (D:=D) X) (m' : EmitV (D:=D) X') : Prop :=
  forall cg vg x code cg', erel cg vg -> held_below held cg vg -> m cg = Ok (x, code, cg') ->
  exists x' vcode vg', m' vg = Ok (x', vcode, vg') /\ erel cg' vg' /\
    next_reg cg <= next_reg cg' /\ next_reg vg <= next_reg vg' /\
    obelow (next_reg cg') (o x) /\ obelow (next_reg vg') (o' x') /\
    vok (next_reg vg) vcode (next_reg vg') /\
    forall A s s' S, mode A code -> rel cg vg s S -> holds held s S -> lanes_exec A code s s' ->
    exists S', vexec K markets base vcode S = Ok S' /\ rel cg' vg' s' S' /\
      tracks s' S' (o x) (o' x') /\ frame cg vg s S s' S'.

(** *** Frames *)

Lemma frame_refl cg vg s S : frame cg vg s S s S.
Proof. done. Qed.

Lemma vframe_trans cg vg s S cg1 vg1 s1 S1 s2 S2 :
  frame cg vg s S s1 S1 -> frame cg1 vg1 s1 S1 s2 S2 ->
  next_reg cg <= next_reg cg1 -> next_reg vg <= next_reg vg1 -> frame cg vg s S s2 S2.
Proof.
  intros [E1 O1 V1 W1 R1] [E2 O2 V2 W2 R2] Hc Hv. split.
  - intros k r Hk Hr. rewrite E2 by lia. by apply E1.
  - intros k Hk. rewrite O2 by done. by apply O1.
  - intros r Hr. rewrite V2 by lia. by apply V1.
  - congruence.
  - intros sym Hs. rewrite R2 by done. by apply R1.
Qed.

(** Old operands are tracked as before. *)
Lemma tracks_frame cg vg s S s' S' o o' :
  frame cg vg s S s' S' -> obelow (next_reg cg) o -> obelow (next_reg vg) o' ->
  tracks s S o o' -> tracks s' S' o o'.
Proof.
  intros [E _ V _ _] Ho Ho'. destruct o as [v|r|], o' as [w|q|]; simpl; try done.
  - intros (ds & Hr & Hl & Hd). exists ds. split_and!; [|done|].
    + rewrite <- Hr. apply vread_env. intros r Hr'. by apply V, Ho'.
    + intros k d Hk Hread. apply Hd; [done|]. rewrite <- Hread. symmetry. apply read_env.
      intros r Hr'. by apply E, Ho.
  - intros [Hn Hd]. split; [done|]. intros k d Hk Hread. apply Hd; [done|]. rewrite <- Hread.
    symmetry. apply read_env. intros r Hr'. by apply E, Ho.
  - intros (bs & Hr & Hl & Hd). exists bs. split_and!; [|done|].
    + rewrite <- Hr. apply V, Ho'. by left.
    + intros k b Hk Hread. apply Hd; [done|]. rewrite <- Hread. unfold read_bit.
      by rewrite E by (done || (apply Ho; by left)).
Qed.

Lemma holds_frame held cg vg s S s' S' :
  frame cg vg s S s' S' -> held_below held cg vg -> holds held s S -> holds held s' S'.
Proof.
  intros HF Hb Hh. unfold holds, held_below in *. rewrite Forall_forall in *.
  intros p Hp. destruct (Hb p Hp). eapply tracks_frame; [exact HF|done|done|auto].
Qed.

Lemma held_below_le held cg vg cg' vg' :
  next_reg cg <= next_reg cg' -> next_reg vg <= next_reg vg' -> held_below held cg vg ->
  held_below held cg' vg'.
Proof.
  intros Hc Hv Hb. eapply Forall_impl; [exact Hb|]. intros p [H1 H2]. split; by eapply obelow_le.
Qed.

Lemma with_reg_id cg : with_reg (next_reg cg) cg = cg.
Proof. by destruct cg. Qed.

(** The relation behind code that adds nothing to the caches. *)
Lemma rel_frame cg vg s S s' S' kc kv :
  erel cg vg -> rel cg vg s S -> frame cg vg s S s' S' ->
  (forall k r, k < K -> kc <= r -> env (s' k) !! r = None) ->
  (forall k, k < K -> arena S' !! (base + k) = Some (js (s' k))) ->
  (forall k id, k < K -> (0 <= id < Z.of_nat np)%Z ->
     exists d, jit_rt_param id (js_ctx (js (s' k))) = Ok d) ->
  rel (with_reg kc cg) (with_reg kv vg) s' S'.
Proof.
  intros [[CS CM CV] [VS VM VV] _ _ _] [_ _ _ Hst Hsg Hcm Hvm] HF Hfr Hstate Hpar.
  split; [done|done|done|..].
  - intros id v w Hv Hw. eapply tracks_frame; [exact HF|exact (CS _ _ Hv)|exact (VS _ _ Hw)|eauto].
  - intros id v w Hv Hw. eapply tracks_frame; [exact HF|exact (CV _ _ Hv)|exact (VV _ _ Hw)|eauto].
  - intros sym f v Hv.
    eapply tracks_frame; [exact HF|exact (CM _ _ Hv)| |by apply Hcm]. intros r Hr. by apply not_elem_of_nil in Hr.
  - intros sym f w Hw. destruct (Hvm _ _ _ Hw) as (ds & Hr & Hl & Hd). exists ds.
    split_and!; [|done|done]. rewrite <- Hr. apply vread_env. intros r Hr'.
    apply HF. exact (VM _ _ Hw r Hr').
Qed.

(** States that are equal on the lanes. *)
Lemma frame_ext cg vg s S s' : (forall k, k < K -> s' k = s k) -> frame cg vg s S s' S.
Proof. intros Hs. split; try done; intros k *; intros; by rewrite Hs. Qed.

Lemma rel_ext cg vg s S s' :
  erel cg vg -> rel cg vg s S -> (forall k, k < K -> s' k = s k) -> rel cg vg s' S.
Proof.
  intros Hrel HR Hs. rewrite <- (with_reg_id cg), <- (with_reg_id vg).
  eapply rel_frame; [done|exact HR|by apply frame_ext| | |]; intros k *; intros; rewrite Hs by done;
    by apply HR.
Qed.

(** *** Composition *)

Lemma lanes_exec_capp A a b s s' :
  lanes_exec A (capp a b) s s' -> exists s1, lanes_exec A a s s1 /\ lanes_exec A b s1 s'.
Proof.
  intros He.
  exists (fun k => if A k then match exec (mkt k) a (s k) with Ok s1 => s1 | Err _ => s k end else s k).
  split; intros k Hk; specialize (He k Hk); destruct (A k) eqn:EA; try done.
  - rewrite exec_capp in He. by destruct (exec (mkt k) a (s k)).
  - rewrite exec_capp in He. by destruct (exec (mkt k) a (s k)).
Qed.

Lemma mode_capp A a b : mode A (capp a b) -> mode A a /\ mode A b.
Proof.
  unfold mode. rewrite !code_safe_capp, !andb_true_iff. intros [(Ha & ? & ?)|[? ?]].
  - split; left; by split.
  - split; by right.
Qed.

Lemma vsim_bind {X X' Y Y'} (o : X -> Operand D) (o' : X' -> Operand D) (p : Y -> Operand D)
    (p' : Y' -> Operand D) held m m' f f' :
  sim o o' held m m' -> (forall x x', sim p p' ((o x, o' x') :: held) (f x) (f' x')) ->
  sim p p' held (bindE m f) (vbind m' f').
Proof.
  intros Hm Hf cg vg y code cg' Hrel Hb He. unfold bindE in He.
  apply bind_Ok in He as ([[x c1] cg1] & H1 & He). apply bind_Ok in He as ([[y' c2] cg2] & H2 & [= <- <- <-]).
  destruct (Hm _ _ _ _ _ Hrel Hb H1) as (x' & vc1 & vg1 & V1 & R1 & L1 & M1 & B1 & B1' & K1 & X1).
  assert (Hb1 : held_below ((o x, o' x') :: held) cg1 vg1).
  { constructor; [done|]. eapply held_below_le; [exact L1|exact M1|done]. }
  destruct (Hf x x' _ _ _ _ _ R1 Hb1 H2) as (z' & vc2 & vg2 & V2 & R2 & L2 & M2 & B2 & B2' & K2 & X2).
  exists z', (vc1 ++ vc2), vg2. unfold vbind. rewrite V1. simpl. rewrite V2. simpl.
  split_and!; [done|done|lia|lia|done|done|by eapply vok_app|].
  intros A s s' S [Hm1 Hm2]%mode_capp HR Hh (s1 & E1 & E2)%lanes_exec_capp.
  destruct (X1 A s s1 S Hm1 HR Hh E1) as (S1 & EV1 & RR1 & T1 & F1).
  assert (Hh1 : holds ((o x, o' x') :: held) s1 S1).
  { constructor; [done|]. by eapply holds_frame. }
  destruct (X2 A s1 s' S1 Hm2 RR1 Hh1 E2) as (S2 & EV2 & RR2 & T2 & F2).
  exists S2. rewrite vexec_app, EV1. split_and!; [done|done|done|].
  eapply vframe_trans; [exact F1|exact F2|done|done].
Qed.

(** Emission that writes nothing. *)
Lemma vsim_ret {X X'} (o : X -> Operand D) (o' : X' -> Operand D) held x x' :
  (forall k j, held_below held k j -> obelow (next_reg k) (o x) /\ obelow (next_reg j) (o' x')) ->
  (forall s S, holds held s S -> tracks s S (o x) (o' x')) ->
  sim o o' held (ret x) (vret x').
Proof.
  intros Hb Ht cg vg y code cg' Hrel Hh [= <- <- <-]. destruct (Hb _ _ Hh).
  exists x', [], vg. split_and!; [done|done|lia|lia|done|done|apply vok_nil|].
  intros A s s' S _ HR HH He. exists S.
  assert (Hs : forall k, k < K -> s' k = s k).
  { intros k Hk. specialize (He k Hk). destruct (A k); [by injection He as ->|done]. }
  pose proof (frame_ext cg vg s S s' Hs) as HF.
  split_and!; [done|by eapply rel_ext| |done]. apply Ht. by eapply holds_frame.
Qed.

Lemma vsim_throw {X X'} (o : X -> Operand D) (o' : X' -> Operand D) held msg m' :
  sim o o' held (JitCompiler.throw msg) m'.
Proof. by intros cg vg x code cg' _ _ [=]. Qed.

(** Emitters may be replaced by equal ones; the vectorised one by one that
    succeeds where it does. *)
Lemma vsim_refine {X X'} (o : X -> Operand D) (o' : X' -> Operand D) held m1 m2 m1' m2' :
  (forall cg, m1 cg = m2 cg) -> (forall vg r, m2' vg = Ok r -> m1' vg = Ok r) ->
  sim o o' held m2 m2' -> sim o o' held m1 m1'.
Proof.
  intros Hm Hm' Hs cg vg x code cg' Hrel Hb He. rewrite Hm in He.
  destruct (Hs _ _ _ _ _ Hrel Hb He) as (x' & vcode & vg' & HV & Hrest).
  exists x', vcode, vg'. split; [by apply Hm'|done].
Qed.

Lemma vsim_ext {X X'} (o : X -> Operand D) (o' : X' -> Operand D) held m1 m2 m' :
  (forall cg, m1 cg = m2 cg) -> sim o o' held m2 m' -> sim o o' held m1 m'.
Proof. intros Hm. by apply vsim_refine. Qed.

Lemma vsim_held {X X'} (o : X -> Operand D) (o' : X' -> Operand D) (held held' : Held) m m' :
  (forall p, p ∈ held' -> p ∈ held) -> sim o o' held' m m' -> sim o o' held m m'.
Proof.
  intros Hin Hs cg vg x code cg' Hrel Hb He.
  assert (Hb' : held_below held' cg vg).
  { unfold held_below in *. rewrite Forall_forall in *. auto. }
  destruct (Hs _ _ _ _ _ Hrel Hb' He) as (x' & vcode & vg' & HV & R & L1 & L2 & B1 & B2 & V & HX).
  exists x', vcode, vg'. split_and!; try done. intros A s s' S Hm HR Hh. apply HX; [done|done|].
  unfold holds in *. rewrite Forall_forall in *. auto.
Qed.

(** *** One new register *)

(** The elements of a new register: numbers or bits. *)
Inductive Vect := VD (ds : list D) | VB (bs : list bool).
Definition vreg (x : Vect) : VRegValue D := match x with VD ds => vec ds | VB bs => VMask bs end.
Definition vlen (x : Vect) : nat := match x with VD ds => length ds | VB bs => length bs end.
Definition vlane (x : Vect) (k : nat) : option (RegValue D) :=
  match x with VD ds => F64 <$> ds !! k | VB bs => I1 <$> bs !! k end.
Definition vkind (x : Vect) (r : nat) : Operand D :=
  match x with VD _ => OVal (Reg r) | VB _ => OBit r end.

(** The relation behind an instruction that defines one register on each
    side; an inactive lane has not moved. *)
Lemma rel_result cg vg s S s' S' x q kv :
  erel cg vg -> rel cg vg s S -> next_reg vg <= q < kv ->
  (forall k, k < K -> env (s' k) = env (s k) \/
     exists y, vlane x k = Some y /\ env (s' k) = <[next_reg cg := y]> (env (s k))) ->
  (forall k, k < K -> outputs (s' k) = outputs (s k)) ->
  vlen x = K -> venv S' !! q = Some (vreg x) ->
  (forall r, r < next_reg vg -> venv S' !! r = venv S !! r) -> voutputs S' = voutputs S ->
  (forall sym, (forall k, k < K -> sym <> base + k) -> arena S' !! sym = arena S !! sym) ->
  (forall k, k < K -> arena S' !! (base + k) = Some (js (s' k))) ->
  (forall k id, k < K -> (0 <= id < Z.of_nat np)%Z ->
     exists d, jit_rt_param id (js_ctx (js (s' k))) = Ok d) ->
  rel (with_reg (Datatypes.S (next_reg cg)) cg) (with_reg kv vg) s' S' /\
  tracks s' S' (vkind x (next_reg cg)) (vkind x q) /\ frame cg vg s S s' S'.
Proof.
  intros Hrel HR Hw Henv Hout Hlen Hreg Hkeep Hvout Hout' Hstate Hpar.
  pose proof (r_fresh _ _ _ _ HR) as Hfr.
  assert (HF : frame cg vg s S s' S').
  { split; try done. intros k r Hk Hr. destruct (Henv k Hk) as [->|(y & _ & ->)]; [done|].
    apply lookup_insert_ne. lia. }
  split_and!; [|..|done].
  - eapply rel_frame; [done|exact HR|exact HF| |done|done]. intros k r Hk Hr.
    destruct (Henv k Hk) as [->|(y & _ & ->)]; [apply Hfr; [done|lia]|].
    rewrite lookup_insert_ne by lia. apply Hfr; [done|lia].
  - assert (Hl : forall k y, k < K -> env (s' k) !! next_reg cg = Some y -> vlane x k = Some y).
    { intros k y Hk Hy. destruct (Henv k Hk) as [He|(y' & Hx & He)]; rewrite He in Hy.
      - by rewrite Hfr in Hy.
      - rewrite lookup_insert_eq in Hy. congruence. }
    destruct x as [ds|bs]; simpl in *; unfold tracks.
    + exists ds. split_and!; [by apply vread_vec|done|]. intros k d Hk Hd. unfold read in Hd.
      destruct (env (s' k) !! next_reg cg) as [[|]|] eqn:E; try done. injection Hd as ->.
      apply Hl in E; [|done]. by destruct (ds !! k); simplify_eq/=.
    + exists bs. split_and!; [done|done|]. intros k b Hk Hb. unfold read_bit in Hb.
      destruct (env (s' k) !! next_reg cg) as [[|]|] eqn:E; try done. injection Hb as ->.
      apply Hl in E; [|done]. by destruct (bs !! k); simplify_eq/=.
Qed.

Lemma erel_reg cg vg kc kv :
  erel cg vg -> next_reg cg <= kc -> next_reg vg <= kv -> erel (with_reg kc cg) (with_reg kv vg).
Proof.
  intros [[CS CM CV] [VS VM VV] HS HG HN] Hc Hv. split; try done.
  - split; intros k v Hk; (eapply below_le; [exact Hc|]); simpl in Hk; eauto.
  - split; intros k v Hk; (eapply below_le; [exact Hv|]); simpl in Hk; eauto.
Qed.

(** One instruction that only computes, on both sides. *)
Definition computes (held : Held) (mk : nat -> Instr D) (mk' : nat -> VInstr D) (o : nat -> Operand D) : Prop :=
  forall s S, holds held s S -> exists x, vkind x = o /\ vlen x = K /\
    (forall dst, vstep K markets base (mk' dst) S = Ok (set_vreg dst (vreg x) S)) /\
    forall k dst t, k < K -> step (mkt k) (mk dst) (s k) = Ok t ->
      exists y, vlane x k = Some y /\ t = set_reg dst y (s k).

Lemma vsim_build_reg held mk mk' o :
  (forall dst, vinstr_def (mk' dst) = [dst]) ->
  (forall dst r, r ∈ vinstr_uses (mk' dst) -> exists p, p ∈ held /\ r ∈ ouses p.2) ->
  (forall r, ouses (o r) = [r]) ->
  computes held mk mk' o -> sim o o held (build_reg mk) (vbuild_reg mk').
Proof.
  intros Hdef Huse Ho Hc cg vg r code cg' Hrel Hb [= <- <- <-].
  exists (next_reg vg), [mk' (next_reg vg)], (with_reg (Datatypes.S (next_reg vg)) vg).
  split_and!; [done|by apply erel_reg; auto|simpl; lia|simpl; lia| | | |].
  1,2: intros r Hr; rewrite Ho in Hr; apply list_elem_of_singleton in Hr as ->; simpl; lia.
  { apply vok_one; [|done]. intros r Hr. apply Huse in Hr as (p & Hp & Hr).
    unfold held_below in Hb. rewrite Forall_forall in Hb. by apply (Hb p Hp). }
  intros A s s' S _ HR Hh He. destruct (Hc s S Hh) as (x & <- & Hlen & Hv & Hs).
  assert (Hs' : forall k, k < K -> s' k = s k \/
    exists y, vlane x k = Some y /\ s' k = set_reg (next_reg cg) y (s k)).
  { intros k Hk. specialize (He k Hk). destruct (A k); [right|by left].
    apply bind_Ok in He as (s1 & He & [= <-]). by eapply Hs. }
  exists (set_vreg (next_reg vg) (vreg x) S). split; [simpl; by rewrite Hv|].
  assert (Hjs : forall k, k < K -> js (s' k) = js (s k) /\ outputs (s' k) = outputs (s k)).
  { intros k Hk. by destruct (Hs' k Hk) as [->|(y & _ & ->)]. }
  apply (rel_result cg vg s S); try done.
  - simpl. lia.
  - intros k Hk. destruct (Hs' k Hk) as [->|(y & Hy & ->)]; [by left|right; eauto].
  - intros k Hk. by apply Hjs.
  - simpl. by rewrite lookup_insert_eq.
  - intros r Hr. simpl. apply lookup_insert_ne. lia.
  - intros k Hk. rewrite (proj1 (Hjs k Hk)). by apply HR.
  - intros k id Hk. rewrite (proj1 (Hjs k Hk)). by apply HR.
Qed.

(** *** Arithmetic *)

Definition known (held : Held) v w : Prop :=
  (OVal v, OVal w) ∈ held \/ exists d, v = Const d /\ w = Const d.

Lemma vknown_read held s S v w :
  holds held s S -> known held v w -> exists ds, vread K (venv S) w = Ok ds /\ length ds = K /\
    forall k d, k < K -> read (env (s k)) v = Ok d -> ds !! k = Some d.
Proof.
  unfold holds. rewrite Forall_forall. intros Hh [Hin|(d & -> & ->)].
  - exact (Hh _ Hin).
  - exists (replicate K d). split_and!; [apply vread_Const|by rewrite length_replicate|].
    intros k d' Hk [= <-]. by apply lookup_replicate_2.
Qed.

Lemma known_uses held v w r : known held v w -> r ∈ uses w -> exists p, p ∈ held /\ r ∈ ouses p.2.
Proof.
  intros [Hin|(d & -> & ->)] Hr; [|by apply not_elem_of_nil in Hr]. by exists (OVal v, OVal w).
Qed.

Lemma bit_read (held : Held) s S r q :
  holds held s S -> (OBit r, OBit q) ∈ held -> exists bs, venv S !! q = Some (VMask bs) /\
    length bs = K /\ forall k b, k < K -> read_bit (env (s k)) r = Ok b -> bs !! k = Some b.
Proof. unfold holds. rewrite Forall_forall. intros Hh Hin. exact (Hh _ Hin). Qed.

Lemma bit_uses (held : Held) (r q r' : nat) :
  (OBit r, OBit q) ∈ held -> r' ∈ [q] -> exists p, p ∈ held /\ r' ∈ ouses p.2.
Proof. intros Hin Hr. by exists (OBit r, OBit q). Qed.

Notation value := (fun r => OVal (Reg r)) (only parsing).

Lemma vsim_build held mk mk' :
  sim value value held (build_reg mk) (vbuild_reg mk') ->
  sim OVal OVal held (build mk) (vbuild mk').
Proof.
  intros Hs. eapply vsim_bind; [exact Hs|]. intros r r'. apply vsim_ret.
  - intros k j Hb. unfold held_below in Hb. apply Forall_cons in Hb as [Hb _]. exact Hb.
  - intros s S Hh. apply Forall_cons in Hh as [Ht _]. exact Ht.
Qed.

Lemma vsim_neg held v w :
  known held v w -> sim OVal OVal held (CreateFNeg v) (lanewise (CreateFNeg w)).
Proof.
  intros Hk. apply (vsim_build _ _ (fun dst => VLanewise (INeg dst w))), vsim_build_reg; try done.
  - intros dst r. exact (known_uses _ _ _ _ Hk).
  - intros s S Hh. destruct (vknown_read _ _ _ _ _ Hh Hk) as (ds & Hr & Hl & Hd).
    exists (VD (map fopp ds)). split_and!; [done|by simpl; rewrite length_map| |].
    + intros dst. simpl. by rewrite Hr.
    + intros k dst t Hlt Ht. simpl in Ht. apply bind_Ok in Ht as (d & Hv & [= <-]).
      exists (F64 (fopp d)). split; [|done]. simpl. rewrite list_lookup_fmap.
      by rewrite (Hd _ _ Hlt Hv).
Qed.

Lemma vsim_intrinsic held f v w :
  known held v w -> sim OVal OVal held (CreateIntrinsic f v) (lanewise (CreateIntrinsic f w)).
Proof.
  intros Hk. apply (vsim_build _ _ (fun dst => VLanewise (IIntrinsic dst f w))), vsim_build_reg; try done.
  - intros dst r. exact (known_uses _ _ _ _ Hk).
  - intros s S Hh. destruct (vknown_read _ _ _ _ _ Hh Hk) as (ds & Hr & Hl & Hd).
    exists (VD (map (intrinsic f) ds)). split_and!; [done|by simpl; rewrite length_map| |].
    + intros dst. simpl. by rewrite Hr.
    + intros k dst t Hlt Ht. simpl in Ht. apply bind_Ok in Ht as (d & Hv & [= <-]).
      exists (F64 (intrinsic f d)). split; [|done]. simpl. rewrite list_lookup_fmap.
      by rewrite (Hd _ _ Hlt Hv).
Qed.

Lemma lookup_zip {X Y Z} (g : X -> Y -> Z) (a : list X) b k x y :
  a !! k = Some x -> b !! k = Some y -> zip_with g a b !! k = Some (g x y).
Proof. intros Hx Hy. by rewrite lookup_zip_with, Hx, Hy. Qed.

Lemma length_zip {X Y Z} (g : X -> Y -> Z) (a : list X) b :
  length a = K -> length b = K -> length (zip_with g a b) = K.
Proof. intros Ha Hb. rewrite length_zip_with. lia. Qed.

Lemma vsim_bin held op v1 v2 w1 w2 :
  known held v1 w1 -> known held v2 w2 ->
  sim OVal OVal held (CreateFBin op v1 v2) (lanewise (CreateFBin op w1 w2)).
Proof.
  intros K1 K2. apply (vsim_build _ _ (fun dst => VLanewise (IBin dst op w1 w2))), vsim_build_reg; try done.
  - intros dst r Hr. simpl in Hr. apply elem_of_app in Hr as [Hr|Hr];
    [exact (known_uses _ _ _ _ K1 Hr)|exact (known_uses _ _ _ _ K2 Hr)].
  - intros s S Hh. destruct (vknown_read _ _ _ _ _ Hh K1) as (xs & R1 & L1 & X1).
    destruct (vknown_read _ _ _ _ _ Hh K2) as (ys & R2 & L2 & X2).
    exists (VD (zip_with (fbinary op) xs ys)). split_and!; [done|by apply length_zip| |].
    + intros dst. simpl. by rewrite R1, R2.
    + intros k dst t Hlt Ht. simpl in Ht. apply bind_Ok in Ht as (a & Ha & Ht).
      apply bind_Ok in Ht as (b & Hb & [= <-]). exists (F64 (fbinary op a b)). split; [|done].
      simpl. by rewrite (lookup_zip _ _ _ _ _ _ (X1 _ _ Hlt Ha) (X2 _ _ Hlt Hb)).
Qed.

Lemma vsim_cmp held p v1 v2 w1 w2 :
  known held v1 w1 -> known held v2 w2 ->
  sim OBit OBit held (CreateFCmp p v1 v2) (lanewise (CreateFCmp p w1 w2)).
Proof.
  intros K1 K2.
  apply (vsim_build_reg _ _ (fun dst => VLanewise (ICmp dst p w1 w2))); try done.
  - intros dst r Hr. simpl in Hr. apply elem_of_app in Hr as [Hr|Hr];
    [exact (known_uses _ _ _ _ K1 Hr)|exact (known_uses _ _ _ _ K2 Hr)].
  - intros s S Hh. destruct (vknown_read _ _ _ _ _ Hh K1) as (xs & R1 & L1 & X1).
    destruct (vknown_read _ _ _ _ _ Hh K2) as (ys & R2 & L2 & X2).
    exists (VB (zip_with (predicate p) xs ys)). split_and!; [done|by apply length_zip| |].
    + intros dst. simpl. by rewrite R1, R2.
    + intros k dst t Hlt Ht. simpl in Ht. apply bind_Ok in Ht as (a & Ha & Ht).
      apply bind_Ok in Ht as (b & Hb & [= <-]). exists (I1 (predicate p a b)). split; [|done].
      simpl. by rewrite (lookup_zip _ _ _ _ _ _ (X1 _ _ Hlt Ha) (X2 _ _ Hlt Hb)).
Qed.

Lemma vsim_logic_bits (held : Held) is_and r1 r2 q1 q2 :
  (OBit r1, OBit q1) ∈ held -> (OBit r2, OBit q2) ∈ held ->
  sim OBit OBit held (build_reg (fun dst => ILogic dst is_and r1 r2))
    (lanewise (build_reg (fun dst => ILogic dst is_and q1 q2))).
Proof.
  intros K1 K2.
  apply (vsim_build_reg _ _ (fun dst => VLanewise (ILogic dst is_and q1 q2))); try done.
  - intros dst r Hr. simpl in Hr. apply elem_of_cons in Hr as [->|Hr].
    + by apply (bit_uses _ _ _ _ K1), list_elem_of_singleton.
    + by apply (bit_uses _ _ _ _ K2).
  - intros s S Hh. destruct (bit_read _ _ _ _ _ Hh K1) as (xs & R1 & L1 & X1).
    destruct (bit_read _ _ _ _ _ Hh K2) as (ys & R2 & L2 & X2).
    exists (VB (zip_with (fun x y => if is_and then x && y else x || y) xs ys)).
    split_and!; [done|by apply length_zip| |].
    + intros dst. simpl. unfold vread_mask. by rewrite R1, R2.
    + intros k dst t Hlt Ht. simpl in Ht. apply bind_Ok in Ht as (a & Ha & Ht).
      apply bind_Ok in Ht as (b & Hb & [= <-]). eexists. split; [|done].
      simpl. by rewrite (lookup_zip _ _ _ _ _ _ (X1 _ _ Hlt Ha) (X2 _ _ Hlt Hb)).
Qed.

Lemma vsim_uitofp (held : Held) r q :
  (OBit r, OBit q) ∈ held -> sim OVal OVal held (CreateUIToFP r) (lanewise (CreateUIToFP q)).
Proof.
  intros Hk. apply (vsim_build _ _ (fun dst => VLanewise (IUIToFP dst q))), vsim_build_reg; try done.
  - intros dst r'. by apply (bit_uses _ _ _ _ Hk).
  - intros s S Hh. destruct (bit_read _ _ _ _ _ Hh Hk) as (bs & Hr & Hl & Hd).
    exists (VD (map fbool bs)). split_and!; [done|by simpl; rewrite length_map| |].
    + intros dst. simpl. unfold vread_mask. by rewrite Hr.
    + intros k dst t Hlt Ht. simpl in Ht. apply bind_Ok in Ht as (d & Hv & [= <-]).
      eexists. split; [|done]. simpl. rewrite list_lookup_fmap. by rewrite (Hd _ _ Hlt Hv).
Qed.

Lemma straight_capp (a b : Code D) :
  straight (capp a b) = rbind (straight a) (fun c => rmap (app c) (straight b)).
Proof.
  induction a as [|i k IH|]; simpl; [by destruct (straight b)| |done]. rewrite IH.
  destruct (straight k); simpl; [|done]. by destruct (straight b).
Qed.

Lemma lanewise_bind {X Y} (m : EmitM (D:=D) X) (f : X -> EmitM (D:=D) Y) vg r :
  vbind (lanewise m) (fun x => lanewise (f x)) vg = Ok r -> lanewise (bindE m f) vg = Ok r.
Proof.
  unfold vbind, lanewise, bindE. intros Hv. apply bind_Ok in Hv as ([[x c1] vg1] & H1 & Hv).
  apply bind_Ok in H1 as ([[x' c] vg'] & -> & H1). apply bind_Ok in H1 as (vc & Hc & [= -> <- <-]).
  apply bind_Ok in Hv as ([[y c2] vg2] & H2 & Hv). injection Hv as <-. simpl.
  apply bind_Ok in H2 as ([[y' c'] vg''] & -> & H2). apply bind_Ok in H2 as (vc' & Hc' & [= -> <- <-]).
  simpl. by rewrite straight_capp, Hc, Hc'.
Qed.

(** An emitter both modes share, in sequence. *)
Lemma vsim_lanewise_bind {X Y} (o : X -> Operand D) (p : Y -> Operand D) held m m' f f' :
  sim o o held m (lanewise m') ->
  (forall x x', sim p p ((o x, o x') :: held) (f x) (lanewise (f' x'))) ->
  sim p p held (bindE m f) (lanewise (bindE m' f')).
Proof.
  intros Hm Hf. eapply vsim_refine; [done|intros vg r; apply lanewise_bind|].
  eapply vsim_bind; [exact Hm|done].
Qed.

Lemma known_Const held (d : D) : known held (Const d) (Const d).
Proof. right. by exists d. Qed.

Lemma known_cons p held v w : known held v w -> known (p :: held) v w.
Proof. intros [Hin|Hc]; [left; by right|by right]. Qed.

Lemma known_here held v w : known ((OVal v, OVal w) :: held) v w.
Proof. left. by left. Qed.

Lemma known_two held x x' y y' :
  Forall2 (known ((OVal y, OVal y') :: (OVal x, OVal x') :: held)) [x; y] [x'; y'].
Proof. apply Forall2_cons, conj, Forall2_cons, conj, Forall2_nil_2; [apply known_cons|]; apply known_here. Qed.

Lemma vsim_cmp_value held p v1 v2 w1 w2 :
  known held v1 w1 -> known held v2 w2 ->
  sim OVal OVal held (bindE (CreateFCmp p v1 v2) CreateUIToFP)
    (lanewise (bindE (CreateFCmp p w1 w2) CreateUIToFP)).
Proof.
  intros K1 K2. eapply vsim_lanewise_bind; [by apply vsim_cmp|]. intros r q. apply vsim_uitofp. by left.
Qed.

Lemma vsim_EmitBinary held kind v1 v2 w1 w2 :
  known held v1 w1 -> known held v2 w2 ->
  sim OVal OVal held (EmitBinary kind v1 v2) (lanewise (EmitBinary kind w1 w2)).
Proof.
  intros K1 K2. destruct kind; unfold EmitBinary; try by apply vsim_bin.
  1-4: by apply vsim_cmp_value.
  1-2: eapply vsim_lanewise_bind; [by apply vsim_bin|]; intros d d'; eapply vsim_lanewise_bind;
    [apply vsim_intrinsic, known_here|]; intros ad ad'; apply vsim_cmp_value;
    [apply known_here|apply known_Const].
  all: eapply vsim_lanewise_bind; [apply vsim_cmp; [done|apply known_Const]|]; intros r1 q1;
    eapply vsim_lanewise_bind; [apply vsim_cmp; [by apply known_cons|apply known_Const]|]; intros r2 q2;
    eapply vsim_lanewise_bind; [apply vsim_logic_bits; set_solver|]; intros r q;
    apply vsim_uitofp; by left.
Qed.

(** *** Fan-out

    Emission that only takes registers, and the run of its code. *)
Record vemits {X} (m : EmitV (D:=D) X) vg (x : X) (code : list (VInstr D)) (k : nat) : Prop := {
  ve_emit : m vg = Ok (x, code, with_reg k vg);
  ve_le : next_reg vg <= k;
  ve_ok : vok (next_reg vg) code k }.

Lemma vemits_bind {X Y} (m : EmitV (D:=D) X) (f : X -> EmitV (D:=D) Y) vg x c1 k1 y c2 k2 :
  vemits m vg x c1 k1 -> vemits (f x) (with_reg k1 vg) y c2 k2 ->
  vemits (vbind m f) vg y (c1 ++ c2) k2.
Proof.
  intros [E1 L1 V1] [E2 L2 V2]. simpl in *. split; [|lia|by eapply vok_app].
  unfold vbind. rewrite E1. simpl. by rewrite E2.
Qed.

Lemma vemits_ret {X} vg (x : X) : vemits (vret x) vg x [] (next_reg vg).
Proof. split; [|done|apply vok_nil]. unfold vret. by rewrite with_reg_id. Qed.

Lemma vemits_reg vg (mk' : nat -> VInstr D) :
  (forall r, r ∈ vinstr_uses (mk' (next_reg vg)) -> r < next_reg vg) ->
  vinstr_def (mk' (next_reg vg)) = [next_reg vg] ->
  vemits (vbuild_reg mk') vg (next_reg vg) [mk' (next_reg vg)] (Datatypes.S (next_reg vg)).
Proof. intros Hu Hd. split; [done|lia|by apply vok_one]. Qed.

Lemma vemits_build vg (mk' : nat -> VInstr D) :
  (forall r, r ∈ vinstr_uses (mk' (next_reg vg)) -> r < next_reg vg) ->
  vinstr_def (mk' (next_reg vg)) = [next_reg vg] ->
  vemits (vbuild mk') vg (Reg (next_reg vg)) [mk' (next_reg vg)] (Datatypes.S (next_reg vg)).
Proof. intros Hu Hd. split; [done|lia|by apply vok_one]. Qed.

(** [S'] is [S] but for registers from [k] on and the arena. *)
Record keeps (k : nat) S S' : Prop := {
  k_venv : forall r, r < k -> venv S' !! r = venv S !! r;
  k_voutputs : voutputs S' = voutputs S }.

Lemma keeps_trans k1 k2 S1 S2 S3 : k1 <= k2 -> keeps k1 S1 S2 -> keeps k2 S2 S3 -> keeps k1 S1 S3.
Proof.
  intros Hk [V1 O1] [V2 O2]. split; [|congruence]. intros r Hr. rewrite V2 by lia. by apply V1.
Qed.

Lemma keeps_le k k' S S' : k <= k' -> keeps k' S S' -> keeps k S S'.
Proof. intros Hk [V O]. split; [|done]. intros r Hr. apply V. lia. Qed.

Lemma keeps_reg k r (y : VRegValue D) S : k <= r -> keeps k S (set_vreg r y S).
Proof. intros Hr. split; [|done]. intros r' Hr'. simpl. apply lookup_insert_ne. lia. Qed.

Notation vrun := (vexec K markets base).

(** What a lane computes: its value and the state it leaves, from the state
    [S0] at the start of the fan-out. *)
Definition Lanes : Type := (nat -> D) -> (nat -> JitState D L) -> VState D L -> Prop.

(** The state in which lane [k] is run. *)
Definition at_lane (k0 k : nat) S0 S : Prop :=
  (forall r, r < k0 -> venv S !! r = venv S0 !! r) /\
  arena S !! (base + k) = arena S0 !! (base + k).

Definition lane_body (k0 : nat) (P : Lanes) (body : nat -> EmitV (D:=D) (Value D)) : Prop :=
  forall vg k, k < K -> k0 <= next_reg vg -> exists x code k',
    vemits (body k) vg x code k' /\ below k' x /\
    forall d j S0 S, P d j S0 -> at_lane k0 k S0 S -> exists S',
      vrun code S = Ok S' /\ keeps (next_reg vg) S S' /\
      vread_scalar (venv S') x = Ok (d k) /\ arena S' = <[base + k := j k]> (arena S).

Lemma vread_scalar_keeps k S S' v d :
  below k v -> keeps k S S' -> vread_scalar (venv S) v = Ok d -> vread_scalar (venv S') v = Ok d.
Proof.
  intros Hb [V _]. destruct v as [c|r]; [done|]. simpl. rewrite V by (apply Hb; by left). done.
Qed.

Lemma insert_next (d : nat -> D) lane m :
  <[lane := Some (d lane)]> (map (Some ∘ d) (seq 0 lane) ++ replicate (Datatypes.S m) None) =
    map (Some ∘ d) (seq 0 (Datatypes.S lane)) ++ replicate m None.
Proof.
  assert (Hl : length (map (Some ∘ d) (seq 0 lane)) = lane) by (by rewrite length_map, length_seq).
  rewrite insert_app_r_alt by lia. rewrite Hl, Nat.sub_diag, seq_S, map_app. simpl.
  by rewrite <- app_assoc.
Qed.

Lemma insert_lanes_run k0 P body :
  lane_body k0 P body -> (forall d j S0, P d j S0 -> forall k, k < K -> is_Some (arena S0 !! (base + k))) ->
  forall m lane result vg, lane + m = K -> k0 <= result < next_reg vg ->
  exists r code k', vemits (insert_lanes m lane body result) vg (Reg r) code k' /\ k0 <= r < k' /\
    forall d j S0 S, P d j S0 ->
      (forall r, r < k0 -> venv S !! r = venv S0 !! r) ->
      (forall k, lane <= k < K -> arena S !! (base + k) = arena S0 !! (base + k)) ->
      venv S !! result = Some (VVec (map (Some ∘ d) (seq 0 lane) ++ replicate m None)) ->
      exists S', vrun code S = Ok S' /\ keeps k0 S S' /\
        venv S' !! r = Some (VVec (map (Some ∘ d) (seq 0 K))) /\
        (forall k, lane <= k < K -> arena S' !! (base + k) = Some (j k)) /\
        (forall sym, (forall k, lane <= k < K -> sym <> base + k) -> arena S' !! sym = arena S !! sym).
Proof.
  intros Hbody Har. induction m as [|m IH]; intros lane result vg Hm Hr; simpl.
  - exists result, [], (next_reg vg). split_and!; [apply vemits_ret|lia|lia|].
    intros d j S0 S HP Hv Ha Hres. exists S. rewrite app_nil_r in Hres.
    split_and!; [done|done|by replace K with lane by lia|lia|done].
  - destruct (Hbody vg lane) as (x & c1 & k1 & E1 & B1 & R1); [lia|lia|].
    set (vg1 := with_reg k1 vg). pose proof (ve_le _ _ _ _ _ E1) as Hk1.
    set (ins dst := VInsert dst result x lane).
    assert (E2 : vemits (vbuild_reg ins) vg1 k1 [ins k1] (Datatypes.S k1)).
    { apply (vemits_reg vg1 ins); [|done]. intros r Hu. simpl in Hu |- *.
      apply elem_of_cons in Hu as [->|Hu]; [lia|by apply B1]. }
    destruct (IH (Datatypes.S lane) k1 (with_reg (Datatypes.S k1) vg)) as (r & c3 & k3 & E3 & B3 & R3);
      [lia|simpl; lia|].
    exists r, (c1 ++ [ins k1] ++ c3), k3.
    split_and!; [|lia|lia|]; [eapply vemits_bind; [exact E1|]; eapply vemits_bind; [exact E2|exact E3]|].
    intros d j S0 S HP Hv Ha Hres.
    destruct (R1 d j S0 S HP (conj Hv (Ha lane ltac:(lia)))) as (S1 & X1 & P1 & D1 & A1).
    assert (Hel : elements K (venv S1) (Reg result) =
      Ok (map (Some ∘ d) (seq 0 lane) ++ replicate (Datatypes.S m) None)).
    { simpl. rewrite (k_venv _ _ _ P1) by lia. by rewrite Hres. }
    set (S2 := set_vreg k1 (VVec (map (Some ∘ d) (seq 0 (Datatypes.S lane)) ++ replicate m None)) S1).
    assert (X2 : vrun [ins k1] S1 = Ok S2).
    { cbn [vexec vstep ins]. rewrite Hel. cbn [rbind]. rewrite D1. cbn [rbind].
      by rewrite insert_next. }
    destruct (R3 d j S0 S2 HP) as (S3 & X3 & P3 & Hreg & J3 & O3).
    + intros r' Hr'. simpl. rewrite lookup_insert_ne by lia. rewrite (k_venv _ _ _ P1) by lia. auto.
    + intros k Hk. simpl. rewrite A1, list_lookup_insert_ne by lia. apply Ha. lia.
    + simpl. by rewrite lookup_insert_eq.
    + exists S3. rewrite !vexec_app, X1. cbn [rbind]. rewrite vexec_app, X2. cbn [rbind]. split_and!; [done| |done| |].
      * assert (Hle : k0 <= next_reg vg) by lia.
        apply (keeps_trans k0 k0 _ S1); [done|by eapply keeps_le|].
        apply (keeps_trans k0 k0 _ S2); [done|apply keeps_reg; lia|done].
      * intros k Hk. destruct (decide (k = lane)) as [->|Hne]; [|apply J3; lia].
        rewrite O3 by lia. simpl. rewrite A1. rewrite list_lookup_insert_eq; [done|].
        rewrite <- (lookup_lt_is_Some (arena S)). rewrite Ha by lia. apply (Har _ _ _ HP). lia.
      * intros sym Hs. rewrite O3 by (intros k Hk; apply Hs; lia). simpl. rewrite A1.
        apply list_lookup_insert_ne. specialize (Hs lane ltac:(lia)). lia.
Qed.

Lemma per_lane_run P body vg :
  lane_body (next_reg vg) P body ->
  (forall d j S0, P d j S0 -> forall k, k < K -> is_Some (arena S0 !! (base + k))) ->
  exists r code k', vemits (per_lane K body) vg (Reg r) code k' /\ next_reg vg <= r < k' /\
    forall d j S, P d j S -> exists S', vrun code S = Ok S' /\ keeps (next_reg vg) S S' /\
      venv S' !! r = Some (vec (map d (seq 0 K))) /\
      (forall k, k < K -> arena S' !! (base + k) = Some (j k)) /\
      (forall sym, (forall k, k < K -> sym <> base + k) -> arena S' !! sym = arena S !! sym).
Proof.
  intros Hbody Har. set (k0 := next_reg vg).
  assert (E0 : vemits (vbuild_reg VUndef) vg k0 [VUndef k0] (Datatypes.S k0)).
  { apply (vemits_reg vg VUndef); [|done]. intros r Hr. by apply not_elem_of_nil in Hr. }
  destruct (insert_lanes_run k0 P body Hbody Har K 0 k0 (with_reg (Datatypes.S k0) vg))
    as (r & c & k' & E & B & R); [lia|simpl; lia|].
  pose proof (ve_le _ _ _ _ _ E) as Hle. simpl in Hle.
  exists r, ([VUndef k0] ++ c), k'. split_and!; [by eapply vemits_bind|lia|lia|].
  intros d j S HP. set (S1 := set_vreg k0 (VVec (replicate K None)) S).
  destruct (R d j S S1 HP) as (S' & X & P' & Hr & J & O).
  - intros r' Hr'. simpl. apply lookup_insert_ne. lia.
  - done.
  - simpl. by rewrite lookup_insert_eq.
  - exists S'. split_and!; [done| | | |].
    + apply (keeps_trans k0 k0 _ S1); [done|by apply keeps_reg|done].
    + unfold vec. by rewrite map_map.
    + intros k Hk. apply J. lia.
    + intros sym Hs. apply O. intros k Hk. apply Hs. lia.
Qed.

(** The body of a fan-out, given the register of the lane's context. *)
Definition ctx_body (k0 : nat) (P : Lanes) (build : nat -> nat -> EmitV (D:=D) (Value D)) : Prop :=
  forall vg k ctx, k < K -> k0 <= next_reg vg -> ctx < next_reg vg -> exists x code k',
    vemits (build k ctx) vg x code k' /\ below k' x /\
    forall d j S0 S, P d j S0 -> at_lane k0 k S0 S -> venv S !! ctx = Some (VCtx (base + k)) ->
      exists S', vrun code S = Ok S' /\ keeps (next_reg vg) S S' /\
        vread_scalar (venv S') x = Ok (d k) /\ arena S' = <[base + k := j k]> (arena S).

Lemma lane_symbol_base k : k < K -> lane_symbol base k = base + k.
Proof. intros Hk. unfold lane_symbol. rewrite Z.mod_small by lia. lia. Qed.

Lemma fan_out_body k0 P build :
  ctx_body k0 P build -> (forall d j S0, P d j S0 -> forall k, k < K -> is_Some (arena S0 !! (base + k))) ->
  lane_body k0 P (fun lane => vbind (vbuild_reg (fun dst => VLaneCtx dst lane)) (build lane)).
Proof.
  intros Hb Har vg k Hk Hk0. set (ctx := next_reg vg).
  assert (E1 : vemits (vbuild_reg (fun dst => VLaneCtx dst k)) vg ctx [VLaneCtx ctx k] (Datatypes.S ctx)).
  { apply (vemits_reg vg (fun dst => VLaneCtx dst k)); [|done].
    intros r Hr. by apply not_elem_of_nil in Hr. }
  destruct (Hb (with_reg (Datatypes.S ctx) vg) k ctx) as (x & c & k' & E & B & R); [done|simpl; lia|simpl; lia|].
  exists x, ([VLaneCtx ctx k] ++ c), k'. split_and!; [by eapply vemits_bind|done|].
  intros d j S0 S HP [Hv Ha]. set (S1 := set_vreg ctx (VCtx (base + k)) S).
  destruct (R d j S0 S1 HP) as (S' & X & P' & D' & A').
  - split; [|done]. intros r Hr. simpl. rewrite lookup_insert_ne by lia. by apply Hv.
  - simpl. by rewrite lookup_insert_eq.
  - exists S'. split_and!; [|eapply keeps_trans; [|by apply keeps_reg|exact P']; simpl; lia|done|done].
    rewrite vexec_app. cbn [vexec vstep]. rewrite lane_symbol_base by done. unfold symbol_state.
    rewrite Ha. by destruct (Har _ _ _ HP k Hk) as [jk ->].
Qed.

(** The lanes of a call: operands, and the call's run in the lane's state. *)
Definition call_pre (eff : Effect D) (args_of : nat -> list D -> VState D L -> Prop) : Lanes :=
  fun d j S0 => forall k, k < K -> exists args jk, arena S0 !! (base + k) = Some jk /\
    args_of k args S0 /\ run_effect (mkt k) eff args jk = Ok (d k, j k).

Lemma call_pre_arena eff args_of d j S0 :
  call_pre eff args_of d j S0 -> forall k, k < K -> is_Some (arena S0 !! (base + k)).
Proof. intros HP k Hk. destruct (HP k Hk) as (_ & jk & -> & _). by eexists. Qed.

(** The instruction of the call. *)
Lemma lane_call_run eff k ctx (xs : list (Value D)) args dst S jk d j :
  k < K -> venv S !! ctx = Some (VCtx (base + k)) -> arena S !! (base + k) = Some jk ->
  vread_scalars (venv S) xs = Ok args -> run_effect (mkt k) eff args jk = Ok (d, j) ->
  vrun [VLaneCall dst ctx k eff xs] S =
    Ok (MkVState (<[dst := VF64 d]> (venv S)) (<[base + k := j]> (arena S)) (voutputs S)).
Proof.
  intros Hk Hc Ha Hx He. cbn [vexec vstep]. rewrite Hc. unfold symbol_state. rewrite Ha.
  cbn [rbind]. unfold at_idx. rewrite lane_market by done. cbn [rbind]. rewrite Hx. cbn [rbind].
  by rewrite He.
Qed.

(** The elements of the operands are the arguments. *)
Definition lane_args (ws : list (Value D)) (k : nat) (args : list D) S0 : Prop :=
  Forall2 (fun w a => exists l, elements K (venv S0) w = Ok l /\ l !! k = Some (Some a)) ws args.

Lemma ExtractLanes_run k0 k ws vg :
  Forall (below k0) ws -> k0 <= next_reg vg -> exists xs code k',
    vemits (ExtractLanes ws k) vg xs code k' /\ Forall (below k') xs /\
    forall args S0 S, lane_args ws k args S0 -> (forall r, r < k0 -> venv S !! r = venv S0 !! r) ->
      k < K -> exists S', vrun code S = Ok S' /\ keeps (next_reg vg) S S' /\
        arena S' = arena S /\ vread_scalars (venv S') xs = Ok args.
Proof.
  revert vg. induction ws as [|w ws IH]; intros vg Hb Hk0; simpl.
  - exists [], [], (next_reg vg). split_and!; [apply vemits_ret|done|].
    intros args S0 S Ha%Forall2_nil_inv_l _ _. subst. by exists S.
  - apply Forall_cons in Hb as [Hw Hb].
    assert (H1 : exists x c k1, vemits (ExtractLane w k) vg x c k1 /\ below k1 x /\
      forall a l S, elements K (venv S) w = Ok l -> l !! k = Some (Some a) -> k < K ->
        exists S', vrun c S = Ok S' /\ keeps (next_reg vg) S S' /\ arena S' = arena S /\
          vread_scalar (venv S') x = Ok a).
    { destruct w as [d|r].
      - exists (Const d), [], (next_reg vg). split_and!; [apply vemits_ret|apply below_Const|].
        intros a l S [= <-] Hl Hk. apply lookup_replicate in Hl as [[= ->] _]. by exists S.
      - exists (Reg (next_reg vg)), [VExtract (next_reg vg) (Reg r) k], (Datatypes.S (next_reg vg)).
        split_and!; [|apply below_Reg; lia|].
        + apply (vemits_build vg (fun dst => VExtract dst (Reg r) k)); [|done].
          intros r' Hr'. specialize (Hw r' Hr'). lia.
        + intros a l S He Hl Hk. exists (set_vreg (next_reg vg) (VF64 a) S).
          split_and!; [|by apply keeps_reg|done|simpl; by rewrite lookup_insert_eq].
          cbn [vexec vstep]. rewrite He. cbn [rbind]. by rewrite Hl. }
    destruct H1 as (x & c1 & k1 & E1 & B1 & R1). pose proof (ve_le _ _ _ _ _ E1) as L1.
    destruct (IH (with_reg k1 vg) Hb) as (xs & c2 & k2 & E2 & B2 & R2); [simpl; lia|].
    pose proof (ve_le _ _ _ _ _ E2) as L2. simpl in L2.
    exists (x :: xs), (c1 ++ c2 ++ []), k2. split_and!.
    + eapply vemits_bind; [exact E1|]. eapply vemits_bind; [exact E2|apply (vemits_ret (with_reg k2 vg))].
    + constructor; [by eapply below_le|done].
    + intros args S0 S Ha Hv Hk. apply Forall2_cons_inv_l in Ha as (a & args' & (l & Hl & Hlk) & Ha & ->).
      assert (Hl' : elements K (venv S) w = Ok l).
      { rewrite <- Hl. apply elements_env. intros r Hr. by apply Hv, Hw. }
      destruct (R1 a l S Hl' Hlk Hk) as (S1 & X1 & P1 & A1 & V1).
      destruct (R2 args' S0 S1 Ha) as (S2 & X2 & P2 & A2 & V2); [|done|].
      { intros r Hr. rewrite (k_venv _ _ _ P1) by lia. by apply Hv. }
      exists S2. rewrite vexec_app, X1. cbn [rbind]. rewrite app_nil_r, X2.
      split_and!; [done|by eapply keeps_trans|congruence|]. simpl.
      rewrite (vread_scalar_keeps _ _ _ _ _ B1 P2 V1). simpl. by rewrite V2.
Qed.

Lemma lane_call_body k0 eff ws :
  Forall (below k0) ws -> ctx_body k0 (call_pre eff (lane_args ws)) (lane_call eff ws).
Proof.
  intros Hb vg k ctx Hk Hk0 Hctx.
  destruct (ExtractLanes_run k0 k ws vg Hb Hk0) as (xs & c1 & k1 & E1 & B1 & R1).
  pose proof (ve_le _ _ _ _ _ E1) as L1.
  set (mk' dst := VLaneCall dst ctx k eff xs).
  assert (E2 : vemits (vbuild mk') (with_reg k1 vg) (Reg k1) [mk' k1] (Datatypes.S k1)).
  { apply (vemits_build (with_reg k1 vg) mk'); [|done]. intros r Hr. simpl in Hr |- *.
    apply elem_of_cons in Hr as [->|Hr]; [lia|].
    apply list_elem_of_In, in_concat in Hr as (us & Hus & Hr). apply in_map_iff in Hus as (x & <- & Hx).
    rewrite Forall_forall in B1. apply list_elem_of_In in Hx, Hr. by apply (B1 x). }
  exists (Reg k1), (c1 ++ [mk' k1]), (Datatypes.S k1).
  split_and!; [by eapply vemits_bind|apply below_Reg; lia|].
  intros d j S0 S HP [Hv Ha] Hc. destruct (HP k Hk) as (args & jk & Hj & Hargs & He).
  destruct (R1 args S0 S Hargs Hv Hk) as (S1 & X1 & P1 & A1 & V1).
  eexists. rewrite vexec_app, X1. cbn [rbind]. split; [|split_and!].
  - apply (lane_call_run eff k ctx xs args k1 S1 jk (d k) (j k)); try done.
    + by rewrite (k_venv _ _ _ P1).
    + by rewrite A1, Ha.
  - eapply keeps_trans; [reflexivity|exact P1|]. split; [|done]. intros r Hr. simpl.
    apply lookup_insert_ne. lia.
  - simpl. by rewrite lookup_insert_eq.
  - simpl. by rewrite A1.
Qed.

(** *** Calls *)

Notation not_pure eff vs := (forall dst, pure_instr (D:=D) n np (IEffect dst eff vs) = false).

(** What the lanes of a call do: an inactive lane may only read a parameter,
    and stays where it is. *)
Lemma lanes_of_call A eff vs cg vg s s' S dst :
  rel cg vg s S -> mode A (Seq (IEffect dst eff vs) Ret) ->
  lanes_exec A (Seq (IEffect dst eff vs) Ret) s s' ->
  exists d j, forall k, k < K -> exists args, read_all (env (s k)) vs = Ok args /\
    run_effect (mkt k) eff args (js (s k)) = Ok (d k, j k) /\
    (s' k = MkState (<[dst := F64 (d k)]> (env (s k))) (j k) (outputs (s k)) \/
     s' k = s k /\ j k = js (s k)).
Proof.
  intros HR Hm He.
  set (out k := rbind (read_all (env (s k)) vs) (fun ds => run_effect (mkt k) eff ds (js (s k)))).
  exists (fun k => match out k with Ok (d, _) => d | Err _ => fint 0 end),
    (fun k => match out k with Ok (_, j) => j | Err _ => js (s k) end).
  intros k Hk. specialize (He k Hk). unfold out. destruct (A k) eqn:EA.
  - apply bind_Ok in He as (t & He & [= <-]). simpl in He.
    apply bind_Ok in He as (ds & Hds & He). apply bind_Ok in He as ([d j] & Hrun & [= <-]).
    exists ds. rewrite Hds. simpl. rewrite Hrun. by split_and!; [..|left].
  - destruct Hm as [[Hall _]|Hsafe]; [by rewrite Hall in EA|].
    simpl in Hsafe. rewrite andb_true_r in Hsafe. destruct eff; try discriminate Hsafe.
    destruct vs; [|discriminate Hsafe]. split_andb.
    apply Z.leb_le in H0. apply Z.ltb_lt in H1.
    destruct (r_params _ _ _ _ HR k param_id Hk) as [d Hd]; [lia|].
    exists []. simpl. rewrite Hd. simpl. by split_and!; [..|right].
Qed.

Lemma vsim_effect held eff vs args_of build :
  (forall cg vg, held_below held cg vg -> ctx_body (next_reg vg) (call_pre eff args_of) build) ->
  (forall s S k ds, holds held s S -> k < K -> read_all (env (s k)) vs = Ok ds -> args_of k ds S) ->
  sim OVal OVal held (CreateCall eff vs) (EmitScalarizedFanOut K build).
Proof.
  intros Hbody Hargs cg vg v code cg' Hrel Hb Hm. injection Hm as <- <- <-.
  destruct (per_lane_run (call_pre eff args_of)
    (fun lane => vbind (vbuild_reg (fun dst => VLaneCtx dst lane)) (build lane)) vg)
    as (r & vcode & k' & E & Hr & R).
  { apply fan_out_body; [by eapply Hbody|]. intros d j S0. apply call_pre_arena. }
  { intros d j S0. apply call_pre_arena. }
  destruct E as [E Hle Hok].
  exists (Reg r), vcode, (with_reg k' vg).
  split_and!; [done|by apply erel_reg; auto|simpl; lia|simpl; lia| | |done|].
  1,2: apply below_Reg; simpl; lia.
  intros A s s' S Hmode HR Hh He.
  destruct (lanes_of_call A eff vs cg vg s s' S (next_reg cg) HR Hmode He) as (d & j & Hl).
  destruct (R d j S) as (S' & X & [KV KO] & Hreg & J & O).
  { intros k Hk. destruct (Hl k Hk) as (args & Ha & Hrun & _).
    exists args, (js (s k)). split_and!; [by apply HR|by eapply Hargs|done]. }
  assert (Hjs : forall k, k < K -> js (s' k) = j k /\ outputs (s' k) = outputs (s k)).
  { intros k Hk. by destruct (Hl k Hk) as (args & _ & _ & [->|[-> ->]]). }
  exists S'. split; [done|].
  apply (rel_result cg vg s S s' S' (VD (map d (seq 0 K)))); try done.
  - intros k Hk. destruct (Hl k Hk) as (args & _ & _ & [->|[-> _]]); [right|by left].
    exists (F64 (d k)). split; [|done]. simpl. rewrite list_lookup_fmap, lookup_seq_lt by done. done.
  - intros k Hk. by apply Hjs.
  - simpl. by rewrite length_map, length_seq.
  - intros k Hk. rewrite (proj1 (Hjs k Hk)). by apply J.
  - intros k id Hk Hid. destruct (r_params _ _ _ _ HR k id Hk Hid) as [p Hp]. exists p.
    rewrite <- Hp. apply same_params_rt. destruct (Hl k Hk) as (args & _ & Hrun & _).
    rewrite (proj1 (Hjs k Hk)). by eapply run_effect_params.
Qed.

(** The operands of a call: known on both sides. *)
Lemma vsim_call held eff vs ws :
  Forall2 (known held) vs ws ->
  sim OVal OVal held (CreateCall eff vs) (EmitScalarizedFanOut K (lane_call eff ws)).
Proof.
  intros Hk. apply (vsim_effect _ _ _ (lane_args ws)).
  - intros cg vg Hb. apply lane_call_body. apply Forall_forall. intros w Hw r Hr.
    apply list_elem_of_lookup in Hw as [i Hw]. destruct (Forall2_lookup_r _ _ _ _ _ Hk Hw) as (v & _ & Hvw).
    destruct (known_uses _ _ _ _ Hvw Hr) as (p & Hp & Hrp). unfold held_below in Hb.
    rewrite Forall_forall in Hb. by apply (Hb p Hp).
  - intros s S k ds Hh Hlt. revert ds. induction Hk as [|v w vs' ws' Hvw _ IH]; intros ds Hds; simpl in Hds.
    + injection Hds as <-. constructor.
    + apply bind_Ok in Hds as (d & Hd & Hds). apply fmap_Ok in Hds as (ds' & Hds & <-).
      constructor; [|by apply IH]. destruct (vknown_read _ _ _ _ _ Hh Hvw) as (l & Hr & Hl & Hx).
      exists (map Some l). split; [by apply vread_elements|].
      rewrite list_lookup_fmap. by rewrite (Hx _ _ Hlt Hd).
Qed.

(** A result that is cached under the node's id. *)
Lemma vsim_cache held id v w :
  (OVal v, OVal w) ∈ held ->
  sim OVal OVal held (cache_stateful id v) (lanewise (cache_stateful id w)).
Proof.
  intros Hin cg vg x code cg' Hrel Hb [= <- <- <-].
  assert (Hbv : below (next_reg cg) v /\ below (next_reg vg) w).
  { unfold held_below in Hb. rewrite Forall_forall in Hb. exact (Hb _ Hin). }
  destruct Hbv as [Bv Bw]. eexists w, [], _. split; [reflexivity|].
  destruct (Z.ltb_spec 0 id) as [Hpos|Hneg].
  2:{ destruct (vsim_ret OVal OVal held v w) with (cg:=cg) (vg:=vg) (x:=v) (code:=Ret (D:=D)) (cg':=cg)
        as (x' & vcode & vg' & [= <- <- <-] & Hrest); try done.
      - intros k j Hb'. unfold held_below in Hb'. rewrite Forall_forall in Hb'. exact (Hb' _ Hin).
      - intros s S Hh. unfold holds in Hh. rewrite Forall_forall in Hh. exact (Hh _ Hin). }
  pose proof Hrel as [[CS CM CV] [VS VM VV] HS HG HN].
  split_and!; try done; [|apply vok_nil|].
  - split; simpl; [split|split|intros id'|done|done]; simpl; try done.
    + intros id' u. rewrite lookup_insert_Some. intros [[_ <-]|[_ Hu]]; [done|by eapply CS].
    + intros id' u. rewrite lookup_insert_Some. intros [[_ <-]|[_ Hu]]; [done|by eapply VS].
    + destruct (decide (id = id')) as [->|]; [by rewrite !lookup_insert_eq|].
      by rewrite !lookup_insert_ne.
  - intros A s s' S _ HR Hh He. exists S.
    assert (Hs : forall k, k < K -> s' k = s k).
    { intros k Hk. specialize (He k Hk). destruct (A k); [by injection He as ->|done]. }
    pose proof (frame_ext cg vg s S s' Hs) as HF.
    assert (Ht : tracks s' S (OVal v) (OVal w)).
    { pose proof (holds_frame _ _ _ _ _ _ _ HF Hb Hh) as Hh'. unfold holds in Hh'.
      rewrite Forall_forall in Hh'. exact (Hh' _ Hin). }
    split_and!; [done| |done|done].
    destruct (rel_ext cg vg s S s' Hrel HR Hs) as [R1 R2 R3 R4 R5 R6 R7].
    split; try done. simpl. intros id' u u'. rewrite !lookup_insert_Some.
    intros [[<- <-]|[N1 Hu]] [[E2 <-]|[N2 Hu']]; try done. by eapply R4.
Qed.

Lemma vsim_cached held id m m' :
  sim OVal OVal held m m' ->
  sim OVal OVal held (bindE m (fun v => cache_stateful id v))
    (vbind m' (fun w => lanewise (cache_stateful id w))).
Proof. intros Hm. eapply vsim_bind; [exact Hm|]. intros v w. apply vsim_cache. by left. Qed.

(** *** Market loads *)

Lemma field_Some k sym f : k < K -> sym < n -> exists d, field k sym f = Some d.
Proof.
  intros Hk Hs. unfold field. rewrite <- (lane_size k Hk) in Hs.
  apply lookup_lt_is_Some in Hs as [ins ->]. by eexists.
Qed.

Lemma lane_field_eq k sym f d : k < K -> field k sym f = Some d -> lane_field markets k sym f = Ok d.
Proof.
  intros Hk Hf. unfold lane_field, at_idx, field in *. rewrite lane_market by done. simpl.
  by destruct (instruments (mkt k) !! sym); simplify_eq/=.
Qed.

(** The scalar load; nothing is emitted on the other side. *)
Lemma vsim_field_load held sym f :
  sim OVal (fun _ : unit => OField sym f) held (EmitMarketFieldLoad sym f) (vret tt).
Proof.
  assert (Hf : forall k, obelow k (OField sym f : Operand D)) by (intros k r Hr; by apply not_elem_of_nil in Hr).
  intros cg vg v code cg' Hrel Hb Hm. unfold EmitMarketFieldLoad in Hm.
  pose proof Hrel as [[CS CM CV] HV HS HG HN].
  destruct (program_market_field_cache cg !! _) as [w|] eqn:E.
  - injection Hm as <- <- <-. exists tt, [], vg.
    split_and!; [done|done|done|done|exact (CM _ _ E)|apply Hf|apply vok_nil|].
    intros A s s' S _ HR Hh He. exists S.
    assert (Hs : forall k, k < K -> s' k = s k).
    { intros k Hk. specialize (He k Hk). destruct (A k); [by injection He as ->|done]. }
    pose proof (rel_ext cg vg s S s' Hrel HR Hs) as HR'.
    split_and!; [done|done|by apply HR'|by apply frame_ext].
  - injection Hm as <- <- <-. set (c := next_reg cg) in *. exists tt, [], vg.
    split_and!; [done| |simpl; lia|done|apply below_Reg; simpl; lia|apply Hf|apply vok_nil|].
    + destruct (erel_reg cg vg (Datatypes.S c) (next_reg vg) Hrel) as [[CS' CM' CV'] HV' _ _ _]; [lia|done|].
      split; try done. split; simpl; try done. intros key u. rewrite lookup_insert_Some.
      intros [[_ <-]|[_ Hu]]; [apply below_Reg; lia|by eapply CM'].
    + intros A s s' S Hmode HR Hh He. exists S.
      assert (Hl : forall k, k < K -> s' k = s k \/
        exists d, field k sym f = Some d /\ s' k = set_reg c (F64 d) (s k)).
      { intros k Hk. specialize (He k Hk). destruct (A k); [right|by left].
        apply bind_Ok in He as (t & He & [= <-]). simpl in He.
        apply bind_Ok in He as (ins & Hi%at_idx_Ok & [= <-]).
        exists (read_field f ins). split; [|done]. unfold field. by rewrite Hi. }
      assert (Hsym : sym < n).
      { destruct Hmode as [[Hall _]|Hsafe].
        - specialize (He 0 K_pos). rewrite Hall in He by done. apply bind_Ok in He as (t & He & _).
          simpl in He. apply bind_Ok in He as (ins & Hi%at_idx_Ok & _).
          rewrite <- (lane_size 0 K_pos). by eapply lookup_lt_Some.
        - simpl in Hsafe. rewrite andb_true_r in Hsafe. by apply Nat.ltb_lt. }
      assert (HF : frame cg vg s S s' S).
      { split; try done; intros k *; intros; destruct (Hl k) as [->|(d & _ & ->)]; try done.
        apply lookup_insert_ne. lia. }
      assert (Ht : tracks s' S (OVal (Reg c)) (OField sym f)).
      { split; [done|]. intros k d Hk Hd. destruct (Hl k Hk) as [Hk'|(d' & Hd' & Hk')]; rewrite Hk' in Hd.
        - simpl in Hd. by rewrite (r_fresh _ _ _ _ HR) in Hd.
        - simpl in Hd. rewrite lookup_insert_eq in Hd. congruence. }
      assert (Hjs : forall k, k < K -> js (s' k) = js (s k)).
      { intros k Hk. by destruct (Hl k Hk) as [->|(d & _ & ->)]. }
      split_and!; [done| |done|done].
      rewrite <- (with_reg_id vg).
      destruct (rel_frame cg vg s S s' S (Datatypes.S c) (next_reg vg) Hrel HR HF)
        as [R1 R2 R3 R4 R5 R6 R7].
      * intros k r Hk Hr. destruct (Hl k Hk) as [->|(d & _ & ->)]; [apply HR; [done|lia]|].
        simpl. rewrite lookup_insert_ne by lia. apply HR; [done|lia].
      * intros k Hk. rewrite Hjs by done. by apply HR.
      * intros k id Hk. rewrite Hjs by done. by apply HR.
      * split; try done. simpl. intros sym' f' u. rewrite lookup_insert_Some.
        intros [[[<- <-]%MarketFieldCacheKey_inj <-]|[_ Hu]]; [done|by apply R6].
Qed.

(** The vectorised load. *)
Lemma vsim_vector_load held v sym f :
  (OVal v, OField sym f) ∈ held ->
  sim OVal OVal held (ret v) (EmitMarketFieldLoadVectorized K sym f).
Proof.
  intros Hin cg vg x code cg' Hrel Hb [= <- <- <-].
  pose proof Hrel as [HC [VS VM VV] HS HG HN].
  assert (Bv : below (next_reg cg) v).
  { unfold held_below in Hb. rewrite Forall_forall in Hb. exact (proj1 (Hb _ Hin)). }
  assert (Hs : forall A s s', lanes_exec A Ret s s' -> forall k, k < K -> s' k = s k).
  { intros A s s' He k Hk. specialize (He k Hk). destruct (A k); [by injection He as ->|done]. }
  assert (Ht : forall s S s', holds held s S -> (forall k, k < K -> s' k = s k) -> sym < n /\
    forall k d, k < K -> read (env (s' k)) v = Ok d -> field k sym f = Some d).
  { intros s S s' Hh He. unfold holds in Hh. rewrite Forall_forall in Hh.
    destruct (Hh _ Hin) as [Hsym Hd]. split; [done|]. intros k d Hk. rewrite He by done. by apply Hd. }
  unfold EmitMarketFieldLoadVectorized.
  destruct (program_market_field_cache vg !! _) as [w|] eqn:E.
  - exists w, [], vg. split_and!; [done|done|done|done|done|exact (VM _ _ E)|apply vok_nil|].
    intros A s s' S _ HR Hh He0. pose proof (Hs _ _ _ He0) as He. exists S.
    pose proof (rel_ext cg vg s S s' Hrel HR He) as HR'.
    split_and!; [done|done| |by apply frame_ext].
    destruct (r_vmarket _ _ _ _ HR' _ _ _ E) as (ds & Hr & Hl & Hd). exists ds.
    split_and!; [done|done|]. intros k d Hk Hread. rewrite Hd by done.
    by apply (Ht _ _ _ Hh He).
  - set (P := (fun d j S0 => forall k, k < K -> field k sym f = Some (d k) /\
      arena S0 !! (base + k) = Some (j k)) : Lanes).
    destruct (per_lane_run P (fun lane => vbuild (fun dst => VLaneLoad dst lane sym f)) vg)
      as (r & vcode & k' & [Em Hle Hok] & Hr & R).
    { intros vg' k Hk Hk0. exists (Reg (next_reg vg')), [VLaneLoad (next_reg vg') k sym f], (S (next_reg vg')).
      split_and!; [apply (vemits_build vg' (fun dst => VLaneLoad dst k sym f)); [|done]|apply below_Reg; lia|].
      - intros r Hr. by apply not_elem_of_nil in Hr.
      - intros d j S0 S HP [Hv Ha]. destruct (HP k Hk) as [Hf Hj].
        exists (set_vreg (next_reg vg') (VF64 (d k)) S). split_and!.
        + cbn [vexec vstep]. by rewrite (lane_field_eq _ _ _ _ Hk Hf).
        + by apply keeps_reg.
        + simpl. by rewrite lookup_insert_eq.
        + simpl. symmetry. apply list_insert_id. by rewrite Ha. }
    { intros d j S0 HP k Hk. destruct (HP k Hk) as [_ ->]. by eexists. }
    rewrite Em. cbn [rbind]. eexists (Reg r), vcode, _. split; [reflexivity|]. simpl.
    pose proof (erel_reg cg vg (next_reg cg) k' Hrel (le_n _) ltac:(lia)) as Hrel'.
    rewrite with_reg_id in Hrel'. destruct Hrel' as [HC' [VS' VM' VV'] HS' HG' HN'].
    split_and!; [|done|lia|done|apply below_Reg; lia|done|].
    { split; try done. split; simpl; try done. intros key u. rewrite lookup_insert_Some.
      intros [[_ <-]|[_ Hu]]; [apply below_Reg; lia|by eapply VM']. }
    intros A s s' S _ HR Hh He0. pose proof (Hs _ _ _ He0) as He. destruct (Ht _ _ _ Hh He) as [Hsym Hd].
    set (d k := default (fint 0) (field k sym f)).
    assert (Hfd : forall k, k < K -> field k sym f = Some (d k)).
    { intros k Hk. unfold d. by destruct (field_Some k sym f Hk Hsym) as [x ->]. }
    destruct (R d (fun k => js (s k)) S) as (S' & X & [KV KO] & Hreg & J & O).
    { intros k Hk. split; [by apply Hfd|by apply HR]. }
    exists S'. pose proof (rel_ext cg vg s S s' Hrel HR He) as HR0.
    assert (HF : frame cg vg s' S s' S') by (split; done).
    destruct (rel_frame cg vg s' S s' S' (next_reg cg) k' Hrel HR0 HF) as [R1 R2 R3 R4 R5 R6 R7];
      [apply HR0| |apply HR0|].
    { intros k Hk. rewrite He by done. by apply J. }
    rewrite with_reg_id in R1, R4, R5, R6.
    assert (Hds : exists ds, vread K (venv S') (Reg r) = Ok ds /\ length ds = K /\
      forall k, k < K -> ds !! k = field k sym f).
    { exists (map d (seq 0 K)). split_and!; [by apply vread_vec|by rewrite length_map, length_seq|].
      intros k Hk. rewrite Hfd by done. rewrite list_lookup_fmap, lookup_seq_lt by done. done. }
    split_and!; [done| | |].
    + split; try done. simpl. intros sym' f' u. rewrite lookup_insert_Some.
      intros [[[<- <-]%MarketFieldCacheKey_inj <-]|[_ Hu]]; [done|by apply R7].
    + destruct Hds as (ds & Hr' & Hl & Hx). exists ds. split_and!; [done|done|].
      intros k x Hk Hread. rewrite Hx by done. by apply Hd.
    + eapply vframe_trans; [by apply (frame_ext cg vg s S s')|exact HF|done|done].
Qed.

Lemma bindE_ret {X} (m : EmitM (D:=D) X) cg : bindE m ret cg = m cg.
Proof.
  unfold bindE. destruct (m cg) as [[[x c] cg']|]; [|done]. simpl. by rewrite capp_Ret.
Qed.

Lemma vsim_load held sym f :
  sim OVal OVal held (EmitMarketFieldLoad sym f) (EmitMarketFieldLoadVectorized K sym f).
Proof.
  eapply (vsim_refine _ _ _ _ (bindE (EmitMarketFieldLoad sym f) ret) _
    (vbind (vret tt) (fun _ => EmitMarketFieldLoadVectorized K sym f))).
  - intros cg. by rewrite bindE_ret.
  - intros vg r. unfold vbind, vret. simpl. by destruct (EmitMarketFieldLoadVectorized K sym f vg) as [[[? ?] ?]|].
  - eapply vsim_bind; [apply vsim_field_load|]. intros v []. apply vsim_vector_load. by left.
Qed.

(** *** The lowered vwap: every lane loads its own quotes *)

Lemma lane_load_run vg k sym f : k < K -> exists x c k1,
  vemits (lane_load k sym f) vg x c k1 /\ below k1 x /\
  forall d S, field k sym f = Some d -> exists S', vrun c S = Ok S' /\ keeps (next_reg vg) S S' /\
    arena S' = arena S /\ vread_scalar (venv S') x = Ok d.
Proof.
  intros Hk. exists (Reg (next_reg vg)), [VLaneLoad (next_reg vg) k sym f], (S (next_reg vg)).
  split_and!; [apply (vemits_build vg (fun dst => VLaneLoad dst k sym f)); [|done]|apply below_Reg; lia|].
  - intros r Hr. by apply not_elem_of_nil in Hr.
  - intros d S Hf. exists (set_vreg (next_reg vg) (VF64 d) S). split_and!.
    + cbn [vexec vstep]. by rewrite (lane_field_eq _ _ _ _ Hk Hf).
    + by apply keeps_reg.
    + done.
    + simpl. by rewrite lookup_insert_eq.
Qed.

Definition vwap_args (sym k : nat) (args : list D) (S0 : VState D L) : Prop :=
  exists (b a vol : D), args = [b; a; vol] /\ field k sym FBid = Some b /\ field k sym FAsk = Some a /\
    field k sym FVolume = Some vol.

Lemma lane_lowered_vwap_body k0 id sym p :
  ctx_body k0 (call_pre (LowVwap id p) (vwap_args sym)) (lane_lowered_vwap id sym p).
Proof.
  intros vg k ctx Hk Hk0 Hctx.
  destruct (lane_load_run vg k sym FBid Hk) as (x1 & c1 & k1 & E1 & B1 & R1).
  destruct (lane_load_run (with_reg k1 vg) k sym FAsk Hk) as (x2 & c2 & k2 & E2 & B2 & R2).
  destruct (lane_load_run (with_reg k2 vg) k sym FVolume Hk) as (x3 & c3 & k3 & E3 & B3 & R3).
  pose proof (ve_le _ _ _ _ _ E1) as L1. pose proof (ve_le _ _ _ _ _ E2) as L2.
  pose proof (ve_le _ _ _ _ _ E3) as L3. simpl in L2, L3.
  set (mk' dst := VLaneCall dst ctx k (LowVwap id p) [x1; x2; x3]).
  assert (E4 : vemits (vbuild mk') (with_reg k3 vg) (Reg k3) [mk' k3] (Datatypes.S k3)).
  { apply (vemits_build (with_reg k3 vg) mk'); [|done]. intros r Hr. simpl in Hr |- *.
    rewrite !elem_of_cons, !elem_of_app, elem_of_nil in Hr.
    destruct Hr as [->|[Hr|[Hr|[Hr|[]]]]]; [lia|specialize (B1 r Hr)|specialize (B2 r Hr)|specialize (B3 r Hr)]; lia. }
  exists (Reg k3), (c1 ++ c2 ++ c3 ++ [mk' k3]), (Datatypes.S k3). split_and!.
  - eapply vemits_bind; [exact E1|]. eapply vemits_bind; [exact E2|].
    eapply vemits_bind; [exact E3|exact E4].
  - apply below_Reg. lia.
  - intros d j S0 S HP [Hv Ha] Hc. destruct (HP k Hk) as (args & jk & Hj & (b & a & v & -> & F1 & F2 & F3) & He).
    destruct (R1 b S F1) as (S1 & X1 & P1 & A1 & V1). destruct (R2 a S1 F2) as (S2 & X2 & P2 & A2 & V2).
    destruct (R3 v S2 F3) as (S3 & X3 & P3 & A3 & V3). simpl in P2, P3.
    assert (P13 : keeps k1 S1 S3) by (by eapply keeps_trans).
    assert (P03 : keeps (next_reg vg) S S3) by (by eapply keeps_trans).
    eexists. rewrite !vexec_app, X1. cbn [rbind]. rewrite vexec_app, X2. cbn [rbind].
    rewrite vexec_app, X3. cbn [rbind]. split.
    + apply (lane_call_run _ k ctx [x1; x2; x3] [b; a; v] k3 S3 jk (d k) (j k)); try done.
      * by rewrite (k_venv _ _ _ P03).
      * by rewrite A3, A2, A1, Ha.
      * simpl. rewrite (vread_scalar_keeps _ _ _ _ _ B1 P13 V1).
        rewrite (vread_scalar_keeps _ _ _ _ _ B2 P3 V2). by rewrite V3.
    + split_and!.
      * eapply keeps_trans; [reflexivity|exact P03|]. split; [|done]. intros r Hr. simpl.
        apply lookup_insert_ne. lia.
      * simpl. by rewrite lookup_insert_eq.
      * simpl. by rewrite A3, A2, A1.
Qed.

Lemma vbind_vret {X Y} (x : X) (f : X -> EmitV (D:=D) Y) vg : vbind (vret x) f vg = f x vg.
Proof. unfold vbind, vret. simpl. by destruct (f x vg) as [[[? ?] ?]|]. Qed.

Lemma vsim_lowered_vwap held id sym p :
  sim OVal OVal held
    (bindE (EmitMarketFieldLoad sym FBid) (fun bid => bindE (EmitMarketFieldLoad sym FAsk) (fun ask =>
     bindE (EmitMarketFieldLoad sym FVolume) (fun vol => CreateCall (LowVwap id p) [bid; ask; vol]))))
    (EmitScalarizedFanOut K (lane_lowered_vwap id sym p)).
Proof.
  set (m' := EmitScalarizedFanOut K (lane_lowered_vwap id sym p)).
  eapply (vsim_refine _ _ _ _ _ _ (vbind (vret tt) (fun _ => vbind (vret tt) (fun _ =>
    vbind (vret tt) (fun _ => m'))))); [done|intros vg r; by rewrite !vbind_vret|].
  eapply vsim_bind; [apply (vsim_field_load _ sym FBid)|]. intros b [].
  eapply vsim_bind; [apply (vsim_field_load _ sym FAsk)|]. intros a [].
  eapply vsim_bind; [apply (vsim_field_load _ sym FVolume)|]. intros v [].
  apply (vsim_effect _ _ _ (vwap_args sym)).
  - intros cg vg _. apply lane_lowered_vwap_body.
  - intros s S k ds Hh Hk Hds. unfold holds in Hh. rewrite !Forall_cons in Hh.
    destruct Hh as ([_ Hv] & [_ Ha] & [_ Hb] & _). simpl in *.
    apply bind_Ok in Hds as (d1 & H1 & Hds). apply fmap_Ok in Hds as (l1 & Hds & <-).
    apply bind_Ok in Hds as (d2 & H2 & Hds). apply fmap_Ok in Hds as (l2 & Hds & <-).
    apply bind_Ok in Hds as (d3 & H3 & [= <-]). exists d1, d2, d3. split_and!; auto.
Qed.

(** *** Steps that emit nothing *)

Definition quiet {X} (m : EmitM (D:=D) X) : Prop :=
  forall cg x code cg', m cg = Ok (x, code, cg') ->
  code = Ret /\ cg' = cg /\ forall vg, m vg = Ok (x, Ret, vg).

Lemma vsim_quiet {X Y Y'} (o : Y -> Operand D) (o' : Y' -> Operand D) held (m : EmitM (D:=D) X) f f' :
  quiet m -> (forall x, sim o o' held (f x) (f' x)) ->
  sim o o' held (bindE m f) (vbind (lanewise m) f').
Proof.
  intros Hq Hf cg vg y code cg' Hrel Hb He. unfold bindE in He.
  apply bind_Ok in He as ([[x c1] cg1] & H1 & He).
  destruct (Hq _ _ _ _ H1) as (-> & -> & Hv). apply bind_Ok in He as ([[y' c2] cg2] & H2 & [= <- <- <-]).
  destruct (Hf x _ _ _ _ _ Hrel Hb H2) as (z & vcode & vg' & E & Hrest).
  exists z, vcode, vg'. split; [|done]. unfold vbind, lanewise. rewrite Hv. simpl. by rewrite E.
Qed.

Lemma quiet_lift {X} (r : Res X) : quiet (JitCompiler.lift r).
Proof.
  intros cg x code cg' Hm. unfold JitCompiler.lift in *. apply fmap_Ok in Hm as (a & -> & [= <- <- <-]). done.
Qed.

Lemma quiet_ret {X} (x : X) : quiet (ret x).
Proof. by intros cg y code cg' [= <- <- <-]. Qed.

Lemma quiet_throw {X} msg : quiet (JitCompiler.throw msg : EmitM (D:=D) X).
Proof. by intros cg y code cg' [=]. Qed.

Lemma quiet_period p name : quiet (window_period (D:=D) p name).
Proof.
  unfold window_period. destruct p; try apply quiet_throw.
  destruct (to_int value) as [k|]; [|apply quiet_lift].
  destruct (period_ok value k); [apply quiet_ret|apply quiet_throw].
Qed.

Lemma quiet_slot cfg a sym msg : quiet (ticker_slot (D:=D) cfg a sym msg).
Proof.
  unfold ticker_slot. destruct a; try apply quiet_throw.
  destruct (_ <=? _)%Z; [apply quiet_ret|apply quiet_lift].
Qed.

(** The next node id is the same on both sides. *)
Lemma vsim_node_id {Y Y'} (o : Y -> Operand D) (o' : Y' -> Operand D) held id f f' :
  (forall x, sim o o' held (f x) (f' x)) ->
  sim o o' held (bindE (GetNodeId id) f) (vbind (lanewise (GetNodeId id)) f').
Proof.
  intros Hf cg vg y code cg' Hrel Hb He. unfold bindE, GetNodeId in He. unfold vbind, lanewise, GetNodeId.
  destruct (0 <? id)%Z.
  - apply bind_Ok in He as ([[x c1] cg1] & [= <- <- <-] & He).
    apply bind_Ok in He as ([[y' c2] cg2] & H2 & [= <- <- <-]).
    destruct (Hf _ _ _ _ _ _ Hrel Hb H2) as (z & vcode & vg' & E & Hrest).
    exists z, vcode, vg'. split; [|done]. simpl. by rewrite E.
  - apply bind_Ok in He as ([[x c1] cg1] & [= <- <- <-] & He).
    apply bind_Ok in He as ([[y' c2] cg2] & H2 & [= <- <- <-]).
    destruct Hrel as [[CS CM CV] [VS VM VV] HS HG HN].
    set (bump (c : Codegen (D:=D)) := MkCodegen (next_reg c) (program_market_field_cache c)
      (stateful_emit_cache c) (signal_values c) (next_node_id c + 1)).
    assert (Hrel' : erel (bump cg) (bump vg)).
    { split; try done. simpl. by rewrite HN. }
    destruct (Hf _ (bump cg) (bump vg) _ _ _ Hrel' Hb H2) as (z & vcode & vg' & E & R & L1 & L2 & B1 & B2 & V & X).
    exists z, vcode, vg'. rewrite HN in E. unfold bump in E. simpl. rewrite E. simpl.
    split_and!; try done. intros A s s' S Hm [R1 R2 R3 R4 R5 R6 R7] Hh Hl.
    destruct (X A s s' S Hm ltac:(by split) Hh Hl) as (S' & EX & RR & T & [F1 F2 F3 F4 F5]).
    exists S'. by split_and!.
Qed.

(** *** Conditionals *)

(** Lanes that have forgotten registers. *)
Lemma tracks_shrink s S t o o' :
  (forall k, k < K -> env (t k) ⊆ env (s k)) -> tracks s S o o' -> tracks t S o o'.
Proof.
  intros Hsub. assert (Hr : forall k v d, k < K -> read (env (t k)) v = Ok d -> read (env (s k)) v = Ok d).
  { intros k [c|r] d Hk Hd; [done|]. simpl in *. destruct (env (t k) !! r) as [[]|] eqn:E; try done.
    by rewrite (lookup_weaken _ _ _ _ E (Hsub k Hk)). }
  destruct o as [v|r|], o' as [w|q|]; unfold tracks; try done.
  - intros (ds & H1 & H2 & H3). exists ds. split_and!; eauto.
  - intros [H1 H2]. split; eauto.
  - intros (bs & H1 & H2 & H3). exists bs. split_and!; [done|done|]. intros k b Hk Hb. apply H3; [done|].
    unfold read_bit in *. destruct (env (t k) !! r) as [[]|] eqn:E; try done.
    by rewrite (lookup_weaken _ _ _ _ E (Hsub k Hk)).
Qed.

Lemma rel_shrink cg vg s S t :
  rel cg vg s S -> (forall k, k < K -> env (t k) ⊆ env (s k) /\ js (t k) = js (s k)) -> rel cg vg t S.
Proof.
  intros [R1 R2 R3 R4 R5 R6 R7] Ht.
  assert (Hsub : forall k, k < K -> env (t k) ⊆ env (s k)) by (intros k Hk; by apply Ht). split.
  - intros k r Hk Hr. specialize (R1 k r Hk Hr). apply eq_None_not_Some. intros [y Hy].
    by rewrite (lookup_weaken _ _ _ _ Hy (Hsub k Hk)) in R1.
  - intros k Hk. rewrite (proj2 (Ht k Hk)). auto.
  - intros k id Hk. rewrite (proj2 (Ht k Hk)). auto.
  - intros id v w Hv Hw. eapply tracks_shrink; eauto.
  - intros id v w Hv Hw. eapply tracks_shrink; eauto.
  - intros sym f v Hv. eapply tracks_shrink; eauto.
  - done.
Qed.

(** The emission behind the comparison, in the two modes. *)
Definition arms (b : nat) (mt me : EmitM (D:=D) (Value D)) : EmitM (D:=D) (Value D) :=
  bindE (in_block mt) (fun t => bindE (in_block me) (fun e => bindE fresh (fun phi cg =>
    Ok (Reg phi, Diamond phi b (snd t) (fst t) (snd e) (fst e) Ret, cg)))).
Definition both_arms (q : nat) (mt me : EmitV (D:=D) (Value D)) : EmitV (D:=D) (Value D) :=
  vbind mt (fun t => vbind me (fun e => vbuild (fun dst => VSelect dst q t e))).

Lemma arms_Ok b mt me cg v code cg' :
  arms b mt me cg = Ok (v, code, cg') -> exists tv tc cg3 ev ec cg4,
    mt cg = Ok (tv, tc, cg3) /\ me cg3 = Ok (ev, ec, cg4) /\ v = Reg (next_reg cg4) /\
    code = Diamond (next_reg cg4) b tc tv ec ev Ret /\ cg' = with_reg (Datatypes.S (next_reg cg4)) cg4.
Proof.
  unfold arms, bindE, in_block, fresh. intros He.
  destruct (mt cg) as [[[tv tc] cg3]|] eqn:H1; [|done]. simpl in He.
  destruct (me cg3) as [[[ev ec] cg4]|] eqn:H2; [|done]. simpl in He. injection He as <- <- <-.
  exists tv, tc, cg3, ev, ec, cg4. by split_and!.
Qed.

(** The runs of the two arms, one behind the other: in each, the lanes of
    the other arm stand still. *)
Lemma lanes_exec_arms A phi b tc tv ec ev s s' :
  lanes_exec A (Diamond phi b tc tv ec ev Ret) s s' -> exists (bit : nat -> bool) s3 s4,
    lanes_exec (fun k => A k && bit k) tc s s3 /\
    lanes_exec (fun k => A k && negb (bit k)) ec s3 s4 /\
    forall k, k < K -> if A k then
      read_bit (env (s k)) b = Ok (bit k) /\ (if bit k then s4 k = s3 k else s3 k = s k) /\
      exists d, read (env (s4 k)) (if bit k then tv else ev) = Ok d /\
        s' k = MkState (<[phi := F64 d]> (env (s k))) (js (s4 k)) (outputs (s4 k))
    else s' k = s k /\ s4 k = s k.
Proof.
  intros He. set (bit k := match read_bit (env (s k)) b with Ok x => x | Err _ => false end).
  set (run (B : bool) k code (t : Machine_state D L) := if B then match exec (mkt k) code t with Ok u => u | Err _ => t end else t).
  exists bit, (fun k => run (A k && bit k) k tc (s k)),
    (fun k => run (A k && negb (bit k)) k ec (run (A k && bit k) k tc (s k))).
  assert (Hk : forall k, k < K -> A k = true -> read_bit (env (s k)) b = Ok (bit k) /\ exists u d,
    exec (mkt k) (if bit k then tc else ec) (s k) = Ok u /\
    read (env u) (if bit k then tv else ev) = Ok d /\
    s' k = MkState (<[phi := F64 d]> (env (s k))) (js u) (outputs u)).
  { intros k Hk HA. specialize (He k Hk). rewrite HA in He. simpl in He.
    apply bind_Ok in He as (x & Hx & He). apply bind_Ok in He as (u & Hu & He).
    apply bind_Ok in He as (d & Hd & [= <-]). unfold bit. rewrite Hx. split; [done|].
    exists u, d. by destruct x. }
  split_and!; intros k Hlt; specialize (Hk k Hlt); unfold run; destruct (A k) eqn:HA; simpl; try done.
  - destruct (Hk eq_refl) as (_ & u & d & Hu & _). destruct (bit k); simpl; [by rewrite Hu|done].
  - destruct (Hk eq_refl) as (_ & u & d & Hu & _). destruct (bit k); simpl; [done|by rewrite Hu].
  - destruct (Hk eq_refl) as (Hb & u & d & Hu & Hd & Hs). destruct (bit k); simpl; rewrite Hu;
      (split_and!; [done|done|]; by exists d).
  - specialize (He k Hlt). by rewrite HA in He.
Qed.

Lemma select_lane (bs : list bool) (ts es : list D) k (x : bool) d :
  length ts = K -> length es = K -> k < K -> bs !! k = Some x ->
  (if x then ts !! k = Some d else es !! k = Some d) ->
  zip_with (fun (b : bool) te => if b then te.1 else te.2) bs (zip ts es) !! k = Some d.
Proof.
  intros Ht He Hk Hb Hd. destruct (lookup_lt_is_Some_2 ts k) as [a Ha]; [lia|].
  destruct (lookup_lt_is_Some_2 es k) as [c Hc]; [lia|].
  rewrite (lookup_zip _ _ _ _ _ _ Hb (lookup_zip _ _ _ _ _ _ Ha Hc)). destruct x; simpl; congruence.
Qed.

Lemma mode_arms A phi b tc tv ec ev A' :
  mode A (Diamond phi b tc tv ec ev Ret) -> mode A' tc /\ mode A' ec.
Proof.
  intros [[_ Hs]|Hs]; simpl in Hs; rewrite andb_true_r in Hs; split_andb; by split; right.
Qed.

(** The states in which both arms have been run and their registers are
    forgotten. *)
Lemma forget_arms A cg vg s S cg4 vg4 s4 S4 :
  rel cg vg s S -> frame cg vg s S s4 S4 -> rel cg4 vg4 s4 S4 ->
  (forall k, k < K -> A k = false -> s4 k = s k) ->
  let t k := if A k then MkState (env (s k)) (js (s4 k)) (outputs (s4 k)) else s k in
  (forall k, k < K -> env (t k) ⊆ env (s4 k)) /\ rel cg4 vg4 t S4 /\ frame cg vg s S t S4.
Proof.
  intros HR HF HR4 Hstill t.
  assert (Hsub : forall k, k < K -> env (s k) ⊆ env (s4 k)).
  { intros k Hk. apply map_subseteq_spec. intros r y Hy.
    destruct (Nat.lt_ge_cases r (next_reg cg)) as [Hr|Hr].
    - by rewrite (f_env _ _ _ _ _ _ HF).
    - by rewrite (r_fresh _ _ _ _ HR) in Hy. }
  assert (Ht : forall k, k < K -> env (t k) = env (s k) /\ js (t k) = js (s4 k) /\ outputs (t k) = outputs (s4 k)).
  { intros k Hk. unfold t. destruct (A k) eqn:HA; [done|]. by rewrite (Hstill k Hk HA). }
  split_and!.
  - intros k Hk. rewrite (proj1 (Ht k Hk)). auto.
  - apply (rel_shrink _ _ s4); [done|]. intros k Hk. destruct (Ht k Hk) as (-> & -> & _). auto.
  - destruct HF as [E O V W R]. split; try done; intros k *; intros.
    + by rewrite (proj1 (Ht k ltac:(done))).
    + destruct (Ht k ltac:(done)) as (_ & _ & ->). auto.
Qed.

Lemma vsim_arms held b q mt me mt' me' :
  (OBit b, OBit q) ∈ held -> sim OVal OVal [] mt mt' -> sim OVal OVal [] me me' ->
  sim OVal OVal held (arms b mt me) (both_arms q mt' me').
Proof.
  intros Hin Ht He cg vg v code cg' Hrel Hb Hm.
  apply arms_Ok in Hm as (tv & tc & cg3 & ev & ec & cg4 & H3 & H4 & -> & -> & ->).
  destruct (Ht _ _ _ _ _ Hrel (Forall_nil_2 _) H3)
    as (tw & vtc & vg3 & E3 & R3 & L3 & M3 & B3 & C3 & K3 & X3).
  destruct (He _ _ _ _ _ R3 (Forall_nil_2 _) H4)
    as (ew & vec' & vg4 & E4 & R4 & L4 & M4 & B4 & C4 & K4 & X4).
  assert (Hq : q < next_reg vg).
  { unfold held_below in Hb. rewrite Forall_forall in Hb. destruct (Hb _ Hin) as [_ Hq]. apply Hq. by left. }
  set (w := next_reg vg4) in *.
  exists (Reg w), (vtc ++ vec' ++ [VSelect w q tw ew]), (with_reg (Datatypes.S w) vg4).
  split_and!; [| |simpl; lia|simpl; lia|apply below_Reg; simpl; lia|apply below_Reg; simpl; lia| |].
  { unfold both_arms, vbind. rewrite E3. simpl. by rewrite E4. }
  { apply erel_reg; [done|lia|lia]. }
  { eapply vok_app; [exact K3|]. eapply vok_app; [exact K4|]. apply vok_one; [|done].
    intros r Hr. simpl in Hr. apply elem_of_cons in Hr as [->|Hr]; [lia|].
    apply elem_of_app in Hr as [Hr|Hr]; [specialize (C3 r Hr)|specialize (C4 r Hr)]; lia. }
  intros A s s' S Hmode HR Hh Hex.
  apply lanes_exec_arms in Hex as (bit & s3 & s4 & Hx3 & Hx4 & Hend).
  destruct (X3 _ _ _ _ (proj1 (mode_arms _ _ _ _ _ _ _ _ Hmode)) HR (Forall_nil_2 _) Hx3)
    as (S3 & XE3 & RR3 & T3 & F3).
  destruct (X4 _ _ _ _ (proj2 (mode_arms _ _ _ _ _ _ _ _ Hmode)) RR3 (Forall_nil_2 _) Hx4)
    as (S4 & XE4 & RR4 & T4 & F4).
  pose proof (vframe_trans _ _ _ _ _ _ _ _ _ _ F3 F4 L3 M3) as F34.
  destruct (forget_arms A cg vg s S cg4 vg4 s4 S4 HR F34 RR4) as (_ & RRt & Ft).
  { intros k Hk HA. specialize (Hend k Hk). rewrite HA in Hend. by apply Hend. }
  set (t k := if A k then MkState (env (s k)) (js (s4 k)) (outputs (s4 k)) else s k) in *.
  pose proof (tracks_frame _ _ _ _ _ _ (OVal tv) (OVal tw) F4 B3 C3 T3) as T34.
  destruct T34 as (ts & Hts & Lts & Dts), T4 as (es & Hes & Les & Des).
  unfold holds in Hh. rewrite Forall_forall in Hh. destruct (Hh _ Hin) as (bs & Hbs & Lbs & Dbs).
  set (sel := zip_with (fun (b : bool) te => if b then te.1 else te.2) bs (zip ts es)).
  assert (Hx : forall k, k < K -> A k = true -> exists d, sel !! k = Some d /\
    s' k = MkState (<[next_reg cg4 := F64 d]> (env (s k))) (js (s4 k)) (outputs (s4 k))).
  { intros k Hk HA. specialize (Hend k Hk). rewrite HA in Hend.
    destruct Hend as (Hbit & _ & d & Hd & Hs). exists d. split; [|done].
    apply (select_lane bs ts es k (bit k)); [done|done|done|by apply Dbs|].
    destruct (bit k); [by apply Dts|by apply Des]. }
  exists (set_vreg w (vec sel) S4). split.
  { rewrite vexec_app, XE3. cbn [rbind]. rewrite vexec_app, XE4. cbn [rbind vexec vstep].
    unfold vread_mask. rewrite (f_venv _ _ _ _ _ _ F34) by done. rewrite Hbs. cbn [rbind].
    rewrite Hts. cbn [rbind]. by rewrite Hes. }
  assert (Hs' : forall k, k < K -> js (s' k) = js (t k) /\ outputs (s' k) = outputs (t k) /\
    (env (s' k) = env (t k) \/ exists y, vlane (VD sel) k = Some y /\
       env (s' k) = <[next_reg cg4 := y]> (env (t k)))).
  { intros k Hk. unfold t. destruct (A k) eqn:HA.
    - destruct (Hx k Hk HA) as (d & Hd & ->). split_and!; [done|done|]. right.
      exists (F64 d). simpl. by rewrite Hd.
    - specialize (Hend k Hk). rewrite HA in Hend. destruct Hend as [-> _]. by split_and!; [..|left]. }
  destruct (rel_result cg4 vg4 t S4 s' (set_vreg w (vec sel) S4) (VD sel) w (Datatypes.S w))
    as (RRf & Tf & Ff); try done.
  - lia.
  - intros k Hk. by apply Hs'.
  - intros k Hk. by apply Hs'.
  - simpl. unfold sel. apply length_zip; [done|]. rewrite length_zip_with. lia.
  - simpl. by rewrite lookup_insert_eq.
  - intros r Hr. simpl. apply lookup_insert_ne. lia.
  - intros k Hk. rewrite (proj1 (Hs' k Hk)). by apply RRt.
  - intros k id Hk. rewrite (proj1 (Hs' k Hk)). by apply RRt.
  - split_and!; [done|done|]. eapply vframe_trans; [exact Ft|exact Ff|lia|lia].
Qed.

(** *** Expressions *)

Section expressions.
Variable cfg : Config.
Variable avx : bool.
(** Both compile the same program with the same flags; the vectorised mode is
    never warm and has no vectorised mean. *)
Definition vector_config : Config := MkConfig (symbols cfg) (lowering cfg) avx false ∅.
Hypothesis cold : assume_warm cfg = false.
Hypothesis scalar_sma : use_avx2 cfg = false \/ has_flag cfg kSma = true.

Notation vsim_expr e := (sim OVal OVal [] (EmitExpr cfg e) (EmitExprVectorized K vector_config e)).

Lemma has_flag_vector bit : has_flag vector_config bit = has_flag cfg bit.
Proof. done. Qed.

Lemma vsim_quote held name args sym :
  sim OVal OVal held (EmitQuote cfg name args sym) (EmitQuoteVectorized K vector_config name args sym).
Proof.
  unfold EmitQuote, EmitQuoteVectorized. destruct args as [|a [|b args]]; try apply vsim_throw.
  eapply vsim_quiet; [apply quiet_slot|]. intros k.
  destruct (name =? "bid")%string; [apply vsim_load|]. destruct (name =? "ask")%string; [apply vsim_load|].
  destruct (name =? "mid")%string.
  - eapply vsim_bind; [apply vsim_load|]. intros b b'. eapply vsim_bind; [apply vsim_load|]. intros c c'.
    eapply vsim_bind; [apply vsim_bin; left; set_solver|]. intros x x'.
    apply vsim_bin; [apply known_here|apply known_Const].
  - eapply vsim_bind; [apply vsim_load|]. intros b b'. eapply vsim_bind; [apply vsim_load|]. intros c c'.
    apply vsim_bin; left; set_solver.
Qed.

Lemma vsim_child held e : vsim_expr e ->
  sim OVal OVal held (EmitExpr cfg e) (EmitExprVectorized K vector_config e).
Proof. apply vsim_held. intros p Hp. by apply not_elem_of_nil in Hp. Qed.

Lemma vsim_math held name f args :
  Forall (fun e => vsim_expr e) args ->
  sim OVal OVal held (EmitMath (EmitExpr cfg) name f args)
    (EmitMathVectorized (EmitExprVectorized K vector_config) name f args).
Proof.
  intros Hargs. unfold EmitMath, EmitMathVectorized.
  destruct args as [|e [|]]; try apply vsim_throw. apply Forall_cons in Hargs as [He _].
  eapply vsim_bind; [by apply vsim_child|]. intros x x'. apply vsim_intrinsic, known_here.
Qed.

Lemma vsim_vwap held args id sym :
  sim OVal OVal held (EmitVwap cfg args id sym) (EmitVwapVectorized K vector_config args id sym).
Proof.
  unfold EmitVwap, EmitVwapVectorized. destruct args as [|t [|p [|]]]; try apply vsim_throw.
  destruct t; try apply vsim_throw. eapply vsim_quiet; [apply quiet_period|]. intros period.
  eapply vsim_quiet; [apply quiet_slot|]. intros k. apply vsim_node_id. intros i.
  rewrite has_flag_vector. apply vsim_cached.
  destruct (has_flag cfg kVwap); [apply vsim_lowered_vwap|apply vsim_call; constructor].
Qed.

Lemma vsim_ema_alpha held args id :
  Forall (fun e => vsim_expr e) args ->
  sim OVal OVal held (EmitEmaAlpha (EmitExpr cfg) args id)
    (EmitEmaAlphaVectorized K (EmitExprVectorized K vector_config) args id).
Proof.
  intros Hargs. unfold EmitEmaAlpha, EmitEmaAlphaVectorized.
  destruct args as [|e [|a [|]]]; try apply vsim_throw. rewrite !Forall_cons in Hargs.
  destruct Hargs as (He & Ha & _). eapply vsim_bind; [by apply vsim_child|]. intros x x'.
  eapply vsim_bind; [by apply vsim_child|]. intros y y'. apply vsim_node_id. intros i.
  apply vsim_cached, vsim_call, known_two.
Qed.

Definition windowed (name : string) : bool :=
  (name =? "ema")%string || (name =? "sma")%string || (name =? "rolling_std")%string ||
  (name =? "zscore")%string || (name =? "lag")%string || (name =? "rolling_min")%string ||
  (name =? "rolling_max")%string.

(** Both modes choose the same effect. *)
Lemma window_effect_lane name id period :
  windowed name = true -> exists eff (ds : list D), forall x,
    window_effect cfg name id period x = (eff, x :: map Const ds) /\
    lane_window_effect vector_config name id period x = (eff, x :: map Const ds).
Proof.
  intros Hw. unfold windowed in Hw. rewrite !orb_true_iff, !String.eqb_eq in Hw.
  unfold window_effect, lane_window_effect, warm. rewrite cold. simpl.
  destruct_or!; subst name; simpl; rewrite has_flag_vector; cbn [lowered_flag_for String.eqb Ascii.eqb Bool.eqb];
    lazymatch goal with |- context [has_flag cfg ?b] => destruct (has_flag cfg b) eqn:E end;
    try (eexists _, []; intros x; split; reflexivity).
  - eexists _, [_]. intros x. split; reflexivity.
  - destruct scalar_sma as [->|?]; [|congruence]. simpl. eexists _, []. intros x. split; reflexivity.
Qed.

Lemma vsim_window held name args id :
  windowed name = true -> Forall (fun e => vsim_expr e) args ->
  sim OVal OVal held (EmitWindow cfg (EmitExpr cfg) name args id)
    (EmitWindowVectorized K vector_config (EmitExprVectorized K vector_config) name args id).
Proof.
  intros Hw Hargs. unfold EmitWindow, EmitWindowVectorized.
  destruct args as [|e [|p [|]]]; try apply vsim_throw. apply Forall_cons in Hargs as [He _].
  eapply vsim_quiet; [apply quiet_period|]. intros period.
  destruct (_ && (period <? 2)); [apply vsim_throw|].
  eapply vsim_bind; [by apply vsim_child|]. intros x x'. apply vsim_node_id. intros i.
  destruct (window_effect_lane name i period Hw) as (eff & ds & Heff).
  rewrite (proj1 (Heff x)), (proj2 (Heff x')). apply vsim_cached, vsim_call.
  constructor; [apply known_here|]. clear. induction ds; simpl; constructor; [apply known_Const|done].
Qed.

Lemma vsim_cross held name args id :
  Forall (fun e => vsim_expr e) args ->
  sim OVal OVal held (EmitCross cfg (EmitExpr cfg) name args id)
    (EmitCrossVectorized K vector_config (EmitExprVectorized K vector_config) name args id).
Proof.
  intros Hargs. unfold EmitCross, EmitCrossVectorized.
  destruct args as [|ea [|eb [|]]]; try apply vsim_throw. rewrite !Forall_cons in Hargs.
  destruct Hargs as (Ha & Hb & _). eapply vsim_bind; [by apply vsim_child|]. intros x x'.
  eapply vsim_bind; [by apply vsim_child|]. intros y y'. apply vsim_node_id. intros i.
  apply vsim_cached, vsim_call, known_two.
Qed.

Lemma vsim_pair held name args id :
  Forall (fun e => vsim_expr e) args ->
  sim OVal OVal held (EmitPair cfg (EmitExpr cfg) name args id)
    (EmitPairVectorized K vector_config (EmitExprVectorized K vector_config) name args id).
Proof.
  intros Hargs. unfold EmitPair, EmitPairVectorized.
  destruct args as [|ea [|eb [|p [|]]]]; try apply vsim_throw. rewrite !Forall_cons in Hargs.
  destruct Hargs as (Ha & Hb & _). eapply vsim_quiet; [apply quiet_period|]. intros period.
  eapply vsim_bind; [by apply vsim_child|]. intros x x'.
  eapply vsim_bind; [by apply vsim_child|]. intros y y'. apply vsim_node_id. intros i.
  apply vsim_cached, vsim_call, known_two.
Qed.

Lemma vsim_kalman held args id :
  Forall (fun e => vsim_expr e) args ->
  sim OVal OVal held (EmitKalman1d cfg (EmitExpr cfg) args id)
    (EmitKalman1dVectorized K vector_config (EmitExprVectorized K vector_config) args id).
Proof.
  intros Hargs. unfold EmitKalman1d, EmitKalman1dVectorized.
  destruct args as [|ex [|eq [|er [|]]]]; try apply vsim_throw. rewrite !Forall_cons in Hargs.
  destruct Hargs as (Hx & Hq & Hr & _).
  eapply vsim_bind; [by apply vsim_child|]. intros x x'.
  eapply vsim_bind; [by apply vsim_child|]. intros q q'.
  eapply vsim_bind; [by apply vsim_child|]. intros r r'. apply vsim_node_id. intros i.
  rewrite has_flag_vector. apply vsim_cached.
  assert (Hall : Forall2 (known ((OVal r, OVal r') :: (OVal q, OVal q') :: (OVal x, OVal x') :: held))
    [x; q; r] [x'; q'; r']).
  { apply Forall2_cons. split; [left; set_solver|apply Forall2_cons; split; [left; set_solver|apply Forall2_cons; split; [left; set_solver|constructor]]]. }
  destruct (can_lower_kalman eq er) as [[lq lr]|]; [destruct (has_flag cfg kKalman1d)|]; apply vsim_call;
    try done. apply Forall2_cons. split; [left; set_solver|constructor].
Qed.

Lemma vsim_EmitCall held name args id sym :
  Forall (fun e => vsim_expr e) args ->
  sim OVal OVal held (EmitCall cfg (EmitExpr cfg) name args id sym)
    (EmitCallVectorized K vector_config (EmitExprVectorized K vector_config) name args id sym).
Proof.
  intros Hargs. unfold EmitCall, EmitCallVectorized.
  repeat match goal with
  | |- sim _ _ _ (if ?b then _ else _) _ =>
      destruct b eqn:?; [solve [apply vsim_quote | apply vsim_vwap | by apply vsim_math
        | by apply vsim_ema_alpha | by apply vsim_window | by apply vsim_cross | by apply vsim_pair
        | by apply vsim_kalman]|]
  end. apply vsim_throw.
Qed.

Lemma vsim_parameter held id :
  sim OVal OVal held (CreateCall (RtParam id) []) (EmitScalarizedFanOut K (lane_call (RtParam id) [])).
Proof. apply vsim_call. constructor. Qed.

(** The two answers of a map that has the same keys on both sides. *)
Lemma vsim_cached_value (proj : Codegen (D:=D) -> option (Value D)) m m' :
  (forall cg vg, erel cg vg -> is_Some (proj cg) <-> is_Some (proj vg)) ->
  (forall cg vg v w, erel cg vg -> proj cg = Some v -> proj vg = Some w ->
     below (next_reg cg) v /\ below (next_reg vg) w /\
     forall s S, rel cg vg s S -> tracks s S (OVal v) (OVal w)) ->
  sim OVal OVal [] m m' ->
  sim OVal OVal [] (fun cg => match proj cg with Some v => Ok (v, Ret, cg) | None => m cg end)
    (fun vg => match proj vg with Some w => Ok (w, [], vg) | None => m' vg end).
Proof.
  intros Hkeys Hval Hm cg vg v code cg' Hrel Hb He. specialize (Hkeys _ _ Hrel).
  destruct (proj cg) as [u|] eqn:E1, (proj vg) as [w|] eqn:E2.
  - injection He as <- <- <-. destruct (Hval _ _ _ _ Hrel E1 E2) as (B1 & B2 & HT).
    exists w, [], vg. split_and!; [done|done|done|done|done|done|apply vok_nil|].
    intros A s s' S _ HR _ Hl. exists S.
    assert (Hs : forall k, k < K -> s' k = s k).
    { intros k Hk. specialize (Hl k Hk). destruct (A k); [by injection Hl as ->|done]. }
    pose proof (rel_ext cg vg s S s' Hrel HR Hs) as HR'.
    split_and!; [done|done|by apply HT|by apply frame_ext].
  - destruct (proj1 Hkeys ltac:(by eexists)) as [? [=]].
  - destruct (proj2 Hkeys ltac:(by eexists)) as [? [=]].
  - by apply Hm.
Qed.

Lemma vsim_EmitExpr e : vsim_expr e.
Proof.
  induction e as [loc x|loc name|loc name i|loc k e IH|loc k l r IHl IHr|loc name args i sym IH
    |loc c t e IHc IHt IHe] using Expr_rect'.
  - apply vsim_ret.
    + intros k j _. split; apply below_Const.
    + intros s S _. exists (replicate K x). split_and!; [apply vread_Const|by rewrite length_replicate|].
      intros k d Hk [= <-]. by apply lookup_replicate_2.
  - refine (vsim_cached_value (fun cg => signal_values cg !! name) _ _ _ _ (vsim_throw _ _ _ _ _)).
    + intros cg vg Hrel. apply Hrel.
    + intros cg vg v w Hrel Hv Hw. destruct Hrel as [HC HV _ _ _].
      split_and!; [by eapply cb_signals|by eapply cb_signals|].
      intros s S HR. by eapply r_signals.
  - simpl. destruct (i <? 0)%Z; [apply vsim_throw|apply vsim_parameter].
  - simpl. eapply vsim_bind; [exact IH|]. intros v w. destruct k.
    + apply vsim_ret.
      * intros c j Hb. unfold held_below in Hb. by apply Forall_cons in Hb as [Hb _].
      * intros s S Hh. unfold holds in Hh. by apply Forall_cons in Hh as [Hh _].
    + apply vsim_neg, known_here.
  - simpl. eapply vsim_bind; [exact IHl|]. intros v w. eapply vsim_bind; [by apply vsim_child|].
    intros v' w'. apply vsim_EmitBinary; [apply known_cons|]; apply known_here.
  - refine (vsim_cached_value (fun cg => if (0 <? i)%Z then stateful_emit_cache cg !! i else None) _ _ _ _
      (vsim_EmitCall [] name args i sym _)).
    + intros cg vg Hrel. destruct (0 <? i)%Z; [apply Hrel|done].
    + intros cg vg v w Hrel. destruct (0 <? i)%Z; [|done]. intros Hv Hw.
      destruct Hrel as [HC HV _ _ _].
      split_and!; [by eapply cb_stateful|by eapply cb_stateful|].
      intros s S HR. by eapply r_stateful.
    + exact IH.
  - eapply vsim_bind; [exact IHc|]. intros v w. eapply vsim_bind.
    + apply vsim_cmp; [apply known_here|apply known_Const].
    + intros b q. by apply vsim_arms; [left| |].
Qed.

(** *** Programs *)

(** An emitter without a result. *)
Definition unit_operand (u : unit) : Operand D := OVal (Const (fint 0)).

Lemma vsim_tt held : sim unit_operand unit_operand held (ret tt) (vret tt).
Proof.
  apply vsim_ret.
  - intros k j _. split; apply below_Const.
  - intros s S _. exists (replicate K (fint 0)).
    split_and!; [apply vread_Const|by rewrite length_replicate|].
    intros k d Hk [= <-]. by apply lookup_replicate_2.
Qed.

Lemma vsim_for_each {X} held (f : X -> EmitM ()) f' l :
  (forall x, sim unit_operand unit_operand [] (f x) (f' x)) ->
  sim unit_operand unit_operand held (for_each f l) (vfor_each f' l).
Proof.
  intros Hf. revert held. induction l as [|x l IH]; intros held; simpl; [apply vsim_tt|].
  eapply vsim_bind; [eapply (vsim_held _ _ _ []); [|apply Hf]|intros; apply IH].
  intros p Hp. by apply not_elem_of_nil in Hp.
Qed.

Variable hash_order : forall X, list X -> list X.

Lemma vsim_prewarm held signals :
  sim unit_operand unit_operand held (PrewarmProgramMarketLoads hash_order cfg signals)
    (PrewarmProgramMarketLoadsVectorized K hash_order vector_config signals).
Proof.
  unfold PrewarmProgramMarketLoads, PrewarmProgramMarketLoadsVectorized.
  eapply vsim_quiet; [apply quiet_lift|]. intros syms. apply vsim_for_each. intros k.
  eapply vsim_bind; [apply vsim_load|]. intros b b'. eapply vsim_bind; [apply vsim_load|]. intros a a'.
  apply vsim_tt.
Qed.

Definition every : nat -> bool := fun _ => true.

(** The outputs of lane [k] are every [K]-th of the vectorised ones. *)
Definition same_outputs s S : Prop :=
  forall k i, k < K -> voutputs S !! (i * K + k) = outputs (s k) !! i.

Lemma store_outputs s S ds i (d : nat -> D) :
  same_outputs s S -> length ds = K -> (forall k, k < K -> ds !! k = Some (d k)) ->
  forall k i', k < K ->
    (map_seq (i * K) ds ∪ voutputs S) !! (i' * K + k) = <[i := d k]> (outputs (s k)) !! i'.
Proof.
  intros Ho Hl Hd k i' Hk. destruct (decide (i' = i)) as [->|Hne].
  - rewrite lookup_insert_eq. apply lookup_union_Some_l.
    rewrite lookup_map_seq, option_guard_True by lia.
    replace (i * K + k - i * K) with k by lia. by apply Hd.
  - rewrite lookup_insert_ne by done. rewrite lookup_union_r; [by apply Ho|].
    rewrite lookup_map_seq. destruct (decide (i * K <= i' * K + k)) as [Hle|Hgt].
    + rewrite option_guard_True by done. apply lookup_ge_None_2.
      assert (i < i' \/ i' < i) as [Hlt|Hlt] by lia; [|nia]. nia.
    + by rewrite option_guard_False.
Qed.

(** The codegen context behind the naming of a signal's value. *)
Definition name_signal (name : string) v cg : Codegen (D:=D) :=
  MkCodegen (next_reg cg) (program_market_field_cache cg) (stateful_emit_cache cg)
    (<[name := v]> (signal_values cg)) (next_node_id cg).

Lemma erel_name name v w cg vg :
  erel cg vg -> below (next_reg cg) v -> below (next_reg vg) w ->
  erel (name_signal name v cg) (name_signal name w vg).
Proof.
  intros [[CS CM CV] [VS VM VV] HS HG HN] Bv Bw. split; try done.
  - split; simpl; try done. intros name' u. rewrite lookup_insert_Some.
    intros [[_ <-]|[_ Hu]]; [done|by eapply CV].
  - split; simpl; try done. intros name' u. rewrite lookup_insert_Some.
    intros [[_ <-]|[_ Hu]]; [done|by eapply VV].
  - intros name'. simpl. destruct (decide (name = name')) as [->|]; [by rewrite !lookup_insert_eq|].
    by rewrite !lookup_insert_ne.
Qed.

(** The relation does not speak of the outputs. *)
Lemma rel_name name v w cg vg s S (outs : nat -> gmap nat D) vouts :
  rel cg vg s S -> tracks s S (OVal v) (OVal w) ->
  rel (name_signal name v cg) (name_signal name w vg)
    (fun k => MkState (env (s k)) (js (s k)) (outs k)) (MkVState (venv S) (arena S) vouts).
Proof.
  intros [R1 R2 R3 R4 R5 R6 R7] Ht. split; try done.
  simpl. intros name' u u'. rewrite !lookup_insert_Some.
  intros [[<- <-]|[N1 Hu]] [[E2 <-]|[N2 Hu']]; try done. by eapply R5.
Qed.

(** What running a program's code leaves behind. *)
Record finished s S s' S' : Prop := {
  fin_state : forall k, k < K -> arena S' !! (base + k) = Some (js (s' k));
  fin_arena : forall sym, (forall k, k < K -> sym <> base + k) -> arena S' !! sym = arena S !! sym;
  fin_outputs : same_outputs s' S' }.

Lemma store_run i v w cg vg s s1 S :
  rel cg vg s S -> tracks s S (OVal v) (OVal w) -> same_outputs s S ->
  lanes_exec every (Seq (IStore i v) Ret) s s1 -> exists S1,
    vexec K markets base [VStore i w] S = Ok S1 /\ same_outputs s1 S1 /\ arena S1 = arena S /\
    forall name, rel (name_signal name v cg) (name_signal name w vg) s1 S1.
Proof.
  intros HR Ht Ho He. pose proof Ht as (ds & Hw & Hl & Hd).
  set (d k := match read (env (s k)) v with Ok x => x | Err _ => fint 0 end).
  assert (Hs : forall k, k < K -> read (env (s k)) v = Ok (d k) /\
    s1 k = MkState (env (s k)) (js (s k)) (<[i := d k]> (outputs (s k)))).
  { intros k Hk. specialize (He k Hk). simpl in He. unfold d.
    destruct (read (env (s k)) v) as [x|]; [|done]. by injection He as <-. }
  eexists. split; [cbn [vexec vstep]; rewrite Hw; reflexivity|]. split_and!; [|done|].
  - intros k i' Hk. rewrite (proj2 (Hs k Hk)). simpl. apply (store_outputs s S ds i d); try done.
    intros k' Hk'. apply Hd; [done|]. by apply Hs.
  - intros name.
    apply (rel_shrink _ _ (fun k => MkState (env (s k)) (js (s k)) (<[i := d k]> (outputs (s k))))).
    + by apply rel_name.
    + intros k Hk. by rewrite (proj2 (Hs k Hk)).
Qed.

Lemma run_signals_vectorized signals : forall i cg vg u code cg',
  erel cg vg -> emit_signals cfg i signals cg = Ok (u, code, cg') ->
  exists vcode vg', emit_signals_vectorized K vector_config i signals vg = Ok (tt, vcode, vg') /\
    vok (next_reg vg) vcode (next_reg vg') /\
    forall s s' S, code_safe false code = true -> rel cg vg s S -> same_outputs s S ->
      lanes_exec every code s s' ->
      exists S', vexec K markets base vcode S = Ok S' /\ finished s S s' S'.
Proof.
  induction signals as [|sd rest IH]; intros i cg vg u code cg' Hrel Hm; simpl in Hm.
  - injection Hm as <- <- <-. exists [], vg. split_and!; [done|apply vok_nil|].
    intros s s' S _ HR Ho He. exists S. split; [done|].
    assert (Hs : forall k, k < K -> s' k = s k) by (intros k Hk; by injection (He k Hk)).
    split; [|done|].
    + intros k Hk. rewrite Hs by done. by apply HR.
    + intros k j Hk. rewrite Hs by done. by apply Ho.
  - unfold bindE in Hm. apply bind_Ok in Hm as ([[v c1] cg1] & H1 & Hm).
    apply bind_Ok in Hm as ([[[] c2] cg2] & Hm & [= _ <- <-]). simpl in Hm.
    apply bind_Ok in Hm as ([[u3 c3] cg3] & Hm & [= <- <- <-]). simpl in Hm.
    apply bind_Ok in Hm as ([[u4 c4] cg4] & Hm & [= <- <- <-]).
    destruct (vsim_EmitExpr (sig_body sd) _ _ _ _ _ Hrel (Forall_nil_2 _) H1)
      as (w & vc1 & vg1 & E1 & R1 & L1 & M1 & B1 & C1 & V1 & X1).
    pose proof (erel_name (sig_name sd) v w _ _ R1 B1 C1) as R1'.
    destruct (IH (Datatypes.S i) _ _ _ _ _ R1' Hm) as (vc2 & vg2 & E2 & V2 & X2).
    exists (vc1 ++ [VStore i w] ++ vc2), vg2. split_and!.
    + simpl. unfold vbind. rewrite E1. unfold name_signal in E2. cbn. rewrite E2.
      by destruct u4.
    + eapply vok_app; [exact V1|]. eapply vok_app; [apply vok_plain; [exact C1|done]|exact V2].
    + intros s s' S Hsafe HR Ho He.
      change (capp c1 (Seq (IStore i v) c4)) with (capp c1 (capp (Seq (IStore i v) Ret) c4)) in *.
      apply lanes_exec_capp in He as (s1 & He1 & He). apply lanes_exec_capp in He as (s2 & He2 & He3).
      rewrite code_safe_capp in Hsafe. split_andb.
      destruct (X1 every s s1 S) as (S1 & XE1 & RR1 & T1 & F1); [by left|done|by apply Forall_nil|done|].
      assert (Ho1 : same_outputs s1 S1).
      { intros k j Hk. rewrite (f_voutputs _ _ _ _ _ _ F1), (f_outputs _ _ _ _ _ _ F1) by done. by apply Ho. }
      destruct (store_run i v w _ _ s1 s2 S1 RR1 T1 Ho1 He2) as (S2 & XE2 & Ho2 & Ha2 & RR2).
      destruct (X2 s2 s' S2) as (S3 & XE3 & [P1 P2 P3]); [done|by apply RR2|done|done|].
      exists S3. rewrite vexec_app, XE1. cbn [rbind]. rewrite vexec_app, XE2. cbn [rbind].
      split; [done|]. split; [done| |done]. intros sym Hs. rewrite P2, Ha2 by done. by apply F1.
Qed.

Lemma erel_init : erel Codegen_init Codegen_init.
Proof. by split. Qed.

Lemma run_program_vectorized signals u code cg' :
  EmitProgram hash_order cfg signals Codegen_init = Ok (u, code, cg') ->
  exists vcode vg', EmitProgramVectorized K hash_order vector_config signals Codegen_init = Ok (tt, vcode, vg') /\
    vverify ∅ vcode = true /\
    forall (j : nat -> JitState D L) (t : nat -> Machine_state D L) (arena_ : list (JitState D L)),
      code_safe false code = true ->
      (forall k, k < K -> arena_ !! (base + k) = Some (j k)) ->
      (forall k id, k < K -> (0 <= id < Z.of_nat np)%Z -> exists d, jit_rt_param id (js_ctx (j k)) = Ok d) ->
      (forall k, k < K -> exec (mkt k) code (MkState ∅ (j k) ∅) = Ok (t k)) ->
      exists S', vexec K markets base vcode (MkVState ∅ arena_ ∅) = Ok S' /\
        finished (fun k => MkState ∅ (j k) ∅) (MkVState ∅ arena_ ∅) t S'.
Proof.
  intros Hm. unfold EmitProgram, bindE in Hm. apply bind_Ok in Hm as ([[u1 c1] cg1] & H1 & Hm).
  apply bind_Ok in Hm as ([[u2 c2] cg2] & H2 & [= <- <- <-]).
  destruct (vsim_prewarm [] signals _ _ _ _ _ erel_init (Forall_nil_2 _) H1)
    as ([] & vc1 & vg1 & E1 & R1 & _ & _ & _ & _ & V1 & X1).
  destruct (run_signals_vectorized signals 0 _ _ _ _ _ R1 H2) as (vc2 & vg2 & E2 & V2 & X2).
  exists (vc1 ++ vc2), vg2. split_and!.
  - unfold EmitProgramVectorized, vbind. rewrite E1. cbn [rbind]. by rewrite E2.
  - apply (vok_verify _ _ _ (vok_app _ _ _ _ _ V1 V2)). intros r Hr. simpl in Hr. lia.
  - intros j t arena_ Hsafe Ha Hp He. rewrite code_safe_capp in Hsafe. split_andb.
    set (s0 := fun k => MkState ∅ (j k) ∅ : Machine_state D L).
    assert (HR0 : rel Codegen_init Codegen_init s0 (MkVState ∅ arena_ ∅)) by by split.
    destruct (lanes_exec_capp every c1 c2 s0 t) as (s1 & He1 & He2); [exact He|].
    destruct (X1 every s0 s1 (MkVState ∅ arena_ ∅)) as (S1 & XE1 & RR1 & _ & F1);
      [by left|done|by apply Forall_nil|done|].
    destruct (X2 s1 t S1) as (S2 & XE2 & [P1 P2 P3]); [done|done| |done|].
    { intros k i Hk. rewrite (f_voutputs _ _ _ _ _ _ F1), (f_outputs _ _ _ _ _ _ F1) by done. done. }
    exists S2. rewrite vexec_app, XE1. cbn [rbind]. split; [done|]. split; [done| |done].
    intros sym Hs. rewrite P2 by done. by apply F1.
Qed.
End expressions.
End simulation.

(** ** The compiled programs *)

Section parity.
Context {D L : Type} `{Machine D L}.
Implicit Types (market : MarketState D) (j : JitState D L).

(** A [batch]: the per-lane markets, the symbol of the first lane and the
    arena of the symbols' states, each lane a symbol of the arena. *)
Record batch (K n np : nat) (markets : list (MarketState D)) (base : nat)
    (arena_ : list (JitState D L)) : Prop := {
  batch_markets : length markets = K;
  batch_size : Forall (fun market => length (instruments market) = n) markets;
  batch_symbols : (Z.of_nat (base + K) <= 2 ^ 32)%Z;
  batch_arena : base + K <= length arena_;
  batch_params : Forall (fun j => forall id, (0 <= id < Z.of_nat np)%Z ->
    exists d, jit_rt_param id (js_ctx j) = Ok d) arena_ }.

Lemma vectorized_run hash_order cfg avx signals u code cg K n np markets base :
  0 < K -> assume_warm cfg = false -> use_avx2 cfg = false \/ has_flag cfg kSma = true ->
  length markets = K -> Forall (fun market => length (instruments market) = n) markets ->
  (Z.of_nat (base + K) <= 2 ^ 32)%Z ->
  EmitProgram hash_order cfg signals Codegen_init = Ok (u, code, cg) -> exists vcode vg,
    EmitProgramVectorized K hash_order (vector_config cfg avx) signals Codegen_init = Ok (tt, vcode, vg) /\
    vverify ∅ vcode = true /\
    forall arena_ row after, batch K n np markets base arena_ -> code_safe n np false code = true ->
      (forall k market j, k < K -> markets !! k = Some market -> arena_ !! (base + k) = Some j ->
        run_program market code j = Ok (row k, after k)) ->
      exists out arena', run_vectorized K markets base vcode arena_ = Ok (out, arena') /\
        (forall k, k < K -> arena' !! (base + k) = Some (after k)) /\
        (forall sym, (forall k, k < K -> sym <> base + k) -> arena' !! sym = arena_ !! sym) /\
        forall i k, k < K -> out !! (i * K + k) = row k !! i.
Proof.
  intros HK Hcold Hsma Hlen Hn Hbase Hm.
  set (mkt k := default (MkMarket [] 0) (markets !! k)).
  assert (Hmkt : forall k, k < K -> markets !! k = Some (mkt k)).
  { intros k Hk. unfold mkt. destruct (lookup_lt_is_Some_2 markets k) as [m ->]; [lia|done]. }
  assert (Hsz : forall k, k < K -> length (instruments (mkt k)) = n)
    by (intros k Hk; exact (Forall_lookup_1 _ _ _ _ Hn (Hmkt k Hk))).
  destruct (run_program_vectorized K n np markets mkt base HK Hmkt Hsz Hbase cfg avx Hcold Hsma
    hash_order signals u code cg Hm) as (vcode & vg & E & V & X).
  exists vcode, vg. split_and!; [done..|].
  intros arena_ row after [_ _ _ Harena Hparams] Hsafe Hrun.
  assert (Hj : exists f, forall k, k < K -> arena_ !! (base + k) = Some (f k)).
  { destruct arena_ as [|j0 rest]; [simpl in Harena; lia|].
    exists (fun k => default j0 ((j0 :: rest) !! (base + k))). intros k Hk.
    destruct (lookup_lt_is_Some_2 (j0 :: rest) (base + k)) as [j ->]; [simpl in *; lia|done]. }
  destruct Hj as [f Hj].
  assert (Ht : forall k, k < K -> exists t, exec (mkt k) code (MkState ∅ (f k) ∅) = Ok t /\
    row k = outputs t /\ after k = js t).
  { intros k Hk. specialize (Hrun k _ _ Hk (Hmkt k Hk) (Hj k Hk)). unfold run_program in Hrun.
    apply bind_Ok in Hrun as (t & Et & [= <- <-]). by exists t. }
  destruct (X f (fun k => match exec (mkt k) code (MkState ∅ (f k) ∅) with Ok t => t | Err _ => MkState ∅ (f k) ∅ end)
    arena_) as (S' & XE & [P1 P2 P3]); [done|done| | |].
  - intros k id Hk. exact (Forall_lookup_1 _ _ _ _ Hparams (Hj k Hk) id).
  - intros k Hk. by destruct (Ht k Hk) as (t & -> & _).
  - exists (voutputs S'), (arena S'). unfold run_vectorized. rewrite XE. cbn [rbind].
    split_and!; [done| |done|].
    + intros k Hk. rewrite P1 by done. by destruct (Ht k Hk) as (t & -> & _ & ->).
    + intros i k Hk. rewrite (P3 k i Hk). by destruct (Ht k Hk) as (t & -> & -> & _).
Qed.

(** C4: one call of the function [CompileProgramVectorized] builds for 2, 4 or
    8 lanes does what a call per lane of the function [CompileProgram] builds
    does.  Whenever the program compiles in scalar mode, it compiles in
    vectorised mode too (its code passes [verifyFunction]), and a vectorised
    call on [lane_count] markets from symbol [base] on leaves every lane's
    symbol in the state its scalar call leaves it in, every other symbol of
    the arena alone, and in slot [i * lane_count + k] of the outputs the value
    signal [i] has in lane [k]'s scalar call (nothing where that stores
    nothing), to the bit and for every machine arithmetic.  The arms of a
    conditional have no effects ([code_safe]), since the vectorised code runs
    both for every lane; the scalar code is not a warm variant and does not
    inline the AVX2 sum: either AVX2 is not in use or [sma] is lowered
    ([use_avx2 cfg = false \/ has_flag cfg kSma = true]; without, an [sma] of
    period 4 or more sums in another order). *)
Theorem vectorized_parity hash_order cfg avx signals code msg K n np :
  K = 2 \/ K = 4 \/ K = 8 -> signals <> [] ->
  assume_warm cfg = false -> use_avx2 cfg = false \/ has_flag cfg kSma = true ->
  build_function (EmitProgram hash_order cfg signals) msg = Ok code ->
  code_safe n np false code = true -> exists vcode,
    CompileProgramVectorizedImpl K hash_order signals (symbols cfg) (lowering cfg) avx = Ok vcode /\
    forall markets base arena_ row after, batch K n np markets base arena_ ->
      (forall k market j, k < K -> markets !! k = Some market -> arena_ !! (base + k) = Some j ->
        run_program market code j = Ok (row k, after k)) ->
      exists out arena', run_vectorized K markets base vcode arena_ = Ok (out, arena') /\
        (forall k, k < K -> arena' !! (base + k) = Some (after k)) /\
        (forall sym, (forall k, k < K -> sym <> base + k) -> arena' !! sym = arena_ !! sym) /\
        forall i k, k < K -> out !! (i * K + k) = row k !! i.
Proof.
  intros HK Hne Hcold Hsma Hb Hsafe.
  assert (Hpos : 0 < K <= 8) by lia. unfold build_function in Hb.
  apply bind_Ok in Hb as ([[u c] cg] & Hm & Hv). destruct (verify ∅ c); [|done]. injection Hv as ->.
  set (idle := MkMarket (replicate n (MkInstrument (D:=D) (fint 0) (fint 0) (fint 0) (fint 0) 0)) 0).
  destruct (vectorized_run hash_order cfg avx signals u code cg K n np (replicate K idle) 0)
    as (vcode & vg & E & V & _); try done; [lia|by apply length_replicate| |simpl; lia|].
  { apply Forall_replicate. apply length_replicate. }
  exists vcode. split.
  - unfold CompileProgramVectorizedImpl, vector_config in *.
    destruct signals as [|sd rest]; [done|]. cbn [length Nat.eqb negb ensure rbind].
    assert ((K =? 2) || (K =? 4) || (K =? 8) = true) as -> by (destruct HK as [->|[->| ->]]; reflexivity).
    cbn [ensure rbind]. rewrite E. cbn [rbind]. by rewrite V.
  - intros markets base arena_ row after Hbatch Hrun.
    destruct (vectorized_run hash_order cfg avx signals u code cg K n np markets base)
      as (vcode' & vg' & E' & _ & X); try done; [lia|apply Hbatch..|].
    rewrite E in E'. injection E' as <- <-. by apply X.
Qed.
End parity.

(** Two lanes of four symbols, the lanes' conditions different. *)
Module LanesExample.
Import ProgramExample.
#[local] Existing Instance ProgramExample.machine.
Definition signals : list (SignalDef double) :=
  [MkSignal "a" (Conditional noloc (BinaryOp noloc Gt quote (num 3))
     (BinaryOp noloc Mul quote (num 2)) (UnaryOp noloc Minus quote));
   MkSignal "b" (BinaryOp noloc Add (call "kalman1d" [IdentifierExpr noloc "a"; num 1; num 2] 1)
     (call "sma" [quote; num 1] 2))].
Definition code : Code double :=
  match build_function (EmitProgram (fun _ l => l) cfg signals) "" with
  | Ok code => code | Err _ => Ret end.
Definition context : SignalContext double long_double :=
  match fold_left (fun c s => rbind c (fun c => PrewarmSignalContext c s)) signals (Ok SignalContext_init) with Ok c => c | Err _ => SignalContext_init end.
Definition lanes : list (MarketState double) := take 2 markets.
Definition arena : list (JitState double long_double) := replicate 4 (MkJit context low).
Definition scalar (k : nat) : gmap nat double * JitState double long_double :=
  match run_program (nth k lanes (MkMarket [] 0)) code (MkJit context low) with
  | Ok r => r | Err _ => (∅, MkJit context low) end.
End LanesExample.

Lemma vectorized_parity_witness :
  batch 2 1 0 LanesExample.lanes 1 LanesExample.arena /\ exists vcode,
    CompileProgramVectorizedImpl (H:=ProgramExample.machine) 2 (fun _ l => l) LanesExample.signals
      (symbols ProgramExample.cfg) kNone false = Ok vcode /\
    exists out arena', run_vectorized (H:=ProgramExample.machine) 2 LanesExample.lanes 1 vcode LanesExample.arena
        = Ok (out, arena') /\
      (forall k, k < 2 -> arena' !! (1 + k) = Some (snd (LanesExample.scalar k))) /\
      (forall sym, (forall k, k < 2 -> sym <> 1 + k) -> arena' !! sym = LanesExample.arena !! sym) /\
      forall i k, k < 2 -> out !! (i * 2 + k) = fst (LanesExample.scalar k) !! i.
Proof.
  assert (Hb : batch 2 1 0 LanesExample.lanes 1 LanesExample.arena).
  { split; [reflexivity|repeat constructor|by vm_compute|simpl; lia|].
    apply Forall_forall. intros j _ id Hid. lia. }
  split; [exact Hb|].
  assert (Hcode : build_function
    (EmitProgram (H:=ProgramExample.machine) (fun _ l => l) ProgramExample.cfg LanesExample.signals) "" = Ok LanesExample.code)
    by (vm_compute; reflexivity).
  assert (Hsafe : code_safe 1 0 false LanesExample.code = true) by (vm_compute; reflexivity).
  assert (Hne : LanesExample.signals <> []) by discriminate.
  destruct (vectorized_parity (H:=ProgramExample.machine) (fun _ l => l) ProgramExample.cfg false
    LanesExample.signals LanesExample.code "" 2 1 0 (or_introl eq_refl) Hne eq_refl (or_introl eq_refl)
    Hcode Hsafe) as (vcode & E & X).
  exists vcode. split; [exact E|].
  apply (X LanesExample.lanes 1 LanesExample.arena (fun k => fst (LanesExample.scalar k))
    (fun k => snd (LanesExample.scalar k)) Hb).
  intros [|[|k]] market j Hk Hm Hj; [| |lia].
  all: injection Hm as <-; injection Hj as <-; vm_compute; reflexivity.
Defined.
