(* ===== verification/GradOpFacts.v ===== *)
(** * The gradient entry points agree with the forward interpreter

    On a slot that prewarming has prepared, the step of
    [EvaluateSignalGradient] and the [jit_rt_*_grad] function a compiled
    gradient program calls for the same operator are the same computation on
    the slots of the node and of the (node, parameter) pair; the entry point
    leaves every other node alone and its own slot prepared.  [kalman1d] is
    not among the operators: the two guard its denominator differently. *)

From S2P Require Import Prelude Errors Arith Ast Rolling Context Interpreter JitRuntime Gradient ForwardGradient JitFacts JitCompilerFacts.

(** A stateful builtin of the gradient mode with its call site's constants. *)
Inductive GradOp :=
| GoEma (period : nat) | GoEmaAlpha | GoSma (period : nat) | GoLag (period : nat)
| GoStd (period : nat) | GoZscore (period : nat) | GoCorr (period : nat) | GoBeta (period : nat)
| GoMin (period : nat) | GoMax (period : nat) | GoCrossAbove | GoCrossBelow.

Section parity.
Context {D L : Type} `{Machine D L}.

Notation Ctx := (SignalContext D L).
Notation VG := (ValueGradient D).

Local Notation "x <~ m ;; k" := (fun s => rbind (m s) (fun '(x, s) => k s))
  (at level 20, m at level 99, k at level 200, right associativity).

(** The call of the compiled code. *)
Definition grad_compiled (op : GradOp) (id param_id : Z) (x y : VG) : Ctx -> Res ((D * D) * Ctx) :=
  let '(MkVG xv xg) := x in
  let '(MkVG yv yg) := y in
  match op with
  | GoEma p => jit_rt_ema_alpha_grad id xv xg (ema_alpha_of p) (fint 0) (Z.of_nat p) param_id
  | GoEmaAlpha => jit_rt_ema_alpha_grad id xv xg yv yg 0 param_id
  | GoSma p => jit_rt_sma_grad id xv xg (Z.of_nat p) param_id
  | GoLag p => jit_rt_lag_grad id xv xg (Z.of_nat p) param_id
  | GoStd p => jit_rt_rolling_std_grad id xv xg (Z.of_nat p) param_id
  | GoZscore p => jit_rt_zscore_grad id xv xg (Z.of_nat p) param_id
  | GoCorr p => jit_rt_rolling_corr_grad id xv xg yv yg (Z.of_nat p) param_id
  | GoBeta p => jit_rt_rolling_beta_grad id xv xg yv yg (Z.of_nat p) param_id
  | GoMin p => jit_rt_rolling_min_grad id xv xg (Z.of_nat p) param_id
  | GoMax p => jit_rt_rolling_max_grad id xv xg (Z.of_nat p) param_id
  | GoCrossAbove => jit_rt_cross_above_grad id xv yv param_id
  | GoCrossBelow => jit_rt_cross_below_grad id xv yv param_id
  end.

(** What the interpreter does once it has evaluated the arguments. *)
Definition grad_interpret (op : GradOp) (id : Z) (target : nat) (x y : VG) : G (D:=D) (L:=L) VG :=
  match op with
  | GoEma p => on_slots target ema_slots ema_sensitivity_slots id
                 (ema_forward x (MkVG (ema_alpha_of p) (fint 0)))
  | GoEmaAlpha => on_slots target ema_slots ema_sensitivity_slots id (ema_forward x y)
  | GoSma p => on_slots target sma_slots sma_sensitivity_slots id (sma_forward p x)
  | GoLag p => on_slots target lag_slots lag_sensitivity_slots id (lag_forward p x)
  | GoStd p => on_slots target rolling_std_slots rolling_std_sensitivity_slots id
                 (std_forward p false x)
  | GoZscore p => on_slots target zscore_slots zscore_sensitivity_slots id (std_forward p true x)
  | GoCorr p => on_slots target rolling_corr_slots rolling_corr_sensitivity_slots id
                  (pair_forward corr_grad_read p x y)
  | GoBeta p => on_slots target rolling_beta_slots rolling_beta_sensitivity_slots id
                  (pair_forward beta_grad_read p x y)
  | GoMin p => extremum_forward target rolling_min_deques_slots rolling_min_indices_slots
                 rolling_min_sensitivity_slots UpdateRollingMin id p x
  | GoMax p => extremum_forward target rolling_max_deques_slots rolling_max_indices_slots
                 rolling_max_sensitivity_slots UpdateRollingMax id p x
  | GoCrossAbove => v <~ g_run (with_node cross_slots id (cross_step fle fgt (vg_value x) (vg_value y)));;
                    g_lift (Ok (MkVG v (fint 0)))
  | GoCrossBelow => v <~ g_run (with_node cross_slots id (cross_step fge flt (vg_value x) (vg_value y)));;
                    g_lift (Ok (MkVG v (fint 0)))
  end.

(** What prewarming leaves behind, and every tick preserves. *)
Definition grad_ready (op : GradOp) (id : Z) (c : Ctx) : Prop :=
  match op with
  | GoEma p => slot_ready ema_slots id (fun st => e_period st = Z.of_nat p) c
  | GoEmaAlpha => slot_ready ema_slots id (fun st => e_period st = 0%Z) c
  | GoSma p => slot_ready sma_slots id (ring_ready p) c
  | GoLag p => slot_ready lag_slots id (lag_ready p) c
  | GoMin p => slot_ready rolling_min_deques_slots id (fun dq => dq_cap dq = S p) c
  | GoMax p => slot_ready rolling_max_deques_slots id (fun dq => dq_cap dq = S p) c
  | GoStd _ | GoZscore _ | GoCorr _ | GoBeta _ | GoCrossAbove | GoCrossBelow => True
  end.

Definition grad_valid (op : GradOp) : Prop :=
  match op with
  | GoEma p | GoSma p | GoLag p | GoStd p | GoZscore p | GoCorr p | GoBeta p | GoMin p | GoMax p =>
      (0 < Z.of_nat p < 2 ^ 31)%Z
  | GoEmaAlpha | GoCrossAbove | GoCrossBelow => True
  end.

(** A runtime call leaves the interpreter's cache alone. *)
Definition grad_run (m : Ctx -> Res ((D * D) * Ctx)) : G (D:=D) (L:=L) VG :=
  fun s => '(out, c) <- m (g_ctx s);; Ok (of_pair out, MkGrad c (stateful_cache s)).

Definition param_ok (param_id : Z) (c : Ctx) : Prop :=
  (0 <= param_id < Z.of_nat (gradient_param_count c))%Z.

Lemma CheckedGradientParam_ok param_id (c : Ctx) :
  param_ok param_id c -> CheckedGradientParam c param_id = Ok (Z.to_nat param_id).
Proof.
  intros Hp. unfold param_ok in Hp. unfold CheckedGradientParam.
  destruct (Z.ltb_spec param_id 0); [lia|].
  by destruct (Z.leb_spec (Z.of_nat (gradient_param_count c)) param_id); [lia|].
Qed.

Lemma size_of_period_small p : (0 < Z.of_nat p < 2 ^ 31)%Z -> size_of_period (Z.of_nat p) = p.
Proof. intros Hp. unfold size_of_period. by rewrite u64_period, Nat2Z.id by lia. Qed.

(** ** Two slots *)

Lemma with_grad_slot_ext {S T A} (sl : Slots (NodeStates D L) S) (gl : Slots (Sensitivities D L) T)
  id k (f f' : S -> T -> Res (A * S * T)) c :
  slot_ready sl id (fun st => forall g, f st g = f' st g) c ->
  with_grad_slot sl gl id k f c = with_grad_slot sl gl id k f' c.
Proof.
  intros Hf. unfold with_grad_slot, at_Z, at_idx. destruct (id <? 0)%Z; [done|].
  destruct (_ !! Z.to_nat id) as [st|] eqn:E; [|done]. cbn [rbind].
  destruct (GradientSlot c _ k) as [i|]; [|done]. cbn [rbind].
  destruct (_ !! i) as [g|]; [|done]. cbn [rbind]. by rewrite (Hf st E).
Qed.

(** The result of the body, packed. *)
Lemma with_grad_slot_map {S T A B} (sl : Slots (NodeStates D L) S) (gl : Slots (Sensitivities D L) T)
  id k (f : S -> T -> Res (A * S * T)) (h : A -> B) c :
  with_grad_slot sl gl id k (fun st g => '(a, st, g) <- f st g;; Ok (h a, st, g)) c =
    ('(a, c) <- with_grad_slot sl gl id k f c;; Ok (h a, c)).
Proof.
  unfold with_grad_slot. destruct (at_Z _ _ id) as [st|]; [|done]. cbn [rbind].
  destruct (GradientSlot c _ k) as [i|]; [|done]. cbn [rbind].
  destruct (at_idx _ _ i) as [g|]; [|done]. cbn [rbind].
  by destruct (f st g) as [[[a st'] g']|].
Qed.

Definition packed {S T} (f : S -> T -> Res ((D * D) * S * T)) (st : S) (g : T) : Res (VG * S * T) :=
  '(out, st, g) <- f st g;; Ok (of_pair out, st, g).

Lemma on_slots_parity {S T} (sl : Slots (NodeStates D L) S) (gl : Slots (Sensitivities D L) T)
  id param_id f f' (s : GradState D L) :
  param_ok param_id (g_ctx s) ->
  slot_ready sl id (fun st => forall g, f' st g = packed f st g) (g_ctx s) ->
  on_slots (Z.to_nat param_id) sl gl id f' s = grad_run (with_grad sl gl id param_id f) s.
Proof.
  intros Hp Hf. unfold on_slots, g_run, grad_run, with_grad.
  rewrite CheckedGradientParam_ok by done. cbn [rbind].
  rewrite (with_grad_slot_ext sl gl id _ f' (packed f)) by exact Hf. unfold packed.
  rewrite with_grad_slot_map. by destruct (with_grad_slot sl gl id _ f (g_ctx s)) as [[out c]|].
Qed.

(** ** Steps *)

Lemma ema_forward_step x alpha period (st : EMAState D) g :
  e_period st = period ->
  ema_forward x alpha st g =
    packed (ema_alpha_grad_step (vg_value x) (vg_gradient x) (vg_value alpha) (vg_gradient alpha) period) st g.
Proof.
  intros Hp. unfold ema_forward, packed, ema_alpha_grad_step, of_pair.
  destruct st as [v a p i]. simpl in *. subst. by destruct i.
Qed.

Lemma sma_forward_step p x (st g : RingStatsState D L) :
  (0 < Z.of_nat p < 2 ^ 31)%Z -> ring_ready p st ->
  sma_forward p x st g = packed (sma_grad_step (vg_value x) (vg_gradient x) (Z.of_nat p)) st g.
Proof.
  intros Hp Hr. unfold sma_forward, packed, sma_grad_step. rewrite size_of_period_small by done.
  rewrite RingStatsPush_prepared by (lia || done).
  destruct (RingStatsPushPrepared st _) as [st'|]; [|done]. cbn [rbind].
  destruct (RingStatsPush g p _) as [g'|]; [|done]. cbn [rbind]. by destruct (RingStatsFull st').
Qed.

Lemma LagPush_prepared p x (st : LagState D) :
  0 < p -> lag_ready p st -> LagPush st p x = LagPushPrepared st x.
Proof.
  intros Hp [Hc Hl]. unfold LagPush, LagPushPrepared, LagPrepare.
  rewrite decide_True by done. rewrite Hc, Hl. by destruct (Nat.eqb_spec p 0); [lia|].
Qed.

Lemma lag_forward_step p x (st g : LagState D) :
  (0 < Z.of_nat p < 2 ^ 31)%Z -> lag_ready p st ->
  lag_forward p x st g = packed (lag_grad_step (vg_value x) (vg_gradient x) (Z.of_nat p)) st g.
Proof.
  intros Hp Hr. unfold lag_forward, packed, lag_grad_step. rewrite size_of_period_small by done.
  destruct (LagValue st) as [v|]; [|done]. cbn [rbind]. destruct (LagValue g) as [w|]; [|done].
  cbn [rbind]. rewrite LagPush_prepared by (lia || done).
  destruct (LagPushPrepared st _) as [st'|]; [|done]. cbn [rbind].
  by destruct (LagPush g p _) as [g'|].
Qed.

Lemma cross_forward_parity before now id x y (s : GradState D L) :
  (v <~ g_run (with_node cross_slots id (cross_step before now (vg_value x) (vg_value y)));;
   g_lift (Ok (MkVG v (fint 0)))) s =
  grad_run (fun c => '(v, c) <- jit_rt_cross before now id (vg_value x) (vg_value y) c;;
                     Ok ((v, fint 0), c)) s.
Proof.
  unfold g_run, grad_run, jit_rt_cross.
  rewrite (with_node_ext cross_slots id _ (fun st =>
    if negb (c_initialized st) then Ok (fint 0, MkCross (vg_value x) (vg_value y) true)
    else let crossed := before (prev_a st) (prev_b st) && now (vg_value x) (vg_value y) in
         Ok (fbool crossed, MkCross (vg_value x) (vg_value y) true))).
  - by destruct (with_node _ _ _ _) as [[v c]|].
  - intros st _. unfold cross_step. by destruct (c_initialized st).
Qed.

Lemma extremum_forward_parity dqs idxs rings update updateP id param_id p x (s : GradState D L) :
  (forall c v, slots_get dqs (slots_set idxs v c) = slots_get dqs c) ->
  (forall dq idx v, dq_cap dq = S p -> update dq idx p v = updateP dq idx v) ->
  (0 < Z.of_nat p < 2 ^ 31)%Z -> param_ok param_id (g_ctx s) ->
  slot_ready dqs id (fun dq => dq_cap dq = S p) (g_ctx s) ->
  extremum_forward (Z.to_nat param_id) dqs idxs rings update id p x s =
    grad_run (jit_rt_extremum_grad dqs idxs rings updateP id (vg_value x) (vg_gradient x)
                (Z.of_nat p) param_id) s.
Proof.
  intros Hsep Hup Hp Hpar Hr. unfold extremum_forward, grad_run, jit_rt_extremum_grad, on_slots, g_run.
  rewrite CheckedGradientParam_ok by done. cbn [rbind]. rewrite size_of_period_small by done.
  destruct (with_node idxs id (fun idx => Ok (idx, idx)) (g_ctx s)) as [[idx c1]|] eqn:E1; [|done].
  cbn [rbind g_ctx stateful_cache].
  apply (with_idx_dqs dqs idxs Hsep) in E1.
  rewrite (with_grad_slot_ext dqs rings id _ _ (fun dq ring =>
     '(out, dq, idx, ring) <-
        extremum_grad_step updateP (vg_value x) (vg_gradient x) p dq idx ring;;
     Ok ((out, idx), dq, ring)) c1).
  2: { intros dq Hdq ring. rewrite E1 in Hdq. unfold extremum_grad_step.
       by rewrite Hup by (by apply Hr). }
  destruct (with_grad_slot dqs rings id _ _ c1) as [[r c2]|]; [|done]. cbn [rbind g_ctx stateful_cache].
  by destruct (with_node idxs id _ c2) as [[u c3]|].
Qed.

(** On a prepared slot the two are the same. *)
Lemma grad_op_parity op id param_id x y (s : GradState D L) :
  grad_valid op -> grad_ready op id (g_ctx s) -> param_ok param_id (g_ctx s) ->
  grad_interpret op id (Z.to_nat param_id) x y s = grad_run (grad_compiled op id param_id x y) s.
Proof.
  intros Hv Hr Hp. unfold grad_interpret, grad_compiled. destruct x as [xv xg], y as [yv yg].
  destruct op; simpl in Hv, Hr.
  - apply on_slots_parity; [done|]. intros st Hst g. by apply (ema_forward_step (MkVG xv xg)), Hr.
  - apply on_slots_parity; [done|]. intros st Hst g. by apply (ema_forward_step (MkVG xv xg) (MkVG yv yg)), Hr.
  - apply on_slots_parity; [done|]. intros st Hst g. by apply (sma_forward_step _ (MkVG xv xg)), Hr.
  - apply on_slots_parity; [done|]. intros st Hst g. by apply (lag_forward_step _ (MkVG xv xg)), Hr.
  - unfold jit_rt_rolling_std_grad, RollingStdOrZscoreGradStep.
    rewrite size_of_period_small by done.
    by apply (on_slots_parity rolling_std_slots rolling_std_sensitivity_slots id param_id
      (std_grad_step xv xg period false)).
  - unfold jit_rt_zscore_grad, RollingStdOrZscoreGradStep.
    rewrite size_of_period_small by done.
    by apply (on_slots_parity zscore_slots zscore_sensitivity_slots id param_id
      (std_grad_step xv xg period true)).
  - unfold jit_rt_rolling_corr_grad. rewrite size_of_period_small by done. by apply on_slots_parity.
  - unfold jit_rt_rolling_beta_grad. rewrite size_of_period_small by done. by apply on_slots_parity.
  - apply extremum_forward_parity; try done. intros. by apply UpdateRollingMin_prepared.
  - apply extremum_forward_parity; try done. intros. by apply UpdateRollingMax_prepared.
  - by apply (cross_forward_parity _ _ id (MkVG xv xg) (MkVG yv yg)).
  - by apply (cross_forward_parity _ _ id (MkVG xv xg) (MkVG yv yg)).
Qed.

(** ** What an entry point changes *)

(** The slots of its node, and sensitivities. *)
Record grad_frame (id : Z) (c c' : Ctx) : Prop := {
  gf_only : only_at id c c';
  gf_count : gradient_param_count c' = gradient_param_count c }.

Lemma grad_frame_trans id c1 c2 c3 : grad_frame id c1 c2 -> grad_frame id c2 c3 -> grad_frame id c1 c3.
Proof. intros [O1 C1] [O2 C2]. split; [by eapply only_at_trans|congruence]. Qed.

Lemma with_node_frame {S A} (sl : Slots (NodeStates D L) S) `{!Local sl} id (f : S -> Res (A * S)) c a c' :
  with_node sl id f c = Ok (a, c') -> grad_frame id c c'.
Proof.
  intros Hw. split; [by eapply with_node_only_at|]. unfold with_node in Hw. inv_res.
  destruct x0 as [a' s']. by inv_res.
Qed.

Lemma with_grad_slot_frame {S T A} (sl : Slots (NodeStates D L) S) `{!Local sl}
  (gl : Slots (Sensitivities D L) T) id k (f : S -> T -> Res (A * S * T)) c a c' :
  with_grad_slot sl gl id k f c = Ok (a, c') -> grad_frame id c c'.
Proof.
  unfold with_grad_slot. intros Hw. inv_res. destruct x2 as [[a' st'] g']. inv_res.
  split; [|done]. split; [|done|done]. intros k' Hk. simpl. by apply local_view.
Qed.

Lemma with_grad_frame {S T A} (sl : Slots (NodeStates D L) S) `{!Local sl}
  (gl : Slots (Sensitivities D L) T) id param_id (f : S -> T -> Res (A * S * T)) c a c' :
  with_grad sl gl id param_id f c = Ok (a, c') -> grad_frame id c c'.
Proof. unfold with_grad. intros Hw. inv_res. by eapply with_grad_slot_frame. Qed.

Lemma extremum_grad_frame dqs idxs rings update id xv xg p param_id c (r : D * D) c' :
  Local dqs -> Local idxs ->
  jit_rt_extremum_grad dqs idxs rings update id xv xg p param_id c = Ok (r, c') -> grad_frame id c c'.
Proof.
  intros Hd Hi Hw. unfold jit_rt_extremum_grad in Hw. apply bind_Ok in Hw as (k & _ & Hw).
  apply bind_Ok in Hw as ([idx c1] & H1 & Hw). apply bind_Ok in Hw as ([w c2] & H2 & Hw).
  apply bind_Ok in Hw as ([u c3] & H3 & Hw). injection Hw as _ <-.
  apply with_node_frame in H1, H3; [|done|done]. apply with_grad_slot_frame in H2; [|done].
  eauto using grad_frame_trans.
Qed.

Lemma grad_op_frame op id param_id x y c r c' :
  grad_compiled op id param_id x y c = Ok (r, c') -> grad_frame id c c'.
Proof.
  destruct x as [xv xg], y as [yv yg].
  destruct op; unfold grad_compiled; intros Hw;
    try (eapply with_grad_frame; [|exact Hw]; apply _);
    try (eapply extremum_grad_frame; [| |exact Hw]; apply _).
  - unfold jit_rt_cross_above_grad in Hw. inv_res. destruct x as [v c1]. inv_res.
    eapply (with_node_frame cross_slots). eassumption.
  - unfold jit_rt_cross_below_grad in Hw. inv_res. destruct x as [v c1]. inv_res.
    eapply (with_node_frame cross_slots). eassumption.
Qed.

(** Readiness depends only on the slots of the node. *)
Lemma grad_ready_view op id (c c' : Ctx) :
  node_view (Z.to_nat id) (nodes c') = node_view (Z.to_nat id) (nodes c) ->
  grad_ready op id c -> grad_ready op id c'.
Proof.
  unfold node_view. intros Hv. injection Hv as V1 V2 V3 V4 V5 V6 V7 V8 V9 V10 V11 V12 V13 V14.
  destruct op; simpl; unfold slot_ready; simpl; intros Hr; try done;
    (rewrite V1 || rewrite V2 || rewrite V6 || rewrite V8 || rewrite V9); exact Hr.
Qed.

Lemma with_grad_slot_ready {S T A} (sl : Slots (NodeStates D L) S) `{!GetSet sl}
  (gl : Slots (Sensitivities D L) T) (P : S -> Prop) id k (f : S -> T -> Res (A * S * T)) c a c' :
  (forall st g a st' g', P st -> f st g = Ok (a, st', g') -> P st') ->
  slot_ready sl id P c -> with_grad_slot sl gl id k f c = Ok (a, c') -> slot_ready sl id P c'.
Proof.
  intros Hf HP Hw. unfold with_grad_slot, at_Z, at_idx in Hw. destruct (id <? 0)%Z; [done|].
  destruct (slots_get sl (nodes c) !! Z.to_nat id) as [st|] eqn:E; [|done]. cbn [rbind] in Hw.
  destruct (GradientSlot c _ k) as [i|]; [|done]. cbn [rbind] in Hw.
  destruct (_ !! i) as [g|]; [|done]. cbn [rbind] in Hw.
  destruct (f st g) as [[[a' st'] g']|] eqn:Ef; [|done]. cbn [rbind] in Hw. injection Hw as <- <-.
  intros st2. simpl. rewrite get_set, list_lookup_insert_eq by (by eapply lookup_lt_Some).
  intros [= <-]. eapply Hf; [by apply HP|exact Ef].
Qed.

Lemma with_grad_ready {S T A} (sl : Slots (NodeStates D L) S) `{!GetSet sl}
  (gl : Slots (Sensitivities D L) T) (P : S -> Prop) id param_id (f : S -> T -> Res (A * S * T)) c a c' :
  (forall st g a st' g', P st -> f st g = Ok (a, st', g') -> P st') ->
  slot_ready sl id P c -> with_grad sl gl id param_id f c = Ok (a, c') -> slot_ready sl id P c'.
Proof. unfold with_grad. intros Hf HP Hw. inv_res. by eapply (with_grad_slot_ready sl). Qed.

Lemma ema_grad_step_ready xv xg al ag period (st : EMAState D) (g : D) a st' g' :
  ema_alpha_grad_step xv xg al ag period st g = Ok (a, st', g') -> e_period st' = period.
Proof. unfold ema_alpha_grad_step. destruct (negb _); by intros [= _ <- _]. Qed.

Lemma sma_grad_step_ready p xv xg period (st g : RingStatsState D L) a st' g' :
  0 < p -> ring_ready p st -> sma_grad_step xv xg period st g = Ok (a, st', g') -> ring_ready p st'.
Proof.
  intros Hp Hr Hs. unfold sma_grad_step in Hs. apply bind_Ok in Hs as (st1 & H1 & Hs).
  apply bind_Ok in Hs as (g1 & _ & Hs). injection Hs as _ <- _.
  by eapply RingStatsPushPrepared_ready.
Qed.

Lemma lag_grad_step_ready p xv xg period (st g : LagState D) a st' g' :
  0 < p -> lag_ready p st -> lag_grad_step xv xg period st g = Ok (a, st', g') -> lag_ready p st'.
Proof.
  intros Hp Hr Hs. unfold lag_grad_step in Hs. apply bind_Ok in Hs as (v & H1 & Hs).
  apply bind_Ok in Hs as (w & _ & Hs). apply bind_Ok in Hs as (st1 & H2 & Hs).
  apply bind_Ok in Hs as (g1 & _ & Hs). injection Hs as _ <- _.
  apply (lag_step_ready p xv st st1 v Hr). rewrite lag_step_parity, H1 by done. simpl. by rewrite H2.
Qed.

Lemma extremum_grad_ready dqs idxs rings update id xv xg p q param_id c (r : D * D) c' :
  GetSet dqs -> (forall c v, slots_get dqs (slots_set idxs v c) = slots_get dqs c) ->
  (forall dq idx x v dq' idx', update dq idx x = Ok (v, dq', idx') -> dq_cap dq' = dq_cap dq) ->
  slot_ready dqs id (fun dq => dq_cap dq = q) c ->
  jit_rt_extremum_grad dqs idxs rings update id xv xg p param_id c = Ok (r, c') ->
  slot_ready dqs id (fun dq => dq_cap dq = q) c'.
Proof.
  intros Hgs Hsep Hup Hr Hw. unfold jit_rt_extremum_grad in Hw. apply bind_Ok in Hw as (k & _ & Hw).
  apply bind_Ok in Hw as ([idx c1] & H1 & Hw). apply bind_Ok in Hw as ([w c2] & H2 & Hw).
  apply bind_Ok in Hw as ([u c3] & H3 & Hw). injection Hw as _ <-.
  apply (with_idx_dqs dqs idxs Hsep) in H1, H3. unfold slot_ready. rewrite H3.
  eapply (with_grad_slot_ready dqs); [| |exact H2].
  - intros dq ring a dq' ring' Hdq Hs. apply bind_Ok in Hs as ([[[o dq1] i1] ring1] & Hs & He).
    injection He as _ <- _. unfold extremum_grad_step in Hs.
    apply bind_Ok in Hs as ([[v dq2] i2] & Hu & Hs). apply bind_Ok in Hs as (ring2 & _ & Hs).
    apply Hup in Hu. destruct (_ <? _)%Z; [injection Hs as _ <- _ _; congruence|].
    apply bind_Ok in Hs as ([t w'] & _ & Hs). destruct (_ =? 0); [done|].
    apply bind_Ok in Hs as (g & _ & Hs). injection Hs as _ <- _ _. congruence.
  - intros dq. rewrite H1. apply Hr.
Qed.

(** An entry point leaves its slot ready. *)
Lemma grad_op_ready op id param_id x y c r c' :
  grad_valid op -> grad_ready op id c -> grad_compiled op id param_id x y c = Ok (r, c') ->
  grad_ready op id c'.
Proof.
  intros Hv Hr Hw. destruct x as [xv xg], y as [yv yg].
  destruct op; simpl in Hv, Hr; unfold grad_compiled, grad_ready in *; try done.
  - eapply (with_grad_ready ema_slots); [| |exact Hw]; [|exact Hr]. intros. by eapply ema_grad_step_ready.
  - eapply (with_grad_ready ema_slots); [| |exact Hw]; [|exact Hr]. intros. by eapply ema_grad_step_ready.
  - eapply (with_grad_ready sma_slots); [| |exact Hw]; [|exact Hr].
    intros. eapply sma_grad_step_ready; [lia|eassumption..].
  - eapply (with_grad_ready lag_slots); [| |exact Hw]; [|exact Hr].
    intros. eapply lag_grad_step_ready; [lia|eassumption..].
  - eapply extremum_grad_ready; [..|exact Hr|exact Hw]; [done|done|].
    intros dq idx x w dq' idx' Hu. apply bind_Ok in Hu as (u & _ & Hu). by eapply MonoUpdate_cap.
  - eapply extremum_grad_ready; [..|exact Hr|exact Hw]; [done|done|].
    intros dq idx x w dq' idx' Hu. apply bind_Ok in Hu as (u & _ & Hu). by eapply MonoUpdate_cap.
Qed.
End parity.
