(* ===== verification/GradEmitFacts.v ===== *)
(** * What emission does in the gradient mode

    The facts of [IrFacts] and [EmitFacts] for the code and the emitters of
    [GradientCompiler]: code runs and verifies in sequence; every emitter
    takes its registers from [next_reg] on and adds only registers it has
    just defined to the caches; and the value of an operand ends up in an
    instruction. *)

From S2P Require Import Prelude Errors Arith Ast SignalProgram Context Interpreter Lowered Ir JitCompiler GradientCompiler IrFacts EmitFacts JitFacts JitCompilerFacts.

Section code.
Context {D L : Type} `{Machine D L}.
Implicit Types (a b c : GCode D) (v : Value D) (s : GradMachine D L) (scope : gset nat).

Lemma gapp_GRet a : gapp a GRet = a.
Proof. induction a; simpl; congruence. Qed.

Lemma gexec_gapp market p a b s :
  gexec market p (gapp a b) s = rbind (gexec market p a s) (gexec market p b).
Proof.
  revert s. induction a as [|i k IH|dst gdst cond t _ tv tg e _ ev eg k IH]; intros s; [done| |]; simpl.
  - rewrite rbind_assoc. destruct (gstep market p i s); [apply IH|done].
  - rewrite rbind_assoc. destruct (read_bit _ cond) as [bit|]; [|done]. simpl.
    rewrite rbind_assoc. destruct (if bit then _ else _) as [s'|]; [|done]. simpl.
    rewrite rbind_assoc. destruct (read (env (gm s')) _) as [d|]; [|done]. simpl.
    rewrite rbind_assoc. destruct (read (env (gm s')) _) as [g|]; [apply IH|done].
Qed.

Lemma gverify_gapp scope a b scope' :
  gverify scope (gapp a b) = Some scope' <->
  exists mid, gverify scope a = Some mid /\ gverify mid b = Some scope'.
Proof.
  revert scope. induction a as [|i k IH|dst gdst cond t _ tv tg e _ ev eg k IH]; intros scope; simpl.
  - split; [by exists scope|]. by intros (? & [= <-] & ?).
  - destruct (match i with GScalar c => _ | _ => _ end) as [sc|]; [|split; [done|by intros (? & ? & ?)]].
    destruct (dominated _ _); [apply IH|]. split; [done|by intros (? & ? & ?)].
  - destruct (gverify scope t) as [st|], (gverify scope e) as [se|];
      try (split; [done|by intros (? & ? & ?)]).
    destruct (_ && _); [apply IH|]. split; [done|by intros (? & ? & ?)].
Qed.

Lemma gverify_scalar scope (cc : Code D) k scope' :
  gverify scope (GSeq (GScalar cc) k) = Some scope' <->
  exists mid, verify scope cc = Some mid /\ gverify mid k = Some scope'.
Proof.
  simpl. destruct (verify scope cc) as [mid|]; [|split; [done|by intros (? & ? & ?)]].
  rewrite union_empty_l_L. split; [by exists mid|]. by intros (? & [= <-] & ?).
Qed.

(** An instruction of this mode. *)
Definition is_scalar (i : GInstr D) : bool := match i with GScalar _ => true | _ => false end.

Lemma gverify_instr scope i k scope' : is_scalar i = false ->
  gverify scope (GSeq i k) = Some scope' <->
  (forall r, r ∈ ginstr_uses i -> r ∈ scope) /\ gverify (list_to_set (ginstr_def i) ∪ scope) k = Some scope'.
Proof.
  intros Hi. simpl. destruct i; [done| | | |]; (
    match goal with |- context [dominated ?s ?us] => destruct (dominated s us) eqn:Hd end;
    [rewrite dominated_spec in Hd; by split; [|intros [_ ?]]
    |split; [done|]; intros [Hu _]; apply dominated_spec in Hu; simpl in *; congruence]).
Qed.

Lemma gverify_GDiamond scope dst gdst cond (t : GCode D) tv tg (e : GCode D) ev eg k scope' :
  gverify scope (GDiamond dst gdst cond t tv tg e ev eg k) = Some scope' <->
  exists st se, gverify scope t = Some st /\ gverify scope e = Some se /\ cond ∈ scope /\
    (forall r, r ∈ uses tv ++ uses tg -> r ∈ st) /\ (forall r, r ∈ uses ev ++ uses eg -> r ∈ se) /\
    gverify ({[dst; gdst]} ∪ scope) k = Some scope'.
Proof.
  cbn [gverify]. destruct (gverify scope t) as [st|], (gverify scope e) as [se|];
    try (split; [done|by intros (? & ? & ? & ? & ?)]).
  split.
  - destruct (_ && _) eqn:Hd; [|done]. split_andb. intros Hv. exists st, se.
    rewrite <- !dominated_spec. split_and!; try done. rewrite dominated_spec in *. set_solver.
  - intros (st' & se' & [= <-] & [= <-] & Hc & Ht & He & Hv).
    rewrite <- dominated_spec in Ht, He. rewrite Ht, He.
    assert (Hd : dominated scope [cond] = true) by (apply dominated_spec; set_solver).
    by rewrite Hd.
Qed.

(** ** The registers code defines *)

Fixpoint gdefs_within (lo hi : nat) (c : GCode D) : Prop :=
  match c with
  | GRet => True
  | GSeq i k =>
      (match i with GScalar cc => defs_within lo hi cc
       | _ => Forall (fun r => lo <= r < hi) (ginstr_def i) end) /\ gdefs_within lo hi k
  | GDiamond dst gdst _ t _ _ e _ _ k =>
      lo <= dst < hi /\ lo <= gdst < hi /\ gdefs_within lo hi t /\ gdefs_within lo hi e /\
      gdefs_within lo hi k
  end.

Lemma gdefs_within_gapp lo hi a b :
  gdefs_within lo hi (gapp a b) <-> gdefs_within lo hi a /\ gdefs_within lo hi b.
Proof. induction a; simpl; naive_solver. Qed.

Lemma gdefs_within_weaken lo hi lo' hi' c :
  lo' <= lo -> hi <= hi' -> gdefs_within lo hi c -> gdefs_within lo' hi' c.
Proof.
  intros Hlo Hhi. induction c; simpl; [done| |].
  - intros [Hi Hc]. split; [|by auto].
    destruct i; [by eapply defs_within_weaken| | | |]; (eapply Forall_impl; [exact Hi|]); simpl; lia.
  - intros (Hd & Hg & Ht & He & Hc). split_and!; auto; lia.
Qed.

Lemma gverify_scope lo hi c scope scope' :
  gdefs_within lo hi c -> gverify scope c = Some scope' ->
  scope ⊆ scope' /\ forall r, r ∈ scope' -> r ∈ scope \/ lo <= r < hi.
Proof.
  revert scope. induction c as [|i k IH|dst gdst cond t _ tv tg e _ ev eg k IH]; intros scope.
  - intros _ [= <-]. split; [done|by left].
  - intros [Hi Hk] Hv. destruct (is_scalar i) eqn:Hs.
    + destruct i; try done. apply gverify_scalar in Hv as (mid & Hv1 & Hv2).
      destruct (verify_scope _ _ _ _ _ Hi Hv1) as [S1 N1], (IH _ Hk Hv2) as [S2 N2].
      split; [set_solver|]. intros r [Hr|Hr]%N2; [by apply N1|by right].
    + apply gverify_instr in Hv as [_ Hv]; [|done]. destruct (IH _ Hk Hv) as [Hsub Hnew].
      split; [set_solver|]. intros r [Hr|Hr]%Hnew; [|by right].
      rewrite elem_of_union, elem_of_list_to_set in Hr. destruct Hr as [Hr|Hr]; [|by left]. right.
      destruct i; try done; by eapply Forall_forall in Hi.
  - intros (Hd & Hg & _ & _ & Hk) Hv.
    apply gverify_GDiamond in Hv as (? & ? & _ & _ & _ & _ & _ & Hv).
    destruct (IH _ Hk Hv) as [Hsub Hnew]. split; [set_solver|].
    intros r [Hr|Hr]%Hnew; [|by right]. rewrite !elem_of_union, !elem_of_singleton in Hr.
    destruct Hr as [[->| ->]|Hr]; [by right|by right|by left].
Qed.
End code.

Section emission.
Context {D L : Type} `{Machine D L}.
Variable ids : gset Z.
Variable cfg : Config.
Implicit Types (g : GradCodegen D) (v : Value D) (vg : ValueGradientIr D) (e : Expr D).

Notation next g := (next_reg (gc g)).

(** A value and its gradient are below [n]. *)
Definition vg_below (n : nat) vg : Prop := below n (ir_value vg) /\ below n (ir_gradient vg).
(** Both are registers that have just been defined. *)
Definition vg_new (lo hi : nat) vg : Prop := newreg lo hi (ir_value vg) /\ newreg lo hi (ir_gradient vg).

Record gwf g : Prop := {
  gw_scalar : wf (gc g);
  gw_stateful : forall id vg, stateful_grad_emit_cache g !! id = Some vg -> vg_new 0 (next g) vg;
  gw_signals : forall name vg, signal_value_gradients g !! name = Some vg -> vg_below (next g) vg }.

Record ggrows g (code : GCode D) g' : Prop := {
  gg_scalar : grows ∅ (gc g) Ret (gc g');
  gg_code : gdefs_within (next g) (next g') code;
  gg_stateful : forall id vg, stateful_grad_emit_cache g' !! id = Some vg ->
    stateful_grad_emit_cache g !! id = Some vg \/ id ∈ ids /\ vg_new (next g) (next g') vg;
  gg_keys : forall id, is_Some (stateful_grad_emit_cache g !! id) ->
    is_Some (stateful_grad_emit_cache g' !! id);
  gg_signals : signal_value_gradients g' = signal_value_gradients g }.

Lemma gg_reg g code g' : ggrows g code g' -> next g <= next g'.
Proof. intros G. apply (g_reg _ _ _ _ (gg_scalar _ _ _ G)). Qed.

Lemma vg_new_le lo lo' hi hi' vg : lo' <= lo -> hi <= hi' -> vg_new lo hi vg -> vg_new lo' hi' vg.
Proof. intros Hl Hh [(r & E1 & ?) (s & E2 & ?)]. split; [exists r|exists s]; (split; [done|lia]). Qed.

Lemma vg_new_below lo hi vg : vg_new lo hi vg -> vg_below hi vg.
Proof. intros [Hv Hg]. split; by eapply newreg_below. Qed.

Lemma ggrows_refl g : ggrows g GRet g.
Proof. split; auto using grows_refl. done. Qed.

Lemma ggrows_trans g1 c1 g2 c2 g3 :
  ggrows g1 c1 g2 -> ggrows g2 c2 g3 -> ggrows g1 (gapp c1 c2) g3.
Proof.
  intros G1 G2. pose proof (gg_reg _ _ _ G1) as R1. pose proof (gg_reg _ _ _ G2) as R2.
  destruct G1 as [S1 C1 H1 K1 V1], G2 as [S2 C2 H2 K2 V2]. split; [| | |auto|congruence].
  - exact (grows_trans _ _ _ _ _ _ S1 S2).
  - apply gdefs_within_gapp.
    split; [eapply gdefs_within_weaken; [| |exact C1]|eapply gdefs_within_weaken; [| |exact C2]]; lia.
  - intros id vg [Hv|(Hid & Hn)]%H2; [destruct (H1 _ _ Hv) as [|[Hid Hn]]; [by left|]|];
      right; (split; [done|]); (eapply vg_new_le; [| |exact Hn]; lia).
Qed.

Definition gemits {A} (n : nat) (B : nat -> A -> Prop) (m : EmitG (D:=D) A) : Prop :=
  forall g a code g', n <= next g -> gwf g -> m g = Ok (a, code, g') ->
  ggrows g code g' /\ gwf g' /\ B (next g') a.

Lemma gemits_gret {A} n (B : nat -> A -> Prop) a : (forall k, n <= k -> B k a) -> gemits n B (gret a).
Proof. intros HB g a' code g' Hn Hwf [= <- <- <-]. eauto using ggrows_refl. Qed.

Lemma gemits_gthrow {A} n (B : nat -> A -> Prop) msg : gemits n B (gthrow msg).
Proof. by intros g a code g' _ _ [=]. Qed.

Lemma gbind_Ok {A B} (m : EmitG (D:=D) A) f g (b : B) code g' :
  gbind m f g = Ok (b, code, g') <->
  exists a c1 g1 c2, m g = Ok (a, c1, g1) /\ f a g1 = Ok (b, c2, g') /\ code = gapp c1 c2.
Proof.
  unfold gbind. split.
  - intros Hm. apply bind_Ok in Hm as ([[a c1] g1] & Hm & Hf).
    apply bind_Ok in Hf as ([[b' c2] g2] & Hf & He). injection He as <- <- <-. eauto 10.
  - intros (a & c1 & g1 & c2 & -> & Hf & ->). simpl. by rewrite Hf.
Qed.

Lemma gemits_bind {A A'} n (B : nat -> A -> Prop) (C : nat -> A' -> Prop) m f :
  gemits n B m -> (forall n' a, n <= n' -> B n' a -> gemits n' C (f a)) -> gemits n C (gbind m f).
Proof.
  intros Hm Hf g b code g' Hn Hwf Hb. apply gbind_Ok in Hb as (a & c1 & g1 & c2 & H1 & H2 & ->).
  destruct (Hm _ _ _ _ Hn Hwf H1) as (G1 & W1 & B1). pose proof (gg_reg _ _ _ G1).
  destruct (Hf (next g1) a ltac:(lia) B1 _ _ _ _ (le_n _) W1 H2) as (G2 & W2 & C2).
  split_and!; [by eapply ggrows_trans|done|done].
Qed.

Lemma gemits_weaken {A} n (B C : nat -> A -> Prop) m :
  gemits n B m -> (forall hi a, n <= hi -> B hi a -> C hi a) -> gemits n C m.
Proof.
  intros Hm HBC g a code g' Hg Hwf Ha. destruct (Hm g a code g' Hg Hwf Ha) as (G & W & HB).
  pose proof (gg_reg _ _ _ G). split_and!; [done|done|]. apply HBC; [lia|done].
Qed.

(** The scalar part of the context changes. *)
Lemma gwf_scalar g cg' : gwf g -> wf cg' -> next g <= next_reg cg' ->
  gwf (MkGradCodegen cg' (stateful_grad_emit_cache g) (signal_value_gradients g)).
Proof.
  intros [Ws Wc Wv] W Hn. split; simpl; [done| |].
  - intros id vg Hv. eapply vg_new_le; [| |by eapply Wc]; lia.
  - intros name vg Hv. destruct (Wv _ _ Hv). split; by eapply below_le.
Qed.

Lemma scalar_Ok {A} (m : EmitM (D:=D) A) g a code g' :
  scalar m g = Ok (a, code, g') <->
  exists c cg', m (gc g) = Ok (a, c, cg') /\ code = GSeq (GScalar c) GRet /\
    g' = MkGradCodegen cg' (stateful_grad_emit_cache g) (signal_value_gradients g).
Proof.
  unfold scalar. split.
  - intros Hm. apply bind_Ok in Hm as ([[a' c] cg] & Hm & [= <- <- <-]). eauto 10.
  - intros (c & cg' & -> & -> & ->). done.
Qed.

Lemma ggrows_scalar g c cg' :
  grows ∅ (gc g) c cg' ->
  ggrows g (GSeq (GScalar c) GRet)
    (MkGradCodegen cg' (stateful_grad_emit_cache g) (signal_value_gradients g)).
Proof.
  intros G. split; simpl; auto.
  - by eapply grows_code.
  - split; [|done]. by apply G.
Qed.

Lemma gemits_scalar {A} n (B : nat -> A -> Prop) (m : EmitM (D:=D) A) :
  emits ∅ n B m -> gemits n B (scalar m).
Proof.
  intros Hm g a code g' Hn Hwf (c & cg' & Ha & -> & ->)%scalar_Ok.
  destruct (Hm _ _ _ _ Hn (gw_scalar _ Hwf) Ha) as (G & W & HB).
  split_and!; [by apply ggrows_scalar| |done]. apply gwf_scalar; [done|done|]. by apply G.
Qed.

(** *** The instructions of this mode *)

Lemma gemits_fresh n : gemits n (fun hi r => n <= r < hi) (scalar fresh).
Proof.
  intros g a code g' Hn Hwf (c & cg' & [= <- <- <-] & -> & ->)%scalar_Ok.
  split; [|split; [|simpl; lia]].
  - apply ggrows_scalar. by split; simpl; auto.
  - apply gwf_scalar; [done|by apply wf_next, Hwf|simpl; lia].
Qed.

Lemma gemits_gemit_fresh (i : GInstr D) g k :
  is_scalar i = false -> (forall r, r ∈ ginstr_def i -> k <= r < next g) ->
  gwf g -> gdefs_within k (next g) (GSeq i GRet).
Proof.
  intros Hi Hd Hwf. simpl. split; [|done]. destruct i; [done| | | |]; by apply Forall_forall.
Qed.

(** Registers taken, and one instruction that defines them. *)
Lemma gemits_define {A} n (B : nat -> A -> Prop) (mk : nat -> GInstr D) (f : nat -> A) :
  (forall dst, is_scalar (mk dst) = false /\ ginstr_def (mk dst) = [dst]) ->
  (forall r hi, n <= r < hi -> B hi (f r)) ->
  gemits n B (gbind (scalar fresh) (fun dst => gbind (gemit (mk dst)) (fun _ => gret (f dst)))).
Proof.
  intros Hmk HB g a code g' Hn Hwf Hm.
  apply gbind_Ok in Hm as (r & c1 & g1 & c2 & H1 & H2 & ->).
  apply gbind_Ok in H2 as (u & c3 & g2 & c4 & [= <- <- <-] & [= <- <- <-] & ->).
  destruct (gemits_fresh n _ _ _ _ Hn Hwf H1) as (G & W & Hr).
  assert (Hr0 : r = next g /\ next g1 = S (next g)).
  { apply scalar_Ok in H1 as (c & cg' & [= <- <- <-] & -> & ->). done. }
  destruct (Hmk r) as [Hs Hd]. split_and!; [|done|by apply HB].
  replace (gapp c1 (gapp (GSeq (mk r) GRet) GRet)) with (gapp c1 (GSeq (mk r) GRet)) by done.
  destruct G as [S1 C1 Ca K1 V1]. split; [done| |done|done|done].
  apply gdefs_within_gapp. split; [done|]. apply gemits_gemit_fresh; [done| |done].
  rewrite Hd. intros r' ->%list_elem_of_singleton. lia.
Qed.

Lemma gemits_CreateICmpEQ n id : gemits n any (CreateICmpEQ id).
Proof. by apply (gemits_define n any (fun dst => GParamEq dst id) (fun dst => dst)). Qed.

Lemma gemits_CreateSelect n b x y : gemits n (newreg n) (CreateSelect b x y).
Proof.
  apply (gemits_define n _ (fun dst => GSelect dst b x y) Reg); [done|].
  intros r hi Hr. by exists r.
Qed.

Lemma gemits_call_grad_helper n eff args : gemits n (vg_new n) (call_grad_helper eff args).
Proof.
  intros g a code g' Hn Hwf Hm.
  apply gbind_Ok in Hm as (r & c1 & g1 & c2 & H1 & H2 & ->).
  apply gbind_Ok in H2 as (rg & c3 & g2 & c4 & H2 & H3 & ->).
  apply gbind_Ok in H3 as (u & c5 & g3 & c6 & [= <- <- <-] & [= <- <- <-] & ->).
  apply scalar_Ok in H1 as (c & cg' & [= <- <- <-] & -> & ->).
  apply scalar_Ok in H2 as (c & cg' & [= <- <- <-] & -> & ->). simpl. split_and!.
  - split; simpl; auto.
    + split; simpl; auto.
    + split_and!; try done. repeat constructor; lia.
  - apply gwf_scalar; [done| |simpl; lia]. pose proof (gw_scalar _ Hwf) as W.
    apply (wf_next _ 0) in W. apply (wf_next _ (next_node_id (gc g))) in W. exact W.
  - split; [exists (next g)|exists (S (next g))]; simpl; (split; [done|lia]).
Qed.

Lemma grad_cached_Ok id m g vg code g' :
  gbind m (grad_cache_stateful id) g = Ok (vg, code, g') ->
  exists g1, m g = Ok (vg, code, g1) /\
    g' = if (0 <? id)%Z
         then MkGradCodegen (gc g1) (<[id := vg]> (stateful_grad_emit_cache g1)) (signal_value_gradients g1)
         else g1.
Proof.
  intros (a & c1 & g1 & c2 & H1 & H2 & ->)%gbind_Ok. injection H2 as <- <- <-.
  exists g1. by rewrite gapp_GRet.
Qed.

Lemma gemits_grad_cached n id m :
  id ∈ ids -> (forall k, n <= k -> gemits k (vg_new k) m) ->
  gemits n vg_below (gbind m (grad_cache_stateful id)).
Proof.
  intros Hid Hm g vg code g' Hn Hwf Hb. apply grad_cached_Ok in Hb as (g1 & H1 & ->).
  destruct (Hm _ Hn _ _ _ _ (le_n _) Hwf H1) as (G & W & Hv).
  destruct (Z.ltb_spec 0 id) as [Hp|]; [|split_and!; [done|done|by eapply vg_new_below]].
  destruct G as [S C Ca K V], W as [WS WC WV]. simpl. split_and!; [| |by eapply vg_new_below].
  - split; simpl; auto.
    + intros i w. rewrite lookup_insert_Some. intros [[<- <-]|[_ Hw]]; [by right|by apply Ca].
    + intros i Hi. destruct (decide (id = i)) as [->|]; [by rewrite lookup_insert_eq|].
      rewrite lookup_insert_ne by done. auto.
  - split; simpl; auto. intros i w. rewrite lookup_insert_Some.
    intros [[_ <-]|[_ Hw]]; [|by eapply WC]. eapply vg_new_le; [| |exact Hv]; lia.
Qed.
End emission.

(** Follow the binds of an emitter of this mode. *)
Ltac gemit_step :=
  match goal with
  | |- gemits _ _ _ (gbind _ (fun v => grad_cache_stateful _ v)) => eapply gemits_grad_cached; [by cbv beta in *; subst|intros]
  | |- gemits _ _ _ (gbind _ _) => eapply gemits_bind; [|intros]
  | |- gemits _ _ _ (gthrow _) => apply gemits_gthrow
  | |- gemits _ _ _ (gret _) => apply gemits_gret; intros
  | |- gemits _ _ _ (CreateICmpEQ _) => apply gemits_CreateICmpEQ
  | |- gemits _ _ _ (CreateSelect _ _ _) => apply gemits_CreateSelect
  | |- gemits _ _ _ (call_grad_helper _ _) => apply gemits_call_grad_helper
  | |- gemits _ _ _ (scalar (GetNodeId _)) => apply gemits_scalar, emits_GetNodeId; [done]
  | |- gemits _ _ _ (scalar (window_period _ _)) => apply gemits_scalar, emits_window_period
  | |- gemits _ _ _ (scalar (CreateFCmp _ _ _)) => apply gemits_scalar, emits_build_reg; [done]
  | |- gemits _ _ _ (scalar (EmitBinary _ _ _)) => apply gemits_scalar, emits_EmitBinary
  | |- gemits _ _ _ (scalar _) => apply gemits_scalar; emit_step
  end.

Section emitters.
Context {D L : Type} `{Machine D L}.
Variable ids : gset Z.
Variable cfg : Config.
Implicit Types (g : GradCodegen D) (v : Value D) (vg : ValueGradientIr D).

Lemma newreg_below_le lo hi hi' v : hi <= hi' -> newreg lo hi v -> below hi' v.
Proof. intros Hle Hn. eapply below_le; [exact Hle|]. by eapply newreg_below. Qed.

Lemma vg_below_pair n v w : below n v -> below n w -> vg_below n (MkVGIr v w).
Proof. by split. Qed.

Lemma vg_below_zero n v : below n v -> vg_below n (MkVGIr v zero).
Proof. split; [done|]. apply below_Const. Qed.

Hint Resolve vg_below_pair vg_below_zero below_Const : core.
Hint Extern 2 (below _ _) => (eapply newreg_below_le; [|eassumption]; lia) : core.
Hint Extern 2 (below _ _) => (eapply below_le; [|eassumption]; lia) : core.

Lemma gemits_EmitGradUnary n k (x : ValueGradientIr D) : vg_below n x -> gemits ids n vg_below (EmitGradUnary k x).
Proof.
  intros [Hv Hg]. destruct k; simpl; repeat gemit_step; [|auto].
  split; by eapply below_le.
Qed.

Lemma gemits_EmitGradBinary n k (l r : ValueGradientIr D) : gemits ids n vg_below (EmitGradBinary k l r).
Proof.
  destruct l as [lv lg], r as [rv rg].
  unfold EmitGradBinary. destruct k; cbv iota; repeat gemit_step; auto.
Qed.

Lemma gemits_EmitGradAbs n (x : ValueGradientIr D) : gemits ids n vg_below (EmitGradAbs x).
Proof. unfold EmitGradAbs. repeat gemit_step. auto. Qed.
Lemma gemits_EmitGradLog n (x : ValueGradientIr D) : gemits ids n vg_below (EmitGradLog x).
Proof. unfold EmitGradLog. repeat gemit_step. auto. Qed.
Lemma gemits_EmitGradSqrt n (x : ValueGradientIr D) : gemits ids n vg_below (EmitGradSqrt x).
Proof. unfold EmitGradSqrt. repeat gemit_step. auto. Qed.

Section calls.
Variable EmitChild : Expr D -> EmitG (D:=D) (ValueGradientIr D).
Definition gchild_emits (e : Expr D) : Prop := forall n, gemits ids n vg_below (EmitChild e).

Lemma gemits_garg0 {A} n (B : nat -> A -> Prop) args k :
  Forall gchild_emits args -> (forall e, gchild_emits e -> gemits ids n B (k e)) ->
  gemits ids n B (garg0 args k).
Proof. intros Hc Hk. destruct args as [|e args]; [by intros ? ? ? ? ? ? [=]|]. apply Forall_cons in Hc as [? _]. by apply Hk. Qed.

Lemma gemits_garg1 {A} n (B : nat -> A -> Prop) args k :
  Forall gchild_emits args -> (forall e, gchild_emits e -> gemits ids n B (k e)) ->
  gemits ids n B (garg1 args k).
Proof.
  intros Hc Hk. destruct args as [|d [|e args]]; try by intros ? ? ? ? ? ? [=].
  apply Forall_cons in Hc as [_ [? _]%Forall_cons]. by apply Hk.
Qed.

Lemma gemits_garg2 {A} n (B : nat -> A -> Prop) args k :
  Forall gchild_emits args -> (forall e, gchild_emits e -> gemits ids n B (k e)) ->
  gemits ids n B (garg2 args k).
Proof.
  intros Hc Hk. destruct args as [|c [|d [|e args]]]; try by intros ? ? ? ? ? ? [=].
  apply Forall_cons in Hc as [_ [_ [? _]%Forall_cons]%Forall_cons]. by apply Hk.
Qed.

Lemma gemits_EmitGradCall n id eff (args : list (Value D)) :
  (0 < id)%Z -> id ∈ ids -> gemits ids n vg_below (EmitGradCall id eff args).
Proof. intros Hp Hid. unfold EmitGradCall. gemit_step; [gemit_step|]. repeat gemit_step. Qed.

(** Arguments one after the other. *)
Ltac gchild :=
  repeat first
    [ apply gemits_garg0; [done|intros ? ?]
    | apply gemits_garg1; [done|intros ? ?]
    | apply gemits_garg2; [done|intros ? ?]
    | match goal with Hc : gchild_emits ?e |- gemits _ _ _ (EmitChild ?e) => apply Hc end
    | apply gemits_EmitGradCall; done
    | gemit_step ].

Lemma gemits_EmitGradFunction n (quote : EmitM (D:=D) (Value D)) name (args : list (Expr D)) id :
  (((name =? "mid")%string || (name =? "bid")%string || (name =? "ask")%string || (name =? "spread")%string) = true ->
   emits ∅ n below quote) -> Forall gchild_emits args ->
  (if IsStatefulOp name then (0 < id)%Z /\ id ∈ ids else (id <= 0)%Z) ->
  gemits ids n vg_below (EmitGradFunction EmitChild quote name args id).
Proof.
  intros Hq Hc Hid. unfold EmitGradFunction.
  destruct (_ || _) eqn:Hquote.
  { eapply gemits_bind; [by apply gemits_scalar, Hq|]. intros n' v Hn Hv. gemit_step. by auto. }
  clear Hq Hquote. destruct (name =? "abs")%string.
  { unfold EmitGradMath. gchild. apply gemits_EmitGradAbs. }
  destruct (name =? "log")%string.
  { unfold EmitGradMath. gchild. apply gemits_EmitGradLog. }
  destruct (name =? "sqrt")%string.
  { unfold EmitGradMath. gchild. apply gemits_EmitGradSqrt. }
  destruct (IsStatefulOp name) eqn:Hs.
  - destruct Hid as [Hp Hid].
    destruct (_ =? _)%string; [unfold EmitGradEmaAlpha; gchild|].
    destruct (_ =? _)%string; [unfold EmitGradEma; gchild|].
    destruct (_ || _); [unfold EmitGradWindow; gchild; destruct ((_ || _) && _); gchild|].
    destruct (_ || _); [unfold EmitGradPair; gchild|].
    destruct (_ =? _)%string; [unfold EmitGradKalman1d; gchild|].
    destruct (_ || _); [unfold EmitGradCross; gchild|]. gemit_step.
  - do 6 (match goal with
          | |- context [if ?b then _ else _] => destruct b eqn:?; [stateful_name|]
          end). gemit_step.
Qed.
End calls.

Lemma EmitValueGradientExpr_call loc name args id sym g :
  EmitValueGradientExpr cfg (FunctionCall loc name args id sym) g =
    match (if (0 <? id)%Z then stateful_grad_emit_cache g !! id else None) with
    | Some vg => Ok (vg, GRet, g)
    | None => EmitGradFunction (EmitValueGradientExpr cfg) (EmitExpr cfg (FunctionCall loc name args id sym)) name args id g
    end.
Proof. reflexivity. Qed.

(** The quotes of the market are the only trees given to [EmitExpr]. *)
Lemma emits_quote n loc name args id sym : (id <= 0)%Z ->
  ((name =? "mid")%string || (name =? "bid")%string || (name =? "ask")%string || (name =? "spread")%string) = true ->
  emits ∅ n below (EmitExpr cfg (FunctionCall loc name args id sym)).
Proof.
  intros Hid Hname cg v code cg' Hn Hwf Hm. rewrite EmitExpr_call in Hm.
  destruct (Z.ltb_spec 0 id); [lia|]. unfold EmitCall in Hm. rewrite Hname in Hm.
  by eapply emits_EmitQuote.
Qed.

(** Code apart, as a conditional's arm. *)
Lemma gemits_arm n (m : EmitG (D:=D) (ValueGradientIr D)) g vg code g' :
  gemits ids n vg_below m -> n <= next_reg (gc g) -> gwf g -> m g = Ok (vg, code, g') ->
  ggrows ids g GRet g' /\ gdefs_within (next_reg (gc g)) (next_reg (gc g')) code /\ gwf g' /\
  vg_below (next_reg (gc g')) vg.
Proof.
  intros Hm Hn Hwf Ha. destruct (Hm _ _ _ _ Hn Hwf Ha) as ([S C Ca K V] & W & B).
  split_and!; try done; by split.
Qed.

Definition after_cmp g : GradCodegen D :=
  MkGradCodegen (MkCodegen (S (next_reg (gc g))) (program_market_field_cache (gc g))
    (stateful_emit_cache (gc g)) (signal_values (gc g)) (next_node_id (gc g)))
    (stateful_grad_emit_cache g) (signal_value_gradients g).

(** The pieces of a conditional's emission. *)
Lemma GConditional_Ok loc c t e g vg code g' :
  EmitValueGradientExpr cfg (Conditional loc c t e) g = Ok (vg, code, g') ->
  exists cv cc g1 tv tc g3 ev ec g4,
    EmitValueGradientExpr cfg c g = Ok (cv, cc, g1) /\
    EmitValueGradientExpr cfg t (after_cmp g1) = Ok (tv, tc, g3) /\
    EmitValueGradientExpr cfg e g3 = Ok (ev, ec, g4) /\
    let n := next_reg (gc g1) in let k := next_reg (gc g4) in
    vg = MkVGIr (Reg k) (Reg (S k)) /\
    code = gapp cc (GSeq (GScalar (Seq (ICmp n UNE (ir_value cv) (Const (fint 0))) Ret))
             (GSeq (GScalar Ret) (GSeq (GScalar Ret)
             (GDiamond k (S k) n tc (ir_value tv) (ir_gradient tv) ec (ir_value ev) (ir_gradient ev) GRet)))) /\
    g' = after_cmp (after_cmp g4).
Proof.
  intros Hm. simpl in Hm. apply gbind_Ok in Hm as (cv & cc & g1 & c2 & H1 & H2 & ->).
  apply gbind_Ok in H2 as (b & c3 & g2 & c4 & Hb & H2 & ->).
  apply scalar_Ok in Hb as (cb & cgb & [= <- <- <-] & -> & ->).
  apply gbind_Ok in H2 as ([tv tc] & c5 & g3 & c6 & H3 & H2 & ->).
  apply gbind_Ok in H2 as ([ev ec] & c7 & g4 & c8 & H4 & H2 & ->).
  apply gbind_Ok in H2 as (phi & c9 & g5 & c10 & H5 & H2 & ->).
  apply scalar_Ok in H5 as (c' & cg5 & [= <- <- <-] & -> & ->).
  apply gbind_Ok in H2 as (gphi & c11 & g6 & c12 & H6 & [= <- <- <-] & ->).
  apply scalar_Ok in H6 as (c' & cg6 & [= <- <- <-] & -> & ->).
  unfold gin_block in H3, H4. apply bind_Ok in H3 as ([[tv' tc'] g3'] & H3 & E3).
  apply bind_Ok in H4 as ([[ev' ec'] g4'] & H4 & E4).
  injection E3 as -> -> <- ->. injection E4 as -> -> <- ->. simpl in *.
  exists cv, cc, g1, tv, tc, g3, ev, ec, g4. unfold after_cmp. simpl. split_and!; done.
Qed.

Lemma gwf_after_cmp g : gwf g -> gwf (after_cmp g).
Proof. intros W. apply gwf_scalar; [done| |simpl; lia]. apply wf_next, W. Qed.

Lemma ggrows_after_cmp g (code : GCode D) : gdefs_within (next_reg (gc g)) (S (next_reg (gc g))) code ->
  ggrows ids g code (after_cmp g).
Proof. intros Hd. split; simpl; auto. split; simpl; auto. Qed.

(** Both arms of a conditional and the phis behind them. *)
Lemma ggrows_diamond (g2 g3 g4 : GradCodegen D) n tc tv tg ec ev eg :
  ggrows ids g2 GRet g3 -> gdefs_within (next_reg (gc g2)) (next_reg (gc g3)) tc ->
  ggrows ids g3 GRet g4 -> gdefs_within (next_reg (gc g3)) (next_reg (gc g4)) ec ->
  let k := next_reg (gc g4) in
  ggrows ids g2 (GDiamond k (S k) n tc tv tg ec ev eg GRet) (after_cmp (after_cmp g4)).
Proof.
  intros G3 D3 G4 D4 k. pose proof (gg_reg _ _ _ _ G3) as R3. pose proof (gg_reg _ _ _ _ G4) as R4.
  pose proof (ggrows_trans _ _ _ _ _ _ G3 G4) as G34.
  pose proof (ggrows_trans _ _ _ _ _ _ G34 (ggrows_after_cmp g4 GRet I)) as G5.
  destruct (ggrows_trans _ _ _ _ _ _ G5 (ggrows_after_cmp (after_cmp g4) GRet I)) as [S6 C6 Ca6 K6 V6].
  split; try done. simpl. split_and!; try done; try lia.
  - eapply gdefs_within_weaken; [| |exact D3]; simpl; lia.
  - eapply gdefs_within_weaken; [| |exact D4]; simpl; lia.
Qed.

Lemma gemits_EmitValueGradientExpr e :
  ids_in ids e -> forall n, gemits ids n vg_below (EmitValueGradientExpr cfg e).
Proof.
  induction e as [loc x|loc name|loc name i|loc k e IH|loc k l r IHl IHr|loc name args i sym IH
    |loc c t e IHc IHt IHe] using Expr_rect'; intros Hids n; simpl in Hids.
  - apply gemits_gret. intros. split; apply below_Const.
  - intros g a code g' Hn Hwf Hm. simpl in Hm. destruct (_ !! _) eqn:E; [|done].
    injection Hm as <- <- <-. split; [apply ggrows_refl|split; [done|by eapply gw_signals]].
  - simpl. destruct (_ <? _)%Z; repeat gemit_step. auto.
  - simpl. gemit_step; [by apply IH|]. by apply gemits_EmitGradUnary.
  - destruct Hids. simpl. gemit_step; [by apply IHl|]. gemit_step; [by apply IHr|].
    apply gemits_EmitGradBinary.
  - destruct Hids as [Hid Hargs%ids_in_args]. intros g a code g' Hn Hwf Hm.
    rewrite EmitValueGradientExpr_call in Hm.
    destruct (if (0 <? i)%Z then _ else _) as [vg|] eqn:E.
    + injection Hm as <- <- <-. split; [apply ggrows_refl|split; [done|]].
      destruct (0 <? i)%Z; [|done]. eapply vg_new_below. by eapply gw_stateful.
    + eapply gemits_EmitGradFunction; [| |exact Hid|exact Hn|exact Hwf|exact Hm].
      * intros Hq. apply emits_quote; [|done]. destruct (IsStatefulOp name) eqn:Hs; [stateful_name|done].
      * clear -IH Hargs. induction IH; constructor; apply Forall_cons in Hargs as [? ?]; auto.
        intros n. auto.
  - destruct Hids as (Hc & Ht & He). intros g vg code g' Hn Hwf Hm.
    apply GConditional_Ok in Hm as (cv & cc & g1 & tv & tc & g3 & ev & ec & g4 & H1 & H3 & H4 & H2).
    cbv zeta in H2. destruct H2 as (-> & -> & ->).
    destruct (IHc Hc n _ _ _ _ Hn Hwf H1) as (G1 & W1 & B1).
    pose proof (gwf_after_cmp _ W1) as W2.
    destruct (gemits_arm 0 _ _ _ _ _ (IHt Ht 0) ltac:(lia) W2 H3) as (G3 & D3 & W3 & B3).
    destruct (gemits_arm 0 _ _ _ _ _ (IHe He 0) ltac:(lia) W3 H4) as (G4 & D4 & W4 & B4).
    split; [|split; [by apply gwf_after_cmp, gwf_after_cmp|split; apply below_Reg; simpl; lia]].
    eapply ggrows_trans; [exact G1|].
    change (GSeq (GScalar ?a) (GSeq (GScalar ?b) ?k)) with (gapp (GSeq (GScalar a) GRet) (GSeq (GScalar b) k)).
    eapply ggrows_trans; [apply (ggrows_after_cmp g1); simpl; split_and!; [|done..]; repeat constructor; lia|].
    destruct (ggrows_diamond _ _ _ (next_reg (gc g1)) _ (ir_value tv) (ir_gradient tv) _
      (ir_value ev) (ir_gradient ev) G3 D3 G4 D4) as [S5 C5 Ca5 K5 V5].
    split; try done.
Qed.
End emitters.
