(* ===== verification/GradientCompilerFacts.v ===== *)
(** * Compiled gradient programs compute what the forward interpreter computes

    The simulation of [JitCompilerFacts] for the gradient mode.  Where only
    scalar instructions are emitted, the lemmas of that file are used; the
    cache of stateful results holds a value and its gradient, defined by one
    call, so that finding the value in scope is enough to know both. *)

From S2P Require Import Prelude Errors Arith Ast SymbolTable SignalProgram Rolling Context Interpreter JitRuntime Gradient ForwardGradient Lowered Ir JitCompiler GradientCompiler JitFacts SafetyFacts IrFacts EmitFacts JitCompilerFacts GradEmitFacts GradOpFacts.

(** ** Operands end up in instructions *)

Section needs.
Context {D L : Type} `{Machine D L}.
Variable ids : gset Z.
Implicit Types (g : GradCodegen D) (v : Value D).

(** If the code a computation emits verifies, the value is in scope. *)
Definition gneeds {A} v (m : EmitG (D:=D) A) : Prop :=
  forall g a code g' scope scope',
    gwf g -> below (next_reg (gc g)) v -> m g = Ok (a, code, g') ->
    gverify scope code = Some scope' -> forall r, r ∈ uses v -> r ∈ scope.

(** The result is in scope behind the code that is emitted. *)
Definition defines (m : EmitM (D:=D) (Value D)) : Prop :=
  forall cg a code cg' scope scope', m cg = Ok (a, code, cg') ->
    verify scope code = Some scope' -> forall r, r ∈ uses a -> r ∈ scope'.

Lemma defines_build (mk : nat -> Instr D) : (forall dst, instr_def (mk dst) = [dst]) -> defines (build mk).
Proof.
  intros Hd cg a code cg' scope scope' Hm Hv r Hr. rewrite build_eq in Hm. injection Hm as <- <- <-.
  apply verify_Seq in Hv as [_ [= <-]]. rewrite Hd. simpl in *. set_solver.
Qed.

Lemma defines_bind {A} (m : EmitM (D:=D) A) f : (forall a, defines (f a)) -> defines (bindE m f).
Proof.
  intros Hf cg a code cg' scope scope' Hm Hv.
  apply bindE_Ok in Hm as (b & c1 & cg1 & c2 & H1 & H2 & ->).
  apply verify_capp in Hv as (mid & _ & Hv). by eapply Hf.
Qed.

Lemma defines_EmitBinary kind l r : defines (EmitBinary kind l r).
Proof.
  destruct kind; unfold EmitBinary;
    repeat first [by apply defines_build | apply defines_bind; intros ?].
Qed.

Lemma gneeds_bind_l {A B} v (m : EmitG (D:=D) A) (f : A -> EmitG (D:=D) B) :
  gneeds v m -> gneeds v (gbind m f).
Proof.
  intros Hm g b code g' scope scope' Hwf Hb He Hv.
  apply gbind_Ok in He as (a & c1 & g1 & c2 & H1 & _ & ->).
  apply gverify_gapp in Hv as (mid & Hv & _). by eapply Hm.
Qed.

(** A register in scope behind new code, but older than it, was in scope
    before. *)
Lemma gscope_before g code g' scope scope' v :
  ggrows ids g code g' -> gverify scope code = Some scope' -> below (next_reg (gc g)) v ->
  (forall r, r ∈ uses v -> r ∈ scope') -> forall r, r ∈ uses v -> r ∈ scope.
Proof.
  intros G Hv Hb Hu r Hr. destruct (gverify_scope _ _ _ _ _ (gg_code _ _ _ _ G) Hv) as [_ Hnew].
  destruct (Hnew r (Hu r Hr)) as [|Hge]; [done|]. specialize (Hb r Hr). lia.
Qed.

Lemma gneeds_bind_r {A B} (P : nat -> A -> Prop) v (m : EmitG (D:=D) A) (f : A -> EmitG (D:=D) B) :
  gemits ids 0 P m -> (forall a, gneeds v (f a)) -> gneeds v (gbind m f).
Proof.
  intros Hm Hf g b code g' scope scope' Hwf Hb He Hv.
  apply gbind_Ok in He as (a & c1 & g1 & c2 & H1 & H2 & ->).
  apply gverify_gapp in Hv as (mid & Hv1 & Hv2).
  destruct (Hm _ _ _ _ (Nat.le_0_l _) Hwf H1) as (G & W & _).
  eapply gscope_before; [exact G|exact Hv1|exact Hb|].
  eapply Hf; [exact W| |exact H2|exact Hv2]. eapply below_le; [|exact Hb]. by eapply gg_reg.
Qed.

Lemma gneeds_scalar {A} v (m : EmitM (D:=D) A) : needs v m -> gneeds v (scalar m).
Proof.
  intros Hm g a code g' scope scope' Hwf Hb (c & cg' & Ha & -> & ->)%scalar_Ok Hv.
  apply gverify_scalar in Hv as (mid & Hv & _). eapply Hm; [|exact Hb|exact Ha|exact Hv]. apply Hwf.
Qed.

Lemma gneeds_throw {A} v msg : gneeds v (gthrow (A:=A) msg).
Proof. by intros g a code g' scope scope' _ _ [=]. Qed.

Lemma gneeds_call v eff vs : v ∈ vs -> gneeds v (call_grad_helper eff vs).
Proof.
  intros Hin g a code g' scope scope' Hwf Hb Hm Hv r Hr. unfold call_grad_helper in Hm.
  apply gbind_Ok in Hm as (d1 & c1 & g1 & c2 & H1 & H2 & ->).
  apply gbind_Ok in H2 as (d2 & c3 & g2 & c4 & H2 & H3 & ->).
  apply gbind_Ok in H3 as (u & c5 & g3 & c6 & [= <- <- <-] & [= <- <- <-] & ->).
  apply scalar_Ok in H1 as (c & cg' & [= <- <- <-] & -> & ->).
  apply scalar_Ok in H2 as (c & cg' & [= <- <- <-] & -> & ->). simpl gapp in Hv.
  apply gverify_scalar in Hv as (m1 & [= <-] & Hv). apply gverify_scalar in Hv as (m2 & [= <-] & Hv).
  apply gverify_instr in Hv as [Hu _]; [|done]. apply Hu. simpl.
  apply list_elem_of_In, in_concat. exists (uses v).
  split; [apply in_map|]; by apply list_elem_of_In.
Qed.

Lemma gneeds_EmitGradCall v id eff vs : (0 < id)%Z -> v ∈ vs -> gneeds v (EmitGradCall id eff vs).
Proof.
  intros Hid Hv. unfold EmitGradCall. eapply (gneeds_bind_r (fun _ id' => id' = id)).
  - by apply gemits_scalar, emits_GetNodeId.
  - intros id'. by apply gneeds_bind_l, gneeds_call.
Qed.
End needs.

(** ** The simulation *)

Section simulation.
Context {D L : Type} `{Machine D L}.
Variable cfg : Config.
Variable market : MarketState D.
(** The operator at each node id, a context for the parameters, and the
    parameter of the gradient. *)
Variable Γ : gmap Z GradOp.
Variable c0 : SignalContext D L.
Variable param_id : Z.
(** The ids of the signal being evaluated. *)
Variable ids : gset Z.
Implicit Types (g : GradCodegen D) (v : Value D) (vg : ValueGradientIr D) (s : GradMachine D L)
  (gs : GradState D L) (out : ValueGradient D) (scope : gset nat).

Notation target := (Z.to_nat param_id).
Notation next g := (next_reg (gc g)).
Notation sagree := (agree market ∅ c0 ∅).
Notation ssim := (sim market ∅ c0 ∅ None).

(** The context is ready for the operators it is typed with. *)
Record gctx_typed (c : SignalContext D L) : Prop := {
  gct_ready : forall id op, Γ !! id = Some op -> (0 < id)%Z /\ grad_valid op /\ grad_ready op id c;
  gct_count : gradient_param_count c = gradient_param_count c0;
  gct_params : params c = params c0;
  gct_num : num_params c = num_params c0 }.

Hypothesis param_in : param_ok param_id c0.

Lemma typed_param c : gctx_typed c -> param_ok param_id c.
Proof. intros T. unfold param_ok. by rewrite (gct_count _ T). Qed.

Definition reads (env : gmap nat (RegValue D)) vg out : Prop :=
  read env (ir_value vg) = Ok (vg_value out) /\ read env (ir_gradient vg) = Ok (vg_gradient out).

Definition in_scope scope v : Prop := forall r, r ∈ uses v -> r ∈ scope.

Record gagree g scope s gs : Prop := {
  ga_wf : gwf g;
  ga_scalar : sagree (gc g) scope (gm s) (MkEval (g_ctx gs) ∅);
  ga_typed : gctx_typed (g_ctx gs);
  ga_hit : forall id vg, id ∈ ids -> stateful_grad_emit_cache g !! id = Some vg ->
    in_scope scope (ir_value vg) ->
    exists out, stateful_cache gs !! id = Some out /\ reads (env (gm s)) vg out;
  ga_miss : forall id, is_Some (stateful_cache gs !! id) -> is_Some (stateful_grad_emit_cache g !! id) }.

(** What running code for a value and its gradient leaves behind; [X] is a
    node whose cached result may be replaced. *)
Record gran (X : option Z) g s gs vg code g' scope' s' gs' out : Prop := {
  gr_exec : gexec market param_id code s = Ok s';
  gr_agree : gagree g' scope' s' gs';
  gr_keep : forall r, r < next g -> env (gm s') !! r = env (gm s) !! r;
  gr_low : js_low (js (gm s')) = js_low (js (gm s));
  gr_out : outputs (gm s') = outputs (gm s);
  gr_grads : gradients s' = gradients s;
  gr_cache : forall id o, Some id <> X -> stateful_cache gs !! id = Some o ->
    stateful_cache gs' !! id = Some o;
  gr_value : reads (env (gm s')) vg out }.

(** [m] emits code for what [i] evaluates, the values [held] being known. *)
Definition gsim (X : option Z) (held : list (Value D * D)) (m : EmitG (D:=D) (ValueGradientIr D))
  (i : G (D:=D) (L:=L) (ValueGradient D)) : Prop :=
  forall g vg code g' scope scope' s gs out gs',
    gagree g scope s gs -> holds held (gc g) (gm s) -> m g = Ok (vg, code, g') ->
    gverify scope code = Some scope' -> in_scope scope' (ir_value vg) ->
    i gs = Ok (out, gs') -> exists s', gran X g s gs vg code g' scope' s' gs' out.

Local Notation "x <~ m ;; k" := (fun gs => rbind (m gs) (fun '(x, gs) => k gs))
  (at level 20, m at level 99, k at level 200, right associativity).

(** *** Structure *)

Lemma reads_keep n env env' vg out :
  vg_below n vg -> (forall r, r < n -> env' !! r = env !! r) -> reads env vg out -> reads env' vg out.
Proof.
  intros [Bv Bg] Hk [Rv Rg]. unfold reads.
  rewrite (read_keep n env env' _ Bv Hk), (read_keep n env env' _ Bg Hk). done.
Qed.

Lemma holds_keep held (cg cg' : Codegen (D:=D)) (m m' : Machine_state D L) :
  holds held cg m -> next_reg cg <= next_reg cg' ->
  (forall r, r < next_reg cg -> env m' !! r = env m !! r) -> holds held cg' m'.
Proof.
  intros Hh Hn Hk. eapply Forall_impl; [exact Hh|]. intros [w d'] [Hb He].
  split; [by eapply below_le|]. rewrite <- He. by eapply read_keep.
Qed.

Lemma gsim_weaken X held m i : gsim None held m i -> gsim X held m i.
Proof.
  intros Hs g vg code g' scope scope' s gs out gs' Ha Hh Hm Hv Hu Hi.
  destruct (Hs _ _ _ _ _ _ _ _ _ _ Ha Hh Hm Hv Hu Hi) as [s' []]. exists s'. split; auto.
Qed.

Lemma gsim_held X held m i : gsim X [] m i -> gsim X held m i.
Proof.
  intros Hs g vg code g' scope scope' s gs out gs' Ha _. apply Hs; [done|]. by apply Forall_nil.
Qed.

Lemma gsim_ext_m X held m m' i : (forall g, m g = m' g) -> gsim X held m' i -> gsim X held m i.
Proof.
  intros He Hs g vg code g' scope scope' s gs out gs' Ha Hh Hm. rewrite He in Hm. by eapply Hs.
Qed.

Lemma gsim_refine X held m i i' :
  (forall gs r, gctx_typed (g_ctx gs) -> i gs = Ok r -> i' gs = Ok r) ->
  gsim X held m i' -> gsim X held m i.
Proof.
  intros He Hs g vg code g' scope scope' s gs out gs' Ha Hh Hm Hv Hu Hi%He; [|apply Ha].
  by eapply Hs.
Qed.

Lemma gsim_throw X held msg i : gsim X held (gthrow msg) i.
Proof. by intros g vg code g' scope scope' s gs out gs' Ha Hh [=]. Qed.

Lemma gsim_gret X held vg out :
  known held (ir_value vg) (vg_value out) -> known held (ir_gradient vg) (vg_gradient out) ->
  gsim X held (gret vg) (g_lift (Ok out)).
Proof.
  intros Hv Hg g vg' code g' scope scope' s gs out' gs' Ha Hh [= <- <- <-] [= <-] _ [= <- <-].
  exists s. split; try done. split; by eapply known_read.
Qed.

Lemma gsim_bind X held m f i k :
  gsim X held m i -> gemits ids 0 vg_below m -> (forall x, gneeds (ir_value x) (f x)) ->
  (forall x d, gsim X ((ir_value x, vg_value d) :: (ir_gradient x, vg_gradient d) :: held) (f x) (k d)) ->
  gsim X held (gbind m f) (x <~ i;; k x).
Proof.
  intros Hm Hem Hneed Hf g vg code g' scope scope' s gs out gs' Ha Hh He Hv Hu Hi.
  apply gbind_Ok in He as (a & c1 & g1 & c2 & H1 & H2 & ->).
  apply gverify_gapp in Hv as (mid & Hv1 & Hv2). apply bind_Ok in Hi as ([d1 gs1] & Hi1 & Hi2).
  destruct (Hem _ _ _ _ (Nat.le_0_l _) (ga_wf _ _ _ _ Ha) H1) as (G1 & W1 & B1).
  assert (Hu1 : in_scope mid (ir_value a)).
  { intros r Hr. destruct B1 as [B1 _]. by apply (Hneed a _ _ _ _ _ _ W1 B1 H2 Hv2). }
  destruct (Hm _ _ _ _ _ _ _ _ _ _ Ha Hh H1 Hv1 Hu1 Hi1) as [s1 [E1 A1 K1 L1 O1 R1 C1 V1]].
  pose proof (gg_reg _ _ _ _ G1) as N1.
  assert (Hh1 : holds ((ir_value a, vg_value d1) :: (ir_gradient a, vg_gradient d1) :: held) (gc g1) (gm s1)).
  { destruct B1, V1. constructor; [by split|constructor; [by split|by eapply holds_keep]]. }
  destruct (Hf a d1 _ _ _ _ _ _ _ _ _ _ A1 Hh1 H2 Hv2 Hu Hi2) as [s2 [E2 A2 K2 L2 O2 R2 C2 V2]].
  exists s2. split; try congruence; auto.
  - by rewrite gexec_gapp, E1.
  - intros r Hr. rewrite K2; [by apply K1|]. lia.
Qed.

(** *** Code of this mode *)

(** The scalar part of the agreement, behind code that adds registers. *)
Lemma agree_regs (cg cg' : Codegen (D:=D)) scope scope' (m m' : Machine_state D L) c c' :
  sagree cg scope m (MkEval c ∅) -> wf cg' -> next_reg cg <= next_reg cg' ->
  program_market_field_cache cg' = program_market_field_cache cg ->
  (forall r, r ∈ scope' -> r ∈ scope \/ next_reg cg <= r < next_reg cg') ->
  (forall r, r < next_reg cg -> env m' !! r = env m !! r) ->
  c' = js_ctx (js m') -> params c' = params c0 -> num_params c' = num_params c0 ->
  sagree cg' scope' m' (MkEval c' ∅).
Proof.
  intros [W S C T Hh Mi Ma] W' Hn Hm Hs Hk HC Hp Hnp. split; try done.
  - intros r [Hr|Hr]%Hs; [|lia]. specialize (S r Hr). lia.
  - by intros id [d Hd].
  - intros sym f r Hr Hin. rewrite Hm in Hr. destruct (wf_market _ W _ _ Hr) as (r' & [= <-] & Hlt).
    apply Hs in Hin as [Hin|]; [|lia]. destruct (Ma _ _ _ Hr Hin) as (ins & Hi & He).
    exists ins. by rewrite Hk.
Qed.

Lemma gagree_grow g scope s gs code g' scope' s' gs' :
  gagree g scope s gs -> ggrows ids g code g' -> gwf g' -> gverify scope code = Some scope' ->
  (forall r, r < next g -> env (gm s') !! r = env (gm s) !! r) ->
  sagree (gc g') scope' (gm s') (MkEval (g_ctx gs') ∅) -> gctx_typed (g_ctx gs') ->
  (forall id vg, id ∈ ids -> stateful_grad_emit_cache g' !! id = Some vg ->
     vg_new (next g) (next g') vg -> in_scope scope' (ir_value vg) ->
     exists out, stateful_cache gs' !! id = Some out /\ reads (env (gm s')) vg out) ->
  (forall id vg out, stateful_grad_emit_cache g' !! id = Some vg ->
     stateful_grad_emit_cache g !! id = Some vg -> stateful_cache gs !! id = Some out ->
     stateful_cache gs' !! id = Some out) ->
  (forall id, is_Some (stateful_cache gs' !! id) -> is_Some (stateful_grad_emit_cache g' !! id)) ->
  gagree g' scope' s' gs'.
Proof.
  intros [W S T Hh Mi] G W' Hv Hk HS HT Hnew Hold Hmiss. split; try done.
  intros id vg Hid Hc Hu. destruct (gg_stateful _ _ _ _ G _ _ Hc) as [Hc0|[_ Hn]]; [|by eapply Hnew].
  pose proof (vg_new_below _ _ _ (gw_stateful _ W _ _ Hc0)) as B.
  assert (Hu0 : in_scope scope (ir_value vg)).
  { destruct B as [B _]. exact (gscope_before ids _ _ _ _ _ _ G Hv B Hu). }
  destruct (Hh _ _ Hid Hc0 Hu0) as (out & Ho & Hr). exists out.
  split; [by eapply Hold|]. by eapply reads_keep.
Qed.

(** Emission that is not executed adds nothing in scope. *)
Lemma gagree_skip g scope s gs g' :
  gagree g scope s gs -> ggrows ids g GRet g' -> gwf g' -> gagree g' scope s gs.
Proof.
  intros Ha G W'. pose proof (ag_scope _ _ _ _ _ _ _ _ (ga_scalar _ _ _ _ Ha)) as Hs.
  eapply gagree_grow; try exact G; try exact Ha; try done.
  - eapply agree_skip; [apply Ha|apply G|apply W'].
  - apply Ha.
  - intros id vg _ _ [(r & Er & Hr) _] Hu. rewrite Er in Hu.
    specialize (Hs r (Hu r ltac:(by left))). lia.
  - intros id Hi. by apply (gg_keys _ _ _ _ G), (ga_miss _ _ _ _ Ha).
Qed.

(** Code that only computes. *)
Lemma gran_pure X g scope s gs vg code g' scope' env' out :
  gagree g scope s gs -> ggrows ids g code g' -> gwf g' -> gverify scope code = Some scope' ->
  stateful_grad_emit_cache g' = stateful_grad_emit_cache g ->
  program_market_field_cache (gc g') = program_market_field_cache (gc g) ->
  (forall r, r < next g -> env' !! r = env (gm s) !! r) ->
  let s' := set_gm (MkState env' (js (gm s)) (outputs (gm s))) s in
  gexec market param_id code s = Ok s' -> reads env' vg out ->
  gran X g s gs vg code g' scope' s' gs out.
Proof.
  intros Ha G W' Hv Hs Hm Hk s' He Hr. split; try done.
  eapply gagree_grow; try exact G; try exact Ha; try exact Hv; try done.
  - eapply agree_regs; [apply Ha|apply W'|by eapply gg_reg|done| |done|apply Ha|apply Ha|apply Ha].
    destruct (gverify_scope _ _ _ _ _ (gg_code _ _ _ _ G) Hv) as [_ Hn]. apply Hn.
  - apply Ha.
  - intros id vg' _ Hid [(r & Er & Hr') _]. rewrite Hs in Hid.
    destruct (gw_stateful _ (ga_wf _ _ _ _ Ha) _ _ Hid) as [(r' & Er' & ?) _].
    rewrite Er in Er'. injection Er' as <-. lia.
  - intros id Hi. rewrite Hs. by apply Ha.
Qed.

(** A scalar step: its value is known afterwards. *)
Lemma gsim_scalar_bind X held (m : EmitM (D:=D) (Value D)) f i d :
  ssim held m (Interpreter.lift (Ok d)) -> emits ∅ 0 below m ->
  (defines m \/ (forall v, gneeds v (f v)) \/ (forall v, f v = gret (MkVGIr v zero))) ->
  (forall v, gsim X ((v, d) :: held) (f v) i) -> gsim X held (gbind (scalar m) f) i.
Proof.
  intros Hm Hem Hdef Hf g vg code g' scope scope' s gs out gs' Ha Hh He Hv Hu Hi.
  apply gbind_Ok in He as (a & c1 & g1 & c2 & H1 & H2 & ->).
  destruct (gemits_scalar ids 0 _ _ Hem _ _ _ _ (Nat.le_0_l _) (ga_wf _ _ _ _ Ha) H1) as (G1 & W1 & B1).
  apply scalar_Ok in H1 as (c & cg' & H1 & -> & ->). set (g1 := MkGradCodegen cg' _ _) in *.
  simpl gapp in Hv. apply gverify_scalar in Hv as (mid & Hv1 & Hv2).
  assert (Hu1 : in_scope mid a).
  { destruct Hdef as [Hdef|[Hneed|Hret]]; [exact (Hdef _ _ _ _ _ _ H1 Hv1)| |].
    2: { rewrite Hret in H2. injection H2 as <- <- <-. by injection Hv2 as ->. }
    intros r Hr. by apply (Hneed a _ _ _ _ _ _ W1 B1 H2 Hv2). }
  destruct (Hm _ _ _ _ _ _ _ _ _ _ (ga_scalar _ _ _ _ Ha) Hh H1 Hv1 Hu1 eq_refl) as [m1 R1].
  destruct R1 as [E1 A1 K1 L1 O1 C1 V1].
  assert (Hga : gagree g1 mid (set_gm m1 s) gs).
  { eapply gagree_grow; [exact Ha|exact G1|exact W1| |exact K1|exact A1|apply Ha| |done|apply Ha].
    - apply gverify_scalar. by exists mid.
    - intros id vg' _ Hid [(r & Er & Hr') _]. simpl in Hid.
      destruct (gw_stateful _ (ga_wf _ _ _ _ Ha) _ _ Hid) as [(r' & Er' & ?) _].
      rewrite Er in Er'. injection Er' as <-. lia. }
  assert (Hh1 : holds ((a, d) :: held) (gc g1) (gm (set_gm m1 s))).
  { constructor; [by split|]. eapply holds_keep; [exact Hh|by eapply (gg_reg _ _ _ _ G1)|exact K1]. }
  destruct (Hf a _ _ _ _ _ _ _ _ _ _ Hga Hh1 H2 Hv2 Hu Hi) as [s2 [E2 A2 K2 L2 O2 R2 C2 V2]].
  exists s2. pose proof (gg_reg _ _ _ _ G1). simpl in *. split; try congruence; auto.
  - simpl. by rewrite E1.
  - intros r Hr. rewrite K2 by lia. by apply K1.
Qed.

(** *** Leaves and operators without state *)

(** [gsim_scalar_bind] for an instruction whose result is new. *)
Tactic Notation "gscalar" uconstr(l) :=
  eapply gsim_scalar_bind;
  [eapply l|first [apply emits_EmitBinary|repeat emit_step]
  |left; first [by apply defines_build | apply defines_EmitBinary]|intros ?].

Lemma gsim_EmitGradUnary X held x d :
  (ir_value x, vg_value d) ∈ held -> (ir_gradient x, vg_gradient d) ∈ held ->
  gsim X held (EmitGradUnary Minus x) (g_lift (Ok (grad_unary Minus d))).
Proof.
  intros Hv Hg. unfold EmitGradUnary.
  gscalar sim_neg; [exact Hv|]. gscalar sim_neg; [right; exact Hg|].
  apply gsim_gret; left; simpl; set_solver.
Qed.

Lemma gsim_EmitGradBinary X held k (l r : ValueGradientIr D) (dl dr : ValueGradient D) :
  (ir_value l, vg_value dl) ∈ held -> (ir_gradient l, vg_gradient dl) ∈ held ->
  (ir_value r, vg_value dr) ∈ held -> (ir_gradient r, vg_gradient dr) ∈ held ->
  gsim X held (EmitGradBinary k l r) (g_lift (Ok (grad_binary k dl dr))).
Proof.
  destruct l as [lv lg], r as [rv rg], dl as [dlv dlg], dr as [drv drg]. simpl.
  intros Hlv Hlg Hrv Hrg. unfold EmitGradBinary.
  gscalar sim_EmitBinary; [eassumption|eassumption|].
  assert (Hk : forall (w : Value D) d', (w, d') ∈ held -> forall y, known (y :: held) w d').
  { intros w d' Hw y. left. by right. }
  destruct k; try (apply gsim_gret; [left; by left|by right]).
  - gscalar (sim_bin market ∅ c0 ∅ None _ FAdd); [by apply Hk|by apply Hk|].
    apply gsim_gret; left; simpl; set_solver.
  - gscalar (sim_bin market ∅ c0 ∅ None _ FSub); [by apply Hk|by apply Hk|].
    apply gsim_gret; left; simpl; set_solver.
  - gscalar (sim_bin market ∅ c0 ∅ None _ FMul); [left; right; exact Hlg|left; right; exact Hrv|].
    gscalar (sim_bin market ∅ c0 ∅ None _ FMul); [left; right; right; exact Hlv|left; right; right; exact Hrg|].
    gscalar (sim_bin market ∅ c0 ∅ None _ FAdd); [left; right; by left|left; by left|].
    apply gsim_gret; left; simpl; set_solver.
  - gscalar (sim_bin market ∅ c0 ∅ None _ FMul); [left; right; exact Hlg|left; right; exact Hrv|].
    gscalar (sim_bin market ∅ c0 ∅ None _ FMul); [left; right; right; exact Hlv|left; right; right; exact Hrg|].
    gscalar (sim_bin market ∅ c0 ∅ None _ FSub); [left; right; by left|left; by left|].
    gscalar (sim_bin market ∅ c0 ∅ None _ FMul);
      [left; do 4 right; exact Hrv|left; do 4 right; exact Hrv|].
    gscalar (sim_bin market ∅ c0 ∅ None _ FDiv); [left; right; by left|left; by left|].
    apply gsim_gret; left; simpl; set_solver.
Qed.

Lemma gsim_EmitGradLog X held (x : ValueGradientIr D) d :
  (ir_value x, vg_value d) ∈ held -> (ir_gradient x, vg_gradient d) ∈ held ->
  gsim X held (EmitGradLog x) (g_lift (Ok (grad_log d))).
Proof.
  intros Hv Hg. unfold EmitGradLog. gscalar (sim_intrinsic market ∅ c0 ∅ None _ IntrinsicLog); [exact Hv|].
  gscalar (sim_bin market ∅ c0 ∅ None _ FDiv); [left; right; exact Hg|left; right; exact Hv|].
  apply gsim_gret; left; simpl; set_solver.
Qed.

Lemma gsim_EmitGradSqrt X held (x : ValueGradientIr D) d :
  (ir_value x, vg_value d) ∈ held -> (ir_gradient x, vg_gradient d) ∈ held ->
  gsim X held (EmitGradSqrt x) (g_lift (Ok (grad_sqrt d))).
Proof.
  intros Hv Hg. unfold EmitGradSqrt. gscalar (sim_intrinsic market ∅ c0 ∅ None _ IntrinsicSqrt); [exact Hv|].
  gscalar (sim_bin market ∅ c0 ∅ None _ FMul); [by right|left; by left|].
  gscalar (sim_bin market ∅ c0 ∅ None _ FDiv); [left; do 2 right; exact Hg|left; by left|].
  apply gsim_gret; left; simpl; set_solver.
Qed.

Lemma gsim_EmitGradAbs X held (x : ValueGradientIr D) d :
  (ir_value x, vg_value d) ∈ held -> (ir_gradient x, vg_gradient d) ∈ held ->
  gsim X held (EmitGradAbs x) (g_lift (Ok (grad_abs d))).
Proof.
  intros Hv Hg g vg code g' scope scope' s gs out gs' Ha Hh Hm Hver _ [= <- <-].
  destruct (holds_read _ _ _ _ _ Hh Hv) as [Bv Ev], (holds_read _ _ _ _ _ Hh Hg) as [Bg Eg].
  destruct (gemits_EmitGradAbs ids 0 x _ _ _ _ (Nat.le_0_l _) (ga_wf _ _ _ _ Ha) Hm) as (G & W & _).
  cbn in Hm. injection Hm as <- <- <-. set (n := next g) in *.
  set (pos := fgt (vg_value d) (fint 0)). set (neg := flt (vg_value d) (fint 0)).
  set (sign_neg := (if neg then fint (-1) else fint 0) : D).
  set (sign := (if pos then fint 1 else sign_neg) : D).
  eexists. eapply (gran_pure _ _ _ _ _ _ _ _ _
    (<[5 + n := F64 (fmul sign (vg_gradient d))]> (<[4 + n := F64 (fabs (vg_value d))]>
      (<[3 + n := F64 sign]> (<[2 + n := F64 sign_neg]>
        (<[1 + n := I1 neg]> (<[n := I1 pos]> (env (gm s)))))))));
    try exact Ha; try exact Hver; try exact G; try exact W; try done.
  - intros k Hk. rewrite !lookup_insert_ne by lia. reflexivity.
  - simpl. rewrite Ev. simpl. rewrite (read_new n) by (done || lia). rewrite Ev. simpl.
    unfold read_bit, set_gm, set_reg. simpl. rewrite lookup_insert_eq. simpl.
    rewrite !(lookup_insert_ne _ (S (S n)) n), !(lookup_insert_ne _ (S n) n) by lia.
    rewrite lookup_insert_eq. simpl. rewrite lookup_insert_eq. simpl.
    rewrite !(read_new n) by (done || lia). rewrite Ev. simpl.
    rewrite (lookup_insert_ne _ (S (S (S (S n))))), lookup_insert_eq by lia. simpl.
    rewrite !(read_new n) by (done || lia). rewrite Eg. simpl. reflexivity.
  - split; simpl; [|by rewrite lookup_insert_eq].
    by rewrite lookup_insert_ne, lookup_insert_eq by lia.
Qed.

(** A parameter: its gradient is 1 when it is the function's. *)
Lemma gsim_param X loc name id :
  (forall ps, params c0 = Some ps -> num_params c0 = length ps) -> (0 <= id)%Z -> (0 <= param_id)%Z ->
  gsim X [] (EmitValueGradientExpr cfg (ParameterExpr loc name id))
    (EvalGradExpr (symbols cfg) market target (ParameterExpr loc name id)).
Proof.
  intros Hfull Hid Hpid g vg code g' scope scope' s gs out gs' Ha Hh Hm Hver _ Hi.
  destruct (gemits_EmitValueGradientExpr ids cfg (ParameterExpr loc name id) I 0 _ _ _ _
    (Nat.le_0_l _) (ga_wf _ _ _ _ Ha) Hm) as (G & W & _).
  simpl in Hi. apply fmap_Ok in Hi as (out' & Ho & [= -> ->]).
  pose proof (ga_typed _ _ _ _ Ha) as T. unfold GradParameter in Ho.
  destruct (params (g_ctx gs')) as [ps|] eqn:Eps; [|done].
  apply bind_Ok in Ho as (v & Hv & [= <-]).
  assert (Hrt : jit_rt_param id (js_ctx (js (gm s))) = Ok v).
  { rewrite <- (ag_ctx _ _ _ _ _ _ _ _ (ga_scalar _ _ _ _ Ha)). simpl. unfold jit_rt_param.
    assert (Hlt : Z.to_nat id < length ps).
    { unfold at_Z in Hv. destruct (id <? 0)%Z; [done|]. apply at_idx_Ok in Hv. by eapply lookup_lt_Some. }
    assert (Hn : num_params (g_ctx gs') = length ps).
    { rewrite (gct_num _ T). apply Hfull. by rewrite <- (gct_params _ T). }
    rewrite Hn, Eps. destruct (Z.ltb_spec id 0); [lia|].
    destruct (Z.leb_spec (Z.of_nat (length ps)) id); [lia|]. exact Hv. }
  simpl in Hm. destruct (Z.ltb_spec id 0); [lia|]. cbn in Hm. injection Hm as <- <- <-.
  set (n := next g) in *.
  eexists. eapply (gran_pure _ _ _ _ _ _ _ _ _
    (<[2 + n := F64 (fbool (param_id =? id)%Z)]> (<[1 + n := I1 (param_id =? id)%Z]>
       (<[n := F64 v]> (env (gm s))))));
    try exact Ha; try exact Hver; try exact G; try exact W; try done.
  - intros k Hk. rewrite !lookup_insert_ne by lia. reflexivity.
  - simpl. rewrite Hrt. simpl. unfold set_gm, set_reg. simpl. unfold read_bit.
    rewrite lookup_insert_eq. simpl. by destruct (js (gm s)).
  - rewrite Z2Nat.id, (Z.eqb_sym id) by done. split; simpl; [|by rewrite lookup_insert_eq].
    by rewrite !lookup_insert_ne, lookup_insert_eq by lia.
Qed.

(** A quote of the market has no gradient. *)
Lemma EvalMarketRead_Ok name args sym o :
  EvalMarketRead (symbols cfg) market name args sym = Ok o ->
  ((name =? "mid")%string || (name =? "bid")%string || (name =? "ask")%string ||
   (name =? "spread")%string) = true ->
  ssim [] (EmitQuote cfg name args sym) (Interpreter.lift (Ok (vg_value o))) /\ vg_gradient o = fint 0.
Proof.
  intros Ho Hname. unfold EvalMarketRead in Ho. apply bind_Ok in Ho as (id & Hid & Ho).
  apply bind_Ok in Ho as (ins & Hins & Ho). injection Ho as <-. split; [|done].
  destruct args as [|a [|b rest]]; [apply sim_throw| |apply sim_throw].
  assert (He : forall read, EvalQuote (symbols cfg) market name read [a] sym = Ok (read ins)).
  { intros read. unfold EvalQuote. simpl. rewrite Hid. simpl. by rewrite Hins. }
  destruct (String.eqb_spec name "mid") as [->|N1].
  { eapply sim_ext; [|apply sim_EmitQuote; intros k; apply sim_mid]. intros es. by rewrite He. }
  destruct (String.eqb_spec name "bid") as [->|N2].
  { eapply sim_ext; [|apply sim_EmitQuote; intros k; apply (sim_EmitMarketFieldLoad _ _ _ _ _ _ k FBid)].
    intros es. by rewrite He. }
  destruct (String.eqb_spec name "ask") as [->|N3].
  { eapply sim_ext; [|apply sim_EmitQuote; intros k; apply (sim_EmitMarketFieldLoad _ _ _ _ _ _ k FAsk)].
    intros es. by rewrite He. }
  apply String.eqb_eq in Hname as ->.
  eapply sim_ext; [|apply sim_EmitQuote; intros k; apply (sim_load_bin _ _ _ _ _ _ true FSub k FBid FAsk)].
  intros es. by rewrite He.
Qed.

Lemma gsim_quote X quote name args sym :
  ((name =? "mid")%string || (name =? "bid")%string || (name =? "ask")%string ||
   (name =? "spread")%string) = true ->
  (forall cg, quote cg = EmitQuote cfg name args sym cg) ->
  gsim X [] (gbind (scalar quote) (fun v => gret (MkVGIr v zero)))
    (g_lift (EvalMarketRead (symbols cfg) market name args sym)).
Proof.
  intros Hname Hq g vg code g' scope scope' s gs out gs' Ha Hh Hm Hver Hu Hi.
  apply fmap_Ok in Hi as (o & Ho & [= -> ->]). destruct (EvalMarketRead_Ok _ _ _ _ Ho Hname) as [Hs Hg].
  eapply (gsim_scalar_bind X [] quote _ (g_lift (Ok out))); try eassumption; [..|reflexivity].
  - eapply sim_ext_m; [exact Hq|exact Hs].
  - intros cg v c cg' Hn Hwf Hc. rewrite Hq in Hc. by eapply (emits_EmitQuote ∅).
  - by right; right.
  - intros v. destruct out as [ov og]. simpl in *. subst og. apply gsim_gret; [left; by left|by right].
Qed.

(** *** Calls of the entry points *)

(** The entry in the interpreter's cache. *)
Definition gcache (id : Z) (m : G (D:=D) (L:=L) (ValueGradient D)) : G (ValueGradient D) := fun gs =>
  '(out, gs) <- m gs;;
  Ok (out, if (0 <? id)%Z then MkGrad (g_ctx gs) (<[id := out]> (stateful_cache gs)) else gs).

Lemma gcache_bind {A} id (m : G (D:=D) (L:=L) A) (f : A -> G (ValueGradient D)) gs :
  gcache id (x <~ m;; f x) gs = (x <~ m;; gcache id (f x)) gs.
Proof. unfold gcache. rewrite rbind_assoc. by destruct (m gs) as [[a gs']|]. Qed.

(** An entry point leaves the context typed. *)
Lemma grad_op_typed op id x y c r c' :
  Γ !! id = Some op -> gctx_typed c -> grad_compiled op id param_id x y c = Ok (r, c') -> gctx_typed c'.
Proof.
  intros Hop [Hr Hcnt Hp Hn] Hc. pose proof (grad_op_frame _ _ _ _ _ _ _ _ Hc) as [[Nv Pv Mv] Cv].
  split; [|congruence..].
  intros id' op' Hop'.
  destruct (Hr _ _ Hop') as (Hpos' & Hv' & Hr'), (Hr _ _ Hop) as (Hpos & Hv & Hr0).
  split_and!; [done|done|]. destruct (decide (id' = id)) as [->|Hne].
  - rewrite Hop in Hop'. injection Hop' as <-. by eapply grad_op_ready.
  - eapply grad_ready_view; [|exact Hr']. apply Nv. lia.
Qed.

(** The pieces of a call's emission. *)
Lemma EmitGradCall_Ok id eff vs g vg code g' : (0 < id)%Z ->
  EmitGradCall id eff vs g = Ok (vg, code, g') ->
  let n := next g in
  vg = MkVGIr (Reg n) (Reg (S n)) /\
  code = GSeq (GScalar Ret) (GSeq (GScalar Ret) (GSeq (GScalar Ret) (GSeq (GCall n (S n) (eff id) vs) GRet))) /\
  stateful_grad_emit_cache g' = <[id := vg]> (stateful_grad_emit_cache g) /\
  program_market_field_cache (gc g') = program_market_field_cache (gc g) /\
  next g' = S (S n).
Proof.
  intros Hpos Hm. unfold EmitGradCall in Hm.
  apply gbind_Ok in Hm as (i & c1 & g1 & c2 & H1 & H2 & ->).
  apply scalar_Ok in H1 as (c & cg' & H1 & -> & ->). unfold GetNodeId in H1.
  destruct (Z.ltb_spec 0 id) as [_|]; [|lia]. injection H1 as <- <- <-.
  unfold call_grad_helper, grad_cache_stateful in H2. cbn in H2.
  destruct (Z.ltb_spec 0 id) as [_|]; [|lia]. injection H2 as <- <- <-. done.
Qed.

(** The call of a stateful builtin, and its entry in the two caches. *)
Lemma gsim_op held id op x y eff vs ds :
  id ∈ ids -> Γ !! id = Some op ->
  (forall cg (m : Machine_state D L), holds held cg m -> read_all (env m) vs = Ok ds) ->
  (forall c, run_grad_effect param_id (eff id) ds c = grad_compiled op id param_id x y c) ->
  gsim (Some id) held (EmitGradCall id eff vs) (gcache id (grad_interpret op id target x y)).
Proof.
  intros Hid Hop Hread Hrun g vg code g' scope scope' s gs out gs' Ha Hh Hm Hver _ Hi.
  pose proof (ga_typed _ _ _ _ Ha) as T. destruct (gct_ready _ T _ _ Hop) as (Hpos & Hval & Hrdy).
  destruct (gemits_EmitGradCall ids 0 id eff vs Hpos Hid _ _ _ _ (Nat.le_0_l _) (ga_wf _ _ _ _ Ha) Hm)
    as (G & W & _).
  apply EmitGradCall_Ok in Hm as (-> & -> & Hcache & Hmk & Hnext); [|done]. set (n := next g) in *.
  unfold gcache in Hi. apply bind_Ok in Hi as ([o1 gs1] & Hi & He).
  rewrite grad_op_parity in Hi by (done || by apply typed_param). unfold grad_run in Hi.
  apply bind_Ok in Hi as ([r c'] & Hc & He1). injection He1 as <- <-.
  destruct (Z.ltb_spec 0 id) as [_|]; [|lia]. simpl in He. injection He as <- <-.
  pose proof (ag_ctx _ _ _ _ _ _ _ _ (ga_scalar _ _ _ _ Ha)) as Hctx. simpl in Hctx.
  set (st' := MkState (<[S n := F64 (snd r)]> (<[n := F64 (fst r)]> (env (gm s))))
    (MkJit c' (js_low (js (gm s)))) (outputs (gm s))).
  pose proof (grad_op_typed _ _ _ _ _ _ _ Hop T Hc) as T'.
  exists (set_gm st' s). rewrite Hctx in Hc. split; try done.
  - simpl. rewrite (Hread _ _ Hh). simpl. rewrite Hrun, Hc. by destruct r.
  - eapply gagree_grow; try exact Ha; try exact G; try exact W; try exact Hver; try done.
    + intros k Hk. simpl. rewrite !lookup_insert_ne by lia. reflexivity.
    + eapply agree_regs; [apply Ha|apply W|by eapply gg_reg|done| | |done|apply T'|apply T'].
      * destruct (gverify_scope _ _ _ _ _ (gg_code _ _ _ _ G) Hver) as [_ Hn]. apply Hn.
      * intros k Hk. simpl. rewrite !lookup_insert_ne by lia. reflexivity.
    + intros id' vg' _ Hv' [(q & Eq & Hq) _] _. rewrite Hcache in Hv'.
      apply lookup_insert_Some in Hv' as [[<- <-]|[_ Hv']].
      * exists (of_pair r). simpl. rewrite lookup_insert_eq. split; [done|]. split; simpl.
        -- by rewrite lookup_insert_ne, lookup_insert_eq by lia.
        -- by rewrite lookup_insert_eq.
      * destruct (gw_stateful _ (ga_wf _ _ _ _ Ha) _ _ Hv') as [(q' & Eq' & ?) _].
        rewrite Eq in Eq'. injection Eq' as <-. lia.
    + intros id' vg' o' Hv' Hold Ho. simpl. rewrite Hcache in Hv'.
      apply lookup_insert_Some in Hv' as [[<- <-]|[Hne _]]; [|by rewrite lookup_insert_ne].
      destruct (gw_stateful _ (ga_wf _ _ _ _ Ha) _ _ Hold) as [(q' & [= <-] & ?) _]. lia.
    + intros id' Hs. rewrite Hcache. simpl in Hs. destruct (decide (id = id')) as [->|Hne].
      * rewrite lookup_insert_eq. eauto.
      * rewrite lookup_insert_ne in Hs by done. rewrite lookup_insert_ne by done. by apply Ha.
  - intros k Hk. simpl. rewrite !lookup_insert_ne by lia. reflexivity.
  - intros id' o' Hne Ho. simpl. rewrite lookup_insert_ne by congruence. done.
  - split; simpl; [|by rewrite lookup_insert_eq].
    by rewrite lookup_insert_ne, lookup_insert_eq by lia.
Qed.

(** *** The operator of a call *)

Definition grad_windowed (name : string) (p : nat) : option GradOp :=
  if (name =? "ema")%string then Some (GoEma p)
  else if (name =? "sma")%string then Some (GoSma p)
  else if (name =? "lag")%string then Some (GoLag p)
  else if (name =? "rolling_std")%string then Some (GoStd p)
  else if (name =? "zscore")%string then Some (GoZscore p)
  else if (name =? "rolling_min")%string then Some (GoMin p)
  else if (name =? "rolling_max")%string then Some (GoMax p)
  else None.

(** The operator of a stateful call with its period; [vwap], which the
    gradient mode does not know, and [kalman1d] have none. *)
Definition grad_rtop (name : string) (args : list (Expr D)) : option GradOp :=
  match args with
  | [_; p] =>
      if (name =? "ema_alpha")%string then Some GoEmaAlpha
      else if (name =? "cross_above")%string then Some GoCrossAbove
      else if (name =? "cross_below")%string then Some GoCrossBelow
      else n ← period_of p; grad_windowed name n
  | [_; _; p] =>
      if (name =? "rolling_corr")%string then GoCorr <$> period_of p
      else if (name =? "rolling_beta")%string then GoBeta <$> period_of p
      else None
  | _ => None
  end.

(** Every stateful call of a tree is numbered with an id of the signal, and
    [Γ] gives its operator; parameters are resolved. *)
Fixpoint gtyped (e : Expr D) : Prop :=
  match e with
  | NumberLiteral _ _ | IdentifierExpr _ _ => True
  | ParameterExpr _ _ id => (0 <= id)%Z
  | UnaryOp _ _ x => gtyped x
  | BinaryOp _ _ l r => gtyped l /\ gtyped r
  | Conditional _ c t f => gtyped c /\ gtyped t /\ gtyped f
  | FunctionCall _ name args id _ =>
      (if IsStatefulOp name
       then (0 < id)%Z /\ id ∈ ids /\ exists op, grad_rtop name args = Some op /\ Γ !! id = Some op
       else (id <= 0)%Z) /\
      foldr and True (map gtyped args)
  end.

Lemma gtyped_args (args : list (Expr D)) :
  foldr and True (map gtyped args) <-> Forall gtyped args.
Proof. induction args; simpl; [done|]. rewrite Forall_cons. naive_solver. Qed.

Lemma gtyped_ids_in e : gtyped e -> ids_in ids e.
Proof.
  induction e using Expr_rect'; simpl; try naive_solver.
  intros [Hop Hargs%gtyped_args]. split.
  - destruct (IsStatefulOp n); naive_solver.
  - apply ids_in_args. rewrite Forall_forall in *. auto.
Qed.

Notation emit_expr := (EmitValueGradientExpr cfg).
Notation eval_expr := (EvalGradExpr (symbols cfg) market target).
Notation gsim_expr e := (gsim None [] (emit_expr e) (eval_expr e)).

(** The arguments are simulated. *)
Definition garg_ok (e : Expr D) : Prop := gtyped e /\ gsim_expr e.

Lemma garg_emits e n : garg_ok e -> gemits ids n vg_below (emit_expr e).
Proof. intros [Ht _]. by apply gemits_EmitValueGradientExpr, gtyped_ids_in. Qed.

(** A scalar step that emits nothing. *)
Lemma gsim_skip {A} X held (m : EmitM (D:=D) A) a f i :
  (forall cg, m cg = Ok (a, Ret, cg)) -> gsim X held (f a) i -> gsim X held (gbind (scalar m) f) i.
Proof.
  intros Hm Hs g vg code g' scope scope' s gs out gs' Ha Hh He Hv Hu Hi.
  apply gbind_Ok in He as (b & c1 & g1 & c2 & H1 & H2 & ->).
  apply scalar_Ok in H1 as (c & cg' & H1 & -> & ->). rewrite Hm in H1. injection H1 as <- <- <-.
  simpl gapp in Hv. apply gverify_scalar in Hv as (mid & [= <-] & Hv).
  destruct g as [cg sc sv]. simpl in H2. destruct (Hs _ _ _ _ _ _ _ _ _ _ Ha Hh H2 Hv Hu Hi) as [s' []].
  exists s'. split; try done. simpl. destruct s as [m1 gr]. exact gr_exec0.
Qed.

Lemma gsim_period X held p name n f i :
  period_of p = Some n -> gsim X held (f n) i -> gsim X held (gbind (scalar (window_period p name)) f) i.
Proof.
  intros Hp. apply gsim_skip. intros cg. unfold period_of in Hp.
  destruct p; try done. unfold window_period. destruct (to_int value) as [z|]; [|done].
  destruct (period_ok value z); [|done]. by injection Hp as ->.
Qed.

Lemma gcache_lift {A} id (r : Res A) f gs (o : ValueGradient D * GradState D L) :
  gcache id (x <~ g_lift r;; f x) gs = Ok o -> exists x, r = Ok x /\ gcache id (f x) gs = Ok o.
Proof. rewrite gcache_bind. unfold g_lift. destruct r as [x|]; [|done]. simpl. eauto. Qed.

Lemma grad_period_parsed (p : Expr D) n n' what :
  period_of p = Some n -> grad_period p what = Ok n' -> n' = n.
Proof.
  unfold period_of, grad_period. intros Hp Hn. destruct p; try done.
  destruct (to_int value); [|done]. destruct (period_ok value z); congruence.
Qed.

Section stateful.
Variables (id : Z) (op : GradOp).
Hypothesis id_pos : (0 < id)%Z.
Hypothesis id_in : id ∈ ids.
Hypothesis id_op : Γ !! id = Some op.

(** A call with one sample and its gradient, and constants behind them. *)
Lemma gsim_unary eff ds e :
  garg_ok e ->
  (forall x c, run_grad_effect param_id (eff id) (vg_value x :: vg_gradient x :: ds) c =
     grad_compiled op id param_id x x c) ->
  gsim (Some id) []
    (gbind (emit_expr e) (fun x => EmitGradCall id eff (ir_value x :: ir_gradient x :: map Const ds)))
    (x <~ eval_expr e;; gcache id (grad_interpret op id target x x)).
Proof.
  intros [Ht Hs] Hrun. apply gsim_bind; [by apply gsim_weaken|by apply garg_emits| |].
  - intros x. apply (gneeds_EmitGradCall ids); [done|by left].
  - intros x d. apply (gsim_op _ _ _ _ _ _ _ (vg_value d :: vg_gradient d :: ds)); [done|done| |apply Hrun].
    intros cg m Hh. simpl. destruct (holds_read _ _ _ (ir_value x) (vg_value d) Hh ltac:(by left)) as [_ ->].
    destruct (holds_read _ _ _ (ir_gradient x) (vg_gradient d) Hh ltac:(right; by left)) as [_ ->].
    simpl. by rewrite read_all_Const.
Qed.

(** A call with two samples. *)
Lemma gsim_pair eff vs ds ea eb :
  garg_ok ea -> garg_ok eb ->
  (forall x y, ir_value x ∈ vs x y /\ ir_value y ∈ vs x y) ->
  (forall (env : gmap nat (RegValue D)) x y a b, reads env x a -> reads env y b ->
     read_all env (vs x y) = Ok (ds a b)) ->
  (forall x y c, run_grad_effect param_id (eff id) (ds x y) c = grad_compiled op id param_id x y c) ->
  gsim (Some id) []
    (gbind (emit_expr ea) (fun x => gbind (emit_expr eb) (fun y => EmitGradCall id eff (vs x y))))
    (x <~ eval_expr ea;; y <~ eval_expr eb;; gcache id (grad_interpret op id target x y)).
Proof.
  intros Ha Hb Hin Hread Hrun.
  apply gsim_bind; [by apply gsim_weaken, Ha|by apply garg_emits| |].
  { intros x. eapply (gneeds_bind_r ids); [by apply garg_emits|]. intros y.
    apply (gneeds_EmitGradCall ids); [done|apply Hin]. }
  intros x dx. apply gsim_bind; [by apply gsim_held, gsim_weaken, Hb|by apply garg_emits| |].
  { intros y. apply (gneeds_EmitGradCall ids); [done|apply Hin]. }
  intros y dy. apply (gsim_op _ _ _ _ _ _ _ (ds dx dy)); [done|done| |apply Hrun].
  intros cg m Hh. apply Hread; split; eapply holds_read; try exact Hh; set_solver.
Qed.

(** The windowed builtins: behind the parse of the period and the checks. *)
Lemma gsim_EmitGradWindow name e p n (i : G (ValueGradient D)) :
  period_of p = Some n -> garg_ok e ->
  (forall x c, run_grad_effect param_id (window_grad_effect name id n) [vg_value x; vg_gradient x] c =
     grad_compiled op id param_id x x c) ->
  (forall gs r, gcache id i gs = Ok r ->
     (x <~ eval_expr e;; gcache id (grad_interpret op id target x x)) gs = Ok r) ->
  gsim (Some id) [] (EmitGradWindow emit_expr name [e; p] id) (gcache id i).
Proof.
  intros Hp He Hrun Hi. unfold EmitGradWindow. simpl garg1. eapply gsim_period; [exact Hp|].
  destruct (_ && (n <? 2)); [apply gsim_throw|].
  eapply gsim_refine; [by intros gs r _; apply Hi|]. simpl garg0.
  by apply (gsim_unary (fun id => window_grad_effect name id n) []).
Qed.

(** Behind a period and a check. *)
Lemma grad_window_refine p n what (check : nat -> Res ()) (k : nat -> ValueGradient D -> G (ValueGradient D)) e gs r :
  period_of p = Some n ->
  gcache id (period <~ g_lift (grad_period p what);; _ <~ g_lift (check period);;
             x <~ eval_expr e;; k period x) gs = Ok r ->
  (x <~ eval_expr e;; gcache id (k n x)) gs = Ok r.
Proof.
  intros Hp Hi. apply gcache_lift in Hi as (n' & Hn & Hi). apply gcache_lift in Hi as (u & _ & Hi).
  rewrite gcache_bind in Hi. by rewrite (grad_period_parsed _ _ _ _ Hp Hn) in Hi.
Qed.

Lemma gsim_GradSma e p n :
  op = GoSma n -> period_of p = Some n -> garg_ok e ->
  gsim (Some id) [] (EmitGradWindow emit_expr "sma" [e; p] id) (gcache id (GradSma target eval_expr [e; p] id)).
Proof.
  intros Hop Hp He. apply (gsim_EmitGradWindow "sma" e p n); [done|done|by rewrite Hop; intros [] ?|].
  intros gs r Hi. rewrite Hop. apply (grad_window_refine p n "sma()" (fun _ => Ok tt)
    (fun n x => on_slots target sma_slots sma_sensitivity_slots id (sma_forward n x)) e gs r Hp Hi).
Qed.

Lemma gsim_GradLag e p n :
  op = GoLag n -> period_of p = Some n -> garg_ok e ->
  gsim (Some id) [] (EmitGradWindow emit_expr "lag" [e; p] id) (gcache id (GradLag target eval_expr [e; p] id)).
Proof.
  intros Hop Hp He. apply (gsim_EmitGradWindow "lag" e p n); [done|done|by rewrite Hop; intros [] ?|].
  intros gs r Hi. rewrite Hop. apply (grad_window_refine p n "lag()" (fun _ => Ok tt)
    (fun n x => on_slots target lag_slots lag_sensitivity_slots id (lag_forward n x)) e gs r Hp Hi).
Qed.

Lemma gsim_GradStd name e p n :
  grad_windowed name n = Some op -> name = "rolling_std"%string \/ name = "zscore"%string ->
  period_of p = Some n -> garg_ok e ->
  gsim (Some id) [] (EmitGradWindow emit_expr name [e; p] id) (gcache id (GradStd target eval_expr name [e; p] id)).
Proof.
  intros Hw [-> | ->] Hp He; injection Hw as Hop;
    (eapply gsim_EmitGradWindow; [exact Hp|done|by rewrite <- Hop; intros [] ?|]);
    intros gs r Hi; rewrite <- Hop; by eapply grad_window_refine in Hi.
Qed.

Lemma gsim_GradExtremum name e p n :
  grad_windowed name n = Some op -> name = "rolling_min"%string \/ name = "rolling_max"%string ->
  period_of p = Some n -> garg_ok e ->
  gsim (Some id) [] (EmitGradWindow emit_expr name [e; p] id) (gcache id (GradExtremum target eval_expr name [e; p] id)).
Proof.
  intros Hw [-> | ->] Hp He; injection Hw as Hop;
    (eapply gsim_EmitGradWindow; [exact Hp|done|by rewrite <- Hop; intros [] ?|]);
    intros gs r Hi; rewrite <- Hop.
  - apply (grad_window_refine p n "rolling_min()" (fun _ => Ok tt) (fun n x => extremum_forward target
      rolling_min_deques_slots rolling_min_indices_slots rolling_min_sensitivity_slots UpdateRollingMin id n x)
      e gs r Hp Hi).
  - apply (grad_window_refine p n "rolling_max()" (fun _ => Ok tt) (fun n x => extremum_forward target
      rolling_max_deques_slots rolling_max_indices_slots rolling_max_sensitivity_slots UpdateRollingMax id n x)
      e gs r Hp Hi).
Qed.

Lemma gsim_GradEma e p n :
  op = GoEma n -> period_of p = Some n -> garg_ok e ->
  gsim (Some id) [] (EmitGradEma emit_expr [e; p] id) (gcache id (GradEma target eval_expr "ema" [e; p] id)).
Proof.
  intros Hop Hp He. unfold EmitGradEma. simpl garg1. eapply gsim_period; [exact Hp|]. simpl garg0.
  eapply gsim_refine.
  2: { apply (gsim_unary (fun id => GrEmaAlpha id n) [ema_alpha_of n; fint 0]); [done|].
       rewrite Hop. by intros [] c. }
  intros gs r _ Hi. rewrite Hop. simpl in Hi. unfold gcache in Hi |- *. simpl in Hi.
  destruct (eval_expr e gs) as [[x gs1]|]; [|done]. simpl in Hi |- *.
  destruct (grad_period p "ema()") as [n'|] eqn:Hn; [|done].
  by rewrite (grad_period_parsed _ _ _ _ Hp Hn) in Hi.
Qed.

Lemma gsim_GradEmaAlpha e a :
  op = GoEmaAlpha -> garg_ok e -> garg_ok a ->
  gsim (Some id) [] (EmitGradEmaAlpha emit_expr [e; a] id) (gcache id (GradEma target eval_expr "ema_alpha" [e; a] id)).
Proof.
  intros Hop He Ha. unfold EmitGradEmaAlpha. simpl garg0. simpl garg1. eapply gsim_refine.
  2: { apply gsim_pair with (eff := fun id => GrEmaAlpha id 0)
         (vs := fun x alpha => [ir_value x; ir_gradient x; ir_value alpha; ir_gradient alpha])
         (ds := fun x alpha => [vg_value x; vg_gradient x; vg_value alpha; vg_gradient alpha]);
         [done..| | |by rewrite Hop; intros [] [] c].
       - intros x y. split; set_solver.
       - intros env x y dx dy [Rx Gx] [Ry Gy]. simpl. by rewrite Rx, Gx, Ry, Gy. }
  intros gs r _ Hi. rewrite <- Hi, Hop. unfold GradEma. simpl. rewrite gcache_bind.
  destruct (eval_expr e gs) as [[x gs1]|]; [|done]. simpl. by rewrite gcache_bind.
Qed.

Lemma gsim_GradPair name ex ey p n :
  op = (if (name =? "rolling_corr")%string then GoCorr n else GoBeta n) -> period_of p = Some n ->
  garg_ok ex -> garg_ok ey ->
  gsim (Some id) [] (EmitGradPair emit_expr name [ex; ey; p] id)
    (gcache id (GradPair target eval_expr name [ex; ey; p] id)).
Proof.
  intros Hop Hp Hx Hy. unfold EmitGradPair. simpl garg2. eapply gsim_period; [exact Hp|].
  simpl garg0. simpl garg1. eapply gsim_refine.
  2: { eapply gsim_pair with (vs := fun x y => [ir_value x; ir_gradient x; ir_value y; ir_gradient y])
         (ds := fun x y => [vg_value x; vg_gradient x; vg_value y; vg_gradient y]);
         [done..| | |].
       - intros x y. split; set_solver.
       - intros env x y dx dy [Rx Gx] [Ry Gy]. simpl. by rewrite Rx, Gx, Ry, Gy.
       - intros [] [] c. rewrite Hop. by destruct (name =? "rolling_corr")%string. }
  intros gs r _ Hi. unfold GradPair in Hi. simpl in Hi. apply gcache_lift in Hi as (n' & Hn & Hi).
  rewrite (grad_period_parsed _ _ _ _ Hp Hn) in Hi. rewrite gcache_bind in Hi. rewrite <- Hi.
  destruct (eval_expr ex gs) as [[x gs1]|]; [|done]. simpl. rewrite gcache_bind, Hop.
  by destruct (name =? "rolling_corr")%string.
Qed.

Lemma gsim_GradCross name ea eb :
  op = (if (name =? "cross_above")%string then GoCrossAbove else GoCrossBelow) ->
  garg_ok ea -> garg_ok eb ->
  gsim (Some id) [] (EmitGradCross emit_expr name [ea; eb] id)
    (gcache id (GradCross eval_expr name [ea; eb] id)).
Proof.
  intros Hop Ha Hb. unfold EmitGradCross. simpl garg0. simpl garg1. eapply gsim_refine.
  2: { eapply gsim_pair with (vs := fun a b => [ir_value a; ir_value b])
         (ds := fun a b => [vg_value a; vg_value b]); [done..| | |].
       - intros x y. split; set_solver.
       - intros env x y dx dy [Rx Gx] [Ry Gy]. simpl. by rewrite Rx, Ry.
       - intros [] [] c. rewrite Hop. by destruct (name =? "cross_above")%string. }
  intros gs r _ Hi. rewrite <- Hi. unfold GradCross. simpl. rewrite gcache_bind.
  destruct (eval_expr ea gs) as [[x gs1]|]; [|done]. simpl. rewrite gcache_bind, Hop.
  destruct (eval_expr eb gs1) as [[y gs2]|]; [|done]. simpl.
  by destruct (name =? "cross_above")%string.
Qed.
End stateful.

(** *** Expressions *)

(** The test for the sensitivity's slot passes. *)
Lemma EvalFunction_stateful id name args sym gs r :
  IsStatefulOp name = true -> (0 < id)%Z -> gctx_typed (g_ctx gs) ->
  gcache id (EvalFunction (symbols cfg) market target eval_expr name args id sym) gs = Ok r ->
  gcache id (EvalStateful target eval_expr name args id) gs = Ok r.
Proof.
  intros Hs Hpos T. pose proof (typed_param _ T) as Hp. unfold param_ok in Hp.
  unfold gcache, EvalFunction.
  repeat (match goal with
          | |- context [if ?b then g_lift _ else _] => destruct b eqn:?; [stateful_name|]
          | |- context [if ?b then arg0 _ _ else _] => destruct b eqn:?; [stateful_name|]
          end).
  destruct (Z.ltb_spec id 0); [lia|]. unfold GradientSlot.
  destruct (Nat.eqb_spec (gradient_param_count (g_ctx gs)) 0); [lia|]. done.
Qed.

Lemma gsim_stateful id op quote name args sym :
  IsStatefulOp name = true -> (0 < id)%Z -> id ∈ ids -> grad_rtop name args = Some op ->
  Γ !! id = Some op -> Forall garg_ok args ->
  gsim (Some id) [] (EmitGradFunction emit_expr quote name args id)
    (gcache id (EvalFunction (symbols cfg) market target eval_expr name args id sym)).
Proof.
  intros Hs Hpos Hid Hop HΓ Hargs. eapply gsim_refine.
  { intros gs r T Hi. by eapply EvalFunction_stateful. }
  unfold IsStatefulOp in Hs.
  rewrite !orb_true_iff, !String.eqb_eq in Hs. destruct_or!; subst name.
  all: unfold grad_rtop in Hop; simpl in Hop.
  all: destruct args as [|a [|b [|c [|]]]]; try discriminate Hop; simpl in Hop.
  all: rewrite ?Forall_cons in Hargs; destruct_and?.
  all: repeat match type of Hop with
       | context [period_of ?p] => destruct (period_of p) eqn:?; [|discriminate Hop]; simpl in Hop
       end.
  all: try (unfold grad_windowed in Hop; simpl in Hop); simplify_eq/=.
  all: first
    [ eapply (gsim_GradSma id); first [eassumption | reflexivity]
    | eapply (gsim_GradLag id); first [eassumption | reflexivity]
    | eapply (gsim_GradStd id); first [eassumption | reflexivity | by auto]
    | eapply (gsim_GradExtremum id); first [eassumption | reflexivity | by auto]
    | eapply (gsim_GradEma id); first [eassumption | reflexivity]
    | eapply (gsim_GradEmaAlpha id); first [eassumption | reflexivity]
    | eapply (gsim_GradPair id); first [eassumption | reflexivity]
    | eapply (gsim_GradCross id); first [eassumption | reflexivity] ].
Qed.

Lemma gsim_EmitGradMath X f h args :
  Forall garg_ok args ->
  (forall x d held, (ir_value x, vg_value d) ∈ held -> (ir_gradient x, vg_gradient d) ∈ held ->
     gsim X held (f x) (g_lift (Ok (h d)))) ->
  (forall x, gneeds (ir_value x) (f x)) ->
  gsim X [] (EmitGradMath emit_expr f args) (arg0 args (fun e => x <~ eval_expr e;; g_lift (Ok (h x)))).
Proof.
  intros Hargs Hf Hneed. destruct args as [|e args]; [by intros g vg code g' scope scope' s gs out gs' Ha Hh [=]|].
  apply Forall_cons in Hargs as [He _].
  apply gsim_bind; [by apply gsim_weaken, He|by apply garg_emits|done|].
  intros x d. apply Hf; set_solver.
Qed.

Lemma gsim_stateless X quote name args id sym :
  IsStatefulOp name = false -> Forall garg_ok args ->
  (((name =? "mid")%string || (name =? "bid")%string || (name =? "ask")%string ||
    (name =? "spread")%string) = true -> forall cg, quote cg = EmitQuote cfg name args sym cg) ->
  gsim X [] (EmitGradFunction emit_expr quote name args id)
    (EvalFunction (symbols cfg) market target eval_expr name args id sym).
Proof.
  intros Hs Hargs Hq. unfold EmitGradFunction, EvalFunction.
  destruct (_ || (name =? "spread")%string) eqn:Hname; [by apply gsim_quote; auto|].
  destruct (name =? "abs")%string.
  { apply (gsim_EmitGradMath X EmitGradAbs grad_abs); [done|intros; by apply gsim_EmitGradAbs|].
    intros x. by apply gneeds_bind_l, gneeds_scalar, needs_build_reg; intros dst r Hr; simpl; set_solver. }
  destruct (name =? "log")%string.
  { apply (gsim_EmitGradMath X EmitGradLog grad_log); [done|intros; by apply gsim_EmitGradLog|].
    intros x. by apply gneeds_bind_l, gneeds_scalar, needs_build; intros dst r Hr; simpl; set_solver. }
  destruct (name =? "sqrt")%string.
  { apply (gsim_EmitGradMath X EmitGradSqrt grad_sqrt); [done|intros; by apply gsim_EmitGradSqrt|].
    intros x. by apply gneeds_bind_l, gneeds_scalar, needs_build; intros dst r Hr; simpl; set_solver. }
  clear Hq Hname.
  repeat (match goal with
          | |- gsim _ _ (if ?b then _ else _) _ => destruct b eqn:?; [stateful_name|]
          end). apply gsim_throw.
Qed.

Lemma EvalGradExpr_call loc name args id sym gs :
  eval_expr (FunctionCall loc name args id sym) gs =
    match (if (0 <? id)%Z then stateful_cache gs !! id else None) with
    | Some out => Ok (out, gs)
    | None => gcache id (EvalFunction (symbols cfg) market target eval_expr name args id sym) gs
    end.
Proof. reflexivity. Qed.

(** A numbered call: the two caches answer together. *)
Lemma gsim_FunctionCall loc name args id sym :
  gtyped (FunctionCall loc name args id sym) -> Forall garg_ok args ->
  gsim_expr (FunctionCall loc name args id sym).
Proof.
  intros [Hop _] Hargs g vg code g' scope scope' s gs out gs' Ha Hh Hm Hv Hu Hi.
  rewrite EmitValueGradientExpr_call in Hm. rewrite EvalGradExpr_call in Hi.
  destruct (IsStatefulOp name) eqn:Hs.
  - destruct Hop as (Hpos & Hid & op & Hop & HΓ). destruct (Z.ltb_spec 0 id) as [_|]; [|lia].
    destruct (stateful_grad_emit_cache g !! id) as [w|] eqn:E.
    + injection Hm as <- <- <-. injection Hv as <-.
      destruct (ga_hit _ _ _ _ Ha _ _ Hid E Hu) as (o & Ho & Hr).
      rewrite Ho in Hi. injection Hi as <- <-. exists s. by split.
    + destruct (stateful_cache gs !! id) as [o|] eqn:Hc.
      { destruct (ga_miss _ _ _ _ Ha id) as [? ?]; [by eexists|congruence]. }
      destruct (gsim_stateful _ _ _ _ _ sym Hs Hpos Hid Hop HΓ Hargs _ _ _ _ _ _ _ _ _ _ Ha Hh Hm Hv Hu Hi)
        as [s' [R1 R2 R3 R4 R5 R6 R7 R8]].
      exists s'. split; try done. intros id' o Hne Ho. apply R7; congruence.
  - destruct (Z.ltb_spec 0 id) as [|_]; [lia|]. unfold gcache in Hi.
    apply bind_Ok in Hi as ([o gs1] & Hi & He). destruct (Z.ltb_spec 0 id) as [|_]; [lia|].
    injection He as -> ->.
    refine (gsim_stateless None _ _ _ _ _ Hs Hargs _ _ _ _ _ _ _ _ _ _ _ Ha Hh Hm Hv Hu Hi).
    intros Hq cg. rewrite EmitExpr_call. destruct (Z.ltb_spec 0 id); [lia|].
    unfold EmitCall. by rewrite Hq.
Qed.

(** Behind a conditional: whichever arm has run, the other one's emission
    has added nothing that is in scope. *)
Lemma gagree_merge g2 scope2 s2 gs1 g3 g4 st s3 gs3 code d dg scope' :
  gagree g2 scope2 s2 gs1 -> gagree g3 st s3 gs3 ->
  (forall id o, stateful_cache gs1 !! id = Some o -> stateful_cache gs3 !! id = Some o) ->
  (forall id, is_Some (stateful_grad_emit_cache g3 !! id) -> is_Some (stateful_grad_emit_cache g4 !! id)) ->
  let g' := after_cmp (after_cmp g4) in let k := next g4 in
  ggrows ids g2 code g' -> gwf g4 -> next g2 <= k ->
  gverify scope2 code = Some scope' -> (forall r, r ∈ scope' -> next g2 <= r -> r = k \/ r = S k) ->
  sagree (gc g') scope' (MkState (<[S k := F64 dg]> (<[k := F64 d]> (env (gm s2)))) (js (gm s3)) (outputs (gm s3)))
    (MkEval (g_ctx gs3) ∅) ->
  gagree g' scope' (MkGradMachine (MkState (<[S k := F64 dg]> (<[k := F64 d]> (env (gm s2))))
    (js (gm s3)) (outputs (gm s3))) (gradients s3)) gs3.
Proof.
  intros A2 A3 Hc Hk g' k G W4 Hle Hv Hscope HS.
  eapply gagree_grow; try exact A2; try exact G; try exact Hv; try exact HS.
  - by apply gwf_after_cmp, gwf_after_cmp.
  - intros r Hr. simpl. by rewrite !lookup_insert_ne by lia.
  - apply A3.
  - intros id vg _ Hvg [(r & Er & Hge) _] Hin. rewrite Er in Hin.
    destruct (gw_stateful _ W4 _ _ Hvg) as [(r' & Er' & Hlt) _]. rewrite Er in Er'. injection Er' as <-.
    destruct (Hscope r (Hin r ltac:(by left)) ltac:(lia)); fold k in Hlt; lia.
  - intros id vg o _ _. apply Hc.
  - intros id Hi. by apply Hk, (ga_miss _ _ _ _ A3).
Qed.

Lemma gsim_Conditional loc c t e :
  garg_ok c -> garg_ok t -> garg_ok e -> gsim_expr (Conditional loc c t e).
Proof.
  intros [Tc Sc] [Tt St] [Te Se] g vg code g' scope scope' s gs out gs' Ha Hh Hm Hv _ Hi.
  pose proof (garg_emits c 0 (conj Tc Sc)) as Mc. pose proof (garg_emits t 0 (conj Tt St)) as Mt.
  pose proof (garg_emits e 0 (conj Te Se)) as Me.
  destruct (gemits_EmitValueGradientExpr ids cfg (Conditional loc c t e)
    (gtyped_ids_in (Conditional loc c t e) (conj Tc (conj Tt Te))) 0 _ _ _ _ (Nat.le_0_l _)
    (ga_wf _ _ _ _ Ha) Hm) as (G & W & _).
  apply GConditional_Ok in Hm as (cv & cc & g1 & tv & tc & g3 & ev & ec & g4 & H1 & H3 & H4 & H2).
  cbv zeta in H2. destruct H2 as (-> & -> & ->). set (n := next g1) in *. set (k := next g4) in *.
  simpl in Hi. apply bind_Ok in Hi as ([dc gs1] & Hi1 & Hi).
  apply gverify_gapp in Hv as (mid & Hv1 & Hv). apply gverify_scalar in Hv as (mid2 & Hvc & Hv).
  pose proof Hvc as Hcv. apply verify_Seq in Hcv as [Hcv [= <-]].
  apply gverify_scalar in Hv as (m3 & [= <-] & Hv). apply gverify_scalar in Hv as (m4 & [= <-] & Hv).
  set (scope2 := {[n]} ∪ ∅ ∪ mid) in *.
  destruct (Mc _ _ _ _ (Nat.le_0_l _) (ga_wf _ _ _ _ Ha) H1) as (G1 & W1 & B1).
  destruct (Sc _ _ _ _ _ _ _ _ _ _ Ha Hh H1 Hv1 ltac:(intros r Hr; apply Hcv; simpl; set_solver) Hi1)
    as [s1 R1].
  pose proof (gr_agree _ _ _ _ _ _ _ _ _ _ _ R1) as A1.
  pose proof (gr_value _ _ _ _ _ _ _ _ _ _ _ R1) as [V1 _].
  set (env2 := <[n := I1 (fne (vg_value dc) (fint 0))]> (env (gm s1))).
  set (s2 := set_gm (MkState env2 (js (gm s1)) (outputs (gm s1))) s1).
  set (g2 := after_cmp g1) in *. pose proof (gwf_after_cmp _ W1) as W2. fold g2 in W2.
  assert (R2 : gran None g1 s1 gs1 (MkVGIr (Const (fint 0)) (Const (fint 0)))
    (GSeq (GScalar (Seq (ICmp n UNE (ir_value cv) (Const (fint 0))) Ret)) GRet) g2 scope2 s2 gs1
    (MkVG (fint 0) (fint 0))).
  { eapply gran_pure; try exact A1; try exact W2; try done.
    - apply ggrows_after_cmp. simpl. split_and!; [|done..]. repeat constructor; lia.
    - apply gverify_scalar. exists scope2. by split.
    - intros r Hr. apply lookup_insert_ne. lia.
    - simpl. by rewrite V1. }
  pose proof (gr_agree _ _ _ _ _ _ _ _ _ _ _ R2) as A2.
  apply gverify_GDiamond in Hv as Hd. destruct Hd as (st & se & Vt & Ve & _ & Ut & Ue & Hsc).
  injection Hsc as Hsc.
  destruct (gemits_arm ids 0 _ g2 _ _ _ Mt (Nat.le_0_l _) W2 H3) as (G3 & D3 & W3 & B3).
  destruct (gemits_arm ids 0 _ g3 _ _ _ Me (Nat.le_0_l _) W3 H4) as (G4 & D4 & W4 & B4).
  assert (Harm : exists b s3 g3' sc, b = fne (vg_value dc) (fint 0) /\
    gran None (if b then g2 else g3) s2 gs1 (if b then tv else ev) (if b then tc else ec)
      g3' sc s3 gs' out /\
    forall id, is_Some (stateful_grad_emit_cache g3' !! id) -> is_Some (stateful_grad_emit_cache g4 !! id)).
  { destruct (fne (vg_value dc) (fint 0)) eqn:Hb.
    - destruct (St _ _ _ _ _ _ _ _ _ _ A2 (Forall_nil_2 _) H3 Vt
        ltac:(intros r Hr; apply Ut; set_solver) Hi) as [s3 R3].
      exists true, s3, g3, st. split_and!; [done|done|]. apply G4.
    - pose proof (gagree_skip _ _ _ _ _ A2 G3 W3) as A3.
      destruct (Se _ _ _ _ _ _ _ _ _ _ A3 (Forall_nil_2 _) H4 Ve
        ltac:(intros r Hr; apply Ue; set_solver) Hi) as [s3 R3].
      exists false, s3, g4, se. by split_and!. }
  destruct Harm as (b & s3 & g3' & sc & Hb & [E3 A3 K3 L3 O3 R3 C3 V3] & Hkeys).
  destruct R1 as [E1 _ K1 L1 O1 Gr1 C1 _].
  pose proof (gg_reg _ _ _ _ G1). pose proof (gg_reg _ _ _ _ G3). pose proof (gg_reg _ _ _ _ G4).
  assert (Hn2 : next g2 = S n) by done.
  exists (MkGradMachine (MkState (<[S k := F64 (vg_gradient out)]> (<[k := F64 (vg_value out)]> env2))
    (js (gm s3)) (outputs (gm s3))) (gradients s3)). split.
  - rewrite gexec_gapp, E1. cbn [rbind].
    change (GSeq (GScalar ?a) (GSeq (GScalar Ret) ?k)) with (gapp (GSeq (GScalar a) GRet) (GSeq (GScalar Ret) k)).
    rewrite gexec_gapp, (gr_exec _ _ _ _ _ _ _ _ _ _ _ R2). cbn [rbind gexec gstep exec rmap].
    change (set_gm (gm (set_gm (gm s2) s2)) (set_gm (gm s2) s2)) with s2. unfold read_bit.
    simpl (env (gm s2)). unfold env2 at 1. rewrite lookup_insert_eq. cbn [rbind].
    rewrite <- Hb. destruct V3 as [V3 V3']. destruct b; rewrite E3; cbn [rbind]; by rewrite V3, V3'.
  - assert (Hs' : forall r, r ∈ scope' -> r ∈ scope2 \/ r = k \/ r = S k).
    { rewrite <- Hsc. intros r Hr. set_solver. }
    pose proof (ga_typed _ _ _ _ A3) as T3.
    eapply (gagree_merge g2 scope2 s2 gs1 g3'); [exact A2|exact A3|by intros; apply C3|done| |done|lia
      |exact Hv| |].
    + exact (ggrows_diamond ids _ _ _ _ _ _ _ _ _ _ G3 D3 G4 D4).
    + intros r [Hr|Hr]%Hs' Hge; [|done].
      pose proof (ag_scope _ _ _ _ _ _ _ _ (ga_scalar _ _ _ _ A2) r Hr). lia.
    + eapply (agree_regs (gc g4) _ scope2 _ (gm s2)).
      * eapply agree_skip; [apply A2|apply (ggrows_trans _ _ _ _ _ _ G3 G4)|apply W4].
      * apply W.
      * simpl. lia.
      * done.
      * intros r [Hr|Hr]%Hs'; [by left|right]. simpl. unfold k in Hr. lia.
      * intros r Hr. simpl. rewrite !lookup_insert_ne by (unfold k; lia). done.
      * apply (ag_ctx _ _ _ _ _ _ _ _ (ga_scalar _ _ _ _ A3)).
      * apply T3.
      * apply T3.
  - intros r Hr. simpl. unfold env2. rewrite !lookup_insert_ne by lia. by apply K1.
  - simpl. by rewrite L3.
  - simpl. by rewrite O3.
  - simpl. by rewrite R3.
  - intros id o Hne Ho. apply C3; [done|]. by apply C1.
  - split; simpl; [|by rewrite lookup_insert_eq].
    by rewrite lookup_insert_ne, lookup_insert_eq by lia.
Qed.

Lemma gsim_EmitValueGradientExpr e :
  (forall ps, params c0 = Some ps -> num_params c0 = length ps) -> gtyped e -> gsim_expr e.
Proof.
  intros Hfull.
  induction e as [loc x|loc name|loc name i|loc k e IH|loc k l r IHl IHr|loc name args i sym IH
    |loc c t e IHc IHt IHe] using Expr_rect'; intros Ht; simpl in Ht.
  - apply gsim_gret; by right.
  - by intros g vg code g' scope scope' s gs out gs' _ _ _ _ _ [=].
  - apply gsim_param; [done|done|]. by destruct param_in.
  - assert (He : garg_ok e) by (split; auto). destruct k.
    + apply (gsim_ext_m _ _ _ (emit_expr e)).
      { intros g. simpl. unfold gbind. destruct (emit_expr e g) as [[[a c] g']|]; [|done]. simpl.
        by rewrite gapp_GRet. }
      eapply gsim_refine; [|apply He]. intros gs r _ Hi. simpl in Hi.
      by destruct (eval_expr e gs) as [[x gs1]|].
    + apply gsim_bind; [by apply IH|by apply garg_emits| |].
      * intros x. apply gneeds_bind_l, gneeds_scalar, needs_build. set_solver.
      * intros x d. apply gsim_EmitGradUnary; set_solver.
  - destruct Ht as [Tl Tr]. assert (Hl : garg_ok l) by (split; auto). assert (Hr : garg_ok r) by (split; auto).
    apply gsim_bind; [by apply IHl|by apply garg_emits| |].
    + intros x. eapply (gneeds_bind_r ids); [by apply garg_emits|]. intros y.
      destruct x as [xv xg], y as [yv yg]. apply gneeds_bind_l, gneeds_scalar, needs_EmitBinary_l.
    + intros x d. apply gsim_bind; [by apply gsim_held, IHr|by apply garg_emits| |].
      * intros y. destruct x as [xv xg], y as [yv yg].
        apply gneeds_bind_l, gneeds_scalar, (needs_EmitBinary_r ∅).
      * intros y d'. apply gsim_EmitGradBinary; set_solver.
  - apply gsim_FunctionCall; [done|]. destruct Ht as [_ Hargs%gtyped_args].
    rewrite Forall_forall in *. intros a Ha. split; auto.
  - destruct Ht as (Tc & Tt & Te). apply gsim_Conditional; split; auto.
Qed.
End simulation.

(** ** Programs *)

(** The gradients of the signals in order, each with a fresh cache. *)
Fixpoint EvaluateProgramGradient {D L} `{Machine D L} (table : SymbolTable) (market : MarketState D)
  (signals : list (SignalDef D)) (param_id : Z) (c : SignalContext D L)
  : Res (list (ValueGradient D) * SignalContext D L) :=
  match signals with
  | [] => Ok ([], c)
  | s :: rest =>
      '(out, c) <- EvaluateSignalGradient s table market c param_id;;
      '(outs, c) <- EvaluateProgramGradient table market rest param_id c;;
      Ok (out :: outs, c)
  end.

Section programs.
Context {D L : Type} `{Machine D L}.
Variable cfg : Config.
Variable Γ : gmap Z GradOp.
Variable c0 : SignalContext D L.
Hypothesis params_full : forall ps, params c0 = Some ps -> num_params c0 = length ps.
Implicit Types (g : GradCodegen D) (vg : ValueGradientIr D) (s : GradMachine D L)
  (gs : GradState D L) (scope : gset nat).

Section tick.
Variable market : MarketState D.
Variable param_id : Z.
Hypothesis param_in : param_ok param_id c0.
Notation gagree ids := (gagree market Γ c0 ids).

(** A fresh cache agrees as long as no node of the signal has been emitted. *)
Lemma gagree_fresh ids ids' g scope s gs :
  gagree ids g scope s gs -> (forall id, id ∈ ids' -> stateful_grad_emit_cache g !! id = None) ->
  gagree ids' g scope s (MkGrad (g_ctx gs) ∅).
Proof.
  intros [W S T Hh Mi] Hids. split; try done; simpl.
  - intros id vg Hid Hr. rewrite (Hids id Hid) in Hr. done.
  - intros id [d Hd]. by rewrite lookup_empty in Hd.
Qed.

(** Naming a signal's value, and storing it with its gradient. *)
Lemma gagree_signal ids g scope s gs name vg out grads :
  gagree ids g scope s gs -> vg_below (next_reg (gc g)) vg ->
  gagree ids (MkGradCodegen
      (MkCodegen (next_reg (gc g)) (program_market_field_cache (gc g)) (stateful_emit_cache (gc g))
         (<[name := ir_value vg]> (signal_values (gc g))) (next_node_id (gc g)))
      (stateful_grad_emit_cache g) (<[name := vg]> (signal_value_gradients g))) scope
    (MkGradMachine (MkState (env (gm s)) (js (gm s)) out) grads) gs.
Proof.
  intros [[Ws Wc Wv] S T Hh Mi] Hb.
  pose proof (agree_signal ∅ c0 market ∅ _ _ _ _ name (ir_value vg) out S (proj1 Hb)) as S'.
  split; try done. split; simpl; [apply S'|done|].
  intros name' w. rewrite lookup_insert_Some. intros [[_ <-]|[_ Hw]]; [done|by eapply Wv].
Qed.

(** The signals of a program, with the ids each of them uses. *)
Lemma run_gradient_signals signals idss i g u code g' scope scope' s c outs c' :
  Forall2 (fun ids sd => gtyped Γ ids (sig_body sd)) idss signals ->
  (forall k l a b, idss !! k = Some a -> idss !! l = Some b -> k <> l -> a ## b) ->
  (forall id, is_Some (stateful_grad_emit_cache g !! id) -> Forall (fun ids => id ∉ ids) idss) ->
  gagree ∅ g scope s (MkGrad c ∅) ->
  emit_gradient_signals cfg i signals g = Ok (u, code, g') -> gverify scope code = Some scope' ->
  EvaluateProgramGradient (symbols cfg) market signals param_id c = Ok (outs, c') ->
  exists s', gexec market param_id code s = Ok s' /\ js_ctx (js (gm s')) = c' /\
    js_low (js (gm s')) = js_low (js (gm s)) /\
    outputs (gm s') = map_seq i (map vg_value outs) ∪ outputs (gm s) /\
    gradients s' = map_seq i (map vg_gradient outs) ∪ gradients s /\ gctx_typed Γ c0 c'.
Proof.
  intros Hty. revert i g u code g' scope scope' s c outs c'.
  induction Hty as [|ids sd idss signals Ht _ IH];
    intros i g u code g' scope scope' s c outs c' Hdis Hnew Ha Hm Hv He; simpl in Hm, He.
  - injection Hm as <- <- <-. injection Hv as <-. injection He as <- <-. exists s.
    pose proof (ag_ctx _ _ _ _ _ _ _ _ (ga_scalar _ _ _ _ _ _ _ _ Ha)) as Hc. simpl in Hc.
    split_and!; [done|done|done| | |apply Ha]; symmetry;
      [exact (map_empty_union (outputs (gm s)))|exact (map_empty_union (gradients s))].
  - apply gbind_Ok in Hm as (vg & c1 & g1 & c2 & H1 & Hm & ->).
    apply gbind_Ok in Hm as (u2 & c3 & g2 & c4 & [= <- <- <-] & Hm & ->).
    apply gbind_Ok in Hm as (u3 & c5 & g3 & c6 & H3 & Hm & ->).
    apply scalar_Ok in H3 as (cs & cgs & [= <- <- <-] & -> & ->).
    apply gbind_Ok in Hm as (u4 & c7 & g4 & c8 & [= <- <- <-] & Hm & ->).
    apply gverify_gapp in Hv as (mid & Hv1 & Hv). simpl gapp in Hv.
    apply gverify_scalar in Hv as (mid2 & Hvs & Hv). apply verify_Seq in Hvs as [Huse [= <-]].
    apply gverify_instr in Hv as [_ Hv]; [|done].
    apply bind_Ok in He as ([o ce] & He1 & He). apply bind_Ok in He as ([os ce'] & He2 & He).
    injection He as <- <-. unfold EvaluateSignalGradient in He1.
    apply bind_Ok in He1 as (u5 & _ & He1). apply bind_Ok in He1 as (u6 & _ & He1).
    apply bind_Ok in He1 as ([o' gs1] & He1 & [= -> <-]).
    assert (Hids : forall id, id ∈ ids -> stateful_grad_emit_cache g !! id = None).
    { intros id Hid. apply eq_None_not_Some. intros Hs. apply Hnew in Hs.
      by apply Forall_cons in Hs as [Hs _]. }
    pose proof (gagree_fresh _ ids _ _ _ _ Ha Hids) as Ha'. simpl in Ha'.
    destruct (gsim_EmitValueGradientExpr cfg market Γ c0 param_id ids param_in _ params_full Ht
      _ _ _ _ _ _ _ _ _ _ Ha' (Forall_nil_2 _) H1 Hv1 Huse He1) as [s1 [E1 A1 K1 L1 O1 R1 C1 [V1 G1]]].
    destruct (gemits_EmitValueGradientExpr ids cfg _ (gtyped_ids_in _ _ _ Ht) 0 _ _ _ _ (Nat.le_0_l _)
      (ga_wf _ _ _ _ _ _ _ _ Ha) H1) as (Gr & W1 & B1).
    pose proof (gagree_fresh _ ∅ _ _ _ _ A1 ltac:(set_solver)) as A2.
    apply (gagree_signal _ _ _ _ _ (sig_name sd) vg (<[i := vg_value o]> (outputs (gm s1)))
      (<[i := vg_gradient o]> (gradients s1))) in A2; [|done].
    edestruct IH as (s' & E' & J' & L' & O' & R' & T'); [| |exact A2|exact Hm| |exact He2|].
    + intros k l a b Hk Hl Hne. by apply (Hdis (S k) (S l)); [..|lia].
    + simpl. intros id [r Hr]. destruct (gg_stateful _ _ _ _ Gr _ _ Hr) as [Hold|[Hid _]].
      * by specialize (Hnew id ltac:(by eexists)) as [_ ?]%Forall_cons.
      * apply Forall_lookup_2. intros k b Hk Hin. by apply (Hdis 0 (S k) ids b eq_refl Hk ltac:(lia) id).
    + simpl in Hv. rewrite !union_empty_l_L in Hv. exact Hv.
    + exists s'. rewrite gexec_gapp, E1. simpl. rewrite V1. simpl. rewrite G1. simpl.
      split_and!; [done|done|by rewrite L'| | |done].
      * rewrite O'. simpl. rewrite O1. apply map_seq_cons_outputs.
      * rewrite R'. simpl. rewrite R1. apply map_seq_cons_outputs.
Qed.

Hypothesis market_full : market_covers cfg market.
Variable hash_order : forall A, list A -> list A.
Hypothesis hash_order_elem : forall A (l : list A) x, x ∈ hash_order A l -> x ∈ l.

(** One call of a compiled gradient program. *)
Lemma run_gradient_tick signals idss code msg c low outs c' :
  Forall2 (fun ids sd => gtyped Γ ids (sig_body sd)) idss signals ->
  (forall k l a b, idss !! k = Some a -> idss !! l = Some b -> k <> l -> a ## b) ->
  gctx_typed Γ c0 c ->
  build_gradient_function (EmitGradientProgram hash_order cfg signals) msg = Ok code ->
  EvaluateProgramGradient (symbols cfg) market signals param_id c = Ok (outs, c') ->
  run_gradient_program market param_id code (MkJit c low) =
    Ok (map_seq 0 (map vg_value outs), map_seq 0 (map vg_gradient outs), MkJit c' low) /\
  gctx_typed Γ c0 c'.
Proof.
  intros Hty Hdis Hc Hb He. unfold build_gradient_function in Hb.
  apply bind_Ok in Hb as ([[u code'] g'] & Hm & Hb).
  destruct (gverify ∅ code') as [scope'|] eqn:Hv; [|done]. injection Hb as ->.
  apply gbind_Ok in Hm as (u1 & c1 & g1 & c2 & Hm & Hs & ->).
  apply scalar_Ok in Hm as (cs & cgs & Hm & -> & ->). unfold PrewarmProgramMarketLoads in Hm.
  apply bindE_Ok in Hm as (syms & c3 & cg3 & c4 & Hl & Hm & ->).
  apply fmap_Ok in Hl as (syms' & Hl & [= -> <- <-]). simpl capp in *. simpl gapp in Hv.
  apply gverify_scalar in Hv as (mid & Hv1 & Hv2).
  assert (Hsyms : Forall (fun k => k < length (instruments market)) (hash_order nat syms)).
  { apply lookup_all_bounded with (market := market) in Hl; [|done]. rewrite Forall_forall in *. eauto. }
  assert (Hst : ctx_typed ∅ c0 c) by (destruct Hc; by split).
  destruct (run_loads ∅ c0 market ∅ _ _ _ _ _ _ _ _ _ Hsyms (agree_start ∅ c0 market c low Hst) Hm Hv1)
    as (s1 & E1 & A1 & J1 & O1 & S1).
  assert (A2 : gagree ∅ (MkGradCodegen cgs ∅ ∅) mid (MkGradMachine s1 ∅) (MkGrad c ∅)).
  { split; try done; [split; [apply A1|done..]|]. intros id [o Ho]. simpl in Ho; by rewrite lookup_empty in Ho. }
  edestruct (run_gradient_signals signals idss 0) as (s2 & E2 & C2 & L2 & O2 & R2 & T2);
    [exact Hty|exact Hdis| |exact A2|exact Hs|exact Hv2|exact He|].
  { intros id [d Hd]. simpl in Hd. by rewrite lookup_empty in Hd. }
  split; [|done]. unfold run_gradient_program. simpl. rewrite E1. simpl.
  unfold set_gm. simpl. rewrite E2. simpl. rewrite O2, R2. simpl. rewrite O1. simpl. rewrite !map_union_empty. f_equal. f_equal.
  destruct (js (gm s2)) as [cc ll]. simpl in *. subst. by rewrite J1.
Qed.
End tick.
End programs.

(** Calls of a gradient program, each with the market and the parameter's
    number: by the interpreter, and by compiled code. *)
Fixpoint interpreted_gradients {D L} `{Machine D L} (table : SymbolTable) (signals : list (SignalDef D))
  (calls : list (MarketState D * Z)) (c : SignalContext D L)
  : Res (list (list (ValueGradient D)) * SignalContext D L) :=
  match calls with
  | [] => Ok ([], c)
  | (market, param_id) :: rest =>
      '(row, c) <- EvaluateProgramGradient table market signals param_id c;;
      '(rows, c) <- interpreted_gradients table signals rest c;;
      Ok (row :: rows, c)
  end.

Fixpoint compiled_gradients {D L} `{Machine D L} (code : GCode D) (calls : list (MarketState D * Z))
  (s : JitState D L) : Res (list (gmap nat D * gmap nat D) * JitState D L) :=
  match calls with
  | [] => Ok ([], s)
  | (market, param_id) :: rest =>
      '(values, grads, s) <- run_gradient_program market param_id code s;;
      '(rows, s) <- compiled_gradients code rest s;;
      Ok ((values, grads) :: rows, s)
  end.

(** The arrays a row of results fills. *)
Definition gradient_row {D} (outs : list (ValueGradient D)) : gmap nat D * gmap nat D :=
  (map_seq 0 (map vg_value outs), map_seq 0 (map vg_gradient outs)).

(** Each signal's calls are typed by [Γ] and use ids of their own. *)
Record gradient_program_typed {D L} `{Machine D L} (Γ : gmap Z GradOp) (idss : list (gset Z))
  (signals : list (SignalDef D)) : Prop := {
  gpt_typed : Forall2 (fun ids sd => gtyped Γ ids (sig_body sd)) idss signals;
  gpt_disjoint : forall k l a b, idss !! k = Some a -> idss !! l = Some b -> k <> l -> a ## b }.

Section theorem.
Context {D L : Type} `{Machine D L}.
Variable hash_order : forall A, list A -> list A.
Hypothesis hash_order_elem : forall A (l : list A) x, x ∈ hash_order A l -> x ∈ l.

(** C3: compiled gradient programs refine the forward interpreter: if
    emission and verification of a gradient program succeed, on a context
    that is ready for the program's calls and with calls numbered apart in
    different signals, then for any sequence of calls with any markets and
    any of the parameters on which [EvaluateSignalGradient] evaluates the
    signals in order, the compiled function writes the same values and the
    same derivatives bit for bit to its two arrays and leaves the same
    context, operator states and sensitivities, and the lowered states
    untouched. *)
Theorem compiled_gradient_parity cfg Γ idss (signals : list (SignalDef D)) calls code msg c low rows
    (c' : SignalContext D L) :
  gradient_program_typed (L:=L) Γ idss signals -> gctx_typed Γ c c ->
  (forall ps, params c = Some ps -> num_params c = length ps) ->
  Forall (fun '(market, param_id) => market_covers cfg market /\ param_ok param_id c) calls ->
  build_gradient_function (EmitGradientProgram hash_order cfg signals) msg = Ok code ->
  interpreted_gradients (symbols cfg) signals calls c = Ok (rows, c') ->
  compiled_gradients code calls (MkJit c low) = Ok (map gradient_row rows, MkJit c' low).
Proof.
  intros [Hty Hdis] Hc Hfull Hm Hb. generalize Hc. generalize c at 2 3 4 as c1. revert rows.
  induction Hm as [|[market p] rest [Hmk Hp] _ IH]; intros rows c1 Hc1 He; simpl in He.
  - by injection He as <- <-.
  - apply bind_Ok in He as ([row c2] & He1 & He). apply bind_Ok in He as ([rows' c3] & He2 & He).
    injection He as <- <-.
    destruct (run_gradient_tick cfg Γ c Hfull market p Hp Hmk hash_order hash_order_elem
      signals idss code msg c1 low row c2 Hty Hdis Hc1 Hb He1) as [Hr Hc2].
    simpl. rewrite Hr. simpl. by rewrite (IH _ _ Hc2 He2).
Qed.
End theorem.

(** [if sma(k * mid(AAPL), 2) > 1 then sma(k * mid(AAPL), 2) else lag(k, 1)]
    and [ema_alpha(mid(AAPL), k)] with the parameter [k = 3], numbered,
    prewarmed and compiled. *)
Module GradientExample.
#[local] Instance machine : Machine double long_double := parity_machine.
Definition call (name : string) (args : list (Expr double)) (id : Z) : Expr double :=
  FunctionCall noloc name args id (-1).
Definition num (z : Z) : Expr double := NumberLiteral noloc (fint z).
Definition quote : Expr double := call "mid" [IdentifierExpr noloc "AAPL"] (-1).
Definition k : Expr double := ParameterExpr noloc "k" 0.
Definition program (sma lag ema : Z) : list (SignalDef double) :=
  let mean := call "sma" [BinaryOp noloc Mul k quote; num 2] sma in
  [MkSignal "a" (Conditional noloc (BinaryOp noloc Gt mean (num 1)) mean (call "lag" [k; num 1] lag));
   MkSignal "b" (call "ema_alpha" [quote; k] ema)].
Definition signals : list (SignalDef double) := program 1 2 3.
Definition cfg : Config := MkConfig (MkSymbolTable (<["AAPL" := 0]> ∅) 1) kNone false false ∅.
Definition context : SignalContext double long_double :=
  match fold_left (fun c s => rbind c (fun c => PrewarmSignalContext c s)) signals
          (Ok (SetStandaloneParameters SignalContext_init [fint 3])) with
  | Ok c => c | Err _ => SignalContext_init end.
Definition calls : list (MarketState double * Z) :=
  map (fun z => (MkMarket [MkInstrument (fint z) (fint (z + 2)) (fint 0) (fint 0) 0] 0, 0%Z)) [1; 4; -7]%Z.
Definition ops : gmap Z GradOp := {[1 := GoSma 2; 2 := GoLag 1; 3 := GoEmaAlpha]}%Z.
Definition code : GCode double :=
  match build_gradient_function (EmitGradientProgram (fun _ l => l) cfg signals) "" with
  | Ok code => code | Err _ => GRet end.
Definition low : LoweredStates double long_double := MkLowered [] [] [] [] [] [] [] [] [] [] [] [].
End GradientExample.

Lemma compiled_gradient_parity_witness :
  let run := interpreted_gradients (H:=GradientExample.machine) (symbols GradientExample.cfg)
               GradientExample.signals GradientExample.calls GradientExample.context in
  AllocateProgramNodeIds (GradientExample.program (-1) (-1) (-1)) = (GradientExample.signals, 3%Z) /\
  exists rows c', run = Ok (rows, c') /\ length rows = 3 /\
    compiled_gradients (H:=GradientExample.machine) GradientExample.code GradientExample.calls
      (MkJit GradientExample.context GradientExample.low) =
    Ok (map gradient_row rows, MkJit c' GradientExample.low).
Proof.
  intros run. split; [vm_compute; reflexivity|]. destruct run as [[rows c']|] eqn:E; [|by vm_compute in E].
  exists rows, c'. split_and!; [done| |].
  - vm_compute in E. injection E as <- _. reflexivity.
  - apply (compiled_gradient_parity (H:=GradientExample.machine) (fun _ l => l) (fun _ _ _ Hx => Hx)
      GradientExample.cfg GradientExample.ops [{[1; 2]}; {[3]}]%Z GradientExample.signals
      GradientExample.calls GradientExample.code "" GradientExample.context).
    + clear E run. split.
      * constructor; [|constructor; [|constructor]].
        all: unfold GradientExample.quote, GradientExample.call; cbn [sig_body gtyped map foldr].
        all: repeat match goal with
             | |- context [IsStatefulOp ?s] =>
                 let b := eval vm_compute in (IsStatefulOp s) in change (IsStatefulOp s) with b
             end; cbn match.
        all: split_and!; try done; try lia.
        all: lazymatch goal with
             | |- exists _, _ => eexists; split; [vm_compute; reflexivity|vm_compute; reflexivity]
             | |- _ => apply (bool_decide_unpack _); vm_compute; exact I
             end.
      * intros [|[|k]] [|[|l]] a b [= <-] [= <-] Hne; try contradiction.
        all: apply (bool_decide_unpack _); vm_compute; exact I.
    + clear E run. split; [|reflexivity..]. intros id op Hop. unfold GradientExample.ops in Hop.
      apply lookup_insert_Some in Hop as [[<- <-]|[_ Hop]];
        [|apply lookup_insert_Some in Hop as [[<- <-]|[_ Hop]];
          [|apply lookup_singleton_Some in Hop as [<- <-]]].
      all: split; [reflexivity|split; [split; reflexivity || exact I|]].
      all: intros st Hst; vm_compute in Hst; injection Hst as <-; try split; reflexivity.
    + intros ps Hps. vm_compute in Hps. injection Hps as <-. reflexivity.
    + clear E run. unfold GradientExample.calls. rewrite Forall_map. apply Forall_forall.
      intros z _. split; [|split; vm_compute; congruence]. intros name id Hl. unfold LookupId in Hl.
      cbn [symbols symbol_to_id_ GradientExample.cfg instruments length] in *.
      destruct (decide (name = "AAPL")) as [->|Hne].
      * rewrite lookup_insert_eq in Hl. injection Hl as <-. lia.
      * by rewrite lookup_insert_ne, lookup_empty in Hl.
    + vm_compute. reflexivity.
    + exact E.
Defined.
