(* ===== verification/LoweredFacts.v ===== *)
(** * Lowered operators compute what the interpreter computes

    A struct of Lowered.v simulates the slot of its node in the context when
    both have been prewarmed together.  For the operators on one [double] of
    state or on comparisons alone ([ema], [lag], the crossings and the window
    extrema) the emitted code is the interpreter's step bit for bit; the
    operators that keep sums differ in rounding and are compared in exact
    arithmetic in LoweredExactFacts.v. *)

From S2P Require Import Prelude Errors Arith Ast SymbolTable Rolling Context Interpreter JitRuntime Lowered Ir JitCompiler RollingFacts MonoFacts SafetyFacts JitFacts JitCompilerFacts.

Lemma vec_grow_fresh {A} k (d : A) l : l !! k = None -> vec_grow (S k) d l !! k = Some d.
Proof.
  intros Hl%lookup_ge_None. unfold vec_grow, vec_resize.
  destruct (Nat.ltb_spec (length l) (S k)); [|lia].
  rewrite take_ge by lia. rewrite lookup_app_r by lia. apply lookup_replicate_2. lia.
Qed.

(** ** A step of one side simulated by a step of the other *)

Section simulation.
Context {D L : Type} `{Machine D L}.
Notation Ctx := (SignalContext D L).

Definition step_sim {S S' A} (R R' : S -> S' -> Prop) (f : S -> Res (A * S)) (g : S' -> Res (A * S'))
  : Prop :=
  forall st st' v st1, R st st' -> f st = Ok (v, st1) ->
    exists st1', g st' = Ok (v, st1') /\ R' st1 st1'.

(** The slots of a node in the two kinds of arrays. *)
Definition linked {S S'} (sl : Slots (NodeStates D L) S) (lsl : Slots (LoweredStates D L) S')
  (id : Z) (R : S -> S' -> Prop) (c : Ctx) (low : LoweredStates D L) : Prop :=
  exists st st', slots_get sl (nodes c) !! Z.to_nat id = Some st /\
    slots_get lsl low !! Z.to_nat id = Some st' /\ R st st'.

(** Accessors of a lowered array store what they read. *)
Class LowGetSet {S} (sl : Slots (LoweredStates D L) S) : Prop :=
  low_get_set c v : slots_get sl (slots_set sl v c) = v.

#[export] Instance low_get_set_sma : LowGetSet sma_lowered_slots. Proof. done. Qed.
#[export] Instance low_get_set_ema : LowGetSet ema_lowered_slots. Proof. done. Qed.
#[export] Instance low_get_set_lag : LowGetSet lag_lowered_slots. Proof. done. Qed.
#[export] Instance low_get_set_std : LowGetSet rolling_std_lowered_slots. Proof. done. Qed.
#[export] Instance low_get_set_zscore : LowGetSet zscore_lowered_slots. Proof. done. Qed.
#[export] Instance low_get_set_min : LowGetSet rolling_min_lowered_slots. Proof. done. Qed.
#[export] Instance low_get_set_max : LowGetSet rolling_max_lowered_slots. Proof. done. Qed.
#[export] Instance low_get_set_cross : LowGetSet cross_lowered_slots. Proof. done. Qed.
#[export] Instance low_get_set_kalman : LowGetSet kalman1d_lowered_slots. Proof. done. Qed.
#[export] Instance low_get_set_vwap : LowGetSet vwap_lowered_slots. Proof. done. Qed.
#[export] Instance low_get_set_corr : LowGetSet rolling_corr_lowered_slots. Proof. done. Qed.
#[export] Instance low_get_set_beta : LowGetSet rolling_beta_lowered_slots. Proof. done. Qed.

#[export] Instance node_get_set_ema : GetSet (D:=D) (L:=L) ema_slots. Proof. done. Qed.
#[export] Instance node_get_set_sma : GetSet (D:=D) (L:=L) sma_slots. Proof. done. Qed.
#[export] Instance node_get_set_std : GetSet (D:=D) (L:=L) rolling_std_slots. Proof. done. Qed.
#[export] Instance node_get_set_zscore : GetSet (D:=D) (L:=L) zscore_slots. Proof. done. Qed.
#[export] Instance node_get_set_vwap : GetSet (D:=D) (L:=L) vwap_slots. Proof. done. Qed.
#[export] Instance node_get_set_lag : GetSet (D:=D) (L:=L) lag_slots. Proof. done. Qed.
#[export] Instance node_get_set_cross : GetSet (D:=D) (L:=L) cross_slots. Proof. done. Qed.
#[export] Instance node_get_set_mind : GetSet (D:=D) (L:=L) rolling_min_deques_slots. Proof. done. Qed.
#[export] Instance node_get_set_maxd : GetSet (D:=D) (L:=L) rolling_max_deques_slots. Proof. done. Qed.
#[export] Instance node_get_set_mini : GetSet (D:=D) (L:=L) rolling_min_indices_slots. Proof. done. Qed.
#[export] Instance node_get_set_maxi : GetSet (D:=D) (L:=L) rolling_max_indices_slots. Proof. done. Qed.
#[export] Instance node_get_set_corr : GetSet (D:=D) (L:=L) rolling_corr_slots. Proof. done. Qed.
#[export] Instance node_get_set_beta : GetSet (D:=D) (L:=L) rolling_beta_slots. Proof. done. Qed.
#[export] Instance node_get_set_kalman : GetSet (D:=D) (L:=L) kalman1d_slots. Proof. done. Qed.

Lemma with_node_inv {S A} (sl : Slots (NodeStates D L) S) `{!GetSet sl} id (f : S -> Res (A * S)) c r :
  with_node sl id f c = Ok r ->
  exists st a st', slots_get sl (nodes c) !! Z.to_nat id = Some st /\ f st = Ok (a, st') /\
    r = (a, set_nodes (slots_set sl (<[Z.to_nat id := st']> (slots_get sl (nodes c))) (nodes c)) c) /\
    slots_get sl (nodes (snd r)) !! Z.to_nat id = Some st'.
Proof.
  intros Hw. unfold with_node, at_Z, at_idx in Hw. destruct (id <? 0)%Z; [done|].
  destruct (slots_get sl (nodes c) !! Z.to_nat id) as [st|] eqn:E; [|done]. simpl in Hw.
  apply bind_Ok in Hw as ([a st'] & Hf & [= <-]). exists st, a, st'. split_and!; try done. simpl.
  rewrite get_set. apply list_lookup_insert_eq. by eapply lookup_lt_Some.
Qed.

Lemma with_lowered_eq {S A} (sl : Slots (LoweredStates D L) S) `{!LowGetSet sl} id
  (f : S -> Res (A * S)) low st a st' :
  (0 <= id)%Z -> slots_get sl low !! Z.to_nat id = Some st -> f st = Ok (a, st') ->
  exists low', with_lowered sl id f low = Ok (a, low') /\
    slots_get sl low' !! Z.to_nat id = Some st'.
Proof.
  intros Hid Hst Hf. eexists. unfold with_lowered, at_Z, at_idx.
  destruct (Z.ltb_spec id 0); [lia|]. rewrite Hst. simpl. rewrite Hf. simpl.
  split; [done|]. rewrite low_get_set. apply list_lookup_insert_eq. by eapply lookup_lt_Some.
Qed.

(** A step of the interpreter on a node and the effect on the node's struct. *)
Lemma linked_step {S S' A} (sl : Slots (NodeStates D L) S) (lsl : Slots (LoweredStates D L) S')
  `{!GetSet sl, !LowGetSet lsl} name id R R' (f : S -> Res (A * S)) (g : S' -> Res (A * S')) s j v s1 :
  (0 <= id)%Z -> step_sim R R' f g -> linked sl lsl id R (ctx s) (js_low j) ->
  on_node sl name id f s = Ok (v, s1) ->
  exists low, on_low (with_lowered lsl id g) j = Ok (v, MkJit (js_ctx j) low) /\
    linked sl lsl id R' (ctx s1) low.
Proof.
  intros Hid Hsim (st & st' & Hst & Hst' & HR) Ho. unfold on_node in Ho.
  destruct (Z.ltb_spec id 0); [lia|]. apply bind_Ok in Ho as ([a c] & Hw & [= <- <-]).
  apply with_node_inv in Hw as (st0 & a' & st1 & Hst0 & Hf & [= -> ->] & Hst1); [|done].
  simpl in Hst1. simplify_eq. destruct (Hsim _ _ _ _ HR Hf) as (st1' & Hg & HR').
  destruct (with_lowered_eq lsl id g (js_low j) st' a' st1' Hid Hst' Hg) as (low & Hl & Hget).
  exists low. unfold on_low. rewrite Hl. simpl. split; [done|]. by exists st1, st1'.
Qed.

(** ** Single steps *)

(** The [n] ticks that are left fit a signed index. *)
Definition ema_rel (st : EMAState D) (st' : EmaStateLowered D) : Prop :=
  el_value st' = e_value st /\ el_initialized st' = e_initialized st.

Lemma ema_sim p x : step_sim ema_rel ema_rel (ema_step p x) (lowered_ema false p x).
Proof.
  intros st [v i] a st1 [Hv Hi] [= <- <-]. simpl in *. subst.
  unfold lowered_ema, ema_rel, ema_blend. simpl. destruct (e_initialized st); by eexists.
Qed.

Definition lag_rel p (st : LagState D) (st' : LagStateLowered D) : Prop :=
  l_capacity st = p /\ l_count st <= p /\ ll_buffer st' = l_buffer st /\
  ll_head st' = l_head st /\ ll_count st' = l_count st.

Lemma set_idx_at {A} w w' w'' (l l' : list A) i x :
  set_idx w l i x = Ok l' -> set_idx w' l i x = Ok l' /\ exists y, at_idx w'' l i = Ok y.
Proof.
  unfold set_idx, at_idx. destruct (decide _) as [Hi|]; [|done]. intros [= <-]. split; [done|].
  destruct (lookup_lt_is_Some_2 l i Hi) as [y ->]. by exists y.
Qed.

Lemma lag_sim p x : 0 < p -> step_sim (lag_rel p) (lag_rel p) (lag_step p x) (lowered_lag false p x).
Proof.
  intros Hp st [b h c k] a st1 (Hc & Hle & Hb & Hh & Hn) Hs. simpl in *. subst.
  unfold lag_step in Hs. apply bind_Ok in Hs as (y & Hy & Hs). apply bind_Ok in Hs as (st2 & H2 & Hs).
  injection Hs as <- <-. unfold LagPush, LagPrepare in H2. rewrite decide_True in H2 by done.
  apply bind_Ok in H2 as (u & _ & H2). apply bind_Ok in H2 as (buf & Hbuf & [= <-]).
  destruct (set_idx_at _ "lag_slot" "lag_slot" _ _ _ _ Hbuf) as [Hset [z Hz]].
  unfold lowered_lag. simpl. rewrite Hz. simpl. rewrite Hset. simpl.
  unfold LagValue in Hy. destruct (Nat.eqb_spec (l_capacity st) 0); [lia|]. simpl in Hy.
  destruct (Nat.ltb_spec (l_count st) (l_capacity st)), (Nat.eqb_spec (l_count st) (l_capacity st));
    try lia; eexists; (split; [reflexivity || (do 3 f_equal)|]).
  - injection Hy as <-. reflexivity.
  - unfold lag_rel. simpl. split_and!; try reflexivity; lia.
  - unfold at_idx in *. destruct (l_buffer st !! l_head st); congruence.
  - unfold lag_rel. simpl. split_and!; try reflexivity; lia.
Qed.

Definition cross_rel (st : CrossState D) (st' : CrossStateLowered D) : Prop :=
  cl_prev_a st' = prev_a st /\ cl_prev_b st' = prev_b st /\ cl_initialized st' = c_initialized st.

Lemma cross_sim before now a b :
  step_sim cross_rel cross_rel (cross_step before now a b) (lowered_cross before now a b).
Proof.
  intros st [pa pb i] v st1 (Ha & Hb & Hi) [= <- <-]. simpl in *. subst.
  unfold lowered_cross, fbool. simpl. destruct (c_initialized st) eqn:E; simpl.
  - destruct (_ && _); by eexists.
  - by eexists.
Qed.

(** *** The deques *)

(** Ticks of the deque never exceed the index. *)
Definition mono_rel p (n : Z) (dq : MonoDequeState D) (idx : Z) (st' : RollingMinMaxStateLowered D)
  : Prop :=
  dq_cap dq = S p /\ ml_dq st' = dq /\ ml_idx st' = idx /\ (0 <= idx < n)%Z /\
  Forall (fun e => 0 <= fst e <= idx)%Z (dq_buf dq).

Lemma pop_back_while_buf drop n (dq dq' : MonoDequeState D) :
  pop_back_while drop n dq = Ok dq' -> dq_buf dq' = dq_buf dq.
Proof.
  revert dq. induction n as [|n IH]; intros dq; simpl; [by intros [= ->]|].
  destruct (MonoEmpty dq); [by intros [= ->]|]. intros Hw.
  apply bind_Ok in Hw as ([i v] & _ & Hw). destruct (drop v); [|by injection Hw as ->].
  by apply IH in Hw.
Qed.

Lemma pop_front_expired_buf idx p n (dq dq' : MonoDequeState D) :
  pop_front_expired idx p n dq = Ok dq' -> dq_buf dq' = dq_buf dq.
Proof.
  revert dq. induction n as [|n IH]; intros dq; simpl; [by intros [= ->]|].
  destruct (MonoEmpty dq); [by intros [= ->]|]. intros Hw.
  apply bind_Ok in Hw as ([i v] & _ & Hw). destruct (_ <? _)%Z; [|by injection Hw as ->].
  by apply IH in Hw.
Qed.

Lemma i64_small z : (0 <= z < 2 ^ 63)%Z -> i64 z = z.
Proof. intros Hz. unfold i64. rewrite Z.mod_small by lia. lia. Qed.

(** Signed and unsigned ages agree while the index has not overflowed. *)
Lemma lowered_pop_front_eq idx p n (dq : MonoDequeState D) :
  (0 <= idx < 2 ^ 63 - 1)%Z -> Forall (fun e => 0 <= fst e <= idx)%Z (dq_buf dq) ->
  lowered_pop_front idx p n dq = pop_front_expired idx p n dq.
Proof.
  intros Hidx. revert dq. induction n as [|n IH]; intros dq Hall; [done|]. simpl.
  destruct (MonoEmpty dq); [done|]. unfold MonoFront, at_idx.
  destruct (dq_buf dq !! dq_head dq) as [[first v]|] eqn:E; [|done]. simpl.
  rewrite Forall_forall in Hall. pose proof (Hall _ (list_elem_of_lookup_2 _ _ _ E)) as Hf. simpl in Hf.
  rewrite i64_small, u64_small by lia. destruct (_ <? _)%Z; [|done].
  apply IH. by rewrite Forall_forall.
Qed.

(** The slot update of [extremum_step] against [lowered_mono]. *)
Lemma mono_sim drop p n x dq idx st' v dq1 idx1 :
  (n < 2 ^ 63)%Z -> mono_rel p n dq idx st' ->
  MonoUpdate drop (MonoInit dq p) idx p x = Ok (v, dq1, idx1) ->
  exists st1', lowered_mono drop p x st' =
      Ok (if (idx1 <? Z.of_nat p)%Z then fnan else v, st1') /\
    mono_rel p (n + 1) dq1 idx1 st1'.
Proof.
  intros Hn (Hc & Hdq & Hi & Hlt & Hall) Hu. rewrite MonoInit_ready in Hu by done.
  pose proof (MonoUpdate_cap _ _ _ _ _ _ _ _ Hu) as Hcap. unfold MonoUpdate in Hu.
  apply bind_Ok in Hu as (d1 & H1 & Hu). apply bind_Ok in Hu as (d2 & H2 & Hu).
  apply bind_Ok in Hu as (d3 & H3 & Hu). apply bind_Ok in Hu as ([i w] & H4 & Hu).
  injection Hu as <- <- <-. apply pop_back_while_buf in H1 as B1.
  apply pop_front_expired_buf in H3 as B3. unfold MonoPushBack in H2 at 1.
  assert (B2 : Forall (fun e => 0 <= fst e <= idx)%Z (dq_buf d2)).
  { apply bind_Ok in H2 as (buf & Hb & [= <-]). simpl. unfold set_idx in Hb.
    destruct (decide _) in Hb; [|done]. injection Hb as <-. rewrite B1.
    apply Forall_insert; [done|]. simpl. lia. }
  unfold lowered_mono. rewrite Hdq, Hi, H1. simpl.
  change (MonoPushBack d1 (idx, x)) with (rbind (set_idx "buf[write_idx]" (dq_buf d1)
    (Nat.modulo (Nat.add (dq_head d1) (dq_count d1)) (dq_cap d1)) (idx, x))
    (fun buf => Ok (MkMono buf (dq_head d1) (S (dq_count d1)) (dq_cap d1)))).
  rewrite H2. simpl. rewrite lowered_pop_front_eq by (done || lia). rewrite H3. simpl.
  rewrite H4. simpl. rewrite i64_small, u64_small by lia. eexists. split.
  - do 3 f_equal. destruct (Z.leb_spec (Z.of_nat p) (idx + 1)), (Z.ltb_spec (idx + 1) (Z.of_nat p));
      done || lia.
  - unfold mono_rel. simpl. split_and!; [congruence|done|done|lia|lia|]. rewrite B3.
    eapply Forall_impl; [exact B2|]. simpl. lia.
Qed.


(** ** The code for an operator *)

(** The effect the compiler emits for an operator it lowers; the variances
    of a filter it lowers are constants. *)
Definition lowered (warm : bool) (op : RtOp D) (id : Z) (market : MarketState D) (a : Args (D:=D))
  : JitState D L -> Res (D * JitState D L) :=
  match op with
  | OEma p => run_effect market (LowEma warm id p) [arg1 a]
  | OEmaAlpha _ => fun _ => bad_call
  | OSma p => run_effect market (LowSma warm id p) [arg1 a]
  | OStd p => run_effect market (LowRollingStd warm id p) [arg1 a]
  | OZscore p => run_effect market (LowZscore warm id p) [arg1 a]
  | OVwap p sym => fun j =>
      ins <- instrument market sym;;
      run_effect market (LowVwap id p) [bid ins; ask ins; volume ins] j
  | OLag p => run_effect market (LowLag warm id p) [arg1 a]
  | OCrossAbove => run_effect market (LowCrossAbove id) [arg1 a; arg2 a]
  | OCrossBelow => run_effect market (LowCrossBelow id) [arg1 a; arg2 a]
  | OMin p => run_effect market (LowRollingMin id p) [arg1 a]
  | OMax p => run_effect market (LowRollingMax id p) [arg1 a]
  | OCorr p => run_effect market (LowRollingPair Corr id p) [arg1 a; arg2 a]
  | OBeta p => run_effect market (LowRollingPair Beta id p) [arg1 a; arg2 a]
  | OKalman => run_effect market (LowKalman1d id (arg2 a) (arg3 a)) [arg1 a]
  end.

Fixpoint lowered_ticks (warm : bool) (op : RtOp D) (id : Z)
  (inputs : list (MarketState D * Args (D:=D))) (j : JitState D L) : Res (list D * JitState D L) :=
  match inputs with
  | [] => Ok ([], j)
  | (market, a) :: rest =>
      '(v, j) <- lowered warm op id market a j;;
      '(vs, j) <- lowered_ticks warm op id rest j;; Ok (v :: vs, j)
  end.

(** A relation between the states, for each number of ticks that have
    passed, is kept by a tick and yields equal runs. *)
Lemma linked_ticks (P : Z -> Ctx -> LoweredStates D L -> Prop) (ok : MarketState D * Args (D:=D) -> Prop)
  op id bound n inputs s j vs s1 :
  (forall n i s j v s1, ok i -> (n < bound)%Z -> P n (ctx s) (js_low j) ->
    interpret op id (fst i) (snd i) s = Ok (v, s1) ->
    exists low, lowered false op id (fst i) (snd i) j = Ok (v, MkJit (js_ctx j) low) /\
      P (n + 1)%Z (ctx s1) low) ->
  Forall ok inputs -> (n + Z.of_nat (length inputs) <= bound)%Z -> P n (ctx s) (js_low j) ->
  ticks (interpret op id) inputs s = Ok (vs, s1) ->
  exists low, lowered_ticks false op id inputs j = Ok (vs, MkJit (js_ctx j) low).
Proof.
  intros Hstep Hok. revert n s j vs. induction Hok as [|[market a] rest Hi _ IH];
    intros n s j vs Hn HP Ht; simpl in *.
  - injection Ht as <- <-. exists (js_low j). by destruct j.
  - apply bind_Ok in Ht as ([v s2] & H1 & Ht). apply bind_Ok in Ht as ([vs' s3] & H2 & Ht).
    injection Ht as <- <-.
    destruct (Hstep n (market, a) s j v s2 Hi ltac:(lia) HP H1) as (low & Hl & HP').
    simpl in Hl. rewrite Hl. simpl.
    destruct (IH (n + 1)%Z s2 (MkJit (js_ctx j) low) vs' ltac:(lia) HP' H2) as (low' & Hl').
    rewrite Hl'. simpl. by exists low'.
Qed.

(** *** The operators that are translated exactly *)

Definition linked_mono (dqs : Slots (NodeStates D L) (MonoDequeState D)) (idxs : Slots (NodeStates D L) Z)
  (lsl : Slots (LoweredStates D L) (RollingMinMaxStateLowered D)) (id : Z)
  (R : MonoDequeState D -> Z -> RollingMinMaxStateLowered D -> Prop) (c : Ctx)
  (low : LoweredStates D L) : Prop :=
  exists dq idx st', slots_get dqs (nodes c) !! Z.to_nat id = Some dq /\
    slots_get idxs (nodes c) !! Z.to_nat id = Some idx /\
    slots_get lsl low !! Z.to_nat id = Some st' /\ R dq idx st'.

Lemma linked_mono_step (dqs : Slots (NodeStates D L) (MonoDequeState D)) idxs lsl drop
  `{!GetSet dqs, !GetSet idxs, !LowGetSet lsl} name id p n x s j v s1 :
  (forall c v, slots_get idxs (slots_set dqs v c) = slots_get idxs c) ->
  (forall c v, slots_get dqs (slots_set idxs v c) = slots_get dqs c) ->
  (0 <= id)%Z -> (n < 2 ^ 63)%Z -> linked_mono dqs idxs lsl id (mono_rel p n) (ctx s) (js_low j) ->
  extremum_step name dqs idxs (fun dq idx p x => MonoUpdate drop (MonoInit dq p) idx p x) id p x s
    = Ok (v, s1) ->
  exists low, on_low (with_lowered lsl id (lowered_mono drop p x)) j = Ok (v, MkJit (js_ctx j) low) /\
    linked_mono dqs idxs lsl id (mono_rel p (n + 1)) (ctx s1) low.
Proof.
  intros Hid1 Hid2 Hid Hn (dq & idx & st' & Hdq & Hidx & Hst' & HR) He.
  unfold extremum_step, on_node in He. destruct (Z.ltb_spec id 0); [lia|].
  apply bind_Ok in He as ([i e1] & E1 & He). apply bind_Ok in E1 as ([a1 c1] & W1 & [= <- <-]).
  apply with_node_inv in W1 as (st1 & ? & ? & G1 & [= <- <-] & [= -> ->] & G1'); [|done].
  apply bind_Ok in He as ([r e2] & E2 & He). apply bind_Ok in E2 as ([a2 c2] & W2 & [= <- <-]).
  apply with_node_inv in W2 as (st2 & ? & dq1 & G2 & U2 & [= -> ->] & G2'); [|done].
  apply bind_Ok in He as ([u e3] & E3 & He). apply bind_Ok in E3 as ([a3 c3] & W3 & [= <- <-]).
  apply with_node_inv in W3 as (st3 & ? & ? & G3 & [= <- <-] & [= -> ->] & G3'); [|done].
  injection He as <- <-. simpl in *. rewrite Hid2 in G2. simplify_eq.
  apply bind_Ok in U2 as ([[w dq2] i2] & U2 & [= <- <-]). simpl in *.
  destruct (mono_sim drop p n x _ _ _ _ _ _ Hn HR U2) as (st1' & Hl & HR').
  destruct (with_lowered_eq lsl id _ (js_low j) st' _ _ Hid Hst' Hl) as (low & Hlow & Hget).
  exists low. unfold on_low. rewrite Hlow. simpl. split; [done|].
  exists dq2, i2, st1'.
  split; [|split; [exact G3'|split; [exact Hget|exact HR']]].
  etransitivity; [|exact G2']. apply (f_equal (fun l => l !! Z.to_nat id)), Hid2.
Qed.

Definition bit_linked (n : Z) (op : RtOp D) (id : Z) (c : Ctx) (low : LoweredStates D L) : Prop :=
  match op with
  | OEma _ => linked ema_slots ema_lowered_slots id ema_rel c low
  | OLag p => linked lag_slots lag_lowered_slots id (lag_rel p) c low
  | OCrossAbove | OCrossBelow => linked cross_slots cross_lowered_slots id cross_rel c low
  | OMin p => linked_mono rolling_min_deques_slots rolling_min_indices_slots
                rolling_min_lowered_slots id (mono_rel p n) c low
  | OMax p => linked_mono rolling_max_deques_slots rolling_max_indices_slots
                rolling_max_lowered_slots id (mono_rel p n) c low
  | _ => False
  end.

Lemma bit_linked_step op id n market (a : Args (D:=D)) s j v s1 :
  (0 <= id)%Z -> op_valid op -> (n < 2 ^ 63)%Z -> bit_linked n op id (ctx s) (js_low j) ->
  interpret op id market a s = Ok (v, s1) ->
  exists low, lowered false op id market a j = Ok (v, MkJit (js_ctx j) low) /\
    bit_linked (n + 1) op id (ctx s1) low.
Proof.
  intros Hid Hv Hn HP Hi. destruct op; simpl in HP, Hv; try done; unfold interpret in Hi.
  - eapply linked_step; [apply _|apply _|done|apply ema_sim|exact HP|exact Hi].
  - eapply linked_step; [apply _|apply _|done|apply lag_sim; lia|exact HP|exact Hi].
  - eapply linked_step; [apply _|apply _|done|apply cross_sim|exact HP|exact Hi].
  - eapply linked_step; [apply _|apply _|done|apply cross_sim|exact HP|exact Hi].
  - eapply linked_mono_step; [apply _..|done|done|done|exact Hn|exact HP|exact Hi].
  - eapply linked_mono_step; [apply _..|done|done|done|exact Hn|exact HP|exact Hi].
Qed.

(** ** Prewarming *)

(** Neither the context nor the mirror has allocated anything for a node. *)
Definition low_view (k : nat) (low : LoweredStates D L) :=
  (sma_lowered low !! k, ema_lowered low !! k, lag_lowered low !! k, rolling_std_lowered low !! k,
   zscore_lowered low !! k, rolling_min_lowered low !! k, rolling_max_lowered low !! k,
   cross_lowered low !! k, kalman1d_lowered low !! k, vwap_lowered low !! k,
   rolling_corr_lowered low !! k, rolling_beta_lowered low !! k).

Record unallocated (k : nat) (c : Ctx) (low : LoweredStates D L) : Prop := {
  un_nodes : node_view k (nodes c) = node_view k NodeStates_init;
  un_low : low_view k low = low_view k LoweredStates_init }.

(** What prewarming leaves in the two slots of a node allocated for it. *)
Definition pair_low_started (p : nat) : RollingPairStateLowered D L :=
  MkPairLow (zeros p) (zeros p) 0 0 p zero_sums.

Definition both {S S'} (a : S) (b : S') (st : S) (st' : S') : Prop := st = a /\ st' = b.

Definition started (op : RtOp D) (id : Z) (c : Ctx) (low : LoweredStates D L) : Prop :=
  match op with
  | OEma p => linked ema_slots ema_lowered_slots id
      (both (prewarm_ema p EMAState_init) EmaStateLowered_init) c low
  | OEmaAlpha _ => True
  | OSma p => linked sma_slots sma_lowered_slots id
      (both (prewarm_ring p RingStatsState_init) (MkSmaLow (zeros p) (fint 0) 0 0 p)) c low
  | OStd p => linked rolling_std_slots rolling_std_lowered_slots id
      (both (prewarm_ring p RingStatsState_init) (prewarm_std_lowered p)) c low
  | OZscore p => linked zscore_slots zscore_lowered_slots id
      (both (prewarm_ring p RingStatsState_init) (prewarm_std_lowered p)) c low
  | OVwap p _ => linked vwap_slots vwap_lowered_slots id
      (both (VwapPrepare p VwapState_init)
         (MkVwapLow (zeros p) (zeros p) 0 0 p (fint 0) (fint 0))) c low
  | OLag p => linked lag_slots lag_lowered_slots id
      (both (LagPrepare p LagState_init) (MkLagLow (zeros p) 0 0 p)) c low
  | OCrossAbove | OCrossBelow => linked cross_slots cross_lowered_slots id
      (both CrossState_init CrossStateLowered_init) c low
  | OMin p => linked_mono rolling_min_deques_slots rolling_min_indices_slots
      rolling_min_lowered_slots id
      (fun dq idx st' => both (MonoInit MonoDequeState_init p) (prewarm_mono_lowered p) dq st' /\
                         idx = 0%Z) c low
  | OMax p => linked_mono rolling_max_deques_slots rolling_max_indices_slots
      rolling_max_lowered_slots id
      (fun dq idx st' => both (MonoInit MonoDequeState_init p) (prewarm_mono_lowered p) dq st' /\
                         idx = 0%Z) c low
  | OCorr p => linked rolling_corr_slots rolling_corr_lowered_slots id
      (both (RollingPairPrepare p RollingPairState_init) (pair_low_started p)) c low
  | OBeta p => linked rolling_beta_slots rolling_beta_lowered_slots id
      (both (RollingPairPrepare p RollingPairState_init) (pair_low_started p)) c low
  | OKalman => linked kalman1d_slots kalman1d_lowered_slots id
      (both Kalman1dState_init Kalman1dStateLowered_init) c low
  end.

Lemma prewarm_slot_at {S} (sl : Slots (NodeStates D L) S) `{!GetSet sl} id f c c' st :
  slots_get sl (nodes c) !! Z.to_nat id = Some st -> prewarm_slot sl id f c = Ok c' ->
  slots_get sl (nodes c') !! Z.to_nat id = Some (f st).
Proof.
  intros Hst Hp. unfold prewarm_slot in Hp. apply fmap_Ok in Hp as (r & Hw & <-).
  apply with_node_inv in Hw as (st0 & ? & st1 & H0 & [= <- <-] & -> & Hget); [|done].
  by simplify_eq.
Qed.

Lemma prewarm_lowered_at {S} (sl : Slots (LoweredStates D L) S) `{!LowGetSet sl} id f low low' st :
  slots_get sl low !! Z.to_nat id = Some st -> prewarm_lowered sl id f low = Ok low' ->
  slots_get sl low' !! Z.to_nat id = Some (f st).
Proof.
  intros Hst Hp. unfold prewarm_lowered, with_lowered, at_Z, at_idx in Hp.
  destruct (id <? 0)%Z; [done|]. rewrite Hst in Hp. injection Hp as <-.
  rewrite low_get_set. apply list_lookup_insert_eq. by eapply lookup_lt_Some.
Qed.

Lemma linked_prewarm {S S'} (sl : Slots (NodeStates D L) S) (lsl : Slots (LoweredStates D L) S')
  `{!GetSet sl, !LowGetSet lsl} id f g c c1 low low1 st0 st0' a b :
  prewarm_slot sl id f c = Ok c1 -> prewarm_lowered lsl id g low = Ok low1 ->
  slots_get sl (nodes c) !! Z.to_nat id = Some st0 -> slots_get lsl low !! Z.to_nat id = Some st0' ->
  f st0 = a -> g st0' = b ->
  linked sl lsl id (both a b) c1 low1.
Proof.
  intros Hc Hl Hst Hst' <- <-. exists (f st0), (g st0').
  split; [by eapply prewarm_slot_at|]. split; [by eapply prewarm_lowered_at|done].
Qed.

Lemma linked_mono_prewarm (dqs : Slots (NodeStates D L) (MonoDequeState D)) idxs lsl
  `{!GetSet dqs, !GetSet idxs, !LowGetSet lsl} id p c c1 low low1 idx0 st0' :
  (c <- prewarm_slot dqs id (fun dq => MonoInit dq p) c;; prewarm_slot idxs id (fun _ => 0%Z) c)
    = Ok c1 ->
  prewarm_lowered lsl id (fun _ => prewarm_mono_lowered p) low = Ok low1 ->
  (forall c v, slots_get idxs (slots_set dqs v c) = slots_get idxs c) ->
  (forall c v, slots_get dqs (slots_set idxs v c) = slots_get dqs c) ->
  slots_get dqs (nodes c) !! Z.to_nat id = Some MonoDequeState_init ->
  slots_get idxs (nodes c) !! Z.to_nat id = Some idx0 ->
  slots_get lsl low !! Z.to_nat id = Some st0' ->
  linked_mono dqs idxs lsl id
    (fun dq idx st' => both (MonoInit MonoDequeState_init p) (prewarm_mono_lowered p) dq st' /\
                       idx = 0%Z) c1 low1.
Proof.
  intros Hc Hl H1 H2 Hdq Hidx Hst'. apply bind_Ok in Hc as (c2 & Hc1 & Hc2).
  pose proof (prewarm_slot_at _ _ _ _ _ _ Hdq Hc1) as Hdq'.
  assert (Hidx' : slots_get idxs (nodes c2) !! Z.to_nat id = Some idx0).
  { unfold prewarm_slot in Hc1. apply fmap_Ok in Hc1 as (r & Hw & <-).
    apply with_node_inv in Hw as (? & ? & ? & ? & ? & -> & ?); [|done]. simpl. by rewrite H1. }
  pose proof (prewarm_slot_at _ _ _ _ _ _ Hidx' Hc2) as Hidx''.
  exists (MonoInit MonoDequeState_init p), 0%Z, (prewarm_mono_lowered p).
  split; [|split; [exact Hidx''|split; [exact (prewarm_lowered_at _ _ _ _ _ _ Hst' Hl)|done]]].
  unfold prewarm_slot in Hc2. apply fmap_Ok in Hc2 as (r & Hw & <-).
  apply with_node_inv in Hw as (? & ? & ? & ? & ? & -> & ?); [|done]. simpl. by rewrite H2.
Qed.

Lemma grown_nodes c k : nodes (EnsureNodeCapacity c k) = grow_nodes (S k) (nodes c).
Proof. unfold EnsureNodeCapacity. by destruct (_ <? _). Qed.

Variable clear_low : L -> L.
Hypothesis clear_low_zero : clear_low (fint 0) = fint 0.

(** A literal period as prewarming reads it. *)
Lemma period_prewarmed (e p : Expr D) rest n :
  period_of p = Some n -> 0 < n /\ ParsePreparedPeriod (e :: p :: rest) = Ok n.
Proof.
  unfold period_of. destruct p; try done. simpl. destruct (to_int value) as [z|]; [|done].
  destruct (period_ok value z) eqn:E; [|done]. intros [= <-].
  unfold period_ok in E. apply negb_true_iff, orb_false_iff in E as [E _].
  apply Z.leb_gt in E. split; [lia|done].
Qed.

(** Turns the tests of a chain of names on [name] into the name. *)
Ltac case_names H :=
  repeat match type of H with
  | (if (?n =? ?s)%string then _ else _) = Some _ =>
      destruct (String.eqb_spec n s) as [->|]; [|]
  end.

(** The slot just allocated for a node. *)
Ltac fresh_slot :=
  first [done | rewrite ?grown_nodes; apply vec_grow_fresh; done].

Lemma prewarm_started_window name (e p : Expr D) n op id c c1 low low1 :
  windowed_rtop name n = Some op -> period_of p = Some n -> unallocated (Z.to_nat id) c low ->
  prewarm_call name [e; p] id c = Ok c1 -> prewarm_lowered_call clear_low name [e; p] id low = Ok low1 ->
  started op id c1 low1.
Proof.
  intros Hop Hp [Un Ul] Hc Hl. destruct (period_prewarmed e p [] n Hp) as [Hn Hper].
  unfold prewarm_call in Hc. unfold prewarm_lowered_call in Hl. rewrite Hper in Hc, Hl.
  apply Nat.ltb_lt in Hn. cbn [rbind] in Hc, Hl. rewrite Hn in Hc, Hl. unfold node_view in Un. unfold low_view in Ul.
  simplify_eq. unfold windowed_rtop in Hop. case_names Hop; [..|done]; injection Hop as <-;
    simpl in Hc, Hl.
  1-5: eapply (linked_prewarm _ _ _ _ _ _ _ _ _ _ _ _ _ Hc Hl); by fresh_slot.
  all: eapply (linked_mono_prewarm _ _ _ _ _ _ _ _ _ _ _ Hc Hl); by fresh_slot.
Qed.

(** The operators with code of their own.  Prewarming takes a pair's period
    only if it is strictly within the tolerance of an integer. *)
Definition prewarmable (op : RtOp D) (args : list (Expr D)) : Prop :=
  match op with
  | OEmaAlpha _ => False
  | OCorr n | OBeta n => ParsePairPeriod args = Ok (Some n)
  | _ => True
  end.

(** Both sides of a call with an id of its own, prewarmed. *)
Lemma prewarm_started cfg name args sym op id c c1 low low1 :
  call_rtop cfg c name args sym = Some op -> prewarmable op args ->
  unallocated (Z.to_nat id) c low ->
  prewarm_call name args id c = Ok c1 -> prewarm_lowered_call clear_low name args id low = Ok low1 ->
  started op id c1 low1.
Proof.
  intros Hop Hlow Hun Hc Hl. destruct args as [|e [|p [|r [|]]]]; try done; simpl in Hop.
  - destruct (String.eqb_spec name "ema_alpha") as [->|_].
    { by destruct (const_value c p); simplify_eq/=. }
    destruct (String.eqb_spec name "cross_above") as [->|_];
      [|destruct (String.eqb_spec name "cross_below") as [->|_];
        [|destruct (period_of p) as [n|] eqn:Hp; [|done]; simpl in Hop;
          destruct (String.eqb_spec name "vwap") as [->|_];
          [|by eapply prewarm_started_window]]].
    3: destruct (ticker_of cfg e sym); [|done]; destruct (period_prewarmed e p [] n Hp) as [Hn Hper];
       apply Nat.ltb_lt in Hn.
    all: injection Hop as <-; destruct Hun as [Un Ul]; unfold prewarm_call in Hc;
      unfold prewarm_lowered_call in Hl; unfold node_view in Un; unfold low_view in Ul; simplify_eq.
    3: { rewrite Hper in Hc, Hl. cbn [rbind] in Hc, Hl. rewrite Hn in Hc, Hl. simpl in Hc, Hl.
         eapply (linked_prewarm _ _ _ _ _ _ _ _ _ _ _ _ _ Hc Hl); by fresh_slot. }
    all: apply bind_Ok in Hc as (n & Hn & Hc); rewrite Hn in Hl; simpl in Hc, Hl;
      unfold prewarm_unwindowed in Hc; unfold prewarm_lowered_unwindowed in Hl; simpl in Hc, Hl;
      eapply (linked_prewarm _ _ _ _ _ _ _ _ _ _ _ _ _ Hc Hl); by fresh_slot.
  - destruct Hun as [Un Ul]; unfold prewarm_call in Hc; unfold prewarm_lowered_call in Hl;
      unfold node_view in Un; unfold low_view in Ul; simplify_eq.
    apply bind_Ok in Hc as (n & Hn & Hc); rewrite Hn in Hl; cbn [rbind] in Hl.
    destruct (String.eqb_spec name "kalman1d") as [->|_];
      [|destruct (String.eqb_spec name "rolling_corr") as [->|_];
        [|destruct (String.eqb_spec name "rolling_beta") as [->|_]; [|done]]].
    1: destruct (const_value c p), (const_value c r); simplify_eq/=.
    2-3: destruct (period_of r) as [m|] eqn:Hp; simplify_eq/=.
    all: simpl in Hc, Hl; unfold prewarm_unwindowed in Hc; unfold prewarm_lowered_unwindowed in Hl;
      cbn [String.eqb Ascii.eqb Bool.eqb andb orb length Nat.leb] in Hc, Hl.
    2-3: simpl in Hlow; simpl in Hc, Hl; rewrite Hlow in Hc, Hl; simpl in Hc, Hl.
    all: eapply (linked_prewarm _ _ _ _ _ _ _ _ _ _ _ _ _ Hc Hl); [by fresh_slot..| |]; try done.
    all: unfold prewarm_pair_lowered, pair_low_started; simpl; by rewrite clear_low_zero.
Qed.

Definition bit_exact (op : RtOp D) : bool :=
  match op with
  | OEma _ | OLag _ | OCrossAbove | OCrossBelow | OMin _ | OMax _ => true
  | _ => false
  end.

Lemma started_bit_linked op id c low :
  bit_exact op = true -> started op id c low -> bit_linked 1 op id c low.
Proof.
  intros Hb Hs. destruct op; try done; simpl in *.
  - destruct Hs as (st & st' & H1 & H2 & -> & ->). eexists _, _. by split_and!.
  - destruct Hs as (st & st' & H1 & H2 & -> & ->). eexists _, _. split_and!; [done..|].
    unfold lag_rel, LagPrepare. simpl. destruct (decide _); subst; simpl; split_and!; done || lia.
  - destruct Hs as (st & st' & H1 & H2 & -> & ->). eexists _, _. by split_and!.
  - destruct Hs as (st & st' & H1 & H2 & -> & ->). eexists _, _. by split_and!.
  - destruct Hs as (dq & idx & st' & H1 & H2 & H3 & [-> ->] & ->). eexists _, _, _.
    split_and!; [done..|]. unfold mono_rel. simpl. split_and!; [done..|lia|].
    apply (Forall_replicate (fun e => 0 <= fst e <= 0)%Z (S period) (0%Z, fint 0)). simpl. lia.
  - destruct Hs as (dq & idx & st' & H1 & H2 & H3 & [-> ->] & ->). eexists _, _, _.
    split_and!; [done..|]. unfold mono_rel. simpl. split_and!; [done..|lia|].
    apply (Forall_replicate (fun e => 0 <= fst e <= 0)%Z (S period) (0%Z, fint 0)). simpl. lia.
Qed.

(** C9: lowered [ema], [lag], [cross_above], [cross_below], [rolling_min] and
    [rolling_max] are the interpreter's bit for bit, in any arithmetic: on a
    call whose slot and struct have been prewarmed together, and over fewer
    than [2^63] ticks on which the interpreter's steps succeed, the
    emitted code returns the same values, fails at no tick, and changes
    nothing but the structs. *)
Theorem lowered_parity cfg name args sym op id c c1 low low1 inputs seen vs s1 :
  call_rtop cfg c name args sym = Some op -> bit_exact op = true -> op_valid op -> (0 <= id)%Z ->
  unallocated (Z.to_nat id) c low ->
  prewarm_call name args id c = Ok c1 -> prewarm_lowered_call clear_low name args id low = Ok low1 ->
  (Z.of_nat (length inputs) < 2 ^ 63)%Z ->
  ticks (interpret op id) inputs (MkEval c1 seen) = Ok (vs, s1) ->
  exists low2, lowered_ticks false op id inputs (MkJit c1 low1) = Ok (vs, MkJit c1 low2).
Proof.
  intros Hop Hb Hv Hid Hun Hc Hl Hn Ht.
  assert (Hs : started op id c1 low1).
  { eapply prewarm_started; [done| |done..]. by destruct op. }
  apply started_bit_linked in Hs; [|done].
  destruct (linked_ticks (fun n => bit_linked n op id) (fun _ => True) op id (2 ^ 63) 1 inputs
    (MkEval c1 seen) (MkJit c1 low1) vs s1) as [low2 Hlow]; [|by apply Forall_true|lia|done|done|by exists low2].
  intros n [market a] s j v s2 _ Hlt HP Hi. by eapply bit_linked_step.
Qed.

(** ** The warm variant *)

(** The samples a struct has seen, as far as its guards can tell: at most the
    period, or 1 for [ema]. *)
Definition fill (op : RtOp D) (id : Z) (low : LoweredStates D L) : option nat :=
  match op with
  | OEma _ => (fun st => if el_initialized st then 1 else 0) <$> ema_lowered low !! Z.to_nat id
  | OSma _ => sl_count <$> sma_lowered low !! Z.to_nat id
  | OStd _ => dl_count <$> rolling_std_lowered low !! Z.to_nat id
  | OZscore _ => dl_count <$> zscore_lowered low !! Z.to_nat id
  | OLag _ => ll_count <$> lag_lowered low !! Z.to_nat id
  | _ => None
  end.

(** When the guards hold for ever; operators without a warm variant are left
    out. *)
Definition warm_after (op : RtOp D) : option nat :=
  match op with
  | OEma _ => Some 1
  | OSma p | OStd p | OZscore p | OLag p => Some p
  | _ => None
  end.

Lemma with_lowered_fill {T A} (sl : Slots (LoweredStates D L) T) `{!LowGetSet sl} id
  (f : T -> Res (A * T)) (count : T -> nat) (cap : nat) low r :
  (forall st a st', count st <= cap -> f st = Ok (a, st') -> count st' = min cap (S (count st))) ->
  forall k, count <$> slots_get sl low !! Z.to_nat id = Some k -> k <= cap ->
  with_lowered sl id f low = Ok r ->
  count <$> slots_get sl (snd r) !! Z.to_nat id = Some (min cap (S k)).
Proof.
  intros Hf k Hk Hcap Hw. unfold with_lowered, at_Z, at_idx in Hw. destruct (id <? 0)%Z; [done|].
  destruct (slots_get sl low !! Z.to_nat id) as [st|] eqn:E; [|done]. injection Hk as <-.
  simpl in Hw. apply bind_Ok in Hw as ([a st'] & Hst & [= <-]). simpl. rewrite low_get_set.
  rewrite list_lookup_insert_eq by (by eapply lookup_lt_Some). simpl. f_equal. by eapply Hf.
Qed.

Lemma with_lowered_ext {S A} (sl : Slots (LoweredStates D L) S) id (f g : S -> Res (A * S))
  (count : S -> nat) k low :
  (forall st, count st = k -> f st = g st) -> count <$> slots_get sl low !! Z.to_nat id = Some k ->
  with_lowered sl id f low = with_lowered sl id g low.
Proof.
  intros Hfg Hk. unfold with_lowered, at_Z, at_idx. destruct (id <? 0)%Z; [done|].
  destruct (slots_get sl low !! Z.to_nat id) as [st|] eqn:E; [|done]. injection Hk as Hk.
  simpl. by rewrite (Hfg st Hk).
Qed.

(** Takes a successful computation apart. *)
Ltac inv_Ok H :=
  repeat match type of H with
  | rbind _ _ = Ok _ => let x := fresh "x" in let Hx := fresh "Hx" in
      apply bind_Ok in H as (x & Hx & H); try clear Hx
  | (let '(_, _) := ?x in _) = Ok _ => destruct x
  end.

Lemma count_min (p k : nat) : k <= p -> (if k =? p then k else S k) = min p (S k).
Proof. intros Hk. destruct (Nat.eqb_spec k p); lia. Qed.

Lemma lowered_ring_fill p x (st : RollingStdStateLowered D L) m v b st' :
  dl_count st <= p -> lowered_ring false p x st = Ok (m, v, b, st') ->
  dl_count st' = min p (S (dl_count st)).
Proof.
  intros Hc Hs. unfold lowered_ring in Hs. inv_Ok Hs. injection Hs as _ _ _ <-. simpl.
  by apply count_min.
Qed.

Lemma lowered_ring_warm p x (st : RollingStdStateLowered D L) :
  dl_count st = p -> lowered_ring true p x st = lowered_ring false p x st.
Proof.
  intros <-. unfold lowered_ring. rewrite Nat.eqb_refl. cbv zeta. cbn [orb]. by rewrite Nat.eqb_refl.
Qed.

(** A tick fills the struct; a filled struct lets the two variants agree. *)
Lemma lowered_fill op id market (a : Args (D:=D)) j v j1 k n :
  warm_after op = Some n -> fill op id (js_low j) = Some k -> k <= n ->
  lowered false op id market a j = Ok (v, j1) -> fill op id (js_low j1) = Some (min n (S k)).
Proof.
  intros Hn Hk Hle Hl. destruct op; try done; injection Hn as <-; cbn [lowered run_effect] in Hl;
    unfold on_low in Hl; apply bind_Ok in Hl as (r & Hw & Hl); destruct r as [v' low];
    injection Hl as <- <-; cbn [js_low]; revert Hk Hle.
  - intros Hk Hle. refine (with_lowered_fill ema_lowered_slots id _ _ 1 _ _ _ k Hk Hle Hw).
    intros st b st' _ [= _ <-]. simpl. lia.
  - intros Hk Hle. refine (with_lowered_fill sma_lowered_slots id _ _ period _ _ _ k Hk Hle Hw).
    intros st b st' Hc Hs. unfold lowered_sma in Hs. inv_Ok Hs. injection Hs as _ <-. by apply count_min.
  - intros Hk Hle.
    refine (with_lowered_fill rolling_std_lowered_slots id _ _ period _ _ _ k Hk Hle Hw).
    intros st b st' Hc Hs. apply bind_Ok in Hs as ([[[m w] f] st1] & Hr & [= _ <-]).
    by eapply lowered_ring_fill.
  - intros Hk Hle. refine (with_lowered_fill zscore_lowered_slots id _ _ period _ _ _ k Hk Hle Hw).
    intros st b st' Hc Hs. apply bind_Ok in Hs as ([[[m w] f] st1] & Hr & [= _ <-]).
    by eapply lowered_ring_fill.
  - intros Hk Hle. refine (with_lowered_fill lag_lowered_slots id _ _ period _ _ _ k Hk Hle Hw).
    intros st b st' Hc Hs. unfold lowered_lag in Hs. inv_Ok Hs. injection Hs as _ <-. by apply count_min.
Qed.

Lemma lowered_warm_eq op id market (a : Args (D:=D)) j n :
  warm_after op = Some n -> fill op id (js_low j) = Some n ->
  lowered true op id market a j = lowered false op id market a j.
Proof.
  intros Hn Hk. destruct op; simplify_eq/=; unfold on_low; f_equal;
    (eapply with_lowered_ext; [|exact Hk]); intros st Hst; simpl in Hst.
  - unfold lowered_ema. destruct st as [v i]. simpl in *. by destruct i.
  - unfold lowered_sma. rewrite Hst, Nat.eqb_refl. cbv zeta. by rewrite Nat.eqb_refl.
  - unfold lowered_rolling_std. rewrite lowered_ring_warm by done.
    destruct (lowered_ring _ _ _ _) as [[[[m w] b] st']|] eqn:E; [|done]. simpl.
    assert (b = true) as ->; [|done]. unfold lowered_ring in E. inv_Ok E. injection E as _ _ <- _.
    simpl. rewrite Hst, Nat.eqb_refl. simpl. apply Nat.eqb_refl.
  - unfold lowered_zscore. rewrite lowered_ring_warm by done.
    destruct (lowered_ring _ _ _ _) as [[[[m w] b] st']|] eqn:E; [|done]. simpl.
    assert (b = true) as ->; [|done]. unfold lowered_ring in E. inv_Ok E. injection E as _ _ <- _.
    simpl. rewrite Hst, Nat.eqb_refl. simpl. apply Nat.eqb_refl.
  - unfold lowered_lag. by rewrite Hst, Nat.eqb_refl.
Qed.

Lemma started_fill op n id c low :
  warm_after op = Some n -> started op id c low -> fill op id low = Some 0.
Proof.
  intros Hn Hs. destruct op; try done; destruct Hs as (st & st' & _ & H2 & _ & ->); simpl in *;
    by rewrite H2.
Qed.

Lemma lowered_ticks_fill op n id xs j vs j1 k :
  warm_after op = Some n -> fill op id (js_low j) = Some k -> k <= n ->
  lowered_ticks false op id xs j = Ok (vs, j1) ->
  fill op id (js_low j1) = Some (min n (k + length xs)).
Proof.
  intros Hn. revert j vs k. induction xs as [|[market a] xs IH]; intros j vs k Hk Hle Ht; simpl in Ht.
  - injection Ht as <- <-. rewrite Hk. f_equal. simpl. lia.
  - apply bind_Ok in Ht as ([v j2] & H1 & Ht). apply bind_Ok in Ht as ([vs' j3] & H2 & Ht).
    injection Ht as <- <-. pose proof (lowered_fill _ _ _ _ _ _ _ _ _ Hn Hk Hle H1) as Hk2.
    rewrite (IH _ _ _ Hk2 ltac:(lia) H2). f_equal. simpl. lia.
Qed.

(** The threshold of a call with a warm variant is enough for its struct. *)
Lemma call_threshold_enough cfg c0 name args sym op n :
  call_rtop cfg c0 name args sym = Some op -> warm_after op = Some n ->
  call_threshold name args = Z.of_nat n.
Proof.
  intros Hop Hn. destruct args as [|e [|p [|r [|]]]]; try done; simpl in Hop.
  - destruct (String.eqb_spec name "ema_alpha") as [->|_].
    { by destruct (const_value c0 p); simplify_eq/=. }
    destruct (String.eqb_spec name "cross_above") as [->|_]; [by simplify_eq|].
    destruct (String.eqb_spec name "cross_below") as [->|_]; [by simplify_eq|].
    destruct (period_of p) as [k|] eqn:Hp; [|done]; simpl in Hop.
    destruct (String.eqb_spec name "vwap") as [->|_].
    { by destruct (ticker_of cfg e sym); simplify_eq/=. }
    destruct (period_prewarmed e p [] k Hp) as [Hk _]. unfold period_of in Hp.
    destruct p; try done. destruct (to_int value) as [z|] eqn:Hz; [|done].
    destruct (period_ok value z); [|done]. injection Hp as <-.
    unfold windowed_rtop in Hop. case_names Hop; [..|done]; injection Hop as <-; simplify_eq/=;
      unfold call_threshold; simpl; rewrite ?Hz; simpl; lia.
  - destruct (String.eqb_spec name "kalman1d") as [->|_].
    { by destruct (const_value c0 p), (const_value c0 r); simplify_eq/=. }
    destruct (_ =? _)%string; [by destruct (period_of r); simplify_eq/=|].
    by destruct (_ =? _)%string; [destruct (period_of r); simplify_eq/=|].
Qed.

(** C12: the steady-state code takes over: a struct prewarmed for a call is
    filled once the baseline code has run as often as the program's warm-up
    threshold asks for that call, and from then on the code without the
    guards returns the same results and states for ever, failures included. *)
Theorem warm_code_takes_over cfg name args sym op n id c c1 low low1 xs vs j1 :
  call_rtop cfg c name args sym = Some op -> warm_after op = Some n ->
  unallocated (Z.to_nat id) c low ->
  prewarm_call name args id c = Ok c1 -> prewarm_lowered_call clear_low name args id low = Ok low1 ->
  (call_threshold name args <= Z.of_nat (length xs))%Z ->
  lowered_ticks false op id xs (MkJit c1 low1) = Ok (vs, j1) ->
  fill op id (js_low j1) = Some n /\
  forall ys, lowered_ticks true op id ys j1 = lowered_ticks false op id ys j1.
Proof.
  intros Hop Hn Hun Hc Hl Hthr Hx. rewrite (call_threshold_enough _ _ _ _ _ _ _ Hop Hn) in Hthr.
  assert (Hs : started op id c1 low1).
  { eapply prewarm_started; [done| |done..]. by destruct op. }
  pose proof (lowered_ticks_fill op n id xs (MkJit c1 low1) vs j1 0 Hn (started_fill _ _ _ _ _ Hn Hs) ltac:(lia) Hx) as Hf.
  rewrite Nat.min_l in Hf by lia. split; [done|]. clear Hx Hs. intros ys. revert j1 Hf.
  induction ys as [|[market a] ys IH]; intros j Hf; [done|]. simpl.
  rewrite (lowered_warm_eq _ _ _ _ _ _ Hn Hf).
  destruct (lowered false op id market a j) as [[v j2]|] eqn:E; [|done]. simpl.
  pose proof (lowered_fill _ _ _ _ _ _ _ _ _ Hn Hf ltac:(lia) E) as Hf2. rewrite Nat.min_l in Hf2 by lia.
  by rewrite (IH _ Hf2).
Qed.
End simulation.

(** [rolling_min(mid(AAPL), 2)] and [sma(mid(AAPL), 2)] at node 1. *)
Module LoweredExample.
#[local] Instance machine : Machine double long_double := parity_machine.
Definition args : list (Expr double) := [ProgramExample.quote; ProgramExample.num 2].
Definition clear_low (_ : long_double) : long_double := fint 0.
Definition context (name : string) : SignalContext double long_double :=
  match prewarm_call name args 1 SignalContext_init with Ok c => c | Err _ => SignalContext_init end.
Definition low (name : string) : LoweredStates double long_double :=
  match prewarm_lowered_call clear_low name args 1 LoweredStates_init with
  | Ok c => c | Err _ => LoweredStates_init end.
Definition inputs (zs : list Z) : list (MarketState double * Args (D:=double)) :=
  map (fun z => (MkMarket [] 0, MkArgs (fint z) (fint 0) (fint 0))) zs.
End LoweredExample.

Lemma lowered_parity_witness :
  let inputs := LoweredExample.inputs [3; 1; 2; 5]%Z in
  exists vs s1 low2,
    ticks (interpret (H:=parity_machine) (OMin 2) 1) inputs
      (MkEval (LoweredExample.context "rolling_min") ∅) = Ok (vs, s1) /\
    vs = [fnan; fint 1; fint 1; fint 2] /\
    lowered_ticks (H:=parity_machine) false (OMin 2) 1 inputs
      (MkJit (LoweredExample.context "rolling_min") (LoweredExample.low "rolling_min")) =
    Ok (vs, MkJit (LoweredExample.context "rolling_min") low2).
Proof.
  intros inputs.
  destruct (ticks (interpret (H:=parity_machine) (OMin 2) 1) inputs
    (MkEval (LoweredExample.context "rolling_min") ∅)) as [[vs s1]|] eqn:E; [|by vm_compute in E].
  destruct (lowered_parity (H:=parity_machine) LoweredExample.clear_low eq_refl ProgramExample.cfg
    "rolling_min" LoweredExample.args (-1) (OMin 2) 1 SignalContext_init
    (LoweredExample.context "rolling_min") LoweredStates_init (LoweredExample.low "rolling_min")
    inputs ∅ vs s1) as [low2 Hlow].
  - vm_compute. reflexivity.
  - reflexivity.
  - split; reflexivity.
  - discriminate.
  - split; reflexivity.
  - vm_compute. reflexivity.
  - vm_compute. reflexivity.
  - reflexivity.
  - exact E.
  - exists vs, s1, low2. split; [reflexivity|]. split; [|exact Hlow].
    vm_compute in E. injection E as <- _. vm_compute. reflexivity.
Defined.

Lemma warm_code_takes_over_witness :
  let run warm zs := lowered_ticks (H:=parity_machine) warm (OSma 2) 1 (LoweredExample.inputs zs) in
  exists vs j1,
    run false [1; 3]%Z (MkJit (LoweredExample.context "sma") (LoweredExample.low "sma")) = Ok (vs, j1) /\
    run true [5; 8]%Z j1 = run false [5; 8]%Z j1 /\
    rmap fst (run true [5; 8]%Z j1) = Ok [fint 4; fdiv (fint 13) (fint 2)].
Proof.
  intros run.
  destruct (run false [1; 3]%Z (MkJit (LoweredExample.context "sma") (LoweredExample.low "sma")))
    as [[vs j1]|] eqn:E; [|by vm_compute in E].
  exists vs, j1. split; [reflexivity|]. split.
  - apply (warm_code_takes_over (H:=parity_machine) LoweredExample.clear_low eq_refl ProgramExample.cfg
      "sma" LoweredExample.args (-1) (OSma 2) 2 1 SignalContext_init
      (LoweredExample.context "sma") LoweredStates_init (LoweredExample.low "sma")
      (LoweredExample.inputs [1; 3]%Z) vs j1).
    + vm_compute. reflexivity.
    + reflexivity.
    + split; reflexivity.
    + vm_compute. reflexivity.
    + vm_compute. reflexivity.
    + vm_compute. discriminate.
    + exact E.
  - vm_compute in E. injection E as _ <-. vm_compute. reflexivity.
Defined.
