(* ===== verification/LoweredExactFacts.v ===== *)
(** * Lowered operators with sums, in exact arithmetic

    The emitted code of the mean, the standard deviation, the z-score, the
    volume-weighted price and the paired statistics keeps plain sums in
    [double]; the runtime keeps Welford's moments and [long double] sums.
    Over the real numbers the two agree on every tick, so any difference
    between a lowered and an interpreted signal is rounding. *)

From Stdlib Require Import Reals Lra Psatz.
From S2P Require Import Prelude Errors Arith RealArith Ast SymbolTable Rolling Context Interpreter JitRuntime Lowered Ir JitCompiler RollingFacts PairFacts FilterFacts SafetyFacts JitFacts JitCompilerFacts LoweredFacts.

Local Open Scope R_scope.

Definition Rsumsq (w : list R) : R := Rsum (map (fun x => x ^ 2) w).

Lemma Rsumsq_snoc w x : Rsumsq (w ++ [x]) = Rsumsq w + x * x.
Proof. unfold Rsumsq. rewrite map_app. cbn [map]. rewrite Rsum_snoc. f_equal. ring. Qed.
Lemma Rsumsq_cons x w : Rsumsq (x :: w) = x * x + Rsumsq w.
Proof. unfold Rsumsq. cbn [map]. rewrite Rsum_cons. f_equal. ring. Qed.

(** A real sample enters a ring: what leaves, and the window after it. *)
Lemma ring_tick {A} (f : A -> xreal) p buf head count (xs : list A) x :
  ring_rep p buf head count (map f xs) ->
  exists old, buf !! head = Some old /\
    if (count =? p)%nat
    then exists y t, old = f y /\ last_n p xs = y :: t /\ last_n p (xs ++ [x]) = t ++ [x]
    else last_n p (xs ++ [x]) = last_n p xs ++ [x].
Proof.
  intros Hr. pose proof Hr as [Hpos Hl Hh Hc _ _]. rewrite length_map in Hc.
  destruct (lookup_lt_is_Some_2 buf head) as [old Ho]; [lia|]. exists old. split; [done|].
  destruct (Nat.eqb_spec count p) as [Hf|Hf].
  - destruct (window_slide p xs x Hpos ltac:(lia)) as (y & t & Hw & Hw' & Hy). exists y, t.
    split_and!; try done.
    pose proof (ring_oldest f _ _ _ _ _ _ Hr ltac:(lia) Hy). congruence.
  - apply last_n_snoc_short. lia.
Qed.

Lemma window_full p buf head count (xs : list R) :
  ring_rep p buf head count (map Some xs) -> count = p ->
  length (last_n p xs) = p /\ last_n p xs <> [] /\ INR p <> 0.
Proof.
  intros Hr Hc. pose proof Hr as [Hpos _ _ Hcount _ _]. rewrite length_map in Hcount.
  assert (Hl : length (last_n p xs) = p) by (rewrite length_last_n; lia).
  split; [done|]. split; [intros E; rewrite E in Hl; simpl in Hl; lia|].
  apply not_0_INR. lia.
Qed.

Lemma mul_xreal a b : fmul (Some a : xreal) (Some b) = Some (a * b).
Proof. done. Qed.

(** ** The mean *)

Definition sma_rel (p : nat) (st : RingStatsState xreal xreal) (st' : SmaStateLowered xreal) : Prop :=
  exists xs : list R, ring_exact p (map Some xs) st /\
    ring_rep p (sl_buffer st') (sl_head st') (sl_count st') (map Some xs) /\
    sl_sum st' = Some (Rsum (last_n p xs)).

(** What the interpreter reads from a full ring, and NaN before. *)
Lemma ring_step_exact read p (st st1 : RingStatsState xreal xreal) xs x v :
  ring_exact p (map Some xs) st -> ring_step read p (Some x : xreal) st = Ok (v, st1) ->
  ring_exact p (map Some (xs ++ [x])) st1 /\
  v = (if (count st1 =? p)%nat then read st1 else None) /\
  count st1 = min p (S (length xs)) /\
  sum st1 = Some (Rsum (last_n p (xs ++ [x]))) /\ m2 st1 = Some (Rssd (last_n p (xs ++ [x]))).
Proof.
  intros He Hs. unfold ring_step in Hs. pose proof He as [[Hc Hr] _].
  pose proof (rr_pos _ _ _ _ _ Hr) as Hpos. rewrite RingStatsPush_step in Hs by done.
  destruct (RingStatsStep_exact p _ st x He) as (st2 & H2 & He2). rewrite H2 in Hs.
  injection Hs as <- <-. rewrite map_app. split; [done|].
  destruct He2 as [[Hc2 Hr2] (w & Hw & Hsum & _ & Hm2)].
  change [Some x] with (map Some [x]) in Hw. rewrite <- map_app, last_n_map in Hw.
  apply (inj (map Some)) in Hw as <-. unfold RingStatsFull. rewrite Hc2.
  pose proof (rr_count _ _ _ _ _ Hr2) as Hcount. rewrite length_app, length_map in Hcount.
  simpl in Hcount. split_and!; [|lia|done|done].
  destruct (Nat.ltb_spec 0 p); [|lia]. rewrite andb_true_r. by destruct (_ =? _)%nat.
Qed.

Lemma sma_sim p x :
  step_sim (sma_rel p) (sma_rel p) 
    (ring_step RingStatsMean p (Some x : xreal)) (lowered_sma false p (Some x : xreal)).
Proof.
  intros st [buf sum head count cap] v st1 (xs & He & Hr & Hsum) Hs. simpl in *. subst sum.
  destruct (ring_step_exact _ _ _ _ _ _ _ He Hs) as (He1 & -> & Hcount & Hsum1 & _).
  pose proof (ring_rep_step _ _ _ _ _ (Some x) Hr) as Hr'.
  change [Some x] with (map Some [x]) in Hr'. rewrite <- map_app in Hr'.
  pose proof Hr as [Hpos Hl Hh Hc _ _]. rewrite length_map in Hc.
  destruct (ring_tick _ _ _ _ _ _ x Hr) as (old & Ho & Hold).
  unfold lowered_sma. cbn [sl_buffer sl_head sl_count sl_sum sl_capacity]. unfold at_idx. rewrite Ho.
  cbn [rbind]. rewrite set_idx_Ok by lia. cbn [rbind].
  set (count' := if (count =? p)%nat then count else S count) in *.
  assert (Hcount' : count' = min p (S (length xs))) by (unfold count'; destruct (Nat.eqb_spec count p); lia).
  assert (Hnew : fsub (fadd (Some (Rsum (last_n p xs)) : xreal) (Some x))
      (if (count =? p)%nat then old else fint 0) = Some (Rsum (last_n p (xs ++ [x])))).
  { destruct (count =? p)%nat.
    - destruct Hold as (y & t & -> & Hw & Hw'). rewrite Hw, Hw', Rsum_snoc, Rsum_cons. xreal. f_equal. lra.
    - rewrite Hold, Rsum_snoc. xreal. f_equal. lra. }
  cbn [dbl ldb exact]. rewrite Hnew. eexists. split.
  - do 2 f_equal. rewrite Hcount, <- Hcount'. destruct (Nat.eqb_spec count' p) as [Hf|]; [|done].
    destruct (window_full _ _ _ _ _ Hr' Hf) as (Hlen & Hne & Hp0).
    rewrite (RingStatsMean_exact st1 (last_n p (xs ++ [x]))) by (lia || done).
    unfold Rmean. rewrite Hlen. xreal. done.
  - exists (xs ++ [x]). simpl. split_and!; [done| |done].
    exact Hr'.
Qed.

(** ** The standard deviation and the z-score *)

Definition std_rel (p : nat) (st : RingStatsState xreal xreal)
  (st' : RollingStdStateLowered xreal xreal) : Prop :=
  exists xs : list R, ring_exact p (map Some xs) st /\
    ring_rep p (dl_buffer st') (dl_head st') (dl_count st') (map Some xs) /\
    dl_sum st' = Some (Rsum (last_n p xs)) /\ dl_m2 st' = Some (Rsumsq (last_n p xs)).

(** The naive variance is the sum of squared deviations. *)
Lemma naive_variance w :
  w <> [] ->
  Rsumsq w - INR (length w) * (Rsum w / INR (length w) * (Rsum w / INR (length w))) = Rssd w.
Proof.
  intros Hw. pose proof (length_pos w Hw). rewrite Rssd_closed by done. unfold Rsumsq. by field.
Qed.

(** The code shared by the two operators, against the statistics of the window. *)
Lemma lowered_ring_exact p xs x (st' : RollingStdStateLowered xreal xreal) :
  (2 <= p)%nat ->
  ring_rep p (dl_buffer st') (dl_head st') (dl_count st') (map Some xs) ->
  dl_sum st' = Some (Rsum (last_n p xs)) -> dl_m2 st' = Some (Rsumsq (last_n p xs)) ->
  let w := last_n p (xs ++ [x]) in
  exists m sd full st1', lowered_ring false p (Some x : xreal) st' = Ok (m, sd, full, st1') /\
    ring_rep p (dl_buffer st1') (dl_head st1') (dl_count st1') (map Some (xs ++ [x])) /\
    dl_sum st1' = Some (Rsum w) /\ dl_m2 st1' = Some (Rsumsq w) /\
    full = (dl_count st1' =? p)%nat /\
    (full = true -> m = Some (Rmean w) /\ sd = Some (sqrt (Rssd w / (INR (length w) - 1))) /\
                    length w = p).
Proof.
  intros Hp2 Hr Hsum Hm2 w. destruct st' as [buf cap head count sum mean sumsq slides]. simpl in *. subst.
  pose proof (ring_rep_step _ _ _ _ _ (Some x) Hr) as Hr'.
  change [Some x] with (map Some [x]) in Hr'. rewrite <- map_app in Hr'.
  pose proof Hr as [Hpos Hl Hh Hc _ _]. rewrite length_map in Hc.
  destruct (ring_tick _ _ _ _ _ _ x Hr) as (old & Ho & Hold).
  unfold lowered_ring. cbn [dl_buffer dl_capacity dl_head dl_count dl_sum dl_mean dl_m2 dl_slides].
  unfold at_idx. rewrite Ho. cbn [rbind]. rewrite set_idx_Ok by lia. cbn [rbind orb].
  cbn [dbl ldb exact ext trunc].
  set (count' := if (count =? p)%nat then count else S count) in *.
  set (old' := if (count =? p)%nat then old else fint 0).
  assert (Hnew : fsub (fadd (Some (Rsum (last_n p xs)) : xreal) (Some x)) old' = Some (Rsum w) /\
    fsub (fadd (Some (Rsumsq (last_n p xs)) : xreal) (fmul (Some x : xreal) (Some x))) (fmul old' old')
      = Some (Rsumsq w)).
  { unfold old', w. destruct (count =? p)%nat.
    - destruct Hold as (y & t & -> & -> & ->). rewrite Rsum_snoc, Rsum_cons, Rsumsq_snoc, Rsumsq_cons.
      xreal. split; f_equal; lra.
    - rewrite Hold, Rsum_snoc, Rsumsq_snoc. xreal. split; f_equal; lra. }
  destruct Hnew as [-> ->]. do 4 eexists. split; [done|].
  cbn [dl_buffer dl_capacity dl_head dl_count dl_sum dl_mean dl_m2 dl_slides].
  split; [exact Hr'|]. do 3 (split; [done|]). intros Hf%Nat.eqb_eq.
  destruct (window_full _ _ _ _ _ Hr' Hf) as (Hlen & Hne & Hp0). fold w in Hlen, Hne. clearbody w.
  pose proof (Rvar_nonneg w ltac:(lia)) as Hv. pose proof (le_INR 2 p Hp2) as Hn. simpl in Hn.
  rewrite Hlen in Hv. assert (Hn1 : INR (p - 1) = INR p - 1) by (rewrite minus_INR by lia; done).
  split; [|split; [|done]].
  - unfold Rmean. rewrite Hlen. by xreal.
  - pose proof (naive_variance w Hne) as Hnaive. rewrite Hlen in Hnaive |- *.
    xreal. rewrite Hnaive, Hn1.
    destruct (Rltb_spec (Rssd w / (INR p - 1)) 0); [lra|]. by apply fsqrt_xreal.
Qed.

(** Both operators: what they read from the statistics agrees on a full window. *)
Lemma std_rel_sim p x (read : RingStatsState xreal xreal -> xreal)
  (out : xreal -> xreal -> bool -> xreal) :
  (2 <= p)%nat ->
  (forall m sd, out m sd false = None) ->
  (forall st w, RingStatsMean st = Some (Rmean w) ->
    RingStatsStddevSample st = Some (sqrt (Rssd w / (INR (length w) - 1))) ->
    read st = out (RingStatsMean st) (RingStatsStddevSample st) true) ->
  step_sim (std_rel p) (std_rel p) (ring_step read p (Some x : xreal))
    (fun st' => '(m, sd, full, st') <- lowered_ring false p (Some x : xreal) st';;
                Ok (out m sd full, st')).
Proof.
  intros Hp2 Hnone Hread st st' v st1 (xs & He & Hr & Hsum & Hm2) Hs.
  destruct (ring_step_exact _ _ _ _ _ _ _ He Hs) as (He1 & -> & Hcount & Hsum1 & Hm21).
  destruct (lowered_ring_exact p xs x st' Hp2 Hr Hsum Hm2)
    as (m & sd & full & st1' & -> & Hr' & Hs' & Hm2' & Hfull & Hout).
  cbn [rbind]. exists st1'. split; [|by exists (xs ++ [x])]. do 2 f_equal.
  assert (Hcc : count st1 = dl_count st1').
  { rewrite (rr_count _ _ _ _ _ Hr'), length_map, length_app, Hcount. simpl. f_equal. lia. }
  rewrite Hcc, <- Hfull. destruct full; [|apply Hnone].
  destruct (Hout eq_refl) as (-> & -> & Hlen). symmetry in Hfull. apply Nat.eqb_eq in Hfull.
  set (w := last_n p (xs ++ [x])) in *.
  assert (Hne : w <> []) by (intros E; rewrite E in Hlen; simpl in Hlen; lia).
  pose proof (RingStatsMean_exact st1 w ltac:(lia) Hne Hsum1) as Hmean.
  pose proof (RingStatsStddevSample_exact st1 w ltac:(lia) Hm21) as Hsd.
  destruct (Nat.ltb_spec (length w) 2); [lia|].
  rewrite (Hread st1 w Hmean Hsd). exact (f_equal2 (fun a b => out a b true) (eq_sym Hmean) (eq_sym Hsd)).
Qed.

Lemma std_sim p x :
  (2 <= p)%nat ->
  step_sim (std_rel p) (std_rel p) (ring_step RingStatsStddevSample p (Some x : xreal))
    (lowered_rolling_std false p (Some x : xreal)).
Proof.
  intros Hp2. by apply (std_rel_sim p x RingStatsStddevSample (fun _ sd full => if full then sd else fnan)).
Qed.

Lemma zscore_sim p x :
  (2 <= p)%nat ->
  step_sim (std_rel p) (std_rel p) (ring_step (zscore_read (Some x : xreal)) p (Some x : xreal))
    (lowered_zscore false p (Some x : xreal)).
Proof.
  intros Hp2. apply (std_rel_sim p x (zscore_read (Some x)) (fun mean stdv full =>
    if full then if fge (fabs stdv) (flit 1 18) then fdiv (fsub (Some x) mean) stdv else fnan
    else fnan)); [done|done|].
  intros st w Hm Hsd. unfold zscore_read, fge. rewrite Hm, Hsd.
  generalize (sqrt (Rssd w / (INR (length w) - 1))) as sd. intros sd.
  cbn [dbl exact]. change (fabs (Some sd : xreal)) with (Some (Rabs sd) : xreal).
  change (flit 1 18 : xreal) with (Some (1 / 10 ^ 18) : xreal).
  rewrite flt_xreal, fle_xreal. cbn [fisnan Fp_xreal orb].
  destruct (Rltb_spec (Rabs sd) (1 / 10 ^ 18)), (Rleb_spec (1 / 10 ^ 18) (Rabs sd)); done || lra.
Qed.

(** ** The volume-weighted price *)

Definition vwap_rel (p : nat) (st : VwapState xreal xreal) (st' : VwapStateLowered xreal) : Prop :=
  exists xs : list (R * R), vwap_exact p xs st /\ Forall (fun q => 0 < snd q) xs /\
    ring_rep p (vl_price_buf st') (vl_head st') (vl_count st') (map (fun q => Some (fst q) : xreal) xs) /\
    ring_rep p (vl_vol_buf st') (vl_head st') (vl_count st') (map (fun q => Some (snd q) : xreal) xs) /\
    vl_sum_pv st' = Some (Wsum Rmult (last_n p xs)) /\
    vl_sum_vol st' = Some (Wsum (fun _ v => v) (last_n p xs)).

Lemma Wsum_volume_pos w : Forall (fun q : R * R => 0 < snd q) w -> w <> [] -> 0 < Wsum (fun _ v => v) w.
Proof.
  intros HF Hne. destruct HF as [|q w Hq HF]; [done|]. rewrite Wsum_cons.
  assert (0 <= Wsum (fun _ v => v) w); [|lra]. clear Hne. unfold Wsum.
  apply Rsum_nonneg, Forall_forall. intros z (r & -> & Hr)%list_elem_of_fmap.
  rewrite Forall_forall in HF. specialize (HF _ Hr). lra.
Qed.

(** A tick of the market with real fields. *)
Definition real_quotes (ins : InstrumentState xreal) : Prop :=
  exists b a v, bid ins = Some b /\ ask ins = Some a /\ volume ins = Some v.

Lemma vwap_inputs ins :
  real_quotes ins ->
  exists m v, mid ins = Some m /\ vwap_volume ins = Some v /\ 0 < v /\
    fmul (fadd (bid ins) (ask ins)) (flit 5 1) = Some m /\
    (if fgt (volume ins) (fint 0) then volume ins else fint 1) = Some v.
Proof.
  intros (b & a & v & Hb & Ha & Hv). exists ((b + a) * (5 / 10 ^ 1)), (if Rltb 0 v then v else 1).
  unfold mid, vwap_volume, fgt. rewrite Hb, Ha, Hv, !fint_xreal, flt_xreal.
  cbn [dbl exact]. rewrite ?flt_xreal. destruct (Rltb_spec 0 v); split_and!; done || lra.
Qed.

(** The two sums after a tick of a paired or weighted ring. *)
Lemma pair_tick f p head1 head2 count (ba bb : list xreal) (xs : list (R * R)) q :
  ring_rep p ba head1 count (map (fun q => Some (fst q) : xreal) xs) ->
  ring_rep p bb head2 count (map (fun q => Some (snd q) : xreal) xs) ->
  exists oa ob : xreal, ba !! head1 = Some oa /\ bb !! head2 = Some ob /\
    if (count =? p)%nat
    then exists a b, oa = Some a /\ ob = Some b /\
           Wsum f (last_n p (xs ++ [q])) = Wsum f (last_n p xs) - f a b + f (fst q) (snd q)
    else Wsum f (last_n p (xs ++ [q])) = Wsum f (last_n p xs) + f (fst q) (snd q).
Proof.
  intros Ha Hb. destruct (ring_tick _ _ _ _ _ _ q Ha) as (oa & Hoa & Hta).
  destruct (ring_tick _ _ _ _ _ _ q Hb) as (ob & Hob & Htb). exists oa, ob. split_and!; [done..|].
  destruct (count =? p)%nat.
  - destruct Hta as (y & t & -> & Hw & Hw'). destruct Htb as (y' & t' & -> & Hv & _).
    rewrite Hw in Hv. injection Hv as <- <-. exists (fst y), (snd y). split_and!; [done..|].
    rewrite Hw, Hw', Wsum_snoc, Wsum_cons. lra.
  - rewrite Hta. by rewrite Wsum_snoc.
Qed.

Lemma pair_rings_step p ba bb head count (xs : list (R * R)) q :
  ring_rep p ba head count (map (fun q => Some (fst q) : xreal) xs) ->
  ring_rep p bb head count (map (fun q => Some (snd q) : xreal) xs) ->
  let count' := if (count =? p)%nat then count else S count in
  ring_rep p (<[head := Some (fst q)]> ba) (S head mod p) count'
    (map (fun q => Some (fst q) : xreal) (xs ++ [q])) /\
  ring_rep p (<[head := Some (snd q)]> bb) (S head mod p) count'
    (map (fun q => Some (snd q) : xreal) (xs ++ [q])).
Proof. intros Ha Hb. rewrite !map_app. split; by apply ring_rep_step. Qed.

Lemma pair_window_full p buf head count (xs : list (R * R)) (f : R * R -> xreal) :
  ring_rep p buf head count (map f xs) -> count = p ->
  length (last_n p xs) = p /\ last_n p xs <> [].
Proof.
  intros Hr Hc. pose proof Hr as [Hpos _ _ Hcount _ _]. rewrite length_map in Hcount.
  assert (Hl : length (last_n p xs) = p) by (rewrite length_last_n; lia).
  split; [done|]. intros E; rewrite E in Hl; simpl in Hl; lia.
Qed.

Lemma vwap_sim p ins :
  (0 < p)%nat -> real_quotes ins ->
  step_sim (vwap_rel p) (vwap_rel p) (vwap_step (H:=exact) p ins)
    (lowered_vwap (H:=exact) p (bid ins) (ask ins) (volume ins)).
Proof.
  intros Hp Hins st [ba bb head count cap spv svol] v st1 (xs & He & HF & Ha & Hb & Hpv & Hvol) Hs.
  simpl in *. subst. destruct (vwap_inputs ins Hins) as (m & vol & Hm & Hv & Hvpos & Hm' & Hv').
  unfold vwap_step in Hs. rewrite Hm, Hv in Hs. unfold VwapPush, VwapPrepare in Hs.
  rewrite decide_True in Hs by apply He. destruct (Nat.eqb_spec p 0); [lia|].
  destruct (VwapStep_exact p xs st (m, vol) He) as (st2 & H2 & He2). simpl in H2, Hs.
  rewrite H2 in Hs. injection Hs as <- <-.
  destruct (pair_tick Rmult p head head count ba bb xs (m, vol) Ha Hb) as (oa & ob & Hoa & Hob & Hpv).
  destruct (pair_tick (fun _ v => v) p head head count ba bb xs (m, vol) Ha Hb)
    as (oa' & ob' & Hoa' & Hob' & Hvol).
  rewrite Hoa in Hoa'. rewrite Hob in Hob'. injection Hoa' as <-. injection Hob' as <-.
  destruct (pair_rings_step p ba bb head count xs (m, vol) Ha Hb) as [Ha' Hb'].
  pose proof Ha as [_ Hla Hh Hc _ _]. pose proof (rr_len _ _ _ _ _ Hb) as Hlb. rewrite length_map in Hc.
  unfold lowered_vwap. cbn [vl_price_buf vl_vol_buf vl_head vl_count vl_capacity vl_sum_pv vl_sum_vol].
  cbn [dbl exact]. rewrite Hm', Hv'. unfold at_idx. rewrite Hoa, Hob. cbn [rbind].
  rewrite !set_idx_Ok by lia. cbn [rbind]. simpl fst in *. simpl snd in *.
  set (count' := if (count =? p)%nat then count else S count) in *.
  set (w := last_n p (xs ++ [(m, vol)])) in *.
  assert (Hnew : fadd (if (count =? p)%nat
        then fsub (Some (Wsum Rmult (last_n p xs)) : xreal) (fmul oa ob)
        else Some (Wsum Rmult (last_n p xs))) (fmul (Some m : xreal) (Some vol)) = Some (Wsum Rmult w) /\
    fadd (if (count =? p)%nat
        then fsub (Some (Wsum (fun _ v => v) (last_n p xs)) : xreal) ob
        else Some (Wsum (fun _ v => v) (last_n p xs))) (Some vol : xreal) = Some (Wsum (fun _ v => v) w)).
  { destruct (count =? p)%nat.
    - destruct Hpv as (a & b & -> & -> & ->). destruct Hvol as (a' & b' & [= <-] & [= <-] & ->).
      split; xreal; f_equal; lra.
    - rewrite Hpv, Hvol. done. }
  destruct Hnew as [-> ->]. eexists. split.
  - do 2 f_equal. destruct He2 as [(Hcap & Hr2 & _) Hpv2 Hvol2].
    assert (Hcc : v_count st2 = count').
    { rewrite (rr_count _ _ _ _ _ Hr2), (rr_count _ _ _ _ _ Ha'), !length_map. done. }
    unfold VwapFull, VwapValue. rewrite Hcap, Hcc, Hpv2, Hvol2.
    destruct (Nat.ltb_spec 0 p); [|lia]. rewrite andb_true_r.
    destruct (Nat.eqb_spec count' p) as [Hf|]; [|done].
    destruct (pair_window_full _ _ _ _ _ _ Ha' Hf) as [_ Hne].
    assert (Hwpos : 0 < Wsum (fun _ v => v) w).
    { apply Wsum_volume_pos; [|done]. apply last_n_forall, Forall_app_2; [exact HF|]. by apply Forall_singleton. }
    destruct (Nat.eqb_spec count' 0); [lia|]. unfold fgt. cbn [ldb exact orb andb].
    rewrite fint_xreal, flt_xreal, feq_xreal. fold w.
    destruct (Rltb_spec 0 (Wsum (fun _ v => v) w)); [|exfalso; lra].
    destruct (Reqb_spec (Wsum (fun _ v => v) w) 0); [lra|done].
  - exists (xs ++ [(m, vol)]). simpl. split_and!; try done.
    apply Forall_app_2; [exact HF|]. by apply Forall_singleton.
Qed.

(** ** The paired statistics *)

Definition pair_rel (p : nat) (st : RollingPairState xreal xreal)
  (st' : RollingPairStateLowered xreal xreal) : Prop :=
  exists xs : list (R * R), pair_exact p xs st /\
    ring_rep p (pl_x_buf st') (pl_head st') (pl_count st') (map (fun q => Some (fst q) : xreal) xs) /\
    ring_rep p (pl_y_buf st') (pl_head st') (pl_count st') (map (fun q => Some (snd q) : xreal) xs) /\
    pl_sums st' = sums_of (last_n p xs).

Definition pair_read (kind : RollingPairKind) : RollingPairState xreal xreal -> xreal :=
  match kind with Corr => RollingPairCorrelation | Beta => RollingPairBeta end.

(** One running sum after a tick. *)
Lemma pair_sum_exact f p head count (ba bb : list xreal) xs q (sub : xreal -> xreal -> xreal) oa ob :
  ring_rep p ba head count (map (fun q => Some (fst q) : xreal) xs) ->
  ring_rep p bb head count (map (fun q => Some (snd q) : xreal) xs) ->
  ba !! head = Some oa -> bb !! head = Some ob ->
  (forall x y : R, sub (Some x) (Some y) = Some (f x y)) ->
  pair_sum_update (H:=exact) (count =? p)%nat (Some (Wsum f (last_n p xs)))
      (sub oa ob) (sub (Some (fst q)) (Some (snd q)))
    = Some (Wsum f (last_n p (xs ++ [q]))).
Proof.
  intros Ha Hb Hoa Hob Hsub. destruct (pair_tick f p head head count ba bb xs q Ha Hb)
    as (oa' & ob' & Hoa' & Hob' & Ht). simplify_eq. unfold pair_sum_update. cbn [trunc exact dbl].
  rewrite Hsub. destruct (count =? p)%nat.
  - destruct Ht as (a & b & -> & -> & ->). rewrite Hsub. by xreal.
  - rewrite Ht. by xreal.
Qed.

(** The reads of the emitted code on the sums of a full window. *)
Lemma lowered_pair_read kind p w (full : bool) (st1 : RollingPairState xreal xreal) :
  (0 < p)%nat -> sums st1 = sums_of w -> RollingPairFull st1 = full ->
  (full = true -> length w = p /\ p_count st1 = p) ->
  let s := sums_of w in
  let n_f : xreal := fnat p in
  let cov := fsub (sum_xy s) (fdiv (fmul (sum_x s) (sum_y s)) n_f) in
  let var_x := fsub (sum_xx s) (fdiv (fmul (sum_x s) (sum_x s)) n_f) in
  let var_x_pos := fgt var_x (fint 0) in
  match kind with
  | Corr =>
      let var_y := fsub (sum_yy s) (fdiv (fmul (sum_y s) (sum_y s)) n_f) in
      let vars_pos := var_x_pos && fgt var_y (fint 0) in
      let denom := fsqrt (fmul var_x var_y) in
      let can_corr := full && vars_pos && fgt denom (fint 0) in
      let r_raw := fdiv cov denom in
      let r_clamped :=
        if fgt r_raw (fint 1) then fint 1 else if flt r_raw (fint (-1)) then fint (-1) else r_raw in
      if can_corr then r_clamped else fnan
  | Beta => if full && var_x_pos then fdiv cov var_x else fnan
  end = pair_read kind st1.
Proof.
  intros Hp Hs Hfull Hlen s n_f cov var_x var_x_pos. destruct full.
  2: { destruct kind; simpl; unfold RollingPairCorrelation, RollingPairBeta; by rewrite Hfull. }
  destruct (Hlen eq_refl) as [Hlw Hc].
  assert (Hne : w <> []) by (intros E; rewrite E in Hlw; simpl in Hlw; lia).
  destruct (RollingPair_read_exact st1 w Hne ltac:(lia) Hfull Hs) as [Hcorr Hbeta].
  destruct (pair_unnorm_exact w Hne) as (Ec & Ex & Ey). rewrite Hlw in Ec, Ex, Ey.
  change cov with (cov_unnorm (H:=exact) s (fnat p)). unfold var_x_pos.
  change var_x with (var_x_unnorm (H:=exact) s (fnat p)).
  change (fsub (sum_yy s) (fdiv (fmul (sum_y s) (sum_y s)) n_f)) with (var_y_unnorm (H:=exact) s (fnat p)).
  unfold s. rewrite Ec, Ex. unfold fgt. destruct kind; simpl pair_read.
  - rewrite Hcorr, Ey, !fint_xreal, !flt_xreal.
    destruct (Rleb_spec (Wvar_x w) 0), (Rltb_spec 0 (Wvar_x w)); try (exfalso; lra); [done|].
    destruct (Rleb_spec (Wvar_y w) 0), (Rltb_spec 0 (Wvar_y w)); try (exfalso; lra); [done|].
    cbn [andb orb]. assert (Hpos : 0 < Wvar_x w * Wvar_y w) by nra. pose proof (sqrt_lt_R0 _ Hpos).
    rewrite fmul_xreal, fsqrt_xreal, flt_xreal by lra.
    destruct (Rltb_spec 0 (sqrt (Wvar_x w * Wvar_y w))); [|exfalso; lra].
    rewrite fdiv_xreal, !flt_xreal by lra. destruct (Wcorr_bounds w) as [H1 H2]; [done|lra|lra|].
    destruct (Rltb_spec 1 (Wcov w / sqrt (Wvar_x w * Wvar_y w))); [exfalso; lra|].
    by destruct (Rltb_spec (Wcov w / sqrt (Wvar_x w * Wvar_y w)) (-1)); [exfalso; lra|].
  - rewrite Hbeta, !fint_xreal, !flt_xreal.
    destruct (Rleb_spec (Wvar_x w) 0), (Rltb_spec 0 (Wvar_x w)); try (exfalso; lra); [done|].
    simpl andb. cbv iota. apply fdiv_xreal. lra.
Qed.

Lemma pair_sim kind p a b :
  (0 < p)%nat ->
  step_sim (pair_rel p) (pair_rel p) (pair_step (pair_read kind) p (Some a : xreal) (Some b : xreal))
    (lowered_rolling_pair kind p (Some a : xreal) (Some b : xreal)).
Proof.
  intros Hp st [ba bb head count cap s] v st1 (xs & He & Ha & Hb & Hsums) Hs. simpl in *. subst s.
  unfold pair_step in Hs. destruct (RollingPairPush_exact p xs st (a, b)) as (st2 & H2 & He2).
  { unfold RollingPairPrepare. rewrite decide_True by apply He. exact He. }
  simpl in H2. rewrite H2 in Hs. injection Hs as <- <-.
  destruct (pair_rings_step p ba bb head count xs (a, b) Ha Hb) as [Ha' Hb'].
  pose proof Ha as [_ Hla Hh Hc _ _]. pose proof (rr_len _ _ _ _ _ Hb) as Hlb. rewrite length_map in Hc.
  destruct (lookup_lt_is_Some_2 ba head) as [oa Hoa]; [lia|].
  destruct (lookup_lt_is_Some_2 bb head) as [ob Hob]; [lia|].
  pose proof (fun f sub => pair_sum_exact f p head count ba bb xs (a, b) sub oa ob Ha Hb Hoa Hob) as Hsum.
  unfold lowered_rolling_pair. cbn [pl_x_buf pl_y_buf pl_head pl_count pl_capacity pl_sums].
  unfold at_idx. rewrite Hoa, Hob. cbn [rbind]. rewrite !set_idx_Ok by lia. cbn [rbind].
  cbn [sums_of sum_x sum_y sum_xy sum_xx sum_yy]. cbn [fst snd] in Hsum.
  rewrite (Hsum (fun x _ => x) (fun x _ => x)) by done.
  rewrite (Hsum (fun _ y => y) (fun _ y => y)) by done.
  rewrite (Hsum Rmult (@fmul xreal _)) by done.
  rewrite (Hsum (fun x _ => x * x) (fun x _ => fmul x x)) by done.
  rewrite (Hsum (fun _ y => y * y) (fun _ y => fmul y y)) by done.
  simpl fst in *. simpl snd in *.
  set (count' := if (count =? p)%nat then count else S count) in *.
  set (w := last_n p (xs ++ [(a, b)])) in *. eexists. split.
  - do 2 f_equal. destruct He2 as [(Hcap & Hr2 & _) Hs2].
    assert (Hcc : p_count st2 = count').
    { rewrite (rr_count _ _ _ _ _ Hr2), (rr_count _ _ _ _ _ Ha'), !length_map. done. }
    apply (lowered_pair_read kind p w (count' =? p)%nat st2); [done|done| |].
    + unfold RollingPairFull. rewrite Hcap, Hcc. destruct (Nat.ltb_spec 0 p); [|lia]. apply andb_true_r.
    + intros Hf%Nat.eqb_eq. split; [|lia]. exact (proj1 (pair_window_full _ _ _ _ _ _ Ha' Hf)).
  - exists (xs ++ [(a, b)]). by split_and!.
Qed.

(** ** The filter *)

Definition kalman_rel (st : Kalman1dState xreal) (st' : Kalman1dStateLowered xreal) : Prop :=
  kl_x_hat st' = x_hat st /\ kl_p st' = k_p st /\ kl_initialized st' = k_initialized st /\
  (k_initialized st = true -> exists lo hi r, kalman_ok lo hi r st).

Lemma kalman_sim x q r :
  0 <= q -> 0 < r ->
  step_sim kalman_rel kalman_rel
    (fun st => Ok (Kalman1dStep st (Some x : xreal) (Some q) (Some r)))
    (lowered_kalman1d (Some q) (Some r) (Some x : xreal)).
Proof.
  intros Hq Hr st [xh p i] v st1 (Hx & Hp & Hi & Hok) [= Hk]. simpl in *. subst.
  unfold lowered_kalman1d. cbn [kl_x_hat kl_p kl_initialized].
  destruct (k_initialized st) eqn:E; cbn [negb].
  - destruct (Hok eq_refl) as (lo & hi & r0 & Hko).
    pose proof (Kalman1dStep_exact (Rmin lo x) (Rmax hi x) r0 st x q r) as Hstep.
    destruct Hko as [_ (xh & Hx & Hxb) (p & Hp & Hpb)].
    pose proof (Rmin_l lo x); pose proof (Rmin_r lo x); pose proof (Rmax_l hi x); pose proof (Rmax_r hi x).
    assert (Hok2 : kalman_ok (Rmin lo x) (Rmax hi x) r st1).
    { change st1 with (snd (v, st1)). rewrite <- Hk.
      apply Hstep; [|lra|done|done]. split; [done|exists xh; split; [done|lra]|by exists p]. }
    unfold Kalman1dStep in Hk. rewrite E, Hp in Hk. rewrite Hp. cbn [negb] in Hk.
    unfold fgt. cbn [dbl exact]. rewrite !fint_xreal, !fadd_xreal, fle_xreal in Hk.
    rewrite !fint_xreal, !fadd_xreal, flt_xreal.
    destruct (Rleb_spec (p + q + r) 0); [exfalso; lra|].
    destruct (Rltb_spec 0 (p + q + r)); [|exfalso; lra]. injection Hk as <- <-.
    eexists. split; [reflexivity|]. split_and!; try reflexivity.
    intros _. by exists (Rmin lo x), (Rmax hi x), r.
  - unfold Kalman1dStep in Hk. rewrite E in Hk. injection Hk as <- <-.
    eexists. split; [reflexivity|]. split_and!; try reflexivity. intros _. exists x, x, r.
    split; simpl; [done|exists x; split; [done|lra]|exists r; split; [done|lra]].
Qed.

(** ** Any number of ticks *)

Notation ECtx := (SignalContext xreal xreal).
Notation ELow := (LoweredStates xreal xreal).

Definition exact_linked (op : RtOp xreal) (id : Z) (c : ECtx) (low : ELow) : Prop :=
  match op with
  | OSma p => linked sma_slots sma_lowered_slots id (sma_rel p) c low
  | OStd p => linked rolling_std_slots rolling_std_lowered_slots id (std_rel p) c low
  | OZscore p => linked zscore_slots zscore_lowered_slots id (std_rel p) c low
  | OVwap p _ => linked vwap_slots vwap_lowered_slots id (vwap_rel p) c low
  | OCorr p => linked rolling_corr_slots rolling_corr_lowered_slots id (pair_rel p) c low
  | OBeta p => linked rolling_beta_slots rolling_beta_lowered_slots id (pair_rel p) c low
  | OKalman => linked kalman1d_slots kalman1d_lowered_slots id kalman_rel c low
  | _ => False
  end.

(** The operators with sums, with the periods the compiler accepts. *)
Definition summing (op : RtOp xreal) : Prop :=
  match op with
  | OSma p | OVwap p _ | OCorr p | OBeta p => (0 < p)%nat
  | OStd p | OZscore p => (2 <= p)%nat
  | OKalman => True
  | _ => False
  end.

(** The arguments an operator reads are numbers; a filter's are those the
    compiler lowers. *)
Definition real_input (op : RtOp xreal) (i : MarketState xreal * Args (D:=xreal)) : Prop :=
  let '(market, a) := i in
  match op with
  | OSma _ | OStd _ | OZscore _ => exists x, arg1 a = Some x
  | OVwap _ sym => forall ins, instrument market sym = Ok ins -> real_quotes ins
  | OCorr _ | OBeta _ => exists x y, arg1 a = Some x /\ arg2 a = Some y
  | OKalman => exists x q r, arg1 a = Some x /\ arg2 a = Some q /\ arg3 a = Some r /\ 0 <= q /\ 0 < r
  | _ => False
  end.

Lemma exact_linked_step op id market (a : Args (D:=xreal)) s j v s1 :
  (0 <= id)%Z -> summing op -> real_input op (market, a) -> exact_linked op id (ctx s) (js_low j) ->
  interpret op id market a s = Ok (v, s1) ->
  exists low, lowered false op id market a j = Ok (v, MkJit (js_ctx j) low) /\
    exact_linked op id (ctx s1) low.
Proof.
  intros Hid Hsum Hin HP Hi. destruct op; try done; simpl in HP, Hsum, Hin;
    cbn [interpret lowered run_effect] in *.
  - destruct Hin as [x Hx]. rewrite Hx in *.
    eapply linked_step; [apply _|apply _|done|apply sma_sim|exact HP|exact Hi].
  - destruct Hin as [x Hx]. rewrite Hx in *.
    eapply linked_step; [apply _|apply _|done|by apply std_sim|exact HP|exact Hi].
  - destruct Hin as [x Hx]. rewrite Hx in *.
    eapply linked_step; [apply _|apply _|done|by apply zscore_sim|exact HP|exact Hi].
  - apply bind_Ok in Hi as ([ins e] & Hl & Hi). unfold lift in Hl. apply fmap_Ok in Hl as (ins' & Hins & [= -> ->]).
    rewrite Hins. cbn [rbind].
    eapply linked_step; [apply _|apply _|done|apply vwap_sim; [done|by apply Hin]|exact HP|exact Hi].
  - destruct Hin as (x & y & Hx & Hy). rewrite Hx, Hy in *.
    eapply linked_step; [apply _|apply _|done|by apply (pair_sim Corr)|exact HP|exact Hi].
  - destruct Hin as (x & y & Hx & Hy). rewrite Hx, Hy in *.
    eapply linked_step; [apply _|apply _|done|by apply (pair_sim Beta)|exact HP|exact Hi].
  - destruct Hin as (x & q & r & Hx & Hq & Hr & Hq0 & Hr0). rewrite Hx, Hq, Hr in *.
    eapply linked_step; [apply _|apply _|done|by apply kalman_sim|exact HP|exact Hi].
Qed.

Lemma zeros_rep (p : nat) : (0 < p)%nat -> ring_rep p (zeros p : list xreal) 0 0 [].
Proof. intros Hp. apply ring_rep_nil; [done|]. apply length_replicate. Qed.

Lemma prewarm_ring_fresh p :
  (0 < p)%nat ->
  prewarm_ring p (RingStatsState_init (D:=xreal) (L:=xreal)) = RingStatsPrepare p RingStatsState_init.
Proof.
  intros Hp. unfold prewarm_ring, RingStatsPrepare.
  by destruct (decide _) as [E|_]; [simpl in E; lia|].
Qed.

Lemma started_exact_linked op id c low :
  summing op -> started op id c low -> exact_linked op id c low.
Proof.
  intros Hsum Hs. destruct op; try done; simpl in Hsum;
    destruct Hs as (st & st' & H1 & H2 & -> & ->); eexists _, _; (split; [exact H1|split; [exact H2|]]).
  - exists []. rewrite prewarm_ring_fresh by done. simpl.
    split_and!; [by apply ring_exact_fresh|by apply zeros_rep|apply fint_xreal].
  - exists []. rewrite prewarm_ring_fresh by lia. simpl.
    split_and!; [apply ring_exact_fresh; lia|apply zeros_rep; lia|apply fint_xreal|apply fint_xreal].
  - exists []. rewrite prewarm_ring_fresh by lia. simpl.
    split_and!; [apply ring_exact_fresh; lia|apply zeros_rep; lia|apply fint_xreal|apply fint_xreal].
  - exists []. simpl. split_and!; [by apply vwap_exact_fresh|done|by apply zeros_rep..
      |apply fint_xreal|apply fint_xreal].
  - exists []. simpl. split_and!; [by apply pair_exact_fresh|by apply zeros_rep..|].
    unfold zero_sums, sums_of. by rewrite fint_xreal.
  - exists []. simpl. split_and!; [by apply pair_exact_fresh|by apply zeros_rep..|].
    unfold zero_sums, sums_of. by rewrite fint_xreal.
  - by split_and!.
Qed.

(** C8: lowered [sma], [rolling_std], [zscore], [vwap], [rolling_corr],
    [rolling_beta] and [kalman1d] differ from the interpreter by rounding
    alone: in exact arithmetic, on a call whose slot and struct have been
    prewarmed together and over any ticks with real inputs (and, for the
    filter, constants the compiler lowers), the emitted code returns the
    interpreter's values, NaN included, fails at no tick, and changes nothing
    but the structs. *)
Theorem lowered_exact cfg name args sym op id c c1 low low1 inputs seen vs s1 :
  call_rtop cfg c name args sym = Some op -> summing op -> prewarmable op args -> (0 <= id)%Z ->
  unallocated (Z.to_nat id) c low ->
  prewarm_call name args id c = Ok c1 ->
  prewarm_lowered_call (fun x : xreal => x) name args id low = Ok low1 ->
  Forall (real_input op) inputs ->
  ticks (interpret op id) inputs (MkEval c1 seen) = Ok (vs, s1) ->
  exists low2, lowered_ticks false op id inputs (MkJit c1 low1) = Ok (vs, MkJit c1 low2).
Proof.
  intros Hop Hsum Hpw Hid Hun Hc Hl Hin Ht.
  assert (Hs : started op id c1 low1) by (by eapply (prewarm_started (fun x => x)); [done|..]).
  apply started_exact_linked in Hs; [|done].
  destruct (linked_ticks (fun _ => exact_linked op id) (real_input op) op id
    (Z.of_nat (length inputs)) 0 inputs (MkEval c1 seen) (MkJit c1 low1) vs s1)
    as [low2 Hlow]; [|done|lia|done|done|by exists low2].
  intros n [market a] s j v s2 Hi _ HP Hstep. by eapply exact_linked_step.
Qed.

Lemma to_int_IZR z : (0 <= z < 2 ^ 31)%Z -> to_int (Some (IZR z) : xreal) = Some z.
Proof.
  intros Hz. assert (Hi : Int_part (IZR z) = z) by (symmetry; apply Int_part_spec; lra).
  cbn [to_int exact]. unfold Rtrunc. destruct (Rltb_spec (IZR z) 0) as [Hneg|_].
  { apply lt_IZR in Hneg. lia. }
  rewrite Hi. destruct (Z.leb_spec (- 2 ^ 31) z), (Z.ltb_spec z (2 ^ 31)); done || lia.
Qed.

Lemma period_of_IZR loc z :
  (0 < z < 2 ^ 31)%Z -> period_of (NumberLiteral loc (Some (IZR z) : xreal)) = Some (Z.to_nat z).
Proof.
  intros Hz. unfold period_of. rewrite to_int_IZR by lia.
  assert (period_ok (Some (IZR z) : xreal) z = true) as ->; [|done].
  unfold period_ok. destruct (Z.leb_spec z 0); [lia|]. cbn [orb].
  unfold fgt. cbn [dbl exact]. rewrite fint_xreal, fsub_xreal.
  change (fabs (Some (IZR z - IZR z) : xreal)) with (Some (Rabs (IZR z - IZR z)) : xreal).
  change (flit 1 12 : xreal) with (Some (1 / 10 ^ 12) : xreal). rewrite flt_xreal.
  replace (IZR z - IZR z) with 0 by lra. rewrite Rabs_R0.
  destruct (Rltb_spec (1 / 10 ^ 12) 0); [lra|done].
Qed.

(** [sma(mid(AAPL), 2)] at node 1, on the samples 1, 4 and 7. *)
Module ExactExample.
Definition period : Expr xreal := NumberLiteral noloc (Some 2).
Definition args : list (Expr xreal) :=
  [FunctionCall noloc "mid" [IdentifierExpr noloc "AAPL"] (-1) (-1); period].
Definition cfg : Config := MkConfig (MkSymbolTable (<["AAPL" := 0%nat]> ∅) 1) kAll false false ∅.
Definition context : ECtx :=
  let c := EnsureNodeCapacity SignalContext_init 1 in
  set_nodes (set_sma_states (<[1%nat := prewarm_ring 2 RingStatsState_init]> (sma_states (nodes c))) (nodes c)) c.
Definition low : ELow :=
  set_sma_lowered [SmaStateLowered_init; MkSmaLow (zeros 2) (fint 0) 0 0 2] (grow_lowered 2 LoweredStates_init).
Definition inputs : list (MarketState xreal * Args (D:=xreal)) :=
  map (fun x => (MkMarket [] 0, MkArgs (Some x) None None)) [1; 4; 7].
End ExactExample.

Lemma lowered_exact_witness :
  exists vs s1 low2,
    ticks (interpret (OSma 2) 1) ExactExample.inputs (MkEval ExactExample.context ∅) = Ok (vs, s1) /\
    length vs = 3%nat /\
    lowered_ticks false (OSma 2) 1 ExactExample.inputs (MkJit ExactExample.context ExactExample.low) =
      Ok (vs, MkJit ExactExample.context low2).
Proof.
  assert (Hp : period_of ExactExample.period = Some 2%nat) by (exact (period_of_IZR noloc 2 ltac:(lia))).
  destruct (period_prewarmed (FunctionCall noloc "mid" [IdentifierExpr noloc "AAPL"] (-1) (-1))
    ExactExample.period [] 2 Hp) as [_ Hper].
  destruct (ticks (interpret (OSma 2) 1) ExactExample.inputs (MkEval ExactExample.context ∅))
    as [[vs s1]|e] eqn:E; [|by cbv in E].
  destruct (lowered_exact ExactExample.cfg "sma" ExactExample.args (-1) (OSma 2) 1 SignalContext_init
    ExactExample.context LoweredStates_init ExactExample.low ExactExample.inputs ∅ vs s1) as [low2 Hlow].
  - unfold call_rtop, ExactExample.args. rewrite Hp. reflexivity.
  - simpl. lia.
  - exact I.
  - lia.
  - split; reflexivity.
  - unfold prewarm_call, ExactExample.args. rewrite Hper. reflexivity.
  - unfold prewarm_lowered_call, ExactExample.args. rewrite Hper. reflexivity.
  - repeat constructor; by eexists.
  - exact E.
  - exists vs, s1, low2. split; [reflexivity|]. split; [|exact Hlow].
    clear Hlow. cbv in E. injection E as <- _. reflexivity.
Defined.
