(* ===== verification/GradientFacts.v ===== *)
(** * The gradient entry points compute derivatives: the filters

    Every sample of a run is a differentiable function of one parameter,
    given with its derivative at a point.  Running a [jit_rt_*_grad]
    function on the samples' values and derivatives at the point returns
    the value of the plain operator there and the derivative of that value
    with respect to the parameter, in exact arithmetic.  This file sets up
    the statement and treats sma, lag, ema_alpha and kalman1d;
    WindowGradientFacts.v treats the windowed statistics. *)

From Stdlib Require Import Reals Lra.
From S2P Require Import Prelude Errors Arith RealArith Calculus Rolling RollingFacts Context Interpreter JitRuntime JitFacts Gradient.

(** ** Runs *)

Section runs.
Context {S A O : Type}.
Implicit Types (step : A -> S -> Res (O * S)).

(** The state after a list of inputs, and the output of one more. *)
Definition run step (ss : list A) (st : S) : Res S :=
  push_all (fun st a => rmap snd (step a st)) st ss.
Definition final step (ss : list A) (s : A) (st : S) : Res O :=
  st <- run step ss st;; rmap fst (step s st).

Lemma final_nil step s st : final step [] s st = rmap fst (step s st).
Proof. done. Qed.

Lemma final_cons step a ss s st :
  final step (a :: ss) s st = rbind (step a st) (fun '(_, st) => final step ss s st).
Proof.
  unfold final, run. cbn [push_all]. by destruct (step a st) as [[o st']|].
Qed.

(** An invariant of the inputs so far gives the last output; [C] is a
    prefix-closed condition on the inputs, [E] one on the complete run. *)
Lemma final_is step (C : list A -> Prop) (P : list A -> S -> Prop) (E : list A -> Prop)
  (V : list A -> O) ss s st :
  (forall l1 l2, C (l1 ++ l2) -> C l1) -> C (ss ++ [s]) -> E (ss ++ [s]) -> P [] st ->
  (forall l a st, C (l ++ [a]) -> P l st ->
     exists o st', step a st = Ok (o, st') /\ P (l ++ [a]) st' /\
       (E (l ++ [a]) -> o = V (l ++ [a]))) ->
  final step ss s st = Ok (V (ss ++ [s])).
Proof.
  intros Hpre HC HE HP Hstep.
  destruct (push_all_inv_if (fun st a => rmap snd (step a st)) C P [] st ss)
    as (st' & Hrun & HP'); [done| | |done|].
  - intros l st1 a HCa HPl. destruct (Hstep l a st1 HCa HPl) as (o & st' & Es & HP' & _).
    exists st'. by rewrite Es.
  - by apply (Hpre ss [s]).
  - destruct (Hstep ss s st' HC HP') as (o & st2 & Es & _ & HV).
    unfold final, run. rewrite Hrun. cbn [rbind]. rewrite Es. cbn [rmap fst].
    by rewrite HV.
Qed.

Lemma final_ext step step' ss s st :
  (forall a st, step a st = step' a st) -> final step ss s st = final step' ss s st.
Proof.
  intros He. revert st. induction ss as [|a ss IH]; intros st.
  - by rewrite !final_nil, He.
  - rewrite !final_cons, He. by destruct (step' a st) as [[o st']|]; simpl.
Qed.
End runs.

(** ** Runs on the slots of a context *)

Section slots.
Context {D L S A O : Type} `{Machine D L}.
Notation Ctx := (SignalContext D L).
Variable sl : Slots (NodeStates D L) S.
Context `{!GetSet sl}.

Lemma with_node_at id (f : S -> Res (O * S)) (c : Ctx) st :
  (0 <= id)%Z -> slots_get sl (nodes c) !! Z.to_nat id = Some st ->
  match f st with
  | Ok (o, st') => exists c', with_node sl id f c = Ok (o, c') /\
      slots_get sl (nodes c') !! Z.to_nat id = Some st' /\ sens c' = sens c /\
      gradient_param_count c' = gradient_param_count c
  | Err e => with_node sl id f c = Err e
  end.
Proof.
  intros Hid Hs. unfold with_node, at_Z, at_idx. destruct (Z.ltb_spec id 0); [lia|].
  rewrite Hs. cbn [rbind]. destruct (f st) as [[o st']|e]; [|done]. cbn [rbind].
  eexists. split; [done|]. cbn [nodes set_nodes sens gradient_param_count]. rewrite get_set.
  split_and!; [|done|done]. apply list_lookup_insert_eq. by eapply lookup_lt_Some.
Qed.

Lemma final_with_node id (f : A -> S -> Res (O * S)) ss s (c : Ctx) st :
  (0 <= id)%Z -> slots_get sl (nodes c) !! Z.to_nat id = Some st ->
  final (fun a => with_node sl id (f a)) ss s c = final f ss s st.
Proof.
  intros Hid. revert c st. induction ss as [|a ss IH]; intros c st Hs.
  - rewrite !final_nil. pose proof (with_node_at id (f s) c st Hid Hs) as Hw.
    destruct (f s st) as [[o st']|e]; [destruct Hw as (c' & -> & _)|rewrite Hw]; done.
  - rewrite !final_cons. pose proof (with_node_at id (f a) c st Hid Hs) as Hw.
    destruct (f a st) as [[o st']|e]; [destruct Hw as (c' & -> & Hs' & _)|by rewrite Hw].
    cbn [rbind]. by apply IH.
Qed.

Context {G : Type}.
Variable gl : Slots (Sensitivities D L) G.
Hypothesis get_set_grad : forall v c, slots_get gl (slots_set gl v c) = v.

(** A step on the two states of a gradient, as a step on their pair. *)
Definition on_pair (f : S -> G -> Res (O * S * G)) (st : S * G) : Res (O * (S * G)) :=
  rbind (f (fst st) (snd st)) (fun '(o, s, g) => Ok (o, (s, g))).

(** The parameter exists, and its slots of the node hold [st] and [g]. *)
Record grad_at (id param_id : Z) (c : Ctx) (st : S) (g : G) : Prop := {
  ga_id : (0 <= id)%Z;
  ga_param : (0 <= param_id < Z.of_nat (gradient_param_count c))%Z;
  ga_state : slots_get sl (nodes c) !! Z.to_nat id = Some st;
  ga_sens : slots_get gl (sens c) !!
    (Z.to_nat id * gradient_param_count c + Z.to_nat param_id) = Some g;
}.

Lemma with_grad_slot_at id param_id (f : S -> G -> Res (O * S * G)) (c : Ctx) st g :
  grad_at id param_id c st g ->
  CheckedGradientParam c param_id = Ok (Z.to_nat param_id) /\
  match f st g with
  | Ok (o, st', g') => exists c',
      with_grad_slot sl gl id (Z.to_nat param_id) f c = Ok (o, c') /\
      grad_at id param_id c' st' g'
  | Err e => with_grad_slot sl gl id (Z.to_nat param_id) f c = Err e
  end.
Proof.
  intros [Hid Hp Hs Hg]. split.
  { unfold CheckedGradientParam. destruct (Z.ltb_spec param_id 0); [lia|].
    by destruct (Z.leb_spec (Z.of_nat (gradient_param_count c)) param_id); [lia|]. }
  unfold with_grad_slot, at_Z, at_idx, GradientSlot. destruct (Z.ltb_spec id 0); [lia|].
  rewrite Hs. cbn [rbind]. destruct (Nat.eqb_spec (gradient_param_count c) 0); [lia|].
  cbn [rbind]. rewrite Hg. cbn [rbind].
  destruct (f st g) as [[[o st'] g']|e]; [|done]. cbn [rbind].
  eexists. split; [done|].
  split; cbn [nodes set_nodes set_sens sens gradient_param_count]; [done|done| |].
  - rewrite get_set. apply list_lookup_insert_eq. by eapply lookup_lt_Some.
  - rewrite get_set_grad. apply list_lookup_insert_eq. by eapply lookup_lt_Some.
Qed.

Lemma final_with_grad id param_id (f : A -> S -> G -> Res (O * S * G)) ss s (c : Ctx) st g :
  grad_at id param_id c st g ->
  final (fun a => with_grad sl gl id param_id (f a)) ss s c =
    final (fun a => on_pair (f a)) ss s (st, g).
Proof.
  revert c st g. induction ss as [|a ss IH]; intros c st g Hat.
  - rewrite !final_nil. unfold with_grad, on_pair. cbn [fst snd].
    destruct (with_grad_slot_at id param_id (f s) c st g Hat) as [-> Hw]. cbn [rbind].
    destruct (f s st g) as [[[o st'] g']|e]; [destruct Hw as (c' & -> & _)|rewrite Hw]; done.
  - rewrite !final_cons. unfold with_grad at 1. unfold on_pair at 1. cbn [fst snd].
    destruct (with_grad_slot_at id param_id (f a) c st g Hat) as [-> Hw]. cbn [rbind].
    destruct (f a st g) as [[[o st'] g']|e];
      [destruct Hw as (c' & -> & Hat')|by rewrite Hw].
    cbn [rbind]. by apply IH.
Qed.
End slots.

(** ** Samples that depend on a parameter *)

Record Curve := MkCurve { curve : R -> R; slope : R }.

Definition at_ (x : R) (s : Curve) : xreal := Some (curve s x).
Definition slope_ (s : Curve) : xreal := Some (slope s).

(** [slope s] is the derivative of the sample at [x0]. *)
Definition tangent (x0 : R) (s : Curve) : Prop := derivable_pt_lim (curve s) x0 (slope s).

(** The gradient run returns the value of the plain run at [x0] and its
    derivative there. *)
Definition differentiates (x0 : R) (plain : R -> Res xreal) (grad : Res (xreal * xreal))
  : Prop :=
  exists V g, near x0 (fun x => plain x = Ok (Some (V x))) /\
    grad = Ok (Some (V x0), Some g) /\ derivable_pt_lim V x0 g.

Notation ectx := (SignalContext xreal xreal).

(** [p] as the [std::int64_t] argument of an entry point. *)
Definition is_period (p : nat) : Prop := (0 < Z.of_nat p < 2 ^ 31)%Z.

Lemma size_of_period_nat p : is_period p -> size_of_period (Z.of_nat p) = p.
Proof. intros Hp. unfold size_of_period. unfold is_period in Hp. rewrite u64_period, Nat2Z.id by lia. done. Qed.

(** Runs whose states are families indexed by the parameter: [Rel] relates
    the plain states to the state of the gradient run. *)
Lemma final_family {A S T} (x0 : R) (plain : R -> A -> S -> Res (xreal * S))
  (grad : A -> T -> Res ((xreal * xreal) * T)) (C : A -> Prop) (Rel : (R -> S) -> T -> Prop)
  ss s pl t :
  (forall a pl t, C a -> Rel pl t ->
     exists V g pl' t', near x0 (fun x => plain x a (pl x) = Ok (Some (V x), pl' x)) /\
       grad a t = Ok ((Some (V x0), Some g), t') /\ derivable_pt_lim V x0 g /\ Rel pl' t') ->
  Forall C (ss ++ [s]) -> Rel pl t ->
  differentiates x0 (fun x => final (plain x) ss s (pl x)) (final grad ss s t).
Proof.
  intros Hstep. revert pl t. induction ss as [|a ss IH]; intros pl t HF HR;
    apply Forall_cons in HF as [HC HF];
    destruct (Hstep _ pl t HC HR) as (V & g & pl' & t' & Hn & Hg & HV & HR').
  - exists V, g. rewrite final_nil, Hg. split_and!; [|done|done].
    apply near_impl with (2 := Hn). intros x Hx. by rewrite final_nil, Hx.
  - destruct (IH pl' t' HF HR') as (V' & g' & Hn' & Hg' & HV'). exists V', g'.
    rewrite final_cons, Hg. split_and!; [|done|done].
    apply near_impl with (2 := near_and _ _ _ Hn Hn'). intros x [Hx Hx'].
    by rewrite final_cons, Hx.
Qed.

(** ** sma and lag *)

Section rings.
Context {D L : Type} `{Machine D L}.

Lemma PushPrepared_step period xs (st : RingStatsState D L) x :
  ring_holds period xs st -> RingStatsPushPrepared st x = RingStatsStep st x.
Proof.
  intros [Hc Hr]. pose proof Hr as [Hp Hl _ _ _ _]. unfold RingStatsPushPrepared.
  destruct (Nat.eqb_spec (capacity st) 0); [lia|].
  by destruct (Nat.eqb_spec (length (buffer st)) 0); [lia|].
Qed.

Lemma RingStatsFull_holds period xs (st : RingStatsState D L) :
  ring_holds period xs st -> RingStatsFull st = (period <=? length xs).
Proof.
  intros [Hc Hr]. pose proof Hr as [Hp _ _ Hcount _ _]. unfold RingStatsFull. rewrite Hc.
  destruct (Nat.eqb_spec (count st) period), (Nat.leb_spec period (length xs)),
    (Nat.ltb_spec 0 period); simpl; try done; lia.
Qed.
End rings.

Lemma RingStatsPrepare_same {D L} `{Machine D L} period (st : RingStatsState D L) :
  capacity st = period -> RingStatsPrepare period st = st.
Proof. intros Hc. unfold RingStatsPrepare. by rewrite decide_True. Qed.

Lemma RingStatsPush_prepare {D L} `{Machine D L} period (st : RingStatsState D L) x :
  0 < period -> RingStatsPush st period x = RingStatsStep (RingStatsPrepare period st) x.
Proof. intros Hp. unfold RingStatsPush. by destruct (Nat.eqb_spec period 0); [lia|]. Qed.

(** The state of a ring after the values [f] of the samples [l]. *)
Definition ring_at (period : nat) (f : Curve -> R) (l : list Curve)
  (st : RingStatsState xreal xreal) : Prop := ring_exact period (map (fun s => Some (f s)) l) st.

Section ring_at.
Variable period : nat.
Variable f : Curve -> R.

Lemma ring_at_window l st : ring_at period f l st ->
  let w := map f (last_n period l) in
  count st = length w /\ sum st = Some (Rsum w) /\ mean st = Some (Rmean w) /\
  m2 st = Some (Rssd w) /\ RingStatsFull st = (period <=? length l) /\
  length w = Nat.min period (length l).
Proof.
  intros [Hh (w' & Hw & Hs & Hm & H2)] w.
  rewrite last_n_map, <- (map_map f Some) in Hw.
  assert (Ew : w' = w) by (by apply (inj (map Some)) in Hw). subst w'.
  rewrite (RingStatsFull_holds _ _ _ Hh), length_map. destruct Hh as [_ Hr].
  rewrite (rr_count _ _ _ _ _ Hr), length_map. unfold w. by rewrite length_map, length_last_n.
Qed.

Lemma ring_at_full l st : ring_at period f l st -> period <= length l -> RingStatsFull st = true.
Proof.
  intros Hat Hle. destruct (ring_at_window l st Hat) as (_ & _ & _ & _ & -> & _).
  by apply Nat.leb_le.
Qed.

Lemma ring_at_mean l st :
  ring_at period f l st -> 0 < period <= length l ->
  RingStatsMean st = Some (Rmean (map f (last_n period l))).
Proof.
  intros Hat Hp. destruct (ring_at_window l st Hat) as (Hc & Hs & _ & _ & _ & Hl).
  apply RingStatsMean_exact; [done| |done]. intros E. rewrite E in Hl. simpl in Hl. lia.
Qed.

Lemma ring_at_step l st s :
  ring_at period f l st ->
  exists st', RingStatsStep st (Some (f s)) = Ok st' /\ ring_at period f (l ++ [s]) st'.
Proof. intros Hat. unfold ring_at. rewrite map_app. by apply RingStatsStep_exact. Qed.
End ring_at.

(** The derivative of a window's mean is the mean of the derivatives. *)
Lemma derivable_Rmean x0 (w : list Curve) :
  Forall (tangent x0) w ->
  derivable_pt_lim (fun x => Rmean (map (fun s => curve s x) w)) x0 (Rmean (map slope w)).
Proof.
  intros HF. unfold Rmean.
  eapply derivable_eq;
    [apply (derivable_over x0 _ _ (INR (length w)) (derivable_Rsum x0 curve slope w HF))| |];
    intros; by rewrite length_map.
Qed.

Instance get_set_ema : GetSet (D:=xreal) (L:=xreal) ema_slots. Proof. done. Qed.
Instance get_set_sma : GetSet (D:=xreal) (L:=xreal) sma_slots. Proof. done. Qed.
Instance get_set_lag : GetSet (D:=xreal) (L:=xreal) lag_slots. Proof. done. Qed.
Instance get_set_std : GetSet (D:=xreal) (L:=xreal) rolling_std_slots. Proof. done. Qed.
Instance get_set_zscore : GetSet (D:=xreal) (L:=xreal) zscore_slots. Proof. done. Qed.
Instance get_set_corr : GetSet (D:=xreal) (L:=xreal) rolling_corr_slots. Proof. done. Qed.
Instance get_set_beta : GetSet (D:=xreal) (L:=xreal) rolling_beta_slots. Proof. done. Qed.
Instance get_set_kalman : GetSet (D:=xreal) (L:=xreal) kalman1d_slots. Proof. done. Qed.

(** ** lag *)

Section lag.
Variable period : nat.
Variable f : Curve -> R.

Definition lag_at (l : list Curve) (st : LagState xreal) : Prop :=
  lag_holds period (map (fun s => Some (f s) : xreal) l) st.

(** The sample read at the last of the ticks [l]. *)
Definition lagged (l : list Curve) : option Curve := l !! (length l - S period).

Lemma lag_at_pos l st : lag_at l st -> 0 < period.
Proof. intros [_ Hr]. apply (rr_pos _ _ _ _ _ Hr). Qed.

Lemma lag_at_value l st a :
  lag_at l st -> S period <= length (l ++ [a]) ->
  LagValue st = Ok (option_map f (lagged (l ++ [a])) : xreal).
Proof.
  intros Hat Hle. rewrite (LagValue_holds period _ _ Hat). unfold lag_of, lagged.
  rewrite length_app in *. cbn [length] in *. rewrite length_map.
  destruct (Nat.ltb_spec (length l) period); [lia|].
  pose proof (lag_at_pos _ _ Hat).
  replace (length l + 1 - S period) with (length l - period) by lia.
  rewrite lookup_app_l by lia. rewrite list_lookup_fmap.
  by destruct (l !! (length l - period)).
Qed.

Lemma LagPush_at l st a :
  0 < period -> lag_at l (LagPrepare period st) ->
  exists st', LagPush st period (Some (f a) : xreal) = Ok st' /\ lag_at (l ++ [a]) st' /\
    LagPrepare period st' = st' /\
    (LagPrepare period st = st -> LagPushPrepared st (Some (f a) : xreal) = Ok st').
Proof.
  intros Hp Hat. destruct (LagStep_holds period _ _ (Some (f a) : xreal) Hat) as (st' & Est & Hst').
  exists st'. unfold LagPush. destruct (Nat.eqb_spec period 0); [lia|].
  cbn [ensure negb rbind]. split; [done|]. split; [by unfold lag_at; rewrite map_app|].
  split; [unfold LagPrepare; by rewrite decide_True by apply Hst'|].
  intros E. rewrite E in Hat, Est.  unfold LagPushPrepared. destruct Hat as [Hc Hr].
  pose proof (rr_len _ _ _ _ _ Hr). destruct (Nat.eqb_spec (l_capacity st) 0); [lia|].
  by destruct (Nat.eqb_spec (length (l_buffer st)) 0); [lia|].
Qed.

Lemma LagValue_total l st : lag_at l st -> exists v, LagValue st = Ok v.
Proof. intros Hat. eexists. by apply (LagValue_holds period (map (fun s => Some (f s) : xreal) l)). Qed.
End lag.

(** ** ema_alpha and kalman1d *)

Section families.
Local Open Scope R_scope.
Variable x0 : R.

Definition ema_rel (pl : R -> EMAState xreal) (t : EMAState xreal * xreal) : Prop :=
  (e_initialized (fst t) = false /\ forall x, e_initialized (pl x) = false) \/
  exists V d, near x0 (fun x => e_initialized (pl x) = true /\ e_value (pl x) = Some (V x)) /\
    e_initialized (fst t) = true /\ e_value (fst t) = Some (V x0) /\ snd t = Some d /\
    derivable_pt_lim V x0 d.

Lemma ema_rel_step period (a : Curve * Curve) pl t :
  tangent x0 (fst a) /\ tangent x0 (snd a) -> ema_rel pl t ->
  exists V g pl' t',
    near x0 (fun x => ema_alpha_step (at_ x (snd a)) (at_ x (fst a)) (pl x)
                      = Ok (Some (V x), pl' x)) /\
    on_pair (ema_alpha_grad_step (at_ x0 (fst a)) (slope_ (fst a)) (at_ x0 (snd a))
      (slope_ (snd a)) period) t = Ok ((Some (V x0), Some g), t') /\
    derivable_pt_lim V x0 g /\ ema_rel pl' t'.
Proof.
  destruct a as [s al], t as [st g0]. cbn [fst snd]. intros [Hs Hal] HR.
  destruct HR as [[Hi Hpl]|(V & d & Hn & Hi & Hv & Hd & HV)]; cbn [fst snd] in *.
  - exists (curve s), (slope s), (fun x => MkEma (at_ x s) (at_ x al) (e_period (pl x)) true).
    eexists. unfold on_pair, ema_alpha_grad_step. cbn [fst snd]. rewrite Hi. cbn [negb rbind].
    split_and!; [|done|done|].
    + apply near_always. intros x. unfold ema_alpha_step. by rewrite Hpl.
    + right. exists (curve s), (slope s). split_and!; try done. by apply near_always.
  - set (V' := fun x => curve al x * curve s x + (1 - curve al x) * V x).
    set (d' := curve al x0 * slope s + (1 - curve al x0) * d
               + slope al * (curve s x0 - V x0)).
    assert (HV' : derivable_pt_lim V' x0 d').
    { eapply derivable_eq; [apply derivable_pt_lim_plus;
        [apply (derivable_prod x0 _ _ _ _ Hal Hs)|apply derivable_prod; [|exact HV]]| |].
      - apply (derivable_pt_lim_minus (fun _ => 1) (curve al));
          [apply derivable_pt_lim_const|exact Hal].
      - intros x. unfold V', plus_fct, minus_fct. ring.
      - unfold d', minus_fct. ring. }
    exists V', d', (fun x => MkEma (Some (V' x)) (at_ x al) (e_period (pl x)) true).
    eexists. unfold on_pair, ema_alpha_grad_step. cbn [fst snd]. rewrite Hi, Hv, Hd.
    cbn [negb rbind]. unfold at_, slope_. cbn [dbl exact]. rewrite fint_xreal.
    split_and!; [|done|done|].
    + apply near_impl with (2 := Hn). intros x [Hix Hvx].
      unfold ema_alpha_step, ema_blend. rewrite Hix, Hvx. cbn [negb dbl exact].
      by rewrite fint_xreal.
    + right. exists V', d'. split_and!; try done. by apply near_always.
Qed.

Definition kalman_rel (pl : R -> Kalman1dState xreal)
  (t : Kalman1dState xreal * Kalman1dSensitivityState xreal) : Prop :=
  (k_initialized (fst t) = false /\ forall x, k_initialized (pl x) = false) \/
  exists X P dX dP,
    near x0 (fun x => k_initialized (pl x) = true /\ x_hat (pl x) = Some (X x) /\
      k_p (pl x) = Some (P x)) /\
    k_initialized (fst t) = true /\ x_hat (fst t) = Some (X x0) /\
    k_p (fst t) = Some (P x0) /\ snd t = MkKalmanSens (Some dX) (Some dP) /\
    derivable_pt_lim X x0 dX /\ derivable_pt_lim P x0 dP /\ 0 < P x0.

(** One update of an initialised filter, as functions of the parameter. *)
Section update.
Variables (m q r : Curve) (X P : R -> R) (dX dP : R).
Hypotheses (Hm : tangent x0 m) (Hq : tangent x0 q) (Hr : tangent x0 r)
  (HX : derivable_pt_lim X x0 dX) (HP : derivable_pt_lim P x0 dP)
  (Hq0 : 0 <= curve q x0) (Hr0 : 0 < curve r x0) (HP0 : 0 < P x0).

Definition k_pred x := P x + curve q x.
Definition k_denom x := k_pred x + curve r x.
Definition k_gain x := k_pred x / k_denom x.
Definition k_x_hat x := X x + k_gain x * (curve m x - X x).
Definition k_p_new x := (1 - k_gain x) * k_pred x.

Definition dk_pred := dP + slope q.
Definition dk_denom := dk_pred + slope r.
Definition dk_gain :=
  (dk_pred * k_denom x0 - k_pred x0 * dk_denom) / (k_denom x0 * k_denom x0).
Definition dk_x_hat :=
  dX + dk_gain * (curve m x0 - X x0) + k_gain x0 * (slope m - dX).
Definition dk_p_new := - dk_gain * k_pred x0 + (1 - k_gain x0) * dk_pred.

Lemma k_denom_pos : 0 < k_denom x0.
Proof using Hq0 Hr0 HP0. unfold k_denom, k_pred. lra. Qed.

Lemma derivable_k_pred : derivable_pt_lim k_pred x0 dk_pred.
Proof using Hq HP. by apply (derivable_pt_lim_plus P (curve q)). Qed.

Lemma derivable_k_denom : derivable_pt_lim k_denom x0 dk_denom.
Proof using Hq Hr HP.
  apply (derivable_pt_lim_plus k_pred (curve r)); [apply derivable_k_pred|done].
Qed.

Lemma derivable_k_gain : derivable_pt_lim k_gain x0 dk_gain.
Proof using Hq Hr HP Hq0 Hr0 HP0.
  pose proof k_denom_pos. apply derivable_quot; [apply derivable_k_pred|apply derivable_k_denom|lra].
Qed.

Lemma derivable_k_x_hat : derivable_pt_lim k_x_hat x0 dk_x_hat.
Proof using All.
  eapply derivable_eq; [apply derivable_pt_lim_plus; [exact HX|];
    apply derivable_prod; [apply derivable_k_gain|];
    apply (derivable_pt_lim_minus (curve m) X); [exact Hm|exact HX]| |].
  - done.
  - unfold dk_x_hat, minus_fct. ring.
Qed.

Lemma derivable_k_p_new : derivable_pt_lim k_p_new x0 dk_p_new.
Proof using Hq Hr HP Hq0 Hr0 HP0.
  eapply derivable_eq; [apply derivable_prod; [|apply derivable_k_pred];
    apply (derivable_pt_lim_minus (fun _ => 1) k_gain);
      [apply derivable_pt_lim_const|apply derivable_k_gain]| |].
  - done.
  - unfold dk_p_new, minus_fct. ring.
Qed.

Lemma k_p_new_pos : 0 < k_p_new x0.
Proof using Hq0 Hr0 HP0.
  pose proof k_denom_pos. unfold k_p_new, k_gain.
  replace (1 - k_pred x0 / k_denom x0) with (curve r x0 / k_denom x0)
    by (unfold k_denom in *; field; lra).
  apply Rmult_lt_0_compat; [by apply Rdiv_lt_0_compat|unfold k_pred; lra].
Qed.

Lemma Kalman1dStep_curve (st : Kalman1dState xreal) x :
  k_initialized st = true -> x_hat st = Some (X x) -> k_p st = Some (P x) ->
  0 < k_denom x -> 0 < k_p_new x ->
  Kalman1dStep st (at_ x m) (at_ x q) (at_ x r) =
    (Some (k_x_hat x), MkKalman (Some (k_x_hat x)) (Some (k_p_new x)) (at_ x q) (at_ x r) true).
Proof using.
  intros Hi Hx Hp Hd Hn. unfold Kalman1dStep. rewrite Hi, Hx, Hp. cbn [negb].
  unfold at_. rewrite !fint_xreal, !fadd_xreal, fle_xreal. fold (k_pred x). fold (k_denom x).
  destruct (Rleb_spec (k_denom x) 0); [lra|]. rewrite fdiv_xreal by lra. fold (k_gain x).
  rewrite !fsub_xreal, !fmul_xreal, fadd_xreal, flt_xreal. fold (k_x_hat x) (k_p_new x).
  by destruct (Rltb_spec (k_p_new x) 0); [lra|].
Qed.

Lemma kalman1d_grad_step_curve (st : Kalman1dState xreal) :
  k_initialized st = true -> x_hat st = Some (X x0) -> k_p st = Some (P x0) ->
  kalman1d_grad_step (at_ x0 m) (slope_ m) (at_ x0 q) (slope_ q) (at_ x0 r) (slope_ r) st
    (MkKalmanSens (Some dX) (Some dP)) =
  Ok ((Some (k_x_hat x0), Some dk_x_hat),
      MkKalman (Some (k_x_hat x0)) (Some (k_p_new x0)) (at_ x0 q) (at_ x0 r) true,
      MkKalmanSens (Some dk_x_hat) (Some dk_p_new)).
Proof using Hq0 Hr0 HP0.
  intros Hi Hx Hp. pose proof k_denom_pos as Hd. pose proof k_p_new_pos as Hn.
  unfold kalman1d_grad_step. rewrite Hi, Hx, Hp. cbn [negb s_x_hat s_p].
  change (@dbl xreal xreal exact) with Fp_xreal. unfold at_, slope_.
  rewrite !fint_xreal, !fadd_xreal, fle_xreal. fold (k_pred x0). fold (k_denom x0).
  fold dk_pred. fold dk_denom.
  destruct (Rleb_spec (k_denom x0) 0); [lra|].
  rewrite !fmul_xreal, !fsub_xreal, !fdiv_xreal by nra. fold (k_gain x0). fold dk_gain.
  rewrite !fsub_xreal, !fmul_xreal, !fadd_xreal. fold (k_x_hat x0). fold dk_x_hat.
  fold (k_p_new x0). rewrite flt_xreal.
  destruct (Rltb_spec (k_p_new x0) 0); [lra|]. cbn [fopp Fp_xreal xop1].
  rewrite !fmul_xreal, !fadd_xreal. done.
Qed.
End update.

(** Inputs of a filter that is well defined at the point. *)
Definition kalman_input (a : Curve * Curve * Curve) : Prop :=
  let '(m, q, r) := a in
  tangent x0 m /\ tangent x0 q /\ tangent x0 r /\ 0 <= curve q x0 /\ 0 < curve r x0.

Definition kalman_plain (x : R) (a : Curve * Curve * Curve) (st : Kalman1dState xreal)
  : Res (xreal * Kalman1dState xreal) :=
  let '(m, q, r) := a in Ok (Kalman1dStep st (at_ x m) (at_ x q) (at_ x r)).
Definition kalman_grad (a : Curve * Curve * Curve) :=
  let '(m, q, r) := a in
  kalman1d_grad_step (at_ x0 m) (slope_ m) (at_ x0 q) (slope_ q) (at_ x0 r) (slope_ r).

Lemma kalman_rel_step a pl t :
  kalman_input a -> kalman_rel pl t ->
  exists V g pl' t',
    near x0 (fun x => kalman_plain x a (pl x) = Ok (Some (V x), pl' x)) /\
    on_pair (kalman_grad a) t = Ok ((Some (V x0), Some g), t') /\
    derivable_pt_lim V x0 g /\ kalman_rel pl' t'.
Proof.
  destruct a as [[m q] r], t as [st g0]. intros (Hm & Hq & Hr & Hq0 & Hr0) HR.
  unfold kalman_plain, kalman_grad, on_pair.
  destruct HR as [[Hi Hpl]|(X & P & dX & dP & Hn & Hi & Hx & Hp & Hg & HX & HP & HP0)];
    cbn [fst snd] in *.
  - exists (curve m), (slope m), (fun x => MkKalman (at_ x m) (at_ x r) (at_ x q) (at_ x r) true).
    eexists. unfold kalman1d_grad_step. rewrite Hi. cbn [negb rbind].
    split_and!; [|done|done|].
    + apply near_always. intros x. unfold Kalman1dStep. by rewrite Hpl.
    + right. exists (curve m), (curve r), (slope m), (slope r).
      split_and!; try done. by apply near_always.
  - subst g0. rewrite (kalman1d_grad_step_curve m q r X P dX dP) by done. cbn [rbind].
    pose proof (k_denom_pos q r P Hq0 Hr0 HP0) as Hd0.
    pose proof (k_p_new_pos q r P Hq0 Hr0 HP0) as Hn0.
    pose proof (derivable_k_denom q r P dP Hq Hr HP) as Hd.
    pose proof (derivable_k_p_new q r P dP Hq Hr HP Hq0 Hr0 HP0) as Hpn.
    pose proof (derivable_k_x_hat m q r X P dX dP Hm Hq Hr HX HP Hq0 Hr0 HP0) as HV.
    exists (k_x_hat m q r X P). eexists.
    exists (fun x => MkKalman (Some (k_x_hat m q r X P x)) (Some (k_p_new q r P x))
      (at_ x q) (at_ x r) true).
    eexists. split_and!; [|done|exact HV|].
    + apply near_impl with (2 := near_and _ _ _ Hn (near_and _ _ _
        (near_pos _ _ _ Hd Hd0) (near_pos _ _ _ Hpn Hn0))).
      intros x ((Hix & Hxx & Hpx) & Hdx & Hnx).
      by rewrite (Kalman1dStep_curve m q r X P _ x Hix Hxx Hpx Hdx Hnx).
    + right. exists (k_x_hat m q r X P), (k_p_new q r P). eexists _, _.
      split_and!; try done. by apply near_always.
Qed.
End families.

(** A ring as prewarming leaves it. *)
Notation fresh_ring period := (RingStatsPrepare period (RingStatsState_init (D:=xreal) (L:=xreal))).

Section operators.
Variables (x0 : R) (id param_id : Z) (c : ectx).

Lemma sma_differentiates period ss s :
  is_period period -> period <= length (ss ++ [s]) -> Forall (tangent x0) (ss ++ [s]) ->
  grad_at sma_slots sma_sensitivity_slots id param_id c (fresh_ring period) RingStatsState_init ->
  differentiates x0
    (fun x => final (fun s => jit_rt_sma id (at_ x s) (Z.of_nat period)) ss s c)
    (final (fun s => jit_rt_sma_grad id (at_ x0 s) (slope_ s) (Z.of_nat period) param_id) ss s c).
Proof.
  intros Hperiod Hlen HF Hat. assert (Hp : 0 < period) by (unfold is_period in *; lia).
  set (w := last_n period (ss ++ [s])).
  exists (fun x => Rmean (map (fun s => curve s x) w)), (Rmean (map slope w)). split_and!.
  - apply near_always. intros x. unfold jit_rt_sma.
    rewrite (final_with_node sma_slots id) with (st := fresh_ring period) by apply Hat.
    apply (final_is _ (fun _ => True) (ring_at period (fun s => curve s x))
      (fun l => period <= length l)
      (fun l => Some (Rmean (map (fun s => curve s x) (last_n period l))))); try done.
    + by apply ring_exact_fresh.
    + intros l a st _ Hst. rewrite (PushPrepared_step _ _ _ _ (re_holds _ _ _ Hst)).
      destruct (ring_at_step _ (fun s => curve s x) _ _ a Hst) as (st' & Est & Hst').
      unfold at_. rewrite Est. cbn [rbind]. eexists _, st'. split; [done|]. split; [done|]. intros Hle.
      by rewrite (ring_at_full _ _ _ _ Hst' Hle), (ring_at_mean _ _ _ _ Hst').
  - unfold jit_rt_sma_grad.
    rewrite (final_with_grad sma_slots sma_sensitivity_slots) with
      (st := fresh_ring period) (g := RingStatsState_init) by done.
    apply (final_is _ (fun _ => True)
      (fun l stg => ring_at period (fun s => curve s x0) l (fst stg) /\
         ring_at period slope l (RingStatsPrepare period (snd stg)))
      (fun l => period <= length l)
      (fun l => (Some (Rmean (map (fun s => curve s x0) (last_n period l))),
                 Some (Rmean (map slope (last_n period l)))))); try done.
    + split; by apply ring_exact_fresh.
    + intros l a [st g] _ [Hst Hg]. unfold on_pair, sma_grad_step. cbn [fst snd] in *.
      rewrite (PushPrepared_step _ _ _ _ (re_holds _ _ _ Hst)).
      destruct (ring_at_step _ (fun s => curve s x0) _ _ a Hst) as (st' & Est & Hst').
      destruct (ring_at_step _ slope _ _ a Hg) as (g' & Eg & Hg').
      rewrite size_of_period_nat, RingStatsPush_prepare by done.
      unfold at_, slope_. rewrite Est. cbn [rbind]. rewrite Eg. cbn [rbind].
      eexists _, (st', g'). split; [done|]. cbn [fst snd].
      rewrite RingStatsPrepare_same by apply Hg'. split; [done|]. intros Hle.
      by rewrite (ring_at_full _ _ _ _ Hst' Hle), (ring_at_mean _ _ _ _ Hst'),
        (ring_at_mean _ _ _ _ Hg').
  - apply derivable_Rmean. by apply last_n_forall.
Qed.

Lemma lag_differentiates period ss s :
  is_period period -> period <= length ss -> Forall (tangent x0) (ss ++ [s]) ->
  grad_at lag_slots lag_sensitivity_slots id param_id c
    (LagPrepare period LagState_init) LagState_init ->
  differentiates x0
    (fun x => final (fun s => jit_rt_lag id (at_ x s) (Z.of_nat period)) ss s c)
    (final (fun s => jit_rt_lag_grad id (at_ x0 s) (slope_ s) (Z.of_nat period) param_id) ss s c).
Proof.
  intros Hperiod Hlen HF Hat. assert (Hp : 0 < period) by (unfold is_period in *; lia).
  assert (Hle : S period <= length (ss ++ [s])) by (rewrite length_app; simpl; lia).
  assert (Hfresh : forall f, lag_at period f [] (LagPrepare period LagState_init))
    by (intros f; apply lag_holds_prepare; [done|simpl; lia]).
  assert (Hidem : forall st, LagPrepare period (LagPrepare (D:=xreal) period st)
                             = LagPrepare period st).
  { intros st. unfold LagPrepare. by destruct (decide (l_capacity st = period)) eqn:E;
      rewrite ?E, ?decide_True. }
  destruct (lookup_lt_is_Some_2 (ss ++ [s]) (length (ss ++ [s]) - S period)) as [a Ha]; [lia|].
  exists (curve a), (slope a). split_and!.
  - apply near_always. intros x. unfold jit_rt_lag.
    rewrite (final_with_node lag_slots id) with (st := LagPrepare period LagState_init)
      by apply Hat.
    rewrite (final_is _ (fun _ => True)
      (fun l st => lag_at period (fun s => curve s x) l st /\ LagPrepare period st = st)
      (fun l => S period <= length l)
      (fun l => option_map (fun s => curve s x) (lagged period l))); try done.
    + unfold lagged. by rewrite Ha.
    + intros l b st _ [Hst Hpr]. change (@dbl xreal xreal exact) with Fp_xreal.
      destruct (LagValue_total _ _ _ _ Hst) as [v Ev]. rewrite Ev. cbn [rbind].
      destruct (LagPush_at period (fun s => curve s x) l st b Hp) as (st' & _ & Hst' & Hpr' & Est);
        [by rewrite Hpr|].
      unfold at_. rewrite (Est Hpr). cbn [rbind]. eexists _, st'. split; [done|].
      split; [by split|]. intros Hl. rewrite (lag_at_value _ _ _ _ b Hst Hl) in Ev.
      congruence.
  - unfold jit_rt_lag_grad.
    rewrite (final_with_grad lag_slots lag_sensitivity_slots) with
      (st := LagPrepare period LagState_init) (g := LagState_init) by done.
    rewrite (final_is _ (fun _ => True)
      (fun l stg => lag_at period (fun s => curve s x0) l (fst stg) /\
         LagPrepare period (fst stg) = fst stg /\
         lag_at period slope l (LagPrepare period (snd stg)) /\
         exists v, LagValue (snd stg) = Ok v /\
           (S period <= S (length l) -> LagPrepare period (snd stg) = snd stg))
      (fun l => S period <= length l)
      (fun l => (option_map (fun s => curve s x0) (lagged period l),
                 option_map slope (lagged period l)))); try done.
    + unfold lagged. by rewrite Ha.
    + split_and!; [done| |done|]; [by apply Hidem|]. exists None. split; [done|]. simpl. lia.
    + intros l b [st g] _ (Hst & Hpr & Hg & v & Ev & Hprg). cbn [fst snd] in *.
      unfold on_pair, lag_grad_step. cbn [fst snd].
      change (@dbl xreal xreal exact) with Fp_xreal.
      destruct (LagValue_total _ _ _ _ Hst) as [u Eu]. rewrite Eu. cbn [rbind].
      rewrite Ev. cbn [rbind].
      destruct (LagPush_at period (fun s => curve s x0) l st b Hp) as (st' & _ & Hst' & Hpr' & Est);
        [by rewrite Hpr|].
      destruct (LagPush_at period slope l g b Hp Hg) as (g' & Eg & Hg' & Hprg' & _).
      unfold at_, slope_. rewrite (Est Hpr). cbn [rbind]. rewrite size_of_period_nat by done.
      rewrite Eg. cbn [rbind]. eexists _, (st', g'). split; [done|]. cbn [fst snd].
      split; [split_and!; try done; [by rewrite Hprg'|]|].
      * destruct (LagValue_total _ _ _ _ Hg') as [v' Ev']. eauto.
      * intros Hl. rewrite (lag_at_value _ _ _ _ b Hst Hl) in Eu. injection Eu as <-.
        rewrite Hprg in Hg by (rewrite length_app in Hl; simpl in Hl; lia).
        rewrite (lag_at_value _ _ _ _ b Hg Hl) in Ev. by injection Ev as <-.
  - apply (proj1 (Forall_lookup (tangent x0) (ss ++ [s])) HF _ _ Ha).
Qed.

Lemma ema_alpha_differentiates period ss s st :
  Forall (fun a => tangent x0 (fst a) /\ tangent x0 (snd a)) (ss ++ [s]) ->
  e_initialized st = false ->
  grad_at ema_slots ema_sensitivity_slots id param_id c st (fint 0) ->
  differentiates x0
    (fun x => final (fun a => with_node ema_slots id
        (ema_alpha_step (at_ x (snd a)) (at_ x (fst a)))) ss s c)
    (final (fun a => jit_rt_ema_alpha_grad id (at_ x0 (fst a)) (slope_ (fst a))
        (at_ x0 (snd a)) (slope_ (snd a)) period param_id) ss s c).
Proof.
  intros HF Hi Hat. unfold jit_rt_ema_alpha_grad.
  rewrite (final_with_grad ema_slots ema_sensitivity_slots (fun v c => eq_refl) id param_id
    _ ss s c _ _ Hat).
  destruct (final_family x0 (fun x a => ema_alpha_step (at_ x (snd a)) (at_ x (fst a)))
    (fun a => on_pair (ema_alpha_grad_step (at_ x0 (fst a)) (slope_ (fst a))
        (at_ x0 (snd a)) (slope_ (snd a)) period)) _ (ema_rel x0) ss s (fun _ => st)
    (st, fint 0) (ema_rel_step x0 period) HF) as (V & g & Hn & Hg & HV); [by left|].
  exists V, g. split_and!; [|exact Hg|exact HV].
  apply near_impl with (2 := Hn). intros x <-.
  apply (final_with_node ema_slots id (fun a => ema_alpha_step _ _)); apply Hat.
Qed.

Lemma kalman1d_differentiates ss s st :
  Forall (kalman_input x0) (ss ++ [s]) -> k_initialized st = false ->
  grad_at kalman1d_slots kalman1d_sensitivity_slots id param_id c st
    Kalman1dSensitivityState_init ->
  differentiates x0
    (fun x => final (fun '(m, q, r) => jit_rt_kalman1d id (at_ x m) (at_ x q) (at_ x r)) ss s c)
    (final (fun '(m, q, r) => jit_rt_kalman1d_grad id (at_ x0 m) (slope_ m) (at_ x0 q) (slope_ q)
        (at_ x0 r) (slope_ r) param_id) ss s c).
Proof.
  intros HF Hi Hat.
  rewrite (final_ext _ (fun a => with_grad kalman1d_slots kalman1d_sensitivity_slots id param_id
    (kalman_grad x0 a))) by (by intros [[m q] r]).
  rewrite (final_with_grad kalman1d_slots kalman1d_sensitivity_slots (fun v c => eq_refl) id
    param_id _ ss s c _ _ Hat).
  destruct (final_family x0 kalman_plain (fun a => on_pair (kalman_grad x0 a)) _ (kalman_rel x0)
    ss s (fun _ => st) (st, Kalman1dSensitivityState_init) (kalman_rel_step x0) HF)
    as (V & g & Hn & Hg & HV); [by left|].
  exists V, g. split_and!; [|exact Hg|exact HV].
  apply near_impl with (2 := Hn). intros x <-.
  rewrite (final_ext _ (fun a => with_node kalman1d_slots id (kalman_plain x a)))
    by (by intros [[m q] r]).
  apply (final_with_node kalman1d_slots id (kalman_plain x)); apply Hat.
Qed.
End operators.

(** C20: the gradient entry points of the filters compute derivatives: when the
    arguments of a tick are differentiable functions of a parameter, the calls
    on their values and derivatives at a point return, in exact arithmetic,
    the value of the plain operator at the point and the derivative of that
    value, for sma once the window is full, for lag once it is defined, for
    ema_alpha (as the interpreter steps it, with a factor that may vary and
    depend on the parameter) always, and for kalman1d with measurement,
    process and observation noise that depend on the parameter, as long as
    q >= 0 and r > 0 at the point. *)
Theorem filter_gradients_correct x0 id param_id c :
  (forall period ss s,
     is_period period -> period <= length (ss ++ [s]) -> Forall (tangent x0) (ss ++ [s]) ->
     grad_at sma_slots sma_sensitivity_slots id param_id c (fresh_ring period)
       RingStatsState_init ->
     differentiates x0
       (fun x => final (fun s => jit_rt_sma id (at_ x s) (Z.of_nat period)) ss s c)
       (final (fun s => jit_rt_sma_grad id (at_ x0 s) (slope_ s) (Z.of_nat period) param_id)
          ss s c)) /\
  (forall period ss s,
     is_period period -> period <= length ss -> Forall (tangent x0) (ss ++ [s]) ->
     grad_at lag_slots lag_sensitivity_slots id param_id c
       (LagPrepare period LagState_init) LagState_init ->
     differentiates x0
       (fun x => final (fun s => jit_rt_lag id (at_ x s) (Z.of_nat period)) ss s c)
       (final (fun s => jit_rt_lag_grad id (at_ x0 s) (slope_ s) (Z.of_nat period) param_id)
          ss s c)) /\
  (forall period ss s st,
     Forall (fun a => tangent x0 (fst a) /\ tangent x0 (snd a)) (ss ++ [s]) ->
     e_initialized st = false ->
     grad_at ema_slots ema_sensitivity_slots id param_id c st (fint 0) ->
     differentiates x0
       (fun x => final (fun a => with_node ema_slots id
           (ema_alpha_step (at_ x (snd a)) (at_ x (fst a)))) ss s c)
       (final (fun a => jit_rt_ema_alpha_grad id (at_ x0 (fst a)) (slope_ (fst a))
           (at_ x0 (snd a)) (slope_ (snd a)) period param_id) ss s c)) /\
  (forall ss s st,
     Forall (kalman_input x0) (ss ++ [s]) -> k_initialized st = false ->
     grad_at kalman1d_slots kalman1d_sensitivity_slots id param_id c st
       Kalman1dSensitivityState_init ->
     differentiates x0
       (fun x => final (fun '(m, q, r) => jit_rt_kalman1d id (at_ x m) (at_ x q) (at_ x r))
          ss s c)
       (final (fun '(m, q, r) => jit_rt_kalman1d_grad id (at_ x0 m) (slope_ m) (at_ x0 q)
           (slope_ q) (at_ x0 r) (slope_ r) param_id) ss s c)).
Proof.
  split_and!.
  - apply sma_differentiates.
  - apply lag_differentiates.
  - apply ema_alpha_differentiates.
  - apply kalman1d_differentiates.
Qed.

(** ** An example *)

(** A prewarmed context with one node and one parameter. *)
Definition gradient_ctx (period : nat) : ectx :=
  let n := grow_nodes 1 NodeStates_init in
  let n := set_sma_states [fresh_ring period] n in
  let n := set_rolling_std_states [fresh_ring period] n in
  let n := set_zscore_states [fresh_ring period] n in
  let n := set_lag_states [LagPrepare period LagState_init] n in
  let n := set_rolling_corr_states [RollingPairPrepare period RollingPairState_init] n in
  let n := set_rolling_beta_states [RollingPairPrepare period RollingPairState_init] n in
  let n := set_rolling_min_deques [MonoInit MonoDequeState_init period] n in
  let n := set_rolling_max_deques [MonoInit MonoDequeState_init period] n in
  MkCtx [] None 0 1 n (resize_sensitivities 1 Sensitivities_init).

(** The parameter itself, and a constant sample. *)
Definition the_parameter : Curve := MkCurve (fun x => x) 1.
Definition a_constant (k : R) : Curve := MkCurve (fun _ => k) 0.

Lemma tangent_parameter x0 : tangent x0 the_parameter.
Proof. apply derivable_pt_lim_id. Qed.
Lemma tangent_constant x0 k : tangent x0 (a_constant k).
Proof. apply derivable_pt_lim_const. Qed.
#[export] Hint Resolve tangent_parameter tangent_constant : core.

Lemma filter_gradients_correct_witness :
  differentiates 2
    (fun x => final (fun s => jit_rt_sma 0 (at_ x s) 2) [a_constant 3] the_parameter
       (gradient_ctx 2))
    (final (fun s => jit_rt_sma_grad 0 (at_ 2 s) (slope_ s) 2 0) [a_constant 3] the_parameter
       (gradient_ctx 2)) /\
  differentiates 2
    (fun x => final (fun '(m, q, r) => jit_rt_kalman1d 0 (at_ x m) (at_ x q) (at_ x r))
       [(a_constant 3, the_parameter, a_constant 1)] (the_parameter, a_constant 0, the_parameter)
       (gradient_ctx 2))
    (final (fun '(m, q, r) => jit_rt_kalman1d_grad 0 (at_ 2 m) (slope_ m) (at_ 2 q) (slope_ q)
         (at_ 2 r) (slope_ r) 0)
       [(a_constant 3, the_parameter, a_constant 1)] (the_parameter, a_constant 0, the_parameter)
       (gradient_ctx 2)).
Proof.
  destruct (filter_gradients_correct 2 0 0 (gradient_ctx 2)) as (Hsma & _ & _ & Hkal).
  split.
  - apply (Hsma 2%nat [a_constant 3] the_parameter).
    + unfold is_period. simpl. lia.
    + simpl. lia.
    + repeat constructor; auto.
    + split; simpl; [lia|lia|done|done].
  - apply (Hkal _ _ Kalman1dState_init).
    + simpl. repeat constructor; simpl; auto; lra.
    + reflexivity.
    + split; simpl; [lia|lia|reflexivity|reflexivity].
Defined.
