(* ===== verification/ForwardGradientFacts.v ===== *)
(** * The forward gradient interpreter evaluates the signal

    The value [EvaluateSignalGradient] returns next to the gradient is the
    interpreter's, bit for bit, and so are the operators' states it leaves
    behind: a simulation of the interpreter by the gradient interpreter.
    The sensitivity states need only be allocated and well shaped; those of
    rolling_std and zscore also have to refresh in step with the ring. *)

From S2P Require Import Prelude Errors Arith Ast SymbolTable SignalProgram Rolling Context Interpreter JitRuntime Gradient ForwardGradient RollingFacts PipelineFacts.

Section forward.
Context {D L : Type} `{Machine D L}.
Variable symbols : SymbolTable.
Variable target : nat.

Notation Nodes := (NodeStates D L).
Notation Ctx := (SignalContext D L).

(** ** Related states *)

(** The smoothing factor and the period an average remembers do not matter. *)
Definition ema_core (st : EMAState D) : D * bool := (e_value st, e_initialized st).
Definition forget_ema (c : Nodes) : Nodes :=
  set_ema_states (map (fun st => MkEma (e_value st) (fint 0) 0 (e_initialized st)) (ema_states c)) c.

(** Shapes of sensitivity states that no operation leaves. *)
Definition ring_shape (st : RingStatsState D L) : Prop :=
  length (buffer st) = capacity st /\ (0 < capacity st -> head st < capacity st).
Definition lag_shape (st : LagState D) : Prop :=
  length (l_buffer st) = l_capacity st /\ (0 < l_capacity st -> l_head st < l_capacity st).
Definition std_shape (st : RingStatsState D L) (g : RollingStdSensitivityState L) : Prop :=
  length (buffer st) = capacity st /\ length (s_buffer g) = s_capacity g /\
  (0 < s_capacity g -> s_head g < s_capacity g) /\
  (s_capacity g = capacity st /\ s_slides g = slides_since_refresh st \/
   s_capacity g = 0 /\ slides_since_refresh st = 0).
Definition pair_shape (st : RollingPairState D L) (g : RollingPairSensitivityState L) : Prop :=
  length (x_buf st) = p_capacity st /\ length (sx_buf g) = sp_capacity g /\
  length (sy_buf g) = sp_capacity g.

(** Every slot of an operator has its slot for the target parameter. *)
Definition paired {S T} (sl : Slots Nodes S) (gl : Slots (Sensitivities D L) T)
  (Q : S -> T -> Prop) (c : Ctx) : Prop :=
  forall k st, slots_get sl (nodes c) !! k = Some st ->
    exists g, slots_get gl (sens c) !! (k * gradient_param_count c + target) = Some g /\ Q st g.

Record gradient_ready (c : Ctx) : Prop := {
  gr_count : gradient_param_count c <> 0;
  gr_ema : paired ema_slots ema_sensitivity_slots (fun _ _ => True) c;
  gr_sma : paired sma_slots sma_sensitivity_slots (fun _ g => ring_shape g) c;
  gr_std : paired rolling_std_slots rolling_std_sensitivity_slots std_shape c;
  gr_zscore : paired zscore_slots zscore_sensitivity_slots std_shape c;
  gr_lag : paired lag_slots lag_sensitivity_slots (fun _ g => lag_shape g) c;
  gr_min : paired rolling_min_deques_slots rolling_min_sensitivity_slots
             (fun _ g => length (l_buffer g) = l_capacity g) c;
  gr_max : paired rolling_max_deques_slots rolling_max_sensitivity_slots
             (fun _ g => length (l_buffer g) = l_capacity g) c;
  gr_corr : paired rolling_corr_slots rolling_corr_sensitivity_slots pair_shape c;
  gr_beta : paired rolling_beta_slots rolling_beta_sensitivity_slots pair_shape c }.

(** The context of the interpreter and that of the gradient interpreter. *)
Record ctx_sim (c c' : Ctx) : Prop := {
  cs_nodes : forget_ema (nodes c) = forget_ema (nodes c');
  cs_params : params c = params c';
  cs_num : num_params c = num_params c';
  cs_target : params c' <> None /\ target < num_params c';
  cs_ready : gradient_ready c' }.

Record state_sim (s : EvalState D L) (g : GradState D L) : Prop := {
  ss_ctx : ctx_sim (ctx s) (g_ctx g);
  ss_cache : forall id, cache s !! id = vg_value <$> stateful_cache g !! id }.

(** A successful computation of the interpreter is matched. *)
Definition sim {A B} (m : M (D:=D) (L:=L) A) (n : G (D:=D) (L:=L) B) (val : A -> B -> Prop) : Prop :=
  forall s g a s', state_sim s g -> m s = Ok (a, s') ->
    exists b g', n g = Ok (b, g') /\ val a b /\ state_sim s' g'.

Definition same (v : D) (b : ValueGradient D) : Prop := vg_value b = v.

Local Notation "x <~ m ;; k" := (fun s => rbind (m s) (fun '(x, s) => k s))
  (at level 20, m at level 99, k at level 200, right associativity).

Lemma fwd_bind {A B A' B'} (m : M A) (n : G B) (val : A -> B -> Prop) (f : A -> M A') (h : B -> G B') val' :
  sim m n val -> (forall a b, val a b -> sim (f a) (h b) val') ->
  sim (x <~ m;; f x) (x <~ n;; h x) val'.
Proof.
  intros Hm Hf s g a s' Hs Hr. apply bind_Ok in Hr as ([a1 s1] & H1 & H2).
  destruct (Hm _ _ _ _ Hs H1) as (b1 & g1 & Hn & Hv & Hs1). rewrite Hn. simpl.
  by apply (Hf _ _ Hv _ _ _ _ Hs1).
Qed.

Lemma sim_lift {A B} (r : Res A) (b : B) (val : A -> B -> Prop) :
  (forall a, r = Ok a -> val a b) -> sim (lift r) (g_lift (Ok b)) val.
Proof.
  intros Hv s g a s' Hs Hr. apply fmap_Ok in Hr as (a1 & Hr & [= <- <-]).
  exists b, g. by split_and!; [|apply Hv|].
Qed.

(** Steps of the interpreter that only check, in front of the rest. *)
Lemma sim_check {A B A'} (r : Res A') (f : A' -> M A) (n : G B) val :
  (forall a, r = Ok a -> sim (f a) n val) -> sim (x <~ lift r;; f x) n val.
Proof.
  intros Hf s g a s' Hs Hr. apply bind_Ok in Hr as ([a1 s1] & H1 & H2).
  apply fmap_Ok in H1 as (a2 & Hr & [= <- <-]). by eapply Hf.
Qed.

Lemma sim_skip {A B B'} (m : M A) (r : Res B') (b : B') (h : B' -> G B) val :
  r = Ok b -> sim m (h b) val -> sim m (x <~ g_lift r;; h x) val.
Proof. intros -> Hs s g a s' Hss Hr. simpl. by eapply Hs. Qed.

(** ** Steps on the slots of a node *)

(** A pair of arrays: how the interpreter's slot relates to the gradient
    interpreter's, and what the sensitivity slot satisfies. *)
Class Paired {S T} (sl : Slots Nodes S) (gl : Slots (Sensitivities D L) T)
  (R : S -> S -> Prop) (Q : S -> T -> Prop) : Prop := {
  pd_get n n' k st : forget_ema n = forget_ema n' -> slots_get sl n !! k = Some st ->
    exists st', slots_get sl n' !! k = Some st' /\ R st st';
  pd_set n n' k st st' : forget_ema n = forget_ema n' -> R st st' ->
    forget_ema (slots_set sl (<[k := st]> (slots_get sl n)) n) =
    forget_ema (slots_set sl (<[k := st']> (slots_get sl n')) n');
  pd_pair c : gradient_ready c -> paired sl gl Q c;
  pd_ready c k st g : gradient_ready c ->
    paired sl gl Q (set_sens (slots_set gl (<[k * gradient_param_count c + target := g]>
        (slots_get gl (sens c))) (sens c))
      (set_nodes (slots_set sl (<[k := st]> (slots_get sl (nodes c))) (nodes c)) c)) ->
    gradient_ready (set_sens (slots_set gl (<[k * gradient_param_count c + target := g]>
        (slots_get gl (sens c))) (sens c))
      (set_nodes (slots_set sl (<[k := st]> (slots_get sl (nodes c))) (nodes c)) c));
  pd_getset c v : slots_get sl (slots_set sl v c) = v;
  pd_gl_getset c v : slots_get gl (slots_set gl v c) = v }.

Lemma paired_update {S T} (sl : Slots Nodes S) (gl : Slots (Sensitivities D L) T) R Q
  `{!Paired sl gl R Q} c k st g :
  gradient_ready c -> is_Some (slots_get sl (nodes c) !! k) -> Q st g ->
  paired sl gl Q (set_sens (slots_set gl (<[k * gradient_param_count c + target := g]>
      (slots_get gl (sens c))) (sens c))
    (set_nodes (slots_set sl (<[k := st]> (slots_get sl (nodes c))) (nodes c)) c)).
Proof.
  intros Hr [st0 Hst0] HQ k' st' Hk'. simpl in *. rewrite pd_getset in Hk'. rewrite pd_gl_getset.
  pose proof (pd_pair c Hr) as Hp. destruct (Hp _ _ Hst0) as (g0 & Hg0 & _).
  pose proof (gr_count _ Hr) as Hc. destruct (decide (k' = k)) as [->|Hne].
  - rewrite list_lookup_insert_eq in Hk' by (by eapply lookup_lt_Some). injection Hk' as <-.
    exists g. rewrite list_lookup_insert_eq by (by eapply lookup_lt_Some). done.
  - rewrite list_lookup_insert_ne in Hk' by done. destruct (Hp _ _ Hk') as (g' & Hg' & HQ').
    exists g'. rewrite list_lookup_insert_ne by nia. done.
Qed.

Lemma GradientSlot_ready c k :
  gradient_ready c -> GradientSlot c k target = Ok (k * gradient_param_count c + target).
Proof.
  intros Hr. unfold GradientSlot. by destruct (Nat.eqb_spec (gradient_param_count c) 0) as [E|];
    [destruct (gr_count _ Hr)|].
Qed.

Lemma sim_slots {S T A B} (sl : Slots Nodes S) (gl : Slots (Sensitivities D L) T) R Q
  `{!Paired sl gl R Q} name id (f : S -> Res (A * S)) (h : S -> T -> Res (B * S * T)) val :
  (forall st st' g v st1, R st st' -> Q st' g -> f st = Ok (v, st1) ->
     exists b st1' g1, h st' g = Ok (b, st1', g1) /\ val v b /\ R st1 st1' /\ Q st1' g1) ->
  sim (on_node sl name id f) (on_slots target sl gl id h) val.
Proof.
  intros Hf s g v s' [[Hn Hpar Hnum Htar Hr] Hcache] Ho. unfold on_node in Ho.
  destruct (Z.ltb_spec id 0) as [|Hid]; [done|].
  apply bind_Ok in Ho as ([a c] & Hw & [= <- <-]). unfold with_node, at_Z, at_idx in Hw.
  destruct (Z.ltb_spec id 0) as [|_]; [lia|].
  destruct (slots_get sl (nodes (ctx s)) !! Z.to_nat id) as [st|] eqn:Hst; [|done]. simpl in Hw.
  apply bind_Ok in Hw as ([a1 st1] & Hfs & [= <- <-]).
  destruct (pd_get _ _ _ _ Hn Hst) as (st' & Hst' & HR).
  destruct (pd_pair _ Hr _ _ Hst') as (gr & Hgr & HQ).
  destruct (Hf _ _ _ _ _ HR HQ Hfs) as (b & st1' & g1 & Hh & Hv & HR1 & HQ1).
  eexists b, _. split.
  - unfold on_slots, g_run, with_grad_slot, at_Z, at_idx. destruct (Z.ltb_spec id 0); [lia|].
    rewrite Hst'. simpl. rewrite GradientSlot_ready by done. simpl. rewrite Hgr. simpl.
    rewrite Hh. simpl. reflexivity.
  - split; [done|]. split; [|done]. split; simpl; [by apply pd_set|done..|].
    apply (pd_ready (g_ctx g) (Z.to_nat id) st1' g1 Hr). by apply (paired_update sl gl R Q).
Qed.

(** The arrays without sensitivities. *)
Class Unpaired {S} (sl : Slots Nodes S) : Prop := {
  up_get n n' : forget_ema n = forget_ema n' -> slots_get sl n = slots_get sl n';
  up_set n n' v : forget_ema n = forget_ema n' ->
    forget_ema (slots_set sl v n) = forget_ema (slots_set sl v n');
  up_ready c v : gradient_ready c -> gradient_ready (set_nodes (slots_set sl v (nodes c)) c) }.

Lemma sim_node {S A B} (sl : Slots Nodes S) `{!Unpaired sl} name id (f : S -> Res (A * S))
  (h : S -> Res (B * S)) (val : A -> B -> Prop) :
  (forall st v st1, f st = Ok (v, st1) -> exists b, h st = Ok (b, st1) /\ val v b) ->
  sim (on_node sl name id f) (g_run (with_node sl id h)) val.
Proof.
  intros Hf s g v s' [[Hn Hpar Hnum Htar Hr] Hcache] Ho. unfold on_node in Ho.
  destruct (Z.ltb_spec id 0) as [|Hid]; [done|].
  apply bind_Ok in Ho as ([a c] & Hw & [= <- <-]). unfold with_node, at_Z, at_idx in Hw.
  destruct (Z.ltb_spec id 0) as [|_]; [lia|].
  destruct (slots_get sl (nodes (ctx s)) !! Z.to_nat id) as [st|] eqn:Hst; [|done]. simpl in Hw.
  apply bind_Ok in Hw as ([a1 st1] & Hfs & [= <- <-]).
  destruct (Hf _ _ _ Hfs) as (b & Hh & Hv). rewrite (up_get _ _ Hn) in Hst.
  eexists b, _. split.
  - unfold g_run, with_node, at_Z, at_idx. destruct (Z.ltb_spec id 0); [lia|].
    rewrite Hst. simpl. rewrite Hh. simpl. reflexivity.
  - split; [done|]. split; [|done]. split; simpl; [|done..|by apply up_ready].
    rewrite (up_get _ _ Hn). by apply up_set.
Qed.
End forward.

(** Every array is paired with its sensitivities, or has none. *)
Ltac nodes_eq :=
  intros n n'; intros; destruct n, n'; unfold forget_ema, set_ema_states in *; simpl in *;
  match goal with E : MkNodes _ _ _ _ _ _ _ _ _ _ _ _ _ _ = _ |- _ => injection E end;
  intros; subst;
  first [done | by f_equal].
Ltac ready_but := intros; match goal with Hr : gradient_ready _ _ |- _ => destruct Hr end;
  split; assumption.
Ltac prove_unpaired := split; [nodes_eq | nodes_eq | ready_but].
Ltac prove_paired :=
  split; [intros n n' k st Hn Hk; exists st; split; [revert n n' Hn Hk; nodes_eq|reflexivity]
         | intros n n' k st st' Hn <-; revert n n' Hn; nodes_eq
         | intros ? []; assumption | ready_but | done | done].

Section instances.
Context {D L : Type} `{Machine D L}.
Variable target : nat.
Notation Nodes := (NodeStates D L).

#[export] Instance unpaired_cross : Unpaired (D:=D) (L:=L) target cross_slots.
Proof. prove_unpaired. Qed.
#[export] Instance unpaired_mini : Unpaired (D:=D) (L:=L) target rolling_min_indices_slots.
Proof. prove_unpaired. Qed.
#[export] Instance unpaired_maxi : Unpaired (D:=D) (L:=L) target rolling_max_indices_slots.
Proof. prove_unpaired. Qed.

#[export] Instance paired_sma : Paired (D:=D) (L:=L) target sma_slots sma_sensitivity_slots
  eq (fun _ g => ring_shape g).
Proof. prove_paired. Qed.
#[export] Instance paired_std : Paired (D:=D) (L:=L) target rolling_std_slots
  rolling_std_sensitivity_slots eq std_shape.
Proof. prove_paired. Qed.
#[export] Instance paired_zscore : Paired (D:=D) (L:=L) target zscore_slots
  zscore_sensitivity_slots eq std_shape.
Proof. prove_paired. Qed.
#[export] Instance paired_lag : Paired (D:=D) (L:=L) target lag_slots lag_sensitivity_slots
  eq (fun _ g => lag_shape g).
Proof. prove_paired. Qed.
#[export] Instance paired_min : Paired (D:=D) (L:=L) target rolling_min_deques_slots
  rolling_min_sensitivity_slots eq (fun _ g => length (l_buffer g) = l_capacity g).
Proof. prove_paired. Qed.
#[export] Instance paired_max : Paired (D:=D) (L:=L) target rolling_max_deques_slots
  rolling_max_sensitivity_slots eq (fun _ g => length (l_buffer g) = l_capacity g).
Proof. prove_paired. Qed.
#[export] Instance paired_corr : Paired (D:=D) (L:=L) target rolling_corr_slots
  rolling_corr_sensitivity_slots eq pair_shape.
Proof. prove_paired. Qed.
#[export] Instance paired_beta : Paired (D:=D) (L:=L) target rolling_beta_slots
  rolling_beta_sensitivity_slots eq pair_shape.
Proof. prove_paired. Qed.

Lemma forget_ema_states (n n' : Nodes) :
  forget_ema n = forget_ema n' -> map ema_core (ema_states n) = map ema_core (ema_states n').
Proof.
  intros E. apply (f_equal ema_states), (f_equal (map ema_core)) in E. simpl in E.
  by rewrite !map_map in E.
Qed.

#[export] Instance paired_ema : Paired (D:=D) (L:=L) target ema_slots ema_sensitivity_slots
  (fun st st' => ema_core st = ema_core st') (fun _ _ => True).
Proof.
  split; [| |by intros ? []|ready_but|done|done].
  - intros n n' k st E Hk. apply forget_ema_states, (f_equal (fun l => l !! k)) in E. simpl in *.
    rewrite !list_lookup_fmap, Hk in E. destruct (ema_states n' !! k) as [st'|]; [|done].
    apply Some_inj in E. by exists st'.
  - intros n n' k st st' E Hc. pose proof (f_equal ema_states E) as Ee. simpl in Ee.
    destruct n, n'. unfold forget_ema, set_ema_states in *. simpl in *. injection E; intros; subst. f_equal.
    rewrite !list_fmap_insert. f_equal; [|exact Ee]. by injection Hc as -> ->.
Qed.
End instances.

(** ** The operators' steps on their two slots *)

Section steps.
Context {D L : Type} `{Machine D L}.

Lemma at_idx_total {A} what (l : list A) i : i < length l -> exists x, at_idx what l i = Ok x.
Proof. intros Hi. destruct (lookup_lt_is_Some_2 _ _ Hi) as [x Hx]. exists x. by apply at_idx_Ok. Qed.

Lemma set_idx_lt {A} what (l l' : list A) i x :
  set_idx what l i x = Ok l' -> i < length l /\ l' = <[i := x]> l.
Proof. unfold set_idx. by destruct (decide _); intros [= <-]. Qed.

Lemma RingStatsStep_Ok (st st1 : RingStatsState D L) x :
  RingStatsStep st x = Ok st1 ->
  head st < length (buffer st).
Proof.
  unfold RingStatsStep. intros Hs. apply bind_Ok in Hs as (st2 & H1 & Hs).
  apply bind_Ok in Hs as (buf & Hb & _). apply set_idx_lt in Hb as [Hb _].
  destruct (count st =? capacity st).
  - apply bind_Ok in H1 as (old & _ & [= <-]). revert Hb.
    unfold RingStatsUpdateMeanM2OnSlide. by destruct (capacity _ <=? 1).
  - by injection H1 as <-.
Qed.

Lemma RingStatsPrepare_shape p (st : RingStatsState D L) :
  0 < p -> ring_shape st ->
  ring_shape (RingStatsPrepare p st) /\ capacity (RingStatsPrepare p st) = p.
Proof.
  intros Hp Hs. unfold RingStatsPrepare. destruct (decide _) as [Hc|]; [done|].
  split; [|done]. split; simpl; [apply length_replicate|done].
Qed.

(** A ring of the right shape takes a sample. *)
Lemma RingStatsPush_shape p (st : RingStatsState D L) x :
  0 < p -> ring_shape st -> exists st1, RingStatsPush st p x = Ok st1 /\ ring_shape st1.
Proof.
  intros Hp Hs. destruct (RingStatsPrepare_shape p st Hp Hs) as [[Hl Hh] Hc].
  unfold RingStatsPush. destruct (Nat.eqb_spec p 0); [lia|]. cbn [ensure negb rbind].
  rewrite Hc in Hl, Hh. specialize (Hh Hp). set (st0 := RingStatsPrepare p st) in *.
  assert (Hm : S (head st0) mod p < p) by (apply Nat.mod_upper_bound; lia).
  destruct (decide (count st0 = capacity st0)) as [Hf|Hf].
  - destruct (lookup_lt_is_Some_2 (buffer st0) (head st0)) as [old Ho]; [lia|].
    rewrite (RingStatsStep_slide _ _ _ Ho Hf). eexists. split; [done|]. unfold ring_shape.
    rewrite !(proj1 (maybe_refresh_frame _)), !(proj1 (proj2 (maybe_refresh_frame _))),
      !(proj1 (proj2 (proj2 (maybe_refresh_frame _)))).
    simpl. rewrite length_insert, Hc, Hl. done.
  - rewrite RingStatsStep_fill by (done || lia). eexists. split; [done|]. unfold ring_shape.
    simpl. rewrite length_insert, Hc, Hl. done.
Qed.

Lemma LagPush_shape p (st : LagState D) x :
  0 < p -> lag_shape st -> exists st1, LagPush st p x = Ok st1 /\ lag_shape st1.
Proof.
  intros Hp [Hl Hh]. unfold LagPush. destruct (Nat.eqb_spec p 0); [lia|]. cbn [ensure negb rbind].
  assert (Hs : length (l_buffer (LagPrepare p st)) = p /\ l_head (LagPrepare p st) < p /\
               l_capacity (LagPrepare p st) = p).
  { unfold LagPrepare. destruct (decide _) as [Hc|]; simpl; rewrite ?length_replicate; [|done].
    rewrite Hc in *. auto. }
  destruct Hs as (Hl0 & Hh0 & Hc0). unfold LagStep. rewrite set_idx_Ok by lia. simpl.
  eexists. split; [done|]. split; simpl; rewrite ?length_insert, Hc0; [done|].
  intros _. apply Nat.mod_upper_bound. lia.
Qed.

Lemma LagValue_shape (st : LagState D) : lag_shape st -> exists v, LagValue st = Ok v.
Proof.
  intros [Hl Hh]. unfold LagValue. destruct (Nat.eqb_spec (l_capacity st) 0); [by exists fnan|].
  destruct (l_count st <? l_capacity st); [by exists fnan|]. apply at_idx_total.
  rewrite Hl. apply Hh. lia.
Qed.

Lemma lag_forward_value p x (st st1 g : LagState D) v :
  0 < p -> lag_shape g -> lag_step p (vg_value x) st = Ok (v, st1) ->
  exists b g1, lag_forward p x st g = Ok (b, st1, g1) /\ same v b /\ lag_shape g1.
Proof.
  intros Hp Hg Hs. unfold lag_step in Hs. apply bind_Ok in Hs as (lagged & Hv & Hs).
  apply bind_Ok in Hs as (st2 & Hpush & [= <- <-]).
  destruct (LagValue_shape _ Hg) as (lg & Hlg). destruct (LagPush_shape p _ (vg_gradient x) Hp Hg) as (g1 & Hg1 & Hs1).
  unfold lag_forward. rewrite Hv, Hlg. simpl. rewrite Hpush, Hg1. simpl. by eexists _, _.
Qed.

Lemma sma_forward_value p x (st st1 g : RingStatsState D L) v :
  0 < p -> ring_shape g -> ring_step RingStatsMean p (vg_value x) st = Ok (v, st1) ->
  exists b g1, sma_forward p x st g = Ok (b, st1, g1) /\ same v b /\ ring_shape g1.
Proof.
  intros Hp Hg Hs. unfold ring_step in Hs. apply bind_Ok in Hs as (st2 & Hpush & [= <- <-]).
  destruct (RingStatsPush_shape p _ (vg_gradient x) Hp Hg) as (g1 & Hg1 & Hs1).
  unfold sma_forward. rewrite Hpush. simpl. rewrite Hg1. simpl. eexists _, _. split; [done|].
  split; [|done]. unfold same. by destruct (RingStatsFull st2).
Qed.

(** The average's own slot may remember another smoothing factor. *)
Lemma ema_forward_value (x a : ValueGradient D) (st st' : EMAState D) (g : D) per al v st1 :
  ema_core st = ema_core st' -> vg_value a = al ->
  (v, st1) = ((if negb (e_initialized st) then vg_value x else ema_blend al (vg_value x) (e_value st)),
     MkEma (if negb (e_initialized st) then vg_value x else ema_blend al (vg_value x) (e_value st))
       (e_alpha st1) per true) ->
  exists b st1' g1, ema_forward x a st' g = Ok (b, st1', g1) /\ same v b /\ ema_core st1 = ema_core st1'.
Proof.
  intros Hc Ha [= -> ->]. injection Hc as Hv Hi. unfold ema_forward. rewrite <- Hi, Ha.
  destruct (e_initialized st); simpl; rewrite ?Hv; by eexists _, _, _.
Qed.

(** The rings of rolling_std and zscore after the preparation. *)
Record std_sync (p : nat) (st : RingStatsState D L) (g : RollingStdSensitivityState L) : Prop := {
  sy_cap : capacity st = p; sy_len : length (buffer st) = p; sy_scap : s_capacity g = p;
  sy_slen : length (s_buffer g) = p; sy_head : s_head g < p;
  sy_slides : s_slides g = slides_since_refresh st }.

Lemma std_prepare_sync p st g :
  0 < p -> std_shape st g -> std_sync p (RingStatsPrepare p st) (StdSensPrepare p g).
Proof.
  intros Hp (Hl & Hsl & Hsh & Hcap). unfold RingStatsPrepare, StdSensPrepare.
  destruct (decide (capacity st = p)) as [Hc|Hc], (decide (s_capacity g = p)) as [Hg|Hg];
    split; simpl; rewrite ?length_replicate; solve [done | lia | destruct Hcap; lia].
Qed.

Lemma std_sync_shape p st g : std_sync p st g -> std_shape st g.
Proof. intros [<- ? Hc ? ? ?]. split_and!; [lia..|]. left. lia. Qed.

Lemma std_forward_push p z x xg st g st1 :
  0 < p -> std_shape st g -> RingStatsPush st p x = Ok st1 ->
  exists g1, std_sync p st1 g1 /\
    std_grad_step x xg p z st g =
      Ok (if negb (RingStatsFull st1) then (fnan, fnan)
          else if z then zscore_grad_read x xg st1 g1 else std_grad_read st1 g1, st1, g1).
Proof.
  intros Hp Hsh Hpush. unfold RingStatsPush in Hpush. destruct (Nat.eqb_spec p 0); [lia|].
  cbn [ensure negb rbind] in Hpush. pose proof (std_prepare_sync p st g Hp Hsh) as Hsync.
  unfold std_grad_step. set (st0 := RingStatsPrepare p st) in *.
  assert (Hc : capacity st0 = p) by apply Hsync. rewrite Hc.
  set (g0 := StdSensPrepare p g) in *. destruct Hsync as [_ Hl Hsc Hsl Hsh0 Hss].
  assert (Hm : S (s_head g0) mod p < p) by (apply Nat.mod_upper_bound; lia).
  pose proof (RingStatsStep_Ok _ _ _ Hpush) as Hh. unfold std_grad_stats.
  destruct (Nat.eqb_spec (count st0) (capacity st0)) as [Hf|Hf].
  - destruct (lookup_lt_is_Some_2 (buffer st0) (head st0) Hh) as [old Ho].
    destruct (at_idx_total "grad.buffer[head]" (s_buffer g0) (s_head g0)) as [op Hop]; [lia|].
    rewrite (RingStatsStep_slide _ _ _ Ho Hf) in Hpush. cbv zeta in Hpush. apply at_idx_Ok with (what := "primal.buffer[head]") in Ho.
    rewrite Ho. cbn [rbind]. rewrite Hop. cbn [rbind]. destruct (std_sens_slide _ _ _ _ _ _ _) as [mp mm].
    cbn [rbind]. unfold std_grad_store. cbn [s_buffer]. destruct (Nat.eqb_spec (length (s_buffer g0)) 0); [lia|].
    unfold RingStatsUpdateMeanM2OnSlide in *. cbn [capacity count mean m2 s_head] in *.
    destruct (capacity st0 <=? 1); cbn [buffer head] in *; do 2 (rewrite set_idx_Ok by lia; cbn [rbind]);
      unfold std_grad_refresh; cbn [buffer capacity head count sum mean m2 slides_since_refresh s_buffer s_capacity s_head s_count s_mean s_m2 s_slides];
      unfold maybe_refresh, RingStatsRefreshInterval in Hpush; cbn [capacity slides_since_refresh] in Hpush; rewrite Hss, Hsc; rewrite Hc in *;
      destruct (_ && _) in Hpush |- *; injection Hpush as <-; eexists; (split; [|reflexivity]);
      split; simpl; rewrite ?length_insert; done || lia.
  - rewrite (RingStatsStep_fill st0 x Hh Hf) in Hpush. cbv zeta in Hpush. injection Hpush as <-.
    destruct (std_sens_add _ _ _ _ _) as [mp mm]. cbn [rbind]. unfold std_grad_store. cbn [s_buffer].
    destruct (Nat.eqb_spec (length (s_buffer g0)) 0); [lia|].
    unfold RingStatsUpdateMeanM2OnAdd. cbn [buffer head s_head]. do 2 (rewrite set_idx_Ok by lia; cbn [rbind]).
    rewrite Hsc. eexists. split; [|reflexivity]. split; simpl; rewrite ?length_insert; done || lia.
Qed.

Lemma std_forward_value p (z : bool) x st st1 g v :
  0 < p -> std_shape st g ->
  ring_step (if z then zscore_read (vg_value x) else RingStatsStddevSample) p (vg_value x) st = Ok (v, st1) ->
  exists b g1, std_forward p z x st g = Ok (b, st1, g1) /\ same v b /\ std_shape st1 g1.
Proof.
  intros Hp Hsh Hs. unfold ring_step in Hs. apply bind_Ok in Hs as (st2 & Hpush & [= <- <-]).
  destruct (std_forward_push p z (vg_value x) (vg_gradient x) st g st2 Hp Hsh Hpush) as (g1 & Hsy & Hg).
  unfold std_forward. rewrite Hg. cbn [rbind]. eexists _, _. split; [done|].
  split; [|by eapply std_sync_shape]. unfold same. destruct (RingStatsFull st2); [simpl|done].
  destruct z; simpl; unfold zscore_grad_read, std_grad_read, zscore_read.
  - by destruct (_ || _).
  - destruct (count st2 <? 2) eqn:E; [|done]. simpl. unfold RingStatsStddevSample. by rewrite E.
Qed.

Lemma pair_forward_push p x xg y yg (st st1 : RollingPairState D L) g read :
  0 < p -> pair_shape st g -> RollingPairPush st p x y = Ok st1 ->
  exists g1, pair_shape st1 g1 /\
    pair_grad_step read p x xg y yg st g =
      Ok (if negb (RollingPairFull st1) then (fnan, fnan) else read st1 g1, st1, g1).
Proof.
  intros Hp (Hl & Hx & Hy) Hpush. unfold RollingPairPush in Hpush. destruct (Nat.eqb_spec p 0); [lia|].
  cbn [ensure negb rbind] in Hpush. unfold pair_grad_step, pair_grad_push.
  set (st0 := RollingPairPrepare p st) in *. set (g0 := PairSensPrepare p g) in *.
  assert (Hs : length (x_buf st0) = p /\ length (sx_buf g0) = p /\ length (sy_buf g0) = p /\
               p_capacity st0 = p /\ sp_capacity g0 = p).
  { subst st0 g0. unfold RollingPairPrepare, PairSensPrepare.
    destruct (decide (p_capacity st = p)), (decide (sp_capacity g = p)); simpl;
      rewrite ?length_replicate; split_and!; done || lia. }
  destruct Hs as (Hl0 & Hx0 & Hy0 & Hc & Hsc).
  apply bind_Ok in Hpush as ([k s] & Hn & Hpush). apply bind_Ok in Hpush as (xs & Hxs & Hpush).
  apply bind_Ok in Hpush as (ys & Hys & [= <-]).
  apply set_idx_lt in Hxs as [Hxl ->]. apply set_idx_lt in Hys as [Hyl ->].
  assert (Hshape : forall h c c' gs, pair_shape
      (MkPair (<[p_head st0 := x]> (x_buf st0)) (<[p_head st0 := y]> (y_buf st0)) (p_capacity st0) h c (pair_add s x y))
      (MkPairSens (<[p_head st0 := ext xg]> (sx_buf g0)) (<[p_head st0 := ext yg]> (sy_buf g0))
         (sp_capacity g0) h c' gs)).
  { intros. split_and!; simpl; rewrite length_insert; lia. }
  destruct (p_count st0 =? p_capacity st0).
  - apply bind_Ok in Hn as (ox & Hox & Hn). apply bind_Ok in Hn as (oy & Hoy & [= <- <-]).
    destruct (at_idx_total "grad.x_buf[head]" (sx_buf g0) (p_head st0)) as [a Ha]; [lia|].
    destruct (at_idx_total "grad.y_buf[head]" (sy_buf g0) (p_head st0)) as [b Hb]; [lia|].
    apply at_idx_Ok in Hox, Hoy.
    apply at_idx_Ok with (what := "primal.x_buf[head]") in Hox.
    apply at_idx_Ok with (what := "primal.y_buf[head]") in Hoy.
    rewrite Ha, Hb, Hox, Hoy. cbn [rbind]. do 4 (rewrite set_idx_Ok by lia; cbn [rbind]).
    eexists. by split; [|reflexivity].
  - injection Hn as <- <-. cbn [rbind]. do 4 (rewrite set_idx_Ok by lia; cbn [rbind]).
    eexists. by split; [|reflexivity].
Qed.

Lemma pair_forward_value p (corr : bool) x y st st1 g v :
  0 < p -> pair_shape st g ->
  pair_step (if corr then RollingPairCorrelation else RollingPairBeta) p (vg_value x) (vg_value y) st = Ok (v, st1) ->
  exists b g1, pair_forward (if corr then corr_grad_read else beta_grad_read) p x y st g = Ok (b, st1, g1) /\
    same v b /\ pair_shape st1 g1.
Proof.
  intros Hp Hsh Hs. unfold pair_step in Hs. apply bind_Ok in Hs as (st2 & Hpush & [= <- <-]).
  destruct (pair_forward_push p (vg_value x) (vg_gradient x) (vg_value y) (vg_gradient y) st st2 g
    (if corr then corr_grad_read else beta_grad_read) Hp Hsh Hpush) as (g1 & Hs1 & Hg).
  unfold pair_forward. rewrite Hg. cbn [rbind]. eexists _, _. split; [done|]. split; [|done].
  unfold same. destruct (RollingPairFull st2) eqn:E; [by destruct corr|].
  destruct corr; simpl; unfold RollingPairCorrelation, RollingPairBeta; by rewrite E.
Qed.

Lemma grad_ring_store_shape p i i' xg (ring : LagState D) :
  0 < p -> length (l_buffer ring) = l_capacity ring ->
  exists ring', grad_ring_store p i i' xg ring = Ok ring' /\
    length (l_buffer ring') = p /\ l_capacity ring' = p.
Proof.
  intros Hp Hl. unfold grad_ring_store.
  assert (Hs : length (l_buffer (LagPrepare p ring)) = p /\ l_capacity (LagPrepare p ring) = p).
  { unfold LagPrepare. destruct (decide _) as [Hc|]; simpl; [lia|]. by rewrite length_replicate. }
  destruct Hs as [Hl0 Hc0]. rewrite Hc0. destruct (Nat.ltb_spec 0 p); [|lia].
  rewrite set_idx_Ok by (rewrite Hl0; pose proof (Z.mod_pos_bound i (Z.of_nat p)); lia).
  eexists. split; [done|]. simpl. by rewrite length_insert.
Qed.

(** The deque's operation alone. *)
Definition extremum_out (p : nat) (r : D * Z) (o : (D * D) * Z) : Prop :=
  snd o = snd r /\ fst (fst o) = if (snd r <? Z.of_nat p)%Z then fnan else fst r.

Lemma extremum_forward_value drop p x dq idx ring out dq1 idx1 :
  0 < p -> length (l_buffer ring) = l_capacity ring ->
  MonoUpdate drop (MonoInit dq p) idx p (vg_value x) = Ok (out, dq1, idx1) ->
  exists o ring1,
    extremum_grad_step (fun dq i v => MonoUpdate drop (MonoInit dq p) i p v)
      (vg_value x) (vg_gradient x) p dq idx ring = Ok (o, dq1, idx1, ring1) /\
    extremum_out p (out, idx1) (o, idx1) /\ length (l_buffer ring1) = l_capacity ring1.
Proof.
  intros Hp Hl Hup. unfold extremum_grad_step. rewrite Hup. cbn [rbind].
  destruct (grad_ring_store_shape p idx idx1 (vg_gradient x) ring Hp Hl) as (r1 & Hr & Hl1 & Hc1).
  rewrite Hr. cbn [rbind]. unfold extremum_out. simpl.
  destruct (idx1 <? Z.of_nat p)%Z; [eexists _, _; split_and!; done || lia|].
  assert (Hf : exists t v, MonoFront dq1 = Ok (t, v)).
  { unfold MonoUpdate in Hup. repeat (apply bind_Ok in Hup as (? & ? & Hup)).
    case_match. injection Hup as <- <- <-. by eexists _, _. }
  destruct Hf as (t & u & Hf). rewrite Hf. cbn [rbind]. destruct (Nat.eqb_spec p 0); [lia|].
  destruct (at_idx_total "grad_ring.buffer[active_tick % p]" (l_buffer r1) (Z.to_nat (t mod Z.of_nat p)))
    as [gr Hgr]; [pose proof (Z.mod_pos_bound t (Z.of_nat p)); lia|].
  rewrite Hgr. eexists _, _. split_and!; done || lia.
Qed.
End steps.

(** ** The builtins *)

Section builtins.
Context {D L : Type} `{Machine D L}.
Variables (symbols : SymbolTable) (market : MarketState D) (target : nat).
Variables (ev : Expr D -> M (D:=D) (L:=L) D) (gv : Expr D -> G (D:=D) (L:=L) (ValueGradient D)).

Notation sim := (sim (D:=D) (L:=L) target).
Notation sim_child := (fun e => sim (ev e) (gv e) same).

Lemma fwd_throw {A B} msg (n : G B) (val : A -> B -> Prop) : sim (throw msg) n val.
Proof. by intros ? ? ? ? _. Qed.

Lemma grad_period_Ok e n name name' :
  ParsePositiveIntegerPeriod e name = Ok n -> grad_period e name' = Ok n /\ 0 < n.
Proof.
  unfold ParsePositiveIntegerPeriod, grad_period. destruct e; try done. simpl.
  destruct (to_int value) as [z|]; [|done]. unfold period_ok.
  destruct (Z.leb_spec z 0); [done|]. destruct (negb _); [|done]. intros [= <-]. split; [done|lia].
Qed.

(** A windowed builtin whose gradient parses its period first. *)
Lemma fwd_window {S T} (sl : Slots (NodeStates D L) S) (gl : Slots (Sensitivities D L) T) R Q
  `{!Paired target sl gl R Q} name gname minp step (fwd : nat -> ValueGradient D -> S -> T -> _)
  (chk : nat -> Res ()) args id :
  Forall sim_child args ->
  (forall n, minp <= n -> chk n = Ok tt) ->
  (forall n x st st' g v st1, 0 < n -> R st st' -> Q st' g -> step n (vg_value x) st = Ok (v, st1) ->
     exists b st1' g1, fwd n x st' g = Ok (b, st1', g1) /\ same v b /\ R st1 st1' /\ Q st1' g1) ->
  sim (EvalWindow ev name minp sl step args id)
    (arg1 args (fun p s => rbind (g_lift (grad_period p gname) s) (fun '(period, s) =>
       rbind (g_lift (chk period) s) (fun '(_, s) =>
       arg0 args (fun e s => rbind (gv e s) (fun '(x, s) =>
         on_slots target sl gl id (fwd period x) s)) s)))) same.
Proof.
  intros Hargs Hchk Hstep. unfold EvalWindow. destruct args as [|e [|p [|]]]; try apply fwd_throw.
  apply Forall_cons in Hargs as [He _]. cbn [arg0 arg1].
  apply sim_check. intros n Hn. destruct (grad_period_Ok _ _ _ gname Hn) as [Hg Hp].
  apply sim_check. intros [] Hmin. apply ensure_Ok, Nat.leb_le in Hmin.
  eapply sim_skip; [exact Hg|]. eapply sim_skip; [by apply Hchk|].
  eapply fwd_bind; [exact He|]. intros v b <-. apply (sim_slots _ sl gl R Q). intros. by eapply Hstep.
Qed.

Section calls.
Variables (args : list (Expr D)) (id : Z).
Hypothesis Hargs : Forall sim_child args.

Lemma sim_lag : sim (EvalLag ev args id) (GradLag target gv args id) same.
Proof.
  apply (fwd_window lag_slots lag_sensitivity_slots eq (fun _ g => lag_shape g)
    "lag" "lag()" 1 lag_step lag_forward (fun _ => Ok tt)); [done..|].
  intros n x st _ g v st1 Hn <- Hg Hs.
  destruct (lag_forward_value _ _ _ _ _ _ Hn Hg Hs) as (b & g1 & ? & ? & ?). by eexists _, _, _.
Qed.

Lemma sim_sma : sim (EvalSma ev args id) (GradSma target gv args id) same.
Proof.
  apply (fwd_window sma_slots sma_sensitivity_slots eq (fun _ g => ring_shape g)
    "sma" "sma()" 1 (ring_step RingStatsMean) sma_forward (fun _ => Ok tt)); [done..|].
  intros n x st _ g v st1 Hn <- Hg Hs.
  destruct (sma_forward_value _ _ _ _ _ _ Hn Hg Hs) as (b & g1 & ? & ? & ?). by eexists _, _, _.
Qed.

Lemma sim_rolling_std : sim (EvalRollingStd ev args id) (GradStd target gv "rolling_std" args id) same.
Proof.
  eapply (fwd_window rolling_std_slots rolling_std_sensitivity_slots eq std_shape
    "rolling_std" "rolling_std()" 2 (ring_step RingStatsStddevSample)
    (fun n => std_forward n false) (fun n => ensure (negb (n <? 2)) _)); [done| |].
  - intros n Hn. by destruct (Nat.ltb_spec n 2); [lia|].
  - intros n x st _ g v st1 Hn <- Hg Hs.
    destruct (std_forward_value n false _ _ _ _ _ Hn Hg Hs) as (b & g1 & ? & ? & ?). by eexists _, _, _.
Qed.

Lemma sim_zscore : sim (EvalZscore ev args id) (GradStd target gv "zscore" args id) same.
Proof.
  eapply (fwd_window zscore_slots zscore_sensitivity_slots eq std_shape
    "zscore" "zscore()" 2 (fun n x => ring_step (zscore_read x) n x)
    (fun n => std_forward n true) (fun n => ensure (negb (n <? 2)) _)); [done| |].
  - intros n Hn. by destruct (Nat.ltb_spec n 2); [lia|].
  - intros n x st _ g v st1 Hn <- Hg Hs.
    destruct (std_forward_value n true _ _ _ _ _ Hn Hg Hs) as (b & g1 & ? & ? & ?). by eexists _, _, _.
Qed.

Lemma sim_ema : sim (EvalEma ev args id) (GradEma target gv "ema" args id) same.
Proof.
  unfold EvalEma, EvalWindow. destruct args as [|e [|p [|]]]; try apply fwd_throw.
  apply Forall_cons in Hargs as [He _]. unfold GradEma. cbn [arg0 arg1].
  apply sim_check. intros n Hn. destruct (grad_period_Ok _ _ _ "ema()" Hn) as [Hg Hp].
  apply sim_check. intros [] _. eapply fwd_bind; [exact He|]. intros v b <-.
  cbn [String.eqb Ascii.eqb Bool.eqb]. rewrite Hg.
  apply (sim_slots _ ema_slots ema_sensitivity_slots (fun st st' => ema_core st = ema_core st') (fun _ _ => True)).
  intros st st' g v st1 HR _ Hs. unfold ema_step in Hs. injection Hs as <- <-.
  edestruct (ema_forward_value b (MkVG (ema_alpha_of n) (fint 0)) st st' g) as (o & st1' & g1 & ? & ? & ?);
    [done|reflexivity| |by eexists _, _, _]. reflexivity.
Qed.

Lemma sim_ema_alpha : sim (EvalEmaAlpha ev args id) (GradEma target gv "ema_alpha" args id) same.
Proof.
  unfold EvalEmaAlpha. destruct args as [|e [|a [|]]]; try apply fwd_throw.
  apply Forall_cons in Hargs as [He Ha]. apply Forall_cons in Ha as [Ha _]. unfold GradEma. cbn [arg0 arg1].
  eapply fwd_bind; [exact He|]. intros v b <-. cbn [String.eqb Ascii.eqb Bool.eqb].
  eapply fwd_bind; [exact Ha|]. intros al ba <-. apply sim_check. intros [] _.
  apply (sim_slots _ ema_slots ema_sensitivity_slots (fun st st' => ema_core st = ema_core st') (fun _ _ => True)).
  intros st st' g v st1 HR _ Hs. unfold ema_alpha_step in Hs. injection Hs as <- <-.
  edestruct (ema_forward_value b ba st st' g) as (o & st1' & g1 & ? & ? & ?);
    [done|reflexivity| |by eexists _, _, _]. reflexivity.
Qed.

Lemma sim_rolling_corr :
  sim (EvalPair ev "rolling_corr" rolling_corr_slots RollingPairCorrelation args id)
    (GradPair target gv "rolling_corr" args id) same.
Proof.
  unfold EvalPair. destruct args as [|ex [|ey [|p [|]]]]; try apply fwd_throw.
  apply Forall_cons in Hargs as [Hx Hy]. apply Forall_cons in Hy as [Hy _].
  unfold GradPair. cbn [arg0 arg1 arg2 String.eqb Ascii.eqb Bool.eqb].
  apply sim_check. intros n Hn. destruct (grad_period_Ok _ _ _ "rolling_corr()" Hn) as [Hg Hp].
  eapply sim_skip; [exact Hg|]. eapply fwd_bind; [exact Hx|]. intros x bx <-.
  eapply fwd_bind; [exact Hy|]. intros y by' <-.
  apply (sim_slots _ rolling_corr_slots rolling_corr_sensitivity_slots eq pair_shape).
  intros st _ g v st1 <- Hsh Hs.
  destruct (pair_forward_value n true bx by' _ _ _ _ Hp Hsh Hs) as (b & g1 & ? & ? & ?). by eexists _, _, _.
Qed.

Lemma sim_rolling_beta :
  sim (EvalPair ev "rolling_beta" rolling_beta_slots RollingPairBeta args id)
    (GradPair target gv "rolling_beta" args id) same.
Proof.
  unfold EvalPair. destruct args as [|ex [|ey [|p [|]]]]; try apply fwd_throw.
  apply Forall_cons in Hargs as [Hx Hy]. apply Forall_cons in Hy as [Hy _].
  unfold GradPair. cbn [arg0 arg1 arg2 String.eqb Ascii.eqb Bool.eqb].
  apply sim_check. intros n Hn. destruct (grad_period_Ok _ _ _ "rolling_beta()" Hn) as [Hg Hp].
  eapply sim_skip; [exact Hg|]. eapply fwd_bind; [exact Hx|]. intros x bx <-.
  eapply fwd_bind; [exact Hy|]. intros y by' <-.
  apply (sim_slots _ rolling_beta_slots rolling_beta_sensitivity_slots eq pair_shape).
  intros st _ g v st1 <- Hsh Hs.
  destruct (pair_forward_value n false bx by' _ _ _ _ Hp Hsh Hs) as (b & g1 & ? & ? & ?). by eexists _, _, _.
Qed.

(** The deque and its tick index. *)
Lemma sim_extremum_step name dqs idxs rings drop n b
  `{!Paired target dqs rings eq (fun _ g => length (l_buffer g) = l_capacity g)} `{!Unpaired target idxs} :
  0 < n ->
  let update dq i p v := MonoUpdate drop (MonoInit dq p) i p v in
  sim (extremum_step name dqs idxs update id n (vg_value b))
    (extremum_forward target dqs idxs rings update id n b) same.
Proof.
  intros Hp update. unfold extremum_step, extremum_forward. eapply (fwd_bind _ _ _ eq).
  { apply sim_node; [done|]. intros i v st1 [= <- <-]. by eexists. }
  intros i _ <-. eapply (fwd_bind _ _ _ (extremum_out n)).
  { apply (sim_slots _ dqs rings eq (fun _ g => length (l_buffer g) = l_capacity g)).
    intros st _ g v st1 <- Hg Hs. apply bind_Ok in Hs as ([[out dq1] idx1] & Hup & [= <- <-]).
    destruct (extremum_forward_value _ _ _ _ _ _ _ _ _ Hp Hg Hup) as (o & r1 & Ho & Hout & Hl).
    unfold update. rewrite Ho. cbn [rbind]. by eexists _, _, _. }
  intros [r i1] [o i2] [Hi Ho]. simpl in Hi, Ho. subst i2. eapply (fwd_bind _ _ _ eq).
  { apply sim_node; [done|]. intros j v st1 [= <- <-]. by eexists. }
  intros _ _ _. apply sim_lift. intros v [= <-]. unfold same. simpl. exact Ho.
Qed.

Lemma sim_rolling_min : sim (EvalRollingMin ev args id) (GradExtremum target gv "rolling_min" args id) same.
Proof.
  unfold EvalRollingMin, EvalRollingExtremum. destruct args as [|e [|p [|]]]; try apply fwd_throw.
  apply Forall_cons in Hargs as [He _].
  unfold GradExtremum. cbn [arg0 arg1 String.eqb Ascii.eqb Bool.eqb].
  apply sim_check. intros n Hn. destruct (grad_period_Ok _ _ _ "rolling_min()" Hn) as [Hg Hp].
  eapply sim_skip; [exact Hg|]. eapply fwd_bind; [exact He|]. intros v b <-.
  exact (sim_extremum_step "rolling_min" rolling_min_deques_slots rolling_min_indices_slots
    rolling_min_sensitivity_slots fge n b Hp).
Qed.

Lemma sim_rolling_max : sim (EvalRollingMax ev args id) (GradExtremum target gv "rolling_max" args id) same.
Proof.
  unfold EvalRollingMax, EvalRollingExtremum. destruct args as [|e [|p [|]]]; try apply fwd_throw.
  apply Forall_cons in Hargs as [He _].
  unfold GradExtremum. cbn [arg0 arg1 String.eqb Ascii.eqb Bool.eqb].
  apply sim_check. intros n Hn. destruct (grad_period_Ok _ _ _ "rolling_max()" Hn) as [Hg Hp].
  eapply sim_skip; [exact Hg|]. eapply fwd_bind; [exact He|]. intros v b <-.
  exact (sim_extremum_step "rolling_max" rolling_max_deques_slots rolling_max_indices_slots
    rolling_max_sensitivity_slots fle n b Hp).
Qed.

Lemma sim_cross name before now :
  (before, now) = (if (name =? "cross_above")%string then (fle, fgt) else (fge, flt)) ->
  sim (EvalCross ev name before now args id) (GradCross gv name args id) same.
Proof.
  intros Hb. unfold EvalCross. destruct args as [|ea [|eb [|]]]; try apply fwd_throw.
  apply Forall_cons in Hargs as [Ha Hb']. apply Forall_cons in Hb' as [Hb' _].
  unfold GradCross. cbn [arg0 arg1]. eapply fwd_bind; [exact Ha|]. intros a ba <-.
  eapply fwd_bind; [exact Hb'|]. intros b bb <-.
  assert (Hn : sim (on_node cross_slots name id (cross_step before now (vg_value ba) (vg_value bb)))
    (g_run (with_node cross_slots id (if (name =? "cross_above")%string
              then cross_step fle fgt (vg_value ba) (vg_value bb)
              else cross_step fge flt (vg_value ba) (vg_value bb)))) eq).
  { apply sim_node; [apply _|]. intros st v st1 Hs. exists v. split; [|done].
    destruct (name =? "cross_above")%string; by injection Hb as -> ->. }
  intros s g v s' Hss Hr. destruct (Hn _ _ _ _ Hss Hr) as (v' & g' & Hg & <- & Hs'). rewrite Hg.
  by eexists _, _.
Qed.
End calls.
End builtins.

(** ** Trees *)

(** What the gradient interpreter evaluates as the interpreter does: no vwap,
    which it does not support, no kalman1d, whose guard differs, and node
    ids on the stateful calls alone, as the numbering leaves them. *)
Fixpoint gradient_supported {D} (e : Expr D) : bool :=
  match e with
  | NumberLiteral _ _ | IdentifierExpr _ _ | ParameterExpr _ _ _ => true
  | UnaryOp _ _ x => gradient_supported x
  | BinaryOp _ _ l r => gradient_supported l && gradient_supported r
  | Conditional _ c t f => gradient_supported c && gradient_supported t && gradient_supported f
  | FunctionCall _ name args id _ =>
      negb (name =? "vwap")%string && negb (name =? "kalman1d")%string &&
      Bool.eqb (0 <=? id)%Z (IsStatefulOp name) && forallb gradient_supported args
  end.

Section trees.
Context {D L : Type} `{Machine D L}.
Variables (symbols : SymbolTable) (market : MarketState D) (target : nat).

Notation sim := (sim (D:=D) (L:=L) target).
Notation ev := (Visit (L:=L) symbols market).
Notation gv := (EvalGradExpr (L:=L) symbols market target).

Definition g_cached (id : Z) (n : G (ValueGradient D)) : G (D:=D) (L:=L) (ValueGradient D) := fun s =>
  '(out, s) <- n s;;
  Ok (out, if (0 <? id)%Z then MkGrad (g_ctx s) (<[id := out]> (stateful_cache s)) else s).

Lemma sim_cached id (m : M (D:=D) (L:=L) D) (n : G (ValueGradient D)) : sim m n same -> sim (cache_and_return id m) (g_cached id n) same.
Proof.
  intros Hmn s g v s' Hs Hr. apply bind_Ok in Hr as ([v1 s1] & Hm & [= <- <-]).
  destruct (Hmn _ _ _ _ Hs Hm) as (b & g1 & Hn & Hb & [Hc1 Hk1]). unfold g_cached. rewrite Hn. simpl.
  eexists b, _. split; [done|]. split; [done|]. destruct (0 <? id)%Z; [|by split].
  split; [done|]. intros id'. simpl. destruct (decide (id' = id)) as [->|].
  - rewrite !lookup_insert_eq. simpl. by rewrite Hb.
  - by rewrite !lookup_insert_ne by done.
Qed.

Lemma fwd_stateful id (m : M (D:=D) (L:=L) D) (n : G (ValueGradient D)) :
  sim m n same ->
  sim m (fun s => rbind (g_lift (GradientSlot (g_ctx s) (Z.to_nat id) target) s) (fun '(_, s) => n s)) same.
Proof.
  intros Hmn s g v s' Hs. rewrite (GradientSlot_ready target) by apply Hs. by apply Hmn.
Qed.

Lemma sim_uncached id (m : M (D:=D) (L:=L) D) (n : G (ValueGradient D)) : (id < 0)%Z -> sim m n same -> sim m (g_cached id n) same.
Proof.
  intros Hid Hmn s g v s' Hs Hr. destruct (Hmn _ _ _ _ Hs Hr) as (b & g1 & Hn & Hb).
  unfold g_cached. rewrite Hn. simpl. destruct (Z.ltb_spec 0 id); [lia|]. by eexists _, _.
Qed.

Lemma sim_quote name read args sym :
  (forall ins, read ins = if (name =? "mid")%string then mid ins
            else if (name =? "bid")%string then bid ins
            else if (name =? "ask")%string then ask ins
            else spread ins) ->
  sim (lift (EvalQuote symbols market name read args sym)) (g_lift (EvalMarketRead symbols market name args sym)) same.
Proof.
  intros Hread s g v s' Hs Hr. apply fmap_Ok in Hr as (a & Hr & [= <- <-]).
  unfold EvalQuote in Hr. apply bind_Ok in Hr as ([] & _ & Hr). apply bind_Ok in Hr as (slot & Hslot & Hr).
  apply fmap_Ok in Hr as (ins & Hins & <-). unfold EvalMarketRead. rewrite Hslot. cbn [rbind].
  rewrite Hins. cbn [rbind g_lift rmap]. eexists _, _. split; [done|]. split; [|done]. by unfold same.
Qed.

Lemma sim_math name f gf args :
  Forall (fun e => sim (ev e) (gv e) same) args ->
  (forall x : ValueGradient D, vg_value (gf x) = f (vg_value x)) ->
  sim (EvalMath ev name f args)
    (arg0 args (fun e s => rbind (gv e s) (fun '(x, s) => g_lift (Ok (gf x)) s))) same.
Proof.
  intros HF Hf. unfold EvalMath. destruct args as [|e [|]]; try apply fwd_throw.
  apply Forall_cons in HF as [He _]. cbn [arg0]. eapply fwd_bind; [exact He|].
  intros v b <-. apply sim_lift. intros a [= <-]. apply Hf.
Qed.

Lemma sim_dispatch name args id sym :
  (name =? "vwap")%string = false -> (name =? "kalman1d")%string = false ->
  (0 <=? id)%Z = IsStatefulOp name -> Forall (fun e => sim (ev e) (gv e) same) args ->
  sim (dispatch symbols market ev name args id sym)
    (g_cached id (EvalFunction symbols market target gv name args id sym)) same.
Proof.
  intros Hv Hk Hid HF. unfold dispatch, EvalFunction. rewrite Hv, Hk.
  assert (Hs : IsStatefulOp name = true -> (id <? 0)%Z = false).
  { rewrite <- Hid. intros Hp%Z.leb_le. by apply Z.ltb_ge. }
  assert (Hn : IsStatefulOp name = false -> (id < 0)%Z).
  { rewrite <- Hid. apply Z.leb_gt. }
  clear Hv Hk Hid.
  do 4 (match goal with |- context [(name =? ?l)%string] =>
     destruct (String.eqb_spec name l) as [->|_]; [apply sim_uncached; [by apply Hn|by apply sim_quote]|] end).
  cbn [orb].
  do 12 (match goal with |- context [(name =? ?l)%string] =>
     destruct (String.eqb_spec name l) as [->|_];
       [cbn [String.eqb Ascii.eqb Bool.eqb]; rewrite Hs by done; apply sim_cached, fwd_stateful;
        first [by apply sim_ema | by apply sim_ema_alpha | by apply sim_sma | by apply sim_rolling_std
              | by apply sim_zscore | by apply sim_lag | by apply sim_cross | by apply sim_rolling_min
              | by apply sim_rolling_max | by apply sim_rolling_corr | by apply sim_rolling_beta]|] end).
  do 3 (match goal with |- context [(name =? ?l)%string] =>
     destruct (String.eqb_spec name l) as [->|_]; [apply sim_uncached; [by apply Hn|by apply sim_math]|] end).
  apply fwd_throw.
Qed.

Lemma sim_expr e : gradient_supported e = true -> sim (ev e) (gv e) same.
Proof.
  induction e using Expr_rect'; intros Hsup; cbn [gradient_supported] in Hsup; split_andb; cbn [Visit EvalGradExpr].
  - apply sim_lift. by intros v' [= <-].
  - apply fwd_throw.
  - intros s g v s' Hs Hr. pose proof Hs as [[Hn Hp Hm _ Hready] _]. apply fmap_Ok in Hr as (a & Hr & [= <- <-]).
    unfold EvalParameter in Hr. unfold GradParameter. rewrite Hp in Hr.
    destruct (params (g_ctx g)) as [ps|]; [|done]. destruct (_ || _); [done|].
    unfold at_Z in *. destruct (_ <? 0)%Z; [done|]. apply at_idx_Ok in Hr.
    apply at_idx_Ok with (what := "params[param_id]") in Hr. rewrite Hr. simpl. by eexists _, _.
  - eapply fwd_bind; [by apply IHe|]. intros v b <-. apply sim_lift. intros a [= <-].
    by destruct k.
  - eapply fwd_bind; [by apply IHe1|]. intros l bl <-. eapply fwd_bind; [by apply IHe2|].
    intros r br <-. apply sim_lift. intros a [= <-]. destruct bl, br. by destruct k.
  - rename select (forallb _ _ = true) into Hsup. rename select (Forall _ _) into IH.
    assert (Hargs : Forall (fun e => sim (ev e) (gv e) same) args).
    { rewrite List.forallb_forall in Hsup. rewrite Forall_forall in *. intros a Ha. apply IH; [done|].
      apply Hsup. by apply list_elem_of_In. }
    assert (Hcall : sim (dispatch symbols market ev n args i s)
      (g_cached i (EvalFunction symbols market target gv n args i s)) same).
    { apply sim_dispatch; [by apply negb_true_iff..|by apply eqb_prop|done]. }
    intros st g v s' Hs Hr. pose proof (ss_cache _ _ _ Hs) as Hcache.
    rewrite Hcache in Hr. destruct (0 <? i)%Z eqn:Ei; [destruct (stateful_cache g !! i) as [out|]|].
    { injection Hr as <- <-. by eexists _, _. }
    all: apply (Hcall _ _ _ _ Hs) in Hr; unfold g_cached in Hr; rewrite Ei in Hr; exact Hr.
  - eapply fwd_bind; [by apply IHe1|]. intros c bc <-.
    destruct (fne (vg_value bc) (fint 0)); [by apply IHe2|by apply IHe3].
Qed.
End trees.

(** ** From a prewarmed context *)

Section start.
Context {D L : Type} `{Machine D L}.
Notation Ctx := (SignalContext D L).
Notation Nodes := (NodeStates D L).

(** No sample of a ring has slid, and the buffers have their capacities. *)
Definition ring_unslid (st : RingStatsState D L) : Prop :=
  length (buffer st) = capacity st /\ slides_since_refresh st = 0.
Definition pair_sized (st : RollingPairState D L) : Prop := length (x_buf st) = p_capacity st.

Record unslid (n : Nodes) : Prop := {
  un_std : Forall ring_unslid (rolling_std_states n);
  un_zscore : Forall ring_unslid (zscore_states n);
  un_corr : Forall pair_sized (rolling_corr_states n);
  un_beta : Forall pair_sized (rolling_beta_states n) }.

Lemma unslid_init : unslid NodeStates_init.
Proof. by split. Qed.

Lemma vec_grow_forall {A} (P : A -> Prop) n d l : P d -> Forall P l -> Forall P (vec_grow n d l).
Proof.
  intros Hd Hl. unfold vec_grow, vec_resize. destruct (length l <? n); [|done].
  apply Forall_app. split; [by apply Forall_take|by apply Forall_replicate].
Qed.

(** What growing the arrays and prewarming each operator's slot preserve,
    prewarming a signal preserves. *)
Definition keeps (Good : Nodes -> Prop) {S} (sl : Slots Nodes S) (f : S -> S) : Prop := forall n k st,
  Good n -> slots_get sl n !! k = Some st -> Good (slots_set sl (<[k := f st]> (slots_get sl n)) n).

Record prewarm_keeps (Good : Nodes -> Prop) : Prop := {
  pk_grow k n : Good n -> Good (grow_nodes k n);
  pk_ema p : keeps Good ema_slots (prewarm_ema p);
  pk_sma p : keeps Good sma_slots (prewarm_ring p);
  pk_std p : keeps Good rolling_std_slots (prewarm_ring p);
  pk_zscore p : keeps Good zscore_slots (prewarm_ring p);
  pk_vwap p : keeps Good vwap_slots (VwapPrepare p);
  pk_lag p : keeps Good lag_slots (LagPrepare p);
  pk_min p : keeps Good rolling_min_deques_slots (fun dq => MonoInit dq p);
  pk_min_index : keeps Good rolling_min_indices_slots (fun _ => 0%Z);
  pk_max p : keeps Good rolling_max_deques_slots (fun dq => MonoInit dq p);
  pk_max_index : keeps Good rolling_max_indices_slots (fun _ => 0%Z);
  pk_corr p : keeps Good rolling_corr_slots (RollingPairPrepare p);
  pk_beta p : keeps Good rolling_beta_slots (RollingPairPrepare p);
  pk_kalman : keeps Good kalman1d_slots (fun _ => Kalman1dState_init);
  pk_cross : keeps Good cross_slots (fun _ => CrossState_init) }.

Section keeps.
Variable Good : Nodes -> Prop.
Hypothesis Hgood : prewarm_keeps Good.

Lemma prewarm_slot_keeps {S} (sl : Slots Nodes S) f id (c c' : Ctx) :
  keeps Good sl f -> Good (nodes c) -> prewarm_slot sl id f c = Ok c' -> Good (nodes c').
Proof.
  intros Hk Hc Hp. unfold prewarm_slot, with_node, at_Z, at_idx in Hp.
  destruct (id <? 0)%Z; [done|]. destruct (_ !! _) as [st|] eqn:Hst; [|done]. injection Hp as <-.
  by apply Hk.
Qed.

Lemma prewarm_call_keeps name args id (c c' : Ctx) :
  Good (nodes c) -> prewarm_call name args id c = Ok c' -> Good (nodes c').
Proof.
  intros Hc Hp. unfold prewarm_call in Hp.
  assert (Hg : Good (nodes (EnsureNodeCapacity c (Z.to_nat id)))).
  { unfold EnsureNodeCapacity. destruct (0 <? _); by apply (pk_grow _ Hgood). }
  apply bind_Ok in Hp as (p & _ & Hp). unfold prewarm_unwindowed in Hp.
  pose proof Hgood as [? ? ? ? ? ? ? ? ? ? ? ? ? ? ?].
  repeat case_match; try (injection Hp as <-; done).
  all: try match type of Hp with rbind _ _ = _ => apply bind_Ok in Hp as (c1 & Hp1 & Hp) end.
  all: try (eapply prewarm_slot_keeps; [|exact Hg|exact Hp]; auto).
  all: try (eapply prewarm_slot_keeps; [| |exact Hp]; [auto|];
            eapply prewarm_slot_keeps; [|exact Hg|exact Hp1]; auto).
  all: destruct c1; [|by injection Hp as <-].
  all: eapply prewarm_slot_keeps; [|exact Hg|exact Hp]; auto.
Qed.

Lemma prewarm_walk_keeps e : forall c c' : Ctx,
  Good (nodes c) -> prewarm_walk e c = Ok c' -> Good (nodes c').
Proof.
  induction e using Expr_rect'; intros c c' Hc Hp; simpl in Hp; try (by injection Hp as <-).
  - by eapply IHe.
  - apply bind_Ok in Hp as (c1 & H1 & H2). eapply IHe2; [|exact H2]. by eapply IHe1.
  - apply bind_Ok in Hp as (c1 & H1 & H2).
    assert (Hc1 : Good (nodes c1)).
    { destruct (0 <=? i)%Z; [by eapply prewarm_call_keeps|by injection H1 as <-]. }
    clear H1. revert c1 c' Hc1 H2. rename select (Forall _ _) into HF.
    induction HF as [|a l Ha HF IH]; intros c1 c' Hc1 H2; [by injection H2 as <-|].
    apply bind_Ok in H2 as (c2 & H2 & H3). eapply IH; [|exact H3]. by eapply Ha.
  - apply bind_Ok in Hp as (c1 & H1 & Hp). apply bind_Ok in Hp as (c2 & H2 & H3).
    eapply IHe3; [|exact H3]. eapply IHe2; [|exact H2]. by eapply IHe1.
Qed.
End keeps.

Lemma prewarm_ring_unslid p st : ring_unslid st -> ring_unslid (prewarm_ring p st).
Proof.
  intros [Hl Hs]. unfold prewarm_ring. destruct (decide _); split; simpl; try done.
  apply length_replicate.
Qed.

Lemma RollingPairPrepare_sized p (st : RollingPairState D L) :
  pair_sized st -> pair_sized (RollingPairPrepare p st).
Proof.
  intros Hl. unfold RollingPairPrepare. destruct (decide _); [done|]. apply length_replicate.
Qed.

Lemma unslid_keeps : prewarm_keeps unslid.
Proof.
  split; [intros k n [? ? ? ?]; split; by apply vec_grow_forall|..].
  all: intros; intros n k st [] Hst; split; simpl in *; try done; apply Forall_insert; try done.
  all: first [apply prewarm_ring_unslid | apply RollingPairPrepare_sized]; by eapply Forall_lookup_1; [|exact Hst].
Qed.

(** Setting the parameters allocates a default slot for each (node, parameter). *)
Lemma paired_start {S T} (sl : Slots Nodes S) (gl : Slots (Sensitivities D L) T) Q init target (c : Ctx) ps :
  target < length ps ->
  let c1 := SetStandaloneParameters c ps in
  slots_get gl (sens c1) = replicate (CurrentNodeCapacity (nodes c) * length ps) init ->
  (forall k st, slots_get sl (nodes c) !! k = Some st -> k < CurrentNodeCapacity (nodes c) /\ Q st init) ->
  paired target sl gl Q c1.
Proof.
  intros Ht c1 Hg Hs k st Hk. destruct (Hs k st Hk) as [Hlt HQ]. exists init. split; [|done].
  rewrite Hg. apply lookup_replicate_2. simpl. nia.
Qed.

Lemma foldr_max_bound l : Forall (fun k => k <= foldr Nat.max 0 l) l.
Proof.
  induction l as [|k l IH]; constructor; simpl; [lia|].
  apply Forall_impl with (1 := IH). intros m Hm. simpl in Hm. lia.
Qed.

(** The capacity is that of the longest array. *)
Lemma CurrentNodeCapacity_bound (n : Nodes) : Forall (fun k => k <= CurrentNodeCapacity n)
  [length (ema_states n); length (sma_states n); length (rolling_std_states n);
   length (zscore_states n); length (vwap_states n); length (lag_states n); length (cross_states n);
   length (rolling_min_deques n); length (rolling_max_deques n); length (rolling_corr_states n);
   length (rolling_beta_states n); length (kalman1d_states n)].
Proof. apply foldr_max_bound. Qed.

Lemma SetStandaloneParameters_ready target (c : Ctx) ps :
  target < length ps -> unslid (nodes c) -> gradient_ready target (SetStandaloneParameters c ps).
Proof.
  intros Ht [Hstd Hz Hc Hb].
  assert (Hlen : forall {A} n (d e : A) l, replicate (length (vec_resize n d l)) e = replicate n e).
  { intros A n d e l. f_equal. unfold vec_resize. rewrite length_app, length_take, length_replicate. lia. }
  pose proof (CurrentNodeCapacity_bound (nodes c)) as Hcap.
  repeat (apply Forall_cons in Hcap as [? Hcap]).
  split; [simpl; lia|..]; eapply paired_start; try done; try (simpl; by rewrite Hlen);
    intros k st Hk; (split; [apply lookup_lt_Some in Hk; simpl in Hk; lia|]); simpl in Hk.
  - done.
  - by split.
  - destruct (Forall_lookup_1 _ _ _ _ Hstd Hk). split_and!; try done. by right.
  - destruct (Forall_lookup_1 _ _ _ _ Hz Hk). split_and!; try done. by right.
  - by split.
  - done.
  - done.
  - split_and!; [exact (Forall_lookup_1 _ _ _ _ Hc Hk)|done..].
  - split_and!; [exact (Forall_lookup_1 _ _ _ _ Hb Hk)|done..].
Qed.
End start.

(** ** Ticks *)

Section ticks.
Context {D L : Type} `{Machine D L}.
Variables (symbols : SymbolTable) (signal : SignalDef D) (param_id : Z).
Notation Ctx := (SignalContext D L).
Notation target := (Z.to_nat param_id).

(** The gradient with respect to one parameter on a sequence of markets. *)
Fixpoint gradient_ticks (markets : list (MarketState D)) (c : Ctx)
  : Res (list (ValueGradient D) * Ctx) :=
  match markets with
  | [] => Ok ([], c)
  | m :: rest =>
      '(g, c) <- EvaluateSignalGradient signal symbols m c param_id;;
      '(gs, c) <- gradient_ticks rest c;;
      Ok (g :: gs, c)
  end.

Lemma sim_evaluate market c c' v c1 :
  (0 <= param_id)%Z -> gradient_supported (sig_body signal) = true -> ctx_sim target c c' ->
  Evaluate symbols market signal c = Ok (v, c1) ->
  exists g c1', EvaluateSignalGradient signal symbols market c' param_id = Ok (g, c1') /\
    vg_value g = v /\ ctx_sim target c1 c1'.
Proof.
  intros Hid Hsup Hc He. apply bind_Ok in He as ([v1 s1] & Hv & [= <- <-]).
  assert (Hs : state_sim target (MkEval c ∅) (MkGrad c' ∅)) by (split; [done|]; intros id; simpl; by rewrite !lookup_empty).
  destruct (sim_expr symbols market target _ Hsup _ _ _ _ Hs Hv) as (b & g' & Hg & Hb & [Hc' _]).
  destruct (cs_target _ _ _ Hc) as [Hps Hlt]. unfold EvaluateSignalGradient.
  destruct (params c'); [|done]. destruct (Nat.eqb_spec (num_params c') 0); [lia|].
  destruct (Z.ltb_spec param_id 0); [lia|]. destruct (Z.leb_spec (Z.of_nat (num_params c')) param_id); [lia|].
  cbn [ensure negb orb rbind]. rewrite Hg. cbn [rbind]. by eexists _, _.
Qed.

Lemma sim_ticks markets : forall c c' vs c1,
  (0 <= param_id)%Z -> gradient_supported (sig_body signal) = true -> ctx_sim target c c' ->
  run_ticks symbols signal markets c = Ok (vs, c1) ->
  exists gs c1', gradient_ticks markets c' = Ok (gs, c1') /\ map vg_value gs = vs /\ ctx_sim target c1 c1'.
Proof.
  induction markets as [|m rest IH]; intros c c' vs c1 Hid Hsup Hc Hr; simpl in Hr.
  - injection Hr as <- <-. by exists [], c'.
  - apply bind_Ok in Hr as ([v c2] & He & Hr). apply bind_Ok in Hr as ([vs' c3] & Ht & [= <- <-]).
    destruct (sim_evaluate m c c' v c2 Hid Hsup Hc He) as (g & c2' & Hg & Hv & Hc2).
    destruct (IH c2 c2' vs' c3 Hid Hsup Hc2 Ht) as (gs & c3' & Hgs & Hvs & Hc3).
    exists (g :: gs), c3'. simpl. rewrite Hg. cbn [rbind]. rewrite Hgs. cbn [rbind].
    split_and!; [done| |done]. by rewrite Hv, Hvs.
Qed.

(** C13: the forward gradient interpreter computes the signal, in any
    arithmetic.  Prewarm a new context for a signal without vwap and
    kalman1d, set its parameters, and run the interpreter on any markets on
    which it succeeds: then [EvaluateSignalGradient], from the same context
    and for any parameter, fails at no tick, returns next to each gradient
    the interpreter's value bit for bit, and leaves the operators in the
    interpreter's states, up to the smoothing factor an average remembers. *)
Theorem gradient_forward_values (c0 c : Ctx) ps markets vs c1 :
  gradient_supported (sig_body signal) = true -> nodes c0 = NodeStates_init ->
  PrewarmSignalContext c0 signal = Ok c -> (0 <= param_id < Z.of_nat (length ps))%Z ->
  run_ticks symbols signal markets (SetStandaloneParameters c ps) = Ok (vs, c1) ->
  exists gs c2, gradient_ticks markets (SetStandaloneParameters c ps) = Ok (gs, c2) /\
    map vg_value gs = vs /\ forget_ema (nodes c2) = forget_ema (nodes c1).
Proof.
  intros Hsup H0 Hpre Hid Ht.
  assert (Hun : unslid (nodes c)).
  { eapply (prewarm_walk_keeps _ unslid_keeps); [|exact Hpre]. rewrite H0. apply unslid_init. }
  assert (Hc : ctx_sim target (SetStandaloneParameters c ps) (SetStandaloneParameters c ps)).
  { split; [done..| |apply SetStandaloneParameters_ready; [lia|done]].
    simpl. split; [|lia]. destruct ps; [simpl in *; lia|done]. }
  destruct (sim_ticks markets _ _ vs c1 ltac:(lia) Hsup Hc Ht) as (gs & c2 & Hg & Hv & [Hn _ _ _ _]).
  exists gs, c2. by split_and!.
Qed.
End ticks.

(** ** Concrete instances *)

Module ForwardExample.
Import Example.
#[local] Instance machine : Machine double long_double := Example.M.
Definition price : Expr double := call "mid" [IdentifierExpr noloc "AAPL"].
(** [rolling_std(ema_alpha(mid(AAPL), p), 2) + rolling_max(mid(AAPL), 2)] *)
Definition learned : SignalDef double :=
  MkSignal "s" (BinaryOp noloc Add
    (call "rolling_std" [call "ema_alpha" [price; ParameterExpr noloc "p" 0]; period 2])
    (call "rolling_max" [price; period 2])).
Definition ready (s : SignalDef double) : SignalDef double :=
  match BindSymbolIds (fst (AllocateNodeIds s)) table with Ok s => s | Err _ => s end.
Definition prewarmed (s : SignalDef double) : SignalContext double long_double :=
  match PrewarmSignalContext SignalContext_init s with
  | Ok c => c | Err _ => SignalContext_init end.
Definition markets : list (MarketState double) := [market 1 3; market 2 4; market 3 5].
Definition run (s : SignalDef double) :=
  run_ticks table s markets (SetStandaloneParameters (prewarmed s) [flit 5 1 : double]).
(** [kalman1d(mid(AAPL), 0, 1e-20)]: a covariance far below the guard. *)
Definition sharp : SignalDef double :=
  MkSignal "k" (call "kalman1d" [price; NumberLiteral noloc (fint 0); NumberLiteral noloc (flit 1 20)]).
End ForwardExample.
#[local] Existing Instance ForwardExample.machine.

Lemma gradient_forward_values_witness :
  match ForwardExample.run (ForwardExample.ready ForwardExample.learned) with
  | Ok (vs, c1) => length vs = 3 /\ exists gs c2,
      gradient_ticks Example.table
        (ForwardExample.ready ForwardExample.learned) 0 ForwardExample.markets
        (SetStandaloneParameters (ForwardExample.prewarmed (ForwardExample.ready ForwardExample.learned))
           [flit 5 1 : double]) = Ok (gs, c2) /\
      map vg_value gs = vs /\ forget_ema (nodes c2) = forget_ema (nodes c1)
  | Err _ => False
  end.
Proof.
  assert (Hlen : rmap (fun r => length (fst r)) (ForwardExample.run (ForwardExample.ready ForwardExample.learned)) = Ok 3)
    by (vm_compute; reflexivity).
  destruct (ForwardExample.run (ForwardExample.ready ForwardExample.learned)) as [[vs c1]|] eqn:E; [|discriminate].
  split; [by injection Hlen|].
  apply (gradient_forward_values Example.table
    (ForwardExample.ready ForwardExample.learned) 0 SignalContext_init
    (ForwardExample.prewarmed (ForwardExample.ready ForwardExample.learned))
    [flit 5 1 : double] ForwardExample.markets vs c1).
  - vm_compute. reflexivity.
  - reflexivity.
  - vm_compute. reflexivity.
  - simpl. lia.
  - exact E.
Defined.

(** on [kalman1d] the forward gradient interpreter does not compute the
    signal: it gives up below a denominator of 1e-18 where [Kalman1dStep]
    does below 0.  With process noise 0 and measurement noise 1e-20, on mid
    prices 2, 3 and 4, the interpreter's estimates follow the prices with
    gains 1/2 and 1/3; the gradient interpreter stays at the first price. *)
Theorem gradient_kalman1d_differs :
  let s := ForwardExample.ready ForwardExample.sharp in
  let c := SetStandaloneParameters (ForwardExample.prewarmed s) [flit 5 1 : double] in
  let values := rmap fst (ForwardExample.run s) in
  let gradient_values := rmap (fun r => map vg_value (fst r))
    (gradient_ticks Example.table s 0 ForwardExample.markets c) in
  values = Ok [fint 2; flit 25 1; fint 3] /\
  gradient_values = Ok [fint 2; fint 2; fint 2].
Proof. split; vm_compute; reflexivity. Qed.
