(* ===== verification/WindowGradientFacts.v ===== *)
(** * The gradient entry points compute derivatives: the window statistics

    rolling_std and zscore carry the derivatives of the running mean and of
    the sum of squared deviations; rolling_corr and rolling_beta those of
    the running sums; rolling_min and rolling_max the derivative of the
    sample at the front of the deque.  In exact arithmetic the returned
    gradients are the derivatives of the operators, with one exception: a
    slide of rolling_std clamps a negative derivative to 0. *)

From Stdlib Require Import Reals Lra.
From S2P Require Import Prelude Errors Arith RealArith Calculus Rolling RollingFacts PairFacts Context Interpreter JitRuntime JitFacts Gradient GradientFacts.

Notation ectx := (SignalContext xreal xreal).

(** ** The derivative of the sum of squared deviations *)

Section cov.
Local Open Scope R_scope.

Lemma Wcov_perm w w' : w ≡ₚ w' -> Wcov w = Wcov w'.
Proof.
  intros Hp. unfold Wcov, Wsum. rewrite (Permutation_length Hp).
  by repeat (rewrite (Rsum_perm _ _ (Permutation_map _ Hp))).
Qed.

Lemma Rmean_map_snoc {A} (f : A -> R) w a :
  Rmean (map f (w ++ [a])) = (Rsum (map f w) + f a) / INR (S (length w)).
Proof.
  unfold Rmean. rewrite map_app, Rsum_app. cbn [map]. rewrite Rsum_cons.
  rewrite length_app, !length_map. cbn [length]. rewrite Nat.add_1_r. cbn [Rsum foldr].
  by rewrite Rplus_0_r.
Qed.

Lemma Wcov_snoc w a b :
  2 * Wcov (w ++ [(a, b)]) = 2 * Wcov w
    + (b - Rmean (map snd w)) * (a - Rmean (map fst (w ++ [(a, b)])))
    + (a - Rmean (map fst w)) * (b - Rmean (map snd (w ++ [(a, b)]))).
Proof.
  rewrite !Rmean_map_snoc. unfold Wcov. rewrite !Wsum_snoc. unfold Wsum.
  cbn [fst snd]. rewrite length_app. cbn [length]. rewrite Nat.add_1_r, S_INR.
  change (map (fun p => fst p) w) with (map fst w).
  change (map (fun p => snd p) w) with (map snd w).
  destruct w as [|p w].
  { unfold Rmean, Rsum. simpl. rewrite !Rplus_0_l. unfold Rdiv. rewrite !Rmult_0_l, !Rinv_1. ring. }
  unfold Rmean. rewrite !length_map. set (w' := p :: w).
  assert (INR (length w') <> 0) by (by apply not_0_INR).
  assert (INR (length w') + 1 <> 0) by (pose proof (pos_INR (length w')); lra).
  field. lra.
Qed.

Lemma Wcov_remove y y' t :
  t <> [] ->
  let w := (y, y') :: t in
  2 * Wcov t = 2 * Wcov w
    - (y' - Rmean (map snd w)) * (y - Rmean (map fst t))
    - (y - Rmean (map fst w)) * (y' - Rmean (map snd t)).
Proof.
  intros Ht w. assert (Hp : w ≡ₚ t ++ [(y, y')]) by (apply Permutation_cons_append).
  rewrite (Wcov_perm _ _ Hp), Wcov_snoc.
  rewrite (Rmean_perm (map snd w) (map snd (t ++ [(y, y')]))) by (by apply Permutation_map).
  rewrite (Rmean_perm (map fst w) (map fst (t ++ [(y, y')]))) by (by apply Permutation_map).
  ring.
Qed.

(** Samples paired with their derivatives. *)
Definition dual (x0 : R) (s : Curve) : R * R := (curve s x0, slope s).

Lemma fst_dual x0 w : map fst (map (dual x0) w) = map (fun s => curve s x0) w.
Proof. by rewrite map_map. Qed.
Lemma snd_dual x0 w : map snd (map (dual x0) w) = map slope w.
Proof. by rewrite map_map. Qed.

Lemma Rsum_scale {A} (f : A -> R) c w : Rsum (map (fun a => c * f a) w) = c * Rsum (map f w).
Proof. induction w as [|a w IH]; simpl; [ring|]. fold (Rsum (map f w)). unfold Rsum in *. rewrite IH. ring. Qed.

Lemma derivable_Rssd x0 (w : list Curve) :
  w <> [] -> Forall (tangent x0) w ->
  derivable_pt_lim (fun x => Rssd (map (fun s => curve s x) w)) x0
    (2 * Wcov (map (dual x0) w)).
Proof.
  intros Hne HF. pose proof (derivable_Rsum x0 curve slope w HF) as HS.
  assert (HQ : derivable_pt_lim (fun x => Rsum (map (fun s => curve s x * curve s x) w)) x0
                 (Rsum (map (fun s => slope s * curve s x0 + curve s x0 * slope s) w))).
  { apply (derivable_Rsum x0 (fun s x => curve s x * curve s x)).
    apply Forall_impl with (1 := HF). intros s Hs. by apply derivable_prod. }
  pose proof (derivable_over x0 _ _ (INR (length w)) (derivable_prod x0 _ _ _ _ HS HS)) as HM.
  eapply derivable_eq; [exact (derivable_pt_lim_minus _ _ x0 _ _ HQ HM)| |].
  - intros x. unfold minus_fct. rewrite Rssd_closed by (by destruct w).
    rewrite length_map, map_map. f_equal; [|by rewrite <- Rsqr_pow2].
    f_equal. apply map_ext. intros s. ring.
  - unfold Wcov, Wsum. rewrite !map_map, length_map. cbn [dual fst snd].
    rewrite (map_ext (fun s => slope s * curve s x0 + curve s x0 * slope s)
      (fun s => 2 * (curve s x0 * slope s))) by (intros; ring).
    rewrite Rsum_scale. change (map (fun x => slope x) w) with (map slope w).
    unfold Rdiv. ring.
Qed.
End cov.

(** ** rolling_std and zscore: the sensitivity state *)

Section std.
Local Open Scope R_scope.
Variable x0 : R.

Notation value := (fun s => curve s x0).
Notation gstate := (RollingStdSensitivityState xreal).

(** The derivative of m2 over a window. *)
Definition m2_slope (w : list Curve) : R := 2 * Wcov (map (dual x0) w).

Lemma m2_slope_snoc w a :
  m2_slope (w ++ [a]) = m2_slope w
    + (slope a - Rmean (map slope w)) * (value a - Rmean (map value (w ++ [a])))
    + (value a - Rmean (map value w)) * (slope a - Rmean (map slope (w ++ [a]))).
Proof.
  unfold m2_slope. rewrite map_app. cbn [map]. unfold dual at 2. rewrite Wcov_snoc.
  change ([(curve a x0, slope a)]) with (map (dual x0) [a]).
  by rewrite <- map_app, !fst_dual, !snd_dual.
Qed.

Lemma m2_slope_remove y t :
  t <> [] ->
  m2_slope t = m2_slope (y :: t)
    - (slope y - Rmean (map slope (y :: t))) * (value y - Rmean (map value t))
    - (value y - Rmean (map value (y :: t))) * (slope y - Rmean (map slope t)).
Proof.
  intros Ht. unfold m2_slope.
  pose proof (Wcov_remove (value y) (slope y) (map (dual x0) t) ltac:(by destruct t)) as HW.
  cbv zeta in HW. change ((value y, slope y) :: map (dual x0) t) with (map (dual x0) (y :: t)) in HW.
  by rewrite !fst_dual, !snd_dual in HW.
Qed.

Lemma m2_slope_single a : m2_slope [a] = 0.
Proof. unfold m2_slope, Wcov, Wsum. simpl. field. Qed.

(** [max(0, m)], as the code clamps it. *)
Definition clamp0 (m : R) : R := if Rltb m 0 then 0 else m.

Lemma std_sens_slide_exact (st : RingStatsState xreal xreal) (g : gstate) y t a :
  capacity st = S (length t) -> count st = S (length t) ->
  mean st = Some (Rmean (map value (y :: t))) ->
  s_mean g = Some (Rmean (map slope (y :: t))) ->
  let r := std_sens_slide st (Some (Rmean (map value (t ++ [a])))) (at_ x0 y) (at_ x0 a)
             (slope_ a) (slope_ y) g in
  fst r = Some (Rmean (map slope (t ++ [a]))) /\
  (s_m2 g = Some (m2_slope (y :: t)) -> snd r = Some (clamp0 (m2_slope (t ++ [a])))).
Proof.
  intros Hk Hc Hm Hgm. unfold std_sens_slide. rewrite Hk, Hc, Hm, Hgm.
  change (@dbl xreal xreal exact) with Fp_xreal. change (@ldb xreal xreal exact) with Fp_xreal.
  cbn [ext exact]. unfold at_, slope_.
  destruct t as [|z t].
  - cbn [length Nat.leb fst snd app map]. split; [unfold Rmean; simpl; f_equal; field|].
    intros _. rewrite fint_xreal, m2_slope_single. unfold clamp0.
    by destruct (Rltb_spec 0 0); [lra|].
  - cbn [length Nat.leb]. set (t' := z :: t).
    change (S (S (length t))) with (S (length t')).
    assert (Hn : INR (S (length t')) - 1 <> 0)
      by (rewrite S_INR; pose proof (pos_INR (length t)); unfold t'; cbn [length];
          rewrite S_INR; lra).
    assert (INR (S (length t')) <> 0) by (by apply not_0_INR).
    assert (HR : forall f : Curve -> R, Rmean (map f (y :: t')) - (f y - Rmean (map f (y :: t')))
        / (INR (S (length t')) - 1) = Rmean (map f t')).
    { intros f. pose proof (Rmean_remove (f y) (map f t') ltac:(done)) as HR.
      cbn [length] in HR. rewrite length_map in HR. exact (eq_sym HR). }
    assert (HS : forall f : Curve -> R, Rmean (map f t') + (f a - Rmean (map f t'))
        / INR (S (length t')) = Rmean (map f (t' ++ [a]))).
    { intros f. rewrite map_app. cbn [map]. rewrite Rmean_snoc. by rewrite length_map. }
    cbv zeta. xreal. rewrite (HR slope). rewrite (HR value), (HS slope). cbn [fst snd].
    split; [done|]. intros ->. xreal.
    rewrite <- (m2_slope_remove y t') by done. rewrite <- m2_slope_snoc.
    unfold clamp0. by destruct (Rltb (m2_slope (t' ++ [a])) 0).
Qed.

Lemma std_sens_add_exact (st : RingStatsState xreal xreal) (g : gstate) w a :
  count st = S (length w) -> mean st = Some (Rmean (map value w)) ->
  s_mean g = Some (Rmean (map slope w)) ->
  let r := std_sens_add st (Some (Rmean (map value (w ++ [a])))) (at_ x0 a) (slope_ a) g in
  fst r = Some (Rmean (map slope (w ++ [a]))) /\
  (s_m2 g = Some (m2_slope w) -> snd r = Some (m2_slope (w ++ [a]))).
Proof.
  intros Hc Hm Hgm. unfold std_sens_add. rewrite Hc, Hm, Hgm.
  change (@dbl xreal xreal exact) with Fp_xreal. change (@ldb xreal xreal exact) with Fp_xreal.
  assert (INR (S (length w)) <> 0) by (by apply not_0_INR).
  assert (HS : Rmean (map slope w) + (slope a - Rmean (map slope w))
      / INR (S (length w)) = Rmean (map slope (w ++ [a]))).
  { rewrite map_app. cbn [map]. rewrite Rmean_snoc. by rewrite length_map. }
  cbn [ext exact]. unfold at_, slope_. cbv zeta. xreal. rewrite HS. cbn [fst snd].
  split; [done|]. intros ->. xreal. rewrite m2_slope_snoc. f_equal. ring.
Qed.

Definition dualx (s : Curve) : xreal * xreal := (at_ x0 s, slope_ s).

Variable period : nat.
Hypothesis period_pos : (0 < period)%nat.

(** The two states after the samples [l]: the rings are aligned, and the
    means are those of the window. *)
Record std_at (l : list Curve) (st : RingStatsState xreal xreal) (g : gstate) : Prop := {
  sa_ring : ring_at period value l st;
  sa_cap : s_capacity g = period;
  sa_len : length (s_buffer g) = period;
  sa_head : s_head g = head st;
  sa_zip : ring_rep period (zip (buffer st) (s_buffer g)) (head st) (count st) (map dualx l);
  sa_mean : s_mean g = Some (Rmean (map slope (last_n period l)));
}.

(** The derivative of m2 is that of the window. *)
Definition m2_exact (l : list Curve) (g : gstate) : Prop :=
  s_m2 g = Some (m2_slope (last_n period l)).

(** The two statements of [std_grad_step] before the refresh. *)
Definition std_push (a : Curve) (st : RingStatsState xreal xreal) (g : gstate) :=
  '(slid, st, g) <- std_grad_stats (at_ x0 a) (slope_ a) st g;;
  '(st, g) <- std_grad_store (at_ x0 a) (slope_ a) st g;;
  Ok (slid, st, g).

Lemma std_at_bounds l st g :
  std_at l st g -> length (buffer st) = period /\ (head st < period)%nat /\
  count st = Nat.min period (length l) /\ capacity st = period.
Proof using.
  intros Hat. destruct (re_holds _ _ _ (sa_ring _ _ _ Hat)) as [Hc Hr].
  pose proof Hr as [_ Hl Hh Hcount _ _]. by rewrite length_map in Hcount.
Qed.

(** Storing a pair in the aligned rings. *)
Lemma std_zip_step l st g a (st' : RingStatsState xreal xreal) (g' : gstate) :
  std_at l st g ->
  buffer st' = <[head st := at_ x0 a]> (buffer st) ->
  s_buffer g' = <[head st := slope_ a]> (s_buffer g) ->
  head st' = (S (head st) mod period)%nat ->
  count st' = (if (count st =? period)%nat then count st else S (count st)) ->
  ring_rep period (zip (buffer st') (s_buffer g')) (head st') (count st') (map dualx (l ++ [a])).
Proof using.
  intros Hat -> -> -> ->. rewrite map_app. cbn [map].
  pose proof (ring_rep_step _ _ _ _ _ (dualx a) (sa_zip _ _ _ Hat)) as Hz.
  by rewrite <- (insert_zip_with pair (buffer st) (s_buffer g) (head st) (at_ x0 a) (slope_ a)).
Qed.

Lemma std_push_fill l st g a :
  std_at l st g -> (length l < period)%nat ->
  exists (st' : RingStatsState xreal xreal) (g' : gstate), std_push a st g = Ok (false, st', g') /\ std_at (l ++ [a]) st' g' /\
    s_slides g' = s_slides g /\ (m2_exact l g -> m2_exact (l ++ [a]) g').
Proof.
  intros Hat Hl. destruct (std_at_bounds _ _ _ Hat) as (Hlb & Hh & Hcount & Hc).
  destruct (ring_at_window _ _ _ _ (sa_ring _ _ _ Hat)) as (Hcw & _ & Hm & _ & _ & Hlw).
  destruct (ring_at_step _ _ _ _ a (sa_ring _ _ _ Hat)) as (st' & Est & Hst').
  change (Some (value a)) with (at_ x0 a) in Est.
  assert (Hne : count st <> capacity st) by lia.
  rewrite RingStatsStep_fill in Est by lia. cbv zeta in Est.
  unfold std_push, std_grad_stats. destruct (Nat.eqb_spec (count st) (capacity st)); [done|].
  set (st1 := MkRing (buffer st) (capacity st) (head st) (S (count st)) (sum st) (mean st)
     (m2 st) (slides_since_refresh st)) in *.
  assert (Hmean : mean (RingStatsUpdateMeanM2OnAdd st1 (at_ x0 a))
                  = Some (Rmean (map value (last_n period l ++ [a])))).
  { rewrite <- last_n_snoc_short by done.
    destruct (ring_at_window _ _ _ _ Hst') as (_ & _ & <- & _). injection Est as <-. done. }
  rewrite Hmean.
  destruct (std_sens_add_exact st1 g (last_n period l) a) as [Hg1 Hg2];
    [cbn [count st1]; rewrite Hcw, length_map; done|exact Hm|apply Hat|].
  destruct (std_sens_add st1 _ _ _ g) as [mean' m2'] eqn:Esens. cbn [fst snd] in *.
  unfold std_grad_store. cbn [s_buffer s_head rbind]. rewrite (sa_len _ _ _ Hat).
  destruct (Nat.eqb_spec period 0); [lia|]. rewrite (sa_head _ _ _ Hat).
  rewrite !set_idx_Ok by (rewrite ?(sa_len _ _ _ Hat); simpl; lia). cbn [rbind].
  injection Est as Est. exists st'. eexists. split; [by rewrite <- Est|].
  split; [|split; [done|]].
  - split.
    + exact Hst'.
    + apply Hat.
    + cbn [s_buffer]. rewrite length_insert. apply Hat.
    + rewrite <- Est. simpl. by rewrite (sa_cap _ _ _ Hat), Hc.
    + apply (std_zip_step l st g a); try done; rewrite <- Est; simpl; rewrite ?Hc; try done.
      by destruct (Nat.eqb_spec (count st) period); [lia|].
    + cbn [s_mean]. rewrite Hg1. by rewrite last_n_snoc_short.
  - intros Hm2. unfold m2_exact. cbn [s_m2]. rewrite last_n_snoc_short by done. by apply Hg2.
Qed.

Lemma ring_at_slide l st old a slides :
  ring_at period value l st -> buffer st !! head st = Some old -> count st = capacity st ->
  ring_at period value (l ++ [a]) (slid_ring st old (at_ x0 a) slides).
Proof using.
  intros Hat Ho Hf. unfold ring_at. rewrite map_app. by apply slid_ring_exact.
Qed.

(** The samples about to leave a full window. *)
Lemma std_oldest l st g :
  std_at l st g -> (period <= length l)%nat ->
  exists y t, last_n period l = y :: t /\ S (length t) = period /\
    buffer st !! head st = Some (at_ x0 y) /\ s_buffer g !! head st = Some (slope_ y).
Proof.
  intros Hat Hle. destruct (std_at_bounds _ _ _ Hat) as (Hlb & Hh & Hcount & Hc).
  destruct (lookup_lt_is_Some_2 (zip (buffer st) (s_buffer g)) (head st)) as [[o o'] Ho].
  { rewrite length_zip_with, (sa_len _ _ _ Hat). lia. }
  destruct (ring_rep_oldest _ _ _ _ _ _ (sa_zip _ _ _ Hat)
    ltac:(by rewrite length_map) Ho) as [Hold _].
  rewrite last_n_map in Hold. pose proof (length_last_n period l) as Hlen.
  destruct (last_n period l) as [|y t]; [done|]. exists y, t.
  simpl in Hlen. cbn [map dualx] in Hold. injection Hold as E1 E2.
  rewrite lookup_zip_with in Ho.
  destruct (buffer st !! head st), (s_buffer g !! head st); try done.
  injection Ho as -> ->. split_and!; [done|lia| |]; by rewrite ?E1, ?E2.
Qed.

Lemma OnSlide_frame (st : RingStatsState xreal xreal) old x :
  let u := RingStatsUpdateMeanM2OnSlide st old x in
  buffer u = buffer st /\ capacity u = capacity st /\ head u = head st /\
  count u = count st /\ sum u = sum st /\
  slides_since_refresh u = slides_since_refresh st.
Proof using. unfold RingStatsUpdateMeanM2OnSlide. by destruct (capacity st <=? 1)%nat. Qed.

Lemma std_push_slide l st g a :
  std_at l st g -> (period <= length l)%nat ->
  exists (st' : RingStatsState xreal xreal) (g' : gstate),
    std_push a st g = Ok (true, st', g') /\ std_at (l ++ [a]) st' g' /\
    s_slides g' = s_slides g /\
    (m2_exact l g -> s_m2 g' = Some (clamp0 (m2_slope (last_n period (l ++ [a]))))).
Proof.
  intros Hat Hl. destruct (std_at_bounds _ _ _ Hat) as (Hlb & Hh & Hcount & Hc).
  destruct (ring_at_window _ _ _ _ (sa_ring _ _ _ Hat)) as (_ & _ & Hm & _ & _ & _).
  destruct (std_oldest _ _ _ Hat Hl) as (y & t & Hw & Ht & Ho & Ho').
  assert (Hf : count st = capacity st) by lia.
  assert (Hw' : last_n period (l ++ [a]) = t ++ [a])
    by (by rewrite last_n_snoc, Hw by lia).
  pose proof (ring_at_slide l st _ a (slides_since_refresh st) (sa_ring _ _ _ Hat) Ho Hf)
    as Hst'.
  set (st' := slid_ring st (at_ x0 y) (at_ x0 a) (slides_since_refresh st)) in *.
  destruct (ring_at_window _ _ _ _ Hst') as (_ & _ & Hmean & _). rewrite Hw' in Hmean.
  destruct (std_sens_slide_exact st g y t a) as [Hg1 Hg2]; [lia|lia| | |].
  { by rewrite Hm, Hw. }
  { by rewrite (sa_mean _ _ _ Hat), Hw. }
  rewrite <- Hmean in Hg1, Hg2.
  unfold std_push, std_grad_stats. rewrite (sa_head _ _ _ Hat).
  destruct (Nat.eqb_spec (count st) (capacity st)); [|done].
  unfold at_idx. rewrite Ho, Ho'. cbn [rbind].
  match goal with |- context [std_sens_slide st ?m _ _ _ _ g] => change m with (mean st') end.
  destruct (std_sens_slide st (mean st') _ _ _ _ g) as [mean' m2'] eqn:Esens.
  cbn [fst snd] in *.
  unfold std_grad_store. cbn [s_buffer s_head rbind]. rewrite (sa_len _ _ _ Hat).
  destruct (Nat.eqb_spec period 0); [lia|].
  match goal with |- context [RingStatsUpdateMeanM2OnSlide ?s ?o ?x] =>
    destruct (OnSlide_frame s o x) as (-> & -> & -> & -> & -> & ->) end.
  rewrite !set_idx_Ok by (rewrite ?(sa_len _ _ _ Hat); simpl; lia). cbn [rbind].
  exists st'. eexists. split; [done|]. split; [|split; [done|]].
  - split.
    + exact Hst'.
    + apply Hat.
    + cbn [s_buffer]. rewrite length_insert. apply Hat.
    + simpl. by rewrite (sa_cap _ _ _ Hat), Hc.
    + apply (std_zip_step l st g a); try done; simpl; rewrite ?Hc; try done.
      by rewrite Hf, Hc, Nat.eqb_refl.
    + cbn [s_mean]. by rewrite Hg1, Hw'.
  - unfold m2_exact. cbn [s_m2]. rewrite Hw, Hw'. exact Hg2.
Qed.

(** The refresh recomputes the statistics of the window from the rings. *)
Lemma sum_long_exact (w : list R) acc :
  foldl (fun acc x => fadd acc x) (Some acc : xreal) (map Some w) = Some (acc + Rsum w).
Proof using.
  revert acc. induction w as [|x w IH]; intros acc; simpl; [f_equal; ring|].
  rewrite IH. f_equal. fold (Rsum w). ring.
Qed.

Lemma sum_dev_products_exact (w : list (R * R)) (xs gs : list xreal) m m' :
  zip xs gs = map x2 w ->
  sum_dev_products (D:=xreal) (L:=xreal) (Some m) (Some m') xs gs
  = Some (Rsum (map (fun p => 2 * (fst p - m) * (snd p - m')) w)).
Proof using.
  intros Hz. unfold sum_dev_products. rewrite Hz. clear Hz. cbn [ext exact].
  change (@ldb xreal xreal exact) with Fp_xreal. rewrite !fint_xreal.
  rewrite <- (Rplus_0_l (Rsum _)). generalize 0 as acc.
  induction w as [|[x y] w IH]; intros acc.
  - simpl. f_equal. ring.
  - cbn [map foldl x2 fst snd]. rewrite !fsub_xreal, !fmul_xreal, fadd_xreal.
    rewrite IH, Rsum_cons. cbn [fst snd]. f_equal. ring.
Qed.

Lemma Rsum_dev_products (w : list (R * R)) :
  w <> [] ->
  Rsum (map (fun p => 2 * (fst p - Rmean (map fst w)) * (snd p - Rmean (map snd w))) w)
  = 2 * Wcov w.
Proof using.
  intros Hne. assert (Hn : INR (length w) <> 0) by (by destruct w; [|apply not_0_INR]).
  assert (HE : forall m m', Rsum (map (fun p => 2 * (fst p - m) * (snd p - m')) w) =
    2 * (Wsum Rmult w - m' * Rsum (map fst w) - m * Rsum (map snd w)
         + INR (length w) * m * m')).
  { intros m m'. clear. induction w as [|[x y] w IH].
    - unfold Wsum. simpl. ring.
    - rewrite Wsum_cons. cbn [map length]. rewrite !Rsum_cons, IH, S_INR. cbn [fst snd]. ring. }
  rewrite HE. unfold Wcov, Rmean. rewrite !length_map.
  change (Wsum (fun x _ => x) w) with (Rsum (map fst w)).
  change (Wsum (fun _ y => y) w) with (Rsum (map snd w)). by field.
Qed.

Lemma std_refresh_exact l st g :
  std_at l st g -> l <> [] ->
  let st' := RingStatsRefreshMeanM2FromBuffer st in
  std_at l st' (RollingStdRefreshSensitivity g st') /\
  m2_exact l (RollingStdRefreshSensitivity g st').
Proof.
  intros Hat Hne st'.
  assert (Hst' : ring_at period value l st')
    by (apply ring_refresh_exact; [apply Hat|by destruct l]).
  destruct (ring_at_window _ _ _ _ Hst') as (Hc & _ & Hm & _ & _ & Hl).
  pose proof (ring_rep_contents _ _ _ _ _ (sa_zip _ _ _ Hat)) as Hz.
  rewrite last_n_map in Hz. change dualx with (fun s => x2 (dual x0 s)) in Hz.
  rewrite <- (map_map (dual x0) x2) in Hz.
  apply Permutation_map_inv in Hz as (w & Hw & Hpw).
  assert (Hlw : length w = count st').
  { rewrite Hc, length_map, <- (Permutation_length Hpw), length_map. done. }
  destruct (std_at_bounds _ _ _ Hat) as (Hlb & _ & Hcount & _).
  change (count st) with (count st') in *.
  rewrite zip_with_take in Hw.
  assert (Hg : take (count st') (s_buffer g) = map Some (map snd w)).
  { rewrite map_map. change (fun x => Some (snd x)) with (fun p => snd (x2 p)).
    rewrite <- (map_map x2 snd), <- Hw. symmetry. apply snd_zip.
    rewrite !length_take, (sa_len _ _ _ Hat), Hlb. done. }
  assert (Hlast : length l <> 0%nat) by (by destruct l).
  assert (Hwne : w <> []) by (intros ->; cbn [length] in Hlw; lia).
  assert (Hcn : INR (count st') <> 0) by (apply not_0_INR; lia).
  assert (Hmean' : fdiv (sum_long (D:=xreal) (L:=xreal) (take (count st') (s_buffer g))) (fnat (count st'))
    = Some (Rmean (map slope (last_n period l)))).
  { unfold sum_long. rewrite Hg. change (@ldb xreal xreal exact) with Fp_xreal.
    rewrite fint_xreal, sum_long_exact, fnat_xreal, fdiv_xreal by done. f_equal.
    rewrite Rplus_0_l, <- snd_dual with (x0 := x0).
    rewrite (Rmean_perm _ _ (Permutation_map snd Hpw)). unfold Rmean. by rewrite length_map, Hlw. }
  split.
  - split; [done|apply Hat|apply Hat|apply Hat|apply Hat|].
    unfold RollingStdRefreshSensitivity. cbn [s_mean]. exact Hmean'.
  - unfold m2_exact, RollingStdRefreshSensitivity. cbn [s_m2].
    change (@ldb xreal xreal exact) with Fp_xreal. rewrite Hmean', Hm.
    rewrite (sum_dev_products_exact w) by exact Hw. f_equal. unfold m2_slope. rewrite (Wcov_perm _ _ Hpw).
    rewrite <- Rsum_dev_products by done. 
    rewrite <- (Rmean_perm _ _ (Permutation_map fst Hpw)), fst_dual.
    by rewrite <- (Rmean_perm _ _ (Permutation_map snd Hpw)), snd_dual.
Qed.
End std.

(** ** rolling_std and zscore: a tick *)

Section std_step.
Local Open Scope R_scope.
Variables (x0 : R) (period : nat).
Hypothesis Hp2 : (1 < period)%nat.

Notation value := (fun s => curve s x0).
Notation gstate := (RollingStdSensitivityState xreal).

(** No derivative of m2 was clamped since the statistics were recomputed
    last: every window that slid in after that tick has a derivative >= 0.
    The statistics are recomputed every [period] ticks. *)
Definition no_clamp (l : list Curve) : Prop :=
  forall k, (period < k <= length l)%nat -> (period * (length l / period) < k)%nat ->
    0 <= m2_slope x0 (last_n period (take k l)).

Record std_inv (l : list Curve) (st : RingStatsState xreal xreal) (g : gstate) : Prop := {
  si_at : std_at x0 period l st g;
  si_slides : s_slides g = if (length l <=? period)%nat then 0%nat else (length l mod period)%nat;
  si_m2 : no_clamp l -> m2_exact x0 period l g;
}.

Lemma mod_succ_refresh n :
  (n mod period = period - 1)%nat -> (S n mod period = 0)%nat.
Proof.
  intros Hm. rewrite (Nat.div_mod_eq n period), Hm.
  replace (S (period * (n / period) + (period - 1)))%nat with ((1 + n / period) * period)%nat
    by nia.
  apply Nat.Div0.mod_mul.
Qed.

Lemma mod_succ n :
  (n mod period <> period - 1)%nat ->
  (S n mod period = S (n mod period) /\ S n / period = n / period)%nat.
Proof.
  intros Hm. pose proof (Nat.mod_upper_bound n period ltac:(lia)).
  pose proof (Nat.div_mod_eq n period).
  assert (Hs : (S n = period * (n / period) + S (n mod period))%nat) by lia.
  split; [symmetry; apply (Nat.mod_unique _ _ (n / period))|
          symmetry; apply (Nat.div_unique _ _ _ (S (n mod period)))]; lia.
Qed.

Lemma std_inv_fresh :
  std_inv [] (RingStatsPrepare period RingStatsState_init)
    (StdSensPrepare period RollingStdSensitivityState_init).
Proof.
  assert (Hc : s_capacity (RollingStdSensitivityState_init (D:=xreal) (L:=xreal)) <> period)
    by (simpl; lia).
  unfold StdSensPrepare. rewrite decide_False by exact Hc.
  unfold RingStatsPrepare. rewrite decide_False by (simpl; lia).
  split; [split|done|]; cbn [s_capacity s_buffer s_head s_mean s_slides head buffer count].
  - pose proof (ring_exact_fresh period ltac:(lia)) as Hf.
    unfold RingStatsPrepare in Hf. by rewrite decide_False in Hf by (simpl; lia).
  - done.
  - apply length_replicate.
  - done.
  - apply ring_rep_nil; [lia|]. rewrite length_zip_with, !length_replicate. lia.
  - change (@ldb xreal xreal exact) with Fp_xreal. rewrite fint_xreal. f_equal.
    symmetry. apply Rmean_nil.
  - intros _. unfold m2_exact. cbn [s_m2]. change (@ldb xreal xreal exact) with Fp_xreal.
    rewrite fint_xreal. f_equal. unfold m2_slope, Wcov, Wsum, last_n. simpl.
    unfold Rdiv. ring.
Qed.

(** One tick before the read. *)
Definition std_advance (a : Curve) (st : RingStatsState xreal xreal) (g : gstate)
  : Res (RingStatsState xreal xreal * gstate) :=
  '(slid, st, g) <- std_push x0 a st g;;
  Ok (if slid : bool then std_grad_refresh st g else (st, g)).

Lemma std_advance_inv l st g a :
  std_inv l st g ->
  exists st' g', std_advance a st g = Ok (st', g') /\ std_inv (l ++ [a]) st' g'.
Proof.
  intros [Hat Hs Hm2]. assert (Hlen : length (l ++ [a]) = S (length l))
    by (rewrite length_app; simpl; lia).
  unfold std_advance. destruct (le_lt_dec period (length l)) as [Hle|Hlt].
  - destruct (std_push_slide x0 period ltac:(lia) _ _ _ a Hat Hle)
      as (st1 & g1 & -> & Hat1 & Hs1 & Hm1). cbn [rbind].
    assert (Hs2 : s_slides g1 = (length l mod period)%nat).
    { rewrite Hs1, Hs. destruct (Nat.leb_spec (length l) period); [|done].
      replace (length l) with period by lia. by rewrite Nat.Div0.mod_same. }
    unfold std_grad_refresh. cbn [s_capacity s_slides]. rewrite (sa_cap _ _ _ _ _ Hat1), Hs2.
    rewrite (proj2 (Nat.ltb_lt 1 period) Hp2), andb_true_r.
    set (st2 := MkRing _ _ _ _ _ _ _ _). set (g2 := MkStdSens _ _ _ _ _ _ (S _)).
    assert (Hat2 : std_at x0 period (l ++ [a]) st2 g2) by (by destruct Hat1 as [[? ?] ? ? ? ? ?]; split; [split|..]).
    destruct (Nat.leb_spec period (S (length l mod period))) as [Hr|Hr].
    + destruct (std_refresh_exact x0 period ltac:(lia) _ _ _ Hat2) as [Hat3 Hm3]; [by destruct l|].
      eexists _, _. split; [done|]. split; [done| |by intros _].
      rewrite Hlen. destruct (Nat.leb_spec (S (length l)) period); [done|].
      rewrite mod_succ_refresh; [done|].
      pose proof (Nat.mod_upper_bound (length l) period ltac:(lia)). lia.
    + destruct (mod_succ (length l)) as [Em Ed]; [lia|].
      exists st2, g2. split; [done|]. split; [done| |].
      * rewrite Hlen. destruct (Nat.leb_spec (S (length l)) period); [lia|]. by rewrite Em.
      * intros Hok. unfold m2_exact. change (s_m2 g2) with (s_m2 g1). rewrite Hm1.
        { unfold clamp0. f_equal. destruct (Rltb_spec (m2_slope x0 (last_n period (l ++ [a]))) 0);
            [|done].
          specialize (Hok (length (l ++ [a]))). rewrite take_ge in Hok by lia.
          pose proof (Nat.div_mod_eq (S (length l)) period). rewrite Hlen in Hok.
          specialize (Hok ltac:(lia) ltac:(lia)). lra. }
        apply Hm2. intros k Hk Hk2. specialize (Hok k). rewrite Hlen, Ed in Hok.
        rewrite take_app_le in Hok by lia. apply Hok; lia.
  - destruct (std_push_fill x0 period ltac:(lia) _ _ _ a Hat Hlt)
      as (st1 & g1 & -> & Hat1 & Hs1 & Hm1). cbn [rbind].
    exists st1, g1. split; [done|]. split; [done| |].
    + rewrite Hs1, Hs, Hlen. destruct (Nat.leb_spec (length l) period),
        (Nat.leb_spec (S (length l)) period); try lia; done.
    + intros _. apply Hm1, Hm2. intros k Hk. lia.
Qed.

(** A slide whose derivative of m2 is negative stores 0. *)
Lemma std_advance_clamped l st g a :
  std_inv l st g -> (period <= length l)%nat -> no_clamp l ->
  (S (length l) mod period <> 0)%nat -> m2_slope x0 (last_n period (l ++ [a])) < 0 ->
  exists st' g', std_advance a st g = Ok (st', g') /\ std_at x0 period (l ++ [a]) st' g' /\
    s_m2 g' = Some 0.
Proof.
  intros [Hat Hs Hm2] Hle Hok Hnr Hneg.
  destruct (std_push_slide x0 period ltac:(lia) _ _ _ a Hat Hle)
    as (st1 & g1 & Epush & Hat1 & Hs1 & Hm1).
  unfold std_advance. rewrite Epush. cbn [rbind]. unfold std_grad_refresh.
  cbn [s_capacity s_slides]. rewrite (sa_cap _ _ _ _ _ Hat1), Hs1, Hs.
  assert (E : (period <=? S (if length l <=? period then 0 else length l mod period) = false)%nat).
  { apply Nat.leb_gt. destruct (Nat.leb_spec (length l) period); [lia|].
    pose proof (Nat.mod_upper_bound (length l) period ltac:(lia)).
    assert (length l mod period <> period - 1)%nat; [|lia].
    intros Hr. by apply Hnr, mod_succ_refresh. }
  rewrite E. cbn [andb]. eexists _, _. split; [done|]. cbn [s_m2]. split.
  - by destruct Hat1 as [[? ?] ? ? ? ? ?]; split; [split|..].
  - rewrite (Hm1 (Hm2 Hok)). unfold clamp0. by destruct (Rltb_spec (m2_slope x0 (last_n period (l ++ [a]))) 0).
Qed.

Lemma std_grad_step_advance a st g zscore :
  capacity st = period ->
  std_grad_step (at_ x0 a) (slope_ a) period zscore st g =
    '(st, g) <- std_advance a st (StdSensPrepare period g);;
    Ok (if negb (RingStatsFull st) then (fnan, fnan)
        else if zscore then zscore_grad_read (at_ x0 a) (slope_ a) st g
        else std_grad_read st g, st, g).
Proof using.
  intros Hc. unfold std_grad_step, std_advance, std_push.
  rewrite RingStatsPrepare_same, Hc by done.
  destruct (std_grad_stats _ _ st _) as [[[slid st1] g1]|]; [|done]. cbn [rbind].
  destruct (std_grad_store _ _ st1 g1) as [[st2 g2]|]; [|done]. cbn [rbind].
  by destruct slid; [destruct (std_grad_refresh st2 g2)|].
Qed.

(** ** Reading the value and the gradient *)

Definition window (l : list Curve) (x : R) : list R :=
  map (fun s => curve s x) (last_n period l).
(** The standard deviation of the window, and its derivative at [x0]. *)
Definition wstd (l : list Curve) (x : R) : R := sqrt (Rssd (window l x) / (INR period - 1)).
Definition wstd_slope (l : list Curve) : R :=
  m2_slope x0 (last_n period l) / (INR period - 1) / (2 * wstd l x0).

Lemma period_minus_pos : 0 < INR period - 1.
Proof. apply lt_INR in Hp2. simpl in Hp2. lra. Qed.

Lemma wstd_pos l x : 0 < Rssd (window l x) -> 0 < wstd l x.
Proof.
  intros Hv. apply sqrt_lt_R0. apply Rdiv_lt_0_compat; [done|apply period_minus_pos].
Qed.

Lemma derivable_wstd l :
  (period <= length l)%nat -> Forall (tangent x0) l -> 0 < Rssd (window l x0) ->
  derivable_pt_lim (wstd l) x0 (wstd_slope l).
Proof.
  intros Hl HF Hv. pose proof period_minus_pos. unfold wstd_slope.
  assert (Hne : last_n period l <> []).
  { intros E. pose proof (length_last_n period l) as El. rewrite E in El. cbn [length] in El. lia. }
  apply (derivable_sqrt x0 (fun x => Rssd (window l x) / (INR period - 1))).
  - apply derivable_over. unfold m2_slope. apply derivable_Rssd; [done|by apply last_n_forall].
  - by apply Rdiv_lt_0_compat.
Qed.

Section read.
Variables (l : list Curve) (st : RingStatsState xreal xreal) (x : R).
Hypothesis Hst : ring_at period (fun s => curve s x) l st.
Hypothesis Hl : (period <= length l)%nat.

Lemma window_length : length (window l x) = period.
Proof. unfold window. rewrite length_map, length_last_n. lia. Qed.

Lemma ring_at_std : RingStatsStddevSample st = Some (wstd l x).
Proof.
  destruct (ring_at_window _ _ _ _ Hst) as (Hc & _ & _ & H2 & _).
  rewrite (RingStatsStddevSample_exact st (window l x)) by done. rewrite window_length.
  by destruct (Nat.ltb_spec period 2); [lia|].
Qed.

Lemma ring_at_count : count st = period.
Proof.
  destruct (ring_at_window _ _ _ _ Hst) as (Hc & _). rewrite Hc. apply window_length.
Qed.
End read.

Lemma std_grad_read_exact l st g :
  std_inv l st g -> (period <= length l)%nat -> no_clamp l -> 0 < Rssd (window l x0) ->
  std_grad_read st g = (Some (wstd l x0), Some (wstd_slope l)).
Proof.
  intros [Hat _ Hm2] Hl Hok Hv. pose proof period_minus_pos. pose proof (wstd_pos _ _ Hv).
  unfold std_grad_read. rewrite (ring_at_std l st x0 (sa_ring _ _ _ _ _ Hat) Hl).
  rewrite (ring_at_count l st x0 (sa_ring _ _ _ _ _ Hat) Hl), (Hm2 Hok).
  destruct (Nat.ltb_spec period 2); [lia|]. cbn [fisnan Fp_xreal dbl exact ext trunc].
  change (@ldb xreal xreal exact) with Fp_xreal. xreal. done.
Qed.

(** The z-score of the last sample, and its derivative. *)
Definition wzscore (l : list Curve) (x : R) : R :=
  (default 0 (option_map (fun s => curve s x) (last l)) - Rmean (window l x)) / wstd l x.
Definition wzscore_slope (l : list Curve) : R :=
  (default 0 (option_map slope (last l)) - Rmean (map slope (last_n period l))) / wstd l x0
  - (default 0 (option_map (fun s => curve s x0) (last l)) - Rmean (window l x0))
    * wstd_slope l / (wstd l x0 * wstd l x0).

Lemma derivable_wzscore l a :
  (period <= length (l ++ [a]))%nat -> Forall (tangent x0) (l ++ [a]) ->
  0 < Rssd (window (l ++ [a]) x0) ->
  derivable_pt_lim (wzscore (l ++ [a])) x0 (wzscore_slope (l ++ [a])).
Proof.
  intros Hl HF Hv. pose proof (wstd_pos _ _ Hv) as Hs.
  assert (Ha : tangent x0 a) by (apply Forall_app in HF as [_ HF]; by apply Forall_inv in HF).
  unfold wzscore, wzscore_slope. rewrite last_snoc. cbn [option_map default].
  eapply derivable_eq; [apply derivable_quot; [|by apply derivable_wstd|lra]; apply
    (derivable_pt_lim_minus (curve a) (fun x => Rmean (window (l ++ [a]) x))); [exact Ha|]| |].
  - apply derivable_Rmean. by apply last_n_forall.
  - done.
  - unfold minus_fct, window. unfold Datatypes.id. field. lra.
Qed.

Lemma zscore_grad_read_exact l a st g :
  let l' := l ++ [a] in
  std_inv l' st g -> (period <= length l')%nat -> no_clamp l' -> / 10 ^ 18 < wstd l' x0 ->
  zscore_grad_read (at_ x0 a) (slope_ a) st g = (Some (wzscore l' x0), Some (wzscore_slope l')).
Proof.
  intros l' [Hat _ Hm2] Hl Hok Hv. pose proof period_minus_pos.
  assert (Hpos : 0 < / 10 ^ 18) by (apply Rinv_0_lt_compat, pow_lt; lra).
  pose proof (sa_ring _ _ _ _ _ Hat) as Hst. unfold zscore_grad_read.
  rewrite (ring_at_std l' st x0 Hst Hl), (ring_at_count l' st x0 Hst Hl), (Hm2 Hok).
  rewrite (sa_mean _ _ _ _ _ Hat), (ring_at_mean period _ _ _ Hst) by lia.
  change (map (fun s => curve s x0) (last_n period l')) with (window l' x0).
  change (@dbl xreal xreal exact) with Fp_xreal. change (@ldb xreal xreal exact) with Fp_xreal.
  cbn [fisnan Fp_xreal orb]. change (fabs (Some (wstd l' x0) : xreal))
    with (Some (Rabs (wstd l' x0)) : xreal).
  change (flit 1 18 : xreal) with (Some (1 / 10 ^ 18) : xreal). rewrite flt_xreal.
  rewrite Rabs_right by lra. destruct (Rltb_spec (wstd l' x0) (1 / 10 ^ 18)); [lra|].
  cbn [ext trunc exact]. unfold at_, slope_. xreal.
  rewrite fdiv_xreal, fsub_xreal by (apply Rgt_not_eq, Rmult_lt_0_compat; lra).
  unfold wzscore, wzscore_slope, l'. by rewrite last_snoc.
Qed.
End std_step.

(** ** rolling_std and zscore: the theorem *)

Section std_theorem.
Local Open Scope R_scope.
Variables (x0 : R) (id param_id : Z) (c : ectx) (period : nat).
Hypothesis Hperiod : is_period period.
Hypothesis Hp2 : (1 < period)%nat.

Lemma std_advance_tick l st g a zscore :
  std_inv x0 period l st (StdSensPrepare period g) ->
  exists st' g',
    std_grad_step (at_ x0 a) (slope_ a) (size_of_period (Z.of_nat period)) zscore st g =
      Ok (if negb (RingStatsFull st') then (fnan, fnan)
          else if zscore then zscore_grad_read (at_ x0 a) (slope_ a) st' g'
          else std_grad_read st' g', st', g') /\
    std_inv x0 period (l ++ [a]) st' g' /\ StdSensPrepare period g' = g'.
Proof.
  intros Hinv. rewrite size_of_period_nat by done.
  destruct (re_holds _ _ _ (sa_ring _ _ _ _ _ (si_at _ _ _ _ _ Hinv))) as [Hc _].
  rewrite std_grad_step_advance by done.
  destruct (std_advance_inv x0 period Hp2 _ _ _ a Hinv) as (st' & g' & -> & Hinv').
  exists st', g'. split; [done|]. split; [done|].
  unfold StdSensPrepare. rewrite decide_True; [done|]. apply (si_at _ _ _ _ _ Hinv').
Qed.

(** The run of either gradient from fresh slots. *)
Lemma std_grad_final (zscore : bool) (E : list Curve -> Prop) (V : list Curve -> xreal * xreal)
  ss s :
  E (ss ++ [s]) ->
  (forall l a st g, E (l ++ [a]) -> std_inv x0 period (l ++ [a]) st g ->
     RingStatsFull st = true /\
     (if zscore then zscore_grad_read (at_ x0 a) (slope_ a) st g else std_grad_read st g)
     = V (l ++ [a])) ->
  final (fun a => on_pair (std_grad_step (at_ x0 a) (slope_ a)
      (size_of_period (Z.of_nat period)) zscore)) ss s
    (fresh_ring period, RollingStdSensitivityState_init) = Ok (V (ss ++ [s])).
Proof.
  intros HE HV.
  apply (final_is _ (fun _ => True)
    (fun l stg => std_inv x0 period l (fst stg) (StdSensPrepare period (snd stg))) E); try done.
  - by apply std_inv_fresh.
  - intros l a [st g] _ Hinv. cbn [fst snd] in Hinv.
    destruct (std_advance_tick l st g a zscore Hinv) as (st' & g' & Est & Hinv' & Hpr).
    unfold on_pair. cbn [fst snd]. rewrite Est. cbn [rbind].
    eexists _, (st', g'). split; [done|]. cbn [fst snd]. rewrite Hpr.
    split; [done|]. intros HEl. destruct (HV _ _ _ _ HEl Hinv') as [-> ->]. done.
Qed.

(** The run of the plain operators. *)
Lemma std_plain_final (x : R)
  (read : xreal -> RingStatsState xreal xreal -> xreal) (E : list Curve -> Prop)
  (V : list Curve -> xreal) ss s :
  E (ss ++ [s]) ->
  (forall l a st, E (l ++ [a]) -> ring_at period (fun s => curve s x) (l ++ [a]) st ->
     RingStatsFull st = true /\ read (at_ x a) st = V (l ++ [a])) ->
  final (fun a st => st <- RingStatsPushPrepared st (at_ x a);;
      Ok (if negb (RingStatsFull st) then fnan else read (at_ x a) st, st)) ss s
    (fresh_ring period) = Ok (V (ss ++ [s])).
Proof.
  intros HE HV.
  apply (final_is _ (fun _ => True) (ring_at period (fun s => curve s x)) E); try done.
  - apply ring_exact_fresh. lia.
  - intros l a st _ Hst. rewrite (PushPrepared_step _ _ _ _ (re_holds _ _ _ Hst)).
    destruct (ring_at_step _ (fun s => curve s x) _ _ a Hst) as (st' & Est & Hst').
    unfold at_ at 1. rewrite Est. cbn [rbind]. eexists _, st'. split; [done|].
    split; [done|]. intros HEl. destruct (HV _ _ _ HEl Hst') as [-> ->]. done.
Qed.

Lemma wstd_above_threshold l : / 10 ^ 18 < wstd period l x0 -> 0 < Rssd (window period l x0).
Proof using.
  intros Hv. assert (Hpos : 0 < / 10 ^ 18) by (apply Rinv_0_lt_compat, pow_lt; lra).
  destruct (Rle_lt_or_eq_dec _ _ (Rssd_nonneg (window period l x0))) as [|E]; [done|].
  unfold wstd in Hv. rewrite <- E in Hv. unfold Rdiv in Hv. rewrite Rmult_0_l, sqrt_0 in Hv. lra.
Qed.

Lemma near_wstd l :
  (period <= length l)%nat -> Forall (tangent x0) l -> 0 < Rssd (window period l x0) ->
  / 10 ^ 18 < wstd period l x0 -> near x0 (fun x => (period <= length l)%nat /\ / 10 ^ 18 < wstd period l x).
Proof.
  intros Hl HF Hvar Hv. pose proof (derivable_wstd x0 period Hp2 l Hl HF Hvar) as Hd.
  eapply near_impl; [|eapply (near_pos x0 (fun x => wstd period l x - / 10 ^ 18));
    [exact (derivable_pt_lim_minus _ (fun _ => / 10 ^ 18) _ _ _ Hd
       (derivable_pt_lim_const _ _))|lra]].
  intros x Hx. split; [done|lra].
Qed.

(** What the plain zscore call reads. *)
Definition zscore_plain (x : xreal) (st : RingStatsState xreal xreal) : xreal :=
  let stddev := RingStatsStddevSample st in
  if fisnan stddev || flt (fabs stddev) (flit 1 18) then fnan
  else fdiv (fsub x (RingStatsMean st)) stddev.

Lemma zscore_plain_exact l a st x :
  (period <= length (l ++ [a]))%nat -> / 10 ^ 18 < wstd period (l ++ [a]) x ->
  ring_at period (fun s => curve s x) (l ++ [a]) st ->
  zscore_plain (at_ x a) st = Some (wzscore period (l ++ [a]) x).
Proof.
  intros Hl Hv Hst. assert (Hpos : 0 < / 10 ^ 18) by (apply Rinv_0_lt_compat, pow_lt; lra).
  unfold zscore_plain. rewrite (ring_at_std period Hp2 _ _ x Hst Hl).
  rewrite (ring_at_mean period _ _ _ Hst) by lia.
  change (map (fun s => curve s x) (last_n period (l ++ [a]))) with (window period (l ++ [a]) x).
  change (@dbl xreal xreal exact) with Fp_xreal.
  cbn [fisnan Fp_xreal orb]. change (fabs (Some (wstd period (l ++ [a]) x) : xreal))
    with (Some (Rabs (wstd period (l ++ [a]) x)) : xreal).
  change (flit 1 18 : xreal) with (Some (1 / 10 ^ 18) : xreal). rewrite flt_xreal.
  rewrite Rabs_right by lra. destruct (Rltb_spec (wstd period (l ++ [a]) x) (1 / 10 ^ 18)); [lra|].
  unfold at_. xreal. unfold wzscore. by rewrite last_snoc.
Qed.

(** C18: the gradients of rolling_std and zscore: when the samples are
    differentiable functions of a parameter and the window is full and not
    constant, the entry points return the value of the plain operator and
    its derivative, in exact arithmetic, provided that no derivative of the
    sum of squares was negative since the tick at which the statistics were
    recomputed last (every [period] ticks; on such a tick no condition is
    left).  The plain operators succeed near the point. *)
Theorem std_gradients_correct ss s :
  (period <= length (ss ++ [s]))%nat -> Forall (tangent x0) (ss ++ [s]) ->
  no_clamp x0 period (ss ++ [s]) ->
  (grad_at rolling_std_slots rolling_std_sensitivity_slots id param_id c (fresh_ring period)
     RollingStdSensitivityState_init ->
   0 < Rssd (window period (ss ++ [s]) x0) ->
   differentiates x0
     (fun x => final (fun s => jit_rt_rolling_std id (at_ x s) (Z.of_nat period)) ss s c)
     (final (fun s => jit_rt_rolling_std_grad id (at_ x0 s) (slope_ s) (Z.of_nat period)
        param_id) ss s c)) /\
  (grad_at zscore_slots zscore_sensitivity_slots id param_id c (fresh_ring period)
     RollingStdSensitivityState_init ->
   / 10 ^ 18 < wstd period (ss ++ [s]) x0 ->
   differentiates x0
     (fun x => final (fun s => jit_rt_zscore id (at_ x s) (Z.of_nat period)) ss s c)
     (final (fun s => jit_rt_zscore_grad id (at_ x0 s) (slope_ s) (Z.of_nat period)
        param_id) ss s c)).
Proof.
  intros Hl HF Hok. split; intros Hat Hv.
  - exists (wstd period (ss ++ [s])), (wstd_slope x0 period (ss ++ [s])). split_and!.
    + apply near_always. intros x. unfold jit_rt_rolling_std.
      rewrite (final_with_node rolling_std_slots id) with (st := fresh_ring period)
        by apply Hat.
      apply (std_plain_final x (fun _ st => RingStatsStddevSample st)
        (fun l => period <= length l)%nat (fun l => Some (wstd period l x))); [done|].
      intros l a st HEl Hst. split; [by apply (ring_at_full period (fun s => curve s x) _ _ Hst)|].
      by apply ring_at_std.
    + rewrite (final_ext _ (fun a => with_grad rolling_std_slots rolling_std_sensitivity_slots id
        param_id (std_grad_step (at_ x0 a) (slope_ a) (size_of_period (Z.of_nat period)) false)))
        by done.
      rewrite (final_with_grad rolling_std_slots rolling_std_sensitivity_slots) with
        (st := fresh_ring period) (g := RollingStdSensitivityState_init) by done.
      apply (std_grad_final false (fun l => (period <= length l)%nat /\ no_clamp x0 period l /\
          0 < Rssd (window period l x0))
        (fun l => (Some (wstd period l x0), Some (wstd_slope x0 period l)))); [done|].
      intros l a st g (HEl & Hokl & Hvl) Hinv.
      split; [|by apply std_grad_read_exact].
      apply (ring_at_full _ _ _ _ (sa_ring _ _ _ _ _ (si_at _ _ _ _ _ Hinv)) HEl).
    + by apply derivable_wstd.
  - pose proof (wstd_above_threshold _ Hv) as Hvar.
    exists (wzscore period (ss ++ [s])), (wzscore_slope x0 period (ss ++ [s])). split_and!.
    + apply near_impl with (2 := near_wstd _ Hl HF Hvar Hv). intros x Hx.
      unfold jit_rt_zscore. rewrite (final_with_node zscore_slots id) with (st := fresh_ring period) by apply Hat.
      rewrite (final_ext _ (fun a st => st <- RingStatsPushPrepared st (at_ x a);;
        Ok (if negb (RingStatsFull st) then fnan else zscore_plain (at_ x a) st, st))).
      2: { intros a st. destruct (RingStatsPushPrepared st (at_ x a)) as [st'|]; [|done].
           cbn [rbind]. unfold zscore_plain. destruct (negb (RingStatsFull st')); [done|].
           by destruct (_ || _). }
      apply (std_plain_final x zscore_plain
        (fun l => (period <= length l)%nat /\ / 10 ^ 18 < wstd period l x)
        (fun l => Some (wzscore period l x))); [done|].
      intros l a st [HEl Hs] Hst.
      split; [by apply (ring_at_full period (fun s => curve s x) _ _ Hst)|].
      by apply zscore_plain_exact.
    + rewrite (final_ext _ (fun a => with_grad zscore_slots zscore_sensitivity_slots id
        param_id (std_grad_step (at_ x0 a) (slope_ a) (size_of_period (Z.of_nat period)) true)))
        by done.
      rewrite (final_with_grad zscore_slots zscore_sensitivity_slots) with
        (st := fresh_ring period) (g := RollingStdSensitivityState_init) by done.
      apply (std_grad_final true (fun l => (period <= length l)%nat /\ no_clamp x0 period l /\
          / 10 ^ 18 < wstd period l x0)
        (fun l => (Some (wzscore period l x0), Some (wzscore_slope x0 period l)))); [done|].
      intros l a st g (HEl & Hokl & Hvl) Hinv.
      split; [|by apply zscore_grad_read_exact].
      apply (ring_at_full _ _ _ _ (sa_ring _ _ _ _ _ (si_at _ _ _ _ _ Hinv)) HEl).
    + by apply derivable_wzscore.
Qed.

Lemma wstd_slope_neg l :
  0 < Rssd (window period l x0) -> m2_slope x0 (last_n period l) < 0 -> wstd_slope x0 period l < 0.
Proof.
  intros Hv Hneg. pose proof (period_minus_pos period Hp2). pose proof (wstd_pos period Hp2 l x0 Hv).
  unfold wstd_slope, Rdiv.
  apply Ropp_lt_cancel. rewrite Ropp_0, !Ropp_mult_distr_l.
  repeat apply Rmult_lt_0_compat; try apply Rinv_0_lt_compat; lra.
Qed.

(** The clamp of rolling_std's gradient is wrong: on any tick that
    slides the window without recomputing its statistics, and before which
    the sensitivity was exact, a falling standard deviation is reported with
    gradient 0 although its derivative is negative; the clamp that keeps the
    sum of squares >= 0 was applied to its derivative too. *)
Theorem rolling_std_gradient_clamped ss s :
  (period <= length ss)%nat -> Forall (tangent x0) (ss ++ [s]) ->
  no_clamp x0 period ss -> (length (ss ++ [s]) mod period <> 0)%nat ->
  0 < Rssd (window period (ss ++ [s]) x0) -> m2_slope x0 (last_n period (ss ++ [s])) < 0 ->
  grad_at rolling_std_slots rolling_std_sensitivity_slots id param_id c (fresh_ring period)
    RollingStdSensitivityState_init ->
  final (fun s => jit_rt_rolling_std_grad id (at_ x0 s) (slope_ s) (Z.of_nat period) param_id)
    ss s c = Ok (Some (wstd period (ss ++ [s]) x0), Some 0) /\
  derivable_pt_lim (wstd period (ss ++ [s])) x0 (wstd_slope x0 period (ss ++ [s])) /\
  wstd_slope x0 period (ss ++ [s]) < 0.
Proof.
  intros Hl HF Hok Hnr Hv Hneg Hat.
  assert (Hlen : length (ss ++ [s]) = S (length ss)) by (rewrite length_app; simpl; lia).
  split; [|split; [apply derivable_wstd; [done|lia|done|done]|by apply wstd_slope_neg]].
  rewrite (final_ext _ (fun a => with_grad rolling_std_slots rolling_std_sensitivity_slots id
    param_id (std_grad_step (at_ x0 a) (slope_ a) (size_of_period (Z.of_nat period)) false)))
    by done.
  rewrite (final_with_grad rolling_std_slots rolling_std_sensitivity_slots) with
    (st := fresh_ring period) (g := RollingStdSensitivityState_init) by done.
  apply (final_is _ (fun _ => True)
    (fun l stg => std_inv x0 period l (fst stg) (StdSensPrepare period (snd stg)))
    (fun l => l = ss ++ [s]) (fun l => (Some (wstd period l x0), Some 0))); try done.
  { by apply std_inv_fresh. }
  intros l a [st g] _ Hinv. cbn [fst snd] in Hinv.
  destruct (std_advance_tick l st g a false Hinv) as (st' & g' & Est & Hinv' & Hpr).
  unfold on_pair. cbn [fst snd]. rewrite Est. cbn [rbind].
  eexists _, (st', g'). split; [done|]. cbn [fst snd]. rewrite Hpr. split; [done|].
  intros (<- & [= <-])%app_inj_tail.
  rewrite size_of_period_nat, std_grad_step_advance in Est
    by (done || apply (re_holds _ _ _ (sa_ring _ _ _ _ _ (si_at _ _ _ _ _ Hinv)))).
  destruct (std_advance_clamped x0 period Hp2 l st _ a Hinv Hl Hok) as (st2 & g2 & E2 & Hat2 & Hm);
    [by rewrite <- Hlen|done|].
  rewrite E2 in Est. cbn [rbind] in Est. injection Est as _ <- <-.
  rewrite (ring_at_full _ _ _ _ (sa_ring _ _ _ _ _ Hat2)) by lia. cbn [negb].
  unfold std_grad_read. rewrite (ring_at_count period Hp2 _ _ x0 (sa_ring _ _ _ _ _ Hat2)) by lia.
  rewrite (ring_at_std period Hp2 _ _ x0 (sa_ring _ _ _ _ _ Hat2)), Hm by lia.
  pose proof (period_minus_pos period Hp2). pose proof (wstd_pos period Hp2 _ x0 Hv).
  destruct (Nat.ltb_spec period 2); [lia|]. cbn [fisnan Fp_xreal dbl exact ext trunc].
  change (@ldb xreal xreal exact) with Fp_xreal. xreal. f_equal. f_equal. f_equal.
  unfold Rdiv. ring.
Qed.
End std_theorem.

Lemma std_gradients_correct_witness :
  differentiates 2
    (fun x => final (fun s => jit_rt_rolling_std 0 (at_ x s) 2) [a_constant 0] the_parameter
       (gradient_ctx 2))
    (final (fun s => jit_rt_rolling_std_grad 0 (at_ 2 s) (slope_ s) 2 0) [a_constant 0]
       the_parameter (gradient_ctx 2)).
Proof.
  destruct (std_gradients_correct 2 0 0 (gradient_ctx 2) 2 ltac:(unfold is_period; simpl; lia)
    ltac:(lia) [a_constant 0] the_parameter) as [Hstd _].
  - simpl. lia.
  - repeat constructor; auto.
  - intros k Hk. simpl in Hk. lia.
  - apply Hstd.
    + split; simpl; [lia|lia|done|done].
    + unfold Rssd, Rmean. simpl. lra.
Defined.

Lemma rolling_std_gradient_clamped_witness :
  exists v d,
    final (fun s => jit_rt_rolling_std_grad 0 (at_ 1 s) (slope_ s) 3 0)
      [a_constant 0; a_constant 0; the_parameter] (a_constant 10) (gradient_ctx 3)
      = Ok (Some v, Some 0%R) /\ (d < 0)%R.
Proof.
  destruct (rolling_std_gradient_clamped 1 0 0 (gradient_ctx 3) 3
    ltac:(unfold is_period; simpl; lia) ltac:(lia)
    [a_constant 0; a_constant 0; the_parameter] (a_constant 10)) as (Hrun & _ & Hneg).
  - simpl. lia.
  - repeat constructor; auto.
  - intros k Hk. simpl in Hk. lia.
  - by vm_compute.
  - unfold Rssd, Rmean. simpl. lra.
  - unfold m2_slope, Wcov, Wsum. simpl. lra.
  - split; simpl; [lia|lia|done|done].
  - eexists _, _. split; [exact Hrun|exact Hneg].
Defined.
