(* ===== verification/PairGradientFacts.v ===== *)
(** * The gradient entry points compute derivatives: pairs and extrema

    rolling_corr and rolling_beta carry the derivatives of the running sums
    of a window of pairs; rolling_min and rolling_max return the derivative
    of the sample at the front of the deque. *)

From Stdlib Require Import Reals Lra.
From S2P Require Import Prelude Errors Arith RealArith Calculus Rolling RollingFacts PairFacts Context Interpreter JitRuntime JitFacts Gradient GradientFacts.

Notation ectx := (SignalContext xreal xreal).

(** ** Windows of pairs of curves *)

Section pairs.
Local Open Scope R_scope.
Notation Curves := (Curve * Curve)%type.
Notation gstate := (RollingPairSensitivityState xreal).

Definition tangents (x0 : R) (p : Curves) : Prop := tangent x0 (fst p) /\ tangent x0 (snd p).

(** The window's values at [x]. *)
Definition at2 (x : R) (p : Curves) : R * R := (curve (fst p) x, curve (snd p) x).

Variable x0 : R.
Notation X p := (curve (fst p) x0).
Notation Y p := (curve (snd p) x0).
Notation X' p := (slope (fst p)).
Notation Y' p := (slope (snd p)).

(** The derivatives of the five sums. *)
Definition Dx (w : list Curves) := Rsum (map (fun p => X' p) w).
Definition Dy (w : list Curves) := Rsum (map (fun p => Y' p) w).
Definition Dxy (w : list Curves) := Rsum (map (fun p => X' p * Y p + X p * Y' p) w).
Definition Dxx (w : list Curves) := Rsum (map (fun p => 2 * X p * X' p) w).
Definition Dyy (w : list Curves) := Rsum (map (fun p => 2 * Y p * Y' p) w).

Definition dsums_of (w : list Curves) : PairSums xreal :=
  MkSums (Some (Dx w)) (Some (Dy w)) (Some (Dxy w)) (Some (Dxx w)) (Some (Dyy w)).

(** The derivatives of the covariance and the variances. *)
Definition cov_slope (w : list Curves) : R :=
  let v := map (at2 x0) w in
  Dxy w - (Dx w * Wsum (fun _ y => y) v + Wsum (fun x _ => x) v * Dy w) / INR (length w).
Definition var_x_slope (w : list Curves) : R :=
  Dxx w - 2 * Wsum (fun x _ => x) (map (at2 x0) w) * Dx w / INR (length w).
Definition var_y_slope (w : list Curves) : R :=
  Dyy w - 2 * Wsum (fun _ y => y) (map (at2 x0) w) * Dy w / INR (length w).

Lemma Wsum_at2 f x (w : list Curves) :
  Wsum f (map (at2 x) w) = Rsum (map (fun p => f (curve (fst p) x) (curve (snd p) x)) w).
Proof using. unfold Wsum. by rewrite map_map. Qed.

Section derivatives.
Variable w : list Curves.
Hypothesis Hw : Forall (tangents x0) w.

Lemma derivable_Wsum f (d : Curves -> R) :
  (forall p, tangents x0 p -> derivable_pt_lim (fun x => f (curve (fst p) x) (curve (snd p) x)) x0 (d p)) ->
  derivable_pt_lim (fun x => Wsum f (map (at2 x) w)) x0 (Rsum (map d w)).
Proof.
  intros Hd. eapply derivable_eq; [apply (derivable_Rsum x0
    (fun p x => f (curve (fst p) x) (curve (snd p) x)) d w)| |done].
  - apply Forall_impl with (1 := Hw). exact Hd.
  - intros x. symmetry. apply Wsum_at2.
Qed.

Lemma derivable_sum_x : derivable_pt_lim (fun x => Wsum (fun x _ => x) (map (at2 x) w)) x0 (Dx w).
Proof. apply (derivable_Wsum (fun x _ => x)). by intros p [Hx _]. Qed.
Lemma derivable_sum_y : derivable_pt_lim (fun x => Wsum (fun _ y => y) (map (at2 x) w)) x0 (Dy w).
Proof. apply (derivable_Wsum (fun _ y => y)). by intros p [_ Hy]. Qed.

Lemma derivable_cov : derivable_pt_lim (fun x => Wcov (map (at2 x) w)) x0 (cov_slope w).
Proof.
  assert (HS : derivable_pt_lim (fun x => Wsum Rmult (map (at2 x) w)) x0 (Dxy w)).
  { apply (derivable_Wsum Rmult). intros p [Hx Hy]. by apply derivable_prod. }
  pose proof (derivable_over x0 _ _ (INR (length w))
    (derivable_prod x0 _ _ _ _ derivable_sum_x derivable_sum_y)) as HM.
  eapply derivable_eq; [exact (derivable_pt_lim_minus _ _ x0 _ _ HS HM)| |].
  - intros x. unfold Wcov, minus_fct. by rewrite length_map.
  - done.
Qed.

Lemma derivable_square f (d : Curves -> R) :
  (forall p, tangents x0 p -> derivable_pt_lim (fun x => f (curve (fst p) x) (curve (snd p) x)) x0 (d p)) ->
  derivable_pt_lim (fun x => Wsum (fun a b => f a b * f a b) (map (at2 x) w)
      - Wsum f (map (at2 x) w) * Wsum f (map (at2 x) w) / INR (length w)) x0
    (Rsum (map (fun p => 2 * f (X p) (Y p) * d p) w)
      - 2 * Wsum f (map (at2 x0) w) * Rsum (map d w) / INR (length w)).
Proof.
  intros Hd. pose proof (derivable_Wsum f d Hd) as Hf.
  assert (HS : derivable_pt_lim (fun x => Wsum (fun a b => f a b * f a b) (map (at2 x) w)) x0
            (Rsum (map (fun p => 2 * f (X p) (Y p) * d p) w))).
  { apply (derivable_Wsum (fun a b => f a b * f a b)). intros p Hp.
    eapply derivable_eq; [exact (derivable_prod x0 _ _ _ _ (Hd p Hp) (Hd p Hp))|done|cbv beta; ring]. }
  pose proof (derivable_over x0 _ _ (INR (length w)) (derivable_prod x0 _ _ _ _ Hf Hf)) as HM.
  eapply derivable_eq; [exact (derivable_pt_lim_minus _ _ x0 _ _ HS HM)|done|].
  unfold Rdiv. ring.
Qed.

Lemma derivable_var_x : derivable_pt_lim (fun x => Wvar_x (map (at2 x) w)) x0 (var_x_slope w).
Proof.
  eapply derivable_eq; [apply (derivable_square (fun x _ => x) (fun p => X' p))| |done].
  - by intros p [Hx _].
  - intros x. unfold Wvar_x. by rewrite length_map.
Qed.
Lemma derivable_var_y : derivable_pt_lim (fun x => Wvar_y (map (at2 x) w)) x0 (var_y_slope w).
Proof.
  eapply derivable_eq; [apply (derivable_square (fun _ y => y) (fun p => Y' p))| |done].
  - by intros p [_ Hy].
  - intros x. unfold Wvar_y. by rewrite length_map.
Qed.
End derivatives.
End pairs.

(** ** The sensitivity state of a pair operator *)

Section pair_state.
Local Open Scope R_scope.
Notation Curves := (Curve * Curve)%type.
Notation gstate := (RollingPairSensitivityState xreal).
Variables (x0 : R) (period : nat).
Hypothesis Hp : (0 < period)%nat.

(** The primal state after the values at [x] of the pairs [l]. *)
Definition pair_at (x : R) (l : list Curves) (st : RollingPairState xreal xreal) : Prop :=
  pair_exact period (map (at2 x) l) st.

Record pair_grad_at (l : list Curves) (st : RollingPairState xreal xreal) (g : gstate)
  : Prop := {
  pg_primal : pair_at x0 l st;
  pg_cap : sp_capacity g = period;
  pg_x : ring_rep period (sx_buf g) (p_head st) (p_count st) (map (fun p => slope_ (fst p)) l);
  pg_y : ring_rep period (sy_buf g) (p_head st) (p_count st) (map (fun p => slope_ (snd p)) l);
  pg_sums : s_sums g = dsums_of x0 (last_n period l);
}.

Lemma dsums_snoc w a :
  pair_sens_add (dsums_of x0 w) (at_ x0 (fst a)) (at_ x0 (snd a)) (slope_ (fst a))
    (slope_ (snd a)) = dsums_of x0 (w ++ [a]).
Proof using.
  unfold pair_sens_add, dsums_of, Dx, Dy, Dxy, Dxx, Dyy, at_, slope_.
  cbn [sum_x sum_y sum_xy sum_xx sum_yy ext exact].
  change (@dbl xreal xreal exact) with Fp_xreal. change (@ldb xreal xreal exact) with Fp_xreal.
  rewrite !map_app. cbn [map]. rewrite !Rsum_snoc. by xreal.
Qed.

Lemma dsums_cons w a :
  pair_sens_remove (dsums_of x0 (a :: w)) (at_ x0 (fst a)) (at_ x0 (snd a)) (slope_ (fst a))
    (slope_ (snd a)) = dsums_of x0 w.
Proof using.
  unfold pair_sens_remove, dsums_of, Dx, Dy, Dxy, Dxx, Dyy, at_, slope_.
  cbn [sum_x sum_y sum_xy sum_xx sum_yy ext exact].
  change (@dbl xreal xreal exact) with Fp_xreal. change (@ldb xreal xreal exact) with Fp_xreal.
  cbn [map]. rewrite !Rsum_cons. xreal. repeat f_equal; ring.
Qed.

(** The pairs about to leave a full window. *)
Lemma last_n_oldest (l : list Curves) :
  (period <= length l)%nat ->
  exists y t, last_n period l = y :: t /\ (forall a, last_n period (l ++ [a]) = t ++ [a]) /\
    l !! (length l - period)%nat = Some y.
Proof.
  intros Hle. destruct (window_slide period l (the_parameter, the_parameter) Hp Hle)
    as (y & t & Hw & _ & Hy).
  exists y, t. split; [done|]. split; [|done]. intros a. rewrite last_n_snoc by lia. by rewrite Hw.
Qed.

Lemma pair_grad_push_exact l st g a :
  pair_grad_at l (RollingPairPrepare period st) (PairSensPrepare period g) ->
  exists st' g',
    pair_grad_push period (at_ x0 (fst a)) (slope_ (fst a)) (at_ x0 (snd a)) (slope_ (snd a))
      st g = Ok (st', g') /\
    pair_grad_at (l ++ [a]) st' g' /\ p_capacity st' = period.
Proof.
  intros Hat. destruct (RollingPairPush_exact period (map (at2 x0) l) st (at2 x0 a)
    (pg_primal _ _ _ Hat)) as (st' & Epush & Hst').
  unfold pair_grad_push. unfold RollingPairPush in Epush. revert Hat Epush.
  generalize (RollingPairPrepare period st) as st0, (PairSensPrepare period g) as g0.
  intros st0 g0 [[(Hc & Hx & Hy) Hs] Hgc Hgx Hgy Hgs].
  destruct (Nat.eqb_spec period 0); [lia|]. cbn [ensure negb rbind].
  pose proof Hx as [_ Hlx Hh Hcount _ _]. pose proof (rr_len _ _ _ _ _ Hy) as Hly.
  rewrite !length_map in Hcount.
  pose proof (rr_len _ _ _ _ _ Hgx) as Hlgx. pose proof (rr_len _ _ _ _ _ Hgy) as Hlgy.
  pose proof (ring_rep_step _ _ _ _ _ (slope_ (fst a)) Hgx) as Hgx'.
  pose proof (ring_rep_step _ _ _ _ _ (slope_ (snd a)) Hgy) as Hgy'.
  rewrite map_map in Hx, Hy. rewrite Hc.
  cbn [at2 fst snd]. change (Some (curve (fst a) x0)) with (at_ x0 (fst a)).
  change (Some (curve (snd a) x0)) with (at_ x0 (snd a)).
  destruct (Nat.eqb_spec (p_count st0) period) as [Hf|Hf].
  - destruct (last_n_oldest l ltac:(lia)) as (y & t & Hw & Hw' & Hyo).
    unfold at_idx.
    rewrite (ring_oldest (fun p => slope_ (fst p)) _ _ _ _ _ _ Hgx ltac:(lia) Hyo).
    rewrite (ring_oldest (fun p => slope_ (snd p)) _ _ _ _ _ _ Hgy ltac:(lia) Hyo).
    rewrite map_map in Hx, Hy.
    rewrite (ring_oldest (fun p => fst (x2 (at2 x0 p))) _ _ _ _ _ _ Hx ltac:(lia) Hyo).
    rewrite (ring_oldest (fun p => snd (x2 (at2 x0 p))) _ _ _ _ _ _ Hy ltac:(lia) Hyo).
    cbn [rbind]. rewrite !set_idx_Ok by lia. cbn [rbind]. intros [= <-].
    eexists _, _. split; [done|]. split; [|done].
    split; cbn [s_sums sp_capacity sx_buf sy_buf p_head p_count]; try done.
    + unfold pair_at. by rewrite map_app.
    + by rewrite map_app.
    + by rewrite map_app.
    + rewrite Hgs, Hw, Hw'. cbn [x2 at2 fst snd]. change (Some (curve (fst y) x0)) with (at_ x0 (fst y)).
      change (Some (curve (snd y) x0)) with (at_ x0 (snd y)).
      rewrite dsums_cons. apply dsums_snoc.
  - cbn [rbind]. rewrite !set_idx_Ok by lia. cbn [rbind]. intros [= <-].
    eexists _, _. split; [done|]. split; [|done].
    split; cbn [s_sums sp_capacity sx_buf sy_buf p_head p_count]; try done.
    + unfold pair_at. by rewrite map_app.
    + by rewrite map_app.
    + by rewrite map_app.
    + rewrite Hgs, last_n_snoc_short by lia. apply dsums_snoc.
Qed.
End pair_state.

(** ** rolling_corr and rolling_beta: the theorem *)

Section pair_theorem.
Local Open Scope R_scope.
Notation Curves := (Curve * Curve)%type.
Variables (x0 : R) (id param_id : Z) (c : ectx) (period : nat).
Hypothesis Hperiod : is_period period.

Lemma pair_period_pos : (0 < period)%nat.
Proof. unfold is_period in Hperiod. lia. Qed.
Local Hint Resolve pair_period_pos : core.

(** The window of the last tick at [x], its correlation and its slope. *)
Definition pwindow (l : list Curves) (x : R) : list (R * R) :=
  map (at2 x) (last_n period l).
Definition wcorr (l : list Curves) (x : R) : R :=
  let w := pwindow l x in Wcov w / sqrt (Wvar_x w * Wvar_y w).
Definition wbeta (l : list Curves) (x : R) : R := Wcov (pwindow l x) / Wvar_x (pwindow l x).

Definition wcorr_slope (l : list Curves) : R :=
  let w := pwindow l x0 in
  let denom := sqrt (Wvar_x w * Wvar_y w) in
  cov_slope x0 (last_n period l) / denom
  - Wcov w * ((var_x_slope x0 (last_n period l) * Wvar_y w
               + Wvar_x w * var_y_slope x0 (last_n period l)) / (2 * denom)) / (denom * denom).
Definition wbeta_slope (l : list Curves) : R :=
  let w := pwindow l x0 in
  (cov_slope x0 (last_n period l) * Wvar_x w - Wcov w * var_x_slope x0 (last_n period l))
  / (Wvar_x w * Wvar_x w).

Section derivative.
Variable l : list Curves.
Hypothesis HF : Forall (tangents x0) l.
Hypothesis Hvx : 0 < Wvar_x (pwindow l x0).

Lemma derivable_wbeta : derivable_pt_lim (wbeta l) x0 (wbeta_slope l).
Proof.
  pose proof (last_n_forall _ period _ HF) as Hw.
  apply derivable_quot; [by apply derivable_cov|by apply derivable_var_x|lra].
Qed.

Lemma near_var_x : near x0 (fun x => 0 < Wvar_x (pwindow l x)).
Proof.
  pose proof (last_n_forall _ period _ HF) as Hw.
  apply (near_pos x0 (fun x => Wvar_x (pwindow l x)) _ (derivable_var_x x0 _ Hw) Hvx).
Qed.

Hypothesis Hvy : 0 < Wvar_y (pwindow l x0).

Lemma near_var_y : near x0 (fun x => 0 < Wvar_y (pwindow l x)).
Proof.
  pose proof (last_n_forall _ period _ HF) as Hw.
  apply (near_pos x0 (fun x => Wvar_y (pwindow l x)) _ (derivable_var_y x0 _ Hw) Hvy).
Qed.

Lemma derivable_wcorr : derivable_pt_lim (wcorr l) x0 (wcorr_slope l).
Proof.
  pose proof (last_n_forall _ period _ HF) as Hw.
  assert (Hpos : 0 < Wvar_x (pwindow l x0) * Wvar_y (pwindow l x0)) by nra.
  pose proof (sqrt_lt_R0 _ Hpos) as Hs.
  pose proof (derivable_prod x0 _ _ _ _ (derivable_var_x x0 _ Hw) (derivable_var_y x0 _ Hw)) as HM.
  pose proof (derivable_sqrt x0 _ _ HM Hpos) as HD.
  eapply derivable_eq; [exact (derivable_quot x0 _ _ _ _ (derivable_cov x0 _ Hw) HD
    (Rgt_not_eq _ _ Hs))|done|].
  unfold wcorr_slope. fold (pwindow l x0). cbv zeta. field. lra.
Qed.
End derivative.

(** What the two states give when the window is full. *)
Lemma pair_full l (st : RollingPairState xreal xreal) x :
  pair_at period x l st -> (period <= length l)%nat ->
  RollingPairFull st = true /\ sums st = sums_of (pwindow l x) /\
  p_count st = length (pwindow l x) /\ pwindow l x <> [].
Proof.
  intros [(Hc & Hr & _) Hs] Hl. pose proof (rr_count _ _ _ _ _ Hr) as Hcount.
  rewrite !length_map in Hcount. rewrite last_n_map in Hs.
  pose proof pair_period_pos. pose proof (length_last_n period l) as Hlen.
  assert (Hlw : length (pwindow l x) = period) by (unfold pwindow; rewrite length_map; lia).
  split_and!; [|done|lia|].
  - unfold RollingPairFull. rewrite Hc. apply andb_true_iff.
    split; [apply Nat.eqb_eq; lia|apply Nat.ltb_lt; lia].
  - intros E. rewrite E in Hlw. cbn [length] in Hlw. lia.
Qed.

Lemma pair_grad_slopes l st g :
  pair_grad_at x0 period l st g -> (period <= length l)%nat ->
  let n : xreal := fnat (p_count st) in
  cov_prime (sums st) (s_sums g) n = Some (cov_slope x0 (last_n period l)) /\
  var_x_prime (sums st) (s_sums g) n = Some (var_x_slope x0 (last_n period l)) /\
  var_y_prime (sums st) (s_sums g) n = Some (var_y_slope x0 (last_n period l)).
Proof.
  intros Hat Hl n. destruct (pair_full _ _ _ (pg_primal _ _ _ _ _ Hat) Hl) as (_ & Hs & Hc & Hne).
  unfold n. rewrite Hs, Hc, (pg_sums _ _ _ _ _ Hat).
  assert (INR (length (pwindow l x0)) <> 0) by (by destruct (pwindow l x0); [|apply not_0_INR]).
  unfold cov_prime, var_x_prime, var_y_prime, sums_of, dsums_of.
  cbn [sum_x sum_y sum_xy sum_xx sum_yy].
  change (@ldb xreal xreal exact) with Fp_xreal. xreal.
  unfold cov_slope, var_x_slope, var_y_slope, pwindow. rewrite length_map. done.
Qed.

Lemma corr_grad_read_exact l st g :
  pair_grad_at x0 period l st g -> (period <= length l)%nat ->
  0 < Wvar_x (pwindow l x0) -> 0 < Wvar_y (pwindow l x0) ->
  corr_grad_read st g = (Some (wcorr l x0), Some (wcorr_slope l)).
Proof.
  intros Hat Hl Hx Hy. destruct (pair_full _ _ _ (pg_primal _ _ _ _ _ Hat) Hl) as (Hf & Hs & Hc & Hne).
  destruct (pair_grad_slopes _ _ _ Hat Hl) as (Ec & Ex & Ey). cbv zeta in Ec, Ex, Ey.
  destruct (RollingPair_read_exact st _ Hne Hc Hf Hs) as [Hcorr _].
  destruct (pair_unnorm_exact _ Hne) as (Uc & Ux & Uy). rewrite <- Hs, <- Hc in Uc, Ux, Uy.
  assert (Hpos : 0 < Wvar_x (pwindow l x0) * Wvar_y (pwindow l x0)) by nra.
  pose proof (sqrt_lt_R0 _ Hpos) as Hsq.
  unfold corr_grad_read. change (@ldb xreal xreal exact) with Fp_xreal.
  change (@dbl xreal xreal exact) with Fp_xreal.
  rewrite Hcorr, Uc, Ux, Uy, Ec, Ex, Ey. cbn [ext trunc exact].
  rewrite fmul_xreal, fsqrt_xreal by lra. xreal.
  rewrite fdiv_xreal, fsub_xreal by nra.
  destruct (Rleb_spec (Wvar_x (pwindow l x0)) 0); [lra|].
  destruct (Rleb_spec (Wvar_y (pwindow l x0)) 0); [lra|]. done.
Qed.

Lemma beta_grad_read_exact l st g :
  pair_grad_at x0 period l st g -> (period <= length l)%nat -> 0 < Wvar_x (pwindow l x0) ->
  beta_grad_read st g = (Some (wbeta l x0), Some (wbeta_slope l)).
Proof.
  intros Hat Hl Hx. destruct (pair_full _ _ _ (pg_primal _ _ _ _ _ Hat) Hl) as (Hf & Hs & Hc & Hne).
  destruct (pair_grad_slopes _ _ _ Hat Hl) as (Ec & Ex & _). cbv zeta in Ec, Ex.
  destruct (RollingPair_read_exact st _ Hne Hc Hf Hs) as [_ Hbeta].
  destruct (pair_unnorm_exact _ Hne) as (Uc & Ux & _). rewrite <- Hs, <- Hc in Uc, Ux.
  unfold beta_grad_read. change (@ldb xreal xreal exact) with Fp_xreal.
  change (@dbl xreal xreal exact) with Fp_xreal.
  rewrite Hbeta, Uc, Ux, Ec, Ex. cbn [ext trunc exact]. xreal.
  rewrite fdiv_xreal by nra. by destruct (Rleb_spec (Wvar_x (pwindow l x0)) 0); [lra|].
Qed.

Notation fresh_pair := (RollingPairPrepare period (RollingPairState_init (D:=xreal) (L:=xreal))).

Lemma RollingPairPrepare_idem (st : RollingPairState xreal xreal) :
  RollingPairPrepare period (RollingPairPrepare period st) = RollingPairPrepare period st.
Proof using.
  unfold RollingPairPrepare. by destruct (decide (p_capacity st = period)) as [E|];
    rewrite decide_True.
Qed.

Lemma pair_grad_final read (E : list Curves -> Prop) (V : list Curves -> xreal * xreal) ss s :
  E (ss ++ [s]) -> (forall l, E l -> period <= length l)%nat ->
  (forall l st g, E l -> pair_grad_at x0 period l st g -> read st g = V l) ->
  final (fun a => on_pair (pair_grad_step read (size_of_period (Z.of_nat period))
      (at_ x0 (fst a)) (slope_ (fst a)) (at_ x0 (snd a)) (slope_ (snd a)))) ss s
    (fresh_pair, RollingPairSensitivityState_init) = Ok (V (ss ++ [s])).
Proof.
  intros HE HEl HV. pose proof pair_period_pos as Hpos.
  apply (final_is _ (fun _ => True) (fun l stg => pair_grad_at x0 period l
    (RollingPairPrepare period (fst stg)) (PairSensPrepare period (snd stg))) E); try done.
  - cbn [fst snd]. rewrite RollingPairPrepare_idem.
    assert (Hc : sp_capacity (RollingPairSensitivityState_init (D:=xreal) (L:=xreal)) <> period)
      by (simpl; lia).
    unfold PairSensPrepare. rewrite decide_False by exact Hc.
    split; [by apply pair_exact_fresh|done| | |];
      cbn [sx_buf sy_buf s_sums]; unfold RollingPairPrepare;
      rewrite ?decide_False by (simpl; lia); cbn [p_head p_count].
    + apply ring_rep_nil; [done|apply length_replicate].
    + apply ring_rep_nil; [done|apply length_replicate].
    + unfold zero_sums, dsums_of. change (@ldb xreal xreal exact) with Fp_xreal.
      by rewrite fint_xreal.
  - intros l a [st g] _ Hat. cbn [fst snd] in Hat.
    destruct (pair_grad_push_exact x0 period Hpos l st g a Hat) as (st' & g' & Epush & Hat' & Hc).
    unfold on_pair, pair_grad_step. cbn [fst snd]. rewrite size_of_period_nat by done.
    rewrite Epush. cbn [rbind]. eexists _, (st', g'). split; [done|]. cbn [fst snd].
    assert (Hpr : RollingPairPrepare period st' = st')
      by (unfold RollingPairPrepare; by rewrite decide_True).
    assert (Hprg : PairSensPrepare period g' = g')
      by (unfold PairSensPrepare; rewrite decide_True; [done|apply Hat']).
    rewrite Hpr, Hprg. split; [done|]. intros HEa.
    destruct (pair_full _ _ _ (pg_primal _ _ _ _ _ Hat') (HEl _ HEa)) as [-> _]. cbn [negb].
    by apply HV.
Qed.

Lemma pair_plain_final x (read : RollingPairState xreal xreal -> xreal)
  (E : list Curves -> Prop) (V : list Curves -> xreal) ss s :
  E (ss ++ [s]) ->
  (forall l st, E l -> pair_at period x l st -> read st = V l) ->
  final (fun a st => st <- RollingPairPush st (Z.to_nat (u64 (Z.of_nat period)))
      (at_ x (fst a)) (at_ x (snd a));; Ok (read st, st)) ss s fresh_pair = Ok (V (ss ++ [s])).
Proof.
  intros HE HV. pose proof pair_period_pos as Hpos.
  apply (final_is _ (fun _ => True) (fun l st => pair_at period x l (RollingPairPrepare period st))
    E); try done.
  - rewrite RollingPairPrepare_idem. by apply pair_exact_fresh.
  - intros l a st _ Hat. change (Z.to_nat (u64 (Z.of_nat period))) with
      (size_of_period (Z.of_nat period)). rewrite size_of_period_nat by done.
    destruct (RollingPairPush_exact period _ st (at2 x a) Hat) as (st' & Est & Hst').
    cbn [at2 fst snd] in Est. unfold at_. rewrite Est. cbn [rbind].
    change ([at2 x a]) with (map (at2 x) [a]) in Hst'. rewrite <- map_app in Hst'.
    eexists _, st'. split; [done|].
    assert (Hpr : RollingPairPrepare period st' = st')
      by (unfold RollingPairPrepare; rewrite decide_True; [done|apply Hst']).
    rewrite Hpr. split; [done|]. intros HEa. by apply HV.
Qed.

(** C19: the gradients of rolling_corr and rolling_beta: when both samples of
    each pair are differentiable functions of a parameter and the window is
    full and has positive variances (of x alone for beta), the entry points
    return the value of the plain operator and its derivative, in exact
    arithmetic. *)
Theorem pair_gradients_correct ss s :
  (period <= length (ss ++ [s]))%nat -> Forall (tangents x0) (ss ++ [s]) ->
  0 < Wvar_x (pwindow (ss ++ [s]) x0) ->
  (grad_at rolling_corr_slots rolling_corr_sensitivity_slots id param_id c fresh_pair
     RollingPairSensitivityState_init ->
   0 < Wvar_y (pwindow (ss ++ [s]) x0) ->
   differentiates x0
     (fun x => final (fun p => jit_rt_rolling_corr id (at_ x (fst p)) (at_ x (snd p))
        (Z.of_nat period)) ss s c)
     (final (fun p => jit_rt_rolling_corr_grad id (at_ x0 (fst p)) (slope_ (fst p))
        (at_ x0 (snd p)) (slope_ (snd p)) (Z.of_nat period) param_id) ss s c)) /\
  (grad_at rolling_beta_slots rolling_beta_sensitivity_slots id param_id c fresh_pair
     RollingPairSensitivityState_init ->
   differentiates x0
     (fun x => final (fun p => jit_rt_rolling_beta id (at_ x (fst p)) (at_ x (snd p))
        (Z.of_nat period)) ss s c)
     (final (fun p => jit_rt_rolling_beta_grad id (at_ x0 (fst p)) (slope_ (fst p))
        (at_ x0 (snd p)) (slope_ (snd p)) (Z.of_nat period) param_id) ss s c)).
Proof.
  intros Hl HF Hvx. split; [intros Hat Hvy|intros Hat].
  - exists (wcorr (ss ++ [s])), (wcorr_slope (ss ++ [s])). split_and!; [| |by apply derivable_wcorr].
    + apply near_impl with (2 := near_and _ _ _ (near_var_x _ HF Hvx) (near_var_y _ HF Hvy)).
      intros x Hx. unfold jit_rt_rolling_corr.
      rewrite (final_with_node rolling_corr_slots id) with (st := fresh_pair) by apply Hat.
      apply (pair_plain_final x RollingPairCorrelation (fun l => (period <= length l)%nat /\
        0 < Wvar_x (pwindow l x) /\ 0 < Wvar_y (pwindow l x)) (fun l => Some (wcorr l x))); [done|].
      intros l st (Hll & Hx1 & Hy1) Hst. destruct (pair_full _ _ _ Hst Hll) as (Hf & Hs & Hc & Hne).
      destruct (RollingPair_read_exact st _ Hne Hc Hf Hs) as [-> _].
      destruct (Rleb_spec (Wvar_x (pwindow l x)) 0); [lra|].
      by destruct (Rleb_spec (Wvar_y (pwindow l x)) 0); [lra|].
    + unfold jit_rt_rolling_corr_grad.
      rewrite (final_with_grad rolling_corr_slots rolling_corr_sensitivity_slots) with
        (st := fresh_pair) (g := RollingPairSensitivityState_init) by done.
      apply (pair_grad_final _ (fun l => (period <= length l)%nat /\
        0 < Wvar_x (pwindow l x0) /\ 0 < Wvar_y (pwindow l x0))
        (fun l => (Some (wcorr l x0), Some (wcorr_slope l)))); [done|by intros l [? _]|].
      intros l st g (Hll & Hx1 & Hy1) Hst. by apply corr_grad_read_exact.
  - exists (wbeta (ss ++ [s])), (wbeta_slope (ss ++ [s])). split_and!; [| |by apply derivable_wbeta].
    + apply near_impl with (2 := near_var_x _ HF Hvx). intros x Hx. unfold jit_rt_rolling_beta.
      rewrite (final_with_node rolling_beta_slots id) with (st := fresh_pair) by apply Hat.
      apply (pair_plain_final x RollingPairBeta (fun l => (period <= length l)%nat /\
        0 < Wvar_x (pwindow l x)) (fun l => Some (wbeta l x))); [done|].
      intros l st (Hll & Hx1) Hst. destruct (pair_full _ _ _ Hst Hll) as (Hf & Hs & Hc & Hne).
      destruct (RollingPair_read_exact st _ Hne Hc Hf Hs) as [_ ->].
      by destruct (Rleb_spec (Wvar_x (pwindow l x)) 0); [lra|].
    + unfold jit_rt_rolling_beta_grad.
      rewrite (final_with_grad rolling_beta_slots rolling_beta_sensitivity_slots) with
        (st := fresh_pair) (g := RollingPairSensitivityState_init) by done.
      apply (pair_grad_final _ (fun l => (period <= length l)%nat /\ 0 < Wvar_x (pwindow l x0))
        (fun l => (Some (wbeta l x0), Some (wbeta_slope l)))); [done|by intros l [? _]|].
      intros l st g (Hll & Hx1) Hst. by apply beta_grad_read_exact.
Qed.
End pair_theorem.

Lemma pair_gradients_correct_witness :
  differentiates 3
    (fun x => final (fun p => jit_rt_rolling_beta 0 (at_ x (fst p)) (at_ x (snd p)) 2)
       [(a_constant 1, the_parameter)] (the_parameter, a_constant 5) (gradient_ctx 2))
    (final (fun p => jit_rt_rolling_beta_grad 0 (at_ 3 (fst p)) (slope_ (fst p))
        (at_ 3 (snd p)) (slope_ (snd p)) 2 0)
       [(a_constant 1, the_parameter)] (the_parameter, a_constant 5) (gradient_ctx 2)).
Proof.
  destruct (pair_gradients_correct 3 0 0 (gradient_ctx 2) 2 ltac:(unfold is_period; simpl; lia)
    [(a_constant 1, the_parameter)] (the_parameter, a_constant 5)) as [_ Hbeta].
  - simpl. lia.
  - repeat constructor; simpl; auto.
  - unfold Wvar_x, Wsum. simpl. lra.
  - apply Hbeta. split; simpl; [lia|lia|done|done].
Defined.
