(* ===== verification/FamilyFacts.v ===== *)
(** * Families of values, one for each value of a parameter

    A family of numbers is a function of the parameter, or NaN, near a point.
    Here: when a family is differentiable with the gradient interpreter's
    value and slope, and the operators without state on such families. *)

From Stdlib Require Import Reals Lra.
From S2P Require Import Prelude Errors Arith RealArith Calculus Ast SymbolTable SignalProgram Rolling RollingFacts PairFacts Context Interpreter JitRuntime Gradient ForwardGradient PipelineFacts ForwardGradientFacts GradientFacts PairGradientFacts.

Notation xVG := (ValueGradient xreal).
Notation xctx := (SignalContext xreal xreal).

(** ** Families of values *)

Section tracks.
Local Open Scope R_scope.
Variable x0 : R.
Implicit Types (f : R -> xreal) (b : xVG).

(** Near the point the family is a function with [b]'s value and slope at the
    point, or NaN. *)
Definition curve_of f b : Prop :=
  exists V g, near x0 (fun x => f x = Some (V x)) /\ b = MkVG (Some (V x0)) (Some g) /\
    derivable_pt_lim V x0 g.
Definition nan_of f b : Prop := near x0 (fun x => f x = None) /\ vg_value b = None.

(** With [c] it does not depend on the parameter. *)
Definition tracks (c : bool) f b : Prop :=
  (curve_of f b \/ nan_of f b) /\ (c = true -> near x0 (fun x => f x = vg_value b)).

Lemma tracks_here c f b : tracks c f b -> f x0 = vg_value b.
Proof.
  intros [[(V & g & Hn & -> & _)|[Hn ->]] _]; by apply near_here in Hn.
Qed.

Lemma tracks_weaken c f b : tracks c f b -> tracks false f b.
Proof. by intros [H _]. Qed.

Lemma tracks_const c (v : xreal) : tracks c (fun _ => v) (MkVG v (fint 0)).
Proof.
  split; [|intros _; by apply near_always]. destruct v as [r|].
  - left. exists (fun _ => r), 0. split_and!; [by apply near_always| |apply derivable_pt_lim_const].
    by rewrite fint_xreal.
  - right. split; [by apply near_always|done].
Qed.

(** What a family is near the point matters alone. *)
Lemma tracks_ext c f f' b : near x0 (fun x => f' x = f x) -> tracks c f b -> tracks c f' b.
Proof.
  intros He [HV Hc]. assert (Hn : forall (v : R -> xreal), near x0 (fun x => f x = v x) -> near x0 (fun x => f' x = v x)).
  { intros v Hv. apply near_impl with (2 := near_and _ _ _ He Hv). by intros x [-> ->]. }
  split; [|intros E; by apply Hn, Hc]. destruct HV as [(V & g & H1 & H2)|[H1 H2]].
  - left. exists V, g. split; [by apply Hn|done].
  - right. split; [by apply Hn|done].
Qed.

Lemma tracks_bool c (t : R -> bool) (v : bool) :
  near x0 (fun x => t x = v) -> tracks c (fun x => fbool (t x)) (MkVG (fbool v) (fint 0)).
Proof.
  intros Ht. apply (tracks_ext c (fun _ => fbool v)); [|apply tracks_const].
  apply near_impl with (2 := Ht). by intros x ->.
Qed.

(** Operations that propagate NaN. *)
Lemma tracks_map1 c f b (op : xreal -> xreal) b' :
  tracks c f b -> op None = None -> vg_value b' = op (vg_value b) ->
  (forall V g, b = MkVG (Some (V x0)) (Some g) -> derivable_pt_lim V x0 g ->
     curve_of (fun x => op (Some (V x))) b' \/ nan_of (fun x => op (Some (V x))) b') ->
  tracks c (fun x => op (f x)) b'.
Proof.
  intros [HV Hc] Hop Hb Hg. split.
  - destruct HV as [(V & g & Hn & -> & Hd)|[Hn Hv]].
    + destruct (Hg V g eq_refl Hd) as [(W & h & Hw & H2)|[Hw H2]].
      * left. exists W, h. split; [|done]. apply near_impl with (2 := near_and _ _ _ Hn Hw). by intros x [-> ->].
      * right. split; [|done]. apply near_impl with (2 := near_and _ _ _ Hn Hw). by intros x [-> ->].
    + right. unfold nan_of. rewrite Hb, Hv. split; [|done]. apply near_impl with (2 := Hn). by intros x ->.
  - intros E. apply near_impl with (2 := Hc E). intros x ->. by rewrite Hb.
Qed.

Lemma tracks_map2 cl cr fl l fr r (op : xreal -> xreal -> xreal) b' :
  tracks cl fl l -> tracks cr fr r -> (forall v, op None v = None) -> (forall v, op v None = None) ->
  vg_value b' = op (vg_value l) (vg_value r) ->
  (forall V g W h, l = MkVG (Some (V x0)) (Some g) -> r = MkVG (Some (W x0)) (Some h) ->
     derivable_pt_lim V x0 g -> derivable_pt_lim W x0 h ->
     curve_of (fun x => op (Some (V x)) (Some (W x))) b') ->
  tracks (cl && cr) (fun x => op (fl x) (fr x)) b'.
Proof.
  intros [HV Hc] [HW Hc'] Hl Hr Hb Hg. split.
  - destruct HV as [(V & g & Hn & -> & Hd)|[Hn Hv]].
    + destruct HW as [(W & h & Hn' & -> & Hd')|[Hn' Hv']].
      * destruct (Hg V g W h eq_refl eq_refl Hd Hd') as (Z' & k & Hw & H2). left. exists Z', k. split; [|done].
        apply near_impl with (2 := near_and _ _ _ Hn (near_and _ _ _ Hn' Hw)). by intros x (-> & -> & ->).
      * right. unfold nan_of. rewrite Hb, Hv'. split; [|done]. apply near_impl with (2 := Hn'). by intros x ->.
    + right. unfold nan_of. rewrite Hb, Hv. split; [|done]. apply near_impl with (2 := Hn). by intros x ->.
  - intros [E1 E2]%andb_prop. apply near_impl with (2 := near_and _ _ _ (Hc E1) (Hc' E2)).
    intros x [-> ->]. by rewrite Hb.
Qed.

(** Tests. *)
Lemma near_test2 {A} cl cr fl l fr r (t : xreal -> xreal -> A) :
  tracks cl fl l -> tracks cr fr r -> (forall u v, t None u = t None v) -> (forall u v, t u None = t v None) ->
  cl && cr = true \/ (forall V g W h, l = MkVG (Some (V x0)) (Some g) -> r = MkVG (Some (W x0)) (Some h) ->
     derivable_pt_lim V x0 g -> derivable_pt_lim W x0 h ->
     near x0 (fun x => t (Some (V x)) (Some (W x)) = t (Some (V x0)) (Some (W x0)))) ->
  near x0 (fun x => t (fl x) (fr x) = t (vg_value l) (vg_value r)).
Proof.
  intros [HV Hc] [HW Hc'] Hl Hr [[E1 E2]%andb_prop|Hg].
  { apply near_impl with (2 := near_and _ _ _ (Hc E1) (Hc' E2)). by intros x [-> ->]. }
  destruct HV as [(V & g & Hn & -> & Hd)|[Hn Hv]].
  - destruct HW as [(W & h & Hn' & -> & Hd')|[Hn' Hv']].
    + apply near_impl with (2 := near_and _ _ _ Hn (near_and _ _ _ Hn' (Hg V g W h eq_refl eq_refl Hd Hd'))).
      by intros x (-> & -> & ->).
    + rewrite Hv'. apply near_impl with (2 := Hn'). intros x ->. apply Hr.
  - rewrite Hv. apply near_impl with (2 := Hn). intros x ->. apply Hl.
Qed.

Lemma near_lt V W g h :
  derivable_pt_lim V x0 g -> derivable_pt_lim W x0 h -> V x0 <> W x0 ->
  near x0 (fun x => (V x < W x /\ V x0 < W x0) \/ (W x < V x /\ W x0 < V x0)).
Proof.
  intros HV HW Hne. pose proof (derivable_pt_lim_minus V W x0 g h HV HW) as Hd.
  assert (Hn : (V - W)%F x0 <> 0) by (unfold minus_fct; lra).
  destruct (Rdichotomy _ _ Hn) as [Hs|Hs].
  - apply near_impl with (2 := near_neg x0 _ _ Hd Hs). unfold minus_fct in *. intros x Hx. left. lra.
  - apply near_impl with (2 := near_pos x0 _ _ Hd Hs). unfold minus_fct in *. intros x Hx. right. lra.
Qed.

(** Whether a value is nonzero. *)
Lemma near_truth c f b :
  tracks c f b -> c = true \/ vg_value b <> Some 0 ->
  near x0 (fun x => fne (f x) (fint 0 : xreal) = fne (vg_value b) (fint 0)).
Proof.
  intros [HV Hc] [E|Hne]; [apply near_impl with (2 := Hc E); by intros x ->|].
  destruct HV as [(V & g & Hn & -> & Hd)|[Hn Hv]].
  - cbn [vg_value] in *. assert (H0 : V x0 <> 0) by congruence.
    apply near_impl with (2 := near_and _ _ _ Hn (near_nonzero x0 _ _ Hd H0)). intros x [-> Hx].
    unfold fne. rewrite fint_xreal, !feq_xreal. by destruct (Reqb_spec (V x) 0), (Reqb_spec (V x0) 0).
  - rewrite Hv. apply near_impl with (2 := Hn). by intros x ->.
Qed.
End tracks.

(** ** Operators without state *)

(** Operators whose result is a truth value. *)
Definition is_test (k : BinaryOpKind) : bool :=
  match k with Add | Sub | Mul | Div => false | _ => true end.

(** The operands are no point where the operator is not smooth: no zero
    divisor, no tie of a comparison, and no zero as a truth value, unless the
    operands do not depend on the parameter. *)
Definition regular_truth (c : bool) (b : xVG) : Prop := c = true \/ vg_value b <> Some 0%R.
Definition regular_binary (k : BinaryOpKind) (cl cr : bool) (l r : xVG) : Prop :=
  match k with
  | Add | Sub | Mul => True
  | Div => vg_value r <> Some 0%R
  | Gt | Lt | Gte | Lte => cl && cr = true \/ vg_value l = None \/ vg_value l <> vg_value r
  | Eq | NotEq => cl && cr = true \/ fabs (fsub (vg_value l) (vg_value r)) <> flit 1 12
  | And | Or => regular_truth cl l /\ regular_truth cr r
  end.

Section stateless.
Local Open Scope R_scope.
Variable x0 : R.
Notation tracks := (tracks x0).

Lemma tracks_unary c f b k : tracks c f b -> tracks c (fun x => eval_unary k (f x)) (grad_unary k b).
Proof.
  intros Hb. destruct k; [done|]. apply (tracks_map1 x0 c f b fopp); [done..|].
  intros V g -> Hd. left. exists (fun x => - V x), (- g).
  split_and!; [by apply near_always|done|by apply derivable_pt_lim_opp].
Qed.

(** The comparisons. *)
Lemma near_order (cmp : xreal -> xreal -> bool) (p : R -> R -> bool) cl cr fl l fr r :
  (forall u v, cmp u v = xcmp p u v) ->
  (forall a b a' b', (a < b /\ a' < b') \/ (b < a /\ b' < a') -> p a b = p a' b') ->
  tracks cl fl l -> tracks cr fr r -> cl && cr = true \/ vg_value l = None \/ vg_value l <> vg_value r ->
  near x0 (fun x => cmp (fl x) (fr x) = cmp (vg_value l) (vg_value r)).
Proof.
  intros Hcmp Hp Hl Hr Hreg. apply (near_test2 x0 cl cr fl l fr r cmp); [done..| | |].
  - intros u v. by rewrite !Hcmp.
  - intros u v. rewrite !Hcmp. by destruct u, v.
  - destruct Hreg as [E|Hreg]; [by left|right]. intros V g W h -> -> HV HW.
    destruct Hreg as [Hn|Hne]; [done|]. cbn [vg_value] in Hne.
    apply near_impl with (2 := near_lt x0 V W g h HV HW ltac:(congruence)). intros x Hx.
    rewrite !Hcmp. cbn [xcmp]. by apply Hp.
Qed.

Lemma near_equal cl cr fl l fr r :
  tracks cl fl l -> tracks cr fr r ->
  cl && cr = true \/ fabs (fsub (vg_value l) (vg_value r)) <> flit 1 12 ->
  near x0 (fun x => flt (fabs (fsub (fl x) (fr x))) (flit 1 12 : xreal)
                    = flt (fabs (fsub (vg_value l) (vg_value r))) (flit 1 12)).
Proof.
  intros Hl Hr Hreg.
  apply (near_test2 x0 cl cr fl l fr r (fun u v => flt (fabs (fsub u v)) (flit 1 12 : xreal)));
    [done..|by intros [] []|].
  destruct Hreg as [E|Hreg]; [by left|right]. intros V g W h -> -> HV HW. cbn [vg_value] in Hreg.
  pose proof (derivable_pt_lim_minus V W x0 g h HV HW) as Hd.
  apply (near_threshold x0 (V - W)%F _ (1 / 10 ^ 12) Hd).
  intros E. apply Hreg. unfold minus_fct in E. cbn. by rewrite E.
Qed.

Lemma fge_not_lt (a : xreal) (c : R) : a <> None -> fge a (Some c : xreal) = negb (flt a (Some c)).
Proof.
  destruct a as [a|]; [|done]. intros _. unfold fge. rewrite fle_xreal, flt_xreal.
  destruct (Rleb_spec c a), (Rltb_spec a c); simpl; try done; lra.
Qed.

Lemma near_unequal cl cr fl l fr r :
  tracks cl fl l -> tracks cr fr r ->
  cl && cr = true \/ fabs (fsub (vg_value l) (vg_value r)) <> flit 1 12 ->
  near x0 (fun x => fge (fabs (fsub (fl x) (fr x))) (flit 1 12 : xreal)
                    = fge (fabs (fsub (vg_value l) (vg_value r))) (flit 1 12)).
Proof.
  intros Hl Hr Hreg.
  apply (near_test2 x0 cl cr fl l fr r (fun u v => fge (fabs (fsub u v)) (flit 1 12 : xreal)));
    [done..|by intros [] []|].
  destruct Hreg as [E|Hreg]; [by left|right]. intros V g W h -> -> HV HW. cbn [vg_value] in Hreg.
  pose proof (derivable_pt_lim_minus V W x0 g h HV HW) as Hd.
  assert (Hne : Rabs ((V - W)%F x0) <> 1 / 10 ^ 12).
  { intros E. apply Hreg. unfold minus_fct in E. cbn. by rewrite E. }
  apply near_impl with (2 := near_threshold x0 (V - W)%F _ (1 / 10 ^ 12) Hd Hne).
  unfold minus_fct. intros x Hx. change (flit 1 12 : xreal) with (Some (1 / 10 ^ 12) : xreal).
  rewrite !fge_not_lt by done. f_equal. exact Hx.
Qed.

Lemma tracks_binary k cl cr fl l fr r :
  tracks cl fl l -> tracks cr fr r -> regular_binary k cl cr l r ->
  tracks (cl && cr || is_test k) (fun x => eval_binary k (fl x) (fr x)) (grad_binary k l r).
Proof.
  intros Hl Hr Hreg.
  assert (Hstrict : is_test k = false -> tracks (cl && cr) (fun x => eval_binary k (fl x) (fr x)) (grad_binary k l r)).
  { intros Ht. destruct k; try done; cbn [eval_binary grad_binary regular_binary] in *.
    all: destruct l as [lv lg], r as [rv rg]; refine (tracks_map2 x0 cl cr fl _ fr _ _ _ Hl Hr _ _ _ _);
      [done|by intros []|done|].
    all: intros V g W h [= -> ->] [= -> ->] HV HW.
    - exists (fun x => V x + W x), (g + h). split_and!; [by apply near_always|done|].
      by apply (derivable_pt_lim_plus V W).
    - exists (fun x => V x - W x), (g - h). split_and!; [by apply near_always|done|].
      by apply (derivable_pt_lim_minus V W).
    - exists (fun x => V x * W x), (g * W x0 + V x0 * h). split_and!; [by apply near_always|done|].
      by apply derivable_prod.
    - assert (Hne : W x0 <> 0) by (cbn [vg_value] in Hreg; congruence).
      exists (fun x => V x / W x), ((g * W x0 - V x0 * h) / (W x0 * W x0)). split_and!.
      + apply near_impl with (2 := near_nonzero x0 W h HW Hne). intros x Hx. by apply fdiv_xreal.
      + cbn [grad_binary]. change (@dbl xreal xreal exact) with Fp_xreal. rewrite !fmul_xreal, !fsub_xreal, !fdiv_xreal by nra. done.
      + by apply derivable_quot. }
  destruct (is_test k) eqn:Ht.
  2: { rewrite orb_false_r. by apply Hstrict. }
  rewrite orb_true_r. destruct l as [lv lg], r as [rv rg].
  destruct k; try done; cbn [eval_binary grad_binary regular_binary] in *; apply tracks_bool.
  - apply (near_order fgt (fun a b => Rltb b a) cl cr fl (MkVG lv lg) fr (MkVG rv rg)); try done.
    + by intros [] [].
    + intros a b a' b' Hab. destruct (Rltb_spec b a), (Rltb_spec b' a'); try done; lra.
  - apply (near_order flt Rltb cl cr fl (MkVG lv lg) fr (MkVG rv rg)); try done.
    intros a b a' b' Hab. destruct (Rltb_spec a b), (Rltb_spec a' b'); try done; lra.
  - apply (near_order fge (fun a b => Rleb b a) cl cr fl (MkVG lv lg) fr (MkVG rv rg)); try done.
    + by intros [] [].
    + intros a b a' b' Hab. destruct (Rleb_spec b a), (Rleb_spec b' a'); try done; lra.
  - apply (near_order fle Rleb cl cr fl (MkVG lv lg) fr (MkVG rv rg)); try done.
    intros a b a' b' Hab. destruct (Rleb_spec a b), (Rleb_spec a' b'); try done; lra.
  - by apply (near_equal cl cr fl (MkVG lv lg) fr (MkVG rv rg)).
  - by apply (near_unequal cl cr fl (MkVG lv lg) fr (MkVG rv rg)).
  - destruct Hreg as [H1 H2].
    apply near_impl with (2 := near_and _ _ _ (near_truth x0 _ _ _ Hl H1) (near_truth x0 _ _ _ Hr H2)).
    by intros x [-> ->].
  - destruct Hreg as [H1 H2].
    apply near_impl with (2 := near_and _ _ _ (near_truth x0 _ _ _ Hl H1) (near_truth x0 _ _ _ Hr H2)).
    by intros x [-> ->].
Qed.

(** The functions of one argument, away from zero. *)
Lemma tracks_abs c f b :
  tracks c f b -> vg_value b <> Some 0 -> tracks c (fun x => fabs (f x)) (grad_abs b).
Proof.
  intros Hb Hne. apply (tracks_map1 x0 c f b fabs); [done..|]. intros V g -> Hd. left.
  cbn [vg_value] in Hne. assert (H0 : V x0 <> 0) by congruence.
  exists (fun x => Rabs (V x)), (if Rltb 0 (V x0) then g else - g).
  split_and!; [by apply near_always| |by apply derivable_pt_lim_Rabs].
  unfold grad_abs, fgt. cbn [vg_value vg_gradient]. change (@dbl xreal xreal exact) with Fp_xreal.
  rewrite !fint_xreal, !flt_xreal. f_equal.
  destruct (Rltb_spec 0 (V x0)); [rewrite fmul_xreal; f_equal; lra|].
  destruct (Rltb_spec (V x0) 0); [rewrite fmul_xreal; f_equal; lra|lra].
Qed.

Lemma tracks_log c f b :
  tracks c f b -> vg_value b <> Some 0 -> tracks c (fun x => dlog (f x)) (grad_log b).
Proof.
  intros Hb Hne. apply (tracks_map1 x0 c f b dlog); [done..|]. intros V g -> Hd.
  cbn [vg_value] in Hne. assert (H0 : V x0 <> 0) by congruence.
  destruct (Rdichotomy _ _ H0) as [Hs|Hs].
  - right. assert (Hn : near x0 (fun x => V x < 0)) by (by eapply near_neg).
    assert (Hneg : forall x, V x < 0 -> dlog (Some (V x) : xreal) = None).
    { intros x Hx. cbn. by destruct (Rltb_spec 0 (V x)); [lra|]. }
    split; [apply near_impl with (2 := Hn); exact Hneg|by apply Hneg].
  - left. exists (fun x => ln (V x)), (g / V x0). split_and!.
    + apply near_impl with (2 := near_pos x0 _ _ Hd Hs). intros x Hx. cbn. by destruct (Rltb_spec 0 (V x)); [|lra].
    + unfold grad_log. cbn [vg_value vg_gradient]. f_equal.
      * cbn. by destruct (Rltb_spec 0 (V x0)); [|lra].
      * by apply fdiv_xreal.
    + eapply derivable_eq; [apply (derivable_pt_lim_comp V ln x0 g (/ V x0) Hd), derivable_pt_lim_ln, Hs|done|].
      field. lra.
Qed.

Lemma tracks_sqrt c f b :
  tracks c f b -> vg_value b <> Some 0 -> tracks c (fun x => fsqrt (f x)) (grad_sqrt b).
Proof.
  intros Hb Hne. apply (tracks_map1 x0 c f b fsqrt); [done..|]. intros V g -> Hd.
  cbn [vg_value] in Hne. assert (H0 : V x0 <> 0) by congruence.
  destruct (Rdichotomy _ _ H0) as [Hs|Hs].
  - right. assert (Hn : near x0 (fun x => V x < 0)) by (by eapply near_neg).
    assert (Hneg : forall x, V x < 0 -> fsqrt (Some (V x) : xreal) = None).
    { intros x Hx. cbn. by destruct (Rltb_spec (V x) 0); [|lra]. }
    split; [apply near_impl with (2 := Hn); exact Hneg|by apply Hneg].
  - left. pose proof (sqrt_lt_R0 _ Hs). exists (fun x => sqrt (V x)), (g / (2 * sqrt (V x0))). split_and!.
    + apply near_impl with (2 := near_pos x0 _ _ Hd Hs). intros x Hx. apply fsqrt_xreal. lra.
    + unfold grad_sqrt. cbn [vg_value vg_gradient]. change (@dbl xreal xreal exact) with Fp_xreal.
      by rewrite fsqrt_xreal, fint_xreal, fmul_xreal, fdiv_xreal by lra.
    + by apply derivable_sqrt.
Qed.
End stateless.
