(* ===== verification/FamilyOperators.v ===== *)
(** * Families of operator states

    The operators with state on families of values: what relates the states
    of an operator for the values of the parameter near a point to the two
    states the gradient interpreter keeps at the point, and that a step of
    the operator keeps it and gives a differentiable result. *)

From Stdlib Require Import Reals Lra.
From S2P Require Import Prelude Errors Arith RealArith Calculus Ast SymbolTable SignalProgram Rolling RollingFacts PairFacts Context Interpreter JitRuntime Gradient ForwardGradient GradientFacts PairGradientFacts FamilyFacts.

(** The relations say that both states are those after the values, or the
    slopes, of some samples. *)

(** The state a push leaves, if it succeeds. *)
Definition after_push {A S} (r : Res (A * S)) (st : S) : S :=
  match r with Ok (_, st') => st' | Err _ => st end.

Section operators.
Local Open Scope R_scope.
Variable x0 : R.
Notation tracks := (tracks x0).
Notation tangent := (tangent x0).
Notation ring := (RingStatsState xreal xreal).

(** A number that is differentiable, as a sample. *)
Lemma tracks_curve c f b :
  tracks c f b -> vg_value b <> None ->
  exists a, tangent a /\ near x0 (fun x => f x = at_ x a) /\ b = MkVG (at_ x0 a) (slope_ a).
Proof.
  intros [[(V & g & Hn & -> & Hd)|[_ Hv]] _] Hne; [|done]. by exists (MkCurve V g).
Qed.

Lemma curve_tracks V g : derivable_pt_lim V x0 g -> tracks false (fun x => Some (V x)) (MkVG (Some (V x0)) (Some g)).
Proof. intros Hd. split; [|done]. left. exists V, g. split_and!; [by apply near_always|done..]. Qed.

Lemma nan_tracks g : tracks false (fun _ => None) (MkVG None g).
Proof. split; [|done]. right. split; [by apply near_always|done]. Qed.

(** *** sma *)

Definition sma_rel (pl : R -> ring) (st g : ring) : Prop := forall p, (0 < p)%nat ->
  exists l, Forall tangent l /\
    near x0 (fun x => ring_at p (fun s => curve s x) l (RingStatsPrepare p (pl x))) /\
    ring_at p (fun s => curve s x0) l (RingStatsPrepare p st) /\
    ring_at p slope l (RingStatsPrepare p g).

Lemma RingStatsPrepare_other p (st : ring) :
  (0 < p)%nat -> capacity st <> p -> RingStatsPrepare p st = RingStatsPrepare p RingStatsState_init.
Proof.
  intros Hp Hc. unfold RingStatsPrepare. rewrite !decide_False; [done| |done]. simpl. lia.
Qed.

Lemma ring_at_fresh p f (st : ring) :
  (0 < p)%nat -> capacity st <> p -> ring_at p f [] (RingStatsPrepare p st).
Proof. intros Hp Hc. rewrite RingStatsPrepare_other by done. by apply ring_exact_fresh. Qed.

Lemma ring_at_capacity p f l (st : ring) : ring_at p f l st -> capacity st = p.
Proof. intros Hat. apply Hat. Qed.

(** The states after a push, as one relation. *)
Lemma sma_rel_pushed p l pl st g :
  (0 < p)%nat -> Forall tangent l -> near x0 (fun x => ring_at p (fun s => curve s x) l (pl x)) ->
  ring_at p (fun s => curve s x0) l st -> ring_at p slope l g -> sma_rel pl st g.
Proof.
  intros Hp Hl Hpl Hst Hg q Hq. destruct (decide (q = p)) as [->|Hne].
  - exists l. split; [done|]. rewrite !RingStatsPrepare_same by (by eapply ring_at_capacity).
    split_and!; try done. apply near_impl with (2 := Hpl). intros x Hx.
    by rewrite RingStatsPrepare_same by (by eapply ring_at_capacity).
  - exists []. split; [done|]. split_and!; try (apply ring_at_fresh; [done|]; erewrite ring_at_capacity; done).
    apply near_impl with (2 := Hpl). intros x Hx. apply ring_at_fresh; [done|]. by rewrite (ring_at_capacity _ _ _ _ Hx).
Qed.

Lemma sma_tracks p c f b pl st g out st' g' :
  (0 < p)%nat -> sma_rel pl st g -> tracks c f b -> vg_value b <> None ->
  sma_forward p b st g = Ok (out, st', g') ->
  exists h pl', near x0 (fun x => ring_step RingStatsMean p (f x) (pl x) = Ok (h x, pl' x)) /\
    tracks false h out /\ sma_rel pl' st' g'.
Proof.
  intros Hp HR Hf Hne Hs. destruct (tracks_curve _ _ _ Hf Hne) as (a & Ha & Hn & ->).
  destruct (HR p Hp) as (l & Hl & Hpl & Hst & Hg). unfold sma_forward in Hs. cbn [vg_value vg_gradient] in Hs.
  rewrite !RingStatsPush_prepare in Hs by done.
  destruct (ring_at_step p (fun s => curve s x0) _ _ a Hst) as (st1 & E1 & Hst1). unfold at_, slope_ in Hs.
  rewrite E1 in Hs. cbn [rbind] in Hs.
  destruct (ring_at_step p slope _ _ a Hg) as (g1 & E2 & Hg1). rewrite E2 in Hs. injection Hs as <- <- <-.
  set (pl' x := after_push (ring_step RingStatsMean p (at_ x a) (pl x)) (pl x)).
  set (h x := if (p <=? length (l ++ [a]))%nat then Some (Rmean (map (fun s => curve s x) (last_n p (l ++ [a])))) else None : xreal).
  assert (Hstep : near x0 (fun x => ring_step RingStatsMean p (f x) (pl x) = Ok (h x, pl' x) /\
    ring_at p (fun s => curve s x) (l ++ [a]) (pl' x))).
  { apply near_impl with (2 := near_and _ _ _ Hn Hpl). intros x [-> Hx]. unfold pl', ring_step.
    rewrite RingStatsPush_prepare by done.
    destruct (ring_at_step p (fun s => curve s x) _ _ a Hx) as (st2 & E3 & Hst2). unfold at_. rewrite E3. cbn.
    split; [|done]. destruct (ring_at_window _ _ _ _ Hst2) as (_ & _ & _ & _ & Hfull & _). rewrite Hfull. unfold h.
    destruct (Nat.leb_spec p (length (l ++ [a]))); [|done]. by rewrite (ring_at_mean p _ _ _ Hst2) by lia. }
  exists h, pl'. split_and!.
  - apply near_impl with (2 := Hstep). by intros x [H _].
  - destruct (ring_at_window _ _ _ _ Hst1) as (_ & _ & _ & _ & -> & _). unfold h.
    destruct (Nat.leb_spec p (length (l ++ [a]))) as [Hle|_]; [|apply nan_tracks]. cbn [negb].
    rewrite (ring_at_mean p _ _ _ Hst1), (ring_at_mean p _ _ _ Hg1) by lia.
    apply (curve_tracks (fun x => Rmean (map (fun s => curve s x) (last_n p (l ++ [a]))))).
    apply derivable_Rmean, last_n_forall. apply Forall_app. split; [done|by constructor].
  - apply (sma_rel_pushed p (l ++ [a])); try done.
    + apply Forall_app. split; [done|by constructor].
    + apply near_impl with (2 := Hstep). by intros x [_ H].
Qed.
(** *** lag *)

(** A value of the parameter's and its gradient, as a ring keeps them: NaN
    samples are delayed like the others. *)
Notation Sample := ((R -> xreal) * xVG)%type.
Definition tracked (s : Sample) : Prop := tracks false (fst s) (snd s).
Notation lag_holds_of p f l st := (lag_holds p (map f l) st).

Definition lag_samples p (l : list Sample) (pl : R -> LagState xreal) (st g : LagState xreal) : Prop :=
  Forall tracked l /\ near x0 (fun x => lag_holds_of p (fun s => fst s x) l (pl x)) /\
  lag_holds_of p (fun s => vg_value (snd s)) l st /\ lag_holds_of p (fun s => vg_gradient (snd s)) l g.

Definition lag_rel (pl : R -> LagState xreal) (st g : LagState xreal) : Prop :=
  (exists f b, near x0 (fun x => LagValue (pl x) = Ok (f x)) /\
     LagValue st = Ok (vg_value b) /\ LagValue g = Ok (vg_gradient b) /\ tracks false f b) /\
  forall p, (0 < p)%nat ->
    exists l, lag_samples p l (fun x => LagPrepare p (pl x)) (LagPrepare p st) (LagPrepare p g).

Lemma lag_samples_value p l pl st g :
  lag_samples p l pl st g ->
  exists f b, near x0 (fun x => LagValue (pl x) = Ok (f x)) /\
    LagValue st = Ok (vg_value b) /\ LagValue g = Ok (vg_gradient b) /\ tracks false f b.
Proof.
  intros (Hl & Hpl & Hst & Hg).
  set (f x := lag_of p (map (fun s => fst s x) l)).
  exists f, (MkVG (lag_of p (map (fun s => vg_value (snd s)) l)) (lag_of p (map (fun s => vg_gradient (snd s)) l))).
  split_and!.
  - apply near_impl with (2 := Hpl). intros x Hx. by rewrite (LagValue_holds _ _ _ Hx).
  - by rewrite (LagValue_holds _ _ _ Hst).
  - by rewrite (LagValue_holds _ _ _ Hg).
  - unfold f, lag_of. rewrite !length_map. destruct (length l <? p)%nat eqn:El.
    { apply (tracks_ext x0 false (fun _ => None)); [|apply nan_tracks]. apply near_always. intros x. by rewrite length_map, El. }
    apply (tracks_ext x0 false (fun x => default fnan ((fun s => fst s x) <$> l !! (length l - p)%nat)));
      [apply near_always; intros x; by rewrite length_map, El, list_lookup_fmap|].
    rewrite !list_lookup_fmap. destruct (l !! (length l - p)%nat) as [s|] eqn:E; [|apply nan_tracks].
    simpl. pose proof (Forall_lookup_1 _ _ _ _ Hl E) as Hs. unfold tracked in Hs. by destruct (snd s).
Qed.

Lemma lag_holds_same p xs (st : LagState xreal) : lag_holds p xs st -> LagPrepare p st = st.
Proof. intros [Hc _]. unfold LagPrepare. by rewrite decide_True. Qed.

Lemma lag_rel_pushed p l pl st g : (0 < p)%nat -> lag_samples p l pl st g -> lag_rel pl st g.
Proof.
  intros Hp Hs. split; [by eapply lag_samples_value|]. destruct Hs as (Hl & Hpl & Hst & Hg).
  intros q Hq. destruct (decide (q = p)) as [->|Hne].
  - exists l. unfold lag_samples. rewrite (lag_holds_same _ _ _ Hst), (lag_holds_same _ _ _ Hg).
    split_and!; try done. apply near_impl with (2 := Hpl). intros x Hx. by rewrite (lag_holds_same _ _ _ Hx).
  - exists []. split; [done|]. destruct Hst as [Hst _], Hg as [Hg _]. split_and!.
    + apply near_impl with (2 := Hpl). intros x [Hx _]. apply lag_holds_prepare; [done|]. by rewrite Hx.
    + apply lag_holds_prepare; [done|]. by rewrite Hst.
    + apply lag_holds_prepare; [done|]. by rewrite Hg.
Qed.

Lemma LagPush_holds p xs (st : LagState xreal) x :
  (0 < p)%nat -> lag_holds p xs (LagPrepare p st) ->
  exists st', LagPush st p x = Ok st' /\ lag_holds p (xs ++ [x]) st'.
Proof.
  intros Hp Hst. unfold LagPush. destruct (Nat.eqb_spec p 0); [lia|]. cbn [ensure negb rbind].
  by apply LagStep_holds.
Qed.

Lemma lag_tracks p c f b pl st g out st' g' :
  (0 < p)%nat -> lag_rel pl st g -> tracks c f b ->
  lag_forward p b st g = Ok (out, st', g') ->
  exists h pl', near x0 (fun x => lag_step p (f x) (pl x) = Ok (h x, pl' x)) /\
    tracks false h out /\ lag_rel pl' st' g'.
Proof.
  intros Hp [(h & o & Hh & Eo & Eg & Ho) HR] Hf Hs.
  destruct (HR p Hp) as (l & Hl & Hpl & Hst & Hg). unfold lag_forward in Hs.
  change (@dbl xreal xreal exact) with Fp_xreal in Hs. rewrite Eo, Eg in Hs. cbn [rbind] in Hs.
  destruct (LagPush_holds p _ _ (vg_value b) Hp Hst) as (st1 & E1 & Hst1). rewrite E1 in Hs. cbn [rbind] in Hs.
  destruct (LagPush_holds p _ _ (vg_gradient b) Hp Hg) as (g1 & E2 & Hg1). rewrite E2 in Hs. injection Hs as <- <- <-.
  exists h, (fun x => after_push (lag_step p (f x) (pl x)) (pl x)).
  assert (Hstep : near x0 (fun x => lag_step p (f x) (pl x) = Ok (h x, after_push (lag_step p (f x) (pl x)) (pl x)) /\
    lag_holds_of p (fun s => fst s x) (l ++ [(f, b)]) (after_push (lag_step p (f x) (pl x)) (pl x)))).
  { apply near_impl with (2 := near_and _ _ _ Hh Hpl). intros x [Ex Hx]. unfold lag_step.
    destruct (LagPush_holds p _ _ (f x) Hp Hx) as (st2 & E3 & Hst2). rewrite Ex. cbn [rbind]. rewrite E3. cbn [rbind after_push].
    by rewrite map_app. }
  split_and!; [apply near_impl with (2 := Hstep); by intros x [H _]|by destruct o|].
  apply (lag_rel_pushed p (l ++ [(f, b)])); [done|]. split_and!.
  - apply Forall_app. split; [done|]. constructor; [by eapply tracks_weaken|done].
  - apply near_impl with (2 := Hstep). by intros x [_ H].
  - by rewrite map_app.
  - by rewrite map_app.
Qed.

(** *** ema and ema_alpha *)

Definition regular_alpha (c : bool) (a : xVG) : Prop :=
  exists v, vg_value a = Some v /\ (0 < v < 1 \/ c = true /\ 0 <= v <= 1).

Lemma near_between V d lo hi :
  derivable_pt_lim V x0 d -> lo < V x0 < hi -> near x0 (fun x => lo < V x < hi).
Proof.
  intros Hd Hb.
  assert (H1 : derivable_pt_lim (V - fct_cte lo)%F x0 (d - 0)) by (apply derivable_pt_lim_minus; [done|apply derivable_pt_lim_const]).
  assert (H2 : derivable_pt_lim (V - fct_cte hi)%F x0 (d - 0)) by (apply derivable_pt_lim_minus; [done|apply derivable_pt_lim_const]).
  assert (P1 : 0 < (V - fct_cte lo)%F x0) by (unfold minus_fct, fct_cte; lra).
  assert (P2 : (V - fct_cte hi)%F x0 < 0) by (unfold minus_fct, fct_cte; lra).
  apply near_impl with (2 := near_and _ _ _ (near_pos x0 _ _ H1 P1) (near_neg x0 _ _ H2 P2)).
  unfold minus_fct, fct_cte. intros x [? ?]. lra.
Qed.

(** The interpreter accepts the weight. *)
Lemma regular_alpha_near c f a :
  tracks c f a -> regular_alpha c a ->
  near x0 (fun x => negb (flt (f x) (fint 0) || fgt (f x) (fint 1 : xreal)) = true).
Proof.
  intros Ha (v & Hv & Hr).
  assert (Hok : near x0 (fun x => exists u, f x = Some u /\ 0 <= u <= 1)).
  { destruct Ha as [HV Hc]. destruct Hr as [Hb|[E Hb]].
    - destruct HV as [(V & g & Hn & -> & Hd)|[_ E]]; [|congruence]. injection Hv as Hv. subst v.
      apply near_impl with (2 := near_and _ _ _ Hn (near_between V g 0 1 Hd Hb)).
      intros x [-> Hx]. exists (V x). split; [done|lra].
    - apply near_impl with (2 := Hc E). intros x ->. by exists v. }
  apply near_impl with (2 := Hok). intros x (u & -> & Hu). unfold fgt. rewrite !fint_xreal, !flt_xreal.
  by destruct (Rltb_spec u 0), (Rltb_spec 1 u); try lra.
Qed.

Lemma ema_forward_grad x a st (g : xreal) p :
  ema_forward x a st g =
  rmap (fun '(o, st', g') => (of_pair o, MkEma (e_value st') (e_alpha st') (e_period st) true, g'))
    (ema_alpha_grad_step (vg_value x) (vg_gradient x) (vg_value a) (vg_gradient a) p st g).
Proof. unfold ema_forward, ema_alpha_grad_step. by destruct (e_initialized st). Qed.

(** The relation reads the value and whether the state is initialised. *)
Lemma ema_rel_core (pl pl' : R -> EMAState xreal) st st' (g : xreal) :
  (forall x, e_value (pl' x) = e_value (pl x) /\ e_initialized (pl' x) = e_initialized (pl x)) ->
  e_value st' = e_value st -> e_initialized st' = e_initialized st ->
  ema_rel x0 pl (st, g) -> ema_rel x0 pl' (st', g).
Proof.
  intros Hpl Hv Hi [[H1 H2]|(V & d & Hn & H1 & H2 & H3)]; [left|right]; cbn [fst snd] in *.
  - split; [congruence|]. intros x. destruct (Hpl x) as [_ ->]. done.
  - exists V, d. split_and!; try congruence; [|apply H3..]. apply near_impl with (2 := Hn).
    intros x. by destruct (Hpl x) as [-> ->].
Qed.

Lemma ema_alpha_tracks c f x ca fa a pl st g out st' g' :
  ema_rel x0 pl (st, g) -> tracks c f x -> vg_value x <> None -> tracks ca fa a -> vg_value a <> None ->
  ema_forward x a st g = Ok (out, st', g') ->
  exists h pl', near x0 (fun y => ema_alpha_step (fa y) (f y) (pl y) = Ok (h y, pl' y)) /\
    tracks false h out /\ ema_rel x0 pl' (st', g').
Proof.
  intros HR Hf Hx Ha Hna Hs.
  destruct (tracks_curve _ _ _ Hf Hx) as (s & Hs' & Hn & ->).
  destruct (tracks_curve _ _ _ Ha Hna) as (al & Hal & Hn' & ->).
  destruct (ema_rel_step x0 0 (s, al) pl (st, g) (conj Hs' Hal) HR) as (V & d & pl' & [st2 g2] & Hst & Hg & Hd & HR').
  rewrite (ema_forward_grad _ _ _ _ 0) in Hs. unfold on_pair in Hg. cbn [fst snd vg_value vg_gradient] in Hs, Hg.
  destruct (ema_alpha_grad_step _ _ _ _ _ _ _) as [[[o st3] g3]|] eqn:E; [|done].
  injection Hg as -> -> ->. cbn in Hs. injection Hs as <- <- <-.
  exists (fun y => Some (V y)), pl'. split_and!.
  - apply near_impl with (2 := near_and _ _ _ Hst (near_and _ _ _ Hn Hn')). by intros y (Hy & -> & ->).
  - by apply curve_tracks.
  - apply (ema_rel_core pl' pl' st2); try done.
    unfold ema_alpha_grad_step in E. destruct (negb _); by injection E as _ _ <- _.
Qed.

(** [ema] keeps the slot's own weight next to the value. *)
Lemma ema_step_alpha p (x : xreal) st v st' :
  ema_alpha_step (ema_alpha_of p) x st = Ok (v, st') ->
  ema_step p x st = Ok (v, MkEma (e_value st') (e_alpha st) (e_period st') (e_initialized st')).
Proof. by intros [= <- <-]. Qed.

Lemma ema_tracks p c f x pl st g out st' g' :
  (0 < p)%nat -> ema_rel x0 pl (st, g) -> tracks c f x -> vg_value x <> None ->
  ema_forward x (MkVG (ema_alpha_of p) (fint 0)) st g = Ok (out, st', g') ->
  exists h pl', near x0 (fun y => ema_step p (f y) (pl y) = Ok (h y, pl' y)) /\
    tracks false h out /\ ema_rel x0 pl' (st', g').
Proof.
  intros Hp HR Hf Hx Hs.
  assert (Ha : (ema_alpha_of p : xreal) <> None).
  { unfold ema_alpha_of. change (@dbl xreal xreal exact) with Fp_xreal. pose proof (pos_INR p).
    rewrite !fint_xreal, fnat_xreal, fadd_xreal, fdiv_xreal by lra. done. }
  destruct (ema_alpha_tracks c f x true (fun _ => ema_alpha_of p) _ pl st g _ _ _ HR Hf Hx (tracks_const x0 true _) Ha Hs)
    as (h & pl' & Hst & Ho & HR').
  exists h, (fun y => MkEma (e_value (pl' y)) (e_alpha (pl y)) (e_period (pl' y)) (e_initialized (pl' y))).
  split_and!; [|done|by apply (ema_rel_core pl' _ st')].
  apply near_impl with (2 := Hst). intros y Hy. by apply ema_step_alpha.
Qed.

(** *** rolling_corr and rolling_beta *)

Notation pair_state := (RollingPairState xreal xreal).
Notation pair_sens := (RollingPairSensitivityState xreal).

Definition pair_rel (pl : R -> pair_state) (st : pair_state) (g : pair_sens) : Prop :=
  forall p, is_period p -> exists l, Forall (tangents x0) l /\
    near x0 (fun x => pair_at p x l (RollingPairPrepare p (pl x))) /\
    pair_grad_at x0 p l (RollingPairPrepare p st) (PairSensPrepare p g).

Lemma pair_exact_same p xs (st : pair_state) : pair_exact p xs st -> RollingPairPrepare p st = st.
Proof. intros [[Hc _] _]. unfold RollingPairPrepare. by rewrite decide_True. Qed.

Lemma pair_exact_other p xs (st : pair_state) q :
  pair_exact p xs st -> (0 < q)%nat -> q <> p -> RollingPairPrepare q st = RollingPairPrepare q RollingPairState_init.
Proof.
  intros [[Hc _] _] Hq Hne. unfold RollingPairPrepare. rewrite !decide_False; [done|cbn; lia|congruence].
Qed.

Lemma pair_fresh_grad_at p :
  (0 < p)%nat -> pair_grad_at x0 p [] (RollingPairPrepare p RollingPairState_init)
    (PairSensPrepare p RollingPairSensitivityState_init).
Proof.
  intros Hp. unfold PairSensPrepare, RollingPairPrepare. rewrite !decide_False by (cbn; lia).
  assert (Hnil : forall h, ring_rep p (replicate p (fint 0 : xreal)) 0 0 (map h (@nil (Curve * Curve))))
    by (intros h; apply ring_rep_nil; [done|apply length_replicate]).
  split; [|done|apply Hnil|apply Hnil|].
  - pose proof (pair_exact_fresh p Hp) as Hf. unfold RollingPairPrepare in Hf. by rewrite decide_False in Hf by (cbn; lia).
  - cbn [s_sums]. unfold zero_sums, dsums_of. change (@ldb xreal xreal exact) with Fp_xreal. by rewrite fint_xreal.
Qed.

Lemma pair_rel_pushed p l pl st g :
  Forall (tangents x0) l -> near x0 (fun x => pair_at p x l (pl x)) -> pair_grad_at x0 p l st g -> pair_rel pl st g.
Proof.
  intros Hl Hpl Hg q Hq. destruct (decide (q = p)) as [->|Hne].
  - exists l. split_and!; [done| |].
    + apply near_impl with (2 := Hpl). intros x Hx. by rewrite (pair_exact_same _ _ _ Hx).
    + rewrite (pair_exact_same _ _ _ (pg_primal _ _ _ _ _ Hg)). unfold PairSensPrepare. rewrite decide_True; [done|apply Hg].
  - assert (Hq0 : (0 < q)%nat) by (unfold is_period in Hq; lia). exists []. split_and!; [done| |].
    + apply near_impl with (2 := Hpl). intros x Hx. rewrite (pair_exact_other _ _ _ _ Hx) by done. by apply pair_exact_fresh.
    + rewrite (pair_exact_other _ _ _ _ (pg_primal _ _ _ _ _ Hg)) by done.
      assert (E : PairSensPrepare q g = PairSensPrepare q RollingPairSensitivityState_init).
      { unfold PairSensPrepare. rewrite !decide_False; [done|cbn; lia|]. by rewrite (pg_cap _ _ _ _ _ Hg). }
      rewrite E. by apply pair_fresh_grad_at.
Qed.

(** What a full window gives, where it is not degenerate. *)
Definition pair_reads (read : pair_state -> xreal) (grad : pair_state -> pair_sens -> xreal * xreal) : Prop :=
  (forall st, RollingPairFull st = false -> read st = None) /\
  forall p l st g, is_period p -> Forall (tangents x0) l -> pair_grad_at x0 p l st g -> (p <= length l)%nat ->
    fst (grad st g) <> None ->
    exists V d, grad st g = (Some (V x0), Some d) /\ derivable_pt_lim V x0 d /\
      near x0 (fun x => forall st', pair_at p x l st' -> read st' = Some (V x)).

Lemma pair_reads_corr : pair_reads RollingPairCorrelation corr_grad_read.
Proof.
  split; [intros st Hf; unfold RollingPairCorrelation; by rewrite Hf|]. intros p l st g Hp Hl Hat Hle Hne.
  destruct (pair_full p Hp l st x0 (pg_primal _ _ _ _ _ Hat) Hle) as (Hf & Hs & Hc & Hw).
  destruct (RollingPair_read_exact st _ Hw Hc Hf Hs) as [E _]. unfold corr_grad_read in Hne. cbn [fst] in Hne. rewrite E in Hne.
  destruct (Rleb_spec (Wvar_x (pwindow p l x0)) 0); [done|]. destruct (Rleb_spec (Wvar_y (pwindow p l x0)) 0); [done|].
  exists (wcorr p l), (wcorr_slope x0 p l). split_and!; [apply corr_grad_read_exact; (done || lra)|apply derivable_wcorr; (done || lra)|].
  apply near_impl with (2 := near_and _ _ _ (near_var_x x0 p l Hl ltac:(lra)) (near_var_y x0 p l Hl ltac:(lra))).
  intros x [Hx Hy] st' Hst'. destruct (pair_full p Hp l st' x Hst' Hle) as (Hf' & Hs' & Hc' & Hw').
  destruct (RollingPair_read_exact st' _ Hw' Hc' Hf' Hs') as [-> _].
  destruct (Rleb_spec (Wvar_x (pwindow p l x)) 0); [lra|]. by destruct (Rleb_spec (Wvar_y (pwindow p l x)) 0); [lra|].
Qed.

Lemma pair_reads_beta : pair_reads RollingPairBeta beta_grad_read.
Proof.
  split; [intros st Hf; unfold RollingPairBeta; by rewrite Hf|]. intros p l st g Hp Hl Hat Hle Hne.
  destruct (pair_full p Hp l st x0 (pg_primal _ _ _ _ _ Hat) Hle) as (Hf & Hs & Hc & Hw).
  destruct (RollingPair_read_exact st _ Hw Hc Hf Hs) as [_ E]. unfold beta_grad_read in Hne. cbn [fst] in Hne. rewrite E in Hne.
  destruct (Rleb_spec (Wvar_x (pwindow p l x0)) 0); [done|].
  exists (wbeta p l), (wbeta_slope x0 p l). split_and!; [apply beta_grad_read_exact; (done || lra)|apply derivable_wbeta; (done || lra)|].
  apply near_impl with (2 := near_var_x x0 p l Hl ltac:(lra)).
  intros x Hx st' Hst'. destruct (pair_full p Hp l st' x Hst' Hle) as (Hf' & Hs' & Hc' & Hw').
  destruct (RollingPair_read_exact st' _ Hw' Hc' Hf' Hs') as [_ ->]. by destruct (Rleb_spec (Wvar_x (pwindow p l x)) 0); [lra|].
Qed.

Lemma pair_at_filling p x l st : is_period p -> pair_at p x l st -> RollingPairFull st = (p <=? length l)%nat.
Proof.
  intros Hp Hst. destruct (Nat.leb_spec p (length l)) as [Hle|Hlt]; [by apply (pair_full p Hp l st x)|].
  destruct Hst as [(Hc & Hr & _) _]. pose proof (rr_count _ _ _ _ _ Hr) as Hcount. rewrite !length_map in Hcount.
  unfold RollingPairFull. rewrite Hc. by destruct (Nat.eqb_spec (p_count st) p); [lia|].
Qed.

Lemma pair_tracks read grad p cx f vx cy fy vy pl st g out st' g' :
  pair_reads read grad -> is_period p -> pair_rel pl st g ->
  tracks cx f vx -> vg_value vx <> None -> tracks cy fy vy -> vg_value vy <> None ->
  pair_forward grad p vx vy st g = Ok (out, st', g') -> vg_value out <> None \/ RollingPairFull st' = false ->
  exists h pl', near x0 (fun x => pair_step read p (f x) (fy x) (pl x) = Ok (h x, pl' x)) /\
    tracks false h out /\ pair_rel pl' st' g'.
Proof.
  intros [Hnan Hread] Hp HR Hf Hx Hfy Hy Hs Hreg. pose proof (pair_period_pos p Hp) as Hp0.
  destruct (tracks_curve _ _ _ Hf Hx) as (a & Ha & Hn & ->). destruct (tracks_curve _ _ _ Hfy Hy) as (b & Hb & Hn' & ->).
  destruct (HR p Hp) as (l & Hl & Hpl & Hg).
  assert (Hl' : Forall (tangents x0) (l ++ [(a, b)])) by (apply Forall_app; split; [done|by repeat constructor]).
  unfold pair_forward, pair_grad_step in Hs. cbn [vg_value vg_gradient] in Hs.
  destruct (pair_grad_push_exact x0 p Hp0 l st g (a, b) Hg) as (st1 & g1 & E1 & Hat & Hc). cbn [fst snd] in E1.
  rewrite E1 in Hs. cbn [rbind] in Hs. injection Hs as <- <- <-.
  rewrite (pair_at_filling p x0 _ _ Hp (pg_primal _ _ _ _ _ Hat)) in Hreg |- *.
  set (pl' x := after_push (pair_step read p (f x) (fy x) (pl x)) (pl x)).
  assert (Hstep : near x0 (fun x => pair_step read p (f x) (fy x) (pl x) = Ok (read (pl' x), pl' x) /\
    pair_at p x (l ++ [(a, b)]) (pl' x))).
  { apply near_impl with (2 := near_and _ _ _ Hn (near_and _ _ _ Hn' Hpl)). unfold pl', pair_step. intros x (-> & -> & Hx').
    destruct (RollingPairPush_exact p _ _ (at2 x (a, b)) Hx') as (st2 & E2 & Hst2).
    cbn [at2 fst snd] in E2. unfold at_. rewrite E2. cbn. split; [done|]. unfold pair_at. by rewrite map_app. }
  assert (HR' : pair_rel pl' st1 g1).
  { apply (pair_rel_pushed p (l ++ [(a, b)])); try done. apply near_impl with (2 := Hstep). by intros x [_ H]. }
  destruct (Nat.leb_spec p (length (l ++ [(a, b)]))) as [Hle|Hlt]; cbn [negb] in *.
  - destruct Hreg as [Hreg|]; [|done]. cbn [of_pair vg_value] in Hreg.
    destruct (Hread p _ _ _ Hp Hl' Hat Hle Hreg) as (V & d & E & Hd & Hnear). rewrite E.
    exists (fun x => Some (V x)), pl'. split_and!; [|by apply curve_tracks|done].
    apply near_impl with (2 := near_and _ _ _ Hstep Hnear). intros x [[H1 H2] H3]. by rewrite H1, (H3 _ H2).
  - exists (fun _ => None), pl'. split_and!; [|apply nan_tracks|done].
    apply near_impl with (2 := Hstep). intros x [H1 H2]. rewrite H1, Hnan; [done|].
    rewrite (pair_at_filling p x _ _ Hp H2). by apply Nat.leb_gt.
Qed.
(** *** kalman1d *)

(** The noises are positive; a process noise of zero must not depend on the
    parameter.  Above 1e-18 the two guards on the denominator agree. *)
Definition regular_noises (cq : bool) (q r : xVG) : Prop :=
  exists u v, vg_value q = Some u /\ vg_value r = Some v /\
    (0 < u \/ cq = true /\ 0 <= u) /\ 1 / 10 ^ 18 < v.

Lemma near_nonneg c f b u :
  tracks c f b -> vg_value b = Some u -> 0 < u \/ c = true /\ 0 <= u ->
  near x0 (fun x => exists v, f x = Some v /\ 0 <= v).
Proof.
  intros [HV Hc] Hb [Hu|[E Hu]].
  - destruct HV as [(V & g & Hn & -> & Hd)|[_ E]]; [|congruence]. injection Hb as Hb. subst u.
    apply near_impl with (2 := near_and _ _ _ Hn (near_pos x0 _ _ Hd Hu)). intros x [-> Hx]. exists (V x). split; [done|lra].
  - apply near_impl with (2 := Hc E). intros x ->. by exists u.
Qed.

(** The interpreter accepts them. *)
Lemma regular_noises_near cq fq q cr fr r :
  tracks cq fq q -> tracks cr fr r -> regular_noises cq q r ->
  near x0 (fun x => negb (flt (fq x) (fint 0) || fle (fr x) (fint 0 : xreal)) = true).
Proof.
  intros Hq Hr (u & v & Eu & Ev & Hu & Hv). assert (Hv0 : 0 < v) by (assert (0 < 1 / 10 ^ 18) by (apply Rdiv_lt_0_compat; [lra|apply pow_lt; lra]); lra).
  assert (Hrn : near x0 (fun x => exists w, fr x = Some w /\ 0 < w)).
  { destruct Hr as [[(V & g & Hn & -> & Hd)|[_ E]] _]; [|congruence]. injection Ev as Ev. subst v.
    apply near_impl with (2 := near_and _ _ _ Hn (near_pos x0 _ _ Hd Hv0)). intros x [-> Hx]. by exists (V x). }
  apply near_impl with (2 := near_and _ _ _ (near_nonneg _ _ _ _ Hq Eu Hu) Hrn).
  intros x [(a & -> & Ha) (b & -> & Hb)]. rewrite !fint_xreal, flt_xreal, fle_xreal.
  by destruct (Rltb_spec a 0), (Rleb_spec b 0); try lra.
Qed.

Lemma kalman_forward_grad m q r st g out st' g' u v P :
  kalman1d_grad_step (vg_value m) (vg_gradient m) (vg_value q) (vg_gradient q) (vg_value r) (vg_gradient r) st g
    = Ok (out, st', g') ->
  vg_value q = Some u -> vg_value r = Some v -> 0 <= u -> 1 / 10 ^ 18 < v ->
  (k_initialized st = true -> k_p st = Some P /\ 0 < P) ->
  kalman_forward m q r st g = Ok (of_pair out, st', g').
Proof.
  intros Hs Eq Er Hu Hv Hi. unfold kalman1d_grad_step in Hs. unfold kalman_forward.
  destruct (k_initialized st) eqn:Ei; cbn [negb] in *; [|by injection Hs as <- <- <-].
  destruct (Hi eq_refl) as [Ep HP]. rewrite Eq, Er, Ep in *.
  change (@dbl xreal xreal exact) with Fp_xreal in *. rewrite !fadd_xreal in *.
  change (flit 1 18 : xreal) with (Some (1 / 10 ^ 18) : xreal). rewrite fint_xreal in Hs. rewrite fle_xreal in *.
  assert (0 < 1 / 10 ^ 18) by (apply Rdiv_lt_0_compat; [lra|apply pow_lt; lra]).
  destruct (Rleb_spec (P + u + v) 0); [lra|]. destruct (Rleb_spec (P + u + v) (1 / 10 ^ 18)); [lra|].
  rewrite !fint_xreal in *. destruct (flt _ _); by injection Hs as <- <- <-.
Qed.

Lemma kalman_tracks c f m cq fq q cr fr r pl st g out st' g' :
  kalman_rel x0 pl (st, g) -> tracks c f m -> vg_value m <> None -> tracks cq fq q -> tracks cr fr r ->
  regular_noises cq q r -> kalman_forward m q r st g = Ok (out, st', g') ->
  exists h pl', near x0 (fun x => Kalman1dStep (pl x) (f x) (fq x) (fr x) = (h x, pl' x)) /\
    tracks false h out /\ kalman_rel x0 pl' (st', g').
Proof.
  intros HR Hf Hm Hfq Hfr (u & v & Eq & Er & Hu & Hv) Hs.
  assert (0 < 1 / 10 ^ 18) by (apply Rdiv_lt_0_compat; [lra|apply pow_lt; lra]).
  destruct (tracks_curve _ _ _ Hf Hm) as (a & Ha & Hn & Em).
  destruct (tracks_curve _ _ _ Hfq ltac:(congruence)) as (b & Hb & Hn' & Eq').
  destruct (tracks_curve _ _ _ Hfr ltac:(congruence)) as (d & Hd & Hn'' & Er').
  assert (Hb0 : curve b x0 = u) by (rewrite Eq' in Eq; by injection Eq).
  assert (Hd0 : curve d x0 = v) by (rewrite Er' in Er; by injection Er).
  destruct (kalman_rel_step x0 (a, b, d) pl (st, g)) as (V & gr & pl' & [st2 g2] & Hst & Hg & HV & HR'); [|done|].
  { split_and!; try done; [rewrite Hb0; destruct Hu as [|[]]; lra|lra]. }
  unfold on_pair, kalman_grad in Hg. cbn [fst snd] in Hg.
  destruct (kalman1d_grad_step _ _ _ _ _ _ _ _) as [[[o st3] g3]|] eqn:E; [|done]. cbn [rbind] in Hg. injection Hg as -> -> ->.
  assert (HP : exists P, k_initialized st = true -> k_p st = Some P /\ 0 < P).
  { destruct HR as [[Hi _]|(X & P & dX & dP & _ & Hi & _ & Hp & _ & _ & _ & HP)]; cbn [fst snd] in *.
    - exists 0. congruence.
    - by exists (P x0). }
  destruct HP as [P HP].
  assert (Hfw : kalman_forward m q r st g = Ok (of_pair (Some (V x0), Some gr), st2, g2)).
  { eapply kalman_forward_grad; [|exact Eq|exact Er|destruct Hu as [|[]]; lra|done|exact HP]. rewrite Em, Eq', Er'. exact E. }
  rewrite Hfw in Hs. injection Hs as <- <- <-.
  exists (fun x => Some (V x)), pl'. split_and!; [|by apply curve_tracks|done].
  apply near_impl with (2 := near_and _ _ _ Hst (near_and _ _ _ Hn (near_and _ _ _ Hn' Hn''))).
  intros x (Hx & -> & -> & ->). by injection Hx.
Qed.

(** *** cross_above and cross_below *)

(** The comparisons of the last operands are those at the point. *)
Definition cross_rel (pl : R -> CrossState xreal) (st : CrossState xreal) : Prop :=
  near x0 (fun x => c_initialized (pl x) = c_initialized st /\
    fle (prev_a (pl x)) (prev_b (pl x)) = fle (prev_a st) (prev_b st) /\
    fge (prev_a (pl x)) (prev_b (pl x)) = fge (prev_a st) (prev_b st)).

Definition regular_order (ca cb : bool) (a b : xVG) : Prop :=
  ca && cb = true \/ vg_value a = None \/ vg_value a <> vg_value b.

Lemma near_orders ca fa a cb fb b :
  tracks ca fa a -> tracks cb fb b -> regular_order ca cb a b ->
  near x0 (fun x => (flt (fa x) (fb x) = flt (vg_value a) (vg_value b) /\ fgt (fa x) (fb x) = fgt (vg_value a) (vg_value b)) /\
    (fle (fa x) (fb x) = fle (vg_value a) (vg_value b) /\ fge (fa x) (fb x) = fge (vg_value a) (vg_value b))).
Proof.
  intros Ha Hb Hreg.
  assert (Hord : forall (cmp : xreal -> xreal -> bool) p, (forall u v, cmp u v = xcmp p u v) ->
    (forall a b a' b', (a < b /\ a' < b') \/ (b < a /\ b' < a') -> p a b = p a' b') ->
    near x0 (fun x => cmp (fa x) (fb x) = cmp (vg_value a) (vg_value b))).
  { intros cmp p Hcmp Hp. by apply (near_order x0 cmp p ca cb fa a fb b). }
  repeat apply near_and.
  - apply (Hord flt Rltb); [done|]. intros u v u' v' Hab. destruct (Rltb_spec u v), (Rltb_spec u' v'); try done; lra.
  - apply (Hord fgt (fun a b => Rltb b a)); [by intros [] []|].
    intros u v u' v' Hab. destruct (Rltb_spec v u), (Rltb_spec v' u'); try done; lra.
  - apply (Hord fle Rleb); [done|]. intros u v u' v' Hab. destruct (Rleb_spec u v), (Rleb_spec u' v'); try done; lra.
  - apply (Hord fge (fun a b => Rleb b a)); [by intros [] []|].
    intros u v u' v' Hab. destruct (Rleb_spec v u), (Rleb_spec v' u'); try done; lra.
Qed.

(** Which way the operator looks. *)
Definition cross_ops (before now : xreal -> xreal -> bool) : Prop :=
  before = fle /\ now = fgt \/ before = fge /\ now = flt.

Lemma cross_tracks before now ca fa a cb fb b pl st out st' :
  cross_ops before now -> cross_rel pl st -> tracks ca fa a -> tracks cb fb b -> regular_order ca cb a b ->
  cross_step before now (vg_value a) (vg_value b) st = Ok (out, st') ->
  exists h pl', near x0 (fun x => cross_step before now (fa x) (fb x) (pl x) = Ok (h x, pl' x)) /\
    tracks true h (MkVG out (fint 0)) /\ cross_rel pl' st'.
Proof.
  intros Hops HR Ha Hb Hreg [= <- <-]. pose proof (near_orders _ _ _ _ _ _ Ha Hb Hreg) as Hn.
  exists (fun _ => if negb (c_initialized st) then fint 0 else fbool (before (prev_a st) (prev_b st) && now (vg_value a) (vg_value b))).
  exists (fun x => MkCross (fa x) (fb x) true). split_and!.
  - apply near_impl with (2 := near_and _ _ _ HR Hn). intros x [(Hi & Hle & Hge) [[Hlt Hgt] _]].
    unfold cross_step. rewrite Hi. destruct Hops as [[-> ->]|[-> ->]]; by rewrite ?Hle, ?Hge, ?Hlt, ?Hgt.
  - apply tracks_const.
  - apply near_impl with (2 := Hn). by intros x [_ [? ?]].
Qed.
End operators.
