(* ===== verification/DerivativeFacts.v ===== *)
(** * The forward gradient interpreter computes the derivative of a signal

    In exact arithmetic, on trees with state: where a run of the gradient
    interpreter is regular, the interpreter run with the parameter at any
    value near the point succeeds, its results are differentiable functions
    of the parameter, and the gradients [EvaluateSignalGradient] returned are
    their derivatives.  The proof relates a family of interpreter states, one
    per value of the parameter, to one state of the gradient interpreter. *)

From Stdlib Require Import Reals Lra.
From S2P Require Import Prelude Errors Arith RealArith Calculus Ast SymbolTable SignalProgram Rolling RollingFacts PairFacts Context Interpreter JitRuntime Gradient ForwardGradient PipelineFacts ForwardGradientFacts GradientFacts PairGradientFacts FamilyFacts FamilyOperators.

Notation xexpr := (Expr xreal).
Notation xnodes := (NodeStates xreal xreal).
Notation xG := (G (D:=xreal) (L:=xreal)).
Notation xM := (M (D:=xreal) (L:=xreal)).
Notation xgstate := (GradState xreal xreal).
Notation xstate := (EvalState xreal xreal).

(** ** Regular runs *)

Definition is_cross (name : string) : bool := (name =? "cross_above")%string || (name =? "cross_below")%string.
Definition is_quote (name : string) : bool :=
  (name =? "mid")%string || (name =? "bid")%string || (name =? "ask")%string || (name =? "spread")%string.
Definition is_math (name : string) : bool :=
  (name =? "abs")%string || (name =? "log")%string || (name =? "sqrt")%string.

(** [P] holds of what the computation returns, if it returns. *)
Definition after {B} (n : xG B) (g : xgstate) (P : B -> xgstate -> Prop) : Prop :=
  forall b g', n g = Ok (b, g') -> P b g'.

Lemma after_bind {A B} (n : xG A) (h : A -> xG B) g P :
  after (fun s => rbind (n s) (fun '(a, s) => h a s)) g P -> after n g (fun a g => after (h a) g P).
Proof. intros Ha a g1 H1 b g2 H2. apply Ha. by rewrite H1. Qed.

Definition is_number (b : xVG) : Prop := vg_value b <> None.

Section regular.
Variables (symbols : SymbolTable) (market : MarketState xreal) (target : nat).
(** The node ids of the calls of cross_above and cross_below. *)
Variable crosses : gset Z.
Notation gv := (EvalGradExpr (L:=xreal) symbols market target).

(** The expression does not depend on the parameter near the point. *)
Fixpoint constant (e : xexpr) : bool :=
  match e with
  | NumberLiteral _ _ | IdentifierExpr _ _ => true
  | ParameterExpr _ _ id => negb (id =? Z.of_nat target)%Z
  | UnaryOp _ _ x => constant x
  | BinaryOp _ k l r => constant l && constant r || is_test k
  | Conditional _ _ t f => constant t && constant f
  | FunctionCall _ name args id _ =>
      if (0 <? id)%Z then bool_decide (id ∈ crosses)
      else is_quote name || match args with [e] => is_math name && constant e | _ => false end
  end.

(** No operator of the run is at a point where it is not smooth: see
    [regular_binary], [regular_truth], [regular_alpha], [regular_noises] and
    [regular_order]; abs, log and sqrt are not at zero, a window of pairs is
    not degenerate, and averages and filters are given numbers.
    rolling_std, zscore, rolling_min and rolling_max are left out. *)
Definition regular_call (regular : xexpr -> xgstate -> Prop) (name : string) (args : list xexpr) (id : Z)
  (g : xgstate) : Prop :=
  if is_quote name then (id <= 0)%Z /\ length args = 1
  else if is_math name then (id <= 0)%Z /\
    match args with
    | [e] => regular e g /\ after (gv e) g (fun b _ => vg_value b <> Some 0%R)
    | _ => False
    end
  else if (name =? "lag")%string then match args with [e; _] => regular e g | _ => False end
  else if (name =? "sma")%string || (name =? "ema")%string then
    match args with [e; _] => regular e g /\ after (gv e) g (fun b _ => is_number b) | _ => False end
  else if (name =? "ema_alpha")%string then
    match args with
    | [e; a] => regular e g /\ after (gv e) g (fun b g => is_number b /\ regular a g /\
        after (gv a) g (fun ba _ => regular_alpha (constant a) ba))
    | _ => False
    end
  else if (name =? "rolling_corr")%string || (name =? "rolling_beta")%string then
    match args with
    | [ex; ey; _] =>
        regular ex g /\ after (gv ex) g (fun b g => is_number b /\ regular ey g /\
          after (gv ey) g (fun b _ => is_number b)) /\
        after (GradPair target gv name args id) g (fun b g => is_number b \/
          forall st, slots_get (if (name =? "rolling_corr")%string then rolling_corr_slots else rolling_beta_slots)
            (nodes (g_ctx g)) !! Z.to_nat id = Some st -> RollingPairFull st = false)
    | _ => False
    end
  else if (name =? "kalman1d")%string then
    match args with
    | [ex; eq; er] => regular eq g /\ after (gv eq) g (fun q g => regular er g /\
        after (gv er) g (fun r g => regular_noises (constant eq) q r /\ regular ex g /\
          after (gv ex) g (fun b _ => is_number b)))
    | _ => False
    end
  else if is_cross name then
    match args with
    | [ea; eb] => regular ea g /\ after (gv ea) g (fun a g => regular eb g /\
        after (gv eb) g (fun b _ => regular_order (constant ea) (constant eb) a b))
    | _ => False
    end
  else False.

Fixpoint regular (e : xexpr) (g : xgstate) : Prop :=
  match e with
  | NumberLiteral _ _ | IdentifierExpr _ _ | ParameterExpr _ _ _ => True
  | UnaryOp _ _ x => regular x g
  | BinaryOp _ k l r => regular l g /\ after (gv l) g (fun bl g => regular r g /\
      after (gv r) g (fun br _ => regular_binary k (constant l) (constant r) bl br))
  | Conditional _ c t f => regular c g /\ after (gv c) g (fun b g => regular_truth (constant c) b /\
      if fne (vg_value b) (fint 0) then regular t g else regular f g)
  | FunctionCall _ name args id _ =>
      match (if (0 <? id)%Z then stateful_cache g !! id else None) with
      | Some _ => True
      | None => (id ∈ crosses -> is_cross name = true) /\ regular_call regular name args id g
      end
  end.
End regular.

(** ** The family of contexts and the gradient interpreter's *)

Section linked.
Local Open Scope R_scope.
Variables (x0 : R) (target : nat) (ps : list xreal) (crosses : gset Z).
Notation tracks := (tracks x0).
Notation near := (near x0).

(** The parameters, the one of interest at [x]. *)
Definition params_at (x : R) : list xreal := <[target := Some x]> ps.

Definition slots_linked {S T} (sl : Slots xnodes S) (gl : Slots (Sensitivities xreal xreal) T)
  (Rel : (R -> S) -> S -> T -> Prop) (c : R -> xctx) (c' : xctx) : Prop :=
  forall k st, slots_get sl (nodes c') !! k = Some st ->
    exists pl g, near (fun x => slots_get sl (nodes (c x)) !! k = Some (pl x)) /\
      slots_get gl (sens c') !! (k * gradient_param_count c' + target)%nat = Some g /\ Rel pl st g.

Definition crosses_linked (c : R -> xctx) (c' : xctx) : Prop :=
  forall k st, cross_states (nodes c') !! k = Some st ->
    exists pl, near (fun x => cross_states (nodes (c x)) !! k = Some (pl x)) /\ cross_rel x0 pl st.

Definition ema_linked pl st (g : xreal) : Prop := ema_rel x0 pl (st, g).
Definition kalman_linked pl st g : Prop := kalman_rel x0 pl (st, g).

Record ctx_linked (c : R -> xctx) (c' : xctx) : Prop := {
  cl_params : params c' = Some (params_at x0);
  cl_near : near (fun x => params (c x) = Some (params_at x) /\ num_params (c x) = length ps);
  cl_count : gradient_param_count c' <> 0%nat;
  cl_lag : slots_linked lag_slots lag_sensitivity_slots (lag_rel x0) c c';
  cl_sma : slots_linked sma_slots sma_sensitivity_slots (sma_rel x0) c c';
  cl_ema : slots_linked ema_slots ema_sensitivity_slots ema_linked c c';
  cl_corr : slots_linked rolling_corr_slots rolling_corr_sensitivity_slots (pair_rel x0) c c';
  cl_beta : slots_linked rolling_beta_slots rolling_beta_sensitivity_slots (pair_rel x0) c c';
  cl_kalman : slots_linked kalman1d_slots kalman1d_sensitivity_slots kalman_linked c c';
  cl_cross : crosses_linked c c' }.

Record linked (s : R -> xstate) (g : xgstate) : Prop := {
  lk_ctx : ctx_linked (fun x => ctx (s x)) (g_ctx g);
  lk_hit id b : stateful_cache g !! id = Some b ->
    exists f, near (fun x => cache (s x) !! id = Some (f x)) /\ tracks (bool_decide (id ∈ crosses)) f b;
  lk_miss id : stateful_cache g !! id = None -> near (fun x => cache (s x) !! id = None) }.

(** From states where [P] holds, a computation of the gradient interpreter
    that succeeds is matched by the family of computations. *)
Definition follows {A B} (P : xgstate -> Prop) (m : R -> xM A) (n : xG B) (val : (R -> A) -> B -> Prop) : Prop :=
  forall s g b g', linked s g -> P g -> n g = Ok (b, g') ->
    exists f s', near (fun x => m x (s x) = Ok (f x, s' x)) /\ val f b /\ linked s' g'.

Local Notation "x <~ m ;; k" := (fun s => rbind (m s) (fun '(x, s) => k s))
  (at level 20, m at level 99, k at level 200, right associativity).

Lemma follows_impl {A B} (P Q : xgstate -> Prop) (m : R -> xM A) (n : xG B) val :
  (forall g, Q g -> P g) -> follows P m n val -> follows Q m n val.
Proof. intros HPQ Hf s g b g' Hs HQ. apply Hf; auto. Qed.

(** What a state satisfies may be assumed. *)
Lemma follows_given {A B} (P P' : xgstate -> Prop) (Q : Prop) (m : R -> xM A) (n : xG B) val :
  (forall g, P' g -> Q /\ P g) -> (Q -> follows P m n val) -> follows P' m n val.
Proof. intros HQ Hf s g b g' Hs HP. destruct (HQ g HP) as [H1 H2]. by apply (Hf H1). Qed.

Lemma follows_bind {A B A' B'} P Q (Q' : xgstate -> Prop) (m : R -> xM A) (n : xG B) val
  (f : R -> A -> xM A') (h : B -> xG B') val' :
  follows P m n val -> (forall v b, val v b -> follows (Q b) (fun x => f x (v x)) (h b) val') ->
  (forall g, Q' g -> P g /\ after n g Q) ->
  follows Q' (fun x => a <~ m x;; f x a) (b <~ n;; h b) val'.
Proof.
  intros Hm Hf Hreg s g b g' Hs HQ Hr. destruct (Hreg g HQ) as [HP Hafter].
  apply bind_Ok in Hr as ([b1 g1] & H1 & H2).
  destruct (Hm _ _ _ _ Hs HP H1) as (v & s1 & Hn & Hv & Hs1).
  destruct (Hf _ _ Hv _ _ _ _ Hs1 (Hafter _ _ H1) H2) as (w & s2 & Hn' & Hw & Hs2).
  exists w, s2. split; [|done]. apply near_impl with (2 := near_and _ _ _ Hn Hn'). intros x [-> Hx]. exact Hx.
Qed.

(** What the family is near the point matters alone. *)
Lemma follows_near {A B} P (m m' : R -> xM A) (n : xG B) val :
  near (fun x => forall s, m' x s = m x s) -> follows P m n val -> follows P m' n val.
Proof.
  intros He Hm s g b g' Hs HP Hr. destruct (Hm _ _ _ _ Hs HP Hr) as (v & s1 & Hn & Hv).
  exists v, s1. split; [|done]. apply near_impl with (2 := near_and _ _ _ He Hn). intros x [-> Hx]. exact Hx.
Qed.

Lemma follows_same {A B} P (m : R -> xM A) (n n' : xG B) val :
  (forall g, n' g = n g) -> follows P m n val -> follows P m n' val.
Proof. intros He Hm s g b g' Hs HP Hr. rewrite He in Hr. by eapply Hm. Qed.

Lemma follows_fails {A B} P (m : R -> xM A) (n : xG B) val :
  (forall g b g', n g <> Ok (b, g')) -> follows P m n val.
Proof. intros Hn s g b g' _ _ Hr. by destruct (Hn g b g'). Qed.

Lemma follows_never {A B} P (m : R -> xM A) (n : xG B) val : (forall g, P g -> False) -> follows P m n val.
Proof. intros HP s g b g' _ Hg. by destruct (HP g). Qed.

Lemma follows_lift {A B} P (v : R -> A) (b : B) (val : (R -> A) -> B -> Prop) :
  val v b -> follows P (fun x => lift (Ok (v x))) (g_lift (Ok b)) val.
Proof.
  intros Hv s g b' g' Hs _ [= <- <-]. exists v, s. split_and!; [by apply near_always|done..].
Qed.

(** Checks of one of the interpreters. *)
Lemma follows_check {A A' B} P (r : R -> Res A') (v : R -> A') (f : R -> A' -> xM A) (n : xG B) val :
  near (fun x => r x = Ok (v x)) -> follows P (fun x => f x (v x)) n val ->
  follows P (fun x => a <~ lift (r x);; f x a) n val.
Proof.
  intros Hr. apply follows_near. apply near_impl with (2 := Hr). by intros x ->.
Qed.

Lemma follows_skip {A B B'} P (m : R -> xM A) (r : Res B') (h : B' -> xG B) val :
  (forall b, r = Ok b -> follows P m (h b) val) -> follows P m (b <~ g_lift r;; h b) val.
Proof.
  intros Hf s g b g' Hs HP Hr. destruct r as [b1|]; [|done]. by eapply Hf.
Qed.

(** ** Steps on the slots of a node *)

Class Linked {S T} (sl : Slots xnodes S) (gl : Slots (Sensitivities xreal xreal) T)
  (Rel : (R -> S) -> S -> T -> Prop) : Prop := {
  ln_get c c' : ctx_linked c c' -> slots_linked sl gl Rel c c';
  ln_set c c' (w : R -> list S) w' v' : ctx_linked c c' ->
    let d := fun x => set_nodes (slots_set sl (w x) (nodes (c x))) (c x) in
    let d' := set_sens (slots_set gl v' (sens c')) (set_nodes (slots_set sl w' (nodes c')) c') in
    slots_linked sl gl Rel d d' -> ctx_linked d d';
  ln_getset c v : slots_get sl (slots_set sl v c) = v;
  ln_gl_getset c v : slots_get gl (slots_set gl v c) = v }.

Lemma linked_update {S T} (sl : Slots xnodes S) (gl : Slots (Sensitivities xreal xreal) T) Rel `{!Linked sl gl Rel}
  c c' k (pl pl' : R -> S) st st' g g' :
  ctx_linked c c' -> slots_get sl (nodes c') !! k = Some st' ->
  slots_get gl (sens c') !! (k * gradient_param_count c' + target)%nat = Some g' ->
  near (fun x => slots_get sl (nodes (c x)) !! k = Some (pl' x)) -> Rel pl st g ->
  ctx_linked (fun x => set_nodes (slots_set sl (<[k := pl x]> (slots_get sl (nodes (c x)))) (nodes (c x))) (c x))
    (set_sens (slots_set gl (<[(k * gradient_param_count c' + target)%nat := g]> (slots_get gl (sens c'))) (sens c'))
      (set_nodes (slots_set sl (<[k := st]> (slots_get sl (nodes c'))) (nodes c')) c')).
Proof.
  intros Hc Hst Hg Hpl HR.
  apply (ln_set (Linked := _) c c' (fun x => <[k := pl x]> (slots_get sl (nodes (c x))))); [done|].
  intros k' s1 Hk'. cbn [nodes set_nodes set_sens sens gradient_param_count] in *. rewrite ln_getset in Hk'.
  rewrite ln_gl_getset. pose proof (cl_count _ _ Hc) as Hcount. destruct (decide (k' = k)) as [->|Hne].
  - rewrite list_lookup_insert_eq in Hk' by (by eapply lookup_lt_Some). injection Hk' as <-.
    exists pl, g. split_and!; [|by apply list_lookup_insert_eq; eapply lookup_lt_Some|done].
    apply near_impl with (2 := Hpl). intros x Hx. rewrite ln_getset. apply list_lookup_insert_eq. by eapply lookup_lt_Some.
  - rewrite list_lookup_insert_ne in Hk' by done. destruct (ln_get _ _ Hc _ _ Hk') as (pl1 & g1 & Hn & Hg1 & HR1).
    exists pl1, g1. split_and!; [|by rewrite list_lookup_insert_ne by nia|done].
    apply near_impl with (2 := Hn). intros x Hx. by rewrite ln_getset, list_lookup_insert_ne.
Qed.

Lemma follows_slots {A S T} (sl : Slots xnodes S) (gl : Slots (Sensitivities xreal xreal) T) Rel `{!Linked sl gl Rel}
  P (Post : xVG -> S -> Prop) name id (step : R -> S -> Res (A * S)) (h : S -> T -> Res (xVG * S * T)) val :
  (0 <= id)%Z ->
  (forall g, P g -> after (on_slots target sl gl id h) g
     (fun b g => forall st, slots_get sl (nodes (g_ctx g)) !! Z.to_nat id = Some st -> Post b st)) ->
  (forall pl st g out st' g', Rel pl st g -> h st g = Ok (out, st', g') -> Post out st' ->
     exists f pl', near (fun x => step x (pl x) = Ok (f x, pl' x)) /\ val f out /\ Rel pl' st' g') ->
  follows P (fun x => on_node sl name id (step x)) (on_slots target sl gl id h) val.
Proof.
  intros Hid HPost Hstep s g b g' [Hc Hhit Hmiss] HP Hr. specialize (HPost g HP _ _ Hr).
  unfold on_slots, g_run, with_grad_slot, at_Z, at_idx in Hr. destruct (Z.ltb_spec id 0); [lia|].
  destruct (slots_get sl (nodes (g_ctx g)) !! Z.to_nat id) as [st|] eqn:Est; [|done]. cbn [rbind] in Hr.
  unfold GradientSlot in Hr. destruct (Nat.eqb_spec (gradient_param_count (g_ctx g)) 0) as [|_]; [done|]. cbn [rbind] in Hr.
  destruct (ln_get _ _ Hc _ _ Est) as (pl & gr & Hn & Egr & HR). rewrite Egr in Hr. cbn [rbind] in Hr.
  destruct (h st gr) as [[[out st'] gr']|] eqn:Eh; [|done]. cbn [rbind] in Hr. injection Hr as <- <-.
  assert (Hp : Post out st').
  { apply HPost. cbn [g_ctx nodes set_nodes set_sens]. rewrite ln_getset. apply list_lookup_insert_eq. by eapply lookup_lt_Some. }
  destruct (Hstep _ _ _ _ _ _ HR Eh Hp) as (f & pl' & Hs & Hv & HR').
  exists f, (fun x => MkEval (set_nodes (slots_set sl (<[Z.to_nat id := pl' x]> (slots_get sl (nodes (ctx (s x)))))
    (nodes (ctx (s x)))) (ctx (s x))) (cache (s x))). split_and!; [|done|].
  - apply near_impl with (2 := near_and _ _ _ Hn Hs). intros x [Ex Hx]. unfold on_node, with_node, at_Z, at_idx.
    destruct (Z.ltb_spec id 0); [lia|]. rewrite Ex. cbn [rbind]. by rewrite Hx.
  - split; cbn [ctx cache g_ctx stateful_cache]; [|done|done]. by eapply linked_update.
Qed.

Lemma follows_cross before now name id ca fa a cb fb b P :
  (0 <= id)%Z -> cross_ops before now -> tracks ca fa a -> tracks cb fb b -> regular_order ca cb a b ->
  follows P (fun x => on_node cross_slots name id (cross_step before now (fa x) (fb x)))
    (v <~ g_run (with_node cross_slots id (cross_step before now (vg_value a) (vg_value b)));;
     g_lift (Ok (MkVG v (fint 0)))) (tracks true).
Proof.
  intros Hid Hops Ha Hb Hreg s g out g' [Hc Hhit Hmiss] _ Hr.
  unfold g_run, with_node, at_Z, at_idx in Hr. destruct (Z.ltb_spec id 0); [lia|]. cbn [slots_get cross_slots] in Hr.
  destruct (cross_states (nodes (g_ctx g)) !! Z.to_nat id) as [st|] eqn:Est; [|done]. cbn [rbind] in Hr.
  destruct (cl_cross _ _ Hc _ _ Est) as (pl & Hn & HR).
  destruct (cross_step before now (vg_value a) (vg_value b) st) as [[v st']|] eqn:Es; [|done].
  destruct (cross_tracks x0 before now ca fa a cb fb b pl st v st' Hops HR Ha Hb Hreg Es) as (h & pl' & Hs & Hh & HR').
  cbn [rbind g_lift rmap] in Hr. injection Hr as <- <-.
  exists h, (fun x => MkEval (set_nodes (slots_set cross_slots (<[Z.to_nat id := pl' x]> (cross_states (nodes (ctx (s x)))))
    (nodes (ctx (s x)))) (ctx (s x))) (cache (s x))). split_and!; [|done|].
  - apply near_impl with (2 := near_and _ _ _ Hn Hs). intros x [Ex Hx]. unfold on_node, with_node, at_Z, at_idx.
    destruct (Z.ltb_spec id 0); [lia|]. cbn [slots_get cross_slots]. rewrite Ex. cbn [rbind].
    change (@dbl xreal xreal exact) with Fp_xreal. by rewrite Hx.
  - split; [|done|done]. destruct Hc. split; try assumption. intros k s1 Hk. cbn [g_ctx ctx nodes set_nodes slots_set cross_slots cross_states set_cross_states] in *.
    destruct (decide (k = Z.to_nat id)) as [->|Hne].
    + rewrite list_lookup_insert_eq in Hk by (by eapply lookup_lt_Some). injection Hk as <-. exists pl'. split; [|done].
      apply near_impl with (2 := Hn). intros x Hx. apply list_lookup_insert_eq. by eapply lookup_lt_Some.
    + rewrite list_lookup_insert_ne in Hk by done. destruct (cl_cross0 _ _ Hk) as (pl1 & Hn1 & HR1). exists pl1. split; [|done].
      apply near_impl with (2 := Hn1). intros x Hx. by rewrite list_lookup_insert_ne.
Qed.

(** ** The cache *)

Lemma tracks_flag c flag f b : (flag = true -> c = true) -> tracks c f b -> tracks flag f b.
Proof. intros Hfl [HV Hc]. split; [done|]. auto. Qed.

Lemma follows_cached P id c flag m n :
  (flag = true -> c = true) -> ((0 < id)%Z -> flag = bool_decide (id ∈ crosses)) ->
  follows P m n (tracks c) -> follows P (fun x => cache_and_return id (m x)) (g_cached id n) (tracks flag).
Proof.
  intros Hfl Hid Hmn s g b g' Hs HP Hr. apply bind_Ok in Hr as ([b1 g1] & Hn & [= <- <-]).
  destruct (Hmn _ _ _ _ Hs HP Hn) as (f & s1 & Hm & Hv & Hs1). apply (tracks_flag _ _ _ _ Hfl) in Hv.
  exists f, (fun x => if (0 <? id)%Z then MkEval (ctx (s1 x)) (<[id := f x]> (cache (s1 x))) else s1 x).
  split_and!; [|done|].
  - apply near_impl with (2 := Hm). intros x Hx. unfold cache_and_return. by rewrite Hx.
  - destruct (Z.ltb_spec 0 id) as [Hpos|]; [|done]. rewrite (Hid Hpos) in Hv. destruct Hs1 as [Hc Hhit Hmiss].
    split; cbn [g_ctx stateful_cache ctx cache]; [done| |].
    + intros id' b' [[<- <-]|[Hne Hb]]%lookup_insert_Some.
      * exists f. split; [|done]. apply near_always. intros x. apply lookup_insert_eq.
      * destruct (Hhit _ _ Hb) as (f' & Hn' & Hf'). exists f'. split; [|done].
        apply near_impl with (2 := Hn'). intros x Hx. by rewrite lookup_insert_ne.
    + intros id' [Hb Hne]%lookup_insert_None. apply near_impl with (2 := Hmiss _ Hb). intros x Hx. by rewrite lookup_insert_ne.
Qed.

Lemma follows_uncached {A} P id (m : R -> xM A) n val : (id <= 0)%Z -> follows P m n val -> follows P m (g_cached id n) val.
Proof.
  intros Hid Hmn s g b g' Hs HP Hr. apply bind_Ok in Hr as ([b1 g1] & Hn & [= <- <-]).
  destruct (Z.ltb_spec 0 id); [lia|]. by eapply Hmn.
Qed.

(** The checks of the node's id in front of a stateful call. *)
Lemma follows_stateful {A} P id (m : R -> xM A) (n : xG xVG) val msg :
  ((0 <= id)%Z -> follows P m n val) ->
  follows P m (if (id <? 0)%Z then g_throw msg
    else fun s => rbind (g_lift (GradientSlot (g_ctx s) (Z.to_nat id) target) s) (fun '(_, s) => n s)) val.
Proof.
  intros Hmn. destruct (Z.ltb_spec id 0) as [|Hid]; [by intros ? ? ? ? _ _|].
  intros s g b g' Hs HP Hr. destruct (GradientSlot _ _ _); [|done]. by eapply Hmn.
Qed.
End linked.

Ltac prove_linked :=
  split; [intros ? ? []; assumption | intros c c' w w' v' [] d d' Hd; split; assumption | done | done].

Section instances.
Variables (x0 : R) (target : nat) (ps : list xreal).
#[export] Instance linked_lag : Linked x0 target ps lag_slots lag_sensitivity_slots (lag_rel x0).
Proof. prove_linked. Qed.
#[export] Instance linked_sma : Linked x0 target ps sma_slots sma_sensitivity_slots (sma_rel x0).
Proof. prove_linked. Qed.
#[export] Instance linked_ema : Linked x0 target ps ema_slots ema_sensitivity_slots (ema_linked x0).
Proof. prove_linked. Qed.
#[export] Instance linked_corr : Linked x0 target ps rolling_corr_slots rolling_corr_sensitivity_slots (pair_rel x0).
Proof. prove_linked. Qed.
#[export] Instance linked_beta : Linked x0 target ps rolling_beta_slots rolling_beta_sensitivity_slots (pair_rel x0).
Proof. prove_linked. Qed.
#[export] Instance linked_kalman : Linked x0 target ps kalman1d_slots kalman1d_sensitivity_slots (kalman_linked x0).
Proof. prove_linked. Qed.
End instances.

(** ** Calls *)

Lemma grad_period_parse (e : xexpr) n name name' :
  grad_period (L:=xreal) e name = Ok n -> ParsePositiveIntegerPeriod (L:=xreal) e name' = Ok n /\ is_period n.
Proof.
  unfold ParsePositiveIntegerPeriod, grad_period. destruct e; try done. cbn [AsNumber].
  destruct (to_int value) as [z|] eqn:Ez; [|done]. destruct (period_ok value z) eqn:Eok; [|done].
  intros [= <-]. split; [done|]. unfold period_ok in Eok. destruct (Z.leb_spec z 0) as [|Hz]; [done|].
  cbn [to_int exact] in Ez. destruct value as [v|]; [|done]. cbv zeta in Ez.
  destruct (_ && _) eqn:E; [|done]. injection Ez as <-. apply andb_true_iff in E as [_ E]. apply Z.ltb_lt in E.
  unfold is_period. lia.
Qed.

Section calls.
Local Open Scope R_scope.
Variables (symbols : SymbolTable) (market : MarketState xreal) (x0 : R) (target : nat) (ps : list xreal) (crosses : gset Z).
Notation ev := (Visit (L:=xreal) symbols market).
Notation gv := (EvalGradExpr (L:=xreal) symbols market target).
Notation regular := (regular symbols market target crosses).
Notation constant := (constant target crosses).
Notation follows := (follows x0 target ps crosses).
Notation tracks := (tracks x0).
Notation near := (near x0).

Definition child (e : xexpr) : Prop := follows (regular e) (fun _ => ev e) (gv e) (tracks (constant e)).

Lemma follows_window {S T} (sl : Slots xnodes S) (gl : Slots (Sensitivities xreal xreal) T) Rel `{!Linked x0 target ps sl gl Rel}
  (Reg : xVG -> Prop) name gname step (fwd : nat -> xVG -> S -> T -> _) e p id :
  (0 <= id)%Z -> child e ->
  (forall n f b pl st g out st' g', is_period n -> tracks (constant e) f b -> Reg b -> Rel pl st g ->
     fwd n b st g = Ok (out, st', g') ->
     exists h pl', near (fun x => step n (f x) (pl x) = Ok (h x, pl' x)) /\ tracks false h out /\ Rel pl' st' g') ->
  follows (fun g => regular e g /\ after (gv e) g (fun b _ => Reg b))
    (fun _ => EvalWindow ev name 1 sl step [e; p] id)
    (arg1 [e; p] (fun p s => rbind (g_lift (grad_period p gname) s) (fun '(period, s) =>
       arg0 [e; p] (fun e s => rbind (gv e s) (fun '(x, s) => on_slots target sl gl id (fwd period x) s)) s)))
    (tracks false).
Proof.
  intros Hid He Hstep. cbn [arg0 arg1 EvalWindow]. apply follows_skip. intros n Hn.
  destruct (grad_period_parse _ _ _ (name +:+ "()") Hn) as [Hp Hper].
  eapply (follows_check _ _ _ _ _ _ (fun _ => n)); [by apply near_always|].
  eapply (follows_check _ _ _ _ _ _ (fun _ => tt)).
  { apply near_always. intros _. destruct (Nat.leb_spec 1 n); [done|]. unfold is_period in Hper. lia. }
  eapply (follows_bind _ _ _ _ _ (fun b _ => Reg b)); [exact He| |done].
  intros f b Hf. apply (follows_given _ _ _ _ (fun _ => True) _ (Reg b)); [done|]. intros Hb.
  apply (follows_slots _ _ _ _ sl gl Rel _ (fun _ _ => True)); [done|done|]. intros. by eapply Hstep.
Qed.
Lemma follows_lag e p id : (0 <= id)%Z -> child e ->
  follows (regular e) (fun _ => EvalLag ev [e; p] id) (GradLag target gv [e; p] id) (tracks false).
Proof.
  intros Hid He. eapply follows_impl; [|apply (follows_window lag_slots lag_sensitivity_slots (lag_rel x0) (fun _ => True) "lag" "lag()" lag_step lag_forward); [done|done|]].
  - intros g Hg. by split.
  - intros n f b pl st g out st' g' Hn Hf _ HR Hs. unfold is_period in Hn. eapply lag_tracks; [lia|done..].
Qed.

Lemma follows_sma e p id : (0 <= id)%Z -> child e ->
  follows (fun g => regular e g /\ after (gv e) g (fun b _ => is_number b))
    (fun _ => EvalSma ev [e; p] id) (GradSma target gv [e; p] id) (tracks false).
Proof.
  intros Hid He. apply (follows_window sma_slots sma_sensitivity_slots (sma_rel x0) is_number "sma" "sma()" (ring_step RingStatsMean) sma_forward); [done|done|].
  intros n f b pl st g out st' g' Hn Hf Hb HR Hs. unfold is_period in Hn. eapply sma_tracks; [lia|done..].
Qed.

Lemma follows_ema e p id : (0 <= id)%Z -> child e ->
  follows (fun g => regular e g /\ after (gv e) g (fun b _ => is_number b))
    (fun _ => EvalEma ev [e; p] id) (GradEma target gv "ema" [e; p] id) (tracks false).
Proof.
  intros Hid He. unfold EvalEma, GradEma. cbn [EvalWindow arg0 arg1 String.eqb Ascii.eqb Bool.eqb].
  destruct (grad_period (L:=xreal) p "ema()") as [n|] eqn:Hn.
  2: { apply follows_fails. intros g b g'. destruct (gv e g) as [[x g1]|]; done. }
  destruct (grad_period_parse _ _ _ ("ema" +:+ "()") Hn) as [Hp Hper].
  eapply (follows_check _ _ _ _ _ _ (fun _ => n)); [by apply near_always|].
  eapply (follows_check _ _ _ _ _ _ (fun _ => tt)).
  { apply near_always. intros _. destruct (Nat.leb_spec 1 n); [done|]. unfold is_period in Hper. lia. }
  eapply (follows_bind _ _ _ _ _ (fun b _ => is_number b)); [exact He| |done].
  intros f b Hf. apply (follows_given _ _ _ _ (fun _ => True) _ (is_number b)); [done|]. intros Hb. cbn [g_lift rmap rbind].
  apply (follows_slots _ _ _ _ ema_slots ema_sensitivity_slots (ema_linked x0) _ (fun _ _ => True)); [done|done|].
  intros pl st g out st' g' HR Hs _. unfold is_period in Hper. eapply ema_tracks; [lia|done..].
Qed.

Lemma follows_ema_alpha e a id : (0 <= id)%Z -> child e -> child a ->
  follows (fun g => regular e g /\ after (gv e) g (fun b g => is_number b /\ regular a g /\
      after (gv a) g (fun ba _ => regular_alpha (constant a) ba)))
    (fun _ => EvalEmaAlpha ev [e; a] id) (GradEma target gv "ema_alpha" [e; a] id) (tracks false).
Proof.
  intros Hid He Ha. unfold EvalEmaAlpha, GradEma. cbn [arg0 arg1 String.eqb Ascii.eqb Bool.eqb].
  eapply follows_bind; [exact He| |intros g H; exact H].
  intros f b Hf. eapply follows_given; [intros g H; exact H|]. intros Hb.
  eapply follows_bind; [exact Ha| |intros g H; exact H].
  intros fa ba Hfa. apply (follows_given _ _ _ _ (fun _ => True) _ (regular_alpha (constant a) ba)); [done|]. intros Hba.
  eapply (follows_check _ _ _ _ _ _ (fun _ => tt)).
  { apply near_impl with (2 := regular_alpha_near x0 _ _ _ Hfa Hba). intros x Hx.
    change (@dbl xreal xreal exact) with Fp_xreal. by rewrite Hx. }
  apply (follows_slots _ _ _ _ ema_slots ema_sensitivity_slots (ema_linked x0) _ (fun _ _ => True)); [done|done|].
  intros pl st g out st' g' HR Hs _. eapply ema_alpha_tracks; [done..| |done].
  destruct Hba as (v & -> & _). done.
Qed.

(** [EvalRollingCorr] and [EvalRollingBeta]. *)
Lemma follows_pair (corr : bool) name ex ey p id sl gl read grad
  `{!Linked x0 target ps sl gl (pair_rel x0)} :
  (0 <= id)%Z -> child ex -> child ey ->
  (name =? "rolling_corr")%string = corr ->
  sl = (if corr then rolling_corr_slots else rolling_beta_slots) ->
  gl = (if corr then rolling_corr_sensitivity_slots else rolling_beta_sensitivity_slots) ->
  grad = (if corr then corr_grad_read else beta_grad_read) -> pair_reads x0 read grad ->
  follows (fun g => regular ex g /\ after (gv ex) g (fun b g => is_number b /\ regular ey g /\
          after (gv ey) g (fun b _ => is_number b)) /\
        after (GradPair target gv name [ex; ey; p] id) g (fun b g => is_number b \/
          forall st, slots_get sl (nodes (g_ctx g)) !! Z.to_nat id = Some st -> RollingPairFull st = false))
    (fun _ => EvalPair ev name sl read [ex; ey; p] id) (GradPair target gv name [ex; ey; p] id) (tracks false).
Proof.
  intros Hid Hx Hy Hname -> -> -> Hread. unfold EvalPair, GradPair. rewrite Hname. cbn [arg0 arg1 arg2].
  apply follows_skip. intros n Hn. destruct (grad_period_parse _ _ _ (name +:+ "()") Hn) as [Hp Hper].
  eapply (follows_check _ _ _ _ _ _ (fun _ => n)); [by apply near_always|].
  eapply follows_bind; [exact Hx| |intros g (H1 & H2 & H3); split; [exact H1|]].
  2: { intros b g1 E. specialize (H2 _ _ E). rewrite Hn in H3. cbn [g_lift rmap rbind] in H3.
       apply after_bind in H3. specialize (H3 _ _ E). exact (conj H2 H3). }
  intros f b Hf. eapply follows_given; [intros g [[H1 H2] H3]; split; [exact H1|exact (conj H2 H3)]|]. intros Hb.
  eapply follows_bind; [exact Hy| |intros g ((H1 & H2) & H3); split; [exact H1|]].
  2: { intros b1 g1 E. specialize (H2 _ _ E). apply after_bind in H3. specialize (H3 _ _ E). exact (conj H2 H3). }
  intros fy by' Hfy. eapply follows_given; [intros g H; exact H|]. intros Hby.
  refine (follows_slots _ _ _ _ _ _ _ _ (fun b st => is_number b \/ RollingPairFull st = false) _ _ _ _ _ Hid _ _).
  - intros g Hg b1 g1 E st Hst. destruct (Hg _ _ E) as [|Hfull]; [by left|right; by apply Hfull].
  - intros pl st g out st' g' HR Hs Hpost. by eapply pair_tracks.
Qed.

Lemma follows_kalman ex eq er id : (0 <= id)%Z -> child ex -> child eq -> child er ->
  follows (fun g => regular eq g /\ after (gv eq) g (fun q g => regular er g /\
        after (gv er) g (fun r g => regular_noises (constant eq) q r /\ regular ex g /\
          after (gv ex) g (fun b _ => is_number b))))
    (fun _ => EvalKalman1d ev [ex; eq; er] id) (GradKalman1d target gv [ex; eq; er] id) (tracks false).
Proof.
  intros Hid Hx Hq Hr. unfold EvalKalman1d, GradKalman1d. cbn [arg0 arg1 arg2].
  eapply follows_bind; [exact Hq| |intros g H; exact H]. intros fq q Hfq.
  eapply follows_bind; [exact Hr| |intros g H; exact H]. intros fr r Hfr.
  eapply follows_given; [intros g H; exact H|]. intros Hn. apply follows_skip. intros [] _.
  eapply (follows_check _ _ _ _ _ _ (fun _ => tt)).
  { apply near_impl with (2 := regular_noises_near x0 _ _ _ _ _ _ Hfq Hfr Hn). intros x E.
    change (@dbl xreal xreal exact) with Fp_xreal. by rewrite E. }
  eapply follows_bind; [exact Hx| |intros g H; exact H]. intros f b Hf.
  apply (follows_given _ _ _ _ (fun _ => True) _ (is_number b)); [done|]. intros Hb.
  apply (follows_slots _ _ _ _ kalman1d_slots kalman1d_sensitivity_slots (kalman_linked x0) _ (fun _ _ => True)); [done|done|].
  intros pl st g out st' g' HR Hs _.
  destruct (kalman_tracks x0 _ f b _ fq q _ fr r pl st g out st' g' HR Hf Hb Hfq Hfr Hn Hs) as (h & pl' & H1 & H2).
  exists h, pl'. split; [|exact H2]. apply near_impl with (2 := H1). intros x E.
  change (@dbl xreal xreal exact) with Fp_xreal. by rewrite E.
Qed.

Lemma follows_crossing name before now ea eb id :
  (0 <= id)%Z -> child ea -> child eb ->
  ((name =? "cross_above")%string = true /\ before = fle /\ now = fgt \/
   (name =? "cross_above")%string = false /\ before = fge /\ now = flt) ->
  follows (fun g => regular ea g /\ after (gv ea) g (fun a g => regular eb g /\
        after (gv eb) g (fun b _ => regular_order (constant ea) (constant eb) a b)))
    (fun _ => EvalCross ev name before now [ea; eb] id) (GradCross gv name [ea; eb] id) (tracks true).
Proof.
  intros Hid Ha Hb Hname. unfold EvalCross, GradCross. cbn [arg0 arg1].
  eapply follows_bind; [exact Ha| |intros g H; exact H]. intros fa a Hfa.
  eapply follows_bind; [exact Hb| |intros g H; exact H]. intros fb b Hfb.
  apply (follows_given _ _ _ _ (fun _ => True) _ (regular_order (constant ea) (constant eb) a b)); [done|]. intros Hreg.
  destruct Hname as [(-> & -> & ->)|(-> & -> & ->)]; eapply follows_cross; try done; [by left|by right].
Qed.

Lemma follows_math name (f : xreal -> xreal) gf e :
  child e -> (forall c f' b, tracks c f' b -> vg_value b <> Some 0 -> tracks c (fun x => f (f' x)) (gf b)) ->
  follows (fun g => regular e g /\ after (gv e) g (fun b _ => vg_value b <> Some 0))
    (fun _ => EvalMath ev name f [e])
    (arg0 [e] (fun e s => rbind (gv e s) (fun '(x, s) => g_lift (Ok (gf x)) s))) (tracks (constant e)).
Proof.
  intros He Hf. cbn [EvalMath arg0]. eapply follows_bind; [exact He| |intros g H; exact H]. intros v b Hv.
  apply (follows_given _ _ _ _ (fun _ => True) _ (vg_value b <> Some 0)); [done|]. intros Hb.
  apply (follows_lift _ _ _ _ _ (fun x => f (v x))). by apply Hf.
Qed.

Lemma follows_quote P c name read args sym :
  length args = 1%nat ->
  (forall ins, read ins = if (name =? "mid")%string then mid ins
            else if (name =? "bid")%string then bid ins
            else if (name =? "ask")%string then ask ins
            else spread ins) ->
  follows P (fun _ => lift (EvalQuote symbols market name read args sym))
    (g_lift (EvalMarketRead symbols market name args sym)) (tracks c).
Proof.
  intros Hlen Hread s g b g' Hs _ Hr. apply fmap_Ok in Hr as (a & Hr & [= <- <-]). unfold EvalMarketRead in Hr.
  apply bind_Ok in Hr as (slot & Hslot & Hr). apply bind_Ok in Hr as (ins & Hins & [= <-]).
  exists (fun _ => read ins), s. rewrite <- Hread. split_and!; [|apply tracks_const|done].
  apply near_always. intros x. unfold lift, EvalQuote. rewrite Hlen. cbn [ensure Nat.eqb rbind].
  rewrite Hslot. cbn [rbind]. by rewrite Hins.
Qed.
End calls.

Ltac quote_case Hpure :=
  match goal with HF : Forall _ ?args |- _ =>
    apply (Hpure _ _ (fun _ => length args = 1%nat) true);
      [intros Hid; cbn [constant]; by rewrite (proj2 (Z.ltb_ge _ _) Hid) | by intros g Hg
      | eapply (follows_given _ _ _ _ (fun _ => True)); [by intros g Hg|];
        intros Hlen; by apply follows_quote] end.
Ltac math_case Hpure lem :=
  match goal with HF : Forall _ ?args |- _ =>
    destruct args as [|e [|]]; try (apply follows_never; intros g [_ Hg]; exact Hg);
    apply Forall_cons in HF as [He _];
    refine (Hpure _ _ _ _ _ (fun g H => H) _); [|by apply follows_math; [|apply lem]];
    intros Hid; cbn [constant]; by rewrite (proj2 (Z.ltb_ge _ _) Hid) end.
Ltac stateful_case := eapply follows_impl;
  [|first [ by apply follows_lag | by apply follows_sma | by apply follows_ema | by apply follows_ema_alpha
  | by apply follows_kalman
  | apply (follows_pair _ _ _ _ _ _ true "rolling_corr" _ _ _ _ rolling_corr_slots rolling_corr_sensitivity_slots RollingPairCorrelation corr_grad_read); try done; apply pair_reads_corr
  | apply (follows_pair _ _ _ _ _ _ false "rolling_beta" _ _ _ _ rolling_beta_slots rolling_beta_sensitivity_slots RollingPairBeta beta_grad_read); try done; apply pair_reads_beta
  | by apply follows_crossing; [..|left] | by apply follows_crossing; [..|right] ]];
  intros g Hg; exact Hg.
Ltac stateful_shape :=
  match goal with HF : Forall _ ?args |- _ =>
    destruct args as [|a0 [|a1 [|a2 [|]]]]; try (apply follows_never; intros g Hg; exact Hg);
    repeat (apply Forall_cons in HF as [? HF]) end.

Section trees.
Local Open Scope R_scope.
Variables (symbols : SymbolTable) (market : MarketState xreal) (x0 : R) (target : nat) (ps : list xreal) (crosses : gset Z).
Notation ev := (Visit (L:=xreal) symbols market).
Notation gv := (EvalGradExpr (L:=xreal) symbols market target).
Notation regular := (regular symbols market target crosses).
Notation constant := (constant target crosses).
Notation follows := (follows x0 target ps crosses).
Notation tracks := (tracks x0).
Notation near := (near x0).
Notation child := (child symbols market x0 target ps crosses).

(** A stateful call: the check of its node id, the step, the cache. *)
Lemma follows_call loc P name args id sym m n msg :
  is_quote name = false -> is_math name = false -> (id ∈ crosses -> is_cross name = true) ->
  ((0 <= id)%Z -> follows P (fun _ => m) n (tracks (is_cross name))) ->
  follows P (fun _ => cache_and_return id m)
    (g_cached id (if (id <? 0)%Z then g_throw msg
       else fun s => rbind (g_lift (GradientSlot (g_ctx s) (Z.to_nat id) target) s) (fun '(_, s) => n s)))
    (tracks (constant (FunctionCall loc name args id sym))).
Proof.
  intros Hq Hm Hc Hmn. cbn [constant]. rewrite Hq, Hm. apply (follows_cached _ _ _ _ _ _ (is_cross name)).
  - destruct (0 <? id)%Z; [intros ?%bool_decide_eq_true; auto|]. by destruct args as [|? []].
  - intros Hid. by destruct (Z.ltb_spec 0 id); [|lia].
  - by apply follows_stateful.
Qed.

(** The branches of [regular_call] are those of the two dispatches. *)
Lemma follows_dispatch loc name args id sym :
  (id ∈ crosses -> is_cross name = true) -> Forall child args ->
  follows (regular_call symbols market target crosses regular name args id)
    (fun _ => dispatch symbols market ev name args id sym)
    (g_cached id (EvalFunction symbols market target gv name args id sym))
    (tracks (constant (FunctionCall loc name args id sym))).
Proof.
  intros Hcross HF.
  assert (Hcall : forall m n msg, is_quote name = false -> is_math name = false ->
    ((0 <= id)%Z -> follows (regular_call symbols market target crosses regular name args id) (fun _ => m) n (tracks (is_cross name))) ->
    follows (regular_call symbols market target crosses regular name args id) (fun _ => cache_and_return id m)
    (g_cached id (if (id <? 0)%Z then g_throw msg
       else fun s => rbind (g_lift (GradientSlot (g_ctx s) (Z.to_nat id) target) s) (fun '(_, s) => n s)))
    (tracks (constant (FunctionCall loc name args id sym)))) by (intros; by apply follows_call).
  assert (Hpure : forall (m : R -> xM xreal) n P c, ((id <= 0)%Z -> c = constant (FunctionCall loc name args id sym)) ->
    (forall g, regular_call symbols market target crosses regular name args id g -> (id <= 0)%Z /\ P g) ->
    follows P m n (tracks c) ->
    follows (regular_call symbols market target crosses regular name args id) m (g_cached id n)
      (tracks (constant (FunctionCall loc name args id sym)))).
  { intros m n P c Hc HP Hmn. eapply follows_given; [exact HP|]. intros Hid. rewrite <- (Hc Hid). by apply follows_uncached. }
  unfold dispatch, EvalFunction, EvalStateful. revert Hcall Hpure Hcross.
  do 4 (match goal with |- context [(name =? ?l)%string] =>
     destruct (String.eqb_spec name l) as [->|_]; [intros _ Hpure _; quote_case Hpure|] end).
  cbn [orb].
  do 14 (match goal with |- context [(name =? ?l)%string] =>
     destruct (String.eqb_spec name l) as [->|_]; [intros Hcall _ _; apply Hcall; [done|done|]; intros Hid; first [by apply follows_never | stateful_shape; stateful_case]|] end).
  do 3 (match goal with |- context [(name =? ?l)%string] =>
     destruct (String.eqb_spec name l) as [->|_]; [intros _ Hpure _; first [math_case Hpure (tracks_abs x0) | math_case Hpure (tracks_log x0) | math_case Hpure (tracks_sqrt x0)]|] end).
  intros _ _ _. apply follows_fails. intros g b g'. unfold g_cached. destruct (id <? 0)%Z; [done|]. by destruct (GradientSlot _ _ _).
Qed.
Lemma follows_parameter loc name id :
  follows (fun _ => True) (fun _ => ev (ParameterExpr loc name id)) (gv (ParameterExpr loc name id))
    (tracks (negb (id =? Z.of_nat target)%Z)).
Proof.
  intros s g b g' Hs _ Hr. pose proof (lk_ctx _ _ _ _ _ _ Hs) as Hc. cbn [EvalGradExpr] in Hr.
  apply fmap_Ok in Hr as (v & Hr & [= -> <-]). unfold GradParameter in Hr. rewrite (cl_params _ _ _ _ _ Hc) in Hr.
  apply bind_Ok in Hr as (u & Hu & [= <-]). unfold at_Z in Hu. destruct (Z.ltb_spec id 0) as [|Hid]; [done|].
  apply at_idx_Ok in Hu.
  exists (fun x => default (None : xreal) (params_at target ps x !! Z.to_nat id)), s. split_and!; [| |done].
  - apply near_impl with (2 := cl_near _ _ _ _ _ Hc). intros x [Ep En]. cbn [Visit]. unfold EvalParameter. rewrite Ep, En.
    assert (Hlt : (Z.to_nat id < length ps)%nat) by (apply lookup_lt_Some in Hu; unfold params_at in Hu; by rewrite length_insert in Hu).
    destruct (Z.ltb_spec id 0); [lia|]. destruct (Z.leb_spec (Z.of_nat (length ps)) id); [lia|]. cbn [orb].
    unfold at_Z. destruct (Z.ltb_spec id 0); [lia|].
    destruct (lookup_lt_is_Some_2 (params_at target ps x) (Z.to_nat id)) as [w Ew]; [unfold params_at; by rewrite length_insert|].
    unfold at_idx. by rewrite Ew.
  - destruct (Z.eqb_spec id (Z.of_nat target)) as [->|Hne].
    + rewrite Nat2Z.id in *. assert (Hlt : (target < length ps)%nat) by (apply lookup_lt_Some in Hu; unfold params_at in Hu; by rewrite length_insert in Hu).
      assert (Hx : forall x, params_at target ps x !! target = Some (Some x)) by (intros x; by apply list_lookup_insert_eq).
      rewrite Hx in Hu. injection Hu as <-. cbn [negb]. apply (tracks_ext x0 false (fun x => Some x)).
      { apply near_always. intros x. by rewrite Hx. }
      split; [|done]. left. exists (fun x => x), 1. split_and!; [by apply near_always| |apply derivable_pt_lim_id].
      cbn [fbool]. f_equal. apply fint_xreal.
    + assert (Hx : forall x, params_at target ps x !! Z.to_nat id = Some u).
      { intros x. unfold params_at in *. rewrite list_lookup_insert_ne in * by lia. done. }
      apply (tracks_ext x0 _ (fun _ => u)); [apply near_always; intros x; by rewrite Hx|]. apply tracks_const.
Qed.

Lemma follows_expr e : child e.
Proof.
  unfold child. induction e using Expr_rect'.
  - apply (follows_lift _ _ _ _ _ (fun _ => v)). apply tracks_const.
  - by intros ? ? ? ? _ _.
  - apply follows_parameter.
  - cbn [Visit EvalGradExpr]. eapply (follows_bind _ _ _ _ _ (fun _ _ => True)); [exact IHe| |by intros g Hg].
    intros f b Hf. apply (follows_lift _ _ _ _ _ (fun x => eval_unary k (f x))). by apply tracks_unary.
  - cbn [Visit EvalGradExpr DerivativeFacts.regular].
    eapply follows_bind; [exact IHe1| |intros g H; exact H]. intros fl l Hl.
    eapply follows_bind; [exact IHe2| |intros g H; exact H]. intros fr r Hr.
    apply (follows_given _ _ _ _ (fun _ => True) _ (regular_binary k (constant e1) (constant e2) l r)); [done|]. intros Hreg.
    apply (follows_lift _ _ _ _ _ (fun x => eval_binary k (fl x) (fr x))). by apply tracks_binary.
  - intros st g b g' Hs HP Hr. cbn [DerivativeFacts.regular EvalGradExpr Visit DerivativeFacts.constant] in *.
    pose proof (follows_dispatch loc n args i s) as Hd.
    destruct (if (0 <? i)%Z then stateful_cache g !! i else None) as [out|] eqn:Ehit.
    + destruct (0 <? i)%Z eqn:Ei; [|done]. injection Hr as <- <-.
      destruct (lk_hit _ _ _ _ _ _ Hs _ _ Ehit) as (f & Hn & Hf). exists f, st. split_and!; [|done|done].
      apply near_impl with (2 := Hn). by intros x ->.
    + destruct HP as [Hcross HP]. rename select (Forall _ _) into HF. destruct (Hd Hcross HF _ _ _ _ Hs HP Hr) as (f & s' & Hn & Hf & Hs').
      exists f, s'. split_and!; [|exact Hf|done]. destruct (0 <? i)%Z; [|exact Hn].
      apply near_impl with (2 := near_and _ _ _ (lk_miss _ _ _ _ _ _ Hs _ Ehit) Hn). by intros x [-> Hx].
  - cbn [Visit EvalGradExpr DerivativeFacts.regular].
    eapply follows_bind; [exact IHe1| |intros g H; exact H]. intros fc c Hc.
    eapply follows_given; [intros g H; exact H|]. intros Ht. pose proof (near_truth x0 _ _ _ Hc Ht) as Hn.
    assert (Hflag : forall P m n c1 c2, follows P m n (tracks c1) -> (c2 = true -> c1 = true) -> follows P m n (tracks c2)).
    { intros P m n c1 c2 Hf Hc12 s g b g' Hs HP Hr. destruct (Hf _ _ _ _ Hs HP Hr) as (f & s' & ? & Hv & ?).
      exists f, s'. split_and!; [done| |done]. by eapply tracks_flag. }
    cbn [DerivativeFacts.constant]. destruct (fne (vg_value c) (fint 0)).
    + eapply Hflag; [|by intros [H _]%andb_prop]. eapply follows_near; [|exact IHe2]. apply near_impl with (2 := Hn). intros x E s.
      change (@dbl xreal xreal exact) with Fp_xreal. by rewrite E.
    + eapply Hflag; [|by intros [_ H]%andb_prop]. eapply follows_near; [|exact IHe3]. apply near_impl with (2 := Hn). intros x E s.
      change (@dbl xreal xreal exact) with Fp_xreal. by rewrite E.
Qed.
End trees.

(** ** From a prewarmed context *)

Section start.
Local Open Scope R_scope.

Definition lag_fresh (st : LagState xreal) : Prop :=
  LagValue st = Ok fnan /\ forall p, (0 < p)%nat -> LagPrepare p st = LagPrepare p LagState_init.
Definition ring_fresh (st : RingStatsState xreal xreal) : Prop :=
  slides_since_refresh st = 0%nat /\
  forall p, (0 < p)%nat -> RingStatsPrepare p st = RingStatsPrepare p RingStatsState_init.
Definition pair_fresh (st : RollingPairState xreal xreal) : Prop :=
  forall p, (0 < p)%nat -> RollingPairPrepare p st = RollingPairPrepare p RollingPairState_init.

(** No operator has seen a sample. *)
Record fresh_nodes (n : xnodes) : Prop := {
  fn_lag : Forall lag_fresh (lag_states n);
  fn_sma : Forall ring_fresh (sma_states n);
  fn_ema : Forall (fun st => e_initialized st = false) (ema_states n);
  fn_corr : Forall pair_fresh (rolling_corr_states n);
  fn_beta : Forall pair_fresh (rolling_beta_states n);
  fn_kalman : Forall (fun st => k_initialized st = false) (kalman1d_states n) }.

Lemma lag_fresh_prepare p st : lag_fresh st -> lag_fresh (LagPrepare p st).
Proof.
  intros [Hv Hp]. unfold LagPrepare at 1. destruct (decide (l_capacity st = p)) as [|Hne]; [done|]. split.
  - unfold LagValue. cbn. by destruct p.
  - intros q Hq. unfold LagPrepare. cbn. destruct (decide (p = q)) as [->|]; by rewrite decide_False by lia.
Qed.

Lemma ring_fresh_prewarm p st : ring_fresh st -> ring_fresh (prewarm_ring p st).
Proof.
  intros [Hs Hp]. unfold prewarm_ring. destruct (decide (capacity st = p)) as [|Hne]; [done|]. split; [done|].
  intros q Hq. unfold RingStatsPrepare. cbn. rewrite Hs. destruct (decide (p = q)) as [->|]; by rewrite decide_False by lia.
Qed.

Lemma pair_fresh_prepare p st : pair_fresh st -> pair_fresh (RollingPairPrepare p st).
Proof.
  intros Hp. unfold RollingPairPrepare. destruct (decide (p_capacity st = p)) as [|Hne]; [done|].
  intros q Hq. unfold RollingPairPrepare. cbn. destruct (decide (p = q)) as [->|]; by rewrite decide_False by lia.
Qed.

Lemma fresh_keeps : prewarm_keeps fresh_nodes.
Proof.
  split; [intros k n [? ? ? ? ? ?]; split; apply vec_grow_forall; try done|..].
  all: intros; intros n k st [] Hst; split; simpl in *; try done; apply Forall_insert; try done.
  - by apply (Forall_lookup_1 _ _ _ _ fn_ema0 Hst).
  - apply ring_fresh_prewarm. by eapply Forall_lookup_1; [|exact Hst].
  - apply lag_fresh_prepare. by eapply Forall_lookup_1; [|exact Hst].
  - apply pair_fresh_prepare. by eapply Forall_lookup_1; [|exact Hst].
  - apply pair_fresh_prepare. by eapply Forall_lookup_1; [|exact Hst].
Qed.

(** The contexts after the parameters are set. *)
Lemma slots_start {S T} x0 target (sl : Slots xnodes S) (gl : Slots (Sensitivities xreal xreal) T) Rel init
  (c : xctx) (ps : R -> list xreal) (F : S -> Prop) :
  (target < length (ps x0))%nat ->
  slots_get gl (sens (SetStandaloneParameters c (ps x0))) =
    replicate (CurrentNodeCapacity (nodes c) * length (ps x0)) init ->
  (length (slots_get sl (nodes c)) <= CurrentNodeCapacity (nodes c))%nat ->
  Forall F (slots_get sl (nodes c)) -> (forall st, F st -> Rel (fun _ => st) st init) ->
  slots_linked x0 target sl gl Rel (fun x => SetStandaloneParameters c (ps x)) (SetStandaloneParameters c (ps x0)).
Proof.
  intros Ht Hg Hlen HF HR k st Hk. cbn [nodes set_sens SetStandaloneParameters ResizeSensitivityStorage] in Hk.
  exists (fun _ => st), init. split_and!; [by apply near_always| |by apply HR, (Forall_lookup_1 _ _ _ _ HF Hk)].
  rewrite Hg. apply lookup_replicate_2. apply lookup_lt_Some in Hk. simpl. nia.
Qed.

Lemma lag_rel_start x0 st : lag_fresh st -> lag_rel x0 (fun _ => st) st LagState_init.
Proof.
  intros [Hv Hp]. split.
  - exists (fun _ => None), (MkVG None None). split_and!; [by apply near_always|done|done|apply nan_tracks].
  - intros p Hpos. exists []. rewrite !Hp by done.
    assert (Hh : lag_holds p [] (LagPrepare p (LagState_init (D:=xreal)))) by (apply lag_holds_prepare; simpl; lia).
    split_and!; [done|by apply near_always|exact Hh|exact Hh].
Qed.

Lemma sma_rel_start x0 st : ring_fresh st -> sma_rel x0 (fun _ => st) st RingStatsState_init.
Proof.
  intros [_ Hp] p Hpos. exists []. rewrite Hp by done. pose proof (ring_exact_fresh p Hpos) as Hf.
  split_and!; [done|by apply near_always|exact Hf|exact Hf].
Qed.

Lemma pair_rel_start x0 st : pair_fresh st -> pair_rel x0 (fun _ => st) st RollingPairSensitivityState_init.
Proof.
  intros Hp p Hper. pose proof (pair_period_pos p Hper) as Hpos. exists []. rewrite Hp by done. split_and!; [done| |].
  - apply near_always. intros x. by apply pair_exact_fresh.
  - by apply pair_fresh_grad_at.
Qed.

Lemma ctx_linked_start x0 target (c : xctx) ps :
  (target < length ps)%nat -> fresh_nodes (nodes c) ->
  ctx_linked x0 target ps (fun x => SetStandaloneParameters c (params_at target ps x))
    (SetStandaloneParameters c (params_at target ps x0)).
Proof.
  intros Ht [Hlag Hsma Hema Hcorr Hbeta Hk].
  assert (Hlen : forall x, length (params_at target ps x) = length ps) by (intros x; apply length_insert).
  assert (Hrep : forall {A} n (d e : A) l, replicate (length (vec_resize n d l)) e = replicate n e).
  { intros A n d e l. f_equal. unfold vec_resize. rewrite length_app, length_take, length_replicate. lia. }
  assert (Hdata : forall x, data_of (params_at target ps x) = Some (params_at target ps x)).
  { intros x. specialize (Hlen x). destruct (params_at target ps x); [simpl in Hlen; lia|done]. }
  pose proof (CurrentNodeCapacity_bound (nodes c)) as Hcap.
  repeat (apply Forall_cons in Hcap as [? Hcap]).
  split.
  - apply Hdata.
  - apply near_always. intros x. split; [apply Hdata|apply Hlen].
  - simpl. rewrite Hlen. lia.
  - eapply slots_start; [by rewrite Hlen|by apply Hrep|done|exact Hlag|apply lag_rel_start].
  - eapply slots_start; [by rewrite Hlen|by apply Hrep|done|exact Hsma|apply sma_rel_start].
  - eapply slots_start; [by rewrite Hlen|by apply Hrep|done|exact Hema|]. intros st Hst. by left.
  - eapply slots_start; [by rewrite Hlen|by apply Hrep|done|exact Hcorr|apply pair_rel_start].
  - eapply slots_start; [by rewrite Hlen|by apply Hrep|done|exact Hbeta|apply pair_rel_start].
  - eapply slots_start; [by rewrite Hlen|by apply Hrep|done|exact Hk|]. intros st Hst. by left.
  - intros k st Hst. exists (fun _ => st). split; [by apply near_always|by apply near_always].
Qed.
End start.

(** ** Ticks *)

Section ticks.
Local Open Scope R_scope.
Variables (symbols : SymbolTable) (signal : SignalDef xreal) (param_id : Z) (crosses : gset Z).
Notation target := (Z.to_nat param_id).

(** Every tick of a run is regular. *)
Fixpoint regular_ticks (markets : list (MarketState xreal)) (c : xctx) : Prop :=
  match markets with
  | [] => True
  | m :: rest =>
      regular symbols m target crosses (sig_body signal) (MkGrad c ∅) /\
      forall g c1, EvaluateSignalGradient signal symbols m c param_id = Ok (g, c1) -> regular_ticks rest c1
  end.

(** A value and its gradient are those of a function of the parameter. *)
Definition derivative_of (x0 : R) (f : R -> xreal) (b : xVG) : Prop := curve_of x0 f b \/ nan_of x0 f b.

Lemma ctx_linked_evaluate x0 ps market c c' b c1 :
  ctx_linked x0 target ps c c' -> regular symbols market target crosses (sig_body signal) (MkGrad c' ∅) ->
  EvaluateSignalGradient signal symbols market c' param_id = Ok (b, c1) ->
  exists f d, near x0 (fun x => Evaluate symbols market signal (c x) = Ok (f x, d x)) /\
    derivative_of x0 f b /\ ctx_linked x0 target ps d c1.
Proof.
  intros Hc Hreg He. unfold EvaluateSignalGradient in He. apply bind_Ok in He as ([] & _ & He).
  apply bind_Ok in He as ([] & _ & He). apply bind_Ok in He as ([b1 g1] & He & [= <- <-]).
  assert (Hs : linked x0 target ps crosses (fun x => MkEval (c x) ∅) (MkGrad c' ∅)).
  { split; cbn [ctx cache g_ctx stateful_cache]; [done| |].
    - intros id b Hb. by rewrite lookup_empty in Hb.
    - intros id _. apply near_always. intros x. apply lookup_empty. }
  destruct (follows_expr symbols market x0 target ps crosses (sig_body signal) _ _ _ _ Hs Hreg He) as (f & s' & Hn & [Hf _] & [Hc1 _ _]).
  exists f, (fun x => ctx (s' x)). split_and!; [|done|done].
  apply near_impl with (2 := Hn). intros x Hx. unfold Evaluate. by rewrite Hx.
Qed.

Lemma ctx_linked_ticks x0 ps markets : forall c c' gs c1,
  ctx_linked x0 target ps c c' -> regular_ticks markets c' ->
  gradient_ticks symbols signal param_id markets c' = Ok (gs, c1) ->
  exists fs, near x0 (fun x => exists d, run_ticks symbols signal markets (c x) = Ok (map (fun f => f x) fs, d)) /\
    Forall2 (derivative_of x0) fs gs.
Proof.
  induction markets as [|m rest IH]; intros c c' gs c1 Hc Hreg Ht; simpl in Ht.
  - injection Ht as <- <-. exists []. split; [|done]. apply near_always. intros x. by exists (c x).
  - destruct Hreg as [Hreg Hrest]. apply bind_Ok in Ht as ([b c2] & He & Ht). apply bind_Ok in Ht as ([bs c3] & Ht & [= <- <-]).
    destruct (ctx_linked_evaluate x0 ps m c c' b c2 Hc Hreg He) as (f & d & Hn & Hf & Hd).
    destruct (IH d c2 bs c3 Hd (Hrest _ _ He) Ht) as (fs & Hns & Hfs).
    exists (f :: fs). split; [|by constructor]. apply near_impl with (2 := near_and _ _ _ Hn Hns).
    intros x [Ex [d' Ex']]. exists d'. simpl. rewrite Ex. cbn [rbind]. by rewrite Ex'.
Qed.

(** C14: the forward gradient interpreter differentiates signals, in exact
    arithmetic.  Prewarm a new context for a signal, set its parameters, the
    one of interest to [x0], and run [EvaluateSignalGradient] on any
    markets; if it succeeds and the run is regular (no comparison between
    equal values, no zero divisor, no degenerate window, none of
    rolling_std, zscore, rolling_min and rolling_max: see [regular]), then
    with the parameter at any value near [x0] the interpreter succeeds on
    the same markets, and at each tick its result is a differentiable
    function of the parameter, of which the run returned the value and the
    derivative at [x0], or NaN near [x0] where the run returned NaN. *)
Theorem signal_gradient_correct (c0 c : xctx) ps x0 markets gs c1 :
  nodes c0 = NodeStates_init -> PrewarmSignalContext c0 signal = Ok c ->
  ps !! target = Some (Some x0) ->
  gradient_ticks symbols signal param_id markets (SetStandaloneParameters c ps) = Ok (gs, c1) ->
  regular_ticks markets (SetStandaloneParameters c ps) ->
  exists fs, near x0 (fun x => exists d,
      run_ticks symbols signal markets (SetStandaloneParameters c (<[target := Some x]> ps)) =
        Ok (map (fun f => f x) fs, d)) /\
    Forall2 (derivative_of x0) fs gs.
Proof.
  intros H0 Hpre Hx Ht Hreg.
  assert (Hf : fresh_nodes (nodes c)).
  { eapply (prewarm_walk_keeps _ fresh_keeps); [|exact Hpre]. by rewrite H0. }
  assert (E : params_at target ps x0 = ps) by (by apply list_insert_id).
  apply (ctx_linked_ticks x0 ps markets _ (SetStandaloneParameters c (params_at target ps x0)) gs c1).
  - apply ctx_linked_start; [by eapply lookup_lt_Some|done].
  - by rewrite E.
  - by rewrite E.
Qed.
End ticks.

(** ** Concrete instances *)

Module DerivativeExample.
(** [ema_alpha(p * mid(AAPL), q)] at p = 3 and q = 1/2. *)
Definition price : xexpr := FunctionCall noloc "mid" [IdentifierExpr noloc "AAPL"] (-1) 0.
Definition signal : SignalDef xreal :=
  MkSignal "s" (FunctionCall noloc "ema_alpha"
    [BinaryOp noloc Mul (ParameterExpr noloc "p" 0) price; ParameterExpr noloc "q" 1] 1 (-1)).
Definition market (b a : R) : MarketState xreal :=
  MkMarket [MkInstrument (Some b) (Some a) (Some 0%R) (Some 0%R) 0] 0.
Definition markets : list (MarketState xreal) := [market 1 3; market 2 4].
Definition ps : list xreal := [Some 3%R; Some (1 / 2)%R].
Definition context : xctx :=
  match PrewarmSignalContext SignalContext_init signal with Ok c => c | Err _ => SignalContext_init end.
Definition start : xctx := SetStandaloneParameters context ps.
End DerivativeExample.

(** A run is regular where its values, computed up to the operations on
    reals, are. *)
Lemma after_eval {B} (n : xG B) g b g' P : n g = Ok (b, g') -> P b g' -> after n g P.
Proof. intros E HP b1 g1 E1. rewrite E in E1. by injection E1 as <- <-. Qed.

Lemma regular_ticks_eval symbols s id crosses m rest c b c1 :
  regular symbols m (Z.to_nat id) crosses (sig_body s) (MkGrad c ∅) ->
  EvaluateSignalGradient s symbols m c id = Ok (b, c1) -> regular_ticks symbols s id crosses rest c1 ->
  regular_ticks symbols s id crosses (m :: rest) c.
Proof. intros H1 H2 H3. split; [done|]. intros g c2 E. rewrite H2 in E. by injection E as <- <-. Qed.

Ltac run_reals := cbv -[IZR Rplus Rmult Rdiv Rinv Rminus Ropp pow Rltb Rleb Reqb]; reflexivity.
Ltac regular_step := lazymatch goal with
  | |- after _ _ _ => eapply after_eval; [run_reals|]
  | |- regular_ticks _ _ _ _ (_ :: _) _ => eapply regular_ticks_eval; [|run_reals|]
  | |- regular_ticks _ _ _ _ [] _ => exact I
  | |- True => exact I
  | |- _ ∈ ∅ -> _ => intros []%not_elem_of_empty
  | |- is_number _ => discriminate
  | |- (_ <= _)%Z => discriminate
  | |- _ = _ => reflexivity
  | |- regular_alpha _ _ => exists (1 / 2)%R; split; [reflexivity|left; lra]
  | |- _ => split
  end.

Lemma signal_gradient_correct_witness :
  exists gs c1,
    gradient_ticks empty_table DerivativeExample.signal 0 DerivativeExample.markets DerivativeExample.start = Ok (gs, c1) /\
    exists fs, near 3 (fun x => exists d,
        run_ticks empty_table DerivativeExample.signal DerivativeExample.markets
          (SetStandaloneParameters DerivativeExample.context (<[0%nat := Some x]> DerivativeExample.ps)) =
          Ok (map (fun f => f x) fs, d)) /\
      Forall2 (derivative_of 3) fs gs.
Proof.
  eexists _, _. split; [run_reals|].
  eapply (signal_gradient_correct empty_table DerivativeExample.signal 0 ∅ SignalContext_init).
  - reflexivity.
  - reflexivity.
  - reflexivity.
  - run_reals.
  - unfold DerivativeExample.markets. repeat regular_step.
Defined.
