(* ===== verification/Spsc.v ===== *)
(** * The single-producer single-consumer ring (src/src/spsc_ring.h)

    [try_push] and [try_pop] as functions of the ring, for calls that do not
    overlap, and as sequences of atomic steps of two threads, for calls that
    do.  The indices are [std::size_t] counters that wrap around.

    In the concurrent machine each thread reads its own index exactly; an
    acquire load of the other thread's index may return any value that
    index has had since the thread last read it (coherence), which is what
    release/acquire atomics allow.  The plain accesses to the slots are
    sequentially consistent, which is justified by [spsc_safe]: no reachable
    state has the two threads about to access the same slot. *)

From S2P Require Import Prelude Errors Arith Rolling.
From stdpp Require Import relations.

Section spsc.
Context {T : Type}.

(** [N = 2^log_n], as the static assertions require. *)
Variable log_n : nat.
Definition kCapacity : Z := (2 ^ Z.of_nat log_n)%Z.
Definition kMask : Z := (kCapacity - 1)%Z.

Record SpscRing := MkSpsc {
  head_ : Z; cached_tail_ : Z; tail_ : Z; cached_head_ : Z; slots_ : list T }.

(** [slots_{}] holds value-initialised elements. *)
Definition SpscRing_init (d : T) : SpscRing :=
  MkSpsc 0 0 0 0 (replicate (Z.to_nat kCapacity) d).

Definition slot_of (index : Z) : nat := Z.to_nat (Z.land index kMask).

Definition try_push (r : SpscRing) (value : T) : Res (bool * SpscRing) :=
  let h := head_ r in
  let full r := (u64 (h - cached_tail_ r) =? kCapacity)%Z in
  let r := if full r then MkSpsc (head_ r) (tail_ r) (tail_ r) (cached_head_ r) (slots_ r)
           else r in
  if full r then Ok (false, r)
  else
    slots <- set_idx "slots_[h & kMask]" (slots_ r) (slot_of h) value;;
    Ok (true, MkSpsc (u64 (h + 1)) (cached_tail_ r) (tail_ r) (cached_head_ r) slots).

(** [None] for the result [false], which leaves [out] alone. *)
Definition try_pop (r : SpscRing) : Res (option T * SpscRing) :=
  let t := tail_ r in
  let empty r := (t =? cached_head_ r)%Z in
  let r := if empty r then MkSpsc (head_ r) (cached_tail_ r) (tail_ r) (head_ r) (slots_ r)
           else r in
  if empty r then Ok (None, r)
  else
    out <- at_idx "slots_[t & kMask]" (slots_ r) (slot_of t);;
    Ok (Some out, MkSpsc (head_ r) (cached_tail_ r) (u64 (t + 1)) (cached_head_ r) (slots_ r)).

Definition size_approx (r : SpscRing) : Z := u64 (head_ r - tail_ r).
Definition empty_approx (r : SpscRing) : bool := (size_approx r =? 0)%Z.
Definition full_approx (r : SpscRing) : bool := (size_approx r =? kCapacity)%Z.

(** ** The two threads *)

(** Where the producer is in [try_push(value)]: outside it; before the
    acquire load of [tail_]; before the write of the slot; before the release
    store of [head_]. *)
Inductive ProducerPc :=
| PIdle | PRefresh (value : T) (h : Z) | PWrite (value : T) (h : Z) | PPublish (value : T) (h : Z).

(** Where the consumer is in [try_pop(out)]. *)
Inductive ConsumerPc :=
| CIdle | CRefresh (t : Z) | CRead (t : Z) | CPublish (t : Z) (out : T).

(** The ring, the two threads, and as history the values published by
    [head_], the values taken, and the number of pops, respectively pushes,
    each thread has seen the other make. *)
Record World := MkWorld {
  ring : SpscRing; producer : ProducerPc; consumer : ConsumerPc;
  pushed : list T; popped : list T; seen_pops : nat; seen_pushes : nat }.

Definition World_init (d : T) : World := MkWorld (SpscRing_init d) PIdle CIdle [] [] 0 0.

Definition set_cached_tail (v : Z) (r : SpscRing) : SpscRing :=
  MkSpsc (head_ r) v (tail_ r) (cached_head_ r) (slots_ r).
Definition set_cached_head (v : Z) (r : SpscRing) : SpscRing :=
  MkSpsc (head_ r) (cached_tail_ r) (tail_ r) v (slots_ r).
Definition set_slots (v : list T) (r : SpscRing) : SpscRing :=
  MkSpsc (head_ r) (cached_tail_ r) (tail_ r) (cached_head_ r) v.
Definition set_head (v : Z) (r : SpscRing) : SpscRing :=
  MkSpsc v (cached_tail_ r) (tail_ r) (cached_head_ r) (slots_ r).
Definition set_tail (v : Z) (r : SpscRing) : SpscRing :=
  MkSpsc (head_ r) (cached_tail_ r) v (cached_head_ r) (slots_ r).

Inductive step : World -> World -> Prop :=
(** [h = head_.load()], and the test against [cached_tail_] *)
| push_start w value :
    producer w = PIdle ->
    let h := head_ (ring w) in
    step w (MkWorld (ring w)
      (if (u64 (h - cached_tail_ (ring w)) =? kCapacity)%Z then PRefresh value h
       else PWrite value h)
      (consumer w) (pushed w) (popped w) (seen_pops w) (seen_pushes w))
(** [cached_tail_ = tail_.load(acquire)], and the second test *)
| push_refresh w value h n :
    producer w = PRefresh value h -> seen_pops w <= n <= length (popped w) ->
    step w (MkWorld (set_cached_tail (u64 (Z.of_nat n)) (ring w))
      (if (u64 (h - u64 (Z.of_nat n)) =? kCapacity)%Z then PIdle else PWrite value h)
      (consumer w) (pushed w) (popped w) n (seen_pushes w))
(** [slots_[h & kMask] = value] *)
| push_write w value h slots :
    producer w = PWrite value h ->
    set_idx "slots_[h & kMask]" (slots_ (ring w)) (slot_of h) value = Ok slots ->
    step w (MkWorld (set_slots slots (ring w)) (PPublish value h)
      (consumer w) (pushed w) (popped w) (seen_pops w) (seen_pushes w))
(** [head_.store(h + 1, release)] *)
| push_publish w value h :
    producer w = PPublish value h ->
    step w (MkWorld (set_head (u64 (h + 1)) (ring w)) PIdle
      (consumer w) (pushed w ++ [value]) (popped w) (seen_pops w) (seen_pushes w))
(** [t = tail_.load()], and the test against [cached_head_] *)
| pop_start w :
    consumer w = CIdle ->
    let t := tail_ (ring w) in
    step w (MkWorld (ring w) (producer w)
      (if (t =? cached_head_ (ring w))%Z then CRefresh t else CRead t)
      (pushed w) (popped w) (seen_pops w) (seen_pushes w))
(** [cached_head_ = head_.load(acquire)], and the second test *)
| pop_refresh w t n :
    consumer w = CRefresh t -> seen_pushes w <= n <= length (pushed w) ->
    step w (MkWorld (set_cached_head (u64 (Z.of_nat n)) (ring w)) (producer w)
      (if (t =? u64 (Z.of_nat n))%Z then CIdle else CRead t)
      (pushed w) (popped w) (seen_pops w) n)
(** [out = slots_[t & kMask]] *)
| pop_read w t out :
    consumer w = CRead t -> at_idx "slots_[t & kMask]" (slots_ (ring w)) (slot_of t) = Ok out ->
    step w (MkWorld (ring w) (producer w) (CPublish t out)
      (pushed w) (popped w) (seen_pops w) (seen_pushes w))
(** [tail_.store(t + 1, release)] *)
| pop_publish w t out :
    consumer w = CPublish t out ->
    step w (MkWorld (set_tail (u64 (t + 1)) (ring w)) (producer w) CIdle
      (pushed w) (popped w ++ [out]) (seen_pops w) (seen_pushes w)).
End spsc.

Arguments SpscRing : clear implicits.
Arguments World : clear implicits.
