(* ===== verification/SpscFacts.v ===== *)
(** * The SPSC ring is a bounded FIFO queue

    The two-thread machine never loses, duplicates or reorders a value, never
    races on a slot and never gets stuck; calls that do not overlap are the
    operations of a bounded queue. *)

From S2P Require Import Prelude Errors Arith Rolling Spsc.
From stdpp Require Import relations.

Section facts.
Context {T : Type}.
Variable log_n : nat.
Hypothesis log_ok : 1 <= log_n <= 63.

Notation N := (2 ^ log_n).

Lemma kCapacity_nat : kCapacity log_n = Z.of_nat N.
Proof. unfold kCapacity. by rewrite Nat2Z.inj_pow. Qed.

Lemma N_bounds : 2 <= N /\ (Z.of_nat N < 2 ^ 64)%Z.
Proof.
  split.
  - replace log_n with (S (log_n - 1)) by lia. simpl.
    pose proof (Nat.pow_nonzero 2 (log_n - 1)). lia.
  - rewrite <- kCapacity_nat. apply Z.pow_lt_mono_r; lia.
Qed.

(** The capacity divides 2^64, so the mask of a wrapped counter is the mask
    of the counter. *)
Lemma slot_of_u64 (n : nat) : slot_of log_n (u64 (Z.of_nat n)) = n mod N.
Proof.
  unfold slot_of, kMask, kCapacity, u64.
  replace (2 ^ Z.of_nat log_n - 1)%Z with (Z.ones (Z.of_nat log_n)) by (rewrite Z.ones_equiv; lia).
  rewrite Z.land_ones by lia.
  replace 64%Z with (Z.of_nat log_n + (64 - Z.of_nat log_n))%Z by lia.
  rewrite Z.pow_add_r by lia.
  rewrite Z.rem_mul_r by lia.
  rewrite Z.mul_comm, Z.add_mod, Z.mod_mul, Z.add_0_r, !Z.mod_mod by lia.
  change 2%Z with (Z.of_nat 2). rewrite <- Nat2Z.inj_pow, <- Nat2Z.inj_mod.
  by rewrite Nat2Z.id.
Qed.

(** Distances between counters survive the wrap-around. *)
Lemma u64_diff (a b : nat) :
  b <= a -> (Z.of_nat (a - b) < 2 ^ 64)%Z ->
  u64 (u64 (Z.of_nat a) - u64 (Z.of_nat b)) = Z.of_nat (a - b).
Proof.
  intros Hle Hb. unfold u64. rewrite <- Zminus_mod, Z.mod_small; lia.
Qed.

Lemma u64_succ (a : nat) : u64 (u64 (Z.of_nat a) + 1) = u64 (Z.of_nat (S a)).
Proof. unfold u64. rewrite Zplus_mod_idemp_l. f_equal. lia. Qed.

Lemma u64_eq (a b : nat) :
  a <= b <= a + N -> (u64 (Z.of_nat a) =? u64 (Z.of_nat b))%Z = (a =? b).
Proof.
  intros Hab. pose proof N_bounds as [_ HN]. destruct (Nat.eqb_spec a b) as [->|Hne].
  - apply Z.eqb_refl.
  - apply Z.eqb_neq. intros E. pose proof (u64_diff b a ltac:(lia) ltac:(lia)) as Hd.
    rewrite E, Z.sub_diag in Hd. change (u64 0) with 0%Z in Hd. lia.
Qed.

Lemma full_test (h s : nat) :
  s <= h <= s + N ->
  (u64 (u64 (Z.of_nat h) - u64 (Z.of_nat s)) =? kCapacity log_n)%Z = (h - s =? N).
Proof.
  intros Hs. pose proof N_bounds as [_ HN]. rewrite u64_diff, kCapacity_nat by lia.
  destruct (Nat.eqb_spec (h - s) N) as [->|Hne]; [apply Z.eqb_refl|]. apply Z.eqb_neq. lia.
Qed.

(** Slots of counters less than a capacity apart are distinct. *)
Lemma slot_distinct (a b : nat) : a < b < a + N -> a mod N <> b mod N.
Proof.
  intros Hab E. pose proof N_bounds as [HN _].
  pose proof (Nat.div_mod_eq a N) as Ha. pose proof (Nat.div_mod_eq b N) as Hb.
  rewrite E in Ha. revert Hab HN Ha Hb. generalize (b mod N), (a / N), (b / N). generalize N.
  intros n r qa qb Hab Hn Ha Hb. destruct (le_lt_dec qb qa); nia.
Qed.

Lemma slot_bound (a : nat) : a mod N < N.
Proof. apply Nat.mod_upper_bound. pose proof N_bounds. lia. Qed.

(** ** The invariant of the machine *)

(** The slots of the counters [c .. p) hold the values [vs] of those counters. *)
Definition slots_hold (slots : list T) (c p : nat) (vs : nat -> option T) : Prop :=
  length slots = N /\ forall i, c <= i < p -> slots !! (i mod N) = vs i.

(** The indices of the ring and of the shadows, from the counters. *)
Record counters (r : SpscRing T) (p c sp sc : nat) : Prop := {
  ct_head : head_ r = u64 (Z.of_nat p);
  ct_tail : tail_ r = u64 (Z.of_nat c);
  ct_cached_tail : cached_tail_ r = u64 (Z.of_nat sc);
  ct_cached_head : cached_head_ r = u64 (Z.of_nat sp);
  ct_tail_seen : sc <= c;
  ct_head_seen : c <= sp <= p;
  ct_room : p <= sc + N;
}.

Definition producer_ok (w : World T) : Prop :=
  let p := length (pushed w) in
  match producer w with
  | PIdle => True
  | PRefresh v h => h = u64 (Z.of_nat p)
  | PWrite v h => h = u64 (Z.of_nat p) /\ p < seen_pops w + N
  | PPublish v h => h = u64 (Z.of_nat p) /\ p < seen_pops w + N /\
      slots_ (ring w) !! (p mod N) = Some v
  end.

Definition consumer_ok (w : World T) : Prop :=
  let c := length (popped w) in
  match consumer w with
  | CIdle => True
  | CRefresh t => t = u64 (Z.of_nat c)
  | CRead t => t = u64 (Z.of_nat c) /\ c < seen_pushes w
  | CPublish t v => t = u64 (Z.of_nat c) /\ c < seen_pushes w /\ pushed w !! c = Some v
  end.

Record spsc_inv (w : World T) : Prop := {
  si_counters : counters (ring w) (length (pushed w)) (length (popped w))
                  (seen_pushes w) (seen_pops w);
  si_prefix : popped w = take (length (popped w)) (pushed w);
  si_slots : slots_hold (slots_ (ring w)) (length (popped w)) (length (pushed w))
               (fun i => pushed w !! i);
  si_prod : producer_ok w;
  si_cons : consumer_ok w;
}.

Lemma spsc_inv_init d : spsc_inv (World_init log_n d).
Proof.
  pose proof N_bounds. split; try done.
  - split; simpl; try done; lia.
  - split; simpl; [|lia]. rewrite length_replicate, kCapacity_nat. lia.
Qed.

Lemma set_idx_inv {A} what (l l' : list A) i x :
  set_idx what l i x = Ok l' -> i < length l /\ l' = <[i := x]> l.
Proof. unfold set_idx. destruct (decide _); [by intros [= <-]|done]. Qed.

Lemma slots_hold_write slots c p vs v :
  p < c + N -> slots_hold slots c p vs -> slots_hold (<[p mod N := v]> slots) c p vs.
Proof.
  intros Hp [Hl Hs]. split; [by rewrite length_insert|]. intros i Hi.
  rewrite list_lookup_insert_ne; [by apply Hs|]. intros E.
  apply (slot_distinct i p); [lia|done].
Qed.

(** The consumer's part does not depend on the producer's steps, which only
    append to [pushed]. *)
Lemma consumer_ok_app w r pc v sc :
  consumer_ok w -> consumer_ok (MkWorld r pc (consumer w) (pushed w ++ [v]) (popped w) sc (seen_pushes w)).
Proof.
  unfold consumer_ok. simpl. destruct (consumer w); try done. intros (? & ? & Hl).
  split_and!; [done|done|]. by apply lookup_app_l_Some.
Qed.

Lemma spsc_inv_step w w' : spsc_inv w -> step log_n w w' -> spsc_inv w'.
Proof.
  intros [Hct Hpre Hsl Hp Hc] Hst. pose proof N_bounds as [HN _].
  pose proof Hct as [Eh Et Ect Ech Hts Hhs Hroom].
  destruct Hst as [w v Hpc h|w v h n Hpc Hn|w v h slots Hpc Hset|w v h Hpc
                  |w Hpc t|w t n Hpc Hn|w t out Hpc Hget|w t out Hpc];
    unfold producer_ok, consumer_ok in Hp, Hc; rewrite Hpc in Hp || rewrite Hpc in Hc;
    split; simpl; try done.
  - unfold producer_ok; simpl. subst h. rewrite Eh, Ect, full_test by lia.
    destruct (Nat.eqb_spec (length (pushed w) - seen_pops w) N); [done|]. split; [done|lia].
  - destruct Hct. split; simpl; try done; lia.
  - unfold producer_ok; simpl. rewrite Hp, full_test by lia.
    destruct (Nat.eqb_spec (length (pushed w) - n) N); [done|]. split; [done|lia].
  - destruct Hp as [-> Hroom']. apply set_idx_inv in Hset as [_ ->]. rewrite slot_of_u64.
    apply slots_hold_write; [lia|done].
  - destruct Hp as [-> Hroom']. apply set_idx_inv in Hset as [Hlt ->]. rewrite slot_of_u64 in *.
    split_and!; simpl; [done|done|]. by apply list_lookup_insert_eq.
  - destruct Hp as (-> & Hroom' & Hv). destruct Hct.
    split; simpl; rewrite ?length_app; simpl; try done; try lia. rewrite u64_succ. f_equal. lia.
  - by rewrite take_app_le by lia.
  - destruct Hp as (_ & _ & Hv). destruct Hsl as [Hl Hs]. split; [done|].
    rewrite length_app. simpl. intros i Hi. destruct (decide (i = length (pushed w))) as [->|].
    + by rewrite lookup_app_r, Nat.sub_diag by lia.
    + rewrite lookup_app_l by lia. apply Hs. lia.
  - by apply (consumer_ok_app w).
  - unfold consumer_ok; simpl. subst t. rewrite Et, Ech, u64_eq by lia.
    destruct (Nat.eqb_spec (length (popped w)) (seen_pushes w)); [done|]. split; [done|lia].
  - destruct Hct. split; simpl; try done; lia.
  - unfold consumer_ok; simpl. rewrite Hc, u64_eq by lia.
    destruct (Nat.eqb_spec (length (popped w)) n); [done|]. split; [done|lia].
  - destruct Hc as [-> Hlt]. apply at_idx_Ok in Hget. rewrite slot_of_u64 in Hget.
    split_and!; simpl; [done|done|]. destruct Hsl as [_ Hs]. by rewrite <- Hs by lia.
  - destruct Hc as (-> & Hlt & Hv). destruct Hct.
    split; simpl; rewrite ?length_app; simpl; try done; try lia. rewrite u64_succ. f_equal. lia.
  - destruct Hc as (_ & _ & Hv). rewrite length_app. simpl.
    rewrite Nat.add_1_r, (take_S_r _ _ out) by done. by rewrite <- Hpre.
  - destruct Hsl as [Hl Hs]. split; [done|]. rewrite length_app. simpl. intros i Hi.
    apply Hs. lia.
Qed.

Lemma spsc_inv_reachable (d : T) (w : World T) : rtc (step log_n) (World_init log_n d) w -> spsc_inv w.
Proof.
  intros Hr. pattern w. eapply rtc_ind_r; [|intros w1 w2 _ Hst IH|exact Hr].
  - apply spsc_inv_init.
  - by eapply spsc_inv_step.
Qed.

(** C22: the lock-free ring is safe under every interleaving of its two
    threads, with index loads as stale as release/acquire allows and with
    counters that wrap around at 2^64: the values taken are a prefix of the
    values published, in order (nothing is lost, duplicated or reordered); at
    most [N] are in flight; every slot access is in range; and the two
    threads are never about to access the same slot (no data race). *)
Theorem spsc_safe (d : T) (w : World T) :
  rtc (step log_n) (World_init log_n d) w ->
  popped w `prefix_of` pushed w /\
  length (pushed w) <= length (popped w) + N /\
  (forall v h, producer w = PWrite v h -> slot_of log_n h < length (slots_ (ring w))) /\
  (forall t, consumer w = CRead t -> slot_of log_n t < length (slots_ (ring w))) /\
  (forall v h t, producer w = PWrite v h -> consumer w = CRead t ->
     slot_of log_n h <> slot_of log_n t).
Proof.
  intros Hr. destruct (spsc_inv_reachable d w Hr) as [[] Hpre [Hl _] Hp Hc].
  unfold producer_ok, consumer_ok in *. split_and!.
  - exists (drop (length (popped w)) (pushed w)). by rewrite Hpre at 1; rewrite take_drop.
  - lia.
  - intros v h E. rewrite E in Hp. destruct Hp as [-> _]. rewrite slot_of_u64, Hl. apply slot_bound.
  - intros t E. rewrite E in Hc. destruct Hc as [-> _]. rewrite slot_of_u64, Hl. apply slot_bound.
  - intros v h t E1 E2. rewrite E1 in Hp. rewrite E2 in Hc.
    destruct Hp as [-> ?], Hc as [-> ?]. rewrite !slot_of_u64. apply not_eq_sym, slot_distinct. lia.
Qed.

(** ** Calls that do not overlap *)

(** A call, and its result. *)
Inductive Call := Push (value : T) | Pop.
Inductive Outcome := Pushed (ok : bool) | Popped (out : option T).

Definition ring_call (r : SpscRing T) (call : Call) : Res (Outcome * SpscRing T) :=
  match call with
  | Push v => '(b, r) <- try_push log_n r v;; Ok (Pushed b, r)
  | Pop => '(out, r) <- try_pop log_n r;; Ok (Popped out, r)
  end.

Fixpoint ring_calls (r : SpscRing T) (calls : list Call) : Res (list Outcome * SpscRing T) :=
  match calls with
  | [] => Ok ([], r)
  | call :: rest =>
      '(o, r) <- ring_call r call;; '(os, r) <- ring_calls r rest;; Ok (o :: os, r)
  end.

(** The specification: a queue of at most [N] values. *)
Definition queue_call (q : list T) (call : Call) : Outcome * list T :=
  match call, q with
  | Push v, _ => if length q =? N then (Pushed false, q) else (Pushed true, q ++ [v])
  | Pop, [] => (Popped None, [])
  | Pop, v :: q' => (Popped (Some v), q')
  end.

Fixpoint queue_calls (q : list T) (calls : list Call) : list Outcome * list T :=
  match calls with
  | [] => ([], q)
  | call :: rest =>
      let '(o, q) := queue_call q call in
      let '(os, q) := queue_calls q rest in (o :: os, q)
  end.

(** The ring holds the queue [q] after pushing [vs] in total. *)
Definition represents (r : SpscRing T) (q : list T) : Prop :=
  exists vs c sp sc, counters r (length vs) c sp sc /\ q = drop c vs /\
    slots_hold (slots_ r) c (length vs) (fun i => vs !! i).

Lemma try_push_represents r q v :
  represents r q ->
  exists r', try_push log_n r v = Ok (negb (length q =? N), r') /\
    represents r' (if length q =? N then q else q ++ [v]).
Proof.
  intros (vs & c & sp & sc & [Eh Et Ect Ech Hts Hhs Hroom] & -> & [Hl Hs]).
  pose proof N_bounds as [HN _]. unfold try_push. cbv zeta.
  rewrite Eh, Ect, full_test, length_drop by lia.
  assert (Hwrite : forall sc' r1, counters r1 (length vs) c sp sc' -> slots_ r1 = slots_ r ->
    length vs < sc' + N ->
    exists r', rbind (set_idx "slots_[h & kMask]" (slots_ r1) (slot_of log_n (u64 (Z.of_nat (length vs)))) v)
      (fun slots => Ok (true, MkSpsc (u64 (u64 (Z.of_nat (length vs)) + 1)) (cached_tail_ r1)
         (tail_ r1) (cached_head_ r1) slots)) = Ok (true, r') /\ represents r' (drop c vs ++ [v])).
  { intros sc' r1 [Eh1 Et1 Ect1 Ech1 Hts1 Hhs1 Hroom1] Er Hlt. rewrite slot_of_u64, Er.
    unfold set_idx. rewrite decide_True by (rewrite Hl; apply slot_bound). simpl.
    eexists. split; [done|]. exists (vs ++ [v]), c, sp, sc'. split_and!.
    - split; simpl; rewrite ?length_app; simpl; try done; try lia. rewrite u64_succ. f_equal. lia.
    - by rewrite drop_app_le by lia.
    - destruct (slots_hold_write (slots_ r) c (length vs) (fun i => vs !! i) v) as [Hl' Hs'];
        [lia|done|]. split; [done|]. rewrite length_app. simpl. intros i Hi.
      destruct (decide (i = length vs)) as [->|].
      + rewrite lookup_app_r, Nat.sub_diag by lia. apply list_lookup_insert_eq.
        rewrite Hl. apply slot_bound.
      + rewrite lookup_app_l by lia. apply Hs'. lia. }
  destruct (Nat.eqb_spec (length vs - sc) N) as [Hf|Hf].
  - cbn [head_ cached_tail_]. rewrite Et, full_test by lia.
    destruct (Nat.eqb_spec (length vs - c) N) as [Hf'|Hf'].
    + eexists. split; [done|]. exists vs, c, sp, c. split_and!; try done. split; simpl; done || lia.
    + apply (Hwrite c); [split; simpl; done || lia|done|lia].
  - cbn [head_ cached_tail_].
    replace (_ =? kCapacity log_n)%Z with false
      by (rewrite Ect, full_test by lia; by apply eq_sym, Nat.eqb_neq).
    destruct (Nat.eqb_spec (length vs - c) N); [lia|]. cbn [negb]. apply (Hwrite sc); [done|done|lia].
Qed.

Lemma try_pop_represents r q :
  represents r q ->
  exists r', try_pop log_n r = Ok (head q, r') /\ represents r' (tail q).
Proof.
  intros (vs & c & sp & sc & [Eh Et Ect Ech Hts Hhs Hroom] & -> & [Hl Hs]).
  pose proof N_bounds as [HN _]. unfold try_pop. cbv zeta. rewrite Et, Ech, u64_eq by lia.
  assert (Hread : forall sp' r1, counters r1 (length vs) c sp' sc -> slots_ r1 = slots_ r -> c < sp' ->
    exists r', rbind (at_idx "slots_[t & kMask]" (slots_ r1) (slot_of log_n (u64 (Z.of_nat c))))
      (fun out => Ok (Some out, MkSpsc (head_ r1) (cached_tail_ r1) (u64 (u64 (Z.of_nat c) + 1))
         (cached_head_ r1) (slots_ r1))) = Ok (head (drop c vs), r') /\
      represents r' (tail (drop c vs))).
  { intros sp' r1 [Eh1 Et1 Ect1 Ech1 Hts1 Hhs1 Hroom1] Er Hlt. rewrite slot_of_u64, Er.
    destruct (lookup_lt_is_Some_2 vs c) as [x Hx]; [lia|].
    unfold at_idx. rewrite Hs, Hx by lia. simpl. rewrite (drop_S vs x c Hx). simpl.
    eexists. split; [done|]. exists vs, (S c), sp', sc. split_and!; [|done|].
    - split; simpl; try done; try lia. by rewrite u64_succ.
    - split; [done|]. intros i Hi. apply Hs. lia. }
  destruct (Nat.eqb_spec c sp) as [->|Hne].
  - cbn [cached_head_ head_]. rewrite Eh, u64_eq by lia.
    destruct (Nat.eqb_spec sp (length vs)) as [E|Hne].
    + rewrite drop_ge by lia. eexists. split; [done|].
      exists vs, sp, (length vs), sc. split_and!; [split; simpl; done || lia|by rewrite drop_ge by lia|done].
    + apply (Hread (length vs)); [split; simpl; done || lia|done|lia].
  - cbn [cached_head_].
    replace (_ =? cached_head_ r)%Z with false
      by (rewrite Ech, u64_eq by lia; by apply eq_sym, Nat.eqb_neq).
    apply (Hread sp); [done|done|lia].
Qed.

Lemma represents_init d : represents (SpscRing_init log_n d) [].
Proof.
  pose proof N_bounds. exists [], 0, 0, 0. split_and!; [split; simpl; done || lia|done|].
  split; simpl; [|lia]. rewrite length_replicate, kCapacity_nat. lia.
Qed.

(** C24: calls that do not overlap implement a bounded FIFO queue: from a new
    ring, any sequence of [try_push] and [try_pop] succeeds in memory and
    returns exactly what a queue of capacity [N] returns, full and empty
    included, however often the 64-bit counters wrap around. *)
Theorem spsc_refines_queue (d : T) calls :
  exists r, ring_calls (SpscRing_init log_n d) calls = Ok (fst (queue_calls [] calls), r) /\
    represents r (snd (queue_calls [] calls)).
Proof.
  assert (Hgen : forall r q, represents r q ->
    exists r', ring_calls r calls = Ok (fst (queue_calls q calls), r') /\
      represents r' (snd (queue_calls q calls))).
  { induction calls as [|[v|] rest IH]; intros r q Hr; simpl; [by exists r| |].
    - destruct (try_push_represents r q v Hr) as (r1 & -> & Hr1). simpl.
      destruct (length q =? N); destruct (IH r1 _ Hr1) as (r2 & -> & Hr2); simpl;
        destruct (queue_calls _ rest); by exists r2.
    - destruct (try_pop_represents r q Hr) as (r1 & -> & Hr1). simpl.
      destruct q as [|v q]; destruct (IH r1 _ Hr1) as (r2 & -> & Hr2); simpl in *;
        destruct (queue_calls _ rest); by exists r2. }
  apply Hgen, represents_init.
Qed.
End facts.

(** A push and a pop on a ring of two slots, the pop reading a fresh head. *)
Lemma spsc_safe_witness :
  exists w : World nat, rtc (step 1) (World_init 1 0) w /\
    popped w = [7] /\ popped w `prefix_of` pushed w.
Proof.
  eassert (Hr : rtc (step 1) (World_init 1 0) _).
  { eapply rtc_l; [by apply (push_start 1 _ 7)|]. cbn.
    eapply rtc_l; [by eapply push_write|]. cbn.
    eapply rtc_l; [by eapply push_publish|]. cbn.
    eapply rtc_l; [by eapply pop_start|]. cbn.
    eapply rtc_l; [by eapply (pop_refresh 1 _ _ 1); [reflexivity|simpl; lia]|]. cbn.
    eapply rtc_l; [by eapply pop_read|]. cbn.
    eapply rtc_l; [by eapply pop_publish|]. cbn. apply rtc_refl. }
  eexists. split; [exact Hr|]. split; [reflexivity|].
  exact (proj1 (spsc_safe 1 ltac:(lia) 0 _ Hr)).
Defined.

Lemma spsc_refines_queue_witness :
  exists r, ring_calls 1 (SpscRing_init 1 0) [Push 5; Push 6; Push 7; Pop; Push 8; Pop]
      = Ok ([Pushed true; Pushed true; Pushed false; Popped (Some 5); Pushed true;
             Popped (Some 6)], r) /\
    represents 1 r [8].
Proof.
  exact (spsc_refines_queue 1 ltac:(lia) 0 [Push 5; Push 6; Push 7; Pop; Push 8; Pop]).
Defined.
