(* ===== verification/Multithread.v ===== *)
(** * Evaluating many symbols (src/src/multithread_eval.cpp, runtime.cpp)

    The sequential loop over the symbols, the partition of the symbols over
    threads, one thread's loop over its shard, and threads whose loops are
    interleaved symbol by symbol.  The compiled program
    [fn] is code generated at run time: it is a parameter, a function from a
    market, an arena and a symbol to the values it writes and the new arena
    ([double* outputs] is returned as the list of the values written).  A
    [size_t] that never exceeds the number of symbols is a [nat]. *)

From S2P Require Import Prelude Errors Arith Rolling Context.

Section multi.
Context {D L : Type} `{Machine D L}.
Notation Arena := (MultiSymbolSignalContext D L).

Definition ProgramStepFn : Type := MarketState D -> Arena -> nat -> Res (list D * Arena).

(** [static_cast<std::uint32_t>(s)] *)
Definition symbol_u32 (s : nat) : nat := Z.to_nat (Z.of_nat s mod 2 ^ 32).

(** The stores of the program through [outputs + offset]. *)
Fixpoint write_outputs (outputs : list D) (offset : nat) (values : list D) : Res (list D) :=
  match values with
  | [] => Ok outputs
  | v :: rest =>
      outputs <- set_idx "outputs" outputs offset v;; write_outputs outputs (S offset) rest
  end.

(** One iteration: the market of symbol [global_s], the context [local_s] of
    the arena, the output row of [global_s]. *)
Definition eval_symbol (fn : ProgramStepFn) (per_symbol_market : list (MarketState D))
  (outputs_per_symbol global_s local_s : nat) (arena : Arena) (outputs : list D)
  : Res (Arena * list D) :=
  market <- at_idx "per_symbol_market[s]" per_symbol_market global_s;;
  '(values, arena) <- fn market arena (symbol_u32 local_s);;
  outputs <- write_outputs outputs (global_s * outputs_per_symbol) values;;
  Ok (arena, outputs).

(** [for (s = first; s < first + n; ++s)], with [local_s = s - base]. *)
Fixpoint eval_range (fn : ProgramStepFn) (markets : list (MarketState D)) (ops base first n : nat)
  (arena : Arena) (outputs : list D) : Res (Arena * list D) :=
  match n with
  | 0 => Ok (arena, outputs)
  | S n' =>
      '(arena, outputs) <- eval_symbol fn markets ops first (first - base) arena outputs;;
      eval_range fn markets ops base (S first) n' arena outputs
  end.

Definition EvaluateAllSymbols (markets : list (MarketState D)) (arena : Arena)
  (fn : ProgramStepFn) (outputs : list D) (ops : nat) : Res (Arena * list D) :=
  let n := length markets in
  ensure (NumSymbols arena =? n) (RuntimeError "EvaluateAllSymbols: arena size mismatch") ;;;
  eval_range fn markets ops 0 0 n arena outputs.

Definition EvaluateAllSymbolsSequential (markets : list (MarketState D)) (arena : Arena)
  (fn : ProgramStepFn) (outputs : list D) (ops : nat) : Res (Arena * list D) :=
  EvaluateAllSymbols markets arena fn outputs ops.

Record SymbolShard := MkShard { begin : nat; end_ : nat }.
Definition Size (s : SymbolShard) : nat := end_ s - begin s.

Definition ComputeSymbolShard (n_symbols n_threads thread_index : nat) : Res SymbolShard :=
  ensure (negb (n_threads =? 0))
    (RuntimeError "ComputeSymbolShard: n_threads must be >= 1") ;;;
  ensure (thread_index <? n_threads)
    (RuntimeError "ComputeSymbolShard: thread_index out of range") ;;;
  let base := n_symbols / n_threads in
  let rem := n_symbols mod n_threads in
  let begin := thread_index * base + (if thread_index <? rem then thread_index else rem) in
  let extra := if thread_index <? rem then 1 else 0 in
  Ok (MkShard begin (begin + base + extra)).

Definition EvaluateSymbolShard (markets : list (MarketState D)) (thread_arena : Arena)
  (fn : ProgramStepFn) (shard : SymbolShard) (outputs : list D) (ops : nat)
  : Res (Arena * list D) :=
  ensure (NumSymbols thread_arena =? Size shard)
    (RuntimeError "EvaluateSymbolShard: thread arena size mismatch") ;;;
  eval_range fn markets ops (begin shard) (begin shard) (Size shard) thread_arena outputs.

(** *** Threads

    As the callers of [ComputeSymbolShard] use it: thread [t] computes its
    shard, owns an arena with the contexts of the shard's symbols, and runs
    the loop of [EvaluateSymbolShard]; the threads share the output buffer. *)
Record Thread := MkThread { th_shard : SymbolShard; th_arena : Arena; th_next : nat }.

(** The contexts of a shard, out of those of all symbols. *)
Definition thread_arena (arena : Arena) (sh : SymbolShard) : Arena :=
  MkArena (take (Size sh) (drop (begin sh) (arena_ arena))) (params_ arena).

(** Threads [t .. t + n). *)
Fixpoint start_threads (n_symbols n_threads t n : nat) (arena : Arena) : Res (list Thread) :=
  match n with
  | 0 => Ok []
  | S n' =>
      shard <- ComputeSymbolShard n_symbols n_threads t;;
      rmap (cons (MkThread shard (thread_arena arena shard) (begin shard)))
        (start_threads n_symbols n_threads (S t) n' arena)
  end.

(** One iteration of thread [t]'s loop; a thread past its shard does
    nothing. *)
Definition thread_step (fn : ProgramStepFn) (markets : list (MarketState D)) (ops t : nat)
  (w : list Thread * list D) : Res (list Thread * list D) :=
  let '(ths, outputs) := w in
  match ths !! t with
  | None => Ok w
  | Some th =>
      if th_next th <? end_ (th_shard th) then
        '(arena, outputs) <- eval_range fn markets ops (begin (th_shard th)) (th_next th) 1
                               (th_arena th) outputs;;
        Ok (<[t := MkThread (th_shard th) arena (S (th_next th))]> ths, outputs)
      else Ok w
  end.

(** The threads interleaved as the schedule says. *)
Fixpoint run_schedule (fn : ProgramStepFn) (markets : list (MarketState D)) (ops : nat)
  (schedule : list nat) (w : list Thread * list D) : Res (list Thread * list D) :=
  match schedule with
  | [] => Ok w
  | t :: rest => w <- thread_step fn markets ops t w;; run_schedule fn markets ops rest w
  end.
End multi.

(** [HashOutputBuffer] on the bytes of the buffer: FNV-1a. *)
Definition fnv_offset : Z := 14695981039346656037.
Definition fnv_prime : Z := 1099511628211.
Definition fnv_step (h byte : Z) : Z := ((Z.lxor h byte * fnv_prime) mod 2 ^ 64)%Z.
Definition HashOutputBuffer (bytes : list Z) : Z := foldl fnv_step fnv_offset bytes.
