(* ===== verification/MultithreadFacts.v ===== *)
(** * Sharded evaluation equals sequential evaluation *)

From S2P Require Import Prelude Errors Arith Rolling Context Multithread.

(** ** The partition of the symbols *)

(** Where the shard of thread [t] begins. *)
Definition shard_start (n_symbols n_threads t : nat) : nat :=
  t * (n_symbols / n_threads) + min t (n_symbols mod n_threads).

Definition shard_of (n_symbols n_threads t : nat) : SymbolShard :=
  MkShard (shard_start n_symbols n_threads t) (shard_start n_symbols n_threads (S t)).

Section partition.
Variables n_symbols n_threads : nat.
Hypothesis threads_pos : 0 < n_threads.
Notation start := (shard_start n_symbols n_threads).

Lemma ComputeSymbolShard_eq t :
  t < n_threads -> ComputeSymbolShard n_symbols n_threads t = Ok (shard_of n_symbols n_threads t).
Proof.
  intros Ht. unfold ComputeSymbolShard. destruct (Nat.eqb_spec n_threads 0); [lia|].
  destruct (Nat.ltb_spec t n_threads); [|lia]. cbn [negb ensure rbind].
  unfold shard_of, shard_start. do 2 f_equal; destruct (Nat.ltb_spec t (n_symbols mod n_threads)); lia.
Qed.

Lemma shard_start_last : start n_threads = n_symbols.
Proof.
  unfold shard_start. pose proof (Nat.div_mod_eq n_symbols n_threads).
  pose proof (Nat.mod_upper_bound n_symbols n_threads). lia.
Qed.

Lemma shard_start_mono t u : t <= u -> start t <= start u.
Proof. clear threads_pos.
  intros Htu. unfold shard_start.
  pose proof (Nat.mul_le_mono_r t u (n_symbols / n_threads) Htu). lia.
Qed.

Lemma shard_cover s n : s < start n -> exists t, t < n /\ start t <= s < start (S t).
Proof. clear threads_pos.
  induction n as [|n IH]; intros Hs; [unfold shard_start in Hs; simpl in Hs; lia|].
  destruct (decide (s < start n)) as [Hlt|Hge].
  - destruct (IH Hlt) as (t & ? & ?). exists t. split; [lia|done].
  - exists n. lia.
Qed.

Lemma shard_unique s t u :
  start t <= s < start (S t) -> start u <= s < start (S u) -> t = u.
Proof. clear threads_pos.
  intros Ht Hu. destruct (decide (t = u)) as [|Hne]; [done|]. exfalso.
  destruct (decide (t < u)).
  - pose proof (shard_start_mono (S t) u). lia.
  - pose proof (shard_start_mono (S u) t). lia.
Qed.

Lemma shard_bounds t :
  t < n_threads ->
  begin (shard_of n_symbols n_threads t) <= end_ (shard_of n_symbols n_threads t) <= n_symbols.
Proof.
  intros Ht. cbn [begin end_ shard_of].
  pose proof (shard_start_mono t (S t) ltac:(lia)).
  pose proof (shard_start_mono (S t) n_threads Ht) as Hm. rewrite shard_start_last in Hm. lia.
Qed.

(** the shards partition the symbols: for any number of symbols and of
    threads, the shards are computed, are consecutive intervals from 0 to the
    number of symbols, in thread order, and their sizes differ by at most
    one. *)
Theorem shards_partition :
  exists shard : nat -> SymbolShard,
    (forall t, t < n_threads -> ComputeSymbolShard n_symbols n_threads t = Ok (shard t)) /\
    begin (shard 0) = 0 /\
    (forall t, S t < n_threads -> begin (shard (S t)) = end_ (shard t)) /\
    end_ (shard (n_threads - 1)) = n_symbols /\
    (forall t u, Size (shard t) <= Size (shard u) + 1).
Proof.
  exists (shard_of n_symbols n_threads). split_and!; try done.
  - apply ComputeSymbolShard_eq.
  - unfold shard_of. cbn [end_]. replace (S (n_threads - 1)) with n_threads by lia.
    apply shard_start_last.
  - intros t u. unfold Size, shard_of, shard_start. cbn [begin end_]. lia.
Qed.
End partition.

Lemma shards_partition_witness :
  exists shard : nat -> SymbolShard,
    begin (shard 0) = 0 /\ end_ (shard (3 - 1)) = 10.
Proof.
  destruct (shards_partition 10 3 ltac:(lia)) as (shard & _ & H1 & _ & H2 & _).
  exists shard. split; assumption.
Defined.

(** ** The output hash *)

Lemma fnv_prime_inverse : (fnv_prime * 14886173955864302971 mod 2 ^ 64 = 1)%Z.
Proof. reflexivity. Qed.

Lemma fnv_mul_inj a b :
  (0 <= a < 2 ^ 64 -> 0 <= b < 2 ^ 64 ->
   (a * fnv_prime) mod 2 ^ 64 = (b * fnv_prime) mod 2 ^ 64 -> a = b)%Z.
Proof.
  intros Ha Hb E.
  assert (Hinv : forall x, (0 <= x < 2 ^ 64 ->
    ((x * fnv_prime) mod 2 ^ 64 * 14886173955864302971) mod 2 ^ 64 = x)%Z).
  { intros x Hx. rewrite Z.mul_mod_idemp_l, <- Z.mul_assoc, <- Z.mul_mod_idemp_r by lia.
    rewrite fnv_prime_inverse, Z.mul_1_r. by apply Z.mod_small. }
  by rewrite <- (Hinv a Ha), <- (Hinv b Hb), E.
Qed.

Lemma lxor_bound a b : (0 <= a < 2 ^ 64 -> 0 <= b < 256 -> 0 <= Z.lxor a b < 2 ^ 64)%Z.
Proof.
  intros Ha Hb. split; [by apply Z.lxor_nonneg; lia|].
  destruct (Z.eq_dec (Z.lxor a b) 0) as [->|Hne]; [lia|].
  assert (0 <= Z.lxor a b)%Z by (apply Z.lxor_nonneg; lia).
  apply Z.log2_lt_pow2; [lia|]. pose proof (Z.log2_lxor a b ltac:(lia) ltac:(lia)) as Hlog.
  assert (Z.log2 a < 64)%Z.
  { destruct (Z.eq_dec a 0) as [->|]; [done|]. by apply Z.log2_lt_pow2; lia. }
  assert (Z.log2 b < 64)%Z.
  { destruct (Z.eq_dec b 0) as [->|]; [done|]. apply Z.log2_lt_pow2; lia. }
  lia.
Qed.

Definition is_byte (b : Z) : Prop := (0 <= b < 256)%Z.

Lemma fnv_step_bound h b : (0 <= fnv_step h b < 2 ^ 64)%Z.
Proof. apply Z.mod_pos_bound. lia. Qed.

Lemma fnv_fold_inj bytes h h' :
  Forall is_byte bytes -> (0 <= h < 2 ^ 64)%Z -> (0 <= h' < 2 ^ 64)%Z ->
  foldl fnv_step h bytes = foldl fnv_step h' bytes -> h = h'.
Proof.
  intros HF. revert h h'. induction HF as [|b bytes Hb HF IH]; intros h h' Hh Hh' E; [done|].
  simpl in E. apply IH in E; try apply fnv_step_bound.
  apply fnv_mul_inj in E; [|by apply lxor_bound..].
  rewrite <- (Z.lxor_0_r h), <- (Z.lxor_0_r h'), <- (Z.lxor_nilpotent b), <- !Z.lxor_assoc.
  by rewrite E.
Qed.

(** The output hash detects every change of a single byte: two buffers
    that differ in exactly one byte have different hashes. *)
Theorem HashOutputBuffer_detects l1 b b' l2 :
  Forall is_byte (l1 ++ b :: l2) -> is_byte b' -> b <> b' ->
  HashOutputBuffer (l1 ++ b :: l2) <> HashOutputBuffer (l1 ++ b' :: l2).
Proof.
  intros HF Hb' Hne E. apply Forall_app in HF as [_ HF]. apply Forall_cons in HF as [Hb HF].
  unfold HashOutputBuffer in E. rewrite !foldl_app in E. simpl in E.
  set (h := foldl fnv_step fnv_offset l1) in *.
  assert (Hh : (0 <= h < 2 ^ 64)%Z).
  { unfold h. destruct l1 as [|c l1] using rev_ind; [done|]. rewrite foldl_app.
    apply fnv_step_bound. }
  apply fnv_fold_inj in E; [|done|apply fnv_step_bound..].
  apply fnv_mul_inj in E; [|by apply lxor_bound..]. apply Hne.
  rewrite <- (Z.lxor_0_l b), <- (Z.lxor_0_l b'), <- (Z.lxor_nilpotent h), !Z.lxor_assoc.
  by rewrite E.
Qed.

Lemma HashOutputBuffer_detects_witness :
  HashOutputBuffer ([1] ++ 2 :: [3])%Z <> HashOutputBuffer ([1] ++ 4 :: [3])%Z.
Proof.
  apply (HashOutputBuffer_detects [1]%Z 2 4 [3]%Z); [repeat constructor|split|]; done || lia.
Defined.

(** ** Threads *)

Section threads.
Context {D L : Type} `{Machine D L}.
Notation Ctx := (SignalContext D L).
Notation Arena := (MultiSymbolSignalContext D L).

(** The compiled program of a symbol: from its market and its context. *)
Variable f : MarketState D -> Ctx -> Res (list D * Ctx).
Variable fn : ProgramStepFn (D:=D) (L:=L).
Variable markets : list (MarketState D).
Variable ops : nat.

(** The generated code touches only the context of the symbol it is given
    and writes one row of outputs. *)
Hypothesis fn_local : forall m a s, fn m a s = with_symbol s (f m) a.
Hypothesis f_row : forall m c vs c', f m c = Ok (vs, c') -> length vs = ops.
Hypothesis symbols_u32 : (Z.of_nat (length markets) < 2 ^ 32)%Z.

(** *** The output rows *)

Lemma insert_inserts_out (out : list D) i x off vs :
  i < off \/ off + length vs <= i ->
  list_inserts off vs (<[i:=x]> out) = <[i:=x]> (list_inserts off vs out).
Proof.
  revert off. induction vs as [|v vs IH]; intros off Hi; simpl in *; [done|].
  rewrite IH by lia. apply list_insert_insert_ne. lia.
Qed.

Lemma write_outputs_Ok (out : list D) off (vs out' : list D) :
  write_outputs out off vs = Ok out' <->
  (vs = [] \/ off + length vs <= length out) /\ out' = list_inserts off vs out.
Proof.
  revert out off. induction vs as [|v vs IH]; intros out off; simpl.
  - split; [intros [= <-]; auto|by intros [_ ->]].
  - unfold set_idx. destruct (decide (off < length out)) as [Hlt|Hge]; simpl.
    + rewrite IH, length_insert.
      assert (E : list_inserts (S off) vs (<[off:=v]> out) = <[off:=v]> (list_inserts (S off) vs out)).
      { apply insert_inserts_out. lia. }
      rewrite E. split; intros [Hb ->]; (split; [|done]).
      * right. destruct Hb as [->|Hb]; simpl; lia.
      * destruct Hb as [|Hb]; [done|]. destruct vs; [by left|]. right. lia.
    + split; [done|]. intros [[|Hb] _]; [done|]. lia.
Qed.


Lemma lookup_inserts_row (out : list D) off vs i :
  off + length vs <= length out ->
  list_inserts off vs out !! i = (if decide (off <= i < off + length vs) then vs !! (i - off) else out !! i).
Proof.
  intros Hb. destruct (decide _) as [Hi|Hi].
  - apply list_lookup_inserts; lia.
  - destruct (decide (i < off)); [by apply list_lookup_inserts_lt|].
    apply list_lookup_inserts_ge. lia.
Qed.

(** Index [i] lies in the rows of the symbols [a .. b). *)
Definition in_rows (a b i : nat) : Prop := a * ops <= i < b * ops.
#[local] Instance in_rows_dec a b i : Decision (in_rows a b i) := _.

(** [o'] is [o] with the rows of the symbols [a .. b) taken from [res]. *)
Definition rows_from (res : list D) (a b : nat) (o o' : list D) : Prop :=
  forall i, o' !! i = if decide (in_rows a b i) then res !! i else o !! i.

Lemma rows_from_length (res : list D) a b o o' :
  length res = length o -> rows_from res a b o o' -> length o' = length o.
Proof.
  intros Hl Ho. assert (Hi : forall i, is_Some (o' !! i) <-> is_Some (o !! i)).
  { intros i. rewrite Ho. destruct (decide _); [|done]. rewrite !lookup_lt_is_Some. lia. }
  apply Nat.le_antisymm; apply Nat.nlt_ge; intros Hlt.
  - apply lookup_lt_is_Some, Hi, lookup_lt_is_Some in Hlt. lia.
  - apply lookup_lt_is_Some, Hi, lookup_lt_is_Some in Hlt. lia.
Qed.

(** *** One symbol *)

Lemma symbol_u32_small k : (Z.of_nat k < 2 ^ 32)%Z -> symbol_u32 k = k.
Proof. intros Hk. unfold symbol_u32. rewrite Z.mod_small by lia. apply Nat2Z.id. Qed.

(** An iteration on the context [k] of an arena. *)
Lemma eval_symbol_Ok s k (a a' : Arena) o o' :
  (Z.of_nat k < 2 ^ 32)%Z ->
  eval_symbol fn markets ops s k a o = Ok (a', o') <->
  exists m c vs c', markets !! s = Some m /\ arena_ a !! k = Some c /\ f m c = Ok (vs, c') /\
    (vs = [] \/ s * ops + length vs <= length o) /\
    a' = MkArena (<[k := c']> (arena_ a)) (params_ a) /\ o' = list_inserts (s * ops) vs o.
Proof.
  intros Hk. unfold eval_symbol. rewrite symbol_u32_small by done. split.
  - intros E. apply bind_Ok in E as (m & Hm & E). apply at_idx_Ok in Hm.
    apply bind_Ok in E as ([vs a1] & Hfn & E). apply bind_Ok in E as (o1 & Ho & E).
    injection E as -> ->. rewrite fn_local in Hfn. unfold with_symbol, PerSymbol in Hfn.
    apply bind_Ok in Hfn as (c & Hc & Hfn). destruct (arena_ a !! k) eqn:Ec; [|done].
    injection Hc as ->. apply bind_Ok in Hfn as ([vs' c'] & Hf & Hfn). injection Hfn as -> <-.
    apply write_outputs_Ok in Ho as [Hb ->]. by exists m, c, vs, c'.
  - intros (m & c & vs & c' & Hm & Hc & Hf & Hb & -> & ->). unfold at_idx. rewrite Hm. cbn [rbind].
    rewrite fn_local. unfold with_symbol, PerSymbol. rewrite Hc. cbn [rbind]. rewrite Hf. cbn [rbind].
    by rewrite (proj2 (write_outputs_Ok _ _ _ _) (conj Hb eq_refl)).
Qed.

(** What the sequential loop does for symbol [s]: its context and its row. *)
Definition symbol_done (arena arena' : Arena) (res : list D) (s : nat) : Prop :=
  exists m c vs c', markets !! s = Some m /\ arena_ arena !! s = Some c /\ f m c = Ok (vs, c') /\
    arena_ arena' !! s = Some c' /\ (vs = [] \/ s * ops + length vs <= length res) /\
    forall j, j < ops -> res !! (s * ops + j) = vs !! j.

Lemma row_written (res o : list D) s vs :
  length vs = ops -> length res = length o -> (vs = [] \/ s * ops + length vs <= length o) ->
  (forall j, j < ops -> res !! (s * ops + j) = vs !! j) ->
  rows_from res s (S s) o (list_inserts (s * ops) vs o).
Proof.
  intros Hvs Hl Hb Hres i. unfold in_rows. destruct Hb as [->|Hb].
  - simpl in *. by rewrite decide_False by lia.
  - rewrite lookup_inserts_row by done. pose proof (Nat.mul_succ_l s ops).
    destruct (decide (s * ops <= i < s * ops + length vs)), (decide (s * ops <= i < S s * ops));
      try lia; [|done].
    rewrite <- Hres by lia. f_equal. lia.
Qed.

(** The iteration of another loop, on a context equal to that of [s]. *)
Lemma eval_symbol_done (arena arena' a : Arena) res o s k :
  symbol_done arena arena' res s -> (Z.of_nat k < 2 ^ 32)%Z -> length res = length o ->
  arena_ a !! k = arena_ arena !! s ->
  exists c' o', arena_ arena' !! s = Some c' /\
    eval_symbol fn markets ops s k a o = Ok (MkArena (<[k := c']> (arena_ a)) (params_ a), o') /\
    rows_from res s (S s) o o'.
Proof.
  intros (m & c & vs & c' & Hm & Hc & Hf & Hc' & Hb & Hres) Hk Hl Ha.
  exists c', (list_inserts (s * ops) vs o). split; [done|]. split.
  - apply eval_symbol_Ok; [done|]. exists m, c, vs, c'. rewrite Ha, <- Hl. by split_and!.
  - apply row_written; try done; [by eapply f_row|by rewrite <- Hl].
Qed.

(** The sequential loop, symbol by symbol. *)
Lemma eval_range_done n : forall first (a a' : Arena) o o',
  (Z.of_nat (first + n) < 2 ^ 32)%Z -> eval_range fn markets ops 0 first n a o = Ok (a', o') ->
  params_ a' = params_ a /\ length (arena_ a') = length (arena_ a) /\ length o' = length o /\
  (forall s, s < first \/ first + n <= s -> arena_ a' !! s = arena_ a !! s) /\
  rows_from o' first (first + n) o o' /\
  (forall s, first <= s < first + n -> symbol_done a a' o' s).
Proof.
  induction n as [|n IH]; intros first a a' o o' Hb He; cbn [eval_range] in He.
  - injection He as -> ->. split_and!; try done; [|lia]. intros i. by destruct (decide _).
  - apply bind_Ok in He as ([a1 o1] & H1 & He). rewrite Nat.sub_0_r in H1.
    apply eval_symbol_Ok in H1 as (m & c & vs & c' & Hm & Hc & Hf & Hw & -> & ->); [|lia].
    destruct (IH (S first) _ _ _ _ ltac:(lia) He) as (Hp & Hla & Hlo & Hout & Hrows & Hdone).
    cbn [params_ arena_] in *. rewrite length_insert in Hla. rewrite length_inserts in Hlo.
    pose proof (f_row _ _ _ _ Hf) as Hvs.
    assert (Hrow : forall j, j < ops -> o' !! (first * ops + j) = vs !! j).
    { intros j Hj. destruct Hw as [->|Hw]; [simpl in Hvs; lia|].
      rewrite Hrows, decide_False by (unfold in_rows; lia).
      rewrite lookup_inserts_row, decide_True by lia. f_equal. lia. }
    split_and!; try done.
    + intros s Hs. rewrite Hout by lia. apply list_lookup_insert_ne. lia.
    + intros i. destruct (decide _) as [|Hi]; [done|]. unfold in_rows in Hi.
      rewrite Hrows, decide_False by (unfold in_rows; nia).
      destruct Hw as [->|Hw]; [done|].
      rewrite lookup_inserts_row, decide_False by nia. done.
    + intros s Hs. destruct (decide (s = first)) as [->|Hne].
      * exists m, c, vs, c'. rewrite Hout, list_lookup_insert_eq by (lia || by eapply lookup_lt_Some).
        rewrite Hlo. by split_and!.
      * destruct (Hdone s ltac:(lia)) as (m2 & c2 & vs2 & c2' & E1 & E2 & E3).
        cbn [arena_] in E2. rewrite list_lookup_insert_ne in E2 by lia. by exists m2, c2, vs2, c2'.
Qed.

(** *** A shard *)

(** The threads as they start. *)
Lemma start_threads_Ok n n_threads (arena : Arena) k : forall t, t + k <= n_threads ->
  start_threads n n_threads t k arena =
    Ok (map (fun t => let sh := shard_of n n_threads t in MkThread sh (thread_arena arena sh) (begin sh))
          (seq t k)).
Proof.
  induction k as [|k IH]; intros t Ht; cbn [start_threads seq map]; [done|].
  rewrite ComputeSymbolShard_eq by lia. cbn [rbind]. by rewrite IH by lia.
Qed.


Section shards.
Variables arena arena' : Arena.
Variables out res : list D.
Notation n := (length markets).
Hypothesis all_done : forall s, s < n -> symbol_done arena arena' res s.
Hypothesis arena_length : length (arena_ arena) = n.
Hypothesis arena_length' : length (arena_ arena') = n.
Hypothesis same_params : params_ arena' = params_ arena.
Hypothesis out_length : length res = length out.
Hypothesis out_rest : rows_from res 0 n out res.

(** The arena of a thread that has evaluated [j] symbols of its shard. *)
Definition mixed (sh : SymbolShard) (j : nat) : Arena :=
  MkArena (take j (arena_ (thread_arena arena' sh)) ++ drop j (arena_ (thread_arena arena sh)))
    (params_ arena).

Lemma mixed_start sh : mixed sh 0 = thread_arena arena sh.
Proof. done. Qed.

Lemma slice_length (a : Arena) sh :
  length (arena_ a) = n -> end_ sh <= n -> length (arena_ (thread_arena a sh)) = Size sh.
Proof. intros Hl Hsh. unfold Size. simpl. rewrite length_take, length_drop. unfold Size. lia. Qed.

Lemma mixed_end sh : end_ sh <= n -> mixed sh (Size sh) = thread_arena arena' sh.
Proof.
  intros Hsh. unfold mixed.
  rewrite take_ge, drop_ge, app_nil_r by (rewrite slice_length; done).
  unfold thread_arena. by rewrite same_params.
Qed.

Lemma slice_lookup (a : Arena) sh j : j < Size sh -> arena_ (thread_arena a sh) !! j = arena_ a !! (begin sh + j).
Proof. intros Hj. simpl. by rewrite lookup_take_lt, lookup_drop. Qed.

Lemma mixed_lookup sh j :
  end_ sh <= n -> j < Size sh -> arena_ (mixed sh j) !! j = arena_ arena !! (begin sh + j).
Proof.
  intros Hsh Hj. unfold mixed. cbn [arena_]. pose proof (slice_length arena' sh arena_length' Hsh).
  rewrite lookup_app_r; rewrite length_take, Nat.min_l by lia; [|done].
  by rewrite Nat.sub_diag, lookup_drop, Nat.add_0_r, slice_lookup.
Qed.

Lemma mixed_step sh j c' :
  end_ sh <= n -> j < Size sh -> arena_ arena' !! (begin sh + j) = Some c' ->
  MkArena (<[j := c']> (arena_ (mixed sh j))) (params_ (mixed sh j)) = mixed sh (S j).
Proof.
  intros Hsh Hj Hc. unfold mixed at 1 3. cbn [arena_]. f_equal.
  pose proof (slice_length arena' sh arena_length' Hsh).
  pose proof (slice_length arena sh arena_length Hsh).
  destruct (lookup_lt_is_Some_2 (arena_ (thread_arena arena sh)) j) as [x Hx]; [lia|].
  rewrite <- slice_lookup in Hc by done.
  rewrite (drop_S _ _ _ Hx), (take_S_r _ _ _ Hc), <- app_assoc.
  rewrite insert_app_r_alt by (rewrite length_take; lia).
  rewrite length_take, Nat.min_l, Nat.sub_diag by lia. done.
Qed.

(** A stretch of the loop of [EvaluateSymbolShard]. *)
Lemma shard_stretch sh k : forall s o,
  end_ sh <= n -> begin sh <= s -> s + k <= end_ sh -> length res = length o -> exists o',
  eval_range fn markets ops (begin sh) s k (mixed sh (s - begin sh)) o =
    Ok (mixed sh (s + k - begin sh), o') /\ rows_from res s (s + k) o o'.
Proof.
  induction k as [|k IH]; intros s o Hsh Hs Hk Hl; cbn [eval_range].
  - exists o. rewrite Nat.add_0_r. split; [done|]. intros i. by rewrite decide_False by (unfold in_rows; lia).
  - assert (Hj : s - begin sh < Size sh) by (unfold Size; lia).
    assert (Eb : begin sh + (s - begin sh) = s) by lia.
    destruct (eval_symbol_done arena arena' (mixed sh (s - begin sh)) res o s (s - begin sh))
      as (c' & o1 & Hc' & -> & Ho1); [by apply all_done; lia|lia|done| |].
    { by rewrite mixed_lookup, Eb. }
    cbn [rbind]. rewrite mixed_step by (done || by rewrite Eb).
    pose proof (rows_from_length _ _ _ _ _ Hl Ho1) as Hl1.
    replace (S (s - begin sh)) with (S s - begin sh) by lia.
    destruct (IH (S s) o1 Hsh ltac:(lia) ltac:(lia) ltac:(lia)) as (o2 & -> & Ho2).
    replace (S s + k) with (s + S k) in * by lia. exists o2. split; [done|].
    intros i. rewrite Ho2, Ho1. unfold in_rows.
    destruct (decide (S s * ops <= i < (s + S k) * ops)), (decide (s * ops <= i < S s * ops)),
      (decide (s * ops <= i < (s + S k) * ops)); try done; exfalso; nia.
Qed.

Lemma EvaluateSymbolShard_done sh o :
  begin sh <= end_ sh <= n -> length o = length out -> exists o',
  EvaluateSymbolShard markets (thread_arena arena sh) fn sh o ops = Ok (thread_arena arena' sh, o') /\
    rows_from res (begin sh) (end_ sh) o o'.
Proof.
  intros Hsh Hl. unfold EvaluateSymbolShard, NumSymbols.
  rewrite slice_length, Nat.eqb_refl by lia. cbn [ensure rbind].
  destruct (shard_stretch sh (Size sh) (begin sh) o) as (o' & E & Ho'); [unfold Size; lia..|].
  rewrite Nat.sub_diag, mixed_start in E. exists o'. rewrite E.
  replace (begin sh + Size sh) with (end_ sh) in * by (unfold Size; lia).
  split; [|done]. do 2 f_equal. apply mixed_end. lia.
Qed.

(** *** The interleaved threads *)

Lemma rows_cover k i : i < k * ops -> exists s, s < k /\ in_rows s (S s) i.
Proof.
  induction k as [|k IH]; intros Hi; [simpl in Hi; lia|].
  destruct (decide (i < k * ops)) as [Hlt|Hge].
  - destruct (IH Hlt) as (s & ? & ?). exists s. split; [lia|done].
  - exists k. split; [lia|]. unfold in_rows. lia.
Qed.

Lemma rows_unique i s s' : in_rows s (S s) i -> in_rows s' (S s') i -> s = s'.
Proof. unfold in_rows. intros. destruct (decide (s = s')); [done|]. exfalso. nia. Qed.

Section schedule.
Variable n_threads : nat.
Hypothesis threads_pos : 0 < n_threads.
Notation shard := (shard_of n n_threads).

(** Thread [t] has made [count t] turns. *)
Record sched_inv (count : nat -> nat) (w : list Thread * list D) : Prop := {
  sv_count : length (fst w) = n_threads;
  sv_thread : forall t th, fst w !! t = Some th ->
    th_shard th = shard t /\
    th_next th = min (end_ (shard t)) (begin (shard t) + count t) /\
    th_arena th = mixed (shard t) (th_next th - begin (shard t));
  sv_rows : forall t th s i, fst w !! t = Some th -> begin (shard t) <= s < end_ (shard t) ->
    in_rows s (S s) i -> snd w !! i = if s <? th_next th then res !! i else out !! i;
  sv_rest : forall i, n * ops <= i -> snd w !! i = out !! i;
  sv_length : length (snd w) = length res;
}.

Lemma thread_step_inv count t w :
  sched_inv count w -> exists w', thread_step fn markets ops t w = Ok w' /\
    sched_inv (fun u => if decide (u = t) then S (count u) else count u) w'.
Proof.
  intros [Hlen Hth Hrows Hrest Hl]. destruct w as [ths o].
  cbn [fst snd thread_step] in *.
  destruct (ths !! t) as [th|] eqn:Et.
  2: { exists (ths, o). split; [done|]. split; cbn [fst snd]; try done.
       intros u thu Hu. rewrite decide_False by congruence. by apply Hth. }
  destruct (Hth t th Et) as (Hsh & Hnext & Har). pose proof (lookup_lt_Some _ _ _ Et) as Ht.
  rewrite Hlen in Ht. pose proof (shard_bounds n n_threads threads_pos t Ht) as Hb. rewrite Hsh.
  destruct (Nat.ltb_spec (th_next th) (end_ (shard t))) as [Hlt|Hge].
  2: { exists (ths, o). split; [done|]. split; cbn [fst snd]; try done.
       intros u thu Hu. destruct (decide (u = t)) as [->|]; [|by apply Hth].
       rewrite Et in Hu. injection Hu as <-. split_and!; [done|lia|done]. }
  set (s := th_next th) in *. rewrite Har.
  destruct (shard_stretch (shard t) 1 s o) as (o' & -> & Ho'); [lia..|]. cbn [rbind].
  rewrite Nat.add_1_r in Ho' |- *. eexists. split; [done|].
  pose proof (rows_from_length _ _ _ _ _ (eq_sym Hl) Ho') as Hl'.
  split; cbn [fst snd]; [by rewrite length_insert| | | |lia].
  - intros u thu Hu. destruct (decide (u = t)) as [->|Hne].
    + rewrite list_lookup_insert_eq in Hu by (by eapply lookup_lt_Some). injection Hu as <-.
      cbn [th_shard th_next th_arena]. split_and!; [done|lia|done].
    + rewrite list_lookup_insert_ne in Hu by done. by apply Hth.
  - intros u thu x i Hu Hx Hi. rewrite Ho'.
    destruct (decide (in_rows s (S s) i)) as [His|His].
    + pose proof (rows_unique i s x His Hi) as <-.
      assert (u = t) as -> by (apply (shard_unique n n_threads s); cbn [begin end_ shard_of] in *; lia).
      rewrite list_lookup_insert_eq in Hu by (by eapply lookup_lt_Some). injection Hu as <-.
      cbn [th_next]. destruct (Nat.ltb_spec s (S s)); [done|lia].
    + destruct (decide (u = t)) as [->|Hne].
      * rewrite list_lookup_insert_eq in Hu by (by eapply lookup_lt_Some). injection Hu as <-.
        cbn [th_next]. assert (x <> s) by congruence.
        rewrite (Hrows t th x i Et Hx Hi). fold s.
        destruct (Nat.ltb_spec x s), (Nat.ltb_spec x (S s)); done || lia.
      * rewrite list_lookup_insert_ne in Hu by done. by apply (Hrows u thu).
  - intros i Hi. rewrite Ho', decide_False by (unfold in_rows; nia). by apply Hrest.
Qed.

Lemma run_schedule_inv schedule : forall count w,
  sched_inv count w -> exists w', run_schedule fn markets ops schedule w = Ok w' /\
    sched_inv (fun u => count u + count_occ Nat.eq_dec schedule u) w'.
Proof.
  induction schedule as [|t rest IH]; intros count w Hw; cbn [run_schedule].
  - exists w. split; [done|]. destruct Hw as [Hlen Hth Hrows Hrest Hl]. split; try done.
    intros t th Et. cbn [count_occ]. rewrite Nat.add_0_r. by apply Hth.
  - destruct (thread_step_inv count t w Hw) as (w1 & -> & Hw1). cbn [rbind].
    destruct (IH _ _ Hw1) as (w2 & -> & [Hlen Hth Hrows Hrest Hl]). exists w2. split; [done|].
    split; try done. intros u th Eu. cbn [count_occ]. destruct (Hth u th Eu) as (? & E & ?).
    split_and!; [done| |done]. rewrite E.
    destruct (decide (u = t)), (Nat.eq_dec t u); congruence || lia.
Qed.

(** When every thread is past its shard, everything has been evaluated. *)
Lemma sched_inv_end count w :
  sched_inv count w ->
  (forall t th, fst w !! t = Some th -> th_next th = end_ (th_shard th)) ->
  snd w = res /\ forall t th, fst w !! t = Some th -> th_arena th = thread_arena arena' (th_shard th).
Proof.
  intros [Hlen Hth Hrows Hrest Hl] Hend. split.
  - apply list_eq. intros i. destruct (decide (i < n * ops)) as [Hi|Hi].
    + destruct (rows_cover n i Hi) as (s & Hs & His).
      destruct (shard_cover n n_threads s n_threads) as (t & Ht & Hst);
        [by rewrite shard_start_last by done|].
      destruct (lookup_lt_is_Some_2 (fst w) t) as [th Et]; [lia|].
      rewrite (Hrows t th s i Et Hst His), (Hend t th Et), (proj1 (Hth t th Et)).
      cbn [end_ shard_of]. destruct (Nat.ltb_spec s (shard_start n n_threads (S t))); [done|lia].
    + rewrite Hrest, out_rest by lia. by rewrite decide_False by (unfold in_rows; lia).
  - intros t th Et. destruct (Hth t th Et) as (Hsh & _ & ->). rewrite (Hend t th Et), Hsh.
    apply mixed_end, shard_bounds; [done|]. rewrite <- Hlen. by eapply lookup_lt_Some.
Qed.

Lemma started_inv :
  sched_inv (fun _ => 0)
    (map (fun t => MkThread (shard t) (thread_arena arena (shard t)) (begin (shard t))) (seq 0 n_threads), out).
Proof.
  assert (Hst : forall t th, map (fun t => MkThread (shard t) (thread_arena arena (shard t)) (begin (shard t)))
      (seq 0 n_threads) !! t = Some th ->
    t < n_threads /\ th = MkThread (shard t) (thread_arena arena (shard t)) (begin (shard t))).
  { intros t th Et. apply list_lookup_fmap_Some in Et as (t' & -> & Et').
    apply lookup_seq in Et' as [-> Ht]. done. }
  split; cbn [fst snd].
  - by rewrite length_map, length_seq.
  - intros t th Et. destruct (Hst t th Et) as [Ht ->]. pose proof (shard_bounds n n_threads threads_pos t Ht).
    cbn [th_shard th_next th_arena]. rewrite Nat.sub_diag. split_and!; [done|lia|done].
  - intros t th s i Et Hs _. destruct (Hst t th Et) as [Ht ->]. cbn [th_next].
    destruct (Nat.ltb_spec s (begin (shard t))); [lia|done].
  - done.
  - done.
Qed.
End schedule.
End shards.

(** C23: sharded evaluation equals sequential evaluation.  If the sequential
    loop evaluates all symbols, then for any number of threads
    [ComputeSymbolShard] gives every thread its shard, and
    - run alone, on the contexts of its shard and on any output buffer of the
      right length, [EvaluateSymbolShard] returns the contexts the sequential
      loop leaves in the shard and changes exactly the shard's rows of the
      buffer, to those of the sequential loop;
    - under every interleaving of the threads' loops, one symbol at a time,
      nothing fails, each thread advances with each of its turns until its
      shard ends, and once all are past their shards the shared buffer is the
      sequential one and each thread holds the sequential contexts of its
      shard.
    The generated code [fn] touches only the context of the symbol it is given
    ([fn_local]) and writes one row of [ops] values ([f_row]); there are
    fewer than 2^32 symbols. *)
Theorem sharded_equals_sequential n_threads (arena arena' : Arena) out out' :
  0 < n_threads ->
  EvaluateAllSymbols markets arena fn out ops = Ok (arena', out') ->
  exists threads,
    start_threads (length markets) n_threads 0 n_threads arena = Ok threads /\
    length threads = n_threads /\
    (forall t th o, threads !! t = Some th -> length o = length out ->
      ComputeSymbolShard (length markets) n_threads t = Ok (th_shard th) /\
      exists o', EvaluateSymbolShard markets (th_arena th) fn (th_shard th) o ops =
          Ok (thread_arena arena' (th_shard th), o') /\
        forall i, o' !! i = if decide (begin (th_shard th) * ops <= i < end_ (th_shard th) * ops)
                            then out' !! i else o !! i) /\
    (forall schedule, exists ths out1,
      run_schedule fn markets ops schedule (threads, out) = Ok (ths, out1) /\
      length ths = n_threads /\
      (forall t th, ths !! t = Some th ->
        th_shard <$> threads !! t = Some (th_shard th) /\
        th_next th = min (end_ (th_shard th))
                         (begin (th_shard th) + count_occ Nat.eq_dec schedule t)) /\
      ((forall t th, ths !! t = Some th -> th_next th = end_ (th_shard th)) ->
       out1 = out' /\
       forall t th, ths !! t = Some th -> th_arena th = thread_arena arena' (th_shard th))).
Proof.
  intros Hn He. unfold EvaluateAllSymbols in He. apply bind_Ok in He as (u & Hu & He).
  apply ensure_Ok, Nat.eqb_eq in Hu.
  destruct (eval_range_done (length markets) 0 _ _ _ _ symbols_u32 He) as (Hp & Hla & Hlo & _ & Hrest & Hdone).
  assert (Hd : forall s, s < length markets -> symbol_done arena arena' out' s)
    by (intros s Hs; apply Hdone; lia).
  assert (Hla' : length (arena_ arena') = length markets) by (by rewrite Hla).
  eexists. split; [by apply start_threads_Ok|].
  split; [by rewrite length_map, length_seq|]. split.
  - intros t th o Et Ho. apply list_lookup_fmap_Some in Et as (t' & -> & Et').
    apply lookup_seq in Et' as [-> Ht]. cbn [Nat.add th_shard th_arena].
    split; [by apply ComputeSymbolShard_eq|].
    eapply EvaluateSymbolShard_done; try done. by apply shard_bounds.
  - intros schedule.
    pose proof (started_inv arena arena' out out' Hu Hla' Hlo n_threads Hn) as Hstart.
    eapply run_schedule_inv in Hstart as ([ths out1] & Hrun & Hinv); try done.
    exists ths, out1. split; [done|]. split; [apply Hinv|]. split.
    + intros t th Et. destruct Hinv as [Hcount Hth _ _ _]. cbn [fst snd] in *.
      destruct (Hth t th Et) as (-> & -> & _). split; [|done].
      pose proof (lookup_lt_Some _ _ _ Et) as Ht. rewrite Hcount in Ht.
      by rewrite list_lookup_fmap, lookup_seq_lt.
    + intros Hend. by apply (sched_inv_end arena arena' out out' Hu Hla' Hp Hlo Hrest n_threads Hn _ _ Hinv).
Qed.
End threads.

(** *** A program that satisfies the hypotheses

    One output per symbol, its mid price, on two symbols and two threads. *)
Definition mt_machine : Machine double long_double := ieee (fun x => x).
Definition mt_program (m : MarketState double) (c : SignalContext double long_double)
  : Res (list double * SignalContext double long_double) :=
  Ok ([match instruments m with ins :: _ => bid ins | [] => fint 0 end], c).
Definition mt_markets : list (MarketState double) :=
  map (fun z => MkMarket [MkInstrument (fint z) (fint z) (fint z) (fint 1) 0] 0) [3; 5]%Z.
Definition mt_arena : MultiSymbolSignalContext double long_double := NewArena 2.

Lemma sharded_equals_sequential_witness :
  exists threads ths,
    start_threads 2 2 0 2 mt_arena = Ok threads /\
    run_schedule (fun m a s => with_symbol s (mt_program m) a) mt_markets 1 [1; 0]
      (threads, [fint 0; fint 0]) = Ok (ths, [fint 3; fint 5]).
Proof.
  destruct (sharded_equals_sequential mt_program (fun m a s => with_symbol s (mt_program m) a)
    mt_markets 1 (fun m a s => eq_refl) ltac:(by intros m c vs c' [= <- <-]) ltac:(simpl; lia)
    2 mt_arena mt_arena [fint 0; fint 0] [fint 3; fint 5] ltac:(lia)
    ltac:(vm_compute; reflexivity)) as (threads & Hst & _ & _ & Hrun).
  destruct (Hrun [1; 0]) as (ths & out1 & E & _).
  exists threads, ths. split; [exact Hst|]. rewrite E.
  vm_compute in Hst. injection Hst as <-. vm_compute in E. injection E as <- <-.
  reflexivity.
Defined.
