(* ===== verification/TypeFacts.v ===== *)
(** * The type checker decides a type system

    The typing rules of the DSL as an inductive relation, the proof that
    [TypeCheckExpr] decides it, and what a type says about evaluation. *)

From S2P Require Import Prelude Errors Arith Ast TypeCheck SymbolTable SignalProgram Rolling Context Interpreter.

Section typing.
Context {D : Type}.

Inductive has_type : Expr D -> StaticType -> Prop :=
| ty_number loc v : has_type (NumberLiteral loc v) TNumber
| ty_identifier loc n : has_type (IdentifierExpr loc n) TNumber
| ty_parameter loc n i : has_type (ParameterExpr loc n i) TNumber
| ty_unary loc k e : has_type e TNumber -> has_type (UnaryOp loc k e) TNumber
| ty_binary loc k l r :
    let operands := match op_class k with Logical => TBool | _ => TNumber end in
    has_type l operands -> has_type r operands ->
    has_type (BinaryOp loc k l r) (match op_class k with Arithmetic => TNumber | _ => TBool end)
| ty_conditional loc c t e :
    has_type c TBool -> has_type t TNumber -> has_type e TNumber ->
    has_type (Conditional loc c t e) TNumber
| ty_call loc name args i s :
    IsTickerFirstArgFn name = false -> Forall (fun a => has_type a TNumber) args ->
    has_type (FunctionCall loc name args i s) TNumber
| ty_call_no_args loc name i s : has_type (FunctionCall loc name [] i s) TNumber
| ty_call_ticker loc name l n args i s :
    IsTickerFirstArgFn name = true -> Forall (fun a => has_type a TNumber) args ->
    has_type (FunctionCall loc name (IdentifierExpr l n :: args) i s) TNumber.

(** The loop over the arguments of a call. *)
Notation check_args := (fix check_args (l : list (Expr D)) : Res () :=
  match l with
  | [] => Ok tt
  | a :: l' => (at_ <- TypeCheckExpr a;; RequireType a at_ TNumber "function-call argument") ;;;
               check_args l'
  end).

Lemma RequireType_Ok (x : Expr D) t w c u : RequireType x t w c = Ok u <-> t = w.
Proof. unfold RequireType. destruct u. by case_decide. Qed.

Lemma RequireType_safe (x : Expr D) t w c : safe (fun _ => True) (RequireType x t w c).
Proof. unfold RequireType. by case_decide. Qed.

Lemma check_args_safe l :
  Forall (fun x => safe (fun _ => True) (TypeCheckExpr x)) l ->
  safe (fun _ => True) (check_args l).
Proof.
  induction 1 as [|a l Ha Hl IHl]; [exact I|].
  eapply safe_bind; [|intros; exact IHl].
  eapply safe_bind; [exact Ha|intros; apply RequireType_safe].
Qed.

Lemma check_args_Ok l u :
  Forall (fun x => forall t, TypeCheckExpr x = Ok t <-> has_type x t) l ->
  check_args l = Ok u <-> Forall (fun a => has_type a TNumber) l.
Proof.
  destruct u. induction 1 as [|a l Ha Hl IHl]; [done|].
  rewrite bind_Ok, Forall_cons. split.
  - intros ([] & (t & Ht & Hr)%bind_Ok & Hc). apply RequireType_Ok in Hr as ->.
    split; [by apply Ha|by apply IHl].
  - intros [Ht Hc]. exists tt. split; [|by apply IHl]. apply bind_Ok. exists TNumber.
    split; [by apply Ha|by apply RequireType_Ok].
Qed.

Lemma TypeCheckExpr_safe (e : Expr D) : safe (fun _ => True) (TypeCheckExpr e).
Proof.
  pose proof RequireType_safe as R.
  induction e using Expr_rect'; try exact I.
  - cbn [TypeCheckExpr]. eapply safe_bind; [exact IHe|]. intros t _.
    eapply safe_bind; [apply R|]. by intros.
  - cbn [TypeCheckExpr]. eapply safe_bind; [exact IHe1|]. intros t1 _.
    eapply safe_bind; [exact IHe2|]. intros t2 _.
    destruct (op_class k); (eapply safe_bind; [apply R|intros ? _]);
      (eapply safe_bind; [apply R|by intros]).
  - cbn [TypeCheckExpr]. apply (safe_bind (fun _ => True)); [|by intros].
    destruct args as [|a rest]; [exact I|].
    destruct (IsTickerFirstArgFn n); [|exact (check_args_safe (a :: rest) H)].
    destruct (AsIdentifier a); [|exact I]. apply (check_args_safe rest). by inversion H.
  - cbn [TypeCheckExpr]. eapply safe_bind; [exact IHe1|]. intros t1 _.
    eapply safe_bind; [apply R|]. intros _ _. eapply safe_bind; [exact IHe2|]. intros t2 _.
    eapply safe_bind; [exact IHe3|]. intros t3 _.
    eapply safe_bind; [apply R|]. intros _ _. eapply safe_bind; [apply R|]. by intros.
Qed.


Lemma TypeCheckExpr_Ok (e : Expr D) t : TypeCheckExpr e = Ok t <-> has_type e t.
Proof.
  revert t. induction e using Expr_rect'; intros ty.
  - split; [intros [= <-]; constructor|by inversion 1].
  - split; [intros [= <-]; constructor|by inversion 1].
  - split; [intros [= <-]; constructor|by inversion 1].
  - cbn [TypeCheckExpr]. rewrite bind_Ok. split.
    + intros (t & Ht%IHe & ([] & ->%RequireType_Ok & [= <-])%bind_Ok). by constructor.
    + inversion 1; subst. exists TNumber. split; [by apply IHe|done].
  - cbn [TypeCheckExpr]. rewrite bind_Ok. split.
    + intros (t1 & H1%IHe1 & (t2 & H2%IHe2 & Hc)%bind_Ok).
      pose proof (ty_binary loc k e1 e2) as T. destruct (op_class k);
        apply bind_Ok in Hc as ([] & ->%RequireType_Ok & ([] & ->%RequireType_Ok & [= <-])%bind_Ok);
        by apply T.
    + inversion 1; subst. subst operands. exists (match op_class k with Logical => TBool | _ => TNumber end).
      split; [by apply IHe1|]. apply bind_Ok. eexists. split; [by apply IHe2|].
      by destruct (op_class k).
  - cbn [TypeCheckExpr]. split.
    + intros ([] & Hc & [= <-])%bind_Ok. destruct args as [|a rest]; [apply ty_call_no_args|].
      destruct (IsTickerFirstArgFn n) eqn:En.
      * destruct a; try discriminate. apply ty_call_ticker; [done|].
        apply Forall_cons in H as [_ H]. by apply (check_args_Ok rest) in Hc.
      * apply ty_call; [done|]. by apply (check_args_Ok (a :: rest)) in Hc.
    + intros Ht. inversion Ht as [| | | | | |? ? ? ? ? Hn Ha| |? ? ? ? ? ? ? Hn Ha]; subst;
        apply bind_Ok; exists tt; (split; [|done]).
      * destruct args as [|a rest]; [done|]. rewrite Hn.
        by apply (check_args_Ok (a :: rest)).
      * done.
      * rewrite Hn. cbn [AsIdentifier]. apply Forall_cons in H as [_ H].
        by apply (check_args_Ok args0).
  - cbn [TypeCheckExpr]. rewrite bind_Ok. split.
    + intros (t1 & H1%IHe1 & Hc). apply bind_Ok in Hc as ([] & ->%RequireType_Ok & Hc).
      apply bind_Ok in Hc as (t2 & H2%IHe2 & Hc). apply bind_Ok in Hc as (t3 & H3%IHe3 & Hc).
      apply bind_Ok in Hc as ([] & ->%RequireType_Ok & ([] & ->%RequireType_Ok & [= <-])%bind_Ok).
      by constructor.
    + inversion 1; subst. exists TBool. split; [by apply IHe1|]. cbn [rbind].
      apply bind_Ok. exists tt. split; [done|]. apply bind_Ok. exists TNumber.
      split; [by apply IHe2|]. apply bind_Ok. exists TNumber. split; [by apply IHe3|done].
Qed.
End typing.

(** C26: the type checker decides the typing rules: it always returns, with
    the one type of the tree or with an exception when there is none, and a
    tree it calls boolean can evaluate to nothing but 0 or 1. *)
Theorem TypeCheckExpr_decides {D L : Type} `{Machine D L} (e : Expr D) :
  safe (has_type e) (TypeCheckExpr e) /\
  (forall t, TypeCheckExpr e = Ok t <-> has_type e t) /\
  (has_type e TBool -> forall symbols_ market (s s' : EvalState D L) v,
     Visit symbols_ market e s = Ok (v, s') -> v = fint 0 \/ v = fint 1).
Proof.
  split_and!.
  - pose proof (TypeCheckExpr_safe e) as Hs. destruct (TypeCheckExpr e) as [t|] eqn:E; [|exact Hs].
    by apply TypeCheckExpr_Ok.
  - intros t. apply TypeCheckExpr_Ok.
  - intros Ht symbols_ market s s' v Hv. inversion Ht as [| | | |loc k l r ops Hl Hr| | | |]; subst.
    apply bind_Ok in Hv as ([x s1] & _ & Hv). apply bind_Ok in Hv as ([y s2] & _ & Hv).
    injection Hv as <- _. unfold eval_binary, fbool.
    destruct k; try discriminate; repeat case_match; auto.
Qed.

(** [1 > 2]. *)
Definition example_comparison : Expr double :=
  BinaryOp noloc Gt (NumberLiteral noloc (fint 1)) (NumberLiteral noloc (fint 2)).

Lemma TypeCheckExpr_decides_witness :
  TypeCheckExpr example_comparison = Ok TBool /\
  exists v s, Visit (H:=ieee (fun x => x)) empty_table (MkMarket [] 0) example_comparison
      (MkEval (L:=long_double) SignalContext_init ∅) = Ok (v, s) /\ (v = fint 0 \/ v = fint 1).
Proof.
  split; [reflexivity|].
  destruct (TypeCheckExpr_decides (H:=ieee (fun x => x)) example_comparison) as (_ & Hty & Hb).
  destruct (Visit (H:=ieee (fun x => x)) empty_table (MkMarket [] 0) example_comparison
      (MkEval (L:=long_double) SignalContext_init ∅)) as [[v s]|] eqn:E.
  - exists v, s. split; [reflexivity|]. eapply Hb; [|exact E]. apply Hty. reflexivity.
  - exfalso. vm_compute in E. discriminate E.
Defined.
