(* ===== verification/LexerFacts.v ===== *)
(** * The lexer is total and loses nothing

    Tokenizing ends for every source text, and the tokens tile it. *)

From S2P Require Import Prelude Errors Arith Lexer.
From Stdlib Require Import Ascii.

Section lexer.
Context {D : Type} `{Fp D}.
Variable source : list ascii.
Notation len := (length source).

(** What a token says about the source: [k] characters from [pos]. *)
Record token_at (pos k : nat) (t : Token D) : Prop := {
  ta_pos : 0 < k;
  ta_end : pos + k <= len;
  ta_lexeme : chars (tok_lexeme t) = take k (drop pos source);
  ta_loc : tok_loc t = MkLoc 0 (u32 (S pos)) (u32 k);
  ta_kind : tok_kind t <> EndOfFile;
}.

(** [tiling pos toks]: from [pos] on, the source is the lexemes of [toks]
    separated by whitespace only, each token at its own column, and the list
    ends with one end-of-file token past the last character. *)
Inductive tiling : nat -> list (Token D) -> Prop :=
| tile_eof pos :
    pos <= len -> Forall isspace (drop pos source) -> tiling pos [eof_token len]
| tile_token pos n k t toks :
    Forall isspace (take n (drop pos source)) -> token_at (pos + n) k t ->
    tiling (pos + n + k) toks -> tiling pos (t :: toks).

Lemma skip_while_spec p fuel pos :
  pos + fuel <= len ->
  let q := skip_while source p fuel pos in
  pos <= q <= pos + fuel /\ Forall p (take (q - pos) (drop pos source)) /\
  (q < pos + fuel -> exists c, source !! q = Some c /\ p c = false).
Proof.
  revert pos. induction fuel as [|fuel IH]; intros pos Hf; simpl.
  - rewrite Nat.sub_diag. split_and!; [lia|lia|constructor|lia].
  - unfold Peek. destruct (source !! pos) as [c|] eqn:E.
    + destruct (p c) eqn:Hp.
      * destruct (IH (S pos)) as (H1 & H2 & H3); [lia|]. split_and!; [lia|lia| |intros; apply H3; lia].
        rewrite (drop_S source c pos E).
        replace (skip_while source p fuel (S pos) - pos)
          with (S (skip_while source p fuel (S pos) - S pos)) by lia.
        simpl. constructor; [by rewrite Hp|done].
      * rewrite Nat.sub_diag. split_and!; [lia|lia|constructor|]. intros _. by exists c.
    + apply lookup_ge_None in E. lia.
Qed.

Lemma scan_number_spec fuel pos dot :
  pos + fuel <= len -> pos <= scan_number source fuel pos dot <= pos + fuel.
Proof.
  revert pos dot. induction fuel as [|fuel IH]; intros pos dot Hf; simpl; [lia|].
  destruct (Peek source pos) as [c|]; [|lia].
  pose proof (IH (S pos) dot). pose proof (IH (S pos) true).
  destruct (isdigit c); [lia|]. destruct (c =? ".")%char; [|lia]. destruct dot; lia.
Qed.

Lemma chars_str l : chars (str l) = l.
Proof. apply String.list_ascii_of_string_of_list_ascii. Qed.

(** A token read from [start] up to [stop]. *)
Lemma substr_token kind start stop v :
  start < stop -> stop <= len -> kind <> EndOfFile ->
  token_at start (stop - start)
    (MkToken kind (str (substr source start stop)) v
       (MkLoc 0 (Col start) (u32 (length (substr source start stop))))).
Proof.
  intros Hlt Hle Hk. split; simpl; [lia|lia|apply chars_str| |done].
  unfold Col, substr. by rewrite length_take, length_drop, Nat.min_l by lia.
Qed.

Definition reads (start : nat) (r : Res (Token D * nat)) : Prop :=
  safe (fun '(t, pos) => exists k, pos = start + k /\ token_at start k t) r.

Lemma ReadNumber_reads pos c :
  source !! pos = Some c -> isdigit c || (c =? ".")%char = true -> reads pos (ReadNumber source pos).
Proof.
  intros Hc Hd. pose proof (lookup_lt_Some _ _ _ Hc) as Hlt. unfold ReadNumber.
  set (stop := scan_number source (len - pos) pos false).
  assert (Hstop : S pos <= stop <= len).
  { unfold stop. replace (len - pos) with (S (len - pos - 1)) by lia. simpl. unfold Peek. rewrite Hc.
    pose proof (scan_number_spec (len - pos - 1) (S pos) false).
    pose proof (scan_number_spec (len - pos - 1) (S pos) true).
    destruct (isdigit c); [lia|]. simpl in Hd. rewrite Hd. lia. }
  destruct (str _ =? ".")%string; [done|]. exists (stop - pos). split; [lia|].
  by apply substr_token; [lia|lia|].
Qed.

Lemma ReadIdentifier_reads pos c :
  source !! pos = Some c -> isalpha c || (c =? "_")%char = true ->
  reads pos (Ok (ReadIdentifierOrKeyword source pos)).
Proof.
  intros Hc Hd. pose proof (lookup_lt_Some _ _ _ Hc) as Hlt. unfold ReadIdentifierOrKeyword.
  set (stop := skip_while source is_ident_char (len - pos) pos).
  assert (Hstop : S pos <= stop <= len).
  { unfold stop. replace (len - pos) with (S (len - pos - 1)) by lia. simpl. unfold Peek. rewrite Hc.
    assert (Hi : is_ident_char c = true).
    { unfold is_ident_char, isalnum. destruct (isalpha c); [done|]. simpl in *. rewrite Hd.
      by rewrite orb_true_r. }
    rewrite Hi. destruct (skip_while_spec is_ident_char (len - pos - 1) (S pos)); lia. }
  exists (stop - pos). split; [lia|]. apply substr_token; [lia|lia|].
  unfold keyword_kind. by repeat match goal with |- context [if ?b then _ else _] => destruct b end.
Qed.

Lemma emit_one start c kind :
  source !! start = Some c -> kind <> EndOfFile ->
  reads start (emit start kind (String c "") 1 (S start)).
Proof.
  intros Hc Hk. pose proof (lookup_lt_Some _ _ _ Hc). exists 1. split; [lia|].
  split; simpl; [lia|lia| |done|done]. by rewrite (drop_S source c start Hc).
Qed.

Lemma emit_two start c d kind :
  source !! start = Some c -> next_is source (S start) d = true -> kind <> EndOfFile ->
  reads start (emit start kind (String c (String d "")) 2 (S (S start))).
Proof.
  intros Hc Hd Hk. unfold next_is, Peek in Hd. destruct (source !! S start) as [d'|] eqn:E; [|done].
  apply Ascii.eqb_eq in Hd as ->. pose proof (lookup_lt_Some _ _ _ E). exists 2. split; [lia|].
  split; simpl; [lia|lia| |done|done].
  by rewrite (drop_S source c start Hc), (drop_S source d (S start) E).
Qed.

Lemma ReadOperator_reads start c :
  source !! start = Some c -> reads start (ReadOperator source start c).
Proof.
  intros Hc. destruct c as [[] [] [] [] [] [] [] []]; cbn [ReadOperator]; try done;
    try (by apply (emit_one start)); unfold ReadOperator; destruct (next_is source (S start) _) eqn:E;
    try done; (by apply (emit_two start)) || (by apply (emit_one start)).
Qed.

Lemma NextToken_reads pos c : source !! pos = Some c -> reads pos (NextToken source pos c).
Proof.
  intros Hc. unfold NextToken. destruct (isdigit c || (c =? ".")%char) eqn:E1.
  - by eapply ReadNumber_reads.
  - destruct (isalpha c || (c =? "_")%char) eqn:E2; [by eapply ReadIdentifier_reads|].
    by apply ReadOperator_reads.
Qed.

Lemma TokenizeLoop_tiles fuel pos :
  pos <= len -> len - pos < fuel -> safe (tiling pos) (TokenizeLoop source fuel pos).
Proof.
  revert pos. induction fuel as [|fuel IH]; intros pos Hle Hf; [lia|]. simpl.
  unfold IsAtEnd. destruct (Nat.leb_spec len pos) as [Hend|Hlt].
  - replace pos with len by lia. apply tile_eof; [done|]. rewrite drop_ge by lia. constructor.
  - destruct (skip_while_spec isspace (len - pos) pos) as (Hq & Hsp & _); [lia|].
    unfold SkipWhitespace. set (q := skip_while source isspace (len - pos) pos) in *.
    unfold Peek. destruct (source !! q) as [c|] eqn:E.
    + eapply safe_bind; [by apply NextToken_reads|]. intros [t pos'] (k & -> & Ht).
      pose proof (ta_pos _ _ _ Ht). pose proof (ta_end _ _ _ Ht).
      eapply safe_rmap; [apply IH; lia|]. intros toks Htoks.
      apply (tile_token pos (q - pos) k); replace (pos + (q - pos)) with q by lia; done.
    + apply lookup_ge_None in E. simpl. replace q with len in * by lia.
      apply tile_eof; [lia|]. rewrite take_ge in Hsp; [done|]. rewrite length_drop. lia.
Qed.
End lexer.

(** C27: the lexer is total and lossless: for every source text, [Tokenize]
    ends, with an error or with tokens whose lexemes, separated by nothing
    but whitespace, make up the whole text, each carrying its own column and
    length, followed by a single end-of-file token. *)
Theorem Tokenize_tiles {D} `{Fp D} (source : string) :
  safe (tiling (chars source) 0) (Tokenize (D:=D) source).
Proof. apply TokenizeLoop_tiles; lia. Qed.
