(* ===== verification/ParserFacts.v ===== *)
(** * The parser decides a grammar

    The concrete syntax as an inductive grammar over tokens, one nonterminal
    per level of precedence, and the proof that the recursive-descent parser
    of [Parser] is total on the token vectors the lexer produces, accepts
    exactly the sentences of the grammar and returns their tree.  The
    grammar is left recursive where the operators associate to the left; the
    parser loops there. *)

From S2P Require Import Prelude Errors Arith Ast Lexer TypeCheck ConstFold Parser.

Inductive Level := LExpr | LLogical | LComparison | LTerm | LFactor | LUnary | LPrimary.

(** The next tighter level. *)
Definition tighter (l : Level) : Level :=
  match l with
  | LExpr => LLogical | LLogical => LComparison | LComparison => LTerm | LTerm => LFactor
  | LFactor => LUnary | LUnary => LPrimary | LPrimary => LPrimary
  end.

(** The binary operators of a level. *)
Definition level_op (l : Level) : TokenKind -> option BinaryOpKind :=
  match l with
  | LLogical => logical_kind | LComparison => comparison_kind
  | LTerm => term_kind | LFactor => factor_kind | _ => fun _ => None
  end.

(** The tokens that cannot follow a phrase of a level without extending it. *)
Definition extends (l : Level) (k : TokenKind) : bool :=
  let binary l := match level_op l k with Some _ => true | None => false end in
  bool_decide (k = LParen) ||
  match l with
  | LExpr | LLogical => binary LLogical || binary LComparison || binary LTerm || binary LFactor
  | LComparison => binary LComparison || binary LTerm || binary LFactor
  | LTerm => binary LTerm || binary LFactor
  | LFactor => binary LFactor
  | LUnary | LPrimary => false
  end.

Section grammar.
Context {D : Type}.

(** A parenthesised tree keeps its location, unless it has none. *)
Definition paren_loc (lparen : Token D) (e : Expr D) : Expr D :=
  let loc := expr_loc e in
  if N.eqb (loc_line loc) 0 && N.eqb (loc_col loc) 0 then set_loc (tok_loc lparen) e else e.

Inductive derives : Level -> list (Token D) -> Expr D -> Prop :=
| d_if ti cs c tt ts th te es el :
    tok_kind ti = If -> tok_kind tt = Then -> tok_kind te = Else ->
    derives LExpr cs c -> derives LExpr ts th -> derives LExpr es el ->
    derives LExpr (ti :: cs ++ tt :: ts ++ te :: es) (Conditional (tok_loc ti) c th el)
| d_tighter l toks e : l <> LPrimary -> derives (tighter l) toks e -> derives l toks e
| d_binary l ls left t k rs right :
    level_op l (tok_kind t) = Some k ->
    derives l ls left -> derives (tighter l) rs right ->
    derives l (ls ++ t :: rs) (BinaryOp (tok_loc t) k left right)
| d_unary t k toks e :
    unary_kind (tok_kind t) = Some k -> derives LUnary toks e ->
    derives LUnary (t :: toks) (UnaryOp (tok_loc t) k e)
| d_number t :
    tok_kind t = Number -> derives LPrimary [t] (NumberLiteral (tok_loc t) (tok_number t))
| d_identifier t :
    tok_kind t = Identifier -> derives LPrimary [t] (IdentifierExpr (tok_loc t) (tok_lexeme t))
| d_call t tl toks args tr :
    tok_kind t = Identifier -> tok_kind tl = LParen -> tok_kind tr = RParen ->
    derives_args toks args ->
    derives LPrimary (t :: tl :: toks ++ [tr])
      (FunctionCall (tok_loc t) (tok_lexeme t) args (-1) (-1))
| d_paren tl toks e tr :
    tok_kind tl = LParen -> tok_kind tr = RParen -> derives LExpr toks e ->
    derives LPrimary (tl :: toks ++ [tr]) (paren_loc tl e)
with derives_args : list (Token D) -> list (Expr D) -> Prop :=
| d_no_args : derives_args [] []
| d_args toks e more rest :
    derives LExpr toks e -> derives_more more rest -> derives_args (toks ++ more) (e :: rest)
with derives_more : list (Token D) -> list (Expr D) -> Prop :=
| d_last : derives_more [] []
| d_comma tc toks e more rest :
    tok_kind tc = Comma -> derives LExpr toks e -> derives_more more rest ->
    derives_more (tc :: toks ++ more) (e :: rest).
End grammar.

Scheme derives_min := Minimality for derives Sort Prop
  with derives_args_min := Minimality for derives_args Sort Prop
  with derives_more_min := Minimality for derives_more Sort Prop.
Combined Scheme derives_mutind from derives_min, derives_args_min, derives_more_min.

Section parser.
Context {D : Type} `{Fp D}.

(** The parser's method for a level, over the recursive [ParseExpr]. *)
Variable body : list (Token D).
Variable eof : Token D.
Hypothesis eof_kind : tok_kind eof = EndOfFile.
Hypothesis body_kinds : Forall (fun t => tok_kind t <> EndOfFile) body.

Notation tokens := (body ++ [eof]).
Notation last := (length body).
Notation P A := (nat -> Res (A * nat)).

Definition parse_level (l : Level) (self : P (Expr D)) : P (Expr D) :=
  match l with
  | LExpr => ParseConditional tokens self
  | LLogical => ParseLogical tokens self
  | LComparison => ParseComparison tokens self
  | LTerm => ParseTerm tokens self
  | LFactor => ParseFactor tokens self
  | LUnary => ParseUnary tokens self (length tokens)
  | LPrimary => ParsePrimary tokens self
  end.

(** From [pos] to [pos'] the vector holds [toks], the end not included. *)
Definition spans (pos pos' : nat) (toks : list (Token D)) : Prop :=
  drop pos tokens = toks ++ drop pos' tokens /\ pos' = pos + length toks /\ pos' <= last.

Lemma spans_app p q r a b : spans p q a -> spans q r b -> spans p r (a ++ b).
Proof.
  intros (Ha & -> & _) (Hb & -> & ?). unfold spans. rewrite length_app. split_and!; [|lia|lia].
  rewrite Ha, Hb, <-(assoc app), <-Nat.add_assoc. done.
Qed.

Lemma spans_nil p : p <= last -> spans p p [].
Proof. intros. split_and!; simpl; [done|lia|lia]. Qed.

Lemma spans_lookup p t : tokens !! p = Some t -> tok_kind t <> EndOfFile -> spans p (S p) [t].
Proof.
  intros Hl Ht. pose proof (lookup_lt_Some _ _ _ Hl) as Hlt. rewrite length_app in Hlt.
  simpl in Hlt. assert (p <> last).
  { intros ->. rewrite lookup_app_r, Nat.sub_diag in Hl by lia. injection Hl as <-. done. }
  split_and!; simpl; [|lia|lia]. by apply drop_S.
Qed.

Lemma lookup_token p : p <= last -> exists t, tokens !! p = Some t.
Proof. intros. apply lookup_lt_is_Some_2. rewrite length_app. simpl. lia. Qed.

(** A post-condition on a parsing step from [pos]. *)
Definition parses {A} (pos : nat) (Q : list (Token D) -> A -> Prop) : A * nat -> Prop :=
  fun '(x, pos') => exists toks, spans pos pos' toks /\ Q toks x.

Lemma safe_Peek {B} (Q : B -> Prop) p (f : Token D -> Res B) :
  p <= last ->
  (forall t, tokens !! p = Some t -> safe Q (f t)) -> safe Q (t <- Peek tokens p;; f t).
Proof.
  intros Hp Hf. destruct (lookup_token p Hp) as [t Ht]. unfold Peek, at_idx. rewrite Ht.
  by apply Hf.
Qed.

Lemma safe_Consume kind msg p :
  p <= last -> kind <> EndOfFile ->
  safe (fun '(t, p') => spans p p' [t] /\ tok_kind t = kind) (Consume tokens kind msg p).
Proof.
  intros Hp Hk. apply safe_Peek; [done|]. intros t Ht.
  destruct (decide (tok_kind t = kind)) as [E|]; [|done]. simpl. split; [|done].
  apply spans_lookup; congruence.
Qed.

Lemma safe_Match kind p :
  p <= last -> kind <> EndOfFile ->
  safe (fun '(b, p') => if (b : bool) then exists t, spans p p' [t] /\ tok_kind t = kind else p' = p)
    (Match tokens kind p).
Proof.
  intros Hp Hk. unfold Match, peek_kind, Peek, at_idx.
  destruct (lookup_token p Hp) as [t Ht]. rewrite Ht. simpl.
  destruct (decide (tok_kind t = kind)) as [E|]; [|done]. simpl.
  exists t. split; [|done]. apply spans_lookup; congruence.
Qed.

(** ** Soundness and totality *)

(** A tree of level [l] made of a non-empty run of tokens. *)
Definition phrase (l : Level) (toks : list (Token D)) (e : Expr D) : Prop :=
  derives l toks e /\ toks <> [].

Lemma spans_lt p q toks : spans p q toks -> toks <> [] -> p < q.
Proof. intros (_ & -> & _) Hn. destruct toks; simpl; [done|lia]. Qed.

Section self.
Variable self : P (Expr D).
(** The recursion is safe strictly after [p0]. *)
Variable p0 : nat.
Hypothesis self_safe : forall q, p0 < q -> q <= last -> safe (parses q (phrase LExpr)) (self q).

Lemma arg_loop_safe fuel p :
  p0 < p -> p <= last -> last - p < fuel ->
  safe (parses p derives_more) (arg_loop tokens self fuel p).
Proof.
  revert p. induction fuel as [|fuel IH]; intros p H0 Hp Hf; [lia|]. simpl.
  eapply safe_bind; [by apply safe_Match|]. intros [[] p1]; [|intros ->].
  - intros (tc & Hs & Hk). pose proof Hs as (_ & -> & Hle). simpl in Hle.
    eapply safe_bind; [apply self_safe; simpl; lia|]. intros [e p2] (toks & Hs2 & Hd & Hn).
    pose proof (spans_lt _ _ _ Hs2 Hn). pose proof Hs2 as (_ & _ & ?).
    eapply safe_bind; [apply IH; simpl in *; lia|]. intros [rest p3] (more & Hs3 & Hm).
    exists (tc :: toks ++ more). split; [|by constructor].
    apply (spans_app _ _ _ [tc] _ Hs). by eapply spans_app.
  - exists []. split; [by apply spans_nil|constructor].
Qed.

Lemma ParseArgList_safe p :
  p0 < p -> p <= last -> safe (parses p derives_args) (ParseArgList tokens self p).
Proof.
  intros H0 Hp. unfold ParseArgList, peek_kind. destruct (lookup_token p Hp) as [t Ht].
  unfold Peek, at_idx. rewrite Ht. simpl. destruct (decide (tok_kind t = RParen)).
  - exists []. split; [by apply spans_nil|constructor].
  - eapply safe_bind; [by apply self_safe|]. intros [e p2] (toks & Hs & Hd & Hn).
    pose proof (spans_lt _ _ _ Hs Hn). pose proof Hs as (_ & _ & ?).
    eapply safe_bind; [apply arg_loop_safe; rewrite ?length_app; simpl; lia|].
    intros [rest p3] (more & Hs3 & Hm). exists (toks ++ more).
    split; [by eapply spans_app|by constructor].
Qed.

Lemma ParsePrimary_safe p :
  p0 <= p -> p <= last -> safe (parses p (phrase LPrimary)) (ParsePrimary tokens self p).
Proof.
  intros H0 Hp. apply safe_Peek; [done|]. intros t Ht.
  destruct (tok_kind t) eqn:Hk; try exact I.
  all: assert (Hs : spans p (S p) [t]) by (apply spans_lookup; congruence).
  all: pose proof Hs as (_ & _ & Hle).
  - exists [t]. split; [done|]. split; [by constructor|done].
  - eapply safe_bind; [by apply safe_Match|]. intros [[] p1]; [|intros ->].
    + intros (tl & Hs1 & Hkl). pose proof Hs1 as (_ & -> & Hle1). simpl in *.
      eapply safe_bind; [apply ParseArgList_safe; lia|]. intros [args p2] (toks & Hs2 & Hd).
      eapply safe_bind; [apply safe_Consume; [apply Hs2|done]|].
      intros [tr p3] (Hs3 & Hkr). exists (t :: tl :: toks ++ [tr]). split.
      * apply (spans_app _ _ _ [t] _ Hs), (spans_app _ _ _ [tl] _ Hs1).
        by eapply spans_app.
      * split; [by constructor|done].
    + exists [t]. split; [done|]. split; [by constructor|done].
  - eapply safe_bind; [apply self_safe; lia|]. intros [e p2] (toks & Hs2 & Hd & Hn).
    eapply safe_bind; [apply safe_Consume; [apply Hs2|done]|].
    intros [tr p3] (Hs3 & Hkr). exists (t :: toks ++ [tr]). split.
    * apply (spans_app _ _ _ [t] _ Hs). by eapply spans_app.
    * split; [by apply (d_paren t toks e tr)|done].
Qed.

Lemma ParseUnary_safe fuel p :
  p0 <= p -> p <= last -> last - p < fuel ->
  safe (parses p (phrase LUnary)) (ParseUnary tokens self fuel p).
Proof.
  revert p. induction fuel as [|fuel IH]; intros p H0 Hp Hf; [lia|].
  apply safe_Peek; [done|]. intros t Ht. destruct (unary_kind (tok_kind t)) as [k|] eqn:Hk.
  - assert (Hs : spans p (S p) [t]) by (apply spans_lookup; [done|by intros E; rewrite E in Hk]).
    pose proof Hs as (_ & _ & Hle).
    eapply safe_bind; [apply IH; lia|]. intros [e p2] (toks & Hs2 & Hd & Hn).
    exists (t :: toks). split; [by apply (spans_app _ _ _ [t] _ Hs)|].
    split; [by constructor|done].
  - eapply safe_weaken; [by apply ParsePrimary_safe|]. intros [e p2] (toks & Hs2 & Hd & Hn).
    exists toks. split; [done|]. split; [by apply d_tighter|done].
Qed.

Lemma binary_loop_safe l (next : P (Expr D)) fuel start p ls left :
  (forall k, level_op l EndOfFile = Some k -> False) ->
  (forall q, p0 <= q -> q <= last -> safe (parses q (phrase (tighter l))) (next q)) ->
  p0 <= p -> p <= last -> last - p < fuel -> spans start p ls -> phrase l ls left ->
  safe (parses start (phrase l)) (binary_loop tokens (level_op l) next fuel left p).
Proof.
  intros He Hn. revert p ls left.
  induction fuel as [|fuel IH]; intros p ls left H0 Hp Hf Hs [Hd Hne]; [lia|].
  apply safe_Peek; [done|]. intros t Ht. destruct (level_op l (tok_kind t)) as [k|] eqn:Hk.
  - assert (Hs1 : spans p (S p) [t]).
    { apply spans_lookup; [done|]. intros E. rewrite E in Hk. by eapply He. }
    pose proof Hs1 as (_ & _ & Hle). eapply safe_bind; [apply Hn; lia|].
    intros [r p2] (rs & Hs2 & Hd2 & Hn2). pose proof (spans_lt _ _ _ Hs2 Hn2).
    apply (IH p2 (ls ++ t :: rs)); [lia|apply Hs2|lia| |].
    + eapply spans_app; [done|]. by apply (spans_app _ _ _ [t] _ Hs1).
    + split; [by constructor|]. by destruct ls.
  - exists ls. by split.
Qed.

Lemma binary_level_safe l (next : P (Expr D)) p :
  l ∈ [LLogical; LComparison; LTerm; LFactor] ->
  (forall q, p0 <= q -> q <= last -> safe (parses q (phrase (tighter l))) (next q)) ->
  p0 <= p -> p <= last ->
  safe (parses p (phrase l)) (binary_level tokens (level_op l) next p).
Proof.
  intros Hl Hn H0 Hp. eapply safe_bind; [by apply Hn|].
  intros [e p2] (toks & Hs & Hd & Hne). pose proof (spans_lt _ _ _ Hs Hne).
  pose proof Hs as (_ & _ & ?).
  apply (binary_loop_safe l next _ p p2 toks e);
    [|done|lia|lia|rewrite length_app; simpl; lia|done|].
  - set_unfold. by naive_solver.
  - split; [|done]. apply d_tighter; [|done]. set_unfold. by naive_solver.
Qed.

Lemma ParseLogical_safe p :
  p0 <= p -> p <= last -> safe (parses p (phrase LLogical)) (ParseLogical tokens self p).
Proof.
  apply (binary_level_safe LLogical); [set_solver|].
  intros ???. apply (binary_level_safe LComparison); [set_solver| |done|done].
  intros ???. apply (binary_level_safe LTerm); [set_solver| |done|done].
  intros ???. apply (binary_level_safe LFactor); [set_solver| |done|done].
  intros ???. apply ParseUnary_safe; [done|done|]. rewrite length_app. simpl. lia.
Qed.

Lemma ParseConditional_safe p :
  p0 <= p -> p <= last -> safe (parses p (phrase LExpr)) (ParseConditional tokens self p).
Proof.
  intros H0 Hp. apply safe_Peek; [done|]. intros t Ht. destruct (decide (tok_kind t = If)) as [Hk|].
  - assert (Hs : spans p (S p) [t]) by (apply spans_lookup; congruence).
    pose proof Hs as (_ & _ & Hle).
    eapply safe_bind; [apply self_safe; lia|]. intros [c p1] (cs & Hs1 & Hd1 & Hn1).
    pose proof (spans_lt _ _ _ Hs1 Hn1).
    eapply safe_bind; [apply safe_Consume; [apply Hs1|done]|]. intros [tt p2] (Hs2 & Hk2).
    pose proof Hs2 as (_ & -> & Hle2). simpl in *.
    eapply safe_bind; [apply self_safe; lia|]. intros [th p3] (ts & Hs3 & Hd3 & Hn3).
    pose proof (spans_lt _ _ _ Hs3 Hn3).
    eapply safe_bind; [apply safe_Consume; [apply Hs3|done]|]. intros [te p4] (Hs4 & Hk4).
    pose proof Hs4 as (_ & -> & Hle4). simpl in *.
    eapply safe_bind; [apply self_safe; lia|]. intros [el p5] (es & Hs5 & Hd5 & Hn5).
    exists (t :: cs ++ tt :: ts ++ te :: es). split; [|by split; [constructor|]].
    apply (spans_app _ _ _ [t] _ Hs), (spans_app _ _ _ _ _ Hs1), (spans_app _ _ _ [tt] _ Hs2),
      (spans_app _ _ _ _ _ Hs3), (spans_app _ _ _ [te] _ Hs4), Hs5.
  - eapply safe_weaken; [by apply ParseLogical_safe|]. intros [e p2] (toks & Hs & Hd & Hn).
    exists toks. split; [done|]. split; [by apply d_tighter|done].
Qed.
End self.

Lemma ParseExpr_safe fuel p :
  p <= last -> last - p < fuel -> safe (parses p (phrase LExpr)) (ParseExpr tokens fuel p).
Proof.
  revert p. induction fuel as [|fuel IH]; intros p Hp Hf; [lia|].
  apply (ParseConditional_safe _ p); [|lia|lia]. intros q Hq Hql. apply IH; lia.
Qed.

(** ** Completeness *)

(** The first token of a phrase. *)
Lemma derives_head l (toks : list (Token D)) e :
  derives l toks e ->
  exists (t : Token D) rest, toks = t :: rest /\ tok_kind t <> RParen /\
    (l <> LExpr -> tok_kind t <> If) /\ (l = LPrimary -> unary_kind (tok_kind t) = None).
Proof.
  assert (U : forall k, unary_kind k <> None -> k <> RParen /\ k <> If) by (by intros []).
  induction 1 as [? ? ? ? ? ? ? ? ? E ? ?|l ? ? Hl ? IH|l ? ? ? ? ? ? Hop ? IH|? ? ? ? Hk
    |? Hk|? Hk|? ? ? ? ? Hk|? ? ? ? Hk].
  - do 2 eexists. split; [done|]. rewrite E. naive_solver.
  - destruct IH as (t & rest & -> & ? & Hif & ?). do 2 eexists. split; [done|].
    split; [done|]. split; [|by intros ->]. destruct l; naive_solver.
  - destruct IH as (t' & rest & -> & ? & Hif & ?). simpl. do 2 eexists. split; [done|].
    split; [done|]. split; [done|]. intros ->. discriminate.
  - do 2 eexists. split; [done|]. destruct (U (tok_kind t)) as [? ?]; [by rewrite Hk|].
    naive_solver.
  - do 2 eexists. split; [done|]. by rewrite Hk.
  - do 2 eexists. split; [done|]. by rewrite Hk.
  - do 2 eexists. split; [done|]. by rewrite Hk.
  - do 2 eexists. split; [done|]. by rewrite Hk.
Qed.

Lemma derives_pos l (toks : list (Token D)) e : derives l toks e -> 0 < length toks.
Proof. intros (t & rest & -> & _)%derives_head. simpl. lia. Qed.

Lemma Peek_drop p t rest : drop p tokens = t :: rest -> Peek tokens p = Ok t.
Proof.
  intros Hd. apply at_idx_Ok. pose proof (lookup_drop tokens p 0) as Hl.
  rewrite Nat.add_0_r, Hd in Hl. by rewrite <-Hl.
Qed.

Lemma drop_next p a b : drop p tokens = a ++ b -> drop (p + length a) tokens = b.
Proof. intros Hd. by rewrite <-drop_drop, Hd, drop_app_length. Qed.

Lemma drop_cons p t b : drop p tokens = t :: b -> drop (S p) tokens = b.
Proof. intros Hd. rewrite <-Nat.add_1_r. by apply (drop_next p [t]). Qed.

Lemma length_from p a t rest : drop p tokens = a ++ t :: rest -> length a < length tokens.
Proof.
  intros Hd%(f_equal length). rewrite length_drop, !length_app in Hd. rewrite length_app. simpl in *. lia.
Qed.

Lemma Consume_drop kind msg p t rest :
  drop p tokens = t :: rest -> tok_kind t = kind -> Consume tokens kind msg p = Ok (t, S p).
Proof.
  intros Hd Hk. unfold Consume. rewrite (Peek_drop _ _ _ Hd). simpl. by rewrite decide_True.
Qed.

Lemma Match_drop kind p t rest :
  drop p tokens = t :: rest ->
  Match tokens kind p = Ok (if decide (tok_kind t = kind) then (true, S p) else (false, p)).
Proof.
  intros Hd. unfold Match, peek_kind. by rewrite (Peek_drop _ _ _ Hd).
Qed.

(** What a binary level parses its operands with. *)
Definition parse_next (l : Level) (self : P (Expr D)) : P (Expr D) :=
  parse_level (tighter l) self.

(** The parser on a phrase of level [l] at [p]: for a level of binary
    operators, from the first operand on and up to the loop's next round. *)
Definition parsed (l : Level) (f p : nat) (toks : list (Token D)) (e : Expr D) : Prop :=
  let self := ParseExpr tokens f in
  let stop := p + length toks in
  match l with
  | LExpr | LPrimary => parse_level l self p = Ok (e, stop)
  | LUnary => forall n, length toks <= n -> ParseUnary tokens self n p = Ok (e, stop)
  | _ =>
      exists e0 p1 k, parse_next l self p = Ok (e0, p1) /\ k < length toks /\
        forall n, binary_loop tokens (level_op l) (parse_next l self) (n + k) e0 p1 =
                  binary_loop tokens (level_op l) (parse_next l self) n e stop
  end.

Definition stops (l : Level) (k : TokenKind) : Prop :=
  extends (match l with LExpr => LExpr | _ => tighter l end) k = false.

Definition complete (l : Level) (toks : list (Token D)) (e : Expr D) : Prop :=
  forall f p t rest, drop p tokens = toks ++ t :: rest -> stops l (tok_kind t) ->
    length toks <= S f -> parsed l f p toks e.

Lemma binary_level_ok l f p toks e t rest :
  (exists e0 p1 k, parse_next l (ParseExpr tokens f) p = Ok (e0, p1) /\ k < length toks /\
    forall n, binary_loop tokens (level_op l) (parse_next l (ParseExpr tokens f)) (n + k) e0 p1 =
      binary_loop tokens (level_op l) (parse_next l (ParseExpr tokens f)) n e (p + length toks)) ->
  drop p tokens = toks ++ t :: rest -> level_op l (tok_kind t) = None ->
  binary_level tokens (level_op l) (parse_next l (ParseExpr tokens f)) p = Ok (e, p + length toks).
Proof.
  intros (e0 & p1 & k & Hn & Hk & Hloop) Hd Hop. unfold binary_level. rewrite Hn. cbn [rbind].
  pose proof (length_from _ _ _ _ Hd) as Hlen.
  replace (length tokens) with (S (length tokens - S k) + k) by lia. rewrite Hloop.
  cbn [binary_loop]. rewrite (Peek_drop _ _ _ (drop_next _ _ _ Hd)). cbn [rbind].
  by rewrite Hop.
Qed.

(** A phrase followed by a token that does not extend it. *)
Lemma parsed_level l f p toks e t rest :
  parsed l f p toks e -> drop p tokens = toks ++ t :: rest ->
  extends l (tok_kind t) = false -> parse_level l (ParseExpr tokens f) p = Ok (e, p + length toks).
Proof.
  intros Hp Hd He.
  assert (Hop : level_op l (tok_kind t) = None).
  { destruct l; try done; destruct (tok_kind t); done. }
  destruct l; try exact Hp;
    try (match goal with |- parse_level ?l _ _ = _ =>
           exact (binary_level_ok l f p toks e t rest Hp Hd Hop) end).
  apply Hp. pose proof (length_from _ _ _ _ Hd). lia.
Qed.

Lemma stops_tighter l k :
  stops l k -> l <> LPrimary -> stops (tighter l) k /\ extends (tighter l) k = false.
Proof. destruct l, k; done. Qed.

Lemma level_op_stops l k op : level_op l k = Some op -> stops l k.
Proof. destruct l, k; done. Qed.

(** The recursive call on a complete phrase. *)
Lemma ParseExpr_complete f p toks e t rest :
  complete LExpr toks e -> 0 < length toks -> drop p tokens = toks ++ t :: rest ->
  extends LExpr (tok_kind t) = false -> length toks <= f ->
  ParseExpr tokens f p = Ok (e, p + length toks).
Proof. intros Hc Hpos Hd He Hf. destruct f as [|f]; [lia|]. by eapply Hc. Qed.

Definition complete_args (toks : list (Token D)) (args : list (Expr D)) : Prop :=
  forall f p t rest, drop p tokens = toks ++ t :: rest -> tok_kind t = RParen ->
    length toks <= f -> ParseArgList tokens (ParseExpr tokens f) p = Ok (args, p + length toks).

Definition complete_more (toks : list (Token D)) (args : list (Expr D)) : Prop :=
  forall f n p t rest, drop p tokens = toks ++ t :: rest -> tok_kind t = RParen ->
    length toks <= f -> length toks < n ->
    arg_loop tokens (ParseExpr tokens f) n p = Ok (args, p + length toks).

Lemma complete_if ti cs c tt ts th te es el :
  tok_kind ti = If -> tok_kind tt = Then -> tok_kind te = Else ->
  0 < length cs -> 0 < length ts -> 0 < length es ->
  complete LExpr cs c -> complete LExpr ts th -> complete LExpr es el ->
  complete LExpr (ti :: cs ++ tt :: ts ++ te :: es) (Conditional (tok_loc ti) c th el).
Proof.
  intros Hi Ht He Hc0 Ht0 He0 Hc Hth Hel f p t rest Hd Hs Hf.
  cbn [length] in Hf. repeat (rewrite length_app in Hf; cbn [length] in Hf).
  cbn [parsed parse_level]. unfold ParseConditional.
  rewrite <-!app_comm_cons in Hd. rewrite (Peek_drop _ _ _ Hd). cbn [rbind].
  rewrite decide_True by done. apply drop_cons in Hd.
  rewrite <-(assoc app), <-app_comm_cons in Hd.
  rewrite (ParseExpr_complete f _ cs c tt _ Hc Hc0 Hd) by (rewrite ?Ht; done || lia).
  cbn [rbind]. apply drop_next in Hd. rewrite (Consume_drop _ _ _ _ _ Hd Ht). cbn [rbind].
  apply drop_cons in Hd. rewrite <-(assoc app), <-app_comm_cons in Hd.
  rewrite (ParseExpr_complete f _ ts th te _ Hth Ht0 Hd) by (rewrite ?He; done || lia).
  cbn [rbind]. apply drop_next in Hd. rewrite (Consume_drop _ _ _ _ _ Hd He). cbn [rbind].
  apply drop_cons in Hd.
  rewrite (ParseExpr_complete f _ es el t rest Hel He0 Hd) by (exact Hs || lia).
  cbn [rbind length]. repeat (rewrite length_app; cbn [length]). do 2 f_equal. lia.
Qed.

Lemma complete_tighter l toks e :
  l <> LPrimary -> derives (tighter l) toks e -> complete (tighter l) toks e -> complete l toks e.
Proof.
  intros Hl Hder Hc f p t rest Hd Hs Hf.
  destruct (stops_tighter _ _ Hs Hl) as [Hs' He].
  pose proof (parsed_level _ _ _ _ _ _ _ (Hc f p t rest Hd Hs' Hf) Hd He) as Hp.
  pose proof (derives_pos _ _ _ Hder) as Hpos.
  destruct (derives_head _ _ _ Hder) as (h & r & -> & _ & Hif & Hun).
  pose proof (Peek_drop p h _ Hd) as Hh.
  destruct l; try done; cbn [parsed tighter] in *.
  - unfold parse_level, ParseConditional. rewrite Hh. cbn [rbind].
    rewrite decide_False by (by apply Hif). exact Hp.
  - by exists e, (p + length (h :: r)), 0; rewrite ?Nat.add_0_r; split_and!;
      [|lia|intros; rewrite Nat.add_0_r].
  - by exists e, (p + length (h :: r)), 0; rewrite ?Nat.add_0_r; split_and!;
      [|lia|intros; rewrite Nat.add_0_r].
  - by exists e, (p + length (h :: r)), 0; rewrite ?Nat.add_0_r; split_and!;
      [|lia|intros; rewrite Nat.add_0_r].
  - by exists e, (p + length (h :: r)), 0; rewrite ?Nat.add_0_r; split_and!;
      [|lia|intros; rewrite Nat.add_0_r].
  - intros [|n] Hn; [simpl in Hn; lia|]. cbn [ParseUnary]. rewrite Hh. cbn [rbind].
    rewrite Hun by done. exact Hp.
Qed.

Lemma complete_binary l ls left t k rs right :
  level_op l (tok_kind t) = Some k -> complete l ls left -> complete (tighter l) rs right ->
  complete l (ls ++ t :: rs) (BinaryOp (tok_loc t) k left right).
Proof.
  intros Hop Hl Hr f p t' rest Hd Hs Hf. rewrite length_app in Hf. simpl in Hf.
  rewrite <-(assoc app), <-app_comm_cons in Hd.
  pose proof (Hl f p t _ Hd (level_op_stops _ _ _ Hop) ltac:(lia)) as Hleft.
  apply drop_next in Hd. pose proof (Peek_drop _ _ _ Hd) as Hpk. apply drop_cons in Hd.
  assert (l <> LPrimary) as Hne by (by intros ->).
  destruct (stops_tighter _ _ Hs Hne) as [Hs' He].
  pose proof (parsed_level _ _ _ _ _ _ _ (Hr f _ t' rest Hd Hs' ltac:(lia)) Hd He) as Hright.
  assert (Hloop : exists e0 p1 k1, parse_next l (ParseExpr tokens f) p = Ok (e0, p1) /\
    k1 < length ls /\ forall n,
    binary_loop tokens (level_op l) (parse_next l (ParseExpr tokens f)) (n + k1) e0 p1 =
    binary_loop tokens (level_op l) (parse_next l (ParseExpr tokens f)) n left (p + length ls))
    by (by destruct l).
  assert (Goal : exists e0 p1 k1, parse_next l (ParseExpr tokens f) p = Ok (e0, p1) /\
    k1 < length (ls ++ t :: rs) /\ forall n,
    binary_loop tokens (level_op l) (parse_next l (ParseExpr tokens f)) (n + k1) e0 p1 =
    binary_loop tokens (level_op l) (parse_next l (ParseExpr tokens f)) n
      (BinaryOp (tok_loc t) k left right) (p + length (ls ++ t :: rs))).
  { destruct Hloop as (e0 & p1 & k1 & Hn & Hk & Hlp). exists e0, p1, (S k1).
    rewrite length_app. simpl. split_and!; [done|lia|]. intros n.
    replace (n + S k1) with (S n + k1) by lia. rewrite Hlp. cbn [binary_loop].
    rewrite Hpk. cbn [rbind]. rewrite Hop. unfold parse_next at 1. rewrite Hright.
    cbn [rbind]. f_equal. lia. }
  by destruct l.
Qed.

Lemma complete_call t tl toks args tr :
  tok_kind t = Identifier -> tok_kind tl = LParen -> tok_kind tr = RParen ->
  complete_args toks args ->
  complete LPrimary (t :: tl :: toks ++ [tr])
    (FunctionCall (tok_loc t) (tok_lexeme t) args (-1) (-1)).
Proof.
  intros Ht Htl Htr Ha f p t' rest Hd Hs Hf. simpl in Hf. rewrite length_app in Hf. simpl in Hf.
  rewrite <-!app_comm_cons, <-(assoc app) in Hd.
  cbn [parsed parse_level]. unfold ParsePrimary. rewrite (Peek_drop _ _ _ Hd). cbn [rbind].
  rewrite Ht. apply drop_cons in Hd. rewrite (Match_drop _ _ _ _ Hd). cbn [rbind].
  rewrite decide_True by done. apply drop_cons in Hd.
  rewrite (Ha f _ tr _ Hd Htr) by lia. cbn [rbind]. apply drop_next in Hd.
  rewrite (Consume_drop _ _ _ _ _ Hd Htr). cbn [rbind length]. rewrite length_app. simpl.
  do 2 f_equal. lia.
Qed.

Lemma complete_paren tl toks e tr :
  tok_kind tl = LParen -> tok_kind tr = RParen -> 0 < length toks ->
  complete LExpr toks e -> complete LPrimary (tl :: toks ++ [tr]) (paren_loc tl e).
Proof.
  intros Htl Htr Hpos Hc f p t' rest Hd Hs Hf. simpl in Hf. rewrite length_app in Hf. simpl in Hf.
  rewrite <-!app_comm_cons, <-(assoc app) in Hd.
  cbn [parsed parse_level]. unfold ParsePrimary. rewrite (Peek_drop _ _ _ Hd). cbn [rbind].
  rewrite Htl. apply drop_cons in Hd.
  rewrite (ParseExpr_complete f _ toks e tr _ Hc Hpos Hd) by (rewrite ?Htr; done || lia).
  cbn [rbind]. apply drop_next in Hd. rewrite (Consume_drop _ _ _ _ _ Hd Htr).
  cbn [rbind length]. rewrite length_app. simpl. unfold paren_loc. do 2 f_equal. lia.
Qed.

Lemma complete_args_cons toks e more rest :
  derives LExpr toks e -> complete LExpr toks e ->
  (more = [] \/ exists t m, more = t :: m /\ tok_kind t = Comma) -> complete_more more rest ->
  complete_args (toks ++ more) (e :: rest).
Proof.
  intros Hder Hc Hm Hmore f p t r Hd Ht Hf. rewrite length_app in Hf.
  pose proof (length_from _ _ _ _ Hd) as Hlen. rewrite length_app in Hlen.
  rewrite <-(assoc app) in Hd. pose proof (derives_pos _ _ _ Hder) as Hpos.
  destruct (derives_head _ _ _ Hder) as (h & r' & E & Hrp & _).
  unfold ParseArgList, peek_kind. rewrite (Peek_drop p h (r' ++ more ++ t :: r)) by (by rewrite Hd, E).
  cbn [rmap rbind]. rewrite decide_False by done.
  assert (exists u v, more ++ t :: r = u :: v /\ extends LExpr (tok_kind u) = false)
    as (u & v & Eu & Hu).
  { destruct Hm as [->|(u & m & -> & Hu)]; simpl; do 2 eexists; split;
      [done|by rewrite Ht|done|by rewrite Hu]. }
  rewrite (ParseExpr_complete f p toks e u v Hc Hpos) by (rewrite ?Hd, ?Eu; done || lia).
  cbn [rbind]. apply drop_next in Hd.
  rewrite (Hmore f _ _ t r Hd Ht) by lia. cbn [rbind]. rewrite length_app. do 2 f_equal. lia.
Qed.

Lemma complete_more_cons tc toks e more rest :
  tok_kind tc = Comma -> 0 < length toks -> complete LExpr toks e ->
  (more = [] \/ exists t m, more = t :: m /\ tok_kind t = Comma) -> complete_more more rest ->
  complete_more (tc :: toks ++ more) (e :: rest).
Proof.
  intros Htc Hpos Hc Hm Hmore f [|n] p t r Hd Ht Hf Hn; [lia|]. simpl in Hf, Hn.
  rewrite length_app in Hf, Hn. rewrite <-!app_comm_cons, <-(assoc app) in Hd.
  cbn [arg_loop]. rewrite (Match_drop _ _ _ _ Hd). cbn [rbind]. rewrite decide_True by done.
  apply drop_cons in Hd.
  assert (exists u v, more ++ t :: r = u :: v /\ extends LExpr (tok_kind u) = false)
    as (u & v & Eu & Hu).
  { destruct Hm as [->|(u & m & -> & Hu)]; simpl; do 2 eexists; split;
      [done|by rewrite Ht|done|by rewrite Hu]. }
  rewrite (ParseExpr_complete f _ toks e u v Hc Hpos) by (rewrite ?Hd, ?Eu; done || lia).
  cbn [rbind]. apply drop_next in Hd.
  rewrite (Hmore f n _ t r Hd Ht) by lia. cbn [rbind length]. rewrite length_app.
  do 2 f_equal. lia.
Qed.

Lemma more_head toks args :
  derives_more toks args -> toks = [] \/ exists (t : Token D) m, toks = t :: m /\ tok_kind t = Comma.
Proof. destruct 1; eauto. Qed.

Lemma derives_complete :
  (forall l toks e, derives l toks e -> complete l toks e) /\
  (forall toks args, derives_args toks args -> complete_args toks args) /\
  (forall toks args, derives_more toks args -> complete_more toks args).
Proof.
  assert (G :
    (forall l toks e, derives l toks e -> derives l toks e /\ complete l toks e) /\
    (forall toks args, derives_args toks args -> complete_args toks args) /\
    (forall toks args, derives_more toks args -> derives_more toks args /\ complete_more toks args)).
  { apply derives_mutind; intros.
    - destruct_and!. split; [by constructor|]. apply complete_if; eauto using derives_pos.
    - destruct_and!. split; [by constructor|]. by apply complete_tighter.
    - destruct_and!. split; [by constructor|]. by apply complete_binary.
    - destruct_and!. split; [by constructor|].
      intros f p t' rest Hd Hs Hf [|n] Hn; [simpl in Hn; lia|]. simpl in Hn, Hf.
      rewrite <-app_comm_cons in Hd. cbn [ParseUnary]. rewrite (Peek_drop _ _ _ Hd).
      cbn [rbind]. case_match; [|congruence]. simplify_eq. apply drop_cons in Hd.
      match goal with H : complete LUnary _ _ |- _ =>
        rewrite (H f _ t' rest Hd Hs ltac:(lia) n) by lia end.
      cbn [rbind length]. do 2 f_equal. lia.
    - split; [by constructor|]. intros f p t' rest Hd Hs Hf. cbn [parsed parse_level].
      unfold ParsePrimary. rewrite (Peek_drop _ _ _ Hd). cbn [rbind].
      rewrite H0. cbn [length]. do 2 f_equal. lia.
    - split; [by constructor|]. intros f p t' rest Hd Hs Hf. cbn [parsed parse_level].
      unfold ParsePrimary. rewrite (Peek_drop _ _ _ Hd). cbn [rbind]. rewrite H0.
      apply drop_cons in Hd. rewrite (Match_drop _ _ _ _ Hd). cbn [rbind].
      rewrite decide_False by (intros E; unfold stops in Hs; by rewrite E in Hs).
      cbn [length]. do 2 f_equal. lia.
    - split; [by constructor|]. by apply complete_call.
    - destruct_and!. split; [by constructor|]. apply complete_paren; eauto using derives_pos.
    - intros f p t rest Hd Ht Hf. unfold ParseArgList, peek_kind.
      rewrite (Peek_drop _ _ _ Hd). cbn [rmap rbind]. rewrite decide_True by done.
      simpl. by rewrite Nat.add_0_r.
    - destruct_and!. apply complete_args_cons; eauto using more_head.
    - split; [constructor|]. intros f [|n] p t rest Hd Ht Hf Hn; [lia|]. cbn [arg_loop].
      rewrite (Match_drop _ _ _ _ Hd). cbn [rbind]. rewrite decide_False by (by rewrite Ht).
      simpl. by rewrite Nat.add_0_r.
    - destruct_and!. split; [by constructor|].
      apply complete_more_cons; eauto using more_head, derives_pos. }
  destruct G as (G1 & G2 & G3). split_and!; [apply G1|apply G2|apply G3].
Qed.

(** ** Definitions *)

(** [toks] is [<keyword> <name> = <expression>]. *)
Definition sentence (keyword : TokenKind) (toks : list (Token D)) (name : Token D) (e : Expr D)
  : Prop :=
  exists tk ta rest, toks = tk :: name :: ta :: rest /\ tok_kind tk = keyword /\
    tok_kind name = Identifier /\ tok_kind ta = Assign /\ derives LExpr rest e.

(** The part the two kinds of definition share, with the statements that
    follow as a continuation. *)
Definition definition_head {B} (keyword : TokenKind) (msg1 msg2 : string)
  (k : Token D -> Expr D -> Res B) : Res B :=
  '(_, pos) <- Consume tokens keyword msg1 0;;
  '(name, pos) <- Consume tokens Identifier msg2 pos;;
  '(_, pos) <- Consume tokens Assign (if decide (keyword = Signal)
       then "Expected '=' after signal name" else "Expected '=' after parameter name") pos;;
  '(e, pos) <- ParseExpr tokens (length tokens) pos;;
  Consume tokens EndOfFile "Expected end of input" pos ;;;
  k name e.

Lemma definition_head_safe {B} (Q : B -> Prop) keyword msg1 msg2 k :
  keyword <> EndOfFile ->
  (forall name e, sentence keyword body name e -> safe Q (k name e)) ->
  safe Q (definition_head keyword msg1 msg2 k).
Proof.
  intros Hkw Hk. unfold definition_head.
  eapply safe_bind; [apply safe_Consume; [lia|done]|]. intros [tk p1] (H1 & Hk1).
  eapply safe_bind; [apply safe_Consume; [apply H1|done]|]. intros [tn p2] (H2 & Hk2).
  eapply safe_bind; [apply safe_Consume; [apply H2|done]|]. intros [ta p3] (H3 & Hk3).
  pose proof H3 as (_ & _ & Hle).
  eapply safe_bind; [apply ParseExpr_safe; [done|rewrite length_app; simpl; lia]|].
  intros [e p4] (toks & H4 & Hd & _). pose proof H4 as (Hdrop & Hp4 & Hle4).
  unfold Consume at 1. rewrite rbind_assoc. apply safe_Peek; [done|]. intros t Ht.
  destruct (decide (tok_kind t = EndOfFile)) as [Heof|]; [|done]. cbn [rbind].
  apply Hk. exists tk, ta, toks. split_and!; [|done..].
  assert (p4 = last) as ->.
  { destruct (decide (p4 = last)); [done|]. rewrite lookup_app_l in Ht by lia.
    by apply (Forall_lookup_1 _ _ _ _ body_kinds) in Ht. }
  destruct (spans_app _ _ _ _ _ H1 (spans_app _ _ _ _ _ H2 (spans_app _ _ _ _ _ H3 H4)))
    as (Hall & _ & _). rewrite drop_0, drop_app_length in Hall. by apply app_inj_2 in Hall as [-> _].
Qed.

Lemma definition_head_complete {B} keyword msg1 msg2 (k : Token D -> Expr D -> Res B) name e :
  sentence keyword body name e -> definition_head keyword msg1 msg2 k = k name e.
Proof.
  intros (tk & ta & rest & E & Hk1 & Hk2 & Hk3 & Hd). unfold definition_head.
  assert (D0 : drop 0 tokens = tk :: name :: ta :: rest ++ [eof]) by (by rewrite drop_0, E).
  assert (Hlen : length rest <= length tokens).
  { rewrite E, length_app. simpl. lia. }
  rewrite (Consume_drop _ _ _ _ _ D0 Hk1). cbn [rbind]. apply drop_cons in D0.
  rewrite (Consume_drop _ _ _ _ _ D0 Hk2). cbn [rbind]. apply drop_cons in D0.
  rewrite (Consume_drop _ _ _ _ _ D0 Hk3). cbn [rbind]. apply drop_cons in D0.
  destruct derives_complete as (Hc & _ & _).
  rewrite (ParseExpr_complete _ _ rest e eof [] (Hc _ _ _ Hd) (derives_pos _ _ _ Hd) D0)
    by (rewrite ?eof_kind; done).
  cbn [rbind]. apply drop_next in D0. by rewrite (Consume_drop _ _ _ _ _ D0 eof_kind).
Qed.

Lemma ParseSignalDef_head :
  ParseSignalDef tokens = definition_head Signal "Expected 'signal' at start of definition"
    "Expected signal name" (fun name e => Ok (MkSignal (tok_lexeme name) e)).
Proof. reflexivity. Qed.

Lemma ParseParamDef_head :
  ParseParamDef tokens = definition_head Param "Expected 'param' at start of definition"
    "Expected parameter name" (fun name e =>
      TypeCheckSignal (MkSignal "<param>" e) ;;;
      match AsNumber (FoldConstants e) with
      | None => Fail "Parameter default must be a numeric literal after constant folding"
                  (expr_loc (FoldConstants e))
      | Some v => Ok (MkParam (tok_lexeme name) v (-1) (tok_loc name))
      end).
Proof. reflexivity. Qed.
End parser.

(** C15: the parser decides the grammar: on every token vector that ends in
    its one end-of-file token, [ParseSignalDef] neither reads past the end
    nor fails to return, every definition it returns is a sentence
    [signal <name> = <expression>] with the expression's tree, and every
    sentence of the grammar is accepted with its tree.  So precedence and
    associativity are those of the grammar, which is unambiguous. *)
Theorem ParseSignalDef_decides {D} (body : list (Token D)) (eof : Token D)
  (Heof : tok_kind eof = EndOfFile) (Hbody : Forall (fun t => tok_kind t <> EndOfFile) body) :
  safe (fun def => exists name, sig_name def = tok_lexeme name /\
                   sentence Signal body name (sig_body def))
    (ParseSignalDef (body ++ [eof])) /\
  (forall name e, sentence Signal body name e ->
     ParseSignalDef (body ++ [eof]) = Ok (MkSignal (tok_lexeme name) e)) /\
  (forall name name' e e', sentence Signal body name e -> sentence Signal body name' e' -> e = e').
Proof.
  assert (Hc : forall name e, sentence Signal body name e ->
     ParseSignalDef (body ++ [eof]) = Ok (MkSignal (tok_lexeme name) e)).
  { intros name e Hs. rewrite ParseSignalDef_head.
    by rewrite (definition_head_complete _ _ Heof _ _ _ _ name e). }
  split; [|split; [exact Hc|]].
  - rewrite ParseSignalDef_head. apply definition_head_safe; [done..|].
    intros name e Hs. by exists name.
  - intros name name' e e' H1%Hc H2%Hc. congruence.
Qed.

(** The tokens of a definition. *)
Definition example_tokens : list (Token double) :=
  match Tokenize (H:=dbl (Machine:=ieee (fun x => x)))
          "signal s = if 1 > 2 then 3 - 4 - 5 else -sma(mid(A), 3) * (6 + 7)" with
  | Ok l => take (pred (length l)) l
  | Err _ => []
  end.

Definition example_eof : Token double :=
  eof_token (H:=dbl (Machine:=ieee (fun x => x))) 5.

Lemma ParseSignalDef_decides_witness :
  length example_tokens = 30 /\
  exists def name, ParseSignalDef
      (example_tokens ++ [example_eof]) = Ok def /\
    sentence Signal example_tokens name (sig_body def).
Proof.
  split; [vm_compute; reflexivity|].
  destruct (ParseSignalDef_decides example_tokens
    example_eof) as [Hs _].
  - reflexivity.
  - vm_compute. repeat (constructor; [discriminate|]). constructor.
  - destruct (ParseSignalDef _) as [def|] eqn:E.
    + destruct Hs as (name & _ & Hs). exists def, name. split; [reflexivity|exact Hs].
    + exfalso. vm_compute in E. discriminate E.
Defined.
