(* ===== verification/FormatterFacts.v ===== *)
(** * The formatter and the parser

    src/src/dsl_formatter.h promises that formatting a program and parsing
    the result gives a structurally equal tree.  This holds for the trees
    described by [printable]; outside of them the promise is broken, in the
    ways the last section shows. *)

From S2P Require Import Prelude Errors Arith Ast Interpreter Lexer TypeCheck ConstFold Parser SymbolTable SignalProgram LexerFacts ParserFacts Formatter.
From Stdlib Require Import Ascii SpecFloat.

Notation DToken := (Token double).

(** ** Reading formatted text *)

Section lexing.
Variable source : list ascii.
Notation len := (length source).

(** From [pos] the lexer reads [toks] and goes on at [pos']. *)
Definition reads_to (pos pos' : nat) (toks : list DToken) : Prop :=
  forall fuel, len - pos < fuel -> exists fuel', len - pos' < fuel' /\
    TokenizeLoop source fuel pos = rmap (app toks) (TokenizeLoop source fuel' pos').

Lemma reads_nil pos : reads_to pos pos [].
Proof.
  intros fuel Hf. exists fuel. split; [done|].
  by destruct (TokenizeLoop source fuel pos).
Qed.

Lemma reads_app p q r a b : reads_to p q a -> reads_to q r b -> reads_to p r (a ++ b).
Proof.
  intros Ha Hb fuel Hf. destruct (Ha fuel Hf) as (f1 & Hf1 & ->).
  destruct (Hb f1 Hf1) as (f2 & Hf2 & ->). exists f2. split; [done|].
  destruct (TokenizeLoop source f2 r); simpl; [by rewrite (assoc app)|done].
Qed.

Lemma skip_while_here p fuel pos c :
  source !! pos = Some c -> p c = false -> skip_while source p fuel pos = pos.
Proof. intros Hc Hp. destruct fuel; [done|]. simpl. unfold Lexer.Peek. by rewrite Hc, Hp. Qed.

Lemma reads_token pos c t k :
  source !! pos = Some c -> isspace c = false -> 0 < k ->
  NextToken source pos c = Ok (t, pos + k) -> reads_to pos (pos + k) [t].
Proof.
  intros Hc Hs Hk Hn fuel Hf. pose proof (lookup_lt_Some _ _ _ Hc) as Hlt.
  destruct fuel as [|fuel]; [lia|]. exists fuel. split; [lia|].
  simpl. unfold IsAtEnd. destruct (Nat.leb_spec len pos); [lia|].
  unfold SkipWhitespace. rewrite (skip_while_here _ _ _ c) by done. unfold Lexer.Peek.
  rewrite Hc, Hn. simpl. done.
Qed.

Lemma SkipWhitespace_space pos c :
  source !! pos = Some c -> isspace c = true ->
  SkipWhitespace source pos = SkipWhitespace source (S pos).
Proof.
  intros Hc Hs. pose proof (lookup_lt_Some _ _ _ Hc) as Hlt. unfold SkipWhitespace.
  replace (len - pos) with (S (len - S pos)) by lia. cbn [skip_while].
  unfold Lexer.Peek at 1. by rewrite Hc, Hs.
Qed.

Lemma reads_space pos c : source !! pos = Some c -> isspace c = true -> reads_to pos (S pos) [].
Proof.
  intros Hc Hs fuel Hf. pose proof (lookup_lt_Some _ _ _ Hc) as Hlt.
  destruct fuel as [|fuel]; [lia|]. exists (S fuel). split; [lia|].
  cbn [TokenizeLoop]. unfold IsAtEnd. destruct (Nat.leb_spec len pos); [lia|].
  rewrite (SkipWhitespace_space pos c Hc Hs).
  destruct (Nat.leb_spec len (S pos)) as [Hend|].
  - unfold SkipWhitespace. replace (len - S pos) with 0 by lia. cbn [skip_while].
    unfold Lexer.Peek. by rewrite (lookup_ge_None_2 source (S pos)) by lia.
  - destruct (Lexer.Peek source (SkipWhitespace source (S pos))); [|done].
    destruct (NextToken _ _ _) as [[t p]|]; [|done]. cbn [rbind].
    by destruct (TokenizeLoop source fuel p).
Qed.

(** The text at [pos]. *)
Definition at_text (pos : nat) (cs rest : list ascii) : Prop := drop pos source = cs ++ rest.

Lemma at_text_app pos a b rest :
  at_text pos (a ++ b) rest -> at_text pos a (b ++ rest) /\ at_text (pos + length a) b rest.
Proof.
  unfold at_text. intros E. split; [by rewrite E, <- (assoc app)|].
  by rewrite <- drop_drop, E, <- (assoc app), drop_app_length.
Qed.

Lemma at_text_cons pos c cs rest :
  at_text pos (c :: cs) rest -> source !! pos = Some c /\ at_text (S pos) cs rest.
Proof.
  unfold at_text. intros E. split.
  - rewrite <- (Nat.add_0_r pos), <- lookup_drop, E. done.
  - replace (S pos) with (pos + 1) by lia. by rewrite <- drop_drop, E.
Qed.

Lemma at_text_length pos cs rest : at_text pos cs rest -> pos <= len -> pos + length cs <= len.
Proof.
  intros E Hp. apply (f_equal length) in E. rewrite length_drop, length_app in E. lia.
Qed.

(** The maximal run of characters in [p]. *)
Lemma skip_while_run (p : ascii -> bool) cs rest pos fuel :
  at_text pos cs rest -> Forall p cs -> length cs <= fuel ->
  match rest with c :: _ => p c = false | [] => True end ->
  skip_while source p fuel pos = pos + length cs.
Proof.
  revert pos fuel. induction cs as [|c cs IH]; intros pos fuel Ht HF Hf Hr.
  - simpl. rewrite Nat.add_0_r. destruct rest as [|c rest].
    + destruct fuel; [done|]. simpl. unfold Lexer.Peek. unfold at_text in Ht.
      rewrite (lookup_ge_None_2 source pos); [done|].
      apply (f_equal length) in Ht. rewrite length_drop in Ht. simpl in Ht. lia.
    + apply (skip_while_here _ _ _ c); [|done].
      apply (at_text_cons pos c [] rest). exact Ht.
  - apply at_text_cons in Ht as [Hc Ht]. apply Forall_cons in HF as [Hp HF].
    destruct fuel as [|fuel]; [simpl in Hf; lia|]. simpl. unfold Lexer.Peek. rewrite Hc.
    destruct (p c); [|done]. simpl in Hf. rewrite (IH _ _ Ht HF) by (lia || done). lia.
Qed.
End lexing.

(** ** Lexemes *)

(** What a text may be followed by, so that it does not run on. *)
Definition stops_word (rest : list ascii) : Prop :=
  match rest with c :: _ => is_ident_char c = false /\ c <> "."%char | [] => True end.

(** An identifier, not a keyword. *)
Definition is_name (n : string) : bool :=
  match chars n with
  | c :: cs => (isalpha c || (c =? "_")%char) && forallb is_ident_char cs
  | [] => false
  end && bool_decide (keyword_kind n = Identifier).

(** Digits with at most one dot, and at least one digit. *)
Fixpoint is_number_tail (dot : bool) (cs : list ascii) : bool :=
  match cs with
  | [] => true
  | c :: cs' =>
      if isdigit c then is_number_tail dot cs'
      else (c =? ".")%char && negb dot && is_number_tail true cs'
  end.
Definition is_number (cs : list ascii) : bool :=
  match cs with [] => false | _ => is_number_tail false cs && negb (str cs =? ".")%string end.

Section lexemes.
Variable source : list ascii.

(** One token of kind [k] and lexeme [n] is read from the text [chars n]. *)
Definition reads_lexeme (pos : nat) (k : TokenKind) (n : string) : Prop :=
  exists t : DToken, reads_to source pos (pos + length (chars n)) [t] /\ tok_kind t = k /\
    tok_lexeme t = n.

Lemma ident_char_not_space c : is_ident_char c = true -> isspace c = false.
Proof. by destruct c as [[] [] [] [] [] [] [] []]. Qed.

Lemma alpha_not_digit c :
  isalpha c || (c =? "_")%char = true ->
  isdigit c || (c =? ".")%char = false /\ is_ident_char c = true.
Proof. by destruct c as [[] [] [] [] [] [] [] []]. Qed.

Lemma digit_ident c : isdigit c = true -> is_ident_char c = true.
Proof. by destruct c as [[] [] [] [] [] [] [] []]. Qed.

Lemma str_chars n : str (chars n) = n.
Proof. apply String.string_of_list_ascii_of_string. Qed.

Lemma substr_text pos cs rest : at_text source pos cs rest -> substr source pos (pos + length cs) = cs.
Proof.
  intros Ht. unfold substr, at_text in *. rewrite Ht.
  replace (pos + length cs - pos) with (length cs) by lia. apply take_app_length.
Qed.

(** A word: an identifier or a keyword. *)
Lemma reads_word pos n rest c cs :
  at_text source pos (chars n) rest -> pos <= length source ->
  chars n = c :: cs -> isalpha c || (c =? "_")%char = true -> Forall is_ident_char cs ->
  match rest with c :: _ => is_ident_char c = false | [] => True end ->
  reads_lexeme pos (keyword_kind n) n.
Proof.
  intros Ht Hp En Hc HF Hr. destruct (alpha_not_digit c Hc) as [Hd Hi].
  pose proof (at_text_length _ _ _ _ Ht Hp) as Hlen.
  assert (Hrun : skip_while source is_ident_char (length source - pos) pos = pos + length (chars n)).
  { apply skip_while_run with rest; [done| |lia|done]. rewrite En. constructor; [by rewrite Hi|done]. }
  pose proof (substr_text _ _ _ Ht) as Hsub.
  pose proof Ht as Ht'. rewrite En in Ht'. apply at_text_cons in Ht' as [Hcc _].
  exists (fst (ReadIdentifierOrKeyword source pos)).
  unfold ReadIdentifierOrKeyword. rewrite Hrun. cbn [fst tok_kind tok_lexeme].
  rewrite Hsub, str_chars. split; [|done].
  apply (reads_token source pos c); [done|by apply ident_char_not_space|rewrite En; simpl; lia|].
  unfold NextToken. rewrite Hd, Hc. unfold ReadIdentifierOrKeyword.
  by rewrite Hrun, Hsub, str_chars.
Qed.

Lemma reads_name pos n rest :
  at_text source pos (chars n) rest -> pos <= length source -> is_name n = true ->
  stops_word rest -> reads_lexeme pos Identifier n.
Proof.
  intros Ht Hp Hn Hr. unfold is_name in Hn. apply andb_true_iff in Hn as [Hn Hk].
  apply bool_decide_eq_true in Hk. rewrite <- Hk.
  destruct (chars n) as [|c cs] eqn:E; [done|]. apply andb_true_iff in Hn as [Hc HF].
  rewrite <- E in Ht. apply (reads_word pos n rest c cs); try done.
  - apply Forall_forall. intros x Hx. apply forallb_forall with (x := x) in HF; [by rewrite HF|].
    by apply list_elem_of_In.
  - destruct rest; [done|]. apply Hr.
Qed.

Lemma scan_number_run cs rest pos fuel dot :
  at_text source pos cs rest -> is_number_tail dot cs = true -> length cs <= fuel ->
  match rest with c :: _ => isdigit c = false /\ c <> "."%char | [] => True end ->
  scan_number source fuel pos dot = pos + length cs.
Proof.
  revert pos fuel dot. induction cs as [|c cs IH]; intros pos fuel dot Ht Hn Hf Hr.
  - simpl. rewrite Nat.add_0_r. destruct fuel as [|fuel]; [done|]. cbn [scan_number].
    unfold Lexer.Peek. destruct rest as [|c rest].
    + unfold at_text in Ht. rewrite (lookup_ge_None_2 source pos); [done|].
      apply (f_equal length) in Ht. rewrite length_drop in Ht. simpl in Ht. lia.
    + destruct (at_text_cons source pos c [] rest) as [-> _]; [exact Ht|]. destruct Hr as [-> Hd].
      by destruct (Ascii.eqb_spec c ".").
  - apply at_text_cons in Ht as [Hc Ht]. destruct fuel as [|fuel]; [simpl in Hf; lia|].
    cbn [scan_number]. unfold Lexer.Peek. rewrite Hc. cbn [is_number_tail] in Hn. simpl in Hf.
    destruct (isdigit c).
    + rewrite (IH _ _ _ Ht Hn) by (lia || done). simpl. lia.
    + apply andb_true_iff in Hn as [Hn Htl]. apply andb_true_iff in Hn as [-> Hdot].
      destruct dot; [done|]. rewrite (IH _ _ _ Ht Htl) by (lia || done). simpl. lia.
Qed.

Lemma reads_number pos cs rest :
  at_text source pos cs rest -> pos <= length source -> is_number cs = true -> stops_word rest ->
  exists t : DToken, reads_to source pos (pos + length cs) [t] /\ tok_kind t = Number /\
    tok_number t = strtod cs.
Proof.
  intros Ht Hp Hn Hr. pose proof (at_text_length _ _ _ _ Ht Hp) as Hlen.
  assert (Hr' : match rest with c :: _ => isdigit c = false /\ c <> "."%char | [] => True end).
  { destruct rest as [|c rest]; [done|]. destruct Hr as [Hi Hd]. split; [|done].
    destruct (isdigit c) eqn:E; [|done]. by rewrite (digit_ident c E) in Hi. }
  destruct cs as [|c cs]; [done|]. unfold is_number in Hn.
  apply andb_true_iff in Hn as [Hn Hdot]. pose proof (substr_text _ _ _ Ht) as Hsub.
  assert (Hrun : scan_number source (length source - pos) pos false = pos + length (c :: cs)).
  { apply scan_number_run with rest; try done. simpl. simpl in Hlen. lia. }
  pose proof Ht as Ht'. apply at_text_cons in Ht' as [Hcc _].
  assert (Hc : isdigit c || (c =? ".")%char = true).
  { cbn [is_number_tail] in Hn. destruct (isdigit c); [done|]. simpl.
    apply andb_true_iff in Hn as [Hn _]. by apply andb_true_iff in Hn as [-> _]. }
  eexists. split.
  - apply (reads_token source pos c); [done| |simpl; lia|].
    + revert Hc. clear. by destruct c as [[] [] [] [] [] [] [] []].
    + unfold NextToken. rewrite Hc. unfold ReadNumber. rewrite Hrun, Hsub.
      destruct (str (c :: cs) =? ".")%string; [done|]. reflexivity.
  - done.
Qed.

(** Operators and punctuation. *)
Lemma reads_operator pos c t k :
  source !! pos = Some c -> is_ident_char c = false -> c <> "."%char -> isspace c = false ->
  0 < k -> ReadOperator source pos c = Ok (t, pos + k) -> reads_to source pos (pos + k) [t].
Proof.
  intros Hc Hi Hd Hs Hk Hr. apply (reads_token source pos c); [done|done|done|].
  unfold NextToken. destruct (isdigit c) eqn:E; [by rewrite (digit_ident c E) in Hi|].
  destruct (Ascii.eqb_spec c "."); [done|]. cbn [orb].
  destruct (isalpha c || (c =? "_")%char) eqn:Ea; [|done].
  apply alpha_not_digit in Ea as [_ Ea]. congruence.
Qed.

(** The punctuation that is read whatever follows it. *)
Definition punct (c : ascii) : option TokenKind :=
  match c with
  | "("%char => Some LParen | ")"%char => Some RParen | ","%char => Some Comma
  | "+"%char => Some TPlus | "-"%char => Some TMinus
  | _ => None
  end.

Lemma reads_punct pos c k :
  source !! pos = Some c -> punct c = Some k ->
  exists t : DToken, reads_to source pos (S pos) [t] /\ tok_kind t = k.
Proof.
  intros Hc Hk. replace (S pos) with (pos + 1) by lia.
  destruct c as [[] [] [] [] [] [] [] []]; try discriminate Hk; injection Hk as <-;
    (eexists; split; [eapply reads_operator; [exact Hc|done|done|done|lia|];
      cbn [ReadOperator]; unfold emit; replace (pos + 1) with (S pos) by lia; reflexivity|done]).
Qed.

(** The level whose operators include [k]. *)
Definition op_level (k : BinaryOpKind) : Level :=
  match k with
  | Or | And => LLogical
  | Eq | NotEq | Gt | Lt | Gte | Lte => LComparison
  | Add | Sub => LTerm
  | Mul | Div => LFactor
  end.

Lemma reads_binary pos k rest :
  at_text source pos (chars (BinarySpelling k)) (" "%char :: rest) ->
  exists t : DToken,
    reads_to source pos (pos + length (chars (BinarySpelling k))) [t] /\
    level_op (op_level k) (tok_kind t) = Some k.
Proof.
  intros Ht.
  assert (Hnext : forall p c, source !! p = Some c -> forall d, next_is source p d = (c =? d)%char)
    by (intros p c Hc d; unfold next_is, Lexer.Peek; by rewrite Hc).
  destruct k; cbn [BinarySpelling chars String.list_ascii_of_string length] in *;
    apply at_text_cons in Ht as [Hc Ht];
    (try change (at_text source (S pos) [" "%char] rest) in Ht);
    apply at_text_cons in Ht as [Hc2 _];
    (eexists; split; [eapply reads_operator; [exact Hc|done|done|done|lia|];
       unfold ReadOperator, emit; try rewrite (Hnext _ _ Hc2);
       rewrite ?Nat.add_1_r, ?Nat.add_succ_r, ?Nat.add_0_r; reflexivity|reflexivity]).
Qed.
End lexemes.

(** ** The trees that can be printed *)

(** A literal whose printed form is a number token with its value. *)
Definition literal_printable (v : double) : bool :=
  is_number (chars (FormatNumber v)) && bool_decide (strtod (chars (FormatNumber v)) = v).

(** The right operand is not printed bare where the parser would attach it to
    the left: the parser has one level for [&&] and [||], and one for all
    comparisons; the formatter has two of each. *)
Definition unambiguous (k : BinaryOpKind) (rhs : Expr double) : bool :=
  match k, rhs with
  | Or, BinaryOp _ And _ _ => false
  | (Eq | NotEq), BinaryOp _ (Gt | Lt | Gte | Lte) _ _ => false
  | _, _ => true
  end.

Fixpoint printable (e : Expr double) : bool :=
  match e with
  | NumberLiteral _ v => literal_printable v
  | IdentifierExpr _ n | ParameterExpr _ n _ => is_name n
  | UnaryOp _ _ x => printable x
  | BinaryOp _ k l r => printable l && printable r && unambiguous k r
  | Conditional _ c t f => printable c && printable t && printable f
  | FunctionCall _ n args _ _ => is_name n && forallb printable args
  end.

(** Locations, ids and the resolution of parameters are not in the text. *)
Fixpoint erase {D} (e : Expr D) : Expr D :=
  match e with
  | NumberLiteral _ v => NumberLiteral (MkLoc 0 0 0) v
  | IdentifierExpr _ n | ParameterExpr _ n _ => IdentifierExpr (MkLoc 0 0 0) n
  | UnaryOp _ k x => UnaryOp (MkLoc 0 0 0) k (erase x)
  | BinaryOp _ k l r => BinaryOp (MkLoc 0 0 0) k (erase l) (erase r)
  | Conditional _ c t f => Conditional (MkLoc 0 0 0) (erase c) (erase t) (erase f)
  | FunctionCall _ n args _ _ => FunctionCall (MkLoc 0 0 0) n (map erase args) (-1) (-1)
  end.

Lemma erase_relocated {D} loc (e : Expr D) : erase (set_loc loc e) = erase e.
Proof. by destruct e. Qed.
Lemma erase_paren_loc {D} (t : Token D) e : erase (paren_loc t e) = erase e.
Proof. unfold paren_loc. destruct (_ && _); [apply erase_relocated|done]. Qed.

(** ** Levels *)

Definition rank (l : Level) : nat :=
  match l with
  | LExpr => 0 | LLogical => 1 | LComparison => 2 | LTerm => 3 | LFactor => 4 | LUnary => 5
  | LPrimary => 6
  end.

Lemma derives_loosen l l' (toks : list DToken) e :
  rank l <= rank l' -> derives l' toks e -> derives l toks e.
Proof.
  assert (Hone : forall m, derives (tighter m) toks e -> derives m toks e).
  { intros m Hd. destruct m; try exact Hd; by apply d_tighter. }
  intros Hr Hd. destruct l, l'; simpl in Hr; try lia; try done;
    repeat (done || (apply Hone; cbn [tighter])).
Qed.

(** The level of a tree printed without parentheses, and its precedence. *)
Definition natural (e : Expr double) : Level :=
  match e with
  | UnaryOp _ _ _ => LUnary
  | BinaryOp _ k _ _ => op_level k
  | Conditional _ _ _ _ => LExpr
  | _ => LPrimary
  end.
Definition prec_of (e : Expr double) : Z :=
  match e with
  | UnaryOp _ _ _ => kPrecUnary
  | BinaryOp _ k _ _ => BinaryPrec k
  | Conditional _ _ _ _ => kPrecCond
  | _ => 100
  end.
Definition shape (e : Expr double) (prec : Z) : Level :=
  if (prec_of e <? prec)%Z then LPrimary else natural e.

Ltac prec := cbn [prec_of BinaryPrec natural op_level rank tighter] in *; unfold kPrecCond, kPrecOr, kPrecAnd, kPrecEq, kPrecRel, kPrecAdd, kPrecMul,
  kPrecUnary in *; simpl in *; lia.

Lemma shape_left k e : rank (op_level k) <= rank (shape e (BinaryPrec k)).
Proof.
  unfold shape. destruct (Z.ltb_spec (prec_of e) (BinaryPrec k)) as [|Hle];
    [destruct k; simpl; lia|].
  destruct e as [| | | |? k' ? ?| |]; try destruct k'; destruct k; prec.
Qed.

Lemma shape_right k e :
  unambiguous k e = true -> rank (tighter (op_level k)) <= rank (shape e (BinaryPrec k + 1)).
Proof.
  unfold shape. intros Hu.
  destruct (Z.ltb_spec (prec_of e) (BinaryPrec k + 1)) as [|Hle]; [destruct k; simpl; lia|].
  destruct e as [| | | |? k' ? ?| |]; try destruct k'; destruct k; try discriminate Hu; prec.
Qed.

Lemma shape_unary e : rank LUnary <= rank (shape e kPrecUnary).
Proof.
  unfold shape. destruct (Z.ltb_spec (prec_of e) kPrecUnary) as [|Hle]; [simpl; lia|].
  destruct e as [| | | |? k' ? ?| |]; try destruct k'; prec.
Qed.

(** ** Reading a formatted expression *)

Section formatted.
Variable source : list ascii.

(** The text [cs] at [pos] is a phrase of level [l] for the tree [e]. *)
Definition formatted (pos : nat) (cs : list ascii) (l : Level) (e : Expr double) : Prop :=
  exists toks e', reads_to source pos (pos + length cs) toks /\ derives l toks e' /\
    erase e' = erase e.

(** Wherever [cs] stands in the source, not running on. *)
Definition formats (cs : list ascii) (l : Level) (e : Expr double) : Prop :=
  forall pos rest, at_text source pos cs rest -> pos <= length source -> stops_word rest ->
    formatted pos cs l e.

Lemma formats_loosen cs l l' e : rank l <= rank l' -> formats cs l' e -> formats cs l e.
Proof.
  intros Hr Hf pos rest Ht Hp Hs. destruct (Hf pos rest Ht Hp Hs) as (toks & e' & Hrd & Hd & He).
  exists toks, e'. split; [done|]. split; [by apply (derives_loosen l l')|done].
Qed.

Lemma chars_app a b : chars (a +:+ b) = chars a ++ chars b.
Proof. induction a as [|c a IH]; simpl; [done|]. by rewrite IH. Qed.

Lemma stops_space rest : stops_word (" "%char :: rest).
Proof. done. Qed.

(** A tree in parentheses. *)
Lemma formats_parens b s l e :
  formats (chars s) l e -> formats (chars (parens b s)) (if b then LPrimary else l) e.
Proof.
  intros Hf. destruct b; [|done]. intros pos rest Ht Hp Hs. unfold parens in *.
  rewrite !chars_app in *. cbn [chars String.list_ascii_of_string app] in *.
  pose proof Ht as Ht0. apply at_text_cons in Ht as [Hlp Ht].
  pose proof (lookup_lt_Some _ _ _ Hlp).
  apply at_text_app in Ht as [Ht1 Ht2].
  destruct (Hf (S pos) _ Ht1 ltac:(lia)) as (toks & e' & Hrd & Hd & He); [done|].
  apply at_text_cons in Ht2 as [Hrp _].
  destruct (reads_punct source pos "(" LParen Hlp eq_refl) as (tl & Hl & Hkl).
  destruct (reads_punct source _ ")" RParen Hrp eq_refl) as (tr & Hr & Hkr).
  exists (tl :: toks ++ [tr]), (paren_loc tl e'). split_and!.
  - apply (reads_app _ _ _ _ [tl] _ Hl), (reads_app _ _ _ _ _ _ Hrd).
    simpl. rewrite length_app. simpl.
    by replace (pos + S (length (chars s) + 1)) with (S (S pos + length (chars s))) by lia.
  - apply d_paren; [done|done|]. apply (derives_loosen LExpr l); [simpl; lia|done].
  - by rewrite erase_paren_loc.
Qed.

Lemma formats_number loc v :
  literal_printable v = true -> formats (chars (FormatNumber v)) LPrimary (NumberLiteral loc v).
Proof.
  intros Hv pos rest Ht Hp Hs. unfold literal_printable in Hv.
  apply andb_true_iff in Hv as [Hn Hv]. apply bool_decide_eq_true in Hv.
  destruct (reads_number source pos _ rest Ht Hp Hn Hs) as (t & Hrd & Hk & Hnum).
  exists [t], (NumberLiteral (tok_loc t) (tok_number t)).
  split; [done|]. split; [by constructor|]. simpl. by rewrite Hnum, Hv.
Qed.

Lemma formats_name n e :
  is_name n = true -> erase e = IdentifierExpr (MkLoc 0 0 0) n -> formats (chars n) LPrimary e.
Proof.
  intros Hn He pos rest Ht Hp Hs.
  destruct (reads_name source pos n rest Ht Hp Hn Hs) as (t & Hrd & Hk & Hl).
  exists [t], (IdentifierExpr (tok_loc t) (tok_lexeme t)).
  split; [done|]. split; [by constructor|]. simpl. by rewrite Hl, He.
Qed.

Lemma formats_unary loc k s e :
  formats (chars s) LUnary e ->
  formats (chars (UnarySpelling k +:+ s)) LUnary (UnaryOp loc k e).
Proof.
  intros Hf pos rest Ht Hp Hs.
  assert (Hk : exists c kind, chars (UnarySpelling k) = [c] /\ punct c = Some kind /\
            unary_kind kind = Some k) by (by destruct k; eexists _, _; split_and!).
  destruct Hk as (c & kind & Ec & Hpk & Huk). rewrite chars_app, Ec in *.
  cbn [app] in *. apply at_text_cons in Ht as [Hc Ht]. pose proof (lookup_lt_Some _ _ _ Hc).
  destruct (reads_punct source pos c kind Hc Hpk) as (t & Hrd & Hkt).
  destruct (Hf (S pos) rest Ht ltac:(lia) Hs) as (toks & e' & Hrd' & Hd & He).
  exists (t :: toks), (UnaryOp (tok_loc t) k e'). split_and!.
  - replace (pos + length (c :: chars s)) with (S pos + length (chars s)) by (simpl; lia).
    by apply (reads_app _ _ _ _ [t] _ Hrd).
  - apply d_unary; [by rewrite Hkt|done].
  - simpl. by rewrite He.
Qed.

Lemma formats_binary loc k sl sr l r :
  formats (chars sl) (op_level k) l -> formats (chars sr) (tighter (op_level k)) r ->
  formats (chars (sl +:+ " " +:+ BinarySpelling k +:+ " " +:+ sr)) (op_level k)
    (BinaryOp loc k l r).
Proof.
  intros Hl Hr pos rest Ht Hp Hs. rewrite !chars_app in *.
  cbn [chars String.list_ascii_of_string app] in *.
  apply at_text_app in Ht as [Htl Ht].
  destruct (Hl pos _ Htl Hp (stops_space _)) as (lt & l' & Hrl & Hdl & Hel).
  apply at_text_cons in Ht as [Hsp1 Ht]. apply at_text_app in Ht as [Hto Ht].
  destruct (reads_binary source _ k _ Hto) as (t & Hrt & Hkt).
  apply at_text_cons in Ht as [Hsp2 Ht]. pose proof (lookup_lt_Some _ _ _ Hsp2).
  destruct (Hr _ rest Ht ltac:(lia) Hs) as (rt & r' & Hrr & Hdr & Her).
  exists (lt ++ t :: rt), (BinaryOp (tok_loc t) k l' r'). split_and!.
  - apply (reads_app _ _ _ _ _ _ Hrl).
    apply (reads_app source _ _ _ [] (t :: rt) (reads_space source _ _ Hsp1 eq_refl)).
    apply (reads_app source _ _ _ [t] rt Hrt).
    apply (reads_app source _ _ _ [] rt (reads_space source _ _ Hsp2 eq_refl)).
    match goal with H : reads_to _ ?p ?q rt |- reads_to _ ?p ?q' rt => replace q' with q; [done|] end.
    rewrite !length_app. simpl. rewrite length_app. simpl. lia.
  - by apply d_binary.
  - simpl. by rewrite Hel, Her.
Qed.

(** A keyword and the space behind it. *)
Lemma reads_keyword pos w cs rest k :
  (w, k) ∈ [("if", If); ("then", Then); ("else", Else); ("signal", Signal); ("param", Param)] ->
  at_text source pos (chars w ++ " "%char :: cs) rest -> pos <= length source ->
  exists t : DToken, reads_to source pos (pos + length (chars w) + 1) [t] /\ tok_kind t = k /\
    at_text source (pos + length (chars w) + 1) cs rest /\
    pos + length (chars w) + 1 <= length source.
Proof.
  intros Hw Ht Hp. apply at_text_app in Ht as [Htw Ht].
  apply at_text_cons in Ht as [Hsp Ht]. pose proof (lookup_lt_Some _ _ _ Hsp).
  assert (Hword : exists c cs, chars w = c :: cs /\ isalpha c || (c =? "_")%char = true /\
            Forall is_ident_char cs /\ keyword_kind w = k).
  { rewrite !elem_of_cons in Hw. destruct Hw as [Hw|[Hw|[Hw|[Hw|[Hw|Hw%elem_of_nil]]]]]; [..|done];
      injection Hw as -> ->; eexists _, _; (split; [reflexivity|]);
      (split_and!; [done| |done]); repeat constructor. }
  destruct Hword as (c & cs' & Ew & Hc & HF & <-).
  destruct (reads_word source pos w _ c cs' Htw Hp Ew Hc HF) as (t & Hrd & Hk & _); [done|].
  exists t. rewrite Nat.add_1_r in *. split_and!; [|done|done|lia].
  apply (reads_app source _ _ _ [t] [] Hrd). by apply (reads_space source _ " ").
Qed.

Lemma formats_conditional loc sc st se c t e :
  formats (chars sc) LExpr c -> formats (chars st) LExpr t -> formats (chars se) LExpr e ->
  formats (chars ("if " +:+ sc +:+ " then " +:+ st +:+ " else " +:+ se)) LExpr
    (Conditional loc c t e).
Proof.
  intros Hc Ht He pos rest Htx Hp Hs.
  change ("if " +:+ sc +:+ " then " +:+ st +:+ " else " +:+ se) with
    ("if" +:+ " " +:+ sc +:+ " " +:+ "then" +:+ " " +:+ st +:+ " " +:+ "else" +:+ " " +:+ se) in *.
  rewrite !chars_app in *. change (chars " ") with [" "%char] in *. cbn [app] in *.
  destruct (reads_keyword pos "if" _ _ If ltac:(set_solver) Htx Hp) as (ti & Hri & Hki & Ht1 & Hp1).
  apply at_text_app in Ht1 as [Htc Ht1].
  destruct (Hc _ _ Htc Hp1 (stops_space _)) as (cs & c' & Hrc & Hdc & Hec).
  apply at_text_cons in Ht1 as [Hsp1 Ht1]. pose proof (lookup_lt_Some _ _ _ Hsp1).
  destruct (reads_keyword _ "then" _ _ Then ltac:(set_solver) Ht1 ltac:(lia))
    as (tt & Hrt & Hkt & Ht2 & Hp2).
  apply at_text_app in Ht2 as [Htt Ht2].
  destruct (Ht _ _ Htt Hp2 (stops_space _)) as (ts & t' & Hrth & Hdt & Het).
  apply at_text_cons in Ht2 as [Hsp2 Ht2]. pose proof (lookup_lt_Some _ _ _ Hsp2).
  destruct (reads_keyword _ "else" _ _ Else ltac:(set_solver) Ht2 ltac:(lia))
    as (te & Hre & Hke & Ht3 & Hp3).
  destruct (He _ _ Ht3 Hp3 Hs) as (es & e' & Hrel & Hde & Hee).
  exists (ti :: cs ++ tt :: ts ++ te :: es), (Conditional (tok_loc ti) c' t' e'). split_and!.
  - apply (reads_app source _ _ _ [ti] _ Hri), (reads_app source _ _ _ _ _ Hrc).
    apply (reads_app source _ _ _ [] (tt :: ts ++ te :: es) (reads_space source _ _ Hsp1 eq_refl)).
    apply (reads_app source _ _ _ [tt] _ Hrt), (reads_app source _ _ _ _ _ Hrth).
    apply (reads_app source _ _ _ [] (te :: es) (reads_space source _ _ Hsp2 eq_refl)).
    apply (reads_app source _ _ _ [te] _ Hre).
    match goal with H : reads_to _ ?p ?q es |- reads_to _ ?p ?q' es => replace q' with q; [done|] end.
    repeat (rewrite !length_app; cbn [length]). lia.
  - by apply d_if.
  - simpl. by rewrite Hec, Het, Hee.
Qed.

(** The arguments of a call, as [FormatFunctionCall] writes them. *)
Fixpoint format_args (first : bool) (l : list (Expr double)) : string :=
  match l with
  | [] => ""
  | a :: l' => (if first then "" else ", ") +:+ FormatExprInto a kPrecCond +:+
               format_args false l'
  end.

Lemma FormatExprInto_call loc n args i s prec :
  FormatExprInto (FunctionCall loc n args i s) prec = n +:+ "(" +:+ format_args true args +:+ ")".
Proof. reflexivity. Qed.

Lemma formats_more args pos rest :
  Forall (fun a => formats (chars (FormatExprInto a kPrecCond)) LExpr a) args ->
  at_text source pos (chars (format_args false args)) (")"%char :: rest) ->
  pos <= length source ->
  exists toks args',
    reads_to source pos (pos + length (chars (format_args false args))) toks /\
    derives_more toks args' /\ map erase args' = map erase args.
Proof.
  intros HF. revert pos. induction HF as [|a args Ha HF IH]; intros pos Ht Hp.
  - exists [], []. split; [|by split; [constructor|]]. simpl. rewrite Nat.add_0_r. apply reads_nil.
  - cbn [format_args] in *. change ((if false then "" else ", ") +:+ ?s) with
      (("," +:+ " ") +:+ s) in *. rewrite !chars_app in *.
    change (chars ", ") with [","%char; " "%char] in *. cbn [app] in *.
    apply at_text_cons in Ht as [Hc Ht]. apply at_text_cons in Ht as [Hsp Ht].
    pose proof (lookup_lt_Some _ _ _ Hsp). apply at_text_app in Ht as [Hta Ht].
    destruct (reads_punct source pos "," Comma Hc eq_refl) as (tc & Hrc & Hkc).
    assert (Hstop : stops_word (chars (format_args false args) ++ ")"%char :: rest))
      by (by destruct args).
    destruct (Ha _ _ Hta ltac:(lia) Hstop) as (toks & a' & Hra & Hda & Hea).
    pose proof (at_text_length _ _ _ _ Hta ltac:(lia)).
    destruct (IH _ Ht ltac:(lia)) as (more & args' & Hrm & Hdm & Hem).
    exists (tc :: toks ++ more), (a' :: args'). split_and!.
    + apply (reads_app source _ _ _ [tc] _ Hrc).
      apply (reads_app source _ _ _ [] (toks ++ more) (reads_space source _ _ Hsp eq_refl)).
      apply (reads_app source _ _ _ _ _ Hra).
      match goal with H : reads_to _ ?p ?q more |- reads_to _ ?p ?q' more =>
        replace q' with q; [done|] end.
      simpl. rewrite !length_app. simpl. lia.
    + by apply d_comma.
    + simpl. by rewrite Hea, Hem.
Qed.

Lemma formats_call loc n args i s :
  is_name n = true ->
  Forall (fun a => formats (chars (FormatExprInto a kPrecCond)) LExpr a) args ->
  formats (chars (n +:+ "(" +:+ format_args true args +:+ ")")) LPrimary
    (FunctionCall loc n args i s).
Proof.
  intros Hn HF pos rest Ht Hp Hs. rewrite !chars_app in *.
  change (chars "(") with ["("%char] in *. change (chars ")") with [")"%char] in *.
  cbn [app] in *. pose proof Ht as Ht0. apply at_text_app in Ht as [Htn Ht].
  apply at_text_cons in Ht as [Hlp Ht]. pose proof (lookup_lt_Some _ _ _ Hlp).
  apply at_text_app in Ht as [Hta Ht]. apply at_text_cons in Ht as [Hrp _].
  destruct (reads_name source pos n _ Htn Hp Hn) as (t & Hrd & Hk & Hl); [done|].
  destruct (reads_punct source _ "(" LParen Hlp eq_refl) as (tl & Hrl & Hkl).
  destruct (reads_punct source _ ")" RParen Hrp eq_refl) as (tr & Hrr & Hkr).
  assert (Hargs : exists toks args',
    reads_to source (S (pos + length (chars n)))
      (S (pos + length (chars n)) + length (chars (format_args true args))) toks /\
    derives_args toks args' /\ map erase args' = map erase args).
  { destruct HF as [|a args Ha HF].
    - exists [], []. split; [|by split; [constructor|]]. simpl. rewrite Nat.add_0_r. apply reads_nil.
    - cbn [format_args] in *. change ("" +:+ ?s) with s in *. rewrite !chars_app in *.
      apply at_text_app in Hta as [Hta Htm].
      assert (Hstop : stops_word (chars (format_args false args) ++ ")"%char :: rest))
        by (by destruct args).
      destruct (Ha _ _ Hta ltac:(lia) Hstop) as (toks & a' & Hra & Hda & Hea).
      pose proof (at_text_length _ _ _ _ Hta ltac:(lia)).
      destruct (formats_more args _ rest HF Htm ltac:(lia)) as (more & args' & Hrm & Hdm & Hem).
      exists (toks ++ more), (a' :: args'). split_and!.
      + apply (reads_app source _ _ _ _ _ Hra). by rewrite length_app, Nat.add_assoc.
      + by apply d_args.
      + simpl. by rewrite Hea, Hem. }
  destruct Hargs as (toks & args' & Hra & Hda & Hea).
  exists (t :: tl :: toks ++ [tr]), (FunctionCall (tok_loc t) (tok_lexeme t) args' (-1) (-1)).
  split_and!.
  - apply (reads_app source _ _ _ [t] _ Hrd), (reads_app source _ _ _ [tl] _ Hrl).
    apply (reads_app source _ _ _ _ _ Hra).
    match goal with H : reads_to _ ?p ?q [tr] |- reads_to _ ?p ?q' [tr] =>
      replace q' with q; [done|] end.
    repeat (rewrite !length_app; cbn [length]). lia.
  - by constructor.
  - simpl. by rewrite Hl, Hea.
Qed.

(** Every printable tree is read back. *)
Lemma FormatExprInto_formats e :
  printable e = true ->
  forall prec, formats (chars (FormatExprInto e prec)) (shape e prec) e.
Proof.
  induction e as [loc v|loc n|loc n i|loc k x IH|loc k l r IHl IHr|loc n args i s IH|loc c t f IHc IHt IHf]
    using Expr_rect'; intros Hp prec.
  - unfold shape. apply (formats_loosen _ _ LPrimary); [by destruct (_ <? _)%Z|].
    by apply formats_number.
  - unfold shape. apply (formats_loosen _ _ LPrimary); [by destruct (_ <? _)%Z|].
    by apply formats_name.
  - unfold shape. apply (formats_loosen _ _ LPrimary); [by destruct (_ <? _)%Z|].
    by apply formats_name.
  - apply (formats_parens _ _ LUnary). apply formats_unary.
    apply (formats_loosen _ _ _ _ (shape_unary x)). by apply IH.
  - cbn [printable] in Hp. apply andb_true_iff in Hp as [Hp Hu]. apply andb_true_iff in Hp as [Hl Hr].
    apply (formats_parens _ _ (op_level k)). apply formats_binary.
    + apply (formats_loosen _ _ _ _ (shape_left k l)). by apply IHl.
    + apply (formats_loosen _ _ _ _ (shape_right k r Hu)). by apply IHr.
  - cbn [printable] in Hp. apply andb_true_iff in Hp as [Hn Ha]. rewrite FormatExprInto_call.
    unfold shape. apply (formats_loosen _ _ LPrimary); [by destruct (_ <? _)%Z|].
    apply formats_call; [done|]. rewrite forallb_forall in Ha.
    apply Forall_forall. intros a Hin. rewrite Forall_forall in IH.
    apply (formats_loosen _ _ (shape a kPrecCond)); [simpl; lia|].
    apply IH; [done|]. apply Ha. by apply list_elem_of_In.
  - cbn [printable] in Hp. apply andb_true_iff in Hp as [Hp Hf]. apply andb_true_iff in Hp as [Hc Ht].
    apply (formats_parens _ _ LExpr). apply formats_conditional.
    + apply (formats_loosen _ _ (shape c (kPrecCond + 1))); [simpl; lia|]. by apply IHc.
    + apply (formats_loosen _ _ (shape t (kPrecCond + 1))); [simpl; lia|]. by apply IHt.
    + apply (formats_loosen _ _ (shape f kPrecCond)); [simpl; lia|]. by apply IHf.
Qed.
End formatted.

(** ** Literals that are printed exactly *)

Lemma digit_char_spec d :
  (0 <= d < 10)%Z ->
  isdigit (digit_char d) = true /\ (digit_char d =? ".")%char = false /\
  digit_value (digit_char d) = d.
Proof.
  intros Hd. assert (d ∈ [0; 1; 2; 3; 4; 5; 6; 7; 8; 9]%Z) as Hin.
  { rewrite !elem_of_cons. lia. }
  repeat (apply elem_of_cons in Hin as [->|Hin]; [by vm_compute|]). by apply elem_of_nil in Hin.
Qed.

Lemma digits_spec fuel n :
  (0 <= n)%Z -> (n < 2 ^ Z.of_nat fuel)%Z -> 0 < fuel ->
  digits fuel n <> [] /\ forallb isdigit (digits fuel n) = true /\
  forall acc k, exists j, decimal (digits fuel n ++ k) acc None =
    decimal k (acc * 10 ^ j + n)%Z None /\ (0 <= j)%Z.
Proof.
  revert n. induction fuel as [|fuel IH]; intros n Hn Hlt Hf; [lia|]. cbn [digits].
  destruct (Z.ltb_spec n 10) as [Hs|Hb].
  - destruct (digit_char_spec n ltac:(lia)) as (Hd & Hdot & Hv). split; [done|]. cbn. rewrite Hd.
    split; [done|]. intros acc k. exists 1%Z. rewrite Hdot, Hv.
    by rewrite Z.pow_1_r.
  - assert (Hm : (0 <= n mod 10 < 10)%Z) by (apply Z.mod_pos_bound; lia).
    destruct (digit_char_spec _ Hm) as (Hd & Hdot & Hv).
    assert (Hdiv : (n / 10 < 2 ^ Z.of_nat fuel)%Z).
    { apply Z.div_lt_upper_bound; [lia|]. rewrite Nat2Z.inj_succ, Z.pow_succ_r in Hlt by lia. lia. }
    destruct fuel as [|fuel]; [simpl in Hdiv; pose proof (Z.div_pos n 10); nia|].
    destruct (IH (n / 10)%Z ltac:(apply Z.div_pos; lia) Hdiv ltac:(lia)) as (Hne & Hall & Hdec).
    split; [by destruct (digits (S fuel) (n / 10))|]. split.
    + rewrite forallb_app, Hall. cbn. by rewrite Hd.
    + intros acc k. rewrite <- app_assoc. destruct (Hdec acc ([digit_char (n mod 10)] ++ k))
        as (j & -> & Hj). exists (j + 1)%Z. cbn [decimal app]. rewrite Hdot, Hv.
      split; [|lia]. cbn [fmap option_fmap option_map]. f_equal.
      rewrite Z.pow_add_r, Z.pow_1_r by lia. pose proof (Z.div_mod n 10). lia.
Qed.

Lemma decimal_digits_spec n :
  (0 <= n)%Z ->
  is_number (decimal_digits n) = true /\ decimal (decimal_digits n) 0 None = (n, 0).
Proof.
  intros Hn. unfold decimal_digits. set (fuel := S (Z.to_nat (Z.log2 n))).
  destruct (digits_spec fuel n Hn) as (Hne & Hall & Hdec); [|lia|].
  { unfold fuel. rewrite Nat2Z.inj_succ, Z2Nat.id by apply Z.log2_nonneg.
    destruct (decide (n = 0%Z)) as [->|]; [done|]. apply Z.log2_spec. lia. }
  split.
  - assert (Htail : is_number_tail false (digits fuel n) = true).
    { clear Hne Hdec. induction (digits fuel n) as [|c cs IH]; [done|]. cbn [forallb] in Hall.
      apply andb_true_iff in Hall as [Hc Hcs]. cbn [is_number_tail]. rewrite Hc. by apply IH. }
    unfold is_number. destruct (digits fuel n) as [|c cs]; [done|]. rewrite Htail.
    cbn [forallb] in Hall. apply andb_true_iff in Hall as [Hc _].
    destruct (String.eqb_spec (str (c :: cs)) "."); [|done]. simplify_eq/=.
  - destruct (Hdec 0%Z []) as (j & E & _). rewrite app_nil_r in E. rewrite E. done.
Qed.

Lemma SFeqb_finite a m e : SFeqb a (S754_finite false m e) = true -> a = S754_finite false m e.
Proof.
  unfold SFeqb, SFcompare. destruct a as [[]|[]| |[] m' e']; try done.
  destruct (Z.compare_spec e' e) as [->|?|?]; try done.
  destruct (Pos.compare_cont Datatypes.Eq m' m) eqn:E; try done.
  by apply Pos.compare_eq in E as ->.
Qed.

(** Zero and the positive integers below 10^15: [FormatNumber] prints their
    digits, and [strtod] rounds the same integer again. *)
Lemma integer_printable v :
  signbit v = false -> feq (dtrunc v) v = true -> flt (fabs v) (fint (10 ^ 15)) = true ->
  literal_printable v = true.
Proof.
  intros Hs Ht Hb.
  assert (Hv : exists n, (0 <= n)%Z /\ FormatNumber v = str (decimal_digits n) /\ fint n = v).
  { unfold FormatNumber. destruct v as [[[]|[]| |[] m e]]; try discriminate Hs.
    - clear Hb Ht. exists 0%Z. split; [lia|]. split; vm_compute; reflexivity.
    - vm_compute in Hb. discriminate Hb.
    - vm_compute in Ht. discriminate Ht.
    - cbn [fisnan Fp_double double_sf sf_isnan isinf]. rewrite Ht, Hb. cbn [andb].
      change (feq (Double (S754_finite false m e)) (fint 0)) with false. cbv iota.
      unfold dtrunc in *. cbn [double_sf sf_trunc] in *.
      set (n := if (0 <=? e)%Z then Z.shiftl (Z.pos m) e else Z.shiftr (Z.pos m) (- e)) in *.
      assert (Hn : (0 <= n)%Z).
      { unfold n. destruct (0 <=? e)%Z; [by apply Z.shiftl_nonneg|by apply Z.shiftr_nonneg]. }
      apply SFeqb_finite in Ht. assert (Hf : fint n = Double (S754_finite false m e)).
      { by destruct (fint n) as [x]; simpl in Ht; subst. }
      exists n. split; [done|]. split; [|done]. rewrite Hf. cbn [double_sf sf_trunc default].
      change (printf_lld n = str (decimal_digits n)). unfold printf_lld.
      destruct (Z.ltb_spec n 0); [lia|done]. }
  destruct Hv as (n & Hn & Hf & <-). destruct (decimal_digits_spec n Hn) as [Hnum Hdec].
  unfold literal_printable. rewrite Hf, LexerFacts.chars_str, Hnum. unfold strtod. rewrite Hdec.
  by rewrite bool_decide_true.
Qed.

(** ** Definitions *)

(** Tokens are read from the start to the end of the source. *)
Lemma Tokenize_reads source toks :
  reads_to (chars source) 0 (length (chars source)) toks ->
  exists eof : DToken, Tokenize source = Ok (toks ++ [eof]) /\ tok_kind eof = EndOfFile.
Proof.
  intros Hr. destruct (Hr (S (length (chars source))) ltac:(lia)) as (f & Hf & E).
  exists (eof_token (length (chars source))). split; [|done]. unfold Tokenize. rewrite E.
  destruct f as [|f]; [lia|]. cbn [TokenizeLoop]. unfold IsAtEnd. by rewrite Nat.leb_refl.
Qed.

(** No token of a phrase is the end of the file. *)
Lemma derives_kinds :
  (forall l toks (e : Expr double), derives l toks e ->
     Forall (fun t => tok_kind t <> EndOfFile) toks) /\
  (forall toks (args : list (Expr double)), derives_args toks args ->
     Forall (fun t => tok_kind t <> EndOfFile) toks) /\
  (forall toks (args : list (Expr double)), derives_more toks args ->
     Forall (fun t => tok_kind t <> EndOfFile) toks).
Proof.
  apply derives_mutind; intros; decompose_Forall;
    repeat (apply Forall_app || apply Forall_cons || split); try done;
    try (match goal with H : tok_kind ?t = _ |- tok_kind ?t <> _ => by rewrite H end);
    try (match goal with H : ?f (tok_kind ?t) = Some _ |- tok_kind ?t <> _ =>
           intros E; rewrite E in H end).
  - by destruct l.
  - done.
Qed.

(** Formatting reads only what [erase] keeps. *)
Lemma FormatExprInto_erase e : forall prec, FormatExprInto e prec = FormatExprInto (erase e) prec.
Proof.
  induction e as [loc v|loc n|loc n i|loc k x IH|loc k l r IHl IHr|loc n args i s IH|loc c t f IHc IHt IHf]
    using Expr_rect'; intros prec; try reflexivity.
  - simpl. by rewrite IH.
  - simpl. by rewrite IHl, IHr.
  - cbn [erase]. rewrite !FormatExprInto_call. do 2 f_equal.
    assert (forall b, format_args b args = format_args b (map erase args)) as E; [|by rewrite E].
    induction IH as [|a args Ha _ IH]; intros b; [done|]. simpl. by rewrite <- Ha, IH.
  - simpl. by rewrite IHc, IHt, IHf.
Qed.

Lemma FormatSignalDef_erase name e e' :
  erase e' = erase e -> FormatSignalDef (MkSignal name e') = FormatSignalDef (MkSignal name e).
Proof.
  intros He. unfold FormatSignalDef. cbn [sig_name sig_body].
  by rewrite FormatExprInto_erase, He, <- FormatExprInto_erase.
Qed.

(** The [=] of a definition, with the space behind it. *)
Lemma reads_assign source pos :
  source !! pos = Some "="%char -> source !! S pos = Some " "%char ->
  exists t : DToken, reads_to source pos (S pos) [t] /\ tok_kind t = Assign.
Proof.
  intros Ha Hs. exists (MkToken Assign "=" (fint 0) (MkLoc 0 (Col pos) (u32 1))).
  rewrite <- (Nat.add_1_r pos). split; [|done].
  eapply reads_operator; [exact Ha|done|done|done|lia|].
  unfold ReadOperator, emit, next_is, Lexer.Peek. rewrite Hs. by rewrite Nat.add_1_r.
Qed.

(** [<keyword> <name> = <expression>], read as a sentence. *)
Lemma reads_definition w kind name cs e :
  (w, kind) ∈ [("signal", Signal); ("param", Param)] ->
  is_name name = true ->
  let source := w +:+ " " +:+ name +:+ " = " +:+ cs in
  formats (chars source) (chars cs) LExpr e ->
  exists (toks : list DToken) eof t e', Tokenize source = Ok (toks ++ [eof]) /\
    tok_kind eof = EndOfFile /\ Forall (fun t => tok_kind t <> EndOfFile) toks /\
    tok_lexeme t = name /\ sentence kind toks t e' /\ erase e' = erase e.
Proof.
  intros Hw Hn source Hf.
  assert (H0 : at_text (chars source) 0
                 (chars w ++ " "%char :: chars (name +:+ " = " +:+ cs)) []).
  { unfold at_text. rewrite drop_0, app_nil_r. unfold source. by rewrite chars_app. }
  destruct (reads_keyword (chars source) 0 w _ _ kind ltac:(set_solver) H0 ltac:(lia))
    as (tk & Hrk & Hkk & Ht & Hp).
  rewrite chars_app in Ht. apply at_text_app in Ht as [Htn Ht].
  destruct (reads_name _ _ name _ Htn Hp Hn) as (t & Hrn & Hkn & Hln); [done|].
  rewrite chars_app in Ht. change (chars " = ") with [" "%char; "="%char; " "%char] in Ht.
  cbn [app] in Ht. apply at_text_cons in Ht as [Hs1 Ht].
  apply at_text_cons in Ht as [Ha Ht]. apply at_text_cons in Ht as [Hs2 Ht].
  pose proof (lookup_lt_Some _ _ _ Hs2).
  destruct (reads_assign _ _ Ha Hs2) as (ta & Hra & Hka).
  destruct (Hf _ [] Ht ltac:(lia) I) as (toks & e' & Hre & Hde & He).
  exists (tk :: t :: ta :: toks).
  destruct (Tokenize_reads source (tk :: t :: ta :: toks)) as (eof & Heof & Hkeof).
  { apply (reads_app _ _ _ _ [tk] _ Hrk), (reads_app _ _ _ _ [t] _ Hrn).
    apply (reads_app _ _ _ _ [] (ta :: toks) (reads_space _ _ _ Hs1 eq_refl)).
    apply (reads_app _ _ _ _ [ta] toks Hra).
    apply (reads_app _ _ _ _ [] toks (reads_space _ _ _ Hs2 eq_refl)).
    match goal with H : reads_to _ ?p ?q toks |- reads_to _ ?p ?q' toks =>
      replace q' with q; [done|] end.
    unfold source. rewrite !chars_app. repeat (rewrite !length_app; cbn [length]).
    change (chars " = ") with [" "%char; "="%char; " "%char].
    change (chars " ") with [" "%char]. cbn [length]. lia. }
  exists eof, t, e'. split_and!; try done.
  - assert (kind <> EndOfFile) by (intros ->; set_solver).
    repeat constructor; [by rewrite Hkk|by rewrite Hkn|by rewrite Hka|].
    by apply derives_kinds in Hde.
  - by exists tk, ta, toks.
Qed.

(** C21: the round trip the formatter promises.  A signal whose name is an
    identifier and whose body is printable (literals with an exact decimal
    number token, no [&&] to the right of [||] and no comparison to the right
    of [==] or [!=]) is printed as a line that the lexer and the parser
    accept, with the same name and the same tree up to locations, ids and the
    resolution of parameters, and printing the result again gives the same
    line; a parameter definition is read back with its name and its value. *)
Theorem format_parse_roundtrip :
  (forall s : SignalDef double, is_name (sig_name s) = true -> printable (sig_body s) = true ->
     exists toks def, Tokenize (FormatSignalDef s) = Ok toks /\ ParseSignalDef toks = Ok def /\
       sig_name def = sig_name s /\ erase (sig_body def) = erase (sig_body s) /\
       FormatSignalDef def = FormatSignalDef s) /\
  (forall p : ParamDef double, is_name (par_name p) = true ->
     literal_printable (par_default p) = true ->
     exists toks def, Tokenize (FormatParamDef p) = Ok toks /\ ParseParamDef toks = Ok def /\
       par_name def = par_name p /\ par_default def = par_default p /\
       FormatParamDef def = FormatParamDef p).
Proof.
  split.
  - intros [name e] Hn Hp. cbn [sig_name sig_body] in *.
    destruct (reads_definition "signal" Signal name (FormatExprInto e kPrecCond) e
      ltac:(set_solver) Hn) as (toks & eof & t & e' & Ht & Hk & HF & Hl & Hs & He).
    { apply (formats_loosen _ _ _ (shape e kPrecCond)); [simpl; lia|].
      by apply FormatExprInto_formats. }
    exists (toks ++ [eof]), (MkSignal (tok_lexeme t) e'). split; [exact Ht|]. split.
    + rewrite ParseSignalDef_head. by rewrite (definition_head_complete _ _ Hk _ _ _ _ t e' Hs).
    + rewrite Hl. split_and!; [done|done|]. by apply FormatSignalDef_erase.
  - intros [name v id loc] Hn Hp. cbn [par_name par_default] in *.
    destruct (reads_definition "param" Param name (FormatNumber v) (NumberLiteral loc v)
      ltac:(set_solver) Hn) as (toks & eof & t & e' & Ht & Hk & HF & Hl & Hs & He).
    { apply (formats_loosen _ _ _ LPrimary); [simpl; lia|]. by apply formats_number. }
    exists (toks ++ [eof]), (MkParam (tok_lexeme t) v (-1) (tok_loc t)). split; [exact Ht|].
    destruct e' as [loc' v'| | | | | |]; try discriminate He. injection He as ->. split.
    + rewrite ParseParamDef_head. rewrite (definition_head_complete _ _ Hk _ _ _ _ t _ Hs).
      reflexivity.
    + rewrite Hl. by split_and!.
Qed.

(** ** Where the promise is broken *)

(** The text of [a k (b k2 c)] is a phrase for [(a k b) k2 c]. *)
Lemma ambiguous_formats source a b c k k2 loc loc' :
  printable a = true -> printable b = true -> printable c = true ->
  unambiguous k b = true -> unambiguous k (BinaryOp loc' k2 b c) = false ->
  formats source (chars (FormatExprInto (BinaryOp loc k a (BinaryOp loc' k2 b c)) kPrecCond))
    (op_level k) (BinaryOp loc k2 (BinaryOp loc' k a b) c).
Proof.
  intros Ha Hb Hc Hu Hn.
  assert (Hk : op_level k2 = op_level k /\ BinaryPrec k2 = (BinaryPrec k + 1)%Z /\
    (BinaryPrec k <? kPrecCond)%Z = false /\ unambiguous k2 c = true) by (by destruct k, k2).
  destruct Hk as (Hlev & Hprec & Htop & Huc).
  assert (Etext : FormatExprInto (BinaryOp loc k a (BinaryOp loc' k2 b c)) kPrecCond =
    (FormatExprInto a (BinaryPrec k) +:+ " " +:+ BinarySpelling k +:+ " " +:+ FormatExprInto b (BinaryPrec k2)) +:+
    " " +:+ BinarySpelling k2 +:+ " " +:+ FormatExprInto c (BinaryPrec k2 + 1)%Z).
  { cbn [FormatExprInto]. rewrite Htop, Hprec, Z.ltb_irrefl. cbn [parens].
    by rewrite <- !string_app_assoc. }
  rewrite Etext, <- Hlev. apply formats_binary.
  - rewrite Hlev. apply formats_binary.
    + apply (formats_loosen _ _ _ (shape a (BinaryPrec k)) _ (shape_left k a)). by apply FormatExprInto_formats.
    + apply (formats_loosen _ _ _ (shape b (BinaryPrec k + 1)) _ (shape_right k b Hu)).
      rewrite Hprec. by apply FormatExprInto_formats.
  - apply (formats_loosen _ _ _ (shape c (BinaryPrec k2 + 1)) _ (shape_right k2 c Huc)).
    by apply FormatExprInto_formats.
Qed.

(** C40: the promise that a formatted program is read back as it was does not
    hold for every accepted program.  The formatter gives [&&] a level of its
    own below [||], and the comparisons one below [==] and [!=]; the parser has
    one level for each pair.  Every signal [a || (b && c)], [a == (b < c)] or
    the like, whose operands [a], [b] and [c] are printable and [b] is not
    itself such an operation, is printed without the parentheses, and the text
    is accepted and read back as [(a || b) && c], [(a == b) < c]: another tree,
    which for [||] and [&&] evaluates to 0 instead of 1 whenever [a] holds and
    [c] does not. *)
Theorem format_breaks_programs name a b c k k2 loc loc' :
  is_name name = true -> printable a = true -> printable b = true -> printable c = true ->
  unambiguous k b = true -> unambiguous k (BinaryOp loc' k2 b c) = false ->
  let s := MkSignal name (BinaryOp loc k a (BinaryOp loc' k2 b c)) in
  exists toks def, Tokenize (FormatSignalDef s) = Ok toks /\ ParseSignalDef toks = Ok def /\
    sig_name def = name /\
    erase (sig_body def) = erase (BinaryOp loc k2 (BinaryOp loc' k a b) c) /\
    AstEquals (sig_body def) (sig_body s) = false /\
    (k = Or -> forall va vb vc : double, fne va (fint 0) = true -> fne vc (fint 0) = false ->
       eval_binary k va (eval_binary k2 vb vc) = fint 1 /\
       eval_binary k2 (eval_binary k va vb) vc = fint 0).
Proof.
  intros Hn Ha Hb Hc Hu Hbad s.
  destruct (reads_definition "signal" Signal name (FormatExprInto (sig_body s) kPrecCond)
    (BinaryOp loc k2 (BinaryOp loc' k a b) c) ltac:(set_solver) Hn)
    as (toks & eof & t & e' & Ht & Hk & HF & Hl & Hs & He).
  { apply (formats_loosen _ _ _ (op_level k)); [simpl; lia|]. by apply ambiguous_formats. }
  exists (toks ++ [eof]), (MkSignal (tok_lexeme t) e'). split; [exact Ht|]. split.
  { rewrite ParseSignalDef_head. by rewrite (definition_head_complete _ _ Hk _ _ _ _ t e' Hs). }
  split_and!; [exact Hl|exact He| |].
  - assert (Hne : k2 <> k) by (intros ->; by destruct k).
    destruct e' as [| | | |? k' ? ?| |]; try discriminate He. injection He as -> _ _.
    cbn [sig_body s AstEquals]. by rewrite bool_decide_false.
  - intros -> va vb vc Hva Hvc. destruct k2; try discriminate Hbad. cbn [eval_binary].
    rewrite Hva, Hvc. by rewrite andb_false_r.
Qed.

(** A conjunction to the right of a disjunction, of three conditions. *)
Lemma format_breaks_programs_witness :
  let cond t := BinaryOp noloc Gt (FunctionCall noloc "mid" [IdentifierExpr noloc t] (-1) (-1))
                  (NumberLiteral noloc (fint 0)) in
  let s := MkSignal "s" (BinaryOp noloc Or (cond "A") (BinaryOp noloc And (cond "B") (cond "C"))) in
  FormatSignalDef s = "signal s = mid(A) > 0 || mid(B) > 0 && mid(C) > 0" /\
  exists toks def, Tokenize (FormatSignalDef s) = Ok toks /\ ParseSignalDef toks = Ok def /\
    AstEquals (sig_body def) (sig_body s) = false.
Proof.
  intros cond s. split; [vm_compute; reflexivity|].
  destruct (format_breaks_programs "s" (cond "A") (cond "B") (cond "C") Or And noloc noloc)
    as (toks & def & H1 & H2 & _ & _ & H3 & _); try (vm_compute; reflexivity).
  exists toks, def. split; [exact H1|]. split; [exact H2|exact H3].
Defined.

(** Whether each signal of a program comes back as an equal tree. *)
Definition round_trips (source : string) : Res (list bool) :=
  p <- ParseProgram source;; q <- ParseProgram (FormatProgram p);;
  Ok (zip_with (fun s t => AstEquals (sig_body s) (sig_body t)) (prog_signals p)
        (prog_signals q : list (SignalDef double))).

(** A literal below 1e-4 is printed in scientific notation, which the lexer
    splits and the parser rejects. *)
Example scientific_literal_rejected :
  rmap FormatProgram (ParseProgram "signal s = 0.00001")
    = Ok ("signal s = 1.0000000000000001e-05" +:+ newline) /\
  round_trips "signal s = 0.00001" =
    Err (ParseError "Expected end of input (got: 'e')" (MkLoc 1 30 1)
           "signal s = 1.0000000000000001e-05").
Proof. split; vm_compute; reflexivity. Qed.

(** [format_parse_roundtrip] on a definition with every kind of tree, and on
    a parameter. *)
Definition example_signal : SignalDef double :=
  let n := NumberLiteral (MkLoc 0 0 0) in
  let mid t := FunctionCall (MkLoc 0 0 0) "mid" [IdentifierExpr (MkLoc 0 0 0) t] (-1) 0 in
  let op k a b := BinaryOp (MkLoc 0 0 0) k a b in
  MkSignal "s"
    (Conditional (MkLoc 0 0 0)
       (op Or (op Gt (mid "A") (ParameterExpr (MkLoc 0 0 0) "p" 0)) (op Lt (mid "B") (n (fint 2))))
       (UnaryOp (MkLoc 0 0 0) Minus (op Sub (mid "A") (op Sub (n (flit 15 1)) (mid "B"))))
       (op Mul (op Add (n (fint 1)) (mid "B")) (n (fint 100)))).

Lemma format_parse_roundtrip_witness :
  FormatSignalDef example_signal =
    "signal s = if mid(A) > p || mid(B) < 2 then -(mid(A) - (1.5 - mid(B))) else (1 + mid(B)) * 100"
  /\ (exists toks def, Tokenize (FormatSignalDef example_signal) = Ok toks /\
        ParseSignalDef toks = Ok def /\ erase (sig_body def) = erase (sig_body example_signal))
  /\ exists toks def, Tokenize (FormatParamDef (MkParam "p" (fint 7) 0 (MkLoc 0 0 0))) = Ok toks /\
        ParseParamDef toks = Ok def /\ par_default def = (fint 7 : double).
Proof.
  split; [vm_compute; reflexivity|]. split.
  - destruct (proj1 format_parse_roundtrip example_signal) as (toks & def & H1 & H2 & _ & H3 & _);
      [vm_compute; reflexivity|vm_compute; reflexivity|]. exists toks, def. auto.
  - destruct (proj2 format_parse_roundtrip (MkParam "p" (fint 7) 0 (MkLoc 0 0 0)))
      as (toks & def & H1 & H2 & _ & H3 & _); [vm_compute; reflexivity| |].
    + apply integer_printable; vm_compute; reflexivity.
    + exists toks, def. auto.
Defined.
