(* ===== verification/CanonicalFacts.v ===== *)
(** * The canonical form identifies a tree

    The canonical string of a tree determines the tree up to its locations
    and annotations, and can be told apart from whatever follows it: a code
    with self-delimiting words.  The literals must be binary64 values and
    the names words of the language. *)

From S2P Require Import Prelude Errors Arith Ast Lexer Formatter Canonical FormatterFacts.
From Stdlib Require Import Ascii SpecFloat.

(** ** Words in front of a delimiter *)

(** [r] is empty or starts with a character that [p] does not accept. *)
Definition stops (p : ascii -> bool) (r : string) : Prop :=
  match chars r with [] => True | c :: _ => p c = false end.

Lemma app_split (p : ascii -> bool) (a b r s : list ascii) :
  forallb p a = true -> forallb p b = true ->
  match r with [] => True | c :: _ => p c = false end ->
  match s with [] => True | c :: _ => p c = false end ->
  a ++ r = b ++ s -> a = b /\ r = s.
Proof.
  revert b. induction a as [|c a IH]; intros [|d b] Ha Hb Hr Hs He; simpl in *.
  - done.
  - subst r. apply andb_prop in Hb as [Hb _]. congruence.
  - subst s. apply andb_prop in Ha as [Ha _]. congruence.
  - injection He as -> He. split_andb. by destruct (IH b) as [-> ->].
Qed.

Lemma chars_inj a b : chars a = chars b -> a = b.
Proof. intros He. rewrite <- (str_chars a), <- (str_chars b). by rewrite He. Qed.

Lemma chars_of_str l : chars (str l) = l.
Proof. apply String.list_ascii_of_string_of_list_ascii. Qed.

Lemma string_split (p : ascii -> bool) (a b r s : string) :
  forallb p (chars a) = true -> forallb p (chars b) = true -> stops p r -> stops p s ->
  a +:+ r = b +:+ s -> a = b /\ r = s.
Proof.
  intros Ha Hb Hr Hs He. apply (f_equal chars) in He. rewrite !chars_app in He.
  destruct (app_split p _ _ _ _ Ha Hb Hr Hs He) as [E1 E2].
  split; by apply chars_inj.
Qed.

Lemma string_app_cons c (a b : string) : String c a +:+ b = String c (a +:+ b).
Proof. done. Qed.
Lemma string_app_nil (b : string) : "" +:+ b = b.
Proof. done. Qed.

(** Past the characters of a literal string. *)
Ltac peel He := repeat (injection He as He); rewrite ?string_app_nil in He.

(** ** Numbers *)

Definition numeric (c : ascii) : bool := isdigit c || (c =? "-")%char.

Lemma decimal_digits_numeric n : (0 <= n)%Z -> forallb isdigit (decimal_digits n) = true.
Proof.
  intros Hn. unfold decimal_digits. destruct (digits_spec (S (Z.to_nat (Z.log2 n))) n Hn) as (_ & Hall & _);
    [|lia|done].
  rewrite Nat2Z.inj_succ, Z2Nat.id by apply Z.log2_nonneg.
  destruct (decide (n = 0%Z)) as [->|]; [done|]. apply Z.log2_spec. lia.
Qed.

Lemma decimal_digits_inj n m : (0 <= n)%Z -> (0 <= m)%Z -> decimal_digits n = decimal_digits m -> n = m.
Proof.
  intros Hn Hm He. destruct (decimal_digits_spec n Hn) as [_ En], (decimal_digits_spec m Hm) as [_ Em].
  rewrite He in En. congruence.
Qed.

Lemma to_string_numeric z : forallb numeric (chars (to_string z)) = true.
Proof.
  assert (Hd : forall n, (0 <= n)%Z -> forallb numeric (decimal_digits n) = true).
  { intros n Hn. pose proof (decimal_digits_numeric n Hn) as Hall.
    rewrite List.forallb_forall in *. intros c Hc. unfold numeric. by rewrite Hall. }
  unfold to_string, printf_lld. destruct (Z.ltb_spec z 0).
  - rewrite chars_app, forallb_app, chars_of_str. simpl. apply Hd. lia.
  - rewrite chars_of_str. by apply Hd.
Qed.

Lemma to_string_inj z z' : to_string z = to_string z' -> z = z'.
Proof.
  unfold to_string, printf_lld. intros He. apply (f_equal chars) in He.
  destruct (Z.ltb_spec z 0), (Z.ltb_spec z' 0); rewrite ?chars_app, ?chars_of_str in He; simpl in He.
  - injection He as He. apply decimal_digits_inj in He; lia.
  - pose proof (decimal_digits_numeric z' ltac:(lia)) as Hn. by rewrite <- He in Hn.
  - pose proof (decimal_digits_numeric z ltac:(lia)) as Hn. by rewrite He in Hn.
  - by apply decimal_digits_inj in He.
Qed.

Definition hex_value (c : ascii) : Z :=
  let n := Z.of_nat (nat_of_ascii c) in if (n <? 58)%Z then n - 48 else n - 87.
Definition is_hex (c : ascii) : bool := negb (c =? "]")%char.

Lemma hex_char_spec d : (0 <= d < 16)%Z -> hex_value (hex_char d) = d /\ is_hex (hex_char d) = true.
Proof.
  intros Hd. assert (d ∈ [0; 1; 2; 3; 4; 5; 6; 7; 8; 9; 10; 11; 12; 13; 14; 15]%Z) as Hin.
  { rewrite !elem_of_cons. lia. }
  repeat (apply elem_of_cons in Hin as [->|Hin]; [by vm_compute|]). by apply elem_of_nil in Hin.
Qed.

Lemma hex_digits_spec fuel n :
  (0 <= n < 16 ^ Z.of_nat fuel)%Z ->
  foldl (fun acc c => acc * 16 + hex_value c)%Z 0%Z (hex_digits fuel n) = n /\
  forallb is_hex (hex_digits fuel n) = true.
Proof.
  revert n. induction fuel as [|fuel IH]; intros n Hn; [simpl in *; lia|]. cbn [hex_digits].
  destruct (Z.ltb_spec n 16) as [Hs|Hb].
  - destruct (hex_char_spec n ltac:(lia)) as [Hv Hx]. simpl. by rewrite Hv, Hx.
  - assert (Hm : (0 <= n mod 16 < 16)%Z) by (apply Z.mod_pos_bound; lia).
    destruct (hex_char_spec _ Hm) as [Hv Hx].
    assert (Hdiv : (0 <= n / 16 < 16 ^ Z.of_nat fuel)%Z).
    { rewrite Nat2Z.inj_succ, Z.pow_succ_r in Hn by lia. split; [apply Z.div_pos; lia|].
      apply Z.div_lt_upper_bound; lia. }
    destruct (IH _ Hdiv) as [E1 E2]. rewrite foldl_app, E1, forallb_app, E2. simpl. rewrite Hv, Hx.
    split; [|done]. pose proof (Z.div_mod n 16). lia.
Qed.

Lemma printf_llx_inj n m :
  (0 <= n < 2 ^ 64)%Z -> (0 <= m < 2 ^ 64)%Z -> printf_llx n = printf_llx m -> n = m.
Proof.
  intros Hn Hm He. apply (f_equal chars) in He. unfold printf_llx in He. rewrite !chars_of_str in He.
  destruct (hex_digits_spec 16 n ltac:(simpl; lia)) as [En _], (hex_digits_spec 16 m ltac:(simpl; lia)) as [Em _].
  rewrite He in En. congruence.
Qed.

(** ** Literals *)

(** A value of the binary64 format. *)
Definition binary64 (v : double) : bool := valid_binary 53 1024 (double_sf v).

Lemma digits2_pos_size m : digits2_pos m = Pos.size m.
Proof. induction m; simpl; congruence. Qed.

Lemma canonical_finite m e :
  bounded 53 1024 m e = true ->
  (-1074 <= e <= 971)%Z /\ (Zpos m < 2 ^ 53)%Z /\ ((Zpos m < 2 ^ 52)%Z -> e = (-1074)%Z).
Proof.
  unfold bounded, canonical_mantissa, fexp, emin. intros Hb. split_andb.
  rename select (Zeq_bool _ _ = true) into Hc. rename select (_ <=? _ = true)%Z into Hle.
  apply Zeq_bool_eq in Hc. apply Z.leb_le in Hle. rewrite digits2_pos_size in Hc.
  pose proof (Pos.size_gt m) as Hgt. pose proof (Pos.size_le m) as Hge.
  assert (Hgt' : (Zpos m < 2 ^ Zpos (Pos.size m))%Z) by (rewrite <- Pos2Z.inj_pow; lia).
  assert (Hge' : (2 ^ Zpos (Pos.size m) <= 2 * Zpos m)%Z) by (rewrite <- Pos2Z.inj_pow; lia).
  set (d := Zpos (Pos.size m)) in *.
  assert (Hd : (d <= 53)%Z) by lia. split; [lia|]. split.
  - eapply Z.lt_le_trans; [exact Hgt'|]. apply Z.pow_le_mono_r; lia.
  - intros Hm. assert (d <= 52)%Z; [|lia]. destruct (Z.le_gt_cases d 52); [done|].
    assert (d = 53)%Z as E by lia. rewrite E in Hge'. lia.
Qed.

Section canonical.
Variable nan_bits : Z.
(** Some pattern of a NaN: a maximal exponent and a mantissa that is not 0. *)
Hypothesis nan_bits_nan :
  (0 <= nan_bits < 2 ^ 64)%Z /\ (2047 * 2 ^ 52 < nan_bits mod 2 ^ 63)%Z.

(** The magnitude of a value, below the sign bit. *)
Definition magnitude (v : double) : Z :=
  match double_sf v with
  | S754_zero _ => 0
  | S754_infinity _ => 2047 * 2 ^ 52
  | S754_nan => nan_bits mod 2 ^ 63
  | S754_finite _ m e =>
      if (Zpos m <? 2 ^ 52)%Z then Zpos m else (e + 1075) * 2 ^ 52 + (Zpos m - 2 ^ 52)
  end.
Definition negative (v : double) : bool :=
  match double_sf v with
  | S754_zero s | S754_infinity s | S754_finite s _ _ => s
  | S754_nan => (2 ^ 63 <=? nan_bits)%Z
  end.

Lemma magnitude_range v : binary64 v = true -> (0 <= magnitude v < 2 ^ 63)%Z.
Proof.
  unfold binary64, magnitude. destruct (double_sf v) as [s|s| |s m e]; simpl valid_binary; intros Hv; try lia.
  - apply Z.mod_pos_bound. lia.
  - destruct (canonical_finite _ _ Hv) as (He & Hm & _). destruct (Z.ltb_spec (Zpos m) (2 ^ 52)); lia.
Qed.

Lemma double_bits_split v :
  double_bits nan_bits v = ((if negative v then 2 ^ 63 else 0) + magnitude v)%Z.
Proof.
  unfold double_bits, negative, magnitude. destruct (double_sf v) as [s|s| |s m e]; try lia.
  - pose proof (Z.div_mod nan_bits (2 ^ 63) ltac:(lia)) as Hd.
    destruct nan_bits_nan as [Hr _]. destruct (Z.leb_spec (2 ^ 63) nan_bits).
    + assert (nan_bits / 2 ^ 63 = 1)%Z; [|lia]. symmetry. apply (Z.div_unique _ _ _ (nan_bits - 2 ^ 63)); lia.
    + rewrite Z.mod_small by lia. lia.
  - destruct (Z.ltb_spec (Zpos m) (2 ^ 52)); lia.
Qed.

Lemma magnitude_inj v w :
  binary64 v = true -> binary64 w = true -> negative v = negative w -> magnitude v = magnitude w -> v = w.
Proof.
  destruct nan_bits_nan as [_ Hnan]. destruct v as [v], w as [w].
  unfold binary64, negative, magnitude. cbn [double_sf].
  destruct v as [s|s| |s m e], w as [s'|s'| |s' m' e']; simpl valid_binary; intros Hv Hw Hs Hm;
    try (apply canonical_finite in Hv as (? & ? & ?)); try (apply canonical_finite in Hw as (? & ? & ?));
    repeat match goal with H : context [(?a <? ?b)%Z] |- _ => destruct (Z.ltb_spec a b) end;
    subst; try reflexivity; try lia.
  - assert (e = e') by lia. f_equal. f_equal; lia.
  - assert (e = e') by nia. f_equal. f_equal; lia.
Qed.

Lemma double_bits_inj v w :
  binary64 v = true -> binary64 w = true -> double_bits nan_bits v = double_bits nan_bits w -> v = w.
Proof.
  intros Hv Hw. rewrite !double_bits_split.
  pose proof (magnitude_range v Hv). pose proof (magnitude_range w Hw).
  intros He. destruct (negative v) eqn:Nv, (negative w) eqn:Nw; try lia;
    apply magnitude_inj; try done; try congruence; lia.
Qed.

(** ** The decimal part of a literal *)

(** The characters of a number that [printf] prints. *)
Definition number_char (c : ascii) : bool :=
  isdigit c || existsb (Ascii.eqb c) ["."%char; "e"%char; "+"%char; "-"%char; "i"%char; "n"%char; "f"%char; "a"%char].

Lemma digit_char_number_char d : (d < 10)%Z -> number_char (digit_char d) = true.
Proof.
  intros Hd. unfold digit_char. assert (Z.to_nat d < 10) as Hn by lia.
  revert Hn. generalize (Z.to_nat d). intros n Hn.
  do 10 (destruct n as [|n]; [reflexivity|]). lia.
Qed.

Lemma digits_number_char fuel n : Forall (fun c => number_char c = true) (digits fuel n).
Proof.
  revert n. induction fuel as [|fuel IH]; intros n; simpl; [done|].
  destruct (Z.ltb_spec n 10).
  - constructor; [by apply digit_char_number_char|done].
  - apply Forall_app. split; [apply IH|]. constructor; [|done].
    apply digit_char_number_char. pose proof (Z.mod_pos_bound n 10). lia.
Qed.

Lemma strip_zeros_Forall (P : ascii -> Prop) cs : Forall P cs -> Forall P (strip_zeros cs).
Proof.
  induction 1 as [|c cs Hc HF IH]; simpl; [done|]. destruct (strip_zeros cs); [|by constructor].
  destruct (c =? "0")%char; [done|by constructor].
Qed.

Lemma with_fraction_number_char a b :
  Forall (fun c => number_char c = true) a -> Forall (fun c => number_char c = true) b ->
  Forall (fun c => number_char c = true) (with_fraction a b).
Proof.
  intros Ha Hb%strip_zeros_Forall. unfold with_fraction. destruct (strip_zeros b); [done|].
  apply Forall_app. split; [done|]. by constructor.
Qed.

Lemma printf_g_number prec v : forallb number_char (chars (printf_g prec v)) = true.
Proof.
  assert (Hpos : forall m e, Forall (fun c => number_char c = true) (printf_g_pos prec m e)).
  { intros m e. unfold printf_g_pos. destruct (if (0 <=? e)%Z then _ else _) as [num den].
    destruct (decimal_exponent _ _ _ _) as [[num' den'] x]. destruct (if (_ =? _)%Z then _ else _) as [q x'].
    set (ds := decimal_digits q). assert (Hds : Forall (fun c => number_char c = true) ds) by apply digits_number_char.
    destruct (_ || _); [|destruct (x' <? 0)%Z].
    - apply Forall_app. split; [apply with_fraction_number_char; [by apply Forall_take|by apply Forall_drop]|].
      constructor; [done|]. constructor; [by destruct (x' <? 0)%Z|].
      assert (Hex : Forall (fun c => number_char c = true) (decimal_digits (Z.abs x'))) by apply digits_number_char.
      destruct (_ <? 2); [by constructor|done].
    - apply with_fraction_number_char; [by constructor|]. apply Forall_app. split; [by apply Forall_replicate|done].
    - apply with_fraction_number_char; [by apply Forall_take|by apply Forall_drop]. }
  assert (Hl : forall l, Forall (fun c => number_char c = true) l -> forallb number_char l = true).
  { intros l HF. induction HF as [|c l Hc HF IH]; [done|]. simpl. by rewrite Hc. }
  unfold printf_g. destruct (double_sf v) as [s|s| |s m e]; try (by destruct s); [done|].
  rewrite chars_app, forallb_app, chars_of_str, (Hl _ (Hpos m e)). by destruct s.
Qed.

Lemma double_bits_range v : binary64 v = true -> (0 <= double_bits nan_bits v < 2 ^ 64)%Z.
Proof.
  intros Hv. rewrite double_bits_split. pose proof (magnitude_range v Hv). destruct (negative v); lia.
Qed.

Lemma printf_llx_hex v : binary64 v = true -> forallb is_hex (chars (printf_llx (double_bits nan_bits v))) = true.
Proof.
  intros Hv. unfold printf_llx. rewrite chars_of_str. apply hex_digits_spec.
  pose proof (double_bits_range v Hv). simpl. lia.
Qed.

Lemma CanonicalDouble_inj v w r s :
  binary64 v = true -> binary64 w = true ->
  CanonicalDouble nan_bits v +:+ r = CanonicalDouble nan_bits w +:+ s -> v = w /\ r = s.
Proof.
  intros Hv Hw He. unfold CanonicalDouble in He. rewrite !string_app_assoc in He.
  apply (string_split number_char) in He as [_ He]; [|apply printf_g_number..|done|done].
  injection He as He. rewrite !string_app_nil in He.
  apply (string_split is_hex) in He as [Hb He]; [|by apply printf_llx_hex..|done|done].
  injection He as He. split; [|done].
  apply double_bits_inj; [done|done|]. apply printf_llx_inj; [by apply double_bits_range..|done].
Qed.

(** ** Trees *)

(** The names are words of the language and the literals binary64 values. *)
Definition word (n : string) : bool := forallb is_ident_char (chars n).
Fixpoint canonical_ok (e : Expr double) : bool :=
  match e with
  | NumberLiteral _ v => binary64 v
  | IdentifierExpr _ n | ParameterExpr _ n _ => word n
  | UnaryOp _ _ x => canonical_ok x
  | BinaryOp _ _ l r => canonical_ok l && canonical_ok r
  | Conditional _ c t f => canonical_ok c && canonical_ok t && canonical_ok f
  | FunctionCall _ n args _ _ => word n && forallb canonical_ok args
  end.

Lemma word_split n m r s :
  word n = true -> word m = true -> stops is_ident_char r -> stops is_ident_char s ->
  n +:+ r = m +:+ s -> n = m /\ r = s.
Proof. apply string_split. Qed.

Lemma number_split z z' r s :
  stops numeric r -> stops numeric s -> to_string z +:+ r = to_string z' +:+ s -> z = z' /\ r = s.
Proof.
  intros Hr Hs He. apply (string_split numeric) in He as [Hz ->]; [|apply to_string_numeric..|done|done].
  split; [by apply to_string_inj|done].
Qed.

Definition prefix_code (e : Expr double) : Prop := forall e' r s,
  canonical_ok e = true -> canonical_ok e' = true ->
  CanonicalAppend nan_bits e +:+ r = CanonicalAppend nan_bits e' +:+ s -> erase e = erase e' /\ r = s.

Definition canonical_args (args : list (Expr double)) : string :=
  foldr (fun a rest => "," +:+ CanonicalAppend nan_bits a +:+ rest) ")" args.

Lemma canonical_args_inj args args' r s :
  Forall prefix_code args -> length args = length args' ->
  forallb canonical_ok args = true -> forallb canonical_ok args' = true ->
  canonical_args args +:+ r = canonical_args args' +:+ s -> map erase args = map erase args' /\ r = s.
Proof.
  intros HF. revert args'. induction HF as [|a args Ha HF IH]; intros [|a' args'] Hlen Hok Hok' He; try done.
  - peel He. by subst.
  - cbn [forallb] in Hok, Hok'. apply andb_prop in Hok as [Hoa Hok]. apply andb_prop in Hok' as [Hoa' Hok'].
    cbn [canonical_args foldr] in He. rewrite !string_app_cons, !string_app_nil in He. injection He as He.
    rewrite !string_app_assoc in He. apply Ha in He as [E1 He]; [|done..].
    destruct (IH args') as [E2 ->]; [by injection Hlen|done..|]. simpl. by rewrite E1, E2.
Qed.

Lemma CanonicalAppend_prefix e : prefix_code e.
Proof.
  induction e as [loc v|loc n|loc n i|loc k x IH|loc k l x IHl IHr|loc n args i sym IH|loc c t f IHc IHt IHf]
    using Expr_rect'; intros e' r s Hok Hok' He;
    destruct e' as [loc' v'|loc' n'|loc' n' i'|loc' k' x'|loc' k' l' x'|loc' n' args' i' sym'|loc' c' t' f'];
    cbn [CanonicalAppend] in He; rewrite ?string_app_assoc in He; try discriminate He;
    peel He; cbn [canonical_ok] in Hok, Hok'; split_andb.
  - apply CanonicalDouble_inj in He as [-> He]; [|done..]. peel He. by subst.
  - apply word_split in He as [-> He]; [|done..]. peel He. by subst.
  - apply word_split in He as [-> He]; [|done..]. peel He.
    apply number_split in He as [-> He]; [|done..]. peel He. by subst.
  - apply number_split in He as [Hk He]; [|done..]. peel He.
    apply IH in He as [Hx He]; [|done..]. peel He. subst. simpl. rewrite Hx.
    split; [|done]. by destruct k, k'.
  - apply number_split in He as [Hk He]; [|done..]. peel He.
    apply IHl in He as [Hl He]; [|done..]. peel He.
    apply IHr in He as [Hx He]; [|done..]. peel He. subst. simpl. rewrite Hl, Hx.
    split; [|done]. by destruct k, k'.
  - apply word_split in He as [-> He]; [|done..]. peel He.
    apply number_split in He as [Hlen He].
    + apply canonical_args_inj in He as [Hargs ->]; [|done|lia|done..]. simpl. by rewrite Hargs.
    + by destruct args.
    + by destruct args'.
  - apply IHc in He as [Hc He]; [|done..]. peel He.
    apply IHt in He as [Ht He]; [|done..]. peel He.
    apply IHf in He as [Hf He]; [|done..]. peel He. subst. simpl. by rewrite Hc, Ht, Hf.
Qed.
End canonical.
