(* ===== verification/AstPrinterFacts.v ===== *)
(** * A dump of the syntax tree identifies the tree

    Up to the locations and annotations, which are not printed, and the
    digits of literals beyond the sixth: the indentation tells which lines
    are the children of which, also for calls, whose arity is not printed. *)

From S2P Require Import Prelude Errors Arith Ast Lexer Formatter FormatterFacts Canonical CanonicalFacts AstPrinter.
From Stdlib Require Import Ascii.

(** What is printed of a tree. *)
Fixpoint dumped (e : Expr double) : Expr string :=
  match e with
  | NumberLiteral _ v => NumberLiteral noloc (ostream_double v)
  | IdentifierExpr _ n => IdentifierExpr noloc n
  | ParameterExpr _ n i => ParameterExpr noloc n i
  | UnaryOp _ k x => UnaryOp noloc k (dumped x)
  | BinaryOp _ k l r => BinaryOp noloc k (dumped l) (dumped r)
  | FunctionCall _ n args _ _ => FunctionCall noloc n (map dumped args) (-1) (-1)
  | Conditional _ c t f => Conditional noloc (dumped c) (dumped t) (dumped f)
  end.

(** The names are words of the language. *)
Fixpoint word_names (e : Expr double) : bool :=
  match e with
  | NumberLiteral _ _ => true
  | IdentifierExpr _ n | ParameterExpr _ n _ => word n
  | UnaryOp _ _ x => word_names x
  | BinaryOp _ _ l r => word_names l && word_names r
  | FunctionCall _ n args _ _ => word n && forallb word_names args
  | Conditional _ c t f => word_names c && word_names t && word_names f
  end.

(** The indentation of the first line. *)
Fixpoint spaces (s : string) : nat :=
  match s with String c s' => if (c =? " ")%char then S (spaces s') else 0 | EmptyString => 0 end.

Lemma spaces_Indent n s : spaces (Indent n +:+ s) = 2 * n + spaces s.
Proof.
  induction n as [|n IH]; [by rewrite string_app_nil|]. cbn [Indent]. rewrite string_app_assoc.
  change (S (S (spaces (Indent n +:+ s))) = 2 * S n + spaces s). rewrite IH. lia.
Qed.

Lemma spaces_PrintNode n e r : spaces (PrintNode n e +:+ r) = 2 * n.
Proof. destruct e; cbn [PrintNode]; rewrite string_app_assoc, spaces_Indent; exact (Nat.add_0_r _). Qed.

Lemma string_app_inv (p a b : string) : p +:+ a = p +:+ b -> a = b.
Proof.
  intros He. apply (f_equal chars) in He. rewrite !chars_app in He. apply app_inv_head in He.
  by apply chars_inj.
Qed.

Lemma BinaryOpName_word k : word (BinaryOpName k) = true.
Proof. by destruct k. Qed.
Lemma UnaryOpName_word k : word (UnaryOpName k) = true.
Proof. by destruct k. Qed.
Lemma BinaryOpName_inj k k' : BinaryOpName k = BinaryOpName k' -> k = k'.
Proof. by destruct k, k'. Qed.
Lemma UnaryOpName_inj k k' : UnaryOpName k = UnaryOpName k' -> k = k'.
Proof. by destruct k, k'. Qed.

Definition determines (e : Expr double) : Prop := forall e' n r s,
  word_names e = true -> word_names e' = true -> spaces r <= 2 * n -> spaces s <= 2 * n ->
  PrintNode n e +:+ r = PrintNode n e' +:+ s -> dumped e = dumped e' /\ r = s.

Notation print_args n l := (foldr (fun a rest => PrintNode (S n) a +:+ rest) "" l).

Lemma determines_args args : Forall determines args -> forall args' n r s,
  forallb word_names args = true -> forallb word_names args' = true -> spaces r <= 2 * n -> spaces s <= 2 * n ->
  print_args n args +:+ r = print_args n args' +:+ s -> map dumped args = map dumped args' /\ r = s.
Proof.
  induction 1 as [|a l Ha HF IH]; intros [|a' l'] n r s Hw Hw' Hr Hs He; simpl in *.
  - done.
  - exfalso. rewrite string_app_nil, string_app_assoc in He. subst r. rewrite spaces_PrintNode in Hr. lia.
  - exfalso. rewrite string_app_nil, string_app_assoc in He. subst s. rewrite spaces_PrintNode in Hs. lia.
  - split_andb. rewrite !string_app_assoc in He.
    assert (Hrest : forall l t, spaces t <= 2 * n -> spaces (print_args n l +:+ t) <= 2 * S n).
    { intros [|b m] t Ht; simpl; [rewrite string_app_nil; lia|]. rewrite string_app_assoc, spaces_PrintNode. lia. }
    apply Ha in He as [E1 He]; [|by auto..]. apply IH in He as [E2 He]; [|done..]. by rewrite E1, E2.
Qed.

Ltac open_line :=
  match goal with He : _ = _ |- _ =>
    cbn [PrintNode] in He; rewrite !string_app_assoc in He; apply string_app_inv in He end.
Ltac split_word He p H1 :=
  rewrite ?string_app_assoc in He; apply (string_split p) in He as [H1 He]; [|try done..].

Lemma PrintNode_determines e : determines e.
Proof.
  induction e using Expr_rect'; intros e' m r s' Hw Hw' Hr Hs He; destruct e'; open_line; try discriminate He;
    cbn [word_names dumped] in *; split_andb.
  - peel He. split_word He number_char E; try apply printf_g_number. peel He. by rewrite E.
  - peel He. split_word He is_ident_char E. peel He. by subst.
  - peel He. split_word He is_ident_char E. peel He. split_word He numeric E2; try apply to_string_numeric.
    apply to_string_inj in E2. peel He. by subst.
  - peel He. split_word He is_ident_char E; try apply UnaryOpName_word. apply UnaryOpName_inj in E as ->. peel He.
    apply IHe in He as [-> ->]; [done..|lia|lia].
  - peel He. split_word He is_ident_char E; try apply BinaryOpName_word. apply BinaryOpName_inj in E as ->. peel He.
    apply IHe1 in He as [-> He]; [|done..|rewrite spaces_PrintNode; lia|rewrite spaces_PrintNode; lia].
    apply IHe2 in He as [-> ->]; [done..|lia|lia].
  - peel He. split_word He is_ident_char E. peel He. subst.
    apply determines_args in He as [-> ->]; done.
  - peel He. apply IHe1 in He as [-> He]; [|done..|rewrite spaces_PrintNode; lia|rewrite spaces_PrintNode; lia].
    apply IHe2 in He as [-> He]; [|done..|rewrite spaces_PrintNode; lia|rewrite spaces_PrintNode; lia].
    apply IHe3 in He as [-> ->]; [done..|lia|lia].
Qed.

(** Two trees are dumped alike exactly if what is printed of them is the
    same. *)
Lemma dumped_PrintNode e : forall e' n, dumped e = dumped e' -> PrintNode n e = PrintNode n e'.
Proof.
  induction e using Expr_rect'; intros e' m He; destruct e'; try discriminate He; cbn [dumped] in He; cbn [PrintNode].
  - by injection He as ->.
  - by injection He as ->.
  - by injection He as -> ->.
  - injection He as -> He. by rewrite (IHe _ _ He).
  - injection He as -> H1 H2. by rewrite (IHe1 _ _ H1), (IHe2 _ _ H2).
  - injection He as -> He. rename select (Forall _ _) into HF. rename args0 into args'.
    assert (E : print_args m args = print_args m args'); [|by rewrite E].
    revert args' He. induction HF as [|a l Ha HF IH]; intros [|a' l'] He; try done.
    injection He as H1 H2. simpl. by rewrite (Ha _ _ H1), (IH _ H2).
  - injection He as H1 H2 H3. by rewrite (IHe1 _ _ H1), (IHe2 _ _ H2), (IHe3 _ _ H3).
Qed.

(** A dump of the syntax tree identifies it, up to locations and
    annotations, which are not printed, and the digits of literals beyond
    the sixth, if the names are words of the language. *)
Theorem Print_identifies e e' :
  word_names e = true -> word_names e' = true -> (Print e = Print e' <-> dumped e = dumped e').
Proof.
  intros Hw Hw'. split; [|by apply dumped_PrintNode]. intros He.
  apply (PrintNode_determines e e' 0 "" ""); try done. unfold Print in He. by rewrite He.
Qed.

Lemma Print_identifies_witness :
  Print (UnaryOp noloc Minus (NumberLiteral noloc (fint 1))) <>
  Print (BinaryOp noloc Sub (NumberLiteral noloc (fint 0)) (NumberLiteral noloc (fint 1))).
Proof. rewrite Print_identifies by reflexivity. discriminate. Defined.
