(* ===== verification/ModuleCacheFacts.v ===== *)
(** * The module cache is transparent; the two tiers

    Keys, file names and paths identify what they are made of.  A compiler
    that shares a cache directory with others gives every request the code a
    compile without the cache would give, as long as the hash separates the
    keys and programs with one text are one program; without the last
    condition it does not.  The tiered wrapper is a machine with three
    states. *)

From S2P Require Import Prelude Errors Arith Ast SymbolTable Rolling Context Interpreter Lexer Formatter Canonical Lowered Ir JitCompiler SignalProgram FormatterFacts CanonicalFacts JitFacts ModuleCache.
From Stdlib Require Import Ascii SpecFloat.

(** ** Names *)

Lemma hex_digits_length fuel n : length (hex_digits fuel n) <= fuel.
Proof.
  revert n. induction fuel as [|fuel IH]; intros n; cbn [hex_digits]; [done|].
  destruct (n <? 16)%Z; [simpl; lia|]. rewrite length_app. specialize (IH (n / 16)%Z). simpl. lia.
Qed.

Lemma HexU64_length v : length (chars (HexU64 v)) = 16.
Proof.
  unfold HexU64, printf_016llx. rewrite chars_of_str, length_app, length_replicate.
  pose proof (hex_digits_length 16 v). lia.
Qed.

Lemma HexU64_inj v w :
  (0 <= v < 2 ^ 64)%Z -> (0 <= w < 2 ^ 64)%Z -> HexU64 v = HexU64 w -> v = w.
Proof.
  assert (Hz : forall k l, foldl (fun acc c => acc * 16 + hex_value c)%Z 0%Z (replicate k "0"%char ++ l) =
                     foldl (fun acc c => acc * 16 + hex_value c)%Z 0%Z l)
    by (intros k l; by induction k).
  assert (Hv : forall x, (0 <= x < 2 ^ 64)%Z ->
            foldl (fun acc c => acc * 16 + hex_value c)%Z 0%Z (chars (HexU64 x)) = x).
  { intros x Hx. unfold HexU64, printf_016llx. rewrite chars_of_str, Hz.
    by apply hex_digits_spec; simpl; lia. }
  intros Hv1 Hw1 He. rewrite <- (Hv v Hv1), <- (Hv w Hw1). by rewrite He.
Qed.

Lemma chars_app_inj a b r s :
  length (chars a) = length (chars b) -> a +:+ r = b +:+ s -> a = b /\ r = s.
Proof.
  intros Hl He. apply (f_equal chars) in He. rewrite !chars_app in He.
  apply app_inj_1 in He as [E1 E2]; [|done]. split; by apply chars_inj.
Qed.

Lemma Fnv1aU64_range s : (0 <= Fnv1aU64 s < 2 ^ 64)%Z.
Proof.
  unfold Fnv1aU64. assert (H0 : (0 <= kOffset < 2 ^ 64)%Z) by (vm_compute; split; congruence).
  revert H0. generalize kOffset. induction (chars s) as [|c l IH]; intros h Hh; simpl; [done|].
  apply IH. unfold fnv1a_step, u64. by apply Z.mod_pos_bound.
Qed.

Lemma CacheFileNameForKey_inj h h' w w' :
  (0 <= h < 2 ^ 64)%Z -> (0 <= h' < 2 ^ 64)%Z ->
  CacheFileNameForKey h (variant_name w) = CacheFileNameForKey h' (variant_name w') -> h = h' /\ w = w'.
Proof.
  intros Hh Hh' He. unfold CacheFileNameForKey in He.
  apply chars_app_inj in He as [E1 E2]; [|by rewrite !HexU64_length].
  split; [by apply HexU64_inj|]. by destruct w, w'.
Qed.

(** No separator in a file name. *)
Definition no_slash (c : ascii) : bool := negb (c =? "/")%char.

Lemma path_append_split dir name :
  exists l, chars (path_append dir name) = l ++ chars name /\ (l = [] \/ exists l', l = l' ++ ["/"%char]).
Proof.
  unfold path_append. destruct (reverse (chars dir)) as [|c l] eqn:E.
  - exists (chars dir). rewrite chars_app. split; [done|left].
    apply (f_equal reverse) in E. by rewrite reverse_involutive in E.
  - assert (Hd : chars dir = reverse l ++ [c]).
    { apply (f_equal reverse) in E. by rewrite reverse_involutive, reverse_cons in E. }
    destruct (ascii_dec c "/") as [->|Hne].
    + exists (chars dir). rewrite chars_app. split; [done|right]. by exists (reverse l).
    + assert (Hp : path_append dir name = dir +:+ "/" +:+ name).
      { unfold path_append. rewrite E. by destruct c as [[] [] [] [] [] [] [] []]. }
      exists (chars dir ++ ["/"%char]). split; [|right; by exists (chars dir)].
      unfold path_append in Hp. rewrite E in Hp. rewrite Hp, chars_app, <- app_assoc. done.
Qed.

Lemma path_append_inj dir dir' name name' :
  forallb no_slash (chars name) = true -> forallb no_slash (chars name') = true ->
  path_append dir name = path_append dir' name' -> name = name'.
Proof.
  intros Hn Hn' He. destruct (path_append_split dir name) as (l & E1 & Hl), (path_append_split dir' name') as (l' & E2 & Hl').
  rewrite He, E2 in E1. apply (f_equal reverse) in E1. rewrite !reverse_app in E1.
  assert (Hstop : forall k, (k = [] \/ exists k', k = k' ++ ["/"%char]) ->
            match reverse k with [] => True | c :: _ => no_slash c = false end).
  { intros k [->|[k' ->]]; [done|]. by rewrite reverse_app. }
  assert (Hrev : forall k, forallb no_slash k = true -> forallb no_slash (reverse k) = true).
  { intros k Hk. rewrite forallb_forall in Hk |- *. intros x Hx. apply Hk.
    unfold reverse in Hx. rewrite <- rev_alt in Hx. by apply in_rev in Hx. }
  apply (app_split no_slash) in E1 as [E _]; [|by apply Hrev..|by apply Hstop|by apply Hstop].
  apply (f_equal reverse) in E. rewrite !reverse_involutive in E. symmetry. by apply chars_inj.
Qed.

Lemma hex_char_no_slash d : (d < 16)%Z -> no_slash (hex_char d) = true.
Proof.
  intros Hd. destruct (Z.ltb_spec d 0) as [Hn|Hn].
  - unfold hex_char. destruct (Z.ltb_spec d 10); [|lia]. unfold digit_char.
    by replace (Z.to_nat d) with 0 by lia.
  - assert (d ∈ [0; 1; 2; 3; 4; 5; 6; 7; 8; 9; 10; 11; 12; 13; 14; 15]%Z) as Hin.
    { rewrite !elem_of_cons. lia. }
    repeat (apply elem_of_cons in Hin as [->|Hin]; [by vm_compute|]). by apply elem_of_nil in Hin.
Qed.

Lemma hex_digits_no_slash fuel n : forallb no_slash (hex_digits fuel n) = true.
Proof.
  revert n. induction fuel as [|fuel IH]; intros n; [done|]. cbn [hex_digits].
  destruct (Z.ltb_spec n 16) as [Hs|Hs].
  - simpl. by rewrite hex_char_no_slash.
  - rewrite forallb_app, IH. simpl. rewrite hex_char_no_slash; [done|].
    by apply Z.mod_pos_bound.
Qed.

Lemma CacheFileNameForKey_no_slash h w :
  forallb no_slash (chars (CacheFileNameForKey h (variant_name w))) = true.
Proof.
  unfold CacheFileNameForKey, HexU64, printf_016llx. rewrite !chars_app, chars_of_str, !forallb_app.
  rewrite hex_digits_no_slash. replace (forallb no_slash (replicate _ "0"%char)) with true.
  - by destruct w.
  - symmetry. generalize (16 - length (hex_digits 16 h)). by induction n.
Qed.

(** The file of a module, and its name in the session. *)
Definition cache_path dir h w : string := path_append dir (CacheFileNameForKey h (variant_name w)).
Definition symbol_name w h : string := program_prefix w +:+ HexU64 h.

Lemma cache_path_inj dir dir' h h' w w' :
  (0 <= h < 2 ^ 64)%Z -> (0 <= h' < 2 ^ 64)%Z ->
  cache_path dir h w = cache_path dir' h' w' -> h = h' /\ w = w'.
Proof.
  intros Hh Hh' He. apply path_append_inj in He; [|apply CacheFileNameForKey_no_slash..].
  by apply CacheFileNameForKey_inj.
Qed.

Lemma last_char a b : last (chars (a +:+ b)) = match last (chars b) with Some c => Some c | None => last (chars a) end.
Proof. by rewrite chars_app, last_app. Qed.

(** A temporary file is not a cache file. *)
Lemma cache_path_not_tmp dir dir' h h' w w' : cache_path dir h w +:+ ".tmp" <> cache_path dir' h' w'.
Proof.
  intros He. apply (f_equal (fun s => last (chars s))) in He. rewrite last_char in He.
  destruct (path_append_split dir' (CacheFileNameForKey h' (variant_name w'))) as (l & E & _).
  unfold cache_path in He. rewrite E, last_app in He. unfold CacheFileNameForKey in He.
  rewrite !last_char in He. simpl in He. discriminate He.
Qed.

Lemma symbol_name_inj h h' w w' :
  (0 <= h < 2 ^ 64)%Z -> (0 <= h' < 2 ^ 64)%Z -> symbol_name w h = symbol_name w' h' -> h = h' /\ w = w'.
Proof.
  intros Hh Hh' He. destruct w, w'; try discriminate He.
  all: apply chars_app_inj in He as [_ He]; [|done]; split; [by apply HexU64_inj|done].
Qed.

(** The names of functions that are numbered. *)
Inductive counted : Z -> string -> Prop :=
| counted_signal n : counted n ("signal_func_" +:+ to_string n)
| counted_program w n : counted n (program_prefix w +:+ to_string n).

Lemma digits_length fuel n m :
  0 < m -> (n < 10 ^ Z.of_nat m)%Z -> length (digits fuel n) <= m.
Proof.
  revert n m. induction fuel as [|fuel IH]; intros n m Hm Hn; cbn [digits]; [simpl; lia|].
  destruct (Z.ltb_spec n 10) as [|Hb]; [simpl; lia|]. destruct m as [|[|m]]; [lia|simpl in Hn; lia|].
  assert (Hd : (n / 10 < 10 ^ Z.of_nat (S m))%Z).
  { rewrite Nat2Z.inj_succ, Z.pow_succ_r in Hn by lia. apply Z.div_lt_upper_bound; lia. }
  specialize (IH _ (S m) ltac:(lia) Hd). rewrite length_app. simpl in *. lia.
Qed.

Lemma to_string_short n : (0 <= n < 10 ^ 15)%Z -> length (chars (to_string n)) < 16.
Proof.
  intros Hn. unfold to_string, printf_lld. destruct (Z.ltb_spec n 0); [lia|]. rewrite chars_of_str.
  unfold decimal_digits. pose proof (digits_length (S (Z.to_nat (Z.log2 n))) n 15). simpl Z.of_nat in *. lia.
Qed.

Lemma counted_not_hashed n name w h : (0 <= n < 10 ^ 15)%Z -> counted n name -> name <> symbol_name w h.
Proof.
  intros Hn Hc He. pose proof (to_string_short n Hn) as Hs.
  destruct Hc as [n|w' n]; [by destruct w|].
  destruct w', w; try discriminate He.
  all: apply chars_app_inj in He as [_ He]; [|done].
  all: rewrite He, HexU64_length in Hs; lia.
Qed.

Lemma counted_inj n n' name : (0 <= n)%Z -> (0 <= n')%Z -> counted n name -> counted n' name -> n = n'.
Proof.
  intros Hn Hn' Hc Hc'. destruct Hc as [n|w n]; inversion Hc' as [m E1 E2|v m E1 E2]; subst.
  - apply chars_app_inj in E2 as [_ E]; [|done]. by apply to_string_inj.
  - by destruct v.
  - by destruct w.
  - destruct v, w; try discriminate E2. all: apply chars_app_inj in E2 as [_ E]; [|done]; by apply to_string_inj.
Qed.

(** ** Keys *)

Section key.
Context `{Platform}.
Hypothesis nan_bits_nan :
  (0 <= nan_bits < 2 ^ 64)%Z /\ (2047 * 2 ^ 52 < nan_bits mod 2 ^ 63)%Z.

Definition signal_ok (s : SignalDef double) : bool := word (sig_name s) && canonical_ok (sig_body s).

(** What the text of a program says of it. *)
Definition program_text (signals : list (SignalDef double)) : list (string * Expr double) :=
  map (fun s => (sig_name s, erase (sig_body s))) signals.

Definition key_tail (signals : list (SignalDef double)) : string :=
  foldr (fun s rest =>
    ";sig=" +:+ sig_name s +:+ "=" +:+ AstCanonicalString nan_bits (sig_body s) +:+ rest) "" signals.

Lemma key_tail_inj signals signals' :
  forallb signal_ok signals = true -> forallb signal_ok signals' = true ->
  key_tail signals = key_tail signals' -> program_text signals = program_text signals'.
Proof.
  revert signals'. induction signals as [|s rest IH]; intros [|s' rest'] Hok Hok' He; try done.
  simpl in Hok, Hok'. unfold signal_ok in Hok, Hok'. split_andb. simpl in He. peel He.
  apply word_split in He as [Hn He]; [|done..]. peel He.
  apply CanonicalAppend_prefix in He as [Hb He]; [|done..].
  simpl. by rewrite Hn, Hb, (IH rest').
Qed.

(** The key of the module cache identifies what it is made of: requests
    with one key have the same lowering flags, warm bit, AVX2 bit and lane
    count, and their programs have the same names and, up to locations and
    the annotations of later phases, the same trees, in the same order. *)
Lemma BuildCacheKeyString_inj signals signals' lowering lowering' warm warm' avx2 avx2' lanes lanes' :
  forallb signal_ok signals = true -> forallb signal_ok signals' = true ->
  BuildCacheKeyString signals lowering warm avx2 lanes =
    BuildCacheKeyString signals' lowering' warm' avx2' lanes' ->
  lowering = lowering' /\ warm = warm' /\ avx2 = avx2' /\ lanes = lanes' /\
  program_text signals = program_text signals'.
Proof.
  intros Hok Hok' He. unfold BuildCacheKeyString in He. peel He.
  apply number_split in He as [_ He]; [|done..]. peel He.
  apply number_split in He as [Hl He]; [|done..]. peel He.
  apply chars_app_inj in He as [Hw He]; [|by destruct warm, warm']. peel He.
  apply chars_app_inj in He as [Ha He]; [|by destruct avx2, avx2']. peel He.
  apply number_split in He as [Hn He]; [|by destruct signals|by destruct signals'].
  split_and!; [lia|by destruct warm, warm'|by destruct avx2, avx2'|done|].
  by apply key_tail_inj.
Qed.
End key.

(** ** Compilers that share a file system *)

(** What the proofs rely on of LLVM and the file system: bitcode is read back
    as it was written, and a write without an error leaves what was written. *)
Class PlatformLaws `{Platform} : Prop := {
  nan_bits_nan : (0 <= nan_bits < 2 ^ 64)%Z /\ (2047 * 2 ^ 52 < nan_bits mod 2 ^ 63)%Z;
  bitcode_roundtrip m : parseBitcodeFile (WriteBitcodeToFile m) = Some m;
  write_file_good path f f' : write_file path f = (f', true) -> f' = f;
}.

Section system.
Context {L : Type} `{Machine double L} `{Platform}.

(** What can be asked of the compilers, known by numbers, of one or several
    processes, [disable] being the environment at the time; [EProgram] is [CompileProgram] or, with [true],
    [CompileProgramSpecialized] with a warm profile. *)
Inductive Event :=
| ENew (c : nat) (env : option string)
| EEnable (c : nat) (dir : string)
| EDisable (c : nat)
| ELowering (c : nat) (flags : N)
| ECompile (c : nat) (disable : option string) (signal : SignalDef double) (symbols : SymbolTable)
| EProgram (c : nat) (disable : option string) (signals : list (SignalDef double)) (symbols : SymbolTable) (assume_warm : bool).

Record System := MkSystem { compilers : gmap nat JitImpl; disk : Disk }.

(** The answer to a compile: the returned flag and the function pointer. *)
Definition Answer : Type := bool * option (Code double).

Definition run_event (e : Event) (s : System) : Res (list Answer * System) :=
  let on c f := Ok ([], MkSystem (alter f c (compilers s)) (disk s)) in
  match e with
  | ENew c env => Ok ([], MkSystem (<[c := JitCompiler_init env]> (compilers s)) (disk s))
  | EEnable c dir => on c (EnableModuleCache dir)
  | EDisable c => on c DisableModuleCache
  | ELowering c flags => on c (SetStatefulLowering flags)
  | ECompile c disable signal symbols =>
      match compilers s !! c with
      | None => Ok ([], s)
      | Some i =>
          '(ok, i') <- Compile disable signal symbols i;;
          Ok ([(ok, GetFunction i')], MkSystem (<[c := i']> (compilers s)) (disk s))
      end
  | EProgram c disable signals symbols warm =>
      match compilers s !! c with
      | None => Ok ([], s)
      | Some i =>
          '(ok, i', d) <- (if warm then CompileProgramSpecialized disable signals symbols true i (disk s)
                           else CompileProgram disable signals symbols i (disk s));;
          Ok ([(ok, GetProgramFunction i')], MkSystem (<[c := i']> (compilers s)) d)
      end
  end.

Fixpoint run_events (es : list Event) (s : System) : Res (list Answer * System) :=
  match es with
  | [] => Ok ([], s)
  | e :: es' =>
      '(a, s1) <- run_event e s;;
      '(b, s2) <- run_events es' s1;;
      Ok (a ++ b, s2)
  end.

(** *** The specification: every request is compiled afresh

    A compiler is its lowering flags. *)
Record Request := MkRequest {
  req_signals : list (SignalDef double); req_symbols : SymbolTable;
  req_lowering : N; req_warm : bool; req_avx2 : bool }.

(** Whether AVX2 is used: what the host has, unless disabled. *)
Definition avx2_in_use (disable : option string) : bool :=
  if bool_decide (disable = Some "1") then false else host_avx2.

Definition answer (built : Res (string + LModule)) : Res Answer :=
  rmap (fun b => match b with
    | inr m => if codegen (mod_code m) then (true, Some (mod_code m)) else (false, None)
    | inl _ => (false, None)
    end) built.

Definition spec_signal (avx2 : bool) (signal : SignalDef double) (symbols : SymbolTable) (lowering : N)
  : Res Answer :=
  match create_lljit with
  | inl _ => Ok (false, None)
  | inr _ =>
      answer (build_module "" (EmitSignal hash_order (MkConfig symbols lowering avx2 false ∅) signal)
                "LLVM verifyFunction failed")
  end.

Definition fresh (r : Request) : Res (string + LModule) :=
  build_program (req_signals r) (req_symbols r) (req_lowering r) (req_warm r) (req_avx2 r) "".

Definition spec_program (r : Request) : Res Answer :=
  match create_lljit, req_signals r with
  | inl _, _ | inr _, [] => Ok (false, None)
  | inr _, _ :: _ => answer (fresh r)
  end.

Definition spec_event (e : Event) (s : gmap nat N) : Res (list Answer * gmap nat N) :=
  match e with
  | ENew c env => Ok ([], <[c := ParseStatefulLoweringEnv env]> s)
  | EEnable _ _ | EDisable _ => Ok ([], s)
  | ELowering c flags => Ok ([], alter (fun _ => flags) c s)
  | ECompile c disable signal symbols =>
      match s !! c with
      | None => Ok ([], s)
      | Some lowering => rmap (fun a => ([a], s)) (spec_signal (avx2_in_use disable) signal symbols lowering)
      end
  | EProgram c disable signals symbols warm =>
      match s !! c with
      | None => Ok ([], s)
      | Some lowering => rmap (fun a => ([a], s)) (spec_program (MkRequest signals symbols lowering warm (avx2_in_use disable)))
      end
  end.

Fixpoint spec_events (es : list Event) (s : gmap nat N) : Res (list Answer * gmap nat N) :=
  match es with
  | [] => Ok ([], s)
  | e :: es' =>
      '(a, s1) <- spec_event e s;;
      '(b, s2) <- spec_events es' s1;;
      Ok (a ++ b, s2)
  end.

(** The requests of a history. *)
Definition requests_of (e : Event) (s : gmap nat N) : list Request :=
  match e with
  | EProgram c disable signals symbols warm =>
      match s !! c with Some lowering => [MkRequest signals symbols lowering warm (avx2_in_use disable)] | None => [] end
  | _ => []
  end.
Fixpoint requests (es : list Event) (s : gmap nat N) : list Request :=
  match es with
  | [] => []
  | e :: es' =>
      requests_of e s ++ match spec_event e s with Ok (_, s') => requests es' s' | Err _ => [] end
  end.

(** The hash of the key of a request. *)
Definition req_hash (r : Request) : Z :=
  Fnv1aU64 (BuildCacheKeyString (req_signals r) (req_lowering r) (req_warm r) (req_avx2 r) 1).

(** Two requests whose hashes are equal have equal keys, and programs with one
    text are one program: the same trees with the same annotations, over the
    same symbol table. *)
Definition coherent (r r' : Request) : Prop :=
  (req_hash r = req_hash r' ->
     BuildCacheKeyString (req_signals r) (req_lowering r) (req_warm r) (req_avx2 r) 1 =
     BuildCacheKeyString (req_signals r') (req_lowering r') (req_warm r') (req_avx2 r') 1) /\
  (program_text (req_signals r) = program_text (req_signals r') ->
     req_signals r = req_signals r' /\ req_symbols r = req_symbols r').

Definition request_ok (r : Request) : bool := forallb signal_ok (req_signals r).

(** *** The invariant *)
Context {Laws : PlatformLaws}.
Variable R : Request -> Prop.
Hypothesis R_ok : forall r, R r -> request_ok r = true.
Hypothesis R_coherent : forall r r', R r -> R r' -> coherent r r'.

(** The module of a request, under its name in the session. *)
Definition named (r : Request) (m : LModule) : LModule :=
  MkModule (symbol_name (req_warm r) (req_hash r)) (mod_code m).

Definition disk_ok (d : Disk) : Prop := forall dir r file m,
  R r -> d !! cache_path dir (req_hash r) (req_warm r) = Some file -> parseBitcodeFile file = Some m ->
  exists m0, fresh r = Ok (inr m0) /\ m = named r m0.

Record impl_ok (n : Z) (i : JitImpl) : Prop := {
  io_avail : lljit i = None <-> exists e, create_lljit = inl e;
  io_avx : lljit i <> None -> host_has_avx2 i = host_avx2;
  io_counter : (0 <= compile_counter i <= n)%Z;
  io_fresh dylib name k : lljit i = Some dylib -> (compile_counter i < k < 10 ^ 15)%Z ->
    counted k name -> dylib !! name = None;
  io_cached dylib r code : lljit i = Some dylib -> R r ->
    dylib !! symbol_name (req_warm r) (req_hash r) = Some code ->
    exists m, fresh r = Ok (inr m) /\ mod_code m = code;
}.

Lemma req_hash_range r : (0 <= req_hash r < 2 ^ 64)%Z.
Proof. apply Fnv1aU64_range. Qed.
#[local] Hint Resolve req_hash_range : core.

Lemma same_request r r' : R r -> R r' -> req_hash r = req_hash r' -> req_warm r = req_warm r' -> r = r'.
Proof.
  intros HR HR' Hh Hw. destruct (R_coherent r r' HR HR') as [Hk Ht].
  apply Hk in Hh. apply BuildCacheKeyString_inj in Hh as (Hl & _ & Ha & _ & Hx);
    [|exact nan_bits_nan|by apply R_ok..].
  apply Ht in Hx as [Hs Hy]. destruct r, r'; simpl in *. by subst.
Qed.

(** *** One compile *)

Lemma build_module_name fn_name m err :
  build_module fn_name m err =
    rmap (fun b => match b with inl e => inl e | inr m => inr (MkModule fn_name (mod_code m)) end)
      (build_module "" m err).
Proof. unfold build_module. by destruct (build_function m err) as [code|[]]. Qed.

(** The fields a compile leaves alone. *)
Definition frame (i i' : JitImpl) : Prop :=
  compile_counter i' = compile_counter i /\ host_has_avx2 i' = host_has_avx2 i /\
  stateful_lowering i' = stateful_lowering i /\ cache_dir i' = cache_dir i.

Lemma frame_trans i i1 i2 : frame i i1 -> frame i1 i2 -> frame i i2.
Proof. unfold frame. naive_solver congruence. Qed.

Lemma impl_ok_ext n i i' : impl_ok n i -> frame i i' -> lljit i' = lljit i -> impl_ok n i'.
Proof.
  intros [Ha Hx Hc Hf Hr] (E1 & E2 & E3 & E4) E5. split; rewrite ?E1, ?E2, ?E5; done.
Qed.

Lemma impl_ok_weaken n n' i : impl_ok n i -> (n <= n')%Z -> impl_ok n' i.
Proof. intros [Ha Hx Hc Hf Hr] Hle. split; try done. lia. Qed.

Lemma impl_ok_count n i :
  impl_ok n i -> (n < 10 ^ 15)%Z -> impl_ok (n + 1) (set_counter (u64 (compile_counter i + 1)) i) /\
  u64 (compile_counter i + 1) = (compile_counter i + 1)%Z.
Proof.
  intros [Ha Hx Hc Hf Hr] Hn. assert (E : u64 (compile_counter i + 1) = (compile_counter i + 1)%Z).
  { unfold u64. apply Z.mod_small. lia. }
  rewrite E. split; [|done]. split; simpl; try done; [lia|].
  intros dylib name k Hd Hk. apply (Hf dylib); [done|lia].
Qed.

(** The names a compile may define. *)
Definition owns (i : JitImpl) (name : string) (code : Code double) : Prop :=
  counted (compile_counter i) name \/
  exists r m, R r /\ name = symbol_name (req_warm r) (req_hash r) /\ fresh r = Ok (inr m) /\ mod_code m = code.

Lemma impl_ok_define n i i' dylib name code :
  impl_ok n i -> (n < 10 ^ 15)%Z -> lljit i = Some dylib -> owns i name code -> frame i i' ->
  lljit i' = Some (<[name := code]> dylib) -> impl_ok n i'.
Proof.
  intros [Ha Hx Hc Hf Hr] Hn Hd Ho (E1 & E2 & E3 & E4) E5. split; rewrite ?E1, ?E2; try done.
  - rewrite E5, <- Ha, Hd. done.
  - intros _. apply Hx. by rewrite Hd.
  - intros dylib' name' k Hd' Hk Hcount. rewrite E5 in Hd'. injection Hd' as <-.
    rewrite lookup_insert_ne; [by eapply Hf|]. intros <-. destruct Ho as [Ho|(r & m & HR & -> & _)].
    + assert (compile_counter i = k) by (eapply counted_inj; [lia|lia|done|done]). lia.
    + by eapply (counted_not_hashed k); [lia|done|].
  - intros dylib' r code' Hd' HR. rewrite E5 in Hd'. injection Hd' as <-.
    rewrite lookup_insert_Some. intros [[Hname <-]|[_ Hl]]; [|by eapply Hr].
    destruct Ho as [Ho|(r' & m & HR' & -> & Hm & Hcode)].
    + exfalso. by eapply (counted_not_hashed (compile_counter i)); [lia|done|].
    + apply symbol_name_inj in Hname as [Hh Hw]; [|done..].
      rewrite <- (same_request r' r) by done. by exists m.
Qed.

(** Handing a module to the session: its symbol is new, or it is there with
    the same code, which cannot be generated. *)
Lemma ingest_spec n fn_name code dylib i :
  impl_ok n i -> (n < 10 ^ 15)%Z -> lljit i = Some dylib -> owns i fn_name code ->
  dylib !! fn_name = None \/ dylib !! fn_name = Some code /\ codegen code = false ->
  exists i', ingest (MkModule fn_name code) fn_name dylib i = (if codegen code then Some code else None, i') /\
    frame i i' /\ fn i' = fn i /\ program_fn i' = program_fn i /\ impl_ok n i'.
Proof.
  intros Hi Hn Hd Ho Hl. unfold ingest, add_module. cbn [mod_fn mod_code].
  destruct Hl as [Hl|[Hl Hg]]; rewrite Hl.
  - unfold lookup_symbol. rewrite lookup_insert_eq. destruct (codegen code) eqn:Hg.
    all: eexists; split_and!; [done..|].
    all: eapply (impl_ok_define n i); [done|done|done|done|done|done].
  - rewrite Hg. eexists. split_and!; [done..|]. eapply impl_ok_ext; done.
Qed.

Lemma write_disk_ok r m0 m dir d :
  R r -> fresh r = Ok (inr m0) -> m = named r m0 -> disk_ok d ->
  disk_ok (snd (WriteModuleToCache m (cache_path dir (req_hash r) (req_warm r)) d)).
Proof.
  intros HR Hm -> Hd. unfold WriteModuleToCache, WriteFileToCache.
  set (path := cache_path dir (req_hash r) (req_warm r)).
  assert (Htmp : forall dir' h w, path +:+ ".tmp" <> cache_path dir' h w)
    by (intros; apply cache_path_not_tmp).
  destruct (can_open _); [|done]. simpl.
  destruct (write_file _ _) as [f good] eqn:Hw.
  assert (Hd1 : disk_ok (<[path +:+ ".tmp" := f]> d)).
  { intros dir' r' file m' HR'. rewrite lookup_insert_ne; [by apply Hd|]. apply Htmp. }
  assert (Hd2 : disk_ok (delete (path +:+ ".tmp") (<[path +:+ ".tmp" := f]> d))).
  { intros dir' r' file m' HR'. rewrite lookup_delete_ne; [by apply Hd1|]. apply Htmp. }
  destruct good; [|done]. simpl. destruct (can_rename _ _); [|done]. simpl.
  apply write_file_good in Hw as ->. intros dir' r' file m' HR'. rewrite lookup_insert_Some.
  intros [[Hp <-]|[_ Hl]]; [|by eapply Hd2].
  apply cache_path_inj in Hp as [Hh Hww]; [|done..]. rewrite bitcode_roundtrip. intros [= <-].
  rewrite <- (same_request r r') by done. by exists m0.
Qed.

(** A compile delivers what was wanted and keeps the invariants. *)
Definition delivers (n : Z) (i0 : JitImpl) (want : Res Answer) (got : Res (bool * JitImpl * Disk)) : Prop :=
  match want, got with
  | Ok a, Ok (ok, i, d) =>
      a = (ok, program_fn i) /\ impl_ok n i /\ disk_ok d /\ stateful_lowering i = stateful_lowering i0 /\
      cache_dir i = cache_dir i0
  | Err e, Err e' => e = e'
  | _, _ => False
  end.

Lemma delivers_from n i i' want got :
  delivers n i' want got -> stateful_lowering i' = stateful_lowering i -> cache_dir i' = cache_dir i ->
  delivers n i want got.
Proof.
  intros Hd E1 E2. unfold delivers in *. rewrite <- E1, <- E2. done.
Qed.

Lemma failure_delivers n i i' d :
  impl_ok n i -> disk_ok d -> program_fn i' = None -> frame i i' -> lljit i' = lljit i ->
  delivers n i (Ok (false, None)) (Ok (false, i', d)).
Proof.
  intros Hi Hd Hp Hf Hl. simpl. rewrite Hp. pose proof Hf as (_ & _ & E1 & E2).
  split_and!; [done|by eapply impl_ok_ext|done..].
Qed.

Lemma finish_delivers n fn_name code dylib i loaded d :
  impl_ok n i -> (n < 10 ^ 15)%Z -> lljit i = Some dylib -> owns i fn_name code -> program_fn i = None ->
  dylib !! fn_name = None \/ dylib !! fn_name = Some code /\ codegen code = false -> disk_ok d ->
  delivers n i (Ok (if codegen code then (true, Some code) else (false, None)))
    (let '(c, i) := ingest (MkModule fn_name code) fn_name dylib i in
     match c with
     | None => Ok (false, i, d)
     | Some _ => Ok (true, set_cache (cache_dir i) loaded (set_fns (fn i) c i), d)
     end).
Proof.
  intros Hi Hn Hd Ho Hp Hl Hdisk.
  destruct (ingest_spec n fn_name code dylib i Hi Hn Hd Ho Hl) as (i' & -> & Hf & _ & Hp' & Hi').
  destruct (codegen code); simpl; destruct Hf as (_ & _ & E1 & E2).
  - split_and!; [done|by eapply impl_ok_ext|done..].
  - rewrite Hp', Hp. done.
Qed.

Lemma load_or_build_delivers n r fn_name path dir dylib i d :
  impl_ok n i -> (n < 10 ^ 15)%Z -> lljit i = Some dylib -> program_fn i = None -> disk_ok d ->
  match path with
  | Some p => R r /\ fn_name = symbol_name (req_warm r) (req_hash r) /\
              p = cache_path dir (req_hash r) (req_warm r) /\ lookup_symbol dylib fn_name = None
  | None => counted (compile_counter i) fn_name /\ dylib !! fn_name = None
  end ->
  delivers n i (answer (fresh r))
    (load_or_build (req_signals r) (req_symbols r) (req_lowering r) (req_warm r) (req_avx2 r)
       fn_name path dylib i d).
Proof.
  intros Hi Hn Hd Hp Hdisk Hname. unfold load_or_build.
  assert (Hown : forall m, fresh r = Ok (inr m) -> owns i fn_name (mod_code m) /\
    (dylib !! fn_name = None \/ dylib !! fn_name = Some (mod_code m) /\ codegen (mod_code m) = false)).
  { intros m Hm. destruct path as [p|].
    - destruct Hname as (HR & -> & _ & Hl). split; [right; eauto 10|].
      unfold lookup_symbol in Hl. destruct (dylib !! _) as [code|] eqn:E; [|by left]. right.
      destruct (io_cached n i Hi dylib r code Hd HR E) as (m' & Hm' & <-).
      rewrite Hm in Hm'. injection Hm' as <-. split; [done|]. by destruct (codegen _).
    - destruct Hname as [Hc Hl]. split; [by left|by left]. }
  destruct (path ≫= fun p => ReadModuleFromCache p d) as [m|] eqn:Hread.
  - destruct path as [p|]; [|done]. destruct Hname as (HR & -> & -> & Hl). simpl in Hread.
    unfold ReadModuleFromCache in Hread. destruct (d !! _) as [file|] eqn:Hfile; [|done].
    destruct (can_read _); [|done]. destruct (Hdisk dir r file m HR Hfile Hread) as (m0 & Hm0 & ->).
    destruct (Hown m0 Hm0) as [Ho Hl']. rewrite Hm0. simpl. by apply finish_delivers.
  - unfold build_program. rewrite build_module_name. fold (build_program (req_signals r) (req_symbols r)
      (req_lowering r) (req_warm r) (req_avx2 r) ""). change (build_program _ _ _ _ _ "") with (fresh r).
    destruct (fresh r) as [[msg|m]|e] eqn:Hfresh; unfold answer; cbn [rmap rbind];
      [|destruct (Hown m eq_refl) as [Ho Hl']|by simpl].
    + by apply (failure_delivers n i).
    + apply finish_delivers; try done. destruct path as [p|]; [|done].
      destruct Hname as (HR & -> & -> & _). by eapply write_disk_ok.
Qed.

Lemma HasAVX2_in_use n disable i :
  impl_ok n i -> lljit i <> None -> HasAVX2 disable i = avx2_in_use disable.
Proof.
  intros Hi Hl. unfold HasAVX2, avx2_in_use. rewrite (io_avx n i Hi Hl). by destruct (lljit i).
Qed.

Lemma CompileProgramImpl_delivers n r avx2 i d :
  impl_ok n i -> (n + 1 < 10 ^ 15)%Z -> program_fn i = None -> disk_ok d ->
  (cache_dir i <> "" -> R r) -> (lljit i <> None -> avx2 = req_avx2 r) ->
  delivers (n + 1) i (spec_program r)
    (CompileProgramImpl (req_signals r) (req_symbols r) (req_lowering r) (req_warm r) avx2 i d).
Proof.
  intros Hi Hn Hp Hd HR Havx. unfold CompileProgramImpl, spec_program. cbn [lljit set_cache].
  assert (Hi' : impl_ok (n + 1) i) by (eapply impl_ok_weaken; [done|lia]).
  destruct (lljit i) as [dylib|] eqn:Hdy.
  2:{ destruct (proj1 (io_avail n i Hi) Hdy) as [e ->]. by apply failure_delivers. }
  destruct create_lljit as [e|[]] eqn:Hc.
  { rewrite (proj2 (io_avail n i Hi)) in Hdy by eauto. done. }
  rewrite Havx by done.
  destruct (req_signals r) as [|s rest] eqn:Hs; [by apply failure_delivers|]. rewrite <- Hs.
  cbn [cache_dir set_cache]. destruct (cache_dir i =? "")%string eqn:Hdir; simpl negb; cbn match.
  - destruct (impl_ok_count n i Hi ltac:(lia)) as [Hk Hu].
    eapply delivers_from; [apply (load_or_build_delivers (n + 1) r _ None ""); try done|done..].
    { by eapply impl_ok_ext. }
    simpl. rewrite Hu. split; [constructor|]. eapply (io_fresh n i Hi dylib _ (compile_counter i + 1)); [done| |constructor].
    destruct (io_counter n i Hi). lia.
  - apply String.eqb_neq in Hdir. specialize (HR Hdir). fold (req_hash r). fold (symbol_name (req_warm r) (req_hash r)).
    destruct (lookup_symbol dylib _) as [code|] eqn:Hl.
    + unfold lookup_symbol in Hl. destruct (dylib !! _) as [code'|] eqn:E; [|done].
      destruct (codegen code') eqn:Hg; [|done]. injection Hl as ->.
      destruct (io_cached n i Hi dylib r code Hdy HR E) as (m & -> & <-). simpl. rewrite Hg.
      split_and!; [done|by eapply impl_ok_ext|done..].
    + eapply delivers_from; [apply (load_or_build_delivers (n + 1) r _ (Some _) (cache_dir i)); try done|done..].
      by eapply impl_ok_ext.
Qed.

Lemma Compile_delivers n disable signal symbols i :
  impl_ok n i -> (n + 1 < 10 ^ 15)%Z ->
  match spec_signal (avx2_in_use disable) signal symbols (stateful_lowering i), Compile disable signal symbols i with
  | Ok a, Ok (ok, i') => a = (ok, fn i') /\ impl_ok (n + 1) i' /\ stateful_lowering i' = stateful_lowering i
  | Err e, Err e' => e = e'
  | _, _ => False
  end.
Proof.
  intros Hi Hn. unfold Compile, spec_signal. cbn [lljit set_fns].
  assert (Hi' : impl_ok (n + 1) i) by (eapply impl_ok_weaken; [done|lia]).
  destruct (lljit i) as [dylib|] eqn:Hdy.
  2:{ destruct (proj1 (io_avail n i Hi) Hdy) as [e ->]. split_and!; [done|by eapply impl_ok_ext|done]. }
  destruct create_lljit as [e|[]] eqn:Hc.
  { rewrite (proj2 (io_avail n i Hi)) in Hdy by eauto. done. }
  destruct (impl_ok_count n i Hi ltac:(lia)) as [Hk Hu].
  rewrite (HasAVX2_in_use (n + 1)); [|by eapply impl_ok_ext|simpl; by rewrite Hdy].
  cbn [stateful_lowering compile_counter set_counter set_fns]. rewrite (build_module_name (_ +:+ _)).
  destruct (build_module "" _ _) as [[msg|m]|e]; unfold answer; cbn [rmap rbind]; [| |done].
  - split_and!; [done|by eapply impl_ok_ext|done].
  - rewrite Hu in *. set (i1 := set_counter _ _).
    assert (Hi1 : impl_ok (n + 1) i1) by (by eapply impl_ok_ext).
    destruct (ingest_spec (n + 1) ("signal_func_" +:+ to_string (compile_counter i + 1)) (mod_code m) dylib i1)
      as (i' & -> & (_ & _ & E1 & _) & Hf & _ & Hi2); try done.
    { left. constructor. }
    { left. eapply (io_fresh n i Hi dylib _ (compile_counter i + 1)); [done| |constructor].
      destruct (io_counter n i Hi). lia. }
    destruct (codegen (mod_code m)); (split_and!; [done|by eapply impl_ok_ext|done]).
Qed.

Lemma JitCompiler_init_ok env :
  impl_ok 0 (JitCompiler_init env) /\ stateful_lowering (JitCompiler_init env) = ParseStatefulLoweringEnv env.
Proof.
  unfold JitCompiler_init. destruct create_lljit as [e|[]] eqn:Hc; (split; [|done]).
  - split; simpl; try (done || lia). split; [eauto|done].
  - split; simpl; try (done || lia); [|by intros; simplify_eq|by intros; simplify_eq].
    split; [done|]. intros [e He]. congruence.
Qed.

Record sys_ok (n : Z) (s : System) (sp : gmap nat N) : Prop := {
  so_flags c : stateful_lowering <$> compilers s !! c = sp !! c;
  so_impl c i : compilers s !! c = Some i -> impl_ok n i;
  so_disk : disk_ok (disk s);
}.

Lemma sys_ok_set n n' s sp c i d flags :
  sys_ok n s sp -> (n <= n')%Z -> impl_ok n' i -> disk_ok d -> stateful_lowering i = flags ->
  sys_ok n' (MkSystem (<[c := i]> (compilers s)) d) (<[c := flags]> sp).
Proof.
  intros [Hf Hi Hd] Hn Hi' Hd' Hfl. split; simpl; [| |done].
  - intros c'. destruct (decide (c = c')) as [<-|]; [by rewrite !lookup_insert_eq, <- Hfl|].
    by rewrite !lookup_insert_ne.
  - intros c' i'. rewrite lookup_insert_Some. intros [[_ <-]|[_ Hl]]; [done|].
    by eapply impl_ok_weaken; [eapply Hi|].
Qed.

Lemma sys_ok_alter n s sp c f g :
  sys_ok n s sp -> (forall i, stateful_lowering (f i) = g (stateful_lowering i)) ->
  (forall i, impl_ok n i -> impl_ok n (f i)) ->
  sys_ok (n + 1) (MkSystem (alter f c (compilers s)) (disk s)) (alter g c sp).
Proof.
  intros [Hf Hi Hd] Hfg Hok. split; simpl; [| |done].
  - intros c'. destruct (decide (c = c')) as [<-|]; [|by rewrite !lookup_alter_ne].
    rewrite !lookup_alter_eq, <- Hf. destruct (compilers s !! c); simpl; [by rewrite Hfg|done].
  - intros c' i'. destruct (decide (c = c')) as [<-|].
    + rewrite lookup_alter_eq. intros (i & Hl & ->)%fmap_Some.
      eapply impl_ok_weaken; [eapply Hok, Hi, Hl|lia].
    + rewrite lookup_alter_ne by done. intros Hl. eapply impl_ok_weaken; [by eapply Hi|lia].
Qed.

Lemma sys_ok_weaken n s sp : sys_ok n s sp -> sys_ok (n + 1) s sp.
Proof.
  intros [Hf Hi Hd]. split; [done| |done]. intros c i Hl. eapply impl_ok_weaken; [by eapply Hi|lia].
Qed.

Definition agree {A} (P : A -> System -> Prop) (want : Res (list Answer * A)) (got : Res (list Answer * System)) : Prop :=
  match want, got with
  | Ok (a, sp), Ok (b, s) => a = b /\ P sp s
  | Err e, Err e' => e = e'
  | _, _ => False
  end.

Lemma run_event_agrees n e s sp :
  sys_ok n s sp -> (0 <= n)%Z -> (n + 1 < 10 ^ 15)%Z -> (forall r, r ∈ requests_of e sp -> R r) ->
  agree (fun sp' s' => sys_ok (n + 1) s' sp') (spec_event e sp) (run_event e s).
Proof.
  intros Hs Hn0 Hn HR.
  assert (Hid : forall c, alter id c sp = sp).
  { intros c. apply map_eq. intros c'. rewrite lookup_alter. case_decide; [|done]. subst. by destruct (sp !! c'). }
  destruct e as [c env|c dir|c|c flags|c disable signal symbols|c disable signals symbols warm]; simpl.
  - destruct (JitCompiler_init_ok env) as [Hi Hf]. split; [done|].
    eapply sys_ok_set; [done|lia| |apply Hs|done]. by apply (impl_ok_weaken 0); [|lia].
  - split; [done|]. rewrite <- (Hid c). apply sys_ok_alter; [done|done|].
    intros i Hi. by destruct Hi.
  - split; [done|]. rewrite <- (Hid c). apply sys_ok_alter; [done|done|].
    intros i Hi. by destruct Hi.
  - split; [done|]. apply sys_ok_alter; [done|done|]. intros i Hi. by destruct Hi.
  - rewrite <- (so_flags n s sp Hs c). destruct (compilers s !! c) as [i|] eqn:Hc; simpl.
    2:{ split; [done|]. by apply sys_ok_weaken. }
    pose proof (Compile_delivers n disable signal symbols i (so_impl n s sp Hs c i Hc) Hn) as Hd.
    destruct (spec_signal _ _ _ _) as [a|e], (Compile disable signal symbols i) as [[ok i']|e']; try done; simpl.
    destruct Hd as (-> & Hi' & Hf). split; [done|].
    rewrite <- (insert_id sp c (stateful_lowering i)) by (by rewrite <- (so_flags n s sp Hs c), Hc).
    eapply sys_ok_set; [done|lia|done|apply Hs|done].
  - simpl in HR. rewrite <- (so_flags n s sp Hs c) in HR |- *.
    destruct (compilers s !! c) as [i|] eqn:Hc; simpl in HR |- *.
    2:{ split; [done|]. by apply sys_ok_weaken. }
    set (r := MkRequest signals symbols (stateful_lowering i) warm (avx2_in_use disable)) in *.
    assert (Hi : impl_ok n (set_fns None None i)) by (by eapply impl_ok_ext; [eapply so_impl|..]).
    pose proof (CompileProgramImpl_delivers n r (HasAVX2 disable i) (set_fns None None i) (disk s) Hi Hn eq_refl
      (so_disk n s sp Hs)) as Hd.
    replace (if warm then _ else _) with
      (CompileProgramImpl signals symbols (stateful_lowering i) warm (HasAVX2 disable i) (set_fns None None i) (disk s))
      by (by destruct warm).
    specialize (Hd ltac:(intros; apply HR; set_solver)
      ltac:(intros; eapply HasAVX2_in_use; [by eapply so_impl|done])). simpl in Hd.
    destruct (spec_program r) as [a|e], (CompileProgramImpl _ _ _ _ _ _ _) as [[[ok i'] d]|e']; try done; simpl.
    destruct Hd as (-> & Hi' & Hd' & Hf & _). split; [done|].
    rewrite <- (insert_id sp c (stateful_lowering i)) by (by rewrite <- (so_flags n s sp Hs c), Hc).
    by eapply sys_ok_set; [done|lia|..].
Qed.

Lemma run_events_agree es n s sp :
  sys_ok n s sp -> (0 <= n)%Z -> (n + Z.of_nat (length es) < 10 ^ 15)%Z ->
  (forall r, r ∈ requests es sp -> R r) ->
  agree (fun _ _ => True) (spec_events es sp) (run_events es s).
Proof.
  revert n s sp. induction es as [|e es IH]; intros n s sp Hs Hn0 Hn HR; [done|].
  simpl in HR. pose proof (run_event_agrees n e s sp Hs Hn0 ltac:(simpl in Hn; lia)
    ltac:(intros r Hr; apply HR; set_solver)) as He. simpl.
  destruct (spec_event e sp) as [[a sp1]|err] eqn:E, (run_event e s) as [[b s1]|err']; try done; simpl.
  destruct He as [-> Hs1].
  pose proof (IH (n + 1)%Z s1 sp1 Hs1 ltac:(lia) ltac:(simpl in Hn; lia) ltac:(intros r Hr; apply HR; set_solver)) as Hr.
  destruct (spec_events es sp1) as [[a2 sp2]|err], (run_events es s1) as [[b2 s2]|err']; try done; simpl.
  by destruct Hr as [-> _].
Qed.
End system.

Section transparent.
Context {L : Type} `{Machine double L} `{Platform}.

(** C10: The module cache is transparent.  Compilers of any number of
    processes that share a file system, whose caches are switched on and off
    and whose lowering flags are changed at will, answer every compile request
    of a history of fewer than 10^15 calls as a compiler without a cache does:
    with the same success flag and the same code, whether the code comes from
    the session, from a cache file or from a fresh build, and whichever writes
    and renames of cache files fail.  The hash must separate the keys in use,
    and programs with one text must be one program over one symbol table. *)
Theorem module_cache_transparent (es : list Event) :
  PlatformLaws ->
  (forall r, r ∈ requests es ∅ -> request_ok r = true) ->
  (forall r r', r ∈ requests es ∅ -> r' ∈ requests es ∅ -> coherent r r') ->
  (Z.of_nat (length es) < 10 ^ 15)%Z ->
  rmap fst (run_events es (MkSystem ∅ ∅)) = rmap fst (spec_events es ∅).
Proof.
  intros HL Hok Hcoh Hlen.
  assert (Hs : sys_ok (fun r => r ∈ requests es ∅) 0 (MkSystem ∅ ∅) ∅).
  { split; simpl; [by intros c; rewrite !lookup_empty|by intros c i; rewrite lookup_empty|].
    intros dir r file m _. by rewrite lookup_empty. }
  pose proof (run_events_agree _ Hok Hcoh es 0 _ _ Hs ltac:(lia) ltac:(lia) ltac:(done)) as Ha.
  destruct (spec_events es ∅) as [[a sp]|e], (run_events es _) as [[b s]|e']; simpl in *; try done.
  - by destruct Ha as [-> _].
  - by rewrite Ha.
Qed.
End transparent.

(** *** What the key leaves out *)
Section stale.
Context {L : Type} `{Machine double L} `{Platform}.

(** The same names and trees, up to locations, symbol ids and node ids. *)
Definition same_program (signals signals' : list (SignalDef double)) : Prop :=
  Forall2 (fun s s' => sig_name s = sig_name s' /\ Ast.erase (sig_body s) = Ast.erase (sig_body s'))
    signals signals'.

Lemma CanonicalAppend_erase (e : Expr double) : CanonicalAppend nan_bits (Ast.erase e) = CanonicalAppend nan_bits e.
Proof.
  induction e as [| | |loc k x IH|loc k l r IHl IHr|loc name args id sid IH|loc c t f IHc IHt IHf]
    using Expr_rect'; cbn [Ast.erase CanonicalAppend]; try done.
  - by rewrite IH.
  - by rewrite IHl, IHr.
  - rewrite length_map. do 4 f_equal.
    induction IH as [|a args Ha _ IH]; [done|]. cbn [map foldr]. by rewrite Ha, IH.
  - by rewrite IHc, IHt, IHf.
Qed.

(** Programs with one text have one key. *)
Lemma BuildCacheKeyString_text signals signals' lowering warm avx2 lanes :
  same_program signals signals' ->
  BuildCacheKeyString signals lowering warm avx2 lanes = BuildCacheKeyString signals' lowering warm avx2 lanes.
Proof.
  intros Ht. unfold BuildCacheKeyString. do 10 f_equal.
  induction Ht as [|s s' rest rest' [Hn He] _ IH]; [done|]. cbn [foldr]. rewrite IH, Hn.
  unfold AstCanonicalString. by rewrite <- CanonicalAppend_erase, He, CanonicalAppend_erase.
Qed.

(** A file system on which writing and reading back one file works. *)
Definition usable (path : string) : Prop :=
  can_open (path +:+ ".tmp") = true /\ (forall f, snd (write_file (path +:+ ".tmp") f) = true) /\
  can_rename (path +:+ ".tmp") path = true /\ can_read path = true.

(** A compile that finds no module leaves its own. *)
Lemma compile_miss `{!PlatformLaws} signals symbols lowering warm avx2 i dylib d m dir :
  let h := Fnv1aU64 (BuildCacheKeyString signals lowering warm avx2 1) in
  signals <> [] -> cache_dir i = dir -> dir <> "" -> lljit i = Some dylib -> dylib = ∅ ->
  usable (cache_path dir h warm) -> d !! cache_path dir h warm = None ->
  build_program signals symbols lowering warm avx2 "" = Ok (inr m) -> codegen (mod_code m) = true ->
  exists i' d', CompileProgramImpl signals symbols lowering warm avx2 i d = Ok (true, i', d') /\
    program_fn i' = Some (mod_code m) /\
    d' !! cache_path dir h warm = Some (WriteBitcodeToFile (MkModule (symbol_name warm h) (mod_code m))).
Proof.
  intros h Hs <- Hdir Hd -> (Hopen & Hwrite & Hren & _) Hnone Hb Hg.
  unfold CompileProgramImpl. cbn [lljit set_cache cache_dir]. rewrite Hd.
  destruct signals as [|sg rest]; [done|]. apply String.eqb_neq in Hdir. rewrite Hdir. cbn [negb].
  fold h. unfold lookup_symbol at 1. rewrite lookup_empty.
  unfold load_or_build. fold (cache_path (cache_dir i) h warm). fold (symbol_name warm h).
  cbn [mbind option_bind]. unfold ReadModuleFromCache. rewrite Hnone.
  assert (Hb' : build_program (sg :: rest) symbols lowering warm avx2 (symbol_name warm h) =
    Ok (inr (MkModule (symbol_name warm h) (mod_code m)))).
  { unfold build_program in *. rewrite build_module_name, Hb. done. }
  rewrite Hb'. cbn [rbind]. unfold ingest, add_module. cbn [mod_fn mod_code]. rewrite lookup_empty.
  unfold lookup_symbol. rewrite lookup_insert_eq, Hg. cbn. eexists _, _. split; [reflexivity|]. split; [done|].
  unfold WriteModuleToCache, WriteFileToCache. rewrite Hopen. cbn [negb].
  set (file := WriteBitcodeToFile _). pose proof (Hwrite file) as Hw.
  destruct (write_file _ file) as [f good] eqn:E. cbn in Hw. subst good. rewrite Hren. cbn.
  apply write_file_good in E as ->. by rewrite lookup_insert_eq.
Qed.

(** A compile that finds a module hands it out. *)
Lemma compile_hit `{!PlatformLaws} signals symbols lowering warm avx2 i dylib d code dir :
  let h := Fnv1aU64 (BuildCacheKeyString signals lowering warm avx2 1) in
  signals <> [] -> cache_dir i = dir -> dir <> "" -> lljit i = Some dylib -> dylib = ∅ ->
  usable (cache_path dir h warm) -> codegen code = true ->
  d !! cache_path dir h warm = Some (WriteBitcodeToFile (MkModule (symbol_name warm h) code)) ->
  exists i', CompileProgramImpl signals symbols lowering warm avx2 i d = Ok (true, i', d) /\
    program_fn i' = Some code /\ LastCacheHit i' = true.
Proof.
  intros h Hs <- Hdir Hd -> (_ & _ & _ & Hread) Hg Hf.
  unfold CompileProgramImpl. cbn [lljit set_cache cache_dir]. rewrite Hd.
  destruct signals as [|sg rest]; [done|]. apply String.eqb_neq in Hdir. rewrite Hdir. cbn [negb].
  fold h. unfold lookup_symbol at 1. rewrite lookup_empty.
  unfold load_or_build. fold (cache_path (cache_dir i) h warm). fold (symbol_name warm h).
  cbn [mbind option_bind]. unfold ReadModuleFromCache. rewrite Hf, Hread, bitcode_roundtrip.
  unfold ingest, add_module. cbn [mod_fn mod_code]. rewrite lookup_empty.
  unfold lookup_symbol. rewrite lookup_insert_eq, Hg. cbn. by eexists.
Qed.

(** C39: the key of the module cache says nothing of the symbol table, the
    symbol ids or the node ids in the trees.  Whatever program a compiler
    builds successfully with a cache directory whose files can be written and
    read, a fresh second compiler with the same flags on the same directory
    answers a request for any program of the same text (the same names and
    trees up to locations, symbol ids and node ids), over any symbol table,
    with the first program's code, as a cache hit, and not with the code it
    would build itself. *)
Theorem module_cache_wrong_instrument (dir : string) env disable warm signals0 signals1 t0 t1 code :
  let request signals t := MkRequest signals t (ParseStatefulLoweringEnv env) warm (avx2_in_use disable) in
  PlatformLaws -> dir <> "" ->
  usable (cache_path dir (req_hash (request signals0 t0)) warm) ->
  same_program signals1 signals0 ->
  spec_program (request signals0 t0) = Ok (true, Some code) ->
  exists s i,
    run_events
      [ENew 0 env; EEnable 0 dir; EProgram 0 disable signals0 t0 warm;
       ENew 1 env; EEnable 1 dir; EProgram 1 disable signals1 t1 warm] (MkSystem ∅ ∅) =
      Ok ([(true, Some code); (true, Some code)], s) /\
    compilers s !! 1 = Some i /\ LastCacheHit i = true.
Proof.
  intros request HL Hdir Hus Htext Hspec. unfold spec_program in Hspec. cbn [request req_signals] in Hspec.
  destruct create_lljit as [e|u] eqn:Hjit; [done|].
  destruct signals0 as [|sg rest] eqn:Hs0; [done|]. rewrite <- Hs0 in *.
  assert (Hne : signals0 <> []) by (by rewrite Hs0).
  assert (Hne1 : signals1 <> []) by (intros ->; rewrite Hs0 in Htext; by inversion Htext).
  unfold answer in Hspec. apply fmap_Ok in Hspec as ([msg|m] & Hfresh & Ha); [done|].
  destruct (codegen (mod_code m)) eqn:Hg; [|done]. injection Ha as <-.
  set (lowering := ParseStatefulLoweringEnv env). set (avx2 := avx2_in_use disable).
  assert (Hinit : lljit (JitCompiler_init env) = Some ∅ /\
    stateful_lowering (JitCompiler_init env) = lowering /\
    host_has_avx2 (JitCompiler_init env) = host_avx2)
    by (unfold JitCompiler_init; by rewrite Hjit).
  destruct Hinit as (Hl & Hlow & Hav).
  set (i0 := set_fns None None (EnableModuleCache dir (JitCompiler_init env))).
  destruct (compile_miss signals0 t0 lowering warm avx2 i0 ∅ ∅ m dir Hne) as (i1 & d1 & E1 & Hp1 & Hd1);
    try done.
  assert (Hkey : BuildCacheKeyString signals1 lowering warm avx2 1 = BuildCacheKeyString signals0 lowering warm avx2 1)
    by by apply BuildCacheKeyString_text.
  destruct (compile_hit signals1 t1 lowering warm avx2 i0 ∅ d1 (mod_code m) dir Hne1) as (i2 & E2 & Hp2 & Hhit);
    try done; rewrite ?Hkey; try done.
  assert (Hrun : forall c signals t s d j d', compilers s !! c = Some (EnableModuleCache dir (JitCompiler_init env)) ->
    disk s = d -> CompileProgramImpl signals t lowering warm avx2 i0 d = Ok (true, j, d') ->
    run_event (EProgram c disable signals t warm) s =
      Ok ([(true, program_fn j)], MkSystem (<[c := j]> (compilers s)) d')).
  { intros c signals t s d j d' Hc <- E. unfold run_event. rewrite Hc.
    assert (Ea : HasAVX2 disable (EnableModuleCache dir (JitCompiler_init env)) = avx2).
    { unfold HasAVX2. cbn [lljit EnableModuleCache set_cache host_has_avx2]. by rewrite Hl, Hav. }
    destruct warm; unfold CompileProgramSpecialized, CompileProgram; rewrite Ea;
      cbn [stateful_lowering EnableModuleCache set_cache]; rewrite Hlow; unfold i0 in E;
      by rewrite E. }
  eexists _, i2. cbn [run_events].
  do 2 (unfold run_event at 1; cbn [rbind compilers disk]).
  rewrite (Hrun 0 signals0 t0 _ ∅ i1 d1) by (done || (cbn [compilers]; by rewrite lookup_alter_eq, lookup_insert_eq)).
  cbn [rbind]. do 2 (unfold run_event at 1; cbn [rbind compilers disk]).
  rewrite (Hrun 1 signals1 t1 _ d1 i2 d1) by (done || (cbn [compilers]; by rewrite lookup_alter_eq, lookup_insert_eq)).
  cbn [rbind app compilers]. rewrite Hp1, Hp2. split; [reflexivity|]. cbn [compilers]. split; [|done].
  apply lookup_insert_eq.
Qed.
End stale.

(** A file system without faults, whose bitcode is the module. *)
Module CacheExample.
#[export] Instance machine : Machine double long_double := parity_machine.
#[export] Instance platform : Platform := {|
  LLVM_VERSION_MAJOR := 18;
  nan_bits := 0x7ff8000000000000;
  optimise := fun c => c;
  codegen := fun _ => true;
  create_lljit := inr tt;
  host_avx2 := false;
  duplicate_symbol := fun s => s;
  missing_symbol := fun s => s;
  File := LModule;
  WriteBitcodeToFile := fun m => m;
  parseBitcodeFile := Some;
  can_open := fun _ => true;
  write_file := fun _ f => (f, true);
  can_read := fun _ => true;
  can_rename := fun _ _ => true;
  hash_order := fun _ l => l |}.

#[export] Instance laws : PlatformLaws.
Proof. split; [by vm_compute|done|by intros path f f' [= <-]]. Qed.

Definition table (l : list string) : SymbolTable :=
  foldl (fun t s => match RegisterOrGetId t s with Ok (_, t') => t' | Err _ => t end) empty_table l.

(** [a = mid(AAPL) * 0.5], with its ticker bound. *)
Definition program (t : SymbolTable) : list (SignalDef double) :=
  let s := MkSignal "a" (BinaryOp noloc Mul
             (FunctionCall noloc "mid" [IdentifierExpr noloc "AAPL"] (-1) (-1))
             (NumberLiteral noloc (flit 5 1))) in
  match BindSymbolIds s t with Ok s' => [s'] | Err _ => [s] end.

Definition t0 : SymbolTable := table ["AAPL"].
Definition t1 : SymbolTable := table ["MSFT"; "AAPL"].

(** Two compilers on one cache directory. *)
Definition history (t t' : SymbolTable) : list Event :=
  [ENew 0 None; EEnable 0 "/var/cache/jitse"; EProgram 0 None (program t) t false;
   ENew 1 None; EEnable 1 "/var/cache/jitse"; EProgram 1 None (program t') t' false].

Definition market : MarketState double :=
  MkMarket [MkInstrument (fint 9) (fint 11) (fint 0) (fint 0) 0;
            MkInstrument (fint 19) (fint 21) (fint 0) (fint 0) 0] 0.
Definition low : LoweredStates double long_double := MkLowered [] [] [] [] [] [] [] [] [] [] [] [].

(** What the last function handed out writes. *)
Definition last_output (answers : list Answer) : option double :=
  match last answers with
  | Some (_, Some code) =>
      match run_program market code (MkJit SignalContext_init low) with
      | Ok (out, _) => out !! 0
      | Err _ => None
      end
  | _ => None
  end.
End CacheExample.
#[local] Existing Instances CacheExample.machine CacheExample.platform CacheExample.laws.

Lemma module_cache_transparent_witness :
  let es := CacheExample.history CacheExample.t0 CacheExample.t0 in
  exists (s : System) code,
    run_events es (MkSystem ∅ ∅) = Ok ([(true, Some code); (true, Some code)], s) /\
    (LastCacheHit <$> compilers s !! 0, LastCacheHit <$> compilers s !! 1) = (Some false, Some true) /\
    CacheExample.last_output [(true, Some code)] = Some (fint 5) /\
    rmap fst (run_events es (MkSystem ∅ ∅)) = rmap fst (spec_events es ∅).
Proof.
  intros es. eexists _, _. split; [vm_compute; reflexivity|]. split_and!; [vm_compute; reflexivity..|].
  assert (Hr : forall r, r ∈ requests es ∅ ->
    r = MkRequest (CacheExample.program CacheExample.t0) CacheExample.t0 kAll false false).
  { intros r Hr. assert (E : requests es ∅ =
      replicate 2 (MkRequest (CacheExample.program CacheExample.t0) CacheExample.t0 kAll false false)) by reflexivity.
    rewrite E in Hr. by apply elem_of_replicate in Hr as [-> _]. }
  apply (module_cache_transparent es); [exact CacheExample.laws|..].
  - intros r ->%Hr. reflexivity.
  - intros r r' ->%Hr ->%Hr. by split.
  - reflexivity.
Defined.

(** AAPL as instrument 0, then as instrument 1: the second compiler's function
    reads 5, its own code would read 10. *)
Lemma module_cache_wrong_instrument_witness :
  let signals0 := CacheExample.program CacheExample.t0 in
  let signals1 := CacheExample.program CacheExample.t1 in
  exists (s : System) code,
    run_events (CacheExample.history CacheExample.t0 CacheExample.t1) (MkSystem ∅ ∅) =
      Ok ([(true, Some code); (true, Some code)], s) /\
    CacheExample.last_output [(true, Some code)] = Some (fint 5) /\
    match spec_events (CacheExample.history CacheExample.t0 CacheExample.t1) ∅ with
    | Ok (a, _) => CacheExample.last_output a | Err _ => None
    end = Some (fint 10).
Proof.
  intros signals0 signals1.
  edestruct (module_cache_wrong_instrument "/var/cache/jitse" None None false signals0 signals1
    CacheExample.t0 CacheExample.t1) as (s & i & E & _).
  - exact CacheExample.laws.
  - discriminate.
  - split_and!; reflexivity.
  - repeat constructor.
  - vm_compute. reflexivity.
  - exists s. eexists. split; [exact E|]. split; vm_compute; reflexivity.
Defined.

(** ** The two tiers *)

Section tiers.
Context {L : Type} `{Machine double L} `{Platform} {Ptr : Type}.

(** A call, with the environment and what the caller's pointers designate at
    that moment. *)
Inductive TierCall :=
| TCompile (disable : option string) (store : Store Ptr) (p : Ptr) (lowering : N)
| TPromote (disable : option string) (store : Store Ptr).

(** What a caller sees: the flag, the active function and whether it is the
    specialised one. *)
Definition TierView : Type := bool * option (Code double) * bool.

Definition tier_call (c : TierCall) (t : TieredImpl Ptr) : Res (TierView * TieredImpl Ptr) :=
  '(ok, t', _) <- match c with
    | TCompile disable store p lowering => TieredCompile disable store p lowering t ∅
    | TPromote disable store => Promote disable store t ∅
    end;;
  Ok ((ok, CurrentFunction t', IsPromoted t'), t').

(** The abstract machine: nothing compiled; the baseline code of a program;
    its specialised code. *)
Inductive Tier :=
| Idle
| Baseline (p : Ptr) (lowering : N) (code : Code double)
| Specialized (code : Code double).

Definition tier_view (ok : bool) (s : Tier) : TierView :=
  match s with
  | Idle => (ok, None, false)
  | Baseline _ _ code => (ok, Some code, false)
  | Specialized code => (ok, Some code, true)
  end.

Definition request (disable : option string) (store : Store Ptr) (p : Ptr) (lowering : N) (warm : bool) : Request :=
  MkRequest (fst (store p)) (snd (store p)) lowering warm (avx2_in_use disable).

Definition tier_step (c : TierCall) (s : Tier) : Res (TierView * Tier) :=
  let go ok s := Ok (tier_view ok s, s) in
  match c, s with
  | TCompile disable store p lowering, _ =>
      '(ok, code) <- spec_program (request disable store p lowering false);;
      match code with Some code => go true (Baseline p lowering code) | None => go false Idle end
  | TPromote _ _, Idle => go false Idle
  | TPromote disable store, Baseline p lowering _ =>
      '(ok, code) <- spec_program (request disable store p lowering true);;
      match code with Some code => go true (Specialized code) | None => go false s end
  | TPromote _ _, Specialized _ => go true s
  end.

Fixpoint tier_calls (cs : list TierCall) (t : TieredImpl Ptr) : Res (list TierView) :=
  match cs with
  | [] => Ok []
  | c :: cs' => '(v, t') <- tier_call c t;; rmap (cons v) (tier_calls cs' t')
  end.
Fixpoint tier_steps (cs : list TierCall) (s : Tier) : Res (list TierView) :=
  match cs with
  | [] => Ok []
  | c :: cs' => '(v, s') <- tier_step c s;; rmap (cons v) (tier_steps cs' s')
  end.

(** No cache is ever switched on in the two compilers. *)
Definition uncached (n : Z) (i : JitImpl) : Prop := impl_ok (fun _ => False) n i /\ cache_dir i = "".

Lemma spec_program_answer r ok code : spec_program r = Ok (ok, code) -> ok = bool_decide (is_Some code).
Proof.
  unfold spec_program, answer. destruct create_lljit; [by intros [= <- <-]|].
  destruct (req_signals r); [by intros [= <- <-]|]. destruct (fresh r) as [[msg|m]|e]; simpl; try done.
  - by intros [= <- <-].
  - destruct (codegen _); by intros [= <- <-].
Qed.

Lemma uncached_program n r disable i d :
  PlatformLaws -> uncached n i -> (n + 1 < 10 ^ 15)%Z -> req_avx2 r = avx2_in_use disable ->
  match spec_program r, CompileProgramImpl (req_signals r) (req_symbols r) (req_lowering r) (req_warm r)
          (HasAVX2 disable i) (set_fns None None i) d with
  | Ok (ok, code), Ok (ok', i', _) => ok = ok' /\ program_fn i' = code /\ uncached (n + 1) i'
  | Err e, Err e' => e = e'
  | _, _ => False
  end.
Proof.
  intros HL [Hi Hdir] Hn Havx.
  pose proof (CompileProgramImpl_delivers (fun _ => False) ltac:(done) ltac:(done) n r (HasAVX2 disable i) (set_fns None None i) d
    ltac:(by eapply impl_ok_ext) Hn eq_refl ltac:(by intros ? ? ? ? [])
    ltac:(by intros Hne; destruct (Hne Hdir))
    ltac:(by intros; rewrite Havx; eapply HasAVX2_in_use)) as Hd.
  revert Hd.
  destruct (spec_program r) as [[ok code]|e], (CompileProgramImpl _ _ _ _ _ _ _) as [[[ok' i'] d']|e']; try done.
  simpl. intros (E & Hi' & _ & _ & E2). injection E as <- ->. split_and!; [done..|]. split; [done|]. simpl in E2. congruence.
Qed.

(** The two compilers and the state the abstract machine is in. *)
Record tier_rel (n : Z) (t : TieredImpl Ptr) (s : Tier) : Prop := {
  tr_baseline : uncached n (baseline_jit t);
  tr_specialized : uncached n (specialized_jit t);
  tr_state : match s with
    | Idle => active_fn t = None /\ promoted t = false /\ compiled t = false
    | Baseline p lowering code =>
        active_fn t = Some code /\ promoted t = false /\ compiled t = true /\
        program t = Some p /\ tier_lowering t = lowering
    | Specialized code => active_fn t = Some code /\ promoted t = true /\ compiled t = true
    end;
}.

Lemma uncached_weaken n i : uncached n i -> uncached (n + 1) i.
Proof. intros [Hi Hd]. split; [|done]. eapply impl_ok_weaken; [done|lia]. Qed.

Lemma uncached_lowering n i flags : uncached n i -> uncached n (SetStatefulLowering flags i).
Proof. intros [[] Hd]. by split; [split|]. Qed.

Lemma available n i : uncached n i -> IsAvailable i = match create_lljit with inl _ => false | inr _ => true end.
Proof.
  intros [Hi _]. unfold IsAvailable. pose proof (io_avail _ n i Hi) as Ha. destruct create_lljit as [e|u].
  - rewrite (proj2 Ha) by eauto. done.
  - destruct (lljit i); [done|]. by destruct (proj1 Ha eq_refl).
Qed.

(** Equal views, and the relation field by field. *)
Ltac tier_ok := simpl; split; [done|split; simpl; [done|done|by split_and!]].

Lemma tier_call_refines n c t s :
  PlatformLaws -> tier_rel n t s -> (n + 1 < 10 ^ 15)%Z ->
  match tier_step c s, tier_call c t with
  | Ok (v, s'), Ok (v', t') => v = v' /\ tier_rel (n + 1) t' s'
  | Err e, Err e' => e = e'
  | _, _ => False
  end.
Proof.
  intros HL [Hb Hs Hst] Hn.
  assert (Hb' := uncached_weaken n _ Hb). assert (Hs' := uncached_weaken n _ Hs).
  destruct c as [disable store p lowering|disable store]; unfold tier_call, tier_step.
  - unfold TieredCompile, TieredIsAvailable. rewrite (available n), (available n) by done.
    destruct create_lljit as [e|[]] eqn:Hc.
    { unfold spec_program. rewrite Hc. tier_ok. }
    simpl negb. cbn match. destruct (store p) as [signals symbols] eqn:Hp.
    pose proof (uncached_program n (request disable store p lowering false) disable (SetStatefulLowering lowering (baseline_jit t)) ∅ HL
      (uncached_lowering n _ lowering Hb) Hn eq_refl) as Hd.
    unfold request in *. rewrite Hp in *. cbn [fst snd req_signals req_symbols req_lowering req_warm] in *.
    unfold CompileProgram. cbn [stateful_lowering SetStatefulLowering].
    destruct (spec_program _) as [[ok code]|e] eqn:Hsp, (CompileProgramImpl _ _ _ _ _ _ _) as [[[ok' i'] d']|e'];
      try done; simpl.
    destruct Hd as (-> & <- & Hi'). apply spec_program_answer in Hsp as ->. unfold GetProgramFunction.
    destruct (program_fn i') as [code|]; tier_ok.
  - unfold Promote. destruct s as [|p lowering code|code].
    + destruct Hst as (Ha & Hp & Hcm). rewrite Hcm. simpl. rewrite Ha, Hp. tier_ok.
    + destruct Hst as (Ha & Hp & Hcm & Hpr & Hl). rewrite Hcm, Hp, Hpr. simpl negb. cbn match.
      destruct (store p) as [signals symbols] eqn:Hpp.
      pose proof (uncached_program n (request disable store p lowering true) disable (SetStatefulLowering lowering (specialized_jit t)) ∅ HL
        (uncached_lowering n _ lowering Hs) Hn eq_refl) as Hd.
      unfold request in *. rewrite Hpp in *. cbn [fst snd req_signals req_symbols req_lowering req_warm] in *.
      unfold CompileProgramSpecialized. cbn [stateful_lowering SetStatefulLowering]. rewrite Hl.
      destruct (spec_program _) as [[ok code']|e] eqn:Hsp, (CompileProgramImpl _ _ _ _ _ _ _) as [[[ok' i'] d']|e'];
        try done; simpl.
      destruct Hd as (-> & <- & Hi'). apply spec_program_answer in Hsp as ->. unfold GetProgramFunction.
      destruct (program_fn i') as [code'|]; simpl; rewrite ?Ha; tier_ok.
    + destruct Hst as (Ha & Hp & Hcm). rewrite Hcm, Hp. simpl. unfold CurrentFunction, IsPromoted. rewrite Ha, Hp.
      tier_ok.
Qed.

Lemma tier_calls_refine cs n t s :
  PlatformLaws -> tier_rel n t s -> (n + Z.of_nat (length cs) < 10 ^ 15)%Z -> tier_calls cs t = tier_steps cs s.
Proof.
  intros HL. revert n t s. induction cs as [|c cs IH]; intros n t s Hr Hn; [done|]. simpl in Hn |- *.
  pose proof (tier_call_refines n c t s HL Hr ltac:(lia)) as Hc.
  destruct (tier_step c s) as [[v s']|e], (tier_call c t) as [[v' t']|e']; try done; simpl; [|by subst].
  destruct Hc as [-> Hr']. by rewrite (IH (n + 1)%Z t' s' Hr' ltac:(lia)).
Qed.

(** C11: The tiered compiler refines a machine with three states.  From
    construction on, every sequence of fewer than 10^15 calls, whatever the
    program pointed to is at the time of each, gives the views of that
    machine: [Compile] publishes the baseline code of the program and drops
    everything on failure, [Promote] fails before [Compile], publishes the warm
    code of the program once, keeps the baseline when its compile fails and is
    idempotent afterwards. *)
Theorem tiered_refines (env : option string) (cs : list TierCall) :
  PlatformLaws -> (Z.of_nat (length cs) < 10 ^ 15)%Z ->
  tier_calls cs (TieredProgramJit_init env) = tier_steps cs Idle.
Proof.
  intros HL Hn. apply (tier_calls_refine cs 0); [done| |lia].
  destruct (JitCompiler_init_ok (fun _ => False) env) as [Hi _].
  assert (Hd : cache_dir (JitCompiler_init env) = "") by (unfold JitCompiler_init; by destruct create_lljit).
  split; [done|done|by split_and!].
Qed.
End tiers.

(** [sma(mid(AAPL), 2)] at node 1. *)
Definition tier_store (_ : unit) : list (SignalDef double) * SymbolTable :=
  ([MkSignal "a" (FunctionCall noloc "sma"
      [FunctionCall noloc "mid" [IdentifierExpr noloc "AAPL"] (-1) 0; NumberLiteral noloc (fint 2)] 1 (-1))],
   CacheExample.t0).

Lemma tiered_refines_witness :
  let cs := [TPromote None tier_store; TCompile None tier_store tt kAll; TPromote None tier_store; TPromote None tier_store] in
  exists baseline warm,
    tier_calls cs (TieredProgramJit_init None) =
      Ok [(false, None, false); (true, Some baseline, false); (true, Some warm, true); (true, Some warm, true)] /\
    baseline <> warm /\
    tier_calls cs (TieredProgramJit_init None) = tier_steps cs Idle.
Proof.
  intros cs. eexists _, _. split; [vm_compute; reflexivity|]. split; [discriminate|].
  apply (tiered_refines None cs); [exact CacheExample.laws|reflexivity].
Defined.
