(* ===== verification/CompilerEntriesFacts.v ===== *)
(** * What the entries of the compiler leave behind

    After an entry the function pointer it asks for is set exactly if it
    succeeded, and the others are cleared; the runtime symbols are registered by the first
    module added, with the gradient entry points only if that was a gradient
    module. *)

From S2P Require Import Prelude Errors Arith Ast SymbolTable Rolling Context Interpreter JitRuntime Gradient Lowered Ir JitCompiler VectorCompiler GradientCompiler ModuleCache CompilerEntries JitFacts GradientCompilerFacts ModuleCacheFacts.

Section facts.
Context {L : Type} `{Machine double L} `{PlatformEntries}.

(** ** The entries *)

Inductive Entry :=
| EntrySignal (signal : SignalDef double) (symbols : SymbolTable)
| EntryProgram (signals : list (SignalDef double)) (symbols : SymbolTable) (assume_warm : bool)
| EntryGradient (signals : list (SignalDef double)) (symbols : SymbolTable)
| EntryVector (signals : list (SignalDef double)) (symbols : SymbolTable) (lane_count : nat).

Definition run_entry (disable : option string) (e : Entry) (f : FullImpl) (disk : Disk)
  : Res (bool * FullImpl * Disk) :=
  match e with
  | EntrySignal signal symbols => rmap (fun r => (r, disk)) (FullCompile disable signal symbols f)
  | EntryProgram signals symbols w => FullCompileProgram disable signals symbols w f disk
  | EntryGradient signals symbols => CompileProgramGradient disable signals symbols f disk
  | EntryVector signals symbols lanes =>
      rmap (fun r => (r, disk)) (CompileProgramVectorized disable signals symbols lanes f)
  end.

(** Which pointers are set. *)
Definition pointers (f : FullImpl) : bool * bool * bool * bool :=
  (bool_decide (is_Some (fn (scalar_impl f))), bool_decide (is_Some (program_fn (scalar_impl f))),
   bool_decide (is_Some (program_gradient_fn f)), bool_decide (is_Some (program_fn_vec f))).
Definition pointers_after (e : Entry) (ok : bool) (f : FullImpl) : bool * bool * bool * bool :=
  match e with
  | EntrySignal _ _ => (ok, false, false, bool_decide (is_Some (program_fn_vec f)))
  | EntryProgram _ _ _ => (false, ok, false, false)
  | EntryGradient _ _ => (false, false, ok, false)
  | EntryVector _ _ _ => (false, false, false, ok)
  end.
Definition lanes_after (e : Entry) (ok : bool) (f : FullImpl) : nat :=
  match e with
  | EntrySignal _ _ => vec_lane_count f
  | EntryVector _ _ lanes => if ok then lanes else 0
  | _ => 0
  end.

(** The scalar entries touch only their own pointers. *)
Lemma ingest_fns m name dylib i code i' :
  ingest m name dylib i = (code, i') -> fn i' = fn i /\ program_fn i' = program_fn i.
Proof.
  unfold ingest. destruct (add_module m dylib) as [d|]; [|by intros [= <- <-]].
  destruct (lookup_symbol d name); by intros [= <- <-].
Qed.

Lemma Compile_pointers disable s t i ok i' :
  Compile disable s t i = Ok (ok, i') ->
  ok = bool_decide (is_Some (fn i')) /\ program_fn i' = None.
Proof.
  unfold Compile. destruct (lljit (set_fns None None i)) as [dylib|]; [|by intros [= <- <-]].
  intros He. apply bind_Ok in He as ([msg|m] & _ & He); [by injection He as <- <-|].
  destruct (ingest _ _ _ _) as [code i1]. by injection He as <- <-.
Qed.

Lemma load_or_build_pointers signals t lowering warm avx name path dylib i disk ok i' disk' :
  load_or_build signals t lowering warm avx name path dylib i disk = Ok (ok, i', disk') ->
  program_fn i = None ->
  fn i' = fn i /\ ok = bool_decide (is_Some (program_fn i')).
Proof.
  intros He Hp. unfold load_or_build in He.
  destruct (path ≫= fun p => ReadModuleFromCache p disk) as [m|].
  - destruct (ingest m name dylib i) as [[code|] i1] eqn:Ei; apply ingest_fns in Ei as [E1 E2];
      injection He as <- <- <-; [done|]; split; [done|]; rewrite Hp in E2; by rewrite E2.
  - apply bind_Ok in He as ([msg|m] & _ & He); [injection He as <- <- <-; split; [done|]; simpl; by rewrite Hp|].
    destruct (ingest m name dylib i) as [[code|] i1] eqn:Ei; apply ingest_fns in Ei as [E1 E2];
      injection He as <- <- <-; [done|]; split; [done|]; rewrite Hp in E2; by rewrite E2.
Qed.

Lemma Specialized_pointers disable signals t warm i disk ok i' disk' :
  CompileProgramSpecialized disable signals t warm i disk = Ok (ok, i', disk') ->
  fn i' = None /\ ok = bool_decide (is_Some (program_fn i')).
Proof.
  unfold CompileProgramSpecialized, CompileProgramImpl. cbn [lljit set_cache set_fns].
  destruct (lljit i) as [dylib|]; [|by intros [= <- <- <-]].
  destruct signals as [|s signals]; [by intros [= <- <- <-]|].
  destruct (negb _).
  - destruct (lookup_symbol dylib _) as [code|]; [by intros [= <- <- <-]|].
    intros He. by apply load_or_build_pointers in He.
  - intros He. by apply load_or_build_pointers in He.
Qed.

Lemma pointers_after_scalar i f :
  program_gradient_fn f = None ->
  pointers (after_scalar i f) = (bool_decide (is_Some (fn i)), bool_decide (is_Some (program_fn i)), false,
                                 bool_decide (is_Some (program_fn_vec f))) /\
  vec_lane_count (after_scalar i f) = vec_lane_count f.
Proof.
  intros E1. unfold after_scalar, pointers. destruct (decide _); simpl; by rewrite E1.
Qed.

Lemma ingest_gradient_pointers m name hit f ok f' :
  ingest_gradient m name hit f = (ok, f') -> pointers f = (false, false, false, false) ->
  pointers f' = (false, false, ok, false) /\ vec_lane_count f' = vec_lane_count f.
Proof.
  unfold ingest_gradient. destruct (gradient_dylib _ !! _); [by intros [= <- <-]|].
  destruct (lookup_gradient _ _); [|by intros [= <- <-]].
  intros [= <- <-] Hp. unfold pointers in *. cbn in *. injection Hp as -> -> _ ->. done.
Qed.

Lemma load_or_build_gradient_pointers signals t avx name path f disk ok f' disk' :
  load_or_build_gradient signals t avx name path f disk = Ok (ok, f', disk') ->
  pointers f = (false, false, false, false) ->
  pointers f' = (false, false, ok, false) /\ vec_lane_count f' = vec_lane_count f.
Proof.
  intros He Hp. unfold load_or_build_gradient in He.
  destruct (path ≫= fun p => ReadGradientFromCache p disk) as [m|].
  - destruct (ingest_gradient m name true f) as [ok1 f1] eqn:Ei. injection He as -> -> _.
    by eapply ingest_gradient_pointers.
  - destruct (build_gradient_function _ _) as [code|[]]; try done.
    + destruct (ingest_gradient _ name false f) as [ok1 f1] eqn:Ei. injection He as -> -> _.
      by eapply ingest_gradient_pointers.
    + by injection He as <- <- _.
Qed.

Lemma clear_pointers f : pointers (clear_functions f) = (false, false, false, false).
Proof. done. Qed.

Lemma Gradient_pointers disable signals t f disk ok f' disk' :
  CompileProgramGradient disable signals t f disk = Ok (ok, f', disk') ->
  pointers f' = (false, false, ok, false) /\ vec_lane_count f' = 0.
Proof.
  unfold CompileProgramGradient, CompileProgramGradientImpl.
  destruct (lljit (scalar_impl (clear_functions f))) as [d|]; [|by intros [= <- <- <-]].
  destruct signals as [|s signals]; [by intros [= <- <- <-]|].
  destruct (negb _).
  - destruct (lookup_gradient _ _); [by intros [= <- <- <-]|].
    intros He. by apply load_or_build_gradient_pointers in He.
  - intros He. by apply load_or_build_gradient_pointers in He.
Qed.

Lemma Vectorized_pointers disable signals t lanes f ok f' :
  CompileProgramVectorized disable signals t lanes f = Ok (ok, f') ->
  pointers f' = (false, false, false, ok) /\ vec_lane_count f' = (if ok then lanes else 0).
Proof.
  unfold CompileProgramVectorized.
  destruct (lljit (scalar_impl (clear_functions f))) as [d|]; [|by intros [= <- <-]].
  set (g := if _ && _ then _ else _). intros He.
  assert (Hg : pointers g = (false, false, false, false) /\ vec_lane_count g = 0)
    by (unfold g; by destruct (_ && _)).
  destruct Hg as [Hp Hl]. clearbody g.
  destruct (CompileProgramVectorizedImpl _ _ _ _ _ _) as [code|[]]; try done.
  - unfold ingest_vector in He. destruct (vector_dylib _ !! _); [by injection He as <- <-|].
    destruct (lookup_vector _ _); injection He as <- <-; [|done].
    unfold pointers in *. cbn in *. injection Hp as -> -> -> _. done.
  - by injection He as <- <-.
Qed.
End facts.

(** C31: Of the four function pointers of a compiler the three entries for
    programs leave exactly one set, whatever was set before: the one the entry
    is for, if the entry reports success, and none otherwise; the lane count is
    then the requested one after a successful vectorised compile and 0
    otherwise.  The entry for one signal does the same with the scalar and the
    gradient pointers, and leaves the vectorised function and its lane count
    as they were. *)
Theorem entries_exclusive {L} `{Machine double L} `{PlatformEntries} disable e f disk ok f' disk' :
  run_entry (L:=L) disable e f disk = Ok (ok, f', disk') ->
  pointers f' = pointers_after e ok f /\ VectorizedLaneCount f' = lanes_after e ok f.
Proof.
  unfold VectorizedLaneCount. destruct e as [s t|ss t w|ss t|ss t lanes]; simpl; intros He.
  - destruct (FullCompile disable s t f) as [[ok1 f1]|] eqn:E; [|done]. injection He as -> -> _.
    unfold FullCompile in E. apply bind_Ok in E as ([ok1 i] & E & [= <- <-]).
    apply Compile_pointers in E as [-> Hp].
    destruct (pointers_after_scalar i (clear_scalar_functions f)) as [-> ->]; [done|]. by rewrite Hp.
  - unfold FullCompileProgram in He. apply bind_Ok in He as ([[ok1 i] d1] & E & [= <- <- _]).
    apply Specialized_pointers in E as [Hf ->].
    destruct (pointers_after_scalar i (clear_functions f)) as [-> ->]; [done|]. by rewrite Hf.
  - by apply Gradient_pointers in He.
  - destruct (CompileProgramVectorized disable ss t lanes f) as [[ok1 f1]|] eqn:E; [|done].
    injection He as -> -> _. by apply Vectorized_pointers in E.
Qed.

(** ** The order of the entries *)

Section order.
Context {L : Type} `{Machine double L} `{PlatformEntries}.

(** The function of a gradient program as the code generator gets it. *)
Definition gradient_code (signals : list (SignalDef double)) (symbols : SymbolTable) (has_avx2 : bool)
  : option (GCode double) :=
  match build_gradient_function
          (EmitGradientProgram hash_order (MkConfig symbols kNone has_avx2 false ∅) signals)
          "LLVM verifyFunction failed (program gradient)" with
  | Ok code => Some (optimise_gradient code)
  | Err _ => None
  end.

Lemma load_or_build_keeps signals t lowering warm avx name path dylib i disk ok i' disk' :
  load_or_build signals t lowering warm avx name path dylib i disk = Ok (ok, i', disk') ->
  cache_dir i' = cache_dir i /\ host_has_avx2 i' = host_has_avx2 i /\
  (ok = true -> exists d, lljit i' = Some d /\ d <> ∅) /\
  (lljit i = Some dylib -> is_Some (lljit i')).
Proof.
  assert (Hi : forall m code i1, ingest m name dylib i = (code, i1) ->
    cache_dir i1 = cache_dir i /\ host_has_avx2 i1 = host_has_avx2 i /\
    (is_Some code -> exists d, lljit i1 = Some d /\ d <> ∅) /\
    (lljit i = Some dylib -> is_Some (lljit i1))).
  { unfold ingest, add_module. intros m code i1.
    destruct (dylib !! mod_fn m); [intros [= <- <-]; split_and!; [done..|by intros []|]; simpl; by intros ->|].
    destruct (lookup_symbol _ name) as [c|]; intros [= <- <-]; split_and!; try done; try (by intros []).
    all: intros _; eexists; split; [done|]; apply insert_non_empty. }
  intros He. unfold load_or_build in He.
  destruct (path ≫= fun p => ReadModuleFromCache p disk) as [m|].
  - destruct (ingest m name dylib i) as [code i1] eqn:Ei. apply Hi in Ei as (E1 & E2 & E3 & E4).
    destruct code; injection He as <- <- <-; split_and!; try done; intros _; by apply E3.
  - apply bind_Ok in He as ([msg|m] & _ & He).
    + injection He as <- <- <-. split_and!; try done; simpl; by intros ->.
    + destruct (ingest m name dylib i) as [code i1] eqn:Ei. apply Hi in Ei as (E1 & E2 & E3 & E4).
      destruct code; injection He as <- <- <-; split_and!; try done; intros _; by apply E3.
Qed.

(** A first scalar program registers the symbols without the gradient entry
    points. *)
Lemma first_program disable signals t warm env disk f disk' :
  FullCompileProgram disable signals t warm (FullImpl_init env) disk = Ok (true, f, disk') ->
  runtime_symbols f = Some false /\ gradient_dylib f = ∅ /\ cache_dir (scalar_impl f) = "" /\
  is_Some (lljit (scalar_impl f)) /\ host_has_avx2 (scalar_impl f) = host_avx2.
Proof.
  unfold FullCompileProgram. intros He. apply bind_Ok in He as ([[ok i] d1] & E & [= -> <- <-]).
  unfold CompileProgramSpecialized, CompileProgramImpl, FullImpl_init, JitCompiler_init in E.
  destruct create_lljit; [done|]. cbn -[load_or_build] in E. destruct signals as [|s signals]; [done|].
  apply load_or_build_keeps in E as (E1 & E2 & E3 & _). destruct (E3 eq_refl) as (d & Ed & Hd).
  unfold after_scalar. cbn. rewrite Ed. cbn. rewrite decide_False by done. cbn. by rewrite Ed.
Qed.

(** A gradient program of a compiler without a cache directory. *)
Lemma gradient_uncached disable signals t f disk code :
  signals <> [] -> is_Some (lljit (scalar_impl f)) -> cache_dir (scalar_impl f) = "" ->
  gradient_dylib f = ∅ -> gradient_code signals t (HasAVX2 disable (scalar_impl f)) = Some code ->
  codegen_gradient code = true ->
  rmap (fun r => fst (fst r)) (CompileProgramGradient disable signals t f disk) =
  Ok (links (register_runtime true f) code).
Proof.
  intros Hs [d Hd] Hc Hg Hcode Hgen. unfold CompileProgramGradient, CompileProgramGradientImpl.
  cbn. rewrite Hd. destruct signals as [|s signals]; [done|]. rewrite Hc. cbn.
  unfold load_or_build_gradient. cbn [mbind option_bind]. unfold gradient_code in Hcode. unfold HasAVX2 in *.
  cbn. rewrite Hd in *. destruct (build_gradient_function _ _) as [c|] eqn:Eb; [|done]. injection Hcode as Hcode.
  cbn. unfold ingest_gradient. cbn. rewrite Hg, lookup_empty. unfold lookup_gradient. cbn.
  rewrite lookup_insert_eq, Hcode, Hgen. cbn. unfold links. cbn. by destruct (_ || _ || _).
Qed.
End order.

(** C32: on a host whose linker does not find the [jit_rt_*_grad] functions by
    itself ([exports_gradient_symbols = false]; it does in the targets built
    with exported symbols), whether a gradient program compiles depends on
    what the compiler compiled before.  The runtime's symbols are registered
    once, with the [jit_rt_*_grad] functions only if the first module is a
    gradient module: a program that calls one of them, and whose code is
    emitted and can be generated, compiles on a fresh compiler and fails on
    one that has compiled a scalar program. *)
Theorem gradient_after_scalar_fails {L} `{Machine double L} `{PlatformEntries}
    disable env scalar_signals scalar_table warm signals table f disk disk' code :
  FullCompileProgram (L:=L) disable scalar_signals scalar_table warm (FullImpl_init env) disk = Ok (true, f, disk') ->
  signals <> [] ->
  gradient_code (L:=L) signals table (HasAVX2 disable (JitCompiler_init env)) = Some code ->
  codegen_gradient code = true -> calls_gradient code = true -> exports_gradient_symbols = false ->
  rmap (fun r => fst (fst r)) (CompileProgramGradient (L:=L) disable signals table f disk') = Ok false /\
  rmap (fun r => fst (fst r)) (CompileProgramGradient (L:=L) disable signals table (FullImpl_init env) disk') = Ok true.
Proof.
  intros Hf Hs Hcode Hgen Hcalls Hexp. pose proof (first_program _ _ _ _ _ _ _ _ Hf) as (Hr & Hg & Hcd & Hl & Hav).
  assert (Hi : is_Some (lljit (JitCompiler_init env)) /\ host_has_avx2 (JitCompiler_init env) = host_avx2 /\
    cache_dir (JitCompiler_init env) = "").
  { unfold JitCompiler_init. destruct create_lljit eqn:E; [|by simpl].
    unfold FullCompileProgram, FullImpl_init, JitCompiler_init in Hf. by rewrite E in Hf. }
  destruct Hi as (Hi & Ha & Hd). split.
  - rewrite (gradient_uncached _ _ _ _ _ code); try done.
    + unfold links. cbn. by rewrite Hcalls, Hexp, Hr.
    + rewrite <- Hcode. f_equal. unfold HasAVX2. destruct Hl as [? ->], Hi as [? ->]. by rewrite Ha, Hav.
  - rewrite (gradient_uncached _ _ _ _ _ code); try done. unfold links. cbn. by rewrite Hcalls, Hexp.
Qed.

Module EntriesExample.
#[export] Instance machine : Machine double long_double := CacheExample.machine.
#[export] Instance platform : Platform := CacheExample.platform.
#[export] Instance entries : PlatformEntries := {|
  optimise_gradient := fun c => c;
  optimise_vector := fun c => c;
  codegen_gradient := fun _ => true;
  codegen_vector := fun _ => true;
  WriteGradientBitcode := fun m => MkModule (gmod_fn m) Ret;
  parseGradientBitcode := fun _ => None;
  exports_gradient_symbols := false |}.

Definition table : SymbolTable := CacheExample.t0.
Definition scalar_program : list (SignalDef double) := CacheExample.program table.
(** A stateful program: its derivative code calls [jit_rt_sma_grad]. *)
Definition gradient_program : list (SignalDef double) := GradientExample.signals.
Definition fresh_compiler : FullImpl := FullImpl_init None.
End EntriesExample.
#[local] Existing Instances EntriesExample.machine EntriesExample.platform EntriesExample.entries.

Lemma gradient_after_scalar_fails_witness : exists f disk,
  FullCompileProgram (L:=long_double) None EntriesExample.scalar_program EntriesExample.table false
    (FullImpl_init None) ∅ = Ok (true, f, disk) /\
  rmap (fun r => fst (fst r)) (CompileProgramGradient (L:=long_double) None EntriesExample.gradient_program
    EntriesExample.table f disk) = Ok false.
Proof.
  destruct (FullCompileProgram (L:=long_double) None EntriesExample.scalar_program EntriesExample.table false
    (FullImpl_init None) ∅) as [[[ok f] disk]|] eqn:E; [|by vm_compute in E].
  assert (ok = true) as -> by (vm_compute in E; by injection E).
  exists f, disk. split; [done|].
  destruct (gradient_code (L:=long_double) EntriesExample.gradient_program EntriesExample.table
    (HasAVX2 None (JitCompiler_init None))) as [code|] eqn:Ec; [|by vm_compute in Ec].
  assert (Hc : calls_gradient code = true) by (vm_compute in Ec; by injection Ec as <-).
  refine (proj1 (gradient_after_scalar_fails None None EntriesExample.scalar_program EntriesExample.table false
    EntriesExample.gradient_program EntriesExample.table f ∅ disk code E _ Ec eq_refl Hc eq_refl)).
  discriminate.
Defined.

Lemma entries_exclusive_witness : exists f disk,
  run_entry (L:=long_double) None
    (EntryProgram EntriesExample.scalar_program EntriesExample.table false)
    EntriesExample.fresh_compiler ∅ = Ok (true, f, disk) /\
  pointers f = (false, true, false, false) /\ VectorizedLaneCount f = 0.
Proof.
  destruct (run_entry (L:=long_double) None (EntryProgram EntriesExample.scalar_program EntriesExample.table false)
    EntriesExample.fresh_compiler ∅) as [[[ok f] disk]|] eqn:E; [|by vm_compute in E].
  assert (ok = true) as -> by (vm_compute in E; by injection E).
  exists f, disk. split; [done|].
  by apply (entries_exclusive None (EntryProgram EntriesExample.scalar_program EntriesExample.table false)
    EntriesExample.fresh_compiler ∅ true f disk).
Defined.
