(* ===== verification/LatencyFacts.v ===== *)
(** * What a percentile of the latency histogram says

    The bucket of a sample is monotone in the sample, so the scan of the
    buckets finds the bucket of the sample of the asked rank.  From 16 ns on
    its midpoint is within one part in 32 of that sample; below, a bucket's
    bounds are not those of the samples it counts. *)

From Stdlib Require Import Sorted Permutation.
From S2P Require Import Prelude Errors Arith Rolling Context LatencyHistogram.

#[local] Open Scope Z_scope.

(** ** The bucket of a sample *)

Definition bucket_of (ns : Z) : Z :=
  if ns =? 0 then 0
  else if 30 <=? Z.log2 ns then 479
  else Z.log2 ns * 16 + Z.land (Z.shiftr ns (Z.max 0 (Z.log2 ns - 4))) 15.

(** The midpoint [HistPercentile] returns for a bucket. *)
Definition midpoint (b : Z) : Z :=
  if b <? 16 then b
  else 2 ^ (b / 16) + b mod 16 * 2 ^ Z.max 0 (b / 16 - 4) + 2 ^ Z.max 0 (b / 16 - 4) / 2.

Lemma land_15 z : Z.land z 15 = z mod 16.
Proof. change 15 with (Z.ones 4). by rewrite Z.land_ones. Qed.

(** Below 16 the leading bit is not dropped. *)
Lemma bucket_small ns : 1 <= ns < 16 -> bucket_of ns = Z.log2 ns * 16 + ns.
Proof.
  intros Hns. assert (Z.log2 ns < 4) by (apply Z.log2_lt_pow2; lia).
  unfold bucket_of. destruct (Z.eqb_spec ns 0), (Z.leb_spec 30 (Z.log2 ns)); [lia..|].
  rewrite Z.max_l, Z.shiftr_0_r, land_15, Z.mod_small by lia. done.
Qed.

(** From 16 on, the quotient by the width of the buckets of its magnitude. *)
Lemma bucket_large ns (m := Z.log2 ns) :
  16 <= ns < 2 ^ 30 ->
  4 <= m < 30 /\ 16 <= ns / 2 ^ (m - 4) < 32 /\ bucket_of ns = m * 16 + (ns / 2 ^ (m - 4) - 16).
Proof.
  intros Hns. destruct (Z.log2_spec ns ltac:(lia)) as [Hlo Hhi]. fold m in Hlo, Hhi.
  assert (Hm : 4 <= m < 30).
  { split; [apply Z.log2_le_pow2; lia|apply Z.log2_lt_pow2; lia]. }
  assert (E : 2 ^ m = 2 ^ (m - 4) * 16) by (replace m with (m - 4 + 4) at 1 by lia; by rewrite Z.pow_add_r by lia).
  rewrite Z.pow_succ_r in Hhi by lia. assert (0 < 2 ^ (m - 4)) by (apply Z.pow_pos_nonneg; lia).
  assert (Hq : 16 <= ns / 2 ^ (m - 4) < 32).
  { split; [apply Z.div_le_lower_bound|apply Z.div_lt_upper_bound]; lia. }
  split_and!; try lia. unfold bucket_of. fold m.
  destruct (Z.eqb_spec ns 0), (Z.leb_spec 30 m); [lia..|].
  rewrite Z.max_r, Z.shiftr_div_pow2, land_15 by lia.
  replace (ns / 2 ^ (m - 4)) with (ns / 2 ^ (m - 4) - 16 + 1 * 16) at 1 by lia.
  rewrite Z.mod_add, Z.mod_small by lia. done.
Qed.

Lemma bucket_overflow ns : 2 ^ 30 <= ns -> bucket_of ns = 479.
Proof.
  intros Hns. assert (30 <= Z.log2 ns) by (apply Z.log2_le_pow2; lia). unfold bucket_of.
  destruct (Z.eqb_spec ns 0), (Z.leb_spec 30 (Z.log2 ns)); lia.
Qed.

Lemma bucket_range ns : 0 <= ns -> 0 <= bucket_of ns < 480.
Proof.
  intros Hns. destruct (decide (ns = 0)) as [->|]; [done|].
  destruct (decide (ns < 16)).
  { rewrite bucket_small by lia. assert (Z.log2 ns < 4) by (apply Z.log2_lt_pow2; lia).
    pose proof (Z.log2_nonneg ns). lia. }
  destruct (decide (ns < 2 ^ 30)); [|rewrite bucket_overflow; lia].
  destruct (bucket_large ns ltac:(lia)) as (? & ? & ->). lia.
Qed.

Lemma bucket_mono x y : 0 <= x <= y -> bucket_of x <= bucket_of y.
Proof.
  intros Hxy. destruct (decide (x = 0)) as [->|]; [apply bucket_range; lia|].
  pose proof (Z.log2_le_mono x y ltac:(lia)). pose proof (Z.log2_nonneg x).
  destruct (decide (2 ^ 30 <= y)); [rewrite (bucket_overflow y) by done; pose proof (bucket_range x); lia|].
  destruct (decide (y < 16)); [rewrite !bucket_small by lia; lia|].
  destruct (bucket_large y ltac:(lia)) as (My & Qy & ->).
  destruct (decide (x < 16)).
  { rewrite bucket_small by lia. assert (Z.log2 x < 4) by (apply Z.log2_lt_pow2; lia). lia. }
  destruct (bucket_large x ltac:(lia)) as (Mx & Qx & ->).
  destruct (decide (Z.log2 x = Z.log2 y)) as [E|]; [|lia]. rewrite E in *.
  assert (x / 2 ^ (Z.log2 y - 4) <= y / 2 ^ (Z.log2 y - 4)); [|lia].
  apply Z.div_le_mono; [apply Z.pow_pos_nonneg|]; lia.
Qed.

(** How far the midpoint of a sample's bucket is from the sample. *)
Lemma midpoint_tiny ns : 0 <= ns <= 1 -> midpoint (bucket_of ns) = ns.
Proof. intros Hns. by assert (ns = 0 \/ ns = 1) as [->| ->] by lia. Qed.

Lemma midpoint_small ns : 2 <= ns < 16 -> midpoint (bucket_of ns) = ns + 2 ^ Z.log2 ns.
Proof.
  intros Hns. rewrite bucket_small by lia.
  assert (1 <= Z.log2 ns) by (apply Z.log2_le_pow2; lia).
  assert (Z.log2 ns < 4) by (apply Z.log2_lt_pow2; lia).
  assert (E : (Z.log2 ns * 16 + ns) / 16 = Z.log2 ns)
    by (rewrite Z.div_add_l, Z.div_small by lia; lia).
  assert (F : (Z.log2 ns * 16 + ns) mod 16 = ns)
    by (rewrite Z.add_comm, Z.mod_add, Z.mod_small by lia; lia).
  unfold midpoint. destruct (Z.ltb_spec (Z.log2 ns * 16 + ns) 16); [lia|].
  rewrite E, F, Z.max_l by lia. change (2 ^ 0 / 2) with 0. lia.
Qed.

Lemma midpoint_large ns : 16 <= ns < 2 ^ 30 -> 32 * Z.abs (midpoint (bucket_of ns) - ns) <= ns.
Proof.
  intros Hns. destruct (bucket_large ns Hns) as (Hm & Hq & ->).
  set (m := Z.log2 ns) in *. set (w := 2 ^ (m - 4)) in *. set (q := ns / w) in *.
  assert (E : (m * 16 + (q - 16)) / 16 = m) by (rewrite Z.div_add_l, Z.div_small by lia; lia).
  assert (F : (m * 16 + (q - 16)) mod 16 = q - 16)
    by (rewrite Z.add_comm, Z.mod_add, Z.mod_small by lia; lia).
  unfold midpoint. destruct (Z.ltb_spec (m * 16 + (q - 16)) 16); [lia|].
  rewrite E, F, Z.max_r by lia. fold w.
  assert (0 < w) by (apply Z.pow_pos_nonneg; lia).
  assert (E2 : 2 ^ m = w * 16) by (unfold w; replace m with (m - 4 + 4) at 1 by lia; by rewrite Z.pow_add_r by lia).
  pose proof (Z.div_mod ns w ltac:(lia)) as Hd. pose proof (Z.mod_pos_bound ns w ltac:(lia)).
  fold q in Hd. pose proof (Z.div_mod w 2 ltac:(lia)). pose proof (Z.mod_pos_bound w 2 ltac:(lia)).
  assert (w = 1 \/ w mod 2 = 0) as [Hw|Hw].
  { destruct (decide (m = 4)) as [E4|]; [left; unfold w; by rewrite E4|right].
    unfold w. replace (m - 4) with (1 + (m - 5)) by lia. rewrite Z.pow_add_r by lia.
    rewrite Z.mul_comm. apply Z.mod_mul. lia. }
  - rewrite Hw in *. change (1 / 2) with 0. lia.
  - nia.
Qed.

(** ** What a histogram holds *)

Notation occurrences P xs := (Z.of_nat (length (filter P xs))).

Record hist_rep (h : LatencyHistogram) (xs : list Z) : Prop := {
  hr_length : length (buckets_ h) = 480%nat;
  hr_buckets : forall i, 0 <= i < 480 ->
    buckets_ h !! Z.to_nat i = Some (occurrences (fun x => bucket_of x = i) xs);
  hr_total : hist_total_ h = Z.of_nat (length xs);
  hr_overflow : overflow_ h = occurrences (fun x => 2 ^ 30 <= x) xs;
  hr_max : max_observed_ h = foldr Z.max 0 xs;
  hr_min : min_observed_ h = foldr Z.min UINT64_MAX xs }.

Lemma hist_rep_Reset : hist_rep HistReset [].
Proof.
  split; try done. intros i Hi. cbn [buckets_ HistReset].
  apply lookup_replicate_2. change (Z.to_nat kBucketCount) with 480%nat. lia.
Qed.

Lemma bump_Ok idx h c :
  0 <= idx -> buckets_ h !! Z.to_nat idx = Some c -> 0 <= c < 2 ^ 64 - 1 ->
  bump idx h = Ok (MkHistogram (<[Z.to_nat idx := c + 1]> (buckets_ h)) (hist_total_ h) (overflow_ h)
                     (max_observed_ h) (min_observed_ h)).
Proof.
  intros Hi Hc Hb. unfold bump, at_Z, at_idx. destruct (Z.ltb_spec idx 0); [lia|]. rewrite Hc.
  cbn [rbind]. unfold u64. by rewrite Z.mod_small by lia.
Qed.

(** [HistAdd] counts the sample in its bucket. *)
Lemma HistAdd_bucket ns h c :
  0 <= ns -> buckets_ h !! Z.to_nat (bucket_of ns) = Some c -> 0 <= c < 2 ^ 64 - 1 ->
  HistAdd ns h = Ok (MkHistogram (<[Z.to_nat (bucket_of ns) := c + 1]> (buckets_ h))
    (u64 (hist_total_ h + 1))
    (if 2 ^ 30 <=? ns then u64 (overflow_ h + 1) else overflow_ h)
    (if max_observed_ h <? ns then ns else max_observed_ h)
    (if ns <? min_observed_ h then ns else min_observed_ h)).
Proof.
  intros Hns Hc Hb. pose proof (bucket_range ns Hns) as [Hr _]. unfold HistAdd, bucket_of in *.
  destruct (Z.eqb_spec ns 0) as [->|Hne]; [by rewrite (bump_Ok _ _ c)|].
  change kMaxMagnitude with 30. change (kBucketCount - 1) with 479.
  destruct (Z.leb_spec 30 (Z.log2 ns)) as [Hbig|Hsm].
  - assert (2 ^ 30 <= ns) by (apply Z.log2_le_pow2; lia).
    rewrite (proj2 (Z.leb_le _ _)) by done. by rewrite (bump_Ok _ _ c).
  - assert (ns < 2 ^ 30) by (apply Z.log2_lt_pow2; lia).
    rewrite (proj2 (Z.leb_gt _ _)) by done.
    change (kSubBuckets - 1) with 15. change kSubBuckets with 16. change kPrecisionBits with 4.
    replace (if Z.log2 ns - 4 <? 0 then 0 else Z.log2 ns - 4) with (Z.max 0 (Z.log2 ns - 4))
      by (destruct (Z.ltb_spec (Z.log2 ns - 4) 0); lia).
    by rewrite (bump_Ok _ _ c).
Qed.

Lemma occurrences_snoc (P : Z -> Prop) `{!forall x, Decision (P x)} xs x :
  occurrences P (xs ++ [x]) = occurrences P xs + (if decide (P x) then 1 else 0).
Proof.
  rewrite filter_app, length_app, filter_cons. destruct (decide (P x)); simpl; lia.
Qed.

Lemma occurrences_le (P : Z -> Prop) `{!forall x, Decision (P x)} xs :
  0 <= occurrences P xs <= Z.of_nat (length xs).
Proof. pose proof (length_filter P xs). lia. Qed.

Lemma foldr_snoc_comm (f : Z -> Z -> Z) z x xs :
  (forall a b c, f a (f b c) = f b (f a c)) -> foldr f z (xs ++ [x]) = f x (foldr f z xs).
Proof. intros Hf. induction xs as [|y xs IH]; simpl; [done|]. by rewrite IH, Hf. Qed.

Lemma HistAdd_rep h xs x :
  hist_rep h xs -> 0 <= x < 2 ^ 64 -> Z.of_nat (length xs) < 2 ^ 64 - 1 ->
  exists h', HistAdd x h = Ok h' /\ hist_rep h' (xs ++ [x]).
Proof.
  intros [Hl Hb Ht Ho Hmax Hmin] Hx Hn. pose proof (bucket_range x ltac:(lia)) as Hr.
  pose proof (occurrences_le (fun y => bucket_of y = bucket_of x) xs).
  rewrite (HistAdd_bucket x h _ ltac:(lia) (Hb _ Hr)) by lia.
  eexists. split; [done|]. split; cbn.
  - by rewrite length_insert.
  - intros i Hi. rewrite occurrences_snoc. destruct (decide (bucket_of x = i)) as [<-|Hne].
    + apply list_lookup_insert_eq. lia.
    + rewrite list_lookup_insert_ne by lia. rewrite (Hb i Hi). f_equal. lia.
  - rewrite Ht, length_app. unfold u64. simpl. rewrite Z.mod_small by lia. lia.
  - pose proof (occurrences_le (fun y => 2 ^ 30 <= y) xs) as Hle. rewrite occurrences_snoc, Ho.
    destruct (Z.leb_spec (2 ^ 30) x), (decide (2 ^ 30 <= x)); try lia.
    unfold u64. rewrite Z.mod_small by lia. lia.
  - rewrite foldr_snoc_comm, Hmax by lia. destruct (Z.ltb_spec (foldr Z.max 0 xs) x); lia.
  - rewrite foldr_snoc_comm, Hmin by lia. destruct (Z.ltb_spec x (foldr Z.min UINT64_MAX xs)); lia.
Qed.

Lemma HistAddAll_rep xs h ys :
  hist_rep h ys -> Forall (fun x => 0 <= x < 2 ^ 64) xs -> Z.of_nat (length ys + length xs) < 2 ^ 64 ->
  exists h', HistAddAll xs h = Ok h' /\ hist_rep h' (ys ++ xs).
Proof.
  revert h ys. induction xs as [|x xs IH]; intros h ys Hh HF Hn.
  - exists h. by rewrite app_nil_r.
  - inversion HF as [|? ? Hx HF']; subst. simpl in Hn.
    destruct (HistAdd_rep h ys x Hh Hx) as (h1 & E1 & H1); [lia|].
    destruct (IH h1 (ys ++ [x]) H1 HF') as (h2 & E2 & H2); [rewrite length_app; simpl; lia|].
    exists h2. simpl. rewrite E1. cbn [rbind]. split; [done|]. by rewrite <- app_assoc in H2.
Qed.

(** ** The scan *)

Lemma HistAt_midpoint h xs b :
  hist_rep h xs -> 0 <= b < 480 -> exists bv, HistAt b h = Ok bv /\
    u64 (lo_ns bv + u64 (hi_ns bv - lo_ns bv) / 2) = midpoint b.
Proof.
  intros [Hl Hb _ _ _ _] Hr. unfold HistAt, at_Z, at_idx.
  destruct (Z.ltb_spec b 0); [lia|]. rewrite (Hb b Hr). cbn [rbind].
  change kSubBuckets with 16. change kPrecisionBits with 4.
  rewrite Z.quot_div_nonneg, Z.rem_mod_nonneg by lia.
  pose proof (Z.mod_pos_bound b 16 ltac:(lia)). pose proof (Z.div_mod b 16 ltac:(lia)).
  assert (Hu : forall z, 0 <= z < 2 ^ 64 -> u64 z = z) by (intros z Hz; by apply Z.mod_small).
  destruct (Z.eqb_spec (b / 16) 0) as [E|E].
  - eexists. split; [done|]. cbn [lo_ns hi_ns].
    rewrite (Hu (b mod 16)), (Hu (b mod 16 + 1)) by lia.
    replace (b mod 16 + 1 - b mod 16) with 1 by lia. rewrite (Hu 1) by lia. change (1 / 2) with 0.
    rewrite Hu by lia. unfold midpoint. destruct (Z.ltb_spec b 16); lia.
  - assert (1 <= b / 16 < 30) by lia.
    assert (P : 2 ^ (b / 16) <= 2 ^ 29) by (apply Z.pow_le_mono_r; lia).
    assert (P0 : 0 < 2 ^ (b / 16)) by (apply Z.pow_pos_nonneg; lia).
    set (w := 2 ^ Z.max 0 (b / 16 - 4)).
    assert (W : 0 < w <= 2 ^ 25).
    { split; [apply Z.pow_pos_nonneg|apply Z.pow_le_mono_r]; lia. }
    assert (Es : (if 0 <=? b / 16 - 4 then Z.shiftl 1 (b / 16 - 4) else 1) = w).
    { unfold w. destruct (Z.leb_spec 0 (b / 16 - 4)); [rewrite Z.shiftl_1_l; f_equal; lia|].
      by rewrite Z.max_l by lia. }
    rewrite Es, Z.shiftl_1_l. eexists. split; [done|]. cbn [lo_ns hi_ns].
    assert (0 <= b mod 16 * w <= 15 * 2 ^ 25) by nia.
    pose proof (Z.div_le_upper_bound w 2 w ltac:(lia) ltac:(lia)).
    pose proof (Z.div_pos w 2 ltac:(lia) ltac:(lia)).
    rewrite !(Hu (b mod 16)), (Hu (2 ^ (b / 16) + _)) by lia.
    rewrite (Hu (2 ^ (b / 16) + b mod 16 * w + w)) by lia.
    replace (2 ^ (b / 16) + b mod 16 * w + w - (2 ^ (b / 16) + b mod 16 * w)) with w by lia.
    rewrite (Hu w), Hu by lia. unfold midpoint. fold w. destruct (Z.ltb_spec b 16); [|done].
    pose proof (Z.div_small b 16). lia.
Qed.

(** In a sorted list the elements with a property that smaller elements
    inherit are a prefix. *)
Lemma sorted_rank (P : Z -> Prop) `{!forall x, Decision (P x)} s k v :
  StronglySorted Z.le s -> (forall x y, x ∈ s -> y ∈ s -> x <= y -> P y -> P x) -> s !! k = Some v ->
  P v <-> (k < length (filter P s))%nat.
Proof.
  intros Hs. revert k. induction Hs as [|x s Hs IH HF]; intros k HP Hk; [done|].
  rewrite filter_cons. assert (HP' : forall x y, x ∈ s -> y ∈ s -> x <= y -> P y -> P x).
  { intros y z Hy Hz. apply HP; by apply list_elem_of_further. }
  assert (Hx : forall y, y ∈ s -> P y -> P x).
  { intros y Hy. apply HP; [by apply list_elem_of_here|by apply list_elem_of_further|].
    by eapply Forall_forall in HF. }
  assert (Hnone : ~ P x -> length (filter P s) = 0%nat).
  { intros Hn. destruct (filter P s) as [|y l] eqn:E; [done|].
    assert (Hy : y ∈ filter P s) by (rewrite E; apply list_elem_of_here).
    apply list_elem_of_filter in Hy as [Hp Hy]. by destruct (Hn (Hx y Hy Hp)). }
  destruct k as [|k]; simpl in Hk.
  - injection Hk as <-. destruct (decide (P x)) as [Hp|Hn]; simpl; [split; [lia|done]|].
    rewrite (Hnone Hn). split; [done|lia].
  - rewrite (IH k HP' Hk). destruct (decide (P x)) as [Hp|Hn]; simpl; [lia|].
    rewrite (Hnone Hn). lia.
Qed.

Lemma occurrences_below i xs :
  occurrences (fun x => bucket_of x < i + 1) xs =
  occurrences (fun x => bucket_of x < i) xs + occurrences (fun x => bucket_of x = i) xs.
Proof.
  induction xs as [|x xs IH]; [done|]. rewrite !filter_cons.
  destruct (decide (bucket_of x < i + 1)), (decide (bucket_of x < i)), (decide (bucket_of x = i));
    simpl; lia.
Qed.

(** The sample of rank [t], counted from 1. *)
Definition sample_of_rank (t : Z) (xs : list Z) (v : Z) : Prop :=
  exists s, xs ≡ₚ s /\ StronglySorted Z.le s /\ 1 <= t /\ s !! Z.to_nat (t - 1) = Some v.

Lemma rank_bucket t xs v i :
  Forall (fun x => 0 <= x < 2 ^ 64) xs -> sample_of_rank t xs v ->
  bucket_of v < i <-> t <= occurrences (fun x => bucket_of x < i) xs.
Proof.
  intros HF (s & Hp & Hs & Ht & Hv). rewrite Hp in HF |- *.
  rewrite (sorted_rank (fun x => bucket_of x < i) s (Z.to_nat (t - 1)) v Hs); [lia| |done].
  intros x y Hx Hy Hxy Hlt. destruct (proj1 (Forall_forall _ _) HF x Hx).
  pose proof (bucket_mono x y). lia.
Qed.

Lemma percentile_scan_rank h xs t v :
  hist_rep h xs -> Forall (fun x => 0 <= x < 2 ^ 64) xs -> Z.of_nat (length xs) < 2 ^ 64 ->
  sample_of_rank t xs v -> forall n i,
  Z.of_nat n + i = 480 -> 0 <= i <= bucket_of v ->
  percentile_scan n i t (occurrences (fun x => bucket_of x < i) xs) h = Ok (midpoint (bucket_of v)).
Proof.
  intros Hh HF Hlen Hv n. assert (Hv0 : 0 <= v).
  { destruct Hv as (s & Hp & _ & _ & Hv). rewrite Hp in HF. eapply Forall_lookup_1 in HF; [|done]. lia. }
  pose proof (bucket_range v Hv0).
  induction n as [|n IH]; intros i Hn Hi; [lia|]. cbn [percentile_scan].
  unfold at_Z, at_idx. destruct (Z.ltb_spec i 0); [lia|]. rewrite (hr_buckets h xs Hh i) by lia.
  cbn [rbind]. rewrite <- occurrences_below.
  pose proof (occurrences_le (fun x => bucket_of x < i + 1) xs).
  unfold u64 at 1. rewrite Z.mod_small by lia.
  pose proof (rank_bucket t xs v (i + 1) HF Hv) as Hr.
  destruct (Z.leb_spec t (occurrences (fun x => bucket_of x < i + 1) xs)) as [Hle|Hgt].
  - assert (i = bucket_of v) as -> by (apply Hr in Hle; lia).
    destruct (HistAt_midpoint h xs (bucket_of v) Hh) as (bv & -> & E); [lia|]. cbn [rbind]. by rewrite E.
  - unfold u64. rewrite Z.mod_small by lia. apply IH; [lia|]. split; [lia|].
    destruct (decide (bucket_of v < i + 1)); [|lia]. exfalso. rewrite Hr in *. lia.
Qed.

(** No bucket lies below the first. *)
Lemma occurrences_none xs :
  Forall (fun x => 0 <= x < 2 ^ 64) xs -> occurrences (fun x => bucket_of x < 0) xs = 0.
Proof.
  induction 1 as [|y ys Hy _ IH]; [done|]. rewrite filter_cons.
  destruct (decide (bucket_of y < 0)); [|done]. pose proof (bucket_range y). lia.
Qed.

(** The scan from the first bucket. *)
Lemma percentile_of_rank h xs t v :
  hist_rep h xs -> Forall (fun x => 0 <= x < 2 ^ 64) xs -> Z.of_nat (length xs) < 2 ^ 64 ->
  0 <= v -> sample_of_rank t xs v ->
  percentile_scan (Z.to_nat kBucketCount) 0 t 0 h = Ok (midpoint (bucket_of v)).
Proof.
  intros Hh HF Hn Hv0 Hv. pose proof (bucket_range v Hv0).
  pose proof (percentile_scan_rank h xs t v Hh HF Hn Hv 480%nat 0 ltac:(lia) ltac:(lia)) as Hscan.
  by rewrite occurrences_none in Hscan.
Qed.

(** Rank zero is reached at the first bucket, which stands for 0. *)
Lemma percentile_scan_zero h xs :
  hist_rep h xs -> Z.of_nat (length xs) < 2 ^ 64 ->
  percentile_scan (Z.to_nat kBucketCount) 0 0 0 h = Ok 0.
Proof.
  intros Hh Hn. change (Z.to_nat kBucketCount) with 480%nat. cbn [percentile_scan].
  unfold at_Z at 1, at_idx. cbn [Z.ltb Z.compare]. rewrite (hr_buckets h xs Hh 0) by lia. cbn [rbind].
  pose proof (occurrences_le (fun x => bucket_of x = 0) xs).
  unfold u64 at 1. rewrite Z.mod_small by lia. destruct (Z.leb_spec 0 (0 + occurrences (fun x => bucket_of x = 0) xs)); [|lia].
  destruct (HistAt_midpoint h xs 0 Hh) as (bv & -> & E); [lia|]. cbn [rbind]. by rewrite E.
Qed.

(** ** The percentiles *)

(** C37: the histogram never indexes its buckets out of range and counts every
    sample.  Asked for a percentile it returns 0 if it is empty, the least
    sample for [p <= 0] and the greatest for [p >= 1]; between, 0 if the
    target rounds to rank zero, and if the target is the rank [t >= 1] and [v]
    the sample of that rank, [v] itself for [v <= 1], a value within one part
    in 32 of [v] for samples from 16 to [2^30 - 1] ns, the middle of the last
    bucket for samples of [2^30] ns and more, and for samples from 2 to 15 ns
    a value too large by the power of two below them. *)
Theorem HistPercentile_accurate xs p :
  Forall (fun x => 0 <= x < 2 ^ 64) xs -> Z.of_nat (length xs) < 2 ^ 64 ->
  exists h, HistAddAll xs HistReset = Ok h /\
    HistTotal h = Z.of_nat (length xs) /\
    HistOverflow h = occurrences (fun x => 2 ^ 30 <= x) xs /\
    HistMax h = foldr Z.max 0 xs /\ (xs <> [] -> HistMin h = foldr Z.min UINT64_MAX xs) /\
    (xs = [] -> HistPercentile p h = Ok 0) /\
    (xs <> [] -> fle p (fint 0) = true -> HistPercentile p h = Ok (foldr Z.min UINT64_MAX xs)) /\
    (xs <> [] -> fle p (fint 0) = false -> fge p (fint 1) = true ->
       HistPercentile p h = Ok (foldr Z.max 0 xs)) /\
    (fle p (fint 0) = false -> fge p (fint 1) = false ->
       percentile_target p (Z.of_nat (length xs)) = Ok 0 -> HistPercentile p h = Ok 0) /\
    (forall t v, fle p (fint 0) = false -> fge p (fint 1) = false ->
       percentile_target p (Z.of_nat (length xs)) = Ok t -> sample_of_rank t xs v ->
       exists q, HistPercentile p h = Ok q /\
         (v <= 1 -> q = v) /\ (2 <= v < 16 -> q = v + 2 ^ Z.log2 v) /\
         (16 <= v < 2 ^ 30 -> 32 * Z.abs (q - v) <= v) /\ (2 ^ 30 <= v -> q = 2 ^ 30 - 2 ^ 24)).
Proof.
  intros HF Hn.
  destruct (HistAddAll_rep xs HistReset [] hist_rep_Reset HF) as (h & E & Hh); [simpl; lia|].
  simpl in Hh. exists h. pose proof (hr_total h xs Hh) as Htot.
  assert (Hne : xs <> [] -> hist_total_ h =? 0 = false).
  { intros Hx. rewrite Htot. apply Z.eqb_neq. destruct xs; [done|simpl; lia]. }
  split; [done|]. split; [exact Htot|]. split; [apply Hh|]. split; [apply Hh|].
  split; [intros Hx; unfold HistMin; rewrite Hne by done; apply Hh|].
  unfold HistPercentile. split_and!.
  - intros ->. by rewrite Htot.
  - intros Hx ->. rewrite Hne by done. unfold HistMin. rewrite Hne by done. f_equal. apply Hh.
  - intros Hx -> ->. rewrite Hne by done. f_equal. apply Hh.
  - intros -> -> Ht. destruct (Z.eqb_spec (hist_total_ h) 0); [done|].
    rewrite Htot, Ht. cbn [rbind]. by apply (percentile_scan_zero h xs).
  - intros t v -> -> Ht Hv. exists (midpoint (bucket_of v)).
    assert (Hvx : v ∈ xs).
    { destruct Hv as (s & Hp & _ & _ & Hv). rewrite Hp. by eapply list_elem_of_lookup_2. }
    destruct (proj1 (Forall_forall _ _) HF v Hvx) as [Hv0 _]. pose proof (bucket_range v Hv0).
    rewrite Hne by (intros ->; by apply not_elem_of_nil in Hvx). rewrite Htot, Ht. cbn [rbind].
    split; [by apply (percentile_of_rank h xs)|]. split_and!.
    + intros. apply midpoint_tiny. lia.
    + intros. by apply midpoint_small.
    + intros. by apply midpoint_large.
    + intros. by rewrite bucket_overflow.
Qed.

Lemma HistPercentile_accurate_witness :
  percentile_target (flit 50 2) 5 = Ok 3 /\ sample_of_rank 3 [100; 90; 3000; 90; 2000] 100 /\
  exists h q, HistAddAll [100; 90; 3000; 90; 2000] HistReset = Ok h /\ HistPercentile (flit 50 2) h = Ok q /\
    32 * Z.abs (q - 100) <= 100.
Proof.
  assert (Hr : sample_of_rank 3 [100; 90; 3000; 90; 2000] 100).
  { exists [90; 90; 100; 2000; 3000]. split_and!; [| |lia|done].
    - apply (bool_decide_unpack _). vm_compute. exact I.
    - repeat constructor; lia. }
  split; [by vm_compute|]. split; [exact Hr|].
  destruct (HistPercentile_accurate [100; 90; 3000; 90; 2000] (flit 50 2))
    as (h & E1 & _ & _ & _ & _ & _ & _ & _ & _ & Hrank).
  - repeat constructor; lia.
  - done.
  - destruct (Hrank 3 100) as (q & E2 & _ & _ & Hq & _); [by vm_compute..|exact Hr|].
    exists h, q. split_and!; [exact E1|exact E2|]. apply Hq. lia.
Defined.

(** Below 16 ns the percentiles are not monotone and exceed every sample:
    of the samples 15, 15 and 16 the median is reported as 23 and the 99th
    percentile as 16.  And a percentile so low that its target rounds to rank
    zero is 0, whatever the samples. *)
Theorem HistPercentile_not_monotone :
  exists h, HistAddAll [15; 15; 16] HistReset = Ok h /\
    HistPercentile (flit 50 2) h = Ok 23 /\ HistPercentile (flit 99 2) h = Ok 16 /\
    HistMax h = 16 /\ HistMin h = 15 /\ HistPercentile (flit 1 1) h = Ok 0.
Proof. eexists. split; [vm_compute; reflexivity|]. by vm_compute. Qed.
