(* ===== verification/CalibrationFacts.v ===== *)
(** * What the calibrator computes

    In exact arithmetic its gradient is the derivative of its objective if
    the compiled function returns derivatives, and a step of Adam is bounded
    whatever the gradients are.  A calibration that is reported improved the
    objective. *)

From Stdlib Require Import Reals Lra.
From S2P Require Import Prelude Errors Arith RealArith Calculus Ast SymbolTable SignalProgram Rolling Context Interpreter JitRuntime Gradient Lowered Ir JitCompiler GradientCompiler Calibration.

(** ** The loop over the ticks *)

Section ticks.
Context {D L : Type} `{Machine D L}.
Implicit Types (fn : ProgramGradientFn (D:=D) (L:=L)) (program : PreparedProgram D).
Implicit Types (arena : MultiSymbolSignalContext D L) (r : EvalResult D).

(** The predictions and derivatives of one run over the ticks, from an arena
    that is fresh; the function must write the slot that is read. *)
Fixpoint run_ticks fn program (param_index : nat) (ticks : list (TickRow D)) arena : Res (list (D * D)) :=
  match ticks with
  | [] => Ok []
  | tick :: ticks' =>
      market <- MakeMarket tick (input_symbol_id program);;
      '(out, grad, arena) <- fn market 0 (Z.of_nat param_index) arena;;
      match out !! output_index program, grad !! output_index program with
      | Some pred, Some slope =>
          if isfinite pred && isfinite slope
          then rmap (cons (pred, slope)) (run_ticks fn program param_index ticks' arena)
          else Err (RuntimeError "Calibration hit non-finite compiled output/gradient")
      | _, _ => Err (Undefined "outputs")
      end
  end.

(** What a run adds to the result. *)
Fixpoint add_rows (param_index : nat) (inv_n : D) (rows : list (D * D)) (ticks : list (TickRow D)) r : EvalResult D :=
  match rows, ticks with
  | (pred, slope) :: rows', tick :: ticks' =>
      add_rows param_index inv_n rows' ticks'
        (add_tick param_index inv_n (fsub pred (tick_target tick)) slope r)
  | _, _ => r
  end.

Lemma length_write_all writes (out : list D) : length (write_all writes out) = length out.
Proof. unfold write_all. by rewrite length_imap. Qed.

Lemma write_all_lookup writes (out : list D) i d :
  i < length out -> writes !! i = Some d -> write_all writes out !! i = Some d.
Proof.
  intros Hi Hw. unfold write_all. rewrite list_lookup_imap.
  destruct (lookup_lt_is_Some_2 out i Hi) as [old ->]. simpl. by rewrite Hw.
Qed.

Lemma evaluate_ticks_rows fn program j inv_n ticks : forall arena outputs grads r rows,
  output_index program < length outputs -> length grads = length outputs ->
  run_ticks fn program j ticks arena = Ok rows -> exists st,
    for_each (fun tick st =>
      '(pred, slope, arena, outputs, grads) <-
         evaluate_tick fn program j tick (arena_state st) (outputs_ st) (grads_ st);;
      Ok (MkTickState arena outputs grads
            (add_tick j inv_n (fsub pred (tick_target tick)) slope (result_ st))))
      ticks (MkTickState arena outputs grads r) = Ok st /\
    length (outputs_ st) = length outputs /\ length (grads_ st) = length grads /\
    result_ st = add_rows j inv_n rows ticks r.
Proof.
  induction ticks as [|tick ticks IH]; intros arena outputs grads r rows Ho Hg Hr; simpl in *.
  - injection Hr as <-. by eexists.
  - apply bind_Ok in Hr as (market & Hm & Hr). apply bind_Ok in Hr as ([[out grad] arena'] & Hf & Hr).
    destruct (out !! output_index program) as [pred|] eqn:Ep; [|done].
    destruct (grad !! output_index program) as [slope|] eqn:Es; [|done].
    destruct (isfinite pred && isfinite slope) eqn:Ef; [|done].
    destruct (run_ticks fn program j ticks arena') as [rows'|] eqn:Er; [|done]. injection Hr as <-.
    destruct (IH arena' (write_all out outputs) (write_all grad grads)
      (add_tick j inv_n (fsub pred (tick_target tick)) slope r) rows') as (st & E & L1 & L2 & E2);
      [by rewrite length_write_all|by rewrite !length_write_all|done|].
    exists st. unfold evaluate_tick at 1. cbn [arena_state outputs_ grads_ result_].
    rewrite Hm. cbn [rbind]. rewrite Hf. cbn [rbind].
    rewrite (proj2 (at_idx_Ok _ _ _ _) (write_all_lookup _ _ _ _ Ho Ep)). cbn [rbind].
    rewrite (proj2 (at_idx_Ok _ _ _ _) (write_all_lookup grad grads (output_index program) slope ltac:(lia) Es)). cbn [rbind].
    rewrite Ef. cbn [ensure rbind]. rewrite E. by rewrite L1, L2, !length_write_all.
Qed.

(** ** The loop over the parameters *)

(** The runs of all parameters, in order. *)
Fixpoint add_runs (j : nat) (inv_n : D) (runs : list (list (D * D))) (ticks : list (TickRow D)) r : EvalResult D :=
  match runs with
  | [] => r
  | rows :: runs' => add_runs (S j) inv_n runs' ticks (add_rows j inv_n rows ticks r)
  end.

Lemma evaluate_params_runs fn program ticks params inv_n runs : forall j outputs grads r,
  output_index program < length outputs -> length grads = length outputs ->
  (forall i rows, runs !! i = Some rows -> exists arena,
    prewarm_program params (prog_signals (prepared program)) = Ok arena /\
    run_ticks fn program (j + i) ticks arena = Ok rows) ->
  exists outputs' grads',
    for_each (evaluate_param fn program ticks params inv_n) (seq j (length runs)) (outputs, grads, r) =
      Ok (outputs', grads', add_runs j inv_n runs ticks r).
Proof.
  induction runs as [|rows runs IH]; intros j outputs grads r Ho Hg Hr; simpl; [by do 2 eexists|].
  destruct (Hr 0 rows eq_refl) as (arena & Ha & Hrun). rewrite Nat.add_0_r in Hrun.
  rewrite Ha. cbn [rbind].
  destruct (evaluate_ticks_rows fn program j inv_n ticks arena outputs grads r rows Ho Hg Hrun)
    as (st & E & L1 & L2 & E2).
  rewrite E. cbn [rbind]. rewrite E2. apply IH; [by rewrite L1|by rewrite L1, L2|].
  intros i rows' Hi. destruct (Hr (S i) rows' Hi) as (arena' & Ha' & Hrun').
  exists arena'. split; [done|]. by replace (S j + i) with (j + S i) by lia.
Qed.
End ticks.

(** ** The gradient of the objective *)

Section objective.
Local Open Scope R_scope.
Implicit Types (rows : list (xreal * xreal)) (r : EvalResult xreal) (ticks : list (TickRow xreal)).
Notation add_rows := (add_rows (D:=xreal) (L:=xreal)).
Notation add_runs := (add_runs (D:=xreal) (L:=xreal)).

(** The mean of the halved squared errors of the predictions [preds] at [x]. *)
Definition mean_error (preds : list (R -> R)) (targets : list R) (x : R) : R :=
  Rmean (map (fun pt => 0.5 * (pt.1 x - pt.2) * (pt.1 x - pt.2)) (zip preds targets)).

Lemma add_rows_objective c rows : forall ticks r o es targets,
  map fst rows = map Some es -> map tick_target ticks = map Some targets ->
  objective r = Some o ->
  objective (add_rows 0 (Some c) rows ticks r) =
    Some (o + Rsum (map (fun et => 0.5 * (et.1 - et.2) * (et.1 - et.2) * c) (zip es targets))).
Proof.
  induction rows as [|[a s] rows IH]; intros ticks r o es targets He Ht Ho.
  - destruct es; [|done]. simpl. rewrite Ho. f_equal. lra.
  - destruct es as [|e es]; [done|]. injection He as -> He.
    destruct ticks as [|tick ticks], targets as [|t targets]; try done; simpl.
    { rewrite Ho. f_equal. lra. }
    injection Ht as Et Ht. rewrite (IH ticks _ (o + 0.5 * (e - t) * (e - t) * c) es targets He Ht).
    + f_equal. lra.
    + unfold add_tick. cbn [Nat.eqb objective]. rewrite Ho, Et. cbn. f_equal. lra.
Qed.

Lemma add_rows_other_objective j inv_n rows : forall ticks r,
  j <> 0%nat -> objective (add_rows j inv_n rows ticks r) = objective r.
Proof.
  induction rows as [|[a s] rows IH]; intros [|tick ticks] r Hj; simpl; try done.
  rewrite IH by done. simpl. by destruct j.
Qed.

Lemma add_rows_gradient j c rows : forall ticks r g es ss targets,
  map fst rows = map Some es -> map snd rows = map Some ss ->
  map tick_target ticks = map Some targets -> gradient r !! j = Some (Some g) ->
  gradient (add_rows j (Some c) rows ticks r) !! j =
    Some (Some (g + Rsum (map (fun ets => (ets.1.1 - ets.1.2) * ets.2 * c) (zip (zip es targets) ss)))).
Proof.
  induction rows as [|[a s] rows IH]; intros ticks r g es ss targets He Hs Ht Hg.
  - destruct es; [|done]. simpl. rewrite Hg. do 2 f_equal. lra.
  - destruct es as [|e es], ss as [|s' ss]; try done. injection He as -> He. injection Hs as -> Hs.
    destruct ticks as [|tick ticks], targets as [|t targets]; try done; simpl.
    { rewrite Hg. do 2 f_equal. lra. }
    injection Ht as Et Ht.
    rewrite (IH ticks _ (g + (e - t) * s' * c) es ss targets He Hs Ht).
    + do 2 f_equal. lra.
    + unfold add_tick. cbn [gradient]. rewrite list_lookup_alter_eq.
      transitivity (fmap (M:=option) (fun g : xreal => (g + (Some e - tick_target tick) * Some s' * Some c)%fp)
        (Some (Some g))); [by f_equal|by rewrite Et].
Qed.

Lemma add_rows_other_gradient j k inv_n rows : forall ticks r,
  j <> k -> gradient (add_rows j inv_n rows ticks r) !! k = gradient r !! k.
Proof.
  induction rows as [|[a s] rows IH]; intros [|tick ticks] r Hj; simpl; try done.
  rewrite IH by done. simpl. by rewrite list_lookup_alter_ne.
Qed.

Lemma add_runs_objective inv_n ticks runs : forall j r,
  j <> 0%nat -> objective (add_runs j inv_n runs ticks r) = objective r.
Proof.
  induction runs as [|rows runs IH]; intros j r Hj; simpl; [done|].
  rewrite IH by done. by apply add_rows_other_objective.
Qed.

Lemma add_runs_gradient inv_n ticks runs : forall j k r rows,
  runs !! k = Some rows -> exists r', gradient r' !! (j + k)%nat = gradient r !! (j + k)%nat /\
  gradient (add_runs j inv_n runs ticks r) !! (j + k)%nat =
    gradient (add_rows (j + k) inv_n rows ticks r') !! (j + k)%nat.
Proof.
  assert (Hlater : forall runs j i r, (i < j)%nat ->
    gradient (add_runs j inv_n runs ticks r) !! i = gradient r !! i).
  { clear. induction runs as [|rows runs IH]; intros j i r Hi; simpl; [done|].
    rewrite IH by lia. apply add_rows_other_gradient. lia. }
  induction runs as [|rows runs IH]; intros j [|k] r rows' Hk; try done; simpl in *.
  - injection Hk as <-. exists r. split; [done|]. rewrite Nat.add_0_r. by rewrite Hlater by lia.
  - destruct (IH (S j) k (add_rows j inv_n rows ticks r) rows' Hk) as (r' & E1 & E2).
    exists r'. replace (j + S k)%nat with (S j + k)%nat by lia. split; [|exact E2].
    rewrite E1. apply add_rows_other_gradient. lia.
Qed.

(** The derivative of the objective. *)
Lemma mean_error_derivable preds slopes targets x0 :
  Forall2 (fun p s => derivable_pt_lim p x0 s) preds slopes -> length targets = length preds ->
  preds <> [] ->
  derivable_pt_lim (mean_error preds targets) x0
    (Rsum (map (fun ets => (ets.1.1 - ets.1.2) * ets.2 * (1 / INR (length preds)))
             (zip (zip (map (fun p => p x0) preds) targets) slopes))).
Proof.
  intros HF Hl Hne. set (c := 1 / INR (length preds)).
  assert (Hsum : derivable_pt_lim
    (fun x => Rsum (map (fun pt => 0.5 * (pt.1 x - pt.2) * (pt.1 x - pt.2)) (zip preds targets))) x0
    (Rsum (map (fun ets => (ets.1.1 - ets.1.2) * ets.2) (zip (zip (map (fun p => p x0) preds) targets) slopes)))).
  { clear Hne c. revert targets Hl. induction HF as [|p s preds slopes Hd HF IH]; intros [|t targets] Hl; try done.
    - apply derivable_pt_lim_const.
    - simpl. apply (derivable_pt_lim_plus (fun x => 0.5 * (p x - t) * (p x - t))).
      + assert (Hm : derivable_pt_lim (fun x => p x - t) x0 (s - 0))
          by (apply (derivable_pt_lim_minus p (fun _ => t)); [done|apply derivable_pt_lim_const]).
        eapply derivable_eq; [apply (derivable_scale x0 _ _ 0.5 (derivable_prod x0 _ _ _ _ Hm Hm))| |].
        * intros x. simpl. lra.
        * simpl. lra.
      + apply IH. simpl in Hl. lia. }
  eapply derivable_eq; [apply (derivable_scale x0 _ _ c Hsum)| |].
  - intros x. unfold mean_error, Rmean. rewrite length_map, length_zip_with, Hl, Nat.min_id.
    unfold c. field. apply not_0_INR. by destruct preds.
  - clear. unfold Rsum. induction (zip _ slopes) as [|a l IH]; simpl; [lra|]. simpl in IH. lra.
Qed.
End objective.

(** The parameters with the [k]-th set to [x]. *)
Definition at_param (params : list R) (k : nat) (x : R) : list xreal := map Some (<[k := x]> params).

(** The compiled function predicts [preds] at the ticks, as functions of the
    [k]-th parameter near [x0], whichever derivative it is asked for, and
    returns [slopes] for the derivative by the [k]-th parameter at [x0]. *)
Definition predicts (fn : ProgramGradientFn (D:=xreal) (L:=xreal)) (program : PreparedProgram xreal)
    (ticks : list (TickRow xreal)) (params : list R) (k : nat) (x0 : R)
    (preds : list (R -> R)) (slopes : list R) : Prop :=
  near x0 (fun x => forall j, (j < length params)%nat -> exists arena rows,
    prewarm_program (L:=xreal) (at_param params k x) (prog_signals (prepared program)) = Ok arena /\
    run_ticks fn program j ticks arena = Ok rows /\
    map fst rows = map (fun p => Some (p x)) preds /\
    (j = k -> x = x0 -> map snd rows = map Some slopes)).

(** The runs of all parameters, as one list. *)
Lemma collect_runs {A} (P : nat -> A -> Prop) n :
  (forall j, (j < n)%nat -> exists a, P j a) -> exists runs, length runs = n /\
  forall j a, runs !! j = Some a -> P j a.
Proof.
  induction n as [|n IH]; intros HP; [by exists []|].
  destruct IH as (runs & Hl & Hr); [by auto with lia|]. destruct (HP n ltac:(lia)) as [a Ha].
  exists (runs ++ [a]). split; [rewrite length_app; simpl; lia|]. intros j b Hj.
  apply lookup_app_Some in Hj as [Hj|[Hge Hj]]; [by apply Hr|].
  destruct (j - length runs)%nat eqn:E; [|done]. injection Hj as <-. by replace j with n by lia.
Qed.

Lemma evaluate_at fn program ticks targets params k x0 preds slopes x :
  (output_index program < length (prog_signals (prepared program)))%nat -> ticks <> [] ->
  map tick_target ticks = map Some targets -> (k < length params)%nat ->
  length preds = length ticks ->
  (forall j, (j < length params)%nat -> exists arena rows,
    prewarm_program (L:=xreal) (at_param params k x) (prog_signals (prepared program)) = Ok arena /\
    run_ticks fn program j ticks arena = Ok rows /\
    map fst rows = map (fun p => Some (p x)) preds /\
    (j = k -> x = x0 -> map snd rows = map Some slopes)) ->
  exists r, EvaluateObjectiveAndGradient fn program ticks (at_param params k x) = Ok r /\
    objective r = Some (mean_error preds targets x) /\
    (x = x0 -> gradient r !! k = Some (Some
      (Rsum (map (fun ets => (ets.1.1 - ets.1.2) * ets.2 * (1 / INR (length preds)))
               (zip (zip (map (fun p => p x0) preds) targets) slopes)))%R)).
Proof.
  intros Ho Hne Ht Hk Hlp Hruns.
  destruct (collect_runs (fun j rows => exists arena,
    prewarm_program (L:=xreal) (at_param params k x) (prog_signals (prepared program)) = Ok arena /\
    run_ticks fn program j ticks arena = Ok rows /\
    map fst rows = map (fun p => Some (p x)) preds /\
    (j = k -> x = x0 -> map snd rows = map Some slopes)) (length params)) as (runs & Hl & Hr).
  { intros j Hj. destruct (Hruns j Hj) as (arena & rows & ?). by exists rows, arena. }
  assert (Hlen : length (at_param params k x) = length params)
    by (unfold at_param; by rewrite length_map, length_insert).
  assert (Hn : INR (length ticks) <> 0%R) by (apply not_0_INR; by destruct ticks).
  set (zeros := replicate (length (prog_signals (prepared program))) (fint 0 : xreal)).
  destruct (evaluate_params_runs fn program ticks (at_param params k x) (Some (1 / INR (length ticks))%R) runs
    0 zeros zeros (MkEvalResult (fint 0) (replicate (length params) (fint 0)))) as (o & g & E).
  { unfold zeros. by rewrite length_replicate. }
  { done. }
  { intros i rows Hi. destruct (Hr i rows Hi) as (arena & ? & ? & _). by exists arena. }
  eexists. split; [|split].
  - unfold EvaluateObjectiveAndGradient. rewrite Hlen.
    destruct (Nat.eqb_spec (length params) 0); [lia|]. cbn [negb ensure rbind].
    rewrite fint_xreal, fnat_xreal, fdiv_xreal by done. rewrite Hl in E. exact (f_equal (rmap snd) E).
  - destruct runs as [|rows runs]; [simpl in Hl; lia|]. simpl.
    rewrite add_runs_objective by done. destruct (Hr 0%nat rows eq_refl) as (_ & _ & _ & Hf & _).
    rewrite (add_rows_objective _ rows ticks _ 0 (map (fun p => p x) preds) targets); [|by rewrite map_map|done|].
    + f_equal. rewrite Rplus_0_l. unfold mean_error, Rmean.
      assert (Hz : length targets = length ticks) by (rewrite <- (length_map Some targets), <- Ht; apply length_map).
      rewrite length_map, length_zip_with, Hlp, Hz, Nat.min_id.
      assert (Hd : forall l, (Rsum (map (fun et : R * R => 0.5 * (et.1 - et.2) * (et.1 - et.2) * (1 / INR (length ticks))) l)
        = Rsum (map (fun et : R * R => 0.5 * (et.1 - et.2) * (et.1 - et.2)) l) / INR (length ticks))%R).
      { clear - Hn. unfold Rsum. induction l as [|a l IH]; simpl; [field; done|]. rewrite IH. field. done. }
      rewrite Hd. do 2 f_equal. clear. revert targets. induction preds as [|p preds IH]; intros [|t targets]; simpl; try done.
      by rewrite IH.
    + cbn. f_equal. lra.
  - intros ->. destruct (lookup_lt_is_Some_2 runs k) as [rows Hk']; [lia|].
    destruct (Hr k rows Hk') as (_ & _ & _ & Hf & Hs).
    destruct (add_runs_gradient (Some (1 / INR (length ticks))%R) ticks runs 0 k
      (MkEvalResult (fint 0) (replicate (length params) (fint 0))) rows Hk') as (r' & E1 & E2).
    rewrite Hlp. etransitivity; [exact E2|]. transitivity (Some (Some (0 + Rsum (map (fun ets => (ets.1.1 - ets.1.2) * ets.2 * (1 / INR (length ticks)))
               (zip (zip (map (fun p => p x0) preds) targets) slopes)))%R)); [|do 2 f_equal; lra].
    apply add_rows_gradient; [by rewrite map_map|by apply Hs|done|].
    etransitivity; [exact E1|]. cbn [gradient Nat.add]. rewrite lookup_replicate_2 by done.
    by rewrite fint_xreal.
Qed.

(** C33: In exact arithmetic the calibrator's gradient is the derivative of its
    objective: if the compiled function predicts differentiable functions of a
    parameter and returns their derivatives, then evaluating near a point
    gives the mean halved squared error of the predictions, and the gradient's
    entry at the point is the derivative of that error. *)
Theorem objective_gradient_correct fn program ticks targets params k x0 preds slopes :
  (output_index program < length (prog_signals (prepared program)))%nat -> ticks <> [] ->
  map tick_target ticks = map Some targets -> (k < length params)%nat ->
  length preds = length ticks ->
  predicts fn program ticks params k x0 preds slopes ->
  Forall2 (fun p s => derivable_pt_lim p x0 s) preds slopes -> exists g,
    derivable_pt_lim (mean_error preds targets) x0 g /\
    near x0 (fun x => exists r,
      EvaluateObjectiveAndGradient fn program ticks (at_param params k x) = Ok r /\
      objective r = Some (mean_error preds targets x) /\
      (x = x0 -> gradient r !! k = Some (Some g))).
Proof.
  intros Ho Hne Ht Hk Hlp Hp Hd. eexists. split.
  - apply (mean_error_derivable _ _ _ _ Hd).
    + rewrite Hlp. rewrite <- (length_map Some targets), <- Ht. apply length_map.
    + intros ->. by destruct ticks.
  - apply near_impl with (2 := Hp). intros x Hx. by apply evaluate_at.
Qed.

(** [k * mid(AAPL)], with a function that returns its value and derivative. *)
Module FitExample.
Local Open Scope R_scope.
Definition fn : ProgramGradientFn (D:=xreal) (L:=xreal) := fun market symbol_id _ arena =>
  (c <- PerSymbol arena symbol_id;;
   k <- jit_rt_param 0 c;;
   ins <- at_idx "instruments" (instruments market) 0;;
   let mid := fmul (fadd (bid ins) (ask ins)) (flit 5 1) in
   Ok (<[0%nat := fmul k mid]> ∅, <[0%nat := mid]> ∅, arena))%nat.
Definition body : Expr xreal :=
  BinaryOp noloc Mul (ParameterExpr noloc "k" 0) (FunctionCall noloc "mid" [IdentifierExpr noloc "AAPL"] (-1) 0).
Definition program : PreparedProgram xreal :=
  MkPrepared (MkProgram [MkParam "k" (Some 1) 0 noloc] [MkSignal "out" body])
    (MkSymbolTable (<["AAPL" := 0%nat]> ∅) 1) 0 0.
Definition ticks : list (TickRow xreal) :=
  [MkTick 1 (Some 1) (Some 3) (Some 100) (Some 4); MkTick 2 (Some 2) (Some 4) (Some 100) (Some 7)].
Definition mids : list R := [(1 + 3) * (5 / 10 ^ 1); (2 + 4) * (5 / 10 ^ 1)].
Definition preds : list (R -> R) := map (fun m x => x * m) mids.
End FitExample.

Lemma objective_gradient_correct_witness :
  predicts FitExample.fn FitExample.program FitExample.ticks [1%R] 0 0.5%R FitExample.preds FitExample.mids /\
  exists g, derivable_pt_lim (mean_error FitExample.preds [4; 7]%R) 0.5 g.
Proof.
  assert (Hp : predicts FitExample.fn FitExample.program FitExample.ticks [1%R] 0 0.5%R
    FitExample.preds FitExample.mids).
  { apply near_always. intros x j Hj. assert (j = 0) as -> by (simpl in Hj; lia).
    eexists _, [(Some _, Some _); (Some _, Some _)].
    split; [reflexivity|]. split; [|split]; [lazy; reflexivity|reflexivity|intros; reflexivity]. }
  split; [exact Hp|].
  destruct (objective_gradient_correct FitExample.fn FitExample.program FitExample.ticks [4; 7]%R [1%R] 0 0.5%R
    FitExample.preds FitExample.mids) as (g & Hg & _).
  - simpl. lia.
  - done.
  - reflexivity.
  - simpl. lia.
  - reflexivity.
  - exact Hp.
  - assert (Hd : forall m, derivable_pt_lim (fun x => (x * m)%R) 0.5 m).
    { intros m. eapply derivable_eq; [apply (derivable_scale 0.5 (fun x => x) 1 m), derivable_pt_lim_id| |];
        intros; simpl; lra. }
    constructor; [apply Hd|]. constructor; [apply Hd|]. constructor.
  - by exists g.
Defined.

(** ** Adam *)

Section adam.
Local Open Scope R_scope.
Variable opt : CalibrateOptions xreal.
Variable pow : xreal -> xreal -> xreal.
Variables b1 b2 lr eps : R.
Hypothesis opt_beta1 : beta1 opt = Some b1.
Hypothesis opt_beta2 : beta2 opt = Some b2.
Hypothesis opt_rate : learning_rate opt = Some lr.
Hypothesis opt_epsilon : epsilon opt = Some eps.
Hypothesis b1_range : 0 <= b1 < 1.
Hypothesis b2_range : 0 < b2 < 1.
Hypothesis moments : b1 * b1 < b2.
Hypothesis lr_pos : 0 <= lr.
Hypothesis eps_pos : 0 < eps.
Hypothesis pow_nat : forall b n, 0 <= b -> pow (Some b) (fnat n) = Some (b ^ n).

Lemma div_nonneg a b : 0 <= a -> 0 < b -> 0 <= a / b.
Proof. apply Rle_mult_inv_pos. Qed.
Lemma abs_div a b : 0 < b -> Rabs (a / b) = Rabs a / b.
Proof. intros Hb. unfold Rdiv. rewrite Rabs_mult, Rabs_inv, (Rabs_pos_eq b) by lra. done. Qed.
Lemma div_le_of_mult a b c : 0 < b -> a <= c * b -> a / b <= c.
Proof.
  intros Hb Hac. replace c with (c * b / b) by (field; lra). unfold Rdiv.
  apply Rmult_le_compat_r; [|done]. by apply Rlt_le, Rinv_0_lt_compat.
Qed.

(** The first moment is bounded by the root of the second. *)
Definition moment_ratio : R := (1 - b1) * (1 - b1) * b2 / ((1 - b2) * (b2 - b1 * b1)).
Definition moments_ok (m v : R) : Prop := 0 <= v /\ m * m <= moment_ratio * v.

Lemma moment_ratio_pos : 0 < moment_ratio.
Proof.
  unfold moment_ratio. apply Rdiv_lt_0_compat; repeat apply Rmult_lt_0_compat; lra.
Qed.

Lemma moments_ok_step m v g :
  moments_ok m v -> moments_ok (b1 * m + (1 - b1) * g) (b2 * v + (1 - b2) * g * g).
Proof.
  intros [Hv Hm]. split; [nra|].
  assert (Hd : 0 < b2 - b1 * b1) by lra.
  apply Rle_trans with (b2 * (m * m) + (1 - b1) * (1 - b1) * b2 / (b2 - b1 * b1) * (g * g)).
  - set (q := (b2 - b1 * b1) * m - b1 * (1 - b1) * g).
    assert (Hq : 0 <= q * q / (b2 - b1 * b1)) by (apply div_nonneg; [apply Rle_0_sqr|done]).
    assert (Hr : b2 * (m * m) + (1 - b1) * (1 - b1) * b2 / (b2 - b1 * b1) * (g * g) -
      (b1 * m + (1 - b1) * g) * (b1 * m + (1 - b1) * g) = q * q / (b2 - b1 * b1))
      by (unfold q; field; lra).
    lra.
  - replace (moment_ratio * (b2 * v + (1 - b2) * g * g)) with
      (b2 * (moment_ratio * v) + (1 - b1) * (1 - b1) * b2 / (b2 - b1 * b1) * (g * g))
      by (unfold moment_ratio; field; lra).
    nra.
Qed.

(** The largest move of a parameter in step [t]. *)
Definition step_bound (t : nat) : R := lr * sqrt moment_ratio * sqrt (1 - b2 ^ t) / (1 - b1 ^ t).

Lemma pow_below_one b t : 0 <= b < 1 -> 0 <= b ^ S t < 1.
Proof.
  intros Hb. split; [apply pow_le; lra|]. apply pow_lt_1_compat; [lra|lia].
Qed.

Lemma adam_coordinate_bounded t p m v g :
  moments_ok m v -> exists p' m' v',
    adam_coordinate opt (Some (b1 ^ S t)) (Some (b2 ^ S t)) (Some p) (Some m) (Some v) (Some g) =
      (Some p', Some m', Some v') /\
    moments_ok m' v' /\ Rabs (p' - p) <= step_bound (S t).
Proof.
  intros Hok. pose proof (moments_ok_step m v g Hok) as Hok'.
  set (m' := b1 * m + (1 - b1) * g) in *. set (v' := b2 * v + (1 - b2) * g * g) in *.
  pose proof (pow_below_one b1 t b1_range) as H1. pose proof (pow_below_one b2 t ltac:(lra)) as H2.
  destruct Hok' as [Hv Hm].
  assert (Hvh : 0 <= v' / (1 - b2 ^ S t)) by (apply div_nonneg; lra).
  pose proof (sqrt_pos (v' / (1 - b2 ^ S t))) as Hs.
  exists (p - lr * (m' / (1 - b1 ^ S t)) / (sqrt (v' / (1 - b2 ^ S t)) + eps)), m', v'.
  split; [|split; [done|]].
  - unfold adam_coordinate. rewrite opt_beta1, opt_beta2, opt_rate, opt_epsilon, !fint_xreal.
    cbn [exact dbl]. autorewrite with xreal. fold m' v'.
    rewrite !fdiv_xreal by lra. rewrite fsqrt_xreal by done. autorewrite with xreal.
    rewrite fdiv_xreal by lra. done.
  - replace (p - _ - p) with (- (lr * (m' / (1 - b1 ^ S t)) / (sqrt (v' / (1 - b2 ^ S t)) + eps))) by ring.
    rewrite Rabs_Ropp. unfold step_bound.
    assert (Habs : Rabs m' <= sqrt moment_ratio * sqrt v').
    { rewrite <- sqrt_mult by (pose proof moment_ratio_pos; lra). rewrite <- sqrt_Rsqr_abs.
      apply sqrt_le_1_alt. exact Hm. }
    rewrite sqrt_div in Hs |- * by lra. pose proof (sqrt_lt_R0 (1 - b2 ^ S t) ltac:(lra)) as Hw.
    set (w := sqrt (1 - b2 ^ S t)) in *. set (u := sqrt v') in *. set (k := sqrt moment_ratio) in *.
    pose proof (sqrt_pos v'). fold u in H. pose proof (sqrt_pos moment_ratio). fold k in H0.
    assert (Hden : 0 < u / w + eps) by lra.
    rewrite abs_div, Rabs_mult, abs_div, (Rabs_pos_eq lr) by lra.
    apply div_le_of_mult; [done|].
    apply Rle_trans with (lr * k * w / (1 - b1 ^ S t) * (u / w)).
    + replace (lr * k * w / (1 - b1 ^ S t) * (u / w)) with (lr * ((k * u) / (1 - b1 ^ S t))) by (field; lra).
      apply Rmult_le_compat_l; [done|]. apply Rmult_le_compat_r; [|done].
      apply Rlt_le, Rinv_0_lt_compat. lra.
    + apply Rmult_le_compat_l; [|lra]. apply div_nonneg; [|lra].
      repeat apply Rmult_le_pos; lra.
Qed.

(** A state whose parameters are the numbers [ps]. *)
Definition adam_ok (ps : list R) (s : AdamState xreal) : Prop :=
  exists ms vs, s = MkAdam (map Some ps) (map Some ms) (map Some vs) /\
    length ms = length ps /\ Forall2 moments_ok ms vs.

Lemma adam_coordinates_ok t ps : forall ms vs gs,
  length ms = length ps -> Forall2 moments_ok ms vs -> length gs = length ps ->
  exists ps' ms' vs',
    adam_coordinates opt (Some (b1 ^ S t)) (Some (b2 ^ S t)) (map Some ps) (map Some ms) (map Some vs) (map Some gs) =
      (map Some ps', map Some ms', map Some vs') /\
    length ms' = length ps' /\ Forall2 moments_ok ms' vs' /\
    Forall2 (fun p p' => Rabs (p' - p) <= step_bound (S t)) ps ps'.
Proof.
  induction ps as [|p ps IH]; intros [|m ms] vs [|g gs] Hm HF Hg; try done.
  - inversion HF; subst. by exists [], [], [].
  - apply Forall2_cons_inv_l in HF as (v & vs' & Hv & HF & ->). simpl in Hm, Hg.
    destruct (IH ms vs' gs) as (ps1 & ms1 & vs1 & E & L & F1 & F2); [lia|done|lia|].
    destruct (adam_coordinate_bounded t p m v g Hv) as (p1 & m1 & v1 & E1 & O1 & B1).
    exists (p1 :: ps1), (m1 :: ms1), (v1 :: vs1). cbn [adam_coordinates map]. rewrite E1, E.
    split_and!; [done|simpl; lia|by constructor|by constructor].
Qed.

Lemma adam_step_ok t ps s g :
  adam_ok ps s -> length g = length ps -> exists ps',
    adam_ok ps' (adam_step pow opt t (map Some g) s) /\
    Forall2 (fun p p' => Rabs (p' - p) <= step_bound (S t)) ps ps'.
Proof.
  intros (ms & vs & -> & Hl & HF) Hg.
  destruct (adam_coordinates_ok t ps ms vs g Hl HF Hg) as (ps' & ms' & vs' & E & L & F1 & F2).
  exists ps'. split; [|done]. exists ms', vs'. split; [|done].
  unfold adam_step. cbn [adam_params adam_m adam_v].
  rewrite opt_beta1, opt_beta2, !pow_nat by lra. by rewrite E.
Qed.

(** The states of the optimiser, step by step. *)
Fixpoint adam_steps (iter : nat) (gs : list (list xreal)) (s : AdamState xreal) : AdamState xreal :=
  match gs with
  | [] => s
  | g :: gs' => adam_steps (S iter) gs' (adam_step pow opt iter g s)
  end.

Lemma adam_steps_ok gs : forall iter ps s,
  adam_ok ps s -> Forall (fun g => length g = length ps) gs -> exists ps',
    adam_ok ps' (adam_steps iter (map (map Some) gs) s) /\ length ps' = length ps.
Proof.
  induction gs as [|g gs IH]; intros iter ps s Hs HF; [by exists ps|].
  inversion HF as [|? ? Hg HF']; subst.
  destruct (adam_step_ok iter ps s g Hs Hg) as (ps1 & H1 & H2). apply Forall2_length in H2.
  destruct (IH (S iter) ps1 _ H1) as (ps2 & H3 & H4).
  { apply Forall_impl with (1 := HF'). intros l ->. done. }
  exists ps2. split; [exact H3|congruence].
Qed.

Lemma adam_ok_init ps :
  adam_ok ps (MkAdam (map Some ps) (replicate (length ps) (fint 0)) (replicate (length ps) (fint 0))).
Proof.
  exists (replicate (length ps) 0), (replicate (length ps) 0).
  rewrite !fint_xreal. split; [|split].
  - f_equal; by rewrite fmap_replicate.
  - apply length_replicate.
  - apply Forall2_replicate. split; lra.
Qed.
End adam.

(** C34: a step of Adam is bounded, in exact arithmetic, for decay rates
    [0 <= beta1 < 1] and [0 < beta2 < 1] with [beta1^2 < beta2], a learning
    rate [lr >= 0] and [epsilon > 0].  Whatever finite gradients the calibrator
    has seen, its parameters are numbers, and the next step, with any
    gradient, moves each of them by at most
    [lr * sqrt (1 - beta2^t) / (1 - beta1^t)] times a constant of the two
    decay rates, where [t] is the number of the step. *)
Theorem adam_bounded (opt : CalibrateOptions xreal) (pow : xreal -> xreal -> xreal) b1 b2 lr eps ps0 gs g :
  beta1 opt = Some b1 -> beta2 opt = Some b2 -> learning_rate opt = Some lr -> epsilon opt = Some eps ->
  (0 <= b1 < 1)%R -> (0 < b2 < 1)%R -> (b1 * b1 < b2)%R -> (0 <= lr)%R -> (0 < eps)%R ->
  (forall b n, (0 <= b)%R -> pow (Some b) (fnat n) = Some (b ^ n)%R) ->
  Forall (fun g => length g = length ps0) gs -> length g = length ps0 ->
  let zeros := replicate (length ps0) (fint 0) in
  let s := adam_steps opt pow 0 (map (map Some) gs) (MkAdam (map Some ps0) zeros zeros) in
  exists ps ps', adam_params s = map Some ps /\
    adam_params (adam_step pow opt (length gs) (map Some g) s) = map Some ps' /\
    Forall2 (fun p p' => (Rabs (p' - p) <= step_bound b1 b2 lr (S (length gs)))%R) ps ps'.
Proof.
  intros E1 E2 E3 E4 H1 H2 H3 H4 H5 Hpow HF Hg zeros s.
  destruct (adam_steps_ok opt pow b1 b2 lr eps E1 E2 E3 E4 H1 H2 H3 H4 H5 Hpow gs 0 ps0 _
    (adam_ok_init b1 b2 ps0) HF) as (ps & Hs & Hl).
  destruct (adam_step_ok opt pow b1 b2 lr eps E1 E2 E3 E4 H1 H2 H3 H4 H5 Hpow (length gs) ps _ g Hs)
    as (ps' & Hs' & Hb); [congruence|].
  exists ps, ps'. destruct Hs as (ms & vs & Es & _). destruct Hs' as (ms' & vs' & Es' & _).
  unfold s, zeros. split_and!; [by rewrite Es|by rewrite Es'|done].
Qed.

Lemma adam_bounded_witness :
  let opt : CalibrateOptions xreal :=
    MkOptions "out" "AAPL" (Some 0.05)%R (Some 0.9)%R (Some 0.999)%R
      (Some 0.00000001)%R 80 (Some 0)%R in
  let pow : xreal -> xreal -> xreal :=
    xop2 (fun b e => Some (b ^ Z.to_nat (Int_part e))%R) in
  (forall b n, (0 <= b)%R -> pow (Some b) (fnat n) = Some (b ^ n)%R) /\
  exists p', adam_params (adam_step pow opt 0 [Some 3%R] (MkAdam [Some 1%R] [fint 0] [fint 0])) = [Some p'] /\
    (Rabs (p' - 1) <= step_bound 0.9 0.999 0.05 1)%R.
Proof.
  intros opt pow.
  assert (Hpow : forall b n, (0 <= b)%R -> pow (Some b) (fnat n) = Some (b ^ n)%R).
  { intros b n _. rewrite fnat_xreal. unfold pow, xop2. by rewrite Int_part_INR, Nat2Z.id. }
  split; [exact Hpow|].
  destruct (adam_bounded opt pow 0.9%R 0.999%R 0.05%R 0.00000001%R [1%R] [] [3%R] eq_refl eq_refl eq_refl eq_refl
    ltac:(lra) ltac:(lra) ltac:(lra) ltac:(lra) ltac:(lra) Hpow (Forall_nil_2 _) eq_refl)
    as (ps & ps' & E1 & E2 & HF).
  cbn in E1. destruct ps as [|p [|]]; try discriminate. injection E1 as <-.
  apply Forall2_cons_inv_l in HF as (p' & l & Hb & HF & ->). inversion HF; subst.
  exists p'. split; [exact E2|exact Hb].
Defined.

(** ** What a calibration reports *)

Section outcome.
Context {D L : Type} `{Machine D L} `{EqDecision D}.
Implicit Types (fn : ProgramGradientFn (D:=D) (L:=L)) (opt : CalibrateOptions D).

Lemma length_adam_coordinates opt b1 b2 (ps : list D) : forall ms vs gs,
  length (adam_coordinates opt b1 b2 ps ms vs gs).1.1 = length ps.
Proof.
  induction ps as [|p ps IH]; intros [|m ms] [|v vs] [|g gs]; try done. simpl.
  destruct (adam_coordinates opt b1 b2 ps ms vs gs) as [[ps' ms'] vs'] eqn:E. simpl.
  f_equal. specialize (IH ms vs gs). by rewrite E in IH.
Qed.

Lemma optimise_spec pow fn program ticks opt n : forall iter s traj s',
  optimise pow fn program ticks opt n iter s = Ok (traj, s') ->
  length traj = n /\ length (adam_params s') = length (adam_params s) /\
  (forall r, EvaluateObjectiveAndGradient fn program ticks (adam_params s') = Ok r -> exists r0,
     EvaluateObjectiveAndGradient fn program ticks (adam_params s) = Ok r0 /\
     (traj ++ [objective r]) !! 0 = Some (objective r0)).
Proof.
  induction n as [|n IH]; intros iter s traj s' He; simpl in He.
  - injection He as <- <-. split_and!; [done..|]. intros r Hr. by exists r.
  - apply bind_Ok in He as (r0 & H0 & He). apply bind_Ok in He as ([traj' s1] & H1 & [= <- <-]).
    apply IH in H1 as (L1 & L2 & _). split_and!; [simpl; lia| |].
    + rewrite L2. unfold adam_step.
      pose proof (length_adam_coordinates opt (pow (beta1 opt) (fnat (S iter))) (pow (beta2 opt) (fnat (S iter)))
        (adam_params s) (adam_m s) (adam_v s) (gradient r0)) as Hl.
      by destruct (adam_coordinates _ _ _ _ _ _ _) as [[ps ms] vs].
    + intros r _. by exists r0.
Qed.

(** C35: A calibration that is reported improved the objective: the trajectory
    has one entry more than there are iterations, its first entry is the
    objective at the default parameters and its last the objective at the
    reported ones, the first exceeds the last, and by the required minimum if
    one is asked for; both are the values of the program's compiled gradient
    function, which is evaluated without an error at both. *)
Theorem calibrate_outcome hash_order pow print signal_file text ticks avx (low : LoweredStates D L) opt c :
  calibrate hash_order pow print signal_file text ticks avx low opt = Ok c ->
  exists program code first last, let fn := gradient_entry low code in
    PrepareProgram hash_order signal_file text (output_signal opt) (input_symbol opt) = Ok program /\
    build_gradient_function (EmitGradientProgram hash_order
      (MkConfig (prep_symbols program) kNone avx false ∅) (prog_signals (prepared program)))
      "LLVM verifyFunction failed (program gradient)" = Ok code /\
    DefaultParams program = Ok (initial_params c) /\
    EvaluateObjectiveAndGradient (L:=L) fn program ticks (initial_params c) = Ok first /\
    EvaluateObjectiveAndGradient (L:=L) fn program ticks (final_params c) = Ok last /\
    length (trajectory c) = S (iterations opt) /\
    trajectory c !! 0 = Some (objective first) /\
    trajectory c !! iterations opt = Some (objective last) /\
    length (final_params c) = length (initial_params c) /\
    let improvement := fsub (objective first) (objective last) in
    fgt improvement (fint 0) = true /\
    (fgt (min_improvement opt) (fint 0) = true -> flt improvement (min_improvement opt) = false).
Proof.
  intros Hc. unfold calibrate in Hc. apply bind_Ok in Hc as (program & Hp & Hc).
  apply bind_Ok in Hc as (_ & _ & Hc).
  destruct (build_gradient_function _ _) as [code|[]] eqn:Eb; try done.
  set (fn := gradient_entry low code) in *.
  apply bind_Ok in Hc as (params & Hd & Hc). apply bind_Ok in Hc as ([traj s] & Ht & Hc).
  apply bind_Ok in Hc as (final & Hf & Hc). apply bind_Ok in Hc as ([] & Ha & [= <-]).
  destruct (optimise_spec _ _ _ _ _ _ _ _ _ _ Ht) as (L1 & L2 & Hfirst).
  destruct (Hfirst final Hf) as (first & H0 & E0). cbn [adam_params] in *.
  assert (Elast : (traj ++ [objective final]) !! iterations opt = Some (objective final)).
  { rewrite lookup_app_r by lia. by rewrite L1, Nat.sub_diag. }
  unfold accept in Ha. apply bind_Ok in Ha as (front & A1 & Ha). apply bind_Ok in Ha as (back & A2 & Ha).
  apply at_idx_Ok in A1, A2. rewrite length_app, L1 in A2. simpl in A2.
  replace (iterations opt + 1 - 1) with (iterations opt) in A2 by lia.
  rewrite E0 in A1. rewrite Elast in A2. injection A1 as <-. injection A2 as <-.
  apply bind_Ok in Ha as ([] & G1 & G2).
  exists program, code, first, final. cbn [initial_params final_params trajectory].
  split_and!; try done.
  - rewrite length_app, L1. simpl. lia.
  - unfold ensure in G1. by destruct (fgt _ _).
  - intros Hm. unfold ensure in G2. rewrite Hm in G2. simpl in G2. by destruct (flt _ _).
Qed.
End outcome.

(** Three iterations on [out = k * mid(AAPL)]. *)
Module RunExample.
#[local] Instance machine : Machine double long_double := ieee (fun x => x).
Fixpoint power (b : double) (n : nat) : double :=
  match n with 0 => fint 1 | S n' => fmul b (power b n') end.
Definition pow (b e : double) : double := power b (Z.to_nat (default 0%Z (to_int e))).
Definition text : string :=
  "param k = 0.5" +:+ newline +:+ "signal out = k * mid(AAPL)" +:+ newline.
Definition ticks : list (TickRow double) :=
  map (fun '(z, t) => MkTick z (fint z) (fint (z + 2)) (fint 100) (fint t)) [(1, 4); (3, 8); (5, 12)]%Z.
Definition opt : CalibrateOptions double :=
  MkOptions "out" "AAPL" (flit 5 2) (flit 9 1) (flit 999 3) (flit 1 8) 3 (fint 0).
Definition low : LoweredStates double long_double := MkLowered [] [] [] [] [] [] [] [] [] [] [] [].
Definition run : Res (Calibration double) :=
  calibrate (fun _ l => l) pow (fun _ => "") "fit.sig" text ticks false low opt.
End RunExample.

Lemma calibrate_outcome_witness :
  exists c, RunExample.run = Ok c /\ length (trajectory c) = 4.
Proof.
  destruct RunExample.run as [c|] eqn:E; [|by vm_compute in E].
  exists c. split; [done|].
  destruct (calibrate_outcome (H:=RunExample.machine) _ _ _ _ _ _ _ _ _ _ E)
    as (program & code & first & last & _ & _ & _ & _ & _ & Hl & _).
  exact Hl.
Defined.

(** An input symbol the program does not mention is an error; the symbol is
    not registered as the code after it means to. *)
Example PrepareProgram_unknown_symbol :
  PrepareProgram (H:=RunExample.machine) (fun _ l => l) "fit.sig" RunExample.text "out" "MSFT" =
    Err (RuntimeError "Unknown symbol: MSFT").
Proof. vm_compute. reflexivity. Qed.
