(* ===== verification/BacktestFacts.v ===== *)
(** * What the back-test reports

    The series of a symbol have one entry per event of the symbol: the mid of
    the market the events' quotes declare, and the outputs of the run of the
    compiled program for the event; a sample pairs the value of a signal at
    an event with the return of the mid from that event to the one [h] events
    later of the same symbol; the coefficient is Pearson's, in exact
    arithmetic. *)

From Stdlib Require Import Reals Lra.
From S2P Require Import Prelude Errors Arith RealArith Ast SymbolTable SignalProgram Rolling Context PairFacts Calibration Backtest.

(** ** The coefficient *)

Section pearson.
Local Open Scope R_scope.

Definition add_pair : xreal * xreal * xreal * xreal * xreal -> xreal * xreal -> xreal * xreal * xreal * xreal * xreal :=
  fun '(sx, sy, sxx, syy, sxy) '(xd, yd) =>
    (sx + xd, sy + yd, sxx + xd * xd, syy + yd * yd, sxy + xd * yd)%fp.

Lemma pair_sums_exact w : forall a b c d e,
  foldl add_pair (Some a, Some b, Some c, Some d, Some e) (zip (map Some (map fst w)) (map Some (map snd w))) =
  (Some (a + Wsum (fun x _ => x) w), Some (b + Wsum (fun _ y => y) w), Some (c + Wsum (fun x _ => x * x) w),
   Some (d + Wsum (fun _ y => y * y) w), Some (e + Wsum Rmult w)).
Proof.
  induction w as [|[x y] w IH]; intros a b c d e.
  - cbn. by rewrite !Rplus_0_r.
  - cbn [map zip zip_with foldl add_pair fst snd]. rewrite !fmul_xreal, !fadd_xreal, IH, !Wsum_cons. simpl.
    by rewrite !Rplus_assoc.
Qed.

(** [Pearson] in exact arithmetic. *)
Lemma Pearson_exact w :
  (2 <= length w)%nat ->
  Pearson (map Some (map fst w)) (map Some (map snd w)) =
    (if Rleb (Wvar_x w) 0 || Rleb (Wvar_y w) 0 then None
     else Some (Wcov w / sqrt (Wvar_x w * Wvar_y w))).
Proof.
  intros Hw. assert (Hn : INR (length w) <> 0) by (apply not_0_INR; lia).
  unfold Pearson. rewrite !length_map, Nat.eqb_refl. destruct (Nat.ltb_spec (length w) 2); [lia|].
  cbn [negb orb]. rewrite !fint_xreal.
  match goal with |- context [foldl ?f ?a ?l] =>
    replace (foldl f a l) with (Some (Wsum (fun x _ => x) w), Some (Wsum (fun _ y => y) w),
      Some (Wsum (fun x _ => x * x) w), Some (Wsum (fun _ y => y * y) w), Some (Wsum Rmult w))
      by (rewrite <- (Rplus_0_l (Wsum (fun x _ => x) w)), <- (Rplus_0_l (Wsum (fun _ y => y) w)),
            <- (Rplus_0_l (Wsum (fun x _ => x * x) w)), <- (Rplus_0_l (Wsum (fun _ y => y * y) w)),
            <- (Rplus_0_l (Wsum Rmult w)); symmetry; exact (pair_sums_exact w 0 0 0 0 0))
  end.
  cbn [ext exact trunc ldb dbl]. rewrite !fnat_xreal, !fmul_xreal, !fdiv_xreal by done.
  rewrite !fsub_xreal, !fle_xreal. fold (Wvar_x w) (Wvar_y w) (Wcov w).
  destruct (Rleb_spec (Wvar_x w) 0) as [|Hx]; [done|].
  destruct (Rleb_spec (Wvar_y w) 0) as [|Hy]; [done|]. cbn [orb].
  assert (Hpos : 0 < Wvar_x w * Wvar_y w) by (apply Rmult_lt_0_compat; lra).
  pose proof (sqrt_lt_R0 _ Hpos).
  by rewrite fmul_xreal, fsqrt_xreal, fdiv_xreal by lra.
Qed.
End pearson.

(** ** The samples *)

Section samples.
Context {D L : Type} `{Machine D L}.
Local Open Scope fp_scope.

(** The sample of time [t]: the signal, and the return over [h] events. *)
Definition sample (h : nat) (mids sigv : list D) (t : nat) : option (D * D) :=
  m0 ← mids !! t; m1 ← mids !! (t + h)%nat; v ← sigv !! t;
  if negb (fgt m0 (fint 0)) || negb (isfinite v) || negb (isfinite m1) then None
  else Some (v, (m1 - m0) / m0).

Definition symbol_samples (h si : nat) (mids : list D) (series : list (list D)) : list (D * D) :=
  match series !! si with
  | Some sigv => omap (sample h mids sigv) (seq 0 (length mids - h))
  | None => []
  end.
(** The samples of all symbols, in the order of their ids. *)
Definition samples (h si : nat) (mid_series : list (list D)) (signal_series : list (list (list D))) : list (D * D) :=
  concat (zip_with (symbol_samples h si) mid_series signal_series).

Lemma collect_returns_spec h n : forall t mids sigv (xs ys : list D),
  (t + n + h <= length mids)%nat -> length sigv = length mids ->
  collect_returns h n t mids sigv xs ys =
    Ok (xs ++ map fst (omap (sample h mids sigv) (seq t n)), ys ++ map snd (omap (sample h mids sigv) (seq t n))).
Proof.
  induction n as [|n IH]; intros t mids sigv xs ys Hl Hs; [by rewrite !app_nil_r|].
  destruct (lookup_lt_is_Some_2 mids t) as [m0 E0]; [lia|].
  destruct (lookup_lt_is_Some_2 mids (t + h)%nat) as [m1 E1]; [lia|].
  destruct (lookup_lt_is_Some_2 sigv t) as [v Ev]; [lia|].
  set (skip := negb (fgt m0 (fint 0)) || negb (isfinite v) || negb (isfinite m1)).
  assert (Es : sample h mids sigv t = if skip then None else Some (v, (m1 - m0) / m0))
    by (unfold sample; by rewrite E0, E1, Ev).
  cbn [collect_returns seq omap list_omap]. unfold at_idx. rewrite E0, E1, Ev, Es. cbn [rbind].
  fold skip. destruct skip.
  - apply IH; [lia|done].
  - rewrite IH by (done || lia). cbn [map fst snd]. by rewrite <- !app_assoc.
Qed.

(** Every symbol has a series per signal, as long as its mids. *)
Definition series_ok (n : nat) (mids : list D) (series : list (list D)) : Prop :=
  length series = n /\ Forall (fun l => length l = length mids) series.

Lemma collect_samples_spec h si n ms ss : forall xs ys,
  si < n -> Forall2 (series_ok n) ms ss ->
  collect_samples h si ms ss xs ys =
    Ok (xs ++ map fst (samples h si ms ss), ys ++ map snd (samples h si ms ss)).
Proof.
  intros xs ys Hsi HF. revert xs ys. induction HF as [|mids series ms ss [Hn Hl] HF IH]; intros xs ys.
  - by rewrite !app_nil_r.
  - destruct (lookup_lt_is_Some_2 series si) as [sigv Es]; [lia|].
    pose proof (Forall_lookup_1 _ _ _ _ Hl Es) as El. simpl in El.
    unfold samples. cbn [zip_with concat]. fold (samples h si ms ss).
    cbn [collect_samples tail]. unfold at_idx. rewrite Es. cbn [lookup list_lookup rbind].
    unfold symbol_samples. rewrite Es, El, orb_diag, Nat.min_id, !map_app, !app_assoc.
    destruct (Nat.leb_spec (length mids) h) as [Hle|Hgt].
    + replace (length mids - h)%nat with 0 by lia. cbn [seq omap list_omap map]. rewrite !app_nil_r. apply IH.
    + rewrite collect_returns_spec by lia. cbn [rbind]. apply IH.
Qed.

Lemma compute_for_h_spec h n_signals s : forall n si,
  (si + n <= n_signals)%nat -> Forall2 (series_ok n_signals) (mid_series s) (signal_series s) ->
  compute_for_h (D:=D) (L:=L) h n si s = Ok (map (fun si =>
    let w := samples h si (mid_series s) (signal_series s) in
    (Pearson (map fst w) (map snd w), length w)) (seq si n)).
Proof.
  induction n as [|n IH]; intros si Hsi HF; [done|]. cbn [compute_for_h].
  rewrite (collect_samples_spec _ _ n_signals) by (done || lia). cbn [rbind app].
  rewrite IH by (done || lia). cbn. by rewrite length_map.
Qed.
End samples.

(** ** The replay *)

Definition event_name (rev : ReplayEvent) : string :=
  if (event_symbol rev =? "")%string then "UNKNOWN" else event_symbol rev.
Definition events_of (sym : string) (evs : list ReplayEvent) : nat :=
  length (filter (fun rev => event_name rev = sym) evs).

(** The elements of a list in the order of their first appearance. *)
Definition first_seen (l : list string) : list string :=
  foldl (fun acc x => if decide (x ∈ acc) then acc else acc ++ [x]) [] l.

Lemma first_seen_snoc l x :
  first_seen (l ++ [x]) = if decide (x ∈ first_seen l) then first_seen l else first_seen l ++ [x].
Proof. unfold first_seen. by rewrite foldl_app. Qed.

Lemma elem_of_first_seen x l : x ∈ first_seen l <-> x ∈ l.
Proof.
  induction l as [|y l IH] using rev_ind; [done|]. rewrite first_seen_snoc.
  destruct (decide (y ∈ first_seen l)); set_solver.
Qed.

Lemma NoDup_first_seen l : NoDup (first_seen l).
Proof.
  induction l as [|y l IH] using rev_ind; [constructor|]. rewrite first_seen_snoc.
  destruct (decide (y ∈ first_seen l)); [done|]. apply NoDup_app. split_and!; [done| |apply NoDup_singleton].
  intros x Hx ->%list_elem_of_singleton. done.
Qed.

Lemma events_of_snoc sym evs rev :
  events_of sym (evs ++ [rev]) = events_of sym evs + (if decide (event_name rev = sym) then 1 else 0).
Proof.
  unfold events_of. rewrite filter_app, length_app, filter_cons. by destruct (decide (event_name rev = sym)).
Qed.

Lemma events_of_fresh sym evs : sym ∉ map event_name evs -> events_of sym evs = 0.
Proof.
  intros Hs. unfold events_of. induction evs as [|ev evs IH]; [done|]. cbn [map] in Hs.
  apply not_elem_of_cons in Hs as [Hne Hs]. rewrite filter_cons.
  destruct (decide (event_name ev = sym)); [congruence|auto].
Qed.

(** ** What the series hold

    Stated without the replay's state: the quotes of a ticker are read off
    the events of the ticker's slot. *)
Section content.
Context {D L : Type} `{Machine D L} `{EqDecision D}.
Local Open Scope fp_scope.

Definition event_price (rev : ReplayEvent) : D := fint (price rev) * flit 1 4.
Definition is_trade (rev : ReplayEvent) : bool :=
  (event_type rev =? "Trade")%string || (event_type rev =? "CrossTrade")%string.

(** The prices of the events a condition selects, if positive. *)
Definition prices (sel : ReplayEvent -> bool) (evs : list ReplayEvent) : list D :=
  map event_price (filter (fun rev => sel rev && fgt (event_price rev) (fint 0)) evs).

(** The price of the last event on a side or, before there is one, of the
    first trade. *)
Definition quote (sd : string) (evs : list ReplayEvent) : option D :=
  match last (prices (fun rev => side rev =? sd)%string evs) with
  | Some px => Some px
  | None => hd_error (prices is_trade evs)
  end.

Definition instrument_after (evs : list ReplayEvent) : InstrumentState D :=
  MkInstrument (default (fint 0) (quote "Buy" evs)) (default (fint 0) (quote "Sell" evs))
    (default (fint 0) (last (prices is_trade evs)))
    (default (fint 0) (last (map (fun rev => fint (qty rev)) evs))) 0.

(** The events of the ticker of a slot. *)
Definition slot_events (symbols : SymbolTable) (slot : nat) (evs : list ReplayEvent) : list ReplayEvent :=
  filter (fun rev => symbol_to_id_ symbols !! event_name rev = Some slot) evs.

Definition market_after (symbols : SymbolTable) (evs : list ReplayEvent) : MarketState D :=
  MkMarket (map (fun slot => instrument_after (slot_events symbols slot evs)) (seq 0 kMaxInstruments))
    (default 0%Z (last (map timestamp_ns evs))).

(** The mid of "AAPL": between the two quotes, or the one there is. *)
Definition mid_after (symbols : SymbolTable) (evs : list ReplayEvent) : D :=
  match symbol_to_id_ symbols !! "AAPL"%string with
  | None => fint 0
  | Some slot =>
      let evs := slot_events symbols slot evs in
      match quote "Buy" evs, quote "Sell" evs with
      | Some b, Some a => flit 5 1 * (b + a)
      | Some b, None => b
      | None, Some a => a
      | None, None => fint 0
      end
  end.

(** One mid per event, and of a list with one element per event those of the
    events of a symbol. *)
Definition mids_after (symbols : SymbolTable) (evs : list ReplayEvent) : list D :=
  map (fun k => mid_after symbols (take (S k) evs)) (seq 0 (length evs)).
Definition at_events {A} (sym : string) (evs : list ReplayEvent) (xs : list A) : list A :=
  map snd (filter (fun p => event_name p.1 = sym) (zip evs xs)).

(** The values of each of [n] signals, from the outputs of the runs. *)
Definition series_of (n : nat) (rows : list (list D)) : list (list D) :=
  map (fun i => omap (fun row => row !! i) rows) (seq 0 n).

(** The runs of the compiled program: one call per event, on the market after
    the event and for the id of the event's symbol, whose context is prewarmed
    when the symbol is new; what the program does not write keeps its value. *)
Inductive program_runs (fn : ProgramFn (D:=D) (L:=L)) (program : Prepared D)
  : list ReplayEvent -> MultiSymbolSignalContext D L -> list (list D) -> Prop :=
| runs_none : program_runs fn program [] (NewArena 0) []
| runs_event evs rev arena rows arena1 sid writes arena' :
    program_runs fn program evs arena rows ->
    first_seen (map event_name (evs ++ [rev])) !! sid = Some (event_name rev) ->
    (if decide (event_name rev ∈ map event_name evs) then arena1 = arena
     else for_each (fun sd a => PrewarmSymbol a sid sd) (signals_ program)
            (Resize arena (S sid)) = Ok arena1) ->
    fn (market_after (replay_symbols program) (evs ++ [rev])) sid arena1 = Ok (writes, arena') ->
    program_runs fn program (evs ++ [rev]) arena'
      (rows ++ [write_all writes (default (replicate (length (signals_ program)) (fint 0)) (last rows))]).

Lemma slot_events_snoc symbols slot evs rev :
  slot_events symbols slot (evs ++ [rev]) =
  slot_events symbols slot evs ++
    (if decide (symbol_to_id_ symbols !! event_name rev = Some slot) then [rev] else []).
Proof. unfold slot_events. rewrite filter_app, filter_cons, filter_nil. by destruct (decide _). Qed.

Lemma at_events_snoc {A} sym evs (xs : list A) rev x :
  length xs = length evs ->
  at_events sym (evs ++ [rev]) (xs ++ [x]) =
  at_events sym evs xs ++ (if decide (event_name rev = sym) then [x] else []).
Proof.
  intros Hl. unfold at_events. rewrite zip_with_app by done. cbn [zip_with].
  rewrite filter_app, map_app, filter_cons, filter_nil. cbn [fst]. by destruct (decide _).
Qed.

Lemma at_events_fresh {A} sym evs : forall xs : list A,
  sym ∉ map event_name evs -> at_events sym evs xs = [].
Proof.
  unfold at_events. induction evs as [|ev evs IH]; intros [|x xs] Hs; try done.
  cbn [map] in Hs. apply not_elem_of_cons in Hs as [Hne Hs]. cbn [zip_with].
  rewrite filter_cons_False by (cbn; congruence). by apply IH.
Qed.

Lemma mids_after_snoc symbols evs rev :
  mids_after symbols (evs ++ [rev]) = mids_after symbols evs ++ [mid_after symbols (evs ++ [rev])].
Proof.
  unfold mids_after. rewrite length_app, Nat.add_1_r, seq_S, map_app. cbn [map Nat.add]. f_equal.
  - apply map_ext_in. intros k [_ Hk]%in_seq. by rewrite take_app_le by lia.
  - by rewrite take_ge by (rewrite length_app; simpl; lia).
Qed.

Lemma series_of_lookup n rows i : i < n -> series_of n rows !! i = Some (omap (fun row => row !! i) rows).
Proof. intros Hi. unfold series_of. by rewrite list_lookup_fmap, lookup_seq_lt. Qed.

Lemma series_of_nil n : series_of n [] = replicate n [].
Proof.
  apply list_eq. intros i. destruct (decide (i < n)) as [Hi|Hi].
  - by rewrite series_of_lookup, lookup_replicate_2.
  - unfold series_of. rewrite !lookup_ge_None_2; [done|..]; rewrite ?length_replicate, ?length_map, ?length_seq; lia.
Qed.

Lemma push_signals_series n rows row :
  length row = n -> push_signals row (series_of n rows) = series_of n (rows ++ [row]).
Proof.
  intros Hr. apply list_eq. intros i. unfold push_signals. rewrite lookup_zip_with.
  destruct (decide (i < n)) as [Hi|Hi].
  - rewrite !series_of_lookup by done. destruct (lookup_lt_is_Some_2 row i) as [d Hd]; [lia|].
    rewrite Hd. cbn. rewrite omap_app. cbn. by rewrite Hd.
  - unfold series_of. rewrite list_lookup_fmap, lookup_seq_ge by lia. cbn.
    by rewrite list_lookup_fmap, lookup_seq_ge by lia.
Qed.

Lemma mids_after_length symbols evs : length (mids_after symbols evs) = length evs.
Proof. unfold mids_after. by rewrite length_map, length_seq. Qed.

Lemma at_events_length {A} sym evs : forall xs : list A,
  length xs = length evs -> length (at_events sym evs xs) = events_of sym evs.
Proof.
  unfold at_events, events_of.
  induction evs as [|ev evs IH]; intros [|x xs] Hl; try done. simpl in Hl. cbn [zip_with].
  rewrite !filter_cons. cbn [fst]. specialize (IH xs ltac:(lia)). rewrite length_map in IH |- *.
  destruct (decide (event_name ev = sym)); cbn [length]; by rewrite IH.
Qed.

Lemma at_events_elem {A} sym evs (xs : list A) x : x ∈ at_events sym evs xs -> x ∈ xs.
Proof.
  unfold at_events. intros ([ev y] & -> & Hin)%list_elem_of_fmap.
  apply list_elem_of_filter in Hin as [_ Hin]. by apply elem_of_zip_r in Hin.
Qed.

Lemma omap_length_all {A B} (g : A -> option B) l :
  Forall (fun x => is_Some (g x)) l -> length (omap g l) = length l.
Proof. induction 1 as [|x l [y Hy] _ IH]; [done|]. cbn. rewrite Hy. cbn. by rewrite IH. Qed.

(** *** One event, on the declared quotes *)

(** Comparisons with zero. *)
Hypothesis positive : forall x : D, fgt x (fint 0) = true -> fle x (fint 0) = false.
Hypothesis zero_le : fle (fint (T:=D) 0) (fint 0) = true.

Lemma zero_not_positive : fgt (fint (T:=D) 0) (fint 0) = false.
Proof. destruct (fgt _ _) eqn:E; [|done]. apply positive in E. congruence. Qed.

Lemma prices_snoc sel evs rev :
  prices sel (evs ++ [rev]) =
  prices sel evs ++ (if sel rev && fgt (event_price rev) (fint 0) then [event_price rev] else []).
Proof.
  unfold prices. rewrite filter_app, map_app, filter_cons, filter_nil. f_equal.
  by destruct (sel rev && _); rewrite ?decide_True, ?decide_False by done.
Qed.

Lemma prices_positive sel evs x : x ∈ prices sel evs -> fgt x (fint 0) = true.
Proof.
  unfold prices. intros (rev & -> & Hin)%list_elem_of_fmap. apply list_elem_of_filter in Hin as [Hp _].
  destruct (sel rev); [|done]. simpl in Hp. by destruct (fgt _ _).
Qed.

Lemma quote_positive sd evs x : quote sd evs = Some x -> fgt x (fint 0) = true.
Proof.
  unfold quote. destruct (last (prices _ evs)) as [y|] eqn:E.
  - intros [= <-]. eapply prices_positive. by apply last_Some_elem_of.
  - intros Hx. eapply prices_positive. by apply head_Some_elem_of.
Qed.

(** A quote is not positive exactly when there is none yet. *)
Lemma quote_le sd evs :
  fle (default (fint 0) (quote sd evs)) (fint 0) = match quote sd evs with Some _ => false | None => true end.
Proof.
  destruct (quote sd evs) as [x|] eqn:E; cbn; [|exact zero_le]. by apply positive, (quote_positive sd evs).
Qed.
Lemma quote_gt sd evs :
  fgt (default (fint 0) (quote sd evs)) (fint 0) = match quote sd evs with Some _ => true | None => false end.
Proof.
  destruct (quote sd evs) as [x|] eqn:E; cbn; [|exact zero_not_positive]. by apply (quote_positive sd evs).
Qed.

Lemma quote_snoc sd evs rev :
  quote sd (evs ++ [rev]) =
    if fgt (event_price rev) (fint 0) then
      if (side rev =? sd)%string then Some (event_price rev)
      else match quote sd evs with
           | Some px => Some px
           | None => if is_trade rev then Some (event_price rev) else None
           end
    else quote sd evs.
Proof.
  unfold quote. rewrite !prices_snoc. destruct (fgt (event_price rev) (fint 0)).
  - rewrite !andb_true_r. destruct (side rev =? sd)%string; [by rewrite last_snoc|]. rewrite app_nil_r.
    destruct (last (prices _ evs)); [done|]. rewrite head_app.
    destruct (hd_error (prices is_trade evs)); [done|]. by destruct (is_trade rev).
  - by rewrite !andb_false_r, !app_nil_r.
Qed.

Lemma quote_none sd evs : quote sd evs = None -> last (prices is_trade evs) = None.
Proof.
  unfold quote. destruct (last (prices _ evs)); [done|]. intros E.
  apply head_None in E. by rewrite E.
Qed.

Lemma instrument_after_snoc evs rev :
  instrument_after (evs ++ [rev]) = update_instrument rev (instrument_after evs).
Proof.
  unfold instrument_after, update_instrument. rewrite !quote_snoc, prices_snoc, map_app. cbn [map]. rewrite last_snoc.
  fold (event_price rev). fold (is_trade rev).
  destruct (fgt (event_price rev) (fint 0)) eqn:Hp; cbn [bid ask last_price volume last_update_ns].
  2: { by rewrite andb_false_r, app_nil_r. }
  rewrite andb_true_r. pose proof (positive _ Hp) as Hle.
  destruct (is_trade rev); cbn [bid ask last_price volume last_update_ns];
    rewrite ?last_snoc, ?app_nil_r; f_equal.
  - destruct (side rev =? "Buy")%string; cbn; [by rewrite Hle|]. rewrite quote_le.
    by destruct (quote "Buy" evs).
  - destruct (side rev =? "Sell")%string; cbn; [by rewrite Hle|]. rewrite quote_le.
    by destruct (quote "Sell" evs).
  - destruct (side rev =? "Buy")%string; [done|]. by destruct (quote "Buy" evs).
  - destruct (side rev =? "Sell")%string; [done|]. by destruct (quote "Sell" evs).
Qed.

Lemma market_after_lookup symbols evs slot :
  slot < kMaxInstruments ->
  instruments (market_after symbols evs) !! slot = Some (instrument_after (slot_events symbols slot evs)).
Proof. intros Hs. cbn [instruments market_after]. by rewrite list_lookup_fmap, lookup_seq_lt. Qed.

Lemma market_after_length symbols evs : length (instruments (market_after symbols evs)) = kMaxInstruments.
Proof. cbn [instruments market_after]. by rewrite length_map, length_seq. Qed.

Lemma market_after_nil symbols :
  market_after symbols [] = MkMarket (replicate kMaxInstruments InstrumentState_init) 0.
Proof. reflexivity. Qed.

Variable symbols : SymbolTable.
Hypothesis slots_ok : forall t slot, symbol_to_id_ symbols !! t = Some slot -> slot < kMaxInstruments.

Lemma update_market_after evs rev :
  update_market symbols (event_name rev) rev (market_after symbols evs) =
    Ok (market_after symbols (evs ++ [rev])).
Proof.
  assert (Ht : forall m, MkMarket (D:=D) m (timestamp_ns rev) =
    MkMarket m (default 0%Z (last (map timestamp_ns (evs ++ [rev]))))) by (intros; rewrite map_app; cbn [map]; by rewrite last_snoc).
  unfold update_market. destruct (symbol_to_id_ symbols !! event_name rev) as [slot|] eqn:E.
  - apply slots_ok in E as Hs. unfold at_idx. rewrite market_after_lookup by done. cbn [rbind].
    rewrite Ht. unfold market_after at 2. do 2 f_equal. apply list_eq. intros i.
    rewrite list_lookup_fmap. destruct (decide (i < kMaxInstruments)) as [Hi|Hi].
    + rewrite lookup_seq_lt by done. cbn [fmap option_fmap option_map Nat.add]. rewrite slot_events_snoc. destruct (decide (i = slot)) as [->|Hne].
      * rewrite list_lookup_insert_eq by (by rewrite market_after_length).
        by rewrite decide_True, instrument_after_snoc by done.
      * rewrite list_lookup_insert_ne, market_after_lookup by done.
        by rewrite decide_False, app_nil_r by congruence.
    + rewrite lookup_seq_ge by lia. cbn [fmap option_fmap option_map].
      apply lookup_ge_None_2. rewrite length_insert, market_after_length. lia.
  - rewrite Ht. unfold market_after at 2. do 2 f_equal. apply map_ext_in. intros i Hi.
    by rewrite slot_events_snoc, decide_False, app_nil_r by congruence.
Qed.

Lemma replay_mid_after evs : replay_mid symbols (market_after symbols evs) = Ok (mid_after symbols evs).
Proof.
  unfold replay_mid, mid_after. destruct (symbol_to_id_ symbols !! "AAPL") as [slot|] eqn:E; [|done].
  apply slots_ok in E as Hs. unfold at_idx. rewrite market_after_lookup by done. cbn [rbind].
  cbn [instrument_after bid ask last_price]. rewrite !quote_gt.
  destruct (quote "Buy" _) eqn:Eb, (quote "Sell" _) eqn:Ea; cbn; try done.
  by rewrite (quote_none "Buy") by done.
Qed.
End content.

Section replay.
Context {D L : Type} `{Machine D L} `{EqDecision D}.
Variable print : D -> string.
Variable fn : ProgramFn (D:=D) (L:=L).
Variable program : Prepared D.
Notation n := (length (signals_ program)).

(** What the replay needs of its surroundings: the slots of the tickers are
    instruments, prewarming a signal succeeds, and so does a call of the
    function for a symbol of the arena, of which it keeps the size. *)
Hypothesis slots_ok : forall t slot,
  symbol_to_id_ (replay_symbols program) !! t = Some slot -> slot < kMaxInstruments.
Hypothesis prewarm_ok : forall sd c, sd ∈ signals_ program -> exists c',
  PrewarmSignalContext (D:=D) (L:=L) c sd = Ok c'.
Hypothesis fn_ok : forall m sid a,
  length (instruments m) = kMaxInstruments -> sid < length (arena_ a) ->
  exists w a', fn m sid a = Ok (w, a') /\ length (arena_ a') = length (arena_ a).

Hypothesis positive : forall x : D, fgt x (fint 0) = true -> fle x (fint 0) = false.
Hypothesis zero_le : fle (fint (T:=D) 0) (fint 0) = true.
Notation slots := (replay_symbols program).
Notation zeros := (replicate n (fint 0)).

Record replayed (evs : list ReplayEvent) (rows : list (list D)) (s : Replay D L) : Prop := {
  rp_ids : id_to_symbol s = first_seen (map event_name evs);
  rp_map : forall sym i, symbol_to_id s !! sym = Some i <-> id_to_symbol s !! i = Some sym;
  rp_arena : length (arena_ (replay_ctx s)) = length (id_to_symbol s);
  rp_market : market s = market_after slots evs;
  rp_runs : program_runs fn program evs (replay_ctx s) rows;
  rp_rows : length rows = length evs /\ Forall (fun row => length row = n) rows;
  rp_outputs : replay_outputs s = default zeros (last rows);
  rp_mids : Forall2 (fun sym l => l = at_events sym evs (mids_after slots evs)) (id_to_symbol s) (mid_series s);
  rp_series : Forall2 (fun sym series => series = series_of n (at_events sym evs rows))
    (id_to_symbol s) (signal_series s) }.

Lemma prewarm_all_ok sid : forall signals a,
  (forall sd, sd ∈ signals -> sd ∈ signals_ program) -> sid < length (arena_ a) -> exists a',
    for_each (fun sd a => PrewarmSymbol a sid sd) signals a = Ok a' /\ length (arena_ a') = length (arena_ a).
Proof.
  induction signals as [|sd signals IH]; intros a Hs Ha; [by exists a|]. cbn [for_each].
  destruct (lookup_lt_is_Some_2 _ _ Ha) as [c Hc].
  destruct (prewarm_ok sd c) as [c' Hc']; [apply Hs; set_solver|].
  unfold PrewarmSymbol at 1, with_symbol, PerSymbol. rewrite Hc. cbn [rbind]. rewrite Hc'. cbn [rbind rmap snd].
  destruct (IH (MkArena (<[sid := c']> (arena_ a)) (params_ a))) as (a' & E & Hl).
  - set_solver.
  - cbn [arena_]. by rewrite length_insert.
  - exists a'. split; [exact E|]. rewrite Hl. cbn [arena_]. by rewrite length_insert.
Qed.

(** The state in which the event's symbol has its id and its series. *)
Lemma symbol_id_of_ok evs rows s rev :
  replayed evs rows s -> exists sid s1,
    symbol_id_of (signals_ program) (event_name rev) s = Ok (sid, s1) /\
    id_to_symbol s1 !! sid = Some (event_name rev) /\
    id_to_symbol s1 = first_seen (map event_name (evs ++ [rev])) /\
    (forall sym i, symbol_to_id s1 !! sym = Some i <-> id_to_symbol s1 !! i = Some sym) /\
    length (arena_ (replay_ctx s1)) = length (id_to_symbol s1) /\
    (if decide (event_name rev ∈ map event_name evs) then replay_ctx s1 = replay_ctx s
     else for_each (fun sd a => PrewarmSymbol a sid sd) (signals_ program)
            (Resize (replay_ctx s) (S sid)) = Ok (replay_ctx s1)) /\
    market s1 = market s /\ replay_outputs s1 = replay_outputs s /\
    Forall2 (fun sym l => l = at_events sym evs (mids_after slots evs)) (id_to_symbol s1) (mid_series s1) /\
    Forall2 (fun sym series => series = series_of n (at_events sym evs rows))
      (id_to_symbol s1) (signal_series s1).
Proof.
  intros [Hids Hmap Har _ _ _ _ Hm Hs]. unfold symbol_id_of.
  assert (Hseen : first_seen (map event_name (evs ++ [rev])) =
    if decide (event_name rev ∈ id_to_symbol s) then id_to_symbol s else id_to_symbol s ++ [event_name rev])
    by (rewrite Hids, map_app; apply first_seen_snoc).
  assert (Hin : forall x, x ∈ map event_name evs <-> x ∈ id_to_symbol s)
    by (intros x; rewrite Hids; symmetry; apply elem_of_first_seen).
  rewrite Hseen. clear Hseen.
  destruct (symbol_to_id s !! event_name rev) as [sid|] eqn:E.
  - apply Hmap in E as E'. exists sid, s. pose proof (list_elem_of_lookup_2 _ _ _ E') as Hx.
    rewrite !decide_True by (done || by apply Hin). split_and!; try done; apply Hmap.
  - assert (Hnew : event_name rev ∉ id_to_symbol s).
    { intros [i Hi]%list_elem_of_lookup. apply Hmap in Hi. congruence. }
    rewrite decide_False by done.
    assert (Hr : length (arena_ (Resize (replay_ctx s) (S (length (id_to_symbol s))))) = S (length (id_to_symbol s))).
    { unfold Resize, RefreshParamViews, vec_resize. cbn [arena_].
      rewrite length_map, length_app, length_take, length_replicate, Har. lia. }
    destruct (prewarm_all_ok (length (id_to_symbol s)) (signals_ program)
      (Resize (replay_ctx s) (S (length (id_to_symbol s))))) as (a' & Ea & Hl); [done|lia|].
    rewrite Ea. cbn [rbind]. eexists _, _. split; [reflexivity|].
    cbn [id_to_symbol symbol_to_id replay_ctx market replay_outputs mid_series signal_series].
    rewrite decide_False by (by rewrite Hin). split_and!; try done.
    + by rewrite lookup_app_r, Nat.sub_diag by done.
    + intros sym i. rewrite lookup_insert_Some, lookup_snoc_Some, Hmap. split.
      * intros [[E1 E2]|[Hne Hi]]; [right; by split|left; split; [by eapply lookup_lt_Some|done]].
      * intros [[_ Hi]|[E1 E2]]; [right; split; [|done]|left; by split].
        intros E1. apply Hnew. rewrite E1. by eapply list_elem_of_lookup_2.
    + rewrite Hl, Hr, length_app. simpl. lia.
    + apply Forall2_app; [done|]. constructor; [|constructor].
      by rewrite at_events_fresh by (by rewrite Hin).
    + apply Forall2_app; [done|]. constructor; [|constructor].
      by rewrite at_events_fresh, series_of_nil by (by rewrite Hin).
Qed.

(** Appending to one symbol's series. *)
Lemma alter_at {A} (P Q : string -> A -> Prop) (f : A -> A) ids ls sid sym :
  Forall2 P ids ls -> NoDup ids -> ids !! sid = Some sym ->
  (forall l, P sym l -> Q sym (f l)) -> (forall sym' l, sym' <> sym -> P sym' l -> Q sym' l) ->
  Forall2 Q ids (alter f sid ls).
Proof.
  intros HF Hnd Hsid Hf Hother. apply Forall2_same_length_lookup. split.
  { rewrite length_alter. by eapply Forall2_length. }
  intros i sym' l Hi Hl. destruct (decide (i = sid)) as [->|Hne].
  - rewrite Hi in Hsid. injection Hsid as ->. rewrite list_lookup_alter_eq in Hl.
    destruct (ls !! sid) as [l0|] eqn:E; [|done]. injection Hl as <-.
    apply Hf. by eapply Forall2_lookup_lr.
  - rewrite list_lookup_alter_ne in Hl by done.
    apply Hother; [|by eapply Forall2_lookup_lr]. intros ->. apply Hne. by eapply NoDup_lookup.
Qed.

Lemma process_event_ok evs rows s rev :
  replayed evs rows s -> exists s' row, process_event print fn program rev s = Ok s' /\
    replayed (evs ++ [rev]) (rows ++ [row]) s'.
Proof.
  intros Hs. destruct (symbol_id_of_ok evs rows s rev Hs)
    as (sid & s1 & E & Hsid & Hids & Hmap & Har & Hctx & Hmk & Ho & Hm & Hser).
  destruct Hs as [_ _ _ Hmarket Hruns [Hrl Hrows] Hout _ _].
  pose proof (lookup_lt_Some _ _ _ Hsid) as Hlt.
  assert (Hl : length (replay_outputs s) = n).
  { rewrite Hout. destruct (last rows) as [row|] eqn:El; [|apply length_replicate].
    by apply (proj1 (Forall_forall _ _) Hrows), last_Some_elem_of. }
  unfold process_event. fold (event_name rev). rewrite E. cbn [rbind].
  rewrite Hmk, Hmarket, update_market_after by done. cbn [rbind].
  destruct (fn_ok (market_after slots (evs ++ [rev])) sid (replay_ctx s1)) as (w & a' & Hfn & Ha');
    [apply market_after_length|lia|]. rewrite Hfn. cbn [rbind].
  rewrite replay_mid_after by done. cbn [rbind].
  pose proof (Forall2_length _ _ _ Hm) as L1. pose proof (Forall2_length _ _ _ Hser) as L2.
  destruct (lookup_lt_is_Some_2 (mid_series s1) sid) as [l1 E1]; [lia|].
  destruct (lookup_lt_is_Some_2 (signal_series s1) sid) as [l2 E2]; [lia|].
  unfold at_idx. rewrite E1, E2, Ho. cbn [rbind]. eexists _, (write_all w (replay_outputs s)). split; [done|].
  assert (Hrow : length (write_all w (replay_outputs s)) = n) by (unfold write_all; by rewrite length_imap).
  split; cbn [id_to_symbol symbol_to_id replay_ctx market replay_outputs mid_series signal_series]; try done.
  - by rewrite Ha'.
  - rewrite Hout. eapply runs_event; [exact Hruns|by rewrite <- Hids|exact Hctx|exact Hfn].
  - rewrite !length_app, Hrl. split; [done|]. apply Forall_app. split; [done|by constructor].
  - by rewrite last_snoc.
  - eapply alter_at; [exact Hm|rewrite Hids; apply NoDup_first_seen|exact Hsid| |]; cbn beta.
    + intros l ->. rewrite mids_after_snoc, at_events_snoc, decide_True by (done || apply mids_after_length). done.
    + intros sym' l Hne ->. rewrite mids_after_snoc, at_events_snoc, decide_False, app_nil_r
        by (congruence || apply mids_after_length). done.
  - eapply alter_at; [exact Hser|rewrite Hids; apply NoDup_first_seen|exact Hsid| |]; cbn beta.
    + intros l ->. by rewrite push_signals_series, at_events_snoc, decide_True.
    + intros sym' l Hne ->. by rewrite at_events_snoc, decide_False, app_nil_r by congruence.
Qed.

Lemma replay_ok events : forall evs rows s,
  replayed evs rows s -> exists s' rows', for_each (process_event print fn program) events s = Ok s' /\
    replayed (evs ++ events) rows' s'.
Proof.
  induction events as [|rev events IH]; intros evs rows s Hs; [exists s, rows; by rewrite app_nil_r|].
  destruct (process_event_ok evs rows s rev Hs) as (s1 & row & E & H1). cbn [for_each]. rewrite E. cbn [rbind].
  destruct (IH _ _ _ H1) as (s2 & rows2 & E2 & H2). exists s2, rows2. split; [done|].
  by rewrite <- app_assoc in H2.
Qed.

Lemma replayed_init : replayed [] [] (Replay_init n).
Proof.
  split; cbn [id_to_symbol replay_ctx market replay_outputs mid_series signal_series symbol_to_id Replay_init
    arena_ NewArena RefreshParamViews]; try done; constructor.
Qed.

(** The lengths of the series. *)
Lemma replayed_lengths evs rows s :
  replayed evs rows s ->
  Forall2 (fun sym l => length l = events_of sym evs) (id_to_symbol s) (mid_series s) /\
  Forall2 (series_ok n) (mid_series s) (signal_series s).
Proof.
  intros [_ _ _ _ _ [Hrl Hrows] _ Hm Hser]. split.
  - eapply Forall2_impl; [exact Hm|]. intros sym l ->. apply at_events_length, mids_after_length.
  - apply Forall2_same_length_lookup. split.
    { by rewrite <- (Forall2_length _ _ _ Hm), <- (Forall2_length _ _ _ Hser). }
    intros i mids series Hi1 Hi2.
    destruct (Forall2_lookup_r _ _ _ _ _ Hm Hi1) as (sym & Hsym & ->).
    destruct (Forall2_lookup_r _ _ _ _ _ Hser Hi2) as (sym' & Hsym' & ->).
    rewrite Hsym in Hsym'. injection Hsym' as <-.
    pose proof (at_events_length sym evs _ (mids_after_length slots evs)) as Hml.
    split; [unfold series_of; by rewrite length_map, length_seq|]. apply Forall_forall.
    intros l Hl. apply list_elem_of_fmap in Hl as (j & -> & Hj%elem_of_seq).
    rewrite Hml, <- (at_events_length sym evs rows Hrl). apply omap_length_all.
    apply Forall_forall. intros row Hrow. apply at_events_elem in Hrow.
    apply lookup_lt_is_Some_2. rewrite (proj1 (Forall_forall _ _) Hrows row Hrow). lia.
Qed.
End replay.

(** The coefficient and the number of samples at one horizon. *)
Definition ic_at {D L} `{Machine D L} (h i : nat) (s : Replay D L) : D * nat :=
  let w := samples h i (mid_series s) (signal_series s) in (Pearson (map fst w) (map snd w), length w).


(** The comparisons of doubles. *)
Lemma double_positive (x : double) : fgt x (fint 0) = true -> fle x (fint 0) = false.
Proof. by destruct x as [[[]|[]| |[] m e]]. Qed.

(** Three events of two symbols, for [a = mid(AAPL)]. *)
Module ReplayExample.
#[local] Instance machine : Machine double long_double := ieee (fun x => x).
Definition program : Prepared double :=
  match prepare_backtest (fun _ l => l) ("signal a = mid(AAPL)" +:+ newline) with
  | Ok p => p | Err _ => MkReplayProgram [] empty_table end.
Definition fn : ProgramFn (D:=double) (L:=long_double) := fun m _ arena =>
  let ins := default InstrumentState_init (instruments m !! 0) in
  Ok (<[0 := fmul (fadd (bid ins) (ask ins)) (flit 5 1)]> ∅, arena).
Definition text : string :=
  "timestamp_ns,symbol,event_type,side,price,qty" +:+ newline +:+
  "1,AAPL,Trade,Buy,1000000,5" +:+ newline +:+ "2,MSFT,Other,Sell,2000000,5" +:+ newline +:+
  "3,AAPL,Other,Sell,1100000,7" +:+ newline.
Definition events : list ReplayEvent :=
  match ReadReplayCsv "events.csv" text 0 with Ok evs => evs | Err _ => [] end.
End ReplayExample.

