(* ===== verification/MarketSimFacts.v ===== *)
(** * The simulated prices *)

From Stdlib Require Import Reals Lra.
From S2P Require Import Prelude Errors Arith RealArith SymbolTable Rolling MarketSim.

(** In exact arithmetic: whatever is drawn, as long as the indices are in
    the range of the distribution, no event fails, and its quotes are
    positive and 0.01 apart. *)
Section prices.
Variable exp : xreal -> xreal.
Local Open Scope R_scope.

Definition quoted (n : nat) (e : MarketEvent xreal) : Prop :=
  (instrument_id e < n)%nat /\ (0 <= ev_timestamp_ns e < 2 ^ 64)%Z /\
  exists bid, ev_bid e = Some bid /\ ev_ask e = Some (bid + 1 / 100) /\ 1 / 200 <= bid.

Definition prices_ok (n : nat) (sim : MarketSimulator xreal) : Prop :=
  length (mids_ sim) = n /\ Forall (fun m => exists v, m = Some v) (mids_ sim).

Lemma std_max_floor c (v : xreal) : exists r, std_max (Some c : xreal) v = Some r /\ c <= r.
Proof.
  unfold std_max. destruct v as [v|]; [|exists c; split; [done|lra]]. rewrite flt_xreal.
  destruct (Rltb_spec c v); [exists v|exists c]; (split; [done|lra]).
Qed.

Lemma NextEvent_ok n dt draw normal sim :
  prices_ok n sim -> (draw < n)%nat ->
  exists e sim', NextEvent exp dt draw normal sim = Ok (e, sim') /\ quoted n e /\ prices_ok n sim'.
Proof.
  intros [Hn HF] Hd. unfold NextEvent.
  destruct (lookup_lt_is_Some_2 (mids_ sim) draw ltac:(lia)) as [old Hold]. unfold at_idx. rewrite Hold. cbn [rbind].
  change (flit 1 2 : xreal) with (Some (1 / 10 ^ 2) : xreal).
  destruct (std_max_floor (1 / 10 ^ 2) (fmul old (exp (fmul (flit 5 4) normal)))) as (r & -> & Hr).
  unfold set_idx. rewrite decide_True by lia. cbn [rbind].
  eexists _, _. split; [done|]. split.
  - split; [done|]. split; [apply Z.mod_pos_bound; lia|].
    exists (r - 5 / 10 ^ 3). cbn. split_and!; [done|f_equal; lra|lra].
  - split; cbn [mids_]; [by rewrite length_insert|]. apply Forall_insert; [done|by exists r].
Qed.

Theorem simulated_prices n sim draws :
  NewMarketSimulator n = Ok sim -> Forall (fun d => snd (fst d) < n)%nat draws ->
  exists es sim', NextEvents exp draws sim = Ok (es, sim') /\ Forall (quoted n) es /\ length es = length draws.
Proof.
  intros Hnew HF.
  assert (Hs : prices_ok n sim).
  { unfold NewMarketSimulator in Hnew. apply bind_Ok in Hnew as ([] & _ & [= <-]). split; cbn [mids_]; [apply length_replicate|].
    apply Forall_replicate. exists 100. apply fint_xreal. }
  clear Hnew. revert sim Hs. induction HF as [|[[dt draw] normal] rest Hd HF IH]; intros sim Hs; [by exists [], sim|].
  cbn [fst snd] in Hd. destruct (NextEvent_ok n dt draw normal sim Hs Hd) as (e & sim1 & E1 & He & Hs1).
  destruct (IH sim1 Hs1) as (es & sim2 & E2 & Hes & Hlen). exists (e :: es), sim2. cbn [NextEvents].
  rewrite E1. cbn [rbind]. rewrite E2. cbn [rbind length]. split_and!; [done|by constructor|by rewrite Hlen].
Qed.
End prices.

Lemma simulated_prices_witness :
  exists es sim', NextEvents (fun x => x) [(5%Z, 1, Some 1%R); (7%Z, 0, None)] (MkSim [fint 100; fint 100] 0) = Ok (es, sim') /\
    Forall (quoted 2) es /\ length es = 2.
Proof. apply (simulated_prices (fun x => x) 2); [reflexivity|by repeat constructor]. Defined.
