(* ===== verification/ProgramFacts.v ===== *)
(** * Parsing a program text

    [ParseProgram] on every source text: it ends, without undefined
    behaviour, and what it returns is described by the text's lines, the
    grammar, the type checker and constant folding. *)

From S2P Require Import Prelude Errors Arith Ast Lexer TypeCheck ConstFold Parser SymbolTable SignalProgram TypeFacts LexerFacts ParserFacts.
From Stdlib Require Import Ascii.

Section program.
Context {D : Type} `{Fp D} `{EqDecision D}.

(** The token vectors of the lexer have the shape the parser relies on. *)
Lemma tiling_shape source pos (toks : list (Token D)) :
  tiling source pos toks ->
  exists body eof, toks = body ++ [eof] /\ tok_kind eof = EndOfFile /\
    Forall (fun t => tok_kind t <> EndOfFile) body.
Proof.
  induction 1 as [|pos n k t toks ? Ht _ (body & eof & -> & He & Hb)].
  - by exists [], (eof_token (length source)).
  - exists (t :: body), eof. split_and!; [done|done|]. constructor; [apply Ht|done].
Qed.

(** A line without its comment and outer blanks. *)
Definition clean (raw_line : list ascii) : list ascii := Trim (strip_comment raw_line).

(** The tokens of a cleaned line, stamped with its number, before the end. *)
Definition line_tokens (line_no : N) (line : list ascii) (body : list (Token D)) : Prop :=
  exists toks eof, Tokenize (str line) = Ok (toks ++ [eof]) /\ body = map (stamp_line line_no) toks.

(** The definitions of the lines, in order, as they are before numbering. *)
Inductive program_text : N -> list (list ascii) -> list (ParamDef D) -> list (SignalDef D) -> Prop :=
| text_end n : program_text n [] [] []
| text_blank n raw lines params signals :
    clean raw = [] -> program_text ((n + 1) mod 2 ^ 32) lines params signals ->
    program_text n (raw :: lines) params signals
| text_param n raw lines params signals body name e v i :
    line_tokens ((n + 1) mod 2 ^ 32) (clean raw) body -> sentence Param body name e ->
    TypeCheckExpr e = Ok TNumber -> AsNumber (FoldConstants e) = Some v ->
    program_text ((n + 1) mod 2 ^ 32) lines params signals ->
    program_text n (raw :: lines) (MkParam (tok_lexeme name) v i (tok_loc name) :: params) signals
| text_signal n raw lines params signals body name e :
    line_tokens ((n + 1) mod 2 ^ 32) (clean raw) body -> sentence Signal body name e ->
    TypeCheckExpr e = Ok TNumber ->
    program_text ((n + 1) mod 2 ^ 32) lines params signals ->
    program_text n (raw :: lines) params (MkSignal (tok_lexeme name) (FoldConstants e) :: signals).

Lemma with_line_safe {A} (Q : A -> Prop) line m : safe Q m -> safe Q (with_line line m).
Proof. by destruct m as [|[]]. Qed.

Lemma TypeCheckSignal_safe (s : SignalDef D) :
  safe (fun _ => TypeCheckExpr (sig_body s) = Ok TNumber) (TypeCheckSignal s).
Proof.
  unfold TypeCheckSignal. pose proof (TypeCheckExpr_safe (sig_body s)) as Hs.
  destruct (TypeCheckExpr (sig_body s)) as [t|[]]; try done. simpl. case_decide; [|done].
  simpl. by subst.
Qed.

Lemma line_tokens_ok line_no (raw : list ascii) :
  safe (fun toks => exists body eof, map (stamp_line line_no) toks = body ++ [eof] /\
      tok_kind eof = EndOfFile /\ Forall (fun t => tok_kind t <> EndOfFile) body /\
      line_tokens line_no (clean raw) body) (Tokenize (D:=D) (str (clean raw))).
Proof.
  pose proof (TokenizeLoop_tiles (D:=D) (chars (str (clean raw)))
    (S (length (chars (str (clean raw))))) 0) as Ht.
  assert (Hs : safe (tiling (chars (str (clean raw))) 0) (Tokenize (D:=D) (str (clean raw))))
    by (apply Ht; lia). clear Ht.
  destruct (Tokenize _) as [toks|] eqn:E; [|exact Hs].
  apply tiling_shape in Hs as (body & eof & -> & He & Hb).
  exists (map (stamp_line line_no) body), (stamp_line line_no eof). split_and!.
  - by rewrite map_app.
  - done.
  - apply Forall_fmap. by eapply Forall_impl.
  - by exists body, eof.
Qed.

(** What one line adds. *)
Definition line_effect (n : N) (raw : list ascii) (out out' : ProgramDef D) : Prop :=
  forall lines params signals,
    program_text ((n + 1) mod 2 ^ 32) lines params signals ->
    exists params' signals', program_text n (raw :: lines) params' signals' /\
      prog_params out ++ params' = prog_params out' ++ params /\
      prog_signals out ++ signals' = prog_signals out' ++ signals.

Lemma ParseLine_safe n raw out :
  safe (line_effect n raw out) (ParseLine out ((n + 1) mod 2 ^ 32) raw).
Proof.
  unfold ParseLine. fold (clean raw). pose proof (line_tokens_ok ((n + 1) mod 2 ^ 32) raw) as Hl.
  destruct (clean raw) as [|c cs] eqn:Hclean.
  { intros lines params signals Ht. exists params, signals.
    split_and!; [by apply text_blank|done|done]. }
  eapply safe_bind; [exact Hl|]. intros toks (body & eof & -> & He & Hb & Htok).
  rewrite <-Hclean in Htok. apply with_line_safe. case_decide as Hfirst.
  - rewrite ParseParamDef_head.
    apply (safe_bind (fun def => exists name e v, sentence Param body name e /\
      TypeCheckExpr e = Ok TNumber /\ AsNumber (FoldConstants e) = Some v /\
      def = MkParam (tok_lexeme name) v (-1) (tok_loc name))).
    + apply definition_head_safe; [done|done|done|]. intros name e Hs.
      eapply safe_bind; [apply TypeCheckSignal_safe|]. intros [] Hty. simpl in Hty.
      destruct (AsNumber (FoldConstants e)) as [v|] eqn:Ev; [|done].
      by exists name, e, v.
    + intros ? (name & e & v & Hs & Hty & Hv & ->). simpl. intros lines params signals Ht.
      exists (MkParam (tok_lexeme name) v (Z.of_nat (length (prog_params out))) (tok_loc name)
        :: params), signals.
      split_and!; [by eapply text_param|by simpl; rewrite <-(assoc app)|done].
  - rewrite ParseSignalDef_head.
    apply (safe_bind (fun def => exists name e, sentence Signal body name e /\
      def = MkSignal (tok_lexeme name) e)).
    + apply definition_head_safe; [done|done|done|]. intros name e Hs. by exists name, e.
    + intros ? (name & e & Hs & ->). eapply safe_bind; [apply TypeCheckSignal_safe|].
      intros [] Hty. simpl in *. intros lines params signals Ht.
      exists params, (MkSignal (tok_lexeme name) (FoldConstants e) :: signals).
      split_and!; [by eapply text_signal|done|by simpl; rewrite <-(assoc app)].
Qed.

Lemma ParseLines_safe lines n out :
  safe (fun out' => exists params signals, program_text n lines params signals /\
      prog_params out' = prog_params out ++ params /\
      prog_signals out' = prog_signals out ++ signals)
    (ParseLines out n lines).
Proof.
  revert n out. induction lines as [|raw lines IH]; intros n out; simpl.
  - exists [], []. rewrite !app_nil_r. split_and!; [constructor|done|done].
  - eapply safe_bind; [apply ParseLine_safe|]. intros out1 H1.
    eapply safe_weaken; [apply IH|]. intros out2 (params & signals & Ht & -> & ->).
    destruct (H1 _ _ _ Ht) as (params' & signals' & Ht' & <- & <-). eauto.
Qed.

(** ** Numbering and names *)

Definition renumber (i : nat) (p : ParamDef D) : ParamDef D :=
  MkParam (par_name p) (par_default p) (Z.of_nat i) (par_loc p).

Lemma number_params_safe params i (ids : gmap string Z) :
  safe (fun '(params', ids') =>
      params' = imap (fun k => renumber (i + k)) params /\
      NoDup (map par_name params) /\ (forall p, p ∈ params -> ids !! par_name p = None) /\
      forall x z, ids' !! x = Some z <->
        ids !! x = Some z \/
        exists k p, params !! k = Some p /\ par_name p = x /\ z = Z.of_nat (i + k))
    (number_params i ids params).
Proof.
  revert i ids. induction params as [|p rest IH]; intros i ids.
  { simpl. split_and!; [done|constructor|set_solver|]. intros x z. split; [by left|].
    by intros [|(k & p & Hp & _)]; [|destruct k]. }
  cbn [number_params par_name par_id]. destruct (ids !! par_name p) as [|] eqn:Hid; [exact I|].
  eapply safe_bind; [apply IH|]. intros [rest' ids'] (-> & Hnd & Hfresh & Hids). simpl.
  split_and!.
  - unfold renumber at 2. rewrite Nat.add_0_r. f_equal. apply imap_ext. intros k q _. simpl.
    by rewrite Nat.add_succ_r.
  - constructor; [|done]. intros (q & E & Hq)%list_elem_of_fmap.
    apply Hfresh in Hq. rewrite <-E, lookup_insert_eq in Hq. discriminate.
  - intros q [->|Hq]%elem_of_cons; [done|]. by apply Hfresh, lookup_insert_None in Hq as [? _].
  - intros x z. rewrite Hids, lookup_insert_Some. split.
    + intros [[[<- <-]|[_ Hx]]|(k & q & Hq & <- & ->)]; [|by left|].
      * right. exists 0, p. split_and!; [done|done|lia].
      * right. exists (S k), q. split_and!; [done|done|lia].
    + intros [Hx|(k & q & Hq & <- & ->)].
      * left. right. split; [congruence|done].
      * destruct k as [|k]; simpl in Hq.
        -- simplify_eq. left. left. split; [done|lia].
        -- right. exists k, q. split_and!; [done|done|lia].
Qed.

Lemma check_signal_names_safe signals names (ids : gmap string Z) :
  safe (fun _ => NoDup (map sig_name signals) /\
      forall s : SignalDef D, s ∈ signals -> sig_name s ∉ names /\ ids !! sig_name s = None)
    (check_signal_names names ids signals).
Proof.
  revert names. induction signals as [|s rest IH]; intros names.
  { simpl. split; [constructor|]. intros s Hs. by apply elem_of_nil in Hs. }
  cbn [check_signal_names]. eapply safe_bind; [apply safe_ensure|]. intros _ Hn%negb_true_iff.
  apply bool_decide_eq_false in Hn. destruct (ids !! sig_name s) eqn:Hid; [exact I|].
  eapply safe_weaken; [apply IH|]. simpl. intros _ [Hnd Hr]. split.
  - constructor; [|done]. intros (q & E & Hq)%list_elem_of_fmap. apply Hr in Hq as [Hq _].
    set_solver.
  - intros q [->|Hq]%elem_of_cons; [done|]. apply Hr in Hq as [Hq ?]. split; [set_solver|done].
Qed.

(** A resolved tree refers to no parameter by name. *)
Lemma ResolveParameterRefs_refs (ids : gmap string Z) (e : Expr D) x :
  x ∈ CollectRefs (ResolveParameterRefs ids e) -> ids !! x = None.
Proof.
  induction e using Expr_rect'; cbn [ResolveParameterRefs].
  - simpl. set_solver.
  - destruct (ids !! n) eqn:E; simpl; set_solver.
  - simpl. set_solver.
  - exact IHe.
  - cbn [CollectRefs]. set_solver.
  - assert (G : forall l : list (Expr D), Forall (fun e => x ∈ CollectRefs (ResolveParameterRefs ids e) ->
        ids !! x = None) l ->
      x ∈ ⋃ (map CollectRefs (map (ResolveParameterRefs ids) l)) -> ids !! x = None).
    { intros l Hl (X & HX & Hx)%elem_of_union_list. rewrite !list_elem_of_fmap in HX.
      destruct HX as (y & -> & (z & -> & Hz)%list_elem_of_fmap).
      rewrite Forall_forall in Hl. by eapply Hl. }
    cbn [CollectRefs]. destruct args as [|a rest].
    { simpl. destruct (IsTickerFirstArgFn n); simpl; set_solver. }
    destruct (IsTickerFirstArgFn n).
    + simpl. apply (G rest). by inversion H0.
    + apply (G (a :: rest)). exact H0.
  - cbn [CollectRefs]. set_solver.
Qed.
End program.

(** C25: parsing a program is total and says what the text says: on every
    source text [ParseProgram] ends, without undefined behaviour, in an
    exception or in the program of the text.  The non-blank lines are, in
    order, sentences of the grammar that type check as numbers: parameters,
    whose folded default is a literal and whose ids are their positions, and
    at least one signal, with its folded body in which every parameter's name
    is a reference to its id.  All names are distinct. *)
Theorem ParseProgram_correct {D} `{Fp D} `{EqDecision D} (source : string) :
  safe (fun program => exists params signals (ids : gmap string Z),
      program_text 0 (getlines (chars source) []) params signals /\
      signals <> [] /\ NoDup (map sig_name signals ++ map par_name params) /\
      prog_params program = imap (fun i p =>
        MkParam (par_name p) (par_default p) (Z.of_nat i) (par_loc p)) params /\
      (forall x z, ids !! x = Some z <->
         exists k p, params !! k = Some p /\ par_name p = x /\ z = Z.of_nat k) /\
      prog_signals program = map (fun s =>
        MkSignal (sig_name s) (ResolveParameterRefs ids (sig_body s))) signals /\
      Forall (fun s => forall x, x ∈ CollectRefs (sig_body s) -> ids !! x = None)
        (prog_signals program))
    (ParseProgram source).
Proof.
  unfold ParseProgram. eapply safe_bind; [apply ParseLines_safe|].
  intros out (params & signals & Ht & Hp & Hs). simpl in Hp, Hs.
  eapply safe_bind; [apply safe_ensure|]. intros _ Hne%negb_true_iff%Nat.eqb_neq.
  eapply safe_bind; [apply number_params_safe|].
  intros [params' ids] (-> & Hnd & _ & Hids).
  eapply safe_bind; [apply check_signal_names_safe|]. intros _ [Hnd' Hfr]. simpl.
  rewrite Hp, Hs in *. exists params, signals, ids. split_and!.
  - exact Ht.
  - by destruct signals.
  - apply NoDup_app. split_and!; [done| |done].
    intros x (s & -> & Hin)%list_elem_of_fmap (p & E & Hp')%list_elem_of_fmap.
    apply Hfr in Hin as [_ Hnone]. apply list_elem_of_lookup in Hp' as [k Hk].
    enough (ids !! sig_name s = Some (Z.of_nat k)) by congruence.
    apply Hids. right. exists k, p. split_and!; [done|done|lia].
  - reflexivity.
  - intros x z. rewrite Hids, lookup_empty. split.
    + intros [|(k & p & ?)]; [done|]. exists k, p. done.
    + intros (k & p & ?). right. by exists k, p.
  - reflexivity.
  - apply Forall_fmap, Forall_forall. intros s _ x. simpl. apply ResolveParameterRefs_refs.
Qed.
