(* ===== verification/InlineFacts.v ===== *)
(** * Inlining signal references

    The depth-first search of [InlineSignalDependencies]: it ends, it throws
    exactly when a name is defined twice or the references have a cycle, and
    otherwise every signal's references are replaced by the resolved bodies.
    The graph is kept as the relation [edge] on positions. *)

From S2P Require Import Prelude Errors Arith Ast Lexer TypeCheck ConstFold Parser SymbolTable SignalProgram.
From stdpp Require Import relations.

Section trees.
Context {D : Type} `{Fp D} `{EqDecision D}.

(** ** The references of an inlined tree *)

Lemma CollectRefs_CloneExpr (e : Expr D) : CollectRefs (CloneExpr e) = CollectRefs e.
Proof.
  induction e using Expr_rect'; simpl; try done; try congruence.
  assert (E : map CollectRefs (map CloneExpr args) = map CollectRefs args).
  { rewrite map_map. by apply map_ext_Forall. }
  by rewrite E.
Qed.

Lemma InlineExpr_refs (defs : gmap string (Expr D)) (e : Expr D) x :
  x ∈ CollectRefs (InlineExpr defs e) ->
  (x ∈ CollectRefs e /\ defs !! x = None) \/
  exists r b, r ∈ CollectRefs e /\ defs !! r = Some b /\ x ∈ CollectRefs b.
Proof.
  induction e using Expr_rect'; cbn [InlineExpr].
  - simpl. set_solver.
  - destruct (defs !! n) as [b|] eqn:E; simpl.
    + rewrite CollectRefs_CloneExpr. intros Hx. right. exists n, b. set_solver.
    + intros ->%elem_of_singleton. left. set_solver.
  - simpl. set_solver.
  - exact IHe.
  - cbn [CollectRefs]. set_solver.
  - cbn [CollectRefs]. rewrite map_map. intros Hx.
    assert (exists a, x ∈ CollectRefs (InlineExpr defs a) /\ a ∈ args /\
      CollectRefs a ⊆ ⋃ (if IsTickerFirstArgFn n then tail (map CollectRefs args)
                          else map CollectRefs args)) as (a & Ha & Hin & Hsub).
    { destruct (IsTickerFirstArgFn n); [destruct args as [|a0 args]; [set_solver|]; simpl in *|].
      all: apply elem_of_union_list in Hx as (X & (a & -> & Ha)%list_elem_of_fmap & Hx).
      all: exists a; split_and!; [done|set_solver|].
      all: intros y Hy; apply elem_of_union_list; exists (CollectRefs a);
        split; [by apply list_elem_of_fmap_2|done]. }
    rewrite Forall_forall in H0. destruct (H0 a Hin Ha) as [[? ?]|(r & b & ? & ? & ?)].
    + left. set_solver.
    + right. exists r, b. set_solver.
  - cbn [CollectRefs]. set_solver.
Qed.

(** ** The index *)

Lemma build_index_spec i l (index : gmap string nat) :
  match build_index i l index with
  | Ok index' =>
      NoDup (map sig_name l) /\ (forall s : SignalDef D, s ∈ l -> index !! sig_name s = None) /\
      forall x j, index' !! x = Some j <->
        index !! x = Some j \/ exists k, j = i + k /\ map sig_name l !! k = Some x
  | Err (RuntimeError _) =>
      ~ NoDup (map sig_name l) \/ exists s, s ∈ l /\ index !! sig_name s <> None
  | Err _ => False
  end.
Proof.
  revert i index. induction l as [|s l IH]; intros i index; cbn [build_index].
  { split_and!; [constructor|set_solver|]. intros x j. split; [by left|].
    by intros [|(k & _ & ?)]. }
  destruct (index !! sig_name s) as [|] eqn:E.
  { right. exists s. split; [set_solver|by rewrite E]. }
  specialize (IH (S i) (<[sig_name s := i]> index)).
  destruct (build_index (S i) l _) as [index'|[]]; try done.
  - destruct IH as (Hnd & Hfr & Hix).
    assert (Hs : sig_name s ∉ map sig_name l).
    { intros (q & Eq & Hq)%list_elem_of_fmap. apply Hfr in Hq.
      by rewrite <-Eq, lookup_insert_eq in Hq. }
    split_and!.
    + by constructor.
    + intros q [->|Hq]%elem_of_cons; [done|]. by apply Hfr, lookup_insert_None in Hq as [? _].
    + intros x j. rewrite Hix, lookup_insert_Some. split.
      * intros [[[<- <-]|[_ Hx]]|(k & -> & Hk)]; [|by left|].
        -- right. exists 0. split; [lia|done].
        -- right. exists (S k). split; [lia|done].
      * intros [Hx|([|k] & -> & Hk)].
        -- left. right. split; [congruence|done].
        -- left. left. simpl in Hk. simplify_eq. split; [done|lia].
        -- right. exists k. split; [lia|done].
  - destruct IH as [Hnd|(q & Hq & Hx)].
    + left. by intros [_ ?]%NoDup_cons.
    + destruct (decide (sig_name q = sig_name s)) as [Heq|Hne].
      * left. intros [Hin _]%NoDup_cons. apply Hin. rewrite <-Heq. by apply list_elem_of_fmap_2.
      * right. exists q. split; [set_solver|]. by rewrite lookup_insert_ne in Hx.
Qed.
Lemma read_resolved_ok (l : list (string * option (Expr D))) :
  (forall i, i < length l -> exists nm b, l !! i = Some (nm, Some b)) ->
  exists out, read_resolved l = Ok out /\ length out = length l /\
    forall i nm b, l !! i = Some (nm, Some b) <-> out !! i = Some (MkSignal nm b).
Proof.
  induction l as [|[nm [b|]] l IH]; intros Hl.
  - exists []. split_and!; [done|done|]. intros i nm b. by rewrite !lookup_nil.
  - destruct IH as (out & E & Hlen & Ho); [intros i Hi; apply (Hl (S i)); simpl; lia|].
    exists (MkSignal nm b :: out). simpl. rewrite E. split_and!; [done|by rewrite Hlen|].
    intros [|i] nm' b'; simpl; [naive_solver|apply Ho].
  - destruct (Hl 0) as (nm' & b' & E); [simpl; lia|]. discriminate.
Qed.
End trees.

Section inline.
Context {D : Type} `{Fp D} `{EqDecision D}.
Variable signals : list (SignalDef D).
Variable set_order : gset string -> list string.
Hypothesis set_order_lists : forall X r, r ∈ set_order X <-> r ∈ X.
Notation n := (length signals).
Notation names := (map sig_name signals).

Section index.
Variable index : gmap string nat.
Hypothesis index_spec : forall x j, index !! x = Some j <-> names !! j = Some x.

(** ** The graph *)

Definition edge (i j : nat) : Prop :=
  exists s r, signals !! i = Some s /\ r ∈ CollectRefs (sig_body s) /\ index !! r = Some j.

Lemma index_lt x j : index !! x = Some j -> j < n.
Proof. rewrite index_spec. intros Hl%lookup_lt_Some. by rewrite length_map in Hl. Qed.

Lemma edge_lt i j : edge i j -> j < n.
Proof. intros (s & r & _ & _ & Hr). by eapply index_lt. Qed.

Definition St : Type := DfsState (D:=D).
Definition done_in (st : St) (j : nat) : Prop := state st !! j = Some Done.

(** The entry of signal [j]: its body with the entries of its references. *)
Definition entry_ok (res : list (string * option (Expr D))) (j : nat) : Prop :=
  exists s defs, signals !! j = Some s /\
    res !! j = Some (sig_name s, Some (InlineExpr defs (sig_body s))) /\
    (forall r b, defs !! r = Some b <->
      r ∈ CollectRefs (sig_body s) /\
      exists k nm, index !! r = Some k /\ res !! k = Some (nm, Some b)) /\
    forall x, x ∈ CollectRefs (InlineExpr defs (sig_body s)) -> index !! x = None.

(** [stack]: the signals being visited, innermost first. *)
Record inv (stack : list nat) (st : St) : Prop := {
  inv_resolved : length (resolved st) = n;
  inv_state : length (state st) = n;
  inv_stack : forall j, state st !! j = Some Visiting <-> j ∈ stack;
  inv_entry : forall j, done_in st j -> entry_ok (resolved st) j;
  inv_closed : forall j k, done_in st j -> edge j k -> done_in st k;
  inv_acyclic : forall j, done_in st j -> ~ tc edge j j;
}.

Lemma closed_tc st stack j k : inv stack st -> done_in st j -> tc edge j k -> done_in st k.
Proof.
  intros Hi Hj Ht. revert Hj. induction Ht as [j k He|j k l He _ IH]; intros Hj.
  - by eapply inv_closed.
  - by eapply IH, inv_closed.
Qed.

(** ** Collecting the resolved bodies *)

Lemma collect_defs_spec res refs defs :
  (forall r k, r ∈ refs -> index !! r = Some k -> exists nm b, res !! k = Some (nm, Some b)) ->
  (forall r b, defs !! r = Some b ->
     exists k nm, index !! r = Some k /\ res !! k = Some (nm, Some b)) ->
  exists defs', collect_defs (D:=D) index res refs defs = Ok defs' /\
    forall r b, defs' !! r = Some b <->
      defs !! r = Some b \/
      r ∈ refs /\ exists k nm, index !! r = Some k /\ res !! k = Some (nm, Some b).
Proof.
  revert defs. induction refs as [|r refs IH]; intros defs Hres Hdefs; cbn [collect_defs].
  { exists defs. split; [done|]. intros r b. split; [by left|]. intros [|[Hr _]]; [done|].
    by apply elem_of_nil in Hr. }
  destruct (index !! r) as [k|] eqn:Hk.
  - destruct (Hres r k) as (nm & b & Hb); [by left|done|].
    unfold at_idx. rewrite Hb. cbn [rbind].
    destruct (IH (match defs !! r with Some _ => defs | None => <[r:=b]> defs end))
      as (defs' & -> & Hd).
    + intros r' k' Hr'. apply Hres. by right.
    + destruct (defs !! r); [done|]. intros r' b'. rewrite lookup_insert_Some.
      intros [[<- <-]|[_ Hr']]; [eauto|by apply Hdefs].
    + exists defs'. split; [done|]. intros r' b'. rewrite Hd, elem_of_cons.
      destruct (defs !! r) as [b0|] eqn:E.
      * split; [naive_solver|]. intros [?|[[->|?] Hx]]; [by left| |by right].
        destruct (Hdefs _ _ E) as (k1 & nm1 & Hk1 & Hr1), Hx as (k2 & nm2 & Hk2 & Hr2).
        left. congruence.
      * rewrite lookup_insert_Some. split.
        -- intros [[[<- <-]|[_ ?]]|[? Hx]]; [|by left|by right; split; [right|]].
           right. split; [by left|]. eauto.
        -- intros [Hr'|[[->|?] Hx]]; [| |by right].
           ++ left. right. split; [congruence|done].
           ++ left. left. split; [done|]. destruct Hx as (k2 & nm2 & Hk2 & Hr2). congruence.
  - destruct (IH defs) as (defs' & -> & Hd); [|done|].
    + intros r' k' Hr'. apply Hres. by right.
    + exists defs'. split; [done|]. intros r' b'. rewrite Hd, elem_of_cons.
      split; [naive_solver|]. intros [|[[->|] Hx]]; [by left| |by right].
      destruct Hx as (k2 & nm2 & Hk2 & _). congruence.
Qed.

(** ** The search *)

(** What a visit promises, from a state with the signals of [stack] under
    visit: it returns with [target] done, or throws on a cycle. *)
Definition visited (stack : list nat) (st : St) (target : nat -> Prop) (r : Res St) : Prop :=
  match r with
  | Ok st' =>
      inv stack st' /\ (forall j, target j -> done_in st' j) /\
      (forall j, done_in st j -> done_in st' j)
  | Err (RuntimeError _) => exists j, tc edge j j
  | Err _ => False
  end.

Lemma visited_bind stack st (P Q : nat -> Prop) r f :
  visited stack st P r ->
  (forall st', inv stack st' -> (forall j, P j -> done_in st' j) ->
     (forall j, done_in st j -> done_in st' j) -> visited stack st' Q (f st')) ->
  visited stack st (fun j => P j \/ Q j) (rbind r f).
Proof.
  destruct r as [st'|[]]; try done. intros (Hi & HP & Hm) Hf. simpl.
  specialize (Hf st' Hi HP Hm). destruct (f st') as [st''|[]]; try done.
  destruct Hf as (Hi' & HQ & Hm'). split_and!; [done| |].
  - intros j [Hj|Hj]; auto.
  - auto.
Qed.

Lemma inv_push stack st i :
  inv stack st -> state st !! i = Some Unvisited -> i ∉ stack ->
  inv (i :: stack) (MkDfs (resolved st) (<[i := Visiting]> (state st))).
Proof.
  intros [Hr Hs Hst He Hc Ha] Hi Hn. pose proof (lookup_lt_Some _ _ _ Hi) as Hlt.
  assert (Hd : forall j, <[i := Visiting]> (state st) !! j = Some Done -> done_in st j).
  { intros j. rewrite list_lookup_insert_Some. by intros [(-> & [=] & _)|[_ ?]]. }
  assert (Hd' : forall j, done_in st j -> <[i := Visiting]> (state st) !! j = Some Done).
  { intros j Hj. rewrite list_lookup_insert_ne; [done|]. intros ->. unfold done_in in Hj.
    congruence. }
  split; unfold done_in; simpl.
  - done.
  - by rewrite length_insert.
  - intros j. rewrite elem_of_cons, <-Hst, list_lookup_insert_Some. split.
    + intros [(-> & _ & _)|[_ ?]]; auto.
    + intros [->|Hj]; [auto|]. right. split; [congruence|done].
  - intros j Hj. by apply He, Hd.
  - intros j k Hj Hjk. by apply Hd', (Hc j), Hjk; apply Hd.
  - intros j Hj. by apply Ha, Hd.
Qed.

Lemma entry_ok_insert res i e j :
  entry_ok res j -> (forall k, edge j k -> k <> i) -> j <> i -> entry_ok (<[i := e]> res) j.
Proof.
  intros (s & defs & Hs & Hr & Hd & Hx) Hk Hj. exists s, defs. split_and!; [done| | |done].
  { by rewrite list_lookup_insert_ne. }
  clear Hx.
  intros r b. rewrite Hd. split; intros [Hin (k & nm & Hx & Hb)]; (split; [done|]);
    exists k, nm; (split; [done|]); assert (k <> i) by (apply Hk; by exists s, r).
  - by rewrite list_lookup_insert_ne.
  - by rewrite list_lookup_insert_ne in Hb.
Qed.

Lemma inv_pop stack st i s defs :
  inv (i :: stack) st -> i ∉ stack -> signals !! i = Some s ->
  (forall k, edge i k -> done_in st k) ->
  (forall r b, defs !! r = Some b <-> r ∈ CollectRefs (sig_body s) /\
     exists k nm, index !! r = Some k /\ resolved st !! k = Some (nm, Some b)) ->
  inv stack (MkDfs (<[i := (sig_name s, Some (InlineExpr defs (sig_body s)))]> (resolved st))
               (<[i := Done]> (state st))).
Proof.
  intros Hi Hn Hs Hk Hdefs. destruct Hi as [Hr Hst Hstack He Hc Ha] eqn:E. clear E.
  assert (Hvis : state st !! i = Some Visiting) by (apply Hstack; by left).
  pose proof (lookup_lt_Some _ _ _ Hvis) as Hlt.
  assert (Hd : forall j, <[i := Done]> (state st) !! j = Some Done <-> j = i \/ done_in st j).
  { intros j. rewrite list_lookup_insert_Some. unfold done_in. split.
    - intros [(-> & _ & _)|[_ ?]]; auto.
    - intros [->|Hj]; [auto|]. right. split; [congruence|done]. }
  assert (Hni : ~ done_in st i) by (unfold done_in; congruence).
  split; unfold done_in; simpl.
  - by rewrite length_insert.
  - by rewrite length_insert.
  - intros j. rewrite list_lookup_insert_Some. specialize (Hstack j). set_unfold.
    split; [naive_solver|]. intros Hj. right. split; [by intros ->|]. apply Hstack. auto.
  - intros j [->|Hj]%Hd.
    + exists s, defs. split_and!; [done|rewrite list_lookup_insert_eq; [done|lia]| |].
      2:{ intros x [[Hx Hno]|(r & b & _ & Hb & Hx)]%InlineExpr_refs.
        - destruct (index !! x) as [k|] eqn:Ek; [|done]. exfalso.
          assert (Hdk : done_in st k) by (apply Hk; by exists s, x).
          destruct (He k Hdk) as (s' & d & _ & E & _).
          assert (defs !! x <> None); [|done]. intros Hnone.
          enough (defs !! x = Some (InlineExpr d (sig_body s'))) by congruence.
          apply Hdefs. eauto.
        - apply Hdefs in Hb as (Hr' & k & nm & Hrk & Hb).
          assert (Hdk : done_in st k) by (apply Hk; by exists s, r).
          destruct (He k Hdk) as (s' & d & _ & E & _ & Hclosed). rewrite E in Hb.
          simplify_eq. by apply Hclosed. }
      intros r b. rewrite Hdefs. split; intros [Hin (k & nm & Hx & Hb)]; (split; [done|]);
        exists k, nm; (split; [done|]);
        assert (k <> i) by (intros ->; apply Hni, Hk; by exists s, r).
      * by rewrite list_lookup_insert_ne.
      * by rewrite list_lookup_insert_ne in Hb.
    + apply entry_ok_insert; [by apply He| |by intros ->]. intros k Hjk ->. by eapply Hni, Hc.
  - intros j k [->|Hj]%Hd Hjk; apply Hd; right; [by apply Hk|by eapply Hc].
  - intros j [->|Hj]%Hd; [|by apply Ha]. intros Ht. apply Hni.
    inversion Ht as [? ? Hii|? k ? Hik Hki]; subst; [by apply Hk|].
    eapply closed_tc; [exact Hi|by apply Hk|done].
Qed.

Notation visit fuel := (fix visit (rs : list string) (st : DfsState) : Res DfsState :=
  match rs with
  | [] => Ok st
  | r :: rs' =>
      match index !! r with
      | None => visit rs' st
      | Some j => st <- dfs signals set_order index fuel j st;; visit rs' st
      end
  end).

Definition referenced (rs : list string) (j : nat) : Prop := exists r, r ∈ rs /\ index !! r = Some j.

Lemma visit_visited fuel stack rs st :
  (forall st j, inv stack st -> referenced rs j ->
     visited stack st (eq j) (dfs signals set_order index fuel j st)) ->
  inv stack st -> visited stack st (referenced rs) (visit fuel rs st).
Proof.
  revert st. induction rs as [|r rs IH]; intros st Hd Hi.
  { split_and!; [done| |done]. intros j (r & Hr & _). by apply elem_of_nil in Hr. }
  assert (Hrest : forall st, inv stack st -> visited stack st (referenced rs) (visit fuel rs st)).
  { intros st' Hi'. apply IH; [|done]. intros st'' j Hi'' (r' & Hr' & Hj).
    apply Hd; [done|]. exists r'. split; [by right|done]. }
  destruct (index !! r) as [j|] eqn:E.
  - pose proof (visited_bind stack st (eq j) (referenced rs) _ (fun st => visit fuel rs st)
      (Hd st j Hi (ex_intro _ r (conj (list_elem_of_here _ _) E)))
      (fun st' Hi' _ _ => Hrest st' Hi')) as Hv.
    destruct (rbind _ _) as [st'|[]]; try done. destruct Hv as (? & Ht & ?).
    split_and!; [done| |done]. intros k (r' & [->|Hr']%elem_of_cons & Hk); apply Ht.
    + left. congruence.
    + right. by exists r'.
  - specialize (Hrest st Hi). destruct (visit fuel rs st) as [st'|[]]; try done.
    destruct Hrest as (? & Ht & ?). split_and!; [done| |done].
    intros k (r' & [->|Hr']%elem_of_cons & Hk); [congruence|]. apply Ht. by exists r'.
Qed.

Lemma dfs_visited fuel i stack st :
  inv stack st -> i < n -> NoDup stack -> (forall a, a ∈ stack -> tc edge a i) ->
  n < fuel + length stack -> visited stack st (eq i) (dfs signals set_order index fuel i st).
Proof.
  revert i stack st. induction fuel as [|fuel IH]; intros i stack st Hi Hlt Hnd Hpath Hf.
  { exfalso. assert (length stack <= n); [|simpl in *; lia].
    rewrite <-(length_seq n 0). apply submseteq_length, NoDup_submseteq; [done|].
    intros j Hj%(inv_stack _ _ Hi)%lookup_lt_Some. rewrite (inv_state _ _ Hi) in Hj.
    apply elem_of_seq. lia. }
  cbn [dfs]. destruct (lookup_lt_is_Some_2 signals i Hlt) as [s Hs].
  destruct (lookup_lt_is_Some_2 (state st) i) as [m Hm]; [by rewrite (inv_state _ _ Hi)|].
  unfold at_idx. rewrite Hs, Hm. cbn [rbind].
  destruct m.
  - assert (Hn : i ∉ stack) by (rewrite <-(inv_stack _ _ Hi); congruence).
    set (refs := set_order (CollectRefs (sig_body s))).
    assert (Hedge : forall k, edge i k <-> referenced refs k).
    { intros k. unfold edge, referenced, refs. setoid_rewrite set_order_lists. naive_solver. }
    set (st1 := MkDfs (resolved st) (<[i := Visiting]> (state st))).
    assert (Hv : visited (i :: stack) st1 (referenced refs) (visit fuel refs st1)).
    { apply visit_visited; [|by apply inv_push]. intros st' j Hi' Hj.
      apply IH; [done|by eapply edge_lt, Hedge|by constructor| |simpl; lia].
      intros a [->|Ha]%elem_of_cons; [by apply tc_once, Hedge|].
      eapply tc_r; [by apply Hpath|by apply Hedge]. }
    destruct (visit fuel refs st1) as [st2|[]]; try done. destruct Hv as (Hi2 & Ht & Hmono).
    destruct (collect_defs_spec (resolved st2) refs ∅) as (defs & Hdefs & Hspec).
    + intros r k Hr Hk. assert (Hd : done_in st2 k) by (apply Ht; by exists r).
      destruct (inv_entry _ _ Hi2 _ Hd) as (s' & d & _ & E & _). eauto.
    + intros r b. by rewrite lookup_empty.
    + cbn [rbind]. rewrite Hdefs. cbn [rbind]. split_and!.
      * apply inv_pop; [done|done|done| |].
        -- intros k Hk. by apply Ht, Hedge.
        -- intros r b. rewrite Hspec, lookup_empty. unfold refs. rewrite set_order_lists.
           naive_solver.
      * intros j <-. unfold done_in. simpl. apply list_lookup_insert_eq.
        rewrite (inv_state _ _ Hi2). done.
      * intros j Hj. unfold done_in. simpl. destruct (decide (i = j)) as [<-|].
        -- apply list_lookup_insert_eq. by rewrite (inv_state _ _ Hi2).
        -- rewrite list_lookup_insert_ne by done. apply Hmono. unfold done_in, st1. simpl.
           by rewrite list_lookup_insert_ne.
  - cbn [visited]. exists i. apply Hpath. by apply (inv_stack _ _ Hi).
  - split_and!; [done|by intros j <-|done].
Qed.

Lemma dfs_all_visited todo st :
  inv [] st -> (forall j, j ∈ todo -> j < n) ->
  visited [] st (fun j => j ∈ todo) (dfs_all signals set_order index todo st).
Proof.
  revert st. induction todo as [|i todo IH]; intros st Hi Hlt.
  { split_and!; [done| |done]. intros j Hj. by apply elem_of_nil in Hj. }
  cbn [dfs_all].
  pose proof (visited_bind [] st (eq i) (fun j => j ∈ todo) _
    (dfs_all signals set_order index todo)
    (dfs_visited (S n) i [] st Hi (Hlt i (list_elem_of_here _ _)) (NoDup_nil_2 (A:=nat))
       (fun a Ha => match not_elem_of_nil _ Ha with end) ltac:(simpl; lia))
    (fun st' Hi' _ _ => IH st' Hi' (fun j Hj => Hlt j (list_elem_of_further _ _ _ Hj)))) as Hv.
  destruct (rbind _ _) as [st'|[]]; try done. destruct Hv as (? & Ht & ?).
  split_and!; [done| |done]. intros j [->|Hj]%elem_of_cons; apply Ht; auto.
Qed.

Lemma inv_init : inv [] (MkDfs (replicate n ("", None)) (replicate n Unvisited)).
Proof.
  assert (Hm : forall j m, replicate n Unvisited !! j = Some m -> m = Unvisited).
  { intros j m Hj. by apply lookup_replicate_1 in Hj as [-> _]. }
  split; unfold done_in; simpl; rewrite ?length_replicate; try done.
  - intros j. split; [by intros ?%Hm|by intros ?%elem_of_nil].
  - by intros j ?%Hm.
  - by intros j k ?%Hm.
  - by intros j ?%Hm.
Qed.
End index.

End inline.

Section theorem.
Context {D : Type} `{Fp D} `{EqDecision D}.

(** One signal refers to another by name, outside a ticker position. *)
Definition depends (signals : list (SignalDef D)) (s1 s2 : SignalDef D) : Prop :=
  s1 ∈ signals /\ s2 ∈ signals /\ sig_name s2 ∈ CollectRefs (sig_body s1).

(** [out] are the signals with every reference replaced by the body in
    [out] of the signal it names. *)
Definition inlined (signals out : list (SignalDef D)) : Prop :=
  length out = length signals /\
  forall i s, signals !! i = Some s ->
    exists defs, out !! i = Some (MkSignal (sig_name s) (InlineExpr defs (sig_body s))) /\
      forall r b, defs !! r = Some b <-> r ∈ CollectRefs (sig_body s) /\ MkSignal r b ∈ out.

Lemma names_lookup (signals : list (SignalDef D)) j x :
  map sig_name signals !! j = Some x <-> exists s, signals !! j = Some s /\ sig_name s = x.
Proof. rewrite list_lookup_fmap, fmap_Some. naive_solver. Qed.

Lemma names_inj (signals : list (SignalDef D)) i j s1 s2 :
  NoDup (map sig_name signals) -> signals !! i = Some s1 -> signals !! j = Some s2 ->
  sig_name s1 = sig_name s2 -> i = j.
Proof.
  intros Hnd H1 H2 E. eapply (NoDup_lookup _ i j (sig_name s1) Hnd); apply names_lookup; eauto.
Qed.

Section graph.
Variable signals : list (SignalDef D).
Variable index : gmap string nat.
Hypothesis Hnd : NoDup (map sig_name signals).
Hypothesis index_spec : forall x j, index !! x = Some j <-> map sig_name signals !! j = Some x.

Lemma depends_edge i s1 s2 :
  signals !! i = Some s1 -> depends signals s1 s2 ->
  exists j, signals !! j = Some s2 /\ edge signals index i j.
Proof.
  intros Hi (_ & [j Hj]%list_elem_of_lookup & Hr). exists j. split; [done|].
  exists s1, (sig_name s2). split_and!; [done|done|]. apply index_spec, names_lookup. eauto.
Qed.

Lemma edge_depends i j :
  edge signals index i j ->
  exists s1 s2, signals !! i = Some s1 /\ signals !! j = Some s2 /\ depends signals s1 s2.
Proof.
  intros (s & r & Hs & Hr & Hj). apply index_spec, names_lookup in Hj as (s2 & Hj & <-).
  exists s, s2. split_and!; [done|done|]. split_and!; [|by eapply list_elem_of_lookup_2|done].
  by eapply list_elem_of_lookup_2.
Qed.

Lemma cycle_iff : (exists j, tc (edge signals index) j j) <-> exists s, tc (depends signals) s s.
Proof.
  assert (F : forall i j, tc (edge signals index) i j ->
    exists s1 s2, signals !! i = Some s1 /\ signals !! j = Some s2 /\ tc (depends signals) s1 s2).
  { induction 1 as [i j He|i j k He _ (s2 & s3 & H2 & H3 & Ht)].
    - apply edge_depends in He as (s1 & s2 & ? & ? & ?). exists s1, s2.
      split_and!; [done|done|by apply tc_once].
    - apply edge_depends in He as (s1 & s2' & ? & ? & ?). simplify_eq. exists s1, s3.
      split_and!; [done|done|by eapply tc_l]. }
  assert (B : forall s1 s2, tc (depends signals) s1 s2 -> forall i, signals !! i = Some s1 ->
    exists j, signals !! j = Some s2 /\ tc (edge signals index) i j).
  { induction 1 as [s1 s2 Hd|s1 s2 s3 Hd _ IH]; intros i Hi.
    - destruct (depends_edge _ _ _ Hi Hd) as (j & Hj & He). exists j. split; [done|by apply tc_once].
    - destruct (depends_edge _ _ _ Hi Hd) as (j & Hj & He), (IH j) as (k & Hk & Ht); [done|].
      exists k. split; [done|by eapply tc_l]. }
  split.
  - intros (j & (s1 & s2 & H1 & H2 & Ht)%F). simplify_eq. eauto.
  - intros (s & Ht). assert (exists i, signals !! i = Some s) as (i & Hi).
    { assert (s ∈ signals) by (by inversion Ht as [? ? (? & _)|? ? ? (? & _)]).
      by apply list_elem_of_lookup. }
    destruct (B _ _ Ht i Hi) as (j & Hj & He). exists i.
    replace j with i in He; [done|]. by eapply names_inj.
Qed.
End graph.

(** C16: inlining is total and correct: for any order in which the sets of
    references are traversed, [InlineSignalDependencies] ends; it throws
    exactly when two signals share a name or the references have a cycle;
    otherwise each signal keeps its name and position, every reference in its
    body is replaced by the inlined body of the signal it names, and no
    reference to a signal is left. *)
Theorem InlineSignalDependencies_correct (set_order : gset string -> list string)
  (signals : list (SignalDef D)) :
  (forall X r, r ∈ set_order X <-> r ∈ X) ->
  match InlineSignalDependencies signals set_order with
  | Ok out =>
      NoDup (map sig_name signals) /\ (forall s, ~ tc (depends signals) s s) /\
      inlined signals out /\
      (forall s x, s ∈ out -> x ∈ CollectRefs (sig_body s) -> x ∉ map sig_name signals)
  | Err (RuntimeError _) =>
      ~ NoDup (map sig_name signals) \/ exists s, tc (depends signals) s s
  | Err _ => False
  end.
Proof.
  intros Hord. unfold InlineSignalDependencies.
  pose proof (build_index_spec 0 signals ∅) as Hix.
  destruct (build_index 0 signals ∅) as [index|[]]; try done.
  2:{ destruct Hix as [?|(s & _ & E)]; [by left|]. by rewrite lookup_empty in E. }
  destruct Hix as (Hnd & _ & Hix).
  assert (Hspec : forall x j, index !! x = Some j <-> map sig_name signals !! j = Some x).
  { intros x j. rewrite Hix, lookup_empty. naive_solver. }
  clear Hix. cbn [rbind].
  pose proof (dfs_all_visited signals set_order Hord index Hspec (seq 0 (length signals)) _
    (inv_init signals index) (fun j Hj => proj2 (proj1 (elem_of_seq _ _ _) Hj))) as Hv.
  destruct (dfs_all _ _ _ _ _) as [st|[]]; try done.
  2:{ right. by apply (cycle_iff signals index Hnd Hspec). }
  destruct Hv as (Hi & Hdone & _). cbn [rbind].
  assert (Hall : forall j, j < length signals -> done_in st j).
  { intros j Hj. apply Hdone, elem_of_seq. lia. }
  destruct (read_resolved_ok (resolved st)) as (out & -> & Hlen & Hout).
  { intros i. rewrite (inv_resolved _ _ _ _ Hi). intros Hlt%Hall.
    destruct (inv_entry _ _ _ _ Hi _ Hlt) as (s & d & _ & E & _). eauto. }
  assert (Hentry : forall i s, signals !! i = Some s -> entry_ok signals index (resolved st) i).
  { intros i s Hs. by apply (inv_entry _ _ _ _ Hi), Hall, (lookup_lt_Some _ _ s). }
  assert (Hmem : forall r b, MkSignal r b ∈ out <->
    exists k nm, index !! r = Some k /\ resolved st !! k = Some (nm, Some b)).
  { intros r b. rewrite list_elem_of_lookup. split.
    - intros (k & Hk%Hout). exists k, r. split; [|done].
      destruct (lookup_lt_is_Some_2 signals k) as [s Hs].
      { rewrite <-(inv_resolved _ _ _ _ Hi). by eapply lookup_lt_Some. }
      destruct (Hentry _ _ Hs) as (s' & d & Hs' & E & _). apply Hspec, names_lookup.
      exists s'. split; [done|congruence].
    - intros (k & nm & Hk & Hb). exists k. apply Hout.
      apply Hspec, names_lookup in Hk as (s & Hs & <-).
      destruct (Hentry _ _ Hs) as (s' & d & Hs' & E & _). congruence. }
  split_and!; [done| | |].
  - intros s Hs. destruct (proj2 (cycle_iff signals index Hnd Hspec)) as (j & Hj); [by exists s|].
    apply (inv_acyclic _ _ _ _ Hi j); [|done]. apply Hall.
    inversion Hj as [? ? He|? ? ? He]; subst; apply edge_depends in He as (? & ? & ? & _); try done;
      by eapply lookup_lt_Some.
  - split; [by rewrite Hlen, (inv_resolved _ _ _ _ Hi)|]. intros i s Hs.
    destruct (Hentry _ _ Hs) as (s' & d & Hs' & E & Hd & _). simplify_eq.
    exists d. split; [by apply Hout|]. intros r b. by rewrite Hd, Hmem.
  - intros [nm b] x (i & Hb%Hout)%list_elem_of_lookup Hx Hin. simpl in Hx.
    destruct (lookup_lt_is_Some_2 signals i) as [s Hs].
    { rewrite <-(inv_resolved _ _ _ _ Hi). by eapply lookup_lt_Some. }
    destruct (Hentry _ _ Hs) as (s' & d & Hs' & E & _ & Hc). simplify_eq.
    apply list_elem_of_lookup in Hin as (j & Hj). apply Hspec in Hj.
    by rewrite Hc in Hj.
Qed.
End theorem.

(** [signal a = b * b], [signal b = c - 4], [signal c = 4]. *)
Definition inline_example : list (SignalDef double) :=
  [MkSignal "a" (BinaryOp noloc Mul (IdentifierExpr noloc "b") (IdentifierExpr noloc "b"));
   MkSignal "b" (BinaryOp noloc Sub (IdentifierExpr noloc "c") (NumberLiteral noloc (fint 4)));
   MkSignal "c" (NumberLiteral noloc (fint 4))].

Lemma InlineSignalDependencies_correct_witness :
  exists out, InlineSignalDependencies inline_example elements = Ok out /\
    inlined inline_example out /\ (forall s, ~ tc (depends inline_example) s s).
Proof.
  pose proof (InlineSignalDependencies_correct elements inline_example
    (fun X r => elem_of_elements X r)) as P.
  destruct (InlineSignalDependencies inline_example elements) as [out|] eqn:E.
  - destruct P as (_ & Ha & Hi & _). exists out. split; [reflexivity|]. split; [exact Hi|exact Ha].
  - exfalso. vm_compute in E. discriminate E.
Defined.
